(* ===== verification/_CoqProject ===== *)
-Q . S2P
Prelude.v
GoStrings.v
GoFloat.v
GoStrconv.v
GoUtf8.v
GoValue.v
DslTypes.v
DslParser.v
DslScan.v
DslParserSpec.v
DslEval.v
DslEvalSpec.v
DslRefs.v
GoCsv.v
GoJson.v
GoSha256.v
RefTable.v
RefTableSpec.v
GoPath.v
RefSource.v
JsonReader.v
JsonReaderSpec.v
JsonWalk.v
JsonScan.v
JsonTokens.v
JsonScanSpec.v
JsonDoc.v
JsonDocSpec.v
JsonNav.v
JsonLines.v
IndexHeader.v
IndexHeaderSpec.v
ParPipe.v
ParPipeSpec.v
IndexJson.v
ParJson.v
ParJsonSpec.v
JsonOrder.v
IndexJsonSpec.v
DslAccum.v
DslAccumSpec.v
DslRuntime.v
DslRuntimeSpec.v
ValueProfile.v
ValueProfileSpec.v
Transforms.v
Extract.v
ExtractSpec.v
ExtractPrepare.v
ExtractPrepareSpec.v
ExtractFile.v
ExtractStream.v
ExtractFileSpec.v
ExtractSample.v
DurableFs.v
DurableFsSpec.v
DurableCommit.v
DurableCommitSpec.v
DurableShards.v
AggregateWriter.v
AggregateSpec.v
AggregateRunSpec.v
AggregateSample.v
ProvRoot.v
InputWorkers.v
InputWorkersSpec.v
Provenance.v
OutputDirs.v
JsonTarget.v
Ledger.v
MultiApply.v
MultiApplySpec.v
MultiDispatch.v
MultiDispatchSpec.v
MultiFinish.v
MultiFinishSpec.v
MultiSample.v
CloudStage.v
StagingBudget.v
StagingBudgetSpec.v
