(* ===== verification/Prelude.v ===== *)
(** * Sumpter: a verification development

    Sumpter extracts records from XML and JSON files by recipe: a record
    selector says where a record starts, fields are read from it, a validation
    pipeline written in a small expression language judges them, and for large
    sources an index of record byte ranges lets a pool of workers extract them
    in parallel. This development models the parts of the program whose
    correctness is a matter of its own code and not of a library it calls, and
    proves what they promise. Paths below are under src/internal, or under src
    where they start with cmd.

    ** The parts and their files

    The Go language and its standard library, as far as the program uses
    them: [Prelude] (the error monad, maps as lists, sorting, generic lemmas),
    [GoStrings], [GoUtf8] (byte strings, runes), [GoFloat], [GoStrconv]
    (binary64, number syntax), [GoValue] (dynamic values, errors as format and
    arguments), [GoCsv] (streams, lines, encoding/csv), [GoJson]
    (encoding/json's tokens), [GoSha256], [GoPath] (path/filepath).

    The validation language (validation/dsl): [DslTypes] (types.go: rules,
    defaults, failure policy), [DslParser] (parser.go), [DslEval]
    (evaluator.go), [DslRefs] (references.go), [DslAccum] (accumulator.go),
    [DslRuntime] (runtime.go: the pipeline accumulate, aggregate, reconcile,
    validate on one record). What they compute: [DslScan], [DslParserSpec],
    [DslEvalSpec], [DslAccumSpec], [DslRuntimeSpec].

    Reference tables (reftable): [RefTable] (reftable.go, parse.go, load.go),
    [RefSource] (source.go), with [RefTableSpec].

    JSON documents (docnode/json): [JsonReader] (walker.go: the validating
    reader), [JsonWalk] (walker.go, parse.go, tree.go, record.go), [JsonScan]
    (scanner.go, ndjson.go), [JsonNav] (navigator.go, json.go). What they
    compute: [JsonReaderSpec], [JsonTokens], [JsonScanSpec] (the scanner
    refines a machine without buffers), [JsonDoc], [JsonDocSpec] (tree and
    records of one value), [JsonLines].

    Record indexes (index): [IndexHeader] (types.go, semantics.go,
    namespace_context.go), [IndexJson] (json_source.go, builder_json.go,
    verify_json.go, verifier.go), with [IndexHeaderSpec], [IndexJsonSpec].

    Parallel extraction (extract/parallel): [ParPipe] (scheduler.go,
    aggregator.go, extractor.go, orchestrator.go: the pipeline over an XML
    index), [ParJson] (json.go: the run over a JSON index), with
    [ParPipeSpec], [ParJsonSpec] and [JsonOrder] (ranges in document order).

    Record extraction (extract): [Transforms] (transforms: the text
    transforms), [Extract] (extractor.go, internalfield.go, helpers.go: values,
    records, envelopes), [ExtractPrepare] (extractor.go, format.go,
    namespaces.go, clone.go: the checks and compilation of a configuration),
    [ExtractFile] (extractor.go, sink.go: signatures, applicability, the
    whole-document route), [ExtractStream] (extractor.go: reading, the
    streaming route, the choice of a route), with [ExtractSpec],
    [ExtractPrepareSpec], [ExtractFileSpec] and [ExtractSample], which runs the
    model on a concrete engine.

    Value profiles (valueprofile): [ValueProfile] (config.go, collector.go) with
    [ValueProfileSpec].

    Aggregate output (cmd/sumpter/commands): [DurableFs] (a file system that can
    crash and whose every call can fail; path/filepath's Dir), [DurableCommit]
    (durable_commit.go: one owned directory, staging files, shards, sidecars,
    the manifest as the marker, the abort), [AggregateWriter]
    (extract_aggregate.go: shards by caps, the barrier around an input, the run
    over the inputs), with [DurableFsSpec] (a Hoare logic for programs over the
    file system), [DurableCommitSpec] (frames: what the protocol leaves alone),
    [DurableShards] (what a successful step leaves on the disk), [AggregateSpec],
    [AggregateRunSpec] and [AggregateSample], a run with faults.

    Extraction by many recipes (cmd/sumpter/commands): [ProvRoot]
    (provenance_root.go, file_list_verify.go; uriio/scheme.go,
    provenance/root.go: references, the provenance root, what diagnostics may
    show), [Provenance] (provenance/manifest.go: paths and arguments as shown,
    input rows), [OutputDirs] (extract_multi.go: one
    directory per recipe), [Ledger] (extract.go, extract_aggregate.go,
    input_availability.go: dispositions, failures, floors), [JsonTarget]
    (extract.go, extract/sink.go: one output file per input), [MultiApply]
    (extract_multi_bundle.go: the build of one recipe on one input and its
    commit), [InputWorkers] (extract_multi_dispatch.go: the goroutines as a step
    relation), [MultiDispatch] (extract_multi_dispatch.go: one input for every
    recipe, the run over the inputs), [MultiFinish] (extract_multi_aggregate.go,
    extract_multi_dispatch.go: finalization and clean-up), with
    [MultiApplySpec], [InputWorkersSpec], [MultiDispatchSpec],
    [MultiFinishSpec] and [MultiSample], a pass of two recipes on two workers.

    Cloud staging (uriio): [CloudStage] (stage.go, session.go, head.go: the path
    of a staged object, what is said of a provider's error), [StagingBudget]
    (staging_budget.go; session.go: acquireS3Bounded and retryTransient, the
    acquisitions of a run as a step relation), with [StagingBudgetSpec], which
    ends with two objects and room for one.

    They meet as in the program: the parser's trees are evaluated with the
    reference tables as the [ReferenceLookup] of the environment; a JSON
    source is scanned by the same scanner when its index is built and when it
    is verified; the indexed run reads the index's records, checks each
    against the header and the source and parses its bytes with the walker;
    extraction evaluates expressions with the language's evaluator, runs its
    validation pipeline on each record and scans streams by the selectors and
    formats above. Each recipe of a pass applies the extraction to the parsed
    document with a sink of its own, writes through the aggregate writer or an
    output target, and keeps the ledgers its manifest is made of; the recipes
    share one file system, and the part of the state a program works on is
    chosen with [zoom].

    ** How state and effects are modelled

    A function with an error result is a function into [res]; an error is its
    format string and its arguments. Methods that change their receiver return
    the new receiver. A Go map is a [gmap], or, where the program ranges over
    it, a list of pairs without duplicate keys whose order is the order of the
    range; theorems then hold for every order. Machine integers are [Z], with
    the wrap-around written out where the code can reach it. Goroutines and
    channels are a step relation: one constructor per atomic action of one
    goroutine on the shared state, with cancellation possible at any time.

    ** What the theorems show

    - the language: the parser reads the text of an expression back (floats,
      and literals with quotes, backslashes or parentheses, apart); typed
      expressions evaluate without type errors; the pre-flight finds every
      table an evaluation can ask for; accumulators agree with a definition on
      the whole list of records; the validation loop, reconciliations,
      groups, aggregations and the failure policy do what the configuration
      says;
    - reference tables: loading succeeds on a valid declaration and a source
      within its caps and, a JSON null in a declared field apart, on nothing
      else, and queries answer by the source's entries; an accepted local source
      lies below the workspace;
    - JSON: the reader's result does not depend on chunking, as long as a
      failing read brings no bytes; the walk accepts
      exactly one object or array with distinct keys and bounded depth; the
      record stream agrees with the tree, byte for byte, and always ends;
    - indexes: an index that was built lists the records of the scan and
      verifies; verification accepts exactly the index a build would make; the
      indexed run refuses none of its records within the size limit; its order
      check accepts exactly document order;
    - extraction: values have the type their mapping declares; derive-only
      fields steer a record and are never emitted; a document's records are
      those of its selected nodes in order; the envelope keeps the record; a
      prepared configuration prepares to itself; the input format that was
      resolved is the one every later step reads; the routes with and without
      a sink agree, the streaming route delivers the longest prefix it can
      process, and every file with a sink ends in one boundary that agrees
      with its result;
    - value profiles: what is published is the count of the durable records
      (where no value reads as NaN) and lists values only where the
      configuration and the guard allow it;
    - aggregate output: in every state of a durable run up to the withdrawal of
      its manifest by a clean-up, crashes and failing calls included, a manifest
      that can be found is whole and its shards are on the disk with exactly the
      records of the inputs that did not fail; in the rest of the clean-up too,
      if the withdrawal left no manifest (two samples show what happens if it
      did); a run leaves the files that were there alone; an abort that can do its work
      leaves nothing of the run;
    - many recipes: on any number of workers and for any interleaving a pass does
      what the serial loop does; its pool is never stuck and always ends,
      interrupted or not; when the inputs have gone through, every recipe's
      applied and failed inputs add up, and its manifest's accounting agrees
      with failures.json and with its writer; a pass that continues on errors
      has a clean exit only when nothing failed; an input's bundle stays
      within its limits; the recipes' directories lie below the output root and
      are told apart even without regard to case; the manifest's arguments do
      not depend on the value of a flag or parameter with a secret name, of the
      root flag or of an internal parameter;
    - cloud staging: a key is accepted exactly when it names a file below the
      staging directory; a redacted text has nothing shaped like a key id; the
      staging budget counts exactly what is fetched or held, stays within its
      caps (below [2^62] bytes, where the code's sum cannot wrap), and no
      goroutine is left asleep in it;
    - parallel runs: whatever the interleaving, output is in record order
      without gap or duplicate, the run over a JSON index equals extraction
      of one record after the other, errors included, a cancelled run emits a
      prefix, buffers stay within their bounds, and every run ends (for the XML
      pipeline: with at least one worker, over an index iterator that ends).

    ** Fuel

    [ParseExpression] and the JSON walk and scan take fuel: the length of
    their text. [ParseExpression_unfold], [parse_spec] and [scan_ends] state
    that it never runs out. The step relations of the runs have no fuel; that
    they end is proved by a measure. The climb to an existing directory takes
    one step more than the path has components, and [mkdir_all] one more than it
    has bytes.

    ** What is not modelled

    The XML side (encoding/xml tokens, the xmlquery tree, the streaming XML
    scanner) runs on libraries outside the repository. So do XPath, the JSON
    schema validator and title casing: extraction takes them, and the nodes of
    documents, as the interface [Engine], and files, gzip and the formats' entry
    points as the interface [Inputs]. The parallel components take the
    extraction of one record as a parameter. YAML decoding, logging and the
    warnings about unprefixed names are left out; an error is a tree, so where
    the program rewrites an error's text the tree keeps the original as a cause.
    Files are read once, as a string or as the sequence of results their reads
    deliver; writing indexes, stores, Parquet and reports is I/O. In [ParPipe] sending a result and giving its window
    slot back are one step; the legacy scheduler that loads the index first and
    ExtractToSink are left out. In [ParJson] the first hashing of the source, a
    store that cannot start to iterate and a worker whose configuration cannot
    be prepared are left out. In [DurableFs] a path names one file or
    directory (no links), and other processes do not interfere. Whether a path
    survives a crash is decided by the syncs of its own directory, path by path:
    the entries of the directories above it are taken to be there, so what the
    syncs of a new output directory's ancestors are for does not show. The
    writer's cloud shards, the bytes of
    manifest and sidecars and the processing of an input are parameters of
    [AggregateWriter]. A pass over many recipes starts from its resolved inputs
    and loaded recipes; staging a cloud input, the snapshot of a verified one,
    the parser, the descriptor and the checks of published output are
    parameters, and the slots of bounded staging, run statistics and the
    process-run stream are left out, and a panic inside a commit is not
    modelled. Of cloud storage, unbounded acquisition, listing, publication,
    credentials and the pool of providers are left out; the provider's answers
    are any, and its classification of errors is the interface
    [ProviderErrors]. The single-recipe run over files and the rest of the command line, recipes, schemas, process records, inspection and logging are not
    modelled: they arrange the parts above. *)
From Stdlib Require Import Ascii.
From stdpp Require Import base list strings gmap sorting.
From Stdlib Require Import ZArith Lia.


Declare Scope go_scope.
Delimit Scope go_scope with go.
Open Scope go_scope.

(** An [int64] result: two's complement wrap-around. *)
Definition int64 (z : Z) : Z := ((z + 2 ^ 63) mod 2 ^ 64 - 2 ^ 63)%Z.
Lemma int64_small z : (- 2 ^ 63 ≤ z < 2 ^ 63)%Z → int64 z = z.
Proof. intros Hz. unfold int64. rewrite Z.mod_small by lia. lia. Qed.

(** ** The error monad

    A Go function with results [(T, error)] is a function into [res E T]: the
    value of a non-nil error is never read by the callers modelled here, so
    the two cases are exclusive. *)
Inductive res (E A : Type) : Type :=
| Ok (a : A)
| Err (e : E).
Arguments Ok {E A} a.
Arguments Err {E A} e.

#[export] Instance res_ret {E} : MRet (res E) := λ A a, Ok a.
#[export] Instance res_bind {E} : MBind (res E) :=
  λ A B f m, match m with Ok a => f a | Err e => Err e end.
#[export] Instance res_fmap {E} : FMap (res E) :=
  λ A B f m, match m with Ok a => Ok (f a) | Err e => Err e end.

(** [map_err] is the shape of [fmt.Errorf("...: %w", err)]. *)
Definition map_err {E F A} (f : E → F) (m : res E A) : res F A :=
  match m with Ok a => Ok a | Err e => Err (f e) end.

Definition is_ok {E A} (m : res E A) : bool :=
  match m with Ok _ => true | Err _ => false end.

Definition to_option {E A} (m : res E A) : option A :=
  match m with Ok a => Some a | Err _ => None end.

Lemma res_bind_ok {E A B} (m : res E A) (f : A → res E B) b :
  (m ≫= f) = Ok b ↔ ∃ a, m = Ok a ∧ f a = Ok b.
Proof. destruct m; simpl; naive_solver. Qed.

Lemma to_option_Ok {E A} (m : res E A) a : m = Ok a ↔ to_option m = Some a.
Proof. destruct m; split; simpl; congruence. Qed.

Lemma to_option_bind {E A B} (m : res E A) (f : A → res E B) :
  to_option (m ≫= f) = match to_option m with Some a => to_option (f a) | None => None end.
Proof. by destruct m. Qed.

Lemma res_bind_assoc {E A B C} (m : res E A) (f : A → res E B) (g : B → res E C) :
  ((m ≫= f) ≫= g) = (m ≫= λ a, f a ≫= g).
Proof. by destruct m. Qed.

Lemma map_err_ok {E F A} (f : E → F) (m : res E A) a :
  map_err f m = Ok a ↔ m = Ok a.
Proof. destruct m; simpl; naive_solver. Qed.

Lemma map_err_err {E F A} (f : E → F) (m : res E A) e :
  map_err f m = Err e ↔ ∃ e', m = Err e' ∧ f e' = e.
Proof. destruct m; simpl; naive_solver. Qed.

(** A left fold whose step may fail: the shape of a [for ... range] loop that
    returns on the first error. *)
Fixpoint foldM {E S A} (f : S → A → res E S) (s : S) (l : list A) : res E S :=
  match l with
  | [] => Ok s
  | a :: l => s' ← f s a; foldM f s' l
  end.

Lemma foldM_app {E S A} (f : S → A → res E S) s (l1 l2 : list A) :
  foldM f s (l1 ++ l2) = (foldM f s l1 ≫= λ s', foldM f s' l2).
Proof.
  revert s. induction l1 as [|a l1 IH]; intros s; simpl; [done|].
  destruct (f s a); simpl; [apply IH|done].
Qed.

(** An invariant carried through the loop. *)
Lemma foldM_inv {E S A} (P : S → Prop) (f : S → A → res E S) s (l : list A) s' :
  (∀ s a s', P s → f s a = Ok s' → P s') →
  P s → foldM f s l = Ok s' → P s'.
Proof.
  intros Hstep. revert s. induction l as [|a l IH]; intros s Hs; simpl.
  - by intros [= <-].
  - intros (s1 & Hf & Hl)%res_bind_ok. eauto.
Qed.

(** An invariant whose step may use that the element is in the list. *)
Lemma foldM_inv_in {E S A} (P : S → Prop) (f : S → A → res E S) s (l : list A) s' :
  (∀ s a s', a ∈ l → P s → f s a = Ok s' → P s') → P s → foldM f s l = Ok s' → P s'.
Proof.
  revert s. induction l as [|a l IH]; intros s Hstep Hs; simpl; [by intros [= <-]|].
  intros (s1 & Hf & Hl)%res_bind_ok. eapply IH; [|eapply Hstep; [left|done|done]|done].
  intros ????. eapply Hstep. by right.
Qed.

Lemma NoDup_fmap_eq {A B} (g : A → B) l : NoDup (g <$> l) → ∀ x y, x ∈ l → y ∈ l → g x = g y → x = y.
Proof.
  induction l as [|z l IH]; intros Hnd x y Hx Hy Heq; [by apply elem_of_nil in Hx|]. cbn [fmap list_fmap] in Hnd.
  apply NoDup_cons in Hnd as [Hz Hnd]. apply elem_of_cons in Hx as [->|Hx], Hy as [->|Hy]; try done.
  - destruct Hz. rewrite Heq. by apply list_elem_of_fmap_2.
  - destruct Hz. rewrite <- Heq. by apply list_elem_of_fmap_2.
  - by apply IH.
Qed.

(** ** Tactics *)

(** Case analysis on every [match]/[if] scrutinee in sight, keeping equations. *)
Ltac case_all :=
  repeat (case_match; simplify_eq/=; try done).

Ltac inv_ok :=
  repeat match goal with
  | H : Ok _ = Ok _ |- _ => injection H as H
  | H : Err _ = Err _ |- _ => injection H as H
  | H : Ok _ = Err _ |- _ => discriminate H
  | H : Err _ = Ok _ |- _ => discriminate H
  | H : (_ ≫= _) = Ok _ |- _ =>
      let a := fresh "a" in let H1 := fresh "Hok" in let H2 := fresh "Hok" in
      apply res_bind_ok in H as (a & H1 & H2)
  | H : map_err _ _ = Ok _ |- _ => apply map_err_ok in H
  end.

(** ** Go maps

    A Go map is an association list without repeated keys, in the order one
    particular [range] over it meets the entries: Go leaves that order
    unspecified, so a property of a loop over a map is stated for every
    permutation of the list, and lookups, writes and deletes are the
    operations below. *)
Section gomap.
Context {K V : Type} `{EqDecision K}.
Implicit Types (m : list (K * V)) (k : K) (v : V).

Definition mkeys m : list K := m.*1.

Fixpoint mget k m : option V :=
  match m with
  | [] => None
  | (k', v) :: m => if decide (k = k') then Some v else mget k m
  end.

(** [m[k] = v] *)
Fixpoint mset k v m : list (K * V) :=
  match m with
  | [] => [(k, v)]
  | (k', v') :: m => if decide (k = k') then (k', v) :: m else (k', v') :: mset k v m
  end.

(** [delete(m, k)] *)
Fixpoint mdel k m : list (K * V) :=
  match m with
  | [] => []
  | (k', v') :: m => if decide (k = k') then m else (k', v') :: mdel k m
  end.

Lemma mget_mset k k' v m :
  mget k (mset k' v m) = if decide (k = k') then Some v else mget k m.
Proof.
  induction m as [|[k1 v1] m IH]; simpl; [done|].
  repeat (case_decide; simplify_eq/=; try done).
Qed.

Lemma mget_mset_eq k v m : mget k (mset k v m) = Some v.
Proof. rewrite mget_mset. by rewrite decide_True. Qed.

Lemma mget_mset_ne k k' v m : k ≠ k' → mget k (mset k' v m) = mget k m.
Proof. intros. rewrite mget_mset. by rewrite decide_False. Qed.

Lemma mget_None k m : mget k m = None ↔ k ∉ mkeys m.
Proof.
  induction m as [|[k1 v1] m IH]; simpl; [set_solver|].
  case_decide; subst; rewrite ?not_elem_of_cons; set_solver.
Qed.

Lemma mget_Some_elem k v m : mget k m = Some v → (k, v) ∈ m.
Proof.
  induction m as [|[k1 v1] m IH]; simpl; [done|].
  case_decide; intros; simplify_eq; set_solver.
Qed.

Lemma mget_elem k v m : NoDup (mkeys m) → (k, v) ∈ m → mget k m = Some v.
Proof.
  induction m as [|[k1 v1] m IH]; simpl; [set_solver|].
  rewrite NoDup_cons, elem_of_cons. intros [Hk1 Hnd] [Heq|Hin].
  - simplify_eq. by rewrite decide_True.
  - case_decide; [|by apply IH]. subst.
    destruct Hk1. apply list_elem_of_fmap. by exists (k1, v).
Qed.

Lemma mget_Some k v m : NoDup (mkeys m) → mget k m = Some v ↔ (k, v) ∈ m.
Proof. split; [apply mget_Some_elem | by apply mget_elem]. Qed.

Lemma mkeys_mset_Some k v v' m : mget k m = Some v' → mkeys (mset k v m) = mkeys m.
Proof.
  induction m as [|[k1 v1] m IH]; simpl; [done|].
  case_decide; intros; simpl; [by subst|]. f_equal. by apply IH.
Qed.

Lemma mset_None k v m : mget k m = None → mset k v m = m ++ [(k, v)].
Proof.
  induction m as [|[k1 v1] m IH]; simpl; [done|].
  case_decide; intros; simpl; [done|]. f_equal. by apply IH.
Qed.

Lemma elem_of_mkeys_mset k k' v m : k ∈ mkeys (mset k' v m) ↔ k = k' ∨ k ∈ mkeys m.
Proof.
  induction m as [|[k1 v1] m IH]; simpl; [set_solver|].
  case_decide; simpl; set_solver.
Qed.

Lemma NoDup_mset k v m : NoDup (mkeys m) → NoDup (mkeys (mset k v m)).
Proof.
  induction m as [|[k1 v1] m IH]; simpl.
  - intros _. by apply NoDup_singleton.
  - intros [Hk1 Hnd]%NoDup_cons.
    case_decide; simpl; apply NoDup_cons; [by subst|].
    split; [|by apply IH]. change (k1 ∉ mkeys (mset k v m)).
    rewrite elem_of_mkeys_mset. naive_solver.
Qed.

Lemma length_mset k v m :
  length (mset k v m) = match mget k m with Some _ => length m | None => S (length m) end.
Proof.
  induction m as [|[k1 v1] m IH]; simpl; [done|].
  case_decide; simpl; [done|]. rewrite IH. by destruct (mget k m).
Qed.

Lemma mget_perm k m1 m2 : NoDup (mkeys m1) → m1 ≡ₚ m2 → mget k m1 = mget k m2.
Proof.
  intros Hnd Hp. assert (NoDup (mkeys m2)) by (unfold mkeys; by rewrite <- Hp).
  destruct (mget k m2) as [v|] eqn:E.
  - apply mget_Some; [done|]. rewrite Hp. by apply mget_Some_elem.
  - apply mget_None. apply mget_None in E. unfold mkeys. by rewrite Hp.
Qed.
Lemma mget_mdel_ne k k' m : k ≠ k' → mget k (mdel k' m) = mget k m.
Proof.
  intros. induction m as [|[k1 v1] m IH]; simpl; [done|].
  repeat (case_decide; simplify_eq/=; try done).
Qed.

Lemma mget_mdel_eq k m : NoDup (mkeys m) → mget k (mdel k m) = None.
Proof.
  induction m as [|[k1 v1] m IH]; simpl; [done|].
  intros [Hk1 Hnd]%NoDup_cons. case_decide; simpl.
  - subst. by apply mget_None.
  - rewrite decide_False by done. by apply IH.
Qed.

Lemma elem_of_mkeys_mdel k k' m : k ∈ mkeys (mdel k' m) → k ∈ mkeys m.
Proof.
  induction m as [|[k1 v1] m IH]; simpl; [done|].
  case_decide; simpl; set_solver.
Qed.

Lemma NoDup_mdel k m : NoDup (mkeys m) → NoDup (mkeys (mdel k m)).
Proof.
  induction m as [|[k1 v1] m IH]; simpl; [done|].
  intros [Hk1 Hnd]%NoDup_cons. case_decide; simpl; [done|].
  apply NoDup_cons. split; [|by apply IH].
  intros Hin. by apply elem_of_mkeys_mdel in Hin.
Qed.

(** [for k, v := range src { dst[k] = v }] *)
Definition mcopy (src dst : list (K * V)) : list (K * V) :=
  foldl (λ d kv, mset kv.1 kv.2 d) dst src.

Lemma NoDup_mcopy src dst : NoDup (mkeys dst) → NoDup (mkeys (mcopy src dst)).
Proof.
  unfold mcopy. revert dst. induction src as [|kv src IH]; intros dst; simpl; [done|].
  intros. apply IH. by apply NoDup_mset.
Qed.

Lemma mget_mcopy k src dst :
  NoDup (mkeys src) →
  mget k (mcopy src dst) = match mget k src with Some v => Some v | None => mget k dst end.
Proof.
  unfold mcopy. revert dst. induction src as [|[k1 v1] src IH]; intros dst; simpl; [done|].
  intros [Hk1 Hnd]%NoDup_cons. rewrite IH by done. rewrite mget_mset.
  case_decide; subst; [|done]. by rewrite (proj2 (mget_None k1 src) Hk1).
Qed.
End gomap.

Create HintDb gomap.
#[export] Hint Resolve NoDup_mset NoDup_mdel NoDup_mcopy : gomap.
