(* ===== verification/GoStrings.v ===== *)
(** * Go byte strings

    Go strings are byte sequences; [string] holds one [ascii] per byte. This
    file models what the program uses of the packages [strings],
    [unicode/utf8] and [unicode]: slicing, searching, trimming, splitting,
    case mapping and the conversions to and from runes. *)
From Stdlib Require Import Ascii.
From Stdlib Require String.
From stdpp Require Import base list strings.
From Stdlib Require Import Lia ZArith.
From S2P Require Import Prelude.


(** ** Bytes and slices *)

Infix "=s?" := String.eqb (at level 70, no associativity) : go_scope.
Infix "=c?" := Ascii.eqb (at level 70, no associativity) : go_scope.

Notation slen := String.length.

Definition bcode (c : ascii) : Z := Z.of_N (N_of_ascii c).
Definition bchr (z : Z) : ascii := ascii_of_N (Z.to_N z).

Fixpoint stake (n : nat) (s : string) : string :=
  match n, s with
  | S n, String c s => String c (stake n s)
  | _, _ => ""
  end.

Fixpoint sdrop (n : nat) (s : string) : string :=
  match n, s with
  | 0, s => s
  | S n, String _ s => sdrop n s
  | S _, "" => ""
  end.

(** [s[i:j]] *)
Definition ssub (s : string) (i j : nat) : string := stake (j - i) (sdrop i s).

(** [s[i]], for [i] in range *)
Fixpoint sget (i : nat) (s : string) : option ascii :=
  match i, s with
  | _, "" => None
  | 0, String c _ => Some c
  | S i, String _ s => sget i s
  end.

Fixpoint has_prefix (p s : string) : bool :=
  match p, s with
  | "", _ => true
  | String a p, String b s => (a =c? b) && has_prefix p s
  | String _ _, "" => false
  end.

Definition has_suffix (p s : string) : bool :=
  has_prefix (String.rev p) (String.rev s).

Definition trim_prefix (p s : string) : string :=
  if has_prefix p s then sdrop (slen p) s else s.

Definition trim_suffix (p s : string) : string :=
  if has_suffix p s then stake (slen s - slen p) s else s.

(** [strings.Index] *)
Fixpoint sindex (p s : string) : option nat :=
  if has_prefix p s then Some 0
  else match s with
       | "" => None
       | String _ s => S <$> sindex p s
       end.

Definition scontains (p s : string) : bool :=
  match sindex p s with Some _ => true | None => false end.

Fixpoint scontains_byte (c : ascii) (s : string) : bool :=
  match s with "" => false | String b s => (b =c? c) || scontains_byte c s end.

Fixpoint sforall (f : ascii → bool) (s : string) : bool :=
  match s with "" => true | String c s => f c && sforall f s end.

Fixpoint srepeat (s : string) (n : nat) : string :=
  match n with 0 => "" | S n => s +:+ srepeat s n end.

Fixpoint sjoin (sep : string) (l : list string) : string :=
  match l with
  | [] => ""
  | [s] => s
  | s :: l => s +:+ sep +:+ sjoin sep l
  end.

(** [strings.Split(s, sep)] for a one-byte separator. *)
Fixpoint ssplit_byte (c : ascii) (s : string) : list string :=
  match s with
  | "" => [""]
  | String b s =>
      if b =c? c then "" :: ssplit_byte c s
      else match ssplit_byte c s with
           | [] => [String b ""]
           | w :: ws => String b w :: ws
           end
  end.

(** [strings.ReplaceAll(s, old, new)] for a non-empty [old]; [skip] counts the
    bytes of the current match still to be dropped. *)
Fixpoint sreplace_go (old new : string) (skip : nat) (s : string) : string :=
  match s with
  | "" => ""
  | String c t =>
      match skip with
      | S k => sreplace_go old new k t
      | 0 => if has_prefix old s
             then new +:+ sreplace_go old new (slen old - 1) t
             else String c (sreplace_go old new 0 t)
      end
  end.
Definition sreplace_all (old new s : string) : string := sreplace_go old new 0 s.

(** [strings.Trim(s, cutset)] for a one-byte cutset. *)
Fixpoint strim_left_byte (c : ascii) (s : string) : string :=
  match s with
  | "" => ""
  | String b t => if b =c? c then strim_left_byte c t else s
  end.
Definition strim_byte (c : ascii) (s : string) : string :=
  String.rev (strim_left_byte c (String.rev (strim_left_byte c s))).

(** Byte-wise order, as [sort.Strings] uses it. *)
Definition sleb (s t : string) : bool := String.leb s t.

(** ** UTF-8

    [decode_rune] is [utf8.DecodeRuneInString]: an ill-formed sequence is the
    rune U+FFFD of width 1. *)
Definition RuneError : Z := 65533.

Definition in_range (lo hi x : Z) : bool := (lo <=? x)%Z && (x <=? hi)%Z.

(** The accepted range of the second byte, by lead byte, and the sequence
    length; [None] for a byte that starts no sequence. *)
Definition rune_lead (b : Z) : option (nat * Z * Z) :=
  if in_range 194 223 b then Some (2%nat, 128%Z, 191%Z)
  else if (b =? 224)%Z then Some (3%nat, 160%Z, 191%Z)
  else if in_range 225 236 b then Some (3%nat, 128%Z, 191%Z)
  else if (b =? 237)%Z then Some (3%nat, 128%Z, 159%Z)
  else if in_range 238 239 b then Some (3%nat, 128%Z, 191%Z)
  else if (b =? 240)%Z then Some (4%nat, 144%Z, 191%Z)
  else if in_range 241 243 b then Some (4%nat, 128%Z, 191%Z)
  else if (b =? 244)%Z then Some (4%nat, 128%Z, 143%Z)
  else None.

Definition cont (c : ascii) : bool := in_range 128 191 (bcode c).
Definition low6 (c : ascii) : Z := Z.land (bcode c) 63.

(** The rune at the front of [c :: s] and the number of bytes it takes. *)
Definition decode_rune (c : ascii) (s : string) : Z * nat :=
  let b := bcode c in
  if (b <? 128)%Z then (b, 1) else
  match rune_lead b, s with
  | Some (2, lo, hi), String c1 _ =>
      if in_range lo hi (bcode c1)
      then (Z.lor (Z.shiftl (Z.land b 31) 6) (low6 c1), 2)
      else (RuneError, 1)
  | Some (3, lo, hi), String c1 (String c2 _) =>
      if in_range lo hi (bcode c1) && cont c2
      then (Z.lor (Z.lor (Z.shiftl (Z.land b 15) 12) (Z.shiftl (low6 c1) 6)) (low6 c2), 3)
      else (RuneError, 1)
  | Some (4, lo, hi), String c1 (String c2 (String c3 _)) =>
      if in_range lo hi (bcode c1) && cont c2 && cont c3
      then (Z.lor (Z.lor (Z.lor (Z.shiftl (Z.land b 7) 18) (Z.shiftl (low6 c1) 12))
                         (Z.shiftl (low6 c2) 6)) (low6 c3), 4)
      else (RuneError, 1)
  | _, _ => (RuneError, 1)
  end.

(** [[]rune(s)]; [skip] counts the bytes of the current rune still to pass. *)
Fixpoint runes_go (skip : nat) (s : string) : list Z :=
  match s with
  | "" => []
  | String c t =>
      match skip with
      | S k => runes_go k t
      | 0 => let '(r, w) := decode_rune c t in r :: runes_go (w - 1) t
      end
  end.
Definition runes (s : string) : list Z := runes_go 0 s.

Definition rune_count (s : string) : nat := length (runes s).

(** [utf8.EncodeRune]: surrogates and values out of range encode U+FFFD. *)
Definition encode_rune (r : Z) : string :=
  let r := if (r <? 0)%Z || (1114111 <? r)%Z || in_range 55296 57343 r then RuneError else r in
  if (r <? 128)%Z then String (bchr r) ""
  else if (r <? 2048)%Z then
    String (bchr (Z.lor 192 (Z.shiftr r 6))) (String (bchr (Z.lor 128 (Z.land r 63))) "")
  else if (r <? 65536)%Z then
    String (bchr (Z.lor 224 (Z.shiftr r 12)))
      (String (bchr (Z.lor 128 (Z.land (Z.shiftr r 6) 63)))
        (String (bchr (Z.lor 128 (Z.land r 63))) ""))
  else
    String (bchr (Z.lor 240 (Z.shiftr r 18)))
      (String (bchr (Z.lor 128 (Z.land (Z.shiftr r 12) 63)))
        (String (bchr (Z.lor 128 (Z.land (Z.shiftr r 6) 63)))
          (String (bchr (Z.lor 128 (Z.land r 63))) ""))).

(** [string(rs)] for a rune slice. *)
Fixpoint of_runes (rs : list Z) : string :=
  match rs with [] => "" | r :: rs => encode_rune r +:+ of_runes rs end.

(** ** White space

    [unicode.IsSpace]: the ASCII spaces and U+0085, U+00A0, U+1680,
    U+2000-U+200A, U+2028, U+2029, U+202F, U+205F, U+3000. *)
Definition is_space_rune (r : Z) : bool :=
  in_range 9 13 r || (r =? 32)%Z || (r =? 133)%Z || (r =? 160)%Z || (r =? 5760)%Z
  || in_range 8192 8202 r || (r =? 8232)%Z || (r =? 8233)%Z || (r =? 8239)%Z
  || (r =? 8287)%Z || (r =? 12288)%Z.

(** The same set by its UTF-8 sequences of one, two and three bytes. *)
Definition space1 (a : ascii) : bool :=
  let a := bcode a in in_range 9 13 a || (a =? 32)%Z.
Definition space2 (a b : ascii) : bool :=
  (bcode a =? 194)%Z && ((bcode b =? 133)%Z || (bcode b =? 160)%Z).
Definition space3 (a b c : ascii) : bool :=
  let '(a, b, c) := (bcode a, bcode b, bcode c) in
  ((a =? 225) && (b =? 154) && (c =? 128))%Z
  || ((a =? 226)%Z && (b =? 128)%Z
      && (in_range 128 138 c || (c =? 168)%Z || (c =? 169)%Z || (c =? 175)%Z))
  || ((a =? 226) && (b =? 129) && (c =? 159))%Z
  || ((a =? 227) && (b =? 128) && (c =? 128))%Z.

(** Strip sequences recognised by the three tests from the front. *)
Fixpoint strip (p1 : ascii → bool) (p2 : ascii → ascii → bool)
    (p3 : ascii → ascii → ascii → bool) (s : string) : string :=
  match s with
  | "" => ""
  | String a s1 =>
      if p1 a then strip p1 p2 p3 s1 else
      match s1 with
      | String b s2 =>
          if p2 a b then strip p1 p2 p3 s2 else
          match s2 with
          | String c s3 => if p3 a b c then strip p1 p2 p3 s3 else s
          | "" => s
          end
      | "" => s
      end
  end.

Definition strim_left (s : string) : string := strip space1 space2 space3 s.
Definition strim_right (s : string) : string :=
  String.rev (strip space1 (λ b a, space2 a b) (λ c b a, space3 a b c) (String.rev s)).

(** [strings.TrimSpace] *)
Definition trim_space (s : string) : string := strim_right (strim_left s).

(** [strings.Fields], on the decoded runes: maximal runs of non-space. *)
Fixpoint fields_go (cur : string) (skip : nat) (s : string) : list string :=
  match s with
  | "" => if cur =s? "" then [] else [cur]
  | String c t =>
      match skip with
      | S k => fields_go (cur +:+ String c "") k t
      | 0 =>
          let '(r, w) := decode_rune c t in
          if is_space_rune r
          then (if cur =s? "" then [] else [cur]) ++ fields_skip (w - 1) t
          else fields_go (cur +:+ String c "") (w - 1) t
      end
  end
with fields_skip (skip : nat) (s : string) : list string :=
  match s with
  | "" => []
  | String c t =>
      match skip with
      | S k => fields_skip k t
      | 0 =>
          let '(r, w) := decode_rune c t in
          if is_space_rune r then fields_skip (w - 1) t
          else fields_go (String c "") (w - 1) t
      end
  end.
Definition fields (s : string) : list string := fields_skip 0 s.

(** ** Case mapping

    ASCII letters are mapped here. For other runes Go consults the Unicode
    tables of package [unicode], which are data outside the repository: they
    are the parameter [UnicodeCase]. *)
Class UnicodeCase := {
  unicode_lower : Z → Z;
  unicode_upper : Z → Z;
  unicode_is_letter : Z → bool;
  unicode_is_digit : Z → bool;
  unicode_is_print : Z → bool;
}.

(** Tables that know no non-ASCII letter, for concrete evaluation. *)
Definition ascii_case : UnicodeCase := {|
  unicode_lower r := r; unicode_upper r := r;
  unicode_is_letter _ := false; unicode_is_digit _ := false; unicode_is_print _ := false |}.

Section case.
Context `{UC : UnicodeCase}.

Definition to_lower_rune (r : Z) : Z :=
  if (r <? 128)%Z then (if in_range 65 90 r then r + 32 else r)%Z else unicode_lower r.
Definition to_upper_rune (r : Z) : Z :=
  if (r <? 128)%Z then (if in_range 97 122 r then r - 32 else r)%Z else unicode_upper r.

(** [strings.Map(f, s)] drops a rune mapped to a negative value. *)
Definition smap (f : Z → Z) (s : string) : string :=
  of_runes (filter (λ r, 0 ≤ r)%Z (f <$> runes s)).

Definition to_lower (s : string) : string := smap to_lower_rune s.
Definition to_upper (s : string) : string := smap to_upper_rune s.

(** [strconv.Quote]. *)
Definition hex_digit (d : Z) : ascii := bchr (if (d <? 10)%Z then 48 + d else 87 + d)%Z.
Fixpoint hex_digits (n : nat) (z : Z) : string :=
  match n with
  | 0 => ""
  | S n => String (hex_digit (Z.land (Z.shiftr z (4 * Z.of_nat n)) 15)) (hex_digits n z)
  end.
Definition quote_rune (r : Z) : string :=
  if (r =? 34)%Z || (r =? 92)%Z then String "\"%char (String (bchr r) "")
  else if in_range 32 126 r || ((128 <=? r)%Z && unicode_is_print r) then encode_rune r
  else if (r =? 7)%Z then "\a" else if (r =? 8)%Z then "\b" else if (r =? 12)%Z then "\f"
  else if (r =? 10)%Z then "\n" else if (r =? 13)%Z then "\r" else if (r =? 9)%Z then "\t"
  else if (r =? 11)%Z then "\v"
  else if (r <? 128)%Z then "\x" +:+ hex_digits 2 r
  else if (r <? 65536)%Z then "\u" +:+ hex_digits 4 r
  else "\U" +:+ hex_digits 8 r.
Fixpoint quote_go (skip : nat) (s : string) : string :=
  match s with
  | "" => ""
  | String c t =>
      match skip with
      | S k => quote_go k t
      | 0 =>
          let '(r, w) := decode_rune c t in
          (if (w =? 1)%nat && (r =? RuneError)%Z then "\x" +:+ hex_digits 2 (bcode c)
           else quote_rune r) +:+ quote_go (w - 1) t
      end
  end.
Definition quote (s : string) : string :=
  String (bchr 34) (quote_go 0 s) +:+ String (bchr 34) "".
End case.

(** ** Lemmas *)

Lemma sapp_cons c s t : String c s +:+ t = String c (s +:+ t).
Proof. done. Qed.
Lemma sapp_nil_l t : "" +:+ t = t.
Proof. done. Qed.
Lemma sapp_nil_r s : s +:+ "" = s.
Proof. induction s as [|c s IH]; [done|]. by rewrite sapp_cons, IH. Qed.
Lemma sapp_assoc s t u : (s +:+ t) +:+ u = s +:+ (t +:+ u).
Proof. induction s as [|c s IH]; [done|]. by rewrite !sapp_cons, IH. Qed.
Lemma slen_app s t : slen (s +:+ t) = slen s + slen t.
Proof. induction s as [|c s IH]; [done|]. rewrite sapp_cons. simpl. by rewrite IH. Qed.

Create HintDb gostr.
#[export] Hint Rewrite sapp_cons sapp_nil_l sapp_nil_r sapp_assoc : gostr.
#[export] Hint Rewrite slen_app : gostr.

Lemma sapp_inj_l s t u : s +:+ t = s +:+ u → t = u.
Proof. induction s as [|c s IH]; [done|]. rewrite !sapp_cons. intros [=]. auto. Qed.

Lemma slen_0 s : slen s = 0 ↔ s = "".
Proof. by destruct s. Qed.

Lemma eqs_spec s t : reflect (s = t) (s =s? t).
Proof. destruct (String.eqb_spec s t); by constructor. Qed.

Lemma slen_stake n s : slen (stake n s) = n `min` slen s.
Proof. revert n. induction s as [|c s IH]; intros [|n]; simpl; [done..|]. by rewrite IH. Qed.
Lemma slen_sdrop n s : slen (sdrop n s) = slen s - n.
Proof. revert n. induction s as [|c s IH]; intros [|n]; simpl; try done. Qed.
Lemma stake_sdrop n s : stake n s +:+ sdrop n s = s.
Proof.
  revert n. induction s as [|c s IH]; intros [|n]; simpl; try done.
  by rewrite sapp_cons, IH.
Qed.
Lemma stake_ge n s : slen s ≤ n → stake n s = s.
Proof.
  revert n. induction s as [|c s IH]; intros [|n]; simpl; try done; try lia.
  intros. rewrite IH; [done|lia].
Qed.
Lemma sdrop_ge n s : slen s ≤ n → sdrop n s = "".
Proof. revert n. induction s as [|c s IH]; intros [|n]; simpl; intros; try done; [lia|apply IH; lia]. Qed.
Lemma stake_app s t : stake (slen s) (s +:+ t) = s.
Proof. induction s as [|c s IH]; [by destruct t|]. rewrite sapp_cons. simpl. by rewrite IH. Qed.
Lemma sdrop_app s t : sdrop (slen s) (s +:+ t) = t.
Proof. induction s as [|c s IH]; [by destruct t|]. rewrite sapp_cons. simpl. by rewrite IH. Qed.
Lemma sdrop_sdrop i j s : sdrop i (sdrop j s) = sdrop (j + i) s.
Proof. revert j. induction s as [|c s IH]; intros [|j]; simpl; try done; by destruct i. Qed.
Lemma sdrop_app_add s t n : sdrop (slen s + n) (s +:+ t) = sdrop n t.
Proof. rewrite <- sdrop_sdrop. by rewrite sdrop_app. Qed.

Lemma sget_sdrop i s : sget i s = match sdrop i s with "" => None | String c _ => Some c end.
Proof. revert i. induction s as [|c s IH]; intros [|i]; simpl; try done. Qed.
Lemma sget_lt i s : i < slen s ↔ is_Some (sget i s).
Proof.
  revert i. induction s as [|c s IH]; intros [|i]; simpl; split; intros H; try lia;
    try (by destruct H); try done; [apply IH; lia | apply IH in H; lia].
Qed.
Lemma sdrop_lt i s : i < slen s → ∃ c, sget i s = Some c ∧ sdrop i s = String c (sdrop (S i) s).
Proof.
  revert i. induction s as [|c s IH]; intros [|i]; simpl; intros; try lia; [eauto|].
  destruct (IH i) as (c' & ? & ?); [lia|]. eauto.
Qed.

Lemma has_prefix_spec p s : has_prefix p s = true ↔ ∃ t, s = p +:+ t.
Proof.
  revert s. induction p as [|a p IH]; intros s; simpl.
  - split; [eauto|done].
  - destruct s as [|b s].
    + split; [done|]. by intros [t [=]].
    + rewrite andb_true_iff, IH. destruct (Ascii.eqb_spec a b) as [->|Hne].
      * split; [intros [_ [t ->]]; by exists t | intros [t [=]]; eauto].
      * split; [by intros [? _]| intros [t [=]]; congruence].
Qed.
Lemma has_prefix_app p t : has_prefix p (p +:+ t) = true.
Proof. apply has_prefix_spec. eauto. Qed.
Lemma has_prefix_length p s : has_prefix p s = true → slen p ≤ slen s.
Proof. intros [t ->]%has_prefix_spec. rewrite slen_app. lia. Qed.

(** *** Reversal *)
Lemma rev_app_spec s t : String.rev_app s t = String.rev s +:+ t.
Proof.
  unfold String.rev. generalize (@eq_refl string ""). intros _.
  assert (∀ s t u, String.rev_app s (t +:+ u) = String.rev_app s t +:+ u) as H.
  { clear. induction s as [|c s IH]; intros t u; simpl; [done|].
    rewrite <- IH. by rewrite sapp_cons. }
  rewrite <- H. by rewrite sapp_nil_l.
Qed.
Lemma srev_cons c s : String.rev (String c s) = String.rev s +:+ String c "".
Proof. unfold String.rev at 1. simpl. apply rev_app_spec. Qed.
Lemma srev_app s t : String.rev (s +:+ t) = String.rev t +:+ String.rev s.
Proof.
  induction s as [|c s IH]; [by rewrite sapp_nil_r|].
  rewrite sapp_cons, !srev_cons, IH. by rewrite sapp_assoc.
Qed.
Lemma srev_involutive s : String.rev (String.rev s) = s.
Proof. induction s as [|c s IH]; [done|]. by rewrite srev_cons, srev_app, IH. Qed.
Lemma slen_rev s : slen (String.rev s) = slen s.
Proof. induction s as [|c s IH]; [done|]. rewrite srev_cons, slen_app. simpl. lia. Qed.

Lemma has_suffix_spec p s : has_suffix p s = true ↔ ∃ t, s = t +:+ p.
Proof.
  unfold has_suffix. rewrite has_prefix_spec. split.
  - intros [t Ht]. exists (String.rev t). rewrite <- (srev_involutive s), Ht, srev_app.
    by rewrite srev_involutive.
  - intros [t ->]. exists (String.rev t). by rewrite srev_app.
Qed.

(** *** Trimming *)
Lemma strip_suffix p1 p2 p3 s : ∃ t, s = t +:+ strip p1 p2 p3 s.
Proof.
  assert (∀ n s, slen s ≤ n → ∃ t, s = t +:+ strip p1 p2 p3 s) as H; [|by eapply H].
  clear s. induction n as [|n IH]; intros s Hs.
  { destruct s; simpl in *; [by exists ""|lia]. }
  destruct s as [|a s1]; simpl in *; [by exists ""|].
  destruct (p1 a).
  { destruct (IH s1) as [t Ht]; [lia|]. exists (String a t). by rewrite sapp_cons, <- Ht. }
  destruct s1 as [|b s2]; simpl in *; [by exists ""|].
  destruct (p2 a b).
  { destruct (IH s2) as [t Ht]; [lia|]. exists (String a (String b t)). by rewrite !sapp_cons, <- Ht. }
  destruct s2 as [|c s3]; simpl in *; [by exists ""|].
  destruct (p3 a b c); [|by exists ""].
  destruct (IH s3) as [t Ht]; [lia|]. exists (String a (String b (String c t))).
  by rewrite !sapp_cons, <- Ht.
Qed.
Lemma slen_strip p1 p2 p3 s : slen (strip p1 p2 p3 s) ≤ slen s.
Proof.
  destruct (strip_suffix p1 p2 p3 s) as [t Ht].
  apply (f_equal slen) in Ht. rewrite slen_app in Ht. lia.
Qed.
Lemma slen_trim_space s : slen (trim_space s) ≤ slen s.
Proof.
  unfold trim_space, strim_right, strim_left. rewrite slen_rev.
  etrans; [apply slen_strip|]. rewrite slen_rev. apply slen_strip.
Qed.

Lemma stake_app_le n s t : n ≤ slen s → stake n (s +:+ t) = stake n s.
Proof.
  revert n. induction s as [|c s IH]; intros [|n] Hn; rewrite ?sapp_cons; simpl in *;
    try lia; [by destruct t|done|].
  rewrite IH; [done|lia].
Qed.
Lemma sdrop_app_le n s t : n ≤ slen s → sdrop n (s +:+ t) = sdrop n s +:+ t.
Proof.
  revert n. induction s as [|c s IH]; intros [|n] Hn; rewrite ?sapp_cons; simpl in *;
    try lia; [done..|].
  apply IH; lia.
Qed.

(** *** Texts that trimming leaves alone *)

(** A printable ASCII byte other than the space. *)
Definition solid (c : ascii) : bool := in_range 33 126 (bcode c).
Definition first_solid (s : string) : bool :=
  match s with String a _ => solid a | "" => false end.
(** First and last byte are solid. *)
Definition tight (s : string) : bool := first_solid s && first_solid (String.rev s).

Lemma first_solid_app s t : first_solid s = true → first_solid (s +:+ t) = true.
Proof. by destruct s. Qed.
Lemma tight_app s m t : tight s = true → tight t = true → tight (s +:+ m +:+ t) = true.
Proof.
  unfold tight. rewrite !andb_true_iff, !srev_app, sapp_assoc. intros [Hs _] [_ Ht].
  split; by apply first_solid_app.
Qed.
Lemma tight_cons_snoc a m b : solid a = true → solid b = true →
  tight (String a (m +:+ String b "")) = true.
Proof.
  intros Ha Hb. apply (tight_app (String a "") m (String b "")); unfold tight; simpl;
    by rewrite ?Ha, ?Hb.
Qed.

Lemma solid_range c : solid c = true → (33 <= bcode c <= 126)%Z.
Proof. unfold solid, in_range. lia. Qed.

Lemma strip_solid p1 p2 p3 a s :
  p1 a = false → (∀ b, p2 a b = false) → (∀ b c, p3 a b c = false) →
  strip p1 p2 p3 (String a s) = String a s.
Proof.
  intros H1 H2 H3. simpl. rewrite H1. destruct s as [|b s]; [done|]. rewrite H2.
  destruct s as [|c s]; [done|]. by rewrite H3.
Qed.

Lemma strim_left_solid s : first_solid s = true → strim_left s = s.
Proof.
  destruct s as [|a s]; [done|]. simpl. intros Ha%solid_range.
  apply strip_solid; intros; unfold space1, space2, space3, in_range; lia.
Qed.
Lemma strim_right_solid s : first_solid (String.rev s) = true → strim_right s = s.
Proof.
  unfold strim_right. intros Hs. destruct (String.rev s) as [|a r] eqn:E; [done|].
  simpl in Hs. apply solid_range in Hs.
  rewrite strip_solid, <- E; [apply srev_involutive|..]; intros;
    unfold space1, space2, space3, in_range; lia.
Qed.

Lemma trim_tight s : tight s = true → trim_space s = s.
Proof.
  unfold tight. rewrite andb_true_iff. intros [H1 H2].
  unfold trim_space. by rewrite (strim_left_solid _ H1), strim_right_solid.
Qed.
Lemma trim_tight_l s : tight s = true → trim_space (" " +:+ s) = s.
Proof. intros H. by rewrite <- (trim_tight s H) at 2. Qed.
Lemma trim_tight_r s : tight s = true → trim_space (s +:+ " ") = s.
Proof.
  unfold tight. rewrite andb_true_iff. intros [H1 H2]. unfold trim_space.
  rewrite strim_left_solid by by apply first_solid_app.
  unfold strim_right. rewrite srev_app. change (String.rev " ") with " ". simpl.
  fold (strim_right s). by apply strim_right_solid.
Qed.

Lemma trim_tight_lr s : tight s = true → trim_space (" " +:+ s +:+ " ") = s.
Proof. intros H. by rewrite <- (trim_tight_r s H) at 2. Qed.

Lemma sdrop_0 s : sdrop 0 s = s.
Proof. by destruct s. Qed.
Lemma has_prefix_app_enough p s t : slen p ≤ slen s → has_prefix p (s +:+ t) = has_prefix p s.
Proof.
  revert s. induction p as [|a p IH]; intros [|b s] H; simpl in *; try done; try lia.
  rewrite IH; [done|lia].
Qed.
Lemma sforall_app f s t : sforall f (s +:+ t) = sforall f s && sforall f t.
Proof. induction s as [|c s IH]; simpl; [done|]. by rewrite IH, andb_assoc. Qed.
Lemma sforall_impl (f g : ascii → bool) s :
  (∀ c, f c = true → g c = true) → sforall f s = true → sforall g s = true.
Proof.
  intros H. induction s as [|c s IH]; simpl; [done|].
  rewrite !andb_true_iff. intros [??]. auto.
Qed.
Lemma sindex_skip c s t : sforall (λ b, negb (b =c? c)) s = true →
  sindex (String c "") (s +:+ String c t) = Some (slen s).
Proof.
  induction s as [|b s IH]; intros H; simpl in *.
  - by rewrite Ascii.eqb_refl.
  - apply andb_true_iff in H as [Hb Hs]. rewrite Ascii.eqb_sym.
    apply negb_true_iff in Hb. rewrite Hb. simpl in *. by rewrite IH.
Qed.
Lemma sindex_none c s : sforall (λ b, negb (b =c? c)) s = true → sindex (String c "") s = None.
Proof.
  induction s as [|b s IH]; intros H; simpl in *; [done|].
  apply andb_true_iff in H as [Hb Hs]. rewrite Ascii.eqb_sym.
  apply negb_true_iff in Hb. rewrite Hb. simpl in *. by rewrite IH.
Qed.

(** Joining with nothing between the pieces. *)
Lemma sconcat_cons s l : sjoin "" (s :: l) = s +:+ sjoin "" l.
Proof. destruct l; cbn [sjoin]; [by rewrite sapp_nil_r|done]. Qed.
Lemma sconcat_app l k : sjoin "" (l ++ k) = sjoin "" l +:+ sjoin "" k.
Proof. induction l as [|s l IH]; [done|]. cbn [app]. by rewrite !sconcat_cons, IH, sapp_assoc. Qed.

(** ** Trimming twice *)
Section strip.
Context (p1 : ascii → bool) (p2 : ascii → ascii → bool) (p3 : ascii → ascii → ascii → bool).
Notation strip := (strip p1 p2 p3).

(** Each round of [strip] drops a prefix or is the last. *)
Lemma strip_ind (P : string → string → Prop) :
  (∀ s, strip s = s → P s s) →
  (∀ u s, u ≠ "" → P s (strip s) → P (u +:+ s) (strip s)) →
  ∀ s, P s (strip s).
Proof.
  intros Hstop Hdrop s. induction s as [s IH] using (Nat.measure_induction _ slen).
  destruct s as [|a s1]; [by apply Hstop|]. cbn [GoStrings.strip].
  destruct (p1 a) eqn:H1; [by apply (Hdrop (String a "")); [|apply IH; cbn; lia]|].
  destruct s1 as [|b s2]; [by apply Hstop; cbn [GoStrings.strip]; rewrite H1|].
  destruct (p2 a b) eqn:H2; [by apply (Hdrop (String a (String b ""))); [|apply IH; cbn; lia]|].
  destruct s2 as [|c s3]; [by apply Hstop; cbn [GoStrings.strip]; rewrite H1, H2|].
  destruct (p3 a b c) eqn:H3;
    [by apply (Hdrop (String a (String b (String c "")))); [|apply IH; cbn; lia]|].
  apply Hstop. cbn [GoStrings.strip]. by rewrite H1, H2, H3.
Qed.
Lemma strip_twice s : strip (strip s) = strip s.
Proof. apply (strip_ind (λ _ t, strip t = t)); [done|by intros ??? H]. Qed.
Lemma strip_prefix s t : strip (s +:+ t) = s +:+ t → strip s = s.
Proof.
  intros H. destruct s as [|a s1]; [done|]. rewrite sapp_cons in H. cbn [GoStrings.strip] in *.
  assert (∀ x, slen (strip x) ≤ slen x) as Hle.
  { intros x. destruct (strip_suffix p1 p2 p3 x) as [u Hu]. rewrite Hu at 2. rewrite slen_app. lia. }
  destruct (p1 a); [apply (f_equal slen) in H; specialize (Hle (s1 +:+ t)); cbn in H; lia|].
  destruct s1 as [|b s2]; [done|]. rewrite sapp_cons in H.
  destruct (p2 a b); [apply (f_equal slen) in H; specialize (Hle (s2 +:+ t)); cbn in H; lia|].
  destruct s2 as [|c s3]; [done|]. rewrite sapp_cons in H.
  destruct (p3 a b c); [apply (f_equal slen) in H; specialize (Hle (s3 +:+ t)); cbn in H; lia|done].
Qed.
End strip.

Lemma strim_right_prefix s : ∃ t, s = strim_right s +:+ t.
Proof.
  unfold strim_right.
  destruct (strip_suffix space1 (λ b a, space2 a b) (λ c b a, space3 a b c) (String.rev s)) as [u Hu].
  exists (String.rev u). rewrite <- srev_app, <- Hu. by rewrite srev_involutive.
Qed.
Lemma trim_space_twice s : trim_space (trim_space s) = trim_space s.
Proof.
  unfold trim_space. assert (strim_left (strim_right (strim_left s)) = strim_right (strim_left s)) as ->.
  { destruct (strim_right_prefix (strim_left s)) as [t Ht]. unfold strim_left at 1.
    apply (strip_prefix _ _ _ _ t). rewrite <- Ht. apply strip_twice. }
  unfold strim_right. rewrite srev_involutive. by rewrite strip_twice.
Qed.

(** *** A byte that is no part of a white space survives trimming *)
Lemma strip_byte c p1 p2 p3 s :
  (∀ a, p1 a = true → a ≠ c) → (∀ a b, p2 a b = true → a ≠ c ∧ b ≠ c) →
  (∀ a b d, p3 a b d = true → a ≠ c ∧ b ≠ c ∧ d ≠ c) →
  scontains_byte c (strip p1 p2 p3 s) = scontains_byte c s.
Proof.
  intros H1 H2 H3. induction s as [s IH] using (Nat.measure_induction _ slen). destruct s as [|a s1]; [done|]. cbn [strip].
  destruct (p1 a) eqn:E1; [|destruct s1 as [|b s2]; [done|]; destruct (p2 a b) eqn:E2; [|destruct s2 as [|d s3]; [done|]; destruct (p3 a b d) eqn:E3; [|done]]].
  - rewrite IH by (cbn; lia). cbn. apply H1 in E1. by rewrite (proj2 (Ascii.eqb_neq _ _) E1).
  - rewrite IH by (cbn; lia). cbn. apply H2 in E2 as [Ha Hb]. by rewrite (proj2 (Ascii.eqb_neq _ _) Ha), (proj2 (Ascii.eqb_neq _ _) Hb).
  - rewrite IH by (cbn; lia). cbn. apply H3 in E3 as (Ha & Hb & Hd).
    by rewrite (proj2 (Ascii.eqb_neq _ _) Ha), (proj2 (Ascii.eqb_neq _ _) Hb), (proj2 (Ascii.eqb_neq _ _) Hd).
Qed.

Lemma scontains_app c s t : scontains_byte c (s +:+ t) = scontains_byte c s || scontains_byte c t.
Proof. induction s as [|a s IH]; [done|]. rewrite sapp_cons. cbn. by rewrite IH, orb_assoc. Qed.
Lemma scontains_rev c s : scontains_byte c (String.rev s) = scontains_byte c s.
Proof. induction s as [|a s IH]; [done|]. rewrite srev_cons, scontains_app, IH. cbn. by rewrite orb_false_r, orb_comm. Qed.
Lemma trim_keeps_byte c s : (∀ b, space1 c = false ∧ space2 c b = false ∧ space2 b c = false) →
  (∀ a b, space3 c a b = false ∧ space3 a c b = false ∧ space3 a b c = false) →
  scontains_byte c (trim_space s) = scontains_byte c s.
Proof.
  intros H1 H2. unfold trim_space, strim_right, strim_left.
  rewrite scontains_rev, strip_byte, scontains_rev, strip_byte; [done|..].
  - intros a E ->. destruct (H1 c) as (? & _). congruence.
  - intros a b E. split; intros ->; [destruct (H1 b)|destruct (H1 a)]; naive_solver congruence.
  - intros a b d E. split_and!; intros ->; [destruct (H2 b d)|destruct (H2 a d)|destruct (H2 a b)]; naive_solver congruence.
  - intros a E ->. destruct (H1 c) as (? & _). congruence.
  - intros a b E. split; intros ->; [destruct (H1 b)|destruct (H1 a)]; naive_solver congruence.
  - intros a b d E. split_and!; intros ->; [destruct (H2 b d)|destruct (H2 a d)|destruct (H2 a b)]; naive_solver congruence.
Qed.
