(* ===== verification/GoFloat.v ===== *)
(** * IEEE 754 binary64

    Go's [float64] on the executable, axiom-free [spec_float] of the Standard
    Library with 53 bits of precision, and what the program uses of package
    [math]. All operations round to nearest, ties to even. *)
From Stdlib Require Import ZArith Lia.
From Stdlib Require Import SpecFloat.
From stdpp Require Import base list.
From S2P Require Import Prelude.


Notation f64 := spec_float.
Notation PREC := 53%Z.
Notation EMAX := 1024%Z.

#[export] Instance f64_eq_dec : EqDecision f64.
Proof. solve_decision. Defined.

Definition fadd : f64 → f64 → f64 := SFadd PREC EMAX.
Definition fsub : f64 → f64 → f64 := SFsub PREC EMAX.
Definition fmul : f64 → f64 → f64 := SFmul PREC EMAX.
Definition fdiv : f64 → f64 → f64 := SFdiv PREC EMAX.
Definition fabs : f64 → f64 := SFabs.
Definition feqb : f64 → f64 → bool := SFeqb.
Definition fltb : f64 → f64 → bool := SFltb.
Definition fleb : f64 → f64 → bool := SFleb.

Definition finf (s : bool) : f64 := S754_infinity s.
Definition fzero : f64 := S754_zero false.
Definition fnan : f64 := S754_nan.

Definition is_nan (x : f64) : bool := match x with S754_nan => true | _ => false end.
Definition is_inf (x : f64) : bool := match x with S754_infinity _ => true | _ => false end.

(** [float64(n)] for an integer [n]. *)
Definition f_of_Z (z : Z) : f64 := binary_normalize PREC EMAX z 0 false.

(** The binary64 nearest to the positive rational [p / q]. *)
Definition f_of_ratio (neg : bool) (p q : positive) : f64 :=
  let '(mz, ez, lz) := SFdiv_core_binary PREC EMAX (Zpos p) 0 (Zpos q) 0 in
  binary_round_aux PREC EMAX neg mz ez lz.

(** [math.Round]: nearest integer, ties away from zero, sign kept. *)
Definition fround (x : f64) : f64 :=
  match x with
  | S754_finite s m e =>
      if (0 <=? e)%Z then x else
      let d := (2 ^ (- e))%Z in
      binary_normalize PREC EMAX (cond_Zopp s ((2 * Zpos m + d) / (2 * d))%Z) 0 s
  | _ => x
  end.

(** [math.Trunc] *)
Definition ftrunc (x : f64) : f64 :=
  match x with
  | S754_finite s m e =>
      if (0 <=? e)%Z then x
      else binary_normalize PREC EMAX (cond_Zopp s (Zpos m / 2 ^ (- e))%Z) 0 s
  | _ => x
  end.

(** The integer value of an integral [x], truncating; 0 off the finite range. *)
Definition f_to_Z (x : f64) : Z :=
  match x with
  | S754_finite s m e =>
      cond_Zopp s (if (0 <=? e)%Z then Zpos m * 2 ^ e else Zpos m / 2 ^ (- e))%Z
  | _ => 0
  end.

(** [math.Pow(10, y)] for [y] integral and not negative, an infinity or NaN:
    Go's square-and-multiply loop on the normalised fraction. *)
Fixpoint pow_loop (fuel : nat) (i : Z) (x1 : f64) (xe : Z) (a1 : f64) (ae : Z) : f64 * Z :=
  match fuel with
  | 0 => (a1, ae)
  | S fuel =>
      if (i =? 0)%Z then (a1, ae) else
      if ((xe <? -4096) || (4096 <? xe))%Z then (a1, ae + xe)%Z else
      let '(a1, ae) := if Z.odd i then (fmul a1 x1, (ae + xe)%Z) else (a1, ae) in
      let x1 := fmul x1 x1 in
      let xe := (xe * 2)%Z in
      let '(x1, xe) :=
        if fltb x1 (f_of_ratio false 1 2) then (fadd x1 x1, (xe - 1)%Z) else (x1, xe) in
      pow_loop fuel (i / 2)%Z x1 xe a1 ae
  end.
Definition pow10 (y : f64) : f64 :=
  let ten := f_of_Z 10 in
  if feqb y fzero then f_of_Z 1
  else if feqb y (f_of_Z 1) then ten
  else if is_nan y then fnan
  else if is_inf y then finf false
  else if fleb (f_of_Z (2 ^ 63)) y then finf false
  else
    let '(x1, xe) := SFfrexp PREC EMAX ten in
    let '(a1, ae) := pow_loop 64 (f_to_Z y) x1 xe (f_of_Z 1) 0 in
    SFldexp PREC EMAX a1 ae.

(** ** Order

    Comparison of two non-NaN values is the lexicographic order of a key, so
    that [<] is a strict weak order on them. *)
Definition fkey (x : f64) : option (Z * (Z * Z)) :=
  match x with
  | S754_nan => None
  | S754_zero _ => Some (0, (0, 0))%Z
  | S754_infinity s => Some (if s then (-2, (0, 0)) else (2, (0, 0)))%Z
  | S754_finite s m e => Some (if s then (-1, (- e, Zneg m)) else (1, (e, Zpos m)))%Z
  end.

Definition lex3 (a b : Z * (Z * Z)) : comparison :=
  match Z.compare a.1 b.1 with
  | Eq => match Z.compare a.2.1 b.2.1 with
          | Eq => Z.compare a.2.2 b.2.2
          | c => c
          end
  | c => c
  end.

Lemma SFcompare_key x y :
  SFcompare x y =
  match fkey x, fkey y with Some a, Some b => Some (lex3 a b) | _, _ => None end.
Proof.
  destruct x as [sx|sx| |sx mx ex], y as [sy|sy| |sy my ey]; try done;
    try (by destruct sx); try (by destruct sy); try (by destruct sx, sy).
  destruct sx, sy; try done; unfold lex3; simpl.
  rewrite Z.compare_opp, (Z.compare_antisym ex ey).
  change (Pos.compare_cont Eq mx my) with (Pos.compare mx my).
  by destruct (Z.compare ex ey).
Qed.

Definition lt3 (a b : Z * (Z * Z)) : Prop :=
  (a.1 < b.1 ∨ a.1 = b.1 ∧ (a.2.1 < b.2.1 ∨ a.2.1 = b.2.1 ∧ a.2.2 < b.2.2))%Z.

Lemma lex3_spec a b : CompareSpec (a = b) (lt3 a b) (lt3 b a) (lex3 a b).
Proof.
  destruct a as [a1 [a2 a3]], b as [b1 [b2 b3]]. unfold lex3, lt3. simpl.
  destruct (Z.compare_spec a1 b1), (Z.compare_spec a2 b2), (Z.compare_spec a3 b3);
    subst; constructor; simpl; try done; lia.
Qed.

Lemma fltb_key x y :
  fltb x y = true ↔ ∃ a b, fkey x = Some a ∧ fkey y = Some b ∧ lt3 a b.
Proof.
  unfold fltb, SFltb. rewrite SFcompare_key.
  destruct (fkey x) as [a|], (fkey y) as [b|]; try naive_solver.
  destruct (lex3_spec a b) as [->|?|?]; split; try naive_solver.
  - intros (? & ? & [= <-] & [= <-] & H). unfold lt3 in H. lia.
  - intros (? & ? & [= <-] & [= <-] & H'). unfold lt3 in *. lia.
Qed.

Lemma fleb_key x y :
  fleb x y = true ↔ ∃ a b, fkey x = Some a ∧ fkey y = Some b ∧ ¬ lt3 b a.
Proof.
  unfold fleb, SFleb. rewrite SFcompare_key.
  destruct (fkey x) as [a|], (fkey y) as [b|]; try naive_solver.
  destruct (lex3_spec a b) as [->|?|?]; split; try naive_solver.
  - intros _. exists b, b. unfold lt3. split_and!; [done..|lia].
  - intros _. exists a, b. unfold lt3 in *. split_and!; [done..|lia].
Qed.

Lemma fkey_nan x : is_nan x = false ↔ ∃ a, fkey x = Some a.
Proof. destruct x; naive_solver. Qed.

Lemma fltb_irrefl x : fltb x x = false.
Proof.
  apply not_true_is_false. intros (a & b & ? & ? & H)%fltb_key.
  simplify_eq. unfold lt3 in H. lia.
Qed.
Lemma fltb_trans x y z : fltb x y = true → fltb y z = true → fltb x z = true.
Proof.
  rewrite !fltb_key. intros (a & b & ? & ? & ?) (b' & c & ? & ? & ?). simplify_eq.
  exists a, c. split_and!; [done..|]. unfold lt3 in *. lia.
Qed.
Lemma fleb_trans x y z : fleb x y = true → fleb y z = true → fleb x z = true.
Proof.
  rewrite !fleb_key. intros (a & b & ? & ? & ?) (b' & c & ? & ? & ?). simplify_eq.
  exists a, c. split_and!; [done..|]. unfold lt3 in *. lia.
Qed.
Lemma fltb_fleb x y : fltb x y = true → fleb x y = true.
Proof.
  rewrite fltb_key, fleb_key. intros (a & b & ? & ? & ?).
  exists a, b. split_and!; [done..|]. unfold lt3 in *. lia.
Qed.
Lemma fleb_refl x : is_nan x = false → fleb x x = true.
Proof.
  intros [a Ha]%fkey_nan. apply fleb_key. exists a, a. unfold lt3. split_and!; [done..|lia].
Qed.
(** On non-NaN values a failed [<] is the converse [<=]. *)
Lemma fltb_false_fleb x y :
  is_nan x = false → is_nan y = false → fltb x y = false → fleb y x = true.
Proof.
  intros [a Ha]%fkey_nan [b Hb]%fkey_nan Hlt. apply fleb_key. exists b, a.
  split_and!; [done..|]. intros Hab.
  enough (fltb x y = true) by congruence. apply fltb_key. eauto 10.
Qed.
Lemma fltb_nan_l x : fltb fnan x = false.
Proof. done. Qed.
Lemma fltb_nan_r x : fltb x fnan = false.
Proof. by destruct x. Qed.
Lemma fltb_not_nan x y : fltb x y = true → is_nan x = false ∧ is_nan y = false.
Proof. intros (a & b & ? & ? & ?)%fltb_key. rewrite !fkey_nan. eauto. Qed.
Lemma fleb_inf_r x : is_nan x = false → fleb x (finf false) = true.
Proof. destruct x as [| [] | | []]; done. Qed.
Lemma fleb_inf_l x : is_nan x = false → fleb (finf true) x = true.
Proof. destruct x as [| [] | | []]; done. Qed.
