(* ===== verification/GoStrconv.v ===== *)
(** * Number parsing and formatting

    What the program uses of package [strconv]: [ParseInt] in base 10,
    [ParseFloat] (decimal and hexadecimal syntax, digit separators, the
    special names) and [FormatFloat(f, 'g', -1, 64)], which is also how [%v]
    prints a float. A parse that Go reports as a syntax or range error is
    [None]. *)
From Stdlib Require Import Ascii ZArith Lia SpecFloat.
From stdpp Require Import base list strings.
From S2P Require Import Prelude GoStrings GoFloat.

Local Open Scope Z_scope.

Definition digit_val (c : ascii) : option Z :=
  if in_range 48 57 (bcode c) then Some (bcode c - 48) else None.

Definition byte_lower (c : ascii) : Z := Z.lor (bcode c) 32.

(** ** ParseInt(s, 10, 64) *)
Fixpoint parse_digits (acc : Z) (s : string) : option Z :=
  match s with
  | "" => Some acc
  | String c s => d ← digit_val c; parse_digits (acc * 10 + d) s
  end.

Definition split_sign (s : string) : bool * string :=
  match s with
  | String c t => if (c =c? "-")%char then (true, t)
                  else if (c =c? "+")%char then (false, t) else (false, s)
  | "" => (false, s)
  end.

Definition parse_int (s : string) : option Z :=
  let '(neg, t) := split_sign s in
  if t =s? "" then None else
  n ← parse_digits 0 t;
  if neg then (if 2 ^ 63 <? n then None else Some (- n))
  else (if 2 ^ 63 <=? n then None else Some n).

(** ** ParseFloat(s, 64) *)
Record fscan := FScan {
  sawdot : bool; sawdigits : bool; underscores : bool;
  nd : Z;       (* digits seen, leading zeros not counted *)
  dp : Z;       (* decimal point position *)
  mant : Z;     (* all digits seen *)
}.

Definition hex_val (c : ascii) : option Z :=
  match digit_val c with
  | Some d => Some d
  | None => if in_range 97 102 (byte_lower c) then Some (byte_lower c - 87) else None
  end.

Fixpoint scan_mant (hex : bool) (st : fscan) (s : string) : fscan * string :=
  match s with
  | "" => (st, s)
  | String c t =>
      if (c =c? "_")%char then
        scan_mant hex (FScan (sawdot st) (sawdigits st) true (nd st) (dp st) (mant st)) t
      else if (c =c? ".")%char then
        if sawdot st then (st, s)
        else scan_mant hex (FScan true (sawdigits st) (underscores st) (nd st) (nd st) (mant st)) t
      else match (if hex then hex_val c else digit_val c) with
           | None => (st, s)
           | Some d =>
               if (d =? 0) && (nd st =? 0)
               then scan_mant hex (FScan (sawdot st) true (underscores st) 0 (dp st - 1) 0) t
               else scan_mant hex
                      (FScan (sawdot st) true (underscores st) (nd st + 1) (dp st)
                         (mant st * (if hex then 16 else 10) + d)) t
           end
  end.

(** The exponent digits; the accumulated value stops growing at 10000. *)
Fixpoint scan_exp (e : Z) (und : bool) (s : string) : Z * bool * string :=
  match s with
  | "" => (e, und, s)
  | String c t =>
      if (c =c? "_")%char then scan_exp e true t
      else match digit_val c with
           | Some d => scan_exp (if e <? 10000 then e * 10 + d else e) und t
           | None => (e, und, s)
           end
  end.

Fixpoint underscore_ok_go (hex : bool) (saw : ascii) (s : string) : bool :=
  match s with
  | "" => negb (saw =c? "_")%char
  | String c t =>
      match (if hex then hex_val c else digit_val c) with
      | Some _ => underscore_ok_go hex "0"%char t
      | None =>
          if (c =c? "_")%char
          then if (saw =c? "0")%char then underscore_ok_go hex "_"%char t else false
          else if (saw =c? "_")%char then false else underscore_ok_go hex "!"%char t
      end
  end.
Definition underscore_ok (s : string) : bool :=
  let '(_, s) := split_sign s in
  match s with
  | String z (String x t) =>
      if (z =c? "0")%char
         && ((byte_lower x =? 98) || (byte_lower x =? 111) || (byte_lower x =? 120))
      then underscore_ok_go (byte_lower x =? 120) "0"%char t
      else underscore_ok_go false "^"%char s
  | _ => underscore_ok_go false "^"%char s
  end.

(** The special names, matched without regard to ASCII case. *)
Definition ascii_lower (s : string) : string :=
  String.string_of_list_ascii
    ((λ c, if in_range 65 90 (bcode c) then bchr (bcode c + 32) else c)
       <$> String.list_ascii_of_string s).
Definition parse_special (s : string) : option f64 :=
  let '(neg, t) := split_sign s in
  let t' := ascii_lower t in
  if (t' =s? "inf") || (t' =s? "infinity") then Some (finf neg)
  else if ascii_lower s =s? "nan" then Some fnan
  else None.

Definition f_of_decimal (neg : bool) (m : Z) (e10 digits : Z) : option f64 :=
  match m with
  | Zpos p =>
      let lead := e10 + digits in
      if 310 <? lead then None
      else if lead <? -330 then Some (S754_zero neg)
      else
        let f := if 0 <=? e10 then f_of_ratio neg (p * Z.to_pos (10 ^ e10)) 1
                 else f_of_ratio neg p (Z.to_pos (10 ^ (- e10))) in
        if is_inf f then None else Some f
  | _ => Some (S754_zero neg)
  end.

Definition f_of_hex (neg : bool) (m : Z) (e2 : Z) : option f64 :=
  match m with
  | Zpos p =>
      let lead := e2 + Zpos (digits2_pos p) in
      if 1100 <? lead then None
      else if lead <? -1200 then Some (S754_zero neg)
      else let f := binary_round PREC EMAX neg p e2 in
           if is_inf f then None else Some f
  | _ => Some (S754_zero neg)
  end.

Definition parse_float_number (s : string) : option f64 :=
  let '(neg, t) := split_sign s in
  let '(hex, t) :=
    match t with
    | String z (String x (String _ _ as u)) =>
        if (z =c? "0")%char && (byte_lower x =? 120) then (true, u) else (false, t)
    | _ => (false, t)
    end in
  let '(st, t) := scan_mant hex (FScan false false false 0 0 0) t in
  if negb (sawdigits st) then None else
  let dp0 := if sawdot st then dp st else nd st in
  let dp1 := if hex then dp0 * 4 else dp0 in
  let exp_char := if hex then 112 else 101 in
  let finish (dp : Z) (und : bool) (rest : string) : option f64 :=
    if negb (rest =s? "") || (und && negb (underscore_ok s)) then None
    else if hex then f_of_hex neg (mant st) (dp - nd st * 4)
    else f_of_decimal neg (mant st) (dp - nd st) (nd st) in
  match t with
  | String c u =>
      if byte_lower c =? exp_char then
        let '(esign, u) :=
          match u with
          | String d v => if (d =c? "+")%char then (1, v)
                          else if (d =c? "-")%char then (-1, v) else (1, u)
          | "" => (1, u)
          end in
        match u with
        | String d _ =>
            match digit_val d with
            | Some _ =>
                let '(e, und, rest) := scan_exp 0 (underscores st) u in
                finish (dp1 + e * esign) und rest
            | None => None
            end
        | "" => None
        end
      else if hex then None else finish dp1 (underscores st) t
  | "" => if hex then None else finish dp1 (underscores st) t
  end.

Definition parse_float (s : string) : option f64 :=
  match parse_special s with
  | Some f => Some f
  | None => parse_float_number s
  end.

(** ** Formatting *)
Fixpoint digits_go (fuel : nat) (n : Z) (acc : string) : string :=
  match fuel with
  | O => acc
  | S fuel =>
      let acc := String (bchr (48 + n mod 10)) acc in
      if n <? 10 then acc else digits_go fuel (n / 10) acc
  end.
Definition digits_of (n : Z) : string := digits_go (S (Z.to_nat (Z.log2 n))) n "".
(** [strconv.FormatInt(z, 10)] *)
Definition itoa (z : Z) : string :=
  if z <? 0 then "-" +:+ digits_of (- z) else digits_of z.

Definition ceil_half_even (n d : Z) : Z := (* nearest integer to n/d, ties to even *)
  let q := n / d in let r := n mod d in
  if 2 * r <? d then q else if d <? 2 * r then q + 1 else if Z.even q then q else q + 1.

(** The shortest decimal [D * 10^k] that reads back as the positive [m * 2^e],
    and among the shortest the closest. [lead] is the decimal exponent of the
    leading digit. *)
Fixpoint shortest_go (fuel : nat) (x : f64) (num den lead ndig : Z) : Z * Z :=
  match fuel with
  | O => (0, 0)
  | S fuel =>
      let k := lead - ndig + 1 in
      let '(n, d) := if 0 <=? k then (num, den * 10 ^ k) else (num * 10 ^ (- k), den) in
      let near := ceil_half_even n d in
      let far := if near =? n / d then n / d + 1 else n / d in
      let reads (c : Z) := match f_of_decimal false c k (lead + 1 - k) with
                           | Some f => feqb f x | None => false end in
      if reads near then (near, k)
      else if reads far then (far, k)
      else shortest_go fuel x num den lead (ndig + 1)
  end.

Definition pow10_le (num den k : Z) : bool := (* 10^k <= num/den *)
  if 0 <=? k then den * 10 ^ k <=? num else den <=? num * 10 ^ (- k).

Definition shortest (x : f64) : Z * Z :=
  match x with
  | S754_finite _ m e =>
      let '(num, den) := if 0 <=? e then (Zpos m * 2 ^ e, 1) else (Zpos m, 2 ^ (- e)) in
      let est := (Zpos (digits2_pos m) + e) * 30103 / 100000 in
      let lead := if pow10_le num den (est + 1) then est + 1
                  else if pow10_le num den est then est
                  else if pow10_le num den (est - 1) then est - 1 else est - 2 in
      shortest_go 17 (SFabs x) num den lead 1
  | _ => (0, 0)
  end.

Fixpoint drop_zeros (s : string) : string :=
  match s with String c t => if (c =c? "0")%char then drop_zeros t else s | "" => "" end.
Definition trim_zeros (s : string) : string := String.rev (drop_zeros (String.rev s)).

(** [FormatFloat(x, 'g', -1, 64)]: exponent form when the decimal exponent is
    below -4 or at least 6. *)
Definition format_float (x : f64) : string :=
  match x with
  | S754_nan => "NaN"
  | S754_infinity s => if s then "-Inf" else "+Inf"
  | S754_zero s => if s then "-0" else "0"
  | S754_finite s _ _ =>
      let '(d, k) := shortest x in
      let all := digits_of d in
      let digs := trim_zeros all in
      let exp := Z.of_nat (slen all) + k - 1 in
      let body :=
        if (exp <? -4) || (6 <=? exp) then
          (stake 1 digs) +:+ (if sdrop 1 digs =s? "" then "" else "." +:+ sdrop 1 digs)
          +:+ "e" +:+ (if exp <? 0 then "-" else "+")
          +:+ (if Z.abs exp <? 10 then "0" else "") +:+ digits_of (Z.abs exp)
        else if exp <? 0 then "0." +:+ srepeat "0" (Z.to_nat (- exp - 1)) +:+ digs
        else
          let int := Z.to_nat (exp + 1) in
          if (slen digs <=? int)%nat then digs +:+ srepeat "0" (int - slen digs)
          else stake int digs +:+ "." +:+ sdrop int digs in
      (if s then "-" else "") +:+ body
  end.

(** ** Integers read back *)
Definition digit_byte (c : ascii) : bool := in_range 48 57 (bcode c).

Lemma bcode_bchr z : 0 <= z < 256 → bcode (bchr z) = z.
Proof.
  intros H. unfold bcode, bchr. rewrite N_ascii_embedding by lia. lia.
Qed.
Lemma digit_val_bchr d : 0 <= d < 10 → digit_val (bchr (48 + d)) = Some d.
Proof.
  intros H. unfold digit_val, in_range. rewrite bcode_bchr by lia.
  rewrite (proj2 (Z.leb_le 48 (48 + d))), (proj2 (Z.leb_le (48 + d) 57)) by lia. simpl.
  f_equal. lia.
Qed.

Lemma parse_digits_go fuel : ∀ n acc, (0 < fuel)%nat → 0 <= n < 2 ^ Z.of_nat fuel →
  parse_digits 0 (digits_go fuel n acc) = parse_digits n acc.
Proof.
  induction fuel as [|fuel IH]; intros n acc Hf Hn; [lia|]. cbn [digits_go].
  pose proof (Z.mod_pos_bound n 10). destruct (Z.ltb_spec n 10).
  - cbn [parse_digits]. rewrite digit_val_bchr by lia. simpl.
    by rewrite Z.mod_small by lia.
  - assert (n / 10 < 2 ^ Z.of_nat fuel).
    { rewrite Nat2Z.inj_succ, Z.pow_succ_r in Hn by lia. apply Z.div_lt_upper_bound; lia. }
    assert (0 <= n / 10) by (apply Z.div_pos; lia).
    rewrite IH; [|destruct fuel; [simpl in *; lia|lia]|lia].
    cbn [parse_digits]. rewrite digit_val_bchr by lia. simpl.
    f_equal. pose proof (Z.div_mod n 10). lia.
Qed.

Lemma parse_digits_of n : 0 <= n → parse_digits 0 (digits_of n) = Some n.
Proof.
  intros Hn. unfold digits_of. rewrite parse_digits_go; [done|lia|].
  rewrite Nat2Z.inj_succ, Z2Nat.id by apply Z.log2_nonneg. split; [done|].
  destruct (decide (n = 0)) as [->|]; [done|]. apply Z.log2_spec. lia.
Qed.

Lemma digits_go_digits fuel : ∀ n acc,
  sforall digit_byte acc = true → sforall digit_byte (digits_go fuel n acc) = true.
Proof.
  induction fuel as [|fuel IH]; intros n acc Hacc; [done|]. cbn [digits_go].
  pose proof (Z.mod_pos_bound n 10).
  assert (sforall digit_byte (String (bchr (48 + n mod 10)) acc) = true).
  { cbn [sforall]. rewrite Hacc, andb_true_r. unfold digit_byte, in_range.
    rewrite bcode_bchr by lia. lia. }
  destruct (n <? 10); [done|]. by apply IH.
Qed.
Lemma digits_of_digits n : sforall digit_byte (digits_of n) = true.
Proof. by apply digits_go_digits. Qed.
Lemma digits_go_ne fuel : ∀ n acc, acc ≠ "" → digits_go fuel n acc ≠ "".
Proof.
  induction fuel as [|fuel IH]; intros n acc Ha; [done|]. cbn [digits_go].
  destruct (n <? 10); [done|]. by apply IH.
Qed.
Lemma digits_of_ne n : digits_of n ≠ "".
Proof.
  unfold digits_of. cbn [digits_go]. destruct (n <? 10); [done|]. by apply digits_go_ne.
Qed.

(** A digit is neither sign. *)
Lemma digit_byte_sign c : digit_byte c = true → (c =c? "-")%char = false ∧ (c =c? "+")%char = false.
Proof.
  unfold digit_byte, in_range. intros H.
  split.
  - by destruct (Ascii.eqb_spec c "-"%char) as [->|].
  - by destruct (Ascii.eqb_spec c "+"%char) as [->|].
Qed.

(** Formatting and reading back is the identity on the range of [int64]. *)
Lemma parse_int_itoa z : - 2 ^ 63 <= z < 2 ^ 63 → parse_int (itoa z) = Some z.
Proof.
  intros Hz. unfold itoa. destruct (Z.ltb_spec z 0).
  - change (parse_int ("-" +:+ digits_of (- z))) with
      (if digits_of (- z) =s? "" then None else
       n ← parse_digits 0 (digits_of (- z)); if 2 ^ 63 <? n then None else Some (- n)).
    destruct (eqs_spec (digits_of (- z)) "") as [E|_]; [by apply digits_of_ne in E|].
    rewrite parse_digits_of by lia. cbn. rewrite (proj2 (Z.ltb_ge _ _)) by lia. f_equal. lia.
  - unfold parse_int. pose proof (digits_of_digits z) as Hd. pose proof (digits_of_ne z) as Hne.
    pose proof (parse_digits_of z) as Hp. destruct (digits_of z) as [|c s]; [done|].
    cbn [sforall] in Hd. apply andb_true_iff in Hd as [[E1 E2]%digit_byte_sign _].
    unfold split_sign. rewrite E1, E2. simpl in *. rewrite Hp by done.
    simpl. by rewrite (proj2 (Z.leb_gt _ _)) by lia.
Qed.
