(* ===== verification/GoUtf8.v ===== *)
(** * UTF-8 facts

    [string(r)] followed by [[]rune(...)] gives [r] back for every valid rune;
    runes decoded from any text are valid; texts whose pieces start at rune
    boundaries decode piece by piece. *)
From Stdlib Require Import Ascii ZArith Lia.
From stdpp Require Import base list strings.
From S2P Require Import Prelude GoStrings GoStrconv.

Local Open Scope Z_scope.

(** A Unicode scalar value. *)
Definition valid_rune (r : Z) : bool :=
  (0 <=? r) && (r <=? 1114111) && negb (in_range 55296 57343 r).

Ltac zdiv := Z.div_mod_to_equations; lia.

(** ** Bit fields *)

Lemma lor_shift a b n : 0 <= n → 0 <= b < 2 ^ n → Z.lor (Z.shiftl a n) b = a * 2 ^ n + b.
Proof.
  intros Hn Hb. rewrite <- Z.shiftl_mul_pow2 by done. symmetry. apply Z.add_nocarry_lor.
  apply Z.bits_inj'. intros m Hm. rewrite Z.land_spec, Z.bits_0.
  destruct (Z.ltb_spec m n).
  - by rewrite Z.shiftl_spec_low.
  - destruct (decide (b = 0)) as [->|]; [by rewrite Z.bits_0, andb_false_r|].
    rewrite (Z.bits_above_log2 b m); [by rewrite andb_false_r|lia|].
    apply Z.log2_lt_pow2; [lia|]. pose proof (Z.pow_le_mono_r 2 n m). lia.
Qed.

Lemma low_bits x n : 0 <= n → Z.land x (Z.ones n) = x mod 2 ^ n.
Proof. intros. by apply Z.land_ones. Qed.

Lemma lead2 x : 0 <= x < 32 → Z.lor 192 x = 192 + x.
Proof. intros. by apply (lor_shift 6 x 5). Qed.
Lemma lead3 x : 0 <= x < 16 → Z.lor 224 x = 224 + x.
Proof. intros. by apply (lor_shift 14 x 4). Qed.
Lemma lead4 x : 0 <= x < 8 → Z.lor 240 x = 240 + x.
Proof. intros. by apply (lor_shift 30 x 3). Qed.
Lemma trail x : 0 <= x < 64 → Z.lor 128 x = 128 + x.
Proof. intros. by apply (lor_shift 2 x 6). Qed.
Lemma land63 x : Z.land x 63 = x mod 64.
Proof. by apply (Z.land_ones x 6). Qed.
Lemma land31 x : Z.land x 31 = x mod 32.
Proof. by apply (Z.land_ones x 5). Qed.
Lemma land15 x : Z.land x 15 = x mod 16.
Proof. by apply (Z.land_ones x 4). Qed.
Lemma land7 x : Z.land x 7 = x mod 8.
Proof. by apply (Z.land_ones x 3). Qed.
Lemma shiftr6 x : Z.shiftr x 6 = x / 64.
Proof. by apply Z.shiftr_div_pow2. Qed.
Lemma shiftr12 x : Z.shiftr x 12 = x / 4096.
Proof. by apply Z.shiftr_div_pow2. Qed.
Lemma shiftr18 x : Z.shiftr x 18 = x / 262144.
Proof. by apply Z.shiftr_div_pow2. Qed.
Lemma join6 a b : 0 <= b < 64 → Z.lor (Z.shiftl a 6) b = a * 64 + b.
Proof. intros. by apply (lor_shift a b 6). Qed.
Lemma shiftl6 b : Z.shiftl b 6 = b * 64.
Proof. by apply Z.shiftl_mul_pow2. Qed.
Lemma join12 a b c : 0 <= b < 64 → 0 <= c < 64 →
  Z.lor (Z.lor (Z.shiftl a 12) (Z.shiftl b 6)) c = a * 4096 + b * 64 + c.
Proof.
  intros Hb Hc. rewrite (lor_shift a _ 12), shiftl6 by (rewrite ?shiftl6; lia).
  replace (a * 2 ^ 12 + b * 64) with (Z.shiftl (a * 64 + b) 6) by (rewrite shiftl6; lia).
  rewrite join6 by done. lia.
Qed.
Lemma join18 a b c d : 0 <= b < 64 → 0 <= c < 64 → 0 <= d < 64 →
  Z.lor (Z.lor (Z.lor (Z.shiftl a 18) (Z.shiftl b 12)) (Z.shiftl c 6)) d
  = a * 262144 + b * 4096 + c * 64 + d.
Proof.
  intros Hb Hc Hd. assert (Z.shiftl b 12 = b * 4096) as Hs by by apply Z.shiftl_mul_pow2.
  rewrite (lor_shift a _ 18), Hs by (rewrite ?Hs; lia).
  replace (a * 2 ^ 18 + b * 4096) with (Z.shiftl (a * 64 + b) 12)
    by (rewrite Z.shiftl_mul_pow2 by lia; lia).
  rewrite join12 by done. lia.
Qed.

(** ** The shape of an encoded rune *)

(** The bytes of a rune, by length. *)
Inductive encoding : Z → string → Prop :=
| enc1 b0 : 0 <= b0 < 128 → encoding b0 (String (bchr b0) "")
| enc2 b0 b1 : 2 <= b0 < 32 → 0 <= b1 < 64 →
    encoding (b0 * 64 + b1) (String (bchr (192 + b0)) (String (bchr (128 + b1)) ""))
| enc3 b0 b1 b2 : 0 <= b0 < 16 → 0 <= b1 < 64 → 0 <= b2 < 64 →
    (b0 = 0 → 32 <= b1) → (b0 = 13 → b1 < 32) →
    encoding (b0 * 4096 + b1 * 64 + b2)
      (String (bchr (224 + b0)) (String (bchr (128 + b1)) (String (bchr (128 + b2)) "")))
| enc4 b0 b1 b2 b3 : 0 <= b0 < 5 → 0 <= b1 < 64 → 0 <= b2 < 64 → 0 <= b3 < 64 →
    (b0 = 0 → 16 <= b1) → (b0 = 4 → b1 < 16) →
    encoding (b0 * 262144 + b1 * 4096 + b2 * 64 + b3)
      (String (bchr (240 + b0)) (String (bchr (128 + b1))
        (String (bchr (128 + b2)) (String (bchr (128 + b3)) "")))).

Lemma encode_encoding r : valid_rune r = true → encoding r (encode_rune r).
Proof.
  unfold valid_rune. rewrite !andb_true_iff, negb_true_iff. intros [[H0 H1] H2].
  unfold encode_rune. rewrite H2. rewrite (proj2 (Z.ltb_ge r 0)), (proj2 (Z.ltb_ge 1114111 r)) by lia.
  simpl. unfold in_range in H2. rewrite andb_false_iff, !Z.leb_gt in H2.
  repeat case_match; rewrite ?Z.ltb_lt, ?Z.ltb_ge in *;
    rewrite ?land63, ?shiftr6, ?shiftr12, ?shiftr18.
  - apply enc1. lia.
  - rewrite lead2, trail by zdiv.
    replace r with (r / 64 * 64 + r mod 64) at 1 by zdiv. apply enc2; zdiv.
  - rewrite lead3, !trail by zdiv.
    replace r with (r / 4096 * 4096 + (r / 64) mod 64 * 64 + r mod 64) at 1 by zdiv.
    apply enc3; zdiv.
  - rewrite lead4, !trail by zdiv.
    replace r with (r / 262144 * 262144 + (r / 4096) mod 64 * 4096 + (r / 64) mod 64 * 64 + r mod 64)
      at 1 by zdiv.
    apply enc4; zdiv.
Qed.

(** Resolve a test on bytes whose ranges are known. *)
Ltac byte_test :=
  repeat match goal with
  | |- context [if ?b then _ else _] =>
      first [replace b with true by (unfold in_range, cont; lia)
            |replace b with false by (unfold in_range, cont; lia)]; cbv iota
  end.

Lemma encoding_decode r s t : encoding r s →
  ∃ c u, s = String c u ∧ decode_rune c (u +:+ t) = (r, slen s).
Proof.
  destruct 1 as [b0|b0 b1|b0 b1 b2|b0 b1 b2 b3]; eexists _, _; (split; [reflexivity|]);
    unfold decode_rune, rune_lead, low6; rewrite ?sapp_cons, ?sapp_nil_l; unfold cont; rewrite !bcode_bchr by lia;
    byte_test; rewrite ?land63, ?land31, ?land15, ?land7; cbn [slen].
  - done.
  - rewrite join6 by zdiv. f_equal. zdiv.
  - destruct (decide (b0 = 0)); [|destruct (decide (b0 = 13)); [|destruct (decide (b0 < 13))]];
      byte_test; rewrite join12 by zdiv; f_equal; zdiv.
  - destruct (decide (b0 = 0)); [|destruct (decide (b0 = 4))];
      byte_test; rewrite join18 by zdiv; f_equal; zdiv.
Qed.

(** ** Decoding *)

Lemma runes_go_skip u t : runes_go (slen u) (u +:+ t) = runes_go 0 t.
Proof. induction u as [|c u IH]; simpl; [done|apply IH]. Qed.

Lemma runes_encode r t : valid_rune r = true → runes (encode_rune r +:+ t) = r :: runes t.
Proof.
  intros Hr. destruct (encoding_decode r (encode_rune r) t (encode_encoding r Hr)) as (c & u & E & Hd).
  rewrite E in *. rewrite sapp_cons. unfold runes at 1. cbn [runes_go]. rewrite Hd. cbn [slen].
  replace (S (slen u) - 1)%nat with (slen u) by lia. by rewrite runes_go_skip.
Qed.

Lemma runes_of_runes l t : Forall (λ r, valid_rune r = true) l →
  runes (of_runes l +:+ t) = l ++ runes t.
Proof.
  induction 1 as [|r l Hr _ IH]; [done|]. cbn [of_runes]. rewrite sapp_assoc, runes_encode by done.
  by rewrite IH.
Qed.

(** A byte that continues no sequence starts a rune. *)
Definition boundary (t : string) : Prop :=
  match t with "" => True | String c _ => cont c = false end.

Lemma encode_boundary r t : valid_rune r = true → boundary (encode_rune r +:+ t).
Proof.
  intros Hr. destruct (encode_encoding r Hr); simpl; unfold cont, in_range;
    rewrite bcode_bchr by lia; lia.
Qed.
Lemma of_runes_boundary l : Forall (λ r, valid_rune r = true) l → boundary (of_runes l).
Proof. intros H. destruct H as [|r l Hr _]; [done|]. by apply encode_boundary. Qed.

Lemma bcode_range c : 0 <= bcode c < 256.
Proof. unfold bcode. pose proof (N_ascii_bounded c). lia. Qed.

(** The rune at the front of a text: its byte for ASCII, an error of width 1,
    or a complete sequence. *)
Lemma decode_cases c s :
  (bcode c < 128 ∧ ∀ t, decode_rune c t = (bcode c, 1%nat))
  ∨ (128 <= bcode c ∧ decode_rune c s = (RuneError, 1%nat))
  ∨ (∃ r w, decode_rune c s = (r, w) ∧ valid_rune r = true ∧ (1 < w <= S (slen s))%nat
       ∧ cont c = false ∧ ∀ t, decode_rune c (s +:+ t) = (r, w)).
Proof.
  pose proof (bcode_range c) as Hc. destruct (Z.ltb_spec (bcode c) 128) as [Hlt|Hge].
  { left. split; [done|]. intros t. unfold decode_rune. by rewrite (proj2 (Z.ltb_lt _ _)). }
  right. unfold decode_rune. rewrite (proj2 (Z.ltb_ge _ _) Hge). unfold rune_lead, cont.
  repeat match goal with
  | |- context [if in_range ?a ?b (bcode c) then _ else _] =>
      destruct (in_range a b (bcode c)) eqn:?
  | |- context [if (bcode c =? ?a) then _ else _] => destruct (Z.eqb_spec (bcode c) a)
  end; try (left; done).
  all: destruct s as [|c1 [|c2 [|c3 s]]]; try (left; done);
    pose proof (bcode_range c1);
    try pose proof (bcode_range c2); try pose proof (bcode_range c3);
    match goal with |- context [if ?b then _ else _] => destruct b eqn:Hb end; try (left; done).
  all: right; eexists _, _; split; [reflexivity|];
    (split; [|split; [simpl; lia|split; [unfold in_range in *; lia
      |intros t; rewrite ?sapp_cons; cbv beta iota; by rewrite Hb]]]).
  all: unfold in_range in *; unfold low6; rewrite ?land63, ?land31, ?land15, ?land7.
  all: first [rewrite join18 by zdiv|rewrite join12 by zdiv|rewrite join6 by zdiv];
    unfold valid_rune, in_range; zdiv.
Qed.

Lemma decode_valid c s r w : decode_rune c s = (r, w) →
  valid_rune r = true ∧ (1 <= w <= S (slen s))%nat.
Proof.
  intros H. pose proof (bcode_range c).
  destruct (decode_cases c s) as [[Hlt Hd]|[[_ Hd]|(r' & w' & Hd & Hv & Hw & _)]];
    rewrite ?Hd in H; simplify_eq.
  - split; [unfold valid_rune, in_range; lia|lia].
  - split; [done|lia].
  - split; [done|lia].
Qed.

Lemma runes_valid s : Forall (λ r, valid_rune r = true) (runes s).
Proof.
  unfold runes. generalize 0%nat. induction s as [|c s IH]; intros [|k]; simpl; [done..| |apply IH].
  destruct (decode_rune c s) as [r w] eqn:E. constructor; [|apply IH].
  by apply decode_valid in E as [? _].
Qed.

(** An ill-formed byte stays ill-formed unless a continuation byte follows. *)
Lemma decode_error c s : 128 <= bcode c → decode_rune c "" = (RuneError, 1%nat) ∧
  (cont c = true ∨ boundary s → decode_rune c s = (RuneError, 1%nat)).
Proof.
  intros Hge. unfold decode_rune. rewrite (proj2 (Z.ltb_ge _ _) Hge). split.
  { by destruct (rune_lead (bcode c)) as [[[[|[|[|[|[]]]]] ?] ?]|]. }
  intros H. unfold rune_lead, cont in *.
  repeat match goal with
  | |- context [if in_range ?a ?b (bcode c) then _ else _] =>
      destruct (in_range a b (bcode c)) eqn:?
  | |- context [if (bcode c =? ?a) then _ else _] => destruct (Z.eqb_spec (bcode c) a)
  end; try done.
  all: destruct s as [|c1 [|c2 [|c3 s]]]; try done; simpl in H; unfold cont in H;
    (destruct H as [H|H]; [unfold in_range in *; lia|]);
    match goal with |- context [if ?b then _ else _] => destruct b eqn:Hb end; try done;
    unfold in_range in *; lia.
Qed.

(** A one-rune text repeats rune by rune. *)
Lemma srepeat_runes m : rune_count m = 1%nat → ∃ r, runes m = [r] ∧
  ∀ n t, boundary t → runes (srepeat m n +:+ t) = replicate n r ++ runes t.
Proof.
  unfold rune_count, runes. destruct m as [|c u]; [done|]. cbn [runes_go].
  destruct (decode_rune c u) as [r w] eqn:E. intros Hlen. exists r. simpl in Hlen.
  destruct (runes_go (w - 1) u) as [|? ?] eqn:Hu; [|done]. split; [done|].
  pose proof (decode_valid _ _ _ _ E) as [_ Hw].
  assert (w = S (slen u)) as ->.
  { destruct (decide (w = S (slen u))); [done|]. exfalso.
    assert (∀ k u, (k < slen u)%nat → runes_go k u ≠ []) as Hne.
    { clear. intros k u. revert k. induction u as [|c u IH]; intros [|k] Hk; simpl in *; try lia.
      - by destruct (decode_rune c u). - apply IH. lia. }
    apply (Hne (w - 1)%nat u); [lia|done]. }
  assert (∀ t, boundary t ∨ (∃ t', t = String c t') ∧ u = "" →
    runes_go 0 (String c u +:+ t) = r :: runes_go 0 t) as Hstep.
  { intros t Ht. rewrite sapp_cons. cbn [runes_go].
    destruct (decode_cases c u) as [[Hlt Hd]|[[Hge Hd]|(r' & w' & Hd & _ & Hw' & _ & Happ)]].
    - rewrite Hd in *. injection E as <- Hu0. by destruct u.
    - rewrite Hd in E. injection E as <- Hu0. destruct u; [|done].
      rewrite (proj2 (decode_error c _ Hge)); [done|].
      destruct Ht as [Ht|[(t' & ->) _]]; [by right|]. simpl. destruct (cont c); auto.
    - rewrite Hd in E. injection E as -> ->. rewrite Happ. simpl. rewrite Nat.sub_0_r.
      by rewrite runes_go_skip. }
  induction n as [|n IH]; intros t Ht; [done|]. cbn [srepeat replicate].
  rewrite sapp_assoc, Hstep; [by rewrite IH|].
  destruct n as [|n]; [by left|]. cbn [srepeat]. rewrite sapp_assoc, sapp_cons.
  destruct (decode_cases c u) as [[Hlt _]|[[Hge Hd]|(r' & w' & _ & _ & _ & Hc & _)]].
  - left. simpl. unfold cont, in_range. lia.
  - right. rewrite Hd in E. injection E as _ Hu0. split; [eauto|by destruct u].
  - by left.
Qed.

(** ** Masking *)
Lemma valid_drop s n : Forall (λ r, valid_rune r = true) (drop n (runes s)).
Proof. apply Forall_drop, runes_valid. Qed.
Lemma valid_take s n : Forall (λ r, valid_rune r = true) (take n (runes s)).
Proof. apply Forall_take, runes_valid. Qed.
Lemma of_runes_decode l : Forall (λ r, valid_rune r = true) l → runes (of_runes l) = l.
Proof. intros H. by rewrite <- (sapp_nil_r (of_runes l)), runes_of_runes, app_nil_r. Qed.

(** The masked runes: the kept ends of [rs] around a run of mask runes. *)
Definition masked (rs : list Z) (head tail : nat) (r : Z) : list Z :=
  take head rs ++ replicate (length rs - head - tail)%nat r ++ drop (length rs - tail)%nat rs.
