(* ===== verification/GoValue.v ===== *)
(** * Dynamic values and errors

    The dynamic types that reach the expression language through Go's
    [interface{}], with [reflect.DeepEqual] and [fmt.Sprint] on them, and the
    error values of [fmt.Errorf]. *)
From Stdlib Require Import Ascii ZArith Lia SpecFloat.
From stdpp Require Import base list strings sorting.
From S2P Require Import Prelude GoStrings GoFloat GoStrconv.


(** The integer types [toFloat64] distinguishes. *)
Inductive ikind := KInt | KInt32 | KInt64 | KUint | KUint32 | KUint64.
#[export] Instance ikind_eq_dec : EqDecision ikind.
Proof. solve_decision. Defined.

(** [VStrings] is a [[]string], [VList] a [[]interface{}], [VMaps] a
    [[]map[string]interface{}], [VMap] a [map[string]interface{}] and
    [VFloatMap] a [map[string]float64]. *)
Inductive value :=
| VNil
| VBool (b : bool)
| VString (s : string)
| VInt (k : ikind) (z : Z)
| VFloat (f : f64)
| VFloat32 (f : f64)
| VStrings (l : list string)
| VList (l : list value)
| VMaps (l : list (list (string * value)))
| VMap (m : list (string * value))
| VFloatMap (m : list (string * f64)).

Notation vmap := (list (string * value)).

(** [m[k]] on a [map[string]interface{}]: nil for a missing key. *)
Definition vget (k : string) (m : vmap) : value :=
  match mget k m with Some v => v | None => VNil end.

Definition is_nil (v : value) : bool := match v with VNil => true | _ => false end.

(** [reflect.DeepEqual]. Maps are compared by key; the shortcut for two
    references to one backing array is not modelled (it differs only on
    containers that hold NaN). *)
Fixpoint deep_equal (a b : value) {struct a} : bool :=
  let fix list_eq (l l' : list value) : bool :=
    match l, l' with
    | [], [] => true
    | x :: l, y :: l' => deep_equal x y && list_eq l l'
    | _, _ => false
    end in
  let fix entries (m m' : vmap) : bool :=
    match m with
    | [] => true
    | (k, v) :: m =>
        match mget k m' with Some v' => deep_equal v v' | None => false end && entries m m'
    end in
  let map_eq (m m' : vmap) : bool := (length m =? length m')%nat && entries m m' in
  let fix maps_eq (l l' : list vmap) : bool :=
    match l, l' with
    | [], [] => true
    | m :: l, m' :: l' => map_eq m m' && maps_eq l l'
    | _, _ => false
    end in
  match a, b with
  | VNil, VNil => true
  | VBool x, VBool y => Bool.eqb x y
  | VString s, VString t => s =s? t
  | VInt k x, VInt k' y => bool_decide (k = k') && (x =? y)%Z
  | VFloat x, VFloat y | VFloat32 x, VFloat32 y => feqb x y
  | VStrings l, VStrings l' => bool_decide (l = l')
  | VList l, VList l' => list_eq l l'
  | VMaps l, VMaps l' => maps_eq l l'
  | VMap m, VMap m' => map_eq m m'
  | VFloatMap m, VFloatMap m' =>
      (length m =? length m')%nat
      && forallb (λ kv, match mget kv.1 m' with Some y => feqb kv.2 y | None => false end) m
  | _, _ => false
  end.

(** [sort.Strings] order on keys. *)
Fixpoint insert_by {A} (le : A → A → bool) (x : A) (l : list A) : list A :=
  match l with
  | [] => [x]
  | y :: l' => if le x y then x :: l else y :: insert_by le x l'
  end.
Fixpoint sort_by {A} (le : A → A → bool) (l : list A) : list A :=
  match l with [] => [] | x :: l => insert_by le x (sort_by le l) end.
Definition key_le {A} (x y : string * A) : bool := sleb x.1 y.1.

(** [fmt.Sprint] of one operand. *)
Fixpoint sprint (v : value) : string :=
  let fix items (l : list value) : list string :=
    match l with [] => [] | x :: l => sprint x :: items l end in
  let fix entries (m : vmap) : list (string * string) :=
    match m with [] => [] | (k, x) :: m => (k, sprint x) :: entries m end in
  let show_map (l : list (string * string)) : string :=
    "map[" +:+ sjoin " " ((λ kv, kv.1 +:+ ":" +:+ kv.2) <$> sort_by key_le l) +:+ "]" in
  let fix maps (l : list vmap) : list string :=
    match l with [] => [] | m :: l => show_map (entries m) :: maps l end in
  match v with
  | VNil => "<nil>"
  | VBool b => if b then "true" else "false"
  | VString s => s
  | VInt _ z => itoa z
  | VFloat f | VFloat32 f => format_float f
  | VStrings l => "[" +:+ sjoin " " l +:+ "]"
  | VList l => "[" +:+ sjoin " " (items l) +:+ "]"
  | VMaps l => "[" +:+ sjoin " " (maps l) +:+ "]"
  | VMap m => show_map (entries m)
  | VFloatMap m => show_map ((λ kv, (kv.1, format_float kv.2)) <$> m)
  end.

(** ** Errors

    [fmt.Errorf(format, args...)]: the format string and its operands, in
    order; [AErr] is the operand of [%w]. The rendered text is not modelled. *)
Inductive gerror : Type :=
| Errorf (format : string) (args : list earg)
with earg : Type :=
| AStr (s : string)
| AInt (z : Z)
| AFloat (f : f64)
| AVal (v : value)
| AErr (e : gerror).

Notation result := (res gerror).

Definition errorf {A} (format : string) (args : list earg) : result A :=
  Err (Errorf format args).
(** [fmt.Errorf("...: %w", args..., err)] around a failed call. *)
Definition wrapf {A} (format : string) (args : list earg) (m : result A) : result A :=
  map_err (λ e, Errorf format (args ++ [AErr e])) m.

Lemma wrapf_ok {A} format args (m : result A) a : wrapf format args m = Ok a ↔ m = Ok a.
Proof. apply map_err_ok. Qed.

(** ** Sorting lemmas *)
Section sorting.
Context {A : Type} (le : A → A → bool).

Lemma insert_by_perm x l : insert_by le x l ≡ₚ x :: l.
Proof.
  induction l as [|y l IH]; simpl; [done|].
  destruct (le x y); [done|]. rewrite IH. constructor.
Qed.
Lemma sort_by_perm l : sort_by le l ≡ₚ l.
Proof. induction l as [|x l IH]; simpl; [done|]. by rewrite insert_by_perm, IH. Qed.

Context (le_total : ∀ x y, le x y = true ∨ le y x = true).
Context (le_trans : ∀ x y z, le x y = true → le y z = true → le x z = true).

Lemma insert_by_sorted x l :
  StronglySorted (λ x y, le x y = true) l → StronglySorted (λ x y, le x y = true) (insert_by le x l).
Proof.
  induction 1 as [|y l Hs IH Hall]; simpl; [by repeat constructor|].
  destruct (le x y) eqn:E.
  - constructor; [by constructor|]. constructor; [done|].
    eapply Forall_impl; [exact Hall|]. simpl. eauto.
  - constructor; [done|]. apply Forall_forall. intros z.
    rewrite insert_by_perm, elem_of_cons. intros [->|Hz].
    + destruct (le_total x y); congruence.
    + by eapply Forall_forall in Hall.
Qed.
Lemma sort_by_sorted l : StronglySorted (λ x y, le x y = true) (sort_by le l).
Proof. induction l; simpl; [constructor|]. by apply insert_by_sorted. Qed.

(** Sorting forgets the order the input came in. *)
Lemma sort_by_perm_eq l1 l2 :
  (∀ x y, x ∈ l1 → y ∈ l1 → le x y = true → le y x = true → x = y) →
  l1 ≡ₚ l2 → sort_by le l1 = sort_by le l2.
Proof.
  intros Hanti Hp.
  assert (sort_by le l1 ≡ₚ sort_by le l2) as Hp' by (by rewrite !sort_by_perm).
  assert (∀ x y, x ∈ sort_by le l1 → y ∈ sort_by le l1 → le x y = true → le y x = true → x = y)
    as Hanti' by (intros x y; rewrite !sort_by_perm; apply Hanti).
  clear Hanti. revert Hp' Hanti'. pose proof (sort_by_sorted l1) as H1.
  pose proof (sort_by_sorted l2) as H2. revert H1 H2.
  generalize (sort_by le l1) (sort_by le l2). clear l1 l2 Hp.
  intros k1 k2 H1. revert k2. induction H1 as [|x k1 Hs1 IH Hx]; intros k2 H2 Hp Hanti.
  { by apply Permutation_nil in Hp as ->. }
  destruct H2 as [|y k2 Hs2 Hy].
  { symmetry in Hp. by apply Permutation_nil_cons in Hp. }
  rewrite Forall_forall in Hx, Hy.
  assert (x = y) as ->.
  { assert (x ∈ y :: k2) as Hxy by (rewrite <- Hp; left).
    assert (y ∈ x :: k1) as Hyx by (rewrite Hp; left).
    apply elem_of_cons in Hxy as [->|Hxy]; [done|].
    pose proof Hyx as Hyx'. apply elem_of_cons in Hyx as [->|Hyx]; [done|].
    apply Hanti; [left|done|by apply Hx|by apply Hy]. }
  f_equal. apply IH; [done| |].
  - by apply (Permutation_cons_inv (a := y)).
  - intros ????. apply Hanti; by right.
Qed.
End sorting.

Lemma sleb_total s t : sleb s t = true ∨ sleb t s = true.
Proof. apply String.leb_total. Qed.
Lemma sleb_trans s t u : sleb s t = true → sleb t u = true → sleb s u = true.
Proof.
  intros H1 H2. apply Is_true_true. change (String.le s u).
  transitivity t; by apply Is_true_true.
Qed.
Lemma sleb_antisymm s t : sleb s t = true → sleb t s = true → s = t.
Proof. apply String.leb_antisym. Qed.
