(* ===== verification/DslTypes.v ===== *)
(** * Validation DSL: data model (internal/validation/dsl/types.go)

    The configuration and result records of the validation pipeline, the
    expression tree, the defaults the loader materialises, and the failure
    policy, with what defaults and policy decide. *)
From Stdlib Require Import Ascii ZArith Lia SpecFloat.
From stdpp Require Import base sets list strings.
From S2P Require Import Prelude GoStrings GoFloat GoStrconv GoValue.

(** ** Expressions *)

(** A Go [Expression] is a tag and an untyped payload; the constructors are
    the tags, each with the payload type the evaluator asserts for it. *)
Inductive Expression :=
| ExprVariable (name : string)
| ExprConstant (v : value)
| ExprBinary (l : Expression) (op : string) (r : Expression)
| ExprUnary (op : string) (operand : Expression)
| ExprFunction (name : string) (args : list Expression)
| ExprTernary (cond thn els : Expression).

Section expression_ind.
Variable P : Expression → Prop.
Hypothesis Hvar : ∀ x, P (ExprVariable x).
Hypothesis Hconst : ∀ v, P (ExprConstant v).
Hypothesis Hbin : ∀ l op r, P l → P r → P (ExprBinary l op r).
Hypothesis Hun : ∀ op e, P e → P (ExprUnary op e).
Hypothesis Hfun : ∀ f args, Forall P args → P (ExprFunction f args).
Hypothesis Htern : ∀ c t e, P c → P t → P e → P (ExprTernary c t e).
Fixpoint expression_ind' (e : Expression) : P e :=
  match e with
  | ExprVariable x => Hvar x
  | ExprConstant v => Hconst v
  | ExprBinary l op r => Hbin l op r (expression_ind' l) (expression_ind' r)
  | ExprUnary op e => Hun op e (expression_ind' e)
  | ExprFunction f args =>
      Hfun f args ((fix go l : Forall P l :=
        match l with
        | [] => Forall_nil_2 P
        | e :: l => Forall_cons_2 P e l (expression_ind' e) (go l)
        end) args)
  | ExprTernary c t e =>
      Htern c t e (expression_ind' c) (expression_ind' t) (expression_ind' e)
  end.
End expression_ind.

(** A parsed simple filter. *)
Record FilterExpression := {
  flt_Field : string;
  flt_Operator : string;
  flt_Value : value;
  flt_IsNull : bool;
}.

(** ** Configuration *)

Record FailurePolicy := {
  fp_FailOnFatal : bool;
  fp_ErrorThreshold : Z;
  fp_WarningThreshold : Z;
  fp_HaltOnFirstFatal : bool;
  fp_failOnFatalSet : bool;
  fp_haltOnFirstFatalSet : bool;
}.

Record AccumulationConfig := {
  ac_Name : string; ac_Operation : string; ac_Field : string; ac_Filter : string;
}.

Record AggregationConfig := {
  ag_Name : string; ag_Expression : string; ag_CompareTo : string;
  ag_Tolerance : f64; ag_toleranceSet : bool;
}.

Record ReconciliationComponentConfig := {
  cc_Name : string; cc_Description : string; cc_Expression : string;
}.

Record ReconciliationGroupByConfig := {
  gb_Source : string; gb_Field : string; gb_LabelField : string;
  gb_MissingLabel : string; gb_Filter : string; gb_ValueExpression : string;
  gb_Aggregation : string; gb_NameTemplate : string;
  gb_DescriptionTemplate : string; gb_OverflowStrategy : string;
}.

Record ReconciliationConfig := {
  rc_Name : string; rc_BaseExpression : string; rc_Tolerance : f64;
  rc_Severity : string; rc_AllowUnexplained : bool;
  rc_Components : list ReconciliationComponentConfig;
  rc_GroupBy : option ReconciliationGroupByConfig;
}.

Record ValidationConfig := {
  vc_Name : string; vc_Rule : string; vc_Severity : string; vc_Message : string;
}.

(** The [Runtime] back-pointer of the Go record is the result of
    [RunValidation] here. *)
Record ValidationMetadata := {
  md_Enable : bool; md_ExpressionLanguage : string; md_ArrayPath : string;
  md_Placement : string; md_FailurePolicy : FailurePolicy;
  md_Accumulations : list AccumulationConfig;
  md_Aggregations : list AggregationConfig;
  md_Reconciliations : list ReconciliationConfig;
  md_Validations : list ValidationConfig;
}.

(** ** Runtime state and results *)

Record Accumulator := {
  acc_Name : string; acc_Operation : string; acc_Field : string;
  acc_Filter : option FilterExpression;
  acc_FilterExpr : option Expression;
  acc_Count : Z; acc_Sum : f64; acc_Min : f64; acc_Max : f64;
  acc_values : list f64;
}.

Record ValidationResult := {
  vr_Name : string; vr_Result : string; vr_Severity : string;
  vr_Message : string; vr_Value : value;
}.

Record ReconciliationComponentResult := {
  cr_Name : string; cr_Description : string; cr_Value : f64;
}.

Record ReconciliationResult := {
  rr_Name : string; rr_BaseValue : f64;
  rr_Components : list ReconciliationComponentResult;
  rr_ComponentsTotal : f64; rr_Residual : f64; rr_Tolerance : f64;
  rr_Status : string; rr_AllowUnexplained : bool; rr_Severity : string;
}.

Record QualitySummary := {
  qs_TotalChecks : Z; qs_Passed : Z; qs_Warnings : Z; qs_Errors : Z; qs_Fatals : Z;
}.

(** [StartTime] is the clock reading the constructor takes. *)
Record ValidationRuntime := {
  rt_Accumulators : list (string * Accumulator);
  rt_AggregationResults : vmap;
  rt_ValidationResults : list ValidationResult;
  rt_ReconciliationResults : list ReconciliationResult;
  rt_ReconciliationScalars : vmap;
  rt_DocumentContext : vmap;
  rt_StartTime : Z;
  rt_RecordCount : Z;
}.

Definition NewValidationRuntime (now : Z) : ValidationRuntime := {|
  rt_Accumulators := []; rt_AggregationResults := [];
  rt_ValidationResults := []; rt_ReconciliationResults := [];
  rt_ReconciliationScalars := []; rt_DocumentContext := [];
  rt_StartTime := now; rt_RecordCount := 0;
|}.

Definition AddValidationResult (r : ValidationRuntime) (v : ValidationResult) : ValidationRuntime := {|
  rt_Accumulators := rt_Accumulators r; rt_AggregationResults := rt_AggregationResults r;
  rt_ValidationResults := rt_ValidationResults r ++ [v];
  rt_ReconciliationResults := rt_ReconciliationResults r;
  rt_ReconciliationScalars := rt_ReconciliationScalars r;
  rt_DocumentContext := rt_DocumentContext r;
  rt_StartTime := rt_StartTime r; rt_RecordCount := rt_RecordCount r;
|}.

(** ** Defaults *)

Definition defaultExpressionLanguage : string := "sumpter-dsl".
Definition defaultPlacement : string := "footer".
Definition defaultAggregationTolerance : f64 := f_of_ratio false 1 100.
Definition defaultValidationSeverity : string := "error".
Definition defaultReconciliationSeverity : string := "warning".
Definition defaultReconciliationTolerance : f64 := f_of_ratio false 1 100.

(** [if strings.TrimSpace(s) == "" { s = def }] *)
Definition default_blank (def s : string) : string :=
  if trim_space s =s? "" then def else s.

Definition AggregationConfig_ApplyDefaults (c : AggregationConfig) : AggregationConfig := {|
  ag_Name := ag_Name c; ag_Expression := ag_Expression c; ag_CompareTo := ag_CompareTo c;
  ag_Tolerance :=
    if negb (ag_toleranceSet c) && feqb (ag_Tolerance c) fzero
    then defaultAggregationTolerance else ag_Tolerance c;
  ag_toleranceSet := ag_toleranceSet c;
|}.

Definition FailurePolicy_ApplyDefaults (p : FailurePolicy) : FailurePolicy := {|
  fp_FailOnFatal := if negb (fp_failOnFatalSet p) then true else fp_FailOnFatal p;
  fp_ErrorThreshold := fp_ErrorThreshold p;
  fp_WarningThreshold := fp_WarningThreshold p;
  fp_HaltOnFirstFatal := if negb (fp_haltOnFirstFatalSet p) then true else fp_HaltOnFirstFatal p;
  fp_failOnFatalSet := fp_failOnFatalSet p;
  fp_haltOnFirstFatalSet := fp_haltOnFirstFatalSet p;
|}.

Definition ReconciliationGroupByConfig_ApplyDefaults
    (c : ReconciliationGroupByConfig) : ReconciliationGroupByConfig := {|
  gb_Source := gb_Source c; gb_Field := gb_Field c; gb_LabelField := gb_LabelField c;
  gb_MissingLabel := default_blank "unknown" (gb_MissingLabel c);
  gb_Filter := gb_Filter c; gb_ValueExpression := gb_ValueExpression c;
  gb_Aggregation := default_blank "sum" (gb_Aggregation c);
  gb_NameTemplate := gb_NameTemplate c; gb_DescriptionTemplate := gb_DescriptionTemplate c;
  gb_OverflowStrategy := default_blank "none" (gb_OverflowStrategy c);
|}.

(** *** YAML decoding

    [Decode] into the raw struct is the YAML library's: it is the parameter
    [decode], started from the raw struct's preset defaults. [keys] are the
    keys of the mapping node, or [None] for a node of another kind. *)
Record AggregationRaw := {
  agr_Name : string; agr_Expression : string; agr_CompareTo : string; agr_Tolerance : f64;
}.
Definition AggregationConfig_UnmarshalYAML
    (decode : AggregationRaw → result AggregationRaw)
    (keys : option (list string)) : result AggregationConfig :=
  let raw := {| agr_Name := ""; agr_Expression := ""; agr_CompareTo := "";
                agr_Tolerance := defaultAggregationTolerance |} in
  let toleranceSet :=
    match keys with Some ks => existsb (λ k, k =s? "tolerance") ks | None => false end in
  raw ← decode raw;
  Ok {| ag_Name := agr_Name raw; ag_Expression := agr_Expression raw;
        ag_CompareTo := agr_CompareTo raw; ag_Tolerance := agr_Tolerance raw;
        ag_toleranceSet := toleranceSet |}.

Record FailurePolicyRaw := {
  fpr_FailOnFatal : bool; fpr_ErrorThreshold : Z; fpr_WarningThreshold : Z;
  fpr_HaltOnFirstFatal : bool;
}.
Definition FailurePolicy_UnmarshalYAML
    (decode : FailurePolicyRaw → result FailurePolicyRaw)
    (keys : option (list string)) : result FailurePolicy :=
  let raw := {| fpr_FailOnFatal := true; fpr_ErrorThreshold := 0;
                fpr_WarningThreshold := 0; fpr_HaltOnFirstFatal := true |} in
  let seen (k : string) :=
    match keys with Some ks => existsb (λ k', k' =s? k) ks | None => false end in
  raw ← decode raw;
  Ok {| fp_FailOnFatal := fpr_FailOnFatal raw; fp_ErrorThreshold := fpr_ErrorThreshold raw;
        fp_WarningThreshold := fpr_WarningThreshold raw;
        fp_HaltOnFirstFatal := fpr_HaltOnFirstFatal raw;
        fp_failOnFatalSet := seen "fail_on_fatal";
        fp_haltOnFirstFatalSet := seen "halt_on_first_fatal" |}.

Section defaults.
Context `{UC : UnicodeCase}.

Definition normalizeValidationSeverity (severity : string) : string :=
  let normalized := to_lower (trim_space severity) in
  if normalized =s? "" then defaultValidationSeverity else normalized.

Definition ValidationMetadata_ApplyDefaults (m : ValidationMetadata) : ValidationMetadata := {|
  md_Enable := md_Enable m;
  md_ExpressionLanguage := default_blank defaultExpressionLanguage (md_ExpressionLanguage m);
  md_ArrayPath := md_ArrayPath m;
  md_Placement := default_blank defaultPlacement (md_Placement m);
  md_FailurePolicy := FailurePolicy_ApplyDefaults (md_FailurePolicy m);
  md_Accumulations := md_Accumulations m;
  md_Aggregations := AggregationConfig_ApplyDefaults <$> md_Aggregations m;
  md_Reconciliations :=
    (λ c, {| rc_Name := rc_Name c; rc_BaseExpression := rc_BaseExpression c;
             rc_Tolerance := if feqb (rc_Tolerance c) fzero
                             then defaultReconciliationTolerance else rc_Tolerance c;
             rc_Severity := default_blank defaultReconciliationSeverity (rc_Severity c);
             rc_AllowUnexplained := rc_AllowUnexplained c;
             rc_Components := rc_Components c;
             rc_GroupBy := ReconciliationGroupByConfig_ApplyDefaults <$> rc_GroupBy c |})
      <$> md_Reconciliations m;
  md_Validations :=
    (λ v, {| vc_Name := vc_Name v; vc_Rule := vc_Rule v;
             vc_Severity := normalizeValidationSeverity (vc_Severity v);
             vc_Message := vc_Message v |}) <$> md_Validations m;
|}.

(** ** Quality summary and failure policy *)

Definition GetQualitySummary (r : ValidationRuntime) : QualitySummary :=
  foldl (λ s v,
    if vr_Result v =s? "pass"
    then {| qs_TotalChecks := qs_TotalChecks s; qs_Passed := qs_Passed s + 1;
            qs_Warnings := qs_Warnings s; qs_Errors := qs_Errors s; qs_Fatals := qs_Fatals s |}%Z
    else
      let sev := normalizeValidationSeverity (vr_Severity v) in
      if sev =s? "info" then s
      else if sev =s? "warning" then
        {| qs_TotalChecks := qs_TotalChecks s; qs_Passed := qs_Passed s;
           qs_Warnings := qs_Warnings s + 1; qs_Errors := qs_Errors s; qs_Fatals := qs_Fatals s |}%Z
      else if sev =s? "error" then
        {| qs_TotalChecks := qs_TotalChecks s; qs_Passed := qs_Passed s;
           qs_Warnings := qs_Warnings s; qs_Errors := qs_Errors s + 1; qs_Fatals := qs_Fatals s |}%Z
      else if sev =s? "fatal" then
        {| qs_TotalChecks := qs_TotalChecks s; qs_Passed := qs_Passed s;
           qs_Warnings := qs_Warnings s; qs_Errors := qs_Errors s; qs_Fatals := qs_Fatals s + 1 |}%Z
      else s)
    {| qs_TotalChecks := Z.of_nat (length (rt_ValidationResults r));
       qs_Passed := 0; qs_Warnings := 0; qs_Errors := 0; qs_Fatals := 0 |}
    (rt_ValidationResults r).

(** The boolean result and the error of the Go function. *)
Definition ShouldFailExtraction (r : ValidationRuntime) (policy : FailurePolicy)
    : bool * option gerror :=
  let policy := FailurePolicy_ApplyDefaults policy in
  let summary := GetQualitySummary r in
  if fp_FailOnFatal policy && (0 <? qs_Fatals summary)%Z then
    (true, Some (Errorf "validation failed: %d fatal error(s)" [AInt (qs_Fatals summary)]))
  else if (0 <=? fp_ErrorThreshold policy)%Z
          && (fp_ErrorThreshold policy <? qs_Errors summary)%Z then
    (true, Some (Errorf "validation failed: %d errors exceed threshold %d"
                   [AInt (qs_Errors summary); AInt (fp_ErrorThreshold policy)]))
  else if (0 <? fp_WarningThreshold policy)%Z
          && (fp_WarningThreshold policy <? qs_Warnings summary)%Z then
    (false, None)
  else (false, None).
End defaults.

(** ** Defaults and failure policy: what they decide *)

Section policy.
Context `{UC : UnicodeCase}.

Definition passed (v : ValidationResult) : bool := vr_Result v =s? "pass".
(** A failed check of effective severity [sev]. *)
Definition failed_with (sev : string) (v : ValidationResult) : bool :=
  negb (passed v) && (normalizeValidationSeverity (vr_Severity v) =s? sev).
Definition count_of (p : ValidationResult → bool) (l : list ValidationResult) : Z :=
  Z.of_nat (length (List.filter p l)).

Lemma count_of_cons p v l : count_of p (v :: l) = ((if p v then 1 else 0) + count_of p l)%Z.
Proof. unfold count_of. simpl. destruct (p v); simpl; lia. Qed.

(** The summary a list of results adds up to, on top of [s]. *)
Definition summary_of (n : Z) (l : list ValidationResult) : QualitySummary :=
  {| qs_TotalChecks := n; qs_Passed := count_of passed l;
     qs_Warnings := count_of (failed_with "warning") l;
     qs_Errors := count_of (failed_with "error") l;
     qs_Fatals := count_of (failed_with "fatal") l |}.
Definition add_summary (s t : QualitySummary) : QualitySummary :=
  {| qs_TotalChecks := qs_TotalChecks s; qs_Passed := qs_Passed s + qs_Passed t;
     qs_Warnings := qs_Warnings s + qs_Warnings t; qs_Errors := qs_Errors s + qs_Errors t;
     qs_Fatals := qs_Fatals s + qs_Fatals t |}%Z.

Lemma add_summary_zero s n : add_summary s (summary_of n []) = s.
Proof. destruct s. unfold add_summary, summary_of, count_of. simpl. f_equal; lia. Qed.

Lemma quality_summary r :
  GetQualitySummary r
  = summary_of (Z.of_nat (length (rt_ValidationResults r))) (rt_ValidationResults r).
Proof.
  unfold GetQualitySummary. set (n := Z.of_nat _). set (l := rt_ValidationResults r). clearbody n l.
  match goal with |- foldl ?f ?s0 l = _ =>
    enough (∀ t, foldl f t l = add_summary t (summary_of n l)) as H
      by (rewrite H; unfold add_summary, summary_of; simpl; f_equal; lia)
  end.
  induction l as [|v l IH]; intros s; [by rewrite add_summary_zero|]. simpl foldl. rewrite IH.
  unfold add_summary, summary_of. simpl. rewrite !count_of_cons. unfold failed_with, passed.
  destruct (vr_Result v =s? "pass"); simpl; [f_equal; lia|].
  destruct (eqs_spec (normalizeValidationSeverity (vr_Severity v)) "info") as [->|_];
    [simpl; f_equal; lia|].
  destruct (eqs_spec (normalizeValidationSeverity (vr_Severity v)) "warning") as [->|_];
    [simpl; f_equal; lia|].
  destruct (eqs_spec (normalizeValidationSeverity (vr_Severity v)) "error") as [->|_];
    [simpl; f_equal; lia|].
  destruct (_ =s? "fatal"); simpl; f_equal; lia.
Qed.

Lemma count_of_pos p l : (0 < count_of p l)%Z ↔ ∃ v, v ∈ l ∧ p v = true.
Proof.
  induction l as [|v l IH]; [unfold count_of; simpl; split; [lia|set_solver]|].
  rewrite count_of_cons. assert (0 <= count_of p l)%Z by (unfold count_of; lia).
  setoid_rewrite elem_of_cons. destruct (p v) eqn:E.
  - split; [eauto|lia].
  - rewrite Z.add_0_l, IH. split; [intros (w & ? & ?); eauto|].
    intros (w & [->|?] & ?); [congruence|eauto].
Qed.

(** ** Properties *)

(** The quality summary counts. [total_checks] is the number of results,
    [passed] the number of passes, and the other counts the numbers of failed
    checks of effective severity warning, error and fatal; the kinds are
    disjoint, so they never add up to more than the total. *)
Theorem GetQualitySummary_spec r :
  let l := rt_ValidationResults r in
  let s := GetQualitySummary r in
  qs_TotalChecks s = Z.of_nat (length l) ∧ qs_Passed s = count_of passed l
  ∧ qs_Warnings s = count_of (failed_with "warning") l
  ∧ qs_Errors s = count_of (failed_with "error") l
  ∧ qs_Fatals s = count_of (failed_with "fatal") l
  ∧ (qs_Passed s + qs_Warnings s + qs_Errors s + qs_Fatals s <= qs_TotalChecks s)%Z.
Proof.
  intros l s. subst s. rewrite quality_summary. fold l. simpl. split_and!; try done.
  induction l as [|v l IH]; [done|]. rewrite !count_of_cons. simpl length.
  unfold failed_with at 1 3 5. destruct (passed v); simpl; [lia|].
  destruct (eqs_spec (normalizeValidationSeverity (vr_Severity v)) "warning") as [->|_]; simpl; [lia|].
  destruct (eqs_spec (normalizeValidationSeverity (vr_Severity v)) "error") as [->|_]; simpl; [lia|].
  destruct (_ =s? "fatal"); simpl; lia.
Qed.

(** When an extraction fails. It fails exactly if the policy fails on
    fatal (the default unless the configuration sets it) and some failed check
    is fatal, or if the error threshold is not negative and more failed checks
    are errors than it allows. It then carries an error, and otherwise none;
    warnings never fail it. *)
Theorem ShouldFailExtraction_spec r policy :
  let l := rt_ValidationResults r in
  let fail_on_fatal := fp_FailOnFatal (FailurePolicy_ApplyDefaults policy) in
  let '(fail, err) := ShouldFailExtraction r policy in
  (fail = true ↔
     (fail_on_fatal = true ∧ ∃ v, v ∈ l ∧ failed_with "fatal" v = true)
     ∨ (0 <= fp_ErrorThreshold policy < count_of (failed_with "error") l)%Z)
  ∧ (fail = true ↔ err ≠ None).
Proof.
  intros l fof. unfold ShouldFailExtraction. rewrite quality_summary. fold l fof. simpl.
  pose proof (count_of_pos (failed_with "fatal") l) as Hpos. revert Hpos.
  generalize (∃ v, v ∈ l ∧ failed_with "fatal" v = true) as P.
  generalize (count_of (failed_with "fatal") l) as nf, (count_of (failed_with "error") l) as ne,
    (count_of (failed_with "warning") l) as nw.
  clearbody fof. intros nf ne nw P Hpos.
  destruct (fof && (0 <? nf)%Z) eqn:E1.
  { apply andb_true_iff in E1 as [-> E1%Z.ltb_lt]. naive_solver. }
  destruct ((0 <=? fp_ErrorThreshold policy)%Z && (fp_ErrorThreshold policy <? ne)%Z) eqn:E2.
  { split; [split; [right; lia|done]|done]. }
  assert (¬ (fof = true ∧ P ∨ (0 <= fp_ErrorThreshold policy < ne)%Z)) as Hn.
  { intros [[-> HP%Hpos]|?]; lia. }
  assert (∀ Q : Prop, ¬ Q → (false = true ↔ Q)) as Hiff by (intros Q HQ; split; done).
  destruct ((0 <? fp_WarningThreshold policy)%Z && _); (split; apply Hiff; [exact Hn|by intros []]).
Qed.
End policy.
