(* ===== verification/DslParser.v ===== *)
(** * Validation DSL: parser (internal/validation/dsl/parser.go)

    The scanner works on byte indices of the source text; [None] stands for
    the index -1. [ParseExpression] recurses on trimmed proper substrings: it
    is the functional [parse_body] iterated with the text's length as fuel,
    and [ParseExpression_unfold] states that the fuel never matters. *)
From Stdlib Require Import Ascii ZArith Lia.
From stdpp Require Import base list strings.
From S2P Require Import Prelude GoStrings GoFloat GoStrconv GoValue DslTypes.

Record stringRange := { sr_start : nat; sr_end : nat }.

Inductive scanDirection := leftmostFirst | rightmostFirst.

Definition is_quote (c : ascii) : bool := (c =c? "034")%char || (c =c? "'")%char.

(** ** Quoted string literals *)

(** Outside any literal, or inside one opened by [quote] at [start]. *)
Inductive qstate := QOut | QIn (quote : ascii) (start : nat) (escaped : bool).

Fixpoint quoted_go (whole s : string) (i : nat) (st : qstate) : result (list stringRange) :=
  match s with
  | "" =>
      match st with
      | QOut => Ok []
      | QIn _ start _ =>
          errorf "unterminated string literal in expression at byte %d: %s"
            [AInt (Z.of_nat start); AStr (sdrop start whole)]
      end
  | String c t =>
      match st with
      | QOut => quoted_go whole t (S i) (if is_quote c then QIn c i false else QOut)
      | QIn q start esc =>
          if esc then quoted_go whole t (S i) (QIn q start false)
          else if (c =c? "\")%char then quoted_go whole t (S i) (QIn q start true)
          else if c =c? q then
            rs ← quoted_go whole t (S i) QOut;
            Ok ({| sr_start := start; sr_end := S i |} :: rs)
          else quoted_go whole t (S i) (QIn q start false)
      end
  end.
Definition quotedStringRanges (s : string) : result (list stringRange) := quoted_go s s 0 QOut.

Definition inStringRange (idx : nat) (ranges : list stringRange) : bool :=
  existsb (λ r, (sr_start r <=? idx)%nat && (idx <? sr_end r)%nat) ranges.

(** ** Split points *)

(** The loop of [idxValidSplitPoint] at index [i] of the text, [t] being the
    rest of it; [skip] counts the bytes a recorded match still covers. *)
Fixpoint split_go (ranges : list stringRange) (op : string) (direction : scanDirection)
    (t : string) (i skip : nat) (parenDepth : Z) (found : option nat) : option nat :=
  match t with
  | "" => found
  | String c t' =>
      if (slen t <? slen op)%nat then found else
      match skip with
      | S k => split_go ranges op direction t' (S i) k parenDepth found
      | 0 =>
          if inStringRange i ranges then split_go ranges op direction t' (S i) 0 parenDepth found
          else if (c =c? "(")%char then split_go ranges op direction t' (S i) 0 (parenDepth + 1) found
          else if (c =c? ")")%char then split_go ranges op direction t' (S i) 0 (parenDepth - 1) found
          else if (parenDepth =? 0)%Z && has_prefix op t then
            match direction with
            | leftmostFirst => Some i
            | rightmostFirst =>
                split_go ranges op direction t' (S i) (slen op - 1) parenDepth (Some i)
            end
          else split_go ranges op direction t' (S i) 0 parenDepth found
      end
  end.
Definition idxValidSplitPoint (s op : string) (direction : scanDirection) : result (option nat) :=
  if op =s? "" then Ok None else
  ranges ← quotedStringRanges s;
  Ok (split_go ranges op direction s 0 0 0 None).

Fixpoint contains_go (ranges : list stringRange) (substr t : string) (i : nat) : bool :=
  match t with
  | "" => false
  | String _ t' =>
      if (slen t <? slen substr)%nat then false
      else if inStringRange i ranges then contains_go ranges substr t' (S i)
      else has_prefix substr t || contains_go ranges substr t' (S i)
  end.
Definition containsOutsideStrings (s substr : string) : result bool :=
  if substr =s? "" then Ok true else
  ranges ← quotedStringRanges s;
  Ok (contains_go ranges substr s 0).

Fixpoint colon_go (ranges : list stringRange) (t : string) (i : nat)
    (parenDepth ternaryDepth : Z) : option nat :=
  match t with
  | "" => None
  | String c t =>
      if inStringRange i ranges then colon_go ranges t (S i) parenDepth ternaryDepth
      else if (c =c? "(")%char then colon_go ranges t (S i) (parenDepth + 1) ternaryDepth
      else if (c =c? ")")%char then colon_go ranges t (S i) (parenDepth - 1) ternaryDepth
      else if (c =c? "?")%char then
        colon_go ranges t (S i) parenDepth
          (if (parenDepth =? 0)%Z then ternaryDepth + 1 else ternaryDepth)%Z
      else if (c =c? ":")%char then
        if negb (parenDepth =? 0)%Z then colon_go ranges t (S i) parenDepth ternaryDepth
        else if (ternaryDepth =? 0)%Z then Some i
        else colon_go ranges t (S i) parenDepth (ternaryDepth - 1)
      else colon_go ranges t (S i) parenDepth ternaryDepth
  end.
Definition findTernaryColon (exprStr : string) (questionIdx : nat) : result (option nat) :=
  ranges ← quotedStringRanges exprStr;
  Ok (colon_go ranges (sdrop (S questionIdx) exprStr) (S questionIdx) 0 0).

(** ** Shape tests *)

Fixpoint enclosing_go (t : string) (depth : Z) : bool :=
  match t with
  | "" => (depth =? 0)%Z
  | String c t =>
      if (c =c? "(")%char then
        if (depth + 1 <? 0)%Z then false else enclosing_go t (depth + 1)
      else if (c =c? ")")%char then
        if (depth - 1 =? 0)%Z && negb (t =s? "") then false
        else if (depth - 1 <? 0)%Z then false
        else enclosing_go t (depth - 1)
      else if (depth <? 0)%Z then false else enclosing_go t depth
  end.
Definition hasEnclosingParens (exprStr : string) : bool :=
  if negb (has_prefix "(" exprStr) || negb (has_suffix ")" exprStr) then false
  else enclosing_go exprStr 0.

Definition name_byte (c : ascii) : bool :=
  let b := bcode c in
  in_range 65 90 b || in_range 97 122 b || in_range 48 57 b || (b =? 95)%Z.

Fixpoint call_go (t : string) (depth : Z) (quote : option ascii) (escaped : bool) : bool :=
  match t with
  | "" => (0 <? depth)%Z
  | String c t =>
      match quote with
      | Some q =>
          if escaped then call_go t depth quote false
          else if (c =c? "\")%char then call_go t depth quote true
          else if c =c? q then call_go t depth None false
          else call_go t depth quote false
      | None =>
          if is_quote c then call_go t depth (Some c) escaped
          else if (c =c? "(")%char then call_go t (depth + 1) None escaped
          else if (c =c? ")")%char then
            if (depth - 1 =? 0)%Z then t =s? ""
            else if (depth - 1 <? 0)%Z then false
            else call_go t (depth - 1) None escaped
          else call_go t depth None escaped
      end
  end.
Definition isFunctionCall (exprStr : string) : bool :=
  match sindex "(" exprStr with
  | None | Some 0 => false
  | Some openParen =>
      if negb (has_suffix ")" exprStr) then false else
      let funcName := trim_space (stake openParen exprStr) in
      if funcName =s? "" then false
      else if negb (sforall name_byte funcName) then false
      else call_go (sdrop openParen exprStr) 0 None false
  end.

(** ** Arguments *)

(** The quote state of [splitArgsOutsideStrings]: the quote, where it opened
    and in which argument, and whether the next byte is escaped. *)
Record argquote := { aq_quote : ascii; aq_start : nat; aq_arg : nat; aq_esc : bool }.

Fixpoint args_go (argsStr t : string) (i start : nat) (parenDepth : Z)
    (quote : option argquote) (args : list string) : result (list string) :=
  match t with
  | "" =>
      match quote with
      | Some q =>
          errorf "unterminated string literal in function argument %d at byte %d: %s"
            [AInt (Z.of_nat (aq_arg q)); AInt (Z.of_nat (aq_start q)); AStr (sdrop (aq_start q) argsStr)]
      | None =>
          if negb (parenDepth =? 0)%Z
          then errorf "mismatched '(' in function arguments: %s" [AStr argsStr]
          else Ok (args ++ [trim_space (sdrop start argsStr)])
      end
  | String c t =>
      match quote with
      | Some q =>
          let q' esc := Some {| aq_quote := aq_quote q; aq_start := aq_start q;
                                aq_arg := aq_arg q; aq_esc := esc |} in
          if aq_esc q then args_go argsStr t (S i) start parenDepth (q' false) args
          else if (c =c? "\")%char then args_go argsStr t (S i) start parenDepth (q' true) args
          else if c =c? aq_quote q then args_go argsStr t (S i) start parenDepth None args
          else args_go argsStr t (S i) start parenDepth quote args
      | None =>
          if is_quote c then
            args_go argsStr t (S i) start parenDepth
              (Some {| aq_quote := c; aq_start := i; aq_arg := S (length args); aq_esc := false |}) args
          else if (c =c? "(")%char then args_go argsStr t (S i) start (parenDepth + 1) None args
          else if (c =c? ")")%char then
            if (parenDepth - 1 <? 0)%Z
            then errorf "mismatched ')' in function arguments: %s" [AStr argsStr]
            else args_go argsStr t (S i) start (parenDepth - 1) None args
          else if (c =c? ",")%char && (parenDepth =? 0)%Z then
            args_go argsStr t (S i) (S i) parenDepth None
              (args ++ [trim_space (ssub argsStr start i)])
          else args_go argsStr t (S i) start parenDepth None args
      end
  end.
Definition splitArgsOutsideStrings (argsStr : string) : result (list string) :=
  args_go argsStr argsStr 0 0 0 None [].

(** ** Constants *)

Definition quoted_by (q : string) (s : string) : bool := has_prefix q s && has_suffix q s.
Definition dquote : string := String (bchr 34) "".
Definition squote : string := "'".

Definition tryParseConstant (valueStr : string) : option value :=
  let valueStr := trim_space valueStr in
  if valueStr =s? "true" then Some (VBool true)
  else if valueStr =s? "false" then Some (VBool false)
  else match parse_int valueStr with
  | Some n => Some (VInt KInt64 n)
  | None =>
      match parse_float valueStr with
      | Some f => Some (VFloat f)
      | None =>
          if (2 <=? slen valueStr)%nat
             && (quoted_by dquote valueStr || quoted_by squote valueStr)
          then Some (VString (ssub valueStr 1 (slen valueStr - 1)))
          else None
      end
  end.

(** Unlike [tryParseConstant], any other text is a string; the Go error result
    is always nil. *)
Definition parseValue (valueStr : string) : result value :=
  let valueStr := trim_space valueStr in
  if valueStr =s? "true" then Ok (VBool true)
  else if valueStr =s? "false" then Ok (VBool false)
  else match parse_int valueStr with
  | Some n => Ok (VInt KInt64 n)
  | None =>
      match parse_float valueStr with
      | Some f => Ok (VFloat f)
      | None =>
          if (2 <=? slen valueStr)%nat
             && (quoted_by dquote valueStr || quoted_by squote valueStr)
          then Ok (VString (ssub valueStr 1 (slen valueStr - 1)))
          else Ok (VString valueStr)
      end
  end.

(** ** Simple filters *)

Definition filterOperators : list string := ["=="; "!="; ">="; "<="; ">"; "<"].

Fixpoint filter_ops (filterStr : string) (ops : list string) : result FilterExpression :=
  match ops with
  | [] => errorf "no valid operator found in filter: %s" [AStr filterStr]
  | op :: ops =>
      idx ← idxValidSplitPoint filterStr op leftmostFirst;
      match idx with
      | None => filter_ops filterStr ops
      | Some idx =>
          let field := trim_space (stake idx filterStr) in
          let valueStr := trim_space (sdrop (idx + slen op) filterStr) in
          if field =s? "" then
            errorf "filter expression missing field before operator %s" [AStr op]
          else if valueStr =s? "" then
            errorf "filter expression missing value after operator %s" [AStr op]
          else if valueStr =s? "null" then
            Ok {| flt_Field := field; flt_Operator := op; flt_Value := VNil; flt_IsNull := true |}
          else
            v ← wrapf "invalid filter value %q: %w" [AStr valueStr] (parseValue valueStr);
            Ok {| flt_Field := field; flt_Operator := op; flt_Value := v; flt_IsNull := false |}
      end
  end.

(** The empty filter is the nil filter. *)
Definition ParseFilter (filterStr : string) : result (option FilterExpression) :=
  if filterStr =s? "" then Ok None else
  let filterStr := trim_space filterStr in
  _ ← quotedStringRanges filterStr;
  Some <$> filter_ops filterStr filterOperators.

(** ** Expressions *)

Section body.
(** The recursive calls of [ParseExpression]. *)
Variable parse : string → result Expression.

Definition tryParseTernary (exprStr : string) : result (option Expression) :=
  q ← idxValidSplitPoint exprStr "?" leftmostFirst;
  match q with
  | None => Ok None
  | Some qIdx =>
      c ← findTernaryColon exprStr qIdx;
      match c with
      | None => errorf "malformed ternary expression %q: missing ':'" [AStr exprStr]
      | Some cIdx =>
          let condStr := trim_space (stake qIdx exprStr) in
          let thenStr := trim_space (ssub exprStr (S qIdx) cIdx) in
          let elseStr := trim_space (sdrop (S cIdx) exprStr) in
          if condStr =s? "" then
            errorf "malformed ternary expression %q: missing condition before '?'" [AStr exprStr]
          else if thenStr =s? "" then
            errorf "malformed ternary expression %q: missing then expression between '?' and ':'"
              [AStr exprStr]
          else if elseStr =s? "" then
            errorf "malformed ternary expression %q: missing else expression after ':'" [AStr exprStr]
          else
            cond ← wrapf "failed to parse ternary condition: %w" [] (parse condStr);
            thenExpr ← wrapf "failed to parse ternary then expression: %w" [] (parse thenStr);
            elseExpr ← wrapf "failed to parse ternary else expression: %w" [] (parse elseStr);
            Ok (Some (ExprTernary cond thenExpr elseExpr))
      end
  end.

(** An operand that is empty or does not parse moves on to the next operator. *)
Fixpoint tryParseBinaryOp (exprStr : string) (operators : list string)
    : result (option Expression) :=
  match operators with
  | [] => Ok None
  | op :: ops =>
      idx ← idxValidSplitPoint exprStr op rightmostFirst;
      match idx with
      | None => tryParseBinaryOp exprStr ops
      | Some idx =>
          let leftStr := trim_space (stake idx exprStr) in
          let rightStr := trim_space (sdrop (idx + slen op) exprStr) in
          if (leftStr =s? "") || (rightStr =s? "") then tryParseBinaryOp exprStr ops
          else match parse leftStr with
          | Err _ => tryParseBinaryOp exprStr ops
          | Ok leftE =>
              match parse rightStr with
              | Err _ => tryParseBinaryOp exprStr ops
              | Ok rightE => Ok (Some (ExprBinary leftE op rightE))
              end
          end
      end
  end.

Fixpoint parse_args (i : Z) (argStrs : list string) : result (list Expression) :=
  match argStrs with
  | [] => Ok []
  | a :: argStrs =>
      arg ← wrapf "failed to parse function argument %d: %w" [AInt i] (parse (trim_space a));
      args ← parse_args (i + 1) argStrs;
      Ok (arg :: args)
  end.

Definition parseFunction (exprStr : string) : result Expression :=
  match sindex "(" exprStr with
  | None => errorf "invalid function call: missing opening parenthesis" []
  | Some openParen =>
      let funcName := trim_space (stake openParen exprStr) in
      let argsStr := trim_space (ssub exprStr (S openParen) (slen exprStr - 1)) in
      args ← (if argsStr =s? "" then Ok [] else
              argStrs ← splitArgsOutsideStrings argsStr;
              parse_args 1 argStrs);
      Ok (ExprFunction funcName args)
  end.

Definition logicalOps : list string := ["||"; "&&"].
Definition comparisonOps : list string := ["=="; "!="; ">="; "<="; ">"; "<"].
Definition additiveOps : list string := ["+"; "-"].
Definition multiplicativeOps : list string := ["*"; "/"].

(** The remaining forms, tried once no binary operator splits the text. *)
Definition parse_atom (exprStr : string) : result Expression :=
  if has_prefix "!" exprStr then
    operand ← wrapf "failed to parse unary operand: %w" [] (parse (trim_space (sdrop 1 exprStr)));
    Ok (ExprUnary "!" operand)
  else if hasEnclosingParens exprStr then
    let inner := trim_space (ssub exprStr 1 (slen exprStr - 1)) in
    if inner =s? "" then errorf "empty parenthesized expression" [] else parse inner
  else match tryParseConstant exprStr with
  | Some v => Ok (ExprConstant v)
  | None =>
      _ ← quotedStringRanges exprStr;
      Ok (ExprVariable exprStr)
  end.

Fixpoint parse_levels (exprStr : string) (levels : list (list string)) : result Expression :=
  match levels with
  | [] => parse_atom exprStr
  | ops :: levels =>
      r ← tryParseBinaryOp exprStr ops;
      match r with Some e => Ok e | None => parse_levels exprStr levels end
  end.

Definition parse_body (exprStr : string) : result Expression :=
  if exprStr =s? "" then errorf "empty expression" [] else
  let exprStr := trim_space exprStr in
  if isFunctionCall exprStr then parseFunction exprStr else
  r ← tryParseTernary exprStr;
  match r with
  | Some e => Ok e
  | None =>
      parse_levels exprStr [logicalOps; comparisonOps; additiveOps; multiplicativeOps]
  end.
End body.

Fixpoint parse_fuel (fuel : nat) (exprStr : string) : result Expression :=
  match fuel with
  | 0 => errorf "fuel" []
  | S fuel => parse_body (parse_fuel fuel) exprStr
  end.
Definition ParseExpression (exprStr : string) : result Expression :=
  parse_fuel (S (slen exprStr)) exprStr.
