(* ===== verification/DslScan.v ===== *)
(** * Validation DSL: the scanner's specification

    A byte-by-byte reading of an expression (inside a literal or not, and how
    many parentheses are open) against which the index computations of
    parser.go are proved: the literal ranges, and the operator search that
    skips literals and parenthesised text. [closed] describes the texts all
    scanners pass over as one unit. *)
From Stdlib Require Import Ascii ZArith Lia Bool.
From stdpp Require Import base list strings.
From S2P Require Import Prelude GoStrings GoValue DslTypes DslParser.

(** ** The reading *)

(** Outside any literal, or inside one opened by [q], the next byte escaped or not. *)
Inductive lexst := LOut | LIn (q : ascii) (esc : bool).

Definition lex_step (st : lexst) (c : ascii) : lexst :=
  match st with
  | LOut => if is_quote c then LIn c false else LOut
  | LIn q true => LIn q false
  | LIn q false =>
      if (c =c? "\")%char then LIn q true else if c =c? q then LOut else LIn q false
  end.

(** Whether the byte [c] read in state [st] belongs to a literal, quotes included. *)
Definition lex_lit (st : lexst) (c : ascii) : bool :=
  match st with LOut => is_quote c | LIn _ _ => true end.

Definition is_paren (c : ascii) : bool := (c =c? "(")%char || (c =c? ")")%char.

Definition depth_step (st : lexst) (d : Z) (c : ascii) : Z :=
  if lex_lit st c then d
  else if (c =c? "(")%char then (d + 1)%Z
  else if (c =c? ")")%char then (d - 1)%Z else d.

Fixpoint lex_after (st : lexst) (s : string) : lexst :=
  match s with "" => st | String c s => lex_after (lex_step st c) s end.

(** A literal is still open at the end of the text. *)
Definition unterminated (s : string) : bool :=
  match lex_after LOut s with LOut => false | LIn _ _ => true end.

(** Byte [i] of [s], read from state [st], belongs to a literal. *)
Fixpoint in_literal (st : lexst) (s : string) (i : nat) : bool :=
  match s, i with
  | "", _ => false
  | String c _, 0 => lex_lit st c
  | String c s, S i => in_literal (lex_step st c) s i
  end.

(** [op] occurs at byte [i], outside literals and parentheses. *)
Definition split_here (st : lexst) (d : Z) (op s : string) : bool :=
  match s with
  | "" => false
  | String c _ => negb (lex_lit st c) && (d =? 0)%Z && negb (is_paren c) && has_prefix op s
  end.
Fixpoint split_point (st : lexst) (d : Z) (op s : string) (i : nat) : bool :=
  match i with
  | 0 => split_here st d op s
  | S i =>
      match s with
      | "" => false
      | String c s => split_point (lex_step st c) (depth_step st d c) op s i
      end
  end.

(** An operator the search can be asked for: not empty, no quote, no parenthesis. *)
Definition plain_byte (c : ascii) : bool := negb (is_quote c) && negb (is_paren c).
Definition plain_op (op : string) : bool := negb (op =s? "") && sforall plain_byte op.

(** Texts with matched quotes and parentheses whose bytes outside both satisfy
    [p]; literals hold no quote, backslash or parenthesis. *)
Definition lit_byte (c : ascii) : bool := plain_byte c && negb (c =c? "\")%char.
Inductive closed : (ascii → bool) → string → Prop :=
| closed_nil p : closed p ""
| closed_byte p c s : plain_byte c = true → p c = true → closed p s → closed p (String c s)
| closed_lit p q body s :
    is_quote q = true → sforall lit_byte body = true → closed p s →
    closed p (String q (body +:+ String q s))
| closed_paren p s t :
    closed (λ _, true) s → closed p t → closed p (String "(" (s +:+ String ")" t)).

(** ** Literal ranges *)

Definition lex_of (st : qstate) : lexst :=
  match st with QOut => LOut | QIn q _ esc => LIn q esc end.
Definition opened_at (st : qstate) (j : nat) : bool :=
  match st with QOut => false | QIn _ start _ => (start <=? j)%nat end.

Lemma quoted_go_ok whole s : ∀ i st,
  is_ok (quoted_go whole s i st) = match lex_after (lex_of st) s with LOut => true | _ => false end.
Proof.
  induction s as [|c s IH]; intros i st; simpl.
  - by destruct st.
  - destruct st as [|q start esc]; simpl.
    + rewrite IH. by destruct (is_quote c).
    + destruct esc; [apply IH|]. destruct (c =c? "\")%char; [apply IH|].
      destruct (c =c? q); [|apply IH]. specialize (IH (S i) QOut). simpl in IH.
      rewrite <- IH. by destruct (quoted_go whole s (S i) QOut).
Qed.

Lemma quoted_go_spec whole s : ∀ i st rs,
  quoted_go whole s i st = Ok rs →
  match st with QOut => True | QIn _ start _ => start < i end →
  ∀ j, inStringRange j rs
       = if (j <? i)%nat then opened_at st j else in_literal (lex_of st) s (j - i).
Proof.
  induction s as [|c s IH]; intros i st rs; simpl.
  { destruct st; [|done]. intros [= <-] _ j. simpl. by destruct (j <? i)%nat. }
  assert (∀ st' rs, quoted_go whole s (S i) st' = Ok rs →
    match st' with QOut => True | QIn _ start _ => start < S i end →
    opened_at st' i = lex_lit (lex_of st) c →
    (∀ j, j < i → opened_at st' j = opened_at st j) →
    lex_of st' = lex_step (lex_of st) c →
    ∀ j, inStringRange j rs = if (j <? i)%nat then opened_at st j
         else match j - i with 0 => lex_lit (lex_of st) c
              | S k => in_literal (lex_step (lex_of st) c) s k end) as Hstep.
  { intros st' rs' Hq Hwf Hi Hlt Hst j. rewrite (IH _ _ _ Hq Hwf j).
    destruct (Nat.ltb_spec j i).
    - rewrite (proj2 (Nat.ltb_lt j (S i))) by lia. by apply Hlt.
    - destruct (decide (j = i)) as [->|].
      + rewrite (proj2 (Nat.ltb_lt i (S i))) by lia. by rewrite Nat.sub_diag.
      + rewrite (proj2 (Nat.ltb_ge j (S i))) by lia. replace (j - i) with (S (j - S i)) by lia.
        by rewrite Hst. }
  intros Hq Hwf. destruct st as [|q start esc].
  - intros j. eapply Hstep; [exact Hq| | | |]; destruct (is_quote c) eqn:Ec; simpl in *;
      rewrite ?Ec; try done.
    + lia.
    + apply Nat.leb_le; lia.
    + intros k Hk. apply Nat.leb_gt. lia.
  - assert ((start <=? i)%nat = true) as Hle by (apply Nat.leb_le; lia).
    destruct ((c =c? q) && negb (c =c? "\")%char && negb esc) eqn:Eclose.
    + apply andb_true_iff in Eclose as [[E2 E1%negb_true_iff]%andb_true_iff E3%negb_true_iff].
      rewrite E3, E1, E2 in Hq. apply res_bind_ok in Hq as (rs' & Hq & [= <-]). intros j. simpl.
      fold (inStringRange j rs'). rewrite (IH _ _ _ Hq I j). simpl. rewrite E1, E2, E3.
      destruct (Nat.ltb_spec j i); [|destruct (decide (j = i)) as [->|]].
      * rewrite !(proj2 (Nat.ltb_lt j (S i))) by lia. by rewrite andb_true_r, orb_false_r.
      * rewrite !(proj2 (Nat.ltb_lt i (S i))) by lia. rewrite Nat.sub_diag, Hle. done.
      * rewrite !(proj2 (Nat.ltb_ge j (S i))) by lia. rewrite andb_false_r.
        by replace (j - i) with (S (j - S i)) by lia.
    + intros j. destruct esc; [|destruct (c =c? "\")%char eqn:E1; [|destruct (c =c? q) eqn:E2; [done|]]];
        (eapply Hstep; [exact Hq| | | |]; simpl; rewrite ?E1, ?E2; try done; lia).
Qed.

Lemma ranges_literal s rs :
  quotedStringRanges s = Ok rs → ∀ j, inStringRange j rs = in_literal LOut s j.
Proof. intros H j. rewrite (quoted_go_spec _ _ _ _ _ H I j). simpl. by rewrite Nat.sub_0_r. Qed.

Lemma ranges_ok s : is_ok (quotedStringRanges s) = negb (unterminated s).
Proof.
  unfold quotedStringRanges. rewrite quoted_go_ok. unfold unterminated. simpl.
  by destruct (lex_after LOut s).
Qed.

(** ** The operator search *)

Lemma split_point_prefix op t : ∀ st d k,
  split_point st d op t k = true → has_prefix op (sdrop k t) = true ∧ k < slen t.
Proof.
  induction t as [|c t IH]; intros st d [|k]; simpl; try done.
  - rewrite !andb_true_iff. intros [_ ?]. split; [done|lia].
  - intros [? ?]%IH. split; [done|lia].
Qed.

Lemma split_point_short op t st d k : slen t < slen op → split_point st d op t k = false.
Proof.
  intros Hlen. apply not_true_is_false. intros [Hp%has_prefix_length Hk]%split_point_prefix.
  rewrite slen_sdrop in Hp. lia.
Qed.

(** The literal ranges the loop is given agree with the reading from here on. *)
Definition ranges_from (ranges : list stringRange) (i : nat) (st : lexst) (t : string) : Prop :=
  ∀ j, i ≤ j → inStringRange j ranges = in_literal st t (j - i).

Lemma ranges_from_here ranges i st c t :
  ranges_from ranges i st (String c t) → inStringRange i ranges = lex_lit st c.
Proof. intros H. rewrite (H i) by lia. by rewrite Nat.sub_diag. Qed.
Lemma ranges_from_tail ranges i st c t :
  ranges_from ranges i st (String c t) → ranges_from ranges (S i) (lex_step st c) t.
Proof. intros H j Hj. rewrite (H j) by lia. by replace (j - i) with (S (j - S i)) by lia. Qed.

(** The decision of the loop at one byte. *)
Lemma split_go_step ranges op dir st d c t i found :
  ranges_from ranges i st (String c t) → ¬ slen (String c t) < slen op →
  split_go ranges op dir (String c t) i 0 d found =
  if split_here st d op (String c t)
  then match dir with
       | leftmostFirst => Some i
       | rightmostFirst => split_go ranges op dir t (S i) (slen op - 1) d (Some i)
       end
  else split_go ranges op dir t (S i) 0 (depth_step st d c) found.
Proof.
  intros Hr Hlen. cbn [split_go]. rewrite (proj2 (Nat.ltb_ge _ _)) by lia.
  rewrite (ranges_from_here _ _ _ _ _ Hr).
  unfold split_here, depth_step, is_paren. destruct (lex_lit st c); [done|].
  destruct (c =c? "(")%char; [by rewrite andb_false_r|].
  destruct (c =c? ")")%char; [by rewrite andb_false_r|]. simpl. by rewrite andb_true_r.
Qed.

Lemma split_go_left ranges op t : ∀ i d st,
  ranges_from ranges i st t →
  match split_go ranges op leftmostFirst t i 0 d None with
  | None => ∀ k, split_point st d op t k = false
  | Some m => ∃ k, m = i + k ∧ split_point st d op t k = true
                   ∧ ∀ k', k' < k → split_point st d op t k' = false
  end.
Proof.
  induction t as [|c t IH]; intros i d st Hr.
  { simpl. by intros [|k]. }
  destruct (decide (slen (String c t) < slen op)) as [Hlt|Hge].
  { cbn [split_go]. rewrite (proj2 (Nat.ltb_lt _ _)) by done. intros k. by apply split_point_short. }
  rewrite (split_go_step _ _ _ _ _ _ _ _ _ Hr Hge).
  destruct (split_here st d op (String c t)) eqn:E.
  { exists 0. split_and!; [lia|done|intros; lia]. }
  specialize (IH (S i) (depth_step st d c) _ (ranges_from_tail _ _ _ _ _ Hr)).
  destruct (split_go _ _ _ _ _ _ _ _) as [m|].
  - destruct IH as (k & -> & Hk & Hmin). exists (S k). split_and!; [lia|done|].
    intros [|k'] Hlt; [done|]. apply Hmin. lia.
  - intros [|k]; [exact E|apply IH].
Qed.

(** Bytes of the operator change neither the lexical state nor the depth. *)
Lemma plain_step c d : plain_byte c = true → lex_step LOut c = LOut ∧ depth_step LOut d c = d.
Proof.
  unfold plain_byte, is_paren, lex_step, depth_step, lex_lit.
  destruct (is_quote c), (c =c? "(")%char, (c =c? ")")%char; done.
Qed.

Lemma split_go_right ranges op t : ∀ i skip d st found,
  ranges_from ranges i st t →
  (0 < skip → st = LOut ∧ sforall plain_byte (stake skip t) = true) →
  let r := split_go ranges op rightmostFirst t i skip d found in
  sforall plain_byte op = true → op ≠ "" →
  (r = found ∧ ∀ k, split_point st d op t k = true → k < skip) ∨
  (∃ k, r = Some (i + k) ∧ split_point st d op t k = true ∧ skip ≤ k
        ∧ ∀ k', split_point st d op t k' = true → k' < k + slen op).
Proof.
  induction t as [|c t IH]; intros i skip d st found Hr Hskip r Hplain Hne.
  { left. split; [done|]. by intros [|k]. }
  destruct (decide (slen (String c t) < slen op)) as [Hlt|Hge].
  { left. split; [subst r; cbn [split_go]; by rewrite (proj2 (Nat.ltb_lt _ _))|].
    intros k Hk. by rewrite split_point_short in Hk. }
  pose proof (ranges_from_tail _ _ _ _ _ Hr) as Hr'. destruct skip as [|skip].
  - subst r. rewrite (split_go_step _ _ _ _ _ _ _ _ _ Hr Hge).
    destruct (split_here st d op (String c t)) eqn:E.
    + assert (st = LOut ∧ sforall plain_byte (stake (slen op - 1) t) = true ∧ plain_byte c = true)
        as (-> & Htake & Hc).
      { unfold split_here in E. rewrite !andb_true_iff in E. destruct E as [[[Hl _] _] Hp].
        apply has_prefix_spec in Hp as [u Hu]. destruct op as [|a op]; [done|].
        rewrite sapp_cons in Hu. injection Hu as -> ->. simpl in Hplain.
        apply andb_true_iff in Hplain as [Ha Hop]. simpl. rewrite Nat.sub_0_r, stake_app.
        split_and!; [|done..]. unfold plain_byte in Ha. destruct st; [done|]. by simpl in Hl. }
      destruct (plain_step c d Hc) as [Hst Hd]. rewrite Hst in Hr'.
      destruct (IH (S i) (slen op - 1) d LOut (Some i) Hr' (λ _, conj eq_refl Htake) Hplain Hne)
        as [[-> Hk]|(k & -> & Hk & Hle & Hmax)].
      * right. exists 0. split_and!; [f_equal; lia|done|lia|].
        intros [|k'] Hk'; cbn [split_point] in Hk'; [destruct op; [done|simpl; lia]|].
        rewrite ?Hst, ?Hd in Hk'. apply Hk in Hk'. lia.
      * right. exists (S k). cbn [split_point]. rewrite Hst, Hd. split_and!; [f_equal; lia|done|lia|].
        intros [|k'] Hk'; cbn [split_point] in Hk'; [lia|]. rewrite ?Hst, ?Hd in Hk'. apply Hmax in Hk'. lia.
    + destruct (IH (S i) 0 (depth_step st d c) _ found Hr') as [[-> Hk]|(k & -> & Hk & Hle & Hmax)];
        [lia|done|done| |].
      * left. split; [done|]. intros [|k'] Hk'; cbn [split_point] in Hk'; [congruence|].
        apply Hk in Hk'. lia.
      * right. exists (S k). split_and!; [f_equal; lia|done|lia|].
        intros [|k'] Hk'; cbn [split_point] in Hk'; [lia|]. apply Hmax in Hk'. lia.
  - destruct (Hskip ltac:(lia)) as [-> Htake]. simpl in Htake.
    apply andb_true_iff in Htake as [Hc Htake]. destruct (plain_step c d Hc) as [Hst Hd].
    rewrite Hst in Hr'. subst r. cbn [split_go]. rewrite (proj2 (Nat.ltb_ge _ _)) by lia.
    destruct (IH (S i) skip d LOut found Hr' (λ _, conj eq_refl Htake) Hplain Hne)
      as [[-> Hk]|(k & -> & Hk & Hle & Hmax)].
    + left. split; [done|]. intros [|k'] Hk'; [lia|]. cbn [split_point] in Hk'. rewrite ?Hst, ?Hd in Hk'.
      apply Hk in Hk'. lia.
    + right. exists (S k). cbn [split_point]. rewrite Hst, Hd. split_and!; [f_equal; lia|done|lia|].
      intros [|k'] Hk'; [lia|]. cbn [split_point] in Hk'. rewrite ?Hst, ?Hd in Hk'. apply Hmax in Hk'. lia.
Qed.

(** The two directions together, from the start of the text. *)
Lemma split_search s op dir : plain_op op = true →
  match idxValidSplitPoint s op dir with
  | Err _ => unterminated s = true
  | Ok None => unterminated s = false ∧ ∀ k, split_point LOut 0 op s k = false
  | Ok (Some i) =>
      unterminated s = false ∧ split_point LOut 0 op s i = true
      ∧ ∀ k, split_point LOut 0 op s k = true →
          match dir with leftmostFirst => i ≤ k | rightmostFirst => k < i + slen op end
  end.
Proof.
  unfold plain_op. rewrite andb_true_iff, negb_true_iff. intros [Hne Hplain].
  unfold idxValidSplitPoint. rewrite Hne. apply String.eqb_neq in Hne.
  pose proof (ranges_ok s) as Hok. destruct (quotedStringRanges s) as [rs|] eqn:Hrs; simpl in *;
    [|by destruct (unterminated s)].
  assert (unterminated s = false) as Hu by (by destruct (unterminated s)).
  assert (ranges_from rs 0 LOut s) as Hr.
  { intros j _. rewrite Nat.sub_0_r. by apply ranges_literal. }
  destruct dir.
  - pose proof (split_go_left rs op s 0 0 LOut Hr) as H.
    destruct (split_go _ _ _ _ _ _ _ _) as [m|]; [|done].
    destruct H as (k & -> & Hk & Hmin). split_and!; [done|done|]. simpl. intros k' Hk'.
    destruct (decide (k ≤ k')); [done|]. rewrite Hmin in Hk'; [done|lia].
  - destruct (split_go_right rs op s 0 0 0 LOut None Hr ltac:(lia) Hplain Hne)
      as [[-> Hk]|(k & -> & Hk & _ & Hmax)]; simpl.
    + split; [done|]. intros k. apply not_true_is_false. intros Hk'. apply Hk in Hk'. lia.
    + split_and!; [done|done|]. intros k' Hk'. by apply Hmax in Hk'.
Qed.

(** ** Closed texts

    Every scanner of the parser passes over a closed text as over one unit: at
    depth one or more always, at depth zero when no top-level byte is one it
    reacts to. *)

Lemma closed_mono p p' s : (∀ c, p c = true → p' c = true) → closed p s → closed p' s.
Proof.
  intros Hp H. revert p' Hp.
  induction H; intros p' Hp;
    [apply closed_nil|apply closed_byte|apply closed_lit|apply closed_paren]; auto.
Qed.

Lemma closed_app p s t : closed p s → closed p t → closed p (s +:+ t).
Proof.
  intros H Ht. induction H; rewrite ?sapp_cons, ?sapp_assoc, ?sapp_cons; [done|..].
  - apply closed_byte; auto.
  - apply closed_lit; auto.
  - apply closed_paren; auto.
Qed.

Lemma closed_plain p s : sforall (λ c, plain_byte c && p c) s = true → closed p s.
Proof.
  induction s as [|c s IH]; simpl; [constructor|].
  rewrite !andb_true_iff. intros [[? ?] ?]. apply closed_byte; auto.
Qed.

Lemma plain_byte_spec c : plain_byte c = true →
  is_quote c = false ∧ (c =c? "(")%char = false ∧ (c =c? ")")%char = false.
Proof.
  unfold plain_byte, is_paren. destruct (is_quote c), (c =c? "(")%char, (c =c? ")")%char; done.
Qed.
Lemma quote_not_paren q : is_quote q = true → (q =c? "(")%char = false ∧ (q =c? ")")%char = false.
Proof.
  unfold is_quote. rewrite orb_true_iff, !Ascii.eqb_eq. by intros [-> | ->].
Qed.
Lemma lit_byte_spec c : lit_byte c = true →
  is_quote c = false ∧ (c =c? "\")%char = false
  ∧ (c =c? "(")%char = false ∧ (c =c? ")")%char = false.
Proof.
  unfold lit_byte. rewrite andb_true_iff, negb_true_iff. intros [H%plain_byte_spec ?]. naive_solver.
Qed.
Lemma lit_byte_quote q c : is_quote q = true → lit_byte c = true → (c =c? q) = false.
Proof.
  intros Hq (Hc & _)%lit_byte_spec. destruct (Ascii.eqb_spec c q); [congruence|done].
Qed.

(** The scanners inside a literal. *)
Lemma in_lit_after q body t : is_quote q = true → sforall lit_byte body = true →
  lex_after (LIn q false) (body +:+ String q t) = lex_after LOut t.
Proof.
  intros Hq. induction body as [|c body IH]; simpl.
  - intros _. rewrite Ascii.eqb_refl. unfold is_quote in Hq.
    destruct (Ascii.eqb_spec q "\"%char) as [->|]; done.
  - rewrite andb_true_iff. intros [Hc Hb].
    destruct (lit_byte_spec c Hc) as (_ & -> & _). rewrite (lit_byte_quote q c Hq Hc). auto.
Qed.

Lemma closed_after p s t : closed p s → lex_after LOut (s +:+ t) = lex_after LOut t.
Proof.
  intros H. revert t. induction H; intros u; rewrite ?sapp_cons, ?sapp_assoc, ?sapp_cons; simpl.
  - done.
  - destruct (plain_byte_spec c) as (-> & _); auto.
  - rewrite H, in_lit_after; auto.
  - rewrite IHclosed1. simpl. auto.
Qed.

Lemma closed_terminated p s : closed p s → unterminated s = false.
Proof. intros H. unfold unterminated. rewrite <- (sapp_nil_r s), (closed_after _ _ _ H). done. Qed.

Lemma in_literal_app st s t i :
  in_literal st (s +:+ t) (slen s + i) = in_literal (lex_after st s) t i.
Proof. revert st. induction s as [|c s IH]; intros st; simpl; [done|]. apply IH. Qed.

Lemma ranges_from_app ranges i p s t :
  closed p s → ranges_from ranges i LOut (s +:+ t) → ranges_from ranges (i + slen s) LOut t.
Proof.
  intros Hc Hr j Hj. rewrite (Hr j) by lia.
  replace (j - i) with (slen s + (j - (i + slen s))) by lia. rewrite in_literal_app.
  pose proof (closed_after _ _ "" Hc) as Ha. rewrite sapp_nil_r in Ha. by rewrite Ha.
Qed.

(** *** The operator search *)
Lemma split_point_in q body op t d k : is_quote q = true → sforall lit_byte body = true →
  split_point (LIn q false) d op (body +:+ String q t) k = true →
  slen body < k ∧ split_point LOut d op t (k - S (slen body)) = true.
Proof.
  intros Hq. revert k. induction body as [|c body IH]; intros [|k]; simpl; try done.
  - intros _. unfold depth_step. simpl. rewrite Ascii.eqb_refl.
    replace (q =c? "\")%char with false; [intros; rewrite Nat.sub_0_r; split; [lia|done]|].
    unfold is_quote in Hq. by destruct (Ascii.eqb_spec q "\"%char) as [->|].
  - rewrite andb_true_iff. intros [Hc Hb].
    destruct (lit_byte_spec c Hc) as (_ & E & _).
    unfold depth_step. simpl. rewrite E, (lit_byte_quote q c Hq Hc).
    intros [? ?]%IH; [|done]. split; [lia|done].
Qed.

Lemma closed_split p s a op t : closed p s → ∀ d k,
  (0 < d)%Z ∨ (d = 0%Z ∧ p a = false) →
  split_point LOut d (String a op) (s +:+ t) k = true →
  slen s ≤ k ∧ split_point LOut d (String a op) t (k - slen s) = true.
Proof.
  intros H. revert t. induction H as [p|p c s Hc Hp _ IH|p q body s Hq Hb _ IH|p s1 s2 _ IH1 _ IH2];
    intros t d k Hd.
  - simpl. rewrite sapp_nil_l, Nat.sub_0_r. split; [lia|done].
  - rewrite sapp_cons. destruct k as [|k]; cbn [split_point].
    + unfold split_here. rewrite !andb_true_iff, Z.eqb_eq. intros [[[_ Hd0] _] Hpre].
      simpl in Hpre. apply andb_true_iff in Hpre as [Hac%Ascii.eqb_eq _]. subst.
      destruct Hd as [|[_ Hpa]]; [lia|congruence].
    + destruct (plain_step c d Hc) as [-> ->]. intros [? ?]%IH; [|done]. simpl. split; [lia|done].
  - rewrite sapp_cons, sapp_assoc, sapp_cons. destruct k as [|k]; cbn [split_point].
    + unfold split_here. simpl. by rewrite Hq.
    + unfold depth_step. simpl. rewrite Hq. intros [? Hk]%split_point_in; [|done..].
      apply IH in Hk as [? ?]; [|done]. rewrite slen_app. simpl.
      replace (k - (slen body + S (slen s))) with (k - S (slen body) - slen s) by lia.
      split; [lia|done].
  - rewrite sapp_cons, sapp_assoc, sapp_cons. destruct k as [|k]; cbn [split_point].
    + unfold split_here. simpl. by rewrite andb_false_r.
    + unfold depth_step. simpl. intros [? Hk]%IH1; [|left; lia].
      destruct (k - slen s1) as [|k'] eqn:Ek; cbn [split_point] in Hk.
      * unfold split_here in Hk. simpl in Hk. by rewrite andb_false_r in Hk.
      * unfold depth_step in Hk. simpl in Hk. replace (d + 1 - 1)%Z with d in Hk by lia.
        apply IH2 in Hk as [? Hk]; [|done]. rewrite slen_app. simpl.
        replace (k - (slen s1 + S (slen s2))) with (k' - slen s2) by lia. split; [lia|done].
Qed.

Lemma closed_no_split p s op dir : closed p s → plain_op op = true →
  (∀ a o, op = String a o → p a = false) → idxValidSplitPoint s op dir = Ok None.
Proof.
  intros Hc Hop Hp. pose proof (split_search s op dir Hop) as H.
  pose proof (closed_terminated _ _ Hc) as Hu.
  destruct (idxValidSplitPoint s op dir) as [[i|]|]; [exfalso|done|congruence].
  destruct H as (_ & H & _). destruct op as [|a op]; [done|].
  rewrite <- (sapp_nil_r s) in H.
  apply (closed_split _ _ _ _ _ Hc) in H as [_ H]; [|right; eauto].
  by destruct (i - slen s).
Qed.

(** Past a closed text the search goes on as from its end. *)
Fixpoint depth_after (st : lexst) (d : Z) (s : string) : Z :=
  match s with "" => d | String c s => depth_after (lex_step st c) (depth_step st d c) s end.

Lemma split_point_app op s t k : ∀ st d,
  split_point st d op (s +:+ t) (slen s + k)
  = split_point (lex_after st s) (depth_after st d s) op t k.
Proof. induction s as [|c s IH]; intros st d; simpl; [done|]. apply IH. Qed.

Lemma depth_after_app s t : ∀ st d,
  depth_after st d (s +:+ t) = depth_after (lex_after st s) (depth_after st d s) t.
Proof. induction s as [|c s IH]; intros st d; simpl; [done|]. apply IH. Qed.

Lemma depth_after_lit q body d : is_quote q = true → sforall lit_byte body = true →
  depth_after (LIn q false) d body = d ∧ lex_after (LIn q false) body = LIn q false.
Proof.
  intros Hq. revert d. induction body as [|c body IH]; intros d; simpl; [done|].
  rewrite andb_true_iff. intros [Hc Hb].
  destruct (lit_byte_spec c Hc) as (_ & -> & _). rewrite (lit_byte_quote q c Hq Hc).
  unfold depth_step. simpl. auto.
Qed.

Lemma closed_depth p s : closed p s → ∀ d, depth_after LOut d s = d.
Proof.
  intros H. induction H as [p|p c s Hc Hp _ IH|p q body s Hq Hb _ IH|p s1 s2 Hs1 IH1 _ IH2];
    intros d; simpl.
  - done.
  - destruct (plain_step c d Hc) as [E1 E2]. simpl in E1. rewrite E1, E2. auto.
  - unfold depth_step at 1. simpl. rewrite Hq, depth_after_app.
    destruct (depth_after_lit q body d Hq Hb) as [-> ->]. simpl. rewrite Ascii.eqb_refl.
    unfold is_quote in Hq. unfold depth_step. simpl. destruct (Ascii.eqb_spec q "\"%char) as [->|]; auto.
    done.
  - unfold depth_step at 1. simpl. rewrite depth_after_app, IH1. simpl.
    pose proof (closed_after _ _ "" Hs1) as Ha. rewrite sapp_nil_r in Ha. rewrite Ha. simpl.
    unfold depth_step. simpl. rewrite IH2. lia.
Qed.

Lemma closed_split_app p op s t k : closed p s →
  split_point LOut 0 op (s +:+ t) (slen s + k) = split_point LOut 0 op t k.
Proof.
  intros Hs. rewrite split_point_app, (closed_depth _ _ Hs).
  pose proof (closed_after _ _ "" Hs) as Ha. rewrite sapp_nil_r in Ha. by rewrite Ha.
Qed.

(** Within operator bytes an occurrence is a prefix match. *)
Lemma split_point_plain op w t : sforall plain_byte w = true → ∀ k,
  split_point LOut 0 op (w +:+ t) k = true →
  (k < slen w ∧ has_prefix op (sdrop k (w +:+ t)) = true)
  ∨ (slen w ≤ k ∧ split_point LOut 0 op t (k - slen w) = true).
Proof.
  intros Hw k Hk. destruct (decide (k < slen w)) as [Hlt|Hge].
  - left. split; [done|]. by apply split_point_prefix in Hk as [? _].
  - right. split; [lia|]. rewrite <- (closed_split_app (λ _, true) op w t); [|].
    + by replace (slen w + (k - slen w)) with k by lia.
    + apply closed_plain. eapply sforall_impl; [|exact Hw]. by intros c ->.
Qed.

(** *** The other scanners *)
Ltac closed_cases H :=
  induction H as [p|p c s Hc Hp Hs IH|p q body s Hq Hb Hs IH|p s1 s2 Hs1 IH1 Hs2 IH2].

Lemma colon_go_lit ranges q body t d td : is_quote q = true → sforall lit_byte body = true →
  ∀ i, ranges_from ranges i (LIn q false) (body +:+ String q t) →
  colon_go ranges (body +:+ String q t) i d td = colon_go ranges t (i + S (slen body)) d td.
Proof.
  intros Hq. induction body as [|c body IH]; simpl; intros Hb i Hr;
    rewrite (ranges_from_here _ _ _ _ _ Hr); simpl.
  - by rewrite Nat.add_1_r.
  - apply andb_true_iff in Hb as [Hc Hb]. apply ranges_from_tail in Hr. simpl in Hr.
    destruct (lit_byte_spec c Hc) as (_ & E & _). rewrite E, (lit_byte_quote q c Hq Hc) in Hr.
    rewrite IH by done. f_equal. lia.
Qed.

Lemma closed_colon ranges p s : closed p s → ∀ t i d td,
  (0 < d)%Z ∨ (d = 0%Z ∧ p ":"%char = false ∧ p "?"%char = false) →
  ranges_from ranges i LOut (s +:+ t) →
  colon_go ranges (s +:+ t) i d td = colon_go ranges t (i + slen s) d td.
Proof.
  intros H. closed_cases H; intros t i d td Hd Hr;
    rewrite ?sapp_cons, ?sapp_assoc, ?sapp_cons in *.
  - rewrite sapp_nil_l. simpl. by rewrite Nat.add_0_r.
  - simpl. rewrite (ranges_from_here _ _ _ _ _ Hr). apply ranges_from_tail in Hr. simpl in Hr.
    destruct (plain_byte_spec c Hc) as (Eq & E1 & E2). rewrite Eq in Hr. simpl. rewrite Eq, E1, E2.
    replace (i + S (slen s)) with (S i + slen s) by lia. rewrite <- IH by done.
    destruct (Ascii.eqb_spec c "?"%char) as [->|]; [|destruct (Ascii.eqb_spec c ":"%char) as [->|]];
      try done; (destruct Hd as [Hd|(?&?&?)]; [|congruence]).
    + by rewrite (proj2 (Z.eqb_neq d 0)) by lia.
    + by rewrite (proj2 (Z.eqb_neq d 0)) by lia.
  - simpl. rewrite (ranges_from_here _ _ _ _ _ Hr). apply ranges_from_tail in Hr. simpl in *.
    rewrite Hq in *. rewrite colon_go_lit by done. rewrite IH; [|done|].
    + rewrite slen_app. simpl. f_equal. lia.
    + intros j Hj. rewrite (Hr j) by lia.
      replace (j - S i) with (slen (body +:+ String q "") + (j - (S i + S (slen body)))).
      2: { rewrite slen_app. simpl. lia. }
      replace (body +:+ String q (s +:+ t)) with ((body +:+ String q "") +:+ (s +:+ t))
        by by rewrite sapp_assoc.
      rewrite in_literal_app. by rewrite in_lit_after.
  - simpl. rewrite (ranges_from_here _ _ _ _ _ Hr). apply ranges_from_tail in Hr. simpl in *.
    rewrite IH1; [|left; lia|done].
    apply (ranges_from_app _ _ _ _ _ Hs1) in Hr. cbn [colon_go].
    rewrite (ranges_from_here _ _ _ _ _ Hr). apply ranges_from_tail in Hr. simpl in *.
    rewrite IH2; [|by replace (d + 1 - 1)%Z with d by lia|done].
    rewrite slen_app. simpl. f_equal; lia.
Qed.

Lemma call_go_lit q body t d : is_quote q = true → sforall lit_byte body = true →
  call_go (body +:+ String q t) d (Some q) false = call_go t d None false.
Proof.
  intros Hq. induction body as [|c body IH]; simpl.
  - intros _. rewrite Ascii.eqb_refl. unfold is_quote in Hq.
    by destruct (Ascii.eqb_spec q "\"%char) as [->|].
  - rewrite andb_true_iff. intros [Hc Hb].
    destruct (lit_byte_spec c Hc) as (_ & -> & _). rewrite (lit_byte_quote q c Hq Hc). auto.
Qed.

Lemma closed_call p s : closed p s → ∀ t d, (0 < d)%Z →
  call_go (s +:+ t) d None false = call_go t d None false.
Proof.
  intros H. closed_cases H; intros t d Hd; rewrite ?sapp_cons, ?sapp_assoc, ?sapp_cons; simpl.
  - done.
  - destruct (plain_byte_spec c Hc) as (-> & -> & ->). auto.
  - rewrite Hq, call_go_lit by done. auto.
  - rewrite IH1 by lia. simpl. replace (d + 1 - 1)%Z with d by lia.
    rewrite (proj2 (Z.eqb_neq d 0)), (proj2 (Z.ltb_ge d 0)) by lia. auto.
Qed.

Lemma enclosing_go_lit body t d : (0 < d)%Z → sforall lit_byte body = true →
  enclosing_go (body +:+ t) d = enclosing_go t d.
Proof.
  intros Hd. induction body as [|c body IH]; simpl; [done|].
  rewrite andb_true_iff. intros [Hc Hb]. destruct (lit_byte_spec c Hc) as (_ & _ & -> & ->).
  rewrite (proj2 (Z.ltb_ge d 0)) by lia. auto.
Qed.

Lemma closed_enclosing p s : closed p s → ∀ t d, (0 < d)%Z →
  enclosing_go (s +:+ t) d = enclosing_go t d.
Proof.
  intros H. closed_cases H; intros t d Hd; rewrite ?sapp_cons, ?sapp_assoc, ?sapp_cons; simpl.
  - done.
  - destruct (plain_byte_spec c Hc) as (_ & -> & ->). rewrite (proj2 (Z.ltb_ge d 0)) by lia. auto.
  - destruct (quote_not_paren q Hq) as [E1 E2]. rewrite E1, E2, (proj2 (Z.ltb_ge d 0)) by lia.
    rewrite enclosing_go_lit by done. simpl. rewrite E1, E2, (proj2 (Z.ltb_ge d 0)) by lia. auto.
  - rewrite (proj2 (Z.ltb_ge (d + 1) 0)), IH1 by lia. simpl. replace (d + 1 - 1)%Z with d by lia.
    rewrite (proj2 (Z.eqb_neq d 0)), (proj2 (Z.ltb_ge d 0)) by lia. simpl. auto.
Qed.

Lemma args_go_lit A q st arg body t d args : is_quote q = true → sforall lit_byte body = true →
  ∀ i start,
  args_go A (body +:+ String q t) i start d
    (Some {| aq_quote := q; aq_start := st; aq_arg := arg; aq_esc := false |}) args
  = args_go A t (i + S (slen body)) start d None args.
Proof.
  intros Hq. induction body as [|c body IH]; simpl; intros Hb i start.
  - rewrite Ascii.eqb_refl. unfold is_quote in Hq. rewrite Nat.add_1_r.
    by destruct (Ascii.eqb_spec q "\"%char) as [->|].
  - apply andb_true_iff in Hb as [Hc Hb].
    destruct (lit_byte_spec c Hc) as (_ & -> & _). rewrite (lit_byte_quote q c Hq Hc).
    rewrite IH by done. f_equal. lia.
Qed.

Lemma closed_args A p s : closed p s → ∀ t i start d args,
  (0 < d)%Z ∨ (d = 0%Z ∧ p ","%char = false) →
  args_go A (s +:+ t) i start d None args = args_go A t (i + slen s) start d None args.
Proof.
  intros H. closed_cases H; intros t i start d args Hd;
    rewrite ?sapp_cons, ?sapp_assoc, ?sapp_cons; simpl.
  - by rewrite Nat.add_0_r.
  - destruct (plain_byte_spec c Hc) as (-> & -> & ->).
    replace ((c =c? ",")%char && (d =? 0)%Z) with false.
    + rewrite IH by done. f_equal. lia.
    + destruct (Ascii.eqb_spec c ","%char) as [->|]; [|done].
      destruct Hd as [|[_ ?]]; [by rewrite (proj2 (Z.eqb_neq d 0)) by lia|congruence].
  - rewrite Hq, args_go_lit by done. rewrite IH by done. rewrite slen_app. simpl. f_equal. lia.
  - rewrite IH1 by (left; lia). simpl. rewrite (proj2 (Z.ltb_ge (d + 1 - 1) 0)) by lia.
    replace (d + 1 - 1)%Z with d by lia. rewrite IH2 by done. rewrite slen_app. simpl. f_equal. lia.
Qed.

(** ** Properties *)

(** The literal ranges are exact. [quotedStringRanges] fails exactly when a
    literal is still open at the end of the text, and otherwise a byte is in
    one of the returned ranges exactly when reading the text byte by byte
    (quotes of either kind, backslash escapes) puts it inside a literal. *)
Theorem quotedStringRanges_spec s :
  match quotedStringRanges s with
  | Ok rs => unterminated s = false ∧ ∀ i, inStringRange i rs = in_literal LOut s i
  | Err _ => unterminated s = true
  end.
Proof.
  pose proof (ranges_ok s) as Hok. pose proof (ranges_literal s) as Hlit.
  destruct (quotedStringRanges s); simpl in Hok; destruct (unterminated s); naive_solver.
Qed.

(** The operator search is sound and complete. The index returned is an
    occurrence of the operator outside literals at parenthesis depth zero; -1
    is returned only if there is none. A leftmost search returns the first
    one, a rightmost search one that every later occurrence overlaps. *)
Theorem idxValidSplitPoint_spec s op dir :
  plain_op op = true →
  match idxValidSplitPoint s op dir with
  | Err _ => unterminated s = true
  | Ok None => unterminated s = false ∧ ∀ k, split_point LOut 0 op s k = false
  | Ok (Some i) =>
      unterminated s = false ∧ split_point LOut 0 op s i = true
      ∧ ∀ k, split_point LOut 0 op s k = true →
          match dir with leftmostFirst => i ≤ k | rightmostFirst => k < i + slen op end
  end.
Proof. apply split_search. Qed.

(** In [f('||') || (a || b) || c] the rightmost search finds the operator at
    byte 20, and there is none after it. *)
Lemma idxValidSplitPoint_spec_witness :
  let s := "f('||') || (a || b) || c" in
  idxValidSplitPoint s "||" rightmostFirst = Ok (Some 20)
  ∧ ∀ k, split_point LOut 0 "||" s k = true → k < 22.
Proof.
  intros s. assert (idxValidSplitPoint s "||" rightmostFirst = Ok (Some 20)) as Hs
    by (vm_compute; reflexivity).
  pose proof (idxValidSplitPoint_spec s "||" rightmostFirst eq_refl) as H.
  rewrite Hs in H. split; [exact Hs|]. apply H.
Defined.
