(* ===== verification/DslParserSpec.v ===== *)
(** * Validation DSL: what the parser computes

    The recursion of [ParseExpression] terminates and satisfies its defining
    equation, every fully parenthesised text of an expression parses back to
    it, and simple filters split at the operator the documented order picks. *)
From Stdlib Require Import Ascii ZArith Lia Bool.
From stdpp Require Import base list strings.
From S2P Require Import Prelude GoStrings GoFloat GoStrconv GoValue DslTypes DslParser DslScan.

#[local] Arguments sdrop : simpl nomatch.
#[local] Arguments stake : simpl nomatch.

(** ** The fully parenthesised text of an expression *)

(** Operators in the order the levels try them. *)
Definition binary_ops : list string :=
  concat [logicalOps; comparisonOps; additiveOps; multiplicativeOps].

Definition paren (s : string) : string := String "(" (s +:+ ")").
Definition quoted (s : string) : string := String (bchr 34) (s +:+ dquote).

Definition show_constant (v : value) : string :=
  match v with
  | VBool b => if b then "true" else "false"
  | VInt _ z => itoa z
  | VString s => quoted s
  | _ => ""
  end.
Fixpoint show (e : Expression) : string :=
  match e with
  | ExprVariable x => x
  | ExprConstant v => show_constant v
  | ExprBinary l op r => paren (show l) +:+ " " +:+ op +:+ " " +:+ paren (show r)
  | ExprUnary op e => op +:+ paren (show e)
  | ExprFunction name args => name +:+ paren (sjoin ", " (map show args))
  | ExprTernary c t e =>
      paren (show c) +:+ " ? " +:+ paren (show t) +:+ " : " +:+ paren (show e)
  end.

(** What the grammar can write: names of letters, digits and underscores that
    are not read as constants, booleans, 64-bit integers, strings without
    quotes, backslashes and parentheses, the twelve binary operators and [!]. *)
Definition name_ok (x : string) : bool := negb (x =s? "") && sforall name_byte x.
Definition constant_ok (v : value) : bool :=
  match v with
  | VBool _ => true
  | VInt KInt64 z => (- 2 ^ 63 <=? z)%Z && (z <? 2 ^ 63)%Z
  | VString s => sforall lit_byte s
  | _ => false
  end.
Definition is_none {A} (o : option A) : bool := match o with None => true | Some _ => false end.
Fixpoint printable (e : Expression) : bool :=
  match e with
  | ExprVariable x => name_ok x && is_none (tryParseConstant x)
  | ExprConstant v => constant_ok v
  | ExprBinary l op r => existsb (String.eqb op) binary_ops && printable l && printable r
  | ExprUnary op e => (op =s? "!") && printable e
  | ExprFunction name args => name_ok name && forallb printable args
  | ExprTernary c t e => printable c && printable t && printable e
  end.

(** ** The recursion only sees shorter texts *)

Lemma slen_ssub s i j : slen (ssub s i j) ≤ slen s.
Proof. unfold ssub. rewrite slen_stake, slen_sdrop. lia. Qed.

Lemma split_found_length s op dir i :
  plain_op op = true → idxValidSplitPoint s op dir = Ok (Some i) → 0 < slen op ∧ i + slen op ≤ slen s.
Proof.
  intros Hop H. pose proof (split_search s op dir Hop) as Hs. rewrite H in Hs.
  destruct Hs as (_ & [Hp%has_prefix_length Hi]%split_point_prefix & _).
  rewrite slen_sdrop in Hp. unfold plain_op in Hop. destruct op; simpl in *; [done|lia].
Qed.

Lemma args_go_length argsStr t : ∀ i start d q args res,
  args_go argsStr t i start d q args = Ok res →
  Forall (λ a, slen a ≤ slen argsStr) args → Forall (λ a, slen a ≤ slen argsStr) res.
Proof.
  assert (∀ u, slen u ≤ slen argsStr → slen (trim_space u) ≤ slen argsStr) as Htrim.
  { intros u. pose proof (slen_trim_space u). lia. }
  induction t as [|c t IH]; intros i start d q args res; simpl; unfold errorf.
  - destruct q; [done|]. destruct (negb _); [done|]. intros [= <-] H.
    apply Forall_app. split; [done|]. apply Forall_singleton, Htrim. rewrite slen_sdrop. lia.
  - repeat case_match; intros Hgo Hargs; try done; try (by eapply IH).
    eapply IH; [done|]. apply Forall_app. split; [done|]. apply Forall_singleton, Htrim, slen_ssub.
Qed.

Section congruence.
Variables f g : string → result Expression.

Lemma parse_args_ext args : ∀ i,
  Forall (λ a, f (trim_space a) = g (trim_space a)) args → parse_args f i args = parse_args g i args.
Proof.
  induction args as [|a args IH]; intros i; simpl; [done|].
  intros [-> H]%Forall_cons. destruct (g (trim_space a)); simpl; [|done]. by rewrite (IH _ H).
Qed.

Lemma parseFunction_ext s :
  (∀ t, slen t < slen s → f t = g t) → parseFunction f s = parseFunction g s.
Proof.
  intros Hext. unfold parseFunction. destruct (sindex "(" s) as [p|]; [|done].
  destruct (_ =s? "") eqn:Ea; simpl; [done|].
  set (argsStr := trim_space (ssub s (S p) (slen s - 1))) in *.
  assert (slen argsStr < slen s) as Hlen.
  { apply String.eqb_neq in Ea. rewrite <- slen_0 in Ea.
    assert (slen argsStr ≤ slen (ssub s (S p) (slen s - 1))) as H1 by apply slen_trim_space.
    assert (slen (ssub s (S p) (slen s - 1)) ≤ slen s - 1) as H2.
    { unfold ssub. rewrite slen_stake. lia. }
    lia. }
  destruct (splitArgsOutsideStrings argsStr) as [args|] eqn:Eargs; simpl; [|done].
  rewrite (parse_args_ext args); [done|].
  apply args_go_length in Eargs; [|done]. eapply Forall_impl; [exact Eargs|]. simpl. intros a Ha.
  apply Hext. pose proof (slen_trim_space a). lia.
Qed.

Lemma tryParseTernary_ext s :
  (∀ t, slen t < slen s → f t = g t) → tryParseTernary f s = tryParseTernary g s.
Proof.
  intros Hext. unfold tryParseTernary.
  destruct (idxValidSplitPoint s "?" leftmostFirst) as [[q|]|] eqn:Eq; simpl; try done.
  apply split_found_length in Eq as [_ Eq]; [|done]. simpl in Eq.
  destruct (findTernaryColon s q) as [[c|]|]; simpl; try done.
  repeat (destruct (_ =s? ""); [done|]).
  assert (∀ u, slen u < slen s → f (trim_space u) = g (trim_space u)) as Ht.
  { intros u Hu. apply Hext. pose proof (slen_trim_space u). lia. }
  rewrite !Ht; [done|..]; unfold ssub; rewrite ?slen_stake, ?slen_sdrop; lia.
Qed.

Lemma tryParseBinaryOp_ext s ops :
  Forall (λ op, plain_op op = true) ops →
  (∀ t, slen t < slen s → f t = g t) → tryParseBinaryOp f s ops = tryParseBinaryOp g s ops.
Proof.
  intros Hops Hext. induction Hops as [|op ops Hop _ IH]; simpl; [done|].
  destruct (idxValidSplitPoint s op rightmostFirst) as [[i|]|] eqn:Ei; simpl; try done.
  apply split_found_length in Ei as [Hpos Hi]; [|done].
  destruct (_ || _); [done|].
  assert (∀ u, slen u < slen s → f (trim_space u) = g (trim_space u)) as Ht.
  { intros u Hu. apply Hext. pose proof (slen_trim_space u). lia. }
  rewrite !Ht by (rewrite ?slen_sdrop, ?slen_stake; lia). by rewrite IH.
Qed.

Lemma parse_atom_ext s :
  (∀ t, slen t < slen s → f t = g t) → parse_atom f s = parse_atom g s.
Proof.
  intros Hext. unfold parse_atom.
  assert (∀ u, slen u < slen s → f (trim_space u) = g (trim_space u)) as Ht.
  { intros u Hu. apply Hext. pose proof (slen_trim_space u). lia. }
  destruct (has_prefix "!" s) eqn:E1.
  { apply has_prefix_length in E1. simpl in E1. rewrite Ht by (rewrite slen_sdrop; lia). done. }
  destruct (hasEnclosingParens s) eqn:E2; [|done]. unfold hasEnclosingParens in E2.
  destruct (has_prefix "(" s) eqn:E3; [|done]. apply has_prefix_length in E3. simpl in E3.
  destruct (_ =s? ""); [done|]. apply Ht. unfold ssub. rewrite slen_stake, slen_sdrop. lia.
Qed.

Lemma parse_levels_ext s levels :
  Forall (Forall (λ op, plain_op op = true)) levels →
  (∀ t, slen t < slen s → f t = g t) → parse_levels f s levels = parse_levels g s levels.
Proof.
  intros Hl Hext. induction Hl as [|ops levels Hops _ IH]; simpl; [by apply parse_atom_ext|].
  rewrite (tryParseBinaryOp_ext _ _ Hops Hext), IH. done.
Qed.

Lemma parse_body_ext s :
  (∀ t, slen t < slen s → f t = g t) → parse_body f s = parse_body g s.
Proof.
  intros Hext. unfold parse_body. destruct (s =s? ""); [done|].
  assert (∀ t, slen t < slen (trim_space s) → f t = g t) as Ht.
  { intros t. pose proof (slen_trim_space s). intros. apply Hext. lia. }
  rewrite (parseFunction_ext _ Ht), (tryParseTernary_ext _ Ht).
  rewrite (parse_levels_ext (trim_space s) [logicalOps; comparisonOps; additiveOps; multiplicativeOps]);
    [done|by repeat constructor|done].
Qed.
End congruence.

Lemma parse_fuel_enough n m s : slen s < n → slen s < m → parse_fuel n s = parse_fuel m s.
Proof.
  revert m s. induction n as [|n IH]; intros [|m] s Hn Hm; try lia. simpl.
  apply parse_body_ext. intros t Ht. apply IH; lia.
Qed.

Lemma ParseExpression_eq s : ParseExpression s = parse_body ParseExpression s.
Proof.
  unfold ParseExpression at 1. simpl. apply parse_body_ext. intros t Ht.
  apply parse_fuel_enough; lia.
Qed.

(** ** Byte classes *)

(** The bytes some scanner reacts to: operators, the ternary, the separator. *)
Definition special_byte (c : ascii) : bool :=
  existsb (Ascii.eqb c) ["|"; "&"; "="; "!"; ">"; "<"; "+"; "-"; "*"; "/"; "?"; ":"; ","; "("; " "]%char.

Lemma name_byte_facts c : name_byte c = true →
  plain_byte c = true ∧ solid c = true ∧ special_byte c = false.
Proof. by destruct c as [[] [] [] [] [] [] [] []]. Qed.
Lemma digit_byte_name c : digit_byte c = true → name_byte c = true.
Proof. by destruct c as [[] [] [] [] [] [] [] []]. Qed.

Definition not_comma (c : ascii) : bool := negb (c =c? ",")%char.

Lemma names_closed x : sforall name_byte x = true → closed name_byte x.
Proof.
  intros H. apply closed_plain. eapply sforall_impl; [|exact H].
  intros c Hc. destruct (name_byte_facts c Hc) as (-> & _). done.
Qed.
Lemma names_tight x : name_ok x = true → tight x = true.
Proof.
  unfold name_ok. rewrite andb_true_iff, negb_true_iff, String.eqb_neq. intros [Hne Hx].
  assert (∀ s, s ≠ "" → sforall name_byte s = true → first_solid s = true) as Hf.
  { intros [|c s]; [done|]. simpl. intros _ [Hc _]%andb_true_iff. by apply name_byte_facts. }
  assert (∀ s, sforall name_byte (String.rev s) = sforall name_byte s) as Hrev.
  { clear. induction s as [|c s IH]; [done|]. rewrite srev_cons, sforall_app, IH. simpl.
    by rewrite andb_true_r, andb_comm. }
  unfold tight. rewrite !Hf; [done| |by rewrite Hrev|done|done].
  intros E. apply Hne. by rewrite <- (srev_involutive x), E.
Qed.

Lemma name_special_ne c a : name_byte c = true → special_byte a = true → c ≠ a.
Proof. intros Hc Ha ->. apply name_byte_facts in Hc as (_ & _ & ?). congruence. Qed.

(** ** Texts no operator splits *)

Section levels.
Variable f : string → result Expression.

Lemma tryParseBinaryOp_app s ops1 ops2 :
  tryParseBinaryOp f s (ops1 ++ ops2)
  = r ← tryParseBinaryOp f s ops1;
    match r with Some e => Ok (Some e) | None => tryParseBinaryOp f s ops2 end.
Proof.
  induction ops1 as [|op ops1 IH]; simpl; [done|].
  destruct (idxValidSplitPoint s op rightmostFirst) as [[i|]|]; simpl; [|done..].
  repeat case_match; done.
Qed.

Lemma parse_levels_flat s levels :
  parse_levels f s levels
  = r ← tryParseBinaryOp f s (concat levels);
    match r with Some e => Ok e | None => parse_atom f s end.
Proof.
  induction levels as [|ops levels IH]; simpl; [done|].
  rewrite tryParseBinaryOp_app, IH. by destruct (tryParseBinaryOp f s ops) as [[e|]|].
Qed.

(** No occurrence, or one at the very start of the text (a sign). *)
Definition no_split (s op : string) : Prop :=
  idxValidSplitPoint s op rightmostFirst = Ok None ∨ idxValidSplitPoint s op rightmostFirst = Ok (Some 0).

Lemma tryParseBinaryOp_none s ops :
  Forall (no_split s) ops → tryParseBinaryOp f s ops = Ok None.
Proof.
  induction 1 as [|op ops [H|H] _ IH]; simpl; [done|..]; rewrite H; simpl; [done|].
  by destruct s.
Qed.
End levels.

Lemma tight_ne s : tight s = true → s ≠ "".
Proof. by intros H ->. Qed.

Lemma parse_unsplit s :
  tight s = true → isFunctionCall s = false →
  idxValidSplitPoint s "?" leftmostFirst = Ok None →
  Forall (no_split s) binary_ops →
  ParseExpression s = parse_atom ParseExpression s.
Proof.
  intros Ht Hf Hq Hops. rewrite ParseExpression_eq. unfold parse_body.
  rewrite (proj2 (String.eqb_neq s "")) by by apply tight_ne.
  rewrite (trim_tight s Ht), Hf. unfold tryParseTernary. rewrite Hq.
  trans (parse_levels ParseExpression s [logicalOps; comparisonOps; additiveOps; multiplicativeOps]);
    [done|].
  rewrite parse_levels_flat. fold binary_ops. by rewrite tryParseBinaryOp_none.
Qed.

Lemma binary_ops_plain : Forall (λ op, plain_op op = true) binary_ops.
Proof. by repeat constructor. Qed.
Lemma binary_ops_special : Forall (λ op, ∀ a o, op = String a o → special_byte a = true) binary_ops.
Proof. repeat constructor; by intros a o [= <- <-]. Qed.

(** When no top-level byte is special, nothing splits the text. *)
Lemma closed_unsplit p s : closed p s → (∀ a, special_byte a = true → p a = false) →
  idxValidSplitPoint s "?" leftmostFirst = Ok None ∧ Forall (no_split s) binary_ops.
Proof.
  intros Hc Hp. split.
  - apply (closed_no_split p); [done|done|]. intros a o [= <- <-]. by apply Hp.
  - apply Forall_forall. intros op Hop. left. apply (closed_no_split p); [done|..].
    + by apply (proj1 (Forall_forall _ _) binary_ops_plain).
    + intros a o ->. apply Hp. by eapply (proj1 (Forall_forall _ _) binary_ops_special).
Qed.

(** ** Parentheses *)

Lemma paren_closed p s : closed (λ _, true) s → closed p (paren s).
Proof. intros. apply (closed_paren p s ""); [done|apply closed_nil]. Qed.
Lemma paren_tight s : tight (paren s) = true.
Proof. by apply tight_cons_snoc. Qed.
Lemma slen_paren s : slen (paren s) = slen s + 2.
Proof. unfold paren. simpl. rewrite slen_app. simpl. lia. Qed.
Lemma paren_suffix s : has_suffix ")" (paren s) = true.
Proof. apply has_suffix_spec. by exists (String "(" s). Qed.

Lemma paren_enclosing s : closed (λ _, true) s → hasEnclosingParens (paren s) = true.
Proof.
  intros Hc. unfold hasEnclosingParens. rewrite paren_suffix. simpl.
  by rewrite (closed_enclosing _ _ Hc).
Qed.
Lemma paren_inner s : ssub (paren s) 1 (slen (paren s) - 1) = s.
Proof.
  unfold ssub. rewrite slen_paren. replace (slen s + 2 - 1 - 1) with (slen s) by lia.
  change (sdrop 1 (paren s)) with (sdrop 0 (s +:+ ")")). by rewrite sdrop_0, stake_app.
Qed.

Lemma parse_paren s : closed (λ _, true) s → tight s = true →
  ParseExpression (paren s) = ParseExpression s.
Proof.
  intros Hc Ht.
  destruct (closed_unsplit (λ _, false) (paren s)) as [H1 H2]; [by apply paren_closed|done|].
  rewrite parse_unsplit; [|by apply paren_tight|done|done|done].
  unfold parse_atom. change (has_prefix "!" (paren s)) with false. cbv iota.
  rewrite paren_enclosing, paren_inner, (trim_tight s Ht) by done. cbv zeta.
  by rewrite (proj2 (String.eqb_neq s "")) by by apply tight_ne.
Qed.

(** ** Names and constants *)

Definition word_byte (c : ascii) : bool := name_byte c || (c =c? "-")%char.

Lemma word_byte_special a : special_byte a = true → a ≠ "-"%char → word_byte a = false.
Proof.
  intros Ha Hne. unfold word_byte. destruct (name_byte a) eqn:E.
  - apply name_byte_facts in E as (_ & _ & ?). congruence.
  - by apply Ascii.eqb_neq.
Qed.

Lemma itoa_closed z : closed word_byte (itoa z).
Proof.
  assert (∀ n, closed word_byte (digits_of n)) as Hd.
  { intros n. eapply closed_mono, names_closed;
      [|eapply sforall_impl; [apply digit_byte_name|apply digits_of_digits]].
    unfold word_byte. by intros c ->. }
  unfold itoa. destruct (z <? 0)%Z; [|done]. by apply closed_byte.
Qed.
Lemma itoa_tight z : tight (itoa z) = true.
Proof.
  assert (∀ n, tight (digits_of n) = true) as Hd.
  { intros n. apply names_tight. unfold name_ok.
    rewrite (proj2 (String.eqb_neq _ _) (digits_of_ne n)). simpl.
    eapply sforall_impl; [apply digit_byte_name|apply digits_of_digits]. }
  unfold itoa. destruct (z <? 0)%Z; [|done].
  specialize (Hd (- z)%Z). unfold tight in *. apply andb_true_iff in Hd as [H1 H2].
  rewrite srev_app. rewrite (first_solid_app _ _ H2). done.
Qed.

Lemma quoted_closed p s : sforall lit_byte s = true → closed p (quoted s).
Proof. intros H. apply closed_lit; [done|done|apply closed_nil]. Qed.
Lemma quoted_tight s : tight (quoted s) = true.
Proof. by apply tight_cons_snoc. Qed.
Lemma quoted_inner s : ssub (quoted s) 1 (slen (quoted s) - 1) = s.
Proof.
  unfold ssub, quoted. cbn [slen]. rewrite slen_app. cbn [slen dquote].
  replace (S (slen s + 1) - 1 - 1) with (slen s) by lia.
  change (sdrop 1 (String _ ?t)) with (sdrop 0 t). by rewrite sdrop_0, stake_app.
Qed.
Lemma quoted_suffix s : has_suffix dquote (quoted s) = true.
Proof. apply has_suffix_spec. by exists (String (bchr 34) s). Qed.

Lemma parse_int_quoted t : parse_int (String (bchr 34) t) = None.
Proof. done. Qed.
Lemma parse_float_quoted t : parse_float (String (bchr 34) t) = None.
Proof.
  unfold parse_float, parse_special, split_sign. simpl.
  unfold parse_float_number, split_sign. simpl. by destruct t as [|x [|y u]].
Qed.

Lemma show_constant_closed v : constant_ok v = true → closed word_byte (show_constant v).
Proof.
  destruct v as [|[]|s|[] z|f|f|l|l|l|m|m]; try done; intros H.
  1, 2: by apply closed_plain.
  - by apply quoted_closed.
  - apply itoa_closed.
Qed.
Lemma show_constant_tight v : constant_ok v = true → tight (show_constant v) = true.
Proof.
  destruct v as [|[]|s|[] z|f|f|l|l|l|m|m]; try done; intros _.
  - apply quoted_tight.
  - apply itoa_tight.
Qed.

Lemma constant_roundtrip v : constant_ok v = true → tryParseConstant (show_constant v) = Some v.
Proof.
  intros H. unfold tryParseConstant. rewrite trim_tight by by apply show_constant_tight.
  destruct v as [|[]|s|[] z|f|f|l|l|l|m|m]; try done.
  - simpl show_constant. change (quoted s =s? "true") with false.
    change (quoted s =s? "false") with false. cbv iota.
    change (parse_int (quoted s)) with (@None Z). unfold quoted at 1. rewrite parse_float_quoted.
    unfold quoted_by. rewrite quoted_suffix, quoted_inner. simpl. rewrite slen_app. simpl.
    by rewrite Nat.add_1_r.
  - simpl in H. apply andb_true_iff in H as [H1%Z.leb_le H2%Z.ltb_lt]. simpl.
    pose proof (parse_int_itoa z ltac:(lia)) as Hz. rewrite Hz.
    destruct (eqs_spec (itoa z) "true") as [E|_]; [by rewrite E in Hz|].
    by destruct (eqs_spec (itoa z) "false") as [E|_]; [rewrite E in Hz|].
Qed.

(** A text without an opening parenthesis is no call, no group and no negation. *)
Definition bare (s : string) : bool :=
  sforall (λ c, negb (c =c? "(")%char) s && negb (has_prefix "!" s).

Lemma parse_bare s :
  bare s = true → tight s = true → unterminated s = false →
  idxValidSplitPoint s "?" leftmostFirst = Ok None → Forall (no_split s) binary_ops →
  ParseExpression s
  = Ok (match tryParseConstant s with Some v => ExprConstant v | None => ExprVariable s end).
Proof.
  unfold bare. rewrite andb_true_iff, negb_true_iff. intros [Hp Hb] Ht Hu Hq Hops.
  rewrite parse_unsplit; [|done| |done|done].
  - unfold parse_atom. rewrite Hb. unfold hasEnclosingParens.
    replace (has_prefix "(" s) with false.
    2: { destruct s as [|c s]; [done|]. cbn [sforall] in Hp. apply andb_true_iff in Hp as [Hc _].
         cbn [has_prefix]. rewrite Ascii.eqb_sym. by destruct (c =c? "(")%char. }
    simpl. destruct (tryParseConstant s); [done|].
    pose proof (ranges_ok s) as Hr. rewrite Hu in Hr. by destruct (quotedStringRanges s).
  - unfold isFunctionCall. by rewrite sindex_none.
Qed.

Lemma parse_variable x : name_ok x = true → tryParseConstant x = None →
  ParseExpression x = Ok (ExprVariable x).
Proof.
  intros Hx Hn. pose proof (names_tight x Hx) as Ht.
  unfold name_ok in Hx. apply andb_true_iff in Hx as [_ Hx].
  pose proof (names_closed x Hx) as Hc.
  destruct (closed_unsplit name_byte x Hc) as [H1 H2].
  { intros a Ha. destruct (name_byte a) eqn:E; [|done].
    apply name_byte_facts in E as (_ & _ & ?). congruence. }
  rewrite parse_bare; [by rewrite Hn| |done|by eapply closed_terminated|done|done].
  unfold bare. rewrite andb_true_iff, negb_true_iff. split.
  - eapply sforall_impl; [|exact Hx]. intros c Hc'. by destruct c as [[] [] [] [] [] [] [] []].
  - destruct x as [|c x]; [done|]. cbn [sforall] in Hx. apply andb_true_iff in Hx as [Hc' _].
    by destruct c as [[] [] [] [] [] [] [] []].
Qed.

(** A sign is the only operator byte of a printed constant, and it comes first. *)
Lemma sign_split z : no_split (itoa z) "-".
Proof.
  assert (∀ n, closed name_byte (digits_of n)) as Hd.
  { intros n. apply names_closed. eapply sforall_impl; [apply digit_byte_name|apply digits_of_digits]. }
  unfold no_split. unfold itoa. destruct (z <? 0)%Z; [|left; by apply (closed_no_split name_byte); [..|intros a o [= <- <-]]].
  pose proof (split_search ("-" +:+ digits_of (- z)) "-" rightmostFirst eq_refl) as H.
  assert (closed word_byte ("-" +:+ digits_of (- z))) as Hc.
  { apply closed_byte; [done..|]. eapply closed_mono, Hd. unfold word_byte. by intros c ->. }
  pose proof (closed_terminated _ _ Hc) as Hu.
  destruct (idxValidSplitPoint _ _ _) as [[i|]|]; [right|by left|congruence].
  destruct H as (_ & H & _). destruct i as [|i]; [done|exfalso].
  change (split_point LOut 0 "-" (digits_of (- z)) i = true) in H.
  rewrite <- (sapp_nil_r (digits_of (- z))) in H.
  apply (closed_split _ _ _ _ _ (Hd _)) in H as [_ H]; [|by right].
  by destruct (i - slen (digits_of (- z))).
Qed.

Lemma parse_constant v : constant_ok v = true →
  ParseExpression (show_constant v) = Ok (ExprConstant v).
Proof.
  intros Hv. pose proof (show_constant_closed v Hv) as Hc.
  rewrite parse_bare; [by rewrite constant_roundtrip| |by apply show_constant_tight
    |by eapply closed_terminated| |].
  - destruct v as [|[]|s|[] z|f|f|l|l|l|m|m]; try done; unfold bare; simpl show_constant.
    + simpl in *. rewrite sforall_app. simpl. rewrite !andb_true_r.
      eapply sforall_impl; [|exact Hv]. intros c (_ & _ & -> & _)%lit_byte_spec. done.
    + rewrite andb_true_iff, negb_true_iff.
      assert (∀ n, sforall (λ c, negb (c =c? "(")%char) (digits_of n) = true) as Hd.
      { intros n. eapply sforall_impl; [|apply (digits_of_digits n)].
        intros c. by destruct c as [[] [] [] [] [] [] [] []]. }
      pose proof (digits_of_digits z) as Hz. pose proof (digits_of_ne z) as Hne.
      unfold itoa. destruct (z <? 0)%Z; [split; [apply Hd|done]|]. split; [apply Hd|].
      destruct (digits_of z) as [|c s]; [done|]. cbn [sforall] in Hz.
      apply andb_true_iff in Hz as [Hz _]. by destruct c as [[] [] [] [] [] [] [] []].
  - apply (closed_no_split word_byte); [done|done|]. by intros a o [= <- <-].
  - destruct v as [|[]|s|[] z|f|f|l|l|l|m|m]; try done.
    1, 2: apply (closed_unsplit name_byte); [by apply closed_plain|].
    3: { apply (closed_unsplit (λ _, false)); [by apply quoted_closed|done]. }
    1, 2: intros a Ha; destruct (name_byte a) eqn:E; [|done];
      apply name_byte_facts in E as (_ & _ & ?); congruence.
    apply Forall_forall. intros op Hop. destruct (decide (op = "-")) as [->|Hne]; [apply sign_split|].
    left. apply (closed_no_split word_byte); [done|..].
    + by apply (proj1 (Forall_forall _ _) binary_ops_plain).
    + intros a o ->. apply word_byte_special.
      * by eapply (proj1 (Forall_forall _ _) binary_ops_special).
      * intros ->. cbn in Hop. repeat (apply elem_of_cons in Hop as [Hop|Hop]; [congruence|]).
        by apply elem_of_nil in Hop.
Qed.

(** ** Composite texts *)

(** Where [op'] matches inside [ op (]: the skeleton between two groups. *)
Definition hits (op' op : string) : list nat :=
  List.filter (λ j, has_prefix op' (sdrop j (" " +:+ op +:+ " ("))) (seq 0 (slen op + 2)).

Lemma binary_ops_facts op : op ∈ binary_ops →
  (slen op ≤ 2 ∧ plain_op op = true ∧ tight op = true) ∧ hits op op = [1] ∧ hits "?" op = [] ∧
  ∃ pre post, binary_ops = pre ++ op :: post ∧ Forall (λ op', hits op' op = []) pre.
Proof.
  intros [n Hn]%list_elem_of_lookup_1. pose proof (take_drop_middle _ _ _ Hn) as Hsplit.
  do 12 (destruct n as [|n]; [injection Hn as <-; split_and!; [simpl; lia|reflexivity..|];
    eexists _, _; split; [symmetry; exact Hsplit|by repeat constructor]|]).
  done.
Qed.

Lemma hits_spec op' op j rest : slen op' ≤ 2 → j < slen op + 2 →
  has_prefix op' (sdrop j ((" " +:+ op +:+ " ") +:+ String "(" rest)) = true → j ∈ hits op' op.
Proof.
  intros Hlen Hj Hp. unfold hits. apply list_elem_of_In, filter_In. split; [apply in_seq; lia|].
  revert Hp. replace ((" " +:+ op +:+ " ") +:+ String "(" rest)
    with ((" " +:+ op +:+ " (") +:+ rest) by by rewrite !sapp_assoc.
  rewrite sdrop_app_le, has_prefix_app_enough; [done|..];
    rewrite ?slen_sdrop, !slen_app; simpl; lia.
Qed.

Lemma slen_spaced op : slen (" " +:+ op +:+ " ") = slen op + 2.
Proof. rewrite !slen_app. simpl. lia. Qed.

Section binary.
Variables L R op : string.
Hypothesis HL : closed (λ _, true) L.
Hypothesis HR : closed (λ _, true) R.
Hypothesis Hop : op ∈ binary_ops.

Definition binary_text : string := paren L +:+ " " +:+ op +:+ " " +:+ paren R.

Lemma op_plain : sforall plain_byte (" " +:+ op +:+ " ") = true.
Proof using Hop.
  rewrite !sforall_app. destruct (binary_ops_facts op Hop) as ((_ & Hp & _) & _).
  unfold plain_op in Hp. apply andb_true_iff in Hp as [_ ->]. done.
Qed.

Lemma binary_text_eq : binary_text = paren L +:+ ((" " +:+ op +:+ " ") +:+ paren R).
Proof. unfold binary_text. by rewrite !sapp_assoc. Qed.

Lemma binary_closed p : sforall p (" " +:+ op +:+ " ") = true → closed p binary_text.
Proof using HL HR Hop.
  intros Hp. rewrite binary_text_eq. apply closed_app; [by apply paren_closed|].
  apply closed_app; [|by apply paren_closed]. apply closed_plain.
  pose proof op_plain as Ho. revert Ho Hp. generalize (" " +:+ op +:+ " "). clear.
  induction s as [|c s IH]; simpl; [done|]. rewrite !andb_true_iff. naive_solver.
Qed.

Lemma binary_split op' k : slen op' ≤ 2 → plain_op op' = true →
  split_point LOut 0 op' binary_text k = true → ∃ j, k = slen (paren L) + j ∧ j ∈ hits op' op.
Proof using HL HR Hop.
  intros Hlen Hop' Hk. rewrite binary_text_eq in Hk. destruct op' as [|a o]; [done|].
  apply (closed_split (λ _, false)) in Hk as [Hge Hk]; [|by apply paren_closed|by right].
  exists (k - slen (paren L)). split; [lia|].
  apply split_point_plain in Hk as [[Hlt Hk]|[_ Hk]]; [| |apply op_plain].
  - apply (hits_spec _ _ _ (R +:+ ")")); [done| |exact Hk]. by rewrite slen_spaced in Hlt.
  - exfalso. rewrite <- (sapp_nil_r (paren R)) in Hk.
    apply (closed_split (λ _, false)) in Hk as [_ Hk]; [|by apply paren_closed|by right].
    by destruct (_ - slen (paren R)).
Qed.

Lemma binary_no_split op' dir : slen op' ≤ 2 → plain_op op' = true → hits op' op = [] →
  idxValidSplitPoint binary_text op' dir = Ok None.
Proof using HL HR Hop.
  intros Hlen Hp Hh. pose proof (split_search binary_text op' dir Hp) as H.
  assert (unterminated binary_text = false) as Hu.
  { apply (closed_terminated (λ _, true)), binary_closed.
    eapply sforall_impl; [|exact op_plain]. done. }
  destruct (idxValidSplitPoint _ _ _) as [[i|]|]; [|done|congruence].
  destruct H as (_ & H & _). apply binary_split in H as (j & _ & Hj); [|done..].
  rewrite Hh in Hj. by apply elem_of_nil in Hj.
Qed.

Lemma binary_found :
  idxValidSplitPoint binary_text op rightmostFirst = Ok (Some (slen (paren L) + 1)).
Proof using HL HR Hop.
  destruct (binary_ops_facts op Hop) as ((Hlen & Hp & _) & Hh & _).
  pose proof (split_search binary_text op rightmostFirst Hp) as H.
  assert (unterminated binary_text = false) as Hu.
  { apply (closed_terminated (λ _, true)), binary_closed.
    eapply sforall_impl; [|exact op_plain]. done. }
  destruct (idxValidSplitPoint _ _ _) as [[i|]|]; [| |congruence].
  - destruct H as (_ & H & _). apply binary_split in H as (j & -> & Hj); [|done..].
    rewrite Hh in Hj. apply list_elem_of_singleton in Hj as ->. done.
  - exfalso. destruct H as [_ H]. specialize (H (slen (paren L) + 1)).
    rewrite binary_text_eq in H. rewrite (closed_split_app (λ _, true)) in H by by apply paren_closed.
    rewrite sapp_assoc in H. simpl in H. unfold split_here in H.
    destruct op as [|a o]; [done|]. simpl in H. unfold plain_op in Hp. simpl in Hp.
    apply andb_true_iff in Hp as [Ha _]. destruct (plain_byte_spec a Ha) as (E1 & E2 & E3).
    unfold is_paren in H. rewrite E1, E2, E3, Ascii.eqb_refl in H. simpl in H.
    by rewrite sapp_assoc, has_prefix_app in H.
Qed.

Lemma parse_binary l r : tight L = true → tight R = true →
  ParseExpression L = Ok l → ParseExpression R = Ok r →
  ParseExpression binary_text = Ok (ExprBinary l op r).
Proof using HL HR Hop.
  intros HtL HtR Hl Hr.
  assert (tight binary_text = true) as Ht.
  { rewrite binary_text_eq. apply tight_app; apply paren_tight. }
  destruct (binary_ops_facts op Hop) as ((Hlen & Hp & Hopt) & Hh & Hq & pre & post & Hops & Hpre).
  rewrite ParseExpression_eq. unfold parse_body.
  rewrite (proj2 (String.eqb_neq _ "")) by by apply tight_ne.
  rewrite (trim_tight _ Ht). change (isFunctionCall binary_text) with false.
  unfold tryParseTernary. rewrite (binary_no_split "?" leftmostFirst); [|simpl; lia|done|done].
  trans (parse_levels ParseExpression binary_text [logicalOps; comparisonOps; additiveOps; multiplicativeOps]);
    [done|].
  rewrite parse_levels_flat. fold binary_ops. rewrite Hops, tryParseBinaryOp_app.
  rewrite (tryParseBinaryOp_none _ _ pre).
  2: { apply Forall_forall. intros op' Hin. left.
       destruct (binary_ops_facts op') as ((? & ? & _) & _).
       { rewrite Hops. apply elem_of_app. by left. }
       apply binary_no_split; [done|done|]. rewrite Forall_forall in Hpre. by apply Hpre. }
  cbn [tryParseBinaryOp mbind res_bind]. rewrite binary_found. cbn [mbind res_bind].
  assert (stake (slen (paren L) + 1) binary_text = paren L +:+ " ") as ->.
  { rewrite binary_text_eq. replace (slen (paren L) + 1) with (slen (paren L +:+ " "))
      by (rewrite slen_app; done). rewrite !sapp_assoc, <- (sapp_assoc (paren L)). apply stake_app. }
  assert (sdrop (slen (paren L) + 1 + slen op) binary_text = " " +:+ paren R) as ->.
  { replace (slen (paren L) + 1 + slen op) with (slen (paren L +:+ " " +:+ op))
      by (rewrite !slen_app; simpl; lia).
    replace binary_text with ((paren L +:+ " " +:+ op) +:+ (" " +:+ paren R))
      by (unfold binary_text; by rewrite !sapp_assoc).
    apply sdrop_app. }
  rewrite trim_tight_r, trim_tight_l by apply paren_tight.
  rewrite !(proj2 (String.eqb_neq _ "")) by apply tight_ne, paren_tight. cbn [orb].
  by rewrite !parse_paren, Hl, Hr by done.
Qed.
End binary.

Lemma parse_unary L e : closed (λ _, true) L → tight L = true →
  ParseExpression L = Ok e → ParseExpression ("!" +:+ paren L) = Ok (ExprUnary "!" e).
Proof.
  intros HL Ht He. set (s := "!" +:+ paren L).
  assert (closed (λ c, c =c? "!")%char s) as Hs
    by (apply closed_byte; [done|done|by apply paren_closed]).
  assert (tight s = true) as Hts by (apply (tight_app "!" (String "(" L) ")"); done).
  assert (Forall (no_split s) binary_ops) as Hops.
  { apply Forall_forall. intros op Hop. left. pose proof (binary_ops_facts op Hop) as ((Hlen & Hp & _) & _).
    pose proof (split_search s op rightmostFirst Hp) as H.
    pose proof (closed_terminated _ _ Hs) as Hu.
    destruct (idxValidSplitPoint _ _ _) as [[i|]|]; [exfalso|done|congruence].
    destruct H as (_ & H & _). subst s. destruct op as [|a o]; [done|].
    apply split_point_plain in H as [[Hi H]|[_ H]]; [| |done].
    - destruct i; [|simpl in Hi; lia]. rewrite sdrop_0 in H.
      change ("!" +:+ paren L) with ("!(" +:+ (L +:+ ")")) in H.
      rewrite has_prefix_app_enough in H by (simpl in *; lia).
      cbn in Hop. repeat (apply elem_of_cons in Hop as [Hop|Hop]; [by simplify_eq|]).
      by apply elem_of_nil in Hop.
    - rewrite <- (sapp_nil_r (paren L)) in H.
      apply (closed_split (λ _, false)) in H as [_ H]; [|by apply paren_closed|by right].
      by destruct (_ - slen (paren L)). }
  rewrite parse_unsplit; [|done| | |done].
  - unfold parse_atom. change (has_prefix "!" s) with true. cbv iota.
    change (sdrop 1 s) with (paren L). rewrite (trim_tight _ (paren_tight L)).
    by rewrite parse_paren, He by done.
  - unfold isFunctionCall. change (sindex "(" s) with (Some 1).
    cbv iota. destruct (negb _); [done|]. by change (trim_space (stake 1 s)) with "!".
  - apply (closed_no_split (λ c, c =c? "!")%char); [done|done|by intros a o [= <- <-]].
Qed.

Section ternary.
Variables C T E : string.
Hypothesis HC : closed (λ _, true) C.
Hypothesis HT : closed (λ _, true) T.
Hypothesis HE : closed (λ _, true) E.

Definition ternary_text : string := paren C +:+ " ? " +:+ paren T +:+ " : " +:+ paren E.

Lemma ternary_closed p : sforall p " ?:" = true → closed p ternary_text.
Proof using HC HT HE.
  simpl. rewrite !andb_true_iff. intros (? & ? & ? & _).
  unfold ternary_text. apply closed_app; [by apply paren_closed|].
  apply closed_app; [by apply closed_plain; simpl; rewrite !andb_true_iff|].
  apply closed_app; [by apply paren_closed|].
  apply closed_app; [by apply closed_plain; simpl; rewrite !andb_true_iff|by apply paren_closed].
Qed.

Lemma ternary_question :
  idxValidSplitPoint ternary_text "?" leftmostFirst = Ok (Some (slen (paren C) + 1)).
Proof using HC HT HE.
  pose proof (split_search ternary_text "?" leftmostFirst eq_refl) as H.
  pose proof (closed_terminated (λ _, true) ternary_text (ternary_closed (λ _, true) eq_refl)) as Hu.
  assert (split_point LOut 0 "?" ternary_text (slen (paren C) + 1) = true) as Hq.
  { unfold ternary_text. by rewrite (closed_split_app (λ _, true)) by by apply paren_closed. }
  destruct (idxValidSplitPoint _ _ _) as [[i|]|]; [| |congruence].
  - destruct H as (_ & H & Hmin). apply Hmin in Hq. do 2 f_equal. clear Hmin.
    unfold ternary_text in H.
    apply (closed_split (λ _, false)) in H as [Hi H]; [|by apply paren_closed|by right].
    destruct (i - slen (paren C)) as [|[|k]] eqn:Ei; [done|lia|lia].
  - destruct H as [_ H]. by rewrite H in Hq.
Qed.

Lemma ternary_colon :
  findTernaryColon ternary_text (slen (paren C) + 1)
  = Ok (Some (slen (paren C) + 2 + slen (paren T) + 2)).
Proof using HC HT HE.
  unfold findTernaryColon. pose proof (ranges_ok ternary_text) as Hok.
  rewrite (closed_terminated (λ _, true) ternary_text (ternary_closed (λ _, true) eq_refl)) in Hok.
  destruct (quotedStringRanges ternary_text) as [rs|] eqn:Hrs; [|done]. cbn [mbind res_bind].
  set (pre := paren C +:+ " ?"). set (mid := " " +:+ paren T +:+ " ").
  assert (ternary_text = pre +:+ (mid +:+ (":" +:+ (" " +:+ paren E)))) as Htext.
  { unfold ternary_text, pre, mid. by rewrite !sapp_assoc. }
  assert (closed (λ _, true) pre) as Hpre
    by (apply closed_app; [by apply paren_closed|by apply closed_plain]).
  assert (closed (λ c, c =c? " ")%char mid) as Hmid.
  { apply closed_app; [by apply closed_plain|].
    apply closed_app; [by apply paren_closed|by apply closed_plain]. }
  assert (ranges_from rs 0 LOut ternary_text) as Hr.
  { intros j _. rewrite Nat.sub_0_r. by apply ranges_literal. }
  rewrite Htext in Hr. apply (ranges_from_app _ _ _ _ _ Hpre) in Hr.
  change (0 + slen pre) with (slen pre) in Hr.
  replace (S (slen (paren C) + 1)) with (slen pre) by (subst pre; rewrite slen_app; simpl; lia).
  rewrite Htext, sdrop_app. rewrite (closed_colon _ _ _ Hmid); [|by right|done].
  apply (ranges_from_app _ _ _ _ _ Hmid) in Hr. cbn [colon_go].
  change (":" +:+ (" " +:+ paren E)) with (String ":" (" " +:+ paren E)) in *. cbn [colon_go].
  rewrite (ranges_from_here _ _ _ _ _ Hr). simpl. do 2 f_equal.
  subst pre mid. rewrite !slen_app. simpl. lia.
Qed.

Lemma parse_ternary c t e :
  ParseExpression C = Ok c → ParseExpression T = Ok t → ParseExpression E = Ok e →
  tight C = true → tight T = true → tight E = true →
  ParseExpression ternary_text = Ok (ExprTernary c t e).
Proof using HC HT HE.
  intros Hc Ht He HtC HtT HtE.
  assert (tight ternary_text = true) as Htt.
  { unfold ternary_text. rewrite <- (sapp_assoc (paren T)), <- (sapp_assoc _ _ (paren E)).
    apply tight_app; apply paren_tight. }
  rewrite ParseExpression_eq. unfold parse_body.
  rewrite (proj2 (String.eqb_neq _ "")) by by apply tight_ne.
  rewrite (trim_tight _ Htt). change (isFunctionCall ternary_text) with false. cbv iota zeta.
  unfold tryParseTernary. rewrite ternary_question. cbn [mbind res_bind].
  rewrite ternary_colon. cbn [mbind res_bind].
  assert (stake (slen (paren C) + 1) ternary_text = paren C +:+ " ") as ->.
  { replace (slen (paren C) + 1) with (slen (paren C +:+ " ")) by by rewrite slen_app.
    replace ternary_text with ((paren C +:+ " ") +:+ ("? " +:+ paren T +:+ " : " +:+ paren E))
      by (unfold ternary_text; by rewrite !sapp_assoc). apply stake_app. }
  assert (ssub ternary_text (S (slen (paren C) + 1)) (slen (paren C) + 2 + slen (paren T) + 2)
          = " " +:+ paren T +:+ " ") as ->.
  { unfold ssub. replace (S (slen (paren C) + 1)) with (slen (paren C +:+ " ?"))
      by (rewrite slen_app; simpl; lia).
    replace ternary_text with ((paren C +:+ " ?") +:+ ((" " +:+ paren T +:+ " ") +:+ (": " +:+ paren E)))
      by (unfold ternary_text; by rewrite !sapp_assoc). rewrite sdrop_app.
    replace (_ - _) with (slen (" " +:+ paren T +:+ " ")) by (rewrite !slen_app; simpl; lia).
    apply stake_app. }
  assert (sdrop (S (slen (paren C) + 2 + slen (paren T) + 2)) ternary_text = " " +:+ paren E) as ->.
  { replace (S _) with (slen (paren C +:+ " ? " +:+ paren T +:+ " :"))
      by (rewrite !slen_app; simpl; lia).
    replace ternary_text with ((paren C +:+ " ? " +:+ paren T +:+ " :") +:+ (" " +:+ paren E))
      by (unfold ternary_text; by rewrite !sapp_assoc). apply sdrop_app. }
  rewrite (trim_tight_r (paren C)), (trim_tight_lr (paren T)), (trim_tight_l (paren E))
    by apply paren_tight.
  rewrite !(proj2 (String.eqb_neq _ "")) by apply tight_ne, paren_tight.
  by rewrite !parse_paren, Hc, Ht, He by done.
Qed.
End ternary.

(** ** Calls *)

Lemma sjoin_cons sep s l : l ≠ [] → sjoin sep (s :: l) = s +:+ sep +:+ sjoin sep l.
Proof. by destruct l. Qed.

Definition arg_ok (a : string) : Prop := closed not_comma a ∧ tight a = true.

Lemma sjoin_args_closed args : Forall arg_ok args → closed (λ _, true) (sjoin ", " args).
Proof.
  induction 1 as [|a args [Hc _] _ IH]; [apply closed_nil|].
  assert (closed (λ _, true) a) as Ha by by eapply closed_mono.
  destruct args as [|b args]; [done|]. rewrite sjoin_cons by done.
  apply closed_app; [done|]. apply closed_app; [by apply closed_plain|done].
Qed.
Lemma sjoin_args_tight args : args ≠ [] → Forall arg_ok args → tight (sjoin ", " args) = true.
Proof.
  intros Hne H. induction H as [|a args [_ Ha] _ IH]; [done|].
  destruct args as [|b args]; [done|]. rewrite sjoin_cons by done. apply tight_app; [done|by apply IH].
Qed.

(** The separator loop cuts a joined list back into its members. *)
Lemma args_go_join args : args ≠ [] → Forall arg_ok args → ∀ A pre ws acc,
  ws = "" ∨ ws = " " → A = pre +:+ ws +:+ sjoin ", " args →
  args_go A (sjoin ", " args) (slen pre + slen ws) (slen pre) 0 None acc = Ok (acc ++ args).
Proof.
  intros Hne H. induction H as [|a args [Hc Ht] Hargs IH]; [done|]. intros A pre ws acc Hws HA.
  assert (trim_space (ws +:+ a) = a) as Htrim.
  { destruct Hws as [-> | ->]; [by apply trim_tight|by apply trim_tight_l]. }
  destruct args as [|b args].
  - simpl in *. rewrite <- (sapp_nil_r a) at 1.
    rewrite (closed_args _ _ _ Hc) by by right. simpl. subst A. by rewrite sdrop_app, Htrim.
  - rewrite sjoin_cons in * by done. rewrite (closed_args _ _ _ Hc) by by right. simpl.
    assert (ssub A (slen pre) (slen pre + slen ws + slen a) = ws +:+ a) as ->.
    { unfold ssub. replace (_ - _) with (slen (ws +:+ a)) by (rewrite slen_app; lia).
      subst A. by rewrite sdrop_app, <- (sapp_assoc ws), stake_app. }
    rewrite Htrim.
    replace (acc ++ a :: b :: args) with ((acc ++ [a]) ++ b :: args) by by rewrite <- app_assoc.
    rewrite <- (IH ltac:(done) A (pre +:+ ws +:+ a +:+ ",") " " (acc ++ [a]));
      [|by right|by rewrite HA, !sapp_assoc].
    rewrite !slen_app. simpl. f_equal; lia.
Qed.

Lemma splitArgs_join args : args ≠ [] → Forall arg_ok args →
  splitArgsOutsideStrings (sjoin ", " args) = Ok args.
Proof.
  intros Hne H. unfold splitArgsOutsideStrings.
  by apply (args_go_join args Hne H _ "" "" []); [left|].
Qed.

Lemma parse_args_all (es : list Expression) args : ∀ i,
  Forall2 (λ a e, tight a = true ∧ ParseExpression a = Ok e) args es →
  parse_args ParseExpression i args = Ok es.
Proof.
  intros i H. revert i. induction H as [|a e args es [Ht He] _ IH]; intros i; simpl; [done|].
  rewrite (trim_tight a Ht), He. simpl. by rewrite IH.
Qed.

Section call.
Variables (name : string) (args : list string).
Hypothesis Hname : name_ok name = true.
Hypothesis Hargs : Forall arg_ok args.

Definition call_text : string := name +:+ paren (sjoin ", " args).

Lemma name_no_paren : sforall (λ b, negb (b =c? "(")%char) name = true.
Proof using Hname.
  unfold name_ok in Hname. apply andb_true_iff in Hname as [_ H].
  eapply sforall_impl; [|exact H]. intros c. by destruct c as [[] [] [] [] [] [] [] []].
Qed.

Lemma call_open : sindex "(" call_text = Some (slen name).
Proof using Hname. apply sindex_skip, name_no_paren. Qed.

Lemma call_tight : tight call_text = true.
Proof using Hname.
  unfold call_text. change (paren (sjoin ", " args)) with (("(" +:+ sjoin ", " args) +:+ ")").
  apply tight_app; [by apply names_tight|done].
Qed.

Lemma call_is_call : isFunctionCall call_text = true.
Proof using Hname Hargs.
  unfold isFunctionCall. rewrite call_open.
  pose proof (names_tight name Hname) as Ht. pose proof (tight_ne _ Ht) as Hne.
  destruct (slen name) as [|n] eqn:En; [by apply slen_0 in En|]. rewrite <- En. clear n En.
  replace (has_suffix ")" call_text) with true.
  2: { symmetry. apply has_suffix_spec. exists (name +:+ String "(" (sjoin ", " args)).
       by rewrite sapp_assoc. }
  unfold call_text. rewrite stake_app, sdrop_app, (trim_tight _ Ht). simpl negb. cbv iota.
  rewrite (proj2 (String.eqb_neq _ "") Hne).
  unfold name_ok in Hname. apply andb_true_iff in Hname as [_ ->]. simpl.
  rewrite (closed_call _ _ (sjoin_args_closed args Hargs)) by done. done.
Qed.

Lemma call_args_text : ssub call_text (S (slen name)) (slen call_text - 1) = sjoin ", " args.
Proof.
  unfold ssub. replace (S (slen name)) with (slen (name +:+ "(")) by (rewrite slen_app; simpl; lia).
  replace (slen call_text - 1 - slen (name +:+ "(")) with (slen (sjoin ", " args)).
  2: { unfold call_text. rewrite !slen_app, slen_paren. simpl. lia. }
  replace call_text with ((name +:+ "(") +:+ (sjoin ", " args +:+ ")"))
    by (unfold call_text, paren; by rewrite sapp_assoc).
  by rewrite sdrop_app, stake_app.
Qed.

Lemma parse_call es : Forall2 (λ a e, tight a = true ∧ ParseExpression a = Ok e) args es →
  ParseExpression call_text = Ok (ExprFunction name es).
Proof using Hname Hargs.
  intros Hes. rewrite ParseExpression_eq. unfold parse_body.
  rewrite (proj2 (String.eqb_neq _ "")) by apply tight_ne, call_tight.
  rewrite (trim_tight _ call_tight), call_is_call. cbv iota zeta. unfold parseFunction.
  rewrite call_open. cbv zeta. rewrite call_args_text.
  replace (stake (slen name) call_text) with name by (unfold call_text; by rewrite stake_app).
  rewrite (trim_tight _ (names_tight _ Hname)).
  destruct args as [|a l]; [by inversion Hes|].
  rewrite (trim_tight (sjoin ", " (a :: l))) by by apply sjoin_args_tight.
  rewrite (proj2 (String.eqb_neq _ "")) by by apply tight_ne, sjoin_args_tight.
  rewrite splitArgs_join by done. cbn [mbind res_bind]. by rewrite (parse_args_all es).
Qed.
End call.

(** ** The round trip *)

Lemma closed_any p s : closed p s → closed (λ _, true) s.
Proof. by apply closed_mono. Qed.
Lemma name_not_comma c : name_byte c = true → not_comma c = true.
Proof. by destruct c as [[] [] [] [] [] [] [] []]. Qed.
Lemma existsb_op op : existsb (String.eqb op) binary_ops = true → op ∈ binary_ops.
Proof.
  intros (o & Ho & Heq)%existsb_exists. apply String.eqb_eq in Heq as ->. by apply list_elem_of_In.
Qed.

Lemma show_arg_ok e : printable e = true → arg_ok (show e).
Proof.
  induction e as [x|v|l op r IHl IHr|op e IH|f args IH|c t e IHc IHt IHe] using expression_ind';
    simpl; rewrite ?andb_true_iff; intros Hp.
  - destruct Hp as [Hx _]. split; [|by apply names_tight].
    unfold name_ok in Hx. apply andb_true_iff in Hx as [_ Hx].
    eapply closed_mono, names_closed; [apply name_not_comma|done].
  - split; [|by apply show_constant_tight]. eapply closed_mono, show_constant_closed; [|done].
    intros c. by destruct c as [[] [] [] [] [] [] [] []].
  - destruct Hp as [[Hop%existsb_op Hl] Hr]. destruct (IHl Hl) as [Hcl _], (IHr Hr) as [Hcr _].
    split.
    + apply binary_closed; [by eapply closed_any|by eapply closed_any|done|].
      cbn in Hop. repeat (apply elem_of_cons in Hop as [->|Hop]; [done|]). by apply elem_of_nil in Hop.
    + fold (binary_text (show l) (show r) op). rewrite binary_text_eq.
      apply tight_app; apply paren_tight.
  - destruct Hp as [->%String.eqb_eq Hp]. destruct (IH Hp) as [Hc _]. split.
    + apply closed_byte; [done|done|]. apply paren_closed. by eapply closed_any.
    + by apply (tight_app "!" (String "(" (show e)) ")").
  - destruct Hp as [Hf Hp].
    assert (Forall arg_ok (map show args)) as Hargs.
    { rewrite forallb_forall in Hp. apply Forall_map. rewrite Forall_forall in *. intros a Ha. apply IH; [done|]. by apply Hp, list_elem_of_In. }
    split; [|by apply call_tight]. apply closed_app.
    + unfold name_ok in Hf. apply andb_true_iff in Hf as [_ Hf].
      eapply closed_mono, names_closed; [apply name_not_comma|done].
    + by apply paren_closed, sjoin_args_closed.
  - destruct Hp as [[Hc Ht] He].
    destruct (IHc Hc) as [Hcc _], (IHt Ht) as [Hct _], (IHe He) as [Hce _]. split.
    + apply ternary_closed; [by eapply closed_any..|done].
    + rewrite <- (sapp_assoc (paren (show t))), <- (sapp_assoc _ _ (paren (show e))).
      apply tight_app; apply paren_tight.
Qed.

Lemma parse_show e : printable e = true → ParseExpression (show e) = Ok e.
Proof.
  induction e as [x|v|l op r IHl IHr|op e IH|f args IH|c t e IHc IHt IHe] using expression_ind';
    simpl; rewrite ?andb_true_iff; intros Hp.
  - destruct Hp as [Hx Hn]. apply parse_variable; [done|]. by destruct (tryParseConstant x).
  - by apply parse_constant.
  - destruct Hp as [[Hop%existsb_op Hl] Hr].
    destruct (show_arg_ok l Hl) as [Hcl Htl], (show_arg_ok r Hr) as [Hcr Htr].
    apply parse_binary; [by eapply closed_any|by eapply closed_any|done..|by apply IHl|by apply IHr].
  - destruct Hp as [->%String.eqb_eq Hp]. destruct (show_arg_ok e Hp) as [Hc Ht].
    apply parse_unary; [by eapply closed_any|done|by apply IH].
  - destruct Hp as [Hf Hp]. rewrite forallb_forall in Hp. rewrite Forall_forall in IH.
    apply parse_call; [done| |].
    + apply Forall_map, Forall_forall. intros a Ha. by apply show_arg_ok, Hp, list_elem_of_In.
    + apply Forall2_fmap_l. apply Forall_Forall2_diag, Forall_forall. intros a Ha.
      assert (printable a = true) by by apply Hp, list_elem_of_In.
      split; [by apply show_arg_ok|by apply IH].
  - destruct Hp as [[Hc Ht] He].
    destruct (show_arg_ok c Hc) as [Hcc Htc], (show_arg_ok t Ht) as [Hct Htt],
      (show_arg_ok e He) as [Hce Hte].
    apply parse_ternary; eauto using closed_any.
Qed.

(** ** Simple filters *)

(** The filter [s] splits at byte [i] with operator [op]: the first operator of
    the documented order that occurs at all, at its first occurrence. *)
Definition chosen (s : string) (ops : list string) (op : string) (i : nat) : Prop :=
  ∃ l1 l2, ops = l1 ++ op :: l2
    ∧ (∀ op', op' ∈ l1 → ∀ k, split_point LOut 0 op' s k = false)
    ∧ split_point LOut 0 op s i = true
    ∧ (∀ k, split_point LOut 0 op s k = true → i ≤ k).

Lemma chosen_here s op ops i : split_point LOut 0 op s i = true →
  (∀ k, split_point LOut 0 op s k = true → i ≤ k) → chosen s (op :: ops) op i.
Proof. intros ? ?. exists [], ops. split_and!; try done. by intros op' ?%elem_of_nil. Qed.
Lemma chosen_later s op ops op' i : (∀ k, split_point LOut 0 op s k = false) →
  chosen s ops op' i → chosen s (op :: ops) op' i.
Proof.
  intros Hn (l1 & l2 & -> & Hl1 & H). exists (op :: l1), l2. split; [done|]. split; [|done].
  intros op'' [->|?]%elem_of_cons; [done|by apply Hl1].
Qed.

Definition field_text (s : string) (i : nat) : string := trim_space (stake i s).
Definition value_text (s op : string) (i : nat) : string := trim_space (sdrop (i + slen op) s).

Lemma parseValue_ok s : ∃ v, parseValue s = Ok v.
Proof. unfold parseValue. repeat case_match; eauto. Qed.

Lemma filter_ops_spec s ops : Forall (λ op, plain_op op = true) ops → unterminated s = false →
  match filter_ops s ops with
  | Ok f => ∃ op i, chosen s ops op i ∧ flt_Operator f = op
      ∧ flt_Field f = field_text s i ∧ field_text s i ≠ "" ∧ value_text s op i ≠ ""
      ∧ if value_text s op i =s? "null" then flt_IsNull f = true ∧ flt_Value f = VNil
        else flt_IsNull f = false ∧ parseValue (value_text s op i) = Ok (flt_Value f)
  | Err _ => (∀ op, op ∈ ops → ∀ k, split_point LOut 0 op s k = false)
      ∨ ∃ op i, chosen s ops op i ∧ (field_text s i = "" ∨ value_text s op i = "")
  end.
Proof.
  intros Hops Hu. induction Hops as [|op ops Hop Hops IH]; simpl.
  { left. by intros op ?%elem_of_nil. }
  pose proof (split_search s op leftmostFirst Hop) as H.
  destruct (idxValidSplitPoint s op leftmostFirst) as [[i|]|]; simpl; [| |congruence].
  - destruct H as (_ & Hi & Hmin). pose proof (chosen_here s op ops i Hi Hmin) as Hc.
    fold (field_text s i) (value_text s op i).
    destruct (eqs_spec (field_text s i) "") as [|Hf]; [right; eauto 10|].
    destruct (eqs_spec (value_text s op i) "") as [|Hv]; [right; eauto 10|].
    destruct (eqs_spec (value_text s op i) "null") as [Hnull|Hnull].
    + exists op, i. rewrite Hnull. by split_and!.
    + destruct (parseValue_ok (value_text s op i)) as [v Ev]. rewrite Ev. simpl.
      exists op, i. rewrite (proj2 (String.eqb_neq _ _) Hnull). by split_and!.
  - destruct H as [_ Hnone]. destruct (filter_ops s ops) as [f|].
    + destruct IH as (op' & i & Hc & Hrest). exists op', i. split; [by apply chosen_later|done].
    + destruct IH as [IH|(op' & i & Hc & Hrest)].
      * left. intros op' [->|?]%elem_of_cons; [done|by apply IH].
      * right. exists op', i. split; [by apply chosen_later|done].
Qed.

(** ** Properties *)

(** The parser terminates and its recursion is the one written. Every
    recursive call of [ParseExpression] is on a strictly shorter text, so the
    function satisfies its defining equation with no bound on the depth. *)
Theorem ParseExpression_unfold s : ParseExpression s = parse_body ParseExpression s.
Proof. apply ParseExpression_eq. Qed.

(** C15: print-parse round trip. For every expression made, to any depth, of
    names of letters, digits and underscores that do not read as constants,
    booleans, 64-bit integers, string literals without quotes, backslashes and
    parentheses, the twelve binary operators, negation, calls of such names and
    ternaries, the parser reads its fully parenthesised text back as exactly that
    expression. Floats are outside, and so are the literals that
    [literal_parenthesis_defeats_grouping] shows the parser to get wrong. *)
Theorem ParseExpression_show e : printable e = true → ParseExpression (show e) = Ok e.
Proof. apply parse_show. Qed.

Definition sample_expression : Expression :=
  ExprTernary
    (ExprBinary (ExprFunction "value_in" [ExprVariable "status"; ExprConstant (VString "a, b && c?")])
       "&&" (ExprUnary "!" (ExprVariable "closed")))
    (ExprBinary (ExprConstant (VInt KInt64 (-42))) ">=" (ExprBinary (ExprVariable "x") "-" (ExprVariable "y")))
    (ExprConstant (VBool true)).

Lemma ParseExpression_show_witness :
  show sample_expression
  = "((value_in(status, " +:+ quoted "a, b && c?" +:+ ")) && (!(closed))) ? ((-42) >= ((x) - (y))) : (true)"
  ∧ ParseExpression (show sample_expression) = Ok sample_expression.
Proof.
  split; [vm_compute; reflexivity|]. apply ParseExpression_show. vm_compute. reflexivity.
Defined.

(** Simple filters. The empty filter is the nil filter. Any other text is
    split at the first operator, in the order ==, !=, >=, <=, >, <, that
    occurs outside literals and parentheses, at its first occurrence; the
    trimmed sides become field and value, an unquoted null becoming a null
    test. It is an error exactly when a literal is unterminated, no operator
    occurs, or a side is blank. *)
Theorem ParseFilter_spec filterStr :
  let s := trim_space filterStr in
  match ParseFilter filterStr with
  | Ok None => filterStr = ""
  | Ok (Some f) => ∃ op i, chosen s filterOperators op i ∧ flt_Operator f = op
      ∧ flt_Field f = field_text s i ∧ field_text s i ≠ "" ∧ value_text s op i ≠ ""
      ∧ if value_text s op i =s? "null" then flt_IsNull f = true ∧ flt_Value f = VNil
        else flt_IsNull f = false ∧ parseValue (value_text s op i) = Ok (flt_Value f)
  | Err _ => unterminated s = true
      ∨ (∀ op, op ∈ filterOperators → ∀ k, split_point LOut 0 op s k = false)
      ∨ ∃ op i, chosen s filterOperators op i ∧ (field_text s i = "" ∨ value_text s op i = "")
  end.
Proof.
  intros s. unfold ParseFilter. destruct (eqs_spec filterStr "") as [|_]; [done|]. fold s.
  pose proof (ranges_ok s) as Hok. destruct (quotedStringRanges s) as [rs|]; simpl in Hok;
    cbn [mbind res_bind].
  - pose proof (filter_ops_spec s filterOperators ltac:(by repeat constructor)) as H.
    destruct (unterminated s); [done|]. specialize (H eq_refl).
    destruct (filter_ops s filterOperators); [exact H|right; exact H].
  - left. by destruct (unterminated s).
Qed.

(** ** Behaviour at odds with docs/dsl-reference.md *)

(** Operators of one level are not left-associative: the first operator of the
    level's list is split before the others. *)
Example mixed_additive_groups_right :
  ParseExpression "a + b - c"
  = Ok (ExprBinary (ExprVariable "a") "+" (ExprBinary (ExprVariable "b") "-" (ExprVariable "c"))).
Proof. vm_compute. reflexivity. Qed.
Example mixed_multiplicative_groups_right :
  ParseExpression "a * b / c"
  = Ok (ExprBinary (ExprVariable "a") "*" (ExprBinary (ExprVariable "b") "/" (ExprVariable "c"))).
Proof. vm_compute. reflexivity. Qed.

(** A float literal with a signed exponent is split at the sign. *)
Example signed_exponent_is_subtraction :
  ParseExpression "1e-5"
  = Ok (ExprBinary (ExprVariable "1e") "-" (ExprConstant (VInt KInt64 5))).
Proof. vm_compute. reflexivity. Qed.

(** An unquoted identifier that names a float is a constant. *)
Example identifier_inf_is_constant :
  ParseExpression "inf" = Ok (ExprConstant (VFloat (finf false))).
Proof. vm_compute. reflexivity. Qed.

(** The parenthesis test of the grouping rule reads through literals. *)
Example literal_parenthesis_defeats_grouping :
  ParseExpression "(')')" = Ok (ExprVariable "(')')").
Proof. vm_compute. reflexivity. Qed.

(** A malformed operand is not reported: the text becomes one variable. *)
Example malformed_operand_is_variable :
  ParseExpression "1 + f(1,,2)" = Ok (ExprVariable "1 + f(1,,2)").
Proof. vm_compute. reflexivity. Qed.
