(* ===== verification/DslEval.v ===== *)
(** * Validation DSL: evaluator (internal/validation/dsl/evaluator.go)

    [EvaluateExpression] and everything it dispatches to: arithmetic and
    comparison on dynamic values, the function library, and the reference
    table functions behind the [ReferenceLookup] interface. *)
From Stdlib Require Import Ascii ZArith Lia SpecFloat.
From stdpp Require Import base list strings.
From S2P Require Import Prelude GoStrings GoFloat GoStrconv GoValue DslTypes.

(** ** Numbers *)

Definition toFloat64 (v : value) : result f64 :=
  match v with
  | VFloat f => Ok f
  | VFloat32 f => Ok f
  | VInt _ z => Ok (f_of_Z z)
  | _ => errorf "cannot convert %T to float64" [AVal v]
  end.
Definition toFloat64Safe (v : value) : option f64 := to_option (toFloat64 v).

(** [None]: the value is not a Go [bool]. *)
Definition toBool (v : value) : option bool :=
  match v with VBool b => Some b | _ => None end.

Definition numeric_op (op : f64 → f64 → result value) (left right : value) : result value :=
  l ← wrapf "left operand is not numeric: %w" [] (toFloat64 left);
  r ← wrapf "right operand is not numeric: %w" [] (toFloat64 right);
  op l r.
Definition addValues : value → value → result value :=
  numeric_op (λ l r, Ok (VFloat (fadd l r))).
Definition subtractValues : value → value → result value :=
  numeric_op (λ l r, Ok (VFloat (fsub l r))).
Definition multiplyValues : value → value → result value :=
  numeric_op (λ l r, Ok (VFloat (fmul l r))).
Definition divideValues : value → value → result value :=
  numeric_op (λ l r,
    if feqb r fzero then errorf "division by zero" [] else Ok (VFloat (fdiv l r))).

Definition compareValues (left : value) (operator : string) (right : value) : result bool :=
  match toFloat64Safe left, toFloat64Safe right with
  | Some l, Some r =>
      if operator =s? "==" then Ok (feqb l r)
      else if operator =s? "!=" then Ok (negb (feqb l r))
      else if operator =s? ">" then Ok (fltb r l)
      else if operator =s? ">=" then Ok (fleb r l)
      else if operator =s? "<" then Ok (fltb l r)
      else if operator =s? "<=" then Ok (fleb l r)
      else errorf "unknown comparison operator: %s" [AStr operator]
  | _, _ =>
      if operator =s? "==" then Ok (deep_equal left right)
      else if operator =s? "!=" then Ok (negb (deep_equal left right))
      else errorf "operator %s not supported for non-numeric types" [AStr operator]
  end.

(** ** Records *)

Fixpoint nested_go (current : value) (parts : list string) : value :=
  match parts with
  | [] => current
  | part :: parts =>
      match current with
      | VMap m => nested_go (vget part m) parts
      | _ => VNil
      end
  end.
Definition getNestedField (record : vmap) (fieldPath : string) : value :=
  if negb (scontains "." fieldPath) then vget fieldPath record
  else nested_go (VMap record) (ssplit_byte "."%char fieldPath).

Definition EvaluateFilter (filter : option FilterExpression) (record : vmap) : result bool :=
  match filter with
  | None => Ok true
  | Some f =>
      let fieldValue := getNestedField record (flt_Field f) in
      if flt_IsNull f then
        let isNull := is_nil fieldValue in
        if flt_Operator f =s? "==" then Ok isNull
        else if flt_Operator f =s? "!=" then Ok (negb isNull)
        else errorf "invalid operator for null comparison: %s" [AStr (flt_Operator f)]
      else if is_nil fieldValue then Ok false
      else compareValues fieldValue (flt_Operator f) (flt_Value f)
  end.

(** ** Masking *)

Definition maskTailString (s : string) (keepN : Z) (maskChar : string) : string :=
  if s =s? "" then "" else
  let rs := runes s in
  let len := Z.of_nat (length rs) in
  if (len <=? keepN)%Z then s
  else let masked := Z.to_nat (len - keepN) in
       srepeat maskChar masked +:+ of_runes (drop masked rs).

Definition maskMiddleString (s : string) (headN tailN : Z) (maskChar : string) : string :=
  if s =s? "" then "" else
  let rs := runes s in
  let len := Z.of_nat (length rs) in
  if (len <=? headN)%Z || (len <=? tailN)%Z || (len - tailN <=? headN)%Z then s
  else of_runes (take (Z.to_nat headN) rs)
       +:+ srepeat maskChar (Z.to_nat (len - headN - tailN))
       +:+ of_runes (drop (Z.to_nat (len - tailN)) rs).

(** ** The reference-table interface

    What the evaluator asks of the run-scoped registry. *)
Record ReferenceLookup := {
  rl_Contains : string → string → result bool;
  rl_Lookup : string → string → result (string * bool);
}.

Record Evaluator := {
  ev_variables : vmap;
  ev_references : option ReferenceLookup;
}.

Definition NewEvaluator (variables : vmap) (references : option ReferenceLookup) : Evaluator := {|
  ev_variables :=
    mset "false" (VBool false) (mset "true" (VBool true)
      (mset "null" VNil (mcopy variables [])));
  ev_references := references;
|}.

(** The text of an expression in error messages. It writes no parentheses. *)
Fixpoint expressionString `{UC : UnicodeCase} (e : Expression) : string :=
  match e with
  | ExprVariable name => name
  | ExprConstant (VString s) => quote s
  | ExprConstant v => sprint v
  | ExprBinary l op r => expressionString l +:+ " " +:+ op +:+ " " +:+ expressionString r
  | ExprUnary op e => op +:+ expressionString e
  | ExprFunction name args =>
      name +:+ "(" +:+ sjoin ", " (map expressionString args) +:+ ")"
  | ExprTernary c t e =>
      expressionString c +:+ " ? " +:+ expressionString t +:+ " : " +:+ expressionString e
  end.

Section functions.
Context `{UC : UnicodeCase}.
Variable env : Evaluator.
(** The recursive calls of [EvaluateExpression]. *)
Variable eval : Expression → result value.

(** ** Argument helpers *)

(** The value of a string argument: [None] for nil. *)
Definition string_arg (funcName : string) (a : Expression) : result (option string) :=
  arg ← wrapf "failed to evaluate %s() argument: %w" [AStr funcName] (eval a);
  match arg with
  | VNil => Ok None
  | VString s => Ok (Some s)
  | _ => errorf "%s() argument must be a string, got %T" [AStr funcName; AVal arg]
  end.

(** [evaluateStringFunctionArg(funcCall, 1)] *)
Definition evaluateStringFunctionArg (funcName : string) (args : list Expression)
    : result (option string) :=
  match args with
  | [a] => string_arg funcName a
  | _ => errorf "%s() requires exactly %d argument, got %d"
           [AStr funcName; AInt 1; AInt (Z.of_nat (length args))]
  end.

Fixpoint list_members (funcName : string) (i : Z) (l : list string) : result unit :=
  match l with
  | [] => Ok tt
  | member :: l =>
      if member =s? "" then
        errorf "%s() list member %d is an empty string; empty members are not allowed (an empty prefix would match everything)"
          [AStr funcName; AInt i]
      else list_members funcName (i + 1) l
  end.
Definition evaluateStringListArg (funcName : string) (index : Z) (a : Expression)
    : result (list string) :=
  arg ← wrapf "failed to evaluate %s() argument %d: %w" [AStr funcName; AInt (index + 1)] (eval a);
  match arg with
  | VStrings l => _ ← list_members funcName 0 l; Ok l
  | _ => errorf "%s() argument %d must be a list of strings, got %T"
           [AStr funcName; AInt (index + 1); AVal arg]
  end.

Definition evaluateNonNegativeIntArg (a : Expression) (funcName argName : string) : result Z :=
  arg ← wrapf "failed to evaluate %s() %s argument: %w" [AStr funcName; AStr argName] (eval a);
  n ← wrapf "%s() %s must be numeric: %w" [AStr funcName; AStr argName] (toFloat64 arg);
  if is_nan n || is_inf n then
    errorf "%s() %s must be a finite number, got %v" [AStr funcName; AStr argName; AFloat n]
  else if fltb n fzero then
    errorf "%s() %s must be non-negative, got %v" [AStr funcName; AStr argName; AFloat n]
  else if negb (feqb (ftrunc n) n) then
    errorf "%s() %s must be an integer-valued number, got %v" [AStr funcName; AStr argName; AFloat n]
  else if fleb (f_of_Z (2 ^ 63 - 1)) n then
    errorf "%s() %s value %v exceeds maximum representable int"
      [AStr funcName; AStr argName; AFloat n]
  else Ok (f_to_Z n).

(** The mask character, from the arguments that follow the counts. *)
Definition evaluateOptionalSingleRuneArg (rest : list Expression) (funcName defaultChar : string)
    : result string :=
  match rest with
  | [] => Ok defaultChar
  | a :: _ =>
      arg ← wrapf "failed to evaluate %s() mask_char: %w" [AStr funcName] (eval a);
      match arg with
      | VNil => errorf "%s() mask_char must not be nil" [AStr funcName]
      | VString maskChar =>
          if (rune_count maskChar =? 1)%nat then Ok maskChar
          else errorf "%s() mask_char must be a single-rune string, got %q"
                 [AStr funcName; AStr maskChar]
      | _ => errorf "%s() mask_char must be a single-rune string, got %T"
               [AStr funcName; AVal arg]
      end
  end.

Definition referenceTableNameArg (funcName : string) (a : Expression) : result string :=
  match a with
  | ExprConstant (VString name) => Ok name
  | ExprConstant v =>
      errorf "%s() table name (argument %d) must be a string literal, got %T"
        [AStr funcName; AInt 1; AVal v]
  | _ =>
      errorf "%s() table name (argument %d) must be a string literal, not a variable or expression"
        [AStr funcName; AInt 1]
  end.

Definition referenceFieldArg (funcName : string) (a : Expression) : result (option string) :=
  arg ← wrapf "failed to evaluate %s() argument %d: %w" [AStr funcName; AInt 2] (eval a);
  match arg with
  | VNil => Ok None
  | VString s => Ok (Some s)
  | _ => errorf "%s() argument %d must be a string, got %T" [AStr funcName; AInt 2; AVal arg]
  end.

(** ** Numeric functions *)

Definition call_abs (args : list Expression) : result value :=
  match args with
  | [a] =>
      arg ← wrapf "failed to evaluate abs() argument: %w" [] (eval a);
      f ← wrapf "abs() argument must be numeric: %w" [] (toFloat64 arg);
      Ok (VFloat (fabs f))
  | _ => errorf "abs() requires exactly 1 argument, got %d" [AInt (Z.of_nat (length args))]
  end.

Definition round_places (v places : f64) : value :=
  let precision := fround places in
  let precision := if fltb precision fzero then fzero else precision in
  let factor := pow10 precision in
  VFloat (fdiv (fround (fmul v factor)) factor).

Definition round_first (a : Expression) : result f64 :=
  valueArg ← wrapf "failed to evaluate round() first argument: %w" [] (eval a);
  wrapf "round() first argument must be numeric: %w" [] (toFloat64 valueArg).

Definition call_round (args : list Expression) : result value :=
  match args with
  | [a] => v ← round_first a; Ok (round_places v fzero)
  | [a; b] =>
      v ← round_first a;
      placesArg ← wrapf "failed to evaluate round() second argument: %w" [] (eval b);
      places ← wrapf "round() second argument must be numeric: %w" [] (toFloat64 placesArg);
      Ok (round_places v places)
  | _ => errorf "round() requires 1 or 2 arguments, got %d" [AInt (Z.of_nat (length args))]
  end.

Fixpoint numeric_args (name : string) (i : Z) (args : list Expression) : result (list f64) :=
  match args with
  | [] => Ok []
  | a :: args =>
      val ← wrapf "failed to evaluate %s() argument %d: %w" [AStr name; AInt i] (eval a);
      numeric ← wrapf "%s() argument %d must be numeric: %w" [AStr name; AInt i] (toFloat64 val);
      rest ← numeric_args name (i + 1) args;
      Ok (numeric :: rest)
  end.

Definition fold_min (result v : f64) : f64 := if fltb v result then v else result.
Definition fold_max (result v : f64) : f64 := if fltb result v then v else result.

Definition call_minmax (name : string) (args : list Expression) : result value :=
  match args with
  | [] => errorf "%s() requires at least one argument" [AStr name]
  | _ =>
      values ← numeric_args name 1 args;
      match values with
      | [] => Ok VNil (* not reached: one value per argument *)
      | v :: vs => Ok (VFloat (foldl (if to_lower name =s? "min" then fold_min else fold_max) v vs))
      end
  end.

Definition call_variable (name : string) (default : value) (args : list Expression) : result value :=
  match args with
  | [] => Ok (match mget name (ev_variables env) with Some v => v | None => default end)
  | _ => errorf "%s() with arguments not supported in expression context" [AStr name]
  end.

(** ** String functions *)

Definition string_fun (funcName : string) (f : string → value) (args : list Expression)
    : result value :=
  arg ← evaluateStringFunctionArg funcName args;
  Ok (match arg with Some s => f s | None => VNil end).

Definition call_mask_tail (funcName : string) (args : list Expression) : result value :=
  match args with
  | a :: b :: rest =>
      if (1 <? length rest)%nat then
        errorf "mask_tail() requires 2 or 3 arguments, got %d" [AInt (Z.of_nat (length args))]
      else
      arg ← string_arg funcName a;
      match arg with
      | None => Ok VNil
      | Some s =>
          keepN ← evaluateNonNegativeIntArg b "mask_tail" "keep_n";
          maskChar ← evaluateOptionalSingleRuneArg rest "mask_tail" "X";
          Ok (VString (maskTailString s keepN maskChar))
      end
  | _ => errorf "mask_tail() requires 2 or 3 arguments, got %d" [AInt (Z.of_nat (length args))]
  end.

Definition call_mask_middle (funcName : string) (args : list Expression) : result value :=
  match args with
  | a :: b :: c :: rest =>
      if (1 <? length rest)%nat then
        errorf "mask_middle() requires 3 or 4 arguments, got %d" [AInt (Z.of_nat (length args))]
      else
      arg ← string_arg funcName a;
      match arg with
      | None => Ok VNil
      | Some s =>
          headN ← evaluateNonNegativeIntArg b "mask_middle" "head_n";
          tailN ← evaluateNonNegativeIntArg c "mask_middle" "tail_n";
          maskChar ← evaluateOptionalSingleRuneArg rest "mask_middle" "X";
          Ok (VString (maskMiddleString s headN tailN maskChar))
      end
  | _ => errorf "mask_middle() requires 3 or 4 arguments, got %d" [AInt (Z.of_nat (length args))]
  end.

Definition call_string_length (funcName : string) (args : list Expression) : result value :=
  arg ← evaluateStringFunctionArg funcName args;
  Ok (VInt KInt (match arg with Some s => Z.of_nat (rune_count s) | None => 0%Z end)).

(** [starts_with_any] and [value_in]: the test of one list member. *)
Definition call_any (funcName : string) (test : string → string → bool) (args : list Expression)
    : result value :=
  match args with
  | [a; b] =>
      v ← string_arg funcName a;
      l ← evaluateStringListArg funcName 1 b;
      Ok (VBool (match v with
                 | None => false
                 | Some v => existsb (λ member, test v member) l
                 end))
  | _ => errorf "%s() requires exactly 2 arguments, got %d"
           [AStr funcName; AInt (Z.of_nat (length args))]
  end.

(** ** Reference tables *)

Definition call_in_reference (funcName : string) (args : list Expression) : result value :=
  match args with
  | [t; f] =>
      table ← referenceTableNameArg funcName t;
      fieldVal ← referenceFieldArg funcName f;
      match ev_references env with
      | None => errorf "in_reference(%q): reference tables are not available in this evaluation context"
                  [AStr table]
      | Some refs =>
          match fieldVal with
          | None | Some "" => Ok (VBool false)
          | Some key => VBool <$> rl_Contains refs table key
          end
      end
  | _ => errorf "in_reference() requires exactly 2 arguments (table, field), got %d"
           [AInt (Z.of_nat (length args))]
  end.

Definition call_lookup_reference (funcName : string) (args : list Expression) : result value :=
  match args with
  | [t; f; d] =>
      table ← referenceTableNameArg funcName t;
      fieldVal ← referenceFieldArg funcName f;
      def ← eval d;
      match def with
      | VNil | VString _ =>
          match ev_references env with
          | None =>
              errorf "lookup_reference(%q): reference tables are not available in this evaluation context"
                [AStr table]
          | Some refs =>
              match fieldVal with
              | None | Some "" => Ok def
              | Some key =>
                  vf ← rl_Lookup refs table key;
                  Ok (if (vf.2 : bool) then VString vf.1 else def)
              end
          end
      | _ => errorf "lookup_reference() default must be a string or null, got %T" [AVal def]
      end
  | _ => errorf "lookup_reference() requires exactly 3 arguments (table, field, default), got %d"
           [AInt (Z.of_nat (length args))]
  end.

(** ** Dispatch *)

Definition evaluateFunctionCall (name : string) (args : list Expression) : result value :=
  let fn := to_lower name in
  if fn =s? "abs" then call_abs args
  else if fn =s? "round" then call_round args
  else if (fn =s? "min") || (fn =s? "max") then call_minmax name args
  else if fn =s? "count" then call_variable "count" (VInt KInt 0) args
  else if fn =s? "sum" then call_variable "sum" (VFloat fzero) args
  else if fn =s? "lower" then string_fun fn (λ s, VString (to_lower s)) args
  else if fn =s? "upper" then string_fun fn (λ s, VString (to_upper s)) args
  else if fn =s? "normalize_space" then string_fun fn (λ s, VString (sjoin " " (fields s))) args
  else if fn =s? "mask_tail" then call_mask_tail fn args
  else if fn =s? "mask_middle" then call_mask_middle fn args
  else if fn =s? "string_length" then call_string_length fn args
  else if fn =s? "starts_with_any" then call_any fn (λ v member, has_prefix member v) args
  else if fn =s? "value_in" then call_any fn (λ v member, v =s? member) args
  else if fn =s? "in_reference" then call_in_reference fn args
  else if fn =s? "lookup_reference" then call_lookup_reference fn args
  else errorf "unknown function: %s" [AStr name].

Definition evaluateBinary (op : string) (left right : value) : result value :=
  if op =s? "+" then addValues left right
  else if op =s? "-" then subtractValues left right
  else if op =s? "*" then multiplyValues left right
  else if op =s? "/" then divideValues left right
  else if existsb (String.eqb op) ["=="; "!="; ">"; ">="; "<"; "<="] then
    VBool <$> compareValues left op right
  else if (op =s? "&&") || (op =s? "||") then
    match toBool left with
    | None => errorf "left operand is not boolean: %v" [AVal left]
    | Some l =>
        match toBool right with
        | None => errorf "right operand is not boolean: %v" [AVal right]
        | Some r => Ok (VBool (if op =s? "&&" then l && r else l || r))
        end
    end
  else errorf "unknown binary operator: %s" [AStr op].

Definition evaluateUnary (op : string) (operand : value) : result value :=
  if op =s? "!" then
    match toBool operand with
    | None => errorf "operand is not boolean: %v" [AVal operand]
    | Some b => Ok (VBool (negb b))
    end
  else errorf "unknown unary operator: %s" [AStr op].
End functions.

Section evaluate.
Context `{UC : UnicodeCase}.

Fixpoint EvaluateExpression (env : Evaluator) (e : Expression) {struct e} : result value :=
  match e with
  | ExprVariable name =>
      match mget name (ev_variables env) with
      | Some v => Ok v
      | None => errorf "undefined variable: %s" [AStr name]
      end
  | ExprConstant v => Ok v
  | ExprBinary l op r =>
      left ← wrapf "failed to evaluate left operand: %w" [] (EvaluateExpression env l);
      right ← wrapf "failed to evaluate right operand: %w" [] (EvaluateExpression env r);
      evaluateBinary op left right
  | ExprUnary op e =>
      operand ← wrapf "failed to evaluate unary operand: %w" [] (EvaluateExpression env e);
      evaluateUnary op operand
  | ExprFunction name args => evaluateFunctionCall env (EvaluateExpression env) name args
  | ExprTernary c t e =>
      cond ← wrapf "failed to evaluate ternary condition: %w" [] (EvaluateExpression env c);
      match toBool cond with
      | None => errorf "ternary condition must be boolean, got %T (expression: %s)"
                  [AVal cond; AStr (expressionString c)]
      | Some true => EvaluateExpression env t
      | Some false => EvaluateExpression env e
      end
  end.
End evaluate.
