(* ===== verification/DslEvalSpec.v ===== *)
(** * Validation DSL: what the evaluator computes

    Evaluation depends only on the variables an expression mentions; a typed
    expression evaluates to a value of its type unless a division by zero is
    met; the numeric functions and the masks have their mathematical meaning. *)
From Stdlib Require Import Ascii ZArith Lia SpecFloat.
From stdpp Require Import base sets list strings.
From S2P Require Import Prelude GoStrings GoFloat GoStrconv GoUtf8 GoValue DslTypes DslEval.

Section eval.
Context `{UC : UnicodeCase}.

(** ** Definitions of the specification *)

(** The variables the call of a function reads by itself. *)
Definition call_variables (name : string) : list string :=
  if to_lower name =s? "count" then ["count"]
  else if to_lower name =s? "sum" then ["sum"] else [].

(** The variables an expression mentions. *)
Fixpoint free_variables (e : Expression) : list string :=
  match e with
  | ExprVariable x => [x]
  | ExprConstant _ => []
  | ExprBinary l _ r => free_variables l ++ free_variables r
  | ExprUnary _ e => free_variables e
  | ExprFunction name args => call_variables name ++ concat (map free_variables args)
  | ExprTernary c t e => free_variables c ++ free_variables t ++ free_variables e
  end.

Definition is_reference_call (name : string) : bool :=
  (to_lower name =s? "in_reference") || (to_lower name =s? "lookup_reference").

(** *** Types *)

(** [TStr] holds strings and null, [TList] lists of non-empty strings. *)
Inductive ty := TNum | TBool | TStr | TList.

Definition has_type (v : value) (t : ty) : Prop :=
  match t, v with
  | TNum, (VInt _ _ | VFloat _ | VFloat32 _) => True
  | TBool, VBool _ => True
  | TStr, (VString _ | VNil) => True
  | TList, VStrings l => Forall (λ s, s ≠ "") l
  | _, _ => False
  end.

(** A literal count the mask functions accept, and a literal mask character. *)
Definition count_literal (e : Expression) : Prop :=
  ∃ k z, e = ExprConstant (VInt k z) ∧ (0 <= z < 4096)%Z.
Definition mask_literal (rest : list Expression) : Prop :=
  rest = [] ∨ ∃ c, rest = [ExprConstant (VString c)] ∧ rune_count c = 1.

Definition arithmetic_op (op : string) : bool := existsb (String.eqb op) ["+"; "-"; "*"; "/"].
Definition order_op (op : string) : bool := existsb (String.eqb op) [">"; ">="; "<"; "<="].
Definition equality_op (op : string) : bool := existsb (String.eqb op) ["=="; "!="].
Definition logical_op (op : string) : bool := existsb (String.eqb op) ["&&"; "||"].

(** The typing rules of the function library. *)
Inductive typed (Γ : string → option ty) : Expression → ty → Prop :=
| T_var x t : Γ x = Some t → typed Γ (ExprVariable x) t
| T_const v t : has_type v t → typed Γ (ExprConstant v) t
| T_arith op l r : arithmetic_op op = true → typed Γ l TNum → typed Γ r TNum →
    typed Γ (ExprBinary l op r) TNum
| T_order op l r : order_op op = true → typed Γ l TNum → typed Γ r TNum →
    typed Γ (ExprBinary l op r) TBool
| T_equal op l r t t' : equality_op op = true → typed Γ l t → typed Γ r t' →
    typed Γ (ExprBinary l op r) TBool
| T_logic op l r : logical_op op = true → typed Γ l TBool → typed Γ r TBool →
    typed Γ (ExprBinary l op r) TBool
| T_not e : typed Γ e TBool → typed Γ (ExprUnary "!" e) TBool
| T_ternary c t e ty : typed Γ c TBool → typed Γ t ty → typed Γ e ty →
    typed Γ (ExprTernary c t e) ty
| T_abs f a : to_lower f = "abs" → typed Γ a TNum → typed Γ (ExprFunction f [a]) TNum
| T_round1 f a : to_lower f = "round" → typed Γ a TNum → typed Γ (ExprFunction f [a]) TNum
| T_round2 f a b : to_lower f = "round" → typed Γ a TNum → typed Γ b TNum →
    typed Γ (ExprFunction f [a; b]) TNum
| T_minmax f a args : to_lower f = "min" ∨ to_lower f = "max" →
    typed Γ a TNum → Forall (λ e, typed Γ e TNum) args → typed Γ (ExprFunction f (a :: args)) TNum
| T_count f : to_lower f = "count" → Γ "count" = Some TNum → typed Γ (ExprFunction f []) TNum
| T_sum f : to_lower f = "sum" → Γ "sum" = Some TNum → typed Γ (ExprFunction f []) TNum
| T_string f a : to_lower f = "lower" ∨ to_lower f = "upper" ∨ to_lower f = "normalize_space" →
    typed Γ a TStr → typed Γ (ExprFunction f [a]) TStr
| T_length f a : to_lower f = "string_length" → typed Γ a TStr → typed Γ (ExprFunction f [a]) TNum
| T_any f a b : to_lower f = "starts_with_any" ∨ to_lower f = "value_in" →
    typed Γ a TStr → typed Γ b TList → typed Γ (ExprFunction f [a; b]) TBool
| T_mask_tail f a n rest : to_lower f = "mask_tail" → typed Γ a TStr →
    count_literal n → mask_literal rest → typed Γ (ExprFunction f (a :: n :: rest)) TStr
| T_mask_middle f a n m rest : to_lower f = "mask_middle" → typed Γ a TStr →
    count_literal n → count_literal m → mask_literal rest →
    typed Γ (ExprFunction f (a :: n :: m :: rest)) TStr.

(** The variables hold values of their types. *)
Definition env_typed (Γ : string → option ty) (env : Evaluator) : Prop :=
  ∀ x t, Γ x = Some t → ∃ v, mget x (ev_variables env) = Some v ∧ has_type v t.

(** A division by zero, possibly wrapped. *)
Inductive divides_by_zero : gerror → Prop :=
| div_here : divides_by_zero (Errorf "division by zero" [])
| div_wrapped format args e :
    AErr e ∈ args → divides_by_zero e → divides_by_zero (Errorf format args).

Definition type_safe (r : result value) (t : ty) : Prop :=
  match r with Ok v => has_type v t | Err e => divides_by_zero e end.

(** ** Evaluation is extensional *)
Section call_ext.
Variables env env' : Evaluator.
Variables eval eval' : Expression → result value.

Lemma numeric_args_ext name args : Forall (λ a, eval a = eval' a) args →
  ∀ i, numeric_args eval name i args = numeric_args eval' name i args.
Proof.
  induction 1 as [|a args Ha _ IH]; intros i; simpl; [done|].
  rewrite Ha. destruct (eval' a); simpl; [|done]. destruct (toFloat64 _); simpl; [|done].
  by rewrite IH.
Qed.

Ltac ext_args H :=
  repeat match type of H with
  | Forall _ (_ :: _) => let Ha := fresh "Ha" in apply Forall_cons in H as [Ha H]; try rewrite Ha
  end; try done.

(** A call is determined by the values of its arguments and the variables it
    reads, the two reference functions apart. *)
Lemma evaluateFunctionCall_ext name args :
  Forall (λ a, eval a = eval' a) args →
  (∀ x, x ∈ call_variables name → mget x (ev_variables env) = mget x (ev_variables env')) →
  is_reference_call name = false ∨ ev_references env = ev_references env' →
  evaluateFunctionCall env eval name args = evaluateFunctionCall env' eval' name args.
Proof.
  intros H Hvars Href. unfold evaluateFunctionCall. unfold call_variables in Hvars.
  unfold is_reference_call in Href.
  destruct (to_lower name =s? "in_reference") eqn:E1;
    [|destruct (to_lower name =s? "lookup_reference") eqn:E2].
  1, 2: destruct Href as [Href|Href]; [done|].
  1: apply String.eqb_eq in E1 as ->. 2: apply String.eqb_eq in E2 as ->. 1, 2: simpl.
  - unfold call_in_reference, referenceFieldArg. rewrite Href.
    destruct args as [|a [|b [|c rest]]]; try done. ext_args H.
  - unfold call_lookup_reference, referenceFieldArg. rewrite Href.
    destruct args as [|a [|b [|c [|d rest]]]]; try done. ext_args H.
  - repeat match goal with |- (if ?b then _ else _) = _ => destruct b end; try done.
    all: unfold call_abs, call_round, call_minmax, call_variable, string_fun, call_mask_tail,
           call_mask_middle, call_string_length, call_any, evaluateStringFunctionArg, round_first,
           string_arg, evaluateStringListArg, evaluateNonNegativeIntArg,
           evaluateOptionalSingleRuneArg.
    3: { destruct args as [|a args]; [done|]. by rewrite (numeric_args_ext _ _ H). }
    all: try (rewrite Hvars; [done|set_solver]).
    all: destruct args as [|a [|b [|c rest]]]; try done; ext_args H; try done.
    all: try (destruct rest as [|d rest]; ext_args H; done).
Qed.
End call_ext.

Lemma eval_free_variables vars vars' refs e :
  (∀ x, x ∈ free_variables e → mget x vars = mget x vars') →
  EvaluateExpression {| ev_variables := vars; ev_references := refs |} e
  = EvaluateExpression {| ev_variables := vars'; ev_references := refs |} e.
Proof.
  induction e as [x|v|l op r IHl IHr|op e IH|f args IH|c t e IHc IHt IHe] using expression_ind';
    simpl; intros Hx.
  - rewrite Hx by set_solver. reflexivity.
  - reflexivity.
  - rewrite IHl, IHr by set_solver. reflexivity.
  - rewrite IH by set_solver. reflexivity.
  - apply evaluateFunctionCall_ext; [|set_solver|by right].
    rewrite Forall_forall in *. intros a Ha. apply IH; [done|]. intros x Hxa. apply Hx.
    apply elem_of_app. right. apply list_elem_of_In, in_concat.
    exists (free_variables a). split; [by apply in_map, list_elem_of_In|by apply list_elem_of_In].
  - rewrite IHc, IHt, IHe by set_solver. reflexivity.
Qed.

(** ** Type soundness *)

Lemma safe_wrap fmt args (m : result value) (k : value → result value) t t' :
  type_safe m t → (∀ v, has_type v t → type_safe (k v) t') →
  type_safe (v ← wrapf fmt args m; k v) t'.
Proof.
  unfold wrapf. destruct m as [v|e]; simpl; [auto|]. intros He _.
  eapply div_wrapped; [|exact He]. set_solver.
Qed.

Lemma num_float v : has_type v TNum → ∃ x, toFloat64 v = Ok x.
Proof. destruct v; simpl; try done; eauto. Qed.
Lemma bool_bool v : has_type v TBool → ∃ b, toBool v = Some b.
Proof. destruct v; simpl; try done; eauto. Qed.

Lemma arithmetic_safe op l r : arithmetic_op op = true → has_type l TNum → has_type r TNum →
  type_safe (evaluateBinary op l r) TNum.
Proof.
  intros Hop [x Hx]%num_float [y Hy]%num_float. unfold arithmetic_op in Hop.
  apply existsb_exists in Hop as (o & Ho & ->%String.eqb_eq).
  repeat (destruct Ho as [<-|Ho]; [|]); try done; unfold evaluateBinary; simpl;
    unfold addValues, subtractValues, multiplyValues, divideValues, numeric_op;
    rewrite Hx, Hy; simpl; try done.
  destruct (feqb y fzero); simpl; [constructor|done].
Qed.

Lemma order_safe op l r : order_op op = true → has_type l TNum → has_type r TNum →
  type_safe (evaluateBinary op l r) TBool.
Proof.
  intros Hop [x Hx]%num_float [y Hy]%num_float. unfold order_op in Hop.
  apply existsb_exists in Hop as (o & Ho & ->%String.eqb_eq).
  repeat (destruct Ho as [<-|Ho]; [|]); try done; unfold evaluateBinary; simpl;
    unfold compareValues, toFloat64Safe; rewrite Hx, Hy; done.
Qed.

Lemma equality_safe op l r : equality_op op = true → type_safe (evaluateBinary op l r) TBool.
Proof.
  intros Hop. unfold equality_op in Hop.
  apply existsb_exists in Hop as (o & Ho & ->%String.eqb_eq).
  repeat (destruct Ho as [<-|Ho]; [|]); try done; unfold evaluateBinary; simpl;
    unfold compareValues; destruct (toFloat64Safe l), (toFloat64Safe r); done.
Qed.

Lemma logical_safe op l r : logical_op op = true → has_type l TBool → has_type r TBool →
  type_safe (evaluateBinary op l r) TBool.
Proof.
  intros Hop [x Hx]%bool_bool [y Hy]%bool_bool. unfold logical_op in Hop.
  apply existsb_exists in Hop as (o & Ho & ->%String.eqb_eq).
  repeat (destruct Ho as [<-|Ho]; [|]); try done; unfold evaluateBinary; simpl; rewrite Hx, Hy; done.
Qed.

Section safe_calls.
Variable env : Evaluator.
Variable eval : Expression → result value.

Definition safe_arg (t : ty) (a : Expression) : Prop := type_safe (eval a) t.

Lemma safe_string_arg f a (k : option string → result value) t :
  safe_arg TStr a → (∀ o, type_safe (k o) t) → type_safe (o ← string_arg eval f a; k o) t.
Proof.
  unfold safe_arg, string_arg. intros Ha Hk. rewrite res_bind_assoc.
  eapply safe_wrap; [exact Ha|]. intros v Hv. destruct v; try done; apply Hk.
Qed.

Lemma safe_list_arg f i a (k : list string → result value) t :
  safe_arg TList a → (∀ l, type_safe (k l) t) → type_safe (l ← evaluateStringListArg eval f i a; k l) t.
Proof.
  unfold safe_arg, evaluateStringListArg. intros Ha Hk. rewrite res_bind_assoc.
  eapply safe_wrap; [exact Ha|]. intros v Hv. destruct v as [| | | | | |l| | | |]; try done.
  assert (∀ j, list_members f j l = Ok tt) as ->; [|apply Hk].
  simpl in Hv. induction Hv as [|s l Hs _ IH]; intros j; simpl; [done|].
  by rewrite (proj2 (String.eqb_neq s "") Hs).
Qed.

Lemma safe_numeric_args name args : Forall (safe_arg TNum) args → ∀ i,
  match numeric_args eval name i args with
  | Ok l => length l = length args
  | Err e => divides_by_zero e
  end.
Proof.
  induction 1 as [|a args Ha _ IH]; intros i; simpl; [done|].
  unfold safe_arg in Ha. destruct (eval a) as [v|e]; simpl in *.
  - destruct (num_float v Ha) as [x ->]. simpl. specialize (IH (i + 1)%Z).
    destruct (numeric_args eval name (i + 1) args); simpl; [by rewrite IH|done].
  - eapply div_wrapped; [|exact Ha]. set_solver.
Qed.

Lemma safe_numeric fmt args fmt' args' a (k : f64 → result value) t :
  safe_arg TNum a → (∀ x, type_safe (k x) t) →
  type_safe (v ← wrapf fmt args (eval a); x ← wrapf fmt' args' (toFloat64 v); k x) t.
Proof.
  intros Ha Hk. eapply safe_wrap; [exact Ha|]. intros v [x ->]%num_float. apply Hk.
Qed.

(** Literal counts pass the checks of [evaluateNonNegativeIntArg]. *)
Definition count_passes (z : Z) : bool :=
  let n := f_of_Z z in
  negb (is_nan n) && negb (is_inf n) && negb (fltb n fzero) && feqb (ftrunc n) n
  && negb (fleb (f_of_Z (2 ^ 63 - 1)) n) && (f_to_Z n =? z)%Z.

Lemma count_bounds z : (0 <= z < 4096)%Z → count_passes z = true.
Proof.
  intros Hz. assert (forallb (λ n, count_passes (Z.of_nat n)) (seq 0 4096) = true) as H
    by (vm_compute; reflexivity).
  rewrite forallb_forall in H. rewrite <- (Z2Nat.id z) by lia. apply H, in_seq. lia.
Qed.

Lemma safe_count a f nm (k : Z → result value) t :
  (∀ v, eval (ExprConstant v) = Ok v) → count_literal a → (∀ n, type_safe (k n) t) →
  type_safe (n ← evaluateNonNegativeIntArg eval a f nm; k n) t.
Proof.
  intros Hconst (kd & z & -> & Hz) Hk. unfold evaluateNonNegativeIntArg. rewrite Hconst.
  pose proof (count_bounds z Hz) as Hc. unfold count_passes in Hc.
  unfold wrapf. cbn [map_err mbind res_bind toFloat64].
  rewrite !andb_true_iff, !negb_true_iff in Hc. destruct Hc as [[[[[-> ->] ->] ->] ->] _].
  apply Hk.
Qed.

Lemma safe_mask_char rest f d (k : string → result value) t :
  (∀ v, eval (ExprConstant v) = Ok v) → mask_literal rest → (∀ c, type_safe (k c) t) →
  type_safe (c ← evaluateOptionalSingleRuneArg eval rest f d; k c) t.
Proof.
  intros Hconst [->|(c & -> & Hc)] Hk; simpl; [apply Hk|]. rewrite Hconst. simpl. rewrite Hc. apply Hk.
Qed.

Lemma mask_literal_length rest : mask_literal rest → (1 <? length rest)%nat = false.
Proof. by intros [->|(c & -> & _)]. Qed.

Lemma safe_minmax f a l : Forall (safe_arg TNum) (a :: l) →
  type_safe (call_minmax eval f (a :: l)) TNum.
Proof.
  intros Hall. unfold call_minmax. pose proof (safe_numeric_args f (a :: l) Hall 1) as Hn.
  destruct (numeric_args eval f 1 (a :: l)) as [[|x xs]|e]; [discriminate Hn|exact I|exact Hn].
Qed.

(** One call on safe arguments is safe. *)
Lemma safe_call Γ f args t :
  (∀ v, eval (ExprConstant v) = Ok v) → env_typed Γ env →
  Forall (λ a, ∀ t, typed Γ a t → safe_arg t a) args →
  typed Γ (ExprFunction f args) t → type_safe (evaluateFunctionCall env eval f args) t.
Proof.
  intros Hconst Henv Hargs Ht. unfold evaluateFunctionCall.
  inversion Ht as [| | | | | | | |? a Hf Ha|? a Hf Ha|? a b Hf Ha Hb|? a l Hf Ha Hl|? Hf Hc|? Hf Hc
    |? a Hf Ha|? a Hf Ha|? a b Hf Ha Hb|? a n rest Hf Ha Hn Hr|? a n m rest Hf Ha Hn Hm Hr]; subst;
    repeat match goal with H : Forall _ (_ :: _) |- _ => apply Forall_cons in H as [? H] end;
    rewrite ?Hf.
  - apply safe_numeric; [auto|done].
  - simpl. unfold round_first. rewrite res_bind_assoc. apply safe_numeric; [auto|done].
  - simpl. unfold round_first. rewrite res_bind_assoc. apply safe_numeric; [auto|]. intros x.
    apply safe_numeric; [auto|done].
  - assert (Forall (safe_arg TNum) (a :: l)) as Hall.
    { constructor; [auto|]. rewrite Forall_forall in *. intros e He. by apply Hargs, Hl. }
    destruct Hf as [Hf|Hf]; rewrite Hf; exact (safe_minmax f a l Hall).
  - simpl. destruct (Henv _ _ Hc) as (v & -> & Hv). exact Hv.
  - simpl. destruct (Henv _ _ Hc) as (v & -> & Hv). exact Hv.
  - destruct Hf as [Hf|[Hf|Hf]]; rewrite Hf; simpl; apply safe_string_arg; auto; by intros [].
  - apply safe_string_arg; auto; by intros [].
  - destruct Hf as [Hf|Hf]; rewrite Hf; simpl; apply safe_string_arg; auto; intros o;
      apply safe_list_arg; auto; done.
  - simpl. rewrite (mask_literal_length _ Hr). apply safe_string_arg; auto. intros [s|]; [|done].
    apply safe_count; [done..|]. intros z. by apply safe_mask_char.
  - simpl. rewrite (mask_literal_length _ Hr). apply safe_string_arg; auto. intros [s|]; [|done].
    apply safe_count; [done..|]. intros z. apply safe_count; [done..|]. intros z'.
    by apply safe_mask_char.
Qed.
End safe_calls.

Lemma eval_safe Γ env e : env_typed Γ env → ∀ t, typed Γ e t →
  type_safe (EvaluateExpression env e) t.
Proof.
  intros Henv.
  induction e as [x|v|l op r IHl IHr|op e IH|f args IH|c t e IHc IHt IHe] using expression_ind';
    intros ty Ht; simpl.
  - inversion Ht as [? ? Hx| | | | | | | | | | | | | | | | | |]; subst.
    destruct (Henv _ _ Hx) as (v & -> & Hv). exact Hv.
  - by inversion Ht.
  - inversion Ht; subst; (eapply safe_wrap; [by apply IHl|]; intros lv Hlv;
      eapply safe_wrap; [by apply IHr|]; intros rv Hrv).
    + by apply arithmetic_safe.
    + by apply order_safe.
    + by apply equality_safe.
    + by apply logical_safe.
  - inversion Ht; subst. eapply safe_wrap; [by apply IH|]. intros v [b Hb]%bool_bool.
    unfold evaluateUnary. simpl. by rewrite Hb.
  - by eapply safe_call.
  - inversion Ht; subst. eapply safe_wrap; [by apply IHc|]. intros v [b ->]%bool_bool.
    destruct b; [by apply IHt|by apply IHe].
Qed.
End eval.

(** ** Minimum and maximum *)

(** Folding a selection that keeps the better of two numbers. *)
Lemma fold_select (le : f64 → f64 → bool) (f : f64 → f64 → f64) xs : ∀ x0,
  (∀ x, is_nan x = false → le x x = true) →
  (∀ x y z, le x y = true → le y z = true → le x z = true) →
  (∀ x y, is_nan x = false → is_nan y = false →
     (f x y = x ∨ f x y = y) ∧ le (f x y) x = true ∧ le (f x y) y = true) →
  is_nan x0 = false → Forall (λ x, is_nan x = false) xs →
  foldl f x0 xs ∈ x0 :: xs ∧ Forall (λ x, le (foldl f x0 xs) x = true) (x0 :: xs).
Proof.
  intros x0 Hrefl Htrans Hf Hx0 H. revert x0 Hx0.
  induction H as [|x xs Hx _ IH]; intros x0 Hx0; simpl.
  - split; [set_solver|]. constructor; [by apply Hrefl|constructor].
  - destruct (Hf x0 x Hx0 Hx) as (Hsel & Hl & Hr).
    assert (is_nan (f x0 x) = false) as Hn by by destruct Hsel as [-> | ->].
    destruct (IH _ Hn) as [Hin Hall]. apply Forall_cons in Hall as [H1 Hall]. split.
    + destruct Hsel as [E|E]; rewrite E in *; set_solver.
    + constructor; [by eapply Htrans|]. constructor; [by eapply Htrans|done].
Qed.

Lemma fold_min_spec x0 xs : is_nan x0 = false → Forall (λ x, is_nan x = false) xs →
  foldl fold_min x0 xs ∈ x0 :: xs ∧ Forall (λ x, fleb (foldl fold_min x0 xs) x = true) (x0 :: xs).
Proof.
  apply fold_select; [apply fleb_refl|apply fleb_trans|]. intros x y Hx Hy. unfold fold_min.
  destruct (fltb y x) eqn:E.
  - split_and!; [by right|by apply fltb_fleb|by apply fleb_refl].
  - split_and!; [by left|by apply fleb_refl|by apply fltb_false_fleb].
Qed.
Lemma fold_max_spec x0 xs : is_nan x0 = false → Forall (λ x, is_nan x = false) xs →
  foldl fold_max x0 xs ∈ x0 :: xs ∧ Forall (λ x, fleb x (foldl fold_max x0 xs) = true) (x0 :: xs).
Proof.
  apply (fold_select (λ x y, fleb y x)); [apply fleb_refl|by intros; eapply fleb_trans|].
  intros x y Hx Hy. unfold fold_max. destruct (fltb x y) eqn:E.
  - split_and!; [by right|by apply fltb_fleb|by apply fleb_refl].
  - split_and!; [by left|by apply fleb_refl|by apply fltb_false_fleb].
Qed.

Section minmax.
Context `{UC : UnicodeCase}.

Definition numeric_value (env : Evaluator) (a : Expression) (x : f64) : Prop :=
  ∃ v, EvaluateExpression env a = Ok v ∧ toFloat64 v = Ok x.

Lemma numeric_args_ok env name args xs : Forall2 (numeric_value env) args xs →
  ∀ i, numeric_args (EvaluateExpression env) name i args = Ok xs.
Proof.
  induction 1 as [|a x args xs (v & Hv & Hx) _ IH]; intros i; simpl; [done|].
  rewrite Hv. simpl. rewrite Hx. simpl. by rewrite IH.
Qed.

Lemma minmax_value env f args x xs :
  to_lower f = "min" ∨ to_lower f = "max" → Forall2 (numeric_value env) args (x :: xs) →
  EvaluateExpression env (ExprFunction f args)
  = Ok (VFloat (foldl (if to_lower f =s? "min" then fold_min else fold_max) x xs)).
Proof.
  intros Hf H. assert (EvaluateExpression env (ExprFunction f args)
    = call_minmax (EvaluateExpression env) f args) as ->.
  { unfold EvaluateExpression at 1. unfold evaluateFunctionCall.
    destruct Hf as [Hf|Hf]; rewrite Hf; reflexivity. }
  unfold call_minmax. rewrite (numeric_args_ok _ _ _ _ H). by inversion H.
Qed.
End minmax.

(** ** Properties *)
Section properties.
Context `{UC : UnicodeCase}.

(** C23: type soundness of the evaluator. An expression typed under [Γ] by the
    rules of the language, evaluated with variables of those types, yields a
    value of its type; the only error it can end in is a division by zero. No
    operand, argument or conversion error can occur. *)
Theorem EvaluateExpression_sound Γ env e t :
  env_typed Γ env → typed Γ e t →
  match EvaluateExpression env e with
  | Ok v => has_type v t
  | Err err => divides_by_zero err
  end.
Proof. intros Henv Ht. exact (eval_safe Γ env e Henv t Ht). Qed.

(** Evaluation depends only on the variables an expression mentions. Two
    contexts that agree on them give the same value or the same error; in
    particular the order and the other entries of the context are irrelevant. *)
Theorem EvaluateExpression_free_variables vars vars' refs e :
  (∀ x, x ∈ free_variables e → mget x vars = mget x vars') →
  EvaluateExpression {| ev_variables := vars; ev_references := refs |} e
  = EvaluateExpression {| ev_variables := vars'; ev_references := refs |} e.
Proof. apply eval_free_variables. Qed.

(** Min and max. On arguments that evaluate to numbers, none of them NaN,
    [min] returns one of the numbers and it is at most every one of them;
    [max] one that is at least every one of them. *)
Theorem minmax_correct env f args xs :
  to_lower f = "min" ∨ to_lower f = "max" → xs ≠ [] →
  Forall2 (numeric_value env) args xs → Forall (λ x, is_nan x = false) xs →
  ∃ m, EvaluateExpression env (ExprFunction f args) = Ok (VFloat m) ∧ m ∈ xs
    ∧ Forall (λ x, (if to_lower f =s? "min" then fleb m x else fleb x m) = true) xs.
Proof.
  intros Hf Hne H Hnan. destruct xs as [|x xs]; [done|]. apply Forall_cons in Hnan as [Hx Hxs].
  rewrite (minmax_value env f args x xs Hf H). eexists. split; [reflexivity|].
  destruct (to_lower f =s? "min"); [by apply fold_min_spec|by apply fold_max_spec].
Qed.

(** Mask_tail. With a one-rune mask character the result has as many runes
    as the text; the last [keepN] are the text's own and every rune before them
    is the mask. A text of at most [keepN] runes is returned unchanged. *)
Theorem maskTailString_spec s keepN m :
  (0 <= keepN)%Z → rune_count m = 1 →
  ∃ r, runes m = [r] ∧
    if (Z.of_nat (rune_count s) <=? keepN)%Z then maskTailString s keepN m = s
    else runes (maskTailString s keepN m) = masked (runes s) 0 (Z.to_nat keepN) r.
Proof.
  intros Hk Hm. destruct (srepeat_runes m Hm) as (r & Hr & Hrep). exists r. split; [done|].
  unfold maskTailString, rune_count. destruct (eqs_spec s "") as [->|_]; [by destruct keepN|].
  destruct (Z.leb_spec (Z.of_nat (length (runes s))) keepN); [done|].
  rewrite Hrep by apply of_runes_boundary, valid_drop. rewrite of_runes_decode by apply valid_drop.
  replace (Z.to_nat (Z.of_nat (length (runes s)) - keepN))
    with (length (runes s) - Z.to_nat keepN) by lia.
  unfold masked. simpl. by rewrite Nat.sub_0_r.
Qed.

(** Mask_middle. The first [headN] and the last [tailN] runes are the
    text's own and every rune between them is the mask, the number of runes
    being unchanged. When the ends cover the text it is returned unchanged. *)
Theorem maskMiddleString_spec s headN tailN m :
  (0 <= headN)%Z → (0 <= tailN)%Z → rune_count m = 1 →
  ∃ r, runes m = [r] ∧
    if (Z.of_nat (rune_count s) <=? headN + tailN)%Z then maskMiddleString s headN tailN m = s
    else runes (maskMiddleString s headN tailN m)
         = masked (runes s) (Z.to_nat headN) (Z.to_nat tailN) r.
Proof.
  intros Hh Ht Hm. destruct (srepeat_runes m Hm) as (r & Hr & Hrep). exists r. split; [done|].
  unfold maskMiddleString, rune_count. destruct (eqs_spec s "") as [->|_].
  { by destruct headN, tailN. }
  set (len := Z.of_nat (length (runes s))).
  replace ((len <=? headN)%Z || (len <=? tailN)%Z || (len - tailN <=? headN)%Z)
    with (len <=? headN + tailN)%Z by lia.
  destruct (Z.leb_spec len (headN + tailN)); [done|].
  rewrite runes_of_runes by apply valid_take.
  rewrite Hrep by apply of_runes_boundary, valid_drop. rewrite of_runes_decode by apply valid_drop.
  unfold masked. do 2 f_equal; [f_equal; lia|f_equal; lia].
Qed.
End properties.

(** A typed rule with every kind of operator, over a context of two variables. *)
Definition typed_sample : Expression :=
  ExprTernary
    (ExprBinary (ExprBinary (ExprVariable "n") "/" (ExprConstant (VInt KInt64 2))) ">="
       (ExprFunction "min" [ExprVariable "n"; ExprConstant (VInt KInt64 7)]))
    (ExprFunction "mask_tail" [ExprVariable "s"; ExprConstant (VInt KInt64 2)])
    (ExprFunction "upper" [ExprVariable "s"]).
Definition sample_types (x : string) : option ty :=
  if x =s? "n" then Some TNum else if x =s? "s" then Some TStr else None.
Definition sample_env : Evaluator :=
  {| ev_variables := [("s", VString "card"); ("n", VInt KInt 20)]; ev_references := None |}.

Lemma EvaluateExpression_sound_witness :
  EvaluateExpression (UC := ascii_case) sample_env typed_sample = Ok (VString "XXrd")
  ∧ match EvaluateExpression (UC := ascii_case) sample_env typed_sample with
    | Ok v => has_type v TStr
    | Err err => divides_by_zero err
    end.
Proof.
  split; [vm_compute; reflexivity|].
  apply (@EvaluateExpression_sound ascii_case sample_types).
  - intros x t. unfold sample_types.
    destruct (eqs_spec x "n") as [->|]; [intros [= <-]; by eexists|].
    destruct (eqs_spec x "s") as [->|]; [intros [= <-]; by eexists|done].
  - apply T_ternary.
    + apply T_order; [done|apply T_arith; [done|by apply T_var|by apply T_const]|].
      apply T_minmax; [left; vm_compute; reflexivity|by apply T_var|].
      apply Forall_singleton. by apply T_const.
    + apply T_mask_tail; [vm_compute; reflexivity|by apply T_var| |by left].
      exists KInt64, 2%Z. split; [done|lia].
    + apply T_string; [right; left; vm_compute; reflexivity|by apply T_var].
Defined.

Lemma EvaluateExpression_free_variables_witness :
  EvaluateExpression (UC := ascii_case) sample_env typed_sample
  = EvaluateExpression (UC := ascii_case)
      {| ev_variables := [("n", VInt KInt 20); ("other", VNil); ("s", VString "card")];
         ev_references := None |} typed_sample.
Proof.
  apply (@EvaluateExpression_free_variables ascii_case).
  intros x. vm_compute (free_variables _). rewrite !elem_of_cons, elem_of_nil.
  intros [->|[->|[->|[->|[]]]]]; reflexivity.
Defined.

Lemma minmax_correct_witness :
  ∃ m, EvaluateExpression (UC := ascii_case) sample_env
         (ExprFunction "MAX" [ExprVariable "n"; ExprConstant (VInt KInt64 (-3))]) = Ok (VFloat m)
    ∧ m ∈ [f_of_Z 20; f_of_Z (-3)] ∧ fleb (f_of_Z 20) m = true.
Proof.
  destruct (@minmax_correct ascii_case sample_env "MAX"
    [ExprVariable "n"; ExprConstant (VInt KInt64 (-3))] [f_of_Z 20; f_of_Z (-3)]) as (m & H & Hin & Hall).
  - right. vm_compute. reflexivity.
  - done.
  - repeat constructor; eexists; (split; [vm_compute; reflexivity|vm_compute; reflexivity]).
  - by repeat constructor.
  - exists m. split; [exact H|]. split; [exact Hin|].
    apply Forall_cons in Hall as [Hall _]. vm_compute (_ =s? _) in Hall. exact Hall.
Defined.

Lemma maskTailString_spec_witness :
  runes (maskTailString "héllo wörld" 4 "€") = masked (runes "héllo wörld") 0 4 8364.
Proof.
  destruct (maskTailString_spec "héllo wörld" 4 "€") as (r & Hr & H); [lia|vm_compute; reflexivity|].
  vm_compute in Hr. injection Hr as <-. vm_compute (_ <=? _)%Z in H. exact H.
Defined.
Lemma maskMiddleString_spec_witness :
  runes (maskMiddleString "4111-2222-3333" 4 2 "*") = masked (runes "4111-2222-3333") 4 2 42.
Proof.
  destruct (maskMiddleString_spec "4111-2222-3333" 4 2 "*") as (r & Hr & H);
    [lia|lia|vm_compute; reflexivity|].
  vm_compute in Hr. injection Hr as <-. vm_compute (_ <=? _)%Z in H. exact H.
Defined.
