(* ===== verification/DslRefs.v ===== *)
(** * Validation DSL: reference-table pre-flight (internal/validation/dsl/references.go)

    [ReferenceTableNames] collects the literal table names of an expression
    before any record is read, and refuses a call whose table is not a
    literal. The theorems relate it to the evaluator: a table that was not
    reported is never asked for. *)
From Stdlib Require Import Ascii ZArith Lia.
From stdpp Require Import base sets list strings.
From S2P Require Import Prelude GoStrings GoFloat GoStrconv GoValue DslTypes DslEval DslEvalSpec.

Section refs.
Context `{UC : UnicodeCase}.

(** The checks on one reference call, and its table name appended. *)
Definition reference_call (name : string) (args : list Expression) (names : list string)
    : result (list string) :=
  match args with
  | arg0 :: _ :: _ =>
      match arg0 with
      | ExprConstant (VString t) => Ok (names ++ [t])
      | ExprConstant _ =>
          errorf "%s() table name must be a string literal, got a non-string constant"
            [AStr (to_lower name)]
      | _ =>
          errorf "%s() table name must be a string literal, not a variable or expression (record data must not select a reference table)"
            [AStr (to_lower name)]
      end
  | _ => errorf "%s() requires at least a table name and a field argument" [AStr (to_lower name)]
  end.

(** [names] is the slice the Go function appends to. *)
Fixpoint walkReferenceCalls (e : Expression) (names : list string) {struct e}
    : result (list string) :=
  match e with
  | ExprVariable _ | ExprConstant _ => Ok names
  | ExprBinary l _ r => names ← walkReferenceCalls l names; walkReferenceCalls r names
  | ExprUnary _ e => walkReferenceCalls e names
  | ExprTernary c t e =>
      names ← walkReferenceCalls c names;
      names ← walkReferenceCalls t names;
      walkReferenceCalls e names
  | ExprFunction name args =>
      names ← (if is_reference_call name then reference_call name args names else Ok names);
      (fix walk_args (args : list Expression) (names : list string) : result (list string) :=
         match args with
         | [] => Ok names
         | a :: args => names ← walkReferenceCalls a names; walk_args args names
         end) args names
  end.
Definition ReferenceTableNames (e : Expression) : result (list string) :=
  walkReferenceCalls e [].

(** The argument loop, by name. *)
Definition walk_args : list Expression → list string → result (list string) :=
  fix walk_args args names :=
    match args with
    | [] => Ok names
    | a :: args => names ← walkReferenceCalls a names; walk_args args names
    end.

(** *** Specification

    The reference calls of an expression, outermost first and left to
    right, and the shape the pre-flight demands of each. *)
Fixpoint reference_calls (e : Expression) : list (string * list Expression) :=
  match e with
  | ExprVariable _ | ExprConstant _ => []
  | ExprBinary l _ r => reference_calls l ++ reference_calls r
  | ExprUnary _ e => reference_calls e
  | ExprTernary c t e => reference_calls c ++ reference_calls t ++ reference_calls e
  | ExprFunction name args =>
      (if is_reference_call name then [(name, args)] else [])
      ++ concat (map reference_calls args)
  end.
Definition literal_table (call : string * list Expression) (t : string) : Prop :=
  ∃ a rest, call.2 = ExprConstant (VString t) :: a :: rest.

(** Two registries that answer alike on the tables in [names]. *)
Definition agree_on (names : list string) (r r' : ReferenceLookup) : Prop :=
  ∀ t, t ∈ names → ∀ k, rl_Contains r t k = rl_Contains r' t k ∧ rl_Lookup r t k = rl_Lookup r' t k.

(** ** The walk only appends *)
Lemma reference_call_app name args names names' :
  reference_call name args names = Ok names' →
  ∃ t rest, args = ExprConstant (VString t) :: rest ∧ rest ≠ [] ∧ names' = names ++ [t].
Proof. unfold reference_call, errorf. case_all. intros. inv_ok. subst. eauto 10. Qed.

Lemma walk_grows e : ∀ names names',
  walkReferenceCalls e names = Ok names' → names ⊆ names'.
Proof.
  assert (∀ args, Forall (λ e, ∀ names names',
    walkReferenceCalls e names = Ok names' → names ⊆ names') args →
    ∀ names names', walk_args args names = Ok names' → names ⊆ names') as Hargs.
  { induction 1 as [|a args Ha _ IH]; simpl; intros names names' H; inv_ok; [by subst|].
    etrans; [by eapply Ha|by eapply IH]. }
  induction e as [x|v|l op r IHl IHr|op e IH|f args IH|c t e IHc IHt IHe]
    using expression_ind'; simpl; intros names names' H; inv_ok; subst; try done.
  - etrans; [by eapply IHl|by eapply IHr].
  - by eapply IH.
  - etrans; [|by eapply Hargs]. destruct (is_reference_call f); inv_ok; [|by subst].
    apply reference_call_app in Hok as (t & rest & -> & _ & ->). set_solver.
  - etrans; [by eapply IHc|]. etrans; [by eapply IHt|by eapply IHe].
Qed.

(** The walk is the loop over the reference calls. *)
Lemma walk_fold e : ∀ names,
  walkReferenceCalls e names
  = foldM (λ names c, reference_call c.1 c.2 names) names (reference_calls e).
Proof.
  assert (∀ args, Forall (λ e, ∀ names, walkReferenceCalls e names
      = foldM (λ names c, reference_call c.1 c.2 names) names (reference_calls e)) args →
    ∀ names, walk_args args names
      = foldM (λ names c, reference_call c.1 c.2 names) names (concat (map reference_calls args)))
    as Hargs.
  { induction 1 as [|a args Ha _ IH]; intros names; simpl; [done|].
    rewrite foldM_app, <- Ha. destruct (walkReferenceCalls a names); simpl; [apply IH|done]. }
  induction e as [x|v|l op r IHl IHr|op e IH|f args IH|c t e IHc IHt IHe]
    using expression_ind'; intros names; simpl; [done..| | | |].
  - rewrite foldM_app, <- IHl. destruct (walkReferenceCalls l names); simpl; [apply IHr|done].
  - apply IH.
  - fold walk_args. destruct (is_reference_call f); simpl; [|by apply Hargs].
    destruct (reference_call f args names); simpl; [by apply Hargs|done].
  - rewrite !foldM_app, <- IHc. destruct (walkReferenceCalls c names); simpl; [|done].
    rewrite foldM_app, <- IHt. destruct (walkReferenceCalls t _); simpl; [apply IHe|done].
Qed.

Lemma reference_call_err name args names e :
  reference_call name args names = Err e → ∀ t, ¬ literal_table (name, args) t.
Proof. intros H t (a & rest & Heq). simpl in Heq. by subst. Qed.

Lemma fold_calls_spec calls : ∀ names,
  match foldM (λ names c, reference_call c.1 c.2 names) names calls with
  | Ok names' => ∃ ts, names' = names ++ ts ∧ Forall2 literal_table calls ts
  | Err _ => Exists (λ c, ∀ t, ¬ literal_table c t) calls
  end.
Proof.
  induction calls as [|[f args] calls IH]; intros names; simpl.
  { exists []. split; [by rewrite app_nil_r|constructor]. }
  destruct (reference_call f args names) as [n1|] eqn:E; simpl.
  - specialize (IH n1). destruct (foldM _ n1 calls) as [n2|]; [|by right].
    destruct IH as (ts & -> & Hts).
    apply reference_call_app in E as (t & rest & -> & Hne & ->).
    exists (t :: ts). split; [by rewrite <- app_assoc|]. constructor; [|done].
    destruct rest as [|a rest]; [done|]. by exists a, rest.
  - left. by eapply reference_call_err.
Qed.

(** ** The evaluator asks only for reported tables *)

Lemma agree_on_mono names names' r r' : names ⊆ names' → agree_on names' r r' → agree_on names r r'.
Proof. unfold agree_on. eauto. Qed.

(** The two reference functions ask the registry about the literal table only. *)
Section call_ext.
Variables env env' : Evaluator.
Variables eval eval' : Expression → result value.

Ltac ext_args H :=
  repeat match type of H with
  | Forall _ (_ :: _) => let Ha := fresh "Ha" in apply Forall_cons in H as [Ha H]; try rewrite Ha
  end; try done.

Lemma call_in_reference_ext refs refs' names name fn args names' :
  Forall (λ a, eval a = eval' a) args →
  reference_call name args names = Ok names' →
  ev_references env = Some refs → ev_references env' = Some refs' →
  agree_on names' refs refs' →
  call_in_reference env eval fn args = call_in_reference env' eval' fn args.
Proof.
  intros H (t & rest & -> & _ & ->)%reference_call_app Hr Hr' Hagree.
  unfold call_in_reference, referenceFieldArg. rewrite Hr, Hr'.
  destruct rest as [|f [|? ?]]; try done. ext_args H. simpl.
  destruct (eval' f) as [[]|]; simpl; try done. case_match; [done|].
  f_equal. apply (Hagree t); set_solver.
Qed.

Lemma call_lookup_reference_ext refs refs' names name fn args names' :
  Forall (λ a, eval a = eval' a) args →
  reference_call name args names = Ok names' →
  ev_references env = Some refs → ev_references env' = Some refs' →
  agree_on names' refs refs' →
  call_lookup_reference env eval fn args = call_lookup_reference env' eval' fn args.
Proof.
  intros H (t & rest & -> & _ & ->)%reference_call_app Hr Hr' Hagree.
  unfold call_lookup_reference, referenceFieldArg. rewrite Hr, Hr'.
  destruct rest as [|f [|d [|? ?]]]; try done. ext_args H. simpl.
  assert (∀ k, rl_Lookup refs t k = rl_Lookup refs' t k) as Hk
    by (intros k; apply (Hagree t); set_solver).
  destruct (eval' f) as [[]|]; simpl; try done.
  destruct (eval' d) as [[]|]; simpl; try done; case_match; try done; by rewrite Hk.
Qed.
End call_ext.

Lemma eval_agree vars refs refs' e : ∀ names names',
  walkReferenceCalls e names = Ok names' →
  agree_on names' refs refs' →
  EvaluateExpression {| ev_variables := vars; ev_references := Some refs |} e
  = EvaluateExpression {| ev_variables := vars; ev_references := Some refs' |} e.
Proof.
  set (env := {| ev_variables := vars; ev_references := Some refs |}).
  set (env' := {| ev_variables := vars; ev_references := Some refs' |}).
  assert (∀ args, Forall (λ e, ∀ names names',
    walkReferenceCalls e names = Ok names' → agree_on names' refs refs' →
    EvaluateExpression env e = EvaluateExpression env' e) args →
    ∀ names names', walk_args args names = Ok names' → agree_on names' refs refs' →
    names ⊆ names' ∧
    Forall (λ a, EvaluateExpression env a = EvaluateExpression env' a) args) as Hargs.
  { induction 1 as [|a args Ha _ IH]; simpl; intros names names' H Hag; inv_ok; [by subst|].
    destruct (IH _ _ Hok0 Hag) as [Hsub Hall]. split.
    - etrans; [by eapply walk_grows|done].
    - constructor; [|done]. eapply Ha; [done|]. by eapply agree_on_mono. }
  induction e as [x|v|l op r IHl IHr|op e IH|f args IH|c t e IHc IHt IHe]
    using expression_ind'; simpl; intros names names' H Hag; inv_ok;
    [reflexivity|reflexivity|..].
  - rewrite (IHr _ _ Hok0 Hag). erewrite IHl; [done..|].
    eapply agree_on_mono; [by eapply walk_grows|done].
  - by rewrite (IH _ _ H Hag).
  - change (walk_args args a = Ok names') in Hok0.
    destruct (Hargs _ IH _ _ Hok0 Hag) as [Hsub Hall].
    destruct (is_reference_call f) eqn:Hf;
      [|apply evaluateFunctionCall_ext; [exact Hall|reflexivity|by left]].
    unfold evaluateFunctionCall. unfold is_reference_call in Hf.
    destruct (to_lower f =s? "in_reference") eqn:E1; simpl in Hf.
    + apply String.eqb_eq in E1 as ->. simpl.
      eapply call_in_reference_ext; [done..|]. by eapply agree_on_mono.
    + apply String.eqb_eq in Hf as ->. simpl.
      eapply call_lookup_reference_ext; [done..|]. by eapply agree_on_mono.
  - rename select (walkReferenceCalls c _ = _) into Hc.
    rename select (walkReferenceCalls t _ = _) into Ht.
    rename select (walkReferenceCalls e _ = _) into He.
    pose proof (walk_grows _ _ _ He) as Hsub. pose proof (walk_grows _ _ _ Ht) as Hsub'.
    rewrite (IHe _ _ He Hag). rewrite (IHt _ _ Ht) by by eapply agree_on_mono.
    rewrite (IHc _ _ Hc); [reflexivity|]. eapply agree_on_mono; [|exact Hag]. by etrans.
Qed.

(** ** Properties *)

(** C30: pre-flight soundness. When the pre-flight of an expression succeeds,
    its value or error depends on no table it did not report: against two
    registries that agree on the reported tables the evaluator returns the
    same result, for every binding of the variables. Record data cannot make
    a rule reach another table. *)
Theorem ReferenceTableNames_sound vars refs refs' e names :
  ReferenceTableNames e = Ok names →
  agree_on names refs refs' →
  EvaluateExpression {| ev_variables := vars; ev_references := Some refs |} e
  = EvaluateExpression {| ev_variables := vars; ev_references := Some refs' |} e.
Proof. apply eval_agree. Qed.

(** The pre-flight reports exactly the tables of the reference calls, one
    per call in source order, and fails exactly when some call has fewer than
    two arguments or a table argument that is not a string literal. *)
Theorem ReferenceTableNames_spec e :
  match ReferenceTableNames e with
  | Ok names => Forall2 literal_table (reference_calls e) names
  | Err _ => Exists (λ c, ∀ t, ¬ literal_table c t) (reference_calls e)
  end.
Proof.
  unfold ReferenceTableNames. rewrite walk_fold.
  pose proof (fold_calls_spec (reference_calls e) []) as H.
  destruct (foldM _ _ _); [|done]. by destruct H as (ts & -> & H).
Qed.
End refs.

(** A rule over two tables, and registries that differ only on a third. *)
Definition rule_two_tables : Expression :=
  ExprBinary
    (ExprFunction "in_reference" [ExprConstant (VString "hosts"); ExprVariable "h"]) "&&"
    (ExprFunction "IN_REFERENCE" [ExprConstant (VString "users"); ExprVariable "u"]).
Definition constant_registry (members : list string) : ReferenceLookup := {|
  rl_Contains t k := Ok (existsb (String.eqb t) members);
  rl_Lookup t k := Ok (k, existsb (String.eqb t) members);
|}.

Lemma ReferenceTableNames_sound_witness :
  EvaluateExpression (UC := ascii_case)
    {| ev_variables := [("h", VString "a"); ("u", VString "b")];
       ev_references := Some (constant_registry ["hosts"; "users"]) |} rule_two_tables
  = EvaluateExpression (UC := ascii_case)
    {| ev_variables := [("h", VString "a"); ("u", VString "b")];
       ev_references := Some (constant_registry ["hosts"; "users"; "secrets"]) |} rule_two_tables.
Proof.
  apply (@ReferenceTableNames_sound ascii_case _ _ _ _ ["hosts"; "users"]).
  - vm_compute. reflexivity.
  - intros t Ht k. repeat (apply elem_of_cons in Ht as [->|Ht]; [done|]). by apply elem_of_nil in Ht.
Defined.
