(* ===== verification/GoCsv.v ===== *)
(** * Byte streams, [bufio.Scanner] lines and [encoding/csv]

    A source that has been read to its end is a [stream]: the bytes it
    delivered and the error that ended it ([None] is [io.EOF]). On top of it
    this file models what the program uses of [encoding/csv] (the strict
    reader: no comments, no lazy quotes, no trimming, a uniform field count)
    and of [bufio.Scanner] with [ScanLines]. *)
From Stdlib Require Import Ascii ZArith Lia.
From stdpp Require Import base list strings.
From S2P Require Import Prelude GoStrings.

Definition LF : ascii := "010"%char.
Definition CR : ascii := "013"%char.
Definition DQ : ascii := "034"%char.

(** What a sequence of [Read] calls yields up to the first error. *)
Record stream (E : Type) := Stream { st_data : string; st_err : option E }.
Arguments Stream {E} _ _.
Arguments st_data {E} _.
Arguments st_err {E} _.

(** [n, err := r.Read(p)]: with the bytes come [nil], [io.EOF] or another
    error. A source is the list of the results it gives to successive calls. *)
Inductive read_status (E : Type) := ReadNil | ReadEOF | ReadErr (e : E).
Arguments ReadNil {E}.
Arguments ReadEOF {E}.
Arguments ReadErr {E} e.

(** The bytes of [s] cut after every line feed; the last piece may lack one
    and is missing when it is empty. *)
Fixpoint raw_lines (s : string) : list string :=
  match s with
  | "" => []
  | String c s =>
      if c =c? LF then String c "" :: raw_lines s
      else match raw_lines s with
           | [] => [String c ""]
           | l :: ls => String c l :: ls
           end
  end.

Definition ends_lf (l : string) : bool := has_suffix (String LF "") l.

(** ** [encoding/csv] *)

Inductive csv_error (E : Type) := CsvParse | CsvRead (e : E).
Arguments CsvParse {E}.
Arguments CsvRead {E} e.

(** [Reader.readLine]: a carriage return before the line feed goes, and one at
    the very end of the input. *)
Definition csv_line (at_eof : bool) (l : string) : string :=
  if has_suffix (String CR (String LF "")) l then stake (slen l - 2) l +:+ String LF ""
  else if at_eof && negb (ends_lf l) then trim_suffix (String CR "") l
  else l.

Definition csv_lines {E} (st : stream E) : list string :=
  csv_line (match st_err st with None => true | Some _ => false end) <$> raw_lines (st_data st).

(** Where the field loop of [readRecord] stands. *)
Inductive csv_mode := CsvField (* before a field *) | CsvBare (* inside an unquoted one *)
                    | CsvQuoted (* inside a quoted one *) | CsvAfter (* behind a quote in one *).

(** Outcome of one line: the fields of the record, an error, or a quoted field
    that goes on in the next line. *)
Inductive csv_outcome :=
| CsvDone (fields : list string)
| CsvBad
| CsvMore (fields : list string) (cur : string).

(** [fields] and [cur] (the record buffer) are kept in order; the line feed
    ends the line. *)
Fixpoint csv_fields (comma : ascii) (mode : csv_mode) (fields : list string) (cur : string)
    (line : string) : csv_outcome :=
  match line with
  | "" =>
      match mode with
      | CsvQuoted => CsvMore fields cur
      | _ => CsvDone (fields ++ [cur])
      end
  | String c l =>
      match mode with
      | CsvField =>
          if c =c? DQ then csv_fields comma CsvQuoted fields "" l
          else if c =c? comma then csv_fields comma CsvField (fields ++ [""]) "" l
          else if (c =c? LF) && (l =s? "") then CsvDone (fields ++ [""])
          else csv_fields comma CsvBare fields (String c "") l
      | CsvBare =>
          if c =c? DQ then CsvBad
          else if c =c? comma then csv_fields comma CsvField (fields ++ [cur]) "" l
          else if (c =c? LF) && (l =s? "") then CsvDone (fields ++ [cur])
          else csv_fields comma CsvBare fields (cur +:+ String c "") l
      | CsvQuoted =>
          if c =c? DQ then csv_fields comma CsvAfter fields cur l
          else csv_fields comma CsvQuoted fields (cur +:+ String c "") l
      | CsvAfter =>
          if c =c? DQ then csv_fields comma CsvQuoted fields (cur +:+ String DQ "") l
          else if c =c? comma then csv_fields comma CsvField (fields ++ [cur]) "" l
          else if (c =c? LF) && (l =s? "") then CsvDone (fields ++ [cur])
          else CsvBad
      end
  end.

(** [FieldsPerRecord = 0]: the first record fixes the number of fields. *)
Definition csv_count {E} (nf : option nat) (fields : list string) : res (csv_error E) (list string) :=
  match nf with
  | Some n => if bool_decide (length fields = n) then Ok fields else Err CsvParse
  | None => Ok fields
  end.

(** The results of successive [Read] calls up to the first error; the call
    behind the last one returns [io.EOF]. [open] is the record a quoted field
    left unfinished. *)
Fixpoint csv_records {E} (comma : ascii) (err : option E) (nf : option nat)
    (open : option (list string * string)) (ls : list string)
    : list (res (csv_error E) (list string)) :=
  match ls with
  | [] =>
      match err, open with
      | Some e, _ => [Err (CsvRead e)]
      | None, Some _ => [Err CsvParse]
      | None, None => []
      end
  | l :: ls =>
      let cut := match err, ls with Some _, [] => negb (ends_lf l) | _, _ => false end in
      if match open with None => negb cut && ((l =s? "") || (l =s? String LF "")) | Some _ => false end
      then csv_records comma err nf None ls
      else
        match (match open with
               | None => csv_fields comma CsvField [] "" l
               | Some (fields, cur) => csv_fields comma CsvQuoted fields cur l
               end) with
        | CsvBad => [Err CsvParse]
        | CsvMore fields cur => csv_records comma err nf (Some (fields, cur)) ls
        | CsvDone fields =>
            if cut then csv_records comma err nf None ls
            else match csv_count nf fields with
                 | Ok fields => Ok fields :: csv_records comma err (Some (length fields)) None ls
                 | Err e => [Err e]
                 end
        end
  end.

(** All records of a source. *)
Definition csv_read {E} (comma : ascii) (st : stream E) : list (res (csv_error E) (list string)) :=
  csv_records comma (st_err st) None None (csv_lines st).

(** A source that broke off ends in an error. *)
Lemma csv_records_broken {E} comma (e : E) nf open ls :
  ∃ e', last (csv_records comma (Some e) nf open ls) = Some (Err e').
Proof.
  revert nf open. induction ls as [|l ls IH]; intros nf open; cbn [csv_records]; [eauto|].
  repeat case_match; eauto; rewrite last_cons; edestruct IH as [e' ->]; eauto.
Qed.

(** ** Lines of a [bufio.Scanner] *)

Definition drop_cr (l : string) : string := trim_suffix (String CR "") l.
Definition scan_token (l : string) : string := drop_cr (trim_suffix (String LF "") l).

(** The tokens up to the first line that does not fit the buffer, and whether
    there is such a line. A line fits when it is shorter than [max] bytes, line
    feed not counted. *)
Fixpoint scan_lines (max : Z) (ls : list string) : list string * bool :=
  match ls with
  | [] => ([], false)
  | l :: ls =>
      if bool_decide (max ≤ Z.of_nat (slen (trim_suffix (String LF "") l)))%Z then ([], true)
      else let '(ts, long) := scan_lines max ls in (scan_token l :: ts, long)
  end.

(** ** The field count is uniform *)
Lemma csv_records_length {E} comma (err : option E) n open ls rec :
  Ok rec ∈ csv_records comma err (Some n) open ls → length rec = n.
Proof.
  revert open. induction ls as [|l ls IH]; intros open.
  - cbn. repeat case_match; rewrite ?elem_of_cons, ?elem_of_nil; intros; by destruct_or?.
  - cbn [csv_records csv_count].
    repeat case_match; simplify_eq; rewrite ?elem_of_cons, ?elem_of_nil;
      intros; destruct_or?;
      repeat match goal with H : bool_decide _ = true |- _ => apply bool_decide_eq_true in H end;
      simplify_eq; eauto.
Qed.

Lemma csv_records_header {E} comma (err : option E) open ls header records :
  csv_records comma err None open ls = Ok header :: records →
  ∃ ls', records = csv_records comma err (Some (length header)) None ls'.
Proof.
  revert open. induction ls as [|l ls IH]; intros open.
  - cbn. by repeat case_match.
  - cbn [csv_records csv_count]. repeat case_match; intros; simplify_eq; eauto.
Qed.

Lemma csv_read_uniform {E} comma (st : stream E) header records rec :
  csv_read comma st = Ok header :: records → Ok rec ∈ records → length rec = length header.
Proof.
  intros (ls & ->)%csv_records_header. apply csv_records_length.
Qed.

(** A source that broke off is never read to its end without an error. *)
Lemma csv_read_broken {E} comma d (e : E) recs :
  csv_read comma (Stream d (Some e)) ≠ Ok <$> recs.
Proof.
  unfold csv_read. cbn [st_err]. intros H.
  edestruct (csv_records_broken comma e None None) as [e' He']. rewrite H in He'.
  rewrite fmap_last in He'. by destruct (last recs).
Qed.
