(* ===== verification/GoJson.v ===== *)
(** * [encoding/json]: tokens, [Unmarshal] of objects and strings

    The token stream of a [Decoder] with [UseNumber] (the states and errors of
    [Decoder.Token], with the byte offsets of [InputOffset]), the decoding of
    string literals, and on top of both the two [Unmarshal] calls the program
    makes on whole texts: into a map of raw messages and into a string. *)
From Stdlib Require Import Ascii ZArith Lia.
From stdpp Require Import base list strings.
From S2P Require Import Prelude GoStrings GoStrconv GoCsv.

Definition json_space (c : ascii) : bool :=
  (c =c? " "%char) || (c =c? "009"%char) || (c =c? LF) || (c =c? CR).
Definition is_digit (c : ascii) : bool := in_range 48 57 (bcode c).
Definition BS : ascii := "092"%char.

(** ** Lexemes *)

(** The length of the lexeme a text starts with, or why there is none: a byte
    that cannot follow, or the end of the input. *)
Inductive lexed := LexOk (n : nat) | LexBad | LexEof.
Definition lex_succ (r : lexed) : lexed := match r with LexOk n => LexOk (S n) | r => r end.

Inductive str_mode := SBody | SEsc | SHex (k : nat).
(** Behind the opening quote; the closing quote counts. *)
Fixpoint lex_string (m : str_mode) (s : string) : lexed :=
  match s with
  | "" => LexEof
  | String c s =>
      match m with
      | SBody =>
          if c =c? DQ then LexOk 1
          else if c =c? BS then lex_succ (lex_string SEsc s)
          else if (bcode c <? 32)%Z then LexBad
          else lex_succ (lex_string SBody s)
      | SEsc =>
          if scontains_byte c ("bfnrt/" +:+ String BS (String DQ ""))
          then lex_succ (lex_string SBody s)
          else if c =c? "u"%char then lex_succ (lex_string (SHex 3) s)
          else LexBad
      | SHex k =>
          match hex_val c with
          | Some _ => lex_succ (lex_string (match k with S k => SHex k | 0 => SBody end) s)
          | None => LexBad
          end
      end
  end.

Inductive num_mode := NNeg | NZero | NInt | NDot | NFrac | NExp | NExpSign | NExpDigits.
Definition num_accepts (m : num_mode) : bool :=
  match m with NZero | NInt | NFrac | NExpDigits => true | _ => false end.
Definition num_step (m : num_mode) (c : ascii) : option num_mode :=
  let exp := (c =c? "e"%char) || (c =c? "E"%char) in
  match m with
  | NNeg => if c =c? "0"%char then Some NZero else if is_digit c then Some NInt else None
  | NZero => if c =c? "."%char then Some NDot else if exp then Some NExp else None
  | NInt => if is_digit c then Some NInt
            else if c =c? "."%char then Some NDot else if exp then Some NExp else None
  | NDot => if is_digit c then Some NFrac else None
  | NFrac => if is_digit c then Some NFrac else if exp then Some NExp else None
  | NExp => if (c =c? "+"%char) || (c =c? "-"%char) then Some NExpSign
            else if is_digit c then Some NExpDigits else None
  | NExpSign | NExpDigits => if is_digit c then Some NExpDigits else None
  end.
Fixpoint lex_number (m : num_mode) (s : string) : lexed :=
  match s with
  | "" => if num_accepts m then LexOk 0 else LexEof
  | String c s =>
      match num_step m c with
      | Some m => lex_succ (lex_number m s)
      | None => if num_accepts m then LexOk 0 else LexBad
      end
  end.

(** The rest of [true], [false] or [null]. *)
Fixpoint lex_word (w s : string) : lexed :=
  match w, s with
  | "", _ => LexOk 0
  | _, "" => LexEof
  | String a w, String b s => if a =c? b then lex_succ (lex_word w s) else LexBad
  end.

(** ** String literals *)
Fixpoint hex4 (k : nat) (acc : Z) (s : string) : option Z :=
  match k, s with
  | 0, _ => Some acc
  | S k, String c s => h ← hex_val c; hex4 k (acc * 16 + h)%Z s
  | S _, "" => None
  end.
(** [getu4]: the code unit of a leading [\uXXXX]. *)
Definition getu4 (s : string) : option Z :=
  match s with
  | String a (String b s) => if (a =c? BS) && (b =c? "u"%char) then hex4 4 0 s else None
  | _ => None
  end.
Definition surrogate (r : Z) : bool := in_range 55296 57343 r.
(** [utf16.DecodeRune] *)
Definition utf16_pair (r1 r2 : Z) : option Z :=
  if in_range 55296 56319 r1 && in_range 56320 57343 r2
  then Some (Z.lor (Z.shiftl (r1 - 55296) 10) (r2 - 56320) + 65536)%Z else None.

Definition escaped_byte (c : ascii) : ascii :=
  (if c =c? "b" then "008" else if c =c? "f" then "012" else if c =c? "n" then "010"
   else if c =c? "r" then "013" else if c =c? "t" then "009" else c)%char.

(** [skip] counts the bytes already accounted for. An ill-formed sequence and
    an unpaired surrogate become U+FFFD. *)
Fixpoint unquote_go (skip : nat) (s : string) : string :=
  match s with
  | "" => ""
  | String c t =>
      match skip with
      | S k => unquote_go k t
      | 0 =>
          if c =c? BS then
            match getu4 s with
            | Some r =>
                if surrogate r then
                  match getu4 (sdrop 5 t) ≫= utf16_pair r with
                  | Some r => encode_rune r +:+ unquote_go 11 t
                  | None => encode_rune RuneError +:+ unquote_go 5 t
                  end
                else encode_rune r +:+ unquote_go 5 t
            | None =>
                match t with
                | String e _ => String (escaped_byte e) (unquote_go 1 t)
                | "" => ""
                end
            end
          else let '(r, w) := decode_rune c t in encode_rune r +:+ unquote_go (w - 1) t
      end
  end.
(** The value of a literal, from the text between its quotes. *)
Definition unquote (body : string) : string := unquote_go 0 body.

(** ** The decoder's tokens *)
Inductive json_tok :=
| JDelim (c : ascii)
| JString (s : string)
| JNumber (lexeme : string)
| JBool (b : bool)
| JNull.

(** A token with its first byte's offset and the offset behind it. *)
Record token := Token { tk : json_tok; tk_start : nat; tk_end : nat }.

Inductive json_error (E : Type) :=
| JEOF                (* no token left at the end of the input *)
| JUnexpectedEOF      (* the input ends inside a token *)
| JSyntax
| JRead (e : E).      (* the reader failed *)
Arguments JEOF {E}.
Arguments JUnexpectedEOF {E}.
Arguments JSyntax {E}.
Arguments JRead {E} e.

(** The [tokenState] of a [Decoder]. *)
Inductive tok_state :=
| TopValue | ArrayStart | ArrayValue | ArrayComma
| ObjectStart | ObjectKey | ObjectColon | ObjectValue | ObjectComma.

Definition tokenValueAllowed (st : tok_state) : bool :=
  match st with TopValue | ArrayStart | ArrayValue | ObjectValue => true | _ => false end.
Definition tokenValueEnd (st : tok_state) : tok_state :=
  match st with
  | ArrayStart | ArrayValue => ArrayComma
  | ObjectValue => ObjectComma
  | st => st
  end.

Definition lex_scalar (c : ascii) (t : string) : lexed * (string → json_tok) :=
  if c =c? DQ then (lex_string SBody t, λ l, JString (unquote (stake (slen l - 2) (sdrop 1 l))))
  else if c =c? "-"%char then (lex_number NNeg t, JNumber)
  else if c =c? "0"%char then (lex_number NZero t, JNumber)
  else if is_digit c then (lex_number NInt t, JNumber)
  else if c =c? "t"%char then (lex_word "rue" t, λ _, JBool true)
  else if c =c? "f"%char then (lex_word "alse" t, λ _, JBool false)
  else if c =c? "n"%char then (lex_word "ull" t, λ _, JNull)
  else (LexBad, JNumber).

(** Repeated [Token] calls on the text [s] at offset [off]: the tokens, and the
    error of the call behind the last one. [err] is the reader's error at the
    end of the text, [skip] the bytes of the current token still to pass. *)
Section tokens.
Context {E : Type} (err : option E).

Definition at_end : json_error E := match err with None => JEOF | Some e => JRead e end.
Definition cut_short : json_error E := match err with None => JUnexpectedEOF | Some e => JRead e end.
(** The decoder ends a scalar at the byte behind it, or at [io.EOF]; when the
    reader fails instead, the scalar is lost. *)
Definition scalar_ends (rest : string) : bool := match rest, err with "", Some _ => false | _, _ => true end.

Fixpoint tokens_go (skip off : nat) (st : tok_state) (stack : list tok_state) (s : string)
    : list token * json_error E :=
  match s with
  | "" => ([], at_end)
  | String c t =>
      match skip with
      | S k => tokens_go k (S off) st stack t
      | 0 =>
          let yield tok n st stack :=
            let '(ts, e) := tokens_go (n - 1) (S off) st stack t in
            (Token tok off (off + n) :: ts, e) in
          let scalar st' :=
            let '(r, value) := lex_scalar c t in
            match r with
            | LexOk n => if scalar_ends (sdrop n t) then yield (value (stake (S n) s)) (S n) st' stack else ([], cut_short)
            | LexBad => ([], JSyntax)
            | LexEof => ([], cut_short)
            end in
          if json_space c then tokens_go 0 (S off) st stack t
          else if (c =c? "["%char) || (c =c? "{"%char) then
            if tokenValueAllowed st
            then yield (JDelim c) 1 (if c =c? "["%char then ArrayStart else ObjectStart) (st :: stack)
            else ([], JSyntax)
          else if (c =c? "]"%char) || (c =c? "}"%char) then
            match (if c =c? "]"%char
                   then match st with ArrayStart | ArrayComma => true | _ => false end
                   else match st with ObjectStart | ObjectComma => true | _ => false end), stack with
            | true, st :: stack => yield (JDelim c) 1 (tokenValueEnd st) stack
            | _, _ => ([], JSyntax)
            end
          else if c =c? ":"%char then
            match st with ObjectColon => tokens_go 0 (S off) ObjectValue stack t | _ => ([], JSyntax) end
          else if c =c? ","%char then
            match st with
            | ArrayComma => tokens_go 0 (S off) ArrayValue stack t
            | ObjectComma => tokens_go 0 (S off) ObjectKey stack t
            | _ => ([], JSyntax)
            end
          else if c =c? DQ then
            match st with
            | ObjectStart | ObjectKey => scalar ObjectColon
            | _ => if tokenValueAllowed st then scalar (tokenValueEnd st) else ([], JSyntax)
            end
          else if tokenValueAllowed st then scalar (tokenValueEnd st) else ([], JSyntax)
      end
  end.
Definition tokens (s : string) : list token * json_error E := tokens_go 0 0 TopValue [] s.
End tokens.

(** ** [Unmarshal] *)
Definition opens (t : json_tok) : bool :=
  match t with JDelim c => (c =c? "{"%char) || (c =c? "["%char) | _ => false end.
Definition closes (t : json_tok) : bool :=
  match t with JDelim c => (c =c? "}"%char) || (c =c? "]"%char) | _ => false end.

Definition maxNestingDepth : nat := Z.to_nat 10000.

(** The number of complete top-level values of a token list and whether the
    nesting limit is kept; [None] when it ends inside a value. *)
Fixpoint top_values (depth : nat) (deep : bool) (ts : list json_tok) : option (nat * bool) :=
  match ts with
  | [] => match depth with 0 => Some (0, deep) | S _ => None end
  | t :: ts =>
      if opens t then top_values (S depth) (deep || bool_decide (maxNestingDepth < S depth)) ts
      else match (if closes t then pred depth else depth) with
           | 0 => prod_map S id <$> top_values 0 deep ts
           | S d => top_values (S d) deep ts
           end
  end.

(** [checkValid]: exactly one value. *)
Definition json_valid (text : string) : bool :=
  match tokens (E := Empty_set) None text with
  | (ts, JEOF) => bool_decide (top_values 0 false (tk <$> ts) = Some (1, false))
  | _ => false
  end.

Inductive member_state := MKey | MValue (key : string) | MIn (key : string) (start depth : nat).
(** The members of an object whose opening brace has been read, with their
    values' bytes. *)
Fixpoint members (text : string) (st : member_state) (ts : list token) : list (string * string) :=
  match ts with
  | [] => []
  | t :: ts =>
      match st with
      | MKey => match tk t with JString k => members text (MValue k) ts | _ => [] end
      | MValue k =>
          if opens (tk t) then members text (MIn k (tk_start t) 0) ts
          else (k, ssub text (tk_start t) (tk_end t)) :: members text MKey ts
      | MIn k start d =>
          if opens (tk t) then members text (MIn k start (S d)) ts
          else if closes (tk t) then
            match d with
            | 0 => (k, ssub text start (tk_end t)) :: members text MKey ts
            | S d => members text (MIn k start d) ts
            end
          else members text (MIn k start d) ts
      end
  end.

(** [var obj map[string]json.RawMessage; json.Unmarshal(text, &obj)]: a
    repeated key keeps its last value, and [null] leaves the map nil. *)
Definition unmarshal_object (text : string) : option (list (string * string)) :=
  if json_valid text then
    match (tokens (E := Empty_set) None text).1 with
    | t :: ts =>
        match tk t with
        | JDelim c => if c =c? "{"%char then Some (mcopy (members text MKey ts) []) else None
        | JNull => Some []
        | _ => None
        end
    | [] => None
    end
  else None.

(** [var s string; json.Unmarshal(text, &s)]: [null] leaves [s] unchanged. *)
Definition unmarshal_string (text : string) : option string :=
  if json_valid text then
    match tk <$> (tokens (E := Empty_set) None text).1 with
    | [JString s] => Some s
    | [JNull] => Some ""
    | _ => None
    end
  else None.
