(* ===== verification/GoSha256.v ===== *)
(** * SHA-256 ([crypto/sha256]) on byte strings

    The digest the program records of a source's bytes. *)
From Stdlib Require Import Ascii ZArith.
From stdpp Require Import base list strings.
From S2P Require Import Prelude GoStrings.

Local Open Scope Z_scope.

Definition w32 (x : Z) : Z := Z.land x (Z.ones 32).
Definition rotr (n x : Z) : Z := w32 (Z.lor (Z.shiftr x n) (Z.shiftl x (32 - n))).
Definition xor3 (a b c : Z) : Z := Z.lxor a (Z.lxor b c).

Definition sha_K : list Z :=
  [1116352408; 1899447441; 3049323471; 3921009573; 961987163; 1508970993;
    2453635748; 2870763221; 3624381080; 310598401; 607225278; 1426881987;
    1925078388; 2162078206; 2614888103; 3248222580; 3835390401; 4022224774;
    264347078; 604807628; 770255983; 1249150122; 1555081692; 1996064986;
    2554220882; 2821834349; 2952996808; 3210313671; 3336571891; 3584528711;
    113926993; 338241895; 666307205; 773529912; 1294757372; 1396182291;
    1695183700; 1986661051; 2177026350; 2456956037; 2730485921; 2820302411;
    3259730800; 3345764771; 3516065817; 3600352804; 4094571909; 275423344;
    430227734; 506948616; 659060556; 883997877; 958139571; 1322822218;
    1537002063; 1747873779; 1955562222; 2024104815; 2227730452; 2361852424;
    2428436474; 2756734187; 3204031479; 3329325298].
Definition sha_H : list Z :=
  [1779033703; 3144134277; 1013904242; 2773480762; 1359893119; 2600822924;
    528734635; 1541459225].

(** The message padded to a multiple of 64 bytes. *)
Definition sha_bytes (s : string) : list Z := bcode <$> String.list_ascii_of_string s.
Definition sha_pad (s : string) : list Z :=
  let n := Z.of_nat (String.length s) in
  sha_bytes s ++ [128] ++ replicate (Z.to_nat ((55 - n) mod 64)) 0
  ++ ((λ i, Z.land (Z.shiftr (8 * n) (8 * (7 - Z.of_nat i))) 255) <$> seq 0 8).

Fixpoint sha_words (l : list Z) : list Z :=
  match l with
  | a :: b :: c :: d :: l =>
      Z.lor (Z.lor (Z.shiftl a 24) (Z.shiftl b 16)) (Z.lor (Z.shiftl c 8) d) :: sha_words l
  | _ => []
  end.

(** The message schedule: [rev_w] holds the words so far, last one first. *)
Fixpoint sha_schedule (n : nat) (rev_w : list Z) : list Z :=
  match n with
  | 0%nat => rev rev_w
  | S n =>
      let w i := default 0 (rev_w !! i) in
      let s0 := xor3 (rotr 7 (w 14%nat)) (rotr 18 (w 14%nat)) (Z.shiftr (w 14%nat) 3) in
      let s1 := xor3 (rotr 17 (w 1%nat)) (rotr 19 (w 1%nat)) (Z.shiftr (w 1%nat) 10) in
      sha_schedule n (w32 (w 15%nat + s0 + w 6%nat + s1) :: rev_w)
  end.

Definition sha_round (st : list Z) (kw : Z * Z) : list Z :=
  match st with
  | [a; b; c; d; e; f; g; h] =>
      let t1 := h + xor3 (rotr 6 e) (rotr 11 e) (rotr 25 e)
                + Z.lxor (Z.land e f) (Z.land (Z.lxor e (Z.ones 32)) g) + kw.1 + kw.2 in
      let t2 := xor3 (rotr 2 a) (rotr 13 a) (rotr 22 a)
                + xor3 (Z.land a b) (Z.land a c) (Z.land b c) in
      [w32 (t1 + t2); a; b; c; w32 (d + t1); e; f; g]
  | st => st
  end.
Definition sha_block (st block : list Z) : list Z :=
  zip_with (λ x y, w32 (x + y)) st
    (foldl sha_round st (zip sha_K (sha_schedule 48 (rev block)))).
Fixpoint sha_blocks (n : nat) (st ws : list Z) : list Z :=
  match n with
  | 0%nat => st
  | S n => sha_blocks n (sha_block st (take 16 ws)) (drop 16 ws)
  end.

(** [hex.EncodeToString(sha256.Sum256(s))] *)
Definition sha256_hex (s : string) : string :=
  let ws := sha_words (sha_pad s) in
  sjoin "" (hex_digits 8 <$> sha_blocks (length ws / 16) sha_H ws).

Example sha256_abc :
  sha256_hex "abc" = "ba7816bf8f01cfea414140de5dae2223b00361a396177a9cb410ff61f20015ad".
Proof. vm_compute. reflexivity. Qed.
Example sha256_empty :
  sha256_hex "" = "e3b0c44298fc1c149afbf4c8996fb92427ae41e4649b934ca495991b7852b855".
Proof. vm_compute. reflexivity. Qed.
