(* ===== verification/RefTable.v ===== *)
(** * Reference tables (internal/reftable)

    The declaration of a table ([Spec]), its loaders for csv, tsv and ndjson
    sources under the row and byte caps, and the registry the validation DSL
    queries. A source is the list of results its [io.Reader] gives to
    successive [Read] calls. *)
From Stdlib Require Import Ascii ZArith Lia.
From stdpp Require Import base list strings gmap sorting.
From S2P Require Import Prelude GoStrings GoFloat GoValue GoCsv GoJson GoSha256 DslTypes DslEval.

(** ** Declarations *)
Notation FormatCSV := "csv".
Notation FormatTSV := "tsv".
Notation FormatNDJSON := "ndjson".

Inductive Mode := ModeMembership | ModeLookup.
#[export] Instance Mode_eq_dec : EqDecision Mode.
Proof. solve_decision. Defined.

Record SourceMetadata := {
  sm_LogicalURI : string;
  sm_CredentialsHandle : string;
  sm_SizeBytes : Z;
}.

Record Spec := {
  sp_Name : string;
  sp_Format : string;
  sp_Header : bool;
  sp_Column : string;
  sp_KeyColumn : string;
  sp_ValueColumn : string;
  sp_MaxRows : Z;
  sp_MaxBytes : Z;
  sp_Source : SourceMetadata;
}.

Definition DefaultMaxBytes : Z := Z.shiftl 100 20.
Definition maxNDJSONLine : Z := Z.shiftl 8 20.

Definition Spec_Mode (s : Spec) : Mode :=
  if negb (sp_Column s =s? "") then ModeMembership else ModeLookup.

Definition Validate (s : Spec) : result () :=
  if trim_space (sp_Name s) =s? "" then errorf "reference table name is required" []
  else if negb ((sp_Format s =s? FormatCSV) || (sp_Format s =s? FormatTSV)
                || (sp_Format s =s? FormatNDJSON)) then
    errorf "reference table %q: unsupported format %q (use csv, tsv, or ndjson)"
      [AStr (sp_Name s); AStr (sp_Format s)]
  else
    let hasMembership := negb (sp_Column s =s? "") in
    let hasLookup := negb (sp_KeyColumn s =s? "") || negb (sp_ValueColumn s =s? "") in
    _ ← (if hasMembership && hasLookup then
           errorf "reference table %q: declare either a membership column or key_column+value_column, not both"
             [AStr (sp_Name s)]
         else if hasMembership then Ok tt
         else if hasLookup then
           if (sp_KeyColumn s =s? "") || (sp_ValueColumn s =s? "") then
             errorf "reference table %q: a key→value lookup table needs both key_column and value_column"
               [AStr (sp_Name s)]
           else if sp_KeyColumn s =s? sp_ValueColumn s then
             errorf "reference table %q: key_column and value_column must differ" [AStr (sp_Name s)]
           else Ok tt
         else
           errorf "reference table %q: declare a membership column or key_column+value_column"
             [AStr (sp_Name s)]);
    if (sp_MaxRows s <=? 0)%Z then
      errorf "reference table %q: max_rows is required and must be positive" [AStr (sp_Name s)]
    else Ok tt.

Definition effectiveMaxBytes (s : Spec) : Z :=
  if (0 <? sp_MaxBytes s)%Z then sp_MaxBytes s else DefaultMaxBytes.

(** ** The capped reader *)

(** An error of a [Read] call other than [io.EOF]: the byte cap, or a failure
    of the source itself. *)
Inductive read_error := overBytesError (name : string) (limit : Z) | readFailed.
Definition over_bytes_text (name : string) (limit : Z) : gerror :=
  Errorf "reference table %q: source exceeds max_bytes (%d) — no partial load; raise max_bytes or shrink the source"
    [AStr name; AInt limit].

Notation read_result := (string * read_status read_error)%type.

Record cappedReader := { cr_limit : Z; cr_read : Z; cr_name : string }.

(** One [Read]: [under] is the result the underlying reader gives if asked. *)
Definition capped_Read (c : cappedReader) (under : read_result) : cappedReader * read_result :=
  let over := ReadErr (overBytesError (cr_name c) (cr_limit c)) in
  if (cr_limit c <? cr_read c)%Z then (c, ("", over))
  else
    let c' := {| cr_limit := cr_limit c; cr_read := cr_read c + Z.of_nat (slen under.1);
                 cr_name := cr_name c |} in
    if (cr_limit c <? cr_read c')%Z then (c', (under.1, over)) else (c', under).

(** What a consumer that reads on to the first error receives. A reader that
    has no result left is at its end. *)
Fixpoint drain (c : cappedReader) (reads : list read_result) : cappedReader * stream read_error :=
  let under := match reads with r :: _ => r | [] => ("", ReadEOF) end in
  let '(c, (data, status)) := capped_Read c under in
  match status, reads with
  | ReadEOF, _ | ReadNil, [] => (c, Stream data None)
  | ReadErr e, _ => (c, Stream data (Some e))
  | ReadNil, _ :: reads =>
      let '(c, st) := drain c reads in (c, Stream (data +:+ st_data st) (st_err st))
  end.

(** ** Tables *)
Record Table := {
  t_name : string;
  t_mode : Mode;
  t_format : string;
  t_membership : gset string;
  t_lookup : gmap string string;
  t_source : SourceMetadata;
  t_rowCount : Z;
  t_contentSHA256 : string;
}.

Definition overRows (name : string) : gerror :=
  Errorf "reference table %q: exceeds max_rows (no partial load — raise max_rows or shrink the source)"
    [AStr name].

Definition with_entries (t : Table) (membership : gset string) (lookup : gmap string string)
    (rows : Z) : Table := {|
  t_name := t_name t; t_mode := t_mode t; t_format := t_format t;
  t_membership := membership; t_lookup := lookup;
  t_source := t_source t; t_rowCount := rows; t_contentSHA256 := t_contentSHA256 t;
|}.

Definition countPhysicalRow (t : Table) (maxRows : Z) : result Table :=
  let t := with_entries t (t_membership t) (t_lookup t) (t_rowCount t + 1) in
  if (maxRows <? t_rowCount t)%Z then Err (overRows (t_name t)) else Ok t.

Definition addMembership (t : Table) (value : string) : Table :=
  with_entries t ({[ value ]} ∪ t_membership t) (t_lookup t) (t_rowCount t).

Definition addLookup (t : Table) (key value : string) (row : Z) : result Table :=
  match t_lookup t !! key with
  | Some _ =>
      errorf "reference table %q: duplicate key at row %d (key→value tables must have unique keys; resolve the source ambiguity)"
        [AStr (t_name t); AInt row]
  | None => Ok (with_entries t (t_membership t) (<[key := value]> (t_lookup t)) (t_rowCount t))
  end.

(** ** csv and tsv sources *)

Record columnPositions := { cp_col : Z; cp_key : Z; cp_value : Z }.

(** The position of each header name; the first occurrence wins. *)
Definition header_index (header : list string) : gmap string Z :=
  foldl (λ index (iname : nat * string),
    match index !! iname.2 with
    | Some _ => index
    | None => <[iname.2 := Z.of_nat iname.1]> index
    end) ∅ (imap pair header).

Definition resolveColumns (spec : Spec) (header : list string) : result columnPositions :=
  let need name :=
    match header_index header !! name with
    | Some i => Ok i
    | None =>
        errorf "reference table %q: declared column %q is not present in the source header"
          [AStr (sp_Name spec); AStr name]
    end in
  match Spec_Mode spec with
  | ModeMembership =>
      col ← need (sp_Column spec);
      Ok {| cp_col := col; cp_key := -1; cp_value := -1 |}
  | ModeLookup =>
      key ← need (sp_KeyColumn spec);
      value ← need (sp_ValueColumn spec);
      Ok {| cp_col := -1; cp_key := key; cp_value := value |}
  end.

Definition parseError (name : string) (row : Z) (err : csv_error read_error) : gerror :=
  match err with
  | CsvRead (overBytesError n l) => over_bytes_text n l
  | _ => Errorf "reference table %q: malformed source at row %d (wrong column count or unreadable record)"
           [AStr name; AInt row]
  end.

(** [rec[i]]; [loadDelimited_in_range] below shows that it never is out of
    range. *)
Definition rec_at (rec : list string) (i : Z) : string := default "" (rec !! Z.to_nat i).

(** The row loop: [records] are the results of the remaining [Read] calls. *)
Fixpoint delimited_rows (spec : Spec) (pos : columnPositions) (row : Z) (t : Table)
    (records : list (res (csv_error read_error) (list string))) : result Table :=
  match records with
  | [] => Ok t
  | Err e :: _ => Err (parseError (sp_Name spec) (row + 1) e)
  | Ok rec :: records =>
      let row := (row + 1)%Z in
      t ← countPhysicalRow t (sp_MaxRows spec);
      match t_mode t with
      | ModeMembership =>
          delimited_rows spec pos row (addMembership t (rec_at rec (cp_col pos))) records
      | ModeLookup =>
          t ← addLookup t (rec_at rec (cp_key pos)) (rec_at rec (cp_value pos)) row;
          delimited_rows spec pos row t records
      end
  end.

Definition loadDelimited (t : Table) (spec : Spec) (st : stream read_error) (comma : ascii)
    : result Table :=
  if negb (sp_Header spec) then
    errorf "reference table %q: csv/tsv sources require header: true to reference columns by name"
      [AStr (sp_Name spec)]
  else
    match csv_read comma st with
    | [] =>
        errorf "reference table %q: csv/tsv source is empty (a header row is required to validate the declared column(s); a header-only file is a valid empty table)"
          [AStr (sp_Name spec)]
    | Err e :: _ => Err (parseError (sp_Name spec) 0 e)
    | Ok header :: records =>
        pos ← resolveColumns spec header;
        delimited_rows spec pos 1 t records
    end.

(** ** ndjson sources *)
Definition ndjsonString (spec : Spec) (obj : list (string * string)) (field : string) (row : Z)
    : result string :=
  match mget field obj with
  | None =>
      errorf "reference table %q: line %d is missing the declared field %q"
        [AStr (sp_Name spec); AInt row; AStr field]
  | Some raw =>
      match unmarshal_string raw with
      | None =>
          errorf "reference table %q: line %d field %q is not a JSON string"
            [AStr (sp_Name spec); AInt row; AStr field]
      | Some s => Ok s
      end
  end.

Definition ndjson_row (spec : Spec) (row : Z) (t : Table) (line : string) : result Table :=
  t ← countPhysicalRow t (sp_MaxRows spec);
  match unmarshal_object line with
  | None => errorf "reference table %q: malformed JSON object at line %d" [AStr (sp_Name spec); AInt row]
  | Some obj =>
      match t_mode t with
      | ModeMembership => addMembership t <$> ndjsonString spec obj (sp_Column spec) row
      | ModeLookup =>
          k ← ndjsonString spec obj (sp_KeyColumn spec) row;
          v ← ndjsonString spec obj (sp_ValueColumn spec) row;
          addLookup t k v row
      end
  end.

Fixpoint ndjson_rows (spec : Spec) (row : Z) (t : Table) (lines : list string)
    : result (Table * Z) :=
  match lines with
  | [] => Ok (t, row)
  | line :: lines =>
      let row := (row + 1)%Z in
      let line := trim_space line in
      if line =s? "" then ndjson_rows spec row t lines
      else t ← ndjson_row spec row t line; ndjson_rows spec row t lines
  end.

Definition loadNDJSON (t : Table) (spec : Spec) (st : stream read_error) : result Table :=
  let '(lines, long) := scan_lines maxNDJSONLine (raw_lines (st_data st)) in
  tr ← ndjson_rows spec 0 t lines;
  if long then
    errorf "reference table %q: a line near %d exceeds the maximum line size (%d bytes)"
      [AStr (sp_Name spec); AInt (tr.2 + 1); AInt maxNDJSONLine]
  else
    match st_err st with
    | Some e => Err (parseError (sp_Name spec) tr.2 (CsvRead e))
    | None => Ok tr.1
    end.

(** ** [Load] *)
Definition Load (spec : Spec) (reads : list read_result) : result Table :=
  _ ← Validate spec;
  let '(capped, st) :=
    drain {| cr_limit := effectiveMaxBytes spec; cr_read := 0; cr_name := sp_Name spec |} reads in
  let t := {|
    t_name := sp_Name spec; t_mode := Spec_Mode spec; t_format := sp_Format spec;
    t_membership := ∅; t_lookup := ∅; t_source := sp_Source spec; t_rowCount := 0;
    t_contentSHA256 := "";
  |} in
  t ← (if sp_Format spec =s? FormatCSV then loadDelimited t spec st ","%char
       else if sp_Format spec =s? FormatTSV then loadDelimited t spec st "009"%char
       else if sp_Format spec =s? FormatNDJSON then loadNDJSON t spec st
       else errorf "reference table %q: unsupported format %q"
              [AStr (sp_Name spec); AStr (sp_Format spec)]);
  Ok {|
    t_name := t_name t; t_mode := t_mode t; t_format := t_format t;
    t_membership := t_membership t; t_lookup := t_lookup t;
    t_source := {|
      sm_LogicalURI := sm_LogicalURI (t_source t);
      sm_CredentialsHandle := sm_CredentialsHandle (t_source t);
      sm_SizeBytes := cr_read capped;
    |};
    t_rowCount := t_rowCount t;
    t_contentSHA256 := "sha256:" +:+ sha256_hex (st_data st);
  |}.

(** ** The registry *)
Record Registry := { rg_tables : gmap string Table }.

(** [tables] may hold nil pointers, which are skipped. *)
Definition NewRegistry (tables : list (option Table)) : result Registry :=
  m ← foldM (λ m t,
    match t with
    | None => Ok m
    | Some t =>
        match m !! t_name t with
        | Some _ => errorf "reference table %q is declared more than once" [AStr (t_name t)]
        | None => Ok (<[t_name t := t]> m)
        end
    end) ∅ tables;
  Ok {| rg_tables := m |}.

(** The nil registry declares nothing. *)
Definition Declared (r : option Registry) (name : string) : bool :=
  match r with None => false | Some r => bool_decide (is_Some (rg_tables r !! name)) end.
Definition Len (r : option Registry) : nat :=
  match r with None => 0 | Some r => size (rg_tables r) end.

Definition name_le (a b : Table) : bool := sleb (t_name a) (t_name b).
(** [sort.Slice] by name; the names of a registry are distinct, so the order is
    determined. *)
Definition Tables (r : option Registry) : list Table :=
  match r with None => [] | Some r => sort_by name_le ((map_to_list (rg_tables r)).*2) end.

Definition Contains (r : Registry) (table key : string) : result bool :=
  match rg_tables r !! table with
  | None => errorf "in_reference: reference table %q is not declared" [AStr table]
  | Some t =>
      match t_mode t with
      | ModeMembership => Ok (bool_decide (key ∈ t_membership t))
      | ModeLookup =>
          errorf "in_reference: reference table %q is a key→value lookup table, not a membership table (declare a single membership column)"
            [AStr table]
      end
  end.

Definition Lookup (r : Registry) (table key : string) : result (string * bool) :=
  match rg_tables r !! table with
  | None => errorf "lookup_reference: reference table %q is not declared" [AStr table]
  | Some t =>
      match t_mode t with
      | ModeLookup =>
          Ok (match t_lookup t !! key with Some v => (v, true) | None => ("", false) end)
      | ModeMembership =>
          errorf "lookup_reference: reference table %q is a membership table, not a key→value lookup table (declare key_column + value_column)"
            [AStr table]
      end
  end.

(** The registry is what the evaluator asks. *)
Definition registry_lookup (r : Registry) : ReferenceLookup := {|
  rl_Contains := Contains r;
  rl_Lookup := Lookup r;
|}.
