(* ===== verification/RefTableSpec.v ===== *)
(** * Reference tables: specification and proofs

    [source_entries] reads a whole source the way its documentation describes
    it, with [json_string] for the declared fields of ndjson, [table_of] is the
    table a list of entries makes, and [Load_spec] shows that the incremental
    loaders under their caps compute that, but for a JSON null, which the code
    takes for the empty string where the documentation refuses it. The
    registry theorems follow the loaded table to the DSL's queries. *)
From Stdlib Require Import Ascii ZArith Lia.
From stdpp Require Import base list strings gmap sets sorting.
From S2P Require Import Prelude GoStrings GoFloat GoStrconv GoValue GoCsv GoJson GoSha256 DslTypes DslEval DslRefs RefTable.

(** ** Reference semantics *)

(** All bytes of a source that ends in [io.EOF]. *)
Fixpoint source_bytes (reads : list read_result) : option string :=
  match reads with
  | [] => Some ""
  | (d, ReadEOF) :: _ => Some d
  | (_, ReadErr _) :: _ => None
  | (d, ReadNil) :: reads => (λ s, d +:+ s) <$> source_bytes reads
  end.

Definition column (header rec : list string) (name : string) : option string :=
  i ← fst <$> list_find (name =.) header; rec !! i.

Definition declared_columns (spec : Spec) : list string :=
  match Spec_Mode spec with
  | ModeMembership => [sp_Column spec]
  | ModeLookup => [sp_KeyColumn spec; sp_ValueColumn spec]
  end.

(** An entry is a member (with an empty value) or a key with its value. *)
Definition entry (spec : Spec) (field : string → option string) : option (string * string) :=
  match Spec_Mode spec with
  | ModeMembership => (λ v, (v, "")) <$> field (sp_Column spec)
  | ModeLookup => k ← field (sp_KeyColumn spec); v ← field (sp_ValueColumn spec); Some (k, v)
  end.

Definition delimited_entries (spec : Spec) (comma : ascii) (data : string)
    : option (list (string * string)) :=
  if sp_Header spec then
    records ← mapM to_option (csv_read comma (Stream (E := read_error) data None));
    match records with
    | [] => None
    | header :: rows =>
        if bool_decide (Forall (.∈ header) (declared_columns spec))
        then mapM (λ rec, entry spec (column header rec)) rows
        else None
    end
  else None.

(** A JSON string and nothing else: "must be present and a JSON string". *)
Definition json_string (text : string) : option string :=
  if json_valid text then
    match tk <$> (tokens (E := Empty_set) None text).1 with [JString s] => Some s | _ => None end
  else None.
Definition json_null (text : string) : Prop := tk <$> (tokens (E := Empty_set) None text).1 = [JNull].

(** The reading of a source, by the reading of a declared ndjson field. *)
Section reading.
Context (as_string : string → option string).
Definition ndjson_entry (spec : Spec) (line : string) : option (string * string) :=
  obj ← unmarshal_object line; entry spec (λ f, mget f obj ≫= as_string).

Definition ndjson_lines (data : string) : list string :=
  filter (.≠ "") (trim_space <$> (scan_lines maxNDJSONLine (raw_lines data)).1).
Definition ndjson_entries (spec : Spec) (data : string) : option (list (string * string)) :=
  if (scan_lines maxNDJSONLine (raw_lines data)).2 then None
  else mapM (ndjson_entry spec) (ndjson_lines data).

Definition source_entries (spec : Spec) (data : string) : option (list (string * string)) :=
  if sp_Format spec =s? FormatCSV then delimited_entries spec ","%char data
  else if sp_Format spec =s? FormatTSV then delimited_entries spec "009"%char data
  else if sp_Format spec =s? FormatNDJSON then ndjson_entries spec data
  else None.
End reading.

(** A declared field of some entry of an ndjson source holds a JSON null. *)
Definition null_declared (spec : Spec) (data : string) : Prop :=
  sp_Format spec = FormatNDJSON ∧
  ∃ line obj f raw, line ∈ ndjson_lines data ∧ unmarshal_object line = Some obj ∧
    f ∈ declared_columns spec ∧ mget f obj = Some raw ∧ json_null raw.

Definition table_of (spec : Spec) (data : string) (entries : list (string * string)) : Table := {|
  t_name := sp_Name spec;
  t_mode := Spec_Mode spec;
  t_format := sp_Format spec;
  t_membership := match Spec_Mode spec with ModeMembership => list_to_set entries.*1 | ModeLookup => ∅ end;
  t_lookup := match Spec_Mode spec with ModeMembership => ∅ | ModeLookup => list_to_map entries end;
  t_source := {|
    sm_LogicalURI := sm_LogicalURI (sp_Source spec);
    sm_CredentialsHandle := sm_CredentialsHandle (sp_Source spec);
    sm_SizeBytes := Z.of_nat (slen data);
  |};
  t_rowCount := Z.of_nat (length entries);
  t_contentSHA256 := "sha256:" +:+ sha256_hex data;
|}.

(** ** The capped reader *)
Lemma drain_spec c reads c' data :
  (cr_read c ≤ cr_limit c)%Z →
  drain c reads = (c', Stream data None) ↔
  source_bytes reads = Some data ∧ (cr_read c + Z.of_nat (slen data) ≤ cr_limit c)%Z ∧
  c' = {| cr_limit := cr_limit c; cr_read := cr_read c + Z.of_nat (slen data);
          cr_name := cr_name c |}.
Proof.
  revert c c' data. induction reads as [|[d s] reads IH]; intros c c' data Hc;
    cbn [drain source_bytes]; unfold capped_Read; cbn [fst snd].
  - rewrite (proj2 (Z.ltb_ge _ _)) by done. cbn [cr_read]. rewrite Z.add_0_r.
    rewrite (proj2 (Z.ltb_ge _ _)) by done. destruct c; cbn. split.
    + intros [= <- <-]. cbn. rewrite Z.add_0_r. auto.
    + intros ([= <-] & _ & ->). cbn. by rewrite Z.add_0_r.
  - rewrite (proj2 (Z.ltb_ge _ _)) by done. cbn [cr_read].
    destruct (Z.ltb_spec (cr_limit c) (cr_read c + Z.of_nat (slen d))) as [Hlt|Hge].
    + split; [done|]. intros (Hs & Hle & _). destruct s; simplify_eq/=; try lia.
      apply fmap_Some in Hs as (s & _ & ->). rewrite slen_app in Hle. lia.
    + destruct s; [| naive_solver | naive_solver].
      destruct (drain _ reads) as [c1 [data1 err1]] eqn:Hd. cbn [st_data st_err].
      split.
      * intros [= <- <- ->]. apply IH in Hd as (-> & Hle & ->); cbn in *; [|lia].
        rewrite slen_app, Nat2Z.inj_add, Z.add_assoc. auto.
      * intros ((s & Hs & ->)%fmap_Some & Hle & ->).
        rewrite slen_app, Nat2Z.inj_add, Z.add_assoc in *.
        match type of Hd with drain ?c0 _ = _ =>
          pose proof (proj2 (IH c0 _ s Hge) (conj Hs (conj Hle eq_refl))) as Hd2 end.
        rewrite Hd2 in Hd. by simplify_eq.
Qed.

(** ** Rows into entries *)

(** The common core of both row loops: count, check, project, add. *)
Definition add_entry (max : Z) (t : Table) (e : string * string) : option Table :=
  let t := with_entries t (t_membership t) (t_lookup t) (t_rowCount t + 1) in
  if (max <? t_rowCount t)%Z then None else
  match t_mode t with
  | ModeMembership => Some (addMembership t e.1)
  | ModeLookup => to_option (addLookup t e.1 e.2 0)
  end.
Fixpoint absorb (max : Z) (t : Table) (es : list (string * string)) : option Table :=
  match es with [] => Some t | e :: es => t ← add_entry max t e; absorb max t es end.

Lemma absorb_membership max t es t' :
  t_mode t = ModeMembership → (t_rowCount t ≤ max)%Z →
  absorb max t es = Some t' ↔
  (t_rowCount t + Z.of_nat (length es) ≤ max)%Z ∧
  t' = with_entries t (list_to_set es.*1 ∪ t_membership t) (t_lookup t)
         (t_rowCount t + Z.of_nat (length es)).
Proof.
  revert t. induction es as [|[k v] es IH]; intros t Hm Hmax; cbn -[Z.add].
  - rewrite Z.add_0_r, (left_id_L ∅ (∪)). destruct t; naive_solver.
  - unfold add_entry. cbn -[Z.add]. rewrite Hm.
    destruct (Z.ltb_spec max (t_rowCount t + 1)); cbn -[Z.add].
    + split; [done|]. intros [? _]. lia.
    + rewrite IH by (cbn; auto; lia). unfold addMembership, with_entries. cbn -[Z.add].
      replace (t_rowCount t + 1 + Z.of_nat (length es))%Z
        with (t_rowCount t + Z.of_nat (S (length es)))%Z by lia.
      replace (list_to_set es.*1 ∪ ({[k]} ∪ t_membership t))
        with ({[k]} ∪ list_to_set es.*1 ∪ t_membership t) by set_solver. done.
Qed.

Lemma list_to_map_union_cons (k v : string) es (m : gmap string string) :
  k ∉ es.*1 → list_to_map es ∪ <[k:=v]> m = list_to_map ((k, v) :: es) ∪ m.
Proof.
  intros Hk. rewrite <- insert_union_r by (by apply not_elem_of_list_to_map_1).
  by rewrite insert_union_l.
Qed.

Lemma absorb_lookup max t es t' :
  t_mode t = ModeLookup → (t_rowCount t ≤ max)%Z →
  absorb max t es = Some t' ↔
  (t_rowCount t + Z.of_nat (length es) ≤ max)%Z ∧
  NoDup es.*1 ∧ (∀ k, k ∈ es.*1 → t_lookup t !! k = None) ∧
  t' = with_entries t (t_membership t) (list_to_map es ∪ t_lookup t)
         (t_rowCount t + Z.of_nat (length es)).
Proof.
  revert t. induction es as [|[k v] es IH]; intros t Hm Hmax; cbn -[Z.add].
  - rewrite Z.add_0_r, (left_id_L ∅ (∪)). destruct t. cbn.
    split; [intros [= <-]|naive_solver]. split_and!; [done|constructor|set_solver|done].
  - unfold add_entry. cbn -[Z.add]. rewrite Hm. unfold addLookup, errorf. cbn -[Z.add].
    destruct (Z.ltb_spec max (t_rowCount t + 1)); cbn -[Z.add].
    { split; [done|]. intros [? _]. lia. }
    destruct (t_lookup t !! k) as [v'|] eqn:Hk; cbn -[Z.add].
    { split; [done|]. intros (_ & _ & Hf & _). specialize (Hf k). set_solver. }
    rewrite IH by (cbn; auto; lia). cbn -[Z.add].
    replace (t_rowCount t + 1 + Z.of_nat (length es))%Z
      with (t_rowCount t + Z.of_nat (S (length es)))%Z by lia.
    rewrite NoDup_cons. unfold with_entries. cbn -[Z.add].
    assert (∀ k', k' ∈ es.*1 → <[k:=v]> (t_lookup t) !! k' = None ↔ k' ≠ k ∧ t_lookup t !! k' = None)
      as Hins.
    { intros k' _. rewrite lookup_insert_None. naive_solver. }
    split.
    + intros (Hle & Hnd & Hf & ->).
      assert (k ∉ es.*1) as Hnk by (intros Hin; destruct (proj1 (Hins k Hin) (Hf k Hin)); congruence).
      split_and!; [done..| |].
      * intros k' [->|Hin]%elem_of_cons; [done|]. by apply Hins, Hf.
      * f_equal. by apply list_to_map_union_cons.
    + intros (Hle & [Hnk Hnd] & Hf & ->).
      split_and!; [done..| |].
      * intros k' Hin. apply Hins; [done|]. split; [by intros ->|]. apply Hf. set_solver.
      * f_equal. symmetry. by apply list_to_map_union_cons.
Qed.

(** ** Header columns *)
Lemma header_index_go name header (index : gmap string Z) k :
  foldl (λ index (iname : nat * string),
    match index !! iname.2 with
    | Some _ => index
    | None => <[iname.2 := Z.of_nat iname.1]> index
    end) index (imap (λ i, pair (k + i)) header) !! name =
  match index !! name with
  | Some i => Some i
  | None => (λ p, Z.of_nat (k + p.1)) <$> list_find (name =.) header
  end.
Proof.
  revert index k. induction header as [|h header IH]; intros index k; cbn [imap foldl list_find].
  - by destruct (index !! name).
  - rewrite (imap_ext _ (λ i, pair (S k + i))) by (intros; unfold compose; f_equal; lia).
    rewrite IH. cbn [fst snd].
    destruct (decide (name = h)) as [<-|Hne].
    + destruct (index !! name) as [i|] eqn:E; [by rewrite E|].
      by rewrite lookup_insert_eq.
    + assert ((match index !! h with Some _ => index
               | None => <[h:=Z.of_nat (k + 0)]> index end) !! name = index !! name) as ->.
      { destruct (index !! h); [done|]. by rewrite lookup_insert_ne by done. }
      destruct (index !! name); [done|].
      destruct (list_find _ header) as [[i x]|]; cbn; [|done]. f_equal. lia.
Qed.

Lemma header_index_spec name header :
  header_index header !! name = (λ p, Z.of_nat p.1) <$> list_find (name =.) header.
Proof.
  unfold header_index. pose proof (header_index_go name header ∅ 0) as H.
  rewrite lookup_empty in H. exact H.
Qed.

Lemma list_find_header (name : string) (header : list string) :
  name ∈ header ↔ ∃ i, list_find (name =.) header = Some (i, name) ∧ i < length header.
Proof.
  split.
  - intros Hin. destruct (list_find_elem_of (name =.) header name) as [[i x] Hf]; [done..|].
    pose proof Hf as (Hl & <- & _)%list_find_Some. exists i. split; [done|].
    by eapply lookup_lt_Some.
  - intros (i & (Hl & _)%list_find_Some & _). by eapply list_elem_of_lookup_2.
Qed.

Lemma column_rec_at (name : string) (header rec : list string) i :
  list_find (name =.) header = Some (i, name) → i < length header → length rec = length header →
  column header rec name = Some (rec_at rec (Z.of_nat i)).
Proof.
  intros Hf Hi Hlen. unfold column, rec_at. rewrite Hf. cbn. rewrite Nat2Z.id.
  destruct (lookup_lt_is_Some_2 rec i) as [x ->]; [by rewrite Hlen|done].
Qed.

(** The entry that the resolved positions take from a record. *)
Definition positions_entry (spec : Spec) (pos : columnPositions) (rec : list string)
    : string * string :=
  match Spec_Mode spec with
  | ModeMembership => (rec_at rec (cp_col pos), "")
  | ModeLookup => (rec_at rec (cp_key pos), rec_at rec (cp_value pos))
  end.

Lemma header_index_Ok name header i :
  header_index header !! name = Some i →
  name ∈ header ∧ ∀ rec, length rec = length header → column header rec name = Some (rec_at rec i).
Proof.
  rewrite header_index_spec. intros ([j x] & Hf & ->)%fmap_Some.
  pose proof Hf as (Hl & <- & _)%list_find_Some. split; [by eapply list_elem_of_lookup_2|].
  intros rec. apply column_rec_at; [done|by eapply lookup_lt_Some].
Qed.

Lemma resolveColumns_ok spec header pos :
  resolveColumns spec header = Ok pos →
  Forall (.∈ header) (declared_columns spec) ∧
  ∀ rec, length rec = length header →
    entry spec (column header rec) = Some (positions_entry spec pos rec).
Proof.
  unfold resolveColumns, declared_columns, entry, positions_entry, errorf.
  destruct (Spec_Mode spec).
  - destruct (_ !! sp_Column spec) as [i|] eqn:E; [|done]. intros [= <-].
    apply header_index_Ok in E as [Hin Hcol]. split; [by repeat constructor|].
    intros rec Hlen. by rewrite (Hcol rec Hlen).
  - destruct (_ !! sp_KeyColumn spec) as [i|] eqn:Ek; [|done].
    destruct (_ !! sp_ValueColumn spec) as [j|] eqn:Ev; [|done]. intros [= <-].
    apply header_index_Ok in Ek as [Hk Hkc], Ev as [Hv Hvc].
    split; [by repeat constructor|]. intros rec Hlen. by rewrite (Hkc rec Hlen), (Hvc rec Hlen).
Qed.

Lemma resolveColumns_total spec header :
  Forall (.∈ header) (declared_columns spec) → ∃ pos, resolveColumns spec header = Ok pos.
Proof.
  assert (∀ name, name ∈ header → ∃ i, header_index header !! name = Some i) as Hidx.
  { intros name (i & Hf & _)%list_find_header. exists (Z.of_nat i).
    by rewrite header_index_spec, Hf. }
  unfold resolveColumns, declared_columns. destruct (Spec_Mode spec).
  - intros [Hc _]%Forall_cons. destruct (Hidx _ Hc) as [i ->]. eexists. reflexivity.
  - intros [Hk [Hv _]%Forall_cons]%Forall_cons.
    destruct (Hidx _ Hk) as [i ->], (Hidx _ Hv) as [j ->]. eexists. reflexivity.
Qed.

(** ** The loaders *)
Lemma add_entry_mode max t e t' : add_entry max t e = Some t' → t_mode t' = t_mode t.
Proof.
  unfold add_entry, addLookup, errorf. cbn -[Z.add]. repeat case_match; intros; simplify_eq/=; congruence.
Qed.

Lemma counted_row t max e :
  to_option (t ← countPhysicalRow t max;
             match t_mode t with
             | ModeMembership => Ok (addMembership t e.1)
             | ModeLookup => addLookup t e.1 e.2 0
             end) = add_entry max t e.
Proof.
  unfold countPhysicalRow, add_entry. cbn -[Z.add].
  destruct (max <? t_rowCount t + 1)%Z; [done|]. cbn -[Z.add]. by destruct (t_mode t).
Qed.

Lemma to_option_addLookup t k v row : to_option (addLookup t k v row) = to_option (addLookup t k v 0).
Proof. unfold addLookup. by case_match. Qed.

Lemma countPhysicalRow_mode t max t1 : countPhysicalRow t max = Ok t1 → t_mode t1 = t_mode t.
Proof. unfold countPhysicalRow. case_match; [done|]. by intros [= <-]. Qed.

Lemma delimited_rows_spec spec pos row t records :
  t_mode t = Spec_Mode spec →
  to_option (delimited_rows spec pos row t records) =
  (rows ← mapM to_option records; absorb (sp_MaxRows spec) t (positions_entry spec pos <$> rows)).
Proof.
  revert row t. induction records as [|[rec|e] records IH]; intros row t Hm; cbn [delimited_rows]; [done| |done].
  transitivity (t1 ← add_entry (sp_MaxRows spec) t (positions_entry spec pos rec);
                to_option (delimited_rows spec pos (row + 1) t1 records)).
  - rewrite <- counted_row. unfold positions_entry. rewrite <- Hm, !to_option_bind.
    destruct (countPhysicalRow _ _) as [t1|] eqn:Hc; [|done]. cbn [to_option mbind option_bind].
    rewrite (countPhysicalRow_mode _ _ _ Hc). destruct (t_mode t); [done|].
    rewrite to_option_bind. cbn [fst snd]. by rewrite to_option_addLookup.
  - cbn. destruct (add_entry _ _ _) as [t1|] eqn:Ha; cbn.
    + rewrite IH by (rewrite <- Hm; by eapply add_entry_mode).
      destruct (mapM to_option records); [|done]. cbn. by rewrite Ha.
    + destruct (mapM to_option records); [|done]. cbn. by rewrite Ha.
Qed.

Lemma mapM_to_option_Ok {E A} (l : list (res E A)) rows :
  mapM to_option l = Some rows ↔ l = Ok <$> rows.
Proof.
  split.
  - intros H%mapM_Some. induction H as [|[a|e] b l' rows' Hab Hl IH]; [done|..]; naive_solver.
  - intros ->. apply mapM_Some. apply Forall2_fmap_l. by apply Forall_Forall2_diag, Forall_true.
Qed.

Lemma loadDelimited_spec t spec st comma t' :
  t_mode t = Spec_Mode spec →
  loadDelimited t spec st comma = Ok t' ↔
  st_err st = None ∧
  ∃ es, delimited_entries spec comma (st_data st) = Some es ∧
        absorb (sp_MaxRows spec) t es = Some t'.
Proof.
  intros Hm. unfold loadDelimited, delimited_entries, errorf.
  destruct (sp_Header spec); cbn [negb]; [|naive_solver].
  destruct st as [data [e|]]; cbn [st_err st_data].
  { split; [|naive_solver]. pose proof (csv_read_broken comma data e) as Hb.
    destruct (csv_read comma (Stream data (Some e))) as [|[header|] records]; [done| |done].
    intros (pos & _ & Hr)%res_bind_ok. apply to_option_Ok in Hr. rewrite delimited_rows_spec in Hr by done. apply bind_Some in Hr as (rows & Hrows & _).
    apply mapM_to_option_Ok in Hrows as ->. by destruct (Hb (header :: rows)). }
  pose proof (csv_read_uniform comma (Stream (E := read_error) data None)) as Huni.
  destruct (csv_read comma (Stream data None)) as [|[header|] records]; cbn; [naive_solver| |naive_solver].
  specialize (Huni header records). transitivity (∃ es,
    (rows ← mapM to_option records;
     if bool_decide (Forall (.∈ header) (declared_columns spec))
     then mapM (λ rec, entry spec (column header rec)) rows else None) = Some es ∧
    absorb (sp_MaxRows spec) t es = Some t').
  2: { destruct (mapM to_option records); cbn; naive_solver. }
  assert (∀ rows pos, mapM to_option records = Some rows → resolveColumns spec header = Ok pos →
    mapM (λ rec, entry spec (column header rec)) rows = Some (positions_entry spec pos <$> rows))
    as Hentries.
  { intros rows pos Hrows%mapM_to_option_Ok Hpos%resolveColumns_ok. destruct Hpos as [_ Hpos].
    apply mapM_Some, Forall2_fmap_r. apply Forall_Forall2_diag, Forall_forall.
    intros rec Hin. apply Hpos. apply Huni; [done|]. subst. by apply list_elem_of_fmap_2. }
  split.
  - intros (pos & Hpos & Hr)%res_bind_ok. apply to_option_Ok in Hr. rewrite delimited_rows_spec in Hr by done. apply bind_Some in Hr as (rows & Hrows & Habs).
    pose proof (resolveColumns_ok _ _ _ Hpos) as [Hall _].
    rewrite Hrows. cbn. rewrite bool_decide_true by done.
    rewrite (Hentries rows pos) by done. eauto.
  - intros (es & (rows & Hrows & Hes)%bind_Some & Habs). case_bool_decide as Hall; [|done].
    destruct (resolveColumns_total _ _ Hall) as [pos Hpos].
    rewrite (Hentries rows pos) in Hes by done. simplify_eq. rewrite Hpos. cbn.
    apply to_option_Ok. rewrite delimited_rows_spec by done. by rewrite Hrows.
Qed.

Lemma ndjsonString_spec spec obj field row :
  to_option (ndjsonString spec obj field row) = (mget field obj ≫= unmarshal_string).
Proof.
  unfold ndjsonString, errorf. destruct (mget field obj); [|done]. cbn.
  by destruct (unmarshal_string _).
Qed.

Lemma ndjson_row_spec spec row t line :
  t_mode t = Spec_Mode spec →
  to_option (ndjson_row spec row t line) =
  (e ← ndjson_entry unmarshal_string spec line; add_entry (sp_MaxRows spec) t e).
Proof.
  intros Hm. unfold ndjson_row, ndjson_entry, entry, add_entry. rewrite <- Hm.
  unfold countPhysicalRow. cbn -[Z.add].
  destruct (sp_MaxRows spec <? t_rowCount t + 1)%Z; cbn -[Z.add].
  { destruct (unmarshal_object line); [|done]. cbn. by match goal with |- _ = (?m ≫= _) => destruct m end. }
  destruct (unmarshal_object line) as [obj|]; [|done]. cbn -[Z.add].
  destruct (t_mode t).
  - pose proof (ndjsonString_spec spec obj (sp_Column spec) row) as <-.
    by destruct (ndjsonString _ _ _ _).
  - pose proof (ndjsonString_spec spec obj (sp_KeyColumn spec) row) as <-.
    destruct (ndjsonString spec obj (sp_KeyColumn spec) row); [cbn -[Z.add addLookup]|reflexivity].
    pose proof (ndjsonString_spec spec obj (sp_ValueColumn spec) row) as <-.
    destruct (ndjsonString _ _ _ _); [cbn -[Z.add addLookup]|reflexivity]. apply to_option_addLookup.
Qed.

Lemma ndjson_rows_spec spec row t lines :
  t_mode t = Spec_Mode spec →
  to_option (fst <$> ndjson_rows spec row t lines) =
  (es ← mapM (ndjson_entry unmarshal_string spec) (filter (.≠ "") (trim_space <$> lines));
   absorb (sp_MaxRows spec) t es).
Proof.
  revert row t. induction lines as [|line lines IH]; intros row t Hm; [done|].
  cbn [ndjson_rows fmap list_fmap]. rewrite filter_cons.
  destruct (String.eqb_spec (trim_space line) "") as [He|Hne].
  { rewrite decide_False by (by rewrite He; intros []). by apply IH. }
  rewrite decide_True by done. cbn [mapM].
  pose proof (ndjson_row_spec spec (row + 1) t (trim_space line) Hm) as Hrow.
  destruct (ndjson_row spec (row + 1) t (trim_space line)) as [t1|e] eqn:E; cbn -[ndjson_row] in *.
  - destruct (ndjson_entry _ spec (trim_space line)) as [en|]; [|done]. cbn in *.
    rewrite IH by (rewrite <- Hm; by eapply add_entry_mode).
    destruct (mapM (ndjson_entry _ spec) _); [|done]. cbn. by rewrite <- Hrow.
  - destruct (ndjson_entry _ spec (trim_space line)) as [en|]; [|done]. cbn in *.
    destruct (mapM (ndjson_entry _ spec) _); [|done]. cbn. by rewrite <- Hrow.
Qed.

Lemma loadNDJSON_spec t spec st t' :
  t_mode t = Spec_Mode spec →
  loadNDJSON t spec st = Ok t' ↔
  st_err st = None ∧
  ∃ es, ndjson_entries unmarshal_string spec (st_data st) = Some es ∧ absorb (sp_MaxRows spec) t es = Some t'.
Proof.
  intros Hm. unfold loadNDJSON, ndjson_entries, ndjson_lines, errorf.
  destruct (scan_lines _ _) as [lines long].
  pose proof (ndjson_rows_spec spec 0 t lines Hm) as Hrows.
  destruct (ndjson_rows spec 0 t lines) as [[t1 row]|e]; cbn in *.
  - destruct long; [split; [done|by intros (_ & es & ? & _)]|].
    destruct (st_err st); [split; [done|by intros [? _]]|].
    destruct (mapM _ _) as [es|]; [|done]. cbn in *. split.
    + intros [= <-]. eauto.
    + intros (_ & es' & [= <-] & Ha). congruence.
  - split; [done|]. intros (_ & es & Hes & Ha).
    destruct long; [done|]. rewrite Hes in Hrows. cbn in *. congruence.
Qed.

Lemma Validate_caps spec :
  Validate spec = Ok tt → (0 < sp_MaxRows spec)%Z ∧ (0 ≤ effectiveMaxBytes spec)%Z.
Proof.
  intros H. split.
  - unfold Validate, errorf in H. repeat (case_match; try done); simplify_eq/=; apply Z.leb_gt; by repeat case_match.
  - unfold effectiveMaxBytes. destruct (Z.ltb_spec 0 (sp_MaxBytes spec)); [lia|by vm_compute].
Qed.

(** The table [Load] starts from. *)
Definition initial_table (spec : Spec) : Table := {|
  t_name := sp_Name spec; t_mode := Spec_Mode spec; t_format := sp_Format spec;
  t_membership := ∅; t_lookup := ∅; t_source := sp_Source spec; t_rowCount := 0;
  t_contentSHA256 := "";
|}.

Lemma absorb_initial spec data es t' :
  (0 < sp_MaxRows spec)%Z →
  absorb (sp_MaxRows spec) (initial_table spec) es = Some t' ↔
  (Z.of_nat (length es) ≤ sp_MaxRows spec)%Z ∧
  (Spec_Mode spec = ModeLookup → NoDup es.*1) ∧
  t' = with_entries (initial_table spec) (t_membership (table_of spec data es))
         (t_lookup (table_of spec data es)) (Z.of_nat (length es)).
Proof.
  intros Hmax. unfold table_of. destruct (Spec_Mode spec) eqn:Hm.
  - rewrite absorb_membership by (cbn; auto; lia). cbn. rewrite (right_id_L ∅ (∪)).
    split; [intros [? ->]|intros (? & _ & ->)]; split_and?; try done.
  - rewrite absorb_lookup by (cbn; auto; lia). cbn. rewrite (right_id_L ∅ (∪)).
    split; [intros (? & ? & _ & ->)|intros (? & Hnd & ->)]; split_and!; try done; auto.
Qed.

Lemma drain_is_stream c reads : ∃ c' data err, drain c reads = (c', Stream data err).
Proof. destruct (drain c reads) as [c' [data err]]. eauto. Qed.

(** The abstract contract of [Load], on the source as a whole, by the reading of
    a declared ndjson field. *)
Definition loads (as_string : string → option string) (spec : Spec) (reads : list read_result) (t : Table) : Prop :=
  Validate spec = Ok tt ∧
  ∃ data es,
    source_bytes reads = Some data ∧
    (Z.of_nat (slen data) ≤ effectiveMaxBytes spec)%Z ∧
    source_entries as_string spec data = Some es ∧
    (Z.of_nat (length es) ≤ sp_MaxRows spec)%Z ∧
    (Spec_Mode spec = ModeLookup → NoDup es.*1) ∧
    t = table_of spec data es.
Lemma Load_loads spec reads t : Load spec reads = Ok t ↔ loads unmarshal_string spec reads t.
Proof.
  unfold Load, loads. destruct (Validate spec) as [[]|e] eqn:Hv; [|by split; [|intros [? _]]].
  apply Validate_caps in Hv as [Hrows Hbytes]. cbn [mbind res_bind].
  set (c := {| cr_limit := _; cr_read := _; cr_name := _ |}).
  destruct (drain_is_stream c reads) as (c' & data & err & Hd). rewrite Hd.
  fold (initial_table spec). set (load := if sp_Format spec =s? _ then _ else _).
  assert (∀ t', load = Ok t' ↔ err = None ∧ ∃ es, source_entries unmarshal_string spec data = Some es ∧
            absorb (sp_MaxRows spec) (initial_table spec) es = Some t') as Hload.
  { intros t'. subst load. unfold source_entries, errorf.
    repeat case_match; [by apply loadDelimited_spec..|by apply loadNDJSON_spec|].
    split; [done|by intros (_ & ? & ? & _)]. }
  split.
  - intros (t' & (-> & es & Hes & Ha)%Hload & [= <-])%res_bind_ok. split; [done|].
    apply drain_spec in Hd as (Hs & Hle & ->); [|done]. cbn in Hle.
    apply (absorb_initial _ data) in Ha as (Hlen & Hnd & ->); [|done].
    exists data, es. split_and!; done.
  - intros (_ & data' & es & Hs & Hle & Hes & Hlen & Hnd & ->).
    assert (drain c reads = ({| cr_limit := cr_limit c; cr_read := Z.of_nat (slen data');
                                cr_name := cr_name c |}, Stream data' None)) as Hd'
      by (apply drain_spec; done).
    rewrite Hd' in Hd. simplify_eq.
    destruct (absorb_initial spec data es (with_entries (initial_table spec)
        (t_membership (table_of spec data es)) (t_lookup (table_of spec data es))
        (Z.of_nat (length es))) Hrows) as [_ Ha].
    rewrite (proj2 (Hload _) (conj eq_refl (ex_intro _ es (conj Hes (Ha (conj Hlen (conj Hnd eq_refl))))))).
    reflexivity.
Qed.

(** *** The reading the documentation asks for *)
Lemma unmarshal_string_strict text s :
  unmarshal_string text = Some s ↔ json_string text = Some s ∨ (json_valid text = true ∧ json_null text ∧ s = "").
Proof.
  unfold unmarshal_string, json_string, json_null. destruct (json_valid text); [|naive_solver].
  destruct (tk <$> _) as [|[] []]; naive_solver.
Qed.
Section strict.
Context (spec : Spec).
Definition null_in (line : string) : Prop :=
  ∃ obj f raw, unmarshal_object line = Some obj ∧ f ∈ declared_columns spec ∧ mget f obj = Some raw ∧ json_null raw.
Lemma field_strict (obj : list (string * string)) f s : mget f obj ≫= json_string = Some s → mget f obj ≫= unmarshal_string = Some s.
Proof. destruct (mget f obj); [|done]. cbn. intros H. apply unmarshal_string_strict. by left. Qed.
Lemma field_null line obj f s :
  unmarshal_object line = Some obj → f ∈ declared_columns spec → mget f obj ≫= unmarshal_string = Some s →
  mget f obj ≫= json_string = Some s ∨ null_in line.
Proof.
  intros Ho Hf. destruct (mget f obj) as [raw|] eqn:Hr; [|done]. cbn.
  intros [?|(_ & Hn & _)]%unmarshal_string_strict; [by left|]. right. by exists obj, f, raw.
Qed.
Lemma ndjson_entry_strict line e : ndjson_entry json_string spec line = Some e → ndjson_entry unmarshal_string spec line = Some e.
Proof.
  unfold ndjson_entry. destruct (unmarshal_object line) as [obj|]; [|done]. cbn. unfold entry. destruct (Spec_Mode spec).
  - intros (v & Hv & ->)%fmap_Some. by rewrite (field_strict _ _ _ Hv).
  - intros (k & Hk & (v & Hv & [= <-])%bind_Some)%bind_Some. by rewrite (field_strict _ _ _ Hk), (field_strict _ _ _ Hv).
Qed.
Lemma ndjson_entry_null line e :
  ndjson_entry unmarshal_string spec line = Some e → ndjson_entry json_string spec line = Some e ∨ null_in line.
Proof.
  unfold ndjson_entry. destruct (unmarshal_object line) as [obj|] eqn:Ho; [|done]. cbn.
  pose proof (λ f s, field_null line obj f s Ho) as H. unfold declared_columns in H. unfold entry. destruct (Spec_Mode spec).
  - intros (v & Hv & ->)%fmap_Some. destruct (H (sp_Column spec) v ltac:(left) Hv) as [->|?]; [by left|by right].
  - intros (k & Hk & (v & Hv & [= <-])%bind_Some)%bind_Some.
    destruct (H (sp_KeyColumn spec) k ltac:(left) Hk) as [->|?]; [|by right].
    destruct (H (sp_ValueColumn spec) v ltac:(right; left) Hv) as [->|?]; [by left|by right].
Qed.
Lemma mapM_strict lines es :
  mapM (ndjson_entry json_string spec) lines = Some es → mapM (ndjson_entry unmarshal_string spec) lines = Some es.
Proof. rewrite !mapM_Some. intros H. eapply Forall2_impl; [exact H|]. apply ndjson_entry_strict. Qed.
Lemma mapM_null lines es :
  mapM (ndjson_entry unmarshal_string spec) lines = Some es →
  mapM (ndjson_entry json_string spec) lines = Some es ∨ ∃ line, line ∈ lines ∧ null_in line.
Proof.
  rewrite !mapM_Some. induction 1 as [|line e lines es He _ IH]; [left; constructor|].
  destruct (ndjson_entry_null _ _ He) as [?|?]; [|right; exists line; split; [left|done]].
  destruct IH as [?|(l & Hl & ?)]; [left; by constructor|]. right. exists l. split; [by right|done].
Qed.
Lemma source_entries_strict data es : source_entries json_string spec data = Some es → source_entries unmarshal_string spec data = Some es.
Proof. unfold source_entries, ndjson_entries. repeat case_match; try done. apply mapM_strict. Qed.
Lemma source_entries_null data es :
  source_entries unmarshal_string spec data = Some es → source_entries json_string spec data = Some es ∨ null_declared spec data.
Proof.
  unfold source_entries, ndjson_entries. repeat case_match; try done; [by left..|].
  intros [?|(line & Hl & obj & f & raw & Hn)]%mapM_null; [by left|]. right. split; [by apply String.eqb_eq|]. by exists line, obj, f, raw.
Qed.
End strict.

(** C9: A source that its documentation accepts is loaded: the declaration is
    valid, the source ends without an error within [max_bytes], the whole-source
    reading of its format - declared ndjson fields are present and JSON strings -
    succeeds with at most [max_rows] entries, and a lookup table has no repeated
    key; the table is the one those entries make, with the row count, byte count
    and digest of the source. Nothing else is loaded, but for an ndjson source
    with a JSON null in a declared field, which may be. *)
Theorem Load_spec spec reads t :
  (loads json_string spec reads t → Load spec reads = Ok t)
  ∧ (Load spec reads = Ok t →
     loads json_string spec reads t ∨ ∃ data, source_bytes reads = Some data ∧ null_declared spec data).
Proof.
  split.
  - intros (Hv & data & es & H1 & H2 & H3 & H4). apply Load_loads. split; [done|]. exists data, es.
    by apply source_entries_strict in H3.
  - intros (Hv & data & es & H1 & H2 & H3 & H4)%Load_loads.
    destruct (source_entries_null _ _ _ H3) as [H|H]; [left; split; [done|]; by exists data, es|right; by exists data].
Qed.

(** ** The registry *)
Definition tables_map (ts : list Table) : gmap string Table :=
  list_to_map ((λ t, (t_name t, t)) <$> ts).

Lemma tables_map_names ts : ((λ t, (t_name t, t)) <$> ts).*1 = t_name <$> ts.
Proof. rewrite <- list_fmap_compose. by apply list_fmap_ext. Qed.

Lemma lookup_tables_map ts n t :
  NoDup (t_name <$> ts) → tables_map ts !! n = Some t ↔ t ∈ ts ∧ t_name t = n.
Proof.
  intros Hnd. unfold tables_map. rewrite <- elem_of_list_to_map by by rewrite tables_map_names.
  rewrite list_elem_of_fmap. naive_solver.
Qed.

Lemma tables_map_cons_union t ts m :
  t_name t ∉ (t_name <$> ts) →
  tables_map ts ∪ <[t_name t := t]> m = tables_map (t :: ts) ∪ m.
Proof.
  intros Ht. unfold tables_map. rewrite <- insert_union_r.
  - by rewrite insert_union_l.
  - apply not_elem_of_list_to_map_1. by rewrite tables_map_names.
Qed.

Lemma NewRegistry_fold tables m m' :
  foldM (λ m t,
    match t with
    | None => Ok m
    | Some t =>
        match m !! t_name t with
        | Some _ => errorf "reference table %q is declared more than once" [AStr (t_name t)]
        | None => Ok (<[t_name t := t]> m)
        end
    end) m tables = Ok m' ↔
  NoDup (t_name <$> omap id tables) ∧ (∀ t, t ∈ omap id tables → m !! t_name t = None) ∧
  m' = tables_map (omap id tables) ∪ m.
Proof.
  revert m. induction tables as [|[t|] tables IH]; intros m; cbn -[tables_map]; [|..|by apply IH].
  - assert (tables_map [] ∪ m = m) as -> by apply (left_id_L ∅ (∪)).
    split; [intros [= <-]|by intros (_ & _ & ->)].
    split_and!; [constructor|set_solver|done].
  - rewrite NoDup_cons. destruct (m !! t_name t) as [t'|] eqn:Ht; cbn -[tables_map].
    { split; [done|]. intros (_ & Hm & _). rewrite Hm in Ht; [done|left]. }
    rewrite IH. split.
    + intros (Hnd & Hm & ->).
      assert (t_name t ∉ (t_name <$> omap id tables)) as Hnin.
      { intros (t1 & Hn & Hin)%list_elem_of_fmap. apply Hm in Hin. rewrite <- Hn in Hin.
        by rewrite lookup_insert_eq in Hin. }
      split_and!; [done..| |by apply tables_map_cons_union].
      intros t1 [->|Hin]%elem_of_cons; [done|]. apply Hm in Hin.
      by apply lookup_insert_None in Hin as [? _].
    + intros ([Hnin Hnd] & Hm & ->). split_and!; [done| |by rewrite tables_map_cons_union].
      intros t1 Hin. apply lookup_insert_None. split; [apply Hm; by right|].
      intros Heq. apply Hnin. apply list_elem_of_fmap. eauto.
Qed.

Lemma elem_of_omap_id {A} (x : A) (l : list (option A)) : x ∈ omap id l ↔ Some x ∈ l.
Proof. rewrite list_elem_of_omap. unfold id. naive_solver. Qed.

Lemma NewRegistry_ok tables r :
  NewRegistry tables = Ok r ↔
  NoDup (t_name <$> omap id tables) ∧ r = {| rg_tables := tables_map (omap id tables) |}.
Proof.
  unfold NewRegistry. rewrite res_bind_ok. setoid_rewrite NewRegistry_fold.
  assert (tables_map (omap id tables) ∪ ∅ = tables_map (omap id tables)) as ->
    by apply (right_id_L ∅ (∪)).
  split.
  - intros (m & (Hnd & _ & ->) & [= <-]). done.
  - intros (Hnd & ->). eexists. split_and!; [done| |done..]. intros. apply lookup_empty.
Qed.

(** [NewRegistry] skips nil tables and succeeds exactly when the others
    have distinct names; a name then finds the table that was given under it,
    and no other name finds one. *)
Theorem NewRegistry_spec tables r :
  NewRegistry tables = Ok r ↔
  NoDup (t_name <$> omap id tables) ∧
  (∀ name t, rg_tables r !! name = Some t ↔ Some t ∈ tables ∧ t_name t = name).
Proof.
  rewrite NewRegistry_ok. split; intros [Hnd H]; (split; [done|]).
  - subst. intros name t. cbn [rg_tables]. rewrite lookup_tables_map by done.
    by rewrite elem_of_omap_id.
  - destruct r as [m]. f_equal. apply map_eq. intros name. apply option_eq. intros t.
    rewrite (H name t), lookup_tables_map by done. by rewrite elem_of_omap_id.
Qed.

Lemma name_sorted_strict l :
  StronglySorted (λ a b, name_le a b = true) l → NoDup (t_name <$> l) →
  StronglySorted (λ a b, name_le a b = true ∧ t_name a ≠ t_name b) l.
Proof.
  induction 1 as [|t l Hl IH Hall]; [constructor|]. rewrite fmap_cons, NoDup_cons.
  intros [Hnin Hnd]. constructor; [by apply IH|]. rewrite Forall_forall in Hall |- *.
  intros t' Ht'. split; [by apply Hall|]. intros Heq. apply Hnin. rewrite Heq.
  by apply list_elem_of_fmap_2.
Qed.

(** [Tables] lists exactly the tables the registry was made from, in
    strictly ascending order of their names, whatever order they were given in
    and Go's map iteration meets them in; [Len] is their number. *)
Theorem Tables_spec tables r :
  NewRegistry tables = Ok r →
  Tables (Some r) ≡ₚ omap id tables ∧
  StronglySorted (λ a b, name_le a b = true ∧ t_name a ≠ t_name b) (Tables (Some r)) ∧
  Len (Some r) = length (omap id tables).
Proof.
  intros [Hnd ->]%NewRegistry_ok. cbn [Tables Len rg_tables]. set (ts := omap id tables) in *.
  assert (NoDup ((λ t, (t_name t, t)) <$> ts).*1) as Hnd' by by rewrite tables_map_names.
  assert (map_to_list (tables_map ts) ≡ₚ (λ t, (t_name t, t)) <$> ts) as Hl
    by by apply map_to_list_to_map.
  assert ((map_to_list (tables_map ts)).*2 ≡ₚ ts) as Hp.
  { rewrite Hl, <- list_fmap_compose. by rewrite list_fmap_id. }
  assert (sort_by name_le (map_to_list (tables_map ts)).*2 ≡ₚ ts) as Hs by by rewrite sort_by_perm.
  split_and!; [done| |].
  - apply name_sorted_strict; [|by rewrite Hs]. apply sort_by_sorted; unfold name_le; intros;
      [apply sleb_total|by eapply sleb_trans].
  - rewrite <- length_map_to_list, Hl. by rewrite length_fmap.
Qed.

(** ** Queries from the DSL *)
Lemma lookup_list_to_map_mget (es : list (string * string)) k :
  (list_to_map es : gmap string string) !! k = mget k es.
Proof.
  induction es as [|[k' v] es IH]; cbn; [done|].
  destruct (decide (k = k')) as [->|Hne].
  - by rewrite lookup_insert_eq.
  - by rewrite lookup_insert_ne.
Qed.

Section queries.
Context `{UC : UnicodeCase}.

(** The registry of a run in which [spec] was loaded from [reads]. *)
Definition loaded (spec : Spec) (reads : list read_result) (tables : list (option Table))
    (r : Registry) : Prop :=
  NewRegistry tables = Ok r ∧ ∃ t, Load spec reads = Ok t ∧ Some t ∈ tables.

Lemma loaded_table spec reads tables r :
  loaded spec reads tables r →
  ∃ data es, source_bytes reads = Some data ∧ source_entries unmarshal_string spec data = Some es ∧
             rg_tables r !! sp_Name spec = Some (table_of spec data es).
Proof.
  intros (Hr & t & Hl & Hin). apply Load_loads in Hl as (_ & data & es & Hs & _ & He & _ & _ & ->).
  exists data, es. split_and!; [done..|]. apply NewRegistry_spec in Hr as [_ ->]. done.
Qed.

(** A reference call whose table argument is the literal name and whose field
    evaluates to a non-empty string comes down to the registry's answer. *)
Lemma in_reference_value env fn r name f s :
  to_lower fn = "in_reference" → ev_references env = Some (registry_lookup r) →
  EvaluateExpression env f = Ok (VString s) → s ≠ "" →
  EvaluateExpression env (ExprFunction fn [ExprConstant (VString name); f])
  = (VBool <$> Contains r name s).
Proof.
  intros Hfn Henv Hf Hs. cbn [EvaluateExpression]. unfold evaluateFunctionCall. rewrite Hfn. cbn -[EvaluateExpression Contains].
  unfold referenceFieldArg. rewrite Hf. cbn -[EvaluateExpression Contains]. rewrite Henv. by destruct s.
Qed.

Lemma lookup_reference_value env fn r name f s d :
  to_lower fn = "lookup_reference" → ev_references env = Some (registry_lookup r) →
  EvaluateExpression env f = Ok (VString s) → s ≠ "" →
  EvaluateExpression env (ExprFunction fn [ExprConstant (VString name); f; ExprConstant (VString d)])
  = (vf ← Lookup r name s; Ok (if (vf.2 : bool) then VString vf.1 else VString d)).
Proof.
  intros Hfn Henv Hf Hs. cbn [EvaluateExpression]. unfold evaluateFunctionCall. rewrite Hfn. cbn -[EvaluateExpression Lookup].
  unfold referenceFieldArg. rewrite Hf. cbn -[EvaluateExpression Lookup]. rewrite Henv. by destruct s.
Qed.
End queries.

(** A reference query against a loaded table. The table that a name finds
    is the one its source holds: [in_reference] is true exactly for the
    entries of a membership source, [lookup_reference] yields the value a
    lookup source pairs with the key and the default for any other key, and a
    query of the wrong kind is an error. *)
Theorem reference_queries_spec `{UC : UnicodeCase} spec reads tables r env inref lookref f s d :
  loaded spec reads tables r →
  to_lower inref = "in_reference" → to_lower lookref = "lookup_reference" →
  ev_references env = Some (registry_lookup r) →
  EvaluateExpression env f = Ok (VString s) → s ≠ "" →
  let name := ExprConstant (VString (sp_Name spec)) in
  let member := EvaluateExpression env (ExprFunction inref [name; f]) in
  let found := EvaluateExpression env (ExprFunction lookref [name; f; ExprConstant (VString d)]) in
  ∃ data es, source_bytes reads = Some data ∧ source_entries unmarshal_string spec data = Some es ∧
    match Spec_Mode spec with
    | ModeMembership => member = Ok (VBool (bool_decide (s ∈ es.*1))) ∧ is_ok found = false
    | ModeLookup => found = Ok (VString (default d (mget s es))) ∧ is_ok member = false
    end.
Proof.
  intros Hl Hin Hlook Henv Hf Hs name member found.
  apply loaded_table in Hl as (data & es & Hd & He & Ht).
  exists data, es. split_and!; [done..|]. subst member found name.
  erewrite in_reference_value, lookup_reference_value by done.
  unfold Contains, Lookup. rewrite Ht. unfold table_of. cbn -[EvaluateExpression].
  destruct (Spec_Mode spec); cbn -[EvaluateExpression].
  - split; [|done]. do 2 f_equal. apply bool_decide_ext. by rewrite elem_of_list_to_set.
  - split; [|done]. rewrite lookup_list_to_map_mget. by destruct (mget s es).
Qed.

(** ** Concrete tables *)
Module Samples.
Definition line (s : string) : string := s +:+ String LF "".
Definition quoted (s : string) : string := String DQ "" +:+ s +:+ String DQ "".

Definition hosts_spec : Spec := {|
  sp_Name := "hosts"; sp_Format := FormatCSV; sp_Header := true; sp_Column := "host";
  sp_KeyColumn := ""; sp_ValueColumn := ""; sp_MaxRows := 3; sp_MaxBytes := 0;
  sp_Source := {| sm_LogicalURI := "hosts.csv"; sm_CredentialsHandle := ""; sm_SizeBytes := 0 |};
|}.
Definition hosts_reads : list read_result :=
  [(line "zone,host" +:+ "eu,a.exa", ReadNil); (line "mple" +:+ line "us,b.example" +:+ "eu,a.example", ReadEOF)].

Definition zones_spec : Spec := {|
  sp_Name := "zones"; sp_Format := FormatNDJSON; sp_Header := false; sp_Column := "";
  sp_KeyColumn := "id"; sp_ValueColumn := "zone"; sp_MaxRows := 3; sp_MaxBytes := 100;
  sp_Source := {| sm_LogicalURI := "zones.ndjson"; sm_CredentialsHandle := ""; sm_SizeBytes := 0 |};
|}.
Definition zone_row (k v : string) : string :=
  line ("{" +:+ quoted "id" +:+ ": " +:+ k +:+ ", " +:+ quoted "zone" +:+ ": " +:+ v +:+ "}").
Definition zones_reads : list read_result :=
  [(zone_row (quoted "1") (quoted "eu") +:+ line "" +:+ zone_row (quoted "2") (quoted "us"), ReadNil)].

Definition load (spec : Spec) (reads : list read_result) : Table :=
  match Load spec reads with Ok t => t | Err _ => table_of spec "" [] end.
Definition tables : list (option Table) :=
  [Some (load zones_spec zones_reads); None; Some (load hosts_spec hosts_reads)].
Definition registry : Registry :=
  match NewRegistry tables with Ok r => r | Err _ => {| rg_tables := ∅ |} end.
End Samples.

Lemma Tables_spec_witness :
  NewRegistry Samples.tables = Ok Samples.registry ∧
  Tables (Some Samples.registry) ≡ₚ omap id Samples.tables.
Proof.
  assert (NewRegistry Samples.tables = Ok Samples.registry) as H by (vm_compute; reflexivity).
  split; [exact H|]. exact (proj1 (Tables_spec _ _ H)).
Defined.

Lemma reference_queries_spec_witness :
  let env := NewEvaluator [("h", VString "b.example")] (Some (registry_lookup Samples.registry)) in
  ∃ data es, source_bytes Samples.hosts_reads = Some data ∧
    source_entries unmarshal_string Samples.hosts_spec data = Some es ∧
    EvaluateExpression (UC := ascii_case) env
      (ExprFunction "in_reference" [ExprConstant (VString "hosts"); ExprVariable "h"])
    = Ok (VBool (bool_decide ("b.example" ∈ es.*1))) ∧
    es.*1 = ["a.example"; "b.example"; "a.example"].
Proof.
  intros env.
  assert (loaded Samples.hosts_spec Samples.hosts_reads Samples.tables Samples.registry) as Hl.
  { split; [vm_compute; reflexivity|]. exists (Samples.load Samples.hosts_spec Samples.hosts_reads).
    split; [vm_compute; reflexivity|]. right. right. left. }
  destruct (reference_queries_spec (UC := ascii_case) Samples.hosts_spec Samples.hosts_reads
    Samples.tables Samples.registry env "in_reference" "lookup_reference" (ExprVariable "h")
    "b.example" "") as (data & es & Hd & He & Hm & _);
    [exact Hl|reflexivity|reflexivity|reflexivity|reflexivity|discriminate|].
  exists data, es. split; [exact Hd|split; [exact He|split; [exact Hm|]]].
  vm_compute in Hd. injection Hd as <-. vm_compute in He. injection He as <-. reflexivity.
Defined.

Lemma Load_spec_witness :
  loads json_string Samples.zones_spec Samples.zones_reads (Samples.load Samples.zones_spec Samples.zones_reads)
  ∧ Load Samples.zones_spec Samples.zones_reads = Ok (Samples.load Samples.zones_spec Samples.zones_reads).
Proof.
  assert (loads json_string Samples.zones_spec Samples.zones_reads (Samples.load Samples.zones_spec Samples.zones_reads)) as H.
  { split; [vm_compute; reflexivity|].
    exists (default "" (source_bytes Samples.zones_reads)), [("1", "eu"); ("2", "us")].
    split; [vm_compute; reflexivity|]. split; [vm_compute; discriminate|]. split; [vm_compute; reflexivity|].
    split; [vm_compute; discriminate|]. split; [intros _; by apply (bool_decide_unpack _)|]. vm_compute. reflexivity. }
  split; [exact H|]. exact (proj1 (Load_spec _ _ _) H).
Defined.

(** A JSON [null] is not a string, yet it is accepted as the empty string:
    [json.Unmarshal] leaves the target variable as it is. *)
Example ndjson_null_is_accepted :
  (λ t, t_lookup t !! "1") <$>
    Load Samples.zones_spec [(Samples.zone_row (Samples.quoted "1") "null", ReadEOF)] = Ok (Some "").
Proof. vm_compute. reflexivity. Qed.

(** One byte over [max_bytes], or one row over [max_rows], and nothing loads. *)
Example over_max_bytes :
  is_ok (Load Samples.zones_spec
    [(Samples.zone_row (Samples.quoted "1") (Samples.quoted (srepeat "x" 100)), ReadEOF)]) = false.
Proof. vm_compute. reflexivity. Qed.
Example over_max_rows :
  is_ok (Load Samples.hosts_spec
    [(Samples.line "host" +:+ srepeat (Samples.line "a") 4, ReadEOF)]) = false.
Proof. vm_compute. reflexivity. Qed.
