(* ===== verification/GoPath.v ===== *)
(** * Slash-separated paths ([path/filepath] on Unix)

    [Clean], [Join], [IsAbs] and [Rel], on the components of a path. *)
From Stdlib Require Import Ascii Lia.
From stdpp Require Import base list strings sets.
From S2P Require Import Prelude GoStrings.

Definition slash : ascii := "/"%char.
Definition IsAbs (p : string) : bool := has_prefix "/" p.

(** One component of a path against the components kept so far, last one
    first. *)
Definition clean_step (rooted : bool) (stack : list string) (part : string) : list string :=
  if (part =s? "") || (part =s? ".") then stack
  else if part =s? ".." then
    match stack with
    | [] => if rooted then [] else [".."]
    | c :: rest => if c =s? ".." then part :: stack else rest
    end
  else part :: stack.
Definition clean_parts (rooted : bool) (parts : list string) : list string :=
  rev (foldl (clean_step rooted) [] parts).
(** The components of the cleaned path. *)
Definition components (p : string) : list string := clean_parts (IsAbs p) (ssplit_byte slash p).

Definition Clean (p : string) : string :=
  let body := sjoin "/" (components p) in
  if IsAbs p then "/" +:+ body else if body =s? "" then "." else body.

Definition Join (a b : string) : string :=
  if a =s? "" then (if b =s? "" then "" else Clean b) else Clean (a +:+ "/" +:+ b).

Fixpoint strip_common (a b : list string) : list string * list string :=
  match a, b with
  | x :: a', y :: b' => if x =s? y then strip_common a' b' else (a, b)
  | _, _ => (a, b)
  end.

(** The path from [base] to [targ]; [None] is an error. *)
Definition Rel (base targ : string) : option string :=
  if Clean base =s? Clean targ then Some "."
  else if negb (Bool.eqb (IsAbs base) (IsAbs targ)) then None
  else
    let '(b, t) := strip_common (components base) (components targ) in
    match b with
    | ".." :: _ => None
    | _ => Some (sjoin "/" (replicate (length b) ".." ++ t))
    end.

(** ** Lemmas *)
Lemma strip_common_spec a b a' b' :
  strip_common a b = (a', b') → ∃ p, a = p ++ a' ∧ b = p ++ b'.
Proof.
  revert b. induction a as [|x a IH]; intros [|y b]; cbn -[Ascii.eqb String.eqb]; intros H;
    [by exists []; naive_solver..|].
  destruct (String.eqb_spec x y) as [->|]; [|by exists []; naive_solver].
  apply IH in H as (p & -> & ->). by exists (y :: p).
Qed.

Lemma ssplit_byte_nonempty c s : ssplit_byte c s ≠ [].
Proof.
  destruct s as [|x s]; cbn -[Ascii.eqb]; [done|]. destruct (x =c? c); [done|].
  by destruct (ssplit_byte c s).
Qed.

Lemma ssplit_byte_app c a b :
  ssplit_byte c (a +:+ String c b) = ssplit_byte c a ++ ssplit_byte c b.
Proof.
  induction a as [|x a IH].
  - change ("" +:+ String c b) with (String c b). cbn -[Ascii.eqb]. by rewrite Ascii.eqb_refl.
  - change (String x a +:+ String c b) with (String x (a +:+ String c b)). cbn -[Ascii.eqb].
    rewrite IH. destruct (x =c? c); [done|].
    pose proof (ssplit_byte_nonempty c a). by destruct (ssplit_byte c a).
Qed.

(** A component that holds no slash and is neither empty nor a dot. *)
Definition plain (part : string) : bool :=
  negb (scontains_byte slash part) && negb ((part =s? "") || (part =s? ".")).

Lemma ssplit_byte_none c s : scontains_byte c s = false → ssplit_byte c s = [s].
Proof.
  induction s as [|x s IH]; cbn -[Ascii.eqb String.eqb]; [done|]. intros [Hx Hs]%orb_false_iff.
  rewrite Hx. by rewrite IH.
Qed.

Lemma ssplit_byte_parts c s : Forall (λ part, scontains_byte c part = false) (ssplit_byte c s).
Proof.
  induction s as [|x s IH]; cbn -[Ascii.eqb String.eqb]; [by repeat constructor|].
  destruct (x =c? c) eqn:E; [by constructor|].
  destruct (ssplit_byte c s); [constructor; [cbn -[Ascii.eqb]; by rewrite E|constructor]|].
  apply Forall_cons in IH as [Hx IH]. constructor; [cbn -[Ascii.eqb]; by rewrite E|done].
Qed.

Lemma ssplit_byte_sjoin parts :
  parts ≠ [] → Forall (λ part, scontains_byte slash part = false) parts →
  ssplit_byte slash (sjoin "/" parts) = parts.
Proof.
  intros Hne H. induction H as [|p parts Hp Hall IH]; [done|].
  destruct parts as [|q parts]; [by apply ssplit_byte_none|].
  change (sjoin "/" (p :: q :: parts)) with (p +:+ String slash (sjoin "/" (q :: parts))).
  rewrite ssplit_byte_app, ssplit_byte_none by done. by rewrite IH.
Qed.

Lemma clean_step_plain rooted stack part :
  Forall (λ p, plain p = true) stack → scontains_byte slash part = false →
  Forall (λ p, plain p = true) (clean_step rooted stack part).
Proof.
  intros Hs Hp. unfold clean_step. destruct (_ || _) eqn:E; [done|].
  assert (plain part = true) as Hpl by (unfold plain; by rewrite Hp, E).
  destruct (part =s? ".."); [|by constructor].
  destruct stack as [|c rest]; [destruct rooted; by repeat constructor|].
  destruct (c =s? ".."); [by constructor|]. by inversion Hs.
Qed.

Lemma components_plain p : Forall (λ part, plain part = true) (components p).
Proof.
  unfold components, clean_parts. apply Forall_rev. generalize (IsAbs p) as rooted. intros rooted.
  assert (Forall (λ part, plain part = true) []) as H0 by constructor. revert H0.
  generalize (@nil string) as stack. pose proof (ssplit_byte_parts slash p) as Hp.
  induction Hp as [|part parts Hpart Hall IH]; intros stack Hs; cbn -[Ascii.eqb String.eqb]; [done|].
  apply IH. by apply clean_step_plain.
Qed.

(** Plain components other than [".."] are kept as they are. *)
Lemma fold_clean_plain rooted stack parts :
  Forall (λ p, plain p = true ∧ p ≠ "..") parts →
  foldl (clean_step rooted) stack parts = rev parts ++ stack.
Proof.
  intros H. revert stack. induction H as [|p parts [Hp Hd] Hall IH]; intros stack; cbn -[Ascii.eqb String.eqb]; [done|].
  rewrite IH, <- (assoc_L (++)). f_equal. unfold clean_step.
  unfold plain in Hp. apply andb_true_iff in Hp as [_ Hp]. rewrite (proj1 (negb_true_iff _) Hp).
  destruct (String.eqb_spec p ".."); [done|]. done.
Qed.

(** [".."] survives only at the front, and not in a rooted path. *)
Definition dots_first (rooted : bool) (stack : list string) : Prop :=
  ∃ n rest, stack = rest ++ replicate n ".." ∧ Forall (λ p, p ≠ "..") rest ∧ (rooted = true → n = 0).

Lemma clean_step_dots rooted stack part :
  dots_first rooted stack → dots_first rooted (clean_step rooted stack part).
Proof.
  intros (n & rest & -> & Hrest & Hr). unfold clean_step.
  destruct (_ || _); [by exists n, rest|].
  destruct (String.eqb_spec part "..") as [->|Hne].
  2: { exists n, (part :: rest). split_and!; [done|by constructor|done]. }
  destruct rest as [|c rest]; cbn [app].
  - destruct n as [|n]; cbn [replicate].
    + destruct rooted; [by exists 0, []|]. exists 1, []. split_and!; [done|constructor|done].
    + exists (S (S n)), []. split_and!; [done|constructor|]. intros H. specialize (Hr H). done.
  - apply Forall_cons in Hrest as [Hc Hrest].
    destruct (String.eqb_spec c ".."); [done|]. by exists n, rest.
Qed.

Lemma components_dots p :
  ∃ n rest, components p = replicate n ".." ++ rest ∧ Forall (λ p, p ≠ "..") rest ∧
            (IsAbs p = true → n = 0).
Proof.
  unfold components, clean_parts.
  assert (dots_first (IsAbs p) []) as H by (exists 0, []; split_and!; [done|constructor|done]).
  revert H. generalize (@nil string) as stack. generalize (IsAbs p) as rooted. intros rooted.
  induction (ssplit_byte slash p) as [|part parts IH]; intros stack Hs; cbn [foldl].
  - destruct Hs as (n & rest & -> & Hrest & Hr). exists n, (rev rest).
    split_and!; [|by apply Forall_rev|done]. rewrite rev_app_distr. f_equal.
    rewrite rev_alt. apply reverse_replicate.
  - apply IH. by apply clean_step_dots.
Qed.

Lemma components_rooted p :
  IsAbs p = true → Forall (λ part, plain part = true ∧ part ≠ "..") (components p).
Proof.
  intros Hp. apply Forall_and. split; [apply components_plain|].
  destruct (components_dots p) as (n & rest & -> & Hrest & Hn). by rewrite Hn.
Qed.

Lemma plain_no_slash parts :
  Forall (λ p, plain p = true ∧ p ≠ "..") parts →
  Forall (λ part, scontains_byte slash part = false) parts.
Proof.
  intros H. eapply Forall_impl; [exact H|]. intros p [Hp _]. unfold plain in Hp.
  apply andb_true_iff in Hp as [Hp _]. by apply negb_true_iff.
Qed.

(** Joining plain components to a rooted path appends them. *)
Lemma clean_parts_sjoin parts stack :
  Forall (λ p, plain p = true ∧ p ≠ "..") parts →
  foldl (clean_step true) stack (ssplit_byte slash (sjoin "/" parts)) = rev parts ++ stack.
Proof.
  intros H. destruct parts as [|p parts]; [done|].
  rewrite ssplit_byte_sjoin by (done || by apply plain_no_slash).
  by apply fold_clean_plain.
Qed.

Lemma components_Clean p : IsAbs p = true → components (Clean p) = components p.
Proof.
  intros Hp. pose proof (components_rooted p Hp) as Hc.
  unfold Clean. rewrite Hp. unfold components at 1.
  change (IsAbs ("/" +:+ sjoin "/" (components p))) with true.
  change ("/" +:+ sjoin "/" (components p)) with ("" +:+ String slash (sjoin "/" (components p))).
  rewrite ssplit_byte_app. cbn [ssplit_byte app]. unfold clean_parts. cbn [foldl].
  change (clean_step true [] "") with (@nil string).
  rewrite clean_parts_sjoin by done. by rewrite (right_id_L [] (++)), rev_involutive.
Qed.

Lemma IsAbs_app a b : IsAbs a = true → IsAbs (a +:+ b) = true.
Proof. by destruct a. Qed.

Lemma components_Join root parts :
  IsAbs root = true → Forall (λ p, plain p = true ∧ p ≠ "..") parts →
  IsAbs (Join root (sjoin "/" parts)) = true ∧
  components (Join root (sjoin "/" parts)) = components root ++ parts.
Proof.
  intros Hroot Hparts. unfold Join.
  destruct (String.eqb_spec root "") as [->|_]; [done|].
  assert (IsAbs (root +:+ "/" +:+ sjoin "/" parts) = true) as Habs by by apply IsAbs_app.
  split; [unfold Clean; by rewrite Habs|].
  rewrite components_Clean by done. unfold components at 1. rewrite Habs.
  change (root +:+ "/" +:+ sjoin "/" parts) with (root +:+ String slash (sjoin "/" parts)).
  rewrite ssplit_byte_app. unfold clean_parts. rewrite foldl_app, clean_parts_sjoin by done.
  rewrite rev_app_distr, rev_involutive. unfold components, clean_parts. by rewrite Hroot.
Qed.

Lemma fold_clean_dots k n :
  foldl (clean_step false) (replicate k "..") (replicate n "..") = replicate (k + n) "..".
Proof.
  revert k. induction n as [|n IH]; intros k; cbn [replicate foldl]; [by rewrite Nat.add_0_r|].
  assert (clean_step false (replicate k "..") ".." = replicate (S k) "..") as -> by by destruct k.
  rewrite IH. f_equal. lia.
Qed.

Lemma IsAbs_sjoin parts :
  Forall (λ p, plain p = true) parts → IsAbs (sjoin "/" parts) = false.
Proof.
  intros H. destruct H as [|p parts Hp _]; [done|].
  unfold plain in Hp. apply andb_true_iff in Hp as [Hs Hp]. destruct p as [|c p]; [done|].
  assert (IsAbs (sjoin "/" (String c p :: parts)) = ("/"%char =c? c)) as ->.
  { destruct parts as [|q parts]; cbn [sjoin]; [apply andb_true_r|].
    match goal with |- context [String c p +:+ ?x] =>
      change (String c p +:+ x) with (String c (p +:+ x)) end. apply andb_true_r. }
  apply negb_true_iff in Hs. cbn -[Ascii.eqb] in Hs. apply orb_false_iff in Hs as [Hs _].
  rewrite Ascii.eqb_sym. exact Hs.
Qed.

(** Cleaning is idempotent. *)
Lemma components_Clean_any p : components (Clean p) = components p.
Proof.
  destruct (IsAbs p) eqn:Hp; [by apply components_Clean|].
  pose proof (components_plain p) as Hpl. unfold Clean. rewrite Hp.
  destruct (components_dots p) as (n & rest & Hc & Hrest & _).
  destruct (String.eqb_spec (sjoin "/" (components p)) "") as [He|Hne].
  { destruct Hpl as [|q parts Hq _]; [done|]. destruct q; [done|]. by destruct parts. }
  unfold components at 1. rewrite IsAbs_sjoin by done.
  rewrite ssplit_byte_sjoin.
  - pose proof (fold_clean_dots 0 n) as Hd. change (replicate 0 "..") with (@nil string) in Hd.
    unfold clean_parts. rewrite Hc, foldl_app, Hd, fold_clean_plain.
    + rewrite rev_app_distr, rev_involutive. f_equal. rewrite rev_alt. apply reverse_replicate.
    + rewrite Hc in Hpl. apply Forall_app in Hpl as [_ Hpl]. by apply Forall_and.
  - intros E. by rewrite E in Hne.
  - eapply Forall_impl; [exact Hpl|]. intros q Hq. unfold plain in Hq.
    apply andb_true_iff in Hq as [Hq _]. by apply negb_true_iff.
Qed.

(** The relative path between two paths climbs exactly when the base is
    not above the target. *)
Lemma Rel_inside base targ rel :
  Rel base targ = Some rel → rel ≠ ".." → has_prefix "../" rel = false →
  components base `prefix_of` components targ.
Proof.
  unfold Rel. destruct (String.eqb_spec (Clean base) (Clean targ)) as [Heq|].
  { intros _ _ _. rewrite <- (components_Clean_any base), Heq, components_Clean_any. done. }
  destruct (negb _); [done|].
  destruct (strip_common _ _) as [b t] eqn:E. apply strip_common_spec in E as (p & Hb & Ht).
  destruct b as [|c b]; [intros _ _ _; exists t; rewrite Hb, Ht; by rewrite (right_id_L [] (++))|].
  intros Hrel Hne Hpre. exfalso.
  assert (∃ rest, rel = sjoin "/" (".." :: rest)) as (rest & ->).
  { exists (replicate (length b) ".." ++ t). revert Hrel.
    repeat (case_match; try done); by intros [= <-]. }
  destruct rest as [|q rest]; [done|]. by vm_compute in Hpre.
Qed.
