(* ===== verification/RefSource.v ===== *)
(** * Containment of local reference-table sources (internal/reftable/source.go)

    [ResolveLocalSource] decides which file a table source may open. The file
    system is an interface: a theorem about it holds whatever the answers of
    [Lstat] and [EvalSymlinks] are. *)
From Stdlib Require Import Ascii Lia.
From stdpp Require Import base list strings sets.
From S2P Require Import Prelude GoStrings GoFloat GoValue GoPath.

(** What the code asks of the operating system. An operation that fails gives
    [None]. *)
Class FileSystem := {
  fs_Getwd : option string;
  fs_Lstat : string → option bool;        (* whether the file is a symlink *)
  fs_EvalSymlinks : string → option string;
}.

Section source.
Context `{FS : FileSystem}.

Definition Abs (p : string) : option string :=
  if IsAbs p then Some (Clean p) else wd ← fs_Getwd; Some (Join wd p).

(** The component loop; [cur] is the path walked so far. *)
Fixpoint reject_go (cur : string) (parts : list string) (source : string) : result () :=
  match parts with
  | [] => Ok tt
  | part :: parts =>
      if (part =s? "") || (part =s? ".") then reject_go cur parts source
      else
        let cur := Join cur part in
        match fs_Lstat cur with
        | None =>
            errorf "reference table source %q: source file not found or unreadable" [AStr source]
        | Some true =>
            errorf "reference table source %q: path component %q is a symlink; symlinked reference-table sources are not allowed"
              [AStr source; AStr part]
        | Some false => reject_go cur parts source
        end
  end.
Definition rejectSymlinkComponents (absRoot relClean source : string) : result () :=
  reject_go absRoot (ssplit_byte slash relClean) source.

(** [filepath.VolumeName] is empty on Unix. *)
Definition ResolveLocalSource (root source : string) : result string :=
  if trim_space source =s? "" then errorf "reference table source path is empty" []
  else if IsAbs source then
    errorf "reference table source %q must be a workspace-relative path, not an absolute path"
      [AStr source]
  else
    let clean := Clean source in
    if (clean =s? "..") || has_prefix "../" clean then
      errorf "reference table source %q escapes the workspace with %q" [AStr source; AStr ".."]
    else
      match Abs root with
      | None =>
          errorf "reference table source %q: cannot resolve workspace root: %w" [AStr source]
      | Some absRoot =>
          let joined := Join absRoot clean in
          _ ← rejectSymlinkComponents absRoot clean source;
          match fs_EvalSymlinks absRoot with
          | None =>
              errorf "reference table source %q: cannot resolve workspace root: %w" [AStr source]
          | Some realRoot =>
              match fs_EvalSymlinks joined with
              | None =>
                  errorf "reference table source %q: source file not found or unreadable" [AStr source]
              | Some realPath =>
                  match Rel realRoot realPath with
                  | Some rel =>
                      if (rel =s? "..") || has_prefix "../" rel
                      then errorf "reference table source %q resolves outside the workspace" [AStr source]
                      else Ok joined
                  | None => errorf "reference table source %q resolves outside the workspace" [AStr source]
                  end
              end
          end
      end.

(** ** Proofs *)

(** A relative path that does not climb has only proper components. *)
Lemma relative_components source :
  IsAbs source = false → Clean source ≠ ".." → has_prefix "../" (Clean source) = false →
  Forall (λ p, plain p = true ∧ p ≠ "..") (components source) ∧
  Clean source = (if sjoin "/" (components source) =s? "" then "." else sjoin "/" (components source)).
Proof.
  intros Habs Hne Hpre. unfold Clean in *. rewrite Habs in *. split; [|done].
  apply Forall_and. split; [apply components_plain|].
  destruct (components_dots source) as (n & rest & Hc & Hrest & _). rewrite Hc.
  destruct n as [|n]; [done|]. exfalso. rewrite Hc in Hne, Hpre.
  cbn [replicate app] in Hne, Hpre. destruct (replicate n ".." ++ rest) as [|q parts]; [done|].
  by vm_compute in Hpre.
Qed.

Lemma reject_go_ok cur parts source :
  IsAbs cur = true → Forall (λ p, plain p = true ∧ p ≠ "..") parts →
  reject_go cur parts source = Ok tt →
  ∀ n, 0 < n ≤ length parts →
    ∃ p, fs_Lstat p = Some false ∧ IsAbs p = true ∧ components p = components cur ++ take n parts.
Proof.
  intros Hcur Hall. revert cur Hcur. induction Hall as [|part parts [Hp Hd] Hall IH]; intros cur Hcur.
  { intros _ n Hn. cbn in Hn. lia. }
  cbn [reject_go length]. unfold errorf.
  assert ((part =s? "") || (part =s? ".") = false) as ->.
  { unfold plain in Hp. apply andb_true_iff in Hp as [_ Hp]. by apply negb_true_iff. }
  destruct (components_Join cur [part] Hcur) as [Habs Hc]; [by repeat constructor|].
  cbn [sjoin] in Habs, Hc.
  destruct (fs_Lstat (Join cur part)) as [[]|] eqn:El; [done| |done]. intros Hok n Hn.
  destruct (decide (n = 1)) as [->|Hn1].
  - exists (Join cur part). by rewrite Hc.
  - destruct n as [|n]; [lia|]. destruct (IH _ Habs Hok n) as (p & Hl & Hpa & Hpc); [lia|].
    exists p. split_and!; [done..|]. rewrite Hpc, Hc. cbn. by rewrite <- (assoc_L (++)).
Qed.

Lemma split_clean source :
  Forall (λ p, plain p = true ∧ p ≠ "..") (components source) →
  Clean source = (if sjoin "/" (components source) =s? "" then "." else sjoin "/" (components source)) →
  ∀ cur, reject_go cur (ssplit_byte slash (Clean source)) source
         = reject_go cur (components source) source.
Proof.
  intros Hall ->  cur. destruct Hall as [|p parts [Hp Hd] Hall]; [done|].
  set (l := p :: parts) in *.
  destruct (String.eqb_spec (sjoin "/" l) "") as [He|_].
  { destruct p; [done|]. by destruct parts. }
  rewrite ssplit_byte_sjoin; [done..|]. by apply plain_no_slash; constructor.
Qed.

Lemma join_clean_components absRoot source :
  IsAbs absRoot = true →
  Forall (λ p, plain p = true ∧ p ≠ "..") (components source) →
  Clean source = (if sjoin "/" (components source) =s? "" then "." else sjoin "/" (components source)) →
  components (Join absRoot (Clean source)) = components absRoot ++ components source.
Proof.
  intros Habs Hall Hclean.
  destruct (String.eqb_spec (sjoin "/" (components source)) "") as [He|Hne].
  - assert (components source = []) as Hc.
    { destruct Hall as [|q parts [Hq _] _]; [done|]. destruct q; [done|]. by destruct parts. }
    rewrite Hc, Hclean, (right_id_L [] (++)). unfold Join.
    destruct (String.eqb_spec absRoot "") as [->|_]; [done|]. rewrite components_Clean_any.
    change (absRoot +:+ "/" +:+ ".") with (absRoot +:+ String slash ".").
    unfold components. rewrite (IsAbs_app _ _ Habs), Habs, ssplit_byte_app.
    unfold clean_parts. by rewrite foldl_app.
  - rewrite Hclean. by apply components_Join.
Qed.

(** C33: containment. A source that is accepted is relative; the returned path
    lies below the workspace root by components none of which climbs; no
    component below the root is a symlink at the time of the check; and the
    real path of the file lies below the real path of the root. *)
Theorem ResolveLocalSource_contained root source p :
  (∀ wd, fs_Getwd = Some wd → IsAbs wd = true) →
  ResolveLocalSource root source = Ok p →
  IsAbs source = false ∧
  ∃ absRoot realRoot realPath,
    Abs root = Some absRoot ∧
    components p = components absRoot ++ components source ∧
    Forall (λ part, plain part = true ∧ part ≠ "..") (components source) ∧
    (∀ n, 0 < n ≤ length (components source) →
       ∃ q, fs_Lstat q = Some false ∧ IsAbs q = true ∧
            components q = components absRoot ++ take n (components source)) ∧
    fs_EvalSymlinks absRoot = Some realRoot ∧
    fs_EvalSymlinks p = Some realPath ∧
    components realRoot `prefix_of` components realPath.
Proof.
  intros Hwd. unfold ResolveLocalSource, errorf.
  destruct (trim_space source =s? ""); [done|].
  destruct (IsAbs source) eqn:Habs; [done|].
  destruct (_ || _) eqn:Hdots; [done|]. apply orb_false_iff in Hdots as [Hne Hpre].
  apply String.eqb_neq in Hne. destruct (relative_components source Habs Hne Hpre) as [Hall Hclean].
  destruct (Abs root) as [absRoot|] eqn:Hroot; [|done].
  intros ([] & Hrej & H)%res_bind_ok.
  destruct (fs_EvalSymlinks absRoot) as [realRoot|] eqn:Hr; [|done].
  destruct (fs_EvalSymlinks (Join absRoot (Clean source))) as [realPath|] eqn:Hpth; [|done].
  destruct (Rel realRoot realPath) as [rel|] eqn:Hrel; [|done].
  destruct (_ || _) eqn:Hout; [done|]. injection H as <-.
  apply orb_false_iff in Hout as [Hout1 Hout2]. apply String.eqb_neq in Hout1.
  assert (IsAbs absRoot = true) as Hra.
  { revert Hroot. unfold Abs. destruct (IsAbs root) eqn:E; [intros [= <-]; unfold Clean; by rewrite E|].
    intros (wd & Hw & [= <-])%bind_Some. apply Hwd in Hw. unfold Join.
    destruct (String.eqb_spec wd "") as [->|]; [done|].
    unfold Clean. by rewrite IsAbs_app. }
  split; [done|]. exists absRoot, realRoot, realPath. split_and!; try done.
  - by apply join_clean_components.
  - unfold rejectSymlinkComponents in Hrej. rewrite split_clean in Hrej by done.
    by apply (reject_go_ok _ _ source).
  - by eapply Rel_inside.
Qed.
End source.

(** A file system without symlinks, seen from [/w]. *)
Definition plain_fs : FileSystem := {|
  fs_Getwd := Some "/w";
  fs_Lstat _ := Some false;
  fs_EvalSymlinks p := Some (Clean p);
|}.

Lemma ResolveLocalSource_contained_witness :
  ResolveLocalSource (FS := plain_fs) "recipes" "data/./x/../hosts.csv"
  = Ok "/w/recipes/data/hosts.csv" ∧
  ∃ realRoot realPath,
    components realRoot = ["w"; "recipes"] ∧
    components realRoot `prefix_of` components realPath.
Proof.
  assert (ResolveLocalSource (FS := plain_fs) "recipes" "data/./x/../hosts.csv"
          = Ok "/w/recipes/data/hosts.csv") as H by (vm_compute; reflexivity).
  split; [exact H|].
  destruct (ResolveLocalSource_contained (FS := plain_fs) "recipes" "data/./x/../hosts.csv" _
    ltac:(intros wd [= <-]; reflexivity) H)
    as (_ & absRoot & realRoot & realPath & Ha & _ & _ & _ & Hr & _ & Hp).
  exists realRoot, realPath. split; [|exact Hp].
  vm_compute in Ha. injection Ha as <-. vm_compute in Hr. injection Hr as <-. reflexivity.
Defined.

Example climbing_source_is_refused :
  is_ok (ResolveLocalSource (FS := plain_fs) "recipes" "a/../../secret") = false.
Proof. vm_compute. reflexivity. Qed.
