(* ===== verification/JsonReader.v ===== *)
(** * The validating reader (internal/docnode/json/walker.go)

    Between the input and the JSON decoder sits [validatingReader]: it strips
    one UTF-8 byte order mark, refuses UTF-16 and UTF-32, and hands on only
    complete, valid UTF-8, so that the decoder meets every fault in byte order.
    The window it keeps for trailing-data messages is not modelled. *)
From Stdlib Require Import Ascii ZArith Lia.
From stdpp Require Import base list strings.
From S2P Require Import Prelude GoStrings GoUtf8 GoCsv.

(** ** [utf8.FullRune]: whether the first bytes decide the first rune *)
Definition full_rune (c : ascii) (s : string) : bool :=
  if (bcode c <? 128)%Z then true else
  match rune_lead (bcode c), s with
  | None, _ => true
  | Some _, "" => false
  | Some (n, lo, hi), String c1 s =>
      if negb (in_range lo hi (bcode c1)) then true
      else if bool_decide (n = 2) then true
      else match s with
           | "" => false
           | String c2 s =>
               if negb (cont c2) then true
               else if bool_decide (n = 3) then true
               else match s with "" => false | String _ _ => true end
           end
  end.

(** ** State *)

(** A fault of the input; [E] is the error of a failed [Read]. *)
Inductive reader_error (E : Type) :=
| invalidUTF8Error (offset : nat)
| errNotUTF8
| ReaderFailed (e : E).
Arguments invalidUTF8Error {E} offset.
Arguments errNotUTF8 {E}.
Arguments ReaderFailed {E} e.

Section reader.
Context {E : Type}.

Record validatingReader := {
  vr_r : list (string * read_status E);  (* what the input still gives *)
  vr_started : bool;
  vr_skipped : nat;
  vr_buf : string;
  vr_off : nat;
  vr_valid : nat;
  vr_pending : option (reader_error E);
  vr_eof : bool;
  vr_err : option (reader_error E);
}.

Definition newValidatingReader (r : list (string * read_status E)) : validatingReader := {|
  vr_r := r; vr_started := false; vr_skipped := 0; vr_buf := ""; vr_off := 0; vr_valid := 0;
  vr_pending := None; vr_eof := false; vr_err := None;
|}.
Definition newValidatingReaderAt (r : list (string * read_status E)) (off : nat) : validatingReader := {|
  vr_r := r; vr_started := true; vr_skipped := 0; vr_buf := ""; vr_off := off; vr_valid := 0;
  vr_pending := None; vr_eof := false; vr_err := None;
|}.

(** One [Read] of the input appended to the buffer. *)
Definition vr_fill (v : validatingReader) : validatingReader :=
  let '((data, status), rest) :=
    match vr_r v with r :: rest => (r, rest) | [] => (("", ReadEOF), []) end in
  {| vr_r := rest; vr_started := vr_started v; vr_skipped := vr_skipped v;
     vr_buf := vr_buf v +:+ data; vr_off := vr_off v; vr_valid := vr_valid v;
     vr_pending := vr_pending v;
     vr_eof := match status with ReadEOF => true | _ => vr_eof v end;
     vr_err := match status with ReadErr e => Some (ReaderFailed e) | _ => vr_err v end |}.

(** [for len(v.buf) < 4 && !v.eof && v.err == nil { v.fill() }]: [n] bounds the
    rounds; after the input's last result the reader is at its end. *)
Fixpoint fill_head (n : nat) (v : validatingReader) : validatingReader :=
  match n with
  | 0 => v
  | S n =>
      if bool_decide (slen (vr_buf v) < 4) && negb (vr_eof v)
         && match vr_err v with None => true | Some _ => false end
      then fill_head n (vr_fill v) else v
  end.

Definition byte_is (z : Z) (c : ascii) : bool := (bcode c =? z)%Z.

(** What the first bytes say: a UTF-8 byte order mark to skip, nothing, or
    another encoding. *)
Definition head_skip (head : string) : option nat :=
  match head with
  | String a (String b rest) =>
      if byte_is 239 a && byte_is 187 b && match rest with String c _ => byte_is 191 c | "" => false end
      then Some 3
      else if byte_is 255 a && byte_is 254 b || byte_is 254 a && byte_is 255 b then None
      else if byte_is 0 a || byte_is 0 b then None
      else Some 0
  | _ => Some 0
  end.

Definition with_head (v : validatingReader) (skip : nat) (err : option (reader_error E))
    : validatingReader :=
  {| vr_r := vr_r v; vr_started := true; vr_skipped := skip; vr_buf := sdrop skip (vr_buf v);
     vr_off := skip + vr_off v; vr_valid := vr_valid v; vr_pending := vr_pending v;
     vr_eof := vr_eof v; vr_err := err |}.

Definition vr_start (v : validatingReader) : validatingReader * option (reader_error E) :=
  if vr_started v then (v, vr_err v) else
  let v := fill_head (S (length (vr_r v))) v in
  let v :=
    match vr_err v with
    | Some e => with_head v 0 (Some e)
    | None =>
        match head_skip (vr_buf v) with
        | Some n => with_head v n None
        | None => with_head v 0 (Some errNotUTF8)
        end
    end in
  (v, vr_err v).

(** ** Validation *)

(** How the scan over a buffer ends: at its end, before an incomplete sequence
    or before an invalid one. *)
Inductive scan_end := ScanEnd | ScanIncomplete | ScanInvalid.

(** The bytes from [s] that are complete valid runes; [skip] counts the bytes
    of the current one still to pass. *)
Fixpoint utf8_scan (skip : nat) (s : string) : nat * scan_end :=
  match s with
  | "" => (0, ScanEnd)
  | String c t =>
      match skip with
      | S k => let '(n, e) := utf8_scan k t in (S n, e)
      | 0 =>
          if negb (full_rune c t) then (0, ScanIncomplete)
          else
            let '(r, w) := decode_rune c t in
            if (r =? RuneError)%Z && bool_decide (w ≤ 1) then (0, ScanInvalid)
            else let '(n, e) := utf8_scan (w - 1) t in (S n, e)
      end
  end.

Definition vr_scan (v : validatingReader) : validatingReader :=
  match vr_pending v with
  | Some _ => v
  | None =>
      let '(n, e) := utf8_scan 0 (sdrop (vr_valid v) (vr_buf v)) in
      {| vr_r := vr_r v; vr_started := vr_started v; vr_skipped := vr_skipped v;
         vr_buf := vr_buf v; vr_off := vr_off v; vr_valid := vr_valid v + n;
         vr_pending := match e with
                       | ScanInvalid => Some (invalidUTF8Error (vr_off v + (vr_valid v + n)))
                       | _ => None
                       end;
         vr_eof := vr_eof v; vr_err := vr_err v |}
  end.

(** [n] bytes handed on *)
Definition vr_advance (v : validatingReader) (n : nat) : validatingReader :=
  {| vr_r := vr_r v; vr_started := vr_started v; vr_skipped := vr_skipped v;
     vr_buf := sdrop n (vr_buf v); vr_off := vr_off v + n; vr_valid := vr_valid v - n;
     vr_pending := vr_pending v; vr_eof := vr_eof v; vr_err := vr_err v |}.
Definition vr_fault (v : validatingReader) (e : reader_error E) : validatingReader :=
  {| vr_r := vr_r v; vr_started := vr_started v; vr_skipped := vr_skipped v;
     vr_buf := vr_buf v; vr_off := vr_off v; vr_valid := vr_valid v;
     vr_pending := Some e; vr_eof := vr_eof v; vr_err := vr_err v |}.

(** The result of a [Read]: bytes, or the error that ends the stream ([None]
    is [io.EOF]). *)
Inductive read_out := Bytes (s : string) | Ended (e : option (reader_error E)).

(** The loop of [Read] into a buffer of [size] bytes; [n] bounds the fills. *)
Fixpoint read_loop (n size : nat) (v : validatingReader) : validatingReader * read_out :=
  let v := vr_scan v in
  if bool_decide (0 < vr_valid v) then
    let k := min size (vr_valid v) in
    (vr_advance v k, Bytes (stake k (vr_buf v)))
  else
    match vr_pending v, vr_err v with
    | Some e, _ => (v, Ended (Some e))
    | None, Some e => (v, Ended (Some e))
    | None, None =>
        if vr_eof v then
          if vr_buf v =s? "" then (v, Ended None)
          else let e := invalidUTF8Error (vr_off v) in (vr_fault v e, Ended (Some e))
        else
          match n with
          | 0 => (v, Ended None)
          | S n => read_loop n size (vr_fill v)
          end
    end.

Definition vr_Read (size : nat) (v : validatingReader) : validatingReader * read_out :=
  let '(v, e) := vr_start v in
  match e with
  | Some e => (v, Ended (Some e))
  | None => read_loop (S (length (vr_r v))) size v
  end.

(** All [Read] calls into buffers of the given sizes, up to the first error.
    Each hands on a byte at least, so [fuel] above their number is enough. *)
Fixpoint vr_drain (fuel : nat) (sizes : nat → nat) (v : validatingReader) : string * option (reader_error E) :=
  match fuel with
  | 0 => ("", None)
  | S fuel =>
      match vr_Read (sizes fuel) v with
      | (v, Bytes s) => (s +:+ (vr_drain fuel sizes v).1, (vr_drain fuel sizes v).2)
      | (_, Ended e) => ("", e)
      end
  end.

End reader.
Arguments validatingReader : clear implicits.
Arguments read_out : clear implicits.
