(* ===== verification/JsonReaderSpec.v ===== *)
(** * The validating reader: independence of chunking

    However the input is cut into [Read] results and however large the
    decoder's buffers are, the reader hands on the longest valid prefix of the
    text behind the byte order mark and then reports the first fault. *)
From Stdlib Require Import Ascii ZArith Lia.
From stdpp Require Import base list strings.
From S2P Require Import Prelude GoStrings GoUtf8 GoCsv JsonReader.

(** ** Runes under extension *)
Lemma full_rune_app c t u :
  full_rune c t = true →
  full_rune c (t +:+ u) = true ∧ decode_rune c (t +:+ u) = decode_rune c t.
Proof.
  unfold full_rune, decode_rune. destruct (bcode c <? 128)%Z; [done|].
  destruct (rune_lead (bcode c)) as [[[n lo] hi]|] eqn:Hl; [|by destruct t].
  assert (n = 2 ∨ n = 3 ∨ n = 4) as Hn.
  { unfold rune_lead in Hl. repeat case_match; simplify_eq; auto. }
  destruct t as [|c1 t]; [done|]. rewrite !sapp_cons.
  destruct (in_range lo hi (bcode c1)) eqn:E1; cbn [negb].
  2: { intros _. split; [done|].
       destruct Hn as [->|[->| ->]]; [done|..]; destruct t as [|c2 [|c3 t]]; rewrite ?sapp_cons, ?E1;
         try done; destruct u as [|u1 [|u2 u]]; rewrite ?sapp_nil_l, ?sapp_cons, ?E1; done. }
  destruct Hn as [->|[->| ->]]; cbn [bool_decide decide]; [done|..].
  - destruct t as [|c2 t]; [done|]. rewrite !sapp_cons. done.
  - destruct t as [|c2 t]; [done|]. rewrite !sapp_cons. destruct (cont c2) eqn:E2; cbn [negb].
    2: { intros _. split; [done|]. destruct t as [|c3 t]; rewrite ?sapp_cons, ?E1, ?E2; try done.
         destruct u as [|u1 u]; rewrite ?sapp_nil_l, ?E1, ?E2; done. }
    destruct t as [|c3 t]; [done|]. by rewrite !sapp_cons.
Qed.

(** ** The scan *)
Lemma utf8_scan_cons c t :
  utf8_scan 0 (String c t) =
  if negb (full_rune c t) then (0, ScanIncomplete)
  else if ((decode_rune c t).1 =? RuneError)%Z && bool_decide ((decode_rune c t).2 ≤ 1)
       then (0, ScanInvalid)
       else let '(n, e) := utf8_scan ((decode_rune c t).2 - 1) t in (S n, e).
Proof. cbn [utf8_scan]. by destruct (decode_rune c t). Qed.

Lemma utf8_scan_skip k s :
  k ≤ slen s →
  utf8_scan k s = (k + (utf8_scan 0 (sdrop k s)).1, (utf8_scan 0 (sdrop k s)).2).
Proof.
  revert k. induction s as [|c s IH]; intros [|k] Hk; try (cbn in Hk; lia).
  - done.
  - rewrite sdrop_0. by destruct (utf8_scan 0 (String c s)).
  - cbn [utf8_scan sdrop]. rewrite IH by (cbn in Hk; lia). done.
Qed.

(** Where the scan stops is within the text and stays a stop. *)
Lemma utf8_scan_stop k s n e :
  k ≤ slen s → utf8_scan k s = (n, e) → k ≤ n ≤ slen s ∧ utf8_scan 0 (sdrop n s) = (0, e).
Proof.
  revert k n. induction s as [|c s IH]; intros k n Hk H.
  - cbn in Hk. destruct k; [|lia]. cbn in H. by simplify_eq.
  - destruct k as [|k].
    + rewrite utf8_scan_cons in H. pose proof (utf8_scan_cons c s) as H0.
      destruct (negb _); [simplify_eq; rewrite sdrop_0; split; [lia|done]|].
      destruct (_ && _); [simplify_eq; rewrite sdrop_0; split; [lia|done]|].
      destruct (decode_rune c s) as [r w] eqn:Hd. apply decode_valid in Hd as [_ Hw].
      cbn [snd] in H. destruct (utf8_scan (w - 1) s) as [m e'] eqn:Hs. simplify_eq.
      apply IH in Hs as [Hle Hrest]; [|lia]. cbn [String.length sdrop]. split; [lia|done].
    + cbn [utf8_scan] in H. cbn [String.length] in Hk. destruct (utf8_scan k s) as [m e'] eqn:Hs. simplify_eq.
      apply IH in Hs as [Hle Hrest]; [|lia]. cbn [String.length sdrop]. split; [lia|done].
Qed.

(** More input changes nothing before the stop, and nothing at all behind an
    invalid sequence. *)
Lemma utf8_scan_app k a b n e :
  k ≤ slen a → utf8_scan k a = (n, e) →
  utf8_scan k (a +:+ b) =
  match e with
  | ScanInvalid => (n, ScanInvalid)
  | _ => (n + (utf8_scan 0 (sdrop n a +:+ b)).1, (utf8_scan 0 (sdrop n a +:+ b)).2)
  end.
Proof.
  revert k n. induction a as [|c a IH]; intros k n Hk H.
  - cbn in Hk. destruct k; [|lia]. cbn in H. simplify_eq. rewrite sdrop_0. by destruct (utf8_scan 0 _).
  - rewrite sapp_cons. destruct k as [|k].
    + rewrite utf8_scan_cons in H. destruct (full_rune c a) eqn:Hf; cbn [negb] in H.
      2: { simplify_eq. rewrite sdrop_0, sapp_cons. by destruct (utf8_scan 0 _). }
      destruct (full_rune_app c a b Hf) as [Hf' Hd]. rewrite utf8_scan_cons, Hf', Hd. cbn [negb].
      destruct (_ && _); [by simplify_eq|].
      destruct (decode_rune c a) as [r w] eqn:Hdec. apply decode_valid in Hdec as [_ Hw].
      cbn [snd] in H |- *. destruct (utf8_scan (w - 1) a) as [m e'] eqn:Hs. simplify_eq.
      rewrite (IH (w - 1) _ ltac:(lia) Hs). cbn [sdrop]. by destruct e.
    + cbn [utf8_scan] in H |- *. cbn [String.length] in Hk. destruct (utf8_scan k a) as [m e'] eqn:Hs. simplify_eq.
      rewrite (IH k _ ltac:(lia) Hs). cbn [sdrop]. by destruct e.
Qed.

Lemma stake_add m n s : stake (m + n) s = stake m s +:+ stake n (sdrop m s).
Proof.
  revert s. induction m as [|m IH]; intros s; [by rewrite sdrop_0|].
  destruct s as [|c s]; [by destruct n|]. cbn [Nat.add stake sdrop]. by rewrite sapp_cons, IH.
Qed.

(** ** What is still to come *)
Section reader.
Context {E : Type}.
Implicit Types (v : validatingReader E) (r : list (string * read_status E)).

(** The bytes of the input up to its end, and the error there. *)
Fixpoint input r : string * option E :=
  match r with
  | [] => ("", None)
  | (d, ReadEOF) :: _ => (d, None)
  | (d, ReadErr e) :: _ => (d, Some e)
  | (d, ReadNil) :: r => (d +:+ (input r).1, (input r).2)
  end.

Definition remaining v : string :=
  vr_buf v +:+ (if vr_eof v then "" else match vr_err v with Some _ => "" | None => (input (vr_r v)).1 end).
Definition ending v : option (reader_error E) :=
  if vr_eof v then None
  else match vr_err v with Some e => Some e | None => ReaderFailed <$> (input (vr_r v)).2 end.

(** The fault a scan that stopped at offset [off] ends in. *)
Definition fault (off : nat) (e : scan_end) (fin : option (reader_error E)) : option (reader_error E) :=
  match e with
  | ScanEnd => fin
  | ScanInvalid => Some (invalidUTF8Error off)
  | ScanIncomplete => match fin with Some e => Some e | None => Some (invalidUTF8Error off) end
  end.

(** All the reader will still hand on, and what it will end in. *)
Definition outcome v : string * option (reader_error E) :=
  let '(n, e) := utf8_scan 0 (sdrop (vr_valid v) (remaining v)) in
  (stake (vr_valid v + n) (remaining v), fault (vr_off v + (vr_valid v + n)) e (ending v)).

Definition reader_ok v : Prop :=
  vr_started v = true ∧ vr_valid v ≤ slen (vr_buf v) ∧ (vr_eof v = true → vr_err v = None) ∧
  (∀ e, vr_pending v = Some e →
     utf8_scan 0 (sdrop (vr_valid v) (vr_buf v)) = (0, ScanInvalid) ∧
     e = invalidUTF8Error (vr_off v + vr_valid v)).

(** A source whose failing [Read] delivers no bytes, as a file's does. *)
Definition clean_errors r : Prop := Forall (λ x, match x.2 with ReadErr _ => x.1 = "" | _ => True end) r.
(** A stored read error is what comes next. *)
Definition err_next v : Prop := ∀ e, vr_err v = Some e → outcome v = ("", Some e).

Lemma remaining_buf v : ∃ t, remaining v = vr_buf v +:+ t.
Proof. unfold remaining. eauto. Qed.

Lemma vr_scan_ok v :
  reader_ok v →
  reader_ok (vr_scan v) ∧ outcome (vr_scan v) = outcome v ∧
  (vr_pending (vr_scan v) = None →
   ∃ e, utf8_scan 0 (sdrop (vr_valid (vr_scan v)) (vr_buf v)) = (0, e) ∧ e ≠ ScanInvalid).
Proof.
  intros (Hst & Hv & Hee & Hp). unfold vr_scan. destruct (vr_pending v) as [p|] eqn:Epend.
  { split; [unfold reader_ok; rewrite Epend; by split_and!|]. split; [done|congruence]. }
  destruct (utf8_scan 0 (sdrop (vr_valid v) (vr_buf v))) as [n e] eqn:Es.
  pose proof (utf8_scan_stop 0 _ _ _ ltac:(lia) Es) as [Hn Hstop]. rewrite slen_sdrop in Hn.
  rewrite sdrop_sdrop in Hstop.
  split_and!.
  - split_and!; cbn; [done|lia|done|]. intros e' He. destruct e; simplify_eq. done.
  - unfold outcome, remaining, ending. cbn. rewrite !sdrop_app_le by lia.
    rewrite (utf8_scan_app 0 _ _ _ _ ltac:(lia) Es), sdrop_sdrop.
    destruct e; cbn.
    + destruct (utf8_scan 0 (_ +:+ _)) as [m e']. cbn. by rewrite !Nat.add_assoc.
    + destruct (utf8_scan 0 (_ +:+ _)) as [m e']. cbn. by rewrite !Nat.add_assoc.
    + rewrite (utf8_scan_app 0 _ _ _ _ ltac:(lia) Hstop). by rewrite Nat.add_0_r.
  - cbn. destruct e; [eexists; split; [exact Hstop|done]..|done].
Qed.

Lemma vr_fill_ok v :
  reader_ok v → vr_pending v = None → vr_eof v = false → vr_err v = None →
  reader_ok (vr_fill v) ∧ outcome (vr_fill v) = outcome v ∧ vr_pending (vr_fill v) = None ∧
  (vr_eof (vr_fill v) = false → vr_err (vr_fill v) = None →
   length (vr_r v) = S (length (vr_r (vr_fill v)))).
Proof.
  intros (Hst & Hv & Hee & Hp) Hpend Heof Herr.
  assert (remaining (vr_fill v) = remaining v ∧ ending (vr_fill v) = ending v) as [Hr Hend].
  { unfold remaining, ending, vr_fill. rewrite Heof, Herr.
    destruct (vr_r v) as [|[d [| |e]] rest]; cbn; rewrite ?Herr; cbn; rewrite ?sapp_nil_r; [done| | |done].
    - by rewrite sapp_assoc.
    - done. }
  assert (vr_valid (vr_fill v) = vr_valid v ∧ vr_off (vr_fill v) = vr_off v ∧
          vr_pending (vr_fill v) = None ∧ vr_started (vr_fill v) = true) as (Hval & Hoff & Hpd & Hs).
  { unfold vr_fill. by destruct (vr_r v) as [|[d st] rest]. }
  split_and!; try done.
  - split_and!; [done| | |by rewrite Hpd].
    + rewrite Hval. unfold vr_fill. destruct (vr_r v) as [|[d st] rest]; cbn; rewrite slen_app; lia.
    + unfold vr_fill. rewrite Heof, Herr. by destruct (vr_r v) as [|[d [| |e]] rest].
  - unfold outcome. by rewrite Hr, Hend, Hval, Hoff.
  - unfold vr_fill. rewrite Heof, Herr. by destruct (vr_r v) as [|[d [| |e]] rest].
Qed.

Lemma vr_advance_ok v k :
  reader_ok v → k ≤ vr_valid v →
  reader_ok (vr_advance v k) ∧
  outcome v = (stake k (vr_buf v) +:+ (outcome (vr_advance v k)).1, (outcome (vr_advance v k)).2).
Proof.
  intros (Hst & Hv & Hee & Hp) Hk. split.
  - split_and!; cbn; [done|rewrite slen_sdrop; lia|done|]. intros e He.
    apply Hp in He as [Hs ->]. rewrite sdrop_sdrop. replace (k + (vr_valid v - k)) with (vr_valid v) by lia.
    split; [done|]. f_equal. lia.
  - unfold outcome. assert (remaining (vr_advance v k) = sdrop k (remaining v)) as Hr.
    { unfold remaining. cbn. by rewrite sdrop_app_le by lia. }
    change (ending (vr_advance v k)) with (ending v).
    change (vr_valid (vr_advance v k)) with (vr_valid v - k).
    change (vr_off (vr_advance v k)) with (vr_off v + k).
    rewrite Hr, sdrop_sdrop. replace (k + (vr_valid v - k)) with (vr_valid v) by lia.
    destruct (utf8_scan 0 (sdrop (vr_valid v) (remaining v))) as [n e]. cbn [fst snd].
    replace (vr_off v + k + (vr_valid v - k + n)) with (vr_off v + (vr_valid v + n)) by lia. f_equal.
    assert (stake k (vr_buf v) = stake k (remaining v)) as ->
      by (destruct (remaining_buf v) as [t ->]; by rewrite stake_app_le by lia).
    replace (vr_valid v + n) with (k + (vr_valid v - k + n)) by lia. apply stake_add.
Qed.

(** The loop without a fill: nothing is left to hand on. *)
Definition read_stop w : validatingReader E * read_out E :=
  match vr_pending w, vr_err w with
  | Some e, _ => (w, Ended (Some e))
  | None, Some e => (w, Ended (Some e))
  | None, None =>
      if vr_buf w =s? "" then (w, Ended None)
      else (vr_fault w (invalidUTF8Error (vr_off w)), Ended (Some (invalidUTF8Error (vr_off w))))
  end.

Lemma read_stop_ok w v' o :
  reader_ok w → ¬ 0 < vr_valid w →
  (vr_pending w = None →
   ∃ e, utf8_scan 0 (sdrop (vr_valid w) (vr_buf w)) = (0, e) ∧ e ≠ ScanInvalid) →
  (vr_pending w = None → vr_err w = None → vr_eof w = true) →
  read_stop w = (v', o) → ∃ e, o = Ended e ∧ outcome w = ("", e).
Proof.
  intros (Hst & Hv & Hee & Hp) Hval Hscan Hend. unfold read_stop, outcome.
  replace (vr_valid w) with 0 in * by lia. rewrite sdrop_0, ?Nat.add_0_r in *.
  destruct (vr_pending w) as [p|].
  { intros [= <- <-]. eexists. split; [done|]. destruct (Hp p eq_refl) as [Hs ->].
    destruct (remaining_buf w) as [t ->]. rewrite (utf8_scan_app 0 _ _ _ _ ltac:(lia) Hs). by rewrite !Nat.add_0_r. }
  destruct (Hscan eq_refl) as (e & Hs & Hne). specialize (Hend eq_refl).
  assert (remaining w = vr_buf w) as ->.
  { unfold remaining. destruct (vr_err w); [|rewrite Hend by done]; destruct (vr_eof w); apply sapp_nil_r. }
  rewrite Hs. unfold ending, fault.
  destruct (vr_err w) as [x|].
  { intros [= <- <-]. eexists. split; [done|]. destruct (vr_eof w); [by specialize (Hee eq_refl)|].
    by destruct e. }
  rewrite Hend by done. destruct (eqs_spec (vr_buf w) "") as [Hb|Hb]; intros [= <- <-];
    (eexists; split; [done|]); rewrite ?Nat.add_0_r.
  - rewrite Hb in Hs. cbn in Hs. by simplify_eq.
  - destruct e; [|done..]. destruct (vr_buf w) as [|c t]; [done|].
    rewrite utf8_scan_cons in Hs. repeat case_match; simplify_eq.
Qed.

Lemma vr_scan_frame v :
  vr_r (vr_scan v) = vr_r v ∧ vr_eof (vr_scan v) = vr_eof v ∧ vr_err (vr_scan v) = vr_err v ∧
  vr_buf (vr_scan v) = vr_buf v.
Proof.
  unfold vr_scan. destruct (vr_pending v); [done|].
  by destruct (utf8_scan 0 (sdrop (vr_valid v) (vr_buf v))).
Qed.

Lemma vr_fill_err v :
  reader_ok v → vr_pending v = None → vr_eof v = false → vr_err v = None →
  clean_errors (vr_r v) →
  ¬ 0 < vr_valid v →
  (∃ e, utf8_scan 0 (sdrop (vr_valid v) (vr_buf v)) = (0, e) ∧ e ≠ ScanInvalid) →
  clean_errors (vr_r (vr_fill v)) ∧ err_next (vr_fill v).
Proof.
  intros _ Hpend Heof Herr Hclean Hval (e & Hs & Hne). replace (vr_valid v) with 0 in Hs by lia.
  rewrite sdrop_0 in Hs. unfold err_next, outcome, remaining, ending.
  replace (vr_valid (vr_fill v)) with 0 by
    (unfold vr_fill; destruct (vr_r v) as [|[d st] rest]; cbn; lia).
  unfold vr_fill. destruct (vr_r v) as [|[d st] rest]; cbn; rewrite ?Heof, ?Herr; [by split; [constructor|]|].
  apply Forall_cons in Hclean as [Hd Hclean]. split; [done|]. intros x Hx.
  destruct st as [| |y]; [done..|]. cbn in Hd. subst d. simplify_eq. rewrite ?sapp_nil_r, ?sdrop_0, Hs.
  by destruct e.
Qed.

Lemma read_bytes_ok w size :
  reader_ok w → clean_errors (vr_r w) → err_next w → 0 < size → 0 < vr_valid w →
  let k := min size (vr_valid w) in
  reader_ok (vr_advance w k) ∧ clean_errors (vr_r (vr_advance w k)) ∧
  vr_err (vr_advance w k) = None ∧ stake k (vr_buf w) ≠ "" ∧
  outcome w = (stake k (vr_buf w) +:+ (outcome (vr_advance w k)).1, (outcome (vr_advance w k)).2).
Proof.
  intros Hok Hclean Herrn Hsize Hval k. pose proof Hok as (_ & Hle & _).
  destruct (vr_advance_ok w k Hok ltac:(lia)) as [Ha Ho].
  assert (stake k (vr_buf w) ≠ "") as Hne.
  { intros He. apply (f_equal slen) in He. rewrite slen_stake in He. cbn in He. lia. }
  split_and!; [by apply Ha..|done| |done|done].
  cbn. destruct (vr_err w) as [e|] eqn:Ee; [|done]. specialize (Herrn e Ee). rewrite Herrn in Ho.
  injection Ho as He _. destruct (stake k (vr_buf w)); [done|]. by rewrite sapp_cons in He.
Qed.

(** One [Read] yields the next bytes of the outcome or its end. *)
Lemma read_loop_ok n size v v' o :
  reader_ok v → clean_errors (vr_r v) → err_next v → 0 < size →
  (vr_eof v = false → vr_err v = None → length (vr_r v) < n) →
  read_loop n size v = (v', o) →
  match o with
  | Bytes s => reader_ok v' ∧ clean_errors (vr_r v') ∧ vr_err v' = None ∧ s ≠ "" ∧ outcome v = (s +:+ (outcome v').1, (outcome v').2)
  | Ended e => outcome v = ("", e)
  end.
Proof.
  intros Hok Hclean Herrn Hsize. revert v Hok Hclean Herrn.
  induction n as [|n IH]; intros v Hok Hclean Herrn Hn Hloop;
    apply vr_scan_ok in Hok as (Hok & Hout & Hscan); cbn [read_loop] in Hloop;
    unfold err_next in Herrn; rewrite <- Hout in Herrn |- *;
    destruct (vr_scan_frame v) as (Hr & Heof & Herr & Hbuf);
    rewrite <- Hr, <- Heof, <- Herr in Hn; rewrite <- Hbuf in Hscan; rewrite <- Herr in Herrn;
    rewrite <- Hr in Hclean;
    clear Hout Hr Heof Herr Hbuf; set (w := vr_scan v) in *; clearbody w; clear v;
    (destruct (bool_decide (0 < vr_valid w)) eqn:Hval;
     [apply bool_decide_eq_true in Hval|apply bool_decide_eq_false in Hval]).
  1, 3: injection Hloop as <- <-; exact (read_bytes_ok w size Hok Hclean Herrn Hsize Hval).
  - assert (vr_pending w = None → vr_err w = None → vr_eof w = true) as Hend.
    { intros _ He. destruct (vr_eof w); [done|]. specialize (Hn eq_refl He). lia. }
    destruct (read_stop_ok w v' o Hok Hval Hscan Hend) as (e & -> & ?); [|done].
    rewrite <- Hloop. unfold read_stop. destruct (vr_pending w); [done|].
    destruct (vr_err w); [done|]. by rewrite Hend.
  - destruct (decide (vr_pending w = None ∧ vr_err w = None ∧ vr_eof w = false)) as [(Hp & He & Hf)|Hend].
    + rewrite Hp, He, Hf in Hloop. destruct (vr_fill_ok w Hok Hp Hf He) as (Hok' & <- & _ & Hlen).
      destruct (vr_fill_err w Hok Hp Hf He Hclean Hval (Hscan Hp)) as [Hclean' Herrn'].
      apply (IH _ Hok' Hclean' Herrn'); [|done]. intros Hf' He'.
      specialize (Hn Hf He). specialize (Hlen Hf' He'). lia.
    + assert (vr_pending w = None → vr_err w = None → vr_eof w = true) as Hend'.
      { intros Hp He. destruct (vr_eof w) eqn:Hf; [done|]. by destruct Hend. }
      destruct (read_stop_ok w v' o Hok Hval Hscan Hend') as (e & -> & ?); [|done].
      rewrite <- Hloop. unfold read_stop. destruct (vr_pending w); [done|].
      destruct (vr_err w); [done|]. by rewrite Hend'.
Qed.

Lemma vr_Read_ok size v v' o :
  reader_ok v → clean_errors (vr_r v) → err_next v → 0 < size →
  vr_Read size v = (v', o) →
  match o with
  | Bytes s => reader_ok v' ∧ clean_errors (vr_r v') ∧ err_next v' ∧ s ≠ "" ∧
               outcome v = (s +:+ (outcome v').1, (outcome v').2)
  | Ended e => outcome v = ("", e)
  end.
Proof.
  intros Hok Hclean Herrn Hsize. unfold vr_Read, vr_start.
  pose proof Hok as (Hst & _). rewrite Hst. destruct (vr_err v) as [e|] eqn:Ee.
  { intros [= <- <-]. by apply Herrn. }
  intros Hloop. apply read_loop_ok in Hloop; [|done..|lia]. destruct o as [s|e]; [|done].
  destruct Hloop as (? & ? & He & ? & ?). split_and!; try done; [by apply H..|].
  intros x Hx. congruence.
Qed.

Lemma vr_drain_ok fuel sizes v :
  (∀ i, 0 < sizes i) → reader_ok v → clean_errors (vr_r v) → err_next v →
  slen (outcome v).1 < fuel → vr_drain fuel sizes v = outcome v.
Proof.
  intros Hsizes. revert v. induction fuel as [|fuel IH]; intros v Hok Hclean Herrn Hlen; [lia|].
  cbn [vr_drain]. destruct (vr_Read (sizes fuel) v) as [v' o] eqn:Hr.
  apply vr_Read_ok in Hr; [|done..]. destruct o as [s|e]; [|done].
  destruct Hr as (Hok' & Hclean' & Herrn' & Hs & Ho). rewrite Ho in Hlen |- *.
  cbn [fst] in Hlen. rewrite slen_app in Hlen. assert (slen s ≠ 0) by by rewrite slen_0.
  rewrite IH; [done..|lia].
Qed.

(** ** The first bytes *)
Lemma head_skip_app s t : 3 ≤ slen s → head_skip (s +:+ t) = head_skip s.
Proof. destruct s as [|a [|b [|c s]]]; cbn [String.length]; try lia. by rewrite !sapp_cons. Qed.

Lemma head_skip_le s n : head_skip s = Some n → n ≤ slen s.
Proof.
  unfold head_skip. destruct s as [|a [|b [|c s]]]; cbn; repeat case_match; intros; simplify_eq; lia.
Qed.

(** The state before the first byte is handed on. *)
Definition at_head v : Prop :=
  vr_valid v = 0 ∧ vr_pending v = None ∧ vr_off v = 0 ∧ (vr_eof v = true → vr_err v = None) ∧
  (∀ e, vr_err v = Some e → slen (vr_buf v) < 4) ∧ clean_errors (vr_r v).

Lemma fill_head_ok n v :
  at_head v → (vr_eof v = false → vr_err v = None → length (vr_r v) < n) →
  at_head (fill_head n v) ∧ remaining (fill_head n v) = remaining v ∧
  ending (fill_head n v) = ending v ∧
  (4 ≤ slen (vr_buf (fill_head n v)) ∨ vr_eof (fill_head n v) = true ∨ vr_err (fill_head n v) ≠ None).
Proof.
  revert v. induction n as [|n IH]; intros v Hv Hn; cbn [fill_head].
  { split_and!; [done..|]. destruct (vr_eof v); [auto|]. destruct (vr_err v); [auto|].
    specialize (Hn eq_refl eq_refl). lia. }
  case_bool_decide as Hlen; cbn [andb]; [|split_and!; [done..|left; lia]].
  destruct (vr_eof v) eqn:Heof; cbn [negb andb]; [split_and!; auto|].
  destruct (vr_err v) eqn:Herr; [split_and!; [done..|right; right; congruence]|].
  destruct Hv as (Hval & Hpend & Hoff & Hee & Herrlen & Hclean).
  assert (remaining (vr_fill v) = remaining v ∧ ending (vr_fill v) = ending v) as [<- <-].
  { unfold remaining, ending, vr_fill. rewrite Heof, Herr.
    destruct (vr_r v) as [|[d [| |e]] rest]; cbn; rewrite ?Herr; cbn; rewrite ?sapp_nil_r; try done.
    by rewrite sapp_assoc. }
  apply IH.
  - unfold vr_fill, at_head. destruct (vr_r v) as [|[d st] rest]; cbn.
    + split_and!; try done; intros; congruence.
    + apply Forall_cons in Hclean as [Hd Hclean]. split_and!; try done.
      * destruct st; intros; congruence.
      * intros e. destruct st; rewrite ?Herr; try done. intros _. cbn in Hd. subst. by rewrite sapp_nil_r.
  - unfold vr_fill. destruct (vr_r v) as [|[d [| |e]] rest] eqn:Er; cbn; try done.
    intros _ _. specialize (Hn eq_refl eq_refl). cbn in Hn. lia.
Qed.

(** ** The contract *)

(** The text behind a byte order mark up to its first fault, and that fault. *)
Definition validated (data : string) (fin : option E) : string * option (reader_error E) :=
  if match fin with Some _ => bool_decide (slen data < 4) | None => false end
  then ("", ReaderFailed <$> fin)
  else
    match head_skip data with
    | None => ("", Some errNotUTF8)
    | Some k =>
        let '(n, e) := utf8_scan 0 (sdrop k data) in
        (stake n (sdrop k data), fault (k + n) e (ReaderFailed <$> fin))
    end.

Lemma vr_start_ok r v e :
  clean_errors r → vr_start (newValidatingReader r) = (v, e) →
  match e with
  | Some e => validated (input r).1 (input r).2 = ("", Some e)
  | None => reader_ok v ∧ clean_errors (vr_r v) ∧ vr_err v = None ∧
            outcome v = validated (input r).1 (input r).2
  end.
Proof.
  intros Hclean. unfold vr_start. cbn [vr_started newValidatingReader vr_r].
  destruct (fill_head_ok (S (length r)) (newValidatingReader r)) as (Hh & Hr & Hend & Hstop).
  { split_and!; try done. } { cbn. lia. }
  revert Hh Hr Hend Hstop. generalize (fill_head (S (length r)) (newValidatingReader r)).
  intros w (Hval & Hpend & Hoff & Hee & Herrlen & Hcl) Hr Hend Hstop.
  unfold remaining in Hr. cbn in Hr. rewrite sapp_nil_l in Hr. unfold ending in Hend. cbn in Hend.
  destruct (vr_err w) as [x|] eqn:Ee.
  { intros [= <- <-]. unfold validated. destruct (vr_eof w); [by specialize (Hee eq_refl)|].
    rewrite sapp_nil_r in Hr. rewrite <- Hr, <- Hend. specialize (Herrlen x eq_refl).
    destruct (input r) as [data [fin|]]; [|done]. cbn in *. by rewrite bool_decide_true. }
  destruct (input r) as [data fin]. cbn [fst snd] in *. set (tail := if vr_eof w then _ else _) in Hr.
  assert (head_skip (vr_buf w) = head_skip data ∧
          match fin with Some _ => bool_decide (slen data < 4) | None => false end = false)
    as [Hhead Hshort].
  { destruct Hstop as [Hlen|[Heof|]]; [| |done].
    - rewrite <- Hr, head_skip_app, slen_app by lia. split; [done|].
      destruct fin; [|done]. apply bool_decide_eq_false. lia.
    - subst tail. rewrite Heof, sapp_nil_r in Hr. subst data. rewrite Heof in Hend. by destruct fin. }
  unfold validated. rewrite Hshort, <- Hhead.
  destruct (head_skip (vr_buf w)) as [k|] eqn:Hk; [|by intros [= <- <-]].
  apply head_skip_le in Hk. intros [= <- <-]. cbn.
  assert (remaining (with_head w k None) = sdrop k data) as Hrem.
  { unfold remaining. cbn. rewrite <- Hr, sdrop_app_le by done. done. }
  split_and!; try done; [unfold reader_ok; cbn; rewrite Hval, Hpend; by split_and!; try lia|].
  unfold outcome. rewrite Hrem. cbn [vr_valid vr_off with_head]. rewrite Hval, Hoff, sdrop_0, Nat.add_0_r.
  by assert (ending (with_head w k None) = ReaderFailed <$> fin) as ->.
Qed.

(** C31: the contract of the validating reader. For every way the input is cut
    into [Read] results, where a failing read brings no bytes (those of one that
    does can be lost, see [bytes_of_a_failing_read_are_lost]), and every choice of
    buffer sizes, the bytes handed on
    are those of the longest valid prefix behind an optional byte order mark,
    and they are followed by the first fault: UTF-16 or UTF-32 input, the
    offset of an invalid or incomplete sequence, a failed read, or the end. *)
Theorem validatingReader_chunks r sizes fuel :
  clean_errors r → (∀ i, 0 < sizes i) → slen (input r).1 < fuel →
  vr_drain fuel sizes (newValidatingReader r) = validated (input r).1 (input r).2.
Proof.
  intros Hclean Hsizes Hfuel. destruct (vr_start (newValidatingReader r)) as [v e] eqn:Hs.
  pose proof (vr_start_ok r v e Hclean Hs) as Hstart.
  destruct fuel as [|fuel]; [lia|]. destruct e as [e|].
  { cbn [vr_drain]. unfold vr_Read. by rewrite Hs. }
  destruct Hstart as (Hok & Hcl & Herr & Ho).
  transitivity (vr_drain (S fuel) sizes v).
  - cbn [vr_drain]. assert (vr_Read (sizes fuel) (newValidatingReader r) = vr_Read (sizes fuel) v) as ->; [|done].
    unfold vr_Read. rewrite Hs. unfold vr_start. destruct Hok as (-> & _). by rewrite Herr.
  - rewrite <- Ho. apply vr_drain_ok; try done; [intros x; congruence|].
    rewrite Ho. unfold validated. case_match; [cbn; lia|].
    destruct (head_skip _) as [k|]; [|cbn; lia]. destruct (utf8_scan _ _) as [n e].
    cbn [fst]. rewrite slen_stake, slen_sdrop. lia.
Qed.
End reader.

(** A euro sign cut between two reads, then an invalid byte: the reader hands
    on the whole character and names the offset of the fault. *)
Definition euro_reads : list (string * read_status Empty_set) :=
  [("[" +:+ String "226" (String "130" ""), ReadNil); (String "172" ("]" +:+ String "255" ""), ReadEOF)].
Lemma validatingReader_chunks_witness :
  clean_errors euro_reads ∧
  vr_drain 10 (λ i, S i) (newValidatingReader euro_reads)
  = validated (input euro_reads).1 (input euro_reads).2 ∧
  (validated (input euro_reads).1 (input euro_reads).2).2 = Some (invalidUTF8Error 5).
Proof.
  assert (clean_errors euro_reads) as Hc by (repeat constructor).
  split; [exact Hc|split; [|vm_compute; reflexivity]].
  apply validatingReader_chunks; [exact Hc|intros; lia|]. vm_compute. lia.
Defined.

(** When the failing read delivers bytes with its error, they are lost. *)
Example bytes_of_a_failing_read_are_lost :
  vr_drain 10 (λ i, 512)
    (newValidatingReader (E := ()) [("[1,2,3]", ReadErr tt)]) = ("", Some (ReaderFailed tt)).
Proof. vm_compute. reflexivity. Qed.
