(* ===== verification/JsonWalk.v ===== *)
(** * The JSON walker and its tree (internal/docnode/json: walker.go, parse.go,
    tree.go, record.go)

    [walk] reads a document's tokens, enforces the structural guards and tells
    a [Handler] of its elements; [treeBuilder] is the handler that builds the
    navigable tree. The walker sees the text the validating reader hands on,
    as the token stream of [GoJson] and the reader's final error. *)
From Stdlib Require Import Ascii ZArith Lia.
From stdpp Require Import base list strings gmap.
From S2P Require Import Prelude GoStrings GoFloat GoValue GoCsv GoJson JsonReader.

Definition MaxDepth : nat := Z.to_nat 1024.
Notation ItemName := "item".

Inductive Kind := KindObject | KindArray | KindString | KindNumber | KindBool | KindNull.
#[export] Instance Kind_eq_dec : EqDecision Kind.
Proof. solve_decision. Defined.

(** [Handler]: what receives a document's elements in document order. *)
Class Handler (S : Type) := {
  StartElement : string → Kind → S → res gerror S;
  Text : string → S → res gerror S;
  EndElement : S → res gerror S;
}.

(** [discard], the handler of a walk that only validates. *)
Definition discard : Handler () := {|
  StartElement _ _ _ := Ok tt;
  Text _ _ := Ok tt;
  EndElement _ := Ok tt;
|}.
#[export] Existing Instance discard.

(** The errors of a walk. The offsets of trailing data are not modelled. *)
Inductive walk_error (E : Type) :=
| errTruncated
| errEmptyInput
| errTopLevel
| errEncoding (e : reader_error E)
| errRead (e : reader_error E)
| errSyntax
| errDuplicateKey (key : string) (offset : nat)
| errUnexpectedToken (offset : nat)
| errNoString (offset : nat)           (* internal: no string recorded there *)
| errNoValue (offset : nat)            (* internal: no value starts there *)
| errDepth (offset : nat)
| errTrailing
| errHandler (e : gerror)
| outOfFuel.
Arguments errTruncated {E}.
Arguments errEmptyInput {E}.
Arguments errTopLevel {E}.
Arguments errEncoding {E} e.
Arguments errRead {E} e.
Arguments errSyntax {E}.
Arguments errDuplicateKey {E} key offset.
Arguments errUnexpectedToken {E} offset.
Arguments errNoString {E} offset.
Arguments errNoValue {E} offset.
Arguments errDepth {E} offset.
Arguments errTrailing {E}.
Arguments errHandler {E} e.
Arguments outOfFuel {E}.

(** ** String tracking

    [track] records the strings of the bytes handed on, as the offsets of
    their quotes. *)
Fixpoint track (inStr escaped : bool) (open : nat) (s : string) (at_ : nat) : list (nat * nat) :=
  match s with
  | "" => []
  | String b s =>
      if negb inStr then
        if b =c? DQ then track true escaped at_ s (S at_) else track false escaped open s (S at_)
      else if escaped then track true false open s (S at_)
      else if b =c? BS then track true true open s (S at_)
      else if b =c? DQ then (open, at_) :: track false escaped open s (S at_)
      else track true escaped open s (S at_)
  end.

(** [sort.Search] finds the first string that closes at or behind an offset. *)
Definition keyOpen (spans : list (nat * nat)) (close : nat) : option nat :=
  match list_find (λ sp, close ≤ sp.2) spans with
  | Some (_, (o, c)) => if bool_decide (c = close) then Some o else None
  | None => None
  end.
Fixpoint prune (spans : list (nat * nat)) (off : nat) : list (nat * nat) :=
  match spans with
  | [] => []
  | sp :: rest => if bool_decide (off ≤ sp.2) then spans else prune rest off
  end.

(** ** The walker *)
Section walk.
Context {E : Type}.
Notation werr := (walk_error E).

Record walker := {
  w_toks : list token;                       (* the decoder's coming tokens *)
  w_last : json_error (reader_error E);      (* and the error behind them *)
  w_pos : nat;                               (* [InputOffset] *)
  w_base : nat;
  w_spans : list (nat * nat);
  w_depth : nat;
}.

(** A walker over a text the reader handed on from offset [base]. *)
Definition new_walker (text : string) (fin : option (reader_error E)) (base : nat) : walker :=
  let '(ts, e) := tokens fin text in
  {| w_toks := ts; w_last := e; w_pos := 0; w_base := base;
     w_spans := track false false 0 text base; w_depth := 0 |}.

Definition w_offset (w : walker) : nat := w_pos w + w_base w.

(** [isEncodingError] *)
Definition encoding_error (e : reader_error E) : bool :=
  match e with ReaderFailed _ => false | _ => true end.

Definition wrap (e : json_error (reader_error E)) : werr :=
  match e with
  | JEOF | JUnexpectedEOF => errTruncated
  | JSyntax => errSyntax
  | JRead e => if encoding_error e then errEncoding e else errRead e
  end.

(** [dec.Token()] *)
Definition dec_Token (w : walker) : res (json_error (reader_error E)) (token * walker) :=
  match w_toks w with
  | [] => Err (w_last w)
  | t :: ts =>
      Ok (t, {| w_toks := ts; w_last := w_last w; w_pos := tk_end t; w_base := w_base w;
                w_spans := w_spans w; w_depth := w_depth w |})
  end.

Definition with_spans (w : walker) (spans : list (nat * nat)) : walker :=
  {| w_toks := w_toks w; w_last := w_last w; w_pos := w_pos w; w_base := w_base w;
     w_spans := spans; w_depth := w_depth w |}.
Definition with_depth (w : walker) (depth : nat) : walker :=
  {| w_toks := w_toks w; w_last := w_last w; w_pos := w_pos w; w_base := w_base w;
     w_spans := w_spans w; w_depth := depth |}.

(** [walker.token] *)
Definition w_token (w : walker) : res werr (token * walker) :=
  map_err wrap (dec_Token (with_spans w (prune (w_spans w) (w_offset w)))).

Definition w_enter (w : walker) : res werr walker :=
  let w := with_depth w (S (w_depth w)) in
  if bool_decide (MaxDepth < w_depth w) then Err (errDepth (w_offset w - 1)) else Ok w.

Definition w_keyStart (w : walker) : res werr nat :=
  let close := w_offset w - 1 in
  match keyOpen (w_spans w) close with Some o => Ok o | None => Err (errNoString close) end.

Definition is_delim (c : ascii) (t : token) : bool :=
  match tk t with JDelim d => d =c? c | _ => false end.

Section handler.
Context {S : Type} `{Handler S}.

Definition handled (m : res gerror S) : res werr S := map_err errHandler m.

Definition w_scalar (name : string) (kind : Kind) (value : string) (h : S) : res werr S :=
  h ← handled (StartElement name kind h);
  h ← handled (Text value h);
  handled (EndElement h).

Definition scalar_value (name : string) (t : json_tok) (h : S) : res werr S :=
  match t with
  | JString v => w_scalar name KindString v h
  | JNumber v => w_scalar name KindNumber v h
  | JBool v => w_scalar name KindBool (if v then "true" else "false") h
  | _ => h ← handled (StartElement name KindNull h); handled (EndElement h)
  end.

(** [walker.object], [walker.array] and [walker.value]; [fuel] bounds the
    tokens still to come. *)
Fixpoint w_object (fuel : nat) (seen : gset string) (w : walker) (h : S)
    : res werr (walker * S) :=
  match fuel with
  | 0 => Err outOfFuel
  | Datatypes.S fuel =>
      '(t, w) ← w_token w;
      if is_delim "}"%char t then Ok (w, h)
      else
        match tk t with
        | JString key =>
            if bool_decide (key ∈ seen) then
              start ← w_keyStart w; Err (errDuplicateKey key start)
            else
              '(t, w) ← w_token w;
              '(w, h) ← w_value fuel key t false w h;
              w_object fuel ({[ key ]} ∪ seen) w h
        | _ => Err (errUnexpectedToken (w_offset w))
        end
  end
with w_array (fuel : nat) (name : string) (w : walker) (h : S) : res werr (walker * S) :=
  match fuel with
  | 0 => Err outOfFuel
  | Datatypes.S fuel =>
      '(t, w) ← w_token w;
      if is_delim "]"%char t then Ok (w, h)
      else
        '(w, h) ← w_value fuel name t true w h;
        w_array fuel name w h
  end
with w_value (fuel : nat) (name : string) (t : token) (inArray : bool) (w : walker) (h : S)
    : res werr (walker * S) :=
  match fuel with
  | 0 => Err outOfFuel
  | Datatypes.S fuel =>
      match tk t with
      | JDelim c =>
          w ← w_enter w;
          '(w, h) ← (if c =c? "{"%char then
                       h ← handled (StartElement name KindObject h);
                       '(w, h) ← w_object fuel ∅ w h;
                       h ← handled (EndElement h); Ok (w, h)
                     else if inArray then
                       h ← handled (StartElement name KindArray h);
                       '(w, h) ← w_array fuel name w h;
                       h ← handled (EndElement h); Ok (w, h)
                     else w_array fuel name w h);
          Ok (with_depth w (pred (w_depth w)), h)
      | v => h ← scalar_value name v h; Ok (w, h)
      end
  end.

(** What follows the top-level value must be the end of the input. *)
Definition w_end (w : walker) : res werr () :=
  match dec_Token w with
  | Err JEOF => Ok tt
  | Err (JRead e) => if encoding_error e then Err (errEncoding e) else Err errTrailing
  | _ => Err errTrailing
  end.

(** The first token of a document. *)
Definition w_begin (w : walker) : res werr (ascii * walker) :=
  match dec_Token w with
  | Err JEOF => Err errEmptyInput
  | Err e => Err (wrap e)
  | Ok (t, w) =>
      match tk t with
      | JDelim c => w ← w_enter w; Ok (c, w)
      | _ => Err errTopLevel
      end
  end.

(** [walk], behind the reader's [start]: each token costs two rounds at most,
    one of its own and one for the value it starts. *)
Definition walk_text (w : walker) (h : S) : res werr S :=
  let fuel := 2 * length (w_toks w) + 2 in
  '(c, w) ← w_begin w;
  '(w, h) ← (if c =c? "{"%char then w_object fuel ∅ w h else w_array fuel ItemName w h);
  _ ← w_end (with_depth w (pred (w_depth w)));
  Ok h.
End handler.
End walk.
Arguments walker : clear implicits.

(** ** Reading a text for the decoder

    The decoder's own buffer sizes do not matter
    ([JsonReaderSpec.validatingReader_chunks]). *)
Definition decoder_reads {E} (total : nat) (v : validatingReader E)
    : string * option (reader_error E) :=
  vr_drain (S total) (λ _, 512) v.

Definition start_error {E} (e : reader_error E) : walk_error E :=
  if encoding_error e then errEncoding e else errRead e.

(** [walk] on a reader whose input holds [total] bytes. *)
Definition walk {E S} `{Handler S} (total : nat) (v : validatingReader E) (h : S)
    : res (walk_error E) S :=
  match vr_start v with
  | (_, Some e) => Err (start_error e)
  | (v, None) =>
      let '(text, fin) := decoder_reads total v in
      walk_text (new_walker text fin (vr_off v)) h
  end.

(** ** The tree *)
Inductive nodeType := rootNode | elementNode | textNode.
Inductive ScalarKind := ScalarString | ScalarNumber | ScalarBool | ScalarNull.

(** A [jnode] with its children in order; the parent and sibling links follow
    from the position. [scalar] is the kind of a scalar element. *)
Inductive jnode :=
| JNode (typ : nodeType) (scalar : option ScalarKind) (name value : string) (children : list jnode).
Definition n_typ (n : jnode) : nodeType := let 'JNode t _ _ _ _ := n in t.
Definition n_scalar (n : jnode) : option ScalarKind := let 'JNode _ s _ _ _ := n in s.
Definition n_name (n : jnode) : string := let 'JNode _ _ s _ _ := n in s.
Definition n_value (n : jnode) : string := let 'JNode _ _ _ v _ := n in v.
Definition n_children (n : jnode) : list jnode := let 'JNode _ _ _ _ l := n in l.

Definition appendChild (n c : jnode) : jnode :=
  let 'JNode t s m v l := n in JNode t s m v (l ++ [c]).

Definition empty_root : jnode := JNode rootNode None "" "" [].
Definition text_node (value : string) : jnode := JNode textNode None "" value [].

Definition scalar_of (kind : Kind) : option ScalarKind :=
  match kind with
  | KindString => Some ScalarString
  | KindNumber => Some ScalarNumber
  | KindBool => Some ScalarBool
  | KindNull => Some ScalarNull
  | KindObject | KindArray => None
  end.

(** [treeBuilder]: [cur] is the node being built and [open] its unfinished
    ancestors, the nearest one first. The code links a node to its parent when
    it starts, this model when it ends: nobody looks at the tree before. *)
Record treeBuilder := { tb_cur : jnode; tb_open : list jnode }.
Definition tree_handler : Handler treeBuilder := {|
  StartElement name kind b :=
    Ok {| tb_cur := JNode elementNode (scalar_of kind) name "" []; tb_open := tb_cur b :: tb_open b |};
  Text value b :=
    Ok {| tb_cur := appendChild (tb_cur b) (text_node value); tb_open := tb_open b |};
  EndElement b :=
    match tb_open b with
    | parent :: rest => Ok {| tb_cur := appendChild parent (tb_cur b); tb_open := rest |}
    | [] => Ok b
    end;
|}.
#[export] Existing Instance tree_handler.
Definition new_builder : treeBuilder := {| tb_cur := empty_root; tb_open := [] |}.

(** [parse]: the whole document. *)
Definition parse (data : string) : res (walk_error Empty_set) jnode :=
  tb_cur <$> walk (slen data) (newValidatingReader [(data, ReadNil)]) new_builder.

(** [parseRecordValue]: one element named [name] from its value's bytes. *)
Definition parseRecordValue (raw name : string) (at_ : nat) : res (walk_error Empty_set) jnode :=
  let v := newValidatingReaderAt [(raw, ReadNil)] at_ in
  let '(text, fin) := decoder_reads (slen raw) v in
  let w := new_walker text fin at_ in
  match dec_Token w with
  | Err JEOF => Err errEmptyInput
  | Err e => Err (wrap e)
  | Ok (t, w) =>
      '(w, b) ← w_value (2 * length (w_toks w) + 2) name t true w new_builder;
      _ ← w_end w;
      Ok (tb_cur b)
  end.

(** [writeText] and [stringValue]: the text of all descendants. *)
Fixpoint writeText (n : jnode) : string :=
  match n with
  | JNode _ _ _ _ l =>
      sjoin "" ((λ c, match n_typ c with textNode => n_value c | _ => writeText c end) <$> l)
  end.
Definition stringValue (n : jnode) : string :=
  match n_typ n, n_children n with
  | textNode, _ => n_value n
  | _, [] => ""
  | _, [c] => match n_typ c with textNode => n_value c | _ => writeText n end
  | _, _ => writeText n
  end.

Fixpoint copyTree (n : jnode) : jnode :=
  let 'JNode t s m v l := n in
  foldl appendChild (JNode t s m v []) (copyTree <$> l).

(** [recordDocument]: only an element can stand alone. *)
Definition recordDocument (n : jnode) : option jnode :=
  match n_typ n with
  | elementNode => Some (appendChild empty_root (copyTree n))
  | _ => None
  end.
