(* ===== verification/JsonScan.v ===== *)
(** * The record scanners of the JSON formats (internal/docnode/json:
    scanner.go, ndjson.go)

    [recordScanner] streams one document and yields the elements a selector
    picks, without building a tree; [lineScanner] yields one record per line.
    An [openRecord] is shared by the list of open records and the frame of its
    container; the model finds it in the list by its number. *)
From Stdlib Require Import Ascii ZArith Lia.
From stdpp Require Import base list strings gmap.
From S2P Require Import Prelude GoStrings GoFloat GoValue GoCsv GoJson JsonReader JsonWalk.

(** ** Selectors (internal/extract/streaming/selector.go) *)
Section selector.
Context `{UC : UnicodeCase}.

Definition is_letter_rune (r : Z) : bool :=
  if (r <? 128)%Z then in_range 65 90 r || in_range 97 122 r else unicode_is_letter r.
Definition is_digit_rune (r : Z) : bool :=
  if (r <? 128)%Z then in_range 48 57 r else unicode_is_digit r.

(** [isLocalElementName], rune by rune. *)
Definition name_rune (first : bool) (r : Z) : bool :=
  (r =? 95)%Z || is_letter_rune r
  || negb first && ((r =? 45)%Z || (r =? 46)%Z || is_digit_rune r).
Definition isLocalElementName (name : string) : bool :=
  match runes name with
  | [] => false
  | r :: rs => name_rune true r && forallb (name_rune false) rs
  end.

Record RecordSelector := { rs_Raw : string; rs_ElementName : string }.

Definition ParseRecordSelector (selector : string) : result RecordSelector :=
  let unsupported :=
    errorf "record selector %q is not yet supported for streaming/index mode; supported forms are a single local element name (Name) or descendant local element selector (//Name)"
      [AStr (trim_space selector)] in
  let raw := trim_space selector in
  if raw =s? "" then unsupported
  else if negb (has_prefix "//" raw) && has_prefix "/" raw then unsupported
  else
    let name := if has_prefix "//" raw then trim_space (trim_prefix "//" raw) else raw in
    if existsb (λ c, scontains_byte c name) (String.list_ascii_of_string ("/[]:|@()='" +:+ String DQ ""))
       || negb (isLocalElementName name)
    then unsupported
    else Ok {| rs_Raw := raw; rs_ElementName := name |}.
End selector.

(** ** Records *)
Record record := {
  rc_Raw : option string;
  rc_Num : nat;
  rc_StartOffset : nat;
  rc_EndOffset : nat;
  rc_SizeBytes : nat;
  rc_Name : string;
  rc_Depth : nat;
}.

Record openRecord := { or_num : nat; or_start : nat; or_end : nat; or_depth : nat; or_done : bool }.

(** One open container. [fr_rec] is the number of the record this container is
    the value of. *)
Record frame := {
  fr_obj : bool;
  fr_name : string;
  fr_seen : gset string;
  fr_rec : option nat;
  fr_depth : nat;
}.

Section scanner.
Context {E : Type}.
Notation werr := (walk_error E).

(** [sc_capture] is the file offset of the first byte the capture buffer still
    holds; [sc_text] are the bytes handed on, from offset [w_base]. The last
    yielded record's own copy is [sc_outer]. *)
Record recordScanner := {
  sc_w : walker E;
  sc_text : string;
  sc_name : string;
  sc_anywhere : bool;
  sc_sizeOnly : bool;
  sc_stack : list frame;        (* innermost first *)
  sc_open : list openRecord;
  sc_count : nat;
  sc_capture : nat;
  sc_outer : option (string * nat);
}.

Definition set_w (s : recordScanner) (w : walker E) : recordScanner :=
  {| sc_w := w; sc_text := sc_text s; sc_name := sc_name s; sc_anywhere := sc_anywhere s;
     sc_sizeOnly := sc_sizeOnly s; sc_stack := sc_stack s; sc_open := sc_open s;
     sc_count := sc_count s; sc_capture := sc_capture s; sc_outer := sc_outer s |}.
Definition set_stack (s : recordScanner) (stack : list frame) : recordScanner :=
  {| sc_w := sc_w s; sc_text := sc_text s; sc_name := sc_name s; sc_anywhere := sc_anywhere s;
     sc_sizeOnly := sc_sizeOnly s; sc_stack := stack; sc_open := sc_open s;
     sc_count := sc_count s; sc_capture := sc_capture s; sc_outer := sc_outer s |}.
Definition set_open (s : recordScanner) (open : list openRecord) (count : nat) : recordScanner :=
  {| sc_w := sc_w s; sc_text := sc_text s; sc_name := sc_name s; sc_anywhere := sc_anywhere s;
     sc_sizeOnly := sc_sizeOnly s; sc_stack := sc_stack s; sc_open := open;
     sc_count := count; sc_capture := sc_capture s; sc_outer := sc_outer s |}.
Definition set_capture (s : recordScanner) (off : nat) (outer : option (string * nat)) : recordScanner :=
  {| sc_w := sc_w s; sc_text := sc_text s; sc_name := sc_name s; sc_anywhere := sc_anywhere s;
     sc_sizeOnly := sc_sizeOnly s; sc_stack := sc_stack s; sc_open := sc_open s;
     sc_count := sc_count s; sc_capture := off; sc_outer := outer |}.

(** *** The capture buffer *)

(** [captureBuf.byteAt]: the byte at a file offset, if it is still held. *)
Definition cap_byteAt (s : recordScanner) (off : nat) : option ascii :=
  if bool_decide (off < sc_capture s) then None else sget (off - w_base (sc_w s)) (sc_text s).
(** [captureBuf.slice]: [None] where Go's slice expression would panic. *)
Definition cap_slice (s : recordScanner) (start stop : nat) : option string :=
  let base := w_base (sc_w s) in
  if bool_decide (sc_capture s ≤ start ∧ start ≤ stop ∧ stop ≤ base + slen (sc_text s))
  then Some (ssub (sc_text s) (start - base) (stop - base)) else None.

(** [release]: bytes before [off] that no open record needs are dropped. *)
Definition sc_release (s : recordScanner) (off : nat) : recordScanner :=
  let off := match sc_open s with o :: _ => min off (or_start o) | [] => off end in
  set_capture s (max (sc_capture s) off) (sc_outer s).

(** [valueStart]: past white space and separators. [fuel] bounds the bytes. *)
Fixpoint valueStart_go (fuel : nat) (s : recordScanner) (off : nat) : option nat :=
  match fuel with
  | 0 => None
  | S fuel =>
      match cap_byteAt s off with
      | None => None
      | Some b =>
          if negb (json_space b) && negb (b =c? ","%char) && negb (b =c? ":"%char) then Some off
          else valueStart_go fuel s (S off)
      end
  end.
Definition valueStart (s : recordScanner) (pre : nat) : res werr nat :=
  match valueStart_go (S (slen (sc_text s))) s pre with
  | Some off => Ok off
  | None => Err (errNoValue pre)
  end.

(** *** Steps *)

(** A record closes at [stop]. *)
Definition close_record (num stop : nat) (open : list openRecord) : list openRecord :=
  (λ o, if bool_decide (or_num o = num)
        then {| or_num := num; or_start := or_start o; or_end := stop; or_depth := or_depth o;
                or_done := true |}
        else o) <$> open.

Definition sc_pop (s : recordScanner) : recordScanner :=
  match sc_stack s with
  | [] => s
  | f :: stack =>
      let w := with_depth (sc_w s) (pred (w_depth (sc_w s))) in
      let s := set_w (set_stack s stack) w in
      match fr_rec f with
      | Some num => set_open s (close_record num (w_offset w) (sc_open s)) (sc_count s)
      | None => s
      end
  end.

(** [value]: the value starting at [t], named [name]. *)
Definition sc_value (s : recordScanner) (name : string) (t : token) (inArray : bool) (pre : nat)
    : res werr recordScanner :=
  match tk t with
  | JDelim c =>
      if (c =c? "{"%char) || (c =c? "["%char) then
        let memberArray := (c =c? "["%char) && negb inArray in
        let depth := match sc_stack s with f :: _ => fr_depth f | [] => 0 end in
        '(s, rec) ← (if (name =s? sc_name s) && negb memberArray
                        && (sc_anywhere s || bool_decide (depth = 1))
                     then
                       start ← valueStart s pre;
                       let num := S (sc_count s) in
                       Ok (set_open s (sc_open s ++ [{| or_num := num; or_start := start; or_end := 0;
                                                        or_depth := depth; or_done := false |}]) num,
                           Some num)
                     else Ok (s, None));
        w ← w_enter (sc_w s);
        Ok (set_w (set_stack s
              ({| fr_obj := c =c? "{"%char; fr_name := name; fr_seen := ∅; fr_rec := rec;
                  fr_depth := if memberArray then depth else S depth |} :: sc_stack s)) w)
      else Err (errUnexpectedToken (w_offset (sc_w s)))
  | _ =>
      let depth := match sc_stack s with f :: _ => fr_depth f | [] => 0 end in
      if (name =s? sc_name s) && (sc_anywhere s || bool_decide (depth = 1)) then
        start ← valueStart s pre;
        let num := S (sc_count s) in
        Ok (set_open s (sc_open s ++ [{| or_num := num; or_start := start;
                                         or_end := w_offset (sc_w s); or_depth := depth;
                                         or_done := true |}]) num)
      else Ok s
  end.

(** [step]: one member or item, or one closing delimiter. *)
Definition sc_step (s : recordScanner) : res werr recordScanner :=
  match sc_stack s with
  | [] => Ok s
  | top :: stack =>
      let pre := w_offset (sc_w s) in
      let s := sc_release s pre in
      '(t, w) ← w_token (sc_w s);
      let s := set_w s w in
      if fr_obj top then
        if is_delim "}"%char t then Ok (sc_pop s)
        else
          match tk t with
          | JString key =>
              if bool_decide (key ∈ fr_seen top) then
                start ← w_keyStart (sc_w s); Err (errDuplicateKey key start)
              else
                let s := set_stack s ({| fr_obj := true; fr_name := fr_name top;
                                         fr_seen := {[ key ]} ∪ fr_seen top; fr_rec := fr_rec top;
                                         fr_depth := fr_depth top |} :: stack) in
                let pre := w_offset (sc_w s) in
                '(t, w) ← w_token (sc_w s);
                sc_value (set_w s w) key t false pre
          | _ => Err (errUnexpectedToken (w_offset (sc_w s)))
          end
      else if is_delim "]"%char t then Ok (sc_pop s)
      else sc_value s (fr_name top) t true pre
  end.

(** [begin], behind the reader's [start]. *)
Definition sc_begin (s : recordScanner) : res werr recordScanner :=
  '(c, w) ← w_begin (sc_w s);
  Ok (set_w (set_stack s [{| fr_obj := c =c? "{"%char; fr_name := ItemName; fr_seen := ∅;
                             fr_rec := None; fr_depth := 1 |}]) w).

(** [ready]: the first record in start order, once it has closed. The inner
    option is [None] where slicing the capture would panic. *)
Definition sc_ready (s : recordScanner) : option (option (record * recordScanner)) :=
  match sc_open s with
  | [] => None
  | o :: open =>
      if negb (or_done o) then None
      else
        let s := set_open s open (sc_count s) in
        let mk raw := {|
          rc_Raw := raw; rc_Num := or_num o; rc_StartOffset := or_start o; rc_EndOffset := or_end o;
          rc_SizeBytes := or_end o - or_start o; rc_Name := sc_name s; rc_Depth := or_depth o |} in
        if sc_sizeOnly s then Some (Some (mk None, s))
        else
          match sc_outer s with
          | Some (raw, start) =>
              if bool_decide (start ≤ or_start o ∧ or_end o ≤ start + slen raw)
              then Some (Some (mk (Some (ssub raw (or_start o - start) (or_end o - start))), s))
              else match cap_slice s (or_start o) (or_end o) with
                   | Some raw => Some (Some (mk (Some raw),
                                   set_capture s (sc_capture s) (Some (raw, or_start o))))
                   | None => Some None
                   end
          | None =>
              match cap_slice s (or_start o) (or_end o) with
              | Some raw => Some (Some (mk (Some raw),
                              set_capture s (sc_capture s) (Some (raw, or_start o))))
              | None => Some None
              end
          end
  end.

(** Successive [Next] calls up to the first error: the records, and the error
    ([None] is [io.EOF]); [None] altogether is a panic. Each round yields a
    record, or consumes a token, or ends: [fuel] bounds the rounds. *)
Fixpoint sc_run (fuel : nat) (s : recordScanner) : option (list record * option werr) :=
  match fuel with
  | 0 => Some ([], Some outOfFuel)
  | S fuel =>
      match sc_ready s with
      | Some None => None
      | Some (Some (r, s)) => prod_map (cons r) id <$> sc_run fuel s
      | None =>
          match sc_stack s with
          | [] => match w_end (sc_w s) with
                  | Ok _ => Some ([], None)
                  | Err e => Some ([], Some e)
                  end
          | _ => match sc_step s with
                 | Ok s => sc_run fuel s
                 | Err e => Some ([], Some e)
                 end
          end
      end
  end.

Definition new_scanner (text : string) (fin : option (reader_error E)) (base : nat)
    (name : string) (anywhere sizeOnly : bool) : recordScanner := {|
  sc_w := new_walker text fin base; sc_text := text; sc_name := name; sc_anywhere := anywhere;
  sc_sizeOnly := sizeOnly; sc_stack := []; sc_open := []; sc_count := 0;
  sc_capture := base; sc_outer := None;
|}.

Definition scan_text (s : recordScanner) : option (list record * option werr) :=
  match sc_begin s with
  | Err e => Some ([], Some e)
  | Ok s => sc_run (2 * length (w_toks (sc_w s)) + 2) s
  end.
(** [begin] from a reader whose input holds [total] bytes, and all of [Next]. *)
Definition scan (total : nat) (v : validatingReader E) (name : string) (anywhere sizeOnly : bool)
    : option (list record * option werr) :=
  match vr_start v with
  | (_, Some e) => Some ([], Some (start_error e))
  | (v, None) =>
      let '(text, fin) := decoder_reads total v in
      scan_text (new_scanner text fin (vr_off v) name anywhere sizeOnly)
  end.
End scanner.
Arguments recordScanner : clear implicits.

(** ** Line-delimited input *)

(** The final results of a [lineScanner] other than [io.EOF]. *)
Inductive ndjson_error (E : Type) :=
| errNotObject (num offset : nat)
| errRecord (num : nat) (e : walk_error Empty_set)
| errNoJSON
| errInput (e : reader_error E).
Arguments errNotObject {E} num offset.
Arguments errRecord {E} num e.
Arguments errNoJSON {E}.
Arguments errInput {E} e.

(** [valueBounds]: the line without its surrounding JSON white space, and how
    many bytes lead. *)
Fixpoint leading_space (s : string) : nat :=
  match s with
  | String c t => if json_space c then S (leading_space t) else 0
  | "" => 0
  end.
Definition valueBounds (line : string) : nat * nat :=
  let first := leading_space line in
  (first, max first (slen line - leading_space (String.rev line))).

(** Validating one value's bytes at its file offset. *)
Definition walk_value (value : string) (at_ : nat) : res (walk_error Empty_set) () :=
  walk (slen value) (newValidatingReaderAt [(value, ReadNil)] at_) tt.

Section lines.
Context {E : Type} (name : string) (sizeOnly : bool).

Definition starts_object (value : string) : bool := has_prefix "{" value.

Definition line_record (num : nat) (value : string) (at_ : nat) : res (ndjson_error E) record :=
  if negb (starts_object value) then Err (errNotObject num at_)
  else
    _ ← map_err (errRecord num) (walk_value value at_);
    Ok {| rc_Raw := if sizeOnly then None else Some value; rc_Num := num; rc_StartOffset := at_;
          rc_EndOffset := at_ + slen value; rc_SizeBytes := slen value; rc_Name := name;
          rc_Depth := 1 |}.

(** [checkPartial]: a fault in the bytes of a line that a read fault cut
    short; running out of bytes is not one. *)
Definition checkPartial (num : nat) (line : string) (start : nat) : res (ndjson_error E) () :=
  let '(first, last) := valueBounds line in
  if last <=? first then Ok tt
  else
    let value := ssub line first last in
    if negb (starts_object value) then Err (errNotObject num (start + first))
    else match walk_value value (start + first) with
         | Ok _ | Err errTruncated => Ok tt
         | Err e => Err (errRecord num e)
         end.

(** Successive [Next] calls on the lines of the text from offset [off], with
    [count] records behind them: the records and the final error ([None] is
    [io.EOF]). [fin] is the error at the end of the text. *)
Fixpoint lines_run (fin : option (reader_error E)) (count off : nat) (ls : list string)
    : list record * option (ndjson_error E) :=
  match ls with
  | [] =>
      match fin with
      | Some e => ([], Some (errInput e))
      | None => ([], if bool_decide (count = 0) then Some errNoJSON else None)
      end
  | line :: ls =>
      let cut := match fin with Some e => if ends_lf line then None else Some e | None => None end in
      match cut with
      | Some e =>
          match checkPartial (S count) line off with
          | Err e => ([], Some e)
          | Ok _ => ([], Some (errInput e))
          end
      | None =>
          let '(first, last) := valueBounds line in
          if last <=? first then lines_run fin count (off + slen line) ls
          else
            match line_record (S count) (ssub line first last) (off + first) with
            | Err e => ([], Some e)
            | Ok r =>
                let '(rs, e) := lines_run fin (S count) (off + slen line) ls in (r :: rs, e)
            end
      end
  end.

Definition scan_lines_text (text : string) (fin : option (reader_error E)) (base : nat)
    : list record * option (ndjson_error E) :=
  lines_run fin 0 base (raw_lines text).
End lines.
