(* ===== verification/JsonTokens.v ===== *)
(** * Facts about the decoder's token stream

    Where tokens lie in the text, what lies between them, and that the quotes
    [track] records are exactly those of the string tokens. *)
From Stdlib Require Import Ascii ZArith Lia.
From stdpp Require Import base list strings.
From S2P Require Import Prelude GoStrings GoStrconv GoCsv GoJson JsonReader JsonWalk.

(** ** Lexemes *)
Lemma lex_succ_ok r n : lex_succ r = LexOk n ↔ ∃ m, r = LexOk m ∧ n = S m.
Proof.
  destruct r as [m| |]; cbn; (split; [try done|by intros (? & [= <-] & ->)]).
  intros [= <-]. eauto.
Qed.

Lemma lex_string_le m s n : lex_string m s = LexOk n → n ≤ slen s.
Proof.
  revert m n. induction s as [|c s IH]; intros m n; cbn [lex_string String.length]; [done|].
  repeat case_match; try done; intros Heq; simplify_eq; try lia;
    apply lex_succ_ok in Heq as (j & Heq & ->); apply IH in Heq; lia.
Qed.
Lemma lex_number_le m s n : lex_number m s = LexOk n → n ≤ slen s.
Proof.
  revert m n. induction s as [|c s IH]; intros m n; cbn [lex_number String.length].
  - case_match; [|done]. intros [= <-]. lia.
  - destruct (num_step m c); [|case_match; [intros [= <-]; lia|done]].
    intros (k & H & ->)%lex_succ_ok. apply IH in H. lia.
Qed.
Lemma lex_word_le w s n : lex_word w s = LexOk n → n ≤ slen s.
Proof.
  revert s n. induction w as [|a w IH]; intros [|b s] n; cbn [lex_word String.length]; try done;
    try (intros [= <-]; lia).
  case_match; [|done]. intros (k & Heq & ->)%lex_succ_ok. apply IH in Heq. lia.
Qed.
Lemma lex_scalar_le c t n : (lex_scalar c t).1 = LexOk n → n ≤ slen t.
Proof.
  unfold lex_scalar. repeat case_match; cbn [fst]; try done;
    eauto using lex_string_le, lex_number_le, lex_word_le.
Qed.

(** A lexeme other than a string holds no quote. *)
Definition no_quote (s : string) : bool := sforall (λ c, negb (c =c? DQ)) s.
Lemma lex_number_quote m s n : lex_number m s = LexOk n → no_quote (stake n s) = true.
Proof.
  revert m n. induction s as [|c s IH]; intros m n; cbn [lex_number].
  - by destruct n.
  - destruct (num_step m c) as [m'|] eqn:Hm; [|case_match; [by intros [= <-]|done]].
    intros (k & H & ->)%lex_succ_ok. cbn [stake no_quote sforall].
    apply IH in H. unfold no_quote in H. rewrite H, andb_true_r.
    destruct (Ascii.eqb_spec c DQ) as [->|]; [|done]. by destruct m.
Qed.
Lemma lex_word_quote w s n :
  no_quote w = true → lex_word w s = LexOk n → no_quote (stake n s) = true.
Proof.
  revert s n. induction w as [|a w IH]; intros [|b s] n Hw; cbn [lex_word]; try done;
    try (by intros [= <-]).
  destruct (Ascii.eqb_spec a b) as [<-|]; [|done].
  intros (k & H & ->)%lex_succ_ok. unfold no_quote in *. cbn [stake sforall] in *.
  apply andb_true_iff in Hw as [Ha Hw]. by rewrite Ha, (IH s k).
Qed.
Lemma lex_scalar_quote c t n :
  c ≠ DQ → (lex_scalar c t).1 = LexOk n → no_quote (stake n t) = true.
Proof.
  intros Hc. unfold lex_scalar. destruct (Ascii.eqb_spec c DQ); [done|].
  repeat case_match; cbn [fst]; try done; eauto using lex_number_quote;
    intros Heq; by eapply lex_word_quote in Heq.
Qed.

(** ** Tokens behind a prefix *)
Section tokens.
Context {E : Type} (err : option E).

Lemma tokens_go_skip k off st stack s :
  k ≤ slen s → tokens_go err k off st stack s = tokens_go err 0 (off + k) st stack (sdrop k s).
Proof.
  revert off k. induction s as [|c s IH]; intros off [|k] Hk; cbn [String.length] in Hk; try lia.
  - by rewrite Nat.add_0_r.
  - by rewrite Nat.add_0_r.
  - cbn [sdrop]. rewrite <- Nat.add_succ_comm. rewrite <- IH by lia. reflexivity.
Qed.

End tokens.

(** A byte between tokens. *)
Definition separator (c : ascii) : bool := json_space c || (c =c? ","%char) || (c =c? ":"%char).

(** The tokens [ts] lie in order in the text behind offset [pos], with nothing
    but separators before and between them. *)
Fixpoint tok_chain (text : string) (pos : nat) (ts : list token) : Prop :=
  match ts with
  | [] => True
  | t :: ts =>
      pos ≤ tk_start t ∧ tk_start t < tk_end t ∧ tk_end t ≤ slen text ∧
      (∀ i, pos ≤ i < tk_start t → ∃ c, sget i text = Some c ∧ separator c = true) ∧
      (∃ c, sget (tk_start t) text = Some c ∧ separator c = false ∧
            (∀ k, tk t = JString k → c = DQ)) ∧
      tok_chain text (tk_end t) ts
  end.

(** ** The grammar of token streams

    The decoder's states, commas and colons apart: at the top level, inside an
    array, before a key or closing brace, and before a member's value. *)
Inductive gstate := GTop | GArr | GKey | GVal.
Definition gclass (st : tok_state) : gstate :=
  match st with
  | TopValue => GTop
  | ArrayStart | ArrayValue | ArrayComma => GArr
  | ObjectStart | ObjectKey | ObjectComma => GKey
  | ObjectColon | ObjectValue => GVal
  end.
(** A pushed state counts as the state its container's value leaves it in. *)
Definition kclass (st : tok_state) : gstate := gclass (tokenValueEnd st).
(** The state behind a value. *)
Definition gdone (g : gstate) : gstate := match g with GVal => GKey | g => g end.
Definition gvalue (g : gstate) (K : list gstate) (t : json_tok) : option (gstate * list gstate) :=
  match t with
  | JDelim c =>
      if c =c? "{"%char then Some (GKey, gdone g :: K)
      else if c =c? "["%char then Some (GArr, gdone g :: K)
      else None
  | _ => Some (gdone g, K)
  end.
Definition gpop (K : list gstate) : option (gstate * list gstate) :=
  match K with g :: K => Some (g, K) | [] => None end.
(** The state behind one token. *)
Definition gnext (g : gstate) (K : list gstate) (t : json_tok) : option (gstate * list gstate) :=
  match g, t with
  | GKey, JString _ => Some (GVal, K)
  | GKey, JDelim c => if c =c? "}"%char then gpop K else None
  | GKey, _ => None
  | GArr, JDelim c => if c =c? "]"%char then gpop K else gvalue GArr K t
  | _, _ => gvalue g K t
  end.
Fixpoint grammar (g : gstate) (K : list gstate) (ts : list json_tok) : Prop :=
  match ts with
  | [] => True
  | t :: ts => match gnext g K t with Some (g, K) => grammar g K ts | None => False end
  end.

Section chain.
Context {E : Type} (err : option E).

(** One byte of the token stream outside a token: the stream ends, skips a
    separator, or yields a token of [n] bytes. *)
Inductive token_round (g : gstate) (K : list gstate) (off : nat) (c : ascii) (t : string) :
    list token * json_error E → Prop :=
| round_end e : token_round g K off c t ([], e)
| round_separator st stack :
    separator c = true → gclass st = g → kclass <$> stack = K →
    token_round g K off c t (tokens_go err 0 (S off) st stack t)
| round_string n st stack :
    c = DQ → lex_string SBody t = LexOk n →
    gnext g K (JString (unquote (stake (n - 1) t))) = Some (gclass st, kclass <$> stack) →
    token_round g K off c t
      (Token (JString (unquote (stake (n - 1) t))) off (off + S n)
         :: (tokens_go err 0 (off + S n) st stack (sdrop n t)).1,
       (tokens_go err 0 (off + S n) st stack (sdrop n t)).2)
| round_token tok n st stack :
    separator c = false → c ≠ DQ → (∀ k, tok ≠ JString k) →
    n ≤ slen t → no_quote (stake n t) = true →
    gnext g K tok = Some (gclass st, kclass <$> stack) →
    token_round g K off c t
      (Token tok off (off + S n) :: (tokens_go err 0 (off + S n) st stack (sdrop n t)).1,
       (tokens_go err 0 (off + S n) st stack (sdrop n t)).2).

Lemma lex_string_pos s n : lex_string SBody s = LexOk n → 0 < n.
Proof.
  destruct s as [|c s]; cbn [lex_string]; [done|].
  repeat case_match; try done; intros Heq; simplify_eq; try lia;
    apply lex_succ_ok in Heq as (j & Heq & ->); lia.
Qed.

Lemma stake_stake m n s : m ≤ n → stake m (stake n s) = stake m s.
Proof.
  revert n s. induction m as [|m IH]; intros [|n] [|c s] Hle; try done; try lia.
  cbn [stake]. f_equal. apply IH. lia.
Qed.

Lemma scalar_round g K off st stack c t :
  separator c = false →
  (∀ k, c = DQ → gnext g K (JString k) = Some (gclass st, kclass <$> stack)) →
  (∀ tok, c ≠ DQ → (∀ d, tok ≠ JDelim d) → (∀ k, tok ≠ JString k) →
          gnext g K tok = Some (gclass st, kclass <$> stack)) →
  token_round g K off c t
    (let '(r, value) := lex_scalar c t in
     match r with
     | LexOk n =>
         if scalar_ends err (sdrop n t)
         then let '(ts, e) := tokens_go err (S n - 1) (S off) st stack t in
              (Token (value (stake (S n) (String c t))) off (off + S n) :: ts, e)
         else ([], cut_short err)
     | LexBad => ([], JSyntax)
     | LexEof => ([], cut_short err)
     end).
Proof.
  intros Hsep Hstr Hother. destruct (lex_scalar c t) as [r value] eqn:Hl.
  destruct r as [n| |]; [|constructor..]. destruct (scalar_ends err (sdrop n t)); [|constructor].
  assert (n ≤ slen t) as Hn by (apply (lex_scalar_le c); by rewrite Hl).
  replace (S n - 1) with n by lia. rewrite tokens_go_skip by done.
  replace (S off + n) with (off + S n) by lia.
  destruct (tokens_go err 0 (off + S n) st stack (sdrop n t)) as [ts e] eqn:Ht.
  replace ts with (tokens_go err 0 (off + S n) st stack (sdrop n t)).1 by (by rewrite Ht).
  replace e with (tokens_go err 0 (off + S n) st stack (sdrop n t)).2 by (by rewrite Ht).
  destruct (decide (c = DQ)) as [->|Hc].
  - unfold lex_scalar in Hl. rewrite Ascii.eqb_refl in Hl. injection Hl as Hr <-. cbv beta.
    match goal with |- context [unquote ?body] => replace body with (stake (n - 1) t) end;
      [by apply round_string; auto|].
    change (stake (S n) (String DQ t)) with (String DQ (stake n t)).
    change (slen (String DQ (stake n t))) with (S (slen (stake n t))).
    rewrite slen_stake, stake_stake by lia. f_equal. lia.
  - assert ((∀ k x, value x ≠ JString k) ∧ (∀ d x, value x ≠ JDelim d)) as [Hns Hnd].
    { unfold lex_scalar in Hl. destruct (Ascii.eqb_spec c DQ); [done|].
      repeat case_match; simplify_eq; done. }
    apply round_token; try done.
    + apply (lex_scalar_quote c); [done|]. by rewrite Hl.
    + by apply Hother.
Qed.

Lemma tokens_go_round off st stack c t :
  token_round (gclass st) (kclass <$> stack) off c t (tokens_go err 0 off st stack (String c t)).
Proof.
  cbn [tokens_go]. destruct (json_space c) eqn:Hsp.
  { apply round_separator; [|done..]. unfold separator. by rewrite Hsp. }
  assert (∀ tok st' stack', (∀ k, tok ≠ JString k) → c ≠ DQ → separator c = false →
    gnext (gclass st) (kclass <$> stack) tok = Some (gclass st', kclass <$> stack') →
    token_round (gclass st) (kclass <$> stack) off c t
      (let '(ts, e) := tokens_go err (1 - 1) (S off) st' stack' t in (Token tok off (off + 1) :: ts, e)))
    as Hone.
  { intros tok st' stack' Htok Hdq Hs Hg. replace (1 - 1) with 0 by lia.
    pose proof (round_token (gclass st) (kclass <$> stack) off c t tok 0 st' stack' Hs Hdq Htok ltac:(lia)) as H.
    rewrite sdrop_0 in H. replace (off + 1) with (S off) by lia.
    replace (off + 1) with (S off) in H by lia.
    destruct (tokens_go err 0 (S off) st' stack' t). apply H; [by destruct t|done]. }
  destruct ((c =c? "["%char) || (c =c? "{"%char)) eqn:Hopen.
  { destruct (tokenValueAllowed st) eqn:Hst; [|constructor].
    apply orb_true_iff in Hopen as [->%Ascii.eqb_eq| ->%Ascii.eqb_eq]; apply Hone; try done; by destruct st. }
  destruct ((c =c? "]"%char) || (c =c? "}"%char)) eqn:Hclose.
  { match goal with |- context [if (if ?b then ?x else ?y) then _ else _] =>
      destruct (if b then x else y) eqn:Hst end; [|constructor].
    destruct stack as [|st' stack]; [constructor|].
    apply orb_true_iff in Hclose as [->%Ascii.eqb_eq| ->%Ascii.eqb_eq]; apply Hone; try done; by destruct st. }
  destruct (c =c? ":"%char) eqn:Hcolon.
  { destruct st; try apply round_end. apply round_separator; [|done..]. unfold separator. rewrite Hcolon. by rewrite !orb_true_r. }
  destruct (c =c? ","%char) eqn:Hcomma.
  { destruct st; try apply round_end; (apply round_separator; [|done..]); unfold separator; rewrite Hcomma; by rewrite !orb_true_r. }
  assert (separator c = false) as Hs by (unfold separator; by rewrite Hsp, Hcolon, Hcomma).
  destruct (Ascii.eqb_spec c DQ) as [Hdq|Hdq]; destruct st; cbn [tokenValueAllowed]; try apply round_end;
    (apply scalar_round; [done|by intros k ?|intros tok ? Hd Hk; try done]);
    destruct tok; try done; by destruct (Hd c0).
Qed.

(** *** Positions *)
Lemma tokens_go_chain n : ∀ text s pre pos off st stack,
  slen s ≤ n → text = pre +:+ s → slen pre = off → pos ≤ off →
  (∀ i, pos ≤ i < off → ∃ c, sget i text = Some c ∧ separator c = true) →
  tok_chain text pos (tokens_go err 0 off st stack s).1.
Proof.
  induction n as [|n IH]; intros text s pre pos off st stack Hn Htext Hpre Hpos Hseps;
    (destruct s as [|c t]; [done|cbn [String.length] in Hn]); [lia|].
  assert (sget off text = Some c) as Hc.
  { rewrite sget_sdrop, Htext, <- Hpre, sdrop_app. done. }
  assert (∀ k, k ≤ slen t → text = (pre +:+ String c (stake k t)) +:+ sdrop k t) as Hcut.
  { intros k Hk. rewrite sapp_assoc, sapp_cons, stake_sdrop. done. }
  assert (∀ k, k ≤ slen t → slen (pre +:+ String c (stake k t)) = off + S k) as Hlen.
  { intros k Hk. rewrite slen_app. cbn [String.length]. rewrite slen_stake. lia. }
  assert (slen text = off + S (slen t)) as Hall by (rewrite Htext, slen_app; cbn [String.length]; lia).
  assert (∀ tok k st stack, k ≤ slen t → separator c = false → (∀ x, tok = JString x → c = DQ) →
    tok_chain text pos (Token tok off (off + S k) :: (tokens_go err 0 (off + S k) st stack (sdrop k t)).1))
    as Htok.
  { intros tok k st' stack' Hk Hsep Hstr. cbn [tok_chain tk tk_start tk_end].
    split_and!; [lia|lia|lia|done|by exists c|].
    eapply (IH text _ (pre +:+ String c (stake k t))); [rewrite slen_sdrop; lia|by apply Hcut|by apply Hlen|lia|].
    intros i Hi. lia. }
  destruct (tokens_go_round off st stack c t) as [e|st' stack' Hsep _ _|k st' stack' -> Hlex _|tok k st' stack' Hsep Hdq Hstr Hk Hq _].
  - done.
  - eapply (IH text t (pre +:+ String c "")); [lia| | |lia|].
    + rewrite Htext, sapp_assoc, sapp_cons. done.
    + rewrite slen_app. cbn. lia.
    + intros i Hi. destruct (decide (i = off)) as [->|]; [eauto|]. apply Hseps. lia.
  - apply Htok; [by eapply lex_string_le|done|done].
  - apply Htok; [done|done|]. intros x ->. by destruct (Hstr x).
Qed.

(** *** Strings *)

(** The offsets of the quotes of the string tokens, [base] bytes further on. *)
Definition string_spans (base : nat) (ts : list token) : list (nat * nat) :=
  omap (λ t, match tk t with
             | JString _ => Some (tk_start t + base, tk_end t - 1 + base)
             | _ => None
             end) ts.

Lemma track_no_quote k s open at_ :
  k ≤ slen s → no_quote (stake k s) = true →
  track false false open s at_ = track false false open (sdrop k s) (at_ + k).
Proof.
  revert k at_. induction s as [|c s IH]; intros [|k] at_; cbn [String.length]; intros Hk Hq;
    try lia; try (by rewrite Nat.add_0_r).
  unfold no_quote in Hq. cbn [stake sforall] in Hq. apply andb_true_iff in Hq as [Hc Hq].
  cbn [track negb sdrop]. rewrite (proj1 (negb_true_iff _) Hc).
  rewrite (IH k) by (done || lia). by rewrite Nat.add_succ_comm.
Qed.

Definition escaping (m : str_mode) : bool := match m with SEsc => true | _ => false end.
Lemma hex_not_quote c z : hex_val c = Some z → (c =c? BS) = false ∧ (c =c? DQ) = false.
Proof.
  intros H. destruct (Ascii.eqb_spec c BS) as [->|]; [done|].
  by destruct (Ascii.eqb_spec c DQ) as [->|].
Qed.

(** Inside a literal the tracker closes exactly where the lexeme ends. *)
Lemma track_string m s n open at_ :
  lex_string m s = LexOk n → 
  track true (escaping m) open s at_
  = (open, at_ + n - 1) :: track false false open (sdrop n s) (at_ + n).
Proof.
  revert m n at_. induction s as [|c s IH]; intros m n at_; [done|].
  cbn [lex_string track negb]. destruct m as [| |k]; cbn [escaping].
  - destruct (Ascii.eqb_spec c DQ) as [->|Hc].
    + intros [= <-]. cbn [sdrop].
      replace (at_ + 1 - 1) with at_ by lia. by replace (at_ + 1) with (S at_) by lia.
    + destruct (c =c? BS); intros Heq;
        [|case_match; [done|]]; apply lex_succ_ok in Heq as (j & Heq & ->);
        apply IH with (at_ := S at_) in Heq; cbn [escaping] in Heq; rewrite Heq; cbn [sdrop];
        (replace (S at_ + j) with (at_ + S j) by lia); done.
  - destruct (scontains_byte c _); [|destruct (c =c? "u"%char); [|done]];
      intros (j & Heq & ->)%lex_succ_ok; apply IH with (at_ := S at_) in Heq; cbn [escaping] in Heq;
      rewrite Heq; cbn [sdrop]; (replace (S at_ + j) with (at_ + S j) by lia); done.
  - destruct (hex_val c) eqn:Hh; [|done]. apply hex_not_quote in Hh as [-> ->].
    intros (j & Heq & ->)%lex_succ_ok.
    apply IH with (at_ := S at_) in Heq. replace (escaping _) with false in Heq by by destruct k.
    rewrite Heq. cbn [sdrop]. by replace (S at_ + j) with (at_ + S j) by lia.
Qed.

(** The strings recorded in a text begin with those of its tokens. *)
Lemma tokens_go_spans n : ∀ s off st stack open base,
  slen s ≤ n →
  ∃ rest, track false false open s (off + base)
          = string_spans base (tokens_go err 0 off st stack s).1 ++ rest.
Proof.
  induction n as [|n IH]; intros s off st stack open base Hn;
    (destruct s as [|c t]; [by exists []|cbn [String.length] in Hn]); [lia|].
  destruct (tokens_go_round off st stack c t) as [e|st' stack' Hsep _ _|k st' stack' -> Hlex _|tok k st' stack' Hsep Hdq Hstr Hk Hq _].
  - by eexists.
  - cbn [track negb]. assert (c =c? DQ = false) as ->.
    { destruct (Ascii.eqb_spec c DQ) as [->|]; [done|done]. }
    destruct (IH t (S off) st' stack' open base) as [rest Hrest]; [lia|].
    exists rest. exact Hrest.
  - cbn [track negb]. rewrite Ascii.eqb_refl.
    pose proof (track_string SBody t k (off + base) (S (off + base)) Hlex) as Ht.
    cbn [escaping] in Ht. rewrite Ht.
    destruct (IH (sdrop k t) (off + S k) st' stack' (off + base) base) as [rest Hrest];
      [rewrite slen_sdrop; lia|].
    exists rest. cbn [string_spans omap list_omap fst tk tk_start tk_end app].
    fold (string_spans base (tokens_go err 0 (off + S k) st' stack' (sdrop k t)).1).
    rewrite <- Hrest. pose proof (lex_string_pos t k Hlex). f_equal; [f_equal; lia|f_equal; lia].
  - cbn [track negb]. assert (c =c? DQ = false) as -> by by destruct (Ascii.eqb_spec c DQ).
    rewrite (track_no_quote k) by done.
    destruct (IH (sdrop k t) (off + S k) st' stack' open base) as [rest Hrest];
      [rewrite slen_sdrop; lia|].
    exists rest. replace (S (off + base) + k) with (off + S k + base) by lia. rewrite Hrest.
    cbn [string_spans omap list_omap fst tk]. by destruct tok; try (by destruct (Hstr s)).
Qed.
End chain.

(** The token stream follows the grammar. *)
Lemma tokens_go_grammar {E} (err : option E) n : ∀ s off st stack,
  slen s ≤ n → grammar (gclass st) (kclass <$> stack) (tk <$> (tokens_go err 0 off st stack s).1).
Proof.
  induction n as [|n IH]; intros s off st stack Hn;
    (destruct s as [|c t]; [done|cbn [String.length] in Hn]); [lia|].
  destruct (tokens_go_round err off st stack c t)
    as [e|st' stack' _ <- <-|k st' stack' _ Hlex Hg|tok k st' stack' _ _ _ Hk _ Hg].
  - done.
  - apply IH. lia.
  - cbn [fst fmap list_fmap grammar tk]. rewrite Hg. apply IH. rewrite slen_sdrop. lia.
  - cbn [fst fmap list_fmap grammar tk]. rewrite Hg. apply IH. rewrite slen_sdrop. lia.
Qed.

Lemma tokens_grammar {E} (err : option E) text : grammar GTop [] (tk <$> (tokens err text).1).
Proof. by apply (tokens_go_grammar err (slen text) text 0 TopValue []). Qed.

Lemma tokens_chain {E} (err : option E) text : tok_chain text 0 (tokens err text).1.
Proof. apply (tokens_go_chain err (slen text) text text ""); try done. intros i Hi. lia. Qed.

Lemma tokens_spans {E} (err : option E) text base :
  ∃ rest, track false false 0 text base = string_spans base (tokens err text).1 ++ rest.
Proof. by apply (tokens_go_spans err (slen text) text 0 TopValue [] 0 base). Qed.
