(* ===== verification/JsonScanSpec.v ===== *)
(** * The record scanner refines an abstract machine

    [a_step] is the scanner without its buffers: it knows where a token starts
    instead of searching for it, keeps every record in one list and yields
    none. The concrete scanner yields the finished records of that list in
    order, never slices outside its capture buffer and never fails to find a
    value's or a key's first byte. *)
From Stdlib Require Import Ascii ZArith Lia.
From stdpp Require Import base list strings gmap sets sorting.
From S2P Require Import Prelude GoStrings GoFloat GoValue GoCsv GoJson JsonReader JsonWalk JsonScan JsonTokens.

Section scan.
Context {E : Type}.
Notation werr := (walk_error E).
Implicit Types (w : walker E).

(** ** The walker's bookkeeping *)
Definition walker_ok (text : string) w : Prop :=
  tok_chain text (w_pos w) (w_toks w) ∧ w_pos w ≤ slen text ∧
  ∃ sp rest, w_spans w = sp ++ string_spans (w_base w) (w_toks w) ++ rest ∧
             Forall (λ x, x.2 < w_offset w) sp.

Lemma new_walker_ok text fin base : walker_ok text (new_walker text fin base).
Proof.
  unfold new_walker, walker_ok. pose proof (tokens_chain fin text) as Hc.
  pose proof (tokens_spans fin text base) as [rest Hs].
  destruct (tokens fin text) as [ts e]. cbn in *. split_and!; [done|lia|].
  exists [], rest. by split.
Qed.

(** The walker behind its next token. *)
Definition after_token w t ts : walker E :=
  {| w_toks := ts; w_last := w_last w; w_pos := tk_end t; w_base := w_base w;
     w_spans := prune (w_spans w) (w_offset w); w_depth := w_depth w |}.

Lemma w_token_eq w :
  w_token w = match w_toks w with [] => Err (wrap (w_last w)) | t :: ts => Ok (t, after_token w t ts) end.
Proof. unfold w_token, dec_Token. cbn. by destruct (w_toks w). Qed.

Lemma prune_skip sp l off :
  Forall (λ x, x.2 < off) sp → prune (sp ++ l) off = prune l off.
Proof.
  induction 1 as [|x sp Hx Hall IH]; cbn; [done|]. rewrite bool_decide_eq_false_2 by lia. done.
Qed.
Lemma prune_keep x l off : off ≤ x.2 → prune (x :: l) off = x :: l.
Proof. intros H. cbn. by rewrite bool_decide_eq_true_2. Qed.

Lemma string_spans_cons base t ts :
  string_spans base (t :: ts) =
  match tk t with
  | JString _ => (tk_start t + base, tk_end t - 1 + base) :: string_spans base ts
  | _ => string_spans base ts
  end.
Proof. unfold string_spans. cbn. by destruct (tk t). Qed.

Lemma chain_spans_ge text pos base ts x :
  tok_chain text pos ts → x ∈ string_spans base ts → pos + base ≤ x.2.
Proof.
  revert pos. induction ts as [|t ts IH]; intros pos; [set_solver|].
  rewrite string_spans_cons. cbn [tok_chain]. intros (H1 & H2 & _ & _ & _ & Hc).
  destruct (tk t); try (intros Hin; specialize (IH _ Hc Hin); lia).
  intros [->|Hin]%elem_of_cons; [cbn; lia|]. specialize (IH _ Hc Hin). lia.
Qed.

Lemma after_token_spans text w t ts :
  walker_ok text w → w_toks w = t :: ts →
  ∃ rest, prune (w_spans w) (w_offset w)
          = match string_spans (w_base w) (t :: ts) with
            | [] => prune rest (w_offset w)
            | l => l ++ rest
            end.
Proof.
  intros (Hc & _ & sp & rest & Hs & Hsp) Ht. rewrite Hs, Ht in *. exists rest.
  rewrite prune_skip by done. destruct (string_spans _ _) as [|x l] eqn:E1; [done|].
  cbn [app]. rewrite prune_keep; [done|]. unfold w_offset.
  eapply chain_spans_ge; [exact Hc|]. rewrite E1. left.
Qed.

Lemma after_token_ok text w t ts :
  walker_ok text w → w_toks w = t :: ts → walker_ok text (after_token w t ts).
Proof.
  intros Hw Ht. pose proof (after_token_spans text w t ts Hw Ht) as [rest Hr].
  destruct Hw as (Hc & _ & _). rewrite Ht in Hc. cbn [tok_chain] in Hc.
  destruct Hc as (H1 & H2 & H3 & _ & _ & Hc). split_and!; [done|cbn; done|].
  cbn [after_token w_spans w_base w_toks]. rewrite Hr, string_spans_cons.
  assert (∃ sp rest', match string_spans (w_base w) ts with
      | [] => prune rest (w_offset w) | x :: l => (x :: l) ++ rest end
      = sp ++ string_spans (w_base w) ts ++ rest' ∧
      Forall (λ x, x.2 < w_offset (after_token w t ts)) sp) as Hother.
  { exists []. destruct (string_spans (w_base w) ts); cbn; eauto. }
  destruct (tk t); try exact Hother.
  exists [(tk_start t + w_base w, tk_end t - 1 + w_base w)], rest. split; [done|].
  repeat constructor. unfold w_offset. cbn. lia.
Qed.

Lemma with_depth_ok text w d : walker_ok text w → walker_ok text (with_depth w d).
Proof. done. Qed.

(** The opening quote of a key is always found. *)
Lemma keyStart_ok text w t ts k :
  walker_ok text w → w_toks w = t :: ts → tk t = JString k →
  w_keyStart (after_token w t ts) = Ok (tk_start t + w_base w).
Proof.
  intros Hw Ht Hk. pose proof (after_token_spans text w t ts Hw Ht) as [rest Hr].
  destruct Hw as (Hc & _). rewrite Ht in Hc. cbn [tok_chain] in Hc. destruct Hc as (H1 & H2 & _).
  unfold w_keyStart, keyOpen. cbn [after_token w_spans]. rewrite Hr.
  rewrite string_spans_cons, Hk. cbn [app list_find].
  rewrite decide_True by (unfold w_offset; cbn; lia).
  rewrite bool_decide_eq_true_2 by (unfold w_offset; cbn; lia). done.
Qed.

(** ** The abstract machine *)
Record astate := {
  a_w : walker E;
  a_stack : list frame;
  a_recs : list openRecord;   (* every record started so far, in order *)
  a_count : nat;
}.
Context (sel_name : string) (anywhere : bool).

Definition top_depth (stack : list frame) : nat :=
  match stack with f :: _ => fr_depth f | [] => 0 end.
Definition selected (stack : list frame) (name : string) (memberArray : bool) : bool :=
  (name =s? sel_name) && negb memberArray && (anywhere || bool_decide (top_depth stack = 1)).

Definition a_value (a : astate) (name : string) (t : token) (inArray : bool) : res werr astate :=
  let start := tk_start t + w_base (a_w a) in
  let num := S (a_count a) in
  match tk t with
  | JDelim c =>
      if (c =c? "{"%char) || (c =c? "["%char) then
        let memberArray := (c =c? "["%char) && negb inArray in
        let depth := top_depth (a_stack a) in
        let sel := selected (a_stack a) name memberArray in
        let rec := {| or_num := num; or_start := start; or_end := 0; or_depth := depth; or_done := false |} in
        w ← w_enter (a_w a);
        Ok {| a_w := w;
              a_stack := {| fr_obj := c =c? "{"%char; fr_name := name; fr_seen := ∅;
                            fr_rec := if sel then Some num else None;
                            fr_depth := if memberArray then depth else S depth |} :: a_stack a;
              a_recs := if sel then a_recs a ++ [rec] else a_recs a;
              a_count := if sel then num else a_count a |}
      else Err (errUnexpectedToken (w_offset (a_w a)))
  | _ =>
      if selected (a_stack a) name false then
        Ok {| a_w := a_w a; a_stack := a_stack a;
              a_recs := a_recs a ++ [{| or_num := num; or_start := start; or_end := w_offset (a_w a);
                                        or_depth := top_depth (a_stack a); or_done := true |}];
              a_count := num |}
      else Ok a
  end.

Definition a_pop (a : astate) : astate :=
  match a_stack a with
  | [] => a
  | f :: stack =>
      let w := with_depth (a_w a) (pred (w_depth (a_w a))) in
      {| a_w := w; a_stack := stack;
         a_recs := match fr_rec f with
                   | Some num => close_record num (w_offset w) (a_recs a)
                   | None => a_recs a
                   end;
         a_count := a_count a |}
  end.

Definition a_set_w (a : astate) w : astate :=
  {| a_w := w; a_stack := a_stack a; a_recs := a_recs a; a_count := a_count a |}.

Definition a_step (a : astate) : res werr astate :=
  match a_stack a with
  | [] => Ok a
  | top :: stack =>
      '(t, w) ← w_token (a_w a);
      let a := a_set_w a w in
      if fr_obj top then
        if is_delim "}"%char t then Ok (a_pop a)
        else
          match tk t with
          | JString key =>
              if bool_decide (key ∈ fr_seen top) then
                Err (errDuplicateKey key (tk_start t + w_base w))
              else
                '(t, w) ← w_token w;
                a_value {| a_w := w;
                           a_stack := {| fr_obj := true; fr_name := fr_name top;
                                         fr_seen := {[ key ]} ∪ fr_seen top; fr_rec := fr_rec top;
                                         fr_depth := fr_depth top |} :: stack;
                           a_recs := a_recs a; a_count := a_count a |} key t false
          | _ => Err (errUnexpectedToken (w_offset w))
          end
      else if is_delim "]"%char t then Ok (a_pop a)
      else a_value a (fr_name top) t true
  end.

(** All records started, and the final error. *)
Fixpoint a_run (fuel : nat) (a : astate) : list openRecord * option werr :=
  match fuel with
  | 0 => (a_recs a, Some outOfFuel)
  | S fuel =>
      match a_stack a with
      | [] => (a_recs a, match w_end (a_w a) with Ok _ => None | Err e => Some e end)
      | _ => match a_step a with
             | Ok a => a_run fuel a
             | Err e => (a_recs a, Some e)
             end
      end
  end.

(** The records at the front that have closed. *)
Fixpoint done_prefix (l : list openRecord) : list openRecord :=
  match l with [] => [] | o :: l => if or_done o then o :: done_prefix l else [] end.

Definition record_of (text : string) (base : nat) (sizeOnly : bool) (o : openRecord) : record := {|
  rc_Raw := if sizeOnly then None
            else Some (ssub text (or_start o - base) (or_end o - base));
  rc_Num := or_num o; rc_StartOffset := or_start o; rc_EndOffset := or_end o;
  rc_SizeBytes := or_end o - or_start o; rc_Name := sel_name; rc_Depth := or_depth o;
|}.

(** ** The invariant *)
Definition frame_records (stack : list frame) : list nat := omap fr_rec stack.

(** Numbers name records uniquely, and the container of an unfinished record is
    on the stack. *)
Definition numbers_ok (ys open : list openRecord) (stack : list frame) (count : nat) : Prop :=
  NoDup (or_num <$> ys ++ open) ∧ Forall (λ o, or_num o ≤ count) (ys ++ open) ∧
  NoDup (frame_records stack) ∧
  Forall (λ n, ∃ o, o ∈ open ∧ or_num o = n ∧ or_done o = false) (frame_records stack).

Definition range_ok (text : string) w (cap : nat) (o : openRecord) : Prop :=
  cap ≤ or_start o ∧ w_base w ≤ or_start o ∧ or_start o < w_offset w ∧
  (or_done o = true → or_start o ≤ or_end o ∧ or_end o ≤ w_offset w).

Definition outer_ok (text : string) (base : nat) (outer : option (string * nat)) : Prop :=
  match outer with
  | None => True
  | Some (raw, start) =>
      base ≤ start ∧ start + slen raw ≤ base + slen text ∧
      raw = ssub text (start - base) (start - base + slen raw)
  end.

Record scanner_ok (s : recordScanner E) (ys : list openRecord) : Prop := {
  so_name : sc_name s = sel_name;
  so_anywhere : sc_anywhere s = anywhere;
  so_walker : walker_ok (sc_text s) (sc_w s);
  so_capture : sc_capture s ≤ w_offset (sc_w s);
  so_ranges : Forall (range_ok (sc_text s) (sc_w s) (sc_capture s)) (sc_open s);
  so_sorted : StronglySorted (λ a b, or_start a ≤ or_start b) (sc_open s);
  so_outer : outer_ok (sc_text s) (w_base (sc_w s)) (sc_outer s);
  so_numbers : numbers_ok ys (sc_open s) (sc_stack s) (sc_count s);
}.

(** The abstract state of a scanner that has yielded [ys]. *)
Definition abstract (s : recordScanner E) (ys : list openRecord) : astate :=
  {| a_w := sc_w s; a_stack := sc_stack s; a_recs := ys ++ sc_open s; a_count := sc_count s |}.

(** ** Where a value starts *)
Definition starts_at (text : string) (pos : nat) (t : token) : Prop :=
  pos ≤ tk_start t ∧ tk_start t < tk_end t ∧ tk_end t ≤ slen text ∧
  (∀ i, pos ≤ i < tk_start t → ∃ c, sget i text = Some c ∧ separator c = true) ∧
  (∃ c, sget (tk_start t) text = Some c ∧ separator c = false).

Lemma chain_starts text w t ts :
  walker_ok text w → w_toks w = t :: ts → starts_at text (w_pos w) t.
Proof.
  intros (Hc & _) Ht. rewrite Ht in Hc. destruct Hc as (H1 & H2 & H3 & H4 & (c & Hc & Hs & _) & _).
  split_and!; eauto.
Qed.

Lemma not_separator c :
  negb (json_space c) && negb (c =c? ","%char) && negb (c =c? ":"%char) = negb (separator c).
Proof. unfold separator. by rewrite !negb_orb. Qed.

Lemma valueStart_go_ok (s : recordScanner E) start d : ∀ fuel pos,
  start = pos + d → d < fuel →
  sc_capture s ≤ pos + w_base (sc_w s) →
  (∀ i, pos ≤ i < start → ∃ c, sget i (sc_text s) = Some c ∧ separator c = true) →
  (∃ c, sget start (sc_text s) = Some c ∧ separator c = false) →
  valueStart_go fuel s (pos + w_base (sc_w s)) = Some (start + w_base (sc_w s)).
Proof.
  induction d as [|d IH]; intros [|fuel] pos -> Hfuel Hcap Hseps (c & Hc & Hs); try lia;
    cbn [valueStart_go]; unfold cap_byteAt; rewrite bool_decide_eq_false_2 by lia;
    replace (pos + w_base (sc_w s) - w_base (sc_w s)) with pos by lia.
  - rewrite Nat.add_0_r in Hc. rewrite Hc, not_separator, Hs. cbn. by rewrite Nat.add_0_r.
  - destruct (Hseps pos ltac:(lia)) as (c' & -> & Hs'). rewrite not_separator, Hs'. cbn [negb].
    replace (S (pos + w_base (sc_w s))) with (S pos + w_base (sc_w s)) by lia.
    replace (pos + S d) with (S pos + d) in * by lia.
    apply IH; [done|lia|lia| |by exists c]. intros i Hi. apply Hseps. lia.
Qed.

Lemma valueStart_ok (s : recordScanner E) pos t :
  starts_at (sc_text s) pos t → sc_capture s ≤ pos + w_base (sc_w s) →
  valueStart s (pos + w_base (sc_w s)) = Ok (tk_start t + w_base (sc_w s)).
Proof.
  intros (H1 & H2 & H3 & Hseps & Hc) Hcap. unfold valueStart.
  rewrite (valueStart_go_ok s (tk_start t) (tk_start t - pos)); [done|lia|lia|done|done|done].
Qed.

(** ** Steps of the scanner *)
Lemma range_ok_mono text w w' cap cap' o :
  w_base w' = w_base w → w_offset w ≤ w_offset w' → cap' ≤ or_start o →
  range_ok text w cap o → range_ok text w' cap' o.
Proof. intros Hb Hw Hcap (H1 & H2 & H3 & H4). split_and!; [done|by rewrite Hb|lia|]. intros Hd. specialize (H4 Hd). lia. Qed.

Lemma scanner_ok_walker s ys w :
  scanner_ok s ys → walker_ok (sc_text s) w → w_base w = w_base (sc_w s) →
  w_offset (sc_w s) ≤ w_offset w → scanner_ok (set_w s w) ys.
Proof.
  intros [] Hw Hb Hoff. split; cbn; try done; [lia| |by rewrite Hb].
  eapply Forall_impl; [done|]. intros o Ho. pose proof Ho as (Hcap & _).
  by eapply range_ok_mono in Ho.
Qed.

Lemma release_ok s ys :
  scanner_ok s ys → scanner_ok (sc_release s (w_offset (sc_w s))) ys.
Proof.
  intros [Hn Ha Hw Hcap Hr Hs Ho Hnum]. split; try done.
  - unfold sc_release. destruct (sc_open s); cbn; lia.
  - change (Forall (range_ok (sc_text s) (sc_w s) (sc_capture (sc_release s (w_offset (sc_w s)))))
      (sc_open s)). unfold sc_release. destruct (sc_open s) as [|o open]; cbn [set_capture sc_capture]; [constructor|].
    apply Forall_forall. intros o' Hin. rewrite Forall_forall in Hr. pose proof (Hr o' Hin) as Ho'.
    pose proof Ho' as (Hcap' & _). eapply range_ok_mono; [done|done| |done].
    assert (or_start o ≤ or_start o').
    { apply StronglySorted_inv in Hs as [_ Hs]. rewrite Forall_forall in Hs.
      apply elem_of_cons in Hin as [->|Hin]; [done|by apply Hs]. }
    lia.
Qed.

Lemma close_record_fresh num stop l :
  num ∉ or_num <$> l → close_record num stop l = l.
Proof.
  intros Hn. unfold close_record. rewrite <- (list_fmap_id l) at 2. apply list_fmap_ext.
  intros i o Ho. rewrite bool_decide_eq_false_2; [done|]. intros <-. apply Hn.
  apply list_elem_of_fmap_2. by eapply list_elem_of_lookup_2.
Qed.
Lemma close_record_nums num stop l : or_num <$> close_record num stop l = or_num <$> l.
Proof.
  unfold close_record. rewrite <- list_fmap_compose. apply list_fmap_ext. intros i o _. cbn.
  case_bool_decide; [by subst|done].
Qed.
Lemma close_record_starts num stop l : or_start <$> close_record num stop l = or_start <$> l.
Proof.
  unfold close_record. rewrite <- list_fmap_compose. apply list_fmap_ext. intros i o _. cbn.
  by case_bool_decide.
Qed.
Lemma close_record_app num stop l k :
  close_record num stop (l ++ k) = close_record num stop l ++ close_record num stop k.
Proof. apply fmap_app. Qed.

(** *** Numbers *)
Lemma numbers_record ys open stack count o :
  numbers_ok ys open stack count → or_num o = S count →
  numbers_ok ys (open ++ [o]) stack (S count).
Proof.
  intros (Hnd & Hle & Hf & Hrec) Ho. unfold numbers_ok. rewrite (assoc_L (++)). split_and!.
  - rewrite fmap_app. apply NoDup_app. split_and!; [done| |by apply NoDup_singleton].
    intros n Hin. apply list_elem_of_fmap in Hin as (o' & -> & Hin).
    rewrite Forall_forall in Hle. apply Hle in Hin. cbn. rewrite list_elem_of_singleton. lia.
  - apply Forall_app. split; [|constructor; [lia|constructor]].
    eapply Forall_impl; [exact Hle|]. cbn. lia.
  - done.
  - eapply Forall_impl; [exact Hrec|]. intros n (o' & Hin & ? & ?). exists o'.
    split_and!; [|done..]. apply elem_of_app. by left.
Qed.

Lemma numbers_frame ys open stack count f :
  numbers_ok ys open stack count →
  match fr_rec f with
  | None => True
  | Some n => n ∉ frame_records stack ∧ ∃ o, o ∈ open ∧ or_num o = n ∧ or_done o = false
  end →
  numbers_ok ys open (f :: stack) count.
Proof.
  intros (Hnd & Hle & Hf & Hrec) Hn. unfold numbers_ok, frame_records in *. cbn.
  destruct (fr_rec f) as [n|]; [|done]. destruct Hn as [Hn1 Hn2].
  split_and!; [done..|by constructor|by constructor].
Qed.

Lemma numbers_pop ys open f stack count stop :
  numbers_ok ys open (f :: stack) count →
  numbers_ok ys (match fr_rec f with Some n => close_record n stop open | None => open end) stack count ∧
  match fr_rec f with Some n => close_record n stop ys = ys | None => True end.
Proof.
  intros (Hnd & Hle & Hf & Hrec). unfold numbers_ok, frame_records in *. cbn in Hf, Hrec.
  destruct (fr_rec f) as [n|]; [|done].
  apply NoDup_cons in Hf as [Hn Hf]. apply Forall_cons in Hrec as [(o & Ho & Hon & Hod) Hrec].
  assert (n ∉ or_num <$> ys) as Hys.
  { rewrite fmap_app in Hnd. apply NoDup_app in Hnd as (_ & Hd & _). intros Hin. apply (Hd n Hin).
    rewrite <- Hon. by apply list_elem_of_fmap_2. }
  split; [|by apply close_record_fresh]. split_and!.
  - by rewrite fmap_app, close_record_nums, <- fmap_app.
  - apply Forall_app in Hle as [Hly Hlo]. apply Forall_app. split; [done|].
    apply Forall_fmap. eapply Forall_impl; [exact Hlo|]. intros o' Ho'. unfold compose.
    case_bool_decide as Heq; [|exact Ho']. cbn. rewrite <- Heq. exact Ho'.
  - done.
  - apply Forall_forall. intros m Hm. rewrite Forall_forall in Hrec. destruct (Hrec m Hm) as (o' & Hin & <- & Hd).
    exists o'. split_and!; [|done..]. apply list_elem_of_fmap. exists o'. split; [|done].
    rewrite bool_decide_eq_false_2; [done|]. intros Heq. apply Hn. by rewrite <- Heq.
Qed.

(** *** One step *)
Definition same_input (s s' : recordScanner E) : Prop :=
  sc_text s' = sc_text s ∧ sc_sizeOnly s' = sc_sizeOnly s ∧ w_base (sc_w s') = w_base (sc_w s).

Lemma same_input_trans s1 s2 s3 : same_input s1 s2 → same_input s2 s3 → same_input s1 s3.
Proof. unfold same_input. intros (? & ? & ?) (? & ? & ?). split_and!; congruence. Qed.

Lemma sorted_snoc l o :
  StronglySorted (λ a b, or_start a ≤ or_start b) l → Forall (λ a, or_start a ≤ or_start o) l →
  StronglySorted (λ a b, or_start a ≤ or_start b) (l ++ [o]).
Proof.
  induction 1 as [|a l Hl IH Hall]; cbn; [by repeat constructor|].
  intros [Ha Hle]%Forall_cons. constructor; [by apply IH|]. apply Forall_app. split; [done|]. by apply Forall_singleton.
Qed.

(** A record added behind the others. *)
Lemma add_record_ok s ys o :
  scanner_ok s ys → or_num o = S (sc_count s) →
  range_ok (sc_text s) (sc_w s) (sc_capture s) o →
  Forall (λ a, or_start a ≤ or_start o) (sc_open s) →
  scanner_ok (set_open s (sc_open s ++ [o]) (S (sc_count s))) ys.
Proof.
  intros [Hn Ha Hw Hcap Hr Hs Ho Hnum] Hon Hro Hle. split; try done; cbn.
  - apply Forall_app. split; [done|]. by apply Forall_singleton.
  - by apply sorted_snoc.
  - by apply numbers_record.
Qed.

Lemma sc_pop_refines s ys :
  scanner_ok s ys → sc_stack s ≠ [] →
  abstract (sc_pop s) ys = a_pop (abstract s ys) ∧ scanner_ok (sc_pop s) ys ∧
  w_toks (sc_w (sc_pop s)) = w_toks (sc_w s) ∧ length (sc_open (sc_pop s)) = length (sc_open s) ∧
  same_input s (sc_pop s).
Proof.
  intros [Hn Ha Hw Hcap Hr Hs Ho Hnum] Hne. unfold sc_pop, a_pop, abstract.
  destruct (sc_stack s) as [|f stack] eqn:Estack; [done|]. cbn [a_stack a_w a_recs a_count].
  apply (numbers_pop _ _ _ _ _ (w_offset (with_depth (sc_w s) (pred (w_depth (sc_w s)))))) in Hnum as [Hnum Hys].
  destruct (fr_rec f) as [num|].
  - split_and!; [|split; try done|done|cbn; by rewrite length_fmap|done..].
    + cbn. f_equal. rewrite close_record_app. f_equal. symmetry. exact Hys.
    + cbn. apply Forall_fmap. eapply Forall_impl; [exact Hr|]. intros o (H1 & H2 & H3 & H4). cbn.
      case_bool_decide; [|done]. split_and!; [done..|]. cbn. intros _. unfold w_offset in *. cbn in *. lia.
    + cbn. clear -Hs. induction Hs as [|o l Hl IH Hall]; cbn; [constructor|].
      constructor; [done|]. apply Forall_fmap. eapply Forall_impl; [exact Hall|].
      intros o' Ho'. cbn. repeat case_bool_decide; done.
  - split_and!; [done|split; try done|done..].
Qed.

Lemma w_enter_ok w w' : w_enter w = Ok w' → w' = with_depth w (S (w_depth w)).
Proof. unfold w_enter. case_bool_decide; [done|]. by intros [= <-]. Qed.

(** The selected value's record, started at its token. *)
Lemma start_record s ys pos t stop done_ depth :
  scanner_ok s ys → starts_at (sc_text s) pos t → w_pos (sc_w s) = tk_end t →
  sc_capture s ≤ pos + w_base (sc_w s) →
  Forall (λ a, or_start a ≤ pos + w_base (sc_w s)) (sc_open s) →
  (done_ = true → stop = w_offset (sc_w s)) →
  let o := {| or_num := S (sc_count s); or_start := tk_start t + w_base (sc_w s); or_end := stop;
              or_depth := depth; or_done := done_ |} in
  valueStart s (pos + w_base (sc_w s)) = Ok (or_start o) ∧
  scanner_ok (set_open s (sc_open s ++ [o]) (S (sc_count s))) ys.
Proof.
  intros Hok Hst Hpos Hcap Hle Hdone o. split; [by apply valueStart_ok|].
  pose proof Hst as (H1 & H2 & H3 & _).
  apply add_record_ok; [done|done| |].
  - unfold range_ok, w_offset. cbn. split_and!; [lia|lia|lia|].
    intros ->. rewrite Hdone by done. unfold w_offset. lia.
  - eapply Forall_impl; [exact Hle|]. cbn. lia.
Qed.

Lemma push_frame_ok s ys w f :
  scanner_ok s ys → w = with_depth (sc_w s) (S (w_depth (sc_w s))) →
  numbers_ok ys (sc_open s) (f :: sc_stack s) (sc_count s) →
  scanner_ok (set_w (set_stack s (f :: sc_stack s)) w) ys.
Proof. intros [Hn Ha Hw Hcap Hr Hs Ho Hnum] -> Hnum'. by split. Qed.

Lemma sc_value_refines s ys name t inArray pos :
  scanner_ok s ys → starts_at (sc_text s) pos t → w_pos (sc_w s) = tk_end t →
  sc_capture s ≤ pos + w_base (sc_w s) →
  Forall (λ a, or_start a ≤ pos + w_base (sc_w s)) (sc_open s) →
  match a_value (abstract s ys) name t inArray with
  | Ok a => ∃ s', sc_value s name t inArray (pos + w_base (sc_w s)) = Ok s' ∧ abstract s' ys = a ∧
                  scanner_ok s' ys ∧ w_toks (sc_w s') = w_toks (sc_w s) ∧
                  length (sc_open s') ≤ S (length (sc_open s)) ∧ same_input s s'
  | Err e => sc_value s name t inArray (pos + w_base (sc_w s)) = Err e
  end.
Proof.
  intros Hok Hst Hpos Hcap Hle. pose proof Hok as [Hn Ha _ _ _ _ _ Hnum].
  unfold a_value, sc_value, selected, abstract. cbn [a_w a_stack a_recs a_count].
  rewrite Hn, Ha. fold (top_depth (sc_stack s)).
  assert (∀ b : bool, b && negb false = b) as Hb by (by intros []).
  destruct (tk t) as [c|v|v|v|] eqn:Etk.
  1: { destruct (_ || _) eqn:Hc; [|done].
    destruct (_ && _ && _) eqn:Hsel.
    - destruct (start_record s ys pos t 0 false (top_depth (sc_stack s)) Hok Hst Hpos Hcap Hle)
        as [Hvs Hok']; [done|]. rewrite Hvs. cbn [mbind res_bind or_start].
      destruct (w_enter (sc_w s)) as [w|e] eqn:He; cbn; rewrite He; [|done].
      apply w_enter_ok in He. eexists. split; [reflexivity|]. split_and!.
      + unfold abstract. cbn. by rewrite (assoc_L (++)).
      + eapply push_frame_ok in Hok'; [exact Hok'|done|]. cbn. apply numbers_frame; [apply Hok'|].
        cbn. split.
        * intros Hin. destruct Hnum as (_ & Hcount & _ & Hrec). rewrite Forall_forall in Hrec.
          destruct (Hrec _ Hin) as (o & Ho & Hon & _). rewrite Forall_forall in Hcount.
          assert (or_num o ≤ sc_count s) by (apply Hcount, elem_of_app; by right). lia.
        * eexists. split; [apply elem_of_app; right; by left|done].
      + by subst.
      + cbn. rewrite length_app. cbn. lia.
      + by subst.
    - cbn. destruct (w_enter (sc_w s)) as [w|e] eqn:He; cbn; [|done].
      apply w_enter_ok in He. eexists. split; [reflexivity|]. split_and!; try (by subst).
      + apply push_frame_ok; [done|done|]. by apply numbers_frame.
      + cbn. lia. }
  all: rewrite ?Hb; destruct (_ && _) eqn:Hsel;
    [destruct (start_record s ys pos t (w_offset (sc_w s)) true (top_depth (sc_stack s)) Hok Hst Hpos Hcap Hle)
       as [Hvs Hok']; [done|]; rewrite Hvs; cbn [mbind res_bind or_start];
     eexists; split; [reflexivity|]; split_and!;
     [unfold abstract; cbn; by rewrite (assoc_L (++))|exact Hok'|done
     |cbn; rewrite length_app; cbn; lia|done..]
    |eexists; split; [reflexivity|]; split_and!; try done; lia].
Qed.

(** A token is consumed. *)
Lemma consume_ok s ys t ts :
  scanner_ok s ys → w_toks (sc_w s) = t :: ts →
  scanner_ok (set_w s (after_token (sc_w s) t ts)) ys ∧
  starts_at (sc_text s) (w_pos (sc_w s)) t ∧
  w_offset (sc_w s) ≤ w_offset (after_token (sc_w s) t ts) ∧
  Forall (λ a, or_start a ≤ w_offset (sc_w s)) (sc_open s).
Proof.
  intros Hok Ht. pose proof Hok as [_ _ Hw _ Hr _ _ _].
  pose proof (chain_starts _ _ _ _ Hw Ht) as Hst. pose proof Hst as (H1 & H2 & _).
  assert (w_offset (sc_w s) ≤ w_offset (after_token (sc_w s) t ts)) as Hoff
    by (unfold w_offset; cbn; lia).
  split_and!; [|done|done|].
  - apply scanner_ok_walker; [done|by apply after_token_ok|done|done].
  - eapply Forall_impl; [exact Hr|]. intros o (_ & _ & Ho & _). lia.
Qed.

(** The rest of a step behind the tokens of a member's key or of an item. *)
Lemma value_after s ys s0 name t ts inArray :
  scanner_ok s ys → w_toks (sc_w s) = t :: ts →
  s0 = set_w s (after_token (sc_w s) t ts) →
  match a_value (abstract s0 ys) name t inArray with
  | Ok a => ∃ s', sc_value s0 name t inArray (w_offset (sc_w s)) = Ok s' ∧ abstract s' ys = a ∧
                  scanner_ok s' ys ∧ w_toks (sc_w s') = ts ∧
                  length (sc_open s') ≤ S (length (sc_open s)) ∧ same_input s s'
  | Err e => sc_value s0 name t inArray (w_offset (sc_w s)) = Err e
  end.
Proof.
  intros Hok Ht ->. destruct (consume_ok s ys t ts Hok Ht) as (Hok' & Hst & Hoff & Hle).
  pose proof (sc_value_refines _ ys name t inArray (w_pos (sc_w s)) Hok' Hst eq_refl) as Hv.
  apply Hv; [|exact Hle]. apply (so_capture _ _ Hok).
Qed.

Lemma set_top_ok s ys top top' stack :
  scanner_ok s ys → sc_stack s = top :: stack → fr_rec top' = fr_rec top →
  scanner_ok (set_stack s (top' :: stack)) ys.
Proof.
  intros [Hn Ha Hw Hcap Hr Hs Ho Hnum] Hst Hrec. split; try done. cbn.
  rewrite Hst in Hnum. unfold numbers_ok, frame_records in *. cbn in *. by rewrite Hrec.
Qed.

Lemma sc_step_refines s ys :
  scanner_ok s ys → sc_stack s ≠ [] →
  match a_step (abstract s ys) with
  | Ok a => ∃ s', sc_step s = Ok s' ∧ abstract s' ys = a ∧ scanner_ok s' ys ∧
                  length (w_toks (sc_w s')) < length (w_toks (sc_w s)) ∧
                  length (sc_open s') ≤ S (length (sc_open s)) ∧ same_input s s'
  | Err e => sc_step s = Err e
  end.
Proof.
  intros Hok Hne. unfold a_step, sc_step. cbn [abstract a_stack a_w].
  apply release_ok in Hok. revert Hok.
  set (r := sc_release s (w_offset (sc_w s))).
  assert (sc_w s = sc_w r ∧ sc_open s = sc_open r ∧ sc_count s = sc_count r ∧ same_input s r ∧
          sc_stack s = sc_stack r) as (Hw & Ho & Hc & Hin & Hs) by done.
  clearbody r. unfold abstract. rewrite Ho, Hc, Hw, Hs in *.
  assert (∀ s', same_input r s' → same_input s s') as Htrans.
  { intros s' Hs'. by eapply same_input_trans. }
  clear Hin Hw Ho Hc Hs. intros Hok.
  destruct (sc_stack r) as [|top stack] eqn:Est; [done|]. rewrite w_token_eq.
  destruct (w_toks (sc_w r)) as [|t ts] eqn:Et; [done|]. cbn [mbind res_bind].
  destruct (consume_ok r ys t ts Hok Et) as (Hok1 & Hst & Hoff & Hle).
  unfold a_set_w. cbn [a_w a_stack a_recs a_count].
  assert (∀ s1, scanner_ok s1 ys → sc_stack s1 ≠ [] → w_toks (sc_w s1) = ts → sc_open s1 = sc_open r →
    same_input r s1 → ∃ s', Ok (sc_pop s1) = Ok (E := werr) s' ∧ abstract s' ys = a_pop (abstract s1 ys) ∧ scanner_ok s' ys ∧
      length (w_toks (sc_w s')) < length (t :: ts) ∧
      length (sc_open s') ≤ S (length (sc_open r)) ∧ same_input s s') as Hpop.
  { intros s1 Hok' Hne' Hts Hop Hsame. destruct (sc_pop_refines s1 ys Hok' Hne') as (Ha & Hok2 & Htk & Hlen & Hsi).
    eexists. split; [reflexivity|]. rewrite Ha, Htk, Hts, Hlen, Hop. split_and!; try done; [cbn; lia|lia|].
    apply Htrans. by eapply same_input_trans. }
  destruct (fr_obj top) eqn:Eobj.
  - destruct (is_delim "}" t).
    { change (λ x, Ok x) with (@Ok werr (recordScanner E)).
      rewrite <- Est. apply (Hpop (set_w r (after_token (sc_w r) t ts))); try done. cbn. by rewrite Est. }
    destruct (tk t) as [c|key|v|v|] eqn:Ek; try done.
    case_bool_decide as Hdup.
    { cbn [sc_w set_w]. rewrite (keyStart_ok _ _ _ _ key (so_walker _ _ Hok) Et Ek). done. }
    cbn [sc_w set_w set_stack]. rewrite w_token_eq. cbn [w_toks after_token].
    destruct ts as [|t2 ts2]; [done|]. cbn [mbind res_bind].
    set (top' := {| fr_obj := true; fr_name := fr_name top; fr_seen := {[key]} ∪ fr_seen top;
                    fr_rec := fr_rec top; fr_depth := fr_depth top |}).
    pose proof (set_top_ok _ ys top top' stack Hok1 Est eq_refl) as Hok2.
    pose proof (value_after _ ys _ key t2 ts2 false Hok2 eq_refl eq_refl) as Hv.
    cbn [abstract sc_w set_w set_stack sc_open sc_stack sc_count] in Hv. unfold abstract in Hv.
    cbn [sc_w set_w set_stack sc_open sc_stack sc_count] in Hv.
    destruct (a_value _ key t2 false) as [a|e]; [|exact Hv].
    destruct Hv as (s' & Hv & Ha & Hok' & Htk & Hlen & Hsi). exists s'. split_and!; try done.
    + rewrite Htk. cbn. lia.
    + by apply Htrans.
  - destruct (is_delim "]" t).
    { rewrite <- Est. apply (Hpop (set_w r (after_token (sc_w r) t ts))); try done. cbn. by rewrite Est. }
    pose proof (value_after _ ys _ (fr_name top) t ts true Hok Et eq_refl) as Hv.
    unfold abstract in Hv. cbn [sc_w set_w sc_open sc_stack sc_count] in Hv. rewrite Est in Hv.
    destruct (a_value _ (fr_name top) t true) as [a|e]; [|exact Hv].
    destruct Hv as (s' & Hv & Ha & Hok' & Htk & Hlen & Hsi). exists s'. split_and!; try done.
    + rewrite Htk. cbn. lia.
    + by apply Htrans.
Qed.

(** ** Yielding *)
Lemma sdrop_stake i n u : sdrop i (stake n u) = stake (n - i) (sdrop i u).
Proof.
  revert n u. induction i as [|i IH]; intros n u; [by rewrite !sdrop_0, Nat.sub_0_r|].
  destruct n as [|n].
  - cbn [Nat.sub]. destruct u as [|c u]; [done|]. cbn [sdrop]. by destruct (sdrop i u).
  - destruct u as [|c u]; [cbn [Nat.sub stake sdrop]; by destruct (n - i)|]. cbn [Nat.sub stake sdrop]. apply IH.
Qed.
Lemma ssub_ssub t a b i j : i ≤ j → a + j ≤ b → ssub (ssub t a b) i j = ssub t (a + i) (a + j).
Proof.
  intros Hij Hb. unfold ssub. rewrite sdrop_stake, stake_stake, sdrop_sdrop by lia. f_equal. lia.
Qed.

Lemma ssub_length t i j : i ≤ j → j ≤ slen t → slen (ssub t i j) = j - i.
Proof. intros Hij Hj. unfold ssub. rewrite slen_stake, slen_sdrop. lia. Qed.

Lemma numbers_yield ys o open stack count :
  numbers_ok ys (o :: open) stack count → or_done o = true →
  numbers_ok (ys ++ [o]) open stack count.
Proof.
  intros (Hnd & Hle & Hf & Hrec) Hd. unfold numbers_ok. rewrite <- (assoc_L (++)). cbn [app].
  split_and!; [done..|]. eapply Forall_impl; [exact Hrec|].
  intros n (o' & [->|Hin]%elem_of_cons & Hn & Hd'); [congruence|eauto].
Qed.

Lemma yield_ok s ys o open outer :
  scanner_ok s ys → sc_open s = o :: open → or_done o = true →
  outer_ok (sc_text s) (w_base (sc_w s)) outer →
  scanner_ok (set_capture (set_open s open (sc_count s)) (sc_capture s) outer) (ys ++ [o]).
Proof.
  intros [Hn Ha Hw Hcap Hr Hs Ho Hnum] Hop Hd Hout. rewrite Hop in *.
  apply Forall_cons in Hr as [_ Hr]. apply StronglySorted_inv in Hs as [Hs _].
  split; try done. by apply numbers_yield.
Qed.

(** A closed record at the front is yielded, with its bytes. *)
Lemma sc_ready_done s ys o open :
  scanner_ok s ys → sc_open s = o :: open → or_done o = true →
  ∃ s', sc_ready s = Some (Some (record_of (sc_text s) (w_base (sc_w s)) (sc_sizeOnly s) o, s')) ∧
        abstract s' (ys ++ [o]) = abstract s ys ∧ scanner_ok s' (ys ++ [o]) ∧ sc_open s' = open ∧
        sc_w s' = sc_w s ∧ same_input s s'.
Proof.
  intros Hok Hop Hd. pose proof Hok as [Hn Ha (_ & Hpos & _) Hcap Hr Hs Ho Hnum].
  rewrite Hop in Hr. apply Forall_cons in Hr as [(H1 & H2 & H3 & H4) _]. specialize (H4 Hd) as [H4 H5].
  unfold w_offset in H5. unfold sc_ready, record_of. rewrite Hop, Hd.
  cbn [negb sc_name sc_sizeOnly sc_outer set_open]. rewrite Hn.
  assert (∀ s', sc_w s' = sc_w s → sc_stack s' = sc_stack s → sc_count s' = sc_count s → sc_open s' = open →
    abstract s' (ys ++ [o]) = abstract s ys) as Habs.
  { intros s' Hsw Hst Hc Ho'. unfold abstract. rewrite Hsw, Hst, Hc, Ho', Hop. by rewrite <- (assoc_L (++)). }
  destruct (sc_sizeOnly s) eqn:Esz.
  { eexists. split; [reflexivity|]. split_and!; try done; [by apply Habs|].
    by apply (yield_ok s ys o open (sc_outer s)). }
  assert (cap_slice (set_open s open (sc_count s)) (or_start o) (or_end o)
          = Some (ssub (sc_text s) (or_start o - w_base (sc_w s)) (or_end o - w_base (sc_w s)))) as Hslice.
  { unfold cap_slice. cbn. rewrite bool_decide_eq_true_2; [done|]. lia. }
  assert (∀ raw, raw = ssub (sc_text s) (or_start o - w_base (sc_w s)) (or_end o - w_base (sc_w s)) →
    outer_ok (sc_text s) (w_base (sc_w s)) (Some (raw, or_start o))) as Hout.
  { intros raw ->. cbn. rewrite ssub_length by lia. split_and!; [done|lia|f_equal; lia]. }
  cbn [sc_outer set_open]. destruct (sc_outer s) as [[raw start]|] eqn:Eout.
  - case_bool_decide as Hin.
    + destruct Ho as (Hb1 & Hb2 & Hraw). eexists. split.
      * do 4 f_equal. rewrite Hraw, ssub_ssub by lia. do 2 f_equal; lia.
      * split_and!; try done; [by apply Habs|].
        apply (yield_ok s ys o open (sc_outer s)); try done. rewrite Eout. by split_and!.
    + rewrite Hslice. eexists. split; [reflexivity|]. split_and!; try done; [by apply Habs|].
      apply (yield_ok s ys o open); try done. by apply Hout.
  - rewrite Hslice. eexists. split; [reflexivity|]. split_and!; try done; [by apply Habs|].
    apply (yield_ok s ys o open); try done. by apply Hout.
Qed.

(** *** Finished records stay *)
Definition prefix_kept (P : list openRecord) (a : astate) : Prop :=
  (∃ Q, a_recs a = P ++ Q) ∧ Forall (λ o, or_num o ≤ a_count a) P ∧
  Forall (λ n, n ∉ or_num <$> P) (frame_records (a_stack a)).

Lemma new_number P count : Forall (λ o, or_num o ≤ count) P → S count ∉ or_num <$> P.
Proof.
  rewrite Forall_forall. intros H (o & Ho & Hin)%list_elem_of_fmap. specialize (H o Hin). lia.
Qed.

Lemma a_value_prefix P a name t inArray a' :
  prefix_kept P a → a_value a name t inArray = Ok a' → prefix_kept P a'.
Proof.
  intros ([Q HQ] & Hle & Hf). unfold a_value.
  assert (Forall (λ o, or_num o ≤ S (a_count a)) P) as Hle'
    by (eapply Forall_impl; [exact Hle|]; cbn; lia).
  destruct (tk t) as [c|v|v|v|].
  1: { destruct (_ || _); [|done]. intros (w & _ & [= <-])%res_bind_ok.
    destruct (selected _ _ _); split_and!; cbn; rewrite ?HQ; try done; try by eexists.
    - eexists. by rewrite <- (assoc_L (++)).
    - constructor; [by apply new_number|done]. }
  all: destruct (selected _ _ _); intros [= <-]; [|by split_and!; [exists Q|..]].
  all: split_and!; cbn; rewrite ?HQ; try done; eexists; by rewrite <- (assoc_L (++)).
Qed.

Lemma a_pop_prefix P a : prefix_kept P a → prefix_kept P (a_pop a).
Proof.
  intros ([Q HQ] & Hle & Hf). unfold a_pop. unfold frame_records in Hf.
  destruct (a_stack a) as [|f stack] eqn:Est; [split_and!; [by exists Q|done|by rewrite Est]|].
  cbn in Hf. destruct (fr_rec f) as [n|] eqn:En.
  - apply Forall_cons in Hf as [Hn Hf]. split_and!; cbn; [|done|done].
    rewrite HQ, close_record_app, close_record_fresh by done. by eexists.
  - split_and!; cbn; [by exists Q|done|done].
Qed.

Lemma a_step_prefix P a a' : prefix_kept P a → a_step a = Ok a' → prefix_kept P a'.
Proof.
  intros HP. unfold a_step. destruct (a_stack a) as [|top stack] eqn:Est; [by intros [= <-]|].
  intros ([t w] & _ & H)%res_bind_ok. destruct (fr_obj top).
  - destruct (is_delim "}" t); [injection H as <-; by apply a_pop_prefix|].
    destruct (tk t); try done. case_bool_decide; [done|].
    apply res_bind_ok in H as ([t2 w2] & _ & H). eapply a_value_prefix in H; [exact H|].
    destruct HP as (HQ & Hle & Hf). rewrite Est in Hf. split_and!; try done.
  - destruct (is_delim "]" t); [injection H as <-; by apply a_pop_prefix|].
    by eapply a_value_prefix in H.
Qed.

Lemma a_run_prefix P fuel a : prefix_kept P a → ∃ Q, (a_run fuel a).1 = P ++ Q.
Proof.
  revert a. induction fuel as [|fuel IH]; intros a HP; cbn [a_run]; [by destruct HP|].
  destruct (a_stack a); [by destruct HP|].
  destruct (a_step a) eqn:Ea; [|by destruct HP]. apply IH. by eapply a_step_prefix.
Qed.

(** ** The refinement *)
Lemma sc_run_refines text base sizeOnly fuel : ∀ s ys fuel',
  scanner_ok s ys → sc_text s = text → w_base (sc_w s) = base → sc_sizeOnly s = sizeOnly →
  2 * length (w_toks (sc_w s)) + length (sc_open s) < fuel → length (w_toks (sc_w s)) < fuel' →
  sc_run fuel s =
  Some (record_of text base sizeOnly
          <$> done_prefix (drop (length ys) (a_run fuel' (abstract s ys)).1),
        (a_run fuel' (abstract s ys)).2).
Proof.
  induction fuel as [|fuel IH]; intros s ys fuel' Hok <- <- <- Hfuel Hfuel'; [lia|].
  destruct fuel' as [|fuel']; [lia|]. cbn [sc_run].
  destruct (sc_open s) as [|o open] eqn:Eop; [|destruct (or_done o) eqn:Ed].
  2: { destruct (sc_ready_done s ys o open Hok Eop Ed) as (s' & Hr & Ha & Hok' & Ho' & Hw' & Hsi).
    rewrite Hr. destruct Hsi as (Ht' & Hsz' & Hb').
    rewrite (IH s' (ys ++ [o]) (S fuel')); try done;
      [|rewrite Hw', Ho'; cbn in *; lia|rewrite Hw'; lia].
    rewrite Ha. cbn [fmap option_fmap option_map prod_map id]. unfold prod_map, id. cbn [fst snd].
    pose proof (a_run_prefix (ys ++ [o]) (S fuel') (abstract s ys)) as [Q HQ].
    { rewrite <- Ha. destruct (so_numbers _ _ Hok') as (Hnd & Hle & _ & Hrec). split_and!.
      - by exists (sc_open s').
      - by apply Forall_app in Hle as [? _].
      - eapply Forall_impl; [exact Hrec|]. intros n (o' & Hin & <- & _) Hin'.
        rewrite fmap_app in Hnd. apply NoDup_app in Hnd as (_ & Hd & _). apply (Hd _ Hin').
        by apply list_elem_of_fmap_2. }
    rewrite HQ. rewrite drop_app_length, <- (assoc_L (++)), drop_app_length. cbn [app done_prefix].
    rewrite Ed. done. }
  all: assert (sc_ready s = None) as -> by (unfold sc_ready; rewrite Eop; by rewrite ?Ed).
  all: assert (done_prefix (sc_open s) = []) as Hdone by (rewrite Eop; cbn; by rewrite ?Ed).
  all: assert (a_run (S fuel') (abstract s ys) =
    match sc_stack s with
    | [] => (ys ++ sc_open s, match w_end (sc_w s) with Ok _ => None | Err e => Some e end)
    | _ => match a_step (abstract s ys) with
           | Ok a => a_run fuel' a
           | Err e => (ys ++ sc_open s, Some e)
           end
    end) as -> by done.
  all: destruct (sc_stack s) as [|f stack] eqn:Est;
    [cbn [fst snd]; rewrite drop_app_length, Hdone; by destruct (w_end (sc_w s))|].
  all: pose proof (sc_step_refines s ys Hok ltac:(by rewrite Est)) as Hstep;
    destruct (a_step (abstract s ys)) as [a|e];
    [|rewrite Hstep; cbn [fst snd]; rewrite drop_app_length, Hdone; done].
  all: destruct Hstep as (s' & -> & <- & Hok' & Htk & Hlen & Hsi); destruct Hsi as (Ht' & Hsz' & Hb');
    apply IH; try done; rewrite ?Eop in *; cbn [length] in *; lia.
Qed.
End scan.
