(* ===== verification/JsonDoc.v ===== *)
(** * What the JSON walker accepts, and that the scanner agrees with the tree

    A document's tokens are those of one value ([jval]). The walk that builds
    the tree and the scanner that yields records read the same value, with the
    same fault when there is none: the tree is [nodes] of the value, and the
    records are its selected elements, [elements]. *)
From Stdlib Require Import Ascii ZArith Lia.
From stdpp Require Import base list strings gmap sets relations.
From S2P Require Import Prelude GoStrings GoFloat GoValue GoCsv GoJson JsonReader JsonWalk JsonScan JsonTokens JsonScanSpec.

(** ** The walker's equations *)
Section equations.
Context {E S : Type} `{Handler S}.
Implicit Types (w : walker E) (h : S).

Lemma w_object_eq fuel seen w h :
  w_object (Datatypes.S fuel) seen w h =
  ('(t, w) ← w_token w;
   if is_delim "}"%char t then Ok (w, h)
   else
     match tk t with
     | JString key =>
         if bool_decide (key ∈ seen) then
           start ← w_keyStart w; Err (errDuplicateKey key start)
         else
           '(t, w) ← w_token w;
           '(w, h) ← w_value fuel key t false w h;
           w_object fuel ({[ key ]} ∪ seen) w h
     | _ => Err (errUnexpectedToken (w_offset w))
     end).
Proof. done. Qed.
Lemma w_array_eq fuel name w h :
  w_array (Datatypes.S fuel) name w h =
  ('(t, w) ← w_token w;
   if is_delim "]"%char t then Ok (w, h)
   else
     '(w, h) ← w_value fuel name t true w h;
     w_array fuel name w h).
Proof. done. Qed.
Lemma w_value_delim fuel name t c inArray w h :
  tk t = JDelim c →
  w_value (Datatypes.S fuel) name t inArray w h =
  (w ← w_enter w;
   '(w, h) ← (if c =c? "{"%char then
                h ← handled (StartElement name KindObject h);
                '(w, h) ← w_object fuel ∅ w h;
                h ← handled (EndElement h); Ok (w, h)
              else if inArray then
                h ← handled (StartElement name KindArray h);
                '(w, h) ← w_array fuel name w h;
                h ← handled (EndElement h); Ok (w, h)
              else w_array fuel name w h);
   Ok (with_depth w (pred (w_depth w)), h)).
Proof. intros Ht. change (w_value (Datatypes.S fuel) name t inArray w h) with
  (match tk t with
   | JDelim c =>
       w ← w_enter w;
       '(w, h) ← (if c =c? "{"%char then
                    h ← handled (StartElement name KindObject h);
                    '(w, h) ← w_object fuel ∅ w h;
                    h ← handled (EndElement h); Ok (w, h)
                  else if inArray then
                    h ← handled (StartElement name KindArray h);
                    '(w, h) ← w_array fuel name w h;
                    h ← handled (EndElement h); Ok (w, h)
                  else w_array fuel name w h);
       Ok (with_depth w (pred (w_depth w)), h)
   | v => h ← scalar_value name v h; Ok (w, h)
   end). by rewrite Ht. Qed.
Lemma w_value_scalar fuel name t inArray w h :
  (∀ c, tk t ≠ JDelim c) →
  w_value (Datatypes.S fuel) name t inArray w h = (h ← scalar_value name (tk t) h; Ok (w, h)).
Proof. intros Ht. cbn [w_value]. destruct (tk t) eqn:Ek; try done. by destruct (Ht c). Qed.
End equations.

(** ** Values over their tokens *)
Inductive jval :=
| VScalar (t : token)
| VObject (o : token) (ms : list (token * jval)) (c : token)
| VArray (o : token) (items : list jval) (c : token).

Definition key_of (t : token) : string := match tk t with JString k => k | _ => "" end.

(** The tokens of a value. *)
Fixpoint flat (v : jval) : list token :=
  match v with
  | VScalar t => [t]
  | VObject o ms c => o :: flat_map (λ kv, kv.1 :: flat kv.2) ms ++ [c]
  | VArray o items c => o :: flat_map flat items ++ [c]
  end.

(** Its elements: a member array is no element itself, each of its items has
    the member's name; an item array is one element. *)
Definition scalar_node (name : string) (t : json_tok) : jnode :=
  match t with
  | JString v => JNode elementNode (Some ScalarString) name "" [text_node v]
  | JNumber v => JNode elementNode (Some ScalarNumber) name "" [text_node v]
  | JBool b => JNode elementNode (Some ScalarBool) name "" [text_node (if b then "true" else "false")]
  | _ => JNode elementNode (Some ScalarNull) name "" []
  end.
Fixpoint nodes (name : string) (inArray : bool) (v : jval) : list jnode :=
  match v with
  | VScalar t => [scalar_node name (tk t)]
  | VObject _ ms _ =>
      [JNode elementNode None name "" (flat_map (λ kv, nodes (key_of kv.1) false kv.2) ms)]
  | VArray _ items _ =>
      let l := flat_map (nodes name true) items in
      if inArray then [JNode elementNode None name "" l] else l
  end.

(** Nesting; the delimiters, and the distinct keys of each object. *)
Fixpoint height (v : jval) : nat :=
  match v with
  | VScalar _ => 0
  | VObject _ ms _ => S (max_list ((λ kv, height kv.2) <$> ms))
  | VArray _ items _ => S (max_list (height <$> items))
  end.
Fixpoint well_formed (v : jval) : Prop :=
  match v with
  | VScalar t => ∀ c, tk t ≠ JDelim c
  | VObject o ms c =>
      tk o = JDelim "{"%char ∧ tk c = JDelim "}"%char ∧ NoDup ((λ kv, key_of kv.1) <$> ms) ∧
      fold_right and True ((λ kv, tk kv.1 = JString (key_of kv.1) ∧ well_formed kv.2) <$> ms)
  | VArray o items c =>
      tk o = JDelim "["%char ∧ tk c = JDelim "]"%char ∧ fold_right and True (well_formed <$> items)
  end.

Section elements.
Context (sel_name : string) (anywhere : bool) (base : nat).

Definition sel (depth : nat) (name : string) (memberArray : bool) : bool :=
  (name =s? sel_name) && negb memberArray && (anywhere || bool_decide (depth = 1)).
(** The range and depth of a selected value from token [o] to token [c]. *)
Definition picked (depth : nat) (name : string) (memberArray : bool) (o c : token)
    : list (nat * nat * nat) :=
  if sel depth name memberArray then [(tk_start o + base, tk_end c + base, depth)] else [].
Fixpoint elements (depth : nat) (name : string) (inArray : bool) (v : jval)
    : list (nat * nat * nat) :=
  match v with
  | VScalar t => picked depth name false t t
  | VObject o ms c =>
      picked depth name false o c
        ++ flat_map (λ kv, elements (S depth) (key_of kv.1) false kv.2) ms
  | VArray o items c =>
      picked depth name (negb inArray) o c
        ++ flat_map (elements (if inArray then S depth else depth) name true) items
  end.
End elements.

(** Numbered in document order, behind [n] earlier records. *)
Fixpoint numbered (n : nat) (l : list (nat * nat * nat)) : list openRecord :=
  match l with
  | [] => []
  | (start, stop, depth) :: l =>
      {| or_num := S n; or_start := start; or_end := stop; or_depth := depth; or_done := true |}
        :: numbered (S n) l
  end.

Lemma numbered_app n l k : numbered n (l ++ k) = numbered n l ++ numbered (n + length l) k.
Proof.
  revert n. induction l as [|[[s e] d] l IH]; intros n; cbn [numbered app length].
  - by rewrite Nat.add_0_r.
  - rewrite IH. by rewrite Nat.add_succ_comm.
Qed.
Lemma numbered_gt n l : Forall (λ o, n < or_num o ≤ n + length l) (numbered n l).
Proof.
  revert n. induction l as [|[[s e] d] l IH]; intros n; cbn [numbered length]; [constructor|].
  constructor; [cbn; lia|]. eapply Forall_impl; [apply IH|]. cbn. lia.
Qed.
Lemma numbered_done n l : done_prefix (numbered n l) = numbered n l.
Proof. revert n. induction l as [|[[s e] d] l IH]; intros n; cbn; [done|]. by rewrite IH. Qed.

(** Appending finished nodes to the node being built. *)
Definition add_nodes (b : treeBuilder) (l : list jnode) : treeBuilder :=
  let 'JNode t s m v cs := tb_cur b in
  {| tb_cur := JNode t s m v (cs ++ l); tb_open := tb_open b |}.
Lemma add_nodes_app b l k : add_nodes (add_nodes b l) k = add_nodes b (l ++ k).
Proof. destruct b as [[t s m v cs] op]. unfold add_nodes. cbn. by rewrite (assoc_L (++)). Qed.
Lemma add_nodes_nil b : add_nodes b [] = b.
Proof. destruct b as [[t s m v cs] op]. unfold add_nodes. cbn. by rewrite app_nil_r. Qed.

(** A scalar's handler calls. *)
Lemma scalar_value_tree {E} name t (b : treeBuilder) :
  (∀ c, t ≠ JDelim c) →
  scalar_value (E := E) name t b = Ok (add_nodes b [scalar_node name t]).
Proof. destruct b as [[ty s m v cs] op]. intros H. by destruct t. Qed.

(** ** The walk that builds the tree, against the abstract machine *)
Section walks.
Context {E : Type} (sel_name : string) (anywhere : bool) (text : string).
Notation werr := (walk_error E).
Notation a_step := (a_step (E := E) sel_name anywhere).
Notation a_value := (a_value (E := E) sel_name anywhere).
Implicit Types (w : walker E) (a : astate (E := E)) (b : treeBuilder).

Definition a_moves : relation astate := rtc (λ a a', a_stack a ≠ [] ∧ a_step a = Ok a').
Definition a_fails a (e : werr) : Prop := ∃ a', a_moves a a' ∧ a_stack a' ≠ [] ∧ a_step a' = Err e.

Lemma a_moves_once a a' : a_stack a ≠ [] → a_step a = Ok a' → a_moves a a'.
Proof. intros. by apply rtc_once. Qed.
Lemma a_moves_trans a1 a2 a3 : a_moves a1 a2 → a_moves a2 a3 → a_moves a1 a3.
Proof. unfold a_moves. intros. by etrans. Qed.
Lemma a_fails_now a e : a_stack a ≠ [] → a_step a = Err e → a_fails a e.
Proof. intros. exists a. split; [apply rtc_refl|done]. Qed.
Lemma a_moves_fails a a' e : a_moves a a' → a_fails a' e → a_fails a e.
Proof. intros H (a2 & Hm & Hf). exists a2. split; [by eapply a_moves_trans|done]. Qed.

(** The machine behind a finished value. *)
Definition a_add a w (els : list (nat * nat * nat)) : astate := {|
  a_w := w; a_stack := a_stack a; a_recs := a_recs a ++ numbered (a_count a) els;
  a_count := a_count a + length els |}.
Lemma a_add_nil a w : w = a_w a → a_add a w [] = a.
Proof. intros ->. destruct a. unfold a_add. cbn. by rewrite app_nil_r, Nat.add_0_r. Qed.
Lemma a_add_add a w w' l k : a_add (a_add a w l) w' k = a_add a w' (l ++ k).
Proof.
  unfold a_add. cbn. rewrite numbered_app, length_app. f_equal; [by rewrite (assoc_L (++))|lia].
Qed.

Definition nums_le a : Prop := Forall (λ o, or_num o ≤ a_count a) (a_recs a).
Lemma nums_le_add a w l : nums_le a → nums_le (a_add a w l).
Proof.
  intros H. unfold nums_le, a_add in *. cbn. apply Forall_app. split.
  - eapply Forall_impl; [exact H|]. cbn. lia.
  - eapply Forall_impl; [apply numbered_gt|]. cbn. lia.
Qed.

(** Closing the frame of a selected container finishes its record. *)
Lemma close_numbered n start stop depth l recs :
  Forall (λ o, or_num o ≤ n) recs →
  close_record (S n) stop
    ((recs ++ [{| or_num := S n; or_start := start; or_end := 0; or_depth := depth; or_done := false |}])
       ++ numbered (S n) l)
  = recs ++ numbered n ((start, stop, depth) :: l).
Proof.
  intros H. rewrite !close_record_app, (close_record_fresh _ _ recs), (close_record_fresh _ _ (numbered _ _)), <- (assoc_L (++)).
  - f_equal. unfold close_record. cbn. by rewrite bool_decide_eq_true_2.
  - intros (o & Ho & Hin)%list_elem_of_fmap. pose proof (numbered_gt (S n) l) as Hg.
    rewrite Forall_forall in Hg. apply Hg in Hin. lia.
  - by apply new_number.
Qed.

Lemma push_pop a w w' c name seen fd o cl depth ma els :
  nums_le a → depth = top_depth (a_stack a) →
  tk_end cl + w_base (a_w a) = w_offset w' →
  let s := sel sel_name anywhere depth name ma in
  let rec := {| or_num := S (a_count a); or_start := tk_start o + w_base (a_w a); or_end := 0;
                or_depth := depth; or_done := false |} in
  a_pop (a_add {| a_w := w;
                  a_stack := {| fr_obj := c; fr_name := name; fr_seen := seen;
                                fr_rec := if s then Some (S (a_count a)) else None;
                                fr_depth := fd |} :: a_stack a;
                  a_recs := if s then a_recs a ++ [rec] else a_recs a;
                  a_count := if s then S (a_count a) else a_count a |} w' els)
  = a_add a (with_depth w' (pred (w_depth w')))
      (picked sel_name anywhere (w_base (a_w a)) depth name ma o cl ++ els).
Proof.
  intros Hle -> Hcl s rec. unfold picked. fold s. unfold a_pop, a_add. cbn [a_stack a_w fr_rec a_recs a_count].
  destruct s; cbn [fr_rec]; [|done]. f_equal.
  - unfold rec. rewrite close_numbered by done. cbn [app numbered]. do 4 f_equal.
    rewrite Hcl. unfold w_offset. done.
  - cbn. lia.
Qed.

(** What holds behind a value or a list of members or items. *)
Definition behind w w' (ts : list token) (g : gstate) (K : list gstate) : Prop :=
  w_toks w = ts ++ w_toks w' ∧ w_base w' = w_base w ∧ w_depth w' = w_depth w ∧
  grammar g K (tk <$> w_toks w') ∧ walker_ok text w'.

Lemma behind_token w w' t ts0 ts g K :
  w_toks w = t :: ts0 → behind (after_token w t ts0) w' ts g K → behind w w' (t :: ts) g K.
Proof.
  intros Ht (H1 & H2 & H3 & H4 & H5). split_and!; try done. rewrite Ht. cbn [app]. f_equal. exact H1.
Qed.
Lemma behind_trans w1 w2 w3 ts1 ts2 g K g' K' :
  behind w1 w2 ts1 g K → behind w2 w3 ts2 g' K' → behind w1 w3 (ts1 ++ ts2) g' K'.
Proof.
  intros (H1 & H2 & H3 & _) (H4 & H5 & H6 & H7 & H8). split_and!; try done; try congruence.
  by rewrite H1, H4, (assoc_L (++)).
Qed.

Definition value_walk name t inArray w b a g K (r : res werr (walker E * treeBuilder)) : Prop :=
  match r with
  | Ok (w', b') => ∃ v ts, flat v = t :: ts ∧ behind w w' ts (gdone g) K ∧
      well_formed v ∧ w_depth w + height v ≤ MaxDepth ∧
      b' = add_nodes b (nodes name inArray v) ∧
      ∃ a1, a_value a name t inArray = Ok a1 ∧
            a_moves a1 (a_add a w' (elements sel_name anywhere (w_base w) (top_depth (a_stack a)) name inArray v))
  | Err e => a_value a name t inArray = Err e ∨
             ∃ a1, a_value a name t inArray = Ok a1 ∧ a_fails a1 e
  end.

Definition members_walk w b a f g K (r : res werr (walker E * treeBuilder)) : Prop :=
  match r with
  | Ok (w', b') => ∃ ms c, behind w w' (flat_map (λ kv, kv.1 :: flat kv.2) ms ++ [c]) g K ∧
      w_pos w' = tk_end c ∧ tk c = JDelim "}"%char ∧
      NoDup ((λ kv, key_of kv.1) <$> ms) ∧ Forall (λ kv, key_of kv.1 ∉ fr_seen f) ms ∧
      fold_right and True ((λ kv, tk kv.1 = JString (key_of kv.1) ∧ well_formed kv.2) <$> ms) ∧
      Forall (λ kv, w_depth w + height kv.2 ≤ MaxDepth) ms ∧
      b' = add_nodes b (flat_map (λ kv, nodes (key_of kv.1) false kv.2) ms) ∧
      a_moves a (a_pop (a_add a w' (flat_map (λ kv, elements sel_name anywhere (w_base w) (fr_depth f)
                                              (key_of kv.1) false kv.2) ms)))
  | Err e => a_fails a e
  end.

Definition items_walk name w b a f g K (r : res werr (walker E * treeBuilder)) : Prop :=
  match r with
  | Ok (w', b') => ∃ items c, behind w w' (flat_map flat items ++ [c]) g K ∧
      w_pos w' = tk_end c ∧ tk c = JDelim "]"%char ∧
      fold_right and True (well_formed <$> items) ∧
      Forall (λ v, w_depth w + height v ≤ MaxDepth) items ∧
      b' = add_nodes b (flat_map (nodes name true) items) ∧
      a_moves a (a_pop (a_add a w' (flat_map (elements sel_name anywhere (w_base w) (fr_depth f) name true) items)))
  | Err e => a_fails a e
  end.

(** *** The induction *)
Definition value_spec (fuel : nat) : Prop := ∀ name t inArray w b a g K g1 K1,
  gvalue g K (tk t) = Some (g1, K1) → grammar g1 K1 (tk <$> w_toks w) → walker_ok text w →
  a_w a = w → w_pos w = tk_end t → nums_le a → w_depth w ≤ MaxDepth → 2 * length (w_toks w) + 2 ≤ fuel →
  value_walk name t inArray w b a g K (w_value fuel name t inArray w b).
Definition members_spec (fuel : nat) : Prop := ∀ w b a f stack g K,
  a_stack a = f :: stack → fr_obj f = true → grammar GKey (g :: K) (tk <$> w_toks w) →
  walker_ok text w → a_w a = w → nums_le a → w_depth w ≤ MaxDepth → 2 * length (w_toks w) + 1 ≤ fuel →
  members_walk w b a f g K (w_object fuel (fr_seen f) w b).
Definition items_spec (fuel : nat) : Prop := ∀ w b a f stack g K,
  a_stack a = f :: stack → fr_obj f = false → grammar GArr (g :: K) (tk <$> w_toks w) →
  walker_ok text w → a_w a = w → nums_le a → w_depth w ≤ MaxDepth → 2 * length (w_toks w) + 1 ≤ fuel →
  items_walk (fr_name f) w b a f g K (w_array fuel (fr_name f) w b).

Lemma a_step_obj a f stack : a_stack a = f :: stack → fr_obj f = true →
  a_step a =
  match w_toks (a_w a) with
  | [] => Err (wrap (w_last (a_w a)))
  | t :: ts =>
      let w := after_token (a_w a) t ts in
      if is_delim "}"%char t then Ok (a_pop (a_set_w a w))
      else
        match tk t with
        | JString key =>
            if bool_decide (key ∈ fr_seen f) then
              Err (errDuplicateKey key (tk_start t + w_base w))
            else
              '(t, w) ← w_token w;
              a_value {| a_w := w;
                         a_stack := {| fr_obj := true; fr_name := fr_name f;
                                       fr_seen := {[ key ]} ∪ fr_seen f; fr_rec := fr_rec f;
                                       fr_depth := fr_depth f |} :: stack;
                         a_recs := a_recs a; a_count := a_count a |} key t false
        | _ => Err (errUnexpectedToken (w_offset w))
        end
  end.
Proof. intros Hs Hf. unfold JsonScanSpec.a_step. rewrite Hs, w_token_eq. destruct (w_toks (a_w a)); cbn; by rewrite ?Hf. Qed.

Lemma a_step_arr a f stack : a_stack a = f :: stack → fr_obj f = false →
  a_step a =
  match w_toks (a_w a) with
  | [] => Err (wrap (w_last (a_w a)))
  | t :: ts =>
      let a := a_set_w a (after_token (a_w a) t ts) in
      if is_delim "]"%char t then Ok (a_pop a) else a_value a (fr_name f) t true
  end.
Proof. intros Hs Hf. unfold JsonScanSpec.a_step. rewrite Hs, w_token_eq. destruct (w_toks (a_w a)); cbn; by rewrite ?Hf. Qed.

Lemma is_delim_eq c t : is_delim c t = true ↔ tk t = JDelim c.
Proof.
  unfold is_delim. destruct (tk t); try done. split.
  - by intros ->%Ascii.eqb_eq.
  - intros [= ->]. by apply Ascii.eqb_eq.
Qed.

(** The closing delimiter of a list of members or items. *)
Lemma a_pop_same_rec a a' f f' stack w els els' :
  a_stack a = f :: stack → a_stack a' = f' :: stack → fr_rec f' = fr_rec f →
  a_recs a = a_recs a' → a_count a = a_count a' → els = els' →
  a_pop (a_add a' w els) = a_pop (a_add a w els').
Proof.
  intros Hs Hs' Hf Hr Hc ->. unfold a_pop, a_add. cbn [a_stack]. rewrite Hs, Hs'. cbn.
  by rewrite Hf, Hr, Hc.
Qed.

Lemma members_step fuel : value_spec fuel → members_spec fuel → members_spec (S fuel).
Proof.
  intros IHv IHm w b a f stack g K Hst Hobj Hg Hw <- Hn Hmax Hfuel.
  pose proof (a_step_obj a f stack Hst Hobj) as Hstep.
  assert (a_stack a ≠ []) as Hne by (by rewrite Hst).
  rewrite w_object_eq, w_token_eq.
  destruct (w_toks (a_w a)) as [|t ts] eqn:Et; [by apply a_fails_now|].
  cbn [mbind res_bind]. pose proof (after_token_ok _ _ _ _ Hw Et) as Hw1. cbn zeta in Hstep.
  destruct (is_delim "}" t) eqn:Hd.
  { apply is_delim_eq in Hd as Htk. cbn [fmap list_fmap grammar] in Hg. rewrite Htk in Hg. cbn in Hg.
    exists [], t. cbn [flat_map fmap list_fmap app]. split_and!; try done.
    - by apply NoDup_nil.
    - by rewrite add_nodes_nil.
    - eapply a_moves_once; [done|]. rewrite Hstep. do 2 f_equal.
      unfold a_add. by rewrite app_nil_r, Nat.add_0_r. }
  cbn [fmap list_fmap grammar] in Hg.
  destruct (tk t) as [c|key|x|x|] eqn:Etk; try done.
  { exfalso. cbn in Hg. destruct (Ascii.eqb_spec c "}"); [|done]. subst.
    by rewrite (proj2 (is_delim_eq _ _) Etk) in Hd. }
  cbn [gnext] in Hg. case_bool_decide as Hdup.
  { rewrite (keyStart_ok _ _ _ _ key Hw Et Etk). by apply a_fails_now. }
  rewrite w_token_eq in *. cbn [after_token w_toks] in *.
  destruct ts as [|t2 ts2]; [by apply a_fails_now|]. cbn [mbind res_bind].
  cbn [fmap list_fmap grammar gnext] in Hg.
  destruct (gvalue GVal (g :: K) (tk t2)) as [[g1 K1]|] eqn:Hgv; [|done].
  pose proof (after_token_ok _ _ _ _ Hw1 eq_refl) as Hw2.
  set (w2 := after_token (after_token (a_w a) t (t2 :: ts2)) t2 ts2) in *.
  cbn [mbind res_bind] in Hstep.
  set (f' := {| fr_obj := true; fr_name := fr_name f; fr_seen := {[ key ]} ∪ fr_seen f;
                fr_rec := fr_rec f; fr_depth := fr_depth f |}) in *.
  set (a2 := {| a_w := w2; a_stack := f' :: stack; a_recs := a_recs a; a_count := a_count a |}) in *.
  cbn [length] in Hfuel.
  pose proof (IHv key t2 false w2 b a2 GVal (g :: K) g1 K1 Hgv Hg Hw2 eq_refl eq_refl Hn
    Hmax ltac:(cbn; lia)) as Hv.
  destruct (w_value fuel key t2 false w2 b) as [[w3 b3]|e].
  2: { cbn [mbind res_bind]. destruct Hv as [Hv|(a1 & Hv & Hf)].
    - apply a_fails_now; [done|]. rewrite Hstep. exact Hv.
    - eapply a_moves_fails; [|exact Hf]. apply a_moves_once; [done|]. rewrite Hstep. exact Hv. }
  destruct Hv as (v & tsv & Hflat & Hbh & Hdk & Hh & -> & a1 & Hv & Hmv).
  pose proof Hbh as (Htoks & Hb & Hdep & Hg3 & Hw3).
  cbn [mbind res_bind].
  assert (a_moves a (a_add a2 w3 (elements sel_name anywhere (w_base w2) (fr_depth f) key false v))) as Hmv4.
  { eapply a_moves_trans; [eapply a_moves_once; [done|]|exact Hmv]. rewrite Hstep. exact Hv. }
  set (a4 := a_add a2 w3 _) in *.
  assert (length (w_toks w3) ≤ length ts2) as Hlen3.
  { change ts2 with (w_toks w2). rewrite Htoks, length_app. lia. }
  pose proof (IHm w3 (add_nodes b (nodes key false v)) a4 f' stack g K eq_refl eq_refl Hg3 Hw3 eq_refl
    ltac:(by apply nums_le_add) ltac:(by rewrite Hdep) ltac:(lia)) as Hm.
  change (fr_seen f') with ({[key]} ∪ fr_seen f) in Hm.
  destruct (w_object fuel _ w3 _) as [[w5 b5]|e]; [|by eapply a_moves_fails].
  destruct Hm as (ms & c & Hbh5 & Hpos & Hcl & Hnd & Hseen & Hdks & Hhs & -> & Hmv5).
  assert (w_base w3 = w_base (a_w a)) as Hb3 by (by rewrite Hb).
  assert (w_depth w3 = w_depth (a_w a)) as Hd3 by (by rewrite Hdep).
  assert (key_of t = key) as Hkey by (unfold key_of; by rewrite Etk).
  exists ((t, v) :: ms), c. cbn [flat_map fmap list_fmap fst snd fold_right]. rewrite Hkey. split_and!; try done.
  - rewrite <- (assoc_L (++)), Hflat. cbn [app]. eapply behind_token; [exact Et|].
    eapply behind_token; [done|]. by eapply behind_trans.
  - apply NoDup_cons. split; [|done]. intros (kv & Hk & Hin)%list_elem_of_fmap.
    rewrite Forall_forall in Hseen. apply Hseen in Hin. cbn in Hin. rewrite <- Hk in Hin. set_solver.
  - constructor; [cbn; by rewrite Hkey|]. eapply Forall_impl; [exact Hseen|]. cbn. intros kv. set_solver.
  - constructor; [done|]. by rewrite <- Hd3.
  - by rewrite add_nodes_app.
  - eapply a_moves_trans; [exact Hmv4|]. 
    unfold a4 in Hmv5. rewrite a_add_add in Hmv5.
    erewrite <- (a_pop_same_rec a a2 f f' stack w5); [exact Hmv5|done..|].
    cbn. by rewrite Hb3.
Qed.

Lemma items_step fuel : value_spec fuel → items_spec fuel → items_spec (S fuel).
Proof.
  intros IHv IHm w b a f stack g K Hst Hobj Hg Hw <- Hn Hmax Hfuel.
  pose proof (a_step_arr a f stack Hst Hobj) as Hstep.
  assert (a_stack a ≠ []) as Hne by (by rewrite Hst).
  rewrite w_array_eq, w_token_eq.
  destruct (w_toks (a_w a)) as [|t ts] eqn:Et; [by apply a_fails_now|].
  cbn [mbind res_bind]. pose proof (after_token_ok _ _ _ _ Hw Et) as Hw1. cbn zeta in Hstep.
  cbn [fmap list_fmap grammar] in Hg.
  destruct (is_delim "]" t) eqn:Hd.
  { apply is_delim_eq in Hd as Htk. rewrite Htk in Hg. cbn in Hg.
    exists [], t. cbn [flat_map fmap list_fmap app]. split_and!; try done.
    - by rewrite add_nodes_nil.
    - eapply a_moves_once; [done|]. rewrite Hstep. do 2 f_equal.
      unfold a_add. by rewrite app_nil_r, Nat.add_0_r. }
  assert (∃ g1 K1, gvalue GArr (g :: K) (tk t) = Some (g1, K1) ∧ grammar g1 K1 (tk <$> ts)) as (g1 & K1 & Hgv & Hg1).
  { destruct (gnext GArr (g :: K) (tk t)) as [[g1 K1]|] eqn:Hgn; [|done].
    exists g1, K1. split; [|done]. unfold gnext in Hgn. destruct (tk t) as [c|x|x|x|] eqn:Etk; try done.
    destruct (Ascii.eqb_spec c "]"); [|done]. subst. by rewrite (proj2 (is_delim_eq _ _) Etk) in Hd. }
  set (w2 := after_token (a_w a) t ts) in *. set (a2 := a_set_w a w2) in *. cbn [length] in Hfuel.
  assert (top_depth (a_stack a) = fr_depth f) as Htop by (by rewrite Hst).
  pose proof (IHv (fr_name f) t true w2 b a2 GArr (g :: K) g1 K1 Hgv Hg1 Hw1 eq_refl eq_refl Hn
    Hmax ltac:(cbn; lia)) as Hv.
  destruct (w_value fuel (fr_name f) t true w2 b) as [[w3 b3]|e].
  2: { cbn [mbind res_bind]. destruct Hv as [Hv|(a1 & Hv & Hf)].
    - apply a_fails_now; [done|]. rewrite Hstep. exact Hv.
    - eapply a_moves_fails; [|exact Hf]. apply a_moves_once; [done|]. rewrite Hstep. exact Hv. }
  destruct Hv as (v & tsv & Hflat & Hbh & Hdk & Hh & -> & a1 & Hv & Hmv).
  pose proof Hbh as (Htoks & Hb & Hdep & Hg3 & Hw3).
  cbn [mbind res_bind]. change (a_stack a2) with (a_stack a) in Hmv. rewrite Htop in Hmv.
  assert (a_moves a (a_add a2 w3 (elements sel_name anywhere (w_base w2) (fr_depth f) (fr_name f) true v))) as Hmv4.
  { eapply a_moves_trans; [eapply a_moves_once; [done|]|exact Hmv]. rewrite Hstep. exact Hv. }
  set (a4 := a_add a2 w3 _) in *.
  assert (length (w_toks w3) ≤ length ts) as Hlen3.
  { change ts with (w_toks w2). rewrite Htoks, length_app. lia. }
  pose proof (IHm w3 (add_nodes b (nodes (fr_name f) true v)) a4 f stack g K Hst Hobj Hg3 Hw3 eq_refl
    ltac:(by apply nums_le_add) ltac:(by rewrite Hdep) ltac:(lia)) as Hm.
  destruct (w_array fuel _ w3 _) as [[w5 b5]|e]; [|by eapply a_moves_fails].
  destruct Hm as (items & c & Hbh5 & Hpos & Hcl & Hdks & Hhs & -> & Hmv5).
  exists (v :: items), c. cbn [flat_map fmap list_fmap fst snd fold_right]. split_and!; try done.
  - rewrite <- (assoc_L (++)), Hflat. cbn [app]. eapply behind_token; [exact Et|]. by eapply behind_trans.
  - constructor; [done|]. by rewrite Hdep in Hhs.
  - by rewrite add_nodes_app.
  - eapply a_moves_trans; [exact Hmv4|].
    unfold a4 in Hmv5. rewrite a_add_add in Hmv5.
    erewrite <- (a_pop_same_rec a a2 f f stack w5); [exact Hmv5|try done..|].
    cbn. by rewrite Hb.
Qed.

(** *** Values *)
Lemma a_value_scalar a name t inArray :
  (∀ c, tk t ≠ JDelim c) → w_pos (a_w a) = tk_end t →
  a_value a name t inArray
  = Ok (a_add a (a_w a) (elements sel_name anywhere (w_base (a_w a)) (top_depth (a_stack a)) name inArray (VScalar t))).
Proof.
  intros Ht Hpos. cbn [elements]. unfold picked.
  change (sel sel_name anywhere (top_depth (a_stack a)) name false) with
    (selected sel_name anywhere (a_stack a) name false).
  assert (w_offset (a_w a) = tk_end t + w_base (a_w a)) as Hoff by (unfold w_offset; by rewrite Hpos).
  unfold JsonScanSpec.a_value. rewrite Hoff.
  destruct (selected sel_name anywhere (a_stack a) name false) eqn:Es; [|rewrite a_add_nil by done];
    (destruct (tk t) as [c| | | |] eqn:Ek; [by destruct (Ht c)|..]); try done;
    unfold a_add; cbn; do 2 f_equal; lia.
Qed.

Lemma scalar_step fuel name t inArray w b a g K g1 K1 :
  (∀ c, tk t ≠ JDelim c) →
  gvalue g K (tk t) = Some (g1, K1) → grammar g1 K1 (tk <$> w_toks w) → walker_ok text w →
  a_w a = w → w_pos w = tk_end t → w_depth w ≤ MaxDepth →
  value_walk name t inArray w b a g K (w_value (S fuel) name t inArray w b).
Proof.
  intros Ht Hgv Hg Hw <- Hpos Hmax. rewrite w_value_scalar, scalar_value_tree by done. cbn [mbind res_bind].
  assert ((g1, K1) = (gdone g, K)) as [= -> ->].
  { destruct (tk t); try (by injection Hgv as <- <-). by destruct (Ht c). }
  exists (VScalar t), []. split_and!; try done; [cbn; lia|].
  eexists. split; [by apply a_value_scalar|apply rtc_refl].
Qed.

(** The frame pushed for a container. *)
Definition pushed a w (isObj : bool) name t (memberArray : bool) : astate :=
  let s := selected sel_name anywhere (a_stack a) name memberArray in
  let d := top_depth (a_stack a) in
  {| a_w := w;
     a_stack := {| fr_obj := isObj; fr_name := name; fr_seen := ∅;
                   fr_rec := if s then Some (S (a_count a)) else None;
                   fr_depth := if memberArray then d else S d |} :: a_stack a;
     a_recs := if s then a_recs a ++ [{| or_num := S (a_count a); or_start := tk_start t + w_base (a_w a);
                                         or_end := 0; or_depth := d; or_done := false |}] else a_recs a;
     a_count := if s then S (a_count a) else a_count a |}.

Lemma a_value_delim a name t c inArray :
  tk t = JDelim c → (c =c? "{"%char) || (c =c? "["%char) = true →
  a_value a name t inArray =
  match w_enter (a_w a) with
  | Ok w => Ok (pushed a w (c =c? "{"%char) name t ((c =c? "["%char) && negb inArray))
  | Err e => Err e
  end.
Proof. intros Ht Hc. unfold JsonScanSpec.a_value. by rewrite Ht, Hc. Qed.

Lemma nums_le_pushed a w isObj name t ma : nums_le a → nums_le (pushed a w isObj name t ma).
Proof.
  intros H. unfold nums_le, pushed in *. cbn. destruct (selected _ _ _ _ _); [|done].
  apply Forall_app. split; [|by repeat constructor]. eapply Forall_impl; [exact H|]. cbn. lia.
Qed.

Lemma pushed_pop a w w' isObj name t cl ma els :
  nums_le a → tk_end cl + w_base (a_w a) = w_offset w' →
  a_pop (a_add (pushed a w isObj name t ma) w' els)
  = a_add a (with_depth w' (pred (w_depth w')))
      (picked sel_name anywhere (w_base (a_w a)) (top_depth (a_stack a)) name ma t cl ++ els).
Proof. intros Hn Hcl. by eapply (push_pop a w w' isObj name ∅ _ t cl). Qed.

(** The delimiters that start a value. *)
Lemma gvalue_delim g K c g1 K1 :
  gvalue g K (JDelim c) = Some (g1, K1) →
  K1 = gdone g :: K ∧ ((c = "{"%char ∧ g1 = GKey) ∨ (c = "["%char ∧ g1 = GArr)).
Proof.
  cbn. destruct (Ascii.eqb_spec c "{") as [->|]; [intros [= <- <-]; eauto|].
  destruct (Ascii.eqb_spec c "[") as [->|]; [intros [= <- <-]; eauto|done].
Qed.

Lemma heights_le d {A} (h : A → nat) l :
  S d ≤ MaxDepth → Forall (λ x, S d + h x ≤ MaxDepth) l → d + S (max_list (h <$> l)) ≤ MaxDepth.
Proof.
  intros Hd Hl. enough (S d + max_list (h <$> l) ≤ MaxDepth) by lia.
  induction Hl as [|x l Hx Hl IH]; [cbn; lia|].
  change (max_list (h <$> x :: l)) with (max (h x) (max_list (h <$> l))). lia.
Qed.

(** Leaving a container. *)
Lemma behind_leave w w1 w' ts (cl : token) g K :
  w_enter w = Ok w1 → behind w1 w' (ts ++ [cl]) g K →
  behind w (with_depth w' (pred (w_depth w'))) (ts ++ [cl]) g K ∧ w_base w1 = w_base w ∧
  w_depth w1 = S (w_depth w) ∧ S (w_depth w) ≤ MaxDepth ∧ w_toks w1 = w_toks w.
Proof.
  unfold w_enter. case_bool_decide as Hd; [done|]. intros [= <-] (H1 & H2 & H3 & H4 & H5).
  split_and!; try done; [|cbn in *; lia]. cbn in *. by rewrite H3.
Qed.

Lemma container_step fuel name t c inArray w b a g K g1 K1 :
  members_spec fuel → items_spec fuel → tk t = JDelim c →
  gvalue g K (tk t) = Some (g1, K1) → grammar g1 K1 (tk <$> w_toks w) → walker_ok text w →
  a_w a = w → w_pos w = tk_end t → nums_le a → 2 * length (w_toks w) + 2 ≤ S fuel →
  value_walk name t inArray w b a g K (w_value (S fuel) name t inArray w b).
Proof.
  intros IHm IHi Ht Hgv Hg Hw <- Hpos Hn Hfuel. rewrite Ht in Hgv.
  apply gvalue_delim in Hgv as (-> & Hc). rewrite (w_value_delim _ _ _ c) by done.
  assert ((c =c? "{"%char) || (c =c? "["%char) = true) as Hopen by (by destruct Hc as [[-> _]|[-> _]]).
  pose proof (a_value_delim a name t c inArray Ht Hopen) as Hav.
  destruct (w_enter (a_w a)) as [w1|e] eqn:He; [|by left]. cbn [mbind res_bind].
  pose proof (w_enter_ok _ _ He) as Hw1. assert (w_depth w1 ≤ MaxDepth) as Hmax.
  { unfold w_enter in He. case_bool_decide; [done|]. injection He as <-. cbn in *. lia. }
  destruct Hc as [[-> ->]|[-> ->]].
  - change ("{" =c? "{")%char with true in *. change ("{" =c? "[")%char with false in Hav.
    cbn [andb] in Hav. cbn [handled map_err StartElement tree_handler mbind res_bind].
    set (b1 := {| tb_cur := _; tb_open := _ |}).
    pose proof (IHm w1 b1 (pushed a w1 true name t false) _ (a_stack a) (gdone g) K eq_refl eq_refl
      ltac:(by rewrite Hw1) ltac:(by rewrite Hw1) eq_refl (nums_le_pushed _ _ _ _ _ _ Hn) Hmax
      ltac:(rewrite Hw1; cbn; lia)) as Hm. cbn [fr_seen] in Hm.
    destruct (w_object fuel ∅ w1 b1) as [[w' b']|e]; [|right; by eexists].
    destruct Hm as (ms & cl & Hbh & Hcl & Htc & Hnd & _ & Hdk & Hh & -> & Hmv).
    destruct (behind_leave _ _ _ _ _ _ _ He Hbh) as (Hbl & Hb1 & Hd1 & Hd & _).
    cbn [mbind res_bind handled map_err EndElement tree_handler add_nodes b1 tb_cur tb_open].
    exists (VObject t ms cl), (flat_map (λ kv, kv.1 :: flat kv.2) ms ++ [cl]).
    split_and!; try done.
    + cbn [height]. apply heights_le; [done|]. by rewrite <- Hd1.
    + unfold add_nodes. by destruct (tb_cur b).
    + eexists. split; [exact Hav|]. rewrite (pushed_pop _ _ _ _ _ _ cl) in Hmv; [|done|].
      * cbn [fr_depth] in Hmv. by rewrite Hb1 in Hmv.
      * destruct Hbh as (_ & Hb' & _). unfold w_offset. by rewrite Hcl, Hb', Hb1.
  - change ("[" =c? "{")%char with false in *. change ("[" =c? "[")%char with true in Hav.
    cbn [andb] in Hav.
    pose proof (λ b1, IHi w1 b1 (pushed a w1 false name t (negb inArray)) _ (a_stack a) (gdone g) K eq_refl eq_refl
      ltac:(by rewrite Hw1) ltac:(by rewrite Hw1) eq_refl (nums_le_pushed _ _ _ _ _ _ Hn) Hmax
      ltac:(rewrite Hw1; cbn; lia)) as Hm. cbn [fr_name fr_depth] in Hm.
    assert (∀ b1 w' items cl, behind w1 w' (flat_map flat items ++ [cl]) (gdone g) K →
      w_pos w' = tk_end cl → tk cl = JDelim "]"%char → fold_right and True (well_formed <$> items) →
      Forall (λ v, w_depth w1 + height v ≤ MaxDepth) items →
      a_moves (pushed a w1 false name t (negb inArray)) (a_pop (a_add (pushed a w1 false name t (negb inArray)) w'
        (flat_map (elements sel_name anywhere (w_base w1)
           (if negb inArray then top_depth (a_stack a) else S (top_depth (a_stack a))) name true) items))) →
      b1 = add_nodes b (nodes name inArray (VArray t items cl)) →
      value_walk name t inArray (a_w a) b a g K (Ok (with_depth w' (pred (w_depth w')), b1))) as Hgoal.
    { intros b1 w' items cl Hbh Hcl Htc Hdk Hh Hmv ->.
      destruct (behind_leave _ _ _ _ _ _ _ He Hbh) as (Hbl & Hb1 & Hd1 & Hd & _).
      exists (VArray t items cl), (flat_map flat items ++ [cl]). split_and!; try done.
      - cbn [height]. apply (heights_le _ height); [done|]. by rewrite <- Hd1.
      - eexists. split; [exact Hav|]. rewrite (pushed_pop _ _ _ _ _ _ cl) in Hmv; [|done|].
        + cbn [elements]. rewrite Hb1 in Hmv. by destruct inArray.
        + destruct Hbh as (_ & Hb' & _). unfold w_offset. by rewrite Hcl, Hb', Hb1. }
    destruct inArray; cbn [handled map_err StartElement tree_handler mbind res_bind].
    + set (b1 := {| tb_cur := _; tb_open := _ |}). specialize (Hm b1).
      destruct (w_array fuel name w1 b1) as [[w' b']|e]; [|right; by eexists].
      destruct Hm as (items & cl & Hbh & Hcl & Htc & Hdk & Hh & -> & Hmv).
      cbn [mbind res_bind handled map_err EndElement tree_handler add_nodes b1 tb_cur tb_open].
      apply (Hgoal _ _ items cl); try done. unfold add_nodes. by destruct (tb_cur b).
    + specialize (Hm b). destruct (w_array fuel name w1 b) as [[w' b']|e]; [|right; by eexists].
      destruct Hm as (items & cl & Hbh & Hcl & Htc & Hdk & Hh & -> & Hmv).
      by apply (Hgoal _ _ items cl).
Qed.

Lemma walks_agree fuel : value_spec fuel ∧ members_spec fuel ∧ items_spec fuel.
Proof.
  induction fuel as [|fuel (IHv & IHm & IHi)].
  - split_and!; unfold value_spec, members_spec, items_spec; intros; lia.
  - split_and!; [|by apply members_step|by apply items_step].
    intros name t inArray w b a g K g1 K1 Hgv Hg Hw Ha Hpos Hn Hmax Hfuel.
    destruct (tk t) as [c| | | |] eqn:Ht; [|eapply scalar_step; rewrite ?Ht; done..].
    eapply container_step; rewrite ?Ht; done.
Qed.
End walks.
