(* ===== verification/JsonDocSpec.v ===== *)
(** * Documents and record streams

    The theorems of the JSON component: what [parse] accepts and builds, and
    that the record scanner reads the same document to the same end. *)
From Stdlib Require Import Ascii ZArith Lia.
From stdpp Require Import base list strings gmap sets relations sorting.
From S2P Require Import Prelude GoStrings GoFloat GoValue GoCsv GoJson JsonReader JsonWalk JsonScan JsonTokens JsonScanSpec JsonDoc.

(** The contents of a document's top-level value. *)
Definition root_nodes (v : jval) : list jnode :=
  match v with
  | VScalar _ => []
  | VObject _ ms _ => flat_map (λ kv, nodes (key_of kv.1) false kv.2) ms
  | VArray _ items _ => flat_map (nodes ItemName true) items
  end.
Definition root_elements (name : string) (anywhere : bool) (base : nat) (v : jval)
    : list (nat * nat * nat) :=
  match v with
  | VScalar _ => []
  | VObject _ ms _ => flat_map (λ kv, elements name anywhere base 1 (key_of kv.1) false kv.2) ms
  | VArray _ items _ => flat_map (elements name anywhere base 1 ItemName true) items
  end.

(** ** Selected elements of the tree *)
Fixpoint jval_rect_nested (P : jval → Prop) (Hs : ∀ t, P (VScalar t))
    (Ho : ∀ o ms c, Forall (λ kv, P kv.2) ms → P (VObject o ms c))
    (Ha : ∀ o items c, Forall P items → P (VArray o items c)) (v : jval) : P v :=
  match v with
  | VScalar t => Hs t
  | VObject o ms c =>
      Ho o ms c ((fix go ms : Forall (λ kv, P kv.2) ms :=
        match ms with
        | [] => Forall_nil_2 _
        | kv :: ms => Forall_cons_2 _ kv ms (jval_rect_nested P Hs Ho Ha kv.2) (go ms)
        end) ms)
  | VArray o items c =>
      Ha o items c ((fix go l : Forall P l :=
        match l with
        | [] => Forall_nil_2 _
        | v :: l => Forall_cons_2 _ v l (jval_rect_nested P Hs Ho Ha v) (go l)
        end) items)
  end.

Definition first_token (v : jval) : token :=
  match v with VScalar t => t | VObject o _ _ => o | VArray o _ _ => o end.
Definition last_token (v : jval) : token :=
  match v with VScalar t => t | VObject _ _ c => c | VArray _ _ c => c end.

(** The element of a value that is not a member array. *)
Definition node_of (name : string) (v : jval) : jnode :=
  match v with
  | VScalar t => scalar_node name (tk t)
  | VObject _ ms _ =>
      JNode elementNode None name "" (flat_map (λ kv, nodes (key_of kv.1) false kv.2) ms)
  | VArray _ items _ => JNode elementNode None name "" (flat_map (nodes name true) items)
  end.
Lemma nodes_item name v : nodes name true v = [node_of name v].
Proof. by destruct v. Qed.

Section selection.
Context (sel_name : string) (anywhere : bool) (base : nat).

(** The elements below a node a selector picks, in document order: all that
    have its name, or the top-level ones alone. *)
Definition wanted (depth : nat) (name : string) : bool :=
  (name =s? sel_name) && (anywhere || bool_decide (depth = 1)).
Fixpoint matching (depth : nat) (n : jnode) : list jnode :=
  match n with
  | JNode elementNode _ name _ cs =>
      (if wanted depth name then [n] else []) ++ flat_map (matching (S depth)) cs
  | _ => []
  end.

(** The values behind them, with their depths and names. *)
Fixpoint picks (depth : nat) (name : string) (inArray : bool) (v : jval) : list (nat * string * jval) :=
  let here := λ ma, if sel sel_name anywhere depth name ma then [(depth, name, v)] else [] in
  match v with
  | VScalar _ => here false
  | VObject _ ms _ => here false ++ flat_map (λ kv, picks (S depth) (key_of kv.1) false kv.2) ms
  | VArray _ items _ =>
      here (negb inArray) ++ flat_map (picks (if inArray then S depth else depth) name true) items
  end.
Definition range_of (p : nat * string * jval) : nat * nat * nat :=
  let '(depth, _, v) := p in (tk_start (first_token v) + base, tk_end (last_token v) + base, depth).

Lemma flat_map_flat_map {A B C} (f : B → list C) (g : A → list B) l :
  flat_map f (flat_map g l) = flat_map (λ x, flat_map f (g x)) l.
Proof. induction l as [|x l IH]; cbn; [done|]. by rewrite flat_map_app, IH. Qed.
Lemma flat_map_fmap {A B C} (f : B → C) (g : A → list B) (h : A → list C) l :
  Forall (λ x, h x = f <$> g x) l → flat_map h l = f <$> flat_map g l.
Proof. induction 1 as [|x l Hx Hl IH]; cbn; [done|]. by rewrite Hx, IH, fmap_app. Qed.

Lemma sel_wanted depth name : sel sel_name anywhere depth name false = wanted depth name.
Proof. unfold sel, wanted. cbn. by rewrite andb_true_r. Qed.
Lemma sel_member depth name : sel sel_name anywhere depth name true = false.
Proof. unfold sel. cbn. by rewrite andb_false_r. Qed.

Lemma elements_picks v : ∀ depth name inArray,
  elements sel_name anywhere base depth name inArray v = range_of <$> picks depth name inArray v.
Proof.
  induction v as [t|o ms c IH|o items c IH] using jval_rect_nested; intros depth name inArray;
    cbn [elements picks]; unfold picked.
  - by destruct (sel _ _ _ _ _).
  - rewrite fmap_app. f_equal; [by destruct (sel _ _ _ _ _)|].
    apply flat_map_fmap. eapply Forall_impl; [exact IH|]. eauto.
  - rewrite fmap_app. f_equal; [by destruct (sel _ _ _ _ _)|].
    apply flat_map_fmap. eapply Forall_impl; [exact IH|]. eauto.
Qed.

Lemma matching_picks v : ∀ depth name inArray,
  flat_map (matching depth) (nodes name inArray v)
  = (λ p, node_of p.1.2 p.2) <$> picks depth name inArray v.
Proof.
  induction v as [t|o ms c IH|o items c IH] using jval_rect_nested; intros depth name inArray.
  - cbn [nodes picks flat_map]. rewrite sel_wanted.
    destruct (tk t) eqn:Ht; cbn [scalar_node matching flat_map app]; unfold text_node; cbn [matching app];
      destruct (wanted depth name); cbn [app fmap list_fmap fst snd node_of]; by rewrite ?Ht.
  - cbn [nodes picks flat_map matching]. rewrite sel_wanted, app_nil_r, fmap_app.
    f_equal; [by destruct (wanted depth name)|]. rewrite flat_map_flat_map. apply flat_map_fmap.
    eapply Forall_impl; [exact IH|]. eauto.
  - cbn [nodes picks]. rewrite fmap_app. destruct inArray.
    + cbn [flat_map matching negb]. rewrite sel_wanted, app_nil_r.
      f_equal; [by destruct (wanted depth name)|]. rewrite flat_map_flat_map. apply flat_map_fmap.
      eapply Forall_impl; [exact IH|]. eauto.
    + cbn [negb]. rewrite sel_member. cbn [app fmap list_fmap]. rewrite flat_map_flat_map.
      apply flat_map_fmap. eapply Forall_impl; [exact IH|]. eauto.
Qed.

Definition root_picks (v : jval) : list (nat * string * jval) :=
  match v with
  | VScalar _ => []
  | VObject _ ms _ => flat_map (λ kv, picks 1 (key_of kv.1) false kv.2) ms
  | VArray _ items _ => flat_map (picks 1 ItemName true) items
  end.
Lemma root_elements_picks v :
  root_elements sel_name anywhere base v = range_of <$> root_picks v.
Proof.
  destruct v; cbn; [done|apply flat_map_fmap..]; apply Forall_true; intros; apply elements_picks.
Qed.
Lemma root_matching_picks v :
  flat_map (matching 1) (root_nodes v) = (λ p, node_of p.1.2 p.2) <$> root_picks v.
Proof.
  destruct v; cbn; [done|rewrite flat_map_flat_map; apply flat_map_fmap..]; apply Forall_true;
    intros; apply matching_picks.
Qed.
End selection.

(** ** What the walk accepts *)
Section accepts.
Context {E : Type}.
Implicit Types (w : walker E) (b : treeBuilder).

(** The walker [n] tokens on. *)
Definition moved w w' (rest : list token) : Prop :=
  w_toks w' = rest ∧ w_last w' = w_last w ∧ w_depth w' = w_depth w.

Definition accepts (v : jval) : Prop := ∀ fuel name inArray w b t ts rest,
  flat v = t :: ts → w_toks w = ts ++ rest → well_formed v → w_depth w + height v ≤ MaxDepth →
  2 * length ts + 2 ≤ fuel →
  ∃ w', w_value fuel name t inArray w b = Ok (w', add_nodes b (nodes name inArray v)) ∧ moved w w' rest.

Lemma flat_cons v : ∃ t ts, flat v = t :: ts.
Proof. destruct v; cbn; eauto. Qed.
Lemma well_formed_first v : well_formed v → (∀ c, c ≠ "{"%char → c ≠ "["%char → tk (first_token v) ≠ JDelim c).
Proof. destruct v; cbn; [eauto|intros (-> & _)|intros (-> & _)]; congruence. Qed.
Lemma flat_first v t ts : flat v = t :: ts → t = first_token v.
Proof. by destruct v; intros [= <- _]. Qed.
Lemma is_delim_ne c t : tk t ≠ JDelim c → is_delim c t = false.
Proof. intros H. destruct (is_delim c t) eqn:Hd; [|done]. by apply is_delim_eq in Hd. Qed.

Lemma members_accepted ms cl : ∀ fuel w b seen rest,
  Forall (λ kv, accepts kv.2) ms → tk cl = JDelim "}"%char →
  w_toks w = flat_map (λ kv, kv.1 :: flat kv.2) ms ++ cl :: rest →
  NoDup ((λ kv, key_of kv.1) <$> ms) → Forall (λ kv, key_of kv.1 ∉ seen) ms →
  fold_right and True ((λ kv, tk kv.1 = JString (key_of kv.1) ∧ well_formed kv.2) <$> ms) →
  Forall (λ kv, w_depth w + height kv.2 ≤ MaxDepth) ms →
  2 * length (flat_map (λ kv, kv.1 :: flat kv.2) ms) + 2 ≤ fuel →
  ∃ w', w_object fuel seen w b
        = Ok (w', add_nodes b (flat_map (λ kv, nodes (key_of kv.1) false kv.2) ms)) ∧ moved w w' rest.
Proof.
  induction ms as [|[k v] ms IH]; intros [|fuel] w b seen rest Hacc Hcl Htoks Hnd Hseen Hwf Hh Hfuel;
    try (cbn in Hfuel; lia); rewrite w_object_eq, w_token_eq, Htoks.
  - cbn [flat_map app mbind res_bind]. rewrite (proj2 (is_delim_eq _ _) Hcl). eexists.
    split; [by rewrite add_nodes_nil|done].
  - apply Forall_cons in Hacc as [Hv Hacc]. apply NoDup_cons in Hnd as [Hk Hnd].
    apply Forall_cons in Hseen as [Hks Hseen]. destruct Hwf as [[Htk Hwv] Hwf].
    apply Forall_cons in Hh as [Hhv Hh]. cbn [fst snd] in *.
    destruct (flat_cons v) as (t & ts & Hflat).
    cbn [flat_map fst snd app mbind res_bind] in *. rewrite Hflat in *. cbn [app] in *.
    rewrite is_delim_ne by (by rewrite Htk). rewrite Htk, bool_decide_eq_false_2 by done.
    rewrite w_token_eq. cbn [after_token w_toks mbind res_bind].
    cbn [length] in Hfuel. rewrite length_app in Hfuel.
    destruct (Hv fuel (key_of k) false (after_token (after_token w k (t :: ts ++ flat_map (λ kv, kv.1 :: flat kv.2) ms ++ cl :: rest)) t
       (ts ++ flat_map (λ kv, kv.1 :: flat kv.2) ms ++ cl :: rest)) b t ts
       (flat_map (λ kv, kv.1 :: flat kv.2) ms ++ cl :: rest)) as (w1 & Hval & Hm1 & Hl1 & Hd1); [done|done|done|done|lia|].
    rewrite <- (assoc_L (++)), Hval. cbn [mbind res_bind].
    destruct (IH fuel w1 (add_nodes b (nodes (key_of k) false v)) ({[key_of k]} ∪ seen) rest)
      as (w2 & Hobj & Hm2 & Hl2 & Hd2); try done.
    + apply Forall_forall. intros kv Hin. apply not_elem_of_union. split.
      * intros Heq%elem_of_singleton. apply Hk. rewrite <- Heq. by apply (list_elem_of_fmap_2 (λ kv, key_of kv.1)).
      * rewrite Forall_forall in Hseen. by apply Hseen.
    + by rewrite Hd1.
    + lia.
    + exists w2. rewrite Hobj, add_nodes_app. unfold moved. split_and!; [done|done|by rewrite Hl2, Hl1|by rewrite Hd2, Hd1].
Qed.

Lemma items_accepted items cl : ∀ fuel name w b rest,
  Forall accepts items → tk cl = JDelim "]"%char →
  w_toks w = flat_map flat items ++ cl :: rest →
  fold_right and True (well_formed <$> items) →
  Forall (λ v, w_depth w + height v ≤ MaxDepth) items →
  2 * length (flat_map flat items) + 2 ≤ fuel →
  ∃ w', w_array fuel name w b = Ok (w', add_nodes b (flat_map (nodes name true) items)) ∧ moved w w' rest.
Proof.
  induction items as [|v items IH]; intros [|fuel] name w b rest Hacc Hcl Htoks Hwf Hh Hfuel;
    try (cbn in Hfuel; lia); rewrite w_array_eq, w_token_eq, Htoks.
  - cbn [flat_map app mbind res_bind]. rewrite (proj2 (is_delim_eq _ _) Hcl). eexists.
    split; [by rewrite add_nodes_nil|done].
  - apply Forall_cons in Hacc as [Hv Hacc]. destruct Hwf as [Hwv Hwf].
    apply Forall_cons in Hh as [Hhv Hh].
    destruct (flat_cons v) as (t & ts & Hflat).
    cbn [flat_map app mbind res_bind] in *. rewrite Hflat in *. cbn [app mbind res_bind] in *.
    rewrite is_delim_ne by (rewrite (flat_first _ _ _ Hflat); by apply well_formed_first).
    cbn [length] in Hfuel. rewrite length_app in Hfuel.
    destruct (Hv fuel name true (after_token w t (ts ++ flat_map flat items ++ cl :: rest)) b t ts
       (flat_map flat items ++ cl :: rest)) as (w1 & Hval & Hm1 & Hl1 & Hd1); [done|done|done|done|lia|].
    rewrite <- (assoc_L (++)), Hval. cbn [mbind res_bind].
    destruct (IH fuel name w1 (add_nodes b (nodes name true v)) rest)
      as (w2 & Hobj & Hm2 & Hl2 & Hd2); try done; [by rewrite Hd1|lia|].
    exists w2. rewrite Hobj, add_nodes_app. unfold moved. split_and!; [done|done|by rewrite Hl2, Hl1|by rewrite Hd2, Hd1].
Qed.

Lemma enter_height w h : w_depth w + S h ≤ MaxDepth →
  w_enter w = Ok (with_depth w (S (w_depth w))).
Proof. intros H. unfold w_enter. cbn. rewrite bool_decide_eq_false_2; [done|lia]. Qed.
Lemma max_list_forall {A} (h : A → nat) l n d :
  d + S (max_list (h <$> l)) ≤ n → Forall (λ x, S d + h x ≤ n) l.
Proof.
  induction l as [|x l IH]; [constructor|].
  change (max_list (h <$> x :: l)) with (max (h x) (max_list (h <$> l))). intros H.
  constructor; [lia|]. apply IH. lia.
Qed.

Lemma well_formed_accepted v : accepts v.
Proof.
  induction v as [tok|o ms cl IH|o items cl IH] using jval_rect_nested;
    intros [|fuel] name inArray w b t ts rest Hflat Htoks Hwf Hh Hfuel; try lia;
    cbn [flat] in Hflat; injection Hflat as <- <-.
  - rewrite w_value_scalar, scalar_value_tree by done. by exists w.
  - destruct Hwf as (Ho & Hcl & Hnd & Hwf). cbn [height] in Hh.
    rewrite (w_value_delim _ _ _ _ _ _ _ Ho). rewrite (enter_height _ _ Hh). cbn [mbind res_bind].
    change ("{" =c? "{")%char with true. cbn [handled map_err StartElement tree_handler mbind res_bind].
    rewrite length_app in Hfuel. cbn in Hfuel.
    destruct (members_accepted ms cl fuel (with_depth w (S (w_depth w)))
      {| tb_cur := JNode elementNode (scalar_of KindObject) name "" []; tb_open := tb_cur b :: tb_open b |} ∅ rest)
      as (w' & -> & Hm & Hl & Hd); try done.
    + cbn. by rewrite Htoks, <- (assoc_L (++)).
    + apply Forall_true. intros kv. set_solver.
    + by apply (max_list_forall (λ kv, height kv.2)).
    + lia.
    + cbn [mbind res_bind handled map_err EndElement tree_handler add_nodes tb_cur tb_open].
      eexists. split; [unfold add_nodes; by destruct (tb_cur b)|]. split_and!; [done|done|by cbn; rewrite Hd].
  - destruct Hwf as (Ho & Hcl & Hwf). cbn [height] in Hh.
    rewrite (w_value_delim _ _ _ _ _ _ _ Ho). rewrite (enter_height _ _ Hh). cbn [mbind res_bind].
    change ("[" =c? "{")%char with false. cbv iota.
    rewrite length_app in Hfuel. cbn in Hfuel.
    assert (∀ b, ∃ w', w_array fuel name (with_depth w (S (w_depth w))) b
      = Ok (w', add_nodes b (flat_map (nodes name true) items)) ∧ moved (with_depth w (S (w_depth w))) w' rest) as Hit.
    { intros b'. apply (items_accepted items cl); try done; [|by apply max_list_forall|lia].
      cbn. by rewrite Htoks, <- (assoc_L (++)). }
    destruct inArray; cbn [handled map_err StartElement tree_handler mbind res_bind].
    + destruct (Hit {| tb_cur := JNode elementNode (scalar_of KindArray) name "" []; tb_open := tb_cur b :: tb_open b |})
        as (w' & -> & Hm & Hl & Hd).
      cbn [mbind res_bind handled map_err EndElement tree_handler add_nodes tb_cur tb_open].
      eexists. split; [unfold add_nodes; by destruct (tb_cur b)|]. split_and!; [done|done|by cbn; rewrite Hd].
    + destruct (Hit b) as (w' & -> & Hm & Hl & Hd). eexists. split; [done|].
      split_and!; [done|done|by cbn; rewrite Hd].
Qed.
End accepts.

Section top.
Context {E : Type} (sel_name : string) (anywhere : bool).
Notation werr := (walk_error E).
Implicit Types (w : walker E) (a : astate (E := E)).

Lemma a_value_toks a name t inArray a' :
  a_value sel_name anywhere a name t inArray = Ok a' → w_toks (a_w a') = w_toks (a_w a).
Proof.
  unfold a_value. destruct (tk t); [destruct (_ || _); [|done]|..];
    try (intros (w & Hw & [= <-])%res_bind_ok; by apply w_enter_ok in Hw as ->);
    destruct (selected _ _ _ _ _); by intros [= <-].
Qed.
Lemma a_pop_toks a : w_toks (a_w (a_pop a)) = w_toks (a_w a).
Proof. unfold a_pop. by destruct (a_stack a). Qed.

Lemma a_step_consumes a a' :
  a_stack a ≠ [] → a_step sel_name anywhere a = Ok a' →
  length (w_toks (a_w a')) < length (w_toks (a_w a)).
Proof.
  unfold a_step. destruct (a_stack a) as [|f stack]; [done|]. intros _. rewrite w_token_eq.
  destruct (w_toks (a_w a)) as [|t ts]; [done|]. cbn [mbind res_bind length].
  destruct (fr_obj f).
  - destruct (is_delim _ t); [intros [= <-]; rewrite a_pop_toks; cbn; lia|].
    destruct (tk t); try done. case_bool_decide; [done|]. rewrite w_token_eq. cbn [a_w a_set_w w_toks after_token].
    destruct ts as [|t2 ts]; [done|]. cbn [mbind res_bind].
    intros ->%a_value_toks. cbn. lia.
  - destruct (is_delim _ t); [intros [= <-]; rewrite a_pop_toks; cbn; lia|].
    intros ->%a_value_toks. cbn. lia.
Qed.

(** Enough fuel is a step per token. *)
Lemma a_run_enough n : ∀ m a,
  length (w_toks (a_w a)) < n → length (w_toks (a_w a)) < m →
  a_run sel_name anywhere n a = a_run sel_name anywhere m a.
Proof.
  induction n as [|n IH]; intros [|m] a Hn Hm; try lia. cbn [a_run].
  destruct (a_stack a) eqn:Es; [done|].
  destruct (a_step _ _ a) as [a'|] eqn:Ea; [|done]. apply a_step_consumes in Ea; [|by rewrite Es].
  apply IH; lia.
Qed.
Lemma a_run_step n a a' :
  a_stack a ≠ [] → a_step sel_name anywhere a = Ok a' →
  a_run sel_name anywhere (S n) a = a_run sel_name anywhere n a'.
Proof. intros Hne Hs. cbn [a_run]. destruct (a_stack a); [done|]. by rewrite Hs. Qed.
Lemma a_run_moves n a a' :
  a_moves sel_name anywhere a a' → length (w_toks (a_w a)) < n →
  a_run sel_name anywhere n a = a_run sel_name anywhere n a' ∧ length (w_toks (a_w a')) < n.
Proof.
  intros Hm. revert n. induction Hm as [a|a1 a2 a3 [Hne Hs] _ IH]; intros n Hn; [done|].
  pose proof (a_step_consumes _ _ Hne Hs) as Hc. destruct n as [|n]; [lia|].
  destruct (IH (S n)) as [<- Hlt]; [lia|]. split; [|done].
  rewrite (a_run_step n a1 a2) by done. apply a_run_enough; lia.
Qed.
Lemma a_run_fails n a e :
  a_fails sel_name anywhere a e → length (w_toks (a_w a)) < n → (a_run sel_name anywhere n a).2 = Some e.
Proof.
  intros (a' & Hm & Hne & Hs) Hn. destruct (a_run_moves n _ _ Hm Hn) as [-> Hlt].
  destruct n as [|n]; [lia|]. cbn [a_run]. destruct (a_stack a'); [done|]. by rewrite Hs.
Qed.

(** The scanner behind the first token. *)
Lemma w_begin_ok text w c w1 :
  walker_ok text w → w_begin w = Ok (c, w1) →
  ∃ t, w_toks w = t :: w_toks w1 ∧ tk t = JDelim c ∧ walker_ok text w1 ∧
       w_base w1 = w_base w ∧ w_depth w1 = S (w_depth w) ∧ w_depth w1 ≤ MaxDepth ∧
       w_pos w1 = tk_end t.
Proof.
  unfold w_begin, dec_Token. intros Hw. destruct (w_toks w) as [|t ts] eqn:Et.
  { by destruct (w_last w). }
  destruct (tk t) as [d| | | |] eqn:Ek; try done.
  unfold w_enter. case_bool_decide as Hd; [done|]. intros [= <- <-]. exists t.
  split_and!; try done; [|cbn in *; lia].
  destruct Hw as (Hc & _ & sp & rest & Hs & Hsp). rewrite Et in *. destruct Hc as (H1 & H2 & H3 & _ & _ & Hc).
  split_and!; try done. exists sp, rest. cbn. split.
  - rewrite Hs. unfold string_spans. cbn. by rewrite Ek.
  - eapply Forall_impl; [exact Hsp|]. unfold w_offset. cbn. lia.
Qed.
End top.

Section doc.
Context {E : Type} (text : string) (fin : option (reader_error E)) (base : nat).
Context (sel_name : string) (anywhere sizeOnly : bool).
Notation werr := (walk_error E).
Notation w0 := (new_walker text fin base).

Lemma new_walker_grammar : grammar GTop [] (tk <$> w_toks w0).
Proof.
  unfold new_walker. pose proof (tokens_grammar fin text) as H.
  by destruct (tokens fin text).
Qed.
Lemma new_walker_base : w_base w0 = base ∧ w_depth w0 = 0 ∧ w_pos w0 = 0.
Proof. unfold new_walker. by destruct (tokens fin text). Qed.

(** The first state of the abstract machine. *)
Definition a_start (c : ascii) (w : walker E) : astate (E := E) := {|
  a_w := w;
  a_stack := [{| fr_obj := c =c? "{"%char; fr_name := ItemName; fr_seen := ∅; fr_rec := None; fr_depth := 1 |}];
  a_recs := []; a_count := 0 |}.

Lemma scan_text_refines :
  scan_text (new_scanner text fin base sel_name anywhere sizeOnly) =
  match w_begin w0 with
  | Err e => Some ([], Some e)
  | Ok (c, w) =>
      let '(recs, e) := a_run sel_name anywhere (S (length (w_toks w))) (a_start c w) in
      Some (record_of sel_name text base sizeOnly <$> done_prefix recs, e)
  end.
Proof.
  unfold scan_text, sc_begin. cbn [new_scanner sc_w].
  destruct (w_begin w0) as [[c w]|e] eqn:Hb; [|done]. cbn [mbind res_bind].
  pose proof (w_begin_ok text _ _ _ (new_walker_ok text fin base) Hb) as (t & Ht & Hk & Hw & Hwb & Hd & _ & Hpos).
  set (s := set_w _ w).
  assert (scanner_ok sel_name anywhere s []) as Hok.
  { split; try done; cbn.
    - unfold w_offset. rewrite Hwb, (proj1 new_walker_base). lia.
    - constructor.
    - unfold numbers_ok. cbn. split_and!; constructor. }
  rewrite (sc_run_refines sel_name anywhere text base sizeOnly _ s [] (S (length (w_toks w))) Hok);
    [|done|by cbn; rewrite Hwb, (proj1 new_walker_base)|done|cbn; lia|cbn; lia].
  change (abstract s []) with (a_start c w). cbn [length drop].
  by destruct (a_run _ _ _ _).
Qed.

(** The value of a finished walk and the records of a finished scan. *)
Definition document (v : jval) (b : treeBuilder) : Prop :=
  flat v = w_toks w0 ∧ well_formed v ∧ height v ≤ MaxDepth ∧
  tb_cur b = JNode rootNode None "" "" (root_nodes v) ∧ tb_open b = [].

Definition scan_result (c : ascii) (w : walker E) : option (list record * option werr) :=
  let '(recs, e) := a_run sel_name anywhere (S (length (w_toks w))) (a_start c w) in
  Some (record_of sel_name text base sizeOnly <$> done_prefix recs, e).
Definition agrees (r : res werr treeBuilder) (scan : option (list record * option werr)) : Prop :=
  match r with
  | Ok b => ∃ v, document v b ∧
      scan = Some (record_of sel_name text base sizeOnly
                     <$> numbered 0 (root_elements sel_name anywhere base v), None)
  | Err e => ∃ recs, scan = Some (recs, Some e)
  end.

Lemma w_end_toks (w : walker E) : w_end w = Ok () → w_toks w = [].
Proof. unfold w_end, dec_Token. destruct (w_toks w); [done|]. done. Qed.
Lemma finished_agrees c w w' b v :
  (w_toks w' = [] → document v b) →
  a_moves sel_name anywhere (a_start c w)
    (a_pop (a_add (a_start c w) w' (root_elements sel_name anywhere base v))) →
  agrees (_ ← w_end (with_depth w' (pred (w_depth w'))); Ok b) (scan_result c w).
Proof.
  intros Hv Hm. unfold scan_result.
  destruct (a_run_moves _ _ (S (length (w_toks w))) _ _ Hm ltac:(cbn; lia)) as [-> Hlt].
  cbn. rewrite numbered_done. destruct (w_end _) as [[]|] eqn:Hend; cbn; [|by eexists].
  apply w_end_toks in Hend. eauto.
Qed.
Lemma failed_agrees c w e : a_fails sel_name anywhere (a_start c w) e → agrees (Err e) (scan_result c w).
Proof.
  intros Hf. unfold scan_result. apply (a_run_fails _ _ (S (length (w_toks w)))) in Hf; [|cbn; lia].
  destruct (a_run _ _ _ _) as [recs e']. cbn in *. subst. by eexists.
Qed.

Lemma scan_agrees :
  agrees (walk_text w0 new_builder)
         (scan_text (new_scanner text fin base sel_name anywhere sizeOnly)).
Proof.
  rewrite scan_text_refines. unfold walk_text.
  destruct (w_begin w0) as [[c w]|e] eqn:Hb; [|by eexists]. cbn [mbind res_bind].
  fold (scan_result c w).
  pose proof (w_begin_ok text _ _ _ (new_walker_ok text fin base) Hb) as (t & Ht & Hk & Hw & Hwb & Hd & Hmax & Hpos).
  destruct new_walker_base as (Hb0 & Hd0 & _). rewrite Hd0 in Hd. rewrite Hb0 in Hwb.
  pose proof new_walker_grammar as Hg. rewrite Ht in Hg. cbn [fmap list_fmap grammar] in Hg. rewrite Hk in Hg.
  destruct (gnext GTop [] (JDelim c)) as [[g1 K1]|] eqn:Hgn; [|done].
  apply gvalue_delim in Hgn as (-> & Hc).
  assert (2 * length (w_toks w) + 1 ≤ 2 * length (w_toks w0) + 2) as Hfuel by (rewrite Ht; cbn; lia).
  destruct (walks_agree (E := E) sel_name anywhere text (2 * length (w_toks w0) + 2)) as (_ & IHm & IHi).
  destruct Hc as [[-> ->]|[-> ->]].
  - change ("{" =c? "{")%char with true. cbv beta iota.
    pose proof (IHm w new_builder (a_start "{" w) _ [] GTop [] eq_refl eq_refl Hg Hw eq_refl
      ltac:(constructor) Hmax Hfuel) as Hm. cbn [fr_seen fr_depth] in Hm.
    destruct (w_object _ ∅ w new_builder) as [[w' b']|e]; [|by apply failed_agrees].
    destruct Hm as (ms & cl & (Htoks & _ & _ & _) & Hcl & Htc & Hnd & _ & Hdk & Hh & -> & Hmv).
    cbn [mbind res_bind]. apply (finished_agrees _ _ _ _ (VObject t ms cl)); [|by rewrite Hwb in Hmv].
    intros Hrest. rewrite Hrest, app_nil_r in Htoks.
    split_and!; try done; [cbn [flat]; by rewrite Ht, Htoks|].
    cbn [height]. apply (heights_le 0 (λ kv, height kv.2)); [by rewrite Hd in Hmax|]. by rewrite Hd in Hh.
  - change ("[" =c? "{")%char with false. cbv beta iota.
    pose proof (IHi w new_builder (a_start "[" w) _ [] GTop [] eq_refl eq_refl Hg Hw eq_refl
      ltac:(constructor) Hmax Hfuel) as Hm. cbn [fr_name fr_depth] in Hm.
    destruct (w_array _ ItemName w new_builder) as [[w' b']|e]; [|by apply failed_agrees].
    destruct Hm as (items & cl & (Htoks & _ & _ & _) & Hcl & Htc & Hdk & Hh & -> & Hmv).
    cbn [mbind res_bind]. apply (finished_agrees _ _ _ _ (VArray t items cl)); [|by rewrite Hwb in Hmv].
    intros Hrest. rewrite Hrest, app_nil_r in Htoks.
    split_and!; try done; [cbn [flat]; by rewrite Ht, Htoks|].
    cbn [height]. apply (heights_le 0 height); [by rewrite Hd in Hmax|]. by rewrite Hd in Hh.
Qed.
End doc.

(** ** Whole documents *)
Section documents.
Context {E : Type} (text : string) (fin : option (reader_error E)) (base : nat).
Notation werr := (walk_error E).
Notation w0 := (new_walker text fin base).

Definition root_of (v : jval) : jnode := JNode rootNode None "" "" (root_nodes v).

(** What follows a complete top-level value. *)
Definition ending (last : json_error (reader_error E)) : res werr () :=
  match last with
  | JEOF => Ok tt
  | JRead e => if encoding_error e then Err (errEncoding e) else Err errTrailing
  | _ => Err errTrailing
  end.
Lemma w_end_ending (w : walker E) : w_toks w = [] → w_end w = ending (w_last w).
Proof. intros Hw. unfold w_end, dec_Token, ending. rewrite Hw. by destruct (w_last w). Qed.

Lemma walk_text_doc v :
  w_toks w0 = flat v → well_formed v → height v ≤ MaxDepth →
  walk_text w0 new_builder =
  match v with
  | VScalar _ => Err errTopLevel
  | _ => _ ← ending (w_last w0); Ok {| tb_cur := root_of v; tb_open := [] |}
  end.
Proof.
  intros Htoks Hwf Hh. destruct (new_walker_base text fin base) as (_ & Hd0 & _).
  unfold walk_text, w_begin, dec_Token. rewrite Htoks.
  destruct v as [t|o ms c|o items c]; cbn [flat].
  - cbn in Hwf. destruct (tk t); try done. by destruct (Hwf c).
  - destruct Hwf as (Ho & Hc & Hnd & Hwf). rewrite Ho. cbn [height] in Hh.
    set (w1 := {| w_toks := _; w_last := _; w_pos := _; w_base := _; w_spans := _; w_depth := _ |}).
    rewrite (enter_height w1 (max_list ((λ kv, height kv.2) <$> ms))) by (cbn [w1 w_depth]; by rewrite Hd0).
    cbn [mbind res_bind]. change ("{" =c? "{")%char with true. cbv beta iota.
    edestruct (members_accepted (E := E) ms c) with (rest := @nil token) (seen := (∅ : gset string))
      (w := with_depth w1 (S (w_depth w1))) (b := new_builder) as (w' & -> & Hm & Hl & Hd); try done.
    + apply Forall_true. intros kv. by apply well_formed_accepted.
    + apply Forall_true. intros kv. set_solver.
    + cbn [with_depth w1 w_depth]. rewrite Hd0. by apply (max_list_forall (λ kv, height kv.2) ms _ 0).
    + cbn [length]. rewrite length_app. cbn. lia.
    + cbn [mbind res_bind]. rewrite w_end_ending by done. cbn [with_depth w_last]. rewrite Hl. done.
  - destruct Hwf as (Ho & Hc & Hwf). rewrite Ho. cbn [height] in Hh.
    set (w1 := {| w_toks := _; w_last := _; w_pos := _; w_base := _; w_spans := _; w_depth := _ |}).
    rewrite (enter_height w1 (max_list (height <$> items))) by (cbn [w1 w_depth]; by rewrite Hd0).
    cbn [mbind res_bind]. change ("[" =c? "{")%char with false. cbv beta iota.
    edestruct (items_accepted (E := E) items c) with (rest := @nil token) (name := ItemName)
      (w := with_depth w1 (S (w_depth w1))) (b := new_builder) as (w' & -> & Hm & Hl & Hd); try done.
    + apply Forall_true. intros x. by apply well_formed_accepted.
    + cbn [with_depth w1 w_depth]. rewrite Hd0. by apply (max_list_forall height items _ 0).
    + cbn [length]. rewrite length_app. cbn. lia.
    + cbn [mbind res_bind]. rewrite w_end_ending by done. cbn [with_depth w_last]. rewrite Hl. done.
Qed.

Definition is_document (v : jval) : Prop :=
  tokens fin text = (flat v, JEOF) ∧ well_formed v ∧ height v ≤ MaxDepth ∧ ∀ t, v ≠ VScalar t.

Lemma new_walker_tokens : tokens fin text = (w_toks w0, w_last w0).
Proof. unfold new_walker. by destruct (tokens fin text). Qed.

Lemma walk_text_spec b :
  walk_text w0 new_builder = Ok b ↔
  ∃ v, is_document v ∧ b = {| tb_cur := root_of v; tb_open := [] |}.
Proof.
  unfold is_document. rewrite new_walker_tokens. split.
  - intros Hw. pose proof (scan_agrees text fin base "" true true) as Hs. rewrite Hw in Hs.
    destruct Hs as (v & (Hflat & Hwf & Hh & Hcur & Hopen) & _). exists v.
    rewrite (walk_text_doc v) in Hw by done. rewrite Hflat.
    destruct v; [done|..]; (destruct (w_last w0); cbn in Hw; try done; [|by destruct (encoding_error e)]);
      injection Hw as <-; done.
  - intros (v & ([= Htoks Hlast] & Hwf & Hh & Hns) & ->). rewrite (walk_text_doc v) by done.
    rewrite Hlast. destruct v; [by destruct (Hns t)|done..].
Qed.
End documents.

(** ** Faults *)
Section faults.
Context {E : Type} (sel_name : string) (anywhere : bool).
Notation werr := (walk_error E).

(** The faults of an input: not the internal ones, which name a position the
    code failed to find. *)
Definition input_fault (e : werr) : bool :=
  match e with
  | errNoString _ | errNoValue _ | errHandler _ | outOfFuel => false
  | _ => true
  end.

Lemma wrap_fault (e : json_error (reader_error E)) : input_fault (wrap e) = true.
Proof. destruct e as [| | |e]; cbn; try done. by destruct (encoding_error e). Qed.
Lemma w_end_fault (w : walker E) e : w_end w = Err e → input_fault e = true.
Proof.
  unfold w_end. destruct (dec_Token w) as [|d]; [by intros [= <-]|].
  destruct d as [| | |d]; try (by intros [= <-]); try done. destruct (encoding_error d); by intros [= <-].
Qed.
Lemma a_value_fault a name t inArray e :
  a_value (E := E) sel_name anywhere a name t inArray = Err e → input_fault e = true.
Proof.
  unfold a_value. destruct (tk t); try (destruct (selected _ _ _ _ _); done).
  destruct (_ || _); [|by intros [= <-]]. unfold w_enter. case_bool_decide; cbn; [by intros [= <-]|done].
Qed.
Lemma a_step_fault a e : a_step (E := E) sel_name anywhere a = Err e → input_fault e = true.
Proof.
  unfold a_step. destruct (a_stack a) as [|f stack]; [done|]. rewrite w_token_eq.
  destruct (w_toks (a_w a)) as [|t ts]; cbn [mbind res_bind]; [intros [= <-]; apply wrap_fault|].
  destruct (fr_obj f); (destruct (is_delim _ t); [done|]); [|apply a_value_fault].
  destruct (tk t); try (by intros [= <-]). case_bool_decide; [by intros [= <-]|].
  rewrite w_token_eq. destruct ts as [|t2 ts]; cbn [mbind res_bind after_token w_toks]; [intros [= <-]; apply wrap_fault|].
  apply a_value_fault.
Qed.
Lemma a_run_fault n a e :
  length (w_toks (a_w a)) < n → (a_run (E := E) sel_name anywhere n a).2 = Some e → input_fault e = true.
Proof.
  revert a. induction n as [|n IH]; intros a Hn; [lia|]. cbn [a_run].
  destruct (a_stack a) eqn:Es.
  - cbn. destruct (w_end (a_w a)) eqn:Hw; [done|]. intros [= <-]. by eapply w_end_fault.
  - destruct (a_step _ _ a) as [a'|] eqn:Ha.
    + apply IH. apply a_step_consumes in Ha; [|by rewrite Es]. lia.
    + intros [= <-]. by eapply a_step_fault.
Qed.

Lemma scan_text_fault text (fin : option (reader_error E)) base sizeOnly recs e :
  scan_text (new_scanner text fin base sel_name anywhere sizeOnly) = Some (recs, Some e) →
  input_fault e = true.
Proof.
  rewrite scan_text_refines. unfold w_begin, dec_Token.
  destruct (w_toks (new_walker text fin base)) as [|t ts].
  - destruct (w_last _) as [| | |d] eqn:Hl; intros [= _ <-]; try done.
    change (input_fault (wrap (JRead d)) = true). apply wrap_fault.
  - destruct (tk t); cbn [mbind res_bind]; try (by intros [= _ <-]).
    destruct (w_enter _) as [w|e'] eqn:He; cbn [mbind res_bind].
    + destruct (a_run _ _ _ _) as [rs oe] eqn:Hr. intros [= _ ->].
      apply (a_run_fault (S (length (w_toks w))) (a_start c w)); [cbn; lia|by rewrite Hr].
    + intros [= _ <-]. unfold w_enter in He. case_bool_decide; by simplify_eq.
Qed.
End faults.

(** ** The properties *)
Section properties.
Context {E : Type}.
Implicit Types (v : validatingReader E).

(** The text a reader hands on behind its byte-order mark, the error that ends
    it, and the mark's length; or the fault of the first bytes. *)
Definition handed_on (total : nat) v : res (walk_error E) (string * option (reader_error E) * nat) :=
  match vr_start v with
  | (_, Some e) => Err (start_error e)
  | (v, None) => Ok (decoder_reads total v, vr_off v)
  end.

(** C27: a walk that builds the tree succeeds exactly when the reader hands on
    the tokens of one JSON value, an object or an array with distinct keys in
    each of its objects and at most [MaxDepth] nested containers, and nothing
    behind it; the tree is that value's. *)
Theorem parse_spec total v b :
  walk total v new_builder = Ok b ↔
  ∃ text fin base doc, handed_on total v = Ok (text, fin, base) ∧ is_document text fin doc ∧
    b = {| tb_cur := root_of doc; tb_open := [] |}.
Proof.
  unfold walk, handed_on. destruct (vr_start v) as [v1 [e|]].
  { split; [done|]. by intros (? & ? & ? & ? & ? & _). }
  destruct (decoder_reads total v1) as [text fin]. rewrite walk_text_spec. split.
  - intros (doc & Hd & ->). by exists text, fin, (vr_off v1), doc.
  - intros (? & ? & ? & doc & [= <- <- <-] & Hd & ->). eauto.
Qed.

Section scans.
Context (total : nat) (v : validatingReader E) (name : string) (anywhere sizeOnly : bool).
(** What a scan yields where the walk builds a tree. *)
Definition scanned_document (b : treeBuilder) : Prop :=
  ∃ text fin base doc, handed_on total v = Ok (text, fin, base) ∧ is_document text fin doc ∧
    let picked := root_picks name anywhere doc in
    scan total v name anywhere sizeOnly
    = Some (record_of name text base sizeOnly <$> numbered 0 (range_of base <$> picked), None) ∧
    flat_map (matching name anywhere 1) (n_children (tb_cur b)) = (λ p, node_of p.1.2 p.2) <$> picked.
Lemma scan_of_tree b : walk total v new_builder = Ok b → scanned_document b.
Proof.
  unfold scanned_document, walk, scan, handed_on. destruct (vr_start v) as [v1 [e|]]; [done|].
  destruct (decoder_reads total v1) as [text fin].
  pose proof (scan_agrees text fin (vr_off v1) name anywhere sizeOnly) as Hs. intros Hw. rewrite Hw in Hs.
  apply walk_text_spec in Hw as (doc & Hdoc & ->).
  destruct Hs as (doc' & (Hflat & Hwf & Hh & Hcur & _) & Hs).
  exists text, fin, (vr_off v1), doc'. rewrite <- root_matching_picks, <- root_elements_picks.
  cbn [tb_cur root_of n_children] in *. injection Hcur as Hcur. rewrite <- Hcur. split_and!; try done.
  destruct Hdoc as (Ht & Hdwf & Hdh & Hns). split_and!; try done.
  - rewrite new_walker_tokens with (base := vr_off v1) in Ht |- *. injection Ht as _ ->. by rewrite Hflat.
  - intros t ->. cbn in Hflat. rewrite new_walker_tokens with (base := vr_off v1) in Ht. injection Ht as Ht _.
    rewrite <- Hflat in Ht. destruct doc as [t'|o ms c|o items c]; [by destruct (Hns t')| |];
      cbn [flat] in Ht; injection Ht as _ Ht; by apply app_cons_not_nil in Ht.
Qed.
Lemma scan_of_fault e :
  walk total v new_builder = Err e → ∃ recs, scan total v name anywhere sizeOnly = Some (recs, Some e).
Proof.
  unfold walk, scan. destruct (vr_start v) as [v1 [e'|]]; [intros [= ->]; by eexists|].
  destruct (decoder_reads total v1) as [text fin].
  pose proof (scan_agrees text fin (vr_off v1) name anywhere sizeOnly) as Hs. intros Hw. by rewrite Hw in Hs.
Qed.
End scans.

(** C8: the record stream of a document ends like its walk. Where the walk
    builds a tree, the stream yields, in document order, one record for each
    element of the tree the selector picks, with its depth, its number and
    exactly the bytes from the value's first token to its last; where the walk
    fails, the stream ends in the same fault. It never slices outside its
    capture buffer. *)
Theorem scan_agrees_with_walk total v name anywhere sizeOnly :
  match walk total v new_builder with
  | Ok b => ∃ text fin base doc, handed_on total v = Ok (text, fin, base) ∧ is_document text fin doc ∧
      let picked := root_picks name anywhere doc in
      scan total v name anywhere sizeOnly
      = Some (record_of name text base sizeOnly <$> numbered 0 (range_of base <$> picked), None) ∧
      flat_map (matching name anywhere 1) (n_children (tb_cur b)) = (λ p, node_of p.1.2 p.2) <$> picked
  | Err e => ∃ recs, scan total v name anywhere sizeOnly = Some (recs, Some e)
  end.
Proof.
  destruct (walk total v new_builder) as [b|e] eqn:Hw; [by apply scan_of_tree|by apply scan_of_fault].
Qed.

(** A record stream always ends, and in a fault of the input when not at
    its end: no position the code relies on is ever missing. *)
Theorem scan_ends total v name anywhere sizeOnly :
  ∃ recs e, scan total v name anywhere sizeOnly = Some (recs, e) ∧
            match e with Some e => input_fault e = true | None => True end.
Proof.
  unfold scan. destruct (vr_start v) as [v1 [e|]].
  { eexists [], _. split; [done|]. unfold start_error. by destruct (encoding_error e). }
  destruct (decoder_reads total v1) as [text fin].
  pose proof (scan_agrees text fin (vr_off v1) name anywhere sizeOnly) as Hs.
  destruct (walk_text _ new_builder) as [b|e].
  - destruct Hs as (doc & _ & ->). by eexists _, None.
  - destruct Hs as (recs & Hs). exists recs, (Some e). split; [done|]. by eapply scan_text_fault.
Qed.
End properties.

(** A stream over two nested records, by name anywhere; and a duplicate key. *)
Definition quoted (s : string) : string := String DQ (s +:+ String DQ "").
Definition sample : string :=
  "{" +:+ quoted "r" +:+ ": [1, {" +:+ quoted "r" +:+ ": null}]}".
Example scan_sample :
  (λ x, (rc_Raw x, rc_Num x, rc_StartOffset x, rc_Depth x)) <$>
    from_option fst [] (scan (E := Empty_set) (slen sample) (newValidatingReader [(sample, ReadNil)]) "r" true false)
  = [(Some "1", 1, 7, 1); (Some ("{" +:+ quoted "r" +:+ ": null}"), 2, 10, 1); (Some "null", 3, 16, 2)].
Proof. vm_compute. reflexivity. Qed.
Example duplicate_key :
  let s := "{" +:+ quoted "r" +:+ ":1," +:+ quoted "r" +:+ ":2}" in
  parse s = Err (errDuplicateKey "r" 7).
Proof. vm_compute. reflexivity. Qed.
