(* ===== verification/JsonNav.v ===== *)
(** * The navigator over a JSON tree (internal/docnode/json: navigator.go,
    json.go, tree.go)

    A tree node is addressed by its path from the root: the links [parent],
    [prev], [next] and [firstChild] of the code are moves on that path. *)
From Stdlib Require Import Ascii ZArith Lia.
From stdpp Require Import base list strings.
From S2P Require Import Prelude GoStrings JsonWalk.

(** Child indices from the root down. *)
Fixpoint node_at (n : jnode) (path : list nat) : option jnode :=
  match path with
  | [] => Some n
  | i :: path => match n_children n !! i with Some c => node_at c path | None => None end
  end.

(** [navigator]: the position's indices, the innermost first; [nv_doc] stands
    for the identity of the root node. *)
Record navigator := { nv_doc : nat; nv_root : jnode; nv_path : list nat }.

Definition nv_at (x : navigator) (path : list nat) : navigator :=
  {| nv_doc := nv_doc x; nv_root := nv_root x; nv_path := path |}.
Definition nv_curr (x : navigator) : option jnode := node_at (nv_root x) (reverse (nv_path x)).

Inductive NodeType := RootNode | ElementNode | TextNode.
Definition nv_NodeType (x : navigator) : option NodeType :=
  (λ n, match n_typ n with rootNode => RootNode | textNode => TextNode | elementNode => ElementNode end)
    <$> nv_curr x.
Definition nv_LocalName (x : navigator) : option string := n_name <$> nv_curr x.
Definition nv_Value (x : navigator) : option string := stringValue <$> nv_curr x.

(** A move that returns false leaves the navigator as it is: [None]. *)
Definition MoveToRoot (x : navigator) : navigator := nv_at x [].
Definition MoveToParent (x : navigator) : option navigator :=
  match nv_path x with [] => None | _ :: path => Some (nv_at x path) end.
Definition MoveToChild (x : navigator) : option navigator :=
  match nv_curr x with
  | Some n => match n_children n with [] => None | _ => Some (nv_at x (0 :: nv_path x)) end
  | None => None
  end.
Definition MoveToNext (x : navigator) : option navigator :=
  match nv_path x with
  | i :: path =>
      match nv_curr (nv_at x (S i :: path)) with
      | Some _ => Some (nv_at x (S i :: path))
      | None => None
      end
  | [] => None
  end.
Definition MoveToPrevious (x : navigator) : option navigator :=
  match nv_path x with
  | S i :: path => Some (nv_at x (i :: path))
  | _ => None
  end.
(** The loop of [MoveToFirst]; [fuel] is the position's index. *)
Fixpoint move_first (fuel : nat) (x : navigator) : navigator :=
  match fuel with
  | 0 => x
  | S fuel => match MoveToPrevious x with Some x => move_first fuel x | None => x end
  end.
Definition MoveToFirst (x : navigator) : option navigator :=
  match MoveToPrevious x with
  | None => None
  | Some _ => Some (move_first (match nv_path x with i :: _ => i | [] => 0 end) x)
  end.
Definition MoveTo (x other : navigator) : option navigator :=
  if bool_decide (nv_doc other = nv_doc x) then Some (nv_at x (nv_path other)) else None.

#[export] Instance nodeType_eq_dec : EqDecision nodeType.
Proof. solve_decision. Defined.

(** [firstElement]: the first element at or after a position among its siblings. *)
Definition firstElement (siblings : list jnode) : option jnode :=
  snd <$> list_find (λ n, n_typ n = elementNode) siblings.
Definition FirstElementChild (n : jnode) : option jnode := firstElement (n_children n).
Definition NextElementSibling (x : navigator) : option jnode :=
  match nv_path x with
  | i :: path =>
      match nv_curr (nv_at x path) with
      | Some parent => firstElement (drop (S i) (n_children parent))
      | None => None
      end
  | [] => None
  end.

(** ** Laws of the moves *)
Lemma node_at_snoc n path i :
  node_at n (path ++ [i]) = (c ← node_at n path; n_children c !! i).
Proof.
  revert n. induction path as [|j path IH]; intros n; cbn [app node_at].
  - cbn. by destruct (n_children n !! i).
  - destruct (n_children n !! j); [apply IH|done].
Qed.
Lemma nv_curr_step x i path :
  nv_curr (nv_at x (i :: path)) = (c ← nv_curr (nv_at x path); n_children c !! i).
Proof. unfold nv_curr. cbn [nv_at nv_root nv_path]. rewrite reverse_cons. apply node_at_snoc. Qed.
Lemma nv_at_self x : nv_at x (nv_path x) = x.
Proof. by destruct x. Qed.

Lemma previous_valid x i path :
  nv_path x = i :: path → is_Some (nv_curr x) → ∀ j, j ≤ i → is_Some (nv_curr (nv_at x (j :: path))).
Proof.
  intros Hp Hv j Hj. rewrite <- (nv_at_self x), Hp in Hv. rewrite nv_curr_step in *.
  destruct (nv_curr (nv_at x path)) as [c|]; cbn in *; [|by destruct Hv].
  apply lookup_lt_is_Some. apply lookup_lt_is_Some in Hv. lia.
Qed.
Lemma move_first_index fuel : ∀ x i path,
  nv_path x = i :: path → i ≤ fuel → move_first fuel x = nv_at x (0 :: path).
Proof.
  induction fuel as [|fuel IH]; intros x i path Hp Hi; cbn [move_first].
  - replace i with 0 in Hp by lia. by rewrite <- Hp, nv_at_self.
  - unfold MoveToPrevious. rewrite Hp. destruct i as [|i].
    + by rewrite <- Hp, nv_at_self.
    + by rewrite (IH _ i path) by (done || lia).
Qed.

(** From a position in the tree every move leads to a position in the
    tree: to the parent, to the first child, to the neighbours and to the
    first sibling. Entering the first child is undone by [MoveToParent], and
    [MoveToNext] and [MoveToPrevious] undo each other. *)
Theorem navigator_moves x :
  is_Some (nv_curr x) →
  (∀ y, MoveToParent x = Some y → ∃ p c i, nv_curr y = Some p ∧ n_children p !! i = Some c ∧ nv_curr x = Some c) ∧
  (∀ y, MoveToChild x = Some y →
     (∃ n c l, nv_curr x = Some n ∧ n_children n = c :: l ∧ nv_curr y = Some c) ∧ MoveToParent y = Some x) ∧
  (∀ y, MoveToNext x = Some y → is_Some (nv_curr y) ∧ MoveToPrevious y = Some x) ∧
  (∀ y, MoveToPrevious x = Some y → is_Some (nv_curr y) ∧ MoveToNext y = Some x) ∧
  (∀ y, MoveToFirst x = Some y →
     is_Some (nv_curr y) ∧ MoveToPrevious y = None ∧ MoveToParent y = MoveToParent x).
Proof.
  intros Hv. destruct x as [d root path] eqn:Ex. rewrite <- Ex in *. assert (nv_path x = path) as Hp by (by subst).
  assert (∀ p, nv_at x p = {| nv_doc := d; nv_root := root; nv_path := p |}) as Hat by (by subst).
  split_and!.
  - intros y. unfold MoveToParent. rewrite Hp. destruct path as [|i path]; [done|]. intros [= <-].
    rewrite <- (nv_at_self x), Hp, nv_curr_step in Hv |- *.
    destruct (nv_curr (nv_at x path)) as [p|] eqn:Epar; cbn in *; [|by destruct Hv].
    destruct Hv as [c Hc]. by exists p, c, i.
  - intros y. unfold MoveToChild. destruct (nv_curr x) as [n|] eqn:En; [|done].
    destruct (n_children n) as [|c l] eqn:Ec; [done|]. intros [= <-]. split.
    + exists n, c, l. split_and!; [done..|]. rewrite nv_curr_step, nv_at_self, En. cbn. by rewrite Ec.
    + unfold MoveToParent. cbn. by subst.
  - intros y. unfold MoveToNext. rewrite Hp. destruct path as [|i path]; [done|].
    destruct (nv_curr (nv_at x (S i :: path))) eqn:En; [|done]. intros [= <-]. split; [by rewrite En|].
    cbn. by subst.
  - intros y. unfold MoveToPrevious. rewrite Hp. destruct path as [|[|i] path]; [done..|]. intros [= <-].
    split; [eapply previous_valid; [done|done|lia]|]. unfold MoveToNext. cbn [nv_path nv_at].
    assert (nv_at (nv_at x (i :: path)) (S i :: path) = x) as -> by (by subst).
    by destruct Hv as [n ->].
  - intros y. unfold MoveToFirst, MoveToPrevious at 1. rewrite Hp. destruct path as [|[|i] path]; [done..|].
    rewrite (move_first_index (S i) x (S i) path) by done. intros [= <-]. split_and!.
    + eapply previous_valid; [done|done|lia].
    + done.
    + unfold MoveToParent. by rewrite Hp.
Qed.

Definition leaf : jnode := JNode elementNode None "b" "" [].
Definition sample_root : jnode := JNode rootNode None "" "" [leaf; leaf; leaf].
Lemma navigator_moves_witness :
  let x := {| nv_doc := 0; nv_root := sample_root; nv_path := [2] |} in
  MoveToFirst x = Some {| nv_doc := 0; nv_root := sample_root; nv_path := [0] |} ∧
  MoveToPrevious {| nv_doc := 0; nv_root := sample_root; nv_path := [0] |} = None.
Proof.
  intros x. split; [done|].
  destruct (navigator_moves x ltac:(by eexists)) as (_ & _ & _ & _ & H).
  by destruct (H {| nv_doc := 0; nv_root := sample_root; nv_path := [0] |} eq_refl) as (_ & H2 & _).
Defined.

(** ** String values and record documents *)
Fixpoint jnode_rect_nested (P : jnode → Prop)
    (Hn : ∀ t s m v l, Forall P l → P (JNode t s m v l)) (n : jnode) : P n :=
  match n with
  | JNode t s m v l =>
      Hn t s m v l ((fix go l : Forall P l :=
        match l with
        | [] => Forall_nil_2 _
        | n :: l => Forall_cons_2 _ n l (jnode_rect_nested P Hn n) (go l)
        end) l)
  end.

(** The text nodes below a node in document order. *)
Fixpoint texts (n : jnode) : list string :=
  match n with
  | JNode textNode _ _ v _ => [v]
  | JNode _ _ _ _ l => flat_map texts l
  end.

Lemma writeText_texts n : n_typ n ≠ textNode → writeText n = sjoin "" (texts n).
Proof.
  induction n as [t s m v l IH] using jnode_rect_nested. intros Ht. cbn in Ht.
  assert (texts (JNode t s m v l) = flat_map texts l) as -> by (by destruct t).
  cbn [writeText]. clear Ht. induction IH as [|c l Hc Hl IHl]; [done|].
  cbn [flat_map fmap list_fmap]. rewrite sconcat_cons, sconcat_app, <- IHl. f_equal.
  destruct c as [[] s' m' v' l']; cbn [n_typ n_value] in *; [by apply Hc..|done].
Qed.

Lemma foldl_append t s m v l : ∀ k,
  foldl appendChild (JNode t s m v k) l = JNode t s m v (k ++ l).
Proof.
  induction l as [|c l IH]; intros k; cbn; [by rewrite app_nil_r|]. by rewrite IH, <- (assoc_L (++)).
Qed.
Lemma copyTree_same n : copyTree n = n.
Proof.
  induction n as [t s m v l IH] using jnode_rect_nested. cbn [copyTree]. rewrite foldl_append.
  cbn [app]. f_equal. induction IH as [|c l Hc Hl IHl]; cbn; [done|]. by rewrite Hc, IHl.
Qed.

(** The string value of a node, by whichever of its fast paths, is the
    text of all its descendants in document order; a record document holds the
    element unchanged below a new root, and is refused for any other node. *)
Theorem recordDocument_spec n :
  stringValue n = sjoin "" (texts n) ∧
  recordDocument n = (if bool_decide (n_typ n = elementNode)
                      then Some (JNode rootNode None "" "" [n]) else None).
Proof.
  split.
  - destruct n as [t s m v l]. destruct t; [..|done].
    all: unfold stringValue; cbn [n_typ n_children]; destruct l as [|c [|c' l]]; [done| |by apply writeText_texts].
    all: destruct (n_typ c) eqn:Ec; try by apply writeText_texts.
    all: destruct c as [[] ? ? ? ?]; try done.
  - unfold recordDocument. destruct (n_typ n); try done.
    by rewrite bool_decide_eq_true_2, copyTree_same.
Qed.
