(* ===== verification/JsonLines.v ===== *)
(** * Line-delimited record streams

    What the line scanner yields: one record per line that is not blank, up to
    the first fault, numbered in order, with the exact bytes and offsets of the
    line's value. *)
From Stdlib Require Import Ascii ZArith Lia.
From stdpp Require Import base list strings sorting.
From S2P Require Import Prelude GoStrings GoCsv GoJson JsonReader JsonReaderSpec JsonWalk JsonScan JsonScanSpec.

(** The values of a text's lines, with their offsets. *)
Fixpoint line_values (off : nat) (ls : list string) : list (string * nat) :=
  match ls with
  | [] => []
  | line :: ls =>
      let '(first, last) := valueBounds line in
      (if last <=? first then [] else [(ssub line first last, off + first)])
        ++ line_values (off + slen line) ls
  end.

(** The lines before a read fault: the piece without a line feed that ends a
    text is not one. *)
Fixpoint whole_lines {E} (fin : option E) (ls : list string) : list string :=
  match ls, fin with
  | [], _ => []
  | l :: ls, None => l :: whole_lines fin ls
  | l :: ls, Some _ => if ends_lf l then l :: whole_lines fin ls else []
  end.

Lemma raw_lines_concat s : sjoin "" (raw_lines s) = s.
Proof.
  assert (∀ c l, sjoin "" (String c "" :: l) = String c (sjoin "" l)) as Hcons.
  { intros c l. destruct l as [|x l]; done. }
  assert (∀ c x l, sjoin "" (String c x :: l) = String c (sjoin "" (x :: l))) as Hmore.
  { intros c x l. by destruct l. }
  induction s as [|c s IH]; [done|]. cbn [raw_lines]. destruct (c =c? LF).
  - by rewrite Hcons, IH.
  - destruct (raw_lines s) as [|l ls] eqn:El; [cbn in IH; by subst|]. by rewrite Hmore, IH.
Qed.


Section lines.
Context {E : Type} (name : string) (sizeOnly : bool).
Implicit Types (fin : option (reader_error E)).

(** A record of the value [v] at its offset. *)
Definition value_record (num : nat) (v : string * nat) : record := {|
  rc_Raw := if sizeOnly then None else Some v.1; rc_Num := num; rc_StartOffset := v.2;
  rc_EndOffset := v.2 + slen v.1; rc_SizeBytes := slen v.1; rc_Name := name; rc_Depth := 1 |}.
Definition is_object (v : string * nat) : Prop :=
  starts_object v.1 = true ∧ walk_value v.1 v.2 = Ok tt.

Lemma line_record_ok num value at_ r :
  line_record (E := E) name sizeOnly num value at_ = Ok r →
  r = value_record num (value, at_) ∧ is_object (value, at_).
Proof.
  unfold line_record. destruct (starts_object value) eqn:Hs; [|done]. cbn [negb].
  destruct (walk_value value at_) as [[]|] eqn:Hw; [|done]. intros [= <-]. by split; [|split].
Qed.

(** How a stream of [k] records over the values [vs] ends. *)
Definition stream_end fin (vs : list (string * nat)) (count k : nat) (cut : nat → ndjson_error E → Prop)
    (e : option (ndjson_error E)) : Prop :=
  match e with
  | None => fin = None ∧ k = length vs ∧ 0 < count + k
  | Some errNoJSON => fin = None ∧ vs = [] ∧ count = 0
  | Some (errInput e) => fin = Some e ∧ k = length vs
  | Some e => (∃ v, vs !! k = Some v ∧ line_record name sizeOnly (S (count + k)) v.1 v.2 = Err e) ∨
              (k = length vs ∧ cut (S (count + k)) e)
  end.
Definition cut_fault (ls : list string) (off : nat) (num : nat) (e : ndjson_error E) : Prop :=
  ∃ l start, l ∈ ls ∧ ends_lf l = false ∧ checkPartial num l start = Err e.

Lemma line_record_err num value at_ e :
  line_record (E := E) name sizeOnly num value at_ = Err e →
  e ≠ errNoJSON ∧ ∀ d, e ≠ errInput d.
Proof.
  unfold line_record. destruct (starts_object value); [|by intros [= <-]]. cbn [negb].
  destruct (walk_value value at_); [done|]. by intros [= <-].
Qed.
Lemma checkPartial_err num l start e :
  checkPartial (E := E) num l start = Err e → e ≠ errNoJSON ∧ ∀ d, e ≠ errInput d.
Proof.
  unfold checkPartial. destruct (valueBounds l) as [first last]. destruct (last <=? first); [done|].
  destruct (starts_object _); [|by intros [= <-]]. cbn [negb].
  destruct (walk_value _ _) as [|d]; [done|]. destruct d; try done; by intros [= <-].
Qed.

Lemma stream_end_fault fin vs count k cut e :
  e ≠ errNoJSON → (∀ d, e ≠ errInput d) →
  ((∃ v, vs !! k = Some v ∧ line_record name sizeOnly (S (count + k)) v.1 v.2 = Err e) ∨
   (k = length vs ∧ cut (S (count + k)) e)) →
  stream_end fin vs count k cut (Some e).
Proof. intros H1 H2 H. destruct e as [n o|n d| |d]; try done. by destruct (H2 d). Qed.

Lemma lines_run_spec fin ls : ∀ count off,
  let '(recs, e) := lines_run name sizeOnly fin count off ls in
  let vs := line_values off (whole_lines fin ls) in
  ∃ k, recs = imap (λ i v, value_record (S (count + i)) v) (take k vs) ∧
       Forall is_object (take k vs) ∧ k ≤ length vs ∧
       stream_end fin vs count k (cut_fault ls off) e.
Proof.
  induction ls as [|l ls IH]; intros count off; cbn [lines_run whole_lines].
  - destruct fin as [e|]; cbn [line_values].
    + exists 0. by split_and!.
    + exists 0. case_bool_decide; (split_and!; [done..|]); unfold stream_end; split_and!; done || lia.
  - assert (∀ ok : bool, ok = match fin with Some _ => ends_lf l | None => true end → ok = true →
      match fin with Some e => if ends_lf l then None else Some e | None => None end = None ∧
      match fin with None => l :: whole_lines fin ls | Some _ => if ends_lf l then l :: whole_lines fin ls else [] end
      = l :: whole_lines fin ls) as Hwhole.
    { intros ok -> Hok. destruct fin; [by rewrite Hok|done]. }
    destruct (match fin with Some _ => ends_lf l | None => true end) eqn:Hok.
    2: { destruct fin as [e|]; [|done]. rewrite Hok. destruct (checkPartial (S count) l off) as [|e'] eqn:Hc.
      - exists 0. by split_and!.
      - exists 0. cbn [line_values take imap]. split_and!; [done..|].
        destruct (checkPartial_err _ _ _ _ Hc) as [H1 H2]. apply stream_end_fault; [done..|].
        right. split; [done|]. exists l, off. rewrite Nat.add_0_r. split_and!; [by left|done..]. }
    destruct (Hwhole true eq_refl eq_refl) as [-> Hwl].
    assert (match fin with Some _ => if ends_lf l then l :: whole_lines fin ls else [] | None => l :: whole_lines fin ls end
      = l :: whole_lines fin ls) as -> by (by destruct fin).
    cbn [line_values]. destruct (valueBounds l) as [first last].
    assert (∀ num e, cut_fault ls (off + slen l) num e → cut_fault (l :: ls) off num e) as Hcut.
    { intros num e (l' & st & Hin & H). exists l', st. split; [by right|done]. }
    destruct (last <=? first) eqn:Hblank.
    + specialize (IH count (off + slen l)).
      destruct (lines_run name sizeOnly fin count (off + slen l) ls) as [recs e].
      destruct IH as (k & Hr & Hv & Hk & Hend). exists k. cbn [app]. split_and!; try done.
      unfold stream_end in *. destruct e as [[]|]; try exact Hend;
        (destruct Hend as [?|[? ?]]; [by left|right; eauto]).
    + cbn [app]. destruct (line_record name sizeOnly (S count) (ssub l first last) (off + first)) as [r|e] eqn:Hr.
      * apply line_record_ok in Hr as (-> & Hobj). specialize (IH (S count) (off + slen l)).
        destruct (lines_run name sizeOnly fin (S count) (off + slen l) ls) as [recs e].
        destruct IH as (k & -> & Hv & Hk & Hend). exists (S k). cbn [take imap length]. split_and!.
        -- rewrite Nat.add_0_r. f_equal. apply imap_ext. intros i x _. cbn. do 2 f_equal. lia.
        -- by constructor.
        -- lia.
        -- unfold stream_end in *. replace (S (count + S k)) with (S (S count + k)) by lia.
           destruct e as [[num o|num d| |d]|]; cbn [lookup list_lookup length];
             try (destruct Hend as [?|[? ?]]; [by left|right; split; [lia|eauto]]).
           ++ destruct Hend as (_ & _ & ?). lia.
           ++ destruct Hend as (? & ->). done.
           ++ destruct Hend as (? & -> & ?). split_and!; [done|done|lia].
      * exists 0. cbn [take imap]. split_and!; [done|done|lia|].
        destruct (line_record_err _ _ _ _ Hr) as [H1 H2]. apply stream_end_fault; [done..|].
        left. eexists. split; [done|]. by rewrite Nat.add_0_r.
Qed.
End lines.

(** *** Where the values lie *)
Lemma leading_space_le s : leading_space s ≤ slen s.
Proof. induction s as [|c s IH]; cbn; [lia|]. destruct (json_space c); cbn; lia. Qed.
Lemma valueBounds_le l : (valueBounds l).1 ≤ (valueBounds l).2 ∧ (valueBounds l).2 ≤ slen l.
Proof.
  unfold valueBounds. cbn [fst snd]. pose proof (leading_space_le l). lia.
Qed.
Lemma ssub_app_r p s i j : ssub (p +:+ s) (slen p + i) (slen p + j) = ssub s i j.
Proof. unfold ssub. rewrite sdrop_app_add. f_equal. lia. Qed.
Lemma ssub_app_l p s i j : j ≤ slen p → i ≤ j → ssub (p +:+ s) i j = ssub p i j.
Proof.
  intros Hj Hi. unfold ssub. rewrite sdrop_app_le by lia. apply stake_app_le. rewrite slen_sdrop. lia.
Qed.

(** Each value is the bytes at its offset, and values lie in order. *)
Definition placed (text : string) (base : nat) (v : string * nat) : Prop :=
  base ≤ v.2 ∧ 0 < slen v.1 ∧ v.2 + slen v.1 ≤ base + slen text ∧
  v.1 = ssub text (v.2 - base) (v.2 - base + slen v.1).

Lemma line_values_placed ls : ∀ p base,
  Forall (placed (p +:+ sjoin "" ls) base) (line_values (base + slen p) ls) ∧
  Forall (λ v, base + slen p ≤ v.2) (line_values (base + slen p) ls).
Proof.
  induction ls as [|l ls IH]; intros p base; [by split; constructor|].
  cbn [line_values]. pose proof (valueBounds_le l) as [H1 H2].
  destruct (valueBounds l) as [first last]. cbn [fst snd] in *.
  destruct (IH (p +:+ l) base) as [Hp Hge]. rewrite slen_app in Hp, Hge.
  replace (base + (slen p + slen l)) with (base + slen p + slen l) in Hp, Hge by lia.
  rewrite sapp_assoc, <- sconcat_cons in Hp.
  destruct (Nat.leb_spec last first) as [Hle|Hlt]; cbn [app].
  - split; [done|]. eapply Forall_impl; [exact Hge|]. cbn. lia.
  - assert (slen (ssub l first last) = last - first) as Hlen by (by apply ssub_length).
    split; constructor; try done; [|cbn; lia|eapply Forall_impl; [exact Hge|]; cbn; lia].
    unfold placed. cbn [fst snd]. rewrite Hlen, slen_app, sconcat_cons, slen_app.
    split_and!; [lia|lia|lia|].
    replace (base + slen p + first - base) with (slen p + first) by lia.
    replace (slen p + first + (last - first)) with (slen p + last) by lia.
    rewrite ssub_app_r, ssub_app_l by lia. done.
Qed.

Lemma line_values_sorted ls off :
  StronglySorted (λ a b, a.2 + slen a.1 ≤ b.2) (line_values off ls) ∧
  Forall (λ v, off ≤ v.2) (line_values off ls).
Proof.
  revert off. induction ls as [|l ls IH]; intros off; [by split; constructor|].
  cbn [line_values]. pose proof (valueBounds_le l) as [H1 H2].
  destruct (valueBounds l) as [first last]. cbn [fst snd] in *. destruct (IH (off + slen l)) as [Hs Hge].
  assert (Forall (λ v, off ≤ v.2) (line_values (off + slen l) ls)) as Hge'.
  { eapply Forall_impl; [exact Hge|]. cbn. lia. }
  destruct (Nat.leb_spec last first) as [Hle|Hlt]; cbn [app]; [done|].
  split; constructor; try done; [|cbn; lia]. eapply Forall_impl; [exact Hge|]. cbn.
  rewrite ssub_length by lia. lia.
Qed.

(** The lines before a fault are a prefix of all lines. *)
Lemma whole_lines_values {E} (fin : option E) ls off :
  line_values off (whole_lines fin ls) `prefix_of` line_values off ls.
Proof.
  revert off. induction ls as [|l ls IH]; intros off; [by exists []|].
  cbn [whole_lines]. destruct fin as [e|]; [destruct (ends_lf l)|]; cbn [line_values].
  - destruct (valueBounds l). apply prefix_app, IH.
  - apply prefix_nil.
  - destruct (valueBounds l). apply prefix_app, IH.
Qed.

(** C32: the line scanner yields a record for each line that is not blank, in
    order, up to the first that does not hold one JSON object: its records are
    those of the values [vs] of the lines, numbered from one, each with exactly
    the bytes of the text at its offsets, and the ranges of different records
    do not overlap. The stream ends without an error only behind the last line
    of an input that holds a value; every other end names the line, or the
    read fault behind the last whole line. *)
Theorem scan_lines_spec {E} (name : string) (sizeOnly : bool) text (fin : option (reader_error E)) base :
  let '(recs, e) := scan_lines_text name sizeOnly text fin base in
  let vs := line_values base (whole_lines fin (raw_lines text)) in
  Forall (placed text base) vs ∧ StronglySorted (λ a b, a.2 + slen a.1 ≤ b.2) vs ∧
  ∃ k, recs = imap (λ i v, value_record name sizeOnly (S i) v) (take k vs) ∧
       Forall is_object (take k vs) ∧ k ≤ length vs ∧
       stream_end name sizeOnly fin vs 0 k (cut_fault (raw_lines text) base) e.
Proof.
  unfold scan_lines_text. pose proof (lines_run_spec name sizeOnly fin (raw_lines text) 0 base) as Hrun.
  destruct (lines_run name sizeOnly fin 0 base (raw_lines text)) as [recs e].
  destruct (line_values_placed (raw_lines text) "" base) as [Hp _].
  destruct (line_values_sorted (raw_lines text) base) as [Hs _].
  destruct (whole_lines_values fin (raw_lines text) base) as [rest Hrest].
  change (slen "") with 0 in Hp. rewrite Nat.add_0_r in Hp.
  change ("" +:+ sjoin "" (raw_lines text)) with (sjoin "" (raw_lines text)) in Hp.
  rewrite raw_lines_concat in Hp.
  rewrite Hrest in Hp, Hs. split_and!; [by apply Forall_app in Hp as [? _]|by eapply StronglySorted_app_1_l|done].
Qed.

Example three_lines :
  scan_lines_text (E := Empty_set) "r" false
    ("{}" +:+ String LF (" " +:+ String LF (" { } " +:+ String LF "[]"))) None 0
  = ([value_record "r" false 1 ("{}", 0); value_record "r" false 2 ("{ }", 6)], Some (errNotObject 3 11)).
Proof. vm_compute. reflexivity. Qed.
