(* ===== verification/IndexHeader.v ===== *)
(** * Record index headers (internal/index: types.go, semantics.go,
    namespace_context.go; internal/docnode/xml/declarations.go)

    An index lists the records of one source by byte range. Its header says
    which source, which selector and which namespace contexts; the checks here
    decide whether a reader may use it. A header is present: the nil checks of
    the code are not modelled. *)
From Stdlib Require Import Ascii ZArith Lia.
From stdpp Require Import base list strings gmap sorting.
From S2P Require Import Prelude GoStrings GoFloat GoValue GoPath.

(** ** Data (types.go) *)
Definition SchemaVersion : string := "record-index/v0.1.3".
Definition LegacySchemaVersionV012 : string := "record-index/v0.1.2".
Definition LegacySchemaVersion : string := "record-index/v0.1.1".
Definition LegacySchemaVersionV010 : string := "record-index/v0.1.0".
Definition OffsetKindSourceBytes : string := "source_bytes".
Definition SzstStoreVersion : string := "record-index-szst/v0.1.2".
Definition LegacySzstStoreVersion : string := "record-index-szst/v0.1.1".
Definition LegacySzstStoreVersionV010 : string := "record-index-szst/v0.1.0".
Definition SourceFormatXML : string := "xml".
Definition SourceFormatJSON : string := "json".

Record NamespaceDeclaration := { nd_Prefix : string; nd_URI : string }.
(** [None] is a nil slice. *)
Record NamespaceContext := { nc_ID : Z; nc_Declarations : option (list NamespaceDeclaration) }.

Record SourceInfo := {
  si_Path : string;
  si_SizeBytes : Z;
  si_SHA256 : string;
  si_Compressed : bool;
  si_CompressionFormat : string;
  si_OffsetKind : string;
  si_Format : string;
}.
Record SelectorInfo := { sl_XPath : string; sl_ElementName : string }.

(** An index record. *)
Record RecordMetadata := {
  rm_RecordNum : Z;
  rm_StartOffset : Z;
  rm_EndOffset : Z;
  rm_SizeBytes : Z;
  rm_SHA256 : string;
  rm_ElementName : string;
  rm_Depth : Z;
  rm_NamespaceContextRef : Z;
}.

Record SummaryStats := {
  ss_TotalRecords : Z;
  ss_TotalBytes : Z;
  ss_AvgRecordSizeBytes : f64;
  ss_MinRecordSizeBytes : Z;
  ss_MaxRecordSizeBytes : Z;
  ss_P50RecordSizeBytes : Z;
  ss_P95RecordSizeBytes : Z;
  ss_P99RecordSizeBytes : Z;
}.

(** A header; the records are streamed beside it. *)
Record RecordIndex := {
  ri_Version : string;
  ri_Source : SourceInfo;
  ri_Selector : SelectorInfo;
  ri_NamespaceContexts : list NamespaceContext;
  ri_Summary : SummaryStats;
}.

(** ** Checks (semantics.go) *)
Definition decompressHint : string := "gunzip -c input.xml.gz > input.xml".
Section semantics.
Context `{UC : UnicodeCase}.

(** [filepath.Ext]: from the last dot of the last path component. *)
Fixpoint ext_go (acc : option string) (s : string) : string :=
  match s with
  | "" => default "" acc
  | String c t =>
      if (c =c? "."%char) then ext_go (Some s) t
      else if (c =c? slash) then ext_go None t else ext_go acc t
  end.
Definition Ext (path : string) : string := ext_go None path.

Definition DetectCompression (path : string) : bool * string :=
  let ext := to_lower (Ext path) in
  if ext =s? ".gz" then (true, "gzip")
  else if ext =s? ".bz2" then (true, "bzip2")
  else if ext =s? ".xz" then (true, "xz")
  else (false, "none").

Definition EmptyContextsAsArrays (contexts : list NamespaceContext) : list NamespaceContext :=
  (λ c, {| nc_ID := nc_ID c; nc_Declarations := Some (default [] (nc_Declarations c)) |}) <$> contexts.

Definition NormalizeRecordIndex (idx : RecordIndex) : RecordIndex :=
  let src := ri_Source idx in {|
  ri_Version := ri_Version idx;
  ri_Source := {|
    si_Path := si_Path src; si_SizeBytes := si_SizeBytes src; si_SHA256 := si_SHA256 src;
    si_Compressed := si_Compressed src; si_CompressionFormat := si_CompressionFormat src;
    si_OffsetKind := if trim_space (si_OffsetKind src) =s? "" then OffsetKindSourceBytes
                     else si_OffsetKind src;
    si_Format := si_Format src |};
  ri_Selector := ri_Selector idx;
  ri_NamespaceContexts :=
    match ri_NamespaceContexts idx with
    | [] => if ri_Version idx =s? LegacySchemaVersionV012
            then [{| nc_ID := 0; nc_Declarations := Some [] |}] else []
    | l => l
    end;
  ri_Summary := ri_Summary idx;
|}.

Definition WritableNamespaceContexts (contexts : list NamespaceContext) : list NamespaceContext :=
  match contexts with
  | [] => [{| nc_ID := 0; nc_Declarations := Some [] |}]
  | _ => EmptyContextsAsArrays contexts
  end.

Definition ValidateRecordIndexVersion (version : string) : result () :=
  if (version =s? SchemaVersion) || (version =s? LegacySchemaVersionV012)
     || (version =s? LegacySchemaVersion) || (version =s? LegacySchemaVersionV010) then Ok tt
  else errorf "unsupported index version: %s (expected %s, %s, %s, or %s)"
    [AStr version; AStr SchemaVersion; AStr LegacySchemaVersionV012; AStr LegacySchemaVersion;
     AStr LegacySchemaVersionV010].

(** The versions that carry [source.format]. *)
Definition current_version (version : string) : bool :=
  (version =s? SchemaVersion) || (version =s? SzstStoreVersion).

Definition SourceFormat (idx : RecordIndex) : result string :=
  let format := si_Format (ri_Source idx) in
  if current_version (ri_Version idx) then
    if (format =s? SourceFormatXML) || (format =s? SourceFormatJSON) then Ok format
    else if format =s? "" then
      errorf "record index %s requires source.format (xml or json)" [AStr (ri_Version idx)]
    else errorf "record index source.format %q is not supported (supported: xml, json)" [AStr format]
  else
    _ ← (if (ri_Version idx =s? LegacySzstStoreVersion) || (ri_Version idx =s? LegacySzstStoreVersionV010)
         then Ok tt else ValidateRecordIndexVersion (ri_Version idx));
    if negb (format =s? "") then
      errorf "record index %s predates source.format and is XML only; it must not declare source.format %q"
        [AStr (ri_Version idx); AStr format]
    else Ok SourceFormatXML.

Definition ValidateRecordIndexHeaderVersion (version : string) : result () :=
  if has_prefix "record-index/" version then ValidateRecordIndexVersion version else Ok tt.

(** The header it leaves is [NormalizeRecordIndex idx]: it fills in defaults
    first. *)
Definition ValidateSourceByteOffsets (idx : RecordIndex) (sourcePath : string) : result () :=
  let src := ri_Source (NormalizeRecordIndex idx) in
  if negb (si_OffsetKind src =s? OffsetKindSourceBytes) then
    errorf "record index offset_kind %q is not supported for seekable source-byte access; rebuild from an uncompressed source (example: %s)"
      [AStr (si_OffsetKind src); AStr decompressHint]
  else if si_Compressed src then
    errorf "record index source is marked compressed (%s); record-index offsets must address uncompressed source bytes; decompress first (example: %s) and rebuild the index"
      [AStr (if si_CompressionFormat src =s? "" then "unknown" else si_CompressionFormat src); AStr decompressHint]
  else
    let path := if sourcePath =s? "" then si_Path src else sourcePath in
    let '(compressed, format) := DetectCompression path in
    if compressed then
      errorf "source path %q appears %s compressed; record-index offsets require an uncompressed source; decompress first (example: %s) and rebuild the index"
        [AStr path; AStr format; AStr decompressHint]
    else Ok tt.

(** [seen] holds the ids of the contexts before. *)
Fixpoint contexts_shape (version : string) (seen : list Z) (l : list NamespaceContext) : result () :=
  match l with
  | [] => Ok tt
  | c :: l =>
      if (nc_ID c <? 0)%Z then
        errorf "record index %s namespace context id %d is negative" [AStr version; AInt (nc_ID c)]
      else if bool_decide (nc_ID c ∈ seen) then
        errorf "record index %s lists namespace context %d more than once" [AStr version; AInt (nc_ID c)]
      else match nc_Declarations c with
           | None => errorf "record index %s namespace context %d has no declarations array"
                       [AStr version; AInt (nc_ID c)]
           | Some _ => contexts_shape version (nc_ID c :: seen) l
           end
  end.
Definition ValidateNamespaceContextShape (idx : RecordIndex) : result () :=
  if negb (current_version (ri_Version idx)) then Ok tt
  else
    match ri_NamespaceContexts idx with
    | [] => errorf "record index %s requires a namespace_contexts table" [AStr (ri_Version idx)]
    | c :: rest as l =>
        _ ← contexts_shape (ri_Version idx) [] l;
        if negb (si_Format (ri_Source idx) =s? SourceFormatJSON) then Ok tt
        else if negb (bool_decide (rest = [])) then
          errorf "record index for json input must hold exactly one namespace context (id 0, no declarations); found %d"
            [AInt (Z.of_nat (length l))]
        else if negb (nc_ID c =? 0)%Z then
          errorf "record index for json input must hold only namespace context 0; found context %d"
            [AInt (nc_ID c)]
        else match nc_Declarations c with
             | Some (_ :: _) =>
                 errorf "record index for json input carries namespace declarations in context %d"
                   [AInt (nc_ID c)]
             | _ => Ok tt
             end
    end.

(** A writer never supplies a format. *)
Definition requireWritableFormat (idx : RecordIndex) : result () :=
  let format := si_Format (ri_Source idx) in
  if (format =s? SourceFormatXML) || (format =s? SourceFormatJSON) then Ok tt
  else if format =s? "" then errorf "record index %s requires source.format (xml or json)" [AStr SchemaVersion]
  else errorf "record index source.format %q is not supported (supported: xml, json)" [AStr format].

Definition ValidateNamespaceContextSupport (idx : RecordIndex) (namespaceBound : bool) : result () :=
  if negb namespaceBound then Ok tt
  else if negb (ri_Version idx =s? SchemaVersion) && negb (ri_Version idx =s? LegacySchemaVersionV012)
          && has_prefix "record-index/" (ri_Version idx) then
    errorf "record index %s lacks namespace context; rebuild the index with record-index/v0.1.2 or newer for namespace-bound extraction"
      [AStr (ri_Version idx)]
  else match ri_NamespaceContexts idx with
       | [] => errorf "record index lacks namespace context; rebuild the index with record-index/v0.1.2 or newer for namespace-bound extraction" []
       | _ => Ok tt
       end.
End semantics.

(** ** Namespace contexts (namespace_context.go, declarations.go) *)

(** The last non-empty URI of each prefix, prefixes sorted; the two reserved
    prefixes are left out. *)
Definition latest_uri (latest : gmap string string) (decl : NamespaceDeclaration) : gmap string string :=
  let prefix := trim_space (nd_Prefix decl) in
  let uri := trim_space (nd_URI decl) in
  if (prefix =s? "xml") || (prefix =s? "xmlns") then latest
  else if uri =s? "" then latest
  else <[prefix := uri]> latest.
Definition NormalizeNamespaceDeclarations (declarations : list NamespaceDeclaration)
    : list NamespaceDeclaration :=
  let latest := foldl latest_uri ∅ declarations in
  (λ p, {| nd_Prefix := p; nd_URI := default "" (latest !! p) |})
    <$> sort_by sleb (map_to_list latest).*1.

Definition namespaceContextKey (declarations : list NamespaceDeclaration) : string :=
  sjoin "" ((λ d, nd_Prefix d +:+ "=" +:+ nd_URI d +:+ String (bchr 10) "") <$> declarations).

Record NamespaceContextTable := {
  nt_contexts : list (list NamespaceDeclaration);   (* by id *)
  nt_ids : gmap string nat;
}.
Definition RefFor (t : NamespaceContextTable) (declarations : list NamespaceDeclaration)
    : NamespaceContextTable * nat :=
  let normalized := NormalizeNamespaceDeclarations declarations in
  let key := namespaceContextKey normalized in
  match nt_ids t !! key with
  | Some id => (t, id)
  | None =>
      let id := length (nt_contexts t) in
      ({| nt_contexts := nt_contexts t ++ [normalized]; nt_ids := <[key := id]> (nt_ids t) |}, id)
  end.
Definition NewNamespaceContextTable : NamespaceContextTable :=
  (RefFor {| nt_contexts := []; nt_ids := ∅ |} []).1.
(** The persisted table: the entry at position [i] carries the id [i]. *)
Definition Contexts (t : NamespaceContextTable) : list NamespaceContext :=
  imap (λ i ds, {| nc_ID := Z.of_nat i; nc_Declarations := Some ds |}) (nt_contexts t).
Definition NamespaceContextByID (contexts : list NamespaceContext) : gmap Z (list NamespaceDeclaration) :=
  foldl (λ m c, <[nc_ID c := NormalizeNamespaceDeclarations (default [] (nc_Declarations c))]> m) ∅ contexts.
