(* ===== verification/IndexHeaderSpec.v ===== *)
(** * Record index headers: what the checks admit

    And the namespace table: a declaration set is found again under the
    reference it was given. *)
From Stdlib Require Import Ascii ZArith Lia.
From stdpp Require Import base list strings gmap sorting.
From S2P Require Import Prelude GoStrings GoFloat GoValue GoPath IndexHeader.

(** ** Normal declaration lists *)
Definition normal_declaration (d : NamespaceDeclaration) : Prop :=
  trim_space (nd_Prefix d) = nd_Prefix d ∧ trim_space (nd_URI d) = nd_URI d ∧
  nd_Prefix d ≠ "xml" ∧ nd_Prefix d ≠ "xmlns" ∧ nd_URI d ≠ "".
Definition sorted_strictly (l : list string) : Prop := StronglySorted (λ x y, sleb x y = true) l ∧ NoDup l.
Definition normal (l : list NamespaceDeclaration) : Prop :=
  Forall normal_declaration l ∧ sorted_strictly (nd_Prefix <$> l).

Definition latest_ok (m : gmap string string) : Prop :=
  map_Forall (λ p u, normal_declaration {| nd_Prefix := p; nd_URI := u |}) m.
Lemma latest_normal ds m : latest_ok m → latest_ok (foldl latest_uri m ds).
Proof.
  revert m. induction ds as [|d ds IH]; intros m Hm; [done|]. cbn [foldl]. apply IH.
  unfold latest_uri. destruct (String.eqb_spec (trim_space (nd_Prefix d)) "xml"); [done|].
  destruct (String.eqb_spec (trim_space (nd_Prefix d)) "xmlns"); [done|].
  destruct (String.eqb_spec (trim_space (nd_URI d)) ""); [done|]. cbn [orb].
  intros p u [[<- <-]|[_ Hpu]]%lookup_insert_Some; [|by apply Hm].
  split_and!; cbn [nd_Prefix nd_URI]; auto using trim_space_twice.
Qed.
Lemma sorted_fst_prefixes (m : gmap string string) :
  nd_Prefix <$> ((λ p, {| nd_Prefix := p; nd_URI := default "" (m !! p) |})
    <$> sort_by sleb (map_to_list m).*1) = sort_by sleb (map_to_list m).*1.
Proof. rewrite <- list_fmap_compose. by rewrite list_fmap_id. Qed.
Lemma keys_sorted (m : gmap string string) : sorted_strictly (sort_by sleb (map_to_list m).*1).
Proof.
  split.
  - apply sort_by_sorted; [apply sleb_total|apply sleb_trans].
  - rewrite sort_by_perm. apply NoDup_fst_map_to_list.
Qed.
Lemma Normalize_normal ds : normal (NormalizeNamespaceDeclarations ds).
Proof.
  split.
  - apply Forall_fmap, Forall_forall. intros p Hp. rewrite sort_by_perm in Hp.
    apply list_elem_of_fmap in Hp as ([p' u] & -> & Hp). apply elem_of_map_to_list in Hp. cbn.
    rewrite Hp. cbn. by apply (latest_normal ds ∅ (map_Forall_empty _)) in Hp.
  - unfold NormalizeNamespaceDeclarations. rewrite sorted_fst_prefixes. apply keys_sorted.
Qed.

Lemma latest_of_normal l m :
  Forall normal_declaration l → NoDup (nd_Prefix <$> l) →
  foldl latest_uri m l = list_to_map (reverse ((λ d, (nd_Prefix d, nd_URI d)) <$> l)) ∪ m.
Proof.
  intros Hn. revert m. induction Hn as [|d l (H1 & H2 & H3 & H4 & H5) _ IH]; intros m Hd.
  { cbn. by rewrite (left_id_L ∅ (∪)). }
  cbn [foldl fmap list_fmap] in *. apply NoDup_cons in Hd as [_ Hd]. rewrite IH by done.
  unfold latest_uri. rewrite H1, H2.
  destruct (String.eqb_spec (nd_Prefix d) "xml"); [done|].
  destruct (String.eqb_spec (nd_Prefix d) "xmlns"); [done|].
  destruct (String.eqb_spec (nd_URI d) ""); [done|]. cbn [orb].
  rewrite reverse_cons, list_to_map_app, <- (assoc_L (∪)). f_equal.
  by rewrite (insert_union_singleton_l m).
Qed.

Lemma sort_by_id l : StronglySorted (λ x y, sleb x y = true) l → sort_by sleb l = l.
Proof.
  induction 1 as [|x l Hs IH Hall]; [done|]. cbn. rewrite IH. destruct Hall as [|y l Hxy]; [done|].
  cbn. by rewrite Hxy.
Qed.
Lemma Normalize_fixed l : normal l → NormalizeNamespaceDeclarations l = l.
Proof.
  intros (Hn & Hs & Hd). unfold NormalizeNamespaceDeclarations.
  rewrite latest_of_normal, (right_id_L ∅ (∪)) by done.
  set (m := list_to_map _ : gmap string string).
  assert ((map_to_list m).*1 ≡ₚ nd_Prefix <$> l) as Hp.
  { unfold m. rewrite map_to_list_to_map.
    - rewrite reverse_Permutation, <- list_fmap_compose. done.
    - rewrite reverse_Permutation, <- list_fmap_compose. done. }
  assert (sort_by sleb (map_to_list m).*1 = nd_Prefix <$> l) as ->.
  { rewrite <- (sort_by_id (nd_Prefix <$> l)) by done. apply sort_by_perm_eq; [..|done].
    - apply sleb_total.
    - apply sleb_trans.
    - intros x y _ _. apply sleb_antisymm. }
  rewrite <- list_fmap_compose. rewrite <- (list_fmap_id l) at 2.
  apply list_fmap_ext. intros i d Hi. cbn.
  assert (m !! nd_Prefix d = Some (nd_URI d)) as ->; [|by destruct d].
  unfold m. apply elem_of_list_to_map_1.
  - rewrite reverse_Permutation, <- list_fmap_compose. done.
  - apply elem_of_reverse, list_elem_of_fmap. exists d. split; [done|]. by eapply list_elem_of_lookup_2.
Qed.

(** ** Keys *)
Lemma scontains_byte_app c s t : scontains_byte c (s +:+ t) = scontains_byte c s || scontains_byte c t.
Proof. induction s as [|b s IH]; [done|]. rewrite sapp_cons. cbn. by rewrite IH, orb_assoc. Qed.
(** A separator that neither field contains ends the first field. *)
Lemma split_at c s t s' t' :
  scontains_byte c s = false → scontains_byte c s' = false →
  s +:+ String c t = s' +:+ String c t' → s = s' ∧ t = t'.
Proof.
  revert s'. induction s as [|b s IH]; intros [|b' s'] Hs Hs'; rewrite ?sapp_cons, ?sapp_nil_l; cbn [scontains_byte] in *; intros [=]; subst.
  - done.
  - apply orb_false_iff in Hs' as [Hb _]. by rewrite Ascii.eqb_refl in Hb.
  - apply orb_false_iff in Hs as [Hb _]. by rewrite Ascii.eqb_refl in Hb.
  - apply orb_false_iff in Hs as [_ Hs]. apply orb_false_iff in Hs' as [_ Hs'].
    destruct (IH s' Hs Hs') as [-> ->]; [done|]. done.
Qed.

(** A declaration whose text delimits itself in a key. *)
Definition plain_declaration (d : NamespaceDeclaration) : Prop :=
  scontains_byte "="%char (nd_Prefix d) = false ∧ scontains_byte (bchr 10) (nd_URI d) = false.
Lemma key_cons d l :
  namespaceContextKey (d :: l)
  = nd_Prefix d +:+ String "="%char (nd_URI d +:+ String (bchr 10) (namespaceContextKey l)).
Proof.
  unfold namespaceContextKey. cbn [fmap list_fmap]. rewrite sconcat_cons, !sapp_assoc. done.
Qed.
Lemma namespaceContextKey_inj l l' :
  Forall plain_declaration l → Forall plain_declaration l' →
  namespaceContextKey l = namespaceContextKey l' → l = l'.
Proof.
  intros Hl. revert l'. induction Hl as [|d l [Hp Hu] _ IH]; intros l' Hl'.
  - destruct l' as [|d' l']; [done|]. rewrite key_cons. by destruct (nd_Prefix d').
  - destruct Hl' as [|d' l' [Hp' Hu'] Hl'].
    + rewrite key_cons. by destruct (nd_Prefix d).
    + rewrite !key_cons. intros [Heq1 Heq]%split_at; [|done..].
      apply split_at in Heq as [Heq2 Heq]; [|done..]. rewrite (IH l') by done.
      f_equal. destruct d, d'. cbn in *. by subst.
Qed.

(** ** The table *)
Record table_inv (t : NamespaceContextTable) : Prop := {
  ti_normal : Forall normal (nt_contexts t);
  ti_ids : ∀ k i, nt_ids t !! k = Some i ↔ ∃ ds, nt_contexts t !! i = Some ds ∧ namespaceContextKey ds = k;
}.

Lemma RefFor_spec t ds t' r :
  table_inv t → RefFor t ds = (t', r) →
  table_inv t' ∧ nt_contexts t `prefix_of` nt_contexts t' ∧
  ∃ ds', nt_contexts t' !! r = Some ds' ∧
         namespaceContextKey ds' = namespaceContextKey (NormalizeNamespaceDeclarations ds) ∧
         (ds' = NormalizeNamespaceDeclarations ds ∨ ds' ∈ nt_contexts t).
Proof.
  intros [Hn Hids]. unfold RefFor. set (nds := NormalizeNamespaceDeclarations ds).
  destruct (nt_ids t !! namespaceContextKey nds) as [i|] eqn:Hk; intros [= <- <-].
  { split_and!; [done..|]. apply Hids in Hk as (ds' & Hlk & Hkey). exists ds'. split_and!; [done..|].
    right. by eapply list_elem_of_lookup_2. }
  cbn [nt_contexts]. split_and!.
  - constructor; cbn [nt_contexts nt_ids].
    + apply Forall_app. split; [done|]. apply Forall_singleton, Normalize_normal.
    + intros k i. rewrite lookup_insert_Some, Hids. split.
      * intros [[<- <-]|[_ (ds' & Hlk & Hkey)]].
        -- exists nds. by rewrite lookup_app_r, Nat.sub_diag by done.
        -- exists ds'. split; [by apply lookup_app_l_Some|done].
      * intros (ds' & [Hlk|[Hle [Hi <-]%list_lookup_singleton_Some]]%lookup_app_Some & Hkey).
        -- right. split; [|by eauto]. intros Hkk. assert (nt_ids t !! k = Some i) by (apply Hids; eauto). congruence.
        -- left. split; [done|lia].
  - by apply prefix_app_r.
  - exists nds. split_and!; [|done|by left]. by rewrite lookup_app_r, Nat.sub_diag by done.
Qed.

(** The references given to the declarations of the records, in order. *)
Fixpoint refs_for (t : NamespaceContextTable) (l : list (list NamespaceDeclaration))
    : NamespaceContextTable * list nat :=
  match l with
  | [] => (t, [])
  | ds :: l => let '(t, r) := RefFor t ds in let '(t, rs) := refs_for t l in (t, r :: rs)
  end.

Lemma refs_for_spec l t t' rs :
  table_inv t → refs_for t l = (t', rs) →
  table_inv t' ∧ nt_contexts t `prefix_of` nt_contexts t' ∧
  (∀ P : list NamespaceDeclaration → Prop, Forall P (nt_contexts t) →
     Forall (λ ds, P (NormalizeNamespaceDeclarations ds)) l → Forall P (nt_contexts t')) ∧
  Forall2 (λ ds r, ∃ ds', nt_contexts t' !! r = Some ds' ∧
    namespaceContextKey ds' = namespaceContextKey (NormalizeNamespaceDeclarations ds)) l rs.
Proof.
  revert t rs. induction l as [|ds l IH]; intros t rs Hi; cbn [refs_for].
  { intros [= <- <-]. split_and!; [done..|constructor]. }
  destruct (RefFor t ds) as [t1 r] eqn:Hr. destruct (refs_for t1 l) as [t2 rs'] eqn:Hrs. intros [= <- <-].
  pose proof (RefFor_spec _ _ _ _ Hi Hr) as (Hi1 & Hp1 & ds' & Hlk & Hkey & _).
  destruct (IH _ _ Hi1 Hrs) as (Hi2 & Hp2 & HP & Hall).
  split_and!; [done|by etrans| |].
  - intros P Hold [Hds Hl]%Forall_cons. apply HP; [|done]. unfold RefFor in Hr.
    destruct (nt_ids t !! _); injection Hr as <- <-; [done|]. apply Forall_app. by split; [|constructor].
  - constructor; [|done]. exists ds'. split; [by eapply prefix_lookup_Some|done].
Qed.

Lemma new_table_inv : table_inv NewNamespaceContextTable.
Proof.
  destruct (RefFor {| nt_contexts := []; nt_ids := ∅ |} []) as [t r] eqn:Hr.
  unfold NewNamespaceContextTable. rewrite Hr. cbn. eapply RefFor_spec; [|done].
  constructor; cbn; [constructor|]. intros k i. rewrite lookup_empty. split; [done|].
  intros (ds & Hlk & _). by rewrite lookup_nil in Hlk.
Qed.

Lemma ByID_Contexts t n :
  NamespaceContextByID (Contexts t) !! Z.of_nat n = NormalizeNamespaceDeclarations <$> nt_contexts t !! n.
Proof.
  unfold Contexts, NamespaceContextByID. induction (nt_contexts t) as [|ds l IH] using rev_ind; [done|].
  rewrite imap_app, foldl_app. cbn [imap foldl nc_ID nc_Declarations default].
  rewrite Nat.add_0_r. destruct (decide (n = length l)) as [->|Hne].
  - by rewrite lookup_insert_eq, lookup_app_r, Nat.sub_diag by done.
  - rewrite lookup_insert_ne by lia. rewrite IH. f_equal.
    destruct (decide (n < length l)); [by rewrite lookup_app_l|].
    rewrite !lookup_ge_None_2; [done|rewrite length_app; cbn; lia|lia].
Qed.

Lemma Contexts_shape version t : contexts_shape version [] (Contexts t) = Ok tt.
Proof.
  unfold Contexts. assert (∀ (f : nat → nat) (seen : list Z) (l : list (list NamespaceDeclaration)),
    (∀ i j, i < j → f i < f j) → Forall (λ z, (z < Z.of_nat (f 0%nat))%Z) seen →
    contexts_shape version seen (imap (λ i ds, {| nc_ID := Z.of_nat (f i); nc_Declarations := Some ds |}) l) = Ok tt) as H.
  { intros f seen l. revert f seen. induction l as [|ds l IH]; intros f seen Hf Hseen; [done|].
    cbn [imap contexts_shape nc_ID nc_Declarations]. destruct (Z.ltb_spec (Z.of_nat (f 0)) 0); [lia|].
    rewrite bool_decide_eq_false_2 by (intros Hin; eapply Forall_forall in Hin; [|done]; cbn in Hin; lia).
    apply (IH (f ∘ S)); [intros; apply Hf; lia|]. pose proof (Hf 0 1). constructor; [cbn; lia|].
    eapply Forall_impl; [done|]. cbn. lia. }
  apply (H id); [done|constructor].
Qed.

(** The namespace table of an index keeps every record's declarations.
    The table a build persists passes the readers' check of its shape, and
    looking a record's reference up in it gives the record's declarations,
    normalised: always up to the text that identifies them, and exactly when
    no prefix contains an equals sign and no URI a line break. *)
Theorem namespace_contexts_kept l t refs version :
  refs_for NewNamespaceContextTable l = (t, refs) →
  contexts_shape version [] (Contexts t) = Ok tt ∧
  Forall2 (λ ds r, ∃ ds', NamespaceContextByID (Contexts t) !! Z.of_nat r = Some ds' ∧
    namespaceContextKey ds' = namespaceContextKey (NormalizeNamespaceDeclarations ds) ∧
    (Forall (λ ds, Forall plain_declaration (NormalizeNamespaceDeclarations ds)) l →
     ds' = NormalizeNamespaceDeclarations ds)) l refs.
Proof.
  intros Hr. apply refs_for_spec in Hr as ([Hn _] & _ & HP & Hall); [|apply new_table_inv].
  split; [apply Contexts_shape|].
  specialize (HP (Forall plain_declaration)).
  assert (Forall (Forall plain_declaration) (nt_contexts NewNamespaceContextTable)) as Hnew by (repeat constructor).
  specialize (HP Hnew). apply Forall2_same_length_lookup_2; [by eapply Forall2_length|].
  intros i ds r Hds Hri. destruct (Forall2_lookup_lr _ _ _ _ _ _ Hall Hds Hri) as (ds' & Hlk & Hkey).
  exists ds'. rewrite ByID_Contexts, Hlk. cbn.
  rewrite Normalize_fixed by (by eapply Forall_lookup_1 in Hlk). split_and!; [done..|].
  intros Hp. apply namespaceContextKey_inj; [by eapply (Forall_lookup_1 _ _ _ _ (HP Hp)) in Hlk| |done].
  by eapply Forall_lookup_1 in Hds; [|exact Hp].
Qed.
Definition sample_declarations : list (list NamespaceDeclaration) :=
  [[{| nd_Prefix := "b"; nd_URI := " urn:b" |}; {| nd_Prefix := "a"; nd_URI := "urn:a" |}]; [];
   [{| nd_Prefix := "a"; nd_URI := "urn:a" |}; {| nd_Prefix := "b"; nd_URI := "urn:b" |}]].
Lemma namespace_contexts_kept_witness :
  ∃ ds', NamespaceContextByID (Contexts (refs_for NewNamespaceContextTable sample_declarations).1) !! Z.of_nat 1
         = Some ds' ∧ nd_Prefix <$> ds' = ["a"; "b"].
Proof.
  pose proof (proj2 (namespace_contexts_kept sample_declarations
    (refs_for NewNamespaceContextTable sample_declarations).1 [1; 0; 1] SchemaVersion ltac:(vm_compute; reflexivity))) as H.
  apply Forall2_cons in H as [(ds' & Hlk & _ & Hds) _]. exists ds'. split; [exact Hlk|].
  rewrite Hds; [vm_compute; reflexivity|]. repeat constructor.
Defined.

(** A line break in a URI can make two declaration sets look the same: the
    second record then gets the first one's namespaces. *)
Example line_break_confuses_contexts :
  let nl := String (bchr 10) "" in
  (refs_for NewNamespaceContextTable
    [[{| nd_Prefix := "a"; nd_URI := "u" |}; {| nd_Prefix := "b"; nd_URI := "v" |}];
     [{| nd_Prefix := "a"; nd_URI := "u" +:+ nl +:+ "b=v" |}]]).2 = [1; 1].
Proof. vm_compute. reflexivity. Qed.

(** ** Formats *)
Definition legacy_version (v : string) : bool :=
  (v =s? LegacySchemaVersionV012) || (v =s? LegacySchemaVersion) || (v =s? LegacySchemaVersionV010)
  || (v =s? LegacySzstStoreVersion) || (v =s? LegacySzstStoreVersionV010).

Lemma SourceFormat_current idx :
  ri_Version idx = SchemaVersion → si_Format (ri_Source idx) = SourceFormatJSON → SourceFormat idx = Ok SourceFormatJSON.
Proof. intros Hv Hf. unfold SourceFormat. by rewrite Hv, Hf. Qed.

(** A header declares its source format exactly when its version knows
    the field: a current header says xml or json, an older one says nothing and
    means xml, and everything else is refused. *)
Theorem SourceFormat_spec `{UC : UnicodeCase} idx f :
  SourceFormat idx = Ok f ↔
  (current_version (ri_Version idx) = true ∧ f = si_Format (ri_Source idx) ∧
   (f = SourceFormatXML ∨ f = SourceFormatJSON)) ∨
  (legacy_version (ri_Version idx) = true ∧ si_Format (ri_Source idx) = "" ∧ f = SourceFormatXML).
Proof.
  unfold SourceFormat. set (v := ri_Version idx). set (fmt := si_Format (ri_Source idx)).
  assert (current_version v = true → legacy_version v = false) as Hex.
  { unfold current_version. intros [->%String.eqb_eq| ->%String.eqb_eq]%orb_true_iff; reflexivity. }
  destruct (current_version v) eqn:Hc.
  - rewrite (Hex eq_refl). destruct (String.eqb_spec fmt SourceFormatXML) as [->|H1]; cbn [orb].
    { split; [intros [= <-]; left; auto|by intros [(_ & -> & _)|(? & _)]]. }
    destruct (String.eqb_spec fmt SourceFormatJSON) as [->|H2].
    { split; [intros [= <-]; left; auto|by intros [(_ & -> & _)|(? & _)]]. }
    destruct (fmt =s? ""); (split; [done|]); intros [(_ & -> & [?|?])|(? & _)]; done.
  - assert ((if (v =s? LegacySzstStoreVersion) || (v =s? LegacySzstStoreVersionV010)
             then Ok tt else ValidateRecordIndexVersion v) = Ok tt ↔ legacy_version v = true) as Hl.
    { unfold ValidateRecordIndexVersion, legacy_version. apply orb_false_iff in Hc as [-> _]. cbn [orb].
      destruct (v =s? LegacySchemaVersionV012), (v =s? LegacySchemaVersion), (v =s? LegacySchemaVersionV010),
        (v =s? LegacySzstStoreVersion), (v =s? LegacySzstStoreVersionV010); done. }
    destruct (if _ || _ then _ else _) as [[]|e]; cbn [mbind res_bind].
    + destruct (String.eqb_spec fmt "") as [->|Hne]; cbn [negb].
      * split; [intros [= <-]; right; split_and!; [by apply Hl|done..]|by intros [(? & _)|(_ & _ & ->)]].
      * split; [done|]. by intros [(? & _)|(_ & ? & _)].
    + split; [done|]. intros [(? & _)|(Hlv & _)]; [done|]. by apply Hl in Hlv.
Qed.
