(* ===== verification/ParPipe.v ===== *)
(** * The parallel extraction pipeline (internal/extract/parallel: scheduler.go,
    extractor.go, aggregator.go, orchestrator.go, types.go)

    One goroutine schedules index records, a pool of workers extracts them, one
    goroutine puts the results back into record order, and the caller consumes
    them. [pipeline] is the shared state (channels, semaphore, reorder buffer
    and the place each goroutine has reached) and [step] one atomic action of
    one goroutine; any interleaving is a sequence of steps. *)
From Stdlib Require Import ZArith Lia.
From stdpp Require Import base strings list gmap relations.
From S2P Require Import Prelude IndexHeader.

(** ** Options *)
Definition MaxWorkerMultiplier : Z := 2.

Definition capWorkerCount (NumCPU requested : Z) : Z :=
  let workers := if (requested <=? 0)%Z then NumCPU else requested in
  let maxWorkers := (NumCPU * MaxWorkerMultiplier)%Z in
  if (maxWorkers <? workers)%Z then maxWorkers else workers.

Definition capReorderWindow (requested workers : Z) : Z :=
  if (0 <? requested)%Z then requested
  else ((if (workers <=? 0)%Z then 1 else workers) * 2)%Z.


Record ExtractionOptions := {
  Workers : Z;
  MaxRecordSizeMB : Z;
  SkipLargeRecords : bool;
  ReorderWindow : Z;
}.

Definition maxRecordBytes (opts : ExtractionOptions) : Z :=
  int64 (int64 (MaxRecordSizeMB opts * 1024) * 1024).

(** ** Records, work and results *)

Record WorkItem := {
  wi_RecordNum : nat;
  wi_StartOffset : Z;
  wi_EndOffset : Z;
  wi_SizeBytes : Z;
  wi_NamespaceContextRef : Z;
}.

Section results.
Context {D E : Type}.

Record WorkResult := {
  wr_RecordNum : nat;
  wr_Data : option D;
  wr_Error : option E;
  wr_Skipped : bool;
}.

(** The errors the scheduler itself reports. *)
Inductive sched_error :=
| readRecordError (n : nat) (e : E)
| oversizeError (n : nat) (size limitMB : Z).
Context (sched_err : sched_error → E).

(** ** Scheduling one record

    What the scheduler does with what [iter.Next] returned in its [counter]-th
    call: it hands the record to the workers, or answers for it itself. *)
Inductive action := ToWorkers (item : WorkItem) | Answer (r : WorkResult).

Definition record_number (counter : nat) (r : RecordMetadata) : nat :=
  if (rm_RecordNum r <=? 0)%Z then counter else Z.to_nat (rm_RecordNum r).

Definition schedule (opts : ExtractionOptions) (counter : nat) (next : res E RecordMetadata)
    : action :=
  match next with
  | Err e =>
      Answer {| wr_RecordNum := counter; wr_Data := None;
                wr_Error := Some (sched_err (readRecordError counter e)); wr_Skipped := false |}
  | Ok record =>
      let recordNum := record_number counter record in
      if (0 <? MaxRecordSizeMB opts)%Z && (maxRecordBytes opts <? rm_SizeBytes record)%Z then
        if SkipLargeRecords opts then
          Answer {| wr_RecordNum := recordNum; wr_Data := None; wr_Error := None; wr_Skipped := true |}
        else
          Answer {| wr_RecordNum := recordNum; wr_Data := None;
                    wr_Error := Some (sched_err (oversizeError recordNum (rm_SizeBytes record) (MaxRecordSizeMB opts)));
                    wr_Skipped := false |}
      else
        ToWorkers {| wi_RecordNum := recordNum; wi_StartOffset := rm_StartOffset record;
                     wi_EndOffset := rm_EndOffset record; wi_SizeBytes := rm_SizeBytes record;
                     wi_NamespaceContextRef := rm_NamespaceContextRef record |}
  end.

(** ** The reorder buffer *)
Record ResultAggregator := { ra_results : gmap nat WorkResult; ra_nextExpected : nat }.
Definition NewResultAggregator : ResultAggregator := {| ra_results := ∅; ra_nextExpected := 1 |}.

Definition ra_store (ra : ResultAggregator) (r : WorkResult) : ResultAggregator :=
  {| ra_results := <[wr_RecordNum r := r]> (ra_results ra); ra_nextExpected := ra_nextExpected ra |}.
(** The next consecutive result, if it is there. *)
Definition ra_emit (ra : ResultAggregator) : option (WorkResult * ResultAggregator) :=
  match ra_results ra !! ra_nextExpected ra with
  | Some r => Some (r, {| ra_results := delete (ra_nextExpected ra) (ra_results ra);
                          ra_nextExpected := S (ra_nextExpected ra) |})
  | None => None
  end.
Definition ra_pass (ra : ResultAggregator) : ResultAggregator :=
  {| ra_results := ra_results ra; ra_nextExpected := S (ra_nextExpected ra) |}.

(** ** The goroutines *)

(** The scheduler's loop: at its top, past the cancellation check, waiting for
    a window slot, sending with a slot held, or returned with the work channel
    closed. *)
Inductive sched_at :=
| SLoop
| SChecked
| SWaiting (a : action)
| SSending (a : action)
| SReturned.

Inductive worker_at := WReceiving | WExtracting (item : WorkItem) | WSending (r : WorkResult) | WReturned.
#[export] Instance worker_returned_dec (w : worker_at) : Decision (w = WReturned).
Proof. destruct w; (by left) || (by right). Defined.

(** The aggregator: receiving, emitting what follows, draining, done. *)
Inductive agg_at := AReceiving | AEmitting | ADraining | AReturned.

Record ExtractionStats := { st_Processed : nat; st_Skipped : nat; st_Failed : nat }.
Definition IncrementProcessed (s : ExtractionStats) : ExtractionStats :=
  {| st_Processed := S (st_Processed s); st_Skipped := st_Skipped s; st_Failed := st_Failed s |}.
Definition IncrementSkipped (s : ExtractionStats) : ExtractionStats :=
  {| st_Processed := st_Processed s; st_Skipped := S (st_Skipped s); st_Failed := st_Failed s |}.
Definition IncrementFailed (s : ExtractionStats) : ExtractionStats :=
  {| st_Processed := st_Processed s; st_Skipped := st_Skipped s; st_Failed := S (st_Failed s) |}.

Record pipeline := {
  p_read : nat;                     (* [iter.Next] calls so far: [localCounter] *)
  p_sched : sched_at;
  p_slots : nat;                    (* tokens in [windowSlots] *)
  p_work : list WorkItem;           (* [workChan] *)
  p_workers : list worker_at;
  p_results : list WorkResult;      (* [resultChan] *)
  p_closed : bool;                  (* [resultChan] is closed *)
  p_agg : ResultAggregator;
  p_agg_at : agg_at;
  p_out : list WorkResult;          (* what the caller has received *)
  p_stats : ExtractionStats;
  p_cancelled : bool;
}.

Context (opts : ExtractionOptions).
Context (ExtractRecord : WorkItem → WorkResult).
(** The iterator's results by call; [None] is [io.EOF]. Once the context is
    done it returns the context's error. *)
Context (iter : nat → option (res E RecordMetadata)) (ctx_err : E).
(** The capacities of [workChan] and [resultChan], and of [windowSlots]. *)
Context (cap window : nat).
(** The header's record count, and the skipped records known when the
    aggregator starts. *)
Context (totalExpected : nat) (skipped : list nat).

Definition next_record (s : pipeline) : option (res E RecordMetadata) :=
  if p_cancelled s then Some (Err ctx_err) else iter (p_read s).

Definition count_answer (a : action) (st : ExtractionStats) : ExtractionStats :=
  match a with
  | Answer r => match wr_Error r with Some _ => IncrementFailed st | None => st end
  | ToWorkers _ => st
  end.
Definition count_skip (a : action) (st : ExtractionStats) : ExtractionStats :=
  match a with
  | Answer r => if wr_Skipped r then IncrementSkipped st else st
  | ToWorkers _ => st
  end.
Definition count_extracted (r : WorkResult) (st : ExtractionStats) : ExtractionStats :=
  match wr_Error r with Some _ => IncrementFailed st | None => IncrementProcessed st end.

Definition set_sched (s : pipeline) (read : nat) (at_ : sched_at) (slots : nat) (st : ExtractionStats) : pipeline :=
  {| p_read := read; p_sched := at_; p_slots := slots; p_work := p_work s; p_workers := p_workers s;
     p_results := p_results s; p_closed := p_closed s; p_agg := p_agg s; p_agg_at := p_agg_at s;
     p_out := p_out s; p_stats := st; p_cancelled := p_cancelled s |}.
Definition set_chans (s : pipeline) (work : list WorkItem) (workers : list worker_at)
    (results : list WorkResult) (closed : bool) (st : ExtractionStats) : pipeline :=
  {| p_read := p_read s; p_sched := p_sched s; p_slots := p_slots s; p_work := work; p_workers := workers;
     p_results := results; p_closed := closed; p_agg := p_agg s; p_agg_at := p_agg_at s;
     p_out := p_out s; p_stats := st; p_cancelled := p_cancelled s |}.
Definition set_agg (s : pipeline) (slots : nat) (results : list WorkResult) (agg : ResultAggregator)
    (at_ : agg_at) (out : list WorkResult) : pipeline :=
  {| p_read := p_read s; p_sched := p_sched s; p_slots := slots; p_work := p_work s; p_workers := p_workers s;
     p_results := results; p_closed := p_closed s; p_agg := agg; p_agg_at := at_;
     p_out := out; p_stats := p_stats s; p_cancelled := p_cancelled s |}.
Definition set_cancelled (s : pipeline) : pipeline :=
  {| p_read := p_read s; p_sched := p_sched s; p_slots := p_slots s; p_work := p_work s; p_workers := p_workers s;
     p_results := p_results s; p_closed := p_closed s; p_agg := p_agg s; p_agg_at := p_agg_at s;
     p_out := p_out s; p_stats := p_stats s; p_cancelled := true |}.

Inductive step (s : pipeline) : pipeline → Prop :=
(* scheduleWorkStreaming *)
| step_check :
    p_sched s = SLoop → p_cancelled s = false →
    step s (set_sched s (p_read s) SChecked (p_slots s) (p_stats s))
| step_stop :
    p_sched s = SLoop → p_cancelled s = true →
    step s (set_sched s (p_read s) SReturned (p_slots s) (p_stats s))
| step_eof :
    p_sched s = SChecked → next_record s = None →
    step s (set_sched s (p_read s) SReturned (p_slots s) (p_stats s))
| step_next r :
    p_sched s = SChecked → next_record s = Some r →
    step s (set_sched s (S (p_read s)) (SWaiting (schedule opts (S (p_read s)) r)) (p_slots s) (p_stats s))
| step_acquire a :
    p_sched s = SWaiting a → p_slots s < window →
    step s (set_sched s (p_read s) (SSending a) (S (p_slots s)) (count_skip a (p_stats s)))
| step_give_up a :
    p_sched s = SWaiting a → p_cancelled s = true →
    step s (set_sched s (p_read s) SReturned (p_slots s) (p_stats s))
| step_send_work item :
    p_sched s = SSending (ToWorkers item) → length (p_work s) < cap →
    step s (set_chans (set_sched s (p_read s) SLoop (p_slots s) (p_stats s))
              (p_work s ++ [item]) (p_workers s) (p_results s) (p_closed s) (p_stats s))
| step_send_answer r :
    p_sched s = SSending (Answer r) → length (p_results s) < cap → p_closed s = false →
    step s (set_chans (set_sched s (p_read s) SLoop (p_slots s) (p_stats s))
              (p_work s) (p_workers s) (p_results s ++ [r]) false (count_answer (Answer r) (p_stats s)))
| step_abandon a :
    p_sched s = SSending a → p_cancelled s = true →
    step s (set_sched s (p_read s) SReturned (pred (p_slots s)) (p_stats s))
(* Worker *)
| step_receive ws1 ws2 item work :
    p_workers s = ws1 ++ WReceiving :: ws2 → p_work s = item :: work →
    step s (set_chans s work (ws1 ++ WExtracting item :: ws2) (p_results s) (p_closed s) (p_stats s))
| step_extract ws1 ws2 item :
    p_workers s = ws1 ++ WExtracting item :: ws2 →
    step s (set_chans s (p_work s) (ws1 ++ WSending (ExtractRecord item) :: ws2) (p_results s) (p_closed s)
              (count_extracted (ExtractRecord item) (p_stats s)))
| step_deliver ws1 ws2 r :
    p_workers s = ws1 ++ WSending r :: ws2 → length (p_results s) < cap → p_closed s = false →
    step s (set_chans s (p_work s) (ws1 ++ WReceiving :: ws2) (p_results s ++ [r]) false (p_stats s))
| step_exit ws1 ws2 :
    p_workers s = ws1 ++ WReceiving :: ws2 → p_work s = [] → p_sched s = SReturned →
    step s (set_chans s [] (ws1 ++ WReturned :: ws2) (p_results s) (p_closed s) (p_stats s))
(* wg.Wait, CloseResultChannel *)
| step_close :
    Forall (λ w, w = WReturned) (p_workers s) → p_closed s = false →
    step s (set_chans s (p_work s) (p_workers s) (p_results s) true (p_stats s))
(* Collect, Add *)
| step_collect r rest :
    p_agg_at s = AReceiving → p_results s = r :: rest →
    step s (set_agg s (p_slots s) rest (ra_store (p_agg s) r) AEmitting (p_out s))
| step_emit r agg :
    p_agg_at s = AEmitting → ra_emit (p_agg s) = Some (r, agg) →
    step s (set_agg s (pred (p_slots s)) (p_results s) agg AEmitting (p_out s ++ [r]))
| step_stall :
    p_agg_at s = AEmitting → ra_emit (p_agg s) = None →
    step s (set_agg s (p_slots s) (p_results s) (p_agg s) AReceiving (p_out s))
| step_drain :
    p_agg_at s = AReceiving → p_results s = [] → p_closed s = true →
    step s (set_agg s (p_slots s) [] (p_agg s) ADraining (p_out s))
| step_drain_skipped :
    p_agg_at s = ADraining → ra_nextExpected (p_agg s) ≤ totalExpected →
    ra_nextExpected (p_agg s) ∈ skipped →
    step s (set_agg s (pred (p_slots s)) (p_results s) (ra_pass (p_agg s)) ADraining (p_out s))
| step_drain_emit r agg :
    p_agg_at s = ADraining → ra_nextExpected (p_agg s) ≤ totalExpected →
    ra_nextExpected (p_agg s) ∉ skipped → ra_emit (p_agg s) = Some (r, agg) →
    step s (set_agg s (pred (p_slots s)) (p_results s) agg ADraining (p_out s ++ [r]))
| step_drain_missing :
    p_agg_at s = ADraining → ra_nextExpected (p_agg s) ≤ totalExpected →
    ra_nextExpected (p_agg s) ∉ skipped → ra_emit (p_agg s) = None →
    step s (set_agg s (p_slots s) (p_results s) (ra_pass (p_agg s)) ADraining (p_out s))
| step_finish :
    p_agg_at s = ADraining → totalExpected < ra_nextExpected (p_agg s) →
    step s (set_agg s (p_slots s) (p_results s) (p_agg s) AReturned (p_out s)).

(** What can happen next: a step, or a cancellation from outside. *)
Inductive move (s : pipeline) : pipeline → Prop :=
| move_step s' : step s s' → move s s'
| move_cancel : p_cancelled s = false → move s (set_cancelled s).

(** The state behind [ScheduleWork], the start of [workers] workers and
    [Collect]. *)
Definition start (workers : nat) : pipeline := {|
  p_read := 0; p_sched := SLoop; p_slots := 0; p_work := []; p_workers := replicate workers WReceiving;
  p_results := []; p_closed := false; p_agg := NewResultAggregator; p_agg_at := AReceiving;
  p_out := []; p_stats := {| st_Processed := 0; st_Skipped := 0; st_Failed := 0 |};
  p_cancelled := false;
|}.

Definition reachable (workers : nat) (s : pipeline) : Prop := rtc move (start workers) s.

(** ** The caller

    [Extract] keeps the data of the results that are neither skipped nor in
    error, and fails when any record failed. *)
Definition collect (out : list WorkResult) : list (option D) :=
  omap (λ r, if wr_Skipped r then None else match wr_Error r with Some _ => None | None => Some (wr_Data r) end) out.
Definition extract_outcome (s : pipeline) : list (option D) * option nat :=
  (collect (p_out s), let failed := st_Failed (p_stats s) in if failed =? 0 then None else Some failed).
End results.
Arguments WorkResult : clear implicits.
Arguments action : clear implicits.
Arguments pipeline : clear implicits.
Arguments ResultAggregator : clear implicits.
Arguments worker_at : clear implicits.
Arguments sched_at : clear implicits.
