(* ===== verification/ParPipeSpec.v ===== *)
(** * The parallel pipeline delivers every record once, in order, and ends

    The invariant follows the results promised for the records scheduled so
    far: those not yet delivered are in flight, each exactly once, and hold
    one window slot each. *)
From Stdlib Require Import ZArith Lia.
From stdpp Require Import base strings list gmap relations.
From S2P Require Import Prelude IndexHeader ParPipe.

Section spec.
Context {D E : Type} (sched_err : sched_error (E := E) → E) (opts : ExtractionOptions).
Context (ExtractRecord : WorkItem → WorkResult D E).
Context (iter : nat → option (res E RecordMetadata)) (ctx_err : E).
Context (cap window totalExpected : nat) (skipped : list nat) (workers : nat).
Notation WorkResult := (WorkResult D E).
Notation pipeline := (pipeline D E).
Notation step := (step sched_err opts ExtractRecord iter ctx_err cap window totalExpected skipped).
Notation move := (move sched_err opts ExtractRecord iter ctx_err cap window totalExpected skipped).
Notation reachable := (reachable sched_err opts ExtractRecord iter ctx_err cap window totalExpected skipped workers).
Notation schedule := (schedule sched_err opts).
Implicit Types (s : pipeline) (sent : list WorkResult).

(** ** Results in flight *)

(** The result an action comes to. *)
Definition promise (a : action D E) : WorkResult :=
  match a with ToWorkers item => ExtractRecord item | Answer r => r end.
Definition worker_flight (w : worker_at D E) : list WorkResult :=
  match w with WExtracting item => [ExtractRecord item] | WSending r => [r] | _ => [] end.
Definition sched_flight (at_ : sched_at D E) : list WorkResult :=
  match at_ with SSending a => [promise a] | _ => [] end.
Definition buffered (ra : ResultAggregator D E) : list WorkResult := (map_to_list (ra_results ra)).*2.

Definition flight s : list WorkResult :=
  sched_flight (p_sched s) ++ (ExtractRecord <$> p_work s) ++ (p_workers s ≫= worker_flight)
    ++ p_results s ++ buffered (p_agg s).

(** Records are numbered from one in index order, and a worker answers under
    the number of its item. *)
Hypothesis numbered_records : ∀ i r, iter i = Some (Ok r) →
  (rm_RecordNum r ≤ 0)%Z ∨ rm_RecordNum r = Z.of_nat (S i).
Hypothesis numbered_results : ∀ item, wr_RecordNum (ExtractRecord item) = wi_RecordNum item.

(** The result of the [i]-th record, from zero; and the one a cancelled run
    can give it instead. *)
Definition result_of (i : nat) : option WorkResult := promise ∘ schedule (S i) <$> iter i.
Definition late_result (i : nat) : WorkResult := promise (schedule (S i) (Err ctx_err)).

Lemma schedule_number i r :
  (match r with Ok rec => (rm_RecordNum rec ≤ 0)%Z ∨ rm_RecordNum rec = Z.of_nat (S i) | Err _ => True end) →
  wr_RecordNum (promise (schedule (S i) r)) = S i.
Proof.
  destruct r as [rec|e]; [|done]. intros Hr. unfold schedule.
  assert (record_number (S i) rec = S i) as Hn.
  { unfold record_number. destruct (Z.leb_spec (rm_RecordNum rec) 0); [done|]. destruct Hr as [|Hr]; lia. }
  rewrite Hn. destruct (_ && _); [destruct (SkipLargeRecords opts); done|]. cbn. by rewrite numbered_results.
Qed.
Lemma result_number i r : result_of i = Some r → wr_RecordNum r = S i.
Proof.
  unfold result_of. intros (x & Hit & ->)%fmap_Some. apply schedule_number.
  destruct x; [by apply numbered_records|done].
Qed.
Lemma late_number i : wr_RecordNum (late_result i) = S i.
Proof. by apply schedule_number. Qed.

(** ** The invariant *)
Definition good_result (cancelled : bool) (i : nat) (r : WorkResult) : Prop :=
  result_of i = Some r ∨ (cancelled = true ∧ r = late_result i).

Definition sched_inv s sent : Prop :=
  match p_sched s with
  | SLoop | SChecked => p_read s = length sent
  | SWaiting a => p_read s = S (length sent) ∧ good_result (p_cancelled s) (length sent) (promise a)
  | SSending a => p_read s = length sent ∧ last sent = Some (promise a)
  | SReturned => p_cancelled s = true ∨ iter (length sent) = None
  end.

Definition agg_inv s : Prop :=
  1 ≤ ra_nextExpected (p_agg s) ∧
  (∀ k r, ra_results (p_agg s) !! k = Some r → wr_RecordNum r = k) ∧
  match p_agg_at s with
  | AEmitting => True
  | AReceiving => ra_results (p_agg s) !! ra_nextExpected (p_agg s) = None
  | ADraining => p_results s = [] ∧ p_closed s = true ∧
                 ra_results (p_agg s) !! ra_nextExpected (p_agg s) = None
  | AReturned => p_results s = [] ∧ p_closed s = true ∧
                 ra_results (p_agg s) !! ra_nextExpected (p_agg s) = None ∧
                 totalExpected < ra_nextExpected (p_agg s)
  end.

Definition pool_inv s : Prop :=
  length (p_workers s) = workers ∧
  (WReturned ∈ p_workers s → p_sched s = SReturned ∧ p_work s = []) ∧
  (p_closed s = true → Forall (λ w, w = WReturned) (p_workers s)).

Record inv s sent : Prop := {
  i_flight : flight s ≡ₚ drop (pred (ra_nextExpected (p_agg s))) sent;
  i_out : p_out s = take (pred (ra_nextExpected (p_agg s))) sent;
  i_sent : ∀ i r, sent !! i = Some r → good_result (p_cancelled s) i r;
  i_next : match p_agg_at s with
           | AReceiving | AEmitting => pred (ra_nextExpected (p_agg s)) ≤ length sent
           | _ => True
           end;
  i_slots : p_slots s = length (flight s);
  i_window : p_slots s ≤ window;
  i_sched : sched_inv s sent;
  i_agg : agg_inv s;
  i_pool : pool_inv s;
}.

Lemma good_number c i r : good_result c i r → wr_RecordNum r = S i.
Proof. intros [H|[_ ->]]; [by apply result_number|by apply late_number]. Qed.
Lemma good_mono i r c : good_result c i r → good_result true i r.
Proof. intros [H|[_ ->]]; [by left|by right]. Qed.

(** A result in flight is one of those promised and not yet delivered. *)
Lemma in_flight s sent r :
  inv s sent → r ∈ flight s →
  ∃ i, sent !! i = Some r ∧ wr_RecordNum r = S i ∧ ra_nextExpected (p_agg s) ≤ S i.
Proof.
  intros Hi Hr. rewrite (i_flight _ _ Hi) in Hr. apply list_elem_of_lookup in Hr as [j Hj].
  rewrite lookup_drop in Hj. exists (pred (ra_nextExpected (p_agg s)) + j).
  split_and!; [done|by eapply good_number, i_sent|lia].
Qed.

Lemma buffered_store ra r :
  ra_results ra !! wr_RecordNum r = None → buffered (ra_store ra r) ≡ₚ r :: buffered ra.
Proof.
  intros H. unfold buffered, ra_store. cbn [ra_results]. by rewrite map_to_list_insert.
Qed.
Lemma ra_emit_Some ra r ra' :
  ra_emit ra = Some (r, ra') →
  ra_results ra !! ra_nextExpected ra = Some r ∧ ra_nextExpected ra' = S (ra_nextExpected ra) ∧
  ra_results ra' = delete (ra_nextExpected ra) (ra_results ra) ∧
  buffered ra ≡ₚ r :: buffered ra'.
Proof.
  unfold ra_emit. destruct (ra_results ra !! ra_nextExpected ra) as [x|] eqn:Hx; [|done].
  intros [= <- <-]. split_and!; try done. unfold buffered. cbn [ra_results].
  by rewrite <- (map_to_list_delete (ra_results ra)) by done.
Qed.

(** The buffer does not already hold a result in flight elsewhere. *)
Lemma fresh_key s sent r L :
  inv s sent → flight s ≡ₚ r :: L ++ buffered (p_agg s) →
  ra_results (p_agg s) !! wr_RecordNum r = None.
Proof.
  intros Hi Hf. destruct (ra_results (p_agg s) !! wr_RecordNum r) as [r'|] eqn:Hb; [|done]. exfalso.
  assert (r' ∈ buffered (p_agg s)) as Hin.
  { unfold buffered. apply list_elem_of_fmap. exists (wr_RecordNum r, r'). split; [done|].
    by apply elem_of_map_to_list. }
  destruct (i_agg _ _ Hi) as (_ & Hk & _). pose proof (Hk _ _ Hb) as Hn.
  assert (NoDup (wr_RecordNum <$> flight s)) as Hnd.
  { rewrite (i_flight _ _ Hi). apply NoDup_fmap_2_strong.
    - intros x y (i & Hx)%list_elem_of_lookup (j & Hy)%list_elem_of_lookup Heq.
      rewrite lookup_drop in Hx, Hy. pose proof (good_number _ _ _ (i_sent _ _ Hi _ _ Hx)).
      pose proof (good_number _ _ _ (i_sent _ _ Hi _ _ Hy)). assert (i = j) by lia. subst. congruence.
    - apply NoDup_alt. intros i j x Hx Hy. rewrite lookup_drop in Hx, Hy.
      pose proof (good_number _ _ _ (i_sent _ _ Hi _ _ Hx)).
      pose proof (good_number _ _ _ (i_sent _ _ Hi _ _ Hy)). lia. }
  rewrite Hf in Hnd. cbn [fmap list_fmap] in Hnd. apply NoDup_cons in Hnd as [Hni _]. apply Hni.
  rewrite fmap_app. apply elem_of_app. right. rewrite <- Hn. by apply list_elem_of_fmap_2.
Qed.

Lemma start_flight : flight (start workers) = [].
Proof.
  unfold flight, buffered, start. cbn [p_sched p_work p_workers p_results p_agg NewResultAggregator ra_results
    sched_flight fmap list_fmap app]. rewrite map_to_list_empty. cbn [fmap list_fmap]. rewrite !app_nil_r.
  induction workers as [|n IH]; [done|exact IH].
Qed.
Lemma start_inv : inv (start workers) [].
Proof.
  constructor.
  - by rewrite start_flight.
  - done.
  - intros i r. by rewrite lookup_nil.
  - cbn. lia.
  - by rewrite start_flight.
  - cbn. lia.
  - done.
  - split_and!; [cbn; lia|intros k r Hk; cbn in Hk; by rewrite lookup_empty in Hk|cbn; apply lookup_empty].
  - split_and!; [by apply length_replicate| |done]. intros Hin%elem_of_replicate. by destruct Hin.
Qed.

(** ** Every step keeps the invariant *)
Hypothesis some_worker : 0 < workers.

Lemma not_closed s sent w :
  inv s sent → w ∈ p_workers s → w ≠ WReturned → p_closed s = false.
Proof.
  intros Hi Hin Hw. destruct (p_closed s) eqn:Hc; [|done].
  destruct (i_pool _ _ Hi) as (_ & _ & Hall). specialize (Hall Hc). rewrite Forall_forall in Hall.
  by apply Hall in Hin.
Qed.
Lemma closed_returned s sent : inv s sent → p_closed s = true → p_sched s = SReturned ∧ p_work s = [].
Proof.
  intros Hi Hc. destruct (i_pool _ _ Hi) as (Hl & Hret & Hall). specialize (Hall Hc). apply Hret.
  destruct (p_workers s) as [|w ws]; [cbn in Hl; lia|]. apply Forall_cons in Hall as [-> _]. left.
Qed.
(** Before the scheduler has returned nobody drains. *)
Lemma next_le s sent : inv s sent → p_sched s ≠ SReturned → pred (ra_nextExpected (p_agg s)) ≤ length sent.
Proof.
  intros Hi Hs. pose proof (i_next _ _ Hi) as Hn. destruct (i_agg _ _ Hi) as (_ & _ & Ha).
  destruct (p_agg_at s); [done|done|..]; destruct Ha as (_ & Hc & _);
    by destruct (closed_returned _ _ Hi Hc).
Qed.

(** The scheduler moves without touching a result. *)
Lemma inv_sched s sent read at_ st :
  inv s sent → p_sched s ≠ SReturned → sched_flight at_ = [] → sched_flight (p_sched s) = [] →
  sched_inv (set_sched s read at_ (p_slots s) st) sent →
  inv (set_sched s read at_ (p_slots s) st) sent.
Proof.
  intros Hi Hs Hat Hold Hsched. destruct Hi as [Hfl Hout Hsent Hnext Hsl Hwin _ Hagg (Hlen & Hret & Hall)].
  assert (flight (set_sched s read at_ (p_slots s) st) = flight s) as Hf.
  { unfold flight. cbn [set_sched p_sched p_work p_workers p_results p_agg]. by rewrite Hat, Hold. }
  constructor; rewrite ?Hf; try done. split_and!; [done| |done]. intros Hin.
  by destruct (Hret Hin).
Qed.

Lemma inv_acquire s sent a st :
  inv s sent → p_sched s = SWaiting a → p_slots s < window →
  inv (set_sched s (p_read s) (SSending a) (S (p_slots s)) st) (sent ++ [promise a]).
Proof.
  intros Hi Ha Hw. assert (pred (ra_nextExpected (p_agg s)) ≤ length sent) as Hle
    by (apply next_le; [done|by rewrite Ha]).
  destruct Hi as [Hfl Hout Hsent Hnext Hsl Hwin Hsched Hagg (Hlen & Hret & Hall)].
  unfold sched_inv in Hsched. rewrite Ha in Hsched. destruct Hsched as [Hread Hgood].
  assert (flight (set_sched s (p_read s) (SSending a) (S (p_slots s)) st) = promise a :: flight s) as Hf.
  { unfold flight. cbn [set_sched p_sched p_work p_workers p_results p_agg]. by rewrite Ha. }
  constructor; rewrite ?Hf; cbn [set_sched p_agg p_out p_cancelled p_agg_at p_slots p_workers p_closed]; try done.
  - rewrite drop_app_le, Hfl by done. solve_Permutation.
  - rewrite take_app_le by done. done.
  - intros i r Hr. apply lookup_snoc_Some in Hr as [[_ Hr]|[-> <-]]; [by apply Hsent|done].
  - destruct (p_agg_at s); rewrite ?length_app; cbn; try done; lia.
  - cbn. by rewrite Hsl.
  - unfold sched_inv. cbn [set_sched p_sched p_read]. rewrite length_app, last_snoc. cbn. split; [lia|done].
  - split_and!; [done| |done]. intros Hin. destruct (Hret Hin). congruence.
Qed.

(** A result moves between the channels and the pool. *)
Lemma inv_move s s' sent :
  inv s sent → flight s' ≡ₚ flight s → p_out s' = p_out s → p_agg s' = p_agg s → p_agg_at s' = p_agg_at s →
  p_slots s' = p_slots s → p_cancelled s' = p_cancelled s → sched_inv s' sent → agg_inv s' → pool_inv s' →
  inv s' sent.
Proof.
  intros [Hfl Hout Hsent Hnext Hsl Hwin Hsched Hagg Hpool] Hf Ho Ha Hat Hs Hc Hsched' Hagg' Hpool'.
  constructor; rewrite ?Ho, ?Ha, ?Hat, ?Hs, ?Hc; try done; [by rewrite Hf|by rewrite Hf].
Qed.

(** An abandoned record was the last one promised. *)
Lemma inv_abandon s sent a st :
  inv s sent → p_sched s = SSending a → p_cancelled s = true →
  inv (set_sched s (p_read s) SReturned (pred (p_slots s)) st) (take (pred (length sent)) sent).
Proof.
  intros Hi Ha Hc. assert (pred (ra_nextExpected (p_agg s)) ≤ length sent) as Hle
    by (apply next_le; [done|by rewrite Ha]).
  destruct Hi as [Hfl Hout Hsent Hnext Hsl Hwin Hsched Hagg (Hlen & Hret & Hall)].
  unfold sched_inv in Hsched. rewrite Ha in Hsched. destruct Hsched as [Hread Hlast].
  destruct sent as [|x0 sent0 _] using rev_ind; [done|]. rewrite last_snoc in Hlast. injection Hlast as ->.
  rewrite length_app in *. cbn [length] in *. replace (pred (length sent0 + 1)) with (length sent0) by lia.
  rewrite take_app_length.
  assert (flight s = promise a :: flight (set_sched s (p_read s) SReturned (pred (p_slots s)) st)) as Hf.
  { unfold flight. cbn [set_sched p_sched p_work p_workers p_results p_agg]. by rewrite Ha. }
  assert (pred (ra_nextExpected (p_agg s)) ≤ length sent0) as Hle'.
  { destruct (decide (pred (ra_nextExpected (p_agg s)) = length sent0 + 1)) as [Heq|]; [|lia].
    rewrite drop_ge in Hfl by (rewrite length_app; cbn; lia). rewrite Hf in Hfl. by apply Permutation_nil_r in Hfl. }
  constructor; cbn [set_sched p_agg p_out p_cancelled p_agg_at p_slots p_workers p_closed]; try done.
  - rewrite Hf, drop_app_le in Hfl by done. apply (Permutation_cons_inv (a := promise a)).
    rewrite Hfl. solve_Permutation.
  - by rewrite take_app_le in Hout.
  - intros i r Hr. apply Hsent. by apply lookup_app_l_Some.
  - destruct (p_agg_at s); done.
  - rewrite Hsl, Hf. done.
  - lia.
  - left. done.
  - split_and!; [done| |done]. intros Hin. destruct (Hret Hin). congruence.
Qed.

Lemma flight_set_chans s work ws results closed st :
  flight (set_chans s work ws results closed st)
  = sched_flight (p_sched s) ++ (ExtractRecord <$> work) ++ (ws ≫= worker_flight) ++ results ++ buffered (p_agg s).
Proof. done. Qed.

(** The pool after one worker has moved. *)
Lemma pool_move s work ws1 w w' ws2 results closed st :
  pool_inv s → p_workers s = ws1 ++ w :: ws2 → w ≠ WReturned → w' ≠ WReturned →
  (p_work s = [] → work = []) →
  (closed = true → p_closed s = true) →
  pool_inv (set_chans s work (ws1 ++ w' :: ws2) results closed st).
Proof.
  intros (Hlen & Hret & Hall) Hws Hw Hw' Hwork Hclosed. rewrite Hws in *. split_and!; cbn.
  - rewrite <- Hlen, !length_app. done.
  - intros Hin. destruct Hret as [H1 H2]; [|by split; [|apply Hwork]]. apply elem_of_app.
    apply elem_of_app in Hin as [Hin|[Heq|Hin]%elem_of_cons]; [by left|congruence|right; by right].
  - intros Hc. exfalso. specialize (Hall (Hclosed Hc)). apply Forall_app in Hall as [_ Hall].
    by apply Forall_cons in Hall as [? _].
Qed.

Ltac flight_eq :=
  rewrite ?flight_set_chans; unfold flight;
  cbn [set_chans set_sched p_sched p_work p_workers p_results p_agg sched_flight worker_flight promise];
  repeat match goal with H : p_workers _ = _ |- _ => rewrite H | H : p_work _ = _ |- _ => rewrite H end;
  rewrite ?fmap_app, ?bind_app;
  cbn [fmap list_fmap mbind list_bind worker_flight app];
  repeat match goal with |- context [list_bind _ _ ?f ?l] => change (list_bind _ _ f l) with (l ≫= f) end;
  rewrite ?app_nil_r; try solve_Permutation.

(** The aggregator's part does not look at the work channel or the pool. *)
Lemma agg_move s work ws results closed st :
  agg_inv s → p_closed s = false → agg_inv (set_chans s work ws results closed st).
Proof.
  intros (H1 & H2 & H3) Hc. split_and!; [done|done|]. cbn. destruct (p_agg_at s); try done;
    destruct H3 as (_ & Hc' & _); congruence.
Qed.
Lemma sched_move s sent work ws results closed st :
  sched_inv s sent → sched_inv (set_chans s work ws results closed st) sent.
Proof. done. Qed.

Lemma inv_send s sent a work results :
  inv s sent → p_sched s = SSending a →
  (ExtractRecord <$> work) ++ results ≡ₚ promise a :: (ExtractRecord <$> p_work s) ++ p_results s →
  ∀ st st', inv (set_chans (set_sched s (p_read s) SLoop (p_slots s) st) work (p_workers s) results (p_closed s) st') sent.
Proof.
  intros Hi Ha Hp st st'. assert (p_closed s = false) as Hc.
  { destruct (p_closed s) eqn:Hc; [|done]. destruct (closed_returned _ _ Hi Hc). congruence. }
  destruct (i_pool _ _ Hi) as (Hlen & Hret & Hall). pose proof (i_sched _ _ Hi) as Hs.
  unfold sched_inv in Hs. rewrite Ha in Hs.
  apply (inv_move s); try done.
  - unfold flight. cbn [set_chans set_sched p_sched p_work p_workers p_results p_agg sched_flight].
    rewrite Ha. cbn [sched_flight app].
    transitivity ((p_workers s ≫= worker_flight) ++ buffered (p_agg s) ++ ((ExtractRecord <$> work) ++ results));
      [solve_Permutation|]. rewrite Hp. solve_Permutation.
  - by destruct Hs.
  - destruct (i_agg _ _ Hi) as (H1 & H2 & H3). split_and!; [done|done|]. cbn.
    destruct (p_agg_at s); try done; destruct H3 as (_ & Hc' & _); congruence.
  - split_and!; [done| |cbn; congruence]. intros Hin. destruct (Hret Hin). congruence.
Qed.

Lemma inv_receive s sent ws1 ws2 item work st :
  inv s sent → p_workers s = ws1 ++ WReceiving :: ws2 → p_work s = item :: work →
  inv (set_chans s work (ws1 ++ WExtracting item :: ws2) (p_results s) (p_closed s) st) sent.
Proof.
  intros Hi Hws Hwk. assert (p_closed s = false) as Hc.
  { eapply not_closed; [done|rewrite Hws; apply elem_of_app; right; left|done]. }
  apply (inv_move s); try done; [by flight_eq|by apply Hi|by apply agg_move, Hc; apply Hi|].
  eapply pool_move; [apply Hi|done|done|done|congruence|done].
Qed.
Lemma inv_extract s sent ws1 ws2 item st :
  inv s sent → p_workers s = ws1 ++ WExtracting item :: ws2 →
  inv (set_chans s (p_work s) (ws1 ++ WSending (ExtractRecord item) :: ws2) (p_results s) (p_closed s) st) sent.
Proof.
  intros Hi Hws. assert (p_closed s = false) as Hc.
  { eapply not_closed; [done|rewrite Hws; apply elem_of_app; right; left|done]. }
  apply (inv_move s); try done; [by flight_eq|by apply Hi|by apply agg_move, Hc; apply Hi|].
  eapply pool_move; [apply Hi|done|done|done|done|done].
Qed.
Lemma inv_deliver s sent ws1 ws2 r st :
  inv s sent → p_workers s = ws1 ++ WSending r :: ws2 → p_closed s = false →
  inv (set_chans s (p_work s) (ws1 ++ WReceiving :: ws2) (p_results s ++ [r]) false st) sent.
Proof.
  intros Hi Hws Hc.
  apply (inv_move s); try done; [by flight_eq|by apply Hi|by apply agg_move, Hc; apply Hi|].
  eapply pool_move; [apply Hi|done|done|done|done|done].
Qed.
Lemma inv_exit s sent ws1 ws2 st :
  inv s sent → p_workers s = ws1 ++ WReceiving :: ws2 → p_work s = [] → p_sched s = SReturned →
  inv (set_chans s [] (ws1 ++ WReturned :: ws2) (p_results s) (p_closed s) st) sent.
Proof.
  intros Hi Hws Hwk Hs. assert (p_closed s = false) as Hc.
  { eapply not_closed; [done|rewrite Hws; apply elem_of_app; right; left|done]. }
  apply (inv_move s); try done; [by flight_eq|by apply Hi|by apply agg_move, Hc; apply Hi|].
  destruct (i_pool _ _ Hi) as (Hlen & Hret & Hall). rewrite Hws in *. split_and!; cbn.
  - rewrite <- Hlen, !length_app. done.
  - done.
  - congruence.
Qed.
Lemma inv_close s sent st :
  inv s sent → Forall (λ w, w = WReturned) (p_workers s) → p_closed s = false →
  inv (set_chans s (p_work s) (p_workers s) (p_results s) true st) sent.
Proof.
  intros Hi Hws Hc. apply (inv_move s); try done; [by apply Hi|by apply agg_move, Hc; apply Hi|].
  destruct (i_pool _ _ Hi) as (Hlen & Hret & Hall). split_and!; [done..|]. by intros _.
Qed.

(** *** The aggregator *)
Lemma flight_set_agg s slots results agg at_ out :
  flight (set_agg s slots results agg at_ out)
  = sched_flight (p_sched s) ++ (ExtractRecord <$> p_work s) ++ (p_workers s ≫= worker_flight) ++ results ++ buffered agg.
Proof. done. Qed.

Lemma inv_collect s sent r rest :
  inv s sent → p_agg_at s = AReceiving → p_results s = r :: rest →
  inv (set_agg s (p_slots s) rest (ra_store (p_agg s) r) AEmitting (p_out s)) sent.
Proof.
  intros Hi Hat Hr. assert (ra_results (p_agg s) !! wr_RecordNum r = None) as Hfresh.
  { apply (fresh_key s sent r (sched_flight (p_sched s) ++ (ExtractRecord <$> p_work s)
      ++ (p_workers s ≫= worker_flight) ++ rest)); [done|].
    unfold flight. rewrite Hr. solve_Permutation. }
  assert (flight (set_agg s (p_slots s) rest (ra_store (p_agg s) r) AEmitting (p_out s)) ≡ₚ flight s) as Hf.
  { rewrite flight_set_agg, buffered_store by done. unfold flight. rewrite Hr. solve_Permutation. }
  destruct Hi as [Hfl Hout Hsent Hnext Hsl Hwin Hsched (H1 & H2 & _) Hpool].
  constructor; rewrite ?Hf; try done.
  - cbn. by rewrite Hat in Hnext.
  - split_and!; [done| |done]. intros k x. cbn. intros [[<- <-]|[_ Hx]]%lookup_insert_Some; [done|by apply H2].
Qed.

Lemma inv_emit s sent r agg :
  inv s sent → p_agg_at s = AEmitting → ra_emit (p_agg s) = Some (r, agg) →
  inv (set_agg s (pred (p_slots s)) (p_results s) agg AEmitting (p_out s ++ [r])) sent.
Proof.
  intros Hi Hat Hem. apply ra_emit_Some in Hem as (Hb & Hn & Hm & Hbuf).
  assert (flight s ≡ₚ r :: flight (set_agg s (pred (p_slots s)) (p_results s) agg AEmitting (p_out s ++ [r]))) as Hf.
  { rewrite flight_set_agg. unfold flight. rewrite Hbuf. solve_Permutation. }
  destruct (in_flight s sent r Hi) as (i & Hs & Hnum & _); [rewrite Hf; left|].
  destruct Hi as [Hfl Hout Hsent Hnext Hsl Hwin Hsched (H1 & H2 & _) Hpool].
  pose proof (H2 _ _ Hb) as Hk. assert (i = pred (ra_nextExpected (p_agg s))) as -> by lia.
  assert (pred (ra_nextExpected agg) = S (pred (ra_nextExpected (p_agg s)))) as Hpn by lia.
  constructor; cbn [set_agg p_agg p_out p_cancelled p_agg_at p_slots]; rewrite ?Hpn; try done.
  - rewrite Hf, (drop_S _ _ _ Hs) in Hfl. by apply Permutation_cons_inv in Hfl.
  - by rewrite (take_S_r _ _ _ Hs), <- Hout.
  - apply lookup_lt_Some in Hs. lia.
  - rewrite Hsl, Hf. done.
  - lia.
  - split_and!; [cbn; lia| |done]. cbn. rewrite Hm. intros k x [_ Hx]%lookup_delete_Some. by apply H2.
Qed.

Lemma inv_stall s sent :
  inv s sent → p_agg_at s = AEmitting → ra_emit (p_agg s) = None →
  inv (set_agg s (p_slots s) (p_results s) (p_agg s) AReceiving (p_out s)) sent.
Proof.
  intros [Hfl Hout Hsent Hnext Hsl Hwin Hsched (H1 & H2 & _) Hpool] Hat Hem.
  constructor; try done; cbn; [by rewrite Hat in Hnext|]. split_and!; [done|done|]. cbn.
  unfold ra_emit in Hem. by destruct (ra_results (p_agg s) !! ra_nextExpected (p_agg s)).
Qed.

Lemma inv_drain s sent :
  inv s sent → p_agg_at s = AReceiving → p_results s = [] → p_closed s = true →
  inv (set_agg s (p_slots s) [] (p_agg s) ADraining (p_out s)) sent.
Proof.
  intros [Hfl Hout Hsent Hnext Hsl Hwin Hsched (H1 & H2 & H3) Hpool] Hat Hr Hc. rewrite Hat in H3.
  assert (flight (set_agg s (p_slots s) [] (p_agg s) ADraining (p_out s)) = flight s) as Hf.
  { rewrite flight_set_agg. unfold flight. by rewrite Hr. }
  constructor; rewrite ?Hf; try done.
Qed.

(** Nothing is left in flight when the results have ended. *)
Lemma drained s sent :
  inv s sent → p_results s = [] → p_closed s = true →
  ra_results (p_agg s) !! ra_nextExpected (p_agg s) = None →
  flight s = [] ∧ length sent ≤ pred (ra_nextExpected (p_agg s)).
Proof.
  intros Hi Hr Hc Hb. destruct (closed_returned _ _ Hi Hc) as [Hs Hw].
  destruct (i_pool _ _ Hi) as (_ & _ & Hall). specialize (Hall Hc).
  assert (flight s = buffered (p_agg s)) as Hf.
  { unfold flight. rewrite Hs, Hw, Hr. cbn [sched_flight fmap list_fmap app].
    assert (p_workers s ≫= worker_flight = []) as ->; [|done].
    clear -Hall. induction Hall as [|w ws -> Hall IH]; [done|exact IH]. }
  assert (length sent ≤ pred (ra_nextExpected (p_agg s))) as Hle.
  { destruct (decide (length sent ≤ pred (ra_nextExpected (p_agg s)))) as [|Hgt]; [done|]. exfalso.
    destruct (lookup_lt_is_Some_2 sent (pred (ra_nextExpected (p_agg s)))) as [r Hlk]; [lia|].
    assert (r ∈ flight s) as Hin by (rewrite (i_flight _ _ Hi), (drop_S _ _ _ Hlk); left).
    rewrite Hf in Hin. unfold buffered in Hin. apply list_elem_of_fmap in Hin as ([k x] & -> & Hin).
    apply elem_of_map_to_list in Hin. destruct (i_agg _ _ Hi) as (H1 & H2 & _). pose proof (H2 _ _ Hin) as Hk.
    pose proof (good_number _ _ _ (i_sent _ _ Hi _ _ Hlk)) as Hnum. cbn in *.
    assert (k = ra_nextExpected (p_agg s)) as -> by lia. congruence. }
  split; [|done]. pose proof (i_flight _ _ Hi) as Hfl. rewrite drop_ge in Hfl by done.
  by apply Permutation_nil_r in Hfl.
Qed.

Lemma inv_pass s sent slots :
  inv s sent → p_agg_at s = ADraining → slots = p_slots s ∨ slots = pred (p_slots s) →
  inv (set_agg s slots (p_results s) (ra_pass (p_agg s)) ADraining (p_out s)) sent.
Proof.
  intros Hi Hat Hslots. pose proof (i_agg _ _ Hi) as (H1 & H2 & H3). rewrite Hat in H3.
  destruct H3 as (Hr & Hc & Hb). destruct (drained _ _ Hi Hr Hc Hb) as [Hf Hle].
  assert (flight (set_agg s slots (p_results s) (ra_pass (p_agg s)) ADraining (p_out s)) = []) as Hf' by exact Hf.
  destruct Hi as [Hfl Hout Hsent Hnext Hsl Hwin Hsched _ Hpool]. rewrite Hf in Hsl.
  constructor; rewrite ?Hf'; cbn [set_agg p_agg p_out p_cancelled p_agg_at p_slots ra_pass ra_nextExpected pred]; try done.
  - by rewrite drop_ge by lia.
  - rewrite Hout, !take_ge by lia. done.
  - cbn in *. lia.
  - cbn in *. lia.
  - split_and!; [cbn; lia|done|]. cbn. split_and!; [done|done|].
    destruct (ra_results (p_agg s) !! S (ra_nextExpected (p_agg s))) as [x|] eqn:Hx; [|done]. exfalso.
    assert (x ∈ flight s) as Hin; [|rewrite Hf in Hin; by apply not_elem_of_nil in Hin].
    unfold flight. rewrite !elem_of_app. do 4 right. unfold buffered. apply list_elem_of_fmap.
    exists (S (ra_nextExpected (p_agg s)), x). split; [done|by apply elem_of_map_to_list].
Qed.

Lemma inv_finish s sent :
  inv s sent → p_agg_at s = ADraining → totalExpected < ra_nextExpected (p_agg s) →
  inv (set_agg s (p_slots s) (p_results s) (p_agg s) AReturned (p_out s)) sent.
Proof.
  intros [Hfl Hout Hsent Hnext Hsl Hwin Hsched (H1 & H2 & H3) Hpool] Hat Ht. rewrite Hat in H3.
  constructor; try done. split_and!; try done. cbn. destruct H3 as (? & ? & ?). by split_and!.
Qed.

Lemma inv_cancel s sent : inv s sent → inv (set_cancelled s) sent.
Proof.
  intros [Hfl Hout Hsent Hnext Hsl Hwin Hsched Hagg Hpool]. constructor; try done.
  - intros i r Hr. eapply good_mono. by apply Hsent.
  - unfold sched_inv in *. cbn. destruct (p_sched s); try done; [|by left].
    destruct Hsched as [? Hg]. split; [done|by eapply good_mono].
Qed.

(** *** All steps *)
Lemma step_inv s s' sent : inv s sent → step s s' → ∃ sent', inv s' sent'.
Proof.
  intros Hi Hstep. pose proof (i_sched _ _ Hi) as Hs. unfold sched_inv in Hs.
  destruct Hstep as [Hat Hc|Hat Hc|Hat Hn|r Hat Hn|a Hat Hw|a Hat Hc|item Hat Hl|r Hat Hl Hcl|a Hat Hc
    |ws1 ws2 item work Hws Hwk|ws1 ws2 item Hws|ws1 ws2 r Hws Hl Hcl|ws1 ws2 Hws Hwk Hret|Hws Hcl
    |r rest Hat Hr|r agg Hat Hem|Hat Hem|Hat Hr Hcl|Hat Ht Hin|r agg Hat Ht Hin Hem|Hat Ht Hin Hem|Hat Ht];
    try rewrite Hat in Hs.
  - exists sent. by apply inv_sched; try done; rewrite Hat.
  - exists sent. apply inv_sched; try done; try (by rewrite Hat). by left.
  - exists sent. apply inv_sched; try done; try (by rewrite Hat).
    unfold next_record in Hn. unfold sched_inv. cbn. rewrite <- Hs. destruct (p_cancelled s); [by left|by right].
  - exists sent. apply inv_sched; try done; try (by rewrite Hat).
    unfold next_record in Hn. unfold sched_inv, good_result, late_result, result_of. cbn. rewrite <- Hs. split; [done|].
    destruct (p_cancelled s).
    + right. injection Hn as <-. done.
    + left. by rewrite Hn.
  - exists (sent ++ [promise a]). by apply inv_acquire.
  - exists sent. apply inv_sched; try done; try (by rewrite Hat). by left.
  - exists sent. eapply inv_send; [done|done|]. cbn. rewrite fmap_app. cbn. solve_Permutation.
  - exists sent. rewrite <- Hcl. eapply inv_send; [done|done|]. cbn. solve_Permutation.
  - eexists. by eapply inv_abandon.
  - exists sent. by apply inv_receive.
  - exists sent. by apply inv_extract.
  - exists sent. by apply inv_deliver.
  - exists sent. by apply inv_exit.
  - exists sent. by apply inv_close.
  - exists sent. by apply inv_collect.
  - exists sent. by apply inv_emit.
  - exists sent. by apply inv_stall.
  - exists sent. by apply inv_drain.
  - exists sent. apply inv_pass; [done|done|by right].
  - destruct (i_agg _ _ Hi) as (_ & _ & H3). rewrite Hat in H3. destruct H3 as (_ & _ & H3).
    apply ra_emit_Some in Hem as (Hb & _). congruence.
  - exists sent. apply inv_pass; [done|done|by left].
  - exists sent. by apply inv_finish.
Qed.

(** ** Progress *)
Hypothesis room : 0 < cap.
Hypothesis some_slot : 0 < window.

(** The run is over: every goroutine has returned. *)
Definition finished s : Prop :=
  p_sched s = SReturned ∧ Forall (λ w, w = WReturned) (p_workers s) ∧ p_closed s = true ∧
  p_agg_at s = AReturned ∧ p_work s = [] ∧ p_results s = [].

Lemma worker_of (P : worker_at D E → Prop) `{!∀ w, Decision (P w)} ws :
  Exists P ws → ∃ ws1 w ws2, ws = ws1 ++ w :: ws2 ∧ P w.
Proof.
  induction 1 as [w ws Hw|w ws _ (ws1 & w' & ws2 & -> & Hw)].
  - by exists [], w, ws.
  - by exists (w :: ws1), w', ws2.
Qed.

(** The scheduler can always move, unless it waits for a slot or for room. *)
Lemma scheduler_progress s :
  p_sched s ≠ SReturned → (∀ a, p_sched s = SWaiting a → p_slots s < window) →
  p_work s = [] → p_results s = [] → p_closed s = false → ∃ s', step s s'.
Proof.
  intros Hs Hslot Hw Hr Hc. destruct (p_sched s) as [| |a|[item|r]|] eqn:Hat; [..|done].
  - destruct (p_cancelled s) eqn:Hcan; eexists; [by apply step_stop|by apply step_check].
  - destruct (next_record iter ctx_err s) eqn:Hn; eexists; [by eapply step_next|by apply step_eof].
  - eexists. apply step_acquire; [done|by eapply Hslot].
  - eexists. eapply step_send_work; [done|]. rewrite Hw. cbn. lia.
  - eexists. eapply step_send_answer; [done| |done]. rewrite Hr. cbn. lia.
Qed.

(** A worker that has not returned can move when no result waits. *)
Lemma worker_progress s :
  ¬ Forall (λ w, w = WReturned) (p_workers s) → p_results s = [] → p_closed s = false →
  (p_work s = [] → p_sched s = SReturned) → ∃ s', step s s'.
Proof.
  intros Hall Hr Hc Hw. apply not_Forall_Exists in Hall; [|apply _].
  apply worker_of in Hall as (ws1 & w & ws2 & Hws & Hne); [|apply _].
  destruct w as [|item|r|]; [..|by destruct Hne].
  - destruct (p_work s) as [|item work] eqn:Hwk; eexists; [by eapply step_exit; eauto|by eapply step_receive].
  - eexists. by eapply step_extract.
  - eexists. eapply step_deliver; [done| |done]. rewrite Hr. cbn. lia.
Qed.

Lemma aggregator_progress s :
  p_agg_at s = AEmitting ∨ p_agg_at s = ADraining ∨
  (p_agg_at s = AReceiving ∧ (p_results s ≠ [] ∨ p_closed s = true)) → ∃ s', step s s'.
Proof.
  intros [Hat|[Hat|[Hat Hr]]].
  - destruct (ra_emit (p_agg s)) as [[r agg]|] eqn:He; eexists; [by eapply step_emit|by apply step_stall].
  - destruct (decide (ra_nextExpected (p_agg s) ≤ totalExpected)) as [Hle|];
      [|eexists; apply step_finish; [done|lia]].
    destruct (decide (ra_nextExpected (p_agg s) ∈ skipped)); [eexists; by apply step_drain_skipped|].
    destruct (ra_emit (p_agg s)) as [[r agg]|] eqn:He; eexists; [by eapply step_drain_emit|by apply step_drain_missing].
  - destruct (p_results s) as [|r rest] eqn:Hres; [|eexists; by eapply step_collect].
    destruct Hr as [|Hc]; [done|]. eexists. by apply step_drain.
Qed.

(** With every worker idle and nothing queued, the buffer is empty too: the
    next expected record is not in it. So a waiting scheduler gets its slot. *)
Lemma idle_slots s sent a :
  inv s sent → p_agg_at s = AReceiving → p_results s = [] → p_work s = [] → p_sched s = SWaiting a →
  (p_workers s ≫= worker_flight) = [] → p_slots s = 0.
Proof.
  intros Hi Hat Hr Hw Hs Hws. rewrite (i_slots _ _ Hi).
  assert (flight s = buffered (p_agg s)) as Hf.
  { unfold flight. by rewrite Hs, Hw, Hr, Hws. }
  pose proof (i_agg _ _ Hi) as (H1 & H2 & Hb). rewrite Hat in Hb.
  destruct (decide (length sent ≤ pred (ra_nextExpected (p_agg s)))) as [Hle|Hgt].
  - pose proof (i_flight _ _ Hi) as Hfl. rewrite drop_ge in Hfl by done. by rewrite Hfl.
  - exfalso. destruct (lookup_lt_is_Some_2 sent (pred (ra_nextExpected (p_agg s)))) as [r Hlk]; [lia|].
    assert (r ∈ flight s) as Hin by (rewrite (i_flight _ _ Hi), (drop_S _ _ _ Hlk); left).
    rewrite Hf in Hin. unfold buffered in Hin. apply list_elem_of_fmap in Hin as ([k x] & -> & Hin).
    apply elem_of_map_to_list in Hin. pose proof (H2 _ _ Hin) as Hk.
    pose proof (good_number _ _ _ (i_sent _ _ Hi _ _ Hlk)) as Hnum. cbn in *.
    assert (k = ra_nextExpected (p_agg s)) as -> by lia. congruence.
Qed.

Lemma progress s sent : inv s sent → finished s ∨ ∃ s', step s s'.
Proof.
  intros Hi. pose proof (i_agg _ _ Hi) as (H1 & H2 & H3).
  destruct (p_agg_at s) eqn:Hat; try (right; apply aggregator_progress; auto; fail).
  2: { left. destruct H3 as (Hr & Hc & _). destruct (closed_returned _ _ Hi Hc) as [Hs Hw].
    destruct (i_pool _ _ Hi) as (_ & _ & Hall). by split_and!; [|apply Hall|..]. }
  right. destruct (decide (p_results s = [])) as [Hr|Hr]; [|apply aggregator_progress; auto].
  destruct (p_closed s) eqn:Hc; [apply aggregator_progress; auto|].
  destruct (decide (Forall (λ w, w = WReturned) (p_workers s))) as [Hall|Hall];
    [eexists; by apply step_close|].
  destruct (p_work s) as [|item work] eqn:Hw; [|apply worker_progress; [done..|by rewrite Hw]].
  destruct (decide (p_workers s ≫= worker_flight = [])) as [Hidle|Hbusy].
  - assert (p_sched s = SReturned ∨ p_sched s ≠ SReturned) as [Hs|Hs]
      by (destruct (p_sched s); (by left) || (by right)); [by apply worker_progress|].
    apply scheduler_progress; try done. intros a Ha. by rewrite (idle_slots s sent a).
  - assert (Exists (λ w, worker_flight w ≠ []) (p_workers s)) as Hex.
    { apply (not_Forall_Exists (λ w, worker_flight w = [])). intros Hf. apply Hbusy. clear -Hf.
      induction Hf as [|w ws Hw Hf IH]; [done|]. cbn. rewrite Hw. exact IH. }
    apply worker_of in Hex as (ws1 & w & ws2 & Hws & Hne); [|apply _].
    destruct w as [|item|r|]; try done.
    + eexists. by eapply step_extract.
    + eexists. eapply step_deliver; [done| |done]. rewrite Hr. cbn. lia.
Qed.

(** ** Termination *)
Context (total : nat).
(** The index ends: [iter.Next] returns [io.EOF] from call [total] on. *)
Hypothesis index_ends : ∀ i, total ≤ i → iter i = None.

Definition sched_weight (cancelled : bool) (read : nat) (at_ : sched_at D E) : nat :=
  if cancelled then
    match at_ with SLoop => 1 | SChecked => 20 | SWaiting _ => 13 | SSending _ => 12 | SReturned => 0 end
  else
    20 + match at_ with
         | SLoop => 15 * (total - read) + 2
         | SChecked => 15 * (total - read) + 1
         | SWaiting _ => 15 * (total - read) + 13
         | SSending _ => 15 * (total - read) + 12
         | SReturned => 0
         end.
Definition worker_weight (w : worker_at D E) : nat :=
  match w with WReceiving => 1 | WExtracting _ => 8 | WSending _ => 6 | WReturned => 0 end.
Definition agg_weight (at_ : agg_at) : nat :=
  match at_ with AEmitting => 3 | AReceiving => 2 | ADraining => 1 | AReturned => 0 end.
Definition weight s : nat :=
  sched_weight (p_cancelled s) (p_read s) (p_sched s) + 8 * length (p_work s)
  + sum_list_with worker_weight (p_workers s) + 4 * length (p_results s)
  + (if p_closed s then 0 else 1) + 2 * size (ra_results (p_agg s)) + agg_weight (p_agg_at s)
  + (S totalExpected - ra_nextExpected (p_agg s)).

Lemma ra_emit_size ra r ra' : ra_emit (D := D) (E := E) ra = Some (r, ra') →
  size (ra_results ra) = S (size (ra_results ra')) ∧ ra_nextExpected ra' = S (ra_nextExpected ra).
Proof.
  intros (Hb & Hn & Hm & _)%ra_emit_Some. split; [|done]. rewrite Hm.
  rewrite map_size_delete_Some by done.
  assert (size (ra_results ra) ≠ 0); [|lia]. apply map_size_non_empty_iff. intros He.
  by rewrite He, lookup_empty in Hb.
Qed.

Lemma step_weight s s' : step s s' → weight s' < weight s.
Proof.
  intros [Hat Hc|Hat Hc|Hat Hn|r Hat Hn|a Hat Hw|a Hat Hc|item Hat Hl|r Hat Hl Hcl|a Hat Hc
    |ws1 ws2 item work Hws Hwk|ws1 ws2 item Hws|ws1 ws2 r Hws Hl Hcl|ws1 ws2 Hws Hwk Hret|Hws Hcl
    |r rest Hat Hr|r agg Hat Hem|Hat Hem|Hat Hr Hcl|Hat Ht Hin|r agg Hat Ht Hin Hem|Hat Ht Hin Hem|Hat Ht];
    unfold weight, sched_weight;
    cbn [set_sched set_chans set_agg set_cancelled p_read p_sched p_slots p_work p_workers p_results p_closed
         p_agg p_agg_at p_out p_stats p_cancelled ra_pass ra_results ra_nextExpected];
    rewrite ?Hat, ?Hc, ?Hcl, ?Hwk, ?Hret; cbn [agg_weight].
  - lia.
  - lia.
  - destruct (p_cancelled s); lia.
  - unfold next_record in Hn. destruct (p_cancelled s); [lia|].
    assert (p_read s < total) by (destruct (decide (total ≤ p_read s)) as [Hle|]; [rewrite index_ends in Hn by done; done|lia]).
    lia.
  - destruct (p_cancelled s); lia.
  - lia.
  - rewrite length_app. cbn [length]. destruct (p_cancelled s); lia.
  - rewrite length_app. cbn [length]. destruct (p_cancelled s); lia.
  - lia.
  - rewrite Hws, !sum_list_with_app. cbn. lia.
  - rewrite Hws, !sum_list_with_app. cbn. lia.
  - rewrite Hws, !sum_list_with_app, length_app. cbn. lia.
  - rewrite Hws, !sum_list_with_app. cbn. lia.
  - lia.
  - unfold ra_store. cbn [ra_results ra_nextExpected]. rewrite Hr. cbn [length].
    rewrite map_size_insert. destruct (ra_results (p_agg s) !! wr_RecordNum r); cbn; lia.
  - apply ra_emit_size in Hem as [-> ->]. lia.
  - lia.
  - rewrite Hr. cbn [length]. lia.
  - lia.
  - apply ra_emit_size in Hem as [-> ->]. lia.
  - lia.
  - lia.
Qed.
Lemma cancel_weight s : p_cancelled s = false → weight (set_cancelled s) < weight s.
Proof.
  intros Hc. unfold weight, sched_weight.
  cbn [set_cancelled p_read p_sched p_work p_workers p_results p_closed p_agg p_agg_at p_cancelled].
  rewrite Hc. destruct (p_sched s); lia.
Qed.

Lemma always_ends s : sn move s.
Proof.
  induction s as [s IH] using (Nat.measure_induction _ weight). constructor. intros s' Hs.
  apply IH. destruct Hs; [by apply step_weight|by apply cancel_weight].
Qed.

(** ** Counting failures *)
Definition has_error (r : WorkResult) : bool := match wr_Error r with Some _ => true | None => false end.
Definition errors (l : list WorkResult) : nat := sum_list_with (λ r, if has_error r then 1 else 0) l.
Definition worker_settled (w : worker_at D E) : list WorkResult :=
  match w with WSending r => [r] | _ => [] end.
Definition settled s : list WorkResult :=
  (p_workers s ≫= worker_settled) ++ p_results s ++ buffered (p_agg s) ++ p_out s.

Lemma errors_perm l k : l ≡ₚ k → errors l = errors k.
Proof.
  induction 1 as [|x l k _ IH|x y l|l k m _ IH1 _ IH2]; cbn; [done|by unfold errors in IH; rewrite IH|lia|congruence].
Qed.
Lemma errors_cons r l : errors (r :: l) = (if has_error r then 1 else 0) + errors l.
Proof. done. Qed.
Lemma count_extracted_failed r st :
  st_Failed (count_extracted (D := D) (E := E) r st) = (if has_error r then 1 else 0) + st_Failed st.
Proof. unfold count_extracted, has_error. by destruct (wr_Error r). Qed.
Lemma count_answer_failed r st :
  st_Failed (count_answer (D := D) (E := E) (Answer r) st) = (if has_error r then 1 else 0) + st_Failed st.
Proof. cbn. unfold has_error. by destruct (wr_Error r). Qed.
Lemma count_skip_failed a st : st_Failed (count_skip (D := D) (E := E) a st) = st_Failed st.
Proof. destruct a as [|r]; cbn; [done|]. by destruct (wr_Skipped r). Qed.

Lemma step_failed s s' sent :
  inv s sent → step s s' → st_Failed (p_stats s) = errors (settled s) →
  st_Failed (p_stats s') = errors (settled s').
Proof.
  intros Hi Hstep Hst.
  assert (∀ r s0, st_Failed (p_stats s0) = (if has_error r then 1 else 0) + st_Failed (p_stats s) →
    settled s0 ≡ₚ r :: settled s → st_Failed (p_stats s0) = errors (settled s0)) as Hadd.
  { intros r s0 Hf Hp. by rewrite (errors_perm _ _ Hp), errors_cons, Hf, Hst. }
  assert (∀ s0, st_Failed (p_stats s0) = st_Failed (p_stats s) → settled s0 ≡ₚ settled s →
    st_Failed (p_stats s0) = errors (settled s0)) as Hsame.
  { intros s0 Hf Hp. by rewrite (errors_perm _ _ Hp), Hf, Hst. }
  destruct Hstep as [Hat Hc|Hat Hc|Hat Hn|r Hat Hn|a Hat Hw|a Hat Hc|item Hat Hl|r Hat Hl Hcl|a Hat Hc
    |ws1 ws2 item work Hws Hwk|ws1 ws2 item Hws|ws1 ws2 r Hws Hl Hcl|ws1 ws2 Hws Hwk Hret|Hws Hcl
    |r rest Hat Hr|r agg Hat Hem|Hat Hem|Hat Hr Hcl|Hat Ht Hin|r agg Hat Ht Hin Hem|Hat Ht Hin Hem|Hat Ht];
    try (apply Hsame; done).
  - apply Hsame; [apply count_skip_failed|done].
  - apply (Hadd r); [apply count_answer_failed|]. unfold settled. cbn. solve_Permutation.
  - apply Hsame; [done|]. unfold settled. cbn. rewrite Hws, !bind_app. cbn. solve_Permutation.
  - apply (Hadd (ExtractRecord item)); [apply count_extracted_failed|]. unfold settled. cbn.
    rewrite Hws, !bind_app. cbn. solve_Permutation.
  - apply Hsame; [done|]. unfold settled. cbn. rewrite Hws, !bind_app. cbn. solve_Permutation.
  - apply Hsame; [done|]. unfold settled. cbn. rewrite Hws, !bind_app. cbn. solve_Permutation.
  - apply Hsame; [done|]. unfold settled. cbn. rewrite buffered_store, Hr; [solve_Permutation|].
    apply (fresh_key s sent r (sched_flight (p_sched s) ++ (ExtractRecord <$> p_work s)
      ++ (p_workers s ≫= worker_flight) ++ rest)); [done|].
    unfold flight. rewrite Hr. solve_Permutation.
  - apply ra_emit_Some in Hem as (_ & _ & _ & Hbuf). apply Hsame; [done|]. unfold settled. cbn.
    rewrite Hbuf. solve_Permutation.
  - apply Hsame; [done|]. unfold settled. cbn. by rewrite Hr.
  - apply ra_emit_Some in Hem as (_ & _ & _ & Hbuf). apply Hsame; [done|]. unfold settled. cbn.
    rewrite Hbuf. solve_Permutation.
Qed.

(** The channels keep within their capacity. *)
Lemma step_capacity s s' :
  step s s' → length (p_work s) ≤ cap ∧ length (p_results s) ≤ cap →
  length (p_work s') ≤ cap ∧ length (p_results s') ≤ cap.
Proof.
  intros [] [Hw Hr]; cbn; rewrite ?length_app; cbn; try done; try lia;
    repeat match goal with Heq : p_results s = _ |- _ => rewrite Heq in * | Heq : p_work s = _ |- _ => rewrite Heq in * end;
    cbn in *; lia.
Qed.

Lemma start_settled : settled (start workers) = [].
Proof.
  unfold settled, start. cbn. unfold buffered. cbn. rewrite map_to_list_empty. cbn. rewrite !app_nil_r.
  clear some_worker. induction workers as [|n IH]; [done|exact IH].
Qed.

Lemma reachable_facts s : reachable s →
  (∃ sent, inv s sent) ∧ st_Failed (p_stats s) = errors (settled s) ∧
  length (p_work s) ≤ cap ∧ length (p_results s) ≤ cap.
Proof.
  unfold ParPipe.reachable. intros Hr.
  enough (∀ s0, (∃ sent, inv s0 sent) ∧ st_Failed (p_stats s0) = errors (settled s0) ∧
    length (p_work s0) ≤ cap ∧ length (p_results s0) ≤ cap → rtc move s0 s →
    (∃ sent, inv s sent) ∧ st_Failed (p_stats s) = errors (settled s) ∧
    length (p_work s) ≤ cap ∧ length (p_results s) ≤ cap) as H.
  { eapply H; [|done]. split_and!; [exists []; apply start_inv|by rewrite start_settled|cbn; lia|cbn; lia]. }
  clear Hr. intros s0 H0 Hrtc. induction Hrtc as [|s1 s2 s3 Hstep _ IH]; [done|].
  apply IH. destruct H0 as ([sent Hi] & Hst & Hcap).
  destruct Hstep as [s2 Hstep|Hc]; [|split_and!; [exists sent; by apply inv_cancel|done|apply Hcap|apply Hcap]].
  split_and!; [by eapply step_inv|by eapply step_failed|..];
    by apply (step_capacity _ _ Hstep).
Qed.

(** ** The properties *)

(** C10: whatever the interleaving, the caller receives results in record
    order, each once: the [i]-th it receives is that of record [i], which is
    the one the index and the worker determine, or, in a cancelled run, the
    failure of a read the cancellation cut short. *)
Theorem output_in_order s :
  reachable s →
  wr_RecordNum <$> p_out s = seq 1 (length (p_out s)) ∧
  ∀ i r, p_out s !! i = Some r → good_result (p_cancelled s) i r.
Proof.
  intros Hr. destruct (reachable_facts s Hr) as ([sent Hi] & _).
  assert (∀ i r, p_out s !! i = Some r → good_result (p_cancelled s) i r) as Hgood.
  { intros i r. rewrite (i_out _ _ Hi). intros [Hlk _]%lookup_take_Some. by apply (i_sent _ _ Hi). }
  split; [|done]. apply list_eq. intros i. rewrite list_lookup_fmap.
  destruct (p_out s !! i) as [r|] eqn:Hlk; cbn.
  - rewrite lookup_seq_lt by (by eapply lookup_lt_Some). by rewrite (good_number _ _ _ (Hgood _ _ Hlk)).
  - symmetry. apply lookup_ge_None. rewrite length_seq. by apply lookup_ge_None.
Qed.

(** At most [window] records are scheduled and not yet delivered, each
    holding one slot, so no more than that many wait in the reorder buffer
    however late the first of them is; the channels keep within their
    capacities. *)
Theorem in_flight_bounded s :
  reachable s →
  length (flight s) = p_slots s ∧ p_slots s ≤ window ∧ size (ra_results (p_agg s)) ≤ window ∧
  length (p_work s) ≤ cap ∧ length (p_results s) ≤ cap.
Proof.
  intros Hr. destruct (reachable_facts s Hr) as ([sent Hi] & _ & Hw & Hres).
  split_and!; [by rewrite (i_slots _ _ Hi)|by apply Hi| |done..].
  etrans; [|by apply (i_window _ _ Hi)]. rewrite (i_slots _ _ Hi), <- length_map_to_list.
  unfold flight, buffered. rewrite !length_app, !length_fmap. lia.
Qed.

(** C29: with at least one worker, room in the channels and the window, records
    numbered from one and an index iterator that ends (what happens otherwise:
    [zero_workers_deliver_nothing], [repeated_read_error_never_ends]), the
    pipeline neither deadlocks nor runs forever: every sequence of steps and cancellations is finite, and a state without a further step has every goroutine
    returned, with nothing in flight, no slot held and an empty buffer. Unless
    it was cancelled, the caller has then received the result of every record
    of the index in order, exactly what extracting the records one by one
    gives, and the run counts as failed the results that carry an error. *)
Theorem pipeline_completes s :
  reachable s →
  sn move s ∧
  (nf step s →
   finished s ∧ flight s = [] ∧ p_slots s = 0 ∧ ra_results (p_agg s) = ∅ ∧
   st_Failed (p_stats s) = errors (p_out s) ∧
   (p_cancelled s = false →
    ∃ n, iter n = None ∧ mapM result_of (seq 0 n) = Some (p_out s))).
Proof.
  intros Hr. split; [apply always_ends|]. intros Hnf.
  destruct (reachable_facts s Hr) as ([sent Hi] & Hst & _).
  destruct (progress _ _ Hi) as [Hfin|Hstep]; [|by destruct Hnf].
  destruct Hfin as (Hs & Hall & Hc & Hat & Hw & Hres). pose proof (i_agg _ _ Hi) as (_ & _ & H3).
  rewrite Hat in H3. destruct H3 as (_ & _ & Hb & _).
  destruct (drained _ _ Hi Hres Hc Hb) as [Hf Hle].
  assert (buffered (p_agg s) = []) as Hbuf.
  { unfold flight in Hf. by repeat apply app_eq_nil in Hf as [_ Hf]. }
  assert (ra_results (p_agg s) = ∅) as Hempty.
  { apply map_to_list_empty_iff. unfold buffered in Hbuf. by apply fmap_nil_inv in Hbuf. }
  assert (p_workers s ≫= worker_settled = []) as Hws.
  { clear -Hall. induction Hall as [|w ws -> Hall IH]; [done|exact IH]. }
  split_and!; [by split_and!|done|by rewrite (i_slots _ _ Hi), Hf|done| |].
  - rewrite Hst. unfold settled. by rewrite Hws, Hres, Hbuf.
  - intros Hcan. pose proof (i_sched _ _ Hi) as Hsc. unfold sched_inv in Hsc. rewrite Hs in Hsc.
    destruct Hsc as [|Heof]; [congruence|]. exists (length sent). split; [done|].
    rewrite (i_out _ _ Hi), take_ge by done. apply mapM_Some. apply Forall2_same_length_lookup_2.
    { by rewrite length_seq. }
    intros i j r Hj Hlk. apply lookup_seq in Hj as [-> _]. cbn.
    destruct (i_sent _ _ Hi _ _ Hlk) as [Hg|[Hg _]]; [done|congruence].
Qed.
End spec.

(** The capacities a run is built with are positive, and the worker count
    stays within twice the processors: what the theorems above ask for. *)
(** [NewWorkSchedulerFromStore] asks for between one and twice [NumCPU]
    workers whatever was requested, for channels of twice that, and for a
    reorder window of at least one record. *)
Theorem scheduler_capacities NumCPU requested requestedWindow :
  (0 < NumCPU)%Z →
  let w := capWorkerCount NumCPU requested in
  (1 ≤ w ≤ 2 * NumCPU)%Z ∧ (0 < requested ≤ 2 * NumCPU → w = requested)%Z ∧
  0 < Z.to_nat (w * 2) ∧ 0 < Z.to_nat (capReorderWindow requestedWindow w).
Proof.
  intros Hn w. unfold w, capWorkerCount, capReorderWindow, MaxWorkerMultiplier.
  destruct (Z.leb_spec requested 0); cbn zeta;
    match goal with |- context [Z.ltb ?a ?b] => destruct (Z.ltb_spec a b) end;
    destruct (Z.ltb_spec 0 requestedWindow); repeat case_match; lia.
Qed.
Lemma scheduler_capacities_witness : (1 ≤ capWorkerCount 4 100 ≤ 8)%Z.
Proof. exact (proj1 (scheduler_capacities 4 100 0 eq_refl)). Defined.

(** ** A concrete run *)
Module Sample.
Definition opts : ExtractionOptions :=
  {| Workers := 2; MaxRecordSizeMB := 0; SkipLargeRecords := false; ReorderWindow := 0 |}.
Definition rec (n : nat) : RecordMetadata :=
  {| rm_RecordNum := Z.of_nat n; rm_StartOffset := 0; rm_EndOffset := 1; rm_SizeBytes := 1;
     rm_SHA256 := ""; rm_ElementName := ""; rm_Depth := 1;
     rm_NamespaceContextRef := 0 |}.
Definition extract (item : WorkItem) : WorkResult nat nat :=
  {| wr_RecordNum := wi_RecordNum item; wr_Data := Some (wi_RecordNum item); wr_Error := None; wr_Skipped := false |}.
Definition err (e : sched_error (E := nat)) : nat := 0.
End Sample.

Module SampleRun.
Definition iter (i : nat) : option (res nat RecordMetadata) :=
  match i with 0 => Some (Ok (Sample.rec 1)) | _ => None end.
Lemma run_numbered i r : iter i = Some (Ok r) → (rm_RecordNum r ≤ 0)%Z ∨ rm_RecordNum r = Z.of_nat (S i).
Proof. destruct i; [|done]. intros [= <-]. by right. Qed.
Lemma run_ends i : 1 ≤ i → iter i = None.
Proof. destruct i; [lia|done]. Qed.
Notation step := (ParPipe.step Sample.err Sample.opts Sample.extract iter 0 2 2 1 []).
Notation move := (ParPipe.move Sample.err Sample.opts Sample.extract iter 0 2 2 1 []).
Notation reachable := (ParPipe.reachable Sample.err Sample.opts Sample.extract iter 0 2 2 1 [] 1).

(** One record through one worker, to the end. *)
Definition result : WorkResult nat nat :=
  {| wr_RecordNum := 1; wr_Data := Some 1; wr_Error := None; wr_Skipped := false |}.
Definition final : pipeline nat nat := {|
  p_read := 1; p_sched := SReturned; p_slots := 0; p_work := []; p_workers := [WReturned];
  p_results := []; p_closed := true; p_agg := {| ra_results := ∅; ra_nextExpected := 2 |};
  p_agg_at := AReturned; p_out := [result];
  p_stats := {| st_Processed := 1; st_Skipped := 0; st_Failed := 0 |}; p_cancelled := false |}.
(** The state behind each step; [st] counts the processed records. *)
Definition at_ (read : nat) (sched : sched_at nat nat) (slots : nat) (work : list WorkItem) (w : worker_at nat nat)
    (results : list (WorkResult nat nat)) (closed : bool) (agg : ResultAggregator nat nat) (a : agg_at)
    (out : list (WorkResult nat nat)) (processed : nat) : pipeline nat nat :=
  {| p_read := read; p_sched := sched; p_slots := slots; p_work := work; p_workers := [w];
     p_results := results; p_closed := closed; p_agg := agg; p_agg_at := a; p_out := out;
     p_stats := {| st_Processed := processed; st_Skipped := 0; st_Failed := 0 |}; p_cancelled := false |}.
Definition item : WorkItem :=
  {| wi_RecordNum := 1; wi_StartOffset := 0; wi_EndOffset := 1; wi_SizeBytes := 1; wi_NamespaceContextRef := 0 |}.
Definition agg0 : ResultAggregator nat nat := NewResultAggregator.
Definition agg1 : ResultAggregator nat nat := ra_store agg0 result.
Definition agg2 : ResultAggregator nat nat := {| ra_results := ∅; ra_nextExpected := 2 |}.
Tactic Notation "via" uconstr(c) := eapply rtc_l; [apply move_step; refine c; first [done | cbn; lia | by apply Forall_cons_2]|].
Lemma final_reachable : reachable final.
Proof.
  unfold ParPipe.reachable. change (start 1) with (at_ 0 SLoop 0 [] WReceiving [] false agg0 AReceiving [] 0).
  via (step_check Sample.err Sample.opts Sample.extract iter 0 2 2 1 [] (at_ 0 SLoop 0 [] WReceiving [] false agg0 AReceiving [] 0) _ _).
  change (rtc move (at_ 0 SChecked 0 [] WReceiving [] false agg0 AReceiving [] 0) final).
  via (step_next Sample.err Sample.opts Sample.extract iter 0 2 2 1 [] (at_ 0 SChecked 0 [] WReceiving [] false agg0 AReceiving [] 0) (Ok (Sample.rec 1)) _ _).
  change (rtc move (at_ 1 (SWaiting (ToWorkers item)) 0 [] WReceiving [] false agg0 AReceiving [] 0) final).
  via (step_acquire Sample.err Sample.opts Sample.extract iter 0 2 2 1 [] (at_ 1 (SWaiting (ToWorkers item)) 0 [] WReceiving [] false agg0 AReceiving [] 0) (ToWorkers item) _ _).
  change (rtc move (at_ 1 (SSending (ToWorkers item)) 1 [] WReceiving [] false agg0 AReceiving [] 0) final).
  via (step_send_work Sample.err Sample.opts Sample.extract iter 0 2 2 1 [] (at_ 1 (SSending (ToWorkers item)) 1 [] WReceiving [] false agg0 AReceiving [] 0) item _ _).
  change (rtc move (at_ 1 SLoop 1 [item] WReceiving [] false agg0 AReceiving [] 0) final).
  via (step_check Sample.err Sample.opts Sample.extract iter 0 2 2 1 [] (at_ 1 SLoop 1 [item] WReceiving [] false agg0 AReceiving [] 0) _ _).
  change (rtc move (at_ 1 SChecked 1 [item] WReceiving [] false agg0 AReceiving [] 0) final).
  via (step_eof Sample.err Sample.opts Sample.extract iter 0 2 2 1 [] (at_ 1 SChecked 1 [item] WReceiving [] false agg0 AReceiving [] 0) _ _).
  change (rtc move (at_ 1 SReturned 1 [item] WReceiving [] false agg0 AReceiving [] 0) final).
  via (step_receive Sample.err Sample.opts Sample.extract iter 0 2 2 1 [] (at_ 1 SReturned 1 [item] WReceiving [] false agg0 AReceiving [] 0) [] [] item [] _ _).
  change (rtc move (at_ 1 SReturned 1 [] (WExtracting item) [] false agg0 AReceiving [] 0) final).
  via (step_extract Sample.err Sample.opts Sample.extract iter 0 2 2 1 [] (at_ 1 SReturned 1 [] (WExtracting item) [] false agg0 AReceiving [] 0) [] [] item _).
  change (rtc move (at_ 1 SReturned 1 [] (WSending result) [] false agg0 AReceiving [] 1) final).
  via (step_deliver Sample.err Sample.opts Sample.extract iter 0 2 2 1 [] (at_ 1 SReturned 1 [] (WSending result) [] false agg0 AReceiving [] 1) [] [] result _ _ _).
  change (rtc move (at_ 1 SReturned 1 [] WReceiving [result] false agg0 AReceiving [] 1) final).
  via (step_exit Sample.err Sample.opts Sample.extract iter 0 2 2 1 [] (at_ 1 SReturned 1 [] WReceiving [result] false agg0 AReceiving [] 1) [] [] _ _ _).
  change (rtc move (at_ 1 SReturned 1 [] WReturned [result] false agg0 AReceiving [] 1) final).
  via (step_close Sample.err Sample.opts Sample.extract iter 0 2 2 1 [] (at_ 1 SReturned 1 [] WReturned [result] false agg0 AReceiving [] 1) _ _).
  change (rtc move (at_ 1 SReturned 1 [] WReturned [result] true agg0 AReceiving [] 1) final).
  via (step_collect Sample.err Sample.opts Sample.extract iter 0 2 2 1 [] (at_ 1 SReturned 1 [] WReturned [result] true agg0 AReceiving [] 1) result [] _ _).
  change (rtc move (at_ 1 SReturned 1 [] WReturned [] true agg1 AEmitting [] 1) final).
  via (step_emit Sample.err Sample.opts Sample.extract iter 0 2 2 1 [] (at_ 1 SReturned 1 [] WReturned [] true agg1 AEmitting [] 1) result agg2 _ _).
  change (rtc move (at_ 1 SReturned 0 [] WReturned [] true agg2 AEmitting [result] 1) final).
  via (step_stall Sample.err Sample.opts Sample.extract iter 0 2 2 1 [] (at_ 1 SReturned 0 [] WReturned [] true agg2 AEmitting [result] 1) _ _).
  change (rtc move (at_ 1 SReturned 0 [] WReturned [] true agg2 AReceiving [result] 1) final).
  via (step_drain Sample.err Sample.opts Sample.extract iter 0 2 2 1 [] (at_ 1 SReturned 0 [] WReturned [] true agg2 AReceiving [result] 1) _ _ _).
  change (rtc move (at_ 1 SReturned 0 [] WReturned [] true agg2 ADraining [result] 1) final).
  via (step_finish Sample.err Sample.opts Sample.extract iter 0 2 2 1 [] (at_ 1 SReturned 0 [] WReturned [] true agg2 ADraining [result] 1) _ _).
  change (rtc move final final).
  apply rtc_refl.
Qed.
Lemma final_stuck : nf step final.
Proof.
  intros [s' Hs]. inversion Hs; try done;
    match goal with H : p_workers final = ?l ++ _ |- _ => by destruct l as [|? [|? ?]] end.
Qed.
End SampleRun.

Lemma output_in_order_witness : wr_RecordNum <$> p_out SampleRun.final = [1].
Proof.
  refine (proj1 (output_in_order Sample.err Sample.opts Sample.extract SampleRun.iter 0 2 2 1 [] 1
    SampleRun.run_numbered _ _ _ _ _ SampleRun.final_reachable)); (done || lia).
Defined.
Lemma in_flight_bounded_witness : p_slots SampleRun.final ≤ 2.
Proof.
  refine (proj1 (proj2 (in_flight_bounded Sample.err Sample.opts Sample.extract SampleRun.iter 0 2 2 1 [] 1
    SampleRun.run_numbered _ _ _ _ _ SampleRun.final_reachable))); (done || lia).
Defined.
Lemma pipeline_completes_witness : finished SampleRun.final ∧ p_out SampleRun.final = [SampleRun.result].
Proof.
  split; [|done].
  refine (proj1 (proj2 (pipeline_completes Sample.err Sample.opts Sample.extract SampleRun.iter 0 2 2 1 [] 1
    SampleRun.run_numbered _ _ _ _ 1 SampleRun.run_ends _ SampleRun.final_reachable) SampleRun.final_stuck)); (done || lia).
Defined.

(** ** Two runs that go wrong *)

(** [Extract] starts as many workers as were requested, without the cap the
    scheduler applies: none for a count of zero. Then the result channel is
    closed at once and the run ends with nothing, whatever the index holds. *)
Example zero_workers_deliver_nothing :
  ∃ s, ParPipe.reachable Sample.err Sample.opts Sample.extract SampleRun.iter 0 2 2 1 [] 0 s ∧
       p_agg_at s = AReturned ∧ p_out s = [] ∧ st_Failed (p_stats s) = 0.
Proof.
  eexists. split.
  - unfold ParPipe.reachable. eapply rtc_l; [by apply move_step, step_close|]. eapply rtc_l; [by apply move_step; eapply step_drain|].
    eapply rtc_l; [apply move_step; eapply step_drain_missing; [done|cbn; lia|by apply not_elem_of_nil|done]|].
    eapply rtc_l; [apply move_step; eapply step_finish; [done|cbn; lia]|]. apply rtc_refl.
  - done.
Qed.

(** A read error that repeats, as the seekable store's iterator does (it stays
    on the record it could not read), keeps the scheduler going for ever. *)
Example repeated_read_error_never_ends {D E : Type} (sched_err : sched_error (E := E) → E) opts
    (extract : WorkItem → WorkResult D E) (e ctx_err : E) cap window total skipped workers s :
  ParPipe.reachable sched_err opts extract (λ _, Some (Err e)) ctx_err cap window total skipped workers s →
  p_cancelled s = false → p_sched s ≠ SReturned.
Proof.
  intros Hr. unfold ParPipe.reachable in Hr.
  enough (∀ s0, (p_cancelled s0 = false → p_sched s0 ≠ SReturned) →
    rtc (ParPipe.move sched_err opts extract (λ _, Some (Err e)) ctx_err cap window total skipped) s0 s →
    p_cancelled s = false → p_sched s ≠ SReturned) as H by (eapply H; [|done]; done).
  clear Hr. intros s0 H0 Hrtc. induction Hrtc as [|s1 s2 s3 Hstep _ IH]; [done|]. apply IH.
  destruct Hstep as [s2 Hstep|Hc0]; [|done]. destruct Hstep; cbn in *; intros Hc; try done; try congruence; try by apply H0.
  unfold next_record in *. by rewrite Hc in *.
Qed.
