(* ===== verification/IndexJson.v ===== *)
(** * Indexing a JSON source (internal/index: json_source.go, builder_json.go,
    verify_json.go, percentile of builder.go, VerifyWithProvider of verifier.go)

    The source is opened once and stays what it is: a string. The builder and
    the verifier scan it with the same record scanner. Writing the index to
    disk and reading it back is not modelled: the builder's result is the
    header and the records it hands to its writers, the verifier is given the
    header and what the record iterator returns. *)
From Stdlib Require Import Ascii ZArith Lia SpecFloat.
From stdpp Require Import base list strings gmap sorting.
From S2P Require Import Prelude GoStrings GoFloat GoValue GoCsv GoSha256 IndexHeader JsonReader JsonWalk JsonScan.

Section index.
Context `{UC : UnicodeCase}.

(** ** The source (json_source.go) *)

(** [openJSONSource]: what opening [path] found; [None] is a failed open. *)
Record opened := { op_regular : bool; op_data : string }.
Definition CompressedSourceIndexBuildError {A} (path format : string) : result A :=
  errorf "record index build requires an uncompressed source; %q appears %s compressed. Decompress first (example: %s) and build the index from the uncompressed file"
    [AStr path; AStr format; AStr decompressHint].
Definition openJSONSource (path : string) (file : option opened) : result string :=
  let '(compressed, format) := DetectCompression path in
  if compressed then CompressedSourceIndexBuildError path format
  else match file with
       | None => errorf "failed to open input file: %w" []
       | Some f => if op_regular f then Ok (op_data f)
                   else errorf "input %q is not a regular file" [AStr path]
       end.

Definition src_size (src : string) : Z := Z.of_nat (slen src).
Definition src_hash (src : string) : string := sha256_hex src.
Definition computeRangeHashSHA256FromReader (src : string) (start stop : Z) : result string :=
  if (stop <? start)%Z then errorf "invalid byte range: start %d after end %d" [AInt start; AInt stop]
  else Ok (sha256_hex (ssub src (Z.to_nat start) (Z.to_nat (stop - start)))).
Definition rangeHash (src : string) (start stop : Z) : result string :=
  if (start <? 0)%Z || (stop <? start)%Z || (src_size src <? stop)%Z then
    errorf "range [%d,%d) is outside the %d-byte source" [AInt start; AInt stop; AInt (src_size src)]
  else computeRangeHashSHA256FromReader src start stop.

(** [records] and every [Next] of its scanner, size only: the records, and the
    error behind them ([None] is [io.EOF]). [JsonDocSpec.scan_ends]: the scanner
    never panics, so the default is not used. *)
Definition src_records (src : string) (selector : RecordSelector)
    : list record * option (walk_error Empty_set) :=
  default ([], Some outOfFuel)
    (scan (slen src) (newValidatingReader [(src, ReadNil)]) (rs_ElementName selector)
       (has_prefix "//" (rs_Raw selector)) true).

(** The text of a scan error is not modelled. *)
Context (scan_error : walk_error Empty_set → gerror).

(** ** Building (builder_json.go) *)
Record BuildOptions := {
  bo_InputPath : string;
  bo_SourceIdentity : string;
  bo_Selector : string;
  bo_IncludeP50 : bool;
  bo_IncludeP95 : bool;
  bo_IncludeP99 : bool;
}.

Definition percentile (sortedSizes : list Z) (p : f64) : Z :=
  match sortedSizes with
  | [] => 0
  | [x] => x
  | _ =>
      let index := fmul p (f_of_Z (Z.of_nat (length sortedSizes - 1))) in
      let lower := f_to_Z index in
      let upper := (lower + 1)%Z in
      let at_ i := default 0%Z (sortedSizes !! Z.to_nat i) in
      if (Z.of_nat (length sortedSizes) <=? upper)%Z then at_ (Z.of_nat (length sortedSizes - 1))
      else
        let weight := fsub index (f_of_Z lower) in
        let r := fadd (fmul (f_of_Z (at_ lower)) (fsub (f_of_Z 1) weight))
                      (fmul (f_of_Z (at_ upper)) weight) in
        f_to_Z (ftrunc (fadd r (f_of_ratio false 1 2)))
  end.

Definition jsonElementSelector (selector : string) : result RecordSelector := ParseRecordSelector selector.

(** The metadata of one scanned record. *)
Definition record_metadata (src : string) (rec : record) : result RecordMetadata :=
  recordHash ← wrapf "failed to compute hash for record %d: %w" [AInt (Z.of_nat (rc_Num rec))]
    (rangeHash src (Z.of_nat (rc_StartOffset rec)) (Z.of_nat (rc_EndOffset rec)));
  Ok {| rm_RecordNum := Z.of_nat (rc_Num rec);
        rm_StartOffset := Z.of_nat (rc_StartOffset rec);
        rm_EndOffset := Z.of_nat (rc_EndOffset rec);
        rm_SizeBytes := Z.of_nat (rc_SizeBytes rec);
        rm_SHA256 := recordHash;
        rm_ElementName := rc_Name rec;
        rm_Depth := Z.of_nat (rc_Depth rec);
        rm_NamespaceContextRef := 0 |}.
(** The scan loop: [count] records before. *)
Fixpoint build_records (src : string) (count : nat) (recs : list record)
    (fin : option (walk_error Empty_set)) : result (list RecordMetadata) :=
  match recs with
  | [] => match fin with
          | None => Ok []
          | Some e => Err (Errorf "failed to scan record %d: %w" [AInt (Z.of_nat (S count)); AErr (scan_error e)])
          end
  | rec :: recs =>
      metadata ← record_metadata src rec;
      rest ← build_records src (S count) recs fin;
      Ok (metadata :: rest)
  end.

Definition size_step (acc : Z * Z * Z) (size : Z) : Z * Z * Z :=
  let '(total, lo, hi) := acc in
  ((total + size)%Z, (if (lo =? -1) || (size <? lo) then size else lo)%Z, (if hi <? size then size else hi)%Z).
Definition summarize (opts : BuildOptions) (records : list RecordMetadata) : SummaryStats :=
  let sizes := rm_SizeBytes <$> records in
  let count := Z.of_nat (length records) in
  let '(total, lo, hi) := foldl size_step (0%Z, (-1)%Z, 0%Z) sizes in
  let sorted := sort_by Z.leb sizes in
  let pct (wanted : bool) p := if wanted then percentile sorted p else 0%Z in {|
    ss_TotalRecords := count;
    ss_TotalBytes := total;
    ss_AvgRecordSizeBytes := if (0 <? count)%Z then fdiv (f_of_Z total) (f_of_Z count) else fzero;
    ss_MinRecordSizeBytes := if (count =? 0)%Z then 0%Z else lo;
    ss_MaxRecordSizeBytes := hi;
    ss_P50RecordSizeBytes := pct (bo_IncludeP50 opts) (f_of_ratio false 1 2);
    ss_P95RecordSizeBytes := pct (bo_IncludeP95 opts) (f_of_ratio false 95 100);
    ss_P99RecordSizeBytes := pct (bo_IncludeP99 opts) (f_of_ratio false 99 100);
  |}.

(** [again] is what the held file reads as when it is hashed the second time. *)
Definition buildJSONTo (opts : BuildOptions) (file : option opened) (again : string)
    : result (RecordIndex * list RecordMetadata) :=
  selector ← jsonElementSelector (bo_Selector opts);
  src ← openJSONSource (bo_InputPath opts) file;
  let '(recs, fin) := src_records src selector in
  records ← build_records src 0 recs fin;
  if negb (src_hash again =s? src_hash src) then
    errorf "source changed while the index was built; rebuild it from a stable file" []
  else
    Ok ({|
      ri_Version := SchemaVersion;
      ri_Source := {|
        si_Path := if bo_SourceIdentity opts =s? "" then bo_InputPath opts else bo_SourceIdentity opts;
        si_SizeBytes := src_size src;
        si_SHA256 := src_hash src;
        si_Compressed := false;
        si_CompressionFormat := "none";
        si_OffsetKind := OffsetKindSourceBytes;
        si_Format := SourceFormatJSON |};
      ri_Selector := {| sl_XPath := rs_Raw selector; sl_ElementName := rs_ElementName selector |};
      ri_NamespaceContexts := [{| nc_ID := 0; nc_Declarations := Some [] |}];
      ri_Summary := summarize opts records |}, records).

(** ** Verifying (verify_json.go) *)
Record VerifyResult := {
  vf_Valid : bool;
  vf_SourceSizeMatch : bool;
  vf_SourceHashMatch : bool;
  vf_RecordsVerified : nat;
  vf_RecordErrors : list gerror;
  vf_ErrorMessage : option gerror;
}.
Definition failed (size hash : bool) (format : string) (args : list earg) : result VerifyResult :=
  Ok {| vf_Valid := false; vf_SourceSizeMatch := size; vf_SourceHashMatch := hash;
        vf_RecordsVerified := 0; vf_RecordErrors := []; vf_ErrorMessage := Some (Errorf format args) |}.

(** The name an index record has: the seekable store keeps none per record. *)
Definition record_name (header : RecordIndex) (indexed : RecordMetadata) : string :=
  if rm_ElementName indexed =s? "" then sl_ElementName (ri_Selector header) else rm_ElementName indexed.
Definition record_matches (header : RecordIndex) (indexed : RecordMetadata) (fresh : record) : bool :=
  (rm_RecordNum indexed =? Z.of_nat (rc_Num fresh))%Z
  && (rm_StartOffset indexed =? Z.of_nat (rc_StartOffset fresh))%Z
  && (rm_EndOffset indexed =? Z.of_nat (rc_EndOffset fresh))%Z
  && (rm_SizeBytes indexed =? Z.of_nat (rc_SizeBytes fresh))%Z
  && (record_name header indexed =s? rc_Name fresh)
  && (rm_Depth indexed =? Z.of_nat (rc_Depth fresh))%Z
  && (rm_NamespaceContextRef indexed =? 0)%Z.

(** The scan and the index are read in step. [raw] is the selector's text, [ifin] is the iterator's error
    behind its records, [None] for [io.EOF]. [final_summary] is what the
    provider's own summary says, if it has one. *)
Fixpoint verify_records (src : string) (header : RecordIndex) (raw : string) (final_summary : option (result SummaryStats))
    (count : nat) (recs : list record) (fin : option (walk_error Empty_set))
    (indexed : list RecordMetadata) (ifin : option gerror) : result VerifyResult :=
  let scanErr := match recs, fin with [], Some e => Some e | _, _ => None end in
  let iterErr := match indexed, ifin with [], Some e => Some e | _, _ => None end in
  match scanErr, iterErr with
  | Some e, _ => failed true true "source does not scan as JSON with selector %q: %v" [AStr raw; AErr (scan_error e)]
  | None, Some e => Err (Errorf "failed to read record %d: %w" [AInt (Z.of_nat (S count)); AErr e])
  | None, None =>
      match recs, indexed with
      | [], [] =>
          let check declared :=
            if negb (Z.of_nat count =? declared)%Z then
              failed true true "index declares %d records, but it lists and the source holds %d"
                [AInt declared; AInt (Z.of_nat count)]
            else Ok {| vf_Valid := true; vf_SourceSizeMatch := true; vf_SourceHashMatch := true;
                       vf_RecordsVerified := count; vf_RecordErrors := [];
                       vf_ErrorMessage := None |} in
          match final_summary with
          | None => check (ss_TotalRecords (ri_Summary header))
          | Some (Ok summary) => check (ss_TotalRecords summary)
          | Some (Err e) => failed true true "%v" [AErr e]
          end
      | [], _ :: _ => failed true true "index lists record %d, but the source holds only %d records for selector %q"
                        [AInt (Z.of_nat (S count)); AInt (Z.of_nat count); AStr raw]
      | _ :: _, [] => failed true true "source holds record %d for selector %q, but the index lists only %d"
                        [AInt (Z.of_nat (S count)); AStr raw; AInt (Z.of_nat count)]
      | fresh :: recs, rm :: indexed =>
          if negb (record_matches header rm fresh) then
            failed true true "record %d does not match the source: index has #%d [%d,%d) size %d name %q depth %d ref %d; source has #%d [%d,%d) size %d name %q depth %d"
              [AInt (Z.of_nat (S count)); AInt (rm_RecordNum rm); AInt (rm_StartOffset rm); AInt (rm_EndOffset rm);
               AInt (rm_SizeBytes rm); AStr (record_name header rm); AInt (rm_Depth rm); AInt (rm_NamespaceContextRef rm);
               AInt (Z.of_nat (rc_Num fresh)); AInt (Z.of_nat (rc_StartOffset fresh)); AInt (Z.of_nat (rc_EndOffset fresh));
               AInt (Z.of_nat (rc_SizeBytes fresh)); AStr (rc_Name fresh); AInt (Z.of_nat (rc_Depth fresh))]
          else
            recordHash ← wrapf "failed to compute hash for record %d: %w" [AInt (Z.of_nat (S count))]
              (rangeHash src (Z.of_nat (rc_StartOffset fresh)) (Z.of_nat (rc_EndOffset fresh)));
            if negb (recordHash =s? rm_SHA256 rm) then
              failed true true "record %d hash mismatch: expected %s, got %s"
                [AInt (Z.of_nat (S count)); AStr (rm_SHA256 rm); AStr recordHash]
            else verify_records src header raw final_summary (S count) recs fin indexed ifin
      end
  end.

Definition verifyJSON (path : string) (file : option opened) (header : RecordIndex)
    (final_summary : option (result SummaryStats))
    (indexed : list RecordMetadata) (ifin : option gerror) : result VerifyResult :=
  match jsonElementSelector (sl_XPath (ri_Selector header)) with
  | Err e => failed false false "index selector %q is not a record selector: %v"
               [AStr (sl_XPath (ri_Selector header)); AErr e]
  | Ok selector =>
      if negb (rs_ElementName selector =s? sl_ElementName (ri_Selector header)) then
        failed false false "index selector %q names %q, but the header records element_name %q"
          [AStr (sl_XPath (ri_Selector header)); AStr (rs_ElementName selector);
           AStr (sl_ElementName (ri_Selector header))]
      else if (ss_TotalRecords (ri_Summary header) <? 0)%Z then
        failed false false "index declares a negative record count %d"
          [AInt (ss_TotalRecords (ri_Summary header))]
      else
        match openJSONSource path file with
        | Err e => failed false false "%v" [AErr e]
        | Ok src =>
            if negb (src_size src =? si_SizeBytes (ri_Source header))%Z then
              failed false false "source file size mismatch: expected %d bytes, got %d bytes"
                [AInt (si_SizeBytes (ri_Source header)); AInt (src_size src)]
            else if negb (src_hash src =s? si_SHA256 (ri_Source header)) then
              failed true false "source file hash mismatch: expected %s, got %s"
                [AStr (si_SHA256 (ri_Source header)); AStr (src_hash src)]
            else
              let '(recs, fin) := src_records src selector in
              verify_records src header (rs_Raw selector) final_summary 0 recs fin indexed ifin
        end
  end.

(** ** Verifying any index (verifier.go) *)
Record VerifyOptions := {
  vo_InputFormat : string;
  vo_InputPath : string;
  vo_VerifyRecords : bool;
  vo_FailFast : bool;
}.

(** [computeRangeHashSHA256] of an open file: a range past its end hashes the
    bytes there are, a negative offset cannot be read. *)
Definition file_range_hash (data : string) (start stop : Z) : result string :=
  if (start <? 0)%Z && (start <? stop)%Z then errorf "negative offset" []
  else computeRangeHashSHA256FromReader data start stop.

(** The record loop of an XML index, with [count] records and [errors] so far. *)
Fixpoint verify_hashes (opts : VerifyOptions) (data : string) (count : nat) (errors : list gerror)
    (indexed : list RecordMetadata) (ifin : option gerror) : result VerifyResult :=
  let done_ msg := Ok {|
    vf_Valid := bool_decide (errors = []); vf_SourceSizeMatch := true; vf_SourceHashMatch := true;
    vf_RecordsVerified := count; vf_RecordErrors := errors; vf_ErrorMessage := msg |} in
  match indexed with
  | [] =>
      match ifin with
      | Some e => Err (Errorf "failed to read record %d: %w" [AInt (Z.of_nat (S count)); AErr e])
      | None => done_ (match errors with
                       | [] => None
                       | _ => Some (Errorf "%d record verification errors (see RecordErrors)"
                                      [AInt (Z.of_nat (length errors))])
                       end)
      end
  | rm :: indexed =>
      recordHash ← wrapf "failed to compute hash for record %d: %w" [AInt (rm_RecordNum rm)]
        (file_range_hash data (rm_StartOffset rm) (rm_EndOffset rm));
      if negb (recordHash =s? rm_SHA256 rm) then
        let msg := Errorf "record %d hash mismatch: expected %s, got %s"
          [AInt (rm_RecordNum rm); AStr (rm_SHA256 rm); AStr recordHash] in
        if vo_FailFast opts then
          Ok {| vf_Valid := false; vf_SourceSizeMatch := true; vf_SourceHashMatch := true;
                vf_RecordsVerified := count; vf_RecordErrors := errors ++ [msg]; vf_ErrorMessage := Some msg |}
        else verify_hashes opts data (S count) (errors ++ [msg]) indexed ifin
      else verify_hashes opts data (S count) errors indexed ifin
  end.

Definition verify_source (opts : VerifyOptions) (file : option string) (header : RecordIndex)
    (indexed : list RecordMetadata) (ifin : option gerror) : result VerifyResult :=
  match file with
  | None => failed false false "source file not found: %v" []
  | Some data =>
      if negb (src_size data =? si_SizeBytes (ri_Source header))%Z then
        failed false false "source file size mismatch: expected %d bytes, got %d bytes"
          [AInt (si_SizeBytes (ri_Source header)); AInt (src_size data)]
      else if negb (src_hash data =s? si_SHA256 (ri_Source header)) then
        failed true false "source file hash mismatch: expected %s, got %s"
          [AStr (si_SHA256 (ri_Source header)); AStr (src_hash data)]
      else if vo_VerifyRecords opts then verify_hashes opts data 0 [] indexed ifin
      else Ok {| vf_Valid := true; vf_SourceSizeMatch := true; vf_SourceHashMatch := true;
                 vf_RecordsVerified := 0; vf_RecordErrors := []; vf_ErrorMessage := None |}
  end.

Definition VerifyWithProvider (opts : VerifyOptions) (file : option opened) (header : RecordIndex)
    (final_summary : option (result SummaryStats))
    (indexed : list RecordMetadata) (ifin : option gerror) : result VerifyResult :=
  _ ← ValidateRecordIndexHeaderVersion (ri_Version header);
  format ← SourceFormat header;
  if negb (vo_InputFormat opts =s? "") && negb (vo_InputFormat opts =s? format) then
    errorf "index was built from %s input, but --input-format is %s" [AStr format; AStr (vo_InputFormat opts)]
  else
    _ ← ValidateNamespaceContextShape header;
    let header := NormalizeRecordIndex header in
    match ValidateSourceByteOffsets header (vo_InputPath opts) with
    | Err e => failed false false "%v" [AErr e]
    | Ok _ => if format =s? SourceFormatJSON
              then verifyJSON (vo_InputPath opts) file header final_summary indexed ifin
              else verify_source opts (op_data <$> file) header indexed ifin
    end.

(** [VerifySourceIntegrity]: the guard before a seekable read. *)
Definition VerifySourceIntegrity (file : option string) (source : SourceInfo) : result () :=
  match file with
  | None => errorf "stat source for integrity check: %w" []
  | Some data =>
      if negb (src_size data =? si_SizeBytes source)%Z then
        errorf "source size mismatch: index recorded %d bytes but the source is %d bytes (the source changed since the index was built; rebuild the index)"
          [AInt (si_SizeBytes source); AInt (src_size data)]
      else if negb (src_hash data =s? si_SHA256 source) then
        errorf "source SHA-256 mismatch: index recorded %s but the source hashes to %s (the source changed since the index was built; rebuild the index)"
          [AStr (si_SHA256 source); AStr (src_hash data)]
      else Ok tt
  end.
End index.
