(* ===== verification/ParJson.v ===== *)
(** * Indexed extraction of a JSON source (internal/extract/parallel/json.go)

    One goroutine reads the index and validates each record before it is
    queued, a pool of workers extracts them, and the caller's goroutine emits
    them in record order. As in [ParPipe], [jrun] is the shared state and
    [jstep] one atomic action of one goroutine. The extraction of a record from
    its document is the extract package's and a parameter here. *)
From Stdlib Require Import Ascii ZArith Lia.
From stdpp Require Import base list strings gmap relations.
From S2P Require Import Prelude GoStrings GoStrconv GoFloat GoValue GoCsv GoSha256 IndexHeader JsonReader JsonWalk JsonScan ParPipe.

Definition DefaultJSONMaxRecordBytes : Z := Z.shiftl 100 20.
Definition maxReorderWindow : Z := Z.shiftl 1 16.
Definition MaxInt64 : Z := 2 ^ 63 - 1.

(** [MaxInt] is the platform's. *)
Definition jsonRecordLimit (MaxInt mb : Z) : result Z :=
  if (mb =? 0)%Z then Ok DefaultJSONMaxRecordBytes
  else if (mb <? 0)%Z then errorf "max record size %d MB is negative" [AInt mb]
  else if (Z.shiftr MaxInt64 20 <? mb)%Z then errorf "max record size %d MB is too large" [AInt mb]
  else
    let limit := int64 (Z.shiftl mb 20) in
    if (MaxInt mod 2 ^ 64 <? limit mod 2 ^ 64)%Z then
      errorf "max record size %d MB is too large for this platform" [AInt mb]
    else Ok limit.

Record jsonWorkItem := {
  ji_num : nat;
  ji_start : Z;
  ji_end : Z;
  ji_size : Z;
  ji_sha : string;
  ji_name : string;
}.

(** ** Setting up a run *)
Section setup.
Context `{UC : UnicodeCase}.

(** What [newJSONRun] reads of the recipe. *)
Record json_options := {
  jo_record_scope : bool;            (* extract.IsRecordScope *)
  jo_MatchSelectors : list string;
  jo_MaxRecordSizeMB : Z;
  jo_Workers : Z;
  jo_ReorderWindow : Z;
}.
(** The source when it is opened; [None] where opening fails. *)
Record source_info := { so_regular : bool; so_size : Z }.

Record json_setup := { js_limit : Z; js_workers : Z; js_window : Z; js_selector : RecordSelector; js_size : Z }.

Definition reorder_window (workers window : Z) : result Z :=
  if (window <? 0)%Z then errorf "reorder window %d is negative" [AInt window]
  else if (window =? 0)%Z then Ok (workers * 2)%Z
  else if (maxReorderWindow <? window)%Z then
    errorf "reorder window %d is above the limit %d" [AInt window; AInt maxReorderWindow]
  else Ok window.

Definition newJSONRun (MaxInt NumCPU : Z) (opts : json_options) (header : RecordIndex)
    (source : option source_info) : result json_setup :=
  if negb (jo_record_scope opts) then
    errorf "the indexed route evaluates the signature per record; declare %q in the signature" [AStr "match_scope: record"]
  else match jo_MatchSelectors opts with
  | [xpath] =>
      requested ← ParseRecordSelector xpath;
      indexed ← wrapf "record index selector: %w" [] (ParseRecordSelector (sl_XPath (ri_Selector header)));
      if negb (rs_ElementName indexed =s? sl_ElementName (ri_Selector header)) then
        errorf "record index selector %q names %q, but the header records element_name %q"
          [AStr (sl_XPath (ri_Selector header)); AStr (rs_ElementName indexed); AStr (sl_ElementName (ri_Selector header))]
      else if negb (rs_Raw requested =s? rs_Raw indexed) then
        errorf "the recipe selects %q, but the index was built for %q; rebuild the index with the recipe's selector"
          [AStr (rs_Raw requested); AStr (rs_Raw indexed)]
      else
        _ ← ValidateNamespaceContextShape header;
        limit ← jsonRecordLimit MaxInt (jo_MaxRecordSizeMB opts);
        let workers := capWorkerCount NumCPU (jo_Workers opts) in
        window ← reorder_window workers (jo_ReorderWindow opts);
        match source with
        | None => errorf "failed to open source: %w" []
        | Some info =>
            if negb (so_regular info) then errorf "source is not a regular file" []
            else if negb (so_size info =? si_SizeBytes (ri_Source header))%Z then
              errorf "source is %d bytes, but the index describes %d bytes"
                [AInt (so_size info); AInt (si_SizeBytes (ri_Source header))]
            else Ok {| js_limit := limit; js_workers := workers; js_window := window;
                       js_selector := indexed; js_size := so_size info |}
        end
  | l => errorf "indexed json extraction needs exactly one match selector; found %d" [AInt (Z.of_nat (length l))]
  end.
End setup.

(** ** Checking an index record *)

(** [hex.DecodeString] succeeds. *)
Fixpoint is_hex (s : string) : bool :=
  match s with
  | "" => true
  | String a (String b t) =>
      match hex_val a, hex_val b with Some _, Some _ => is_hex t | _, _ => false end
  | String _ "" => false
  end.

(** [limit], [size] and [name] are the run's record limit, the source's size
    and the header's element name. *)
Definition validate (limit size : Z) (name : string) (rec : RecordMetadata) (expected : nat)
    : result jsonWorkItem :=
  let num := Z.of_nat expected in
  if negb (rm_RecordNum rec =? num)%Z then
    errorf "record index lists record %d where record %d was expected" [AInt (rm_RecordNum rec); AInt num]
  else if (rm_StartOffset rec <? 0)%Z || (rm_EndOffset rec <=? rm_StartOffset rec)%Z || (size <? rm_EndOffset rec)%Z then
    errorf "record %d range [%d,%d) is outside the %d-byte source"
      [AInt num; AInt (rm_StartOffset rec); AInt (rm_EndOffset rec); AInt size]
  else if negb (rm_SizeBytes rec =? rm_EndOffset rec - rm_StartOffset rec)%Z then
    errorf "record %d size %d does not match its range [%d,%d)"
      [AInt num; AInt (rm_SizeBytes rec); AInt (rm_StartOffset rec); AInt (rm_EndOffset rec)]
  else if (limit <? rm_SizeBytes rec)%Z then
    errorf "record %d is %d bytes, above the %d-byte record limit" [AInt num; AInt (rm_SizeBytes rec); AInt limit]
  else if negb (rm_NamespaceContextRef rec =? 0)%Z then
    errorf "record %d refers to namespace context %d; json records have none"
      [AInt num; AInt (rm_NamespaceContextRef rec)]
  else if (rm_Depth rec <? 1)%Z then
    errorf "record %d depth %d is not positive" [AInt num; AInt (rm_Depth rec)]
  else if negb (slen (rm_SHA256 rec) =? 64) then
    errorf "record %d hash is not a SHA-256 hex digest" [AInt num]
  else if negb (is_hex (rm_SHA256 rec)) then
    errorf "record %d hash is not a SHA-256 hex digest" [AInt num]
  else
    let rname := if rm_ElementName rec =s? "" then name else rm_ElementName rec in
    if negb (rname =s? name) then
      errorf "record %d is named %q, but the index selects %q" [AInt num; AStr rname; AStr name]
    else Ok {| ji_num := expected; ji_start := rm_StartOffset rec; ji_end := rm_EndOffset rec;
               ji_size := rm_SizeBytes rec; ji_sha := rm_SHA256 rec; ji_name := rname |}.

Record jsonOpenRange := { op_end : Z; op_depth : Z }.
(** [jro_open] holds the enclosing records, innermost first. *)
Record jsonRangeOrder := { jro_lastStart : Z; jro_open : list jsonOpenRange }.
Definition new_order : jsonRangeOrder := {| jro_lastStart := 0; jro_open := [] |}.

Fixpoint close_before (start : Z) (open : list jsonOpenRange) : list jsonOpenRange :=
  match open with
  | o :: rest => if (op_end o <=? start)%Z then close_before start rest else open
  | [] => []
  end.
Definition admit_range (o : jsonRangeOrder) (item : jsonWorkItem) (depth : Z) : result jsonRangeOrder :=
  let num := Z.of_nat (ji_num item) in
  if (1 <? ji_num item) && (ji_start item <=? jro_lastStart o)%Z then
    errorf "record %d starts at %d, not after record %d at %d; the index is not in document order"
      [AInt num; AInt (ji_start item); AInt (num - 1); AInt (jro_lastStart o)]
  else
    let open := close_before (ji_start item) (jro_open o) in
    let o' := {| jro_lastStart := ji_start item;
                 jro_open := {| op_end := ji_end item; op_depth := depth |} :: open |} in
    match open with
    | [] => Ok o'
    | parent :: _ =>
        if (op_end parent <? ji_end item)%Z then
          errorf "record %d range [%d,%d) crosses the end of an enclosing record at %d"
            [AInt num; AInt (ji_start item); AInt (ji_end item); AInt (op_end parent)]
        else if (depth <=? op_depth parent)%Z then
          errorf "record %d at depth %d lies inside a record at depth %d"
            [AInt num; AInt depth; AInt (op_depth parent)]
        else if MaxDepth <=? length open then
          errorf "record %d is nested inside more than %d records" [AInt num; AInt (Z.of_nat MaxDepth)]
        else Ok o'
    end.

(** ** One record *)
Record jsonResult (R : Type) := JsonResult { jr_num : nat; jr_records : list R; jr_err : option gerror }.
Arguments JsonResult {R} _ _ _.
Arguments jr_num {R} _.
Arguments jr_records {R} _.
Arguments jr_err {R} _.

Section process.
Context {R : Type}.   (* an extracted record *)
(** The held source: [ReadAt] of [n] bytes at an offset gives the bytes and
    an error. *)
Context (ReadAt : Z → Z → string * option gerror).
(** The extract package: the record's document scored, extracted and each of
    its records enriched. [parse_error] is the text of a parse error. *)
Context (parse_error : walk_error Empty_set → gerror).
Context (ScoreRecordSignature : jnode → result bool) (signature_mismatch : nat → gerror).
Context (ExtractRecordsFromDocument : jnode → result (list R)).
Context (EnrichRecordWithRecordNum : nat → R → result R).

(** [ParseRecord]: a record without a name is a whole document. *)
Definition ParseRecord (raw name : string) (at_ : nat) : result jnode :=
  map_err parse_error (if name =s? "" then parse raw else parseRecordValue raw name at_).

Fixpoint enrich_all (num : nat) (records : list R) : result (list R) :=
  match records with
  | [] => Ok []
  | r :: rest =>
      r ← wrapf "failed to enrich record %d: %w" [AInt (Z.of_nat num)] (EnrichRecordWithRecordNum num r);
      rest ← enrich_all num rest; Ok (r :: rest)
  end.

Definition process_records (item : jsonWorkItem) : result (list R) :=
  let num := Z.of_nat (ji_num item) in
  let '(buf, err) := ReadAt (ji_size item) (ji_start item) in
  if negb (Z.of_nat (slen buf) =? ji_size item)%Z then
    Err (Errorf "record %d: source ends inside its range: %w"
           [AInt num; AErr (default (Errorf "unexpected EOF" []) err)])
  else if negb (sha256_hex buf =s? ji_sha item) then
    errorf "record %d bytes do not match the index hash; the source changed or the index is not for it" [AInt num]
  else
    doc ← wrapf "failed to parse record %d (json): %w" [AInt num]
            (ParseRecord buf (ji_name item) (Z.to_nat (ji_start item)));
    matched ← wrapf "failed to check signature for record %d: %w" [AInt num] (ScoreRecordSignature doc);
    if negb matched then Err (signature_mismatch (ji_num item))
    else
      records ← wrapf "failed to extract fields for record %d: %w" [AInt num] (ExtractRecordsFromDocument doc);
      enrich_all (ji_num item) records.
Definition process (item : jsonWorkItem) : jsonResult R :=
  match process_records item with
  | Ok records => JsonResult (ji_num item) records None
  | Err e => JsonResult (ji_num item) [] (Some e)
  end.
End process.

(** ** The run *)
Section run.
Context {R : Type}.
Notation jsonResult := (jsonResult R).

(** Its setup: the limits of [newJSONRun], the source's size and the header's
    element name; and what a worker makes of an item. *)
Context (limit srcSize : Z) (name : string) (process : jsonWorkItem → jsonResult).
(** The index: what successive [Next] calls return before [io.EOF], and the
    store's final summary. *)
Context (index : list (result RecordMetadata)) (FinalSummary : result Z) (ctx_err : gerror).
(** The sink's answer to a record, given those it has accepted. *)
Context (OnRecord : list R → R → option gerror).
Context (MaxInt : Z) (cap window : nat).

Definition terminal (num : nat) (e : gerror) : jsonResult :=
  JsonResult num [] (Some e).

(** What the scheduler makes of one [Next]: an item to queue, a terminal
    error, or nothing more. *)
Inductive scheduled := Queue (item : jsonWorkItem) (order : jsonRangeOrder) | Terminal (r : jsonResult) | Finished.
Definition schedule_next (expected : nat) (order : jsonRangeOrder) (next : option (result RecordMetadata))
    : scheduled :=
  match next with
  | Some (Ok rec) =>
      match (item ← validate limit srcSize name rec expected;
             order ← admit_range order item (rm_Depth rec); Ok (item, order)) with
      | Ok (item, order) => Queue item order
      | Err e => Terminal (terminal expected e)
      end
  | Some (Err e) =>
      Terminal (terminal expected (Errorf "failed to read record %d from index: %w" [AInt (Z.of_nat expected); AErr e]))
  | None =>
      match FinalSummary with
      | Err e => Terminal (terminal expected (Errorf "record index summary: %w" [AErr e]))
      | Ok total =>
          if negb (total =? Z.of_nat expected - 1)%Z then
            Terminal (terminal expected
              (Errorf "record index declares %d records but lists %d" [AInt total; AInt (Z.of_nat expected - 1)]))
          else Finished
      end
  end.

(** Giving one result's records to the sink. *)
Fixpoint emit_records (num : nat) (emitted records : list R) : list R * option gerror :=
  match records with
  | [] => (emitted, None)
  | r :: rest =>
      match OnRecord emitted r with
      | Some e => (emitted, Some (Errorf "failed to emit record %d: %w" [AInt (Z.of_nat num); AErr e]))
      | None => emit_records num (emitted ++ [r]) rest
      end
  end.
Definition emit_result (emitted : list R) (p : jsonResult) : list R * option gerror :=
  match jr_err p with
  | Some e => (emitted, Some e)
  | None => emit_records (jr_num p) emitted (jr_records p)
  end.

(** The goroutines. The scheduler: before a [Next], waiting for a slot,
    sending an item, sending its terminal error, or returned with the work
    channel closed. *)
Inductive jsched :=
| JNext (order : jsonRangeOrder)
| JSlot (item : jsonWorkItem) (order : jsonRangeOrder)
| JSend (item : jsonWorkItem) (order : jsonRangeOrder)
| JTerminal (r : jsonResult)
| JReturned.
Inductive jworker := JWaiting | JProcessing (item : jsonWorkItem) | JAnswer (r : jsonResult) | JExited.
#[export] Instance jworker_exited_dec (w : jworker) : Decision (w = JExited).
Proof. destruct w; (by left) || (by right). Defined.

(** The caller: receiving results, emitting what follows, checking the source
    behind the last one, or returned with a count or an error. *)
Inductive jmain := MReceiving | MEmitting | MChecking | MReturned (outcome : result nat).

Record jrun := {
  j_expected : nat;
  j_sched : jsched;
  j_slots : nat;
  j_workers : list jworker;
  j_results : list jsonResult;      (* [resCh] *)
  j_closed : bool;                  (* [resCh] is closed *)
  j_pending : gmap nat jsonResult;
  j_next : nat;
  j_emitted : list R;
  j_failure : option gerror;
  j_main : jmain;
  j_cancelled : bool;
}.

Definition at_sched (s : jrun) (expected : nat) (at_ : jsched) (slots : nat) : jrun := {|
  j_expected := expected; j_sched := at_; j_slots := slots; j_workers := j_workers s;
  j_results := j_results s; j_closed := j_closed s; j_pending := j_pending s; j_next := j_next s;
  j_emitted := j_emitted s; j_failure := j_failure s; j_main := j_main s; j_cancelled := j_cancelled s |}.
Definition at_pool (s : jrun) (workers : list jworker) (results : list jsonResult) (closed : bool) : jrun := {|
  j_expected := j_expected s; j_sched := j_sched s; j_slots := j_slots s; j_workers := workers;
  j_results := results; j_closed := closed; j_pending := j_pending s; j_next := j_next s;
  j_emitted := j_emitted s; j_failure := j_failure s; j_main := j_main s; j_cancelled := j_cancelled s |}.
Definition at_main (s : jrun) (results : list jsonResult) (pending : gmap nat jsonResult) (at_ : jmain) : jrun := {|
  j_expected := j_expected s; j_sched := j_sched s; j_slots := j_slots s; j_workers := j_workers s;
  j_results := results; j_closed := j_closed s; j_pending := pending; j_next := j_next s;
  j_emitted := j_emitted s; j_failure := j_failure s; j_main := at_; j_cancelled := j_cancelled s |}.
Definition cancelled (s : jrun) : jrun := {|
  j_expected := j_expected s; j_sched := j_sched s; j_slots := j_slots s; j_workers := j_workers s;
  j_results := j_results s; j_closed := j_closed s; j_pending := j_pending s; j_next := j_next s;
  j_emitted := j_emitted s; j_failure := j_failure s; j_main := j_main s; j_cancelled := true |}.

(** Taking [p] out of the buffer and emitting it: a failure cancels the rest. *)
Definition emit_next (s : jrun) (p : jsonResult) : jrun :=
  let '(emitted, failure) := emit_result (j_emitted s) p in {|
  j_expected := j_expected s; j_sched := j_sched s; j_slots := pred (j_slots s); j_workers := j_workers s;
  j_results := j_results s; j_closed := j_closed s; j_pending := delete (j_next s) (j_pending s);
  j_next := match jr_err p with Some _ => j_next s | None => S (j_next s) end;
  j_emitted := emitted; j_failure := failure;
  j_main := match failure with Some _ => MReceiving | None => MEmitting end;
  j_cancelled := match failure with Some _ => true | None => j_cancelled s end |}.

(** The checks of the held source and its path behind the last record, when
    they fail: replaced, unreadable, or changed under full verification. *)
Context (VerifyIndex : bool) (final_check : option gerror).
Definition canceled_error : gerror := Errorf "extraction canceled: %w" [AErr ctx_err].

(** What the loop over the results comes to. *)
Definition loop_outcome (s : jrun) : jmain :=
  match j_failure s with
  | Some e => MReturned (Err e)
  | None =>
      if j_cancelled s then MReturned (Err canceled_error)
      else if negb (bool_decide (j_pending s = ∅)) then
        MReturned (Err (Errorf "internal error: %d records were extracted but not emitted in order"
                          [AInt (Z.of_nat (size (j_pending s)))]))
      else MChecking
  end.

(** What the next [Next] call returns: a cancelled context may make it fail. *)
Definition next_is (s : jrun) (next : option (result RecordMetadata)) : Prop :=
  next = index !! pred (j_expected s) ∨ (j_cancelled s = true ∧ next = Some (Err ctx_err)).

Definition too_many : gerror := Errorf "record index lists more records than can be numbered" [].

Inductive jstep (s : jrun) : jrun → Prop :=
(* the scheduler *)
| js_read order next :
    j_sched s = JNext order → next_is s next →
    jstep s (at_sched s (j_expected s)
               (match schedule_next (j_expected s) order next with
                | Queue item order => JSlot item order
                | Terminal r => JTerminal r
                | Finished => JReturned
                end) (j_slots s))
| js_slot item order :
    j_sched s = JSlot item order → j_slots s < window →
    jstep s (at_sched s (j_expected s) (JSend item order) (S (j_slots s)))
| js_slot_cancelled item order :
    j_sched s = JSlot item order → j_cancelled s = true →
    jstep s (at_sched s (j_expected s) JReturned (j_slots s))
| js_send item order ws1 ws2 :
    j_sched s = JSend item order → j_workers s = ws1 ++ JWaiting :: ws2 →
    jstep s (at_pool (if (Z.of_nat (j_expected s) =? MaxInt)%Z
                      then at_sched s (j_expected s) (JTerminal (terminal (j_expected s) too_many)) (j_slots s)
                      else at_sched s (S (j_expected s)) (JNext order) (j_slots s))
               (ws1 ++ JProcessing item :: ws2) (j_results s) (j_closed s))
| js_send_cancelled item order :
    j_sched s = JSend item order → j_cancelled s = true →
    jstep s (at_sched s (j_expected s) JReturned (j_slots s))
| js_terminal r :
    j_sched s = JTerminal r → length (j_results s) < cap →
    jstep s (at_pool (at_sched s (j_expected s) JReturned (j_slots s))
               (j_workers s) (j_results s ++ [r]) (j_closed s))
| js_terminal_cancelled r :
    j_sched s = JTerminal r → j_cancelled s = true →
    jstep s (at_sched s (j_expected s) JReturned (j_slots s))
(* a worker *)
| jw_process ws1 ws2 item :
    j_workers s = ws1 ++ JProcessing item :: ws2 →
    jstep s (at_pool s (ws1 ++ JAnswer (process item) :: ws2) (j_results s) (j_closed s))
| jw_answer ws1 ws2 r :
    j_workers s = ws1 ++ JAnswer r :: ws2 → length (j_results s) < cap →
    jstep s (at_pool s (ws1 ++ JWaiting :: ws2) (j_results s ++ [r]) (j_closed s))
| jw_drop ws1 ws2 r :
    j_workers s = ws1 ++ JAnswer r :: ws2 → j_cancelled s = true →
    jstep s (at_pool s (ws1 ++ JExited :: ws2) (j_results s) (j_closed s))
| jw_exit ws1 ws2 :
    j_workers s = ws1 ++ JWaiting :: ws2 → j_sched s = JReturned →
    jstep s (at_pool s (ws1 ++ JExited :: ws2) (j_results s) (j_closed s))
(* wg.Wait, close(resCh) *)
| js_close :
    j_sched s = JReturned → Forall (λ w, w = JExited) (j_workers s) → j_closed s = false →
    jstep s (at_pool s (j_workers s) (j_results s) true)
(* the caller *)
| jm_receive r rest :
    j_main s = MReceiving → j_results s = r :: rest → j_failure s = None →
    jstep s (at_main s rest (<[jr_num r := r]> (j_pending s)) MEmitting)
| jm_discard r rest e :
    j_main s = MReceiving → j_results s = r :: rest → j_failure s = Some e →
    jstep s (at_main s rest (j_pending s) MReceiving)
| jm_emit p :
    j_main s = MEmitting → j_pending s !! j_next s = Some p →
    jstep s (emit_next s p)
| jm_stall :
    j_main s = MEmitting → j_pending s !! j_next s = None →
    jstep s (at_main s (j_results s) (j_pending s) MReceiving)
| jm_end :
    j_main s = MReceiving → j_results s = [] → j_closed s = true →
    jstep s (at_main s [] (j_pending s) (loop_outcome s))
| jm_check_failed e :
    j_main s = MChecking → final_check = Some e →
    jstep s (at_main s (j_results s) (j_pending s) (MReturned (Err e)))
| jm_check_cancelled :
    j_main s = MChecking → VerifyIndex = true → j_cancelled s = true →
    jstep s (at_main s (j_results s) (j_pending s) (MReturned (Err canceled_error)))
| jm_commit :
    j_main s = MChecking → final_check = None →
    jstep s (at_main s (j_results s) (j_pending s)
               (MReturned (if j_cancelled s then Err canceled_error else Ok (length (j_emitted s))))).

(** A step, or a cancellation by the caller's context. *)
Inductive jmove (s : jrun) : jrun → Prop :=
| jmove_step s' : jstep s s' → jmove s s'
| jmove_cancel : j_cancelled s = false → jmove s (cancelled s).

Definition jstart (workers : nat) : jrun := {|
  j_expected := 1; j_sched := JNext new_order; j_slots := 0; j_workers := replicate workers JWaiting;
  j_results := []; j_closed := false; j_pending := ∅; j_next := 1; j_emitted := [];
  j_failure := None; j_main := MReceiving; j_cancelled := false |}.

(** ** The reference: one record after the other *)
Fixpoint extract_in_order (expected : nat) (order : jsonRangeOrder) (emitted : list R)
    (rest : list (result RecordMetadata)) : list R * option gerror :=
  match schedule_next expected order (head rest), rest with
  | Finished, _ => (emitted, None)
  | Terminal r, _ => (emitted, jr_err r)
  | Queue item order, _ :: rest =>
      let '(emitted, failure) := emit_result emitted (process item) in
      match failure with
      | Some e => (emitted, Some e)
      | None => extract_in_order (S expected) order emitted rest
      end
  | Queue _ _, [] => (emitted, None)
  end.
(** The records accepted by the sink, and the run's result. *)
Definition run_in_order : list R * result nat :=
  let '(emitted, failure) := extract_in_order 1 new_order [] index in
  (emitted, match failure, final_check with
            | Some e, _ => Err e
            | None, Some e => Err e
            | None, None => Ok (length emitted)
            end).
End run.
Arguments jrun : clear implicits.
Arguments jworker : clear implicits.
Arguments jsched : clear implicits.
Arguments scheduled : clear implicits.
