(* ===== verification/ParJsonSpec.v ===== *)
(** * An indexed JSON run is the sequential run

    Whatever the interleaving, the caller ends up with what extracting the
    records one after the other gives: the same rows and the same failure. *)
From Stdlib Require Import ZArith Lia.
From stdpp Require Import base strings list gmap relations.
From S2P Require Import Prelude GoStrings GoFloat GoValue GoSha256 IndexHeader JsonScan ParPipe ParJson.

Section spec.
Context {R : Type} (limit srcSize : Z) (name : string) (process : jsonWorkItem → jsonResult R).
Context (index : list (result RecordMetadata)) (FinalSummary : result Z) (ctx_err : gerror).
Context (OnRecord : list R → R → option gerror) (MaxInt : Z) (cap window : nat).
Context (VerifyIndex : bool) (final_check : option gerror) (workers : nat).
Notation jsonResult := (jsonResult R).
Notation jrun := (jrun R).
Notation schedule_next := (schedule_next (R := R) limit srcSize name FinalSummary).
Notation jstep := (jstep limit srcSize name process index FinalSummary ctx_err OnRecord MaxInt cap window
  VerifyIndex final_check).
Notation jmove := (jmove limit srcSize name process index FinalSummary ctx_err OnRecord MaxInt cap window
  VerifyIndex final_check).
Notation emit_result := (emit_result OnRecord).
Notation emit_next := (emit_next OnRecord).
Implicit Types (s : jrun).

Hypothesis numbered_results : ∀ item, jr_num (process item) = ji_num item.
Hypothesis index_fits : (Z.of_nat (length index) < MaxInt)%Z.

(** ** The plan: every result of the run, in order *)
Fixpoint plan_from (expected : nat) (order : jsonRangeOrder) (rest : list (result RecordMetadata))
    : list jsonResult :=
  match schedule_next expected order (head rest), rest with
  | Finished, _ => []
  | Terminal r, _ => [r]
  | Queue item order, _ :: rest => process item :: plan_from (S expected) order rest
  | Queue _ _, [] => []
  end.
Definition plan : list jsonResult := plan_from 1 new_order index.

Fixpoint emit_all (emitted : list R) (l : list jsonResult) : list R * option gerror :=
  match l with
  | [] => (emitted, None)
  | p :: l => let '(emitted, failure) := emit_result emitted p in
              match failure with Some e => (emitted, Some e) | None => emit_all emitted l end
  end.

Lemma jrun_schedule_number expected order next r :
  schedule_next expected order next = Terminal r → jr_num r = expected ∧ jr_err r ≠ None ∧
  ∀ emitted, emit_result emitted r = (emitted, jr_err r).
Proof.
  unfold ParJson.schedule_next. intros H.
  destruct next as [[rec|e]|]; [destruct (_ ≫= _) as [[item o]|e]; [done|]|..|
    destruct FinalSummary as [z|e]; [destruct (negb _); [|done]|]];
    injection H as <-; by split_and!.
Qed.
Lemma queue_number expected order next item order' :
  schedule_next expected order next = Queue item order' → ji_num item = expected.
Proof.
  unfold ParJson.schedule_next. destruct next as [[rec|e]|]; [|done|].
  - destruct (validate _ _ _ rec expected) as [it|e] eqn:Hv; [|done]. cbn [mbind res_bind].
    destruct (admit_range _ _ _); [|done]. intros [= <- <-]. unfold validate in Hv.
    repeat match type of Hv with (if ?b then _ else _) = _ => destruct b; [done|] end. by injection Hv as <-.
  - destruct FinalSummary; [|done]. by destruct (negb _).
Qed.
Lemma queue_next expected order next item order' :
  schedule_next expected order next = Queue item order' → ∃ rec, next = Some (Ok rec).
Proof.
  unfold ParJson.schedule_next. destruct next as [[rec|e]|]; [by eexists|done|].
  destruct FinalSummary; [|done]. by destruct (negb _).
Qed.

Lemma extract_in_order_plan expected order emitted rest :
  extract_in_order limit srcSize name process FinalSummary OnRecord expected order emitted rest
  = emit_all emitted (plan_from expected order rest).
Proof.
  revert expected order emitted. induction rest as [|x rest IH]; intros expected order emitted;
    cbn [extract_in_order plan_from head].
  - destruct (schedule_next expected order None) as [item o|r|] eqn:Hs; try done.
    apply jrun_schedule_number in Hs as (_ & He & Hem). cbn [emit_all]. rewrite Hem. by destruct (jr_err r).
  - destruct (schedule_next expected order (Some x)) as [item o|r|] eqn:Hs; try done.
    + cbn [emit_all]. destruct (emit_result emitted (process item)) as [em [e|]]; [done|]. apply IH.
    + apply jrun_schedule_number in Hs as (_ & He & Hem). cbn [emit_all]. rewrite Hem. by destruct (jr_err r).
Qed.

Lemma plan_number_from expected order rest i r :
  plan_from expected order rest !! i = Some r → jr_num r = expected + i.
Proof.
  revert expected order i. induction rest as [|x rest IH]; intros expected order i; cbn [plan_from head].
  - destruct (schedule_next expected order None) as [item o|r'|] eqn:Hs; [done| |done].
    intros [-> <-]%list_lookup_singleton_Some. apply jrun_schedule_number in Hs as [-> _]. lia.
  - destruct (schedule_next expected order (Some x)) as [item o|r'|] eqn:Hs; [| |done].
    + destruct i as [|i]; cbn.
      * intros [= <-]. rewrite numbered_results. apply queue_number in Hs as ->. lia.
      * intros ->%IH. lia.
    + intros [-> <-]%list_lookup_singleton_Some. apply jrun_schedule_number in Hs as [-> _]. lia.
Qed.
Lemma plan_number i r : plan !! i = Some r → jr_num r = S i.
Proof. apply plan_number_from. Qed.

Lemma emit_records_prefix num emitted records :
  emitted `prefix_of` (emit_records OnRecord num emitted records).1.
Proof.
  revert emitted. induction records as [|r records IH]; intros emitted; cbn [emit_records]; [done|].
  destruct (OnRecord emitted r); [done|]. etrans; [|apply IH]. by apply prefix_app_r.
Qed.
Lemma emit_result_prefix emitted p : emitted `prefix_of` (emit_result emitted p).1.
Proof. unfold ParJson.emit_result. destruct (jr_err p); [done|]. apply emit_records_prefix. Qed.
Lemma emit_all_prefix emitted l : emitted `prefix_of` (emit_all emitted l).1.
Proof.
  revert emitted. induction l as [|p l IH]; intros emitted; cbn [emit_all]; [done|].
  pose proof (emit_result_prefix emitted p) as Hp.
  destruct (emit_result emitted p) as [em [e|]]; [done|]. by etrans.
Qed.
Lemma emit_all_app emitted l k :
  emit_all emitted (l ++ k)
  = match emit_all emitted l with (em, Some e) => (em, Some e) | (em, None) => emit_all em k end.
Proof.
  revert emitted. induction l as [|p l IH]; intros emitted; cbn [emit_all app]; [done|].
  destruct (emit_result emitted p) as [em [e|]]; [done|apply IH].
Qed.
Lemma emit_take_failed i em e : emit_all [] (take i plan) = (em, Some e) → emit_all [] plan = (em, Some e).
Proof. intros H. rewrite <- (take_drop i plan), emit_all_app. by rewrite H. Qed.
Lemma emit_take_prefix i em f : emit_all [] (take i plan) = (em, f) → em `prefix_of` (emit_all [] plan).1.
Proof.
  intros H. rewrite <- (take_drop i plan), emit_all_app, H. destruct f; [done|]. apply emit_all_prefix.
Qed.
Lemma emit_take_S i p em : plan !! i = Some p → emit_all [] (take i plan) = (em, None) →
  emit_all [] (take (S i) plan) = emit_result em p.
Proof.
  intros Hp Hem. rewrite (take_S_r _ _ _ Hp), emit_all_app, Hem. cbn [emit_all].
  by destruct (emit_result em p) as [? [?|]].
Qed.

(** ** The invariant *)
Definition worker_flight (w : jworker R) : list jsonResult :=
  match w with JProcessing item => [process item] | JAnswer r => [r] | _ => [] end.
Definition pending_list s : list jsonResult := (map_to_list (j_pending s)).*2.
Definition flight s : list jsonResult := (j_workers s ≫= worker_flight) ++ j_results s ++ pending_list s.

(** How many results of the plan have been handed out. *)
Definition sent s : nat := match j_sched s with JReturned => length plan | _ => pred (j_expected s) end.

(** A result in flight is the planned one of its number, or an error of a
    cancelled run. *)
Definition good s (r : jsonResult) : Prop :=
  ∃ i, jr_num r = S i ∧ (plan !! i = Some r ∨ (j_cancelled s = true ∧ jr_err r ≠ None)).

Definition sched_inv s : Prop :=
  1 ≤ j_expected s ∧ pred (j_expected s) ≤ length plan ∧
  match j_sched s with
  | JNext order => drop (pred (j_expected s)) plan = plan_from (j_expected s) order (drop (pred (j_expected s)) index)
  | JSlot item order | JSend item order =>
      j_expected s ≤ length index ∧ ji_num item = j_expected s ∧
      drop (pred (j_expected s)) plan
      = process item :: plan_from (S (j_expected s)) order (drop (j_expected s) index)
  | JTerminal r =>
      drop (pred (j_expected s)) plan = [r] ∨
      (j_cancelled s = true ∧ jr_err r ≠ None ∧ jr_num r = j_expected s)
  | JReturned => True
  end.

(** What was emitted, when the run is [quiet]: not cancelled from outside. *)
Definition emitted_inv (quiet : bool) s : Prop :=
  match j_failure s with
  | None => emit_all [] (take (pred (j_next s)) plan) = (j_emitted s, None) ∧
            (quiet = true → j_cancelled s = false)
  | Some e => j_cancelled s = true ∧ ∃ i,
      emit_all [] (take i plan) = (j_emitted s, Some e) ∨
      (quiet = false ∧ emit_all [] (take i plan) = (j_emitted s, None))
  end.

Definition main_inv (quiet : bool) s : Prop :=
  match j_main s with
  | MReceiving => j_failure s = None → j_pending s !! j_next s = None
  | MEmitting => j_failure s = None
  | MChecking => j_failure s = None ∧ emit_all [] plan = (j_emitted s, None) ∧ j_closed s = true ∧ j_results s = []
  | MReturned (Ok n) => n = length (j_emitted s) ∧ emit_all [] plan = (j_emitted s, None) ∧ final_check = None
  | MReturned (Err e) =>
      quiet = true → emit_all [] plan = (j_emitted s, Some e) ∨
                     (emit_all [] plan = (j_emitted s, None) ∧ final_check = Some e)
  end.

Definition pool_inv s : Prop :=
  length (j_workers s) = workers ∧
  (JExited ∈ j_workers s → j_sched s = JReturned ∨ j_cancelled s = true) ∧
  (j_closed s = true → j_sched s = JReturned ∧ Forall (λ w, w = JExited) (j_workers s)).

Definition slots_inv s : Prop :=
  match j_sched s with
  | JSend _ _ => j_slots s = S (length (flight s))
  | JReturned => True
  | _ => j_slots s = length (flight s)
  end.

(** Nothing is lost before a cancellation. *)
Definition live_inv s : Prop :=
  flight s ≡ₚ drop (pred (j_next s)) (take (sent s) plan) ∧ pred (j_next s) ≤ sent s ∧ slots_inv s.

Record inv (quiet : bool) s : Prop := {
  i_good : ∀ r, r ∈ flight s → good s r;
  i_keys : ∀ k r, j_pending s !! k = Some r → jr_num r = k;
  i_next : 1 ≤ j_next s;
  i_sched : sched_inv s;
  i_emitted : emitted_inv quiet s;
  i_main : main_inv quiet s;
  i_pool : pool_inv s;
  i_window : j_slots s ≤ window;
  i_live : j_cancelled s = false → live_inv s;
}.

Lemma pending_elem s r : r ∈ pending_list s ↔ ∃ k, j_pending s !! k = Some r.
Proof.
  unfold pending_list. rewrite list_elem_of_fmap. split.
  - intros ([k x] & -> & Hin). exists k. by apply elem_of_map_to_list.
  - intros [k Hk]. exists (k, r). split; [done|by apply elem_of_map_to_list].
Qed.
Lemma flight_elem s r :
  r ∈ flight s ↔ r ∈ (j_workers s ≫= worker_flight) ∨ r ∈ j_results s ∨ ∃ k, j_pending s !! k = Some r.
Proof. unfold flight. by rewrite !elem_of_app, pending_elem. Qed.

Lemma jrun_start_inv : inv true (jstart workers).
Proof.
  assert (flight (jstart workers) = []) as Hf.
  { unfold flight, pending_list, jstart. cbn [j_workers j_results j_pending]. rewrite map_to_list_empty.
    cbn [fmap list_fmap app]. rewrite app_nil_r. induction workers as [|n IH]; [done|exact IH]. }
  constructor.
  - intros r. rewrite Hf. by intros ?%elem_of_nil.
  - intros k r Hk. cbn in Hk. by rewrite lookup_empty in Hk.
  - cbn. lia.
  - split_and!; [cbn; lia|cbn; lia|done].
  - done.
  - intros _. apply lookup_empty.
  - split_and!; [by apply length_replicate| |done]. intros Hin%elem_of_replicate. by destruct Hin.
  - cbn. lia.
  - intros _. split_and!; [|cbn; lia|].
    + rewrite Hf. cbn. by rewrite take_0.
    + unfold slots_inv. by rewrite Hf.
Qed.

(** ** Steps *)

(** The scheduler moves: the flight and the caller stay as they are. *)
Lemma jrun_inv_sched quiet s expected at_ slots :
  inv quiet s → j_closed s = false → j_sched s ≠ JReturned →
  slots ≤ window →
  sched_inv (at_sched s expected at_ slots) →
  (j_cancelled s = false → live_inv (at_sched s expected at_ slots)) →
  inv quiet (at_sched s expected at_ slots).
Proof.
  intros [Hgood Hkeys Hnext Hsched Hem Hmain (Hlen & Hex & Hcl) Hwin Hlive] Hopen Hret Hslots Hsched' Hlive'.
  constructor; try done. split_and!; [done| |].
  - intros Hin. cbn in *. destruct (Hex Hin) as [|Hc]; [done|by right].
  - cbn. by rewrite Hopen.
Qed.

Lemma not_returned quiet s : inv quiet s → j_sched s ≠ JReturned → j_closed s = false.
Proof.
  intros Hi Hs. destruct (i_pool _ _ Hi) as (_ & _ & Hcl). destruct (j_closed s); [|done].
  by destruct (Hcl eq_refl).
Qed.

(** What the plan holds where the scheduler reads. *)
Lemma read_plan expected order :
  1 ≤ expected → drop (pred expected) plan = plan_from expected order (drop (pred expected) index) →
  match schedule_next expected order (index !! pred expected) with
  | Queue item order' => expected ≤ length index ∧ ji_num item = expected ∧
      drop (pred expected) plan = process item :: plan_from (S expected) order' (drop expected index)
  | Terminal r => drop (pred expected) plan = [r]
  | Finished => length plan ≤ pred expected
  end.
Proof.
  intros Hx. destruct (index !! pred expected) as [x|] eqn:Hlk.
  - rewrite (drop_S _ _ _ Hlk). replace (S (pred expected)) with expected by lia. intros Hp.
    cbn [plan_from head] in Hp. destruct (schedule_next expected order (Some x)) as [item o|r|] eqn:Hs.
    + split_and!; [apply lookup_lt_Some in Hlk; lia|by apply queue_number in Hs|done].
    + done.
    + apply (f_equal length) in Hp. rewrite length_drop in Hp. cbn [length] in Hp. lia.
  - assert (drop (pred expected) index = []) as Hd by (apply drop_ge, lookup_ge_None; done).
    rewrite Hd. intros Hp. cbn [plan_from head] in Hp.
    destruct (schedule_next expected order None) as [item o|r|] eqn:Hs.
    + apply queue_next in Hs as [? Hs]. done.
    + done.
    + apply (f_equal length) in Hp. rewrite length_drop in Hp. cbn [length] in Hp. lia.
Qed.

Lemma inv_read quiet s order next :
  inv quiet s → j_sched s = JNext order → next_is index ctx_err s next →
  inv quiet (at_sched s (j_expected s)
    (match schedule_next (j_expected s) order next with
     | Queue item order => JSlot item order | Terminal r => JTerminal r | Finished => JReturned
     end) (j_slots s)).
Proof.
  intros Hi Hs Hn. pose proof (i_sched _ _ Hi) as (Hx & Hlen & Hsc). rewrite Hs in Hsc.
  pose proof (read_plan _ _ Hx Hsc) as Hp.
  assert (j_cancelled s = false → next = index !! pred (j_expected s)) as Heq
    by (intros Hc; destruct Hn as [|[? _]]; [done|congruence]).
  apply jrun_inv_sched; [done|by eapply not_returned; [|rewrite Hs]|by rewrite Hs|by apply Hi|..].
  - split_and!; [done..|]. cbn [at_sched j_sched j_expected j_cancelled]. destruct Hn as [->|[Hc ->]].
    + destruct (schedule_next _ _ _); [done|by left|done].
    + cbn. right. done.
  - intros Hc. destruct (i_live _ _ Hi Hc) as (Hf & Hle & Hsl). unfold slots_inv, sent in *. rewrite Hs in *.
    rewrite (Heq Hc). unfold live_inv, slots_inv, sent. cbn [at_sched j_sched j_expected j_next j_slots].
    destruct (schedule_next _ _ _); [by split_and!..|]. split_and!; [|lia|done].
    rewrite take_ge by done. by rewrite take_ge in Hf by done.
Qed.

Lemma inv_slot quiet s item order :
  inv quiet s → j_sched s = JSlot item order → j_slots s < window →
  inv quiet (at_sched s (j_expected s) (JSend item order) (S (j_slots s))).
Proof.
  intros Hi Hs Hw. pose proof (i_sched _ _ Hi) as (Hx & Hlen & Hsc). rewrite Hs in Hsc.
  apply jrun_inv_sched; [done|by eapply not_returned; [|rewrite Hs]|by rewrite Hs|lia|done|].
  intros Hc. destruct (i_live _ _ Hi Hc) as (Hf & Hle & Hsl). unfold live_inv, slots_inv, sent in *.
  rewrite Hs in *. cbn. split_and!; [done|done|by rewrite Hsl].
Qed.

Lemma inv_give_up quiet s :
  inv quiet s → j_sched s ≠ JReturned → j_cancelled s = true →
  inv quiet (at_sched s (j_expected s) JReturned (j_slots s)).
Proof.
  intros Hi Hs Hc. apply jrun_inv_sched; [done|by eapply not_returned|done|by apply Hi|..].
  - destruct (i_sched _ _ Hi) as (? & ? & _). by split_and!.
  - cbn. congruence.
Qed.

(** The pool moves. [F] is what the flight becomes. *)
Lemma inv_pool quiet s s' :
  inv quiet s →
  j_cancelled s' = j_cancelled s → j_pending s' = j_pending s → j_next s' = j_next s →
  j_emitted s' = j_emitted s → j_failure s' = j_failure s → j_main s' = j_main s → j_slots s' = j_slots s →
  (∀ r, r ∈ flight s' → good s' r) →
  (j_closed s = true → j_closed s' = true ∧ j_results s' = j_results s) →
  sched_inv s' → pool_inv s' → (j_cancelled s = false → live_inv s') →
  inv quiet s'.
Proof.
  intros [Hgood Hkeys Hnext Hsched Hem Hmain Hpool Hwin Hlive] Hc Hp Hn He Hf Hm Hsl Hgood' Hcl Hs' Hp' Hl'.
  constructor.
  - done.
  - by rewrite Hp.
  - by rewrite Hn.
  - done.
  - unfold emitted_inv in *. by rewrite Hf, Hn, He, Hc.
  - unfold main_inv in *. rewrite Hm, Hf, Hp, Hn, He. destruct (j_main s); try done.
    destruct Hmain as (? & ? & Hclosed & Hres). destruct (Hcl Hclosed) as [-> ->]. done.
  - done.
  - by rewrite Hsl.
  - by rewrite Hc.
Qed.

Lemma flight_pool s workers' results closed :
  flight (at_pool s workers' results closed) = (workers' ≫= worker_flight) ++ results ++ pending_list s.
Proof. done. Qed.

(** The pool after one worker has moved. *)
Lemma jrun_pool_move s s' ws1 w w' ws2 :
  pool_inv s → j_workers s = ws1 ++ w :: ws2 → w ≠ JExited → j_workers s' = ws1 ++ w' :: ws2 →
  j_closed s' = j_closed s → j_cancelled s' = j_cancelled s → (j_sched s = JReturned → j_sched s' = JReturned) →
  (w' = JExited → j_sched s' = JReturned ∨ j_cancelled s' = true) → pool_inv s'.
Proof.
  intros (Hlen & Hex & Hcl) Hws Hw Hws' Hc Hcan Hs He. unfold pool_inv. rewrite Hws', Hc, Hcan. rewrite Hws in *.
  split_and!.
  - rewrite <- Hlen, !length_app. done.
  - rewrite elem_of_app, elem_of_cons. intros [Hin|[<-|Hin]].
    + destruct Hex as [?|?]; [by apply elem_of_app; left|left; auto|by right].
    + rewrite <- Hcan. by apply He.
    + destruct Hex as [?|?]; [apply elem_of_app; right; by right|left; auto|by right].
  - intros Hcls. specialize (Hcl Hcls) as [_ Hall]. apply Forall_app in Hall as [_ Hall].
    by apply Forall_cons in Hall as [? _].
Qed.
Lemma live_not_closed quiet s ws1 w ws2 :
  inv quiet s → j_workers s = ws1 ++ w :: ws2 → w ≠ JExited → j_closed s = false.
Proof.
  intros Hi Hws Hw. destruct (i_pool _ _ Hi) as (_ & _ & Hcl). destruct (j_closed s); [|done].
  destruct (Hcl eq_refl) as [_ Hall]. rewrite Hws in Hall. apply Forall_app in Hall as [_ Hall].
  by apply Forall_cons in Hall as [? _].
Qed.
Lemma bind_mid ws1 w ws2 :
  ((ws1 ++ w :: ws2) ≫= worker_flight) = (ws1 ≫= worker_flight) ++ worker_flight w ++ (ws2 ≫= worker_flight).
Proof. by rewrite bind_app, bind_cons. Qed.
Lemma jrun_good_mono s s' r : j_cancelled s' = j_cancelled s → good s r → good s' r.
Proof. unfold good. by intros ->. Qed.

(** A result moves from a worker towards the caller. *)
Lemma jrun_inv_deliver quiet s ws1 w w' ws2 results :
  inv quiet s → j_workers s = ws1 ++ w :: ws2 → w ≠ JExited →
  (w' = JExited → j_sched s = JReturned ∨ j_cancelled s = true) →
  worker_flight w' ++ results ⊆ worker_flight w ++ j_results s →
  (j_cancelled s = false → worker_flight w' ++ results ≡ₚ worker_flight w ++ j_results s) →
  inv quiet (at_pool s (ws1 ++ w' :: ws2) results (j_closed s)).
Proof.
  intros Hi Hws Hw Hw' Hsub Hperm. pose proof (live_not_closed _ _ _ _ _ Hi Hws Hw) as Hopen.
  assert (∀ r, r ∈ flight (at_pool s (ws1 ++ w' :: ws2) results (j_closed s)) → r ∈ flight s) as Hin.
  { intros r. unfold flight. cbn [at_pool j_workers j_results]. rewrite Hws, !bind_mid, !elem_of_app.
    intros H. specialize (Hsub r). rewrite !elem_of_app in Hsub. tauto. }
  eapply inv_pool; try done.
  - intros r Hr. eapply jrun_good_mono; [|by apply (i_good _ _ Hi), Hin]. done.
  - by rewrite Hopen.
  - apply (i_sched _ _ Hi).
  - eapply jrun_pool_move; [by apply Hi|done|done|done..].
  - intros Hc. destruct (i_live _ _ Hi Hc) as (Hf & Hle & Hsl). specialize (Hperm Hc).
    assert (flight (at_pool s (ws1 ++ w' :: ws2) results (j_closed s)) ≡ₚ flight s) as Hfl.
    { unfold flight. cbn [at_pool j_workers j_results]. rewrite Hws, !bind_mid. unfold pending_list. cbn [j_pending].
      transitivity ((worker_flight w' ++ results) ++ (ws1 ≫= worker_flight) ++ (ws2 ≫= worker_flight)
        ++ (map_to_list (j_pending s)).*2); [solve_Permutation|]. rewrite Hperm. solve_Permutation. }
    split_and!; [|done|]; [by rewrite Hfl|]. unfold slots_inv in *. cbn [at_pool j_sched j_slots].
    by rewrite (Permutation_length Hfl).
Qed.

(** The scheduler hands something to a worker or to the caller. *)
Lemma inv_hand quiet s s' r :
  inv quiet s → j_closed s = false → j_sched s ≠ JReturned →
  j_closed s' = j_closed s → j_cancelled s' = j_cancelled s → j_pending s' = j_pending s → j_next s' = j_next s →
  j_emitted s' = j_emitted s → j_failure s' = j_failure s → j_main s' = j_main s → j_slots s' = j_slots s →
  flight s' ≡ₚ r :: flight s → good s r → sched_inv s' → pool_inv s' →
  (j_cancelled s = false → drop (pred (j_expected s)) plan = r :: drop (j_expected s) plan ∧
     sent s = pred (j_expected s) ∧ sent s' = j_expected s ∧ slots_inv s') →
  inv quiet s'.
Proof.
  intros Hi Hopen Hs Hcl Hcan Hp Hn He Hf Hm Hsl Hfl Hr Hs' Hp' Hlive.
  eapply inv_pool; try done.
  - intros x Hx. rewrite Hfl in Hx. apply elem_of_cons in Hx as [->|Hx]; (eapply jrun_good_mono; [done|]); [done|].
    by apply (i_good _ _ Hi).
  - by rewrite Hopen.
  - intros Hc. destruct (Hlive Hc) as (Hd & Hst & Hst' & Hslots).
    destruct (i_live _ _ Hi Hc) as (Hperm & Hle & _). pose proof (i_sched _ _ Hi) as (Hx & _ & _).
    split_and!; [|rewrite Hn, Hst'; lia|done].
    rewrite Hfl, Hn, Hst', Hperm, Hst. rewrite Hst in Hle.
    assert (plan !! pred (j_expected s) = Some r) as Hlk.
    { rewrite <- (Nat.add_0_r (pred (j_expected s))), <- lookup_drop, Hd. done. }
    replace (take (j_expected s) plan) with (take (S (pred (j_expected s))) plan) by (f_equal; lia).
    rewrite (take_S_r _ _ _ Hlk), drop_app_le by (rewrite length_take; apply lookup_lt_Some in Hlk; lia).
    solve_Permutation.
Qed.

Lemma plan_here s r :
  sched_inv s → drop (pred (j_expected s)) plan = r :: drop (j_expected s) plan →
  plan !! pred (j_expected s) = Some r.
Proof. intros _ Hd. by rewrite <- (Nat.add_0_r (pred (j_expected s))), <- lookup_drop, Hd. Qed.
(** The plan behind its next result. *)
Lemma drop_next (x : jsonResult) l e : 1 ≤ e → drop (pred e) plan = x :: l → drop (pred e) plan = x :: drop e plan ∧ l = drop e plan.
Proof.
  intros He Hd. destruct (plan !! pred e) as [y|] eqn:Hy.
  - pose proof (drop_S _ _ _ Hy) as Hs. replace (S (pred e)) with e in Hs by lia. rewrite Hd in Hs.
    injection Hs as -> Hl. by rewrite Hd, Hl.
  - apply lookup_ge_None in Hy. by rewrite drop_ge in Hd.
Qed.

Lemma jrun_inv_send quiet s item order ws1 ws2 :
  inv quiet s → j_sched s = JSend item order → j_workers s = ws1 ++ JWaiting :: ws2 →
  inv quiet (at_pool (if (Z.of_nat (j_expected s) =? MaxInt)%Z
                      then at_sched s (j_expected s) (JTerminal (terminal (j_expected s) too_many)) (j_slots s)
                      else at_sched s (S (j_expected s)) (JNext order) (j_slots s))
               (ws1 ++ JProcessing item :: ws2) (j_results s) (j_closed s)).
Proof.
  intros Hi Hs Hws. pose proof (i_sched _ _ Hi) as (Hx & Hlen & Hsc). rewrite Hs in Hsc.
  destruct Hsc as (Hin & Hnum & Hd).
  destruct (Z.eqb_spec (Z.of_nat (j_expected s)) MaxInt) as [He|_]; [lia|].
  apply drop_next in Hd as [Hd Hrest]; [|done].
  assert (sched_inv s) as Hsi by apply (i_sched _ _ Hi).
  pose proof (plan_here s _ Hsi Hd) as Hlk.
  eapply (inv_hand quiet s _ (process item)); try done.
  - eapply not_returned; [done|by rewrite Hs].
  - by rewrite Hs.
  - unfold flight, pending_list. cbn [at_pool at_sched j_workers j_results j_pending]. rewrite Hws, !bind_mid. cbn [worker_flight].
    solve_Permutation.
  - exists (pred (j_expected s)). split; [|by left]. rewrite numbered_results, Hnum. lia.
  - split_and!; cbn [at_pool at_sched j_expected j_sched pred]; [lia|apply lookup_lt_Some in Hlk; lia|done].
  - eapply jrun_pool_move; [by apply Hi|done|done|done|done|done|by rewrite Hs|done].
  - intros Hc. destruct (i_live _ _ Hi Hc) as (_ & _ & Hsl). split_and!; [done|unfold sent; by rewrite Hs|done|].
    unfold slots_inv in *. rewrite Hs in Hsl. cbn [at_pool at_sched j_sched j_slots]. rewrite Hsl.
    unfold flight, pending_list. cbn [at_pool at_sched j_workers j_results j_pending]. rewrite Hws, !bind_mid. cbn [worker_flight].
    rewrite !length_app. cbn [length]. lia.
Qed.

Lemma inv_terminal quiet s r :
  inv quiet s → j_sched s = JTerminal r →
  inv quiet (at_pool (at_sched s (j_expected s) JReturned (j_slots s)) (j_workers s) (j_results s ++ [r]) (j_closed s)).
Proof.
  intros Hi Hs. pose proof (i_sched _ _ Hi) as (Hx & Hlen & Hsc). rewrite Hs in Hsc.
  assert (j_closed s = false) as Hopen by (eapply not_returned; [done|by rewrite Hs]).
  assert (flight (at_pool (at_sched s (j_expected s) JReturned (j_slots s)) (j_workers s) (j_results s ++ [r]) (j_closed s))
    ≡ₚ r :: flight s) as Hfl.
  { unfold flight, pending_list. cbn [at_pool at_sched j_workers j_results j_pending]. solve_Permutation. }
  assert (pool_inv (at_pool (at_sched s (j_expected s) JReturned (j_slots s)) (j_workers s) (j_results s ++ [r]) (j_closed s))) as Hpool.
  { destruct (i_pool _ _ Hi) as (? & ? & _). split_and!; [done|by left|cbn; congruence]. }
  destruct Hsc as [Hd|(Hc & He & Hn)].
  - pose proof (drop_next _ _ _ Hx Hd) as [Hd' Hnil].
    pose proof (plan_here s _ (i_sched _ _ Hi) Hd') as Hlk.
    assert (length plan = j_expected s) as Hlp.
    { apply (f_equal length) in Hd. rewrite length_drop in Hd. cbn [length] in Hd. lia. }
    eapply (inv_hand quiet s _ r); try done.
    + by rewrite Hs.
    + exists (pred (j_expected s)). split; [by apply plan_number|by left].
    + intros Hc. split_and!; [done|unfold sent; by rewrite Hs|done|done].
  - eapply (inv_hand quiet s _ r); try done.
    + by rewrite Hs.
    + exists (pred (j_expected s)). split; [lia|by right].
    + congruence.
Qed.

(** The caller moves. *)
Lemma jrun_inv_receive quiet s r rest :
  inv quiet s → j_main s = MReceiving → j_results s = r :: rest → j_failure s = None →
  inv quiet (at_main s rest (<[jr_num r := r]> (j_pending s)) MEmitting).
Proof.
  intros Hi Hm Hr Hf. destruct Hi as [Hgood Hkeys Hnext Hsched Hem Hmain Hpool Hwin Hlive].
  assert (∀ x, x ∈ flight (at_main s rest (<[jr_num r := r]> (j_pending s)) MEmitting) → x ∈ flight s) as Hin.
  { intros x. rewrite !flight_elem, Hr. cbn [at_main j_workers j_results j_pending].
    intros [?|[?|[k [[_ ->]|[_ ?]]%lookup_insert_Some]]]; [by left|right; left; by right|right; left; by left|].
    right. right. by exists k. }
  constructor; try done.
  - intros x Hx. apply (jrun_good_mono s); [done|]. by apply Hgood, Hin.
  - cbn [at_main j_pending]. intros k x [[<- <-]|[_ Hk]]%lookup_insert_Some; [done|by apply Hkeys].
  - intros Hc. destruct (Hlive Hc) as (Hperm & Hle & Hsl).
    assert (j_pending s !! jr_num r = None) as Hfresh.
    { destruct (j_pending s !! jr_num r) as [x|] eqn:Hx; [|done]. exfalso.
      assert (NoDup (jr_num <$> flight s)) as Hnd.
      { rewrite Hperm. apply NoDup_fmap_2_strong.
        - intros a b (i & Ha)%list_elem_of_lookup (j & Hb)%list_elem_of_lookup Heq.
          rewrite lookup_drop in Ha, Hb. apply lookup_take_Some in Ha as [Ha _]. apply lookup_take_Some in Hb as [Hb _].
          pose proof (plan_number _ _ Ha). pose proof (plan_number _ _ Hb).
          assert (i = j) by lia. subst. congruence.
        - apply NoDup_alt. intros i j a Ha Hb. rewrite lookup_drop in Ha, Hb.
          apply lookup_take_Some in Ha as [Ha _]. apply lookup_take_Some in Hb as [Hb _].
          pose proof (plan_number _ _ Ha). pose proof (plan_number _ _ Hb). lia. }
      unfold flight in Hnd. rewrite Hr, !fmap_app, fmap_cons, !NoDup_app in Hnd.
      destruct Hnd as (_ & _ & Hnd & Hdis & _). apply (Hdis (jr_num r)); [by left|].
      rewrite <- (Hkeys _ _ Hx). apply list_elem_of_fmap_2, pending_elem. eauto. }
    assert (flight (at_main s rest (<[jr_num r := r]> (j_pending s)) MEmitting) ≡ₚ flight s) as Hfl.
    { unfold flight, pending_list. cbn [at_main j_workers j_results j_pending].
      rewrite map_to_list_insert, Hr by done. cbn [fmap list_fmap snd]. solve_Permutation. }
    split_and!; [by rewrite Hfl|done|]. unfold slots_inv in *. cbn [at_main j_sched j_slots].
    by rewrite (Permutation_length Hfl).
Qed.

(** Leaving the flight alone, or dropping results in a cancelled run. *)
Lemma inv_main quiet s results at_ :
  inv quiet s → (∀ r, r ∈ results → r ∈ j_results s) →
  (j_cancelled s = false → results = j_results s) →
  main_inv quiet (at_main s results (j_pending s) at_) →
  inv quiet (at_main s results (j_pending s) at_).
Proof.
  intros [Hgood Hkeys Hnext Hsched Hem Hmain Hpool Hwin Hlive] Hres Heq Hmain'. constructor; try done.
  - intros x Hx. apply (jrun_good_mono s); [done|]. apply Hgood. rewrite flight_elem in *.
    cbn [at_main j_workers j_results j_pending] in Hx. naive_solver.
  - intros Hc. destruct (Hlive Hc) as (Hperm & Hle & Hsl).
    assert (flight (at_main s results (j_pending s) at_) = flight s) as Hfl.
    { unfold flight. cbn [at_main j_workers j_results]. by rewrite (Heq Hc). }
    split_and!; [by rewrite Hfl|done|]. unfold slots_inv in *. cbn [at_main j_sched j_slots]. by rewrite Hfl.
Qed.

Lemma pending_delete s p : j_pending s !! j_next s = Some p →
  pending_list s ≡ₚ p :: (map_to_list (delete (j_next s) (j_pending s))).*2.
Proof. intros Hp. unfold pending_list. by rewrite <- (map_to_list_delete (j_pending s)) by done. Qed.

Lemma emit_result_None emitted p em : emit_result emitted p = (em, None) → jr_err p = None.
Proof. unfold ParJson.emit_result. by destruct (jr_err p). Qed.
Lemma emit_result_error emitted p : jr_err p ≠ None → emit_result emitted p = (emitted, jr_err p).
Proof. unfold ParJson.emit_result. by destruct (jr_err p). Qed.

Lemma jrun_inv_emit quiet s p :
  inv quiet s → j_main s = MEmitting → j_pending s !! j_next s = Some p → inv quiet (emit_next s p).
Proof.
  intros Hi Hm Hp. pose proof (i_main _ _ Hi) as Hf. unfold main_inv in Hf. rewrite Hm in Hf.
  pose proof (i_emitted _ _ Hi) as Hem. unfold emitted_inv in Hem. rewrite Hf in Hem. destruct Hem as [Hem Hq].
  assert (p ∈ flight s) as Hin by (apply flight_elem; right; right; eauto).
  pose proof (i_keys _ _ Hi _ _ Hp) as Hnum. destruct (i_good _ _ Hi _ Hin) as (i & Hnum' & Hgood).
  assert (i = pred (j_next s)) as -> by lia. clear Hnum'. pose proof (i_next _ _ Hi) as Hnext.
  destruct Hi as [Hgoods Hkeys _ Hsched _ _ Hpool Hwin Hlive].
  unfold ParJson.emit_next. destruct (emit_result (j_emitted s) p) as [em [e|]] eqn:Hr; cbn [snd fst].
  - constructor; cbn [j_pending j_next j_slots j_cancelled]; try done.
    + intros x Hx. destruct (Hgoods x) as (i & Hn & Hx').
      { rewrite flight_elem in *. cbn [j_workers j_results j_pending] in Hx.
        destruct Hx as [?|[?|[k [_ ?]%lookup_delete_Some]]]; eauto. }
      exists i. split; [done|]. cbn. destruct Hx' as [?|[? ?]]; [by left|by right].
    + intros k x [_ Hk]%lookup_delete_Some. by apply Hkeys.
    + destruct (jr_err p); lia.
    + destruct Hsched as (? & ? & Hs). split_and!; [done..|]. cbn. destruct (j_sched s); try done.
      destruct Hs as [?|(? & ? & ?)]; [by left|right; done].
    + unfold emitted_inv. cbn [j_failure j_cancelled j_emitted]. split; [done|].
      destruct Hgood as [Hg|[Hc He]].
      * exists (S (pred (j_next s))). left. by rewrite (emit_take_S _ _ _ Hg Hem).
      * exists (pred (j_next s)). right. rewrite emit_result_error in Hr by done. injection Hr as <- _.
        destruct quiet; [by rewrite Hq in Hc|]. done.
    + destruct Hpool as (? & ? & ?). split_and!; [done|by right|done].
    + lia.
  - pose proof (emit_result_None _ _ _ Hr) as Hok. rewrite Hok.
    destruct Hgood as [Hg|[_ He]]; [|congruence].
    constructor; cbn [j_pending j_next j_slots j_cancelled]; try done.
    + intros x Hx. apply (jrun_good_mono s); [done|]. apply Hgoods.
      rewrite flight_elem in *. cbn [j_workers j_results j_pending] in Hx.
      destruct Hx as [?|[?|[k [_ ?]%lookup_delete_Some]]]; eauto.
    + intros k x [_ Hk]%lookup_delete_Some. by apply Hkeys.
    + lia.
    + unfold emitted_inv. cbn [j_failure j_cancelled j_emitted j_next]. split; [|done].
      replace (pred (S (j_next s))) with (S (pred (j_next s))) by lia. by rewrite (emit_take_S _ _ _ Hg Hem).
    + lia.
    + intros Hc. destruct (Hlive Hc) as (Hperm & Hle & Hsl).
      match goal with |- live_inv ?s' => set (s'' := s') end.
      assert (flight s ≡ₚ p :: flight s'') as Hfl.
      { unfold flight. rewrite (pending_delete _ _ Hp). cbn [s'' j_workers j_results].
        change (pending_list s'') with ((map_to_list (delete (j_next s) (j_pending s))).*2). solve_Permutation. }
      assert (pred (j_next s) < sent s) as Hlt.
      { destruct (decide (sent s ≤ pred (j_next s))) as [Hge|]; [|lia].
        rewrite drop_ge in Hperm by (rewrite length_take; lia). rewrite Hperm in Hfl.
        by apply Permutation_nil_cons in Hfl. }
      split_and!; [|cbn [s'' j_next pred]; change (sent s'') with (sent s); lia|].
      * apply (Permutation_cons_inv (a := p)). rewrite <- Hfl, Hperm. cbn [s'' j_next pred].
        change (sent s'') with (sent s).
        assert (take (sent s) plan !! pred (j_next s) = Some p) as Hlk by (by rewrite lookup_take_lt).
        rewrite (drop_S _ _ _ Hlk). replace (S (pred (j_next s))) with (j_next s) by lia. done.
      * unfold slots_inv in *. change (j_sched s'') with (j_sched s). cbn [s'' j_slots].
        rewrite (Permutation_length Hfl) in Hsl. cbn [length] in Hsl. destruct (j_sched s); lia || done.
Qed.

Lemma inv_end quiet s :
  inv quiet s → j_main s = MReceiving → j_results s = [] → j_closed s = true →
  inv quiet (at_main s [] (j_pending s) (loop_outcome ctx_err s)).
Proof.
  intros Hi Hm Hr Hc. apply inv_main; [done|by intros r ?%elem_of_nil|by rewrite Hr|].
  pose proof (i_main _ _ Hi) as Hmain. unfold main_inv in Hmain. rewrite Hm in Hmain.
  pose proof (i_emitted _ _ Hi) as Hem. unfold emitted_inv in Hem.
  unfold main_inv, loop_outcome. cbn [at_main j_main j_emitted j_failure j_closed j_results].
  destruct (j_failure s) as [e|] eqn:Hf.
  - intros ->. destruct Hem as (_ & i & [Hem|[? _]]); [|done]. left. by eapply emit_take_failed.
  - destruct Hem as [Hem Hq]. destruct (j_cancelled s) eqn:Hcan.
    { intros ->. by specialize (Hq eq_refl). }
    destruct (i_live _ _ Hi Hcan) as (Hperm & Hle & _).
    destruct (i_pool _ _ Hi) as (_ & _ & Hcl). destruct (Hcl Hc) as [Hs Hall].
    unfold sent in *. rewrite Hs in *. rewrite (take_ge plan) in Hperm by done.
    assert (flight s = pending_list s) as Hfl.
    { unfold flight. rewrite Hr. cbn [app]. assert (j_workers s ≫= worker_flight = []) as ->; [|done].
      clear -Hall. induction Hall as [|w ws -> _ IH]; [done|exact IH]. }
    assert (length plan ≤ pred (j_next s)) as Hdone.
    { destruct (decide (length plan ≤ pred (j_next s))) as [|Hgt]; [done|]. exfalso.
      destruct (lookup_lt_is_Some_2 plan (pred (j_next s))) as [p Hp]; [lia|].
      assert (p ∈ pending_list s) as Hin by (rewrite <- Hfl, Hperm, (drop_S _ _ _ Hp); by left).
      apply pending_elem in Hin as [k Hk]. pose proof (i_keys _ _ Hi _ _ Hk). pose proof (plan_number _ _ Hp).
      pose proof (i_next _ _ Hi). assert (k = j_next s) as -> by lia. by rewrite Hmain in Hk. }
    rewrite drop_ge in Hperm by done. rewrite Hfl in Hperm. apply Permutation_nil_r in Hperm.
    assert (j_pending s = ∅) as Hempty.
    { apply map_to_list_empty_iff. unfold pending_list in Hperm. by apply fmap_nil_inv in Hperm. }
    rewrite bool_decide_eq_true_2 by done. cbn [negb]. split_and!; try done.
    by rewrite take_ge in Hem.
Qed.

Lemma jrun_inv_cancel quiet s : inv quiet s → inv false (cancelled s).
Proof.
  intros [Hgood Hkeys Hnext Hsched Hem Hmain (Hlen & Hex & Hcl) Hwin Hlive]. constructor; try done.
  - intros r Hr. destruct (Hgood r Hr) as (i & Hn & [Hg|[_ Hg]]); exists i; [by split; [|left]|by split; [|right]].
  - destruct Hsched as (? & ? & Hs). split_and!; [done..|]. cbn. destruct (j_sched s); try done.
    destruct Hs as [?|(? & ? & ?)]; [by left|by right].
  - unfold emitted_inv in *. cbn [cancelled j_failure j_cancelled j_next j_emitted].
    destruct (j_failure s); [|destruct Hem as [Hem _]; by split]. destruct Hem as (_ & i & [Hem|[_ Hem]]); (split; [done|]); exists i; auto.
  - unfold main_inv in *. cbn. destruct (j_main s) as [| | |[n|e]]; done.
  - split_and!; [done|by right|done].
Qed.

Lemma inv_step quiet s s' : inv quiet s → jstep s s' → inv quiet s'.
Proof.
  intros Hi Hstep. pose proof (i_main _ _ Hi) as Hm. unfold main_inv in Hm.
  destruct Hstep as [order next Hs Hn|item order Hs Hw|item order Hs Hc|item order ws1 ws2 Hs Hws|item order Hs Hc
    |r Hs Hl|r Hs Hc|ws1 ws2 item Hws|ws1 ws2 r Hws Hl|ws1 ws2 r Hws Hc|ws1 ws2 Hws Hs|Hs Hall Hc
    |r rest Hat Hr Hf|r rest e Hat Hr Hf|p Hat Hp|Hat Hp|Hat Hr Hc|e Hat He|Hat Hv Hc|Hat He];
    try rewrite Hat in Hm.
  - by apply inv_read.
  - by apply inv_slot.
  - apply inv_give_up; [done|by rewrite Hs|done].
  - by apply jrun_inv_send.
  - apply inv_give_up; [done|by rewrite Hs|done].
  - by apply inv_terminal.
  - apply inv_give_up; [done|by rewrite Hs|done].
  - eapply jrun_inv_deliver; try done.
  - eapply jrun_inv_deliver; try done; cbn [worker_flight app].
    + intros x. set_solver.
    + intros _. solve_Permutation.
  - eapply jrun_inv_deliver; try done; cbn [worker_flight app]; [by right|set_solver|congruence].
  - eapply jrun_inv_deliver; try done. by left.
  - eapply inv_pool; try done; [by apply (i_good _ _ Hi)|by apply (i_sched _ _ Hi)| |by apply (i_live _ _ Hi)].
    + destruct (i_pool _ _ Hi) as (? & ? & _). by split_and!.
  - by apply jrun_inv_receive.
  - apply inv_main; [done|rewrite Hr; by right| |].
    + intros Hc. pose proof (i_emitted _ _ Hi) as Hem. unfold emitted_inv in Hem. rewrite Hf in Hem.
      destruct Hem as [? _]. congruence.
    + unfold main_inv. cbn. congruence.
  - by apply jrun_inv_emit.
  - apply inv_main; [done|done|done|]. unfold main_inv. cbn. done.
  - by apply inv_end.
  - apply inv_main; [done|done|done|]. unfold main_inv. cbn. destruct Hm as (_ & Hm & _). intros _. by right.
  - apply inv_main; [done|done|done|]. unfold main_inv. cbn. destruct Hm as (Hf & _).
    pose proof (i_emitted _ _ Hi) as Hem. unfold emitted_inv in Hem. rewrite Hf in Hem. destruct Hem as [_ Hq].
    intros ->. by rewrite Hq in Hc.
  - apply inv_main; [done|done|done|]. unfold main_inv. cbn [at_main j_main j_emitted]. destruct Hm as (Hf & Hm & _).
    pose proof (i_emitted _ _ Hi) as Hem. unfold emitted_inv in Hem. rewrite Hf in Hem. destruct Hem as [_ Hq].
    destruct (j_cancelled s); [|done]. intros ->. by specialize (Hq eq_refl).
Qed.

(** ** Progress *)
Hypothesis room : 0 < cap.
Hypothesis some_slot : 0 < window.
Hypothesis some_worker : 0 < workers.

Lemma waiting_caller quiet s :
  inv quiet s → j_main s = MReceiving → j_cancelled s = false → j_pending s !! j_next s = None.
Proof.
  intros Hi Hm Hc. pose proof (i_main _ _ Hi) as Hmain. unfold main_inv in Hmain. rewrite Hm in Hmain.
  apply Hmain. pose proof (i_emitted _ _ Hi) as Hem. unfold emitted_inv in Hem.
  destruct (j_failure s); [|done]. destruct Hem as [? _]. congruence.
Qed.
(** With the pool idle and nothing to receive, the buffer is empty too. *)
Lemma idle_flight quiet s :
  inv quiet s → j_main s = MReceiving → j_cancelled s = false → j_results s = [] →
  j_workers s ≫= worker_flight = [] → flight s = [].
Proof.
  intros Hi Hm Hc Hr Hw. pose proof (waiting_caller _ _ Hi Hm Hc) as Hnone.
  destruct (i_live _ _ Hi Hc) as (Hperm & Hle & _).
  assert (flight s = pending_list s) as Hfl by (unfold flight; by rewrite Hw, Hr).
  destruct (decide (length (take (sent s) plan) ≤ pred (j_next s))) as [Hge|Hlt].
  { rewrite drop_ge in Hperm by done. by apply Permutation_nil_r. }
  exfalso. destruct (lookup_lt_is_Some_2 (take (sent s) plan) (pred (j_next s))) as [p Hp]; [lia|].
  assert (p ∈ pending_list s) as Hin by (rewrite <- Hfl, Hperm, (drop_S _ _ _ Hp); by left).
  apply lookup_take_Some in Hp as [Hp _].
  apply pending_elem in Hin as [k Hk]. pose proof (i_keys _ _ Hi _ _ Hk). pose proof (plan_number _ _ Hp).
  pose proof (i_next _ _ Hi). assert (k = j_next s) as -> by lia. congruence.
Qed.

Lemma jrun_worker_of (P : jworker R → Prop) ws : Exists P ws → ∃ ws1 w ws2, ws = ws1 ++ w :: ws2 ∧ P w.
Proof.
  induction 1 as [w ws Hw|w ws _ (ws1 & w' & ws2 & -> & Hw)]; [by exists [], w, ws|by exists (w :: ws1), w', ws2].
Qed.
Lemma busy_or_idle (ws : list (jworker R)) :
  ws ≫= worker_flight = [] ∨ ∃ ws1 w ws2, ws = ws1 ++ w :: ws2 ∧ worker_flight w ≠ [].
Proof.
  induction ws as [|w ws [IH|(ws1 & w' & ws2 & -> & Hw)]]; [by left| |right; by exists (w :: ws1), w', ws2].
  destruct (worker_flight w) as [|x l] eqn:Hw.
  - left. by rewrite bind_cons, Hw, IH.
  - right. exists [], w, ws. by rewrite Hw.
Qed.

Lemma jrun_scheduler_progress quiet s :
  inv quiet s → j_main s = MReceiving → j_results s = [] → j_closed s = false →
  j_workers s ≫= worker_flight = [] → ∃ s', jstep s s'.
Proof.
  intros Hi Hm Hr Hc Hidle. pose proof (i_pool _ _ Hi) as (Hlen & Hex & _).
  assert (Forall (λ w, w = JExited) (j_workers s) ∨ ∃ ws1 ws2, j_workers s = ws1 ++ JWaiting :: ws2) as Hws.
  { clear Hlen Hex. revert Hidle. induction (j_workers s) as [|w ws IH]; [by left|]. rewrite bind_cons.
    intros [Hw Hws]%app_eq_nil. destruct w; try done; [right; by exists [], ws|].
    destruct (IH Hws) as [Hall|(ws1 & ws2 & ->)]; [left; by constructor|right; by exists (JExited :: ws1), ws2]. }
  destruct (j_sched s) as [order|item order|item order|r|] eqn:Hs.
  - eexists. eapply js_read; [done|by left].
  - destruct (decide (j_slots s < window)); [eexists; by eapply js_slot|].
    destruct (j_cancelled s) eqn:Hcan; [eexists; by eapply js_slot_cancelled|].
    pose proof (idle_flight _ _ Hi Hm Hcan Hr Hidle) as Hf.
    destruct (i_live _ _ Hi Hcan) as (_ & _ & Hsl). unfold slots_inv in Hsl. rewrite Hs, Hf in Hsl.
    cbn in Hsl. lia.
  - destruct Hws as [Hall|(ws1 & ws2 & Hws)]; [|eexists; by eapply js_send].
    destruct (Hex) as [?|Hcan]; [|done|eexists; by eapply js_send_cancelled].
    destruct (j_workers s) as [|w ws]; [cbn in Hlen; lia|]. apply Forall_cons in Hall as [-> _]. by left.
  - eexists. eapply js_terminal; [done|]. rewrite Hr. cbn. lia.
  - destruct Hws as [Hall|(ws1 & ws2 & Hws)]; eexists; [by apply js_close|by eapply jw_exit].
Qed.

Lemma jrun_progress quiet s : inv quiet s → (∃ o, j_main s = MReturned o) ∨ ∃ s', jstep s s'.
Proof.
  intros Hi. destruct (j_main s) as [| | |o] eqn:Hm; [..|by left; exists o]; right.
  - destruct (j_results s) as [|r rest] eqn:Hr.
    + destruct (j_closed s) eqn:Hc; [eexists; by apply jm_end|].
      destruct (busy_or_idle (j_workers s)) as [Hidle|(ws1 & w & ws2 & Hws & Hw)].
      * by eapply jrun_scheduler_progress.
      * destruct w as [|item|r|]; try done; eexists; [by eapply jw_process|].
        eapply jw_answer; [done|]. rewrite Hr. cbn. lia.
    + destruct (j_failure s) eqn:Hf; eexists; [by eapply jm_discard|by eapply jm_receive].
  - destruct (j_pending s !! j_next s) eqn:Hp; eexists; [by eapply jm_emit|by eapply jm_stall].
  - destruct final_check as [e|] eqn:Hf; eexists; [by eapply jm_check_failed|by eapply jm_commit].
Qed.

(** ** Termination *)
Definition sched_weight s : nat :=
  let m := length index - pred (j_expected s) in
  match j_sched s with
  | JNext _ => 10 * m + 10
  | JSlot _ _ => 10 * m + 9
  | JSend _ _ => 10 * m + 8
  | JTerminal _ => 9
  | JReturned => 0
  end.
Definition worker_weight (w : jworker R) : nat :=
  match w with JWaiting => 1 | JProcessing _ => 6 | JAnswer _ => 5 | JExited => 0 end.
Definition main_weight (m : jmain) : nat :=
  match m with MEmitting => 4 | MReceiving => 3 | MChecking => 2 | MReturned _ => 0 end.
Definition weight s : nat :=
  sched_weight s + sum_list_with worker_weight (j_workers s) + 3 * length (j_results s)
  + size (j_pending s) + main_weight (j_main s) + (if j_closed s then 0 else 1)
  + (if j_cancelled s then 0 else 1).

Lemma schedule_weight quiet s order next :
  inv quiet s → j_sched s = JNext order → next_is index ctx_err s next →
  sched_weight (at_sched s (j_expected s)
    (match schedule_next (j_expected s) order next with
     | Queue item order => JSlot item order | Terminal r => JTerminal r | Finished => JReturned
     end) (j_slots s)) < sched_weight s.
Proof.
  intros Hi Hs Hn. unfold sched_weight. cbn [at_sched j_sched j_expected]. rewrite Hs.
  destruct (schedule_next _ _ _); lia.
Qed.

Ltac weigh := unfold sched_weight;
  cbn [at_sched at_pool at_main j_expected j_sched j_workers j_results j_pending j_main j_closed j_cancelled].

Lemma emit_weight s p : j_main s = MEmitting → j_pending s !! j_next s = Some p → weight (emit_next s p) < weight s.
Proof.
  intros Hat Hp. pose proof (map_size_delete_Some (j_next s) (j_pending s) (mk_is_Some _ _ Hp)) as Hsize.
  assert (size (j_pending s) ≠ 0) as Hne by (intros He%map_size_empty_iff; rewrite He, lookup_empty in Hp; done).
  unfold weight, ParJson.emit_next. rewrite Hat. destruct (emit_result (j_emitted s) p) as [em [e|]]; weigh;
    cbn [main_weight]; destruct (j_cancelled s); lia.
Qed.
Lemma jrun_step_weight quiet s s' : inv quiet s → jstep s s' → weight s' < weight s.
Proof.
  intros Hi Hstep. destruct Hstep as [order next Hs Hn|item order Hs Hw|item order Hs Hc|item order ws1 ws2 Hs Hws
    |item order Hs Hc|r Hs Hl|r Hs Hc|ws1 ws2 item Hws|ws1 ws2 r Hws Hl|ws1 ws2 r Hws Hc|ws1 ws2 Hws Hs|Hs Hall Hc
    |r rest Hat Hr Hf|r rest e Hat Hr Hf|p Hat Hp|Hat Hp|Hat Hr Hc|e Hat He|Hat Hv Hc|Hat He];
    try (by apply emit_weight); unfold weight.
  - pose proof (schedule_weight _ _ _ _ Hi Hs Hn) as Hlt.
    cbn [at_sched j_workers j_results j_pending j_main j_closed j_cancelled] in *. lia.
  - weigh. rewrite Hs. lia.
  - weigh. rewrite Hs. lia.
  - pose proof (i_sched _ _ Hi) as (Hx & _ & Hsc). rewrite Hs in Hsc. destruct Hsc as (Hin & _).
    destruct (Z.eqb_spec (Z.of_nat (j_expected s)) MaxInt) as [He|_]; [lia|].
    weigh. rewrite Hs, Hws, !sum_list_with_app. cbn [sum_list_with worker_weight]. lia.
  - weigh. rewrite Hs. lia.
  - weigh. rewrite Hs, length_app. cbn [length]. lia.
  - weigh. rewrite Hs. lia.
  - weigh. rewrite Hws, !sum_list_with_app. cbn [sum_list_with worker_weight]. lia.
  - weigh. rewrite Hws, !sum_list_with_app, length_app. cbn [sum_list_with worker_weight length]. lia.
  - weigh. rewrite Hws, !sum_list_with_app. cbn [sum_list_with worker_weight]. lia.
  - weigh. rewrite Hws, !sum_list_with_app. cbn [sum_list_with worker_weight]. lia.
  - weigh. rewrite Hc. lia.
  - weigh. rewrite Hat, Hr, map_size_insert. cbn [length main_weight]. destruct (j_pending s !! jr_num r); cbn; lia.
  - weigh. rewrite Hat, Hr. cbn [length main_weight]. lia.
  - weigh. rewrite Hat. cbn [main_weight]. lia.
  - weigh. rewrite Hat, Hr. cbn [length main_weight]. unfold loop_outcome.
    repeat case_match; cbn [main_weight]; lia.
  - weigh. rewrite Hat. cbn [main_weight]. lia.
  - weigh. rewrite Hat. cbn [main_weight]. lia.
  - weigh. rewrite Hat. cbn [main_weight]. lia.
Qed.

Lemma jrun_always_ends quiet s : inv quiet s → sn jmove s.
Proof.
  revert quiet. induction s as [s IH] using (Nat.measure_induction _ weight). intros quiet Hi.
  constructor. intros s' Hs. destruct Hs as [s' Hs|Hc].
  - by eapply (IH s'); [eapply jrun_step_weight|eapply inv_step].
  - eapply (IH (cancelled s)); [|by eapply jrun_inv_cancel]. unfold weight, sched_weight, cancelled.
    cbn [j_expected j_sched j_workers j_results j_pending j_main j_closed j_cancelled]. rewrite Hc. lia.
Qed.

Lemma inv_weaken quiet s : inv quiet s → inv false s.
Proof.
  intros [Hgood Hkeys Hnext Hsched Hem Hmain Hpool Hwin Hlive]. constructor; try done.
  - unfold emitted_inv in *. destruct (j_failure s).
    + destruct Hem as (? & i & [Hem|[_ Hem]]); (split; [done|]); exists i; auto.
    + destruct Hem as [? _]. by split.
  - unfold main_inv in *. by destruct (j_main s) as [| | |[n|e]].
Qed.
Lemma steps_inv s : rtc jstep (jstart workers) s → inv true s.
Proof.
  intros Hs. enough (∀ s0, inv true s0 → rtc jstep s0 s → inv true s) as H by (by eapply H; [apply jrun_start_inv|]).
  clear Hs. intros s0 Hi Hs. induction Hs as [|s1 s2 s3 Hstep _ IH]; [done|]. apply IH. by eapply inv_step.
Qed.
Lemma moves_inv s : rtc jmove (jstart workers) s → inv false s.
Proof.
  intros Hs. enough (∀ s0, inv false s0 → rtc jmove s0 s → inv false s) as H
    by (by eapply H; [eapply inv_weaken, jrun_start_inv|]).
  clear Hs. intros s0 Hi Hs. induction Hs as [|s1 s2 s3 Hstep _ IH]; [done|]. apply IH.
  destruct Hstep; [by eapply inv_step|by eapply jrun_inv_cancel].
Qed.

(** ** The properties *)
Notation run_in_order := (run_in_order limit srcSize name process index FinalSummary OnRecord final_check).

Lemma run_in_order_plan :
  run_in_order = ((emit_all [] plan).1, match (emit_all [] plan).2, final_check with
    | Some e, _ => Err e | None, Some e => Err e | None, None => Ok (length (emit_all [] plan).1) end).
Proof.
  unfold ParJson.run_in_order. rewrite extract_in_order_plan. fold plan. by destruct (emit_all [] plan).
Qed.

(** C7: an indexed JSON run is the sequential one. Whatever the interleaving
    of scheduler, workers and caller, a run that is not cancelled returns with
    the rows the sink accepted and the result of extracting the records one
    after the other: in particular the failure reported is that of the lowest
    failing record. *)
Theorem json_run_sequential s outcome :
  rtc jstep (jstart workers) s → j_main s = MReturned outcome → (j_emitted s, outcome) = run_in_order.
Proof.
  intros Hs Hm. pose proof (i_main _ _ (steps_inv s Hs)) as Hmain. unfold main_inv in Hmain. rewrite Hm in Hmain.
  rewrite run_in_order_plan. destruct outcome as [n|e].
  - destruct Hmain as (-> & -> & ->). done.
  - destruct (Hmain eq_refl) as [->|[-> ->]]; done.
Qed.

(** A cancelled run is never a short success. Under cancellations at any
    moment the rows given to the sink are at every moment an initial part of
    those of the sequential run, and a run that returns without an error has
    given all of them. *)
Theorem json_run_cancelled s :
  rtc jmove (jstart workers) s →
  j_emitted s `prefix_of` (run_in_order).1 ∧
  ∀ n, j_main s = MReturned (Ok n) → run_in_order = (j_emitted s, Ok n) ∧ n = length (j_emitted s).
Proof.
  intros Hs. pose proof (moves_inv s Hs) as Hi. rewrite run_in_order_plan. split.
  - pose proof (i_emitted _ _ Hi) as Hem. unfold emitted_inv in Hem. cbn [fst].
    destruct (j_failure s); [|by eapply emit_take_prefix, Hem].
    destruct Hem as (_ & i & [Hem|[_ Hem]]); by eapply emit_take_prefix.
  - intros n Hm. pose proof (i_main _ _ Hi) as Hmain. unfold main_inv in Hmain. rewrite Hm in Hmain.
    destruct Hmain as (-> & -> & ->). done.
Qed.

(** C21: an indexed JSON run always returns: no sequence of steps and
    cancellations is infinite, and a run that can make no further step has
    returned. At every moment at most [window] window slots are taken. *)
Theorem json_run_returns s :
  rtc jmove (jstart workers) s →
  sn jmove s ∧ j_slots s ≤ window ∧ (nf jstep s → ∃ outcome, j_main s = MReturned outcome).
Proof.
  intros Hs. pose proof (moves_inv s Hs) as Hi. split_and!; [by eapply jrun_always_ends|by apply Hi|].
  intros Hnf. destruct (jrun_progress _ _ Hi) as [?|Hstep]; [done|]. by destruct Hnf.
Qed.
End spec.

(** ** A concrete run: one record, one worker *)
Module JsonSample.
Definition sha : string := sha256_hex "{}".
Definition rec : RecordMetadata :=
  {| rm_RecordNum := 1; rm_StartOffset := 1; rm_EndOffset := 3; rm_SizeBytes := 2; rm_SHA256 := sha;
     rm_ElementName := ""; rm_Depth := 1; rm_NamespaceContextRef := 0 |}.
Definition proc (item : jsonWorkItem) : jsonResult nat := JsonResult (ji_num item) [7; 8] None.
Definition index : list (result RecordMetadata) := [Ok rec].
Definition sink (accepted : list nat) (r : nat) : option gerror := None.
Notation jstep := (ParJson.jstep 100 4 "item" proc index (Ok 1%Z) (Errorf "" []) sink MaxInt64 1 1 false None).
Notation jmove := (ParJson.jmove 100 4 "item" proc index (Ok 1%Z) (Errorf "" []) sink MaxInt64 1 1 false None).

Ltac settle := match goal with |- rtc _ ?s _ => let s' := eval vm_compute in s in change s with s' end.
Ltac go c := eapply rtc_l; [c; first [reflexivity | by left | cbn; lia | by repeat constructor]|settle].

Definition final : jrun nat := Eval vm_compute in {|
  j_expected := 2; j_sched := JReturned; j_slots := 0; j_workers := [JExited]; j_results := [];
  j_closed := true; j_pending := ∅; j_next := 2; j_emitted := [7; 8]; j_failure := None;
  j_main := MReturned (Ok 2); j_cancelled := false |}.
Lemma run_final : rtc jstep (jstart 1) final.
Proof.
  settle.
  go ltac:(eapply js_read).
  go ltac:(eapply js_slot).
  go ltac:(eapply (js_send _ _ _ _ _ _ _ _ _ _ _ _ _ _ _ _ [] [])).
  go ltac:(eapply (jw_process _ _ _ _ _ _ _ _ _ _ _ _ _ _ [] [])).
  go ltac:(eapply (jw_answer _ _ _ _ _ _ _ _ _ _ _ _ _ _ [] [])).
  go ltac:(eapply js_read).
  go ltac:(eapply (jw_exit _ _ _ _ _ _ _ _ _ _ _ _ _ _ [] [])).
  go ltac:(eapply js_close).
  go ltac:(eapply jm_receive).
  go ltac:(eapply jm_emit).
  go ltac:(eapply jm_stall).
  go ltac:(eapply jm_end).
  go ltac:(eapply jm_commit).
  apply rtc_refl.
Qed.
Lemma run_final_moves : rtc jmove (jstart 1) final.
Proof.
  pose proof run_final as H. induction H as [|x y z Hxy _ IH]; [apply rtc_refl|].
  eapply rtc_l; [by apply jmove_step|exact IH].
Qed.
End JsonSample.

Lemma json_run_sequential_witness :
  ([7; 8], Ok 2) = run_in_order 100 4 "item" JsonSample.proc JsonSample.index (Ok 1%Z) JsonSample.sink None.
Proof.
  refine (json_run_sequential 100 4 "item" JsonSample.proc JsonSample.index (Ok 1%Z) (Errorf "" []) JsonSample.sink
    MaxInt64 1 1 false None 1 _ _ JsonSample.final (Ok 2) JsonSample.run_final _); done.
Defined.
Lemma json_run_cancelled_witness :
  [7; 8] `prefix_of` (run_in_order 100 4 "item" JsonSample.proc JsonSample.index (Ok 1%Z) JsonSample.sink None).1.
Proof.
  refine (proj1 (json_run_cancelled 100 4 "item" JsonSample.proc JsonSample.index (Ok 1%Z) (Errorf "" []) JsonSample.sink
    MaxInt64 1 1 false None 1 _ _ JsonSample.final JsonSample.run_final_moves)); done.
Defined.
Lemma json_run_returns_witness : sn JsonSample.jmove JsonSample.final.
Proof.
  refine (proj1 (json_run_returns 100 4 "item" JsonSample.proc JsonSample.index (Ok 1%Z) (Errorf "" []) JsonSample.sink
    MaxInt64 1 1 false None 1 _ _ _ _ _ JsonSample.final JsonSample.run_final_moves)); (done || lia).
Defined.

(** ** Setting up *)

(** Every result carries its item's number. *)
Lemma process_number {R} ReadAt parse_error Score mismatch Extract Enrich item :
  jr_num (process (R := R) ReadAt parse_error Score mismatch Extract Enrich item) = ji_num item.
Proof. unfold process. by destruct (process_records _ _ _ _ _ _ _). Qed.

(** The limit of a positive setting is that many MiB, without overflow. *)
Lemma jsonRecordLimit_exact MaxInt mb limit :
  (DefaultJSONMaxRecordBytes ≤ MaxInt ≤ MaxInt64)%Z → jsonRecordLimit MaxInt mb = Ok limit →
  (0 ≤ mb)%Z ∧ limit = (if mb =? 0 then DefaultJSONMaxRecordBytes else mb * 2 ^ 20)%Z ∧ (0 < limit ≤ MaxInt)%Z.
Proof.
  unfold jsonRecordLimit. intros HM.
  assert (DefaultJSONMaxRecordBytes = 104857600)%Z as Hdef by reflexivity.
  assert (MaxInt64 = 2 ^ 63 - 1)%Z as Hmax by reflexivity.
  destruct (Z.eqb_spec mb 0) as [->|Hne]; [intros [= <-]; lia|].
  destruct (Z.ltb_spec mb 0); [done|]. destruct (Z.ltb_spec (Z.shiftr MaxInt64 20) mb) as [|Hle]; [done|].
  rewrite Z.shiftr_div_pow2, Hmax in Hle by lia. change ((2 ^ 63 - 1) `div` 2 ^ 20)%Z with (2 ^ 43 - 1)%Z in Hle.
  rewrite Z.shiftl_mul_pow2 by lia. rewrite int64_small by lia.
  destruct (Z.ltb_spec (MaxInt mod 2 ^ 64) ((mb * 2 ^ 20) mod 2 ^ 64)) as [|Hfit]; [done|]. intros [= <-].
  rewrite !Z.mod_small in Hfit by lia. lia.
Qed.

(** A run is set up only where it can run: with a positive record limit
    that fits the platform, at least one worker and at most twice [NumCPU], a
    window of at least one record, and an index of exactly the selector the
    recipe asks for over a source of the recorded size. *)
Theorem newJSONRun_bounds `{UC : UnicodeCase} MaxInt NumCPU opts header source setup :
  (0 < NumCPU)%Z → (DefaultJSONMaxRecordBytes ≤ MaxInt ≤ MaxInt64)%Z →
  newJSONRun MaxInt NumCPU opts header source = Ok setup →
  (0 < js_limit setup ≤ MaxInt)%Z ∧ (1 ≤ js_workers setup ≤ 2 * NumCPU)%Z ∧
  (1 ≤ js_window setup ≤ Z.max maxReorderWindow (4 * NumCPU))%Z ∧
  jo_record_scope opts = true ∧ js_size setup = si_SizeBytes (ri_Source header) ∧
  ∃ xpath requested, jo_MatchSelectors opts = [xpath] ∧ ParseRecordSelector xpath = Ok requested ∧
    rs_Raw requested = rs_Raw (js_selector setup) ∧
    rs_ElementName (js_selector setup) = sl_ElementName (ri_Selector header).
Proof.
  intros HN HM. unfold newJSONRun. destruct (jo_record_scope opts); [|done]. cbn [negb].
  destruct (jo_MatchSelectors opts) as [|xpath [|]]; [done| |done].
  intros (requested & Hreq & H)%res_bind_ok. apply res_bind_ok in H as (indexed & _ & H).
  destruct (String.eqb_spec (rs_ElementName indexed) (sl_ElementName (ri_Selector header))) as [Hn|]; [|done]. cbn [negb] in H.
  destruct (String.eqb_spec (rs_Raw requested) (rs_Raw indexed)) as [Hraw|]; [|done]. cbn [negb] in H.
  apply res_bind_ok in H as (_ & _ & H). apply res_bind_ok in H as (limit & Hlimit & H).
  apply res_bind_ok in H as (window & Hwin & H). destruct source as [info|]; [|done].
  destruct (so_regular info); [|done]. cbn [negb] in H.
  destruct (Z.eqb_spec (so_size info) (si_SizeBytes (ri_Source header))) as [Hs|]; [|done]. injection H as <-.
  cbn [js_limit js_workers js_window js_size js_selector].
  apply jsonRecordLimit_exact in Hlimit as (_ & _ & Hlimit); [|done].
  assert (1 ≤ capWorkerCount NumCPU (jo_Workers opts) ≤ 2 * NumCPU)%Z as Hw.
  { unfold capWorkerCount, MaxWorkerMultiplier. repeat case_match; lia. }
  split_and!; try done; try lia.
  - unfold reorder_window in Hwin. assert (maxReorderWindow = 65536)%Z by reflexivity.
    destruct (Z.ltb_spec (jo_ReorderWindow opts) 0); [done|].
    destruct (Z.eqb_spec (jo_ReorderWindow opts) 0); [injection Hwin as <-; lia|].
    destruct (Z.ltb_spec maxReorderWindow (jo_ReorderWindow opts)); [done|]. injection Hwin as <-. lia.
  - unfold reorder_window in Hwin. assert (maxReorderWindow = 65536)%Z by reflexivity.
    destruct (Z.ltb_spec (jo_ReorderWindow opts) 0); [done|].
    destruct (Z.eqb_spec (jo_ReorderWindow opts) 0); [injection Hwin as <-; lia|].
    destruct (Z.ltb_spec maxReorderWindow (jo_ReorderWindow opts)); [done|]. injection Hwin as <-. lia.
  - by exists xpath, requested.
Qed.
Definition setup_header : RecordIndex := {|
  ri_Version := SchemaVersion;
  ri_Source := {| si_Path := "a.json"; si_SizeBytes := 11; si_SHA256 := ""; si_Compressed := false;
    si_CompressionFormat := "none"; si_OffsetKind := OffsetKindSourceBytes; si_Format := SourceFormatJSON |};
  ri_Selector := {| sl_XPath := "//item"; sl_ElementName := "item" |};
  ri_NamespaceContexts := [{| nc_ID := 0; nc_Declarations := Some [] |}];
  ri_Summary := Build_SummaryStats 3 7 fzero 1 3 0 0 0 |}.
Definition setup_options : json_options :=
  {| jo_record_scope := true; jo_MatchSelectors := [" //item"]; jo_MaxRecordSizeMB := 1; jo_Workers := 100;
     jo_ReorderWindow := 0 |}.
Definition setup_result : json_setup :=
  {| js_limit := 1048576; js_workers := 8; js_window := 16; js_selector := Build_RecordSelector "//item" "item"; js_size := 11 |}.
Lemma setup_ok :
  newJSONRun (UC := ascii_case) MaxInt64 4 setup_options setup_header (Some {| so_regular := true; so_size := 11 |}) =
  Ok setup_result.
Proof. vm_compute. reflexivity. Qed.
Lemma setup_platform : (DefaultJSONMaxRecordBytes ≤ MaxInt64 ≤ MaxInt64)%Z.
Proof. split; [by apply Z.leb_le|reflexivity]. Qed.
Lemma newJSONRun_bounds_witness : (1 ≤ js_workers setup_result ≤ 2 * 4)%Z.
Proof.
  exact (proj1 (proj2 (newJSONRun_bounds (UC := ascii_case) MaxInt64 4 setup_options setup_header
    (Some {| so_regular := true; so_size := 11 |}) setup_result eq_refl setup_platform setup_ok))).
Defined.
