(* ===== verification/JsonOrder.v ===== *)
(** * Record ranges in document order

    The order a reader demands of the ranges of an index ([admit_range]) is stated
    without its stack of open records; the ranges of the elements of a document
    have it. *)
From Stdlib Require Import ZArith Lia.
From stdpp Require Import base list strings sorting.
From S2P Require Import Prelude GoStrings GoFloat GoValue GoCsv GoJson JsonReader JsonWalk JsonScan JsonTokens JsonDoc JsonDocSpec IndexHeader ParPipe ParJson.

(** ** Preorder of nested ranges: start, end and depth *)
Notation range := (Z * Z * Z)%type.
Definition rg_start (r : range) : Z := r.1.1.
Definition rg_end (r : range) : Z := r.1.2.
Definition rg_depth (r : range) : Z := r.2.

(** [b] comes behind [a]: after it, or deeper inside it. *)
Definition behind_range (a b : range) : Prop :=
  (rg_start a < rg_start b ∧
   (rg_end a ≤ rg_start b ∨ rg_end b ≤ rg_end a ∧ rg_depth a < rg_depth b))%Z.
(** The ranges of [l] still open at [b]. *)
Definition around (b : range) (l : list range) : list range := filter (λ a, rg_start b < rg_end a)%Z l.
Definition comes_next (l : list range) (b : range) : Prop :=
  Forall (λ a, behind_range a b) l ∧ length (around b l) < MaxDepth.
Fixpoint preorder (rev_l : list range) : Prop :=
  match rev_l with
  | [] => True
  | b :: l => comes_next l b ∧ preorder l
  end.

(** ** The stack *)
Definition as_open (r : range) : jsonOpenRange := {| op_end := rg_end r; op_depth := rg_depth r |}.
Definition last_start (rev_l : list range) : Z := match rev_l with [] => 0 | b :: _ => rg_start b end%Z.
(** The state behind the ranges [rev_l], last one first. *)
Definition order_of (rev_l : list range) : jsonRangeOrder := {|
  jro_lastStart := last_start rev_l;
  jro_open := as_open <$> filter (λ a, last_start rev_l < rg_end a)%Z rev_l;
|}.

Definition proper (r : range) : Prop := (0 ≤ rg_start r < rg_end r)%Z.

(** Of the ranges open at one point the later one lies inside the earlier. *)
Definition inside (a b : range) : Prop := (rg_end a ≤ rg_end b ∧ rg_depth b < rg_depth a)%Z.
Lemma open_nested x rev_l :
  preorder rev_l → StronglySorted inside (filter (λ a, x < rg_end a)%Z rev_l) ∨ (x < last_start rev_l)%Z.
Proof.
  intros Hp. destruct (decide (x < last_start rev_l)%Z) as [|Hx]; [by right|]. left.
  assert (∀ k, preorder k → Forall (λ a, rg_start a ≤ x)%Z k → StronglySorted inside (filter (λ a, x < rg_end a)%Z k)) as Hk.
  { intros k. induction k as [|b k IH]; [constructor|]. intros [[Hb _] Hl] [Hbx Hlx]%Forall_cons.
    specialize (IH Hl Hlx). rewrite filter_cons. destruct (decide (x < rg_end b)%Z) as [Hb'|]; [|done].
    constructor; [done|]. apply Forall_forall. intros a [Ha Hin]%list_elem_of_filter.
    rewrite Forall_forall in Hb. destruct (Hb a Hin) as [Hs [Hd|Hd]]; [lia|]. unfold inside. lia. }
  apply Hk; [done|]. destruct rev_l as [|b l]; [constructor|]. destruct Hp as [[Hb _] _].
  cbn [last_start] in Hx. constructor; [lia|]. eapply Forall_impl; [exact Hb|]. intros a [? _]. lia.
Qed.

Lemma filter_full {A} (P : A → Prop) `{!∀ x, Decision (P x)} l : Forall P l → filter P l = l.
Proof. induction 1 as [|x l Hx _ IH]; [done|]. by rewrite filter_cons_True, IH. Qed.
Lemma close_before_sorted start l :
  StronglySorted inside l → close_before start (as_open <$> l) = as_open <$> filter (λ a, start < rg_end a)%Z l.
Proof.
  induction 1 as [|a l Hs IH Hall]; [done|]. cbn [fmap list_fmap close_before as_open op_end].
  rewrite filter_cons. destruct (Z.leb_spec (rg_end a) start); destruct (decide (start < rg_end a)%Z); try lia; [done|].
  rewrite filter_full; [done|]. eapply Forall_impl; [exact Hall|]. intros b [? _]. lia.
Qed.

(** The record [b] behind [rev_l], starting later. *)
Section next.
Context (rev_l : list range) (b : range).
Hypothesis (Hp : preorder rev_l) (Hb : proper b).
Hypothesis (Hlast : rev_l = [] ∨ (last_start rev_l < rg_start b)%Z).

Lemma open_around :
  close_before (rg_start b) (jro_open (order_of rev_l)) = as_open <$> around b rev_l.
Proof using Hp Hb Hlast.
  destruct (open_nested (last_start rev_l) rev_l Hp) as [Hs|]; [|lia].
  cbn [order_of jro_open]. rewrite (close_before_sorted _ _ Hs). f_equal. unfold around.
  rewrite list_filter_filter_l; [done|]. intros a Ha. assert (0 ≤ rg_start b)%Z by apply Hb.
  destruct Hlast as [->|]; cbn [last_start]; lia.
Qed.
Lemma starts_later a : a ∈ rev_l → (rg_start a < rg_start b)%Z.
Proof using Hp Hlast.
  intros Ha. destruct Hlast as [->|Hl]; [by apply elem_of_nil in Ha|].
  destruct rev_l as [|a0 l]; [by apply elem_of_nil in Ha|]. apply elem_of_cons in Ha as [->|Ha]; [done|].
  destruct Hp as [[Hall _] _]. rewrite Forall_forall in Hall. destruct (Hall a Ha) as [? _]. cbn in Hl. lia.
Qed.
Lemma behind_around a : a ∈ rev_l →
  behind_range a b ↔ a ∉ around b rev_l ∨ (rg_end b ≤ rg_end a ∧ rg_depth a < rg_depth b)%Z.
Proof using Hp Hlast.
  intros Ha. pose proof (starts_later a Ha). unfold behind_range, around. rewrite list_elem_of_filter. split.
  - intros [_ [?|?]]; [left; lia|by right].
  - intros [Hn|?]; split; try done; [|by right]. left. destruct (decide (rg_start b < rg_end a)%Z); [|lia].
    by destruct Hn.
Qed.
(** Only the innermost open record matters. *)
Lemma next_around :
  comes_next rev_l b ↔
  match around b rev_l with
  | [] => True
  | p :: _ => (rg_end b ≤ rg_end p ∧ rg_depth p < rg_depth b)%Z ∧ length (around b rev_l) < MaxDepth
  end.
Proof using Hp Hb Hlast.
  assert (StronglySorted inside (around b rev_l)) as Hsorted.
  { destruct (open_nested (rg_start b) rev_l Hp) as [Hs|Hs]; [done|].
    destruct Hlast as [->|]; [constructor|lia]. }
  assert (∀ a, a ∈ around b rev_l → a ∈ rev_l) as Hin by (intros a [_ ?]%list_elem_of_filter; done).
  unfold comes_next. rewrite Forall_forall. destruct (around b rev_l) as [|p rest] eqn:Har.
  { split; [done|]. intros _. split; [|apply Nat.ltb_lt; reflexivity].
    intros a Ha. apply behind_around; [done|]. left. rewrite Har. by apply not_elem_of_nil. }
  assert (p ∈ rev_l) as Hpin by (apply Hin; left).
  apply and_iff_compat_r. split.
  - intros Hall. specialize (Hall p Hpin). apply behind_around in Hall as [Hn|?]; [|done|done].
    rewrite Har in Hn. destruct Hn. left.
  - intros Hpb a Ha. apply behind_around; [done|]. rewrite Har. inversion Hsorted as [|? ? _ Hins]; subst.
    destruct (decide (a ∈ p :: rest)) as [[->|Hr]%elem_of_cons|]; [by right| |by left]. right.
    rewrite Forall_forall in Hins. specialize (Hins a Hr). unfold inside in Hins. lia.
Qed.
End next.

(** One record: [admit_range] accepts exactly what comes next. *)
Lemma admit_step rev_l item depth :
  let b := (ji_start item, ji_end item, depth) in
  preorder rev_l → proper b → ji_num item = S (length rev_l) →
  (comes_next rev_l b → admit_range (order_of rev_l) item depth = Ok (order_of (b :: rev_l))) ∧
  (is_ok (admit_range (order_of rev_l) item depth) = true → comes_next rev_l b).
Proof.
  intros b Hp Hb Hnum. unfold admit_range.
  destruct ((1 <? ji_num item) && (ji_start item <=? jro_lastStart (order_of rev_l))%Z) eqn:Hfirst.
  { split; [|done]. intros [Hall _]. apply andb_true_iff in Hfirst as [H1%Nat.ltb_lt H2%Z.leb_le].
    destruct rev_l as [|a l]; [cbn in Hnum; lia|]. apply Forall_cons in Hall as [[Hs _] _].
    cbn in H2, Hs. lia. }
  assert (rev_l = [] ∨ (last_start rev_l < rg_start b)%Z) as Hlast.
  { apply andb_false_iff in Hfirst as [H1%Nat.ltb_ge|H2%Z.leb_gt]; [left|by right].
    destruct rev_l; [done|cbn in Hnum; lia]. }
  change (ji_start item) with (rg_start b). rewrite (open_around rev_l b) by done.
  rewrite (next_around rev_l b) by done.
  assert (order_of (b :: rev_l) = {| jro_lastStart := rg_start b;
    jro_open := {| op_end := ji_end item; op_depth := depth |} :: (as_open <$> around b rev_l) |}) as ->.
  { unfold order_of. cbn [last_start]. rewrite filter_cons_True by apply Hb. done. }
  destruct (around b rev_l) as [|p rest]; cbn [fmap list_fmap]; [done|].
  cbn [as_open op_end op_depth]. change (ji_end item) with (rg_end b). change depth with (rg_depth b).
  pose proof (length_fmap as_open (p :: rest)) as Hlen. cbn [fmap list_fmap] in Hlen.
  destruct (Z.ltb_spec (rg_end p) (rg_end b)); [split; [lia|done]|].
  destruct (Z.leb_spec (rg_depth b) (rg_depth p)); [split; [lia|done]|].
  match goal with |- context [Nat.leb MaxDepth ?n] => destruct (Nat.leb_spec MaxDepth n) end; rewrite Hlen in *.
  - split; [lia|done].
  - split; [done|]. split; [lia|done].
Qed.

(** ** The ranges of a document *)

(** Proper ranges between two offsets, at least [d] deep. *)
Definition within (lo hi d : Z) (l : list range) : Prop :=
  Forall (λ r, lo ≤ rg_start r ∧ rg_start r < rg_end r ∧ rg_end r ≤ hi ∧ d ≤ rg_depth r)%Z l.
(** ... in preorder, at most [h] around each other. *)
Definition ranges_ok (lo hi d : Z) (h : nat) (l : list range) : Prop :=
  within lo hi d l ∧ StronglySorted behind_range l ∧
  ∀ i b, l !! i = Some b → length (around b (take i l)) ≤ h.

Lemma ranges_nil lo hi d h : ranges_ok lo hi d h [].
Proof. split_and!; [constructor|constructor|done]. Qed.
Lemma ranges_mono lo hi d h l lo' hi' d' h' :
  ranges_ok lo hi d h l → (lo' ≤ lo)%Z → (hi ≤ hi')%Z → (d' ≤ d)%Z → h ≤ h' → ranges_ok lo' hi' d' h' l.
Proof.
  intros (Hw & Hs & Hc) Hlo Hhi Hd Hh. split_and!; [|done|].
  - eapply Forall_impl; [exact Hw|]. cbn. lia.
  - intros i b Hl. specialize (Hc i b Hl). lia.
Qed.
Lemma around_before lo m d b l :
  within lo m d l → (m ≤ rg_start b)%Z → around b l = [].
Proof.
  intros Hw Hb. unfold around. induction Hw as [|a l (_ & _ & Ha & _) _ IH]; [done|].
  rewrite filter_cons_False by (cbn in *; lia). exact IH.
Qed.
Lemma ranges_app lo m hi d h l k :
  ranges_ok lo m d h l → ranges_ok m hi d h k → (lo ≤ m ≤ hi)%Z → ranges_ok lo hi d h (l ++ k).
Proof.
  intros (Hw1 & Hs1 & Hc1) (Hw2 & Hs2 & Hc2) Hm.
  pose proof Hw1 as Hf1. pose proof Hw2 as Hf2. unfold within in Hf1, Hf2. rewrite Forall_forall in Hf1, Hf2. split_and!.
  - apply Forall_forall. intros r [Hr|Hr]%elem_of_app; [apply Hf1 in Hr|apply Hf2 in Hr]; cbn in *; lia.
  - apply StronglySorted_app_2; [|done|done]. intros a b Ha Hb. apply Hf1 in Ha. apply Hf2 in Hb.
    unfold behind_range. cbn in *. lia.
  - intros i b [Hb|[Hi Hb]]%lookup_app_Some.
    + rewrite take_app_le by (apply lookup_lt_Some in Hb; lia). by apply Hc1.
    + rewrite take_app_ge by done. unfold around. rewrite filter_app. fold (around b l).
      rewrite (around_before lo m d b l Hw1); [by apply Hc2|].
      apply list_elem_of_lookup_2 in Hb. apply Hf2 in Hb. cbn in Hb. lia.
Qed.
Lemma ranges_nest lo hi d h l :
  ranges_ok (lo + 1) hi (d + 1) h l → (lo < hi)%Z → ranges_ok lo hi d (S h) ((lo, hi, d) :: l).
Proof.
  intros (Hw & Hs & Hc) Hlt. pose proof Hw as Hf. unfold within in Hf. rewrite Forall_forall in Hf. split_and!.
  - constructor; [cbn; lia|]. eapply Forall_impl; [exact Hw|]. cbn. lia.
  - constructor; [done|]. apply Forall_forall. intros b Hb%Hf. unfold behind_range. cbn in *. lia.
  - intros [|i] b Hb; cbn [take]; [cbn; lia|]. unfold around. rewrite filter_cons. specialize (Hc i b Hb).
    unfold around in Hc. destruct (decide _); cbn [length]; lia.
Qed.
Lemma ranges_one lo hi d h : (lo < hi)%Z → ranges_ok lo hi d h [(lo, hi, d)].
Proof.
  intros Hlt. split_and!; [constructor; [cbn; lia|constructor]|repeat constructor|].
  intros [|i] b Hb; [cbn; lia|done].
Qed.
Lemma ranges_preorder lo hi d h l : ranges_ok lo hi d h l → h < MaxDepth → preorder (reverse l).
Proof.
  intros (_ & Hs & Hc) Hh. induction l as [|b l IH] using rev_ind; [done|].
  rewrite reverse_snoc. apply StronglySorted_app in Hs as (Hb & Hs & _). split; [split|].
  - apply Forall_forall. intros a Ha. rewrite elem_of_reverse in Ha. apply Hb; [done|left].
  - unfold around. rewrite filter_reverse, length_reverse. fold (around b l).
    pose proof (Hc (length l) b) as Hcb. rewrite take_app_length in Hcb.
    eapply Nat.le_lt_trans; [apply Hcb; by apply list_lookup_middle|done].
  - apply IH; [done|]. intros i a Ha. rewrite <- (take_app_le l [b]) by (apply lookup_lt_Some in Ha; lia).
    apply Hc. by apply lookup_app_l_Some.
Qed.

Section document.
Context (text sel_name : string) (anywhere : bool) (base : nat).
Definition as_range (p : nat * nat * nat) : range :=
  (Z.of_nat p.1.1, Z.of_nat p.1.2, Z.of_nat p.2).
Notation elements := (elements sel_name anywhere base).
Notation at_ n := (Z.of_nat (n + base)).

(** The elements of a value lie inside it, and it ends before what follows. *)
Definition value_ranges (v : jval) : Prop := ∀ pos ts depth name inArray,
  tok_chain text pos (flat v ++ ts) →
  ∃ pos', pos < pos' ∧ pos' ≤ slen text ∧ tok_chain text pos' ts ∧
    ranges_ok (at_ pos) (at_ pos') (Z.of_nat depth) (height v) (as_range <$> elements depth name inArray v).

Lemma items_ranges {A} (pre : A → list token) (val : A → jval) (key : A → string) (inArray : bool) h l :
  Forall (λ x, value_ranges (val x) ∧ height (val x) ≤ h ∧ ∀ pos ts, tok_chain text pos (pre x ++ ts) →
    ∃ pos', pos ≤ pos' ∧ tok_chain text pos' ts) l →
  ∀ pos ts depth, pos ≤ slen text → tok_chain text pos (flat_map (λ x, pre x ++ flat (val x)) l ++ ts) →
  ∃ pos', pos ≤ pos' ∧ pos' ≤ slen text ∧ tok_chain text pos' ts ∧
    ranges_ok (at_ pos) (at_ pos') (Z.of_nat depth) h
      (as_range <$> flat_map (λ x, elements depth (key x) inArray (val x)) l).
Proof.
  induction 1 as [|x l (Hv & Hh & Hpre) _ IH]; intros pos ts depth Hpos Hc; cbn [flat_map app] in *.
  { exists pos. split_and!; [done..|apply ranges_nil]. }
  rewrite <- !(assoc_L (++)) in Hc. apply Hpre in Hc as (p1 & Hp1 & Hc).
  destruct (Hv p1 _ depth (key x) inArray Hc) as (p2 & Hp2 & Hle2 & Hc2 & Hr2).
  destruct (IH p2 ts depth Hle2 Hc2) as (p3 & Hp3 & Hle3 & Hc3 & Hr3).
  exists p3. split_and!; [lia|done|done|]. rewrite fmap_app.
  eapply (ranges_app _ (at_ p2)).
  - eapply ranges_mono; [exact Hr2|..]; lia.
  - exact Hr3.
  - lia.
Qed.

Lemma container_ranges o c inner depth (pick : bool) l h pos ts :
  tok_chain text pos ((o :: inner ++ [c]) ++ ts) →
  (∀ p ts, p ≤ slen text → tok_chain text p (inner ++ ts) → ∃ p', p ≤ p' ∧ p' ≤ slen text ∧ tok_chain text p' ts ∧
     ranges_ok (at_ p) (at_ p') (Z.of_nat (if pick then S depth else depth)) h (as_range <$> l)) →
  ∃ pos', pos < pos' ∧ pos' ≤ slen text ∧ tok_chain text pos' ts ∧
    ranges_ok (at_ pos) (at_ pos') (Z.of_nat depth) (S h)
      (as_range <$> (if pick then [(tk_start o + base, tk_end c + base, depth)] else []) ++ l).
Proof.
  intros Hc Hin. cbn [app tok_chain] in Hc. destruct Hc as (Ho1 & Ho2 & Ho3 & _ & _ & Hc).
  rewrite <- (assoc_L (++)) in Hc. destruct (Hin _ _ Ho3 Hc) as (p & Hp1 & Hp2 & Hc2 & Hr).
  cbn [app tok_chain] in Hc2. destruct Hc2 as (Hc1 & Hc2 & Hc3 & _ & _ & Hts).
  exists (tk_end c). split_and!; [lia|done|done|]. rewrite fmap_app. destruct pick; cbn [app fmap list_fmap].
  - assert (ranges_ok (at_ (tk_start o)) (at_ (tk_end c)) (Z.of_nat depth) (S h)
      (as_range (tk_start o + base, tk_end c + base, depth) :: (as_range <$> l))) as Hnest.
    { apply ranges_nest; [eapply ranges_mono; [exact Hr|lia..]|lia]. }
    eapply ranges_mono; [exact Hnest|lia..].
  - eapply ranges_mono; [exact Hr|..]; lia.
Qed.

Lemma delim_chain {A} (f : A → token) x pos ts :
  tok_chain text pos ([f x] ++ ts) → ∃ pos', pos ≤ pos' ∧ tok_chain text pos' ts.
Proof. intros (H1 & H2 & _ & _ & _ & Hc). exists (tk_end (f x)). split; [lia|done]. Qed.

Lemma all_values v : value_ranges v.
Proof.
  induction v as [t|o ms c IH|o items c IH] using jval_rect_nested; intros pos ts depth name inArray Hc.
  - cbn [flat app tok_chain] in Hc. destruct Hc as (H1 & H2 & H3 & _ & _ & Hc). exists (tk_end t).
    split_and!; [lia|done|done|]. cbn [JsonDoc.elements]. unfold picked. destruct (sel _ _ _ _ _); cbn [fmap list_fmap].
    + eapply ranges_mono; [apply (ranges_one (at_ (tk_start t)) (at_ (tk_end t)) (Z.of_nat depth) 0)|..]; lia.
    + apply ranges_nil.
  - cbn [flat] in Hc. cbn [JsonDoc.elements height]. unfold picked.
    eapply (container_ranges o c _ depth (sel _ _ depth name false)); [exact Hc|].
    intros p ts' Hp Hin.
    edestruct (items_ranges (λ kv : token * jval, [kv.1]) snd (λ kv, key_of kv.1) false
      (max_list ((λ kv, height kv.2) <$> ms)) ms) as (p' & Hp' & Hle & Hc' & Hr);
      [|exact Hp|exact Hin|exists p'; split_and!; [done..|]; eapply ranges_mono; [exact Hr|..]]; try lia.
    + apply Forall_forall. intros kv Hkv. rewrite Forall_forall in IH. split_and!; [by apply IH| |].
      * apply max_list_elem_of_le. by apply (list_elem_of_fmap_2 (λ kv, height kv.2)).
      * intros. by eapply (delim_chain fst).
    + destruct (sel _ _ _ _ _); lia.
  - cbn [flat] in Hc. cbn [JsonDoc.elements height]. unfold picked.
    eapply (container_ranges o c _ depth (sel _ _ depth name (negb inArray))); [exact Hc|].
    intros p ts' Hp Hin.
    edestruct (items_ranges (λ _ : jval, []) id (λ _, name) true
      (max_list (height <$> items)) items) as (p' & Hp' & Hle & Hc' & Hr);
      [|exact Hp|exact Hin|exists p'; split_and!; [done..|]; eapply ranges_mono; [exact Hr|..]]; try lia.
    + apply Forall_forall. intros x Hx. rewrite Forall_forall in IH. split_and!; [by apply IH| |].
      * apply max_list_elem_of_le. by apply (list_elem_of_fmap_2 height).
      * intros q ts'' Hq. by exists q.
    + unfold sel. destruct inArray; cbn [negb]; rewrite ?andb_false_r; cbn [andb]; repeat case_match; lia.
Qed.

Lemma root_ranges (fin : option (reader_error Empty_set)) doc : is_document text fin doc →
  let l := as_range <$> (range_of base <$> root_picks sel_name anywhere doc) in
  preorder (reverse l) ∧ within (Z.of_nat base) (at_ (slen text)) 1 l.
Proof.
  intros (Htok & _ & Hh & Hns). cbn zeta. rewrite <- root_elements_picks.
  pose proof (tokens_chain fin text) as Hc. rewrite Htok in Hc. cbn [fst] in Hc.
  destruct doc as [t|o ms c|o items c]; [by destruct (Hns t)| |]; cbn [flat app tok_chain root_elements height] in *;
    destruct Hc as (_ & _ & Ho & _ & _ & Hc).
  - edestruct (items_ranges (λ kv : token * jval, [kv.1]) snd (λ kv, key_of kv.1) false
      (max_list ((λ kv, height kv.2) <$> ms)) ms) as (p & Hp & Hle & _ & Hr); [|exact Ho|exact Hc|].
    + apply Forall_forall. intros kv Hkv. split_and!; [apply all_values| |].
      * apply max_list_elem_of_le. by apply (list_elem_of_fmap_2 (λ kv, height kv.2)).
      * intros. by eapply (delim_chain fst).
    + split; [eapply ranges_preorder; [exact Hr|unfold MaxDepth in *; lia]|].
      destruct Hr as [Hw _]. eapply Forall_impl; [exact Hw|]. cbn. lia.
  - edestruct (items_ranges (λ _ : jval, []) id (λ _, ItemName) true
      (max_list (height <$> items)) items) as (p & Hp & Hle & _ & Hr); [|exact Ho|exact Hc|].
    + apply Forall_forall. intros x Hx. split_and!; [apply all_values| |].
      * apply max_list_elem_of_le. by apply (list_elem_of_fmap_2 height).
      * intros q ts'' Hq. by exists q.
    + split; [eapply ranges_preorder; [exact Hr|unfold MaxDepth in *; lia]|].
      destruct Hr as [Hw _]. eapply Forall_impl; [exact Hw|]. cbn. lia.
Qed.
End document.

(** ** A whole index *)
Fixpoint admit_all (o : jsonRangeOrder) (l : list (jsonWorkItem * Z)) : result jsonRangeOrder :=
  match l with
  | [] => Ok o
  | (item, depth) :: l => o ← admit_range o item depth; admit_all o l
  end.
Definition item_range (p : jsonWorkItem * Z) : range := (ji_start p.1, ji_end p.1, p.2).

Lemma preorder_app l k : preorder (l ++ k) → preorder k.
Proof. induction l as [|b l IH]; [done|]. intros [_ H]. by apply IH. Qed.

Lemma admit_all_from rev_l l :
  preorder rev_l → (∀ i p, l !! i = Some p → ji_num p.1 = S (length rev_l + i)) →
  Forall (λ p, proper (item_range p)) l →
  (is_ok (admit_all (order_of rev_l) l) = true ↔ preorder (reverse (item_range <$> l) ++ rev_l)) ∧
  (is_ok (admit_all (order_of rev_l) l) = true →
   admit_all (order_of rev_l) l = Ok (order_of (reverse (item_range <$> l) ++ rev_l))).
Proof.
  revert rev_l. induction l as [|[item depth] l IH]; intros rev_l Hp Hnum Hprop; [done|].
  apply Forall_cons in Hprop as [Hi Hprop]. cbn [admit_all fmap list_fmap].
  rewrite reverse_cons, <- (assoc_L (++)). cbn [app].
  destruct (admit_step rev_l item depth Hp Hi) as [Hok Hback].
  { specialize (Hnum 0 (item, depth) eq_refl). cbn in Hnum. rewrite Hnum. f_equal. lia. }
  change (item_range (item, depth)) with (ji_start item, ji_end item, depth).
  destruct (admit_range (order_of rev_l) item depth) as [o|e] eqn:Ha; cbn [mbind res_bind].
  - specialize (Hback eq_refl). specialize (Hok Hback). injection Hok as ->.
    apply (IH ((ji_start item, ji_end item, depth) :: rev_l)); [by split| |done].
    intros i p Hlk. rewrite (Hnum (S i) p Hlk). cbn [length]. f_equal. lia.
  - split; [|done]. split; [done|]. intros Hpre. apply preorder_app in Hpre. destruct Hpre as [Hn _].
    by specialize (Hok Hn).
Qed.

(** The order check of an index is exactly document preorder. A run of
    records, numbered from one, with proper ranges, is admitted if and only if
    every record starts after every earlier one, and either ends before it or
    lies inside it one level deeper or more, with fewer than [MaxDepth] earlier
    records around it. *)
Theorem admit_preorder l :
  (∀ i p, l !! i = Some p → ji_num p.1 = S i) → Forall (λ p, proper (item_range p)) l →
  is_ok (admit_all new_order l) = true ↔ preorder (reverse (item_range <$> l)).
Proof.
  intros Hnum Hprop. change new_order with (order_of []).
  rewrite (proj1 (admit_all_from [] l I Hnum Hprop)). by rewrite app_nil_r.
Qed.
Definition sample_item (num : nat) (start stop : Z) : jsonWorkItem :=
  {| ji_num := num; ji_start := start; ji_end := stop; ji_size := stop - start; ji_sha := ""; ji_name := "a" |}.
Lemma admit_preorder_witness :
  preorder [(5, 7, 2); (1, 9, 1)]%Z ∧ ¬ preorder [(5, 12, 2); (1, 9, 1)]%Z.
Proof.
  split.
  - apply (proj1 (admit_preorder [(sample_item 1 1 9, 1%Z); (sample_item 2 5 7, 2%Z)]
      ltac:(intros [|[|i]] p; naive_solver) ltac:(repeat (apply Forall_cons; split; [unfold proper; cbn; lia|]); apply Forall_nil; exact I))). vm_compute. reflexivity.
  - intros H. pose proof (proj2 (admit_preorder [(sample_item 1 1 9, 1%Z); (sample_item 2 5 12, 2%Z)]
      ltac:(intros [|[|i]] p; naive_solver) ltac:(repeat (apply Forall_cons; split; [unfold proper; cbn; lia|]); apply Forall_nil; exact I)) H) as Hf. vm_compute in Hf. discriminate Hf.
Defined.
