(* ===== verification/IndexJsonSpec.v ===== *)
(** * JSON indexes: build, verify and read agree

    Verification accepts exactly the index a build would make; an index that
    was built verifies, and the indexed extraction refuses none of its
    records. *)
From Stdlib Require Import Ascii ZArith Lia.
From stdpp Require Import base list strings gmap sorting.
From S2P Require Import Prelude GoStrings GoStrconv GoFloat GoValue GoCsv GoSha256 GoJson IndexHeader IndexHeaderSpec JsonReader JsonReaderSpec JsonWalk JsonScan JsonScanSpec JsonTokens JsonDoc JsonDocSpec IndexJson ParPipe ParJson ParJsonSpec JsonOrder.

(** ** What the scanner finds in a source *)
Notation source_reader src := (newValidatingReader (E := Empty_set) [(src, ReadNil)]).

Lemma source_head src v : vr_start (source_reader src) = (v, None) → ∃ k, head_skip src = Some k ∧ vr_off v = k.
Proof.
  unfold vr_start. cbn [vr_started newValidatingReader vr_r length].
  set (w := fill_head 2 _).
  assert (vr_buf w = src ∧ vr_err w = None ∧ vr_off w = 0) as (Hb & He & Ho).
  { unfold w. cbn [fill_head newValidatingReader vr_buf vr_eof vr_err String.length]. rewrite bool_decide_eq_true_2 by lia.
    cbn [andb negb]. set (w1 := vr_fill _).
    assert (vr_buf w1 = src ∧ vr_err w1 = None ∧ vr_off w1 = 0 ∧ vr_r w1 = []) as (Hb & He & Ho & Hr) by done.
    destruct (_ && _); [|done]. clearbody w1. unfold vr_fill. rewrite Hr. cbn. by rewrite Hb, sapp_nil_r. }
  clearbody w. rewrite He, Hb. destruct (head_skip src) as [k|]; [|by intros [=]].
  intros [= <-]. exists k. split; [done|]. cbn. rewrite Ho. lia.
Qed.
Lemma source_text src text fin base :
  handed_on (slen src) (source_reader src) = Ok (text, fin, base) → slen text + base ≤ slen src.
Proof.
  unfold handed_on. destruct (vr_start (source_reader src)) as [v [e|]] eqn:Hs; [done|]. intros [= Hd <-].
  pose proof (source_head _ _ Hs) as (k & Hk & ->). pose proof (head_skip_le _ _ Hk) as Hle.
  assert (clean_errors (E := Empty_set) [(src, ReadNil)]) as Hclean by (constructor; [done|constructor]).
  pose proof (vr_start_ok _ _ _ Hclean Hs) as (Hok & Hcl & Herr & Ho). unfold input in Ho. cbn in Ho.
  assert (outcome v = validated src None) as Hout by (rewrite Ho; f_equal; by rewrite ?sapp_nil_r).
  assert (slen (outcome v).1 + k ≤ slen src) as Hlen.
  { rewrite Hout. unfold validated. rewrite Hk. destruct (utf8_scan _ _) as [n e]. cbn [fst].
    rewrite slen_stake, slen_sdrop. lia. }
  unfold decoder_reads in Hd. rewrite vr_drain_ok in Hd; try done.
  - rewrite Hd in Hlen. exact Hlen.
  - intros _. lia.
  - intros x Hx. congruence.
  - lia.
Qed.

Section records.
Context `{UC : UnicodeCase}.

(** The records of a source that scans to its end: numbered from one, with
    the ranges of the picked elements in preorder inside the source. *)
Record scanned (src : string) (name : string) (recs : list record) : Prop := {
  sc_numbered : ∀ i r, recs !! i = Some r → rc_Num r = S i;
  sc_sized : Forall (λ r, rc_SizeBytes r = rc_EndOffset r - rc_StartOffset r ∧ rc_Name r = name) recs;
  sc_order : preorder (reverse ((λ r, as_range (rc_StartOffset r, rc_EndOffset r, rc_Depth r)) <$> recs));
  sc_within : within 0 (Z.of_nat (slen src)) 1
    ((λ r, as_range (rc_StartOffset r, rc_EndOffset r, rc_Depth r)) <$> recs);
}.
Lemma numbered_lookup n l i o :
  numbered n l !! i = Some o →
  ∃ p, l !! i = Some p ∧ or_num o = S (n + i) ∧ or_start o = p.1.1 ∧ or_end o = p.1.2 ∧ or_depth o = p.2.
Proof.
  revert n i. induction l as [|[[s e] d] l IH]; intros n i; cbn [numbered]; [by rewrite lookup_nil|].
  destruct i as [|i]; cbn [lookup list_lookup].
  - intros [= <-]. exists (s, e, d). cbn. split_and!; (done || lia).
  - intros (p & Hp & Hn & ?)%IH. exists p. split_and!; (done || naive_solver || lia).
Qed.
Lemma numbered_ranges n l :
  (λ o, as_range (or_start o, or_end o, or_depth o)) <$> numbered n l = as_range <$> l.
Proof. revert n. induction l as [|[[s e] d] l IH]; intros n; cbn; [done|]. by rewrite IH. Qed.

Lemma src_records_scanned src selector recs :
  src_records src selector = (recs, None) → scanned src (rs_ElementName selector) recs.
Proof.
  unfold src_records. destruct (walk (slen src) (source_reader src) new_builder) as [b|e] eqn:Hwalk;
    [|destruct (scan_of_fault _ _ (rs_ElementName selector) (has_prefix "//" (rs_Raw selector)) true e Hwalk) as [r Hs];
      rewrite Hs; by intros [=]].
  destruct (scan_of_tree _ _ (rs_ElementName selector) (has_prefix "//" (rs_Raw selector)) true b Hwalk) as (text & fin & base & doc & Hh & Hdoc & Hs & _). rewrite Hs. cbn [default]. intros [= <-].
  apply source_text in Hh. destruct (root_ranges text (rs_ElementName selector) (has_prefix "//" (rs_Raw selector)) base
    fin doc Hdoc) as [Hpre Hw].
  set (l := range_of base <$> root_picks _ _ doc) in *.
  assert ((λ r, as_range (rc_StartOffset r, rc_EndOffset r, rc_Depth r)) <$>
    (record_of (rs_ElementName selector) text base true <$> numbered 0 l) = as_range <$> l) as Hr.
  { rewrite <- list_fmap_compose. by rewrite <- (numbered_ranges 0 l). }
  constructor; rewrite ?Hr.
  - intros i r Hi. apply list_lookup_fmap_Some in Hi as (o & -> & (p & _ & Hn & _)%numbered_lookup). cbn. by rewrite Hn.
  - apply Forall_fmap, Forall_true. done.
  - done.
  - eapply Forall_impl; [exact Hw|]. cbn. lia.
Qed.

(** ** Verification *)
Context (scan_error : walk_error Empty_set → gerror).
Notation build_records := (build_records scan_error).
Notation verify_records := (verify_records scan_error).

(** An index record with its name filled in. *)
Definition named (header : RecordIndex) (rm : RecordMetadata) : RecordMetadata := {|
  rm_RecordNum := rm_RecordNum rm; rm_StartOffset := rm_StartOffset rm; rm_EndOffset := rm_EndOffset rm;
  rm_SizeBytes := rm_SizeBytes rm; rm_SHA256 := rm_SHA256 rm; rm_ElementName := record_name header rm;
  rm_Depth := rm_Depth rm; rm_NamespaceContextRef := rm_NamespaceContextRef rm |}.
Definition declared (header : RecordIndex) (final_summary : option (result SummaryStats)) : option Z :=
  match final_summary with
  | None => Some (ss_TotalRecords (ri_Summary header))
  | Some (Ok s) => Some (ss_TotalRecords s)
  | Some (Err _) => None
  end.
Definition is_valid (r : result VerifyResult) : Prop := ∃ x, r = Ok x ∧ vf_Valid x = true.

(** The metadata a scanned record gets. *)
Definition scanned_metadata (fresh : record) (hash : string) : RecordMetadata := {|
  rm_RecordNum := Z.of_nat (rc_Num fresh); rm_StartOffset := Z.of_nat (rc_StartOffset fresh);
  rm_EndOffset := Z.of_nat (rc_EndOffset fresh); rm_SizeBytes := Z.of_nat (rc_SizeBytes fresh);
  rm_SHA256 := hash; rm_ElementName := rc_Name fresh; rm_Depth := Z.of_nat (rc_Depth fresh);
  rm_NamespaceContextRef := 0 |}.
Lemma record_matches_iff header rm fresh hash :
  record_matches header rm fresh = true ∧ rm_SHA256 rm = hash ↔ named header rm = scanned_metadata fresh hash.
Proof.
  unfold record_matches, named, scanned_metadata. rewrite !andb_true_iff, !Z.eqb_eq, String.eqb_eq. split.
  - intros [[[[[[[H1 H2] H3] H4] H5] H6] H7] H8]. by rewrite H1, H2, H3, H4, H5, H6, H7, H8.
  - intros H. injection H as ? ? ? ? ? ? ? ?. naive_solver.
Qed.
Lemma build_Ok src count r recs fin rm l :
  build_records src count (r :: recs) fin = Ok (rm :: l) ↔
  ∃ hash, rangeHash src (Z.of_nat (rc_StartOffset r)) (Z.of_nat (rc_EndOffset r)) = Ok hash ∧
    scanned_metadata r hash = rm ∧ build_records src (S count) recs fin = Ok l.
Proof.
  cbn [IndexJson.build_records]. unfold record_metadata.
  destruct (rangeHash src _ _) as [hash|e]; cbn [wrapf map_err mbind res_bind]; [|naive_solver].
  destruct (build_records src (S count) recs fin) as [l'|e]; cbn [mbind res_bind]; [|naive_solver].
  split; [intros [= <- <-]; by exists hash|]. intros (h & [= <-] & <- & [= <-]). done.
Qed.

Lemma verify_records_valid src header raw fs recs fin indexed ifin count :
  is_valid (verify_records src header raw fs count recs fin indexed ifin) ↔
  fin = None ∧ ifin = None ∧ build_records src count recs None = Ok (named header <$> indexed) ∧
  declared header fs = Some (Z.of_nat (count + length indexed)).
Proof.
  revert count indexed. induction recs as [|r recs IH]; intros count indexed; cbn [IndexJson.verify_records].
  - destruct fin as [e|].
    { split; [by intros (x & [= <-] & ?)|by intros [? _]]. }
    destruct indexed as [|rm indexed].
    + destruct ifin as [e|]; [split; [by intros (x & ? & _)|by intros (_ & ? & _)]|].
      cbn [IndexJson.build_records length fmap list_fmap]. rewrite Nat.add_0_r. unfold declared.
      destruct fs as [[s|e]|].
      * destruct (Z.eqb_spec (Z.of_nat count) (ss_TotalRecords s)) as [<-|Hne]; cbn [negb].
        -- split; [done|]. by eexists.
        -- split; [by intros (x & [= <-] & ?)|intros (_ & _ & _ & [= Heq])]. by destruct Hne.
      * split; [by intros (x & [= <-] & ?)|by intros (_ & _ & _ & ?)].
      * destruct (Z.eqb_spec (Z.of_nat count) (ss_TotalRecords (ri_Summary header))) as [<-|Hne]; cbn [negb].
        -- split; [done|]. by eexists.
        -- split; [by intros (x & [= <-] & ?)|intros (_ & _ & _ & [= Heq])]. by destruct Hne.
    + split; [by intros (x & [= <-] & ?)|]. cbn [IndexJson.build_records]. by intros (_ & _ & ? & _).
  - destruct indexed as [|rm indexed].
    + destruct ifin as [e|]; [split; [by intros (x & ? & _)|by intros (_ & ? & _)]|].
      split; [by intros (x & [= <-] & ?)|]. cbn [IndexJson.build_records]. intros (_ & _ & Hb & _).
      destruct (record_metadata src r); [|done]. cbn in Hb. by destruct (build_records src (S count) recs None).
    + cbn [fmap list_fmap]. destruct (record_matches header rm r) eqn:Hm; cbn [negb].
      2: { split; [by intros (x & [= <-] & ?)|]. intros (_ & _ & (hash & _ & Hn & _)%build_Ok & _).
        symmetry in Hn. apply record_matches_iff in Hn as [Hn _]. congruence. }
      destruct (rangeHash src _ _) as [hash|e] eqn:Hhash; cbn [wrapf map_err mbind res_bind].
      2: { split; [by intros (x & ? & _)|]. intros (_ & _ & (hash & Hh & _)%build_Ok & _). congruence. }
      destruct (String.eqb_spec hash (rm_SHA256 rm)) as [Hsha|Hsha]; cbn [negb].
      2: { split; [by intros (x & [= <-] & ?)|]. intros (_ & _ & (hash' & Hh & Hn & _)%build_Ok & _).
        symmetry in Hn. apply record_matches_iff in Hn as [_ Hn]. congruence. }
      rewrite IH. replace (count + length (rm :: indexed)) with (S count + length indexed) by (cbn; lia).
      assert (named header rm = scanned_metadata r hash) as Hn by (by apply record_matches_iff).
      split; intros (? & ? & Hb & ?); (split_and!; [done|done| |done]).
      * apply build_Ok. exists hash. rewrite Hn. done.
      * by apply build_Ok in Hb as (hash' & Hh & _ & Hb).
Qed.

(** A valid result counts the records of the index. *)
Lemma verify_records_counts src header raw fs recs fin ifin x : ∀ indexed count,
  verify_records src header raw fs count recs fin indexed ifin = Ok x → vf_Valid x = true →
  vf_RecordsVerified x = count + length indexed.
Proof.
  induction recs as [|r recs IH]; intros indexed count; cbn [IndexJson.verify_records].
  - destruct fin; [by intros [= <-]|]. destruct indexed as [|rm indexed]; [|by intros [= <-]]. destruct ifin; [done|].
    rewrite Nat.add_0_r. destruct fs as [[s|e]|]; [|by intros [= <-]|]; destruct (negb _); by intros [= <-].
  - destruct indexed as [|rm indexed]; [destruct ifin; [done|by intros [= <-]]|].
    destruct (negb _); [by intros [= <-]|]. intros (hash & _ & H)%res_bind_ok. destruct (negb _); [by injection H as <-|].
    intros Hx. rewrite (IH _ _ H Hx). cbn. lia.
Qed.

(** What the verifier accepts. *)
Lemma verifyJSON_accepted path file header fs indexed selector src recs :
  ParseRecordSelector (sl_XPath (ri_Selector header)) = Ok selector →
  rs_ElementName selector = sl_ElementName (ri_Selector header) →
  (0 ≤ ss_TotalRecords (ri_Summary header))%Z →
  openJSONSource path file = Ok src →
  src_size src = si_SizeBytes (ri_Source header) → src_hash src = si_SHA256 (ri_Source header) →
  src_records src selector = (recs, None) →
  build_records src 0 recs None = Ok (named header <$> indexed) →
  declared header fs = Some (Z.of_nat (length indexed)) →
  is_valid (verifyJSON scan_error path file header fs indexed None).
Proof.
  intros Hsel Hn Ht Hsrc Hs Hh Hr Hb Hd. unfold verifyJSON, jsonElementSelector.
  rewrite Hsel, <- Hn, String.eqb_refl, (proj2 (Z.ltb_ge _ _) Ht), Hsrc, <- Hs, Z.eqb_refl, <- Hh, String.eqb_refl.
  cbn [negb]. rewrite Hr. by apply verify_records_valid.
Qed.

(** C22: a JSON index verifies exactly when it is the index a build of the
    source would make. The verifier accepts if and only if the header names the
    selector, the size and the hash of the source, the index lists, names
    filled in, exactly the records with hashes that a build computes from the
    source, and the declared count is their number. *)
Theorem verifyJSON_accepts path file header fs indexed ifin :
  is_valid (verifyJSON scan_error path file header fs indexed ifin) ↔
  ∃ selector src recs,
    ParseRecordSelector (sl_XPath (ri_Selector header)) = Ok selector ∧
    rs_ElementName selector = sl_ElementName (ri_Selector header) ∧
    (0 ≤ ss_TotalRecords (ri_Summary header))%Z ∧
    openJSONSource path file = Ok src ∧
    src_size src = si_SizeBytes (ri_Source header) ∧ src_hash src = si_SHA256 (ri_Source header) ∧
    src_records src selector = (recs, None) ∧ ifin = None ∧
    build_records src 0 recs None = Ok (named header <$> indexed) ∧
    declared header fs = Some (Z.of_nat (length indexed)).
Proof.
  unfold verifyJSON, jsonElementSelector.
  destruct (ParseRecordSelector _) as [selector|e]; [|split; [by intros (x & [= <-] & ?)|naive_solver]].
  destruct (String.eqb_spec (rs_ElementName selector) (sl_ElementName (ri_Selector header))) as [Hn|Hn]; cbn [negb];
    [|split; [by intros (x & [= <-] & ?)|naive_solver]].
  destruct (Z.ltb_spec (ss_TotalRecords (ri_Summary header)) 0) as [Ht|Ht];
    [split; [by intros (x & [= <-] & ?)|intros (? & ? & ? & _ & _ & ? & _); lia]|].
  destruct (openJSONSource path file) as [src|e]; [|split; [by intros (x & [= <-] & ?)|naive_solver]].
  destruct (Z.eqb_spec (src_size src) (si_SizeBytes (ri_Source header))) as [Hs|Hs]; cbn [negb];
    [|split; [by intros (x & [= <-] & ?)|naive_solver]].
  destruct (String.eqb_spec (src_hash src) (si_SHA256 (ri_Source header))) as [Hh|Hh]; cbn [negb];
    [|split; [by intros (x & [= <-] & ?)|naive_solver]].
  destruct (src_records src selector) as [recs fin] eqn:Hr. rewrite verify_records_valid. split.
  - intros (-> & -> & Hb & Hd). exists selector, src, recs. by split_and!.
  - intros (sel & src' & recs' & [= <-] & _ & _ & [= <-] & _ & _ & Heq & -> & Hb & Hd). rewrite Hr in Heq.
    injection Heq as <- ->. done.
Qed.

(** ** What a build makes *)
Lemma ParseRecordSelector_again s r : ParseRecordSelector s = Ok r → ParseRecordSelector (rs_Raw r) = Ok r.
Proof.
  unfold ParseRecordSelector. destruct (trim_space s =s? "") eqn:H1; [done|].
  destruct (negb (has_prefix "//" (trim_space s)) && has_prefix "/" (trim_space s)) eqn:H2; [done|].
  destruct (existsb _ _ || _) eqn:H3; [done|]. intros [= <-]. cbn [rs_Raw]. rewrite trim_space_twice.
  by rewrite H1, H2, H3.
Qed.

Lemma build_scanned src count recs fin l :
  build_records src count recs fin = Ok l →
  fin = None ∧ Forall2 (λ r rm, ∃ hash, rangeHash src (Z.of_nat (rc_StartOffset r)) (Z.of_nat (rc_EndOffset r)) = Ok hash ∧
    scanned_metadata r hash = rm) recs l.
Proof.
  revert count l. induction recs as [|r recs IH]; intros count l.
  - cbn [IndexJson.build_records]. destruct fin; [done|]. intros [= <-]. split; [done|constructor].
  - destruct l as [|rm l].
    + cbn [IndexJson.build_records]. destruct (record_metadata src r); [|done]. cbn [mbind res_bind].
      by destruct (build_records src (S count) recs fin).
    + intros (hash & Hh & Hrm & Hb)%build_Ok. apply IH in Hb as [-> Hall]. split; [done|]. constructor; [|done].
      by exists hash.
Qed.

(** The parts of a build that succeeded. *)
Lemma built opts file again header records :
  buildJSONTo scan_error opts file again = Ok (header, records) →
  ∃ selector src recs,
    ParseRecordSelector (bo_Selector opts) = Ok selector ∧ openJSONSource (bo_InputPath opts) file = Ok src ∧
    src_records src selector = (recs, None) ∧ build_records src 0 recs None = Ok records ∧
    ri_Version header = SchemaVersion ∧
    ri_Source header = {|
      si_Path := if bo_SourceIdentity opts =s? "" then bo_InputPath opts else bo_SourceIdentity opts;
      si_SizeBytes := src_size src; si_SHA256 := src_hash src; si_Compressed := false;
      si_CompressionFormat := "none"; si_OffsetKind := OffsetKindSourceBytes; si_Format := SourceFormatJSON |} ∧
    ri_Selector header = {| sl_XPath := rs_Raw selector; sl_ElementName := rs_ElementName selector |} ∧
    ri_NamespaceContexts header = [{| nc_ID := 0; nc_Declarations := Some [] |}] ∧
    ss_TotalRecords (ri_Summary header) = Z.of_nat (length records).
Proof.
  unfold buildJSONTo, jsonElementSelector. intros (selector & Hsel & H)%res_bind_ok.
  apply res_bind_ok in H as (src & Hsrc & H). destruct (src_records src selector) as [recs fin] eqn:Hr.
  apply res_bind_ok in H as (l & Hb & H). destruct (negb _); [done|]. injection H as <- <-.
  pose proof (build_scanned _ _ _ _ _ Hb) as [-> _]. exists selector, src, recs.
  split_and!; try done. cbn [ri_Summary summarize]. unfold summarize. by destruct (foldl _ _ _) as [[? ?] ?].
Qed.


Lemma named_scanned header src name recs l :
  sl_ElementName (ri_Selector header) = name → scanned src name recs → build_records src 0 recs None = Ok l →
  named header <$> l = l.
Proof.
  intros Hname [_ Hsz _ _] Hb. apply build_scanned in Hb as [_ Hall]. rewrite <- (list_fmap_id l) at 2.
  apply list_fmap_ext. intros i rm Hi. destruct (Forall2_lookup_r _ _ _ _ _ Hall Hi) as (r & Hr & hash & _ & <-).
  eapply Forall_lookup_1 in Hsz as [_ Hn]; [|exact Hr]. unfold named, scanned_metadata, record_name.
  cbn [rm_RecordNum rm_StartOffset rm_EndOffset rm_SizeBytes rm_SHA256 rm_ElementName rm_Depth rm_NamespaceContextRef id].
  rewrite Hn, Hname. by destruct (name =s? "").
Qed.

(** What a store gives back of an index that was built: its header, where the
    summary may still be missing, and by itself or from the store's own summary
    the count of the build. *)
Definition read_back (header hd : RecordIndex) (fs : option (result SummaryStats)) : Prop :=
  ri_Version hd = ri_Version header ∧ ri_Source hd = ri_Source header ∧ ri_Selector hd = ri_Selector header ∧
  ri_NamespaceContexts hd = ri_NamespaceContexts header ∧ (0 ≤ ss_TotalRecords (ri_Summary hd))%Z ∧
  declared hd fs = Some (ss_TotalRecords (ri_Summary header)).
(** The metadata is that of the scanned record, with the digest of its bytes. *)
Definition describes_record (src : string) (r : record) (rm : RecordMetadata) : Prop :=
  ∃ hash, rangeHash src (Z.of_nat (rc_StartOffset r)) (Z.of_nat (rc_EndOffset r)) = Ok hash ∧ scanned_metadata r hash = rm.
Lemma verifyJSON_counts path file header fs indexed ifin x :
  verifyJSON scan_error path file header fs indexed ifin = Ok x → vf_Valid x = true → vf_RecordsVerified x = length indexed.
Proof.
  unfold verifyJSON. destruct (jsonElementSelector _); [|by intros [= <-]]. destruct (negb _); [by intros [= <-]|].
  destruct (_ <? 0)%Z; [by intros [= <-]|]. destruct (openJSONSource _ _); [|by intros [= <-]].
  do 2 (destruct (negb _); [by intros [= <-]|]). destruct (src_records _ _). intros H Hx. by rewrite (verify_records_counts _ _ _ _ _ _ _ _ _ _ H Hx).
Qed.

(** The checks before the records, on a header that was built. *)
Lemma built_header_passes vopts file hd fs indexed ifin path :
  ri_Version hd = SchemaVersion → (ri_Source hd = {|
      si_Path := si_Path (ri_Source hd); si_SizeBytes := si_SizeBytes (ri_Source hd); si_SHA256 := si_SHA256 (ri_Source hd);
      si_Compressed := false; si_CompressionFormat := "none"; si_OffsetKind := OffsetKindSourceBytes; si_Format := SourceFormatJSON |}) →
  ri_NamespaceContexts hd = [{| nc_ID := 0; nc_Declarations := Some [] |}] →
  DetectCompression path = (false, "none") → vo_InputPath vopts = path → path ≠ "" →
  (vo_InputFormat vopts = "" ∨ vo_InputFormat vopts = SourceFormatJSON) →
  VerifyWithProvider scan_error vopts file hd fs indexed ifin = verifyJSON scan_error path file hd fs indexed ifin.
Proof.
  intros Hv Hs Hns Hdc Hpath Hne Hfmt. unfold VerifyWithProvider. rewrite Hv.
  change (ValidateRecordIndexHeaderVersion SchemaVersion) with (Ok (E := gerror) tt).
  cbn [mbind res_bind]. assert (SourceFormat hd = Ok SourceFormatJSON) as ->.
  { apply SourceFormat_current; [done|]. by rewrite Hs. }
  cbn [mbind res_bind].
  assert (negb (vo_InputFormat vopts =s? "") && negb (vo_InputFormat vopts =s? SourceFormatJSON) = false) as ->
    by (destruct Hfmt as [-> | ->]; done).
  assert (ValidateNamespaceContextShape hd = Ok tt) as ->.
  { unfold ValidateNamespaceContextShape. rewrite Hv, Hns, Hs. done. }
  cbn [mbind res_bind].
  assert (NormalizeRecordIndex hd = hd) as Hnorm.
  { unfold NormalizeRecordIndex. rewrite Hv, Hs, Hns. destruct hd. cbn in Hv, Hs, Hns |- *. by rewrite Hv, Hs, Hns. }
  rewrite Hnorm.
  assert (ValidateSourceByteOffsets hd (vo_InputPath vopts) = Ok tt) as ->.
  { unfold ValidateSourceByteOffsets. rewrite Hnorm, Hs. cbn [si_OffsetKind si_Compressed si_Path].
    change (OffsetKindSourceBytes =s? OffsetKindSourceBytes) with true. cbn [negb].
    rewrite Hpath. destruct (String.eqb_spec path ""); [done|]. by rewrite Hdc. }
  change (SourceFormatJSON =s? SourceFormatJSON) with true. by rewrite Hpath.
Qed.

(** C16: an index built from a JSON source lists exactly the records that the
    scan of the source yields, in order, each with its range and the digest of
    its bytes, and declares their number; and however a store gives it back - the
    count in the header or in the store's own summary - it verifies against that
    source through the provider-independent verifier, with every record
    counted. *)
Theorem built_index_verifies opts file again header records vopts hd fs :
  buildJSONTo scan_error opts file again = Ok (header, records) → read_back header hd fs →
  vo_InputPath vopts = bo_InputPath opts → vo_InputPath vopts ≠ "" →
  (vo_InputFormat vopts = "" ∨ vo_InputFormat vopts = SourceFormatJSON) →
  (∃ selector src recs,
     ParseRecordSelector (bo_Selector opts) = Ok selector ∧ openJSONSource (bo_InputPath opts) file = Ok src ∧
     src_records src selector = (recs, None) ∧ Forall2 (describes_record src) recs records ∧
     ss_TotalRecords (ri_Summary header) = Z.of_nat (length recs))
  ∧ ∃ x, VerifyWithProvider scan_error vopts file hd fs records None = Ok x ∧ vf_Valid x = true
         ∧ vf_RecordsVerified x = length records.
Proof.
  intros Hb (E1 & E2 & E3 & E4 & Hpos & Hdecl) Hpath Hne Hfmt.
  apply built in Hb as (selector & src & recs & Hsel & Hsrc & Hrec & Hb & Hv & Hs & Hsl & Hns & Hn).
  pose proof (build_scanned _ _ _ _ _ Hb) as [_ Hall]. split.
  { exists selector, src, recs. split_and!; try done. by rewrite Hn, (Forall2_length _ _ _ Hall). }
  assert (DetectCompression (bo_InputPath opts) = (false, "none")) as Hdc.
  { unfold openJSONSource in Hsrc. destruct (DetectCompression (bo_InputPath opts)) as [b f] eqn:Hd.
    destruct b; [done|]. unfold DetectCompression in Hd. by repeat case_match; simplify_eq. }
  rewrite (built_header_passes vopts file hd fs records None (bo_InputPath opts)); try done;
    [|by rewrite E1|by rewrite E2, Hs|by rewrite E4|by rewrite <- Hpath].
  assert (is_valid (verifyJSON scan_error (bo_InputPath opts) file hd fs records None)) as (x & Hx & Hvalid).
  { eapply (verifyJSON_accepted _ _ _ _ _ selector src recs); rewrite ?E3, ?E2, ?Hsl, ?Hs; try done;
      [by eapply ParseRecordSelector_again| |by rewrite Hdecl, Hn].
    rewrite (named_scanned hd src (rs_ElementName selector) recs); [done|by rewrite E3, Hsl| |done].
    by apply src_records_scanned. }
  exists x. split; [done|]. split; [done|]. by apply verifyJSON_counts in Hx.
Qed.
End records.

(** ** Digests *)
Lemma hex_digit_val z : ∃ v, hex_val (hex_digit (Z.land z 15)) = Some v.
Proof.
  assert (0 ≤ Z.land z 15 < 16)%Z as Hr.
  { change 15%Z with (Z.ones 4). rewrite Z.land_ones by lia. by apply Z.mod_pos_bound. }
  assert (Forall (λ d, is_Some (hex_val (hex_digit d))) (seqZ 0 16)) as H by (vm_compute; repeat econstructor).
  rewrite Forall_forall in H. specialize (H (Z.land z 15)). rewrite elem_of_seqZ in H.
  specialize (H ltac:(lia)). destruct (hex_val _) as [v|]; [by exists v|done].
Qed.
Lemma is_hex_digits n z t : is_hex (hex_digits (2 * n) z +:+ t) = is_hex t.
Proof.
  induction n as [|n IH]; [done|]. replace (2 * S n) with (S (S (2 * n))) by lia. cbn [hex_digits].
  rewrite !sapp_cons. cbn [is_hex].
  destruct (hex_digit_val (Z.shiftr z (4 * Z.of_nat (S (2 * n))))) as [v ->].
  destruct (hex_digit_val (Z.shiftr z (4 * Z.of_nat (2 * n)))) as [w ->]. exact IH.
Qed.
Lemma slen_hex_digits n z : slen (hex_digits n z) = n.
Proof. induction n as [|n IH]; [done|]. cbn [hex_digits String.length]. by rewrite IH. Qed.

Lemma sha_round_length st kw : length st = 8 → length (sha_round st kw) = 8.
Proof. unfold sha_round. intros H. do 9 (destruct st as [|? st]; try done). Qed.
Lemma sha_rounds_length l st : length st = 8 → length (foldl sha_round st l) = 8.
Proof. revert st. induction l as [|kw l IH]; intros st H; [done|]. cbn [foldl]. by apply IH, sha_round_length. Qed.
Lemma sha_blocks_length n st ws : length st = 8 → length (sha_blocks n st ws) = 8.
Proof.
  revert st ws. induction n as [|n IH]; intros st ws H; [done|]. cbn [sha_blocks]. apply IH.
  unfold sha_block. rewrite length_zip_with, sha_rounds_length by done. by rewrite H.
Qed.
Lemma sha256_hex_digest s : slen (sha256_hex s) = 64 ∧ is_hex (sha256_hex s) = true.
Proof.
  unfold sha256_hex. set (l := sha_blocks _ _ _). assert (length l = 8) as Hl by by apply sha_blocks_length.
  clearbody l. change 64 with (8 * 8). rewrite <- Hl at 2. clear Hl.
  induction l as [|z l [IH1 IH2]]; [done|]. cbn [fmap list_fmap]. rewrite sconcat_cons, slen_app, slen_hex_digits.
  split; [transitivity (8 + length l * 8); [f_equal; exact IH1|cbn [length]; lia]|].
  change 8 with (2 * 4). by rewrite is_hex_digits.
Qed.

(** ** Reading a built index back *)
Section read.
Context `{UC : UnicodeCase} {R : Type} (scan_error : walk_error Empty_set → gerror).
Context (limit : Z) (process : jsonWorkItem → jsonResult R).

Definition item_of (name : string) (num : nat) (rm : RecordMetadata) : jsonWorkItem := {|
  ji_num := num; ji_start := rm_StartOffset rm; ji_end := rm_EndOffset rm; ji_size := rm_SizeBytes rm;
  ji_sha := rm_SHA256 rm; ji_name := name |}.
Definition meta_range (rm : RecordMetadata) : Z * Z * Z := (rm_StartOffset rm, rm_EndOffset rm, rm_Depth rm).

(** What [validate] asks of a record. *)
Definition valid_record (size : Z) (name : string) (num : nat) (rm : RecordMetadata) : Prop :=
  rm_RecordNum rm = Z.of_nat num ∧ (0 ≤ rm_StartOffset rm < rm_EndOffset rm)%Z ∧ (rm_EndOffset rm ≤ size)%Z ∧
  rm_SizeBytes rm = (rm_EndOffset rm - rm_StartOffset rm)%Z ∧ (rm_SizeBytes rm ≤ limit)%Z ∧
  rm_NamespaceContextRef rm = 0%Z ∧ (1 ≤ rm_Depth rm)%Z ∧ slen (rm_SHA256 rm) = 64 ∧
  is_hex (rm_SHA256 rm) = true ∧ rm_ElementName rm = name.
Lemma valid_validate size name num rm :
  valid_record size name num rm → validate limit size name rm num = Ok (item_of name num rm).
Proof.
  intros (H1 & H2 & H3 & H4 & H5 & H6 & H7 & H8 & H9 & H10). unfold validate.
  rewrite (proj2 (Z.eqb_eq _ _) H1). cbn [negb].
  assert ((rm_StartOffset rm <? 0)%Z || (rm_EndOffset rm <=? rm_StartOffset rm)%Z || (size <? rm_EndOffset rm)%Z = false)
    as -> by lia.
  rewrite (proj2 (Z.eqb_eq _ _) H4). cbn [negb]. rewrite (proj2 (Z.ltb_ge _ _) H5).
  rewrite (proj2 (Z.eqb_eq _ _) H6). cbn [negb]. rewrite (proj2 (Z.ltb_ge _ _) H7).
  rewrite H8, H9, Nat.eqb_refl. cbn [negb]. rewrite H10.
  assert ((if name =s? "" then name else name) = name) as -> by (by destruct (name =s? "")).
  rewrite String.eqb_refl. done.
Qed.

Lemma plan_from_valid size name total rest : ∀ rev_l,
  preorder (reverse (meta_range <$> rest) ++ rev_l) →
  (∀ i rm, rest !! i = Some rm → valid_record size name (S (length rev_l + i)) rm) →
  total = Z.of_nat (length rev_l + length rest) →
  plan_from limit size name process (Ok total) (S (length rev_l)) (order_of rev_l) (Ok <$> rest)
  = imap (λ i rm, process (item_of name (S (length rev_l + i)) rm)) rest.
Proof.
  induction rest as [|rm rest IH]; intros rev_l Hp Hv Ht.
  - cbn [fmap list_fmap plan_from head]. unfold schedule_next.
    assert ((total =? Z.of_nat (S (length rev_l)) - 1)%Z = true) as ->; [|done]. apply Z.eqb_eq. cbn in Ht. lia.
  - cbn [fmap list_fmap plan_from head]. pose proof (Hv 0 rm eq_refl) as Hrm. rewrite Nat.add_0_r in Hrm.
    cbn [fmap list_fmap] in Hp. rewrite reverse_cons, <- (assoc_L (++)) in Hp. cbn [app] in Hp.
    pose proof (preorder_app _ _ Hp) as [Hnext Hpre].
    destruct (admit_step rev_l (item_of name (S (length rev_l)) rm) (rm_Depth rm) Hpre) as [Hok _].
    { unfold proper. cbn. by apply Hrm. } { done. }
    unfold schedule_next. rewrite (valid_validate _ _ _ _ Hrm). cbn [mbind res_bind]. rewrite (Hok Hnext).
    cbn [imap]. rewrite Nat.add_0_r. f_equal.
    etrans; [apply (IH (meta_range rm :: rev_l)); [done|..]|].
    3: { apply imap_ext. intros i x _. unfold compose. f_equal. f_equal. cbn [length]. lia. }
    + intros i x Hi. cbn [length]. replace (S (S (length rev_l) + i)) with (S (length rev_l + S i)) by lia. by apply Hv.
    + cbn [length] in Ht |- *. lia.
Qed.

Lemma built_valid src name recs records :
  scanned src name recs → build_records scan_error src 0 recs None = Ok records →
  Forall (λ rm, rm_SizeBytes rm ≤ limit)%Z records →
  (∀ i rm, records !! i = Some rm → valid_record (src_size src) name (S i) rm ∧
     rm_SHA256 rm = sha256_hex (ssub src (Z.to_nat (rm_StartOffset rm)) (Z.to_nat (rm_SizeBytes rm)))) ∧
  preorder (reverse (meta_range <$> records)).
Proof.
  intros [Hnum Hsz Hpre Hw] Hb Hlim. apply build_scanned in Hb as [_ Hall]. split.
  - intros i rm Hi. destruct (Forall2_lookup_r _ _ _ _ _ Hall Hi) as (r & Hr & hash & Hh & <-).
    pose proof (Hnum _ _ Hr) as Hn. pose proof (Forall_lookup_1 _ _ _ _ Hlim Hi) as Hl.
    apply (Forall_lookup_1 _ _ _ _ Hsz) in Hr as Hszr. destruct Hszr as [Hsize Hname].
    assert (within 0 (Z.of_nat (slen src)) 1 [as_range (rc_StartOffset r, rc_EndOffset r, rc_Depth r)]) as Hwr.
    { constructor; [|constructor]. eapply (Forall_lookup_1 _ _ i) in Hw; [exact Hw|]. by rewrite list_lookup_fmap, Hr. }
    unfold within in Hwr. rewrite Forall_singleton in Hwr. cbn in Hwr. cbn in Hl.
    unfold rangeHash, computeRangeHashSHA256FromReader in Hh. repeat case_match; simplify_eq/=.
    split.
    + unfold valid_record, scanned_metadata, src_size.
      cbn [rm_RecordNum rm_StartOffset rm_EndOffset rm_SizeBytes rm_SHA256 rm_ElementName rm_Depth rm_NamespaceContextRef].
      match goal with |- context [sha256_hex ?s] => pose proof (sha256_hex_digest s) as [Hd1 Hd2] end.
      rewrite Hn, Hsize, Hd1, Hd2. split_and!; done || lia.
    + unfold scanned_metadata. cbn [rm_SHA256 rm_StartOffset rm_SizeBytes]. do 2 f_equal. rewrite Hsize. lia.
  - assert (meta_range <$> records = (λ r, as_range (rc_StartOffset r, rc_EndOffset r, rc_Depth r)) <$> recs) as ->; [|done].
    clear -Hall. induction Hall as [|r rm recs records (hash & _ & <-) _ IH]; [done|]. cbn [fmap list_fmap]. by rewrite IH.
Qed.

(** C28: the indexed extraction refuses no record of an index that was built
    from its source, whatever the selector, as long as the records are within
    the size limit: its plan is to extract every record of the index, each under
    its number and range, and each item carries the hash of its bytes. *)
Theorem built_index_runs opts file again header records src :
  buildJSONTo scan_error opts file again = Ok (header, records) →
  openJSONSource (bo_InputPath opts) file = Ok src →
  Forall (λ rm, rm_SizeBytes rm ≤ limit)%Z records →
  let name := sl_ElementName (ri_Selector header) in
  let items := imap (λ i rm, item_of name (S i) rm) records in
  plan limit (src_size src) name process (Ok <$> records) (Ok (ss_TotalRecords (ri_Summary header)))
  = process <$> items ∧
  Forall (λ item, sha256_hex (ssub src (Z.to_nat (ji_start item)) (Z.to_nat (ji_size item))) = ji_sha item) items.
Proof.
  intros Hb Hopen Hlim. apply built in Hb as (selector & src' & recs & _ & Hsrc & Hrec & Hb & _ & _ & Hsl & _ & Hn).
  rewrite Hopen in Hsrc. injection Hsrc as <-. rewrite Hsl, Hn. cbn [sl_ElementName].
  apply src_records_scanned in Hrec. destruct (built_valid _ _ _ _ Hrec Hb Hlim) as [Hvalid Hpre]. split.
  - unfold plan. change new_order with (order_of []). change 1 with (S (length (@nil (Z * Z * Z)))).
    rewrite (plan_from_valid _ _ _ records []).
    + rewrite fmap_imap. done.
    + by rewrite app_nil_r.
    + intros i rm Hi. by apply Hvalid.
    + done.
  - apply Forall_lookup_2. intros i item Hi. rewrite list_lookup_imap in Hi. apply fmap_Some in Hi as (rm & Hrm & ->).
    cbn. by destruct (Hvalid _ _ Hrm) as [_ ->].
Qed.
End read.

(** ** A concrete index: three records, one nested *)
Module IndexSample.
#[local] Existing Instance ascii_case.
Definition opts : BuildOptions := {|
  bo_InputPath := "a.json"; bo_SourceIdentity := ""; bo_Selector := "//item";
  bo_IncludeP50 := true; bo_IncludeP95 := false; bo_IncludeP99 := false |}.
Definition text : string := "[ [1], 22 ]".
Definition file : option opened := Some {| op_regular := true; op_data := text |}.
Definition err (e : walk_error Empty_set) : gerror := Errorf "" [].
Definition index : RecordIndex * list RecordMetadata := Eval vm_compute in
  match buildJSONTo err opts file text with Ok r => r | Err _ => ({|
    ri_Version := ""; ri_Source := Build_SourceInfo "" 0 "" false "" "" ""; ri_Selector := Build_SelectorInfo "" "";
    ri_NamespaceContexts := []; ri_Summary := summarize opts [] |}, []) end.
Lemma build_index : buildJSONTo err opts file text = Ok index.
Proof. vm_compute. reflexivity. Qed.
Definition vopts : VerifyOptions :=
  {| vo_InputFormat := "json"; vo_InputPath := "a.json"; vo_VerifyRecords := true; vo_FailFast := true |}.
Example ranges : meta_range <$> index.2 = [(2, 5, 1); (3, 4, 2); (7, 9, 1)]%Z.
Proof. reflexivity. Qed.
End IndexSample.

(** As the streaming store reads it: the summary comes behind the records. *)
Definition early_header : RecordIndex := {|
  ri_Version := ri_Version IndexSample.index.1; ri_Source := ri_Source IndexSample.index.1;
  ri_Selector := ri_Selector IndexSample.index.1; ri_NamespaceContexts := ri_NamespaceContexts IndexSample.index.1;
  ri_Summary := summarize IndexSample.opts [] |}.
Lemma built_index_verifies_witness :
  ss_TotalRecords (ri_Summary early_header) = 0%Z
  ∧ ∃ x, VerifyWithProvider (UC := ascii_case) IndexSample.err IndexSample.vopts IndexSample.file
      early_header (Some (Ok (ri_Summary IndexSample.index.1))) IndexSample.index.2 None = Ok x
    ∧ vf_Valid x = true ∧ vf_RecordsVerified x = 3.
Proof.
  split; [reflexivity|].
  apply (built_index_verifies (UC := ascii_case) IndexSample.err IndexSample.opts IndexSample.file IndexSample.text
    IndexSample.index.1 IndexSample.index.2 IndexSample.vopts early_header (Some (Ok (ri_Summary IndexSample.index.1))) IndexSample.build_index).
  - split_and!; (reflexivity || (vm_compute; discriminate)).
  - reflexivity.
  - intros H. discriminate H.
  - right. reflexivity.
Defined.
Lemma built_index_runs_witness :
  length (plan 100 11 "item" (λ item, JsonResult (ji_num item) [ji_start item] None) (Ok <$> IndexSample.index.2)
    (Ok (ss_TotalRecords (ri_Summary IndexSample.index.1)))) = 3.
Proof.
  pose proof (proj1 (built_index_runs (UC := ascii_case) IndexSample.err 100
    (λ item, JsonResult (ji_num item) [ji_start item] None)
    IndexSample.opts IndexSample.file IndexSample.text IndexSample.index.1 IndexSample.index.2 IndexSample.text
    IndexSample.build_index eq_refl ltac:(repeat (apply Forall_cons; split; [vm_compute; discriminate|]); apply Forall_nil; exact I))) as H.
  change (src_size IndexSample.text) with 11%Z in H. change (sl_ElementName (ri_Selector IndexSample.index.1)) with "item" in H.
  rewrite H. reflexivity.
Defined.
