(* ===== verification/DslAccum.v ===== *)
(** * Validation DSL: accumulators (internal/validation/dsl/accumulator.go)

    Incremental count/sum/min/max/avg state, its update on one record, and the
    maps of accumulators a run keeps. A range over such a map visits the
    entries in the list's order. *)
From Stdlib Require Import Ascii ZArith Lia SpecFloat.
From stdpp Require Import base list strings.
From S2P Require Import Prelude GoStrings GoFloat GoStrconv GoValue DslTypes DslParser DslEval.

Fixpoint advanced_go (filterStr : string) (markers : list string) : result bool :=
  match markers with
  | [] => Ok false
  | m :: markers =>
      found ← containsOutsideStrings filterStr m;
      if (found : bool) then Ok true else advanced_go filterStr markers
  end.
Definition isAdvancedFilter (filterStr : string) : result bool :=
  advanced_go filterStr ["&&"; "||"; "("; ")"].

(** The simple filter and the filter expression; both nil without a filter. *)
Definition parse_filters (config : AccumulationConfig)
    : result (option FilterExpression * option Expression) :=
  if ac_Filter config =s? "" then Ok (None, None) else
  let filterStr := trim_space (ac_Filter config) in
  advanced ← wrapf "failed to parse filter for accumulation %s: %w" [AStr (ac_Name config)]
               (isAdvancedFilter filterStr);
  if (advanced : bool) then
    e ← wrapf "failed to parse filter expression for accumulation %s: %w" [AStr (ac_Name config)]
          (ParseExpression filterStr);
    Ok (None, Some e)
  else
    f ← wrapf "failed to parse filter for accumulation %s: %w" [AStr (ac_Name config)]
          (ParseFilter filterStr);
    Ok (f, None).

Definition NewAccumulator (config : AccumulationConfig) : result Accumulator :=
  filters ← parse_filters config;
  Ok {| acc_Name := ac_Name config; acc_Operation := ac_Operation config;
        acc_Field := ac_Field config;
        acc_Filter := filters.1; acc_FilterExpr := filters.2;
        acc_Count := 0; acc_Sum := fzero; acc_Min := finf false; acc_Max := finf true;
        acc_values := [] |}.

Definition Reset (acc : Accumulator) : Accumulator := {|
  acc_Name := acc_Name acc; acc_Operation := acc_Operation acc; acc_Field := acc_Field acc;
  acc_Filter := acc_Filter acc; acc_FilterExpr := acc_FilterExpr acc;
  acc_Count := 0; acc_Sum := fzero; acc_Min := finf false; acc_Max := finf true;
  acc_values := [];
|}.

Definition with_count (acc : Accumulator) (n : Z) : Accumulator := {|
  acc_Name := acc_Name acc; acc_Operation := acc_Operation acc; acc_Field := acc_Field acc;
  acc_Filter := acc_Filter acc; acc_FilterExpr := acc_FilterExpr acc;
  acc_Count := n; acc_Sum := acc_Sum acc; acc_Min := acc_Min acc; acc_Max := acc_Max acc;
  acc_values := acc_values acc;
|}.

(** Fold one number in. *)
Definition observe_number (acc : Accumulator) (v : f64) : Accumulator := {|
  acc_Name := acc_Name acc; acc_Operation := acc_Operation acc; acc_Field := acc_Field acc;
  acc_Filter := acc_Filter acc; acc_FilterExpr := acc_FilterExpr acc;
  acc_Count := acc_Count acc + 1;
  acc_Sum := fadd (acc_Sum acc) v;
  acc_Min := if fltb v (acc_Min acc) then v else acc_Min acc;
  acc_Max := if fltb (acc_Max acc) v then v else acc_Max acc;
  acc_values := if acc_Operation acc =s? "avg" then acc_values acc ++ [v] else acc_values acc;
|}.

Definition numeric_operation (op : string) : bool :=
  (op =s? "sum") || (op =s? "avg") || (op =s? "min") || (op =s? "max").

Section update.
Context `{UC : UnicodeCase}.

(** Whether the record passes the accumulator's filter. *)
Definition passes_filter (acc : Accumulator) (record : vmap) : result bool :=
  match acc_FilterExpr acc with
  | Some e =>
      r ← wrapf "failed to evaluate filter expression for accumulation %s: %w" [AStr (acc_Name acc)]
            (EvaluateExpression (NewEvaluator record None) e);
      match toBool r with
      | Some b => Ok b
      | None => errorf "filter expression for accumulation %s did not return boolean result"
                  [AStr (acc_Name acc)]
      end
  | None =>
      wrapf "failed to evaluate filter for accumulation %s: %w" [AStr (acc_Name acc)]
        (EvaluateFilter (acc_Filter acc) record)
  end.

Definition Update (acc : Accumulator) (record : vmap) : result Accumulator :=
  pass ← passes_filter acc record;
  if negb (pass : bool) then Ok acc else
  if (acc_Operation acc =s? "count") || (acc_Operation acc =s? "increment")
  then Ok (with_count acc (acc_Count acc + 1))
  else if numeric_operation (acc_Operation acc) then
    if acc_Field acc =s? "" then
      errorf "accumulation %s requires a field for operation %s"
        [AStr (acc_Name acc); AStr (acc_Operation acc)]
    else
      let fieldValue := getNestedField record (acc_Field acc) in
      if is_nil fieldValue then Ok acc else
      v ← wrapf "failed to convert field %s to number for accumulation %s: %w"
            [AStr (acc_Field acc); AStr (acc_Name acc)] (toFloat64 fieldValue);
      Ok (observe_number acc v)
  else errorf "unknown accumulation operation: %s" [AStr (acc_Operation acc)].

Definition GetResult (acc : Accumulator) : result value :=
  let op := acc_Operation acc in
  if (op =s? "count") || (op =s? "increment") then Ok (VInt KInt (acc_Count acc))
  else if op =s? "sum" then Ok (VFloat (acc_Sum acc))
  else if op =s? "min" then
    Ok (match acc_Min acc with S754_infinity false => VNil | m => VFloat m end)
  else if op =s? "max" then
    Ok (match acc_Max acc with S754_infinity true => VNil | m => VFloat m end)
  else if op =s? "avg" then
    if (acc_Count acc =? 0)%Z then Ok VNil
    else Ok (VFloat (fdiv (acc_Sum acc) (f_of_Z (acc_Count acc))))
  else errorf "unknown accumulation operation: %s" [AStr op].

Definition InitializeAccumulators (configs : list AccumulationConfig)
    : result (list (string * Accumulator)) :=
  foldM (λ m config,
    acc ← wrapf "failed to create accumulator %s: %w" [AStr (ac_Name config)] (NewAccumulator config);
    Ok (mset (ac_Name config) acc m)) [] configs.

(** Accumulators visited before a failing one have been updated in place:
    the failing run keeps no state, so only the error is returned. *)
Fixpoint UpdateAllAccumulators (accs : list (string * Accumulator)) (record : vmap)
    : result (list (string * Accumulator)) :=
  match accs with
  | [] => Ok []
  | (name, acc) :: accs =>
      acc ← wrapf "failed to update accumulator %s: %w" [AStr name] (Update acc record);
      accs ← UpdateAllAccumulators accs record;
      Ok ((name, acc) :: accs)
  end.

Fixpoint GetAllResults (accs : list (string * Accumulator)) : result vmap :=
  match accs with
  | [] => Ok []
  | (name, acc) :: accs =>
      v ← wrapf "failed to get result for accumulator %s: %w" [AStr name] (GetResult acc);
      rest ← GetAllResults accs;
      Ok ((name, v) :: rest)
  end.
End update.
