(* ===== verification/DslAccumSpec.v ===== *)
(** * Validation DSL: what the accumulators compute

    The incremental updates of a run are equivalent to a reference definition
    on the list of all observed numbers, and the accumulators of a run do not
    interfere, whatever the order the map is ranged over. *)
From Stdlib Require Import Ascii ZArith Lia SpecFloat.
From stdpp Require Import base list strings.
From S2P Require Import Prelude GoStrings GoFloat GoStrconv GoValue DslTypes DslEval DslEvalSpec DslAccum.

Section accum.
Context `{UC : UnicodeCase}.

(** ** The reference definition *)

(** The record passes the accumulator's filter. *)
Definition kept (acc : Accumulator) (record : vmap) : bool :=
  match passes_filter acc record with Ok b => b | Err _ => false end.

(** The number a record contributes. *)
Definition observed (acc : Accumulator) (record : vmap) : option f64 :=
  if kept acc record then toFloat64Safe (getNestedField record (acc_Field acc)) else None.

Definition mean (xs : list f64) : value :=
  match xs with
  | [] => VNil
  | _ => VFloat (fdiv (foldl fadd fzero xs) (f_of_Z (Z.of_nat (length xs))))
  end.
Definition unless_inf (s : bool) (x : f64) : value :=
  match x with
  | S754_infinity s' => if Bool.eqb s s' then VNil else VFloat x
  | _ => VFloat x
  end.

(** The result of an operation over all records at once. *)
Definition reference_result (acc : Accumulator) (records : list vmap) : value :=
  let op := acc_Operation acc in
  let xs := omap (observed acc) records in
  if (op =s? "count") || (op =s? "increment")
  then VInt KInt (Z.of_nat (length (List.filter (kept acc) records)))
  else if op =s? "sum" then VFloat (foldl fadd fzero xs)
  else if op =s? "min" then unless_inf false (foldl fold_min (finf false) xs)
  else if op =s? "max" then unless_inf true (foldl fold_max (finf true) xs)
  else mean xs.

Definition known_operation (op : string) : bool :=
  (op =s? "count") || (op =s? "increment") || numeric_operation op.

(** ** The loop *)

(** What an update never changes. *)
Definition config (a : Accumulator) :=
  (acc_Name a, acc_Operation a, acc_Field a, acc_Filter a, acc_FilterExpr a).

Lemma config_kept a b : config a = config b → ∀ r, kept a r = kept b r.
Proof. intros [= Hn _ _ Hf He] r. unfold kept, passes_filter. by rewrite Hn, Hf, He. Qed.
Lemma config_observed a b : config a = config b → ∀ r, observed a r = observed b r.
Proof.
  intros H r. unfold observed. rewrite (config_kept a b H r). by injection H as _ _ -> _ _.
Qed.
Lemma config_operation a b : config a = config b → acc_Operation a = acc_Operation b.
Proof. by intros [= _ -> _ _ _]. Qed.

(** The state after the records read so far, for each kind of operation. *)
Definition count_state (n : Z) (acc : Accumulator) : Prop := acc_Count acc = n.
Definition number_state (xs : list f64) (acc : Accumulator) : Prop :=
  acc_Count acc = Z.of_nat (length xs) ∧ acc_Sum acc = foldl fadd fzero xs
  ∧ acc_Min acc = foldl fold_min (finf false) xs ∧ acc_Max acc = foldl fold_max (finf true) xs.

Lemma Update_count acc record acc' :
  (acc_Operation acc =s? "count") || (acc_Operation acc =s? "increment") = true →
  Update acc record = Ok acc' →
  config acc' = config acc ∧ acc_Count acc' = (acc_Count acc + if kept acc record then 1 else 0)%Z.
Proof.
  intros Hop. unfold Update, kept. destruct (passes_filter acc record) as [[]|]; simpl; [| |done].
  - rewrite Hop. by intros [= <-].
  - intros [= <-]. split; [done|lia].
Qed.

Lemma Update_number acc record acc' xs :
  (acc_Operation acc =s? "count") || (acc_Operation acc =s? "increment") = false →
  numeric_operation (acc_Operation acc) = true → number_state xs acc →
  Update acc record = Ok acc' →
  config acc' = config acc ∧ number_state (xs ++ option_list (observed acc record)) acc'.
Proof.
  intros Hop Hnum (Hc & Hs & Hmin & Hmax). unfold Update, observed, kept.
  destruct (passes_filter acc record) as [[]|]; simpl; [| |done].
  2: { intros [= <-]. rewrite app_nil_r. done. }
  rewrite Hop, Hnum. destruct (acc_Field acc =s? ""); [done|].
  destruct (getNestedField record (acc_Field acc)) as [|b|s|k z|f|f|l|l|l|m|m]; simpl; try done;
    intros [= <-]; rewrite ?app_nil_r; try done.
  all: split; [done|]; unfold number_state; rewrite length_app, !foldl_app; simpl;
    rewrite <- Hs, <- Hmin, <- Hmax, Hc; split_and!; try done; lia.
Qed.

Lemma run_count records : ∀ acc acc',
  (acc_Operation acc =s? "count") || (acc_Operation acc =s? "increment") = true →
  foldM Update acc records = Ok acc' →
  config acc' = config acc
  ∧ acc_Count acc' = (acc_Count acc + Z.of_nat (length (List.filter (kept acc) records)))%Z.
Proof.
  induction records as [|r records IH]; intros acc acc' Hop; simpl.
  - intros [= <-]. split; [done|]. simpl. lia.
  - intros (acc1 & Hu & Hrun)%res_bind_ok. destruct (Update_count _ _ _ Hop Hu) as [Hcfg Hc].
    rewrite <- (config_operation _ _ Hcfg) in Hop. destruct (IH _ _ Hop Hrun) as [Hcfg' Hc'].
    rewrite (List.filter_ext _ _ (config_kept _ _ Hcfg)) in Hc'.
    split; [by rewrite Hcfg'|]. rewrite Hc', Hc. destruct (kept acc r); simpl; lia.
Qed.

Lemma run_number records : ∀ acc acc' xs,
  (acc_Operation acc =s? "count") || (acc_Operation acc =s? "increment") = false →
  numeric_operation (acc_Operation acc) = true → number_state xs acc →
  foldM Update acc records = Ok acc' →
  config acc' = config acc ∧ number_state (xs ++ omap (observed acc) records) acc'.
Proof.
  induction records as [|r records IH]; intros acc acc' xs Hop Hnum Hst; simpl.
  - intros [= <-]. by rewrite app_nil_r.
  - intros (acc1 & Hu & Hrun)%res_bind_ok.
    destruct (Update_number _ _ _ _ Hop Hnum Hst Hu) as [Hcfg Hst1].
    rewrite <- (config_operation _ _ Hcfg) in Hop, Hnum.
    destruct (IH _ _ _ Hop Hnum Hst1 Hrun) as [Hcfg' Hst']. split; [by rewrite Hcfg'|].
    rewrite <- app_assoc in Hst'.
    rewrite (list_omap_ext _ (observed acc) _ records) in Hst'.
    + by destruct (observed acc r).
    + apply Forall_Forall2_diag, Forall_true. apply (config_observed _ _ Hcfg).
Qed.

Lemma number_reset acc : number_state [] (Reset acc).
Proof. done. Qed.

Lemma reset_reference acc records : reference_result (Reset acc) records = reference_result acc records.
Proof. done. Qed.

Lemma run_result acc records acc' : known_operation (acc_Operation acc) = true →
  foldM Update (Reset acc) records = Ok acc' →
  GetResult acc' = Ok (reference_result acc records).
Proof.
  intros Hop Hrun. rewrite <- reset_reference. unfold known_operation in Hop.
  change (acc_Operation acc) with (acc_Operation (Reset acc)) in Hop. revert Hop Hrun.
  pose proof (number_reset acc) as Hst. assert (acc_Count (Reset acc) = 0%Z) as H0 by done.
  generalize dependent (Reset acc). clear acc. intros acc Hst H0 Hop Hrun.
  unfold GetResult, reference_result.
  destruct ((acc_Operation acc =s? "count") || (acc_Operation acc =s? "increment")) eqn:Ec.
  - destruct (run_count _ _ _ Ec Hrun) as [Hcfg Hc].
    rewrite (config_operation _ _ Hcfg), Ec, Hc, H0. done.
  - simpl in Hop. destruct (run_number _ _ _ _ Ec Hop Hst Hrun) as [Hcfg (Hc & Hs & Hmin & Hmax)].
    rewrite (config_operation _ _ Hcfg), Ec, Hc, Hs, Hmin, Hmax. simpl app.
    unfold numeric_operation in Hop.
    destruct (acc_Operation acc =s? "sum"); [done|].
    destruct (acc_Operation acc =s? "min"); [|destruct (acc_Operation acc =s? "max")].
    + by destruct (foldl fold_min _ _) as [|[]| |].
    + by destruct (foldl fold_max _ _) as [|[]| |].
    + destruct (acc_Operation acc =s? "avg"); [|done]. unfold mean.
      by destruct (omap (observed acc) records).
Qed.

(** ** The accumulators of a run *)

Definition named_update (records : list vmap) (p p' : string * Accumulator) : Prop :=
  p'.1 = p.1 ∧ foldM Update p.2 records = Ok p'.2.

Lemma UpdateAll_spec accs record accs' :
  UpdateAllAccumulators accs record = Ok accs'
  ↔ Forall2 (λ p p', p'.1 = p.1 ∧ Update p.2 record = Ok p'.2) accs accs'.
Proof.
  revert accs'. induction accs as [|[n acc] accs IH]; intros accs'; simpl.
  - split; [intros [= <-]; constructor|by inversion 1].
  - split.
    + intros (acc1 & Hu%wrapf_ok & (accs1 & Hrun & [= <-])%res_bind_ok)%res_bind_ok.
      constructor; [done|]. by apply IH.
    + inversion 1 as [|? [n' acc'] ? l [Hn Hu] Hl]; subst. simpl in *. subst.
      rewrite Hu. simpl. apply IH in Hl. by rewrite Hl.
Qed.

Lemma run_all records : ∀ accs accs',
  foldM UpdateAllAccumulators accs records = Ok accs' ↔ Forall2 (named_update records) accs accs'.
Proof.
  induction records as [|r records IH]; intros accs accs'; simpl.
  - split.
    + intros [= <-]. apply Forall_Forall2_diag, Forall_true. done.
    + intros H. f_equal. induction H as [|[n a] [n' a'] l l' [Hn [= Ha]] _ IH']; simpl in *;
        [done|by subst].
  - rewrite res_bind_ok. unfold named_update. simpl. split.
    + intros (accs1 & Hu%UpdateAll_spec & Hrun%IH). clear IH. revert accs' Hrun.
      induction Hu as [|p p1 l l1 [Hn Hu] _ IH]; intros accs' Hrun;
        inversion Hrun as [|? p' ? l' [Hn' Hr] Hl]; subst; constructor; [|by apply IH].
      split; [congruence|]. apply res_bind_ok. by exists p1.2.
    + intros H. assert (∃ accs1, Forall2 (λ p p', p'.1 = p.1 ∧ Update p.2 r = Ok p'.2) accs accs1
        ∧ Forall2 (named_update records) accs1 accs') as (accs1 & H1 & H2).
      { induction H as [|p p' l l' [Hn Hr] _ (l1 & H1 & H2)]; [by exists []|].
        apply res_bind_ok in Hr as (a1 & Hu & Hr). exists ((p.1, a1) :: l1).
        split; constructor; done. }
      exists accs1. split; [by apply UpdateAll_spec|by apply IH].
Qed.

(** ** Extremes *)

Lemma fleb_top x : fleb (finf false) x = true → x = finf false.
Proof. by destruct x as [[]|[]| |[]]. Qed.
Lemma fleb_bottom x : fleb x (finf true) = true → x = finf true.
Proof. by destruct x as [[]|[]| |[]]. Qed.

Lemma min_extreme xs : Forall (λ x, is_nan x = false) xs →
  match unless_inf false (foldl fold_min (finf false) xs) with
  | VFloat m => m ∈ xs ∧ Forall (λ x, fleb m x = true) xs
  | v => v = VNil ∧ Forall (λ x, x = finf false) xs
  end.
Proof.
  intros H. destruct (fold_min_spec (finf false) xs eq_refl H) as [Hin Hall].
  apply Forall_cons in Hall as [_ Hall]. set (m := foldl fold_min (finf false) xs) in *.
  destruct (decide (m = finf false)) as [Em|Hm].
  - rewrite Em in *. simpl. split; [done|]. eapply Forall_impl; [exact Hall|]. apply fleb_top.
  - assert (m ∈ xs) by (apply elem_of_cons in Hin as [?|?]; done).
    by destruct m as [|[]| |].
Qed.
Lemma max_extreme xs : Forall (λ x, is_nan x = false) xs →
  match unless_inf true (foldl fold_max (finf true) xs) with
  | VFloat m => m ∈ xs ∧ Forall (λ x, fleb x m = true) xs
  | v => v = VNil ∧ Forall (λ x, x = finf true) xs
  end.
Proof.
  intros H. destruct (fold_max_spec (finf true) xs eq_refl H) as [Hin Hall].
  apply Forall_cons in Hall as [_ Hall]. set (m := foldl fold_max (finf true) xs) in *.
  destruct (decide (m = finf true)) as [Em|Hm].
  - rewrite Em in *. simpl. split; [done|]. eapply Forall_impl; [exact Hall|]. apply fleb_bottom.
  - assert (m ∈ xs) by (apply elem_of_cons in Hin as [?|?]; done).
    by destruct m as [|[]| |].
Qed.
End accum.

(** ** Properties *)
Section properties.
Context `{UC : UnicodeCase}.

(** C20: the incremental accumulator is equivalent to the reference definition.
    After any list of records, the result of count, increment, sum, avg, min
    or max is the one computed from all kept records at once: their number,
    the left-to-right sum of the observed numbers, its quotient by their
    number, their least or greatest, and null when there are none. *)
Theorem accumulator_refines_reference acc records acc' :
  known_operation (acc_Operation acc) = true →
  foldM Update (Reset acc) records = Ok acc' →
  GetResult acc' = Ok (reference_result acc records).
Proof. apply run_result. Qed.

(** Accumulators do not interfere. Running all accumulators over a list of
    records succeeds exactly when each succeeds alone, and leaves under each
    name the state the accumulator reaches alone; so neither success nor any
    result depends on the order in which the map is ranged over. *)
Theorem accumulators_independent records accs accs1 accs' :
  accs ≡ₚ accs1 → foldM UpdateAllAccumulators accs records = Ok accs' →
  Forall2 (λ p p', p'.1 = p.1 ∧ foldM Update p.2 records = Ok p'.2) accs accs'
  ∧ ∃ accs1', foldM UpdateAllAccumulators accs1 records = Ok accs1' ∧ accs' ≡ₚ accs1'.
Proof.
  intros Hp H%run_all. split; [exact H|].
  destruct (Permutation_Forall2 Hp H) as (accs1' & Hp' & H1).
  exists accs1'. split; [by apply run_all|done].
Qed.

(** Extremes. When no observed number is NaN, the result of a min (max)
    accumulator is null or one of the observed numbers, and then it is at most
    (at least) every one of them; it is null only if every observed number is
    the infinity the accumulator starts from, in particular if there is none. *)
Theorem accumulator_extremes acc records acc' :
  acc_Operation acc = "min" ∨ acc_Operation acc = "max" →
  foldM Update (Reset acc) records = Ok acc' →
  let xs := omap (observed acc) records in
  let is_min := acc_Operation acc =s? "min" in
  Forall (λ x, is_nan x = false) xs →
  ∃ v, GetResult acc' = Ok v ∧
    match v with
    | VFloat m => m ∈ xs ∧ Forall (λ x, (if is_min then fleb m x else fleb x m) = true) xs
    | _ => v = VNil ∧ Forall (λ x, x = finf (negb is_min)) xs
    end.
Proof.
  intros Hop Hrun xs is_min Hnan. eexists. split.
  { apply (run_result acc records); [by destruct Hop as [-> | ->]|exact Hrun]. }
  subst is_min. unfold reference_result. fold xs.
  pose proof (min_extreme xs Hnan) as Hmin. pose proof (max_extreme xs Hnan) as Hmax.
  destruct Hop as [-> | ->]; simpl.
  - clear Hmax. revert Hmin. by destruct (unless_inf false _).
  - clear Hmin. revert Hmax. by destruct (unless_inf true _).
Qed.
End properties.

(** Five records, one of them filtered out and one without the field. *)
Definition sample_records : list vmap :=
  [[("kind", VString "a"); ("n", VInt KInt64 4)];
   [("kind", VString "b"); ("n", VInt KInt64 100)];
   [("kind", VString "a")];
   [("kind", VString "a"); ("n", VInt KInt64 (-2))];
   [("kind", VString "a"); ("n", VFloat (f_of_ratio false 1 2))]].
Definition sample_config (op : string) : AccumulationConfig :=
  {| ac_Name := op; ac_Operation := op; ac_Field := "n"; ac_Filter := "kind == 'a'" |}.
Definition sample_accumulator (op : string) : Accumulator :=
  match NewAccumulator (sample_config op) with
  | Ok acc => acc
  | Err _ => {| acc_Name := ""; acc_Operation := ""; acc_Field := ""; acc_Filter := None;
                acc_FilterExpr := None; acc_Count := 0; acc_Sum := fzero; acc_Min := fzero;
                acc_Max := fzero; acc_values := [] |}
  end.
Definition sample_run (acc : Accumulator) : Accumulator :=
  match foldM (Update (UC := ascii_case)) (Reset acc) sample_records with Ok a => a | Err _ => acc end.

Lemma accumulator_refines_reference_witness :
  GetResult (sample_run (sample_accumulator "sum"))
  = Ok (reference_result (UC := ascii_case) (sample_accumulator "sum") sample_records)
  ∧ reference_result (UC := ascii_case) (sample_accumulator "sum") sample_records
    = VFloat (f_of_ratio false 5 2).
Proof.
  split; [|vm_compute; reflexivity].
  apply (@accumulator_refines_reference ascii_case); vm_compute; reflexivity.
Defined.

Lemma accumulators_independent_witness :
  let accs := [("lo", Reset (sample_accumulator "min")); ("n", Reset (sample_accumulator "count"))] in
  ∃ accs1', foldM (UpdateAllAccumulators (UC := ascii_case)) (reverse accs) sample_records = Ok accs1'
    ∧ [("lo", sample_run (sample_accumulator "min")); ("n", sample_run (sample_accumulator "count"))]
      ≡ₚ accs1'.
Proof.
  intros accs.
  apply (@accumulators_independent ascii_case sample_records accs (reverse accs)).
  - apply Permutation_swap.
  - vm_compute. reflexivity.
Defined.

Lemma accumulator_extremes_witness :
  ∃ v, GetResult (sample_run (sample_accumulator "min")) = Ok v
    ∧ match v with VFloat m => m ∈ [f_of_Z 4; f_of_Z (-2); f_of_ratio false 1 2] | _ => v = VNil end.
Proof.
  destruct (@accumulator_extremes ascii_case (sample_accumulator "min") sample_records
    (sample_run (sample_accumulator "min"))) as (v & Hv & H).
  - left. vm_compute. reflexivity.
  - vm_compute. reflexivity.
  - vm_compute (omap _ _). by repeat constructor.
  - exists v. split; [exact Hv|]. destruct v; try apply H.
Defined.
