(* ===== verification/DslRuntime.v ===== *)
(** * Validation DSL: pipeline (internal/validation/dsl/runtime.go)

    Accumulate, aggregate, reconcile, validate: [RunValidation] on one
    extracted record. The one loop whose result can depend on the order Go
    ranges over a map, the total of the group sums, takes that order as a
    parameter. *)
From Stdlib Require Import Ascii ZArith Lia SpecFloat.
From stdpp Require Import base list strings.
From S2P Require Import Prelude GoStrings GoFloat GoStrconv GoValue DslTypes DslParser DslEval DslAccum.

(** ** Record updates of the runtime *)

Definition with_accumulators (accs : list (string * Accumulator)) (n : Z)
    (r : ValidationRuntime) : ValidationRuntime := {|
  rt_Accumulators := accs; rt_AggregationResults := rt_AggregationResults r;
  rt_ValidationResults := rt_ValidationResults r;
  rt_ReconciliationResults := rt_ReconciliationResults r;
  rt_ReconciliationScalars := rt_ReconciliationScalars r;
  rt_DocumentContext := rt_DocumentContext r;
  rt_StartTime := rt_StartTime r; rt_RecordCount := n;
|}.
Definition with_aggregation (name : string) (v : value) (r : ValidationRuntime)
    : ValidationRuntime := {|
  rt_Accumulators := rt_Accumulators r;
  rt_AggregationResults := mset name v (rt_AggregationResults r);
  rt_ValidationResults := rt_ValidationResults r;
  rt_ReconciliationResults := rt_ReconciliationResults r;
  rt_ReconciliationScalars := rt_ReconciliationScalars r;
  rt_DocumentContext := rt_DocumentContext r;
  rt_StartTime := rt_StartTime r; rt_RecordCount := rt_RecordCount r;
|}.
Definition with_reconciliation (results : list ReconciliationResult) (scalars : vmap)
    (r : ValidationRuntime) : ValidationRuntime := {|
  rt_Accumulators := rt_Accumulators r; rt_AggregationResults := rt_AggregationResults r;
  rt_ValidationResults := rt_ValidationResults r;
  rt_ReconciliationResults := results; rt_ReconciliationScalars := scalars;
  rt_DocumentContext := rt_DocumentContext r;
  rt_StartTime := rt_StartTime r; rt_RecordCount := rt_RecordCount r;
|}.
Definition with_document (doc : vmap) (r : ValidationRuntime) : ValidationRuntime := {|
  rt_Accumulators := rt_Accumulators r; rt_AggregationResults := rt_AggregationResults r;
  rt_ValidationResults := rt_ValidationResults r;
  rt_ReconciliationResults := rt_ReconciliationResults r;
  rt_ReconciliationScalars := rt_ReconciliationScalars r;
  rt_DocumentContext := doc;
  rt_StartTime := rt_StartTime r; rt_RecordCount := rt_RecordCount r;
|}.

(** ** Records to iterate *)

Fixpoint objects_of (arrayPath : string) (idx : Z) (items : list value) : result (list vmap) :=
  match items with
  | [] => Ok []
  | VMap m :: items => rest ← objects_of arrayPath (idx + 1) items; Ok (m :: rest)
  | _ :: _ => errorf "validation array_path %q element at index %d is not an object"
                [AStr arrayPath; AInt idx]
  end.
Definition getIterableRecords (arrayPath : string) (record : vmap) : result (list vmap) :=
  if trim_space arrayPath =s? "" then Ok [record] else
  match getNestedField record arrayPath with
  | VNil => errorf "validation array_path %q not found in extracted record" [AStr arrayPath]
  | VMaps items => Ok items
  | VList items => objects_of arrayPath 0 items
  | _ => errorf "validation array_path %q must resolve to an array of objects" [AStr arrayPath]
  end.

(** One segment of a group source path applied to the current items. *)
Fixpoint group_step (path fieldName : string) (expectArray : bool) (items : list value)
    : result (list value) :=
  match items with
  | [] => Ok []
  | VNil :: items => group_step path fieldName expectArray items
  | VMap obj :: items =>
      next ← (match vget fieldName obj with
              | VNil => Ok []
              | v =>
                  if expectArray then
                    match v with
                    | VList arr => Ok arr
                    | VMaps arr => Ok (VMap <$> arr)
                    | _ => errorf "group_by source %s expected array at segment %s but found %T"
                             [AStr path; AStr fieldName; AVal v]
                    end
                  else Ok [v]
              end);
      rest ← group_step path fieldName expectArray items;
      Ok (next ++ rest)
  | item :: _ => errorf "group_by source %s expected object but found %T" [AStr path; AVal item]
  end.
Fixpoint group_segments (path : string) (segments : list string) (current : list value)
    : result (list value) :=
  match segments with
  | [] => Ok current
  | raw :: segments =>
      let segment := trim_space raw in
      if segment =s? "" then errorf "group_by source path contains empty segment" [] else
      next ← group_step path (trim_suffix "[]" segment) (has_suffix "[]" segment) current;
      group_segments path segments next
  end.
Fixpoint group_objects (path : string) (items : list value) : result (list vmap) :=
  match items with
  | [] => Ok []
  | VNil :: items => group_objects path items
  | VMap obj :: items => rest ← group_objects path items; Ok (obj :: rest)
  | item :: _ => errorf "group_by source %s must resolve to object, found %T" [AStr path; AVal item]
  end.
Definition collectGroupRecords (doc : vmap) (path : string) : result (list vmap) :=
  if trim_space path =s? "" then errorf "group_by source path is empty" [] else
  items ← group_segments path (ssplit_byte "."%char path) [VMap doc];
  group_objects path items.

(** ** Templates, labels and slugs *)

Definition resolveGroupValue (raw : value) (missing : string) : string :=
  match raw with
  | VNil => missing
  | _ => let trimmed := trim_space (sprint raw) in
         if trimmed =s? "" then missing else trimmed
  end.

Definition applyTemplate (template groupValue label : string) : string :=
  let template := trim_space template in
  if template =s? "" then "" else
  sreplace_all "{{label}}" label (sreplace_all "{{group}}" groupValue template).

Definition slug_byte (c : ascii) : bool :=
  in_range 97 122 (bcode c) || in_range 48 57 (bcode c).

(** [regexp.MustCompile("[^a-z0-9]+").ReplaceAllString(s, "_")]; [inrun]: the
    previous byte was already replaced. *)
Fixpoint slug_runs (inrun : bool) (s : string) : string :=
  match s with
  | "" => ""
  | String c s =>
      if slug_byte c then String c (slug_runs false s)
      else if inrun then slug_runs true s
      else String "_"%char (slug_runs true s)
  end.

(** [strings.NewReplacer(pairs...).Replace(s)] for non-empty old strings: at
    each position the first pair that matches. *)
Fixpoint replacer_go (pairs : list (string * string)) (skip : nat) (s : string) : string :=
  match s with
  | "" => ""
  | String c t =>
      match skip with
      | S k => replacer_go pairs k t
      | 0 =>
          match find (λ p, has_prefix p.1 s) pairs with
          | Some (old, new) => new +:+ replacer_go pairs (slen old - 1) t
          | None => String c (replacer_go pairs 0 t)
          end
      end
  end.
Definition formatValidationMessage (message : string) (variables : vmap) : string :=
  if message =s? "" then "" else
  replacer_go ((λ kv, ("{" +:+ kv.1 +:+ "}", sprint kv.2)) <$> variables) 0 message.

Definition mergeVariableContexts (base record : vmap) : vmap := mcopy record (mcopy base []).

Definition parseOptionalExpression (expression : string) : result (option Expression) :=
  if trim_space expression =s? "" then Ok None else Some <$> ParseExpression expression.

Section pipeline.
Context `{UC : UnicodeCase}.

Definition sanitizeComponentKey (name : string) : string :=
  let lowered := to_lower (trim_space name) in
  if lowered =s? "" then "" else strim_byte "_"%char (slug_runs false lowered).

Definition buildVariableContext (runtime : ValidationRuntime) (doc : vmap) : result vmap :=
  accs ← GetAllResults (rt_Accumulators runtime);
  Ok (mcopy (rt_ReconciliationScalars runtime)
       (mcopy doc (mcopy (rt_AggregationResults runtime) (mcopy accs [])))).

(** ** Aggregations *)

Definition compare_to_target (config : AggregationConfig) (doc : vmap) (r : value) : result unit :=
  if trim_space (ag_CompareTo config) =s? "" then Ok tt else
  match mget (ag_CompareTo config) doc with
  | None => errorf "aggregation %s: compare_to field '%s' not found in document"
              [AStr (ag_Name config); AStr (ag_CompareTo config)]
  | Some target =>
      resultFloat ← wrapf "aggregation %s: result must be numeric for comparison: %w"
                      [AStr (ag_Name config)] (toFloat64 r);
      targetFloat ← wrapf "aggregation %s: compare_to value must be numeric: %w"
                      [AStr (ag_Name config)] (toFloat64 target);
      let diff := fabs (fsub resultFloat targetFloat) in
      if fltb (ag_Tolerance config) diff then
        errorf "aggregation %s: value %.6f differs from target %.6f by %.6f, exceeds tolerance %.6f"
          [AStr (ag_Name config); AFloat resultFloat; AFloat targetFloat; AFloat diff;
           AFloat (ag_Tolerance config)]
      else Ok tt
  end.

Definition compute_aggregation (doc : vmap) (ctx : ValidationRuntime) (config : AggregationConfig)
    : result ValidationRuntime :=
  let config := AggregationConfig_ApplyDefaults config in
  accs ← GetAllResults (rt_Accumulators ctx);
  let variables := mcopy doc (mcopy (rt_AggregationResults ctx) (mcopy accs [])) in
  expr ← wrapf "failed to parse aggregation expression for %s: %w" [AStr (ag_Name config)]
           (ParseExpression (ag_Expression config));
  r ← wrapf "failed to evaluate aggregation %s: %w" [AStr (ag_Name config)]
        (EvaluateExpression (NewEvaluator variables None) expr);
  let ctx := with_aggregation (ag_Name config) r ctx in
  _ ← compare_to_target config doc r;
  Ok ctx.

Definition ComputeAggregations (ctx : ValidationRuntime) (configs : list AggregationConfig)
    (doc : vmap) : result ValidationRuntime :=
  foldM (compute_aggregation doc) ctx configs.

(** ** Grouped reconciliation components *)

Record groups := { g_totals : list (string * f64); g_labels : list (string * string) }.

(** One record of the grouping loop; a record the filter rejects changes
    nothing. *)
Definition group_record (name : string) (fieldPath labelField missingLabel : string)
    (filterExpr : option Expression) (valueExpr : Expression) (baseVariables : vmap)
    (g : groups) (record : vmap) : result groups :=
  let evaluator := NewEvaluator (mergeVariableContexts baseVariables record) None in
  keep ← (match filterExpr with
          | None => Ok true
          | Some f =>
              passed ← wrapf "reconciliation %s group_by filter evaluation failed: %w" [AStr name]
                         (EvaluateExpression evaluator f);
              match toBool passed with
              | Some b => Ok b
              | None => errorf "reconciliation %s group_by filter must return boolean" [AStr name]
              end
          end);
  if negb (keep : bool) then Ok g else
  let groupValue := resolveGroupValue (getNestedField record fieldPath) missingLabel in
  let labels :=
    if labelField =s? "" then g_labels g else
    match getNestedField record labelField with
    | VNil => g_labels g
    | labelRaw =>
        let label := trim_space (sprint labelRaw) in
        if label =s? "" then g_labels g else mset groupValue label (g_labels g)
    end in
  let labels := match mget groupValue labels with
                | Some _ => labels | None => mset groupValue groupValue labels end in
  valueRaw ← wrapf "reconciliation %s group_by value expression failed: %w" [AStr name]
               (EvaluateExpression evaluator valueExpr);
  v ← wrapf "reconciliation %s group_by value must be numeric: %w" [AStr name] (toFloat64 valueRaw);
  let total := match mget groupValue (g_totals g) with Some t => t | None => fzero end in
  Ok {| g_totals := mset groupValue (fadd total v) (g_totals g); g_labels := labels |}.

Definition cap_scale (overflowStrategy : string) (baseValue totalSum : f64) : f64 :=
  if (overflowStrategy =s? "cap_to_base") && fltb fzero totalSum then
    let limit := if fltb baseValue fzero then fabs baseValue else baseValue in
    if fltb limit totalSum && fleb fzero limit then
      if feqb limit fzero then fzero else fdiv limit totalSum
    else f_of_Z 1
  else f_of_Z 1.

Record emitted := {
  em_components : list ReconciliationComponentResult;
  em_scalars : vmap;
  em_slugCounts : list (string * Z);
  em_componentMap : list (string * f64);
  em_groupedTotal : f64;
}.

Definition first_nonblank (name label : string) (idx : Z) : string :=
  if negb (trim_space name =s? "") then name
  else if negb (trim_space label =s? "") then label
  else "component_" +:+ itoa (idx + 1).

(** The key a component's scalar is stored under: the first user of a slug
    keeps it, a later one gets the count of the slug appended. *)
Definition next_slug (slugCounts : list (string * Z)) (slug : string) : string * list (string * Z) :=
  let count s := match mget s slugCounts with Some n => n | None => 0%Z end in
  let slug := if (0 <? count slug)%Z then slug +:+ "_" +:+ itoa (count slug + 1) else slug in
  (slug, mset slug (count slug + 1)%Z slugCounts).

Definition emit_component (cfgName : string) (groupCfg : ReconciliationGroupByConfig)
    (g : groups) (scale : f64) (st : emitted) (idx : Z) (key : string) : emitted :=
  let rawValue := match mget key (g_totals g) with Some t => t | None => fzero end in
  let v := fmul rawValue scale in
  let v := if fltb (fabs v) (f_of_ratio false 1 1000000000) then fzero else v in
  let label := match mget key (g_labels g) with Some l => l | None => "" end in
  let name := first_nonblank (applyTemplate (gb_NameTemplate groupCfg) key label) label idx in
  let description := applyTemplate (gb_DescriptionTemplate groupCfg) key label in
  let description := if trim_space description =s? "" then "" else description in
  let slug := sanitizeComponentKey name in
  let slug := if slug =s? "" then "component_" +:+ itoa (idx + 1) else slug in
  let '(slug, slugCounts) := next_slug (em_slugCounts st) slug in
  {| em_components := em_components st ++
       [{| cr_Name := name; cr_Description := description; cr_Value := v |}];
     em_scalars := mset (cfgName +:+ "_component_" +:+ slug) (VFloat v) (em_scalars st);
     em_slugCounts := slugCounts;
     em_componentMap := mset name v (em_componentMap st);
     em_groupedTotal := fadd (em_groupedTotal st) v |}.

Fixpoint emit_components (cfgName : string) (groupCfg : ReconciliationGroupByConfig)
    (g : groups) (scale : f64) (st : emitted) (idx : Z) (keys : list string) : emitted :=
  match keys with
  | [] => st
  | key :: keys =>
      emit_components cfgName groupCfg g scale
        (emit_component cfgName groupCfg g scale st idx key) (idx + 1) keys
  end.

(** The order [range totals] visits the groups in. *)
Variable range_order : list (string * f64) → list (string * f64).

Definition evaluateGroupedComponents (config : ReconciliationConfig) (baseVariables doc : vmap)
    (baseValue : f64) : result (list ReconciliationComponentResult * f64 * vmap) :=
  match rc_GroupBy config with
  | None => Ok ([], fzero, [])
  | Some groupCfg =>
      let sourcePath := trim_space (gb_Source groupCfg) in
      let fieldPath := trim_space (gb_Field groupCfg) in
      let valueExpression := trim_space (gb_ValueExpression groupCfg) in
      if sourcePath =s? "" then errorf "reconciliation %s group_by.source is required" [AStr (rc_Name config)]
      else if fieldPath =s? "" then errorf "reconciliation %s group_by.field is required" [AStr (rc_Name config)]
      else if valueExpression =s? "" then
        errorf "reconciliation %s group_by.value_expression is required" [AStr (rc_Name config)]
      else
      records ← wrapf "reconciliation %s group_by source error: %w" [AStr (rc_Name config)]
                  (collectGroupRecords doc sourcePath);
      if (length records =? 0)%nat then Ok ([], fzero, []) else
      let agg := to_lower (trim_space (gb_Aggregation groupCfg)) in
      let agg := if agg =s? "" then "sum" else agg in
      if negb (agg =s? "sum") then
        errorf "reconciliation %s group_by aggregation %q not supported"
          [AStr (rc_Name config); AStr (gb_Aggregation groupCfg)]
      else
      filterExpr ← wrapf "reconciliation %s group_by.filter parse error: %w" [AStr (rc_Name config)]
                     (parseOptionalExpression (gb_Filter groupCfg));
      valueExpr ← wrapf "reconciliation %s group_by value_expression parse error: %w"
                    [AStr (rc_Name config)] (ParseExpression valueExpression);
      let missingLabel := default_blank "unknown" (trim_space (gb_MissingLabel groupCfg)) in
      let labelField := trim_space (gb_LabelField groupCfg) in
      g ← foldM (group_record (rc_Name config) fieldPath labelField missingLabel
                   filterExpr valueExpr baseVariables)
            {| g_totals := []; g_labels := [] |} records;
      if (length (g_totals g) =? 0)%nat then Ok ([], fzero, []) else
      let ranged := range_order (g_totals g) in
      let totalSum := foldl (λ s kv, fadd s kv.2) fzero ranged in
      let componentNames := sort_by sleb ranged.*1 in
      let scale := cap_scale (to_lower (trim_space (gb_OverflowStrategy groupCfg))) baseValue totalSum in
      let st := emit_components (rc_Name config) groupCfg g scale
                  {| em_components := []; em_scalars := []; em_slugCounts := [];
                     em_componentMap := []; em_groupedTotal := fzero |} 0 componentNames in
      Ok (em_components st, em_groupedTotal st,
          mset (rc_Name config +:+ "_group_component_map") (VFloatMap (em_componentMap st))
            (mset (rc_Name config +:+ "_group_components_total") (VFloat (em_groupedTotal st))
               (em_scalars st)))
  end.

(** ** Reconciliations *)

Definition eval_component (name : string) (evaluator : Evaluator)
    (st : list ReconciliationComponentResult * f64) (c : ReconciliationComponentConfig)
    : result (list ReconciliationComponentResult * f64) :=
  if trim_space (cc_Expression c) =s? "" then
    errorf "reconciliation %s component %s requires an expression" [AStr name; AStr (cc_Name c)]
  else
  expr ← wrapf "failed to parse component expression for reconciliation %s (%s): %w"
           [AStr name; AStr (cc_Name c)] (ParseExpression (cc_Expression c));
  valueRaw ← wrapf "failed to evaluate component expression for reconciliation %s (%s): %w"
               [AStr name; AStr (cc_Name c)] (EvaluateExpression evaluator expr);
  v ← wrapf "reconciliation %s component %s must evaluate to a number: %w"
        [AStr name; AStr (cc_Name c)] (toFloat64 valueRaw);
  Ok (st.1 ++ [{| cr_Name := cc_Name c; cr_Description := cc_Description c; cr_Value := v |}],
      fadd st.2 v).

Definition reconciliation_status (residual tolerance : f64) (allowUnexplained : bool) : string :=
  if fltb tolerance (fabs residual)
  then (if allowUnexplained then "unexplained" else "unbalanced") else "balanced".

Definition evaluate_reconciliation (doc : vmap) (runtime : ValidationRuntime)
    (config : ReconciliationConfig) : result ValidationRuntime :=
  variables ← buildVariableContext runtime doc;
  if trim_space (rc_BaseExpression config) =s? "" then
    errorf "reconciliation %s requires a base_expression" [AStr (rc_Name config)]
  else
  baseExpr ← wrapf "failed to parse base_expression for reconciliation %s: %w" [AStr (rc_Name config)]
               (ParseExpression (rc_BaseExpression config));
  baseValueRaw ← wrapf "failed to evaluate base_expression for reconciliation %s: %w"
                   [AStr (rc_Name config)]
                   (EvaluateExpression (NewEvaluator variables None) baseExpr);
  baseValue ← wrapf "reconciliation %s base_expression must evaluate to a number: %w"
                [AStr (rc_Name config)] (toFloat64 baseValueRaw);
  grouped ← evaluateGroupedComponents config variables doc baseValue;
  let '(groupedComponents, groupedTotal, scalarUpdates) := grouped in
  let start := if (length groupedComponents =? 0)%nat then ([], fzero)
               else (groupedComponents, fadd fzero groupedTotal) in
  let scalars := mcopy scalarUpdates (rt_ReconciliationScalars runtime) in
  let evaluator := NewEvaluator (mcopy scalarUpdates variables) None in
  st ← foldM (eval_component (rc_Name config) evaluator) start (rc_Components config);
  let '(componentResults, componentTotal) := st in
  let residual := fsub baseValue componentTotal in
  let tolerance := if feqb (rc_Tolerance config) fzero
                   then defaultReconciliationTolerance else rc_Tolerance config in
  let status := reconciliation_status residual tolerance (rc_AllowUnexplained config) in
  let r := {| rr_Name := rc_Name config; rr_BaseValue := baseValue;
              rr_Components := componentResults; rr_ComponentsTotal := componentTotal;
              rr_Residual := residual; rr_Tolerance := tolerance; rr_Status := status;
              rr_AllowUnexplained := rc_AllowUnexplained config;
              rr_Severity := default_blank "warning" (rc_Severity config) |} in
  let prefix := rc_Name config in
  let scalars := mset (prefix +:+ "_status") (VString status)
                   (mset (prefix +:+ "_residual") (VFloat residual)
                     (mset (prefix +:+ "_components_total") (VFloat componentTotal)
                       (mset (prefix +:+ "_base") (VFloat baseValue) scalars))) in
  Ok (with_reconciliation (rt_ReconciliationResults runtime ++ [r]) scalars runtime).

Definition evaluateReconciliations (runtime : ValidationRuntime)
    (configs : list ReconciliationConfig) (doc : vmap) : result ValidationRuntime :=
  foldM (evaluate_reconciliation doc) runtime configs.

(** ** Validations *)

Fixpoint evaluateValidations (runtime : ValidationRuntime) (configs : list ValidationConfig)
    (doc : vmap) (policy : FailurePolicy) : result ValidationRuntime :=
  match configs with
  | [] => Ok runtime
  | config :: configs =>
      variables ← buildVariableContext runtime doc;
      expr ← wrapf "failed to parse validation rule %s: %w" [AStr (vc_Name config)]
               (ParseExpression (vc_Rule config));
      r ← wrapf "failed to evaluate validation %s: %w" [AStr (vc_Name config)]
            (EvaluateExpression (NewEvaluator variables None) expr);
      match toBool r with
      | None => errorf "validation %s did not return a boolean result" [AStr (vc_Name config)]
      | Some passed =>
          let severity := normalizeValidationSeverity (vc_Severity config) in
          let entry res msg := {| vr_Name := vc_Name config; vr_Result := res;
                                  vr_Severity := severity; vr_Message := msg; vr_Value := r |} in
          if passed then
            evaluateValidations (AddValidationResult runtime (entry "pass" "")) configs doc policy
          else
            let runtime := AddValidationResult runtime
              (entry "fail" (formatValidationMessage (vc_Message config) variables)) in
            if (severity =s? "fatal") && fp_HaltOnFirstFatal policy then Ok runtime
            else evaluateValidations runtime configs doc policy
      end
  end.

(** ** The pipeline *)

Definition accumulate (st : list (string * Accumulator) * Z) (item : vmap)
    : result (list (string * Accumulator) * Z) :=
  accs ← UpdateAllAccumulators st.1 item; Ok (accs, (st.2 + 1)%Z).

(** [None]: validation is disabled (a nil runtime). The metadata is returned
    with its defaults applied. *)
Definition RunValidation (now : Z) (metadata : option ValidationMetadata) (record : vmap)
    : result (option (ValidationMetadata * ValidationRuntime)) :=
  match metadata with
  | None => Ok None
  | Some metadata =>
      if negb (md_Enable metadata) then Ok None
      else if negb (md_ExpressionLanguage metadata =s? "")
           && negb (md_ExpressionLanguage metadata =s? "sumpter-dsl") then
        errorf "unsupported expression language %q: only 'sumpter-dsl' is currently supported"
          [AStr (md_ExpressionLanguage metadata)]
      else
      let metadata := ValidationMetadata_ApplyDefaults metadata in
      let runtime := with_document record (NewValidationRuntime now) in
      runtime ← (if (length (md_Accumulations metadata) =? 0)%nat then Ok runtime else
                 accs ← InitializeAccumulators (md_Accumulations metadata);
                 records ← getIterableRecords (md_ArrayPath metadata) record;
                 st ← foldM accumulate (accs, 0%Z) records;
                 Ok (with_accumulators st.1 st.2 runtime));
      runtime ← ComputeAggregations runtime (md_Aggregations metadata) record;
      runtime ← evaluateReconciliations runtime (md_Reconciliations metadata) record;
      runtime ← evaluateValidations runtime (md_Validations metadata) record (md_FailurePolicy metadata);
      let count :=
        if (trim_space (md_ArrayPath metadata) =s? "") && (rt_RecordCount runtime =? 0)%Z
        then 1%Z else rt_RecordCount runtime in
      Ok (Some (metadata, with_accumulators (rt_Accumulators runtime) count runtime))
  end.

(** ** The report *)

(** The metadata block appended to an extracted record. *)
Record ValidationReport := {
  rp_extraction_timestamp : Z; rp_expression_language : string; rp_placement : string;
  rp_array_path : string; rp_record_count : Z; rp_accumulations : vmap;
  rp_aggregations : vmap; rp_reconciliations : list ReconciliationResult;
  rp_validations : list ValidationResult; rp_quality_summary : QualitySummary;
}.
Definition BuildValidationReport (now : Z) (metadata : option ValidationMetadata)
    (runtime : option ValidationRuntime) : result (option ValidationReport) :=
  match metadata, runtime with
  | Some metadata, Some runtime =>
      accumulatorResults ← GetAllResults (rt_Accumulators runtime);
      Ok (Some {|
        rp_extraction_timestamp := now;
        rp_expression_language := md_ExpressionLanguage metadata;
        rp_placement := default_blank "footer" (md_Placement metadata);
        rp_array_path := md_ArrayPath metadata;
        rp_record_count := rt_RecordCount runtime;
        rp_accumulations := accumulatorResults;
        rp_aggregations := rt_AggregationResults runtime;
        rp_reconciliations := rt_ReconciliationResults runtime;
        rp_validations := rt_ValidationResults runtime;
        rp_quality_summary := GetQualitySummary runtime |})
  | _, _ => Ok None
  end.
End pipeline.
