(* ===== verification/DslRuntimeSpec.v ===== *)
(** * Validation DSL: what the pipeline guarantees

    Name resolution in the variable context, message templates, component
    slugs, the validation loop and its early halt, aggregation tolerances and
    the reconciliation arithmetic. *)
From Stdlib Require Import Ascii ZArith Lia SpecFloat.
From stdpp Require Import base sets list strings sorting.
From S2P Require Import Prelude GoStrings GoFloat GoStrconv GoValue DslTypes DslParser DslEval DslAccum DslRuntime.

(** ** Messages *)

Definition brace_free (k : string) : bool := sforall (λ c, negb (c =c? "}")%char) k.

(** The replacement pair of a variable. *)
Definition placeholder (kv : string * value) : string * string :=
  ("{" +:+ kv.1 +:+ "}", sprint kv.2).

(** Two placeholders that match at one position are the same one. *)
Lemma prefix_brace k k' s : brace_free k = true → brace_free k' = true →
  has_prefix (k +:+ "}") s = true → has_prefix (k' +:+ "}") s = true → k = k'.
Proof.
  revert k' s. induction k as [|c k IH]; intros [|c' k'] s Hk Hk'; rewrite ?sapp_cons, ?sapp_nil_l;
    destruct s as [|b s]; cbn [has_prefix]; try done; rewrite ?andb_true_iff, ?Ascii.eqb_eq.
  - intros [E _] [E' _]. assert (c' = "}"%char) as -> by congruence. by simpl in Hk'.
  - intros [E _] [E' _]. assert (c = "}"%char) as -> by congruence. by simpl in Hk.
  - intros [-> H] [-> H']. unfold brace_free in Hk, Hk'. simpl in Hk, Hk'. apply andb_true_iff in Hk as [_ Hk], Hk' as [_ Hk'].
    f_equal. by eapply IH.
Qed.

Lemma find_placeholder vars vars' s :
  Forall (λ kv, brace_free kv.1 = true) vars → NoDup (mkeys vars) → vars ≡ₚ vars' →
  find (λ p, has_prefix p.1 s) (placeholder <$> vars)
  = find (λ p, has_prefix p.1 s) (placeholder <$> vars').
Proof.
  intros Hb Hnd Hp. revert Hb Hnd.
  assert (∀ kv kv', brace_free kv.1 = true → brace_free kv'.1 = true →
    has_prefix (placeholder kv).1 s = true → has_prefix (placeholder kv').1 s = true → kv.1 = kv'.1)
    as Huniq.
  { intros [k v] [k' v'] Hk Hk'. unfold placeholder. cbn [fst]. destruct s as [|c s]; [done|].
    rewrite !sapp_cons, !sapp_nil_l. cbn [has_prefix]. rewrite !andb_true_iff.
    intros [_ H] [_ H']. by eapply prefix_brace. }
  induction Hp as [|kv l l' _ IH|kv kv' l|l1 l2 l3 Hp1 IH1 Hp2 IH2]; intros Hb Hnd.
  - done.
  - rewrite !fmap_cons. cbn [find]. apply Forall_cons in Hb as [_ Hb].
    apply NoDup_cons in Hnd as [_ Hnd]. destruct (has_prefix (placeholder kv).1 s); [done|by apply IH].
  - rewrite !fmap_cons. cbn [find]. apply Forall_cons in Hb as [H1 Hb]. apply Forall_cons in Hb as [H2 _].
    apply NoDup_cons in Hnd as [Hni _].
    destruct (has_prefix (placeholder kv).1 s) eqn:E1; [|done].
    destruct (has_prefix (placeholder kv').1 s) eqn:E2; [|done].
    destruct Hni. rewrite (Huniq kv' kv) by done. left.
  - rewrite IH1 by done. apply IH2; [by rewrite <- Hp1|unfold mkeys; by rewrite <- Hp1].
Qed.

Lemma replacer_ext pairs pairs' skip s :
  (∀ s, find (λ p, has_prefix p.1 s) pairs = find (λ p, has_prefix p.1 s) pairs') →
  replacer_go pairs skip s = replacer_go pairs' skip s.
Proof.
  intros H. revert skip. induction s as [|c s IH]; intros [|k]; simpl; [done..| |apply IH].
  rewrite H. destruct (find _ pairs') as [[old new]|]; by rewrite IH.
Qed.

(** ** Slugs *)

Definition slug_char (c : ascii) : bool := slug_byte c || (c =c? "_")%char.
(** Lower-case letters, digits and underscores, no two underscores in a row
    and none at either end. *)
Definition is_slug (s : string) : bool :=
  sforall slug_char s && negb (scontains "__" s)
  && negb (has_prefix "_" s) && negb (has_suffix "_" s).

Lemma scontains_spec p s : scontains p s = true ↔ ∃ a b, s = a +:+ p +:+ b.
Proof.
  unfold scontains. induction s as [|c s IH].
  - simpl. destruct p as [|d p]; simpl.
    + split; [by exists "", ""|done].
    + split; [done|]. by intros ([|? ?] & b & ?).
  - cbn [sindex]. destruct (has_prefix p (String c s)) eqn:E.
    + apply has_prefix_spec in E as [t Ht]. split; [|done]. intros _. by exists "", t.
    + assert (has_prefix p (String c s) ≠ true) as Hn by congruence. rewrite has_prefix_spec in Hn.
      destruct (sindex p s) as [i|]; simpl; (split; [intros H|intros (a & b & H)]).
      * apply IH in H as (a & b & ->). by exists (String c a), b.
      * done.
      * done.
      * destruct a as [|d a]; [by destruct Hn; exists b|]. rewrite sapp_cons in H.
        injection H as <- ->. apply IH. by exists a, b.
Qed.

Lemma slug_runs_chars s : ∀ inrun, sforall slug_char (slug_runs inrun s) = true.
Proof.
  induction s as [|c s IH]; intros inrun; simpl; [done|].
  destruct (slug_byte c) eqn:E; simpl; [unfold slug_char at 1; by rewrite E, IH|].
  destruct inrun; simpl; apply IH.
Qed.

Lemma scontains_cons p c s : scontains p (String c s) = has_prefix p (String c s) || scontains p s.
Proof. unfold scontains. cbn [sindex]. destruct (has_prefix p _); [done|]. by destruct (sindex p s). Qed.

Lemma slug_runs_single s : ∀ inrun,
  (inrun = true → has_prefix "_" (slug_runs inrun s) = false)
  ∧ scontains "__" (slug_runs inrun s) = false.
Proof.
  induction s as [|c s IH]; intros inrun; [done|]. cbn [slug_runs].
  destruct (slug_byte c) eqn:E; [|destruct inrun].
  - assert (("_" =c? c)%char = false) as Ec.
    { destruct (Ascii.eqb_spec "_"%char c) as [<-|]; done. }
    rewrite scontains_cons. cbn [has_prefix]. rewrite Ec. split; [done|apply IH].
  - apply (IH true).
  - destruct (IH true) as (Hp & Hs). split; [done|]. rewrite scontains_cons, Hs, orb_false_r.
    by apply Hp.
Qed.

Lemma sforall_rev f s : sforall f (String.rev s) = sforall f s.
Proof.
  induction s as [|c s IH]; [done|]. rewrite srev_cons, sforall_app, IH. simpl.
  by rewrite andb_true_r, andb_comm.
Qed.

Lemma strim_left_byte_spec c s : ∃ t, s = t +:+ strim_left_byte c s
  ∧ has_prefix (String c "") (strim_left_byte c s) = false.
Proof.
  induction s as [|b s (t & Ht & Hp)]; simpl; [by exists ""|].
  destruct (Ascii.eqb_spec b c) as [->|Hne].
  - exists (String c t). rewrite sapp_cons, <- Ht. done.
  - exists "". split; [done|]. simpl. rewrite andb_true_r. by apply Ascii.eqb_neq.
Qed.

Lemma contains_suffix p t s : scontains p s = true → scontains p (t +:+ s) = true.
Proof. rewrite !scontains_spec. intros (a & b & ->). exists (t +:+ a), b. by rewrite sapp_assoc. Qed.
Lemma contains_rev s : scontains "__" (String.rev s) = scontains "__" s.
Proof.
  apply eq_bool_prop_intro. rewrite !Is_true_true, !scontains_spec. split.
  - intros (a & b & H). exists (String.rev b), (String.rev a).
    rewrite <- (srev_involutive s), H, !srev_app. by rewrite sapp_assoc.
  - intros (a & b & ->). exists (String.rev b), (String.rev a). rewrite !srev_app. by rewrite sapp_assoc.
Qed.

Lemma trimmed_is_slug s : sforall slug_char s = true → scontains "__" s = false →
  is_slug (strim_byte "_" s) = true.
Proof.
  intros Hc Hd. unfold strim_byte.
  destruct (strim_left_byte_spec "_" s) as (t & Ht & Hp).
  set (u := strim_left_byte "_" s) in *. clearbody u.
  assert (sforall slug_char u = true) as Hcu.
  { rewrite Ht, sforall_app in Hc. by apply andb_true_iff in Hc as [_ ?]. }
  assert (scontains "__" u = false) as Hdu.
  { apply not_true_is_false. intros H%(contains_suffix _ t). rewrite <- Ht in H. congruence. }
  destruct (strim_left_byte_spec "_" (String.rev u)) as (w & Hw & Hq).
  set (v := strim_left_byte "_" (String.rev u)) in *. clearbody v.
  assert (u = String.rev v +:+ String.rev w) as Hu.
  { rewrite <- (srev_involutive u), Hw, srev_app. done. }
  unfold is_slug. rewrite !andb_true_iff, !negb_true_iff. split_and!.
  - rewrite sforall_rev. rewrite <- (sforall_rev _ u), Hw, sforall_app in Hcu.
    by apply andb_true_iff in Hcu as [_ ?].
  - rewrite contains_rev. apply not_true_is_false. intros H%(contains_suffix _ w).
    rewrite <- Hw, contains_rev in H. congruence.
  - apply not_true_is_false. intros [x Hx]%has_prefix_spec. rewrite Hx in Hu.
    rewrite Hu, sapp_assoc, has_prefix_app in Hp. done.
  - unfold has_suffix. by rewrite srev_involutive.
Qed.

Section pipeline.
Context `{UC : UnicodeCase}.

(** ** The variable context *)

Lemma GetAllResults_keys accs vars : GetAllResults accs = Ok vars → mkeys vars = mkeys accs.
Proof.
  revert vars. induction accs as [|[n acc] accs IH]; simpl; intros vars; [by intros [= <-]|].
  intros (v & _ & (rest & Hr & [= <-])%res_bind_ok)%res_bind_ok. simpl. f_equal. by apply IH.
Qed.

Lemma GetAllResults_get accs vars k : GetAllResults accs = Ok vars →
  mget k vars = match mget k accs with Some acc => to_option (GetResult acc) | None => None end.
Proof.
  revert vars. induction accs as [|[n acc] accs IH]; simpl; intros vars; [by intros [= <-]|].
  intros (v & Hv%wrapf_ok & (rest & Hr & [= <-])%res_bind_ok)%res_bind_ok. simpl.
  destruct (decide (k = n)); [by rewrite Hv|by apply IH].
Qed.

(** The maps of a runtime have no repeated keys, as Go maps do not. *)
Definition runtime_maps (r : ValidationRuntime) (doc : vmap) : Prop :=
  NoDup (mkeys (rt_Accumulators r)) ∧ NoDup (mkeys (rt_AggregationResults r))
  ∧ NoDup (mkeys (rt_ReconciliationScalars r)) ∧ NoDup (mkeys doc).

Definition or_else {A} (a b : option A) : option A := match a with Some _ => a | None => b end.

Lemma context_get r doc vars k : runtime_maps r doc → buildVariableContext r doc = Ok vars →
  mget k vars
  = or_else (mget k (rt_ReconciliationScalars r))
     (or_else (mget k doc)
       (or_else (mget k (rt_AggregationResults r))
         (match mget k (rt_Accumulators r) with Some acc => to_option (GetResult acc) | None => None end))).
Proof.
  intros (Ha & Hg & Hs & Hd) (accs & Hr & [= <-])%res_bind_ok.
  assert (NoDup (mkeys accs)) as Hn by by rewrite (GetAllResults_keys _ _ Hr).
  rewrite !mget_mcopy by done. rewrite (GetAllResults_get _ _ k Hr).
  unfold or_else. repeat case_match; simplify_eq; try done; congruence.
Qed.

Lemma context_add_result r v doc :
  buildVariableContext (AddValidationResult r v) doc = buildVariableContext r doc.
Proof. done. Qed.

(** ** The validation loop *)

(** The entry recorded for a rule that evaluated to [b]. *)
Definition entry (vars : vmap) (config : ValidationConfig) (b : bool) : ValidationResult :=
  {| vr_Name := vc_Name config; vr_Result := if b then "pass" else "fail";
     vr_Severity := normalizeValidationSeverity (vc_Severity config);
     vr_Message := if b then "" else formatValidationMessage (vc_Message config) vars;
     vr_Value := VBool b |}.
(** The outcome of one rule under the variables in scope. *)
Definition outcome (vars : vmap) (config : ValidationConfig) (v : ValidationResult) : Prop :=
  ∃ e b, ParseExpression (vc_Rule config) = Ok e
    ∧ EvaluateExpression (NewEvaluator vars None) e = Ok (VBool b)
    ∧ v = entry vars config b.

(** A result after which the loop stops. *)
Definition halts (policy : FailurePolicy) (v : ValidationResult) : bool :=
  (vr_Result v =s? "fail") && (vr_Severity v =s? "fatal") && fp_HaltOnFirstFatal policy.

(** All results but the last let the loop go on. *)
Definition only_last_halts (policy : FailurePolicy) (vs : list ValidationResult) : Prop :=
  ∀ i v, vs !! i = Some v → halts policy v = true → S i = length vs.

Definition add_results (r : ValidationRuntime) (vs : list ValidationResult) : ValidationRuntime :=
  foldl AddValidationResult r vs.

Lemma add_results_results r vs :
  rt_ValidationResults (add_results r vs) = rt_ValidationResults r ++ vs.
Proof.
  unfold add_results. revert r. induction vs as [|v vs IH]; intros r; simpl; [by rewrite app_nil_r|].
  rewrite IH. simpl. by rewrite <- app_assoc.
Qed.

Lemma validations_run configs : ∀ r doc policy vars r',
  buildVariableContext r doc = Ok vars →
  evaluateValidations r configs doc policy = Ok r' →
  ∃ vs, r' = add_results r vs ∧ Forall2 (outcome vars) (take (length vs) configs) vs
    ∧ only_last_halts policy vs
    ∧ (length vs = length configs ∨ ∃ v, last vs = Some v ∧ halts policy v = true).
Proof.
  induction configs as [|c configs IH]; intros r doc policy vars r' Hvars; simpl.
  { intros [= <-]. exists []. split_and!; [done|constructor|by intros ???|by left]. }
  rewrite Hvars. simpl. intros (e & He%wrapf_ok & H)%res_bind_ok.
  apply res_bind_ok in H as (x & Hx%wrapf_ok & H).
  destruct x as [|b| | | | | | | | |]; simpl in H; try done.
  assert (∀ v rest, outcome vars c v → halts policy v = false →
    evaluateValidations (AddValidationResult r v) configs doc policy = Ok rest →
    ∃ vs, rest = add_results r vs ∧ Forall2 (outcome vars) (take (length vs) (c :: configs)) vs
      ∧ only_last_halts policy vs
      ∧ (length vs = S (length configs) ∨ ∃ v, last vs = Some v ∧ halts policy v = true)) as Hstep.
  { intros v rest Ho Hh Hrun.
    destruct (IH (AddValidationResult r v) doc policy vars rest Hvars Hrun) as (vs & -> & Hall & Hlast & Hend).
    exists (v :: vs). split_and!; [done|by constructor| |].
    - intros [|i] w Hw Hhw; simpl in *; [simplify_eq; congruence|]. f_equal. by eapply Hlast.
    - destruct Hend as [<-|(w & Hw & Hhw)]; [by left|right]. exists w. split; [|done].
      by destruct vs. }
  destruct b.
  - eapply (Hstep (entry vars c true)); [by exists e, true|reflexivity|exact H].
  - assert (outcome vars c (entry vars c false)) as Ho by by exists e, false.
    destruct ((normalizeValidationSeverity (vc_Severity c) =s? "fatal") && fp_HaltOnFirstFatal policy)
      eqn:Eh.
    + injection H as <-. set (v := entry vars c false) in *. exists [v]. split_and!; [done|by constructor; [|constructor]| |].
      * intros [|[|i]] w; simpl; [done|done|done].
      * right. exists v. split; [done|]. unfold halts. simpl. exact Eh.
    + eapply Hstep; [exact Ho| |exact H]. unfold halts. simpl. exact Eh.
Qed.

(** ** Aggregations *)

(** The comparison an aggregation asks for holds of its result. *)
Definition within_tolerance (config : AggregationConfig) (doc : vmap) (r : value) : Prop :=
  trim_space (ag_CompareTo config) = "" ∨
  ∃ target x y, mget (ag_CompareTo config) doc = Some target
    ∧ toFloat64 r = Ok x ∧ toFloat64 target = Ok y
    ∧ fltb (ag_Tolerance (AggregationConfig_ApplyDefaults config)) (fabs (fsub x y)) = false.

Lemma compare_ok config doc r : compare_to_target config doc r = Ok tt →
  trim_space (ag_CompareTo config) = "" ∨
  ∃ target x y, mget (ag_CompareTo config) doc = Some target
    ∧ toFloat64 r = Ok x ∧ toFloat64 target = Ok y
    ∧ fltb (ag_Tolerance config) (fabs (fsub x y)) = false.
Proof.
  unfold compare_to_target. destruct (eqs_spec (trim_space (ag_CompareTo config)) ""); [by left|].
  destruct (mget _ doc) as [target|] eqn:Et; [|done].
  intros (x & Hx%wrapf_ok & H)%res_bind_ok. apply res_bind_ok in H as (y & Hy%wrapf_ok & H).
  destruct (fltb _ _) eqn:E; [done|]. right. eauto 10.
Qed.

Lemma aggregation_step doc ctx config ctx' : compute_aggregation doc ctx config = Ok ctx' →
  ∃ r, ctx' = with_aggregation (ag_Name config) r ctx ∧ within_tolerance config doc r.
Proof.
  unfold compute_aggregation. intros (accs & _ & H)%res_bind_ok.
  apply res_bind_ok in H as (e & _ & H). apply res_bind_ok in H as (r & _ & H).
  apply res_bind_ok in H as ([] & Hc & [= <-]). exists r. split; [done|].
  apply compare_ok in Hc. exact Hc.
Qed.

Lemma aggregations_run doc configs : ∀ ctx ctx',
  ComputeAggregations ctx configs doc = Ok ctx' →
  (∀ k, k ∉ ag_Name <$> configs →
     mget k (rt_AggregationResults ctx') = mget k (rt_AggregationResults ctx))
  ∧ (NoDup (ag_Name <$> configs) → Forall (λ c, ∃ r,
       mget (ag_Name c) (rt_AggregationResults ctx') = Some r ∧ within_tolerance c doc r) configs).
Proof.
  unfold ComputeAggregations. induction configs as [|c configs IH]; intros ctx ctx'; simpl.
  { intros [= <-]. split; [done|constructor]. }
  intros (ctx1 & Hc & Hrun)%res_bind_ok. destruct (IH _ _ Hrun) as [Hkeep Hall].
  apply aggregation_step in Hc as (r & -> & Hw). split.
  - intros k. rewrite not_elem_of_cons. intros [Hne Hk]. rewrite Hkeep by done. simpl.
    by apply mget_mset_ne.
  - intros [Hc Hnd]%NoDup_cons. constructor; [|by apply Hall].
    exists r. split; [|done]. rewrite Hkeep by done. simpl. apply mget_mset_eq.
Qed.
(** ** Grouped components *)

Section groups.
Variables (name fieldPath labelField missingLabel : string).
Variables (filterExpr : option Expression) (valueExpr : Expression) (baseVariables : vmap).

(** The group and the value a record contributes; [None] if the filter
    rejects it. *)
Definition contribution (record : vmap) (c : option (string * f64)) : Prop :=
  let env := NewEvaluator (mergeVariableContexts baseVariables record) None in
  match c with
  | None => ∃ f, filterExpr = Some f ∧ EvaluateExpression env f = Ok (VBool false)
  | Some (key, v) =>
      (∀ f, filterExpr = Some f → EvaluateExpression env f = Ok (VBool true))
      ∧ key = resolveGroupValue (getNestedField record fieldPath) missingLabel
      ∧ ∃ raw, EvaluateExpression env valueExpr = Ok raw ∧ toFloat64 raw = Ok v
  end.

Definition add_contribution (totals : list (string * f64)) (c : option (string * f64))
    : list (string * f64) :=
  match c with
  | None => totals
  | Some (key, v) =>
      mset key (fadd (match mget key totals with Some t => t | None => fzero end) v) totals
  end.

Lemma group_record_step g record g' :
  group_record name fieldPath labelField missingLabel filterExpr valueExpr baseVariables g record = Ok g' →
  ∃ c, contribution record c ∧ g_totals g' = add_contribution (g_totals g) c.
Proof.
  unfold group_record. intros (keep & Hk & H)%res_bind_ok.
  assert (match filterExpr with
          | None => keep = true
          | Some f => EvaluateExpression
              (NewEvaluator (mergeVariableContexts baseVariables record) None) f = Ok (VBool keep)
          end) as Hf.
  { destruct filterExpr as [f|]; [|by injection Hk as <-].
    apply res_bind_ok in Hk as (x & Hx%wrapf_ok & Hb). destruct x as [|b| | | | | | | | |]; try done.
    by injection Hb as <-. }
  destruct keep; simpl in H.
  - apply res_bind_ok in H as (raw & Hraw%wrapf_ok & H).
    apply res_bind_ok in H as (v & Hv%wrapf_ok & [= <-]).
    exists (Some (resolveGroupValue (getNestedField record fieldPath) missingLabel, v)).
    split; [|done]. split; [intros f Ef; rewrite Ef in Hf; exact Hf|]. split; [done|]. by exists raw.
  - injection H as <-. exists None. split; [|done].
    revert Hf. unfold contribution. destruct filterExpr as [f|]; [intros Hf; by exists f|done].
Qed.

Lemma group_records records : ∀ g g',
  foldM (group_record name fieldPath labelField missingLabel filterExpr valueExpr baseVariables) g records
    = Ok g' →
  ∃ cs, Forall2 contribution records cs ∧ g_totals g' = foldl add_contribution (g_totals g) cs.
Proof.
  induction records as [|r records IH]; intros g g'; simpl.
  { intros [= <-]. exists []. split; [constructor|done]. }
  intros (g1 & Hg & Hrun)%res_bind_ok. apply group_record_step in Hg as (c & Hc & Ht).
  destruct (IH _ _ Hrun) as (cs & Hcs & ->). exists (c :: cs). split; [by constructor|].
  simpl. by rewrite Ht.
Qed.
End groups.

(** The values contributed to a group, in record order. *)
Definition group_values (cs : list (option (string * f64))) (key : string) : list f64 :=
  omap (λ c, match c with
             | Some (k, v) => if decide (k = key) then Some v else None
             | None => None
             end) cs.

Lemma totals_get cs : ∀ totals key,
  mget key (foldl add_contribution totals cs)
  = match mget key totals, group_values cs key with
    | None, [] => None
    | Some t, vs => Some (foldl fadd t vs)
    | None, vs => Some (foldl fadd fzero vs)
    end.
Proof.
  induction cs as [|[[k v]|] cs IH]; intros totals key; simpl.
  - by destruct (mget key totals).
  - rewrite IH, mget_mset. destruct (decide (key = k)) as [->|Hne].
    + rewrite decide_True by done. by destruct (mget k totals).
    + by rewrite decide_False by congruence.
  - apply IH.
Qed.

Lemma totals_nodup cs : ∀ totals, NoDup (mkeys totals) →
  NoDup (mkeys (foldl add_contribution totals cs)).
Proof.
  induction cs as [|[[k v]|] cs IH]; intros totals H; simpl; [done| |by apply IH].
  apply IH. by apply NoDup_mset.
Qed.

(** The value of a component: its group's sum, scaled, tiny values flushed. *)
Definition flush (v : f64) : f64 :=
  if fltb (fabs v) (f_of_ratio false 1 1000000000) then fzero else v.
Definition component_value (cs : list (option (string * f64))) (scale : f64) (key : string) : f64 :=
  flush (fmul (foldl fadd fzero (group_values cs key)) scale).

Lemma emit_components_run cfgName gc g scale keys : ∀ st idx,
  let st' := emit_components cfgName gc g scale st idx keys in
  let value key := flush (fmul (match mget key (g_totals g) with Some t => t | None => fzero end) scale) in
  cr_Value <$> em_components st' = (cr_Value <$> em_components st) ++ (value <$> keys)
  ∧ em_groupedTotal st' = foldl fadd (em_groupedTotal st) (value <$> keys).
Proof.
  induction keys as [|key keys IH]; intros st idx; cbn zeta.
  { simpl. by rewrite app_nil_r. }
  cbn [emit_components]. destruct (IH (emit_component cfgName gc g scale st idx key) (idx + 1)%Z) as [H1 H2].
  rewrite H1, H2. unfold emit_component, flush.
  destruct (next_slug _ _) as [slug counts]. cbn [em_components em_groupedTotal].
  rewrite fmap_app, <- app_assoc. done.
Qed.

(** What grouping guarantees: [cs] are the contributions of the records. *)
Definition grouped_result (cs : list (option (string * f64)))
    (components : list ReconciliationComponentResult) (total : f64) : Prop :=
  ∃ keys scale,
    StronglySorted (λ a b, sleb a b = true) keys ∧ NoDup keys
    ∧ (∀ key, key ∈ keys ↔ group_values cs key ≠ [])
    ∧ cr_Value <$> components = component_value cs scale <$> keys
    ∧ total = foldl fadd fzero (cr_Value <$> components).

Lemma grouped_components range_order config gc base doc baseValue components total scalars :
  (∀ l, range_order l ≡ₚ l) → rc_GroupBy config = Some gc →
  evaluateGroupedComponents range_order config base doc baseValue = Ok (components, total, scalars) →
  (components = [] ∧ total = fzero) ∨
  ∃ records cs filterExpr valueExpr,
    collectGroupRecords doc (trim_space (gb_Source gc)) = Ok records
    ∧ parseOptionalExpression (gb_Filter gc) = Ok filterExpr
    ∧ ParseExpression (trim_space (gb_ValueExpression gc)) = Ok valueExpr
    ∧ Forall2 (contribution (trim_space (gb_Field gc))
        (default_blank "unknown" (trim_space (gb_MissingLabel gc))) filterExpr valueExpr base) records cs
    ∧ grouped_result cs components total.
Proof.
  intros Horder Hgc. unfold evaluateGroupedComponents. rewrite Hgc.
  destruct (trim_space (gb_Source gc) =s? ""); [done|].
  destruct (trim_space (gb_Field gc) =s? ""); [done|].
  destruct (trim_space (gb_ValueExpression gc) =s? ""); [done|].
  intros (records & Hrec%wrapf_ok & H)%res_bind_ok.
  destruct (length records =? 0)%nat; [injection H as <- <- _; by left|]. cbv zeta in H.
  destruct (negb _); [done|].
  apply res_bind_ok in H as (filterExpr & Hf%wrapf_ok & H).
  apply res_bind_ok in H as (valueExpr & Hv%wrapf_ok & H).
  apply res_bind_ok in H as (g & Hg & H). apply group_records in Hg as (cs & Hcs & Ht).
  destruct (length (g_totals g) =? 0)%nat; [injection H as <- <- _; by left|]. right.
  simpl in Ht. set (keys := sort_by sleb (range_order (g_totals g)).*1) in H.
  set (scale := cap_scale _ _ _) in H. injection H as <- <- _.
  exists records, cs, filterExpr, valueExpr. split_and!; try done.
  assert (keys ≡ₚ mkeys (g_totals g)) as Hkeys.
  { unfold keys. rewrite sort_by_perm. by rewrite Horder. }
  assert (∀ key, mget key (g_totals g)
    = match group_values cs key with [] => None | vs => Some (foldl fadd fzero vs) end) as Hget.
  { intros key. rewrite Ht, totals_get. done. }
  destruct (emit_components_run (rc_Name config) gc g scale keys
    {| em_components := []; em_scalars := []; em_slugCounts := []; em_componentMap := [];
       em_groupedTotal := fzero |} 0) as [Hval Htot]. cbv zeta in Hval, Htot. simpl app in Hval.
  exists keys, scale. split_and!.
  - apply sort_by_sorted; [apply sleb_total|apply sleb_trans].
  - rewrite Hkeys, Ht. apply totals_nodup. constructor.
  - intros key. rewrite Hkeys. specialize (Hget key).
    destruct (decide (key ∈ mkeys (g_totals g))) as [Hin|Hout].
    + split; [|done]. intros _ E. rewrite E in Hget. by apply mget_None in Hget.
    + split; [done|]. apply mget_None in Hout. rewrite Hout in Hget.
      by destruct (group_values cs key).
  - rewrite Hval. apply list_fmap_ext. intros i key Hi. unfold component_value. do 2 f_equal.
    rewrite Hget. by destruct (group_values cs key).
  - rewrite Htot, Hval. done.
Qed.
(** ** Reconciliations *)

(** The listed components of a configuration, evaluated in order. *)
Definition component_result (env : Evaluator) (c : ReconciliationComponentConfig)
    (r : ReconciliationComponentResult) : Prop :=
  ∃ e v x, ParseExpression (cc_Expression c) = Ok e ∧ EvaluateExpression env e = Ok v
    ∧ toFloat64 v = Ok x
    ∧ r = {| cr_Name := cc_Name c; cr_Description := cc_Description c; cr_Value := x |}.

Lemma components_run name env configs : ∀ st st',
  foldM (eval_component name env) st configs = Ok st' →
  ∃ rs, Forall2 (component_result env) configs rs ∧ st'.1 = st.1 ++ rs
    ∧ st'.2 = foldl fadd st.2 (cr_Value <$> rs).
Proof.
  induction configs as [|c configs IH]; intros st st'; simpl.
  { intros [= <-]. exists []. split_and!; [constructor|by rewrite app_nil_r|done]. }
  intros (st1 & Hc & Hrun)%res_bind_ok. unfold eval_component in Hc.
  destruct (_ =s? ""); [done|].
  apply res_bind_ok in Hc as (e & He%wrapf_ok & Hc). apply res_bind_ok in Hc as (v & Hv%wrapf_ok & Hc).
  apply res_bind_ok in Hc as (x & Hx%wrapf_ok & [= <-]).
  destruct (IH _ _ Hrun) as (rs & Hrs & -> & ->). simpl.
  eexists (_ :: rs). split_and!; [constructor; [|exact Hrs]|by rewrite <- app_assoc|done].
  by exists e, v, x.
Qed.

(** What one reconciliation adds to the runtime. *)
Definition reconciled (range_order : list (string * f64) → list (string * f64))
    (config : ReconciliationConfig) (doc : vmap) (rt rt' : ValidationRuntime)
    (r : ReconciliationResult) : Prop :=
  ∃ vars e v grouped gtotal updates listed,
    buildVariableContext rt doc = Ok vars
    ∧ ParseExpression (rc_BaseExpression config) = Ok e
    ∧ EvaluateExpression (NewEvaluator vars None) e = Ok v
    ∧ toFloat64 v = Ok (rr_BaseValue r)
    ∧ evaluateGroupedComponents range_order config vars doc (rr_BaseValue r) = Ok (grouped, gtotal, updates)
    ∧ Forall2 (component_result (NewEvaluator (mcopy updates vars) None)) (rc_Components config) listed
    ∧ rt_ReconciliationResults rt' = rt_ReconciliationResults rt ++ [r]
    ∧ rr_Name r = rc_Name config
    ∧ rr_Components r = grouped ++ listed
    ∧ rr_ComponentsTotal r
      = foldl fadd (if (length grouped =? 0)%nat then fzero else fadd fzero gtotal) (cr_Value <$> listed)
    ∧ rr_Residual r = fsub (rr_BaseValue r) (rr_ComponentsTotal r)
    ∧ rr_Status r = (if fltb (rr_Tolerance r) (fabs (rr_Residual r))
                     then (if rc_AllowUnexplained config then "unexplained" else "unbalanced")
                     else "balanced")
    ∧ let scalar suffix := mget (rc_Name config +:+ suffix) (rt_ReconciliationScalars rt') in
      scalar "_base" = Some (VFloat (rr_BaseValue r))
      ∧ scalar "_components_total" = Some (VFloat (rr_ComponentsTotal r))
      ∧ scalar "_residual" = Some (VFloat (rr_Residual r))
      ∧ scalar "_status" = Some (VString (rr_Status r)).

Lemma mget_mset_suffix name a b (v : value) m : a ≠ b →
  mget (name +:+ a) (mset (name +:+ b) v m) = mget (name +:+ a) m.
Proof. intros H. apply mget_mset_ne. by intros ?%sapp_inj_l. Qed.

Lemma reconciliation_run range_order config doc rt rt' :
  evaluate_reconciliation range_order doc rt config = Ok rt' →
  ∃ r, reconciled range_order config doc rt rt' r.
Proof.
  unfold evaluate_reconciliation. intros (vars & Hvars & H)%res_bind_ok.
  destruct (_ =s? ""); [done|].
  apply res_bind_ok in H as (e & He%wrapf_ok & H). apply res_bind_ok in H as (v & Hv%wrapf_ok & H).
  apply res_bind_ok in H as (base & Hb%wrapf_ok & H).
  apply res_bind_ok in H as ([[grouped gtotal] updates] & Hg & H). cbv zeta in H.
  apply res_bind_ok in H as ([comps total] & Hc & H). injection H as <-.
  apply components_run in Hc as (listed & Hl & H1 & H2). simpl in H1, H2.
  match goal with |- context [with_reconciliation (_ ++ [?r])] => exists r end.
  exists vars, e, v, grouped, gtotal, updates, listed. cbv zeta.
  split_and!; try done.
  all: cbn [rr_BaseValue rr_Name rr_Components rr_ComponentsTotal rr_Residual rr_Status rr_Tolerance
    rt_ReconciliationResults rt_ReconciliationScalars with_reconciliation].
  - rewrite H1. by destruct grouped.
  - rewrite H2. by destruct grouped.
  - rewrite !mget_mset_suffix by done. by rewrite mget_mset_eq.
  - rewrite !mget_mset_suffix by done. by rewrite mget_mset_eq.
  - rewrite !mget_mset_suffix by done. by rewrite mget_mset_eq.
  - by rewrite mget_mset_eq.
Qed.
End pipeline.

(** ** Properties *)
Section properties.
Context `{UC : UnicodeCase}.

(** The validation loop. When it succeeds, the rules of a prefix of the
    configuration have been evaluated, in order and all under the same
    variables, each adding exactly one result: pass or fail by its boolean
    value, with its message filled in only on failure. The prefix is the whole
    configuration unless its last result is a failed fatal check and the
    policy halts on the first one, and no earlier result is such a check. *)
Theorem evaluateValidations_spec r configs doc policy vars r' :
  buildVariableContext r doc = Ok vars →
  evaluateValidations r configs doc policy = Ok r' →
  ∃ vs, rt_ValidationResults r' = rt_ValidationResults r ++ vs
    ∧ Forall2 (outcome vars) (take (length vs) configs) vs
    ∧ only_last_halts policy vs
    ∧ (length vs = length configs ∨ ∃ v, last vs = Some v ∧ halts policy v = true).
Proof.
  intros Hvars Hrun. destruct (validations_run _ _ _ _ _ _ Hvars Hrun) as (vs & -> & H).
  exists vs. split; [apply add_results_results|exact H].
Qed.

(** Name resolution. In the variable context of a rule a name means the
    reconciliation scalar of that name, else the document's field, else the
    aggregation, else the accumulator; nothing else is in scope. *)
Theorem buildVariableContext_spec r doc vars k :
  runtime_maps r doc → buildVariableContext r doc = Ok vars →
  mget k vars
  = or_else (mget k (rt_ReconciliationScalars r))
     (or_else (mget k doc)
       (or_else (mget k (rt_AggregationResults r))
         (match mget k (rt_Accumulators r) with Some acc => to_option (GetResult acc) | None => None end))).
Proof. apply context_get. Qed.

(** Aggregations within tolerance. If the aggregations succeed, every one
    that names a field to compare with has a numeric result whose distance to
    that field's value does not exceed its tolerance, and (names being
    distinct) that result is the one stored under its name; other entries are
    unchanged. *)
Theorem ComputeAggregations_spec ctx configs doc ctx' :
  ComputeAggregations ctx configs doc = Ok ctx' → NoDup (ag_Name <$> configs) →
  Forall (λ c, ∃ r, mget (ag_Name c) (rt_AggregationResults ctx') = Some r
                    ∧ within_tolerance c doc r) configs
  ∧ ∀ k, k ∉ ag_Name <$> configs →
      mget k (rt_AggregationResults ctx') = mget k (rt_AggregationResults ctx).
Proof. intros H Hnd. destruct (aggregations_run _ _ _ _ H) as [H1 H2]. split; [by apply H2|exact H1]. Qed.

(** Reconciliation arithmetic. A reconciliation that succeeds adds one
    result: its components are the grouped ones followed by the listed ones in
    order, the total adds the listed values to the grouped total one by one,
    the residual is base minus total, the status is balanced exactly when the
    residual does not exceed the tolerance, and the four scalars published
    under the reconciliation's name are those of the result. *)
Theorem evaluate_reconciliation_spec range_order config doc rt rt' :
  evaluate_reconciliation range_order doc rt config = Ok rt' →
  ∃ r, reconciled range_order config doc rt rt' r.
Proof. apply reconciliation_run. Qed.

(** Grouped components. Grouping yields one component per distinct group
    value of the records that pass the filter, in the order of the group
    values, whatever order the map of totals is ranged over. A component's
    value is the record-order sum of its group's values times one common
    scale, flushed to zero below 1e-9, and the grouped total is the sum of the
    component values. *)
Theorem evaluateGroupedComponents_spec range_order config gc base doc baseValue components total scalars :
  (∀ l, range_order l ≡ₚ l) → rc_GroupBy config = Some gc →
  evaluateGroupedComponents range_order config base doc baseValue = Ok (components, total, scalars) →
  (components = [] ∧ total = fzero) ∨
  ∃ records cs filterExpr valueExpr,
    collectGroupRecords doc (trim_space (gb_Source gc)) = Ok records
    ∧ parseOptionalExpression (gb_Filter gc) = Ok filterExpr
    ∧ ParseExpression (trim_space (gb_ValueExpression gc)) = Ok valueExpr
    ∧ Forall2 (contribution (trim_space (gb_Field gc))
        (default_blank "unknown" (trim_space (gb_MissingLabel gc))) filterExpr valueExpr base) records cs
    ∧ grouped_result cs components total.
Proof. apply grouped_components. Qed.

(** Component keys. The key made from a component name consists of
    lower-case letters, digits and single underscores, with no underscore at
    either end. *)
Theorem sanitizeComponentKey_spec name : is_slug (sanitizeComponentKey name) = true.
Proof.
  unfold sanitizeComponentKey. destruct (_ =s? ""); [done|].
  apply trimmed_is_slug; [apply slug_runs_chars|apply slug_runs_single].
Qed.
End properties.

(** Message templates. When no variable name contains a closing brace, the
    text of a message does not depend on the order in which the map of
    variables is ranged over. *)
Theorem formatValidationMessage_order message vars vars' :
  Forall (λ kv, brace_free kv.1 = true) vars → NoDup (mkeys vars) → vars ≡ₚ vars' →
  formatValidationMessage message vars = formatValidationMessage message vars'.
Proof.
  intros Hb Hnd Hp. unfold formatValidationMessage. destruct (_ =s? ""); [done|].
  apply replacer_ext. intros s. by apply find_placeholder.
Qed.

(** ** Witnesses *)

#[local] Existing Instance ascii_case.

Definition ok_or {A} (d : A) (m : result A) : A := match m with Ok a => a | Err _ => d end.

Definition sample_doc : vmap :=
  [("total", VInt KInt64 100);
   ("lines", VList [VMap [("kind", VString "b"); ("amt", VInt KInt64 30)];
                    VMap [("kind", VString "a"); ("amt", VInt KInt64 50)];
                    VMap [("kind", VString "b"); ("amt", VInt KInt64 20)]])].
Definition sample_policy : FailurePolicy :=
  {| fp_FailOnFatal := true; fp_ErrorThreshold := 0; fp_WarningThreshold := 0;
     fp_HaltOnFirstFatal := true; fp_failOnFatalSet := false; fp_haltOnFirstFatalSet := false |}.
Definition sample_rules : list ValidationConfig :=
  [{| vc_Name := "positive"; vc_Rule := "total > 0"; vc_Severity := "error"; vc_Message := "" |};
   {| vc_Name := "small"; vc_Rule := "total < 10"; vc_Severity := "Fatal";
      vc_Message := "total is {total}" |};
   {| vc_Name := "unreached"; vc_Rule := "true"; vc_Severity := ""; vc_Message := "" |}].
Definition sample_runtime : ValidationRuntime := NewValidationRuntime 0.

Lemma evaluateValidations_spec_witness :
  ∃ vs, vr_Message <$> vs = [""; "total is 100"] ∧ length vs = 2
    ∧ ∃ v, last vs = Some v ∧ halts sample_policy v = true.
Proof.
  destruct (evaluateValidations_spec sample_runtime sample_rules sample_doc sample_policy
    (ok_or [] (buildVariableContext sample_runtime sample_doc))
    (ok_or sample_runtime (evaluateValidations sample_runtime sample_rules sample_doc sample_policy)))
    as (vs & Hvs & _ & _ & Hend).
  - vm_compute. reflexivity.
  - vm_compute. reflexivity.
  - exists vs. vm_compute (rt_ValidationResults _) in Hvs. simpl in Hvs. rewrite <- Hvs.
    split; [reflexivity|]. split; [reflexivity|].
    destruct Hend as [Hlen|Hend]; [rewrite <- Hvs in Hlen; discriminate|]. by rewrite <- Hvs in Hend.
Defined.

Lemma buildVariableContext_spec_witness :
  let r := with_reconciliation [] [("total", VString "scalar")] sample_runtime in
  mget "total" (ok_or [] (buildVariableContext r sample_doc)) = Some (VString "scalar").
Proof.
  intros r. rewrite (buildVariableContext_spec r sample_doc).
  - reflexivity.
  - split_and!; refine (bool_decide_unpack _ _); vm_compute; exact I.
  - vm_compute. reflexivity.
Defined.

Definition sample_aggregations : list AggregationConfig :=
  [{| ag_Name := "half"; ag_Expression := "total / 2"; ag_CompareTo := "";
      ag_Tolerance := fzero; ag_toleranceSet := false |};
   {| ag_Name := "double"; ag_Expression := "half * 2"; ag_CompareTo := "total";
      ag_Tolerance := fzero; ag_toleranceSet := true |}].

Lemma ComputeAggregations_spec_witness :
  Forall (λ c, ∃ r, mget (ag_Name c)
      (rt_AggregationResults (ok_or sample_runtime (ComputeAggregations sample_runtime sample_aggregations sample_doc)))
      = Some r ∧ within_tolerance c sample_doc r) sample_aggregations.
Proof.
  eapply (ComputeAggregations_spec sample_runtime sample_aggregations sample_doc).
  - vm_compute. reflexivity.
  - refine (bool_decide_unpack _ _). vm_compute. exact I.
Defined.

Definition sample_group : ReconciliationGroupByConfig :=
  {| gb_Source := "lines[]"; gb_Field := "kind"; gb_LabelField := ""; gb_MissingLabel := "";
     gb_Filter := ""; gb_ValueExpression := "amt"; gb_Aggregation := ""; gb_NameTemplate := "";
     gb_DescriptionTemplate := ""; gb_OverflowStrategy := "" |}.
Definition sample_reconciliation : ReconciliationConfig :=
  {| rc_Name := "rec"; rc_BaseExpression := "total"; rc_Tolerance := fzero; rc_Severity := "";
     rc_AllowUnexplained := false;
     rc_Components := [{| cc_Name := "fee"; cc_Description := ""; cc_Expression := "1 - 1" |}];
     rc_GroupBy := Some sample_group |}.

Lemma evaluate_reconciliation_spec_witness :
  let rt' := ok_or sample_runtime
    (evaluate_reconciliation id sample_doc sample_runtime sample_reconciliation) in
  ∃ r, rt_ReconciliationResults rt' = [r] ∧ rr_Status r = "balanced"
    ∧ reconciled id sample_reconciliation sample_doc sample_runtime rt' r.
Proof.
  intros rt'.
  destruct (evaluate_reconciliation_spec id sample_reconciliation sample_doc sample_runtime rt')
    as [r Hr]; [vm_compute; reflexivity|].
  exists r. assert (rt_ReconciliationResults rt' = [r]) as Hres.
  { destruct Hr as (? & ? & ? & ? & ? & ? & ? & _ & _ & _ & _ & _ & _ & H & _). exact H. }
  split; [exact Hres|]. split; [|exact Hr]. vm_compute in Hres. injection Hres as <-. reflexivity.
Defined.

Lemma evaluateGroupedComponents_spec_witness :
  let res := ok_or ([], fzero, [])
    (evaluateGroupedComponents reverse sample_reconciliation sample_doc sample_doc (f_of_Z 100)) in
  ∃ cs, grouped_result cs res.1.1 res.1.2.
Proof.
  intros res.
  destruct (evaluateGroupedComponents_spec reverse sample_reconciliation sample_group sample_doc
    sample_doc (f_of_Z 100) res.1.1 res.1.2 res.2) as [[H _]|(? & cs & ? & ? & _ & _ & _ & _ & H)].
  - intros l. apply reverse_Permutation.
  - reflexivity.
  - vm_compute. reflexivity.
  - vm_compute in H. discriminate H.
  - exists cs. exact H.
Defined.

Lemma formatValidationMessage_order_witness :
  formatValidationMessage "{a}{b}{ab}" [("a", VInt KInt 1); ("b", VString "{a}"); ("ab", VNil)]
  = formatValidationMessage "{a}{b}{ab}" [("ab", VNil); ("a", VInt KInt 1); ("b", VString "{a}")].
Proof.
  apply formatValidationMessage_order.
  - by repeat constructor.
  - refine (bool_decide_unpack _ _). vm_compute. exact I.
  - apply (Permutation_app_comm [_; _] [_]).
Defined.

(** The third group of one slug takes the key of the second: two groups share
    a scalar. *)
Example slug_collision :
  let '(s1, m1) := next_slug [] "a" in
  let '(s2, m2) := next_slug m1 "a" in
  let '(s3, m3) := next_slug m2 "a" in
  (s1, s2, s3) = ("a", "a_2", "a_2").
Proof. reflexivity. Qed.
