(* ===== verification/ValueProfile.v ===== *)
(** * Value profiles (internal/valueprofile: config.go, collector.go)

    A collector counts, field by field, what the extracted records hold, and
    publishes it under a guard: values are listed only for fields declared safe.
    Observations of an input that is still open are staged. Each method holds
    the collector's lock, so a run is a sequence of operations. Counters are
    unbounded here; a map that is ranged over is updated entry by entry, and
    the one loop that stops early is a fold over the entries in some order. *)
From Stdlib Require Import Ascii ZArith Lia SpecFloat.
From stdpp Require Import base list strings gmap.
From S2P Require Import Prelude GoStrings GoFloat GoStrconv GoValue.

(** ** Configuration (config.go) *)
Definition DefaultMaxDistinct : Z := 100.
Definition HardMaxDistinct : Z := 10000.
Definition DefaultSmallCellThreshold : Z := 5.

Definition closedProtectionTags : list string :=
  ["safe_to_profile"; "source_structure"; "direct_identifier"; "quasi_identifier"; "linkage_key"; "measure";
   "access_control_metadata"; "freeform_text"; "opaque_payload"].
Definition sensitivities : list string := ["public"; "internal"; "controlled"; "restricted"; "unknown"].

Record FieldConfig := {
  fc_Field : string;
  fc_SafeToProfile : bool;
  fc_Sensitivity : string;
  fc_ProtectionTags : list string;
}.
Record Config := {
  vc_Enabled : bool;
  vc_MaxDistinct : Z;
  vc_SmallCellThreshold : Z;
  vc_Fields : list FieldConfig;
}.

Definition hasTag (tags : list string) (want : string) : bool := existsb (λ t, t =s? want) tags.

Section config.
Context `{UC : UnicodeCase}.

(** [seen] is what [out] holds so far, in reverse. *)
Fixpoint normalize_tags (out : list string) (raw : list string) : result (list string) :=
  match raw with
  | [] => Ok (rev out)
  | tag :: raw =>
      let tag := trim_space tag in
      if tag =s? "" then normalize_tags out raw
      else
        let tag := to_lower tag in
        if negb (hasTag closedProtectionTags tag) then errorf "unknown protection_tag %q" [AStr tag]
        else if hasTag out tag then normalize_tags out raw
        else normalize_tags (tag :: out) raw
  end.
Definition normalizeProtectionTags (raw : list string) : result (list string) := normalize_tags [] raw.

Definition normalize_field (seen : list string) (f : FieldConfig) : result FieldConfig :=
  let name := trim_space (fc_Field f) in
  if name =s? "" then errorf "value_profile.fields[].field is required" []
  else if hasTag seen name then errorf "value_profile.fields: duplicate field %q" [AStr name]
  else
    let lower := to_lower (trim_space (fc_Sensitivity f)) in
    let sens := if lower =s? "" then "unknown" else lower in
    if negb (hasTag sensitivities sens) then
      errorf "value_profile field %q: invalid sensitivity %q" [AStr name; AStr (fc_Sensitivity f)]
    else
      tags ← wrapf "value_profile field %q: %w" [AStr name] (normalizeProtectionTags (fc_ProtectionTags f));
      Ok {| fc_Field := name;
            fc_SafeToProfile := hasTag tags "safe_to_profile" || fc_SafeToProfile f;
            fc_Sensitivity := sens;
            fc_ProtectionTags := tags |}.
Fixpoint normalize_fields (seen : list string) (fields : list FieldConfig) : result (list FieldConfig) :=
  match fields with
  | [] => Ok []
  | f :: fields =>
      f ← normalize_field seen f;
      rest ← normalize_fields (fc_Field f :: seen) fields;
      Ok (f :: rest)
  end.
Definition Normalize (c : Config) : result Config :=
  let max := if (vc_MaxDistinct c <=? 0)%Z then DefaultMaxDistinct else vc_MaxDistinct c in
  if (HardMaxDistinct <? max)%Z then
    errorf "value_profile.max_distinct %d exceeds hard maximum %d" [AInt max; AInt HardMaxDistinct]
  else
    let threshold := if (vc_SmallCellThreshold c <=? 0)%Z then DefaultSmallCellThreshold
                     else vc_SmallCellThreshold c in
    fields ← normalize_fields [] (vc_Fields c);
    Ok {| vc_Enabled := vc_Enabled c; vc_MaxDistinct := max; vc_SmallCellThreshold := threshold;
          vc_Fields := fields |}.
Definition Active (c : Config) : bool := vc_Enabled c && negb (length (vc_Fields c) =? 0)%nat.
End config.

(** ** Values as text and number *)

(** [stringifyValue]. An integral float between the bounds of [int64] prints as
    an integer; the upper bound itself, as a float, is 2^63 and wraps around. *)
Definition stringify_float (t : f64) : string :=
  if feqb t (ftrunc t) && fleb (f_of_Z (- 2 ^ 63)) t && fleb t (f_of_Z (2 ^ 63 - 1))
  then itoa (int64 (f_to_Z t)) else format_float t.
Definition stringifyValue (v : value) : string :=
  match v with
  | VString s => s
  | VBool b => if b then "true" else "false"
  | VFloat t | VFloat32 t => stringify_float t
  | VInt _ z => itoa z
  | _ => sprint v
  end.
Definition isEmptyScalar (v : value) : bool := match v with VString s => s =s? "" | _ => false end.
(** [toFloat]; [uint] and [uint32] are not among its cases. *)
Definition toFloat (v : value) : option f64 :=
  match v with
  | VFloat t | VFloat32 t => Some t
  | VInt (KInt | KInt32 | KInt64 | KUint64) z => Some (f_of_Z z)
  | VString s => parse_float (trim_space s)
  | _ => None
  end.

(** [uuidRE]: hexadecimal digits in groups of 8, 4, 4, 4 and 12. *)
Fixpoint hex_run (n : nat) (s : string) : option string :=
  match n, s with
  | 0, _ => Some s
  | S n, String c s => match hex_val c with Some _ => hex_run n s | None => None end
  | S _, "" => None
  end.
Fixpoint uuid_groups (groups : list nat) (s : string) : bool :=
  match groups with
  | [] => false
  | n :: groups =>
      match hex_run n s, groups with
      | Some rest, [] => rest =s? ""
      | Some (String c rest), _ => (c =c? "-"%char) && uuid_groups groups rest
      | _, _ => false
      end
  end.
Definition is_uuid (s : string) : bool := uuid_groups [8; 4; 4; 4; 12] s.
(** [emailRE]: one at-sign with text before it, and behind it a dot with text on
    both sides; no white space. *)
Definition email_byte (c : ascii) : bool :=
  negb (existsb (Ascii.eqb c) ["064"; "009"; "010"; "012"; "013"; " "]%char).
Fixpoint dot_inside (s : string) : bool :=
  match s with
  | "" => false
  | String c t => ((c =c? "."%char) && negb (t =s? "")) || dot_inside t
  end.
Definition email_domain (s : string) : bool :=
  match s with "" => false | String _ t => sforall email_byte s && dot_inside t end.
Fixpoint email_local (s : string) : bool :=
  match s with
  | "" => false
  | String c t => if (c =c? "@"%char) then email_domain t else email_byte c && email_local t
  end.
Definition is_email (s : string) : bool :=
  match s with "" => false | String c t => email_byte c && email_local t end.

(** ** One field's state *)
Record shapeAccumulator := { sh_uuid : bool; sh_email : bool; sh_free : bool; sh_empty : bool; sh_init : bool }.
Record fieldState := {
  fs_cfg : FieldConfig;
  fs_count : nat;
  fs_nullCount : nat;
  fs_distinct : option (gmap string nat);   (* nil behind the cap *)
  fs_capped : bool;
  fs_lenMin : Z;
  fs_lenMax : Z;
  fs_lenSum : Z;
  fs_lenN : nat;
  fs_shape : shapeAccumulator;
  fs_numMin : f64;
  fs_numMax : f64;
  fs_hasNumeric : bool;
  fs_allNumeric : bool;
  fs_sawNonEmpty : bool;
}.
Definition MaxInt : Z := 2 ^ 63 - 1.
Definition newFieldState (f : FieldConfig) : fieldState := {|
  fs_cfg := f; fs_count := 0; fs_nullCount := 0; fs_distinct := Some ∅; fs_capped := false;
  fs_lenMin := MaxInt; fs_lenMax := 0; fs_lenSum := 0; fs_lenN := 0;
  fs_shape := {| sh_uuid := false; sh_email := false; sh_free := false; sh_empty := false; sh_init := false |};
  fs_numMin := fzero; fs_numMax := fzero; fs_hasNumeric := false; fs_allNumeric := true;
  fs_sawNonEmpty := false |}.
Definition newFieldStates (fields : list FieldConfig) : gmap string fieldState :=
  foldl (λ m f, <[fc_Field f := newFieldState f]> m) ∅ fields.

Definition shape_observe (a : shapeAccumulator) (text : string) : shapeAccumulator :=
  if text =s? "" then
    {| sh_uuid := sh_uuid a; sh_email := sh_email a; sh_free := sh_free a; sh_empty := true; sh_init := sh_init a |}
  else
    let init := sh_init a in
    let uuid := if init then sh_uuid a && is_uuid text else is_uuid text in
    let email := if init then sh_email a && is_email text else is_email text in
    {| sh_uuid := uuid; sh_email := email;
       sh_free := if init then sh_free a || (negb uuid && negb email) else negb uuid && negb email;
       sh_empty := sh_empty a; sh_init := true |}.
Definition shape_merge (a other : shapeAccumulator) : shapeAccumulator :=
  if negb (sh_init other) && negb (sh_empty other) then a
  else if negb (sh_init a) then other
  else
    let uuid := sh_uuid a && sh_uuid other in
    let email := sh_email a && sh_email other in
    {| sh_uuid := uuid; sh_email := email; sh_free := sh_free a || (negb uuid && negb email);
       sh_empty := sh_empty a || sh_empty other; sh_init := true |}.
Definition shape_class (a : shapeAccumulator) : string :=
  if sh_uuid a then "uuid_shaped" else if sh_email a then "email_shaped" else "freeform".

(** The distinct map and its cap: [None] is the dropped map behind the cap. *)
Definition observe_distinct (max : Z) (distinct : option (gmap string nat)) (capped : bool) (text : string)
    : option (gmap string nat) * bool :=
  if capped then (distinct, true)
  else
    let m := default ∅ distinct in
    match m !! text with
    | Some n => (Some (<[text := S n]> m), false)
    | None => if (max <=? Z.of_nat (size m))%Z then (None, true) else (Some (<[text := 1]> m), false)
    end.
Fixpoint merge_entries (max : Z) (m : gmap string nat) (entries : list (string * nat))
    : option (gmap string nat) * bool :=
  match entries with
  | [] => (Some m, false)
  | (value, n) :: entries =>
      let m := <[value := default 0 (m !! value) + n]> m in
      if (max <? Z.of_nat (size m))%Z then (None, true) else merge_entries max m entries
  end.
(** [range] gives the entries of the staged map in some order. *)
Definition merge_distinct (range : gmap string nat → list (string * nat)) (max : Z)
    (distinct : option (gmap string nat)) (capped : bool)
    (distinct' : option (gmap string nat)) (capped' : bool) : option (gmap string nat) * bool :=
  if capped then (distinct, true)
  else if capped' then (None, true)
  else match distinct' with
       | None => (distinct, false)
       | Some m' => merge_entries max (default ∅ distinct) (range m')
       end.

Definition observeValue (s : fieldState) (text : string) (raw : value) (max : Z) : fieldState :=
  let n := Z.of_nat (slen text) in
  let num := toFloat raw in
  let '(distinct, capped) := observe_distinct max (fs_distinct s) (fs_capped s) text in {|
  fs_cfg := fs_cfg s; fs_count := fs_count s; fs_nullCount := fs_nullCount s;
  fs_distinct := distinct; fs_capped := capped;
  fs_lenMin := if (n <? fs_lenMin s)%Z then n else fs_lenMin s;
  fs_lenMax := if (fs_lenMax s <? n)%Z then n else fs_lenMax s;
  fs_lenSum := fs_lenSum s + n;
  fs_lenN := S (fs_lenN s);
  fs_shape := shape_observe (fs_shape s) text;
  fs_numMin := match num with
               | Some f => if negb (fs_hasNumeric s) || fltb f (fs_numMin s) then f else fs_numMin s
               | None => fs_numMin s
               end;
  fs_numMax := match num with
               | Some f => if negb (fs_hasNumeric s) || fltb (fs_numMax s) f then f else fs_numMax s
               | None => fs_numMax s
               end;
  fs_hasNumeric := fs_hasNumeric s || bool_decide (is_Some num);
  fs_allNumeric := fs_allNumeric s && bool_decide (is_Some num);
  fs_sawNonEmpty := true |}.
Definition count_null (s : fieldState) (null : bool) : fieldState := {|
  fs_cfg := fs_cfg s; fs_count := S (fs_count s);
  fs_nullCount := if null then S (fs_nullCount s) else fs_nullCount s;
  fs_distinct := fs_distinct s; fs_capped := fs_capped s; fs_lenMin := fs_lenMin s; fs_lenMax := fs_lenMax s;
  fs_lenSum := fs_lenSum s; fs_lenN := fs_lenN s; fs_shape := fs_shape s; fs_numMin := fs_numMin s;
  fs_numMax := fs_numMax s; fs_hasNumeric := fs_hasNumeric s; fs_allNumeric := fs_allNumeric s;
  fs_sawNonEmpty := fs_sawNonEmpty s |}.

(** What [observeDataInto] does to one field: [raw] is nil for a missing key. *)
Definition is_null (raw : value) : bool :=
  is_nil raw || ((stringifyValue raw =s? "") && isEmptyScalar raw).
Definition observe_field (max : Z) (s : fieldState) (raw : value) : fieldState :=
  let s := count_null s (is_null raw) in
  if is_null raw then s else observeValue s (stringifyValue raw) raw max.
Definition observeDataInto (fields : gmap string fieldState) (data : vmap) (max : Z) : gmap string fieldState :=
  map_imap (λ name s, Some (observe_field max s (vget name data))) fields.

Definition mergeFrom (range : gmap string nat → list (string * nat)) (max : Z) (s other : fieldState) : fieldState :=
  let '(distinct, capped) :=
    merge_distinct range max (fs_distinct s) (fs_capped s) (fs_distinct other) (fs_capped other) in {|
  fs_cfg := fs_cfg s;
  fs_count := fs_count s + fs_count other;
  fs_nullCount := fs_nullCount s + fs_nullCount other;
  fs_distinct := distinct; fs_capped := capped;
  fs_lenMin := if (0 <? fs_lenN other)%nat && ((fs_lenN s =? 0)%nat || (fs_lenMin other <? fs_lenMin s)%Z)
               then fs_lenMin other else fs_lenMin s;
  fs_lenMax := if (0 <? fs_lenN other)%nat && (fs_lenMax s <? fs_lenMax other)%Z
               then fs_lenMax other else fs_lenMax s;
  fs_lenSum := if (0 <? fs_lenN other)%nat then fs_lenSum s + fs_lenSum other else fs_lenSum s;
  fs_lenN := if (0 <? fs_lenN other)%nat then fs_lenN s + fs_lenN other else fs_lenN s;
  fs_shape := shape_merge (fs_shape s) (fs_shape other);
  fs_numMin := if fs_hasNumeric other && (negb (fs_hasNumeric s) || fltb (fs_numMin other) (fs_numMin s))
               then fs_numMin other else fs_numMin s;
  fs_numMax := if fs_hasNumeric other && (negb (fs_hasNumeric s) || fltb (fs_numMax s) (fs_numMax other))
               then fs_numMax other else fs_numMax s;
  fs_hasNumeric := fs_hasNumeric s || fs_hasNumeric other;
  fs_allNumeric := fs_allNumeric s && fs_allNumeric other;
  fs_sawNonEmpty := fs_sawNonEmpty s || fs_sawNonEmpty other |}.

(** ** The collector *)
Record Collector := {
  cl_cfg : Config;
  cl_committed : gmap string fieldState;
  cl_staged : option (gmap string fieldState);
}.
Definition with_staged (c : Collector) (staged : option (gmap string fieldState)) : Collector :=
  {| cl_cfg := cl_cfg c; cl_committed := cl_committed c; cl_staged := staged |}.
Definition NewCollector `{UC : UnicodeCase} (cfg : Config) : result (option Collector) :=
  cfg ← Normalize cfg;
  if negb (Active cfg) then Ok None
  else Ok (Some {| cl_cfg := cfg; cl_committed := newFieldStates (vc_Fields cfg); cl_staged := None |}).

Definition BeginInput (c : Collector) : Collector :=
  with_staged c (Some (newFieldStates (vc_Fields (cl_cfg c)))).
Definition BeginInputIfNeeded (c : Collector) : Collector :=
  match cl_staged c with None => BeginInput c | Some _ => c end.
Definition CommitInput (range : gmap string nat → list (string * nat)) (c : Collector) : Collector :=
  match cl_staged c with
  | None => c
  | Some staged =>
      {| cl_cfg := cl_cfg c;
         cl_committed := map_imap (λ name s,
           Some (match staged !! name with
                 | Some pending => mergeFrom range (vc_MaxDistinct (cl_cfg c)) s pending
                 | None => s
                 end)) (cl_committed c);
         cl_staged := None |}
  end.
Definition DiscardInput (c : Collector) : Collector := with_staged c None.
Definition ObserveData (c : Collector) (data : vmap) : Collector :=
  let max := vc_MaxDistinct (cl_cfg c) in
  match cl_staged c with
  | Some staged => with_staged c (Some (observeDataInto staged data max))
  | None => {| cl_cfg := cl_cfg c; cl_committed := observeDataInto (cl_committed c) data max; cl_staged := None |}
  end.

(** The record's [extract.data], or the record itself when it has no [extract]. *)
Definition extractDataMap (record : vmap) : option vmap :=
  match mget "extract" record with
  | None => Some record
  | Some (VMap data) => match mget "data" data with Some (VMap inner) => Some inner | _ => None end
  | Some _ => None
  end.
Definition ObserveRecords (c : Collector) (records : list vmap) : Collector :=
  foldl (λ c record, match extractDataMap record with Some data => ObserveData c data | None => c end) c records.

(** ** The guarded snapshot *)
Record LengthStats := { ls_Min : Z; ls_Max : Z; ls_Mean : f64 }.
(** [DistinctCount] is a number or a bound as text. *)
Inductive distinct_count := DCount (n : nat) | DAtLeast (max : Z) | DBelow (threshold : Z).
Record FieldResult := {
  fr_Tier : string;
  fr_Status : string;
  fr_Count : nat;
  fr_NullCount : nat;
  fr_DistinctCount : distinct_count;
  fr_Distinct : option (gmap string nat);
  fr_Shape : string;
  fr_Length : option LengthStats;
  fr_Min : option f64;
  fr_Max : option f64;
}.

Definition neverEnumerateTags : list string :=
  ["direct_identifier"; "source_structure"; "opaque_payload"; "access_control_metadata"].
Definition allowsTierA (f : FieldConfig) : bool :=
  fc_SafeToProfile f && ((fc_Sensitivity f =s? "public") || (fc_Sensitivity f =s? "internal"))
  && negb (existsb (hasTag neverEnumerateTags) (fc_ProtectionTags f)).
Definition quasi (f : FieldConfig) : bool :=
  hasTag (fc_ProtectionTags f) "quasi_identifier" || hasTag (fc_ProtectionTags f) "linkage_key".
Definition suppressSmallCells (threshold : Z) (m : gmap string nat) : gmap string nat :=
  if (threshold <=? 1)%Z then m else filter (λ kv, threshold ≤ Z.of_nat kv.2)%Z m.
Definition shapeClass (s : fieldState) : string :=
  let tags := fc_ProtectionTags (fs_cfg s) in
  if hasTag tags "source_structure" || hasTag tags "direct_identifier" then "opaque_string"
  else if negb (fs_sawNonEmpty s) then "freeform"
  else if fs_allNumeric s && fs_hasNumeric s then "all_numeric"
  else shape_class (fs_shape s).

Definition tier_a (cfg : Config) (s : fieldState) (status : string) (m : gmap string nat) : FieldResult :=
  let range (x : f64) := if fs_hasNumeric s && fs_allNumeric s then Some x else None in {|
  fr_Tier := "enumeration"; fr_Status := status; fr_Count := fs_count s; fr_NullCount := fs_nullCount s;
  fr_DistinctCount := DCount (size m);
  fr_Distinct := Some (if quasi (fs_cfg s) then suppressSmallCells (vc_SmallCellThreshold cfg) m else m);
  fr_Shape := ""; fr_Length := None; fr_Min := range (fs_numMin s); fr_Max := range (fs_numMax s) |}.
Definition tier_b (cfg : Config) (s : fieldState) (status : string) : FieldResult := {|
  fr_Tier := "aggregates"; fr_Status := status; fr_Count := fs_count s; fr_NullCount := fs_nullCount s;
  fr_DistinctCount :=
    if fs_capped s then DAtLeast (vc_MaxDistinct cfg)
    else match fs_distinct s with
         | Some m =>
             if quasi (fs_cfg s) && (0 <? size m)%nat && (Z.of_nat (size m) <? vc_SmallCellThreshold cfg)%Z
             then DBelow (vc_SmallCellThreshold cfg) else DCount (size m)
         | None => DCount 0
         end;
  fr_Distinct := None; fr_Shape := shapeClass s;
  fr_Length := if (0 <? fs_lenN s)%nat then
                 Some {| ls_Min := fs_lenMin s; ls_Max := fs_lenMax s;
                         ls_Mean := fdiv (f_of_Z (fs_lenSum s)) (f_of_Z (Z.of_nat (fs_lenN s))) |}
               else None;
  fr_Min := None; fr_Max := None |}.
Definition field_result (cfg : Config) (s : fieldState) : FieldResult :=
  let status := if fs_capped s then "high_cardinality_capped" else "complete" in
  match fs_distinct s with
  | Some m => if allowsTierA (fs_cfg s) && negb (fs_capped s) then tier_a cfg s status m else tier_b cfg s status
  | None => tier_b cfg s status
  end.

Record Profile := {
  pr_MaxDistinct : Z;
  pr_SmallCellThreshold : Z;
  pr_Fields : gmap string FieldResult;
}.
Definition Snapshot (c : Collector) : Profile := {|
  pr_MaxDistinct := vc_MaxDistinct (cl_cfg c);
  pr_SmallCellThreshold := vc_SmallCellThreshold (cl_cfg c);
  pr_Fields := field_result (cl_cfg c) <$> cl_committed c |}.
