(* ===== verification/ValueProfileSpec.v ===== *)
(** * Value profiles: what is published

    A profile says of the durable records what a count over all of them says,
    however they were staged, and lists no value the guard does not allow. *)
From Stdlib Require Import Ascii ZArith Lia SpecFloat.
From stdpp Require Import base list strings gmap sets.
From S2P Require Import Prelude GoStrings GoFloat GoStrconv GoValue ValueProfile.

(** ** Adding up tallies *)
Definition madd (m m' : gmap string nat) : gmap string nat := union_with (λ a b, Some (a + b)) m m'.

Lemma lookup_madd m m' k :
  madd m m' !! k = match m !! k, m' !! k with
                   | Some a, Some b => Some (a + b) | Some a, None => Some a | None, o => o end.
Proof. unfold madd. rewrite lookup_union_with. by destruct (m !! k), (m' !! k). Qed.
Lemma madd_empty_r m : madd m ∅ = m.
Proof. apply map_eq. intros k. rewrite lookup_madd, lookup_empty. by destruct (m !! k). Qed.
Lemma madd_insert m m' k n :
  m' !! k = None → madd m (<[k := n]> m') = madd (<[k := default 0 (m !! k) + n]> m) m'.
Proof.
  intros Hk. apply map_eq. intros j. rewrite !lookup_madd. destruct (decide (j = k)) as [->|Hne].
  - rewrite !lookup_insert_eq, Hk. by destruct (m !! k).
  - by rewrite !lookup_insert_ne.
Qed.
Lemma madd_incr m m' k n :
  m' !! k = Some n → madd m (<[k := S n]> m') = <[k := S (default 0 (m !! k) + n)]> (madd m m').
Proof.
  intros Hk. apply map_eq. intros j. rewrite lookup_madd. destruct (decide (j = k)) as [->|Hne].
  - rewrite !lookup_insert_eq. destruct (m !! k); cbn; f_equal; lia.
  - by rewrite !lookup_insert_ne, lookup_madd.
Qed.
Lemma size_madd m m' : size (madd m m') = size (dom m ∪ dom m').
Proof.
  rewrite <- size_dom. f_equal. apply set_eq. intros k. rewrite elem_of_union, !elem_of_dom, lookup_madd.
  destruct (m !! k), (m' !! k); unfold is_Some; naive_solver.
Qed.
Lemma size_madd_l m m' : size m ≤ size (madd m m').
Proof. rewrite size_madd, <- size_dom. apply subseteq_size. set_solver. Qed.
Lemma size_madd_r m m' : size m' ≤ size (madd m m').
Proof. rewrite size_madd, <- size_dom. apply subseteq_size. set_solver. Qed.

Section range.
(** [range] visits the entries of a map once each. *)
Context (range : gmap string nat → list (string * nat)) (Hrange : ∀ m, range m ≡ₚ map_to_list m).
Context (max : Z).

Lemma merge_entries_spec m entries :
  NoDup entries.*1 → (Z.of_nat (size m) ≤ max)%Z →
  merge_entries max m entries =
  let u := madd m (list_to_map entries) in
  if (max <? Z.of_nat (size u))%Z then (None, true) else (Some u, false).
Proof.
  revert m. induction entries as [|[k n] entries IH]; intros m Hnd Hm; cbn [merge_entries list_to_map foldr].
  { change (list_to_map []) with (∅ : gmap string nat). rewrite madd_empty_r. cbv zeta.
    by rewrite (proj2 (Z.ltb_ge _ _) Hm). }
  cbn [fmap list_fmap fst] in Hnd. apply NoDup_cons in Hnd as [Hk Hnd]. cbn [uncurry fst snd].
  assert ((list_to_map entries : gmap string nat) !! k = None) as Hl by (by apply not_elem_of_list_to_map_1).
  cbv zeta in *. rewrite madd_insert by done. destruct (Z.ltb_spec max (Z.of_nat (size (<[k := default 0 (m !! k) + n]> m)))) as [Hlt|Hle].
  - rewrite (proj2 (Z.ltb_lt _ _)); [done|]. pose proof (size_madd_l (<[k := default 0 (m !! k) + n]> m) (list_to_map entries)). lia.
  - by rewrite IH.
Qed.

Lemma merge_range m m' :
  (Z.of_nat (size m) ≤ max)%Z →
  merge_entries max m (range m') = if (max <? Z.of_nat (size (madd m m')))%Z then (None, true) else (Some (madd m m'), false).
Proof.
  intros Hm. assert (NoDup (range m').*1) as Hnd by (rewrite Hrange; apply NoDup_fst_map_to_list).
  rewrite merge_entries_spec by done. cbv zeta.
  rewrite (list_to_map_proper _ (map_to_list m')), list_to_map_to_list; done.
Qed.

(** What a field's map and cap hold together. *)
Definition tally_ok (d : option (gmap string nat)) (capped : bool) : Prop :=
  if capped then d = None else ∃ m, d = Some m ∧ (Z.of_nat (size m) ≤ max)%Z.

Lemma observe_tally_ok d c text : tally_ok d c → tally_ok (observe_distinct max d c text).1 (observe_distinct max d c text).2.
Proof.
  unfold observe_distinct, tally_ok. destruct c; [done|]. intros (m & -> & Hm). cbn [from_option id].
  destruct (m !! text) as [n|] eqn:Ht; cbn [fst snd].
  - exists (<[text := S n]> m). split; [done|]. rewrite map_size_insert_Some; done.
  - destruct (Z.leb_spec max (Z.of_nat (size m))); cbn [fst snd]; [done|].
    eexists. split; [done|]. rewrite map_size_insert_None by done. lia.
Qed.

(** Observing a value before or behind a merge makes no difference. *)
Lemma merge_observe_distinct d c d' c' text :
  tally_ok d c → tally_ok d' c' →
  let '(e, b) := observe_distinct max d' c' text in
  let '(e', b') := merge_distinct range max d c d' c' in
  merge_distinct range max d c e b = observe_distinct max e' b' text.
Proof.
  intros Hok Hok'. destruct c.
  { cbn in Hok |- *. by destruct (observe_distinct max d' c' text). }
  destruct c'; [done|]. destruct Hok as (m & -> & Hm), Hok' as (m' & -> & Hm').
  unfold observe_distinct, merge_distinct at 1 2. cbn [from_option id].
  rewrite (merge_range m m') by done. destruct (m' !! text) as [n|] eqn:Ht.
  - unfold merge_distinct. cbn [from_option id]. rewrite (merge_range m) by done. rewrite madd_incr by done.
    assert (madd m m' !! text = Some (default 0 (m !! text) + n)) as Hu
      by (rewrite lookup_madd, Ht; by destruct (m !! text)).
    rewrite map_size_insert_Some by done.
    destruct (Z.ltb_spec max (Z.of_nat (size (madd m m')))); [done|]. cbn [from_option id]. by rewrite Hu.
  - pose proof (size_madd_r m m') as Hr.
    destruct (Z.leb_spec max (Z.of_nat (size m'))) as [Hfull|Hroom]; cbn [merge_distinct].
    + destruct (Z.ltb_spec max (Z.of_nat (size (madd m m')))) as [|Hle]; [done|]. cbn [from_option id].
      assert (madd m m' !! text = None) as Hu.
      { rewrite lookup_madd, Ht. destruct (m !! text) eqn:Hmt; [|done]. exfalso.
        assert (dom m' ∪ {[text]} ⊆ dom m ∪ dom m') as Hsub by (apply elem_of_dom_2 in Hmt; set_solver).
        apply subseteq_size in Hsub. rewrite <- size_madd, size_union, size_singleton, size_dom in Hsub; [lia|].
        apply not_elem_of_dom in Ht. set_solver. }
      rewrite Hu, (proj2 (Z.leb_le _ _)); [done|lia].
    + cbn [from_option id]. rewrite (merge_range m) by done.
      rewrite madd_insert by done. replace (default 0 (m !! text) + 1) with (S (default 0 (m !! text))) by lia.
      destruct (m !! text) as [k|] eqn:Hmt; cbn [from_option id].
      * assert (madd m m' !! text = Some k) as Hu by (by rewrite lookup_madd, Hmt, Ht).
        assert (madd (<[text := S k]> m) m' = <[text := S k]> (madd m m')) as ->.
        { apply map_eq. intros j. rewrite lookup_madd. destruct (decide (j = text)) as [->|].
          - by rewrite !lookup_insert_eq, Ht.
          - by rewrite !lookup_insert_ne, lookup_madd. }
        rewrite map_size_insert_Some by done.
        destruct (Z.ltb_spec max (Z.of_nat (size (madd m m')))); [done|]. cbn [from_option id]. by rewrite Hu.
      * assert (madd m m' !! text = None) as Hu by (by rewrite lookup_madd, Hmt, Ht).
        assert (madd (<[text := 1]> m) m' = <[text := 1]> (madd m m')) as ->.
        { apply map_eq. intros j. rewrite lookup_madd. destruct (decide (j = text)) as [->|].
          - by rewrite !lookup_insert_eq, Ht.
          - by rewrite !lookup_insert_ne, lookup_madd. }
        rewrite map_size_insert_None by done.
        destruct (Z.ltb_spec max (Z.of_nat (size (madd m m')))) as [Hlt|Hle].
        { rewrite (proj2 (Z.ltb_lt _ _)); [done|lia]. }
        cbn [from_option id]. rewrite Hu. destruct (Z.leb_spec max (Z.of_nat (size (madd m m')))) as [Hf|Hf].
        { rewrite (proj2 (Z.ltb_lt _ _)); [done|lia]. }
        rewrite (proj2 (Z.ltb_ge _ _)); [done|lia].
Qed.
End range.

(** ** Texts are not empty *)
Lemma digits_go_length fuel n acc : slen acc ≤ slen (digits_go fuel n acc).
Proof.
  revert n acc. induction fuel as [|fuel IH]; intros n acc; cbn [digits_go]; [done|].
  destruct (n <? 10)%Z; [cbn; lia|]. etransitivity; [|apply IH]. cbn. lia.
Qed.
Lemma digits_of_nonempty n : digits_of n ≠ "".
Proof.
  unfold digits_of. cbn [digits_go]. intros H. apply (f_equal slen) in H. destruct (n <? 10)%Z; [done|].
  pose proof (digits_go_length (Z.to_nat (Z.log2 n)) (n / 10) (String (bchr (48 + n mod 10)) "")) as Hl.
  rewrite H in Hl. cbn in Hl. lia.
Qed.
Lemma sapp_nonempty_r a b : b ≠ "" → a +:+ b ≠ "".
Proof. destruct a; [done|]. by rewrite sapp_cons. Qed.
Lemma sapp_nonempty_l a b : a ≠ "" → a +:+ b ≠ "".
Proof. destruct a; [done|]. by rewrite sapp_cons. Qed.
Lemma itoa_nonempty z : itoa z ≠ "".
Proof. unfold itoa. destruct (z <? 0)%Z; [apply sapp_nonempty_l; done|apply digits_of_nonempty]. Qed.
Lemma srepeat_nonempty n : 0 < n → srepeat "0" n ≠ "".
Proof. destruct n; [lia|done]. Qed.
Lemma format_float_nonempty x : format_float x ≠ "".
Proof.
  destruct x as [s|s| |s m e]; try done; [by destruct s..|]. unfold format_float.
  destruct (shortest (S754_finite s m e)) as [d k]. set (digs := trim_zeros _). set (exp := (_ + k - 1)%Z).
  cbv zeta. apply sapp_nonempty_r. destruct ((exp <? -4)%Z || (6 <=? exp)%Z) eqn:Hexp.
  { do 2 apply sapp_nonempty_r. by apply sapp_nonempty_l. }
  destruct (Z.ltb_spec exp 0); [by apply sapp_nonempty_l|]. destruct (Nat.leb_spec (slen digs) (Z.to_nat (exp + 1))).
  - destruct digs; [|done]. apply srepeat_nonempty. cbn. lia.
  - by apply sapp_nonempty_r, sapp_nonempty_l.
Qed.
Lemma stringify_nonempty v : is_null v = false → stringifyValue v ≠ "".
Proof.
  unfold is_null. destruct v as [|b|s|k z|f|f|l|l|l|m|m]; cbn [is_nil orb stringifyValue isEmptyScalar]; try done.
  - by destruct b.
  - by destruct (eqs_spec s "").
  - intros _. apply itoa_nonempty.
  - intros _. unfold stringify_float. case_match; [apply itoa_nonempty|apply format_float_nonempty].
  - intros _. unfold stringify_float. case_match; [apply itoa_nonempty|apply format_float_nonempty].
Qed.

(** ** Merging is observing *)
Section merge.
Context (range : gmap string nat → list (string * nat)) (Hrange : ∀ m, range m ≡ₚ map_to_list m).
Context (max : Z).

(** With [exact] unset two states are compared up to the numeric range, which
    depends on the order of the observations when one of them is NaN. *)
Definition view (exact : bool) (s : fieldState) : fieldState :=
  if exact then s else {|
  fs_cfg := fs_cfg s; fs_count := fs_count s; fs_nullCount := fs_nullCount s; fs_distinct := fs_distinct s;
  fs_capped := fs_capped s; fs_lenMin := fs_lenMin s; fs_lenMax := fs_lenMax s; fs_lenSum := fs_lenSum s;
  fs_lenN := fs_lenN s; fs_shape := fs_shape s; fs_numMin := fzero; fs_numMax := fzero;
  fs_hasNumeric := fs_hasNumeric s; fs_allNumeric := fs_allNumeric s; fs_sawNonEmpty := fs_sawNonEmpty s |}.

Definition shape_ok (a : shapeAccumulator) : Prop :=
  sh_empty a = false ∧
  if sh_init a then sh_free a = negb (sh_uuid a) && negb (sh_email a)
  else sh_uuid a = false ∧ sh_email a = false ∧ sh_free a = false.
Definition range_ok (has : bool) (lo hi : f64) : Prop :=
  if has then is_nan lo = false ∧ is_nan hi = false else lo = fzero ∧ hi = fzero.
Record state_ok (s : fieldState) : Prop := {
  ok_tally : tally_ok max (fs_distinct s) (fs_capped s);
  ok_len : fs_lenN s = 0 → fs_lenMin s = MaxInt ∧ fs_lenMax s = 0%Z ∧ fs_lenSum s = 0%Z;
  ok_lenMin : (fs_lenMin s ≤ MaxInt)%Z;
  ok_lenMax : (0 ≤ fs_lenMax s)%Z;
  ok_shape : shape_ok (fs_shape s);
}.
Definition number_ok (v : value) : Prop := match toFloat v with Some f => is_nan f = false | None => True end.
Definition nums_ok (s : fieldState) : Prop := range_ok (fs_hasNumeric s) (fs_numMin s) (fs_numMax s).

Lemma shape_observe_ok a text : text ≠ "" → shape_ok a → shape_ok (shape_observe a text).
Proof.
  unfold shape_ok, shape_observe. destruct (eqs_spec text ""); [done|]. intros _ [He Hi].
  cbn [sh_empty sh_init sh_free sh_uuid sh_email]. split; [done|]. destruct (sh_init a); [|done].
  rewrite Hi. by destruct (sh_uuid a), (sh_email a), (is_uuid text), (is_email text).
Qed.
Lemma merge_observe_shape a o text :
  text ≠ "" → shape_ok a → shape_ok o → shape_merge a (shape_observe o text) = shape_observe (shape_merge a o) text.
Proof.
  unfold shape_ok, shape_observe, shape_merge. destruct (eqs_spec text ""); [done|]. intros _ [Ha Ha'] [Ho Ho'].
  destruct a as [u e f em i], o as [u' e' f' em' i'].
  cbn [sh_empty sh_init sh_free sh_uuid sh_email negb andb] in *. subst em em'.
  destruct i, i'; cbn [negb andb orb]; try (destruct Ha' as (-> & -> & ->)); try (destruct Ho' as (-> & -> & ->));
    subst; cbn [sh_empty sh_init sh_free sh_uuid sh_email]; try done.
  by destruct u, e, u', e', (is_uuid text), (is_email text).
Qed.

(** The smaller of two numbers, by a strict comparison, whichever way they are
    bracketed. *)
Definition keep_low (lt : f64 → f64 → bool) (has : bool) (x : f64) (has' : bool) (y : f64) : f64 :=
  if has' && (negb has || lt y x) then y else x.
Lemma keep_low_assoc (lt : f64 → f64 → bool) h1 x h2 y z :
  (∀ a b c, lt a b = true → lt b c = true → lt a c = true) →
  (∀ a b c, is_nan a = false → is_nan b = false → is_nan c = false →
            lt a b = false → lt b c = false → lt a c = false) →
  (h1 = true → is_nan x = false) → (h2 = true → is_nan y = false) → is_nan z = false →
  keep_low lt h1 x true (keep_low lt h2 y true z) = keep_low lt (h1 || h2) (keep_low lt h1 x h2 y) true z.
Proof.
  intros Htr Hneg Hx Hy Hz. unfold keep_low. destruct h1, h2; cbn [negb andb orb]; [| |done|done].
  - specialize (Hx eq_refl). specialize (Hy eq_refl). destruct (lt z y) eqn:Hzy, (lt y x) eqn:Hyx.
    + by rewrite (Htr z y x), Hzy.
    + done.
    + by rewrite ?Hyx, ?Hzy.
    + by rewrite ?Hyx, (Hneg z y x).
  - done.
Qed.

Lemma fltb_neg_trans a b c :
  is_nan a = false → is_nan b = false → is_nan c = false → fltb a b = false → fltb b c = false → fltb a c = false.
Proof.
  intros Ha Hb Hc Hab Hbc. apply not_true_is_false. intros Hac.
  apply fltb_false_fleb in Hab, Hbc; [|done..]. apply fleb_key in Hab as (kb & ka & Hkb & Hka & Hab).
  apply fleb_key in Hbc as (kc & kb' & Hkc & Hkb' & Hbc). apply fltb_key in Hac as (ka' & kc' & Hka' & Hkc' & Hac).
  simplify_eq. unfold lt3 in *. lia.
Qed.

(** The numeric range of a state after one more number. *)
Lemma merge_observe_min h1 x h2 y num :
  (h1 = true → is_nan x = false) → (h2 = true → is_nan y = false) → from_option (λ f, is_nan f = false) True num →
  (if (h2 || bool_decide (is_Some num)) && (negb h1 || fltb (match num with
       Some f => if negb h2 || fltb f y then f else y | None => y end) x)
   then match num with Some f => if negb h2 || fltb f y then f else y | None => y end else x)
  = match num with
    | Some f => if negb (h1 || h2) || fltb f (if h2 && (negb h1 || fltb y x) then y else x) then f
                else (if h2 && (negb h1 || fltb y x) then y else x)
    | None => if h2 && (negb h1 || fltb y x) then y else x
    end.
Proof.
  intros Hx Hy Hz. destruct num as [f|]; cbn [bool_decide is_Some].
  - rewrite (bool_decide_eq_true_2 (is_Some (Some f))), orb_true_r by done.
    exact (keep_low_assoc fltb h1 x h2 y f fltb_trans fltb_neg_trans Hx Hy Hz).
  - rewrite (bool_decide_eq_false_2 (is_Some None)), orb_false_r by (by intros [? ?]). done.
Qed.
Lemma merge_observe_max h1 x h2 y num :
  (h1 = true → is_nan x = false) → (h2 = true → is_nan y = false) → from_option (λ f, is_nan f = false) True num →
  (if (h2 || bool_decide (is_Some num)) && (negb h1 || fltb x (match num with
       Some f => if negb h2 || fltb y f then f else y | None => y end))
   then match num with Some f => if negb h2 || fltb y f then f else y | None => y end else x)
  = match num with
    | Some f => if negb (h1 || h2) || fltb (if h2 && (negb h1 || fltb x y) then y else x) f then f
                else (if h2 && (negb h1 || fltb x y) then y else x)
    | None => if h2 && (negb h1 || fltb x y) then y else x
    end.
Proof.
  intros Hx Hy Hz. destruct num as [f|]; cbn [bool_decide is_Some].
  - rewrite (bool_decide_eq_true_2 (is_Some (Some f))), orb_true_r by done.
    refine (keep_low_assoc (λ a b, fltb b a) h1 x h2 y f _ _ Hx Hy Hz); eauto using fltb_trans, fltb_neg_trans.
  - rewrite (bool_decide_eq_false_2 (is_Some None)), orb_false_r by (by intros [? ?]). done.
Qed.

Lemma nums_ok_not_nan s : nums_ok s → fs_hasNumeric s = true → is_nan (fs_numMin s) = false ∧ is_nan (fs_numMax s) = false.
Proof. unfold nums_ok, range_ok. intros H Hh. by rewrite Hh in H. Qed.

(** The lengths. *)
Lemma merge_len_min n1 lo1 n2 lo2 :
  (n1 = 0 → lo1 = MaxInt) → (n2 = 0 → lo2 = MaxInt) → (lo1 ≤ MaxInt)%Z → (lo2 ≤ MaxInt)%Z →
  (if (0 <? n2)%nat && ((n1 =? 0)%nat || (lo2 <? lo1)%Z) then lo2 else lo1) = Z.min lo2 lo1.
Proof.
  intros H1 H2 Hm1 Hm2. destruct (Nat.ltb_spec 0 n2), (Nat.eqb_spec n1 0), (Z.ltb_spec lo2 lo1); cbn [andb orb]; lia.
Qed.
Lemma merge_len_max n2 hi1 hi2 :
  (n2 = 0 → hi2 = 0%Z) → (0 ≤ hi1)%Z → (if (0 <? n2)%nat && (hi1 <? hi2)%Z then hi2 else hi1) = Z.max hi1 hi2.
Proof. intros H2 H. destruct (Nat.ltb_spec 0 n2), (Z.ltb_spec hi1 hi2); cbn [andb]; lia. Qed.
Lemma ltb_min a b : (if (a <? b)%Z then a else b) = Z.min a b.
Proof. destruct (Z.ltb_spec a b); lia. Qed.
Lemma ltb_max a b : (if (a <? b)%Z then b else a) = Z.max a b.
Proof. destruct (Z.ltb_spec a b); lia. Qed.

Lemma merge_observe_value s o x text :
  text ≠ "" → state_ok s → state_ok o → nums_ok s → nums_ok o → number_ok x →
  mergeFrom range max s (observeValue o text x max) = observeValue (mergeFrom range max s o) text x max.
Proof.
  intros Ht Hs Ho Hns Hno Hx.
  pose proof (merge_observe_distinct range Hrange max _ _ _ _ text (ok_tally _ Hs) (ok_tally _ Ho)) as Hd.
  assert (from_option (λ f, is_nan f = false) True (toFloat x)) as Hx'
    by (unfold number_ok in Hx; by destruct (toFloat x)).
  pose proof (merge_observe_min (fs_hasNumeric s) (fs_numMin s) (fs_hasNumeric o) (fs_numMin o) (toFloat x)
    (λ H, proj1 (nums_ok_not_nan s Hns H)) (λ H, proj1 (nums_ok_not_nan o Hno H)) Hx') as Hmin.
  pose proof (merge_observe_max (fs_hasNumeric s) (fs_numMax s) (fs_hasNumeric o) (fs_numMax o) (toFloat x)
    (λ H, proj2 (nums_ok_not_nan s Hns H)) (λ H, proj2 (nums_ok_not_nan o Hno H)) Hx') as Hmax.
  unfold mergeFrom, observeValue. destruct (observe_distinct max (fs_distinct o) (fs_capped o) text) as [e b].
  cbn [fs_cfg fs_count fs_nullCount fs_distinct fs_capped fs_lenMin fs_lenMax fs_lenSum fs_lenN fs_shape
       fs_numMin fs_numMax fs_hasNumeric fs_allNumeric fs_sawNonEmpty].
  destruct (merge_distinct range max (fs_distinct s) (fs_capped s) (fs_distinct o) (fs_capped o)) as [e' b'].
  cbn [fs_cfg fs_count fs_nullCount fs_distinct fs_capped fs_lenMin fs_lenMax fs_lenSum fs_lenN fs_shape
       fs_numMin fs_numMax fs_hasNumeric fs_allNumeric fs_sawNonEmpty].
  rewrite Hd. destruct (observe_distinct max e' b' text) as [e'' b''].
  rewrite Hmin, Hmax, (merge_observe_shape _ _ _ Ht (ok_shape _ Hs) (ok_shape _ Ho)), !orb_assoc, !andb_assoc, orb_true_r.
  pose proof (ok_len _ Hs) as Hls. pose proof (ok_len _ Ho) as Hlo. pose proof (ok_lenMin _ Hs). pose proof (ok_lenMin _ Ho).
  pose proof (ok_lenMax _ Hs). pose proof (ok_lenMax _ Ho).
  rewrite !ltb_min, !ltb_max.
  rewrite (merge_len_min (fs_lenN s) (fs_lenMin s) (fs_lenN o) (fs_lenMin o)) by naive_solver.
  rewrite (merge_len_min (fs_lenN s) (fs_lenMin s) (S (fs_lenN o))) by (naive_solver lia).
  rewrite (merge_len_max (fs_lenN o)), (merge_len_max (S (fs_lenN o))) by naive_solver.
  change (0 <? S (fs_lenN o)) with true. cbv iota. f_equal; try lia.
  - destruct (Nat.ltb_spec 0 (fs_lenN o)) as [|Hz]; [lia|]. destruct (Hlo ltac:(lia)) as (_ & _ & ->). lia.
  - destruct (Nat.ltb_spec 0 (fs_lenN o)) as [|Hz]; lia.
Qed.

(** A value as the exact-range comparison sees it. *)
Definition blank (x : value) : value := if toFloat x then VFloat fzero else VNil.
Lemma view_observe s text x :
  view false (observeValue s text x max) = view false (observeValue (view false s) text (blank x) max).
Proof.
  unfold observeValue, blank. cbn [view fs_distinct fs_capped].
  destruct (observe_distinct max (fs_distinct s) (fs_capped s) text). by destruct (toFloat x).
Qed.
Lemma view_merge s o : view false (mergeFrom range max s o) = view false (mergeFrom range max (view false s) (view false o)).
Proof.
  unfold mergeFrom. cbn [view fs_distinct fs_capped].
  by destruct (merge_distinct range max (fs_distinct s) (fs_capped s) (fs_distinct o) (fs_capped o)).
Qed.
Lemma view_state_ok s : state_ok s → state_ok (view false s).
Proof. by intros []. Qed.
Lemma view_nums_ok s : nums_ok (view false s).
Proof. unfold nums_ok, range_ok. cbn. by destruct (fs_hasNumeric s). Qed.
Lemma blank_ok x : number_ok (blank x).
Proof. unfold number_ok, blank. by destruct (toFloat x). Qed.
Lemma view_idemp exact s : view exact (view exact s) = view exact s.
Proof. by destruct exact. Qed.
Lemma view_observe_field exact s x : view exact (observe_field max s x) = view exact (observe_field max (view exact s) x).
Proof.
  destruct exact; [done|]. unfold observe_field. destruct (is_null x); [done|].
  rewrite view_observe. symmetry. by rewrite view_observe.
Qed.

Lemma blank_blank x : blank (blank x) = blank x.
Proof. unfold blank. by destruct (toFloat x). Qed.
Lemma merge_observe_view s o x text :
  text ≠ "" → state_ok s → state_ok o →
  view false (mergeFrom range max s (observeValue o text x max)) = view false (observeValue (mergeFrom range max s o) text x max).
Proof.
  intros Ht Hs Ho. pose proof (merge_observe_value (view false s) (view false o) (blank x) text Ht (view_state_ok _ Hs)
    (view_state_ok _ Ho) (view_nums_ok s) (view_nums_ok o) (blank_ok x)) as H.
  apply (f_equal (view false)) in H. rewrite view_merge, view_observe, <- (view_idemp false s), <- view_merge, H.
  rewrite view_observe, blank_blank. symmetry. by rewrite view_observe, view_merge.
Qed.

Lemma merge_count_null s o null :
  mergeFrom range max s (count_null o null) = count_null (mergeFrom range max s o) null.
Proof.
  unfold mergeFrom, count_null. cbn [fs_distinct fs_capped].
  destruct (merge_distinct range max (fs_distinct s) (fs_capped s) (fs_distinct o) (fs_capped o)).
  cbn [fs_cfg fs_count fs_nullCount fs_distinct fs_capped fs_lenMin fs_lenMax fs_lenSum
    fs_lenN fs_shape fs_numMin fs_numMax fs_hasNumeric fs_allNumeric fs_sawNonEmpty].
  f_equal; (destruct null; lia).
Qed.
Lemma merge_observe exact s o x :
  state_ok s → state_ok o → (exact = true → nums_ok s ∧ nums_ok o ∧ number_ok x) →
  view exact (mergeFrom range max s (observe_field max o x)) = view exact (observe_field max (mergeFrom range max s o) x).
Proof.
  intros Hs Ho Hn. unfold observe_field. rewrite <- merge_count_null. destruct (is_null x) eqn:Hnull; [done|].
  apply stringify_nonempty in Hnull. assert (state_ok (count_null o false)) as Ho' by (by destruct Ho).
  destruct exact; [|by apply merge_observe_view]. destruct (Hn eq_refl) as (? & ? & ?). cbn [view].
  by rewrite merge_observe_value.
Qed.

(** ** A field's state over a column of values *)
Definition field_state (f : FieldConfig) (column : list value) : fieldState :=
  foldl (observe_field max) (newFieldState f) column.

Lemma observe_ok s x : state_ok s → state_ok (observe_field max s x).
Proof.
  intros [Ht Hl Hlo Hhi Hsh]. unfold observe_field. destruct (is_null x) eqn:Hnull; [done|].
  apply stringify_nonempty in Hnull. unfold observeValue. pose proof (observe_tally_ok max _ _ (stringifyValue x) Ht) as Ht'.
  cbn [count_null fs_distinct fs_capped]. destruct (observe_distinct _ _ _ _) as [e b].
  split; cbn [fs_distinct fs_capped fs_lenN fs_lenMin fs_lenMax fs_lenSum fs_shape count_null];
    [done|done|rewrite ltb_min; lia|rewrite ltb_max; lia|by apply shape_observe_ok].
Qed.
Lemma observe_nums_ok s x : nums_ok s → number_ok x → nums_ok (observe_field max s x).
Proof.
  unfold nums_ok, number_ok, observe_field. intros Hs Hx. destruct (is_null x); [done|]. unfold observeValue.
  destruct (observe_distinct _ _ _ _) as [e b]. cbn [count_null fs_hasNumeric fs_numMin fs_numMax].
  destruct (toFloat x) as [y|]; cbn [from_option bool_decide is_Some].
  - rewrite (bool_decide_eq_true_2 (is_Some (Some y))), orb_true_r by done. unfold range_ok in *.
    destruct (fs_hasNumeric s); cbn [negb orb]; [|done]. destruct Hs. by repeat case_match.
  - rewrite (bool_decide_eq_false_2 (is_Some None)), orb_false_r by (by intros [? ?]). done.
Qed.
Lemma new_ok f : (0 ≤ max)%Z → state_ok (newFieldState f).
Proof. intros Hmax. split; try done. exists ∅. by split. Qed.
Lemma field_state_ok f column : (0 ≤ max)%Z → state_ok (field_state f column).
Proof.
  intros Hmax. unfold field_state. induction column as [|x column IH] using rev_ind; [by apply new_ok|].
  rewrite foldl_snoc. by apply observe_ok.
Qed.
Lemma field_nums_ok f column : Forall number_ok column → nums_ok (field_state f column).
Proof.
  unfold field_state. induction column as [|x column IH] using rev_ind; [done|].
  rewrite Forall_app, foldl_snoc. intros [H1 H2]. apply observe_nums_ok; [by apply IH|by apply Forall_inv in H2].
Qed.
Lemma merge_new s f : state_ok s → mergeFrom range max s (newFieldState f) = s.
Proof.
  intros [Ht _ _ _ [Hsh _]]. unfold mergeFrom, newFieldState. cbn [fs_distinct fs_capped].
  assert (merge_distinct range max (fs_distinct s) (fs_capped s) (Some ∅) false = (fs_distinct s, fs_capped s)) as ->.
  { unfold merge_distinct. destruct (fs_capped s); [done|]. destruct Ht as (m & -> & Hm). cbn [from_option id].
    rewrite (merge_range range Hrange) by done. by rewrite madd_empty_r, (proj2 (Z.ltb_ge _ _)). }
  cbn [fs_count fs_nullCount fs_lenN fs_shape fs_hasNumeric fs_allNumeric fs_sawNonEmpty fs_lenMin fs_lenMax fs_lenSum fs_numMin fs_numMax].
  change (0 <? 0) with false. cbn [andb]. rewrite !orb_false_r, andb_true_r, !Nat.add_0_r.
  unfold shape_merge. cbn [sh_init sh_empty negb andb]. by destruct s.
Qed.
(** An input that is staged and merged counts as if it had been observed. *)
Lemma merge_states exact f f' c1 c2 :
  (0 ≤ max)%Z → (exact = true → Forall number_ok (c1 ++ c2)) →
  view exact (mergeFrom range max (field_state f c1) (field_state f' c2)) = view exact (field_state f (c1 ++ c2)).
Proof.
  intros Hmax. induction c2 as [|x c2 IH] using rev_ind; intros Hn.
  { rewrite app_nil_r. change (field_state f' []) with (newFieldState f'). by rewrite merge_new by (by apply field_state_ok). }
  assert (∀ g c, field_state g (c ++ [x]) = observe_field max (field_state g c) x) as Hsnoc by (intros; apply foldl_snoc).
  rewrite app_assoc, !Hsnoc, merge_observe.
  - rewrite view_observe_field, IH, <- view_observe_field; [done|]. intros He. specialize (Hn He).
    rewrite app_assoc in Hn. by apply Forall_app in Hn as [? _].
  - by apply field_state_ok.
  - by apply field_state_ok.
  - intros He. specialize (Hn He). rewrite !Forall_app in Hn. destruct Hn as (? & ? & Hx). apply Forall_inv in Hx.
    split_and!; [by apply field_nums_ok..|done].
Qed.
End merge.

(** ** Runs *)

(** What a run does to its collector. *)
Inductive op :=
| OpBegin
| OpBeginIfNeeded
| OpRecords (records : list vmap)
| OpCommit
| OpDiscard.
Definition run_op (range : gmap string nat → list (string * nat)) (c : Collector) (o : op) : Collector :=
  match o with
  | OpBegin => BeginInput c
  | OpBeginIfNeeded => BeginInputIfNeeded c
  | OpRecords records => ObserveRecords c records
  | OpCommit => CommitInput range c
  | OpDiscard => DiscardInput c
  end.

(** The same on the data itself: what is durable, and what is staged. *)
Definition ledger : Type := list vmap * option (list vmap).
Definition ledger_op (l : ledger) (o : op) : ledger :=
  let '(durable, staged) := l in
  match o, staged with
  | OpBegin, _ => (durable, Some [])
  | OpBeginIfNeeded, None => (durable, Some [])
  | OpBeginIfNeeded, Some _ => l
  | OpRecords records, None => (durable ++ omap extractDataMap records, None)
  | OpRecords records, Some data => (durable, Some (data ++ omap extractDataMap records))
  | OpCommit, Some data => (durable ++ data, None)
  | OpCommit, None => l
  | OpDiscard, _ => (durable, None)
  end.
Definition durable (ops : list op) : list vmap := (foldl ledger_op ([], None) ops).1.

Section runs.

(** The states of all fields after a list of data maps. *)
Definition observed (fields : list FieldConfig) (max : Z) (data : list vmap) : gmap string fieldState :=
  foldl (λ m d, observeDataInto m d max) (newFieldStates fields) data.
Lemma observed_lookup fields max data name :
  observed fields max data !! name
  = (λ s, foldl (observe_field max) s (vget name <$> data)) <$> newFieldStates fields !! name.
Proof.
  unfold observed. induction data as [|d data IH] using rev_ind; [cbn [foldl fmap list_fmap]; by destruct (newFieldStates fields !! name)|].
  rewrite foldl_snoc. unfold observeDataInto at 1. rewrite map_lookup_imap, IH, fmap_app. cbn [fmap list_fmap].
  destruct (newFieldStates fields !! name) as [s|]; cbn; [|done]. by rewrite foldl_snoc.
Qed.
Lemma newFieldStates_lookup fields name s :
  newFieldStates fields !! name = Some s → ∃ f, f ∈ fields ∧ fc_Field f = name ∧ s = newFieldState f.
Proof.
  unfold newFieldStates. induction fields as [|f fields IH] using rev_ind; [done|]. rewrite foldl_snoc.
  destruct (decide (fc_Field f = name)) as [<-|Hne].
  - rewrite lookup_insert_eq. intros [= <-]. exists f. split_and!; [set_solver|done..].
  - rewrite lookup_insert_ne by done. intros (f' & Hf & Hrest)%IH. exists f'. split; [set_solver|done].
Qed.
Lemma observed_state fields max data name s :
  observed fields max data !! name = Some s →
  ∃ f, f ∈ fields ∧ fc_Field f = name ∧ s = field_state max f (vget name <$> data).
Proof.
  rewrite observed_lookup. destruct (newFieldStates fields !! name) as [s0|] eqn:Hs; [|done]. intros [= <-].
  apply newFieldStates_lookup in Hs as (f & Hf & Hn & ->). by exists f.
Qed.

Lemma ObserveRecords_observed c records :
  let data := omap extractDataMap records in
  let max := vc_MaxDistinct (cl_cfg c) in
  ObserveRecords c records =
  match cl_staged c with
  | Some staged => with_staged c (Some (foldl (λ m d, observeDataInto m d max) staged data))
  | None => {| cl_cfg := cl_cfg c; cl_committed := foldl (λ m d, observeDataInto m d max) (cl_committed c) data;
               cl_staged := None |}
  end.
Proof.
  unfold ObserveRecords. revert c. induction records as [|r records IH]; intros c; cbn [foldl omap list_omap].
  { destruct c as [cfg com [st|]]; done. }
  destruct (extractDataMap r) as [d|]; [|apply IH]. rewrite IH. unfold ObserveData.
  by destruct c as [cfg com [st|]].
Qed.

(** What a collector holds, compared up to [view]. *)
Definition holds (exact : bool) (cfg : Config) (l : ledger) (c : Collector) : Prop :=
  cl_cfg c = cfg ∧
  view exact <$> cl_committed c = view exact <$> observed (vc_Fields cfg) (vc_MaxDistinct cfg) l.1 ∧
  cl_staged c = observed (vc_Fields cfg) (vc_MaxDistinct cfg) <$> l.2.
(** The numbers of the named fields are not NaN. *)
Definition numbers_ok (cfg : Config) (data : list vmap) : Prop :=
  Forall (λ f, Forall (λ d, number_ok (vget (fc_Field f) d)) data) (vc_Fields cfg).

Lemma observe_view exact max m m' data :
  view exact <$> m = view exact <$> m' →
  view exact <$> foldl (λ m d, observeDataInto m d max) m data = view exact <$> foldl (λ m d, observeDataInto m d max) m' data.
Proof.
  revert m m'. induction data as [|d data IH]; intros m m' Hm; [done|]. cbn [foldl]. apply IH. apply map_eq. intros k.
  apply (f_equal (.!! k)) in Hm. rewrite !lookup_fmap in *. unfold observeDataInto. rewrite !map_lookup_imap.
  destruct (m !! k) as [s|], (m' !! k) as [s'|]; try done. cbn in Hm |- *. injection Hm as Hm. f_equal.
  rewrite (view_observe_field max exact s), (view_observe_field max exact s'). by rewrite Hm.
Qed.
Lemma observed_app fields max d1 d2 :
  observed fields max (d1 ++ d2) = foldl (λ m d, observeDataInto m d max) (observed fields max d1) d2.
Proof. apply foldl_app. Qed.

Context (range : gmap string nat → list (string * nat)) (Hrange : ∀ m, range m ≡ₚ map_to_list m).

Lemma holds_commit exact cfg durable data c :
  (0 ≤ vc_MaxDistinct cfg)%Z → (exact = true → numbers_ok cfg (durable ++ data)) →
  holds exact cfg (durable, Some data) c → holds exact cfg (durable ++ data, None) (CommitInput range c).
Proof.
  intros Hmax Hn (Hcfg & Hcom & Hst). unfold CommitInput. cbn [snd fmap option_fmap option_map] in Hst. rewrite Hst.
  split_and!; [done| |done]. cbn [cl_committed fst] in *. rewrite Hcfg. apply map_eq. intros name.
  apply (f_equal (.!! name)) in Hcom. rewrite !lookup_fmap in *. rewrite map_lookup_imap.
  rewrite observed_lookup in Hcom. rewrite !observed_lookup.
  destruct (cl_committed c !! name) as [s|], (newFieldStates (vc_Fields cfg) !! name) as [s0|] eqn:Hs0; try done.
  cbn in Hcom |- *. injection Hcom as Hcom. f_equal.
  apply newFieldStates_lookup in Hs0 as (f & Hf & Hname & ->). subst name.
  change (foldl (observe_field ?m) (newFieldState ?g) ?l) with (field_state m g l) in *.
  assert (∀ o, view exact (mergeFrom range (vc_MaxDistinct cfg) s o)
               = view exact (mergeFrom range (vc_MaxDistinct cfg) (field_state (vc_MaxDistinct cfg) f (vget (fc_Field f) <$> durable)) o)) as ->.
  { intros o. destruct exact; [cbn in Hcom; by rewrite Hcom|].
    rewrite (view_merge range _ s), (view_merge range _ (field_state _ _ _)). by rewrite Hcom. }
  rewrite fmap_app. apply merge_states; [done..|]. intros He. specialize (Hn He). rewrite <- fmap_app, Forall_fmap.
  unfold numbers_ok in Hn. rewrite Forall_forall in Hn. by apply Hn.
Qed.
Lemma holds_op exact cfg l c o :
  (0 ≤ vc_MaxDistinct cfg)%Z → (exact = true → numbers_ok cfg (ledger_op l o).1) →
  holds exact cfg l c → holds exact cfg (ledger_op l o) (run_op range c o).
Proof.
  intros Hmax Hn Hh. destruct l as [durable staged]. destruct o as [| |records| |]; cbn [ledger_op run_op].
  - destruct Hh as (Hcfg & Hcom & _). unfold BeginInput, with_staged. split_and!; [done|done|]. cbn. by rewrite Hcfg.
  - unfold BeginInputIfNeeded. destruct Hh as (Hcfg & Hcom & Hst). rewrite Hst.
    destruct staged as [data|]; cbn [fmap option_fmap option_map snd]; [by split_and!|].
    unfold BeginInput, with_staged. split_and!; [done|done|]. cbn. by rewrite Hcfg.
  - rewrite ObserveRecords_observed. destruct Hh as (Hcfg & Hcom & Hst). rewrite Hst, Hcfg.
    destruct staged as [data|]; cbn [fmap option_fmap option_map snd fst] in *.
    + split_and!; [done|done|]. cbn. by rewrite observed_app.
    + split_and!; [done| |done]. cbn [cl_committed fst]. rewrite observed_app. by apply observe_view.
  - destruct staged as [data|]; cbn [fst] in *; [by apply holds_commit|].
    unfold CommitInput. destruct Hh as (Hcfg & Hcom & Hst). rewrite Hst. by split_and!.
  - destruct Hh as (Hcfg & Hcom & _). by split_and!.
Qed.

Lemma ledger_mono l o : ∃ more, (ledger_op l o).1 = l.1 ++ more.
Proof.
  destruct l as [durable [data|]], o; cbn; try (exists []; by rewrite app_nil_r); by eexists.
Qed.
Lemma numbers_ok_app cfg d1 d2 : numbers_ok cfg (d1 ++ d2) → numbers_ok cfg d1.
Proof. clear Hrange range. intros H. eapply Forall_impl; [exact H|]. intros f. by intros [? _]%Forall_app. Qed.
Lemma run_holds exact cfg c ops :
  (0 ≤ vc_MaxDistinct cfg)%Z → (exact = true → numbers_ok cfg (durable ops)) →
  holds exact cfg ([], None) c →
  holds exact cfg (foldl ledger_op ([], None) ops) (foldl (run_op range) c ops).
Proof.
  intros Hmax Hn Hc. unfold durable in Hn. induction ops as [|o ops IH] using rev_ind; [done|]. rewrite !foldl_snoc in *.
  apply holds_op; [done|done|]. apply IH. intros He. specialize (Hn He).
  destruct (ledger_mono (foldl ledger_op ([], None) ops) o) as [more Heq]. rewrite Heq in Hn. by apply numbers_ok_app in Hn.
Qed.
End runs.

(** ** The reference: a count over the whole column *)
Definition present (column : list value) : list value := filter (λ v, is_null v = false) column.
Definition texts (column : list value) : list string := stringifyValue <$> present column.
Definition is_number (v : value) : bool := bool_decide (is_Some (toFloat v)).
Definition occurrences (t : string) (l : list string) : nat := length (filter (λ x, x = t) l).
Definition values_of (l : list string) : gset string := list_to_set l.
Definition tally (l : list string) : gmap string nat :=
  map_imap (λ t _, Some (occurrences t l)) (gset_to_gmap tt (values_of l)).
Definition lengths (l : list string) : list Z := (λ t, Z.of_nat (slen t)) <$> l.
(** The first number that no later one is below ([lt] says what below is). *)
Definition extreme (lt : f64 → f64 → bool) (l : list f64) : f64 :=
  match l with [] => fzero | x :: l => foldl (λ a b, if lt b a then b else a) x l end.

Definition reference_shape (f : FieldConfig) (column : list value) : string :=
  let tags := fc_ProtectionTags f in
  if hasTag tags "source_structure" || hasTag tags "direct_identifier" then "opaque_string"
  else if bool_decide (texts column = []) then "freeform"
  else if forallb is_number (present column) then "all_numeric"
  else if forallb is_uuid (texts column) then "uuid_shaped"
  else if forallb is_email (texts column) then "email_shaped" else "freeform".
Definition reference_result (max threshold : Z) (f : FieldConfig) (column : list value) : FieldResult :=
  let ts := texts column in
  let distinct := size (values_of ts) in
  let capped := (max <? Z.of_nat distinct)%Z in
  let status := if capped then "high_cardinality_capped" else "complete" in
  let nulls := length column - length ts in
  let numeric := negb (bool_decide (ts = [])) && forallb is_number (present column) in
  let number lt := if numeric then Some (extreme lt (omap toFloat (present column))) else None in
  if allowsTierA f && negb capped then {|
    fr_Tier := "enumeration"; fr_Status := status; fr_Count := length column; fr_NullCount := nulls;
    fr_DistinctCount := DCount distinct;
    fr_Distinct := Some (filter (λ kv, quasi f = false ∨ threshold ≤ Z.of_nat kv.2)%Z (tally ts));
    fr_Shape := ""; fr_Length := None; fr_Min := number fltb; fr_Max := number (λ a b, fltb b a) |}
  else {|
    fr_Tier := "aggregates"; fr_Status := status; fr_Count := length column; fr_NullCount := nulls;
    fr_DistinctCount :=
      if capped then DAtLeast max
      else if quasi f && (0 <? distinct)%nat && (Z.of_nat distinct <? threshold)%Z then DBelow threshold
      else DCount distinct;
    fr_Distinct := None; fr_Shape := reference_shape f column;
    fr_Length := if bool_decide (ts = []) then None else
      Some {| ls_Min := foldl Z.min MaxInt (lengths ts); ls_Max := foldl Z.max 0%Z (lengths ts);
              ls_Mean := fdiv (f_of_Z (foldl Z.add 0%Z (lengths ts))) (f_of_Z (Z.of_nat (length ts))) |};
    fr_Min := None; fr_Max := None |}.

Lemma lookup_tally l t : tally l !! t = if decide (t ∈ l) then Some (occurrences t l) else None.
Proof.
  unfold tally. rewrite map_lookup_imap, lookup_gset_to_gmap. destruct (decide (t ∈ l)).
  - by rewrite option_guard_True by (unfold values_of; by apply elem_of_list_to_set).
  - by rewrite option_guard_False by (unfold values_of; by rewrite elem_of_list_to_set).
Qed.
Lemma size_tally l : size (tally l) = size (values_of l).
Proof.
  rewrite <- size_dom. f_equal. apply set_eq. intros t. rewrite elem_of_dom, lookup_tally. unfold values_of.
  rewrite elem_of_list_to_set. by destruct (decide (t ∈ l)); unfold is_Some; naive_solver.
Qed.
Lemma occurrences_snoc t x l : occurrences t (l ++ [x]) = occurrences t l + (if decide (x = t) then 1 else 0).
Proof.
  unfold occurrences. rewrite filter_app, length_app, filter_cons. by destruct (decide (x = t)).
Qed.
Lemma occurrences_notin t l : t ∉ l → occurrences t l = 0.
Proof.
  intros Hn. unfold occurrences. induction l as [|x l IH]; [done|]. apply not_elem_of_cons in Hn as [Hx Hn].
  rewrite filter_cons_False by congruence. by apply IH.
Qed.
Lemma tally_snoc l t : tally (l ++ [t]) = <[t := S (default 0 (tally l !! t))]> (tally l).
Proof.
  apply map_eq. intros k. rewrite lookup_tally, occurrences_snoc. destruct (decide (k = t)) as [->|Hne].
  - rewrite lookup_insert_eq, decide_True, (decide_True (P := t = t)), lookup_tally by (done || set_solver).
    destruct (decide (t ∈ l)) as [|Hn]; cbn [from_option id]; f_equal; [lia|]. rewrite (occurrences_notin t l Hn). lia.
  - rewrite lookup_insert_ne, lookup_tally, (decide_False (P := t = k)) by done.
    destruct (decide (k ∈ l)), (decide (k ∈ l ++ [t])); f_equal; try lia; set_solver.
Qed.

(** ** A field's state says what the reference says *)
Section reference.
Context (max : Z) (Hmax : (0 ≤ max)%Z).

Definition reference_tally (l : list string) : option (gmap string nat) * bool :=
  if (max <? Z.of_nat (size (values_of l)))%Z then (None, true) else (Some (tally l), false).
Lemma observe_reference_tally l t :
  observe_distinct max (reference_tally l).1 (reference_tally l).2 t = reference_tally (l ++ [t]).
Proof.
  assert (size (values_of l) ≤ size (values_of (l ++ [t]))) as Hmono
    by (apply subseteq_size; unfold values_of; set_solver).
  unfold reference_tally. destruct (Z.ltb_spec max (Z.of_nat (size (values_of l)))) as [Hlt|Hle]; cbn [fst snd].
  { by rewrite (proj2 (Z.ltb_lt _ _)) by lia. }
  unfold observe_distinct. cbn [from_option id]. rewrite !tally_snoc, lookup_tally, size_tally.
  destruct (decide (t ∈ l)) as [Hin|Hnin]; cbn [from_option id].
  - assert (values_of (l ++ [t]) = values_of l) as -> by (unfold values_of; set_solver).
    by rewrite (proj2 (Z.ltb_ge _ _) Hle).
  - assert (size (values_of (l ++ [t])) = S (size (values_of l))) as ->.
    { replace (values_of (l ++ [t])) with (values_of l ∪ {[t]}) by (unfold values_of; set_solver).
      rewrite size_union, size_singleton by (unfold values_of; set_solver). lia. }
    destruct (Z.leb_spec max (Z.of_nat (size (values_of l)))).
    + by rewrite (proj2 (Z.ltb_lt _ _)) by lia.
    + by rewrite (proj2 (Z.ltb_ge _ _)) by lia.
Qed.

Definition reference_shapes (l : list string) : shapeAccumulator :=
  let some := negb (bool_decide (l = [])) in
  let uuid := some && forallb is_uuid l in
  let email := some && forallb is_email l in
  {| sh_uuid := uuid; sh_email := email; sh_free := some && negb uuid && negb email; sh_empty := false; sh_init := some |}.
Lemma observe_reference_shape l t : t ≠ "" → shape_observe (reference_shapes l) t = reference_shapes (l ++ [t]).
Proof.
  intros Ht. unfold shape_observe, reference_shapes. destruct (eqs_spec t ""); [done|].
  assert (bool_decide (l ++ [t] = []) = false) as -> by (apply bool_decide_eq_false_2; by destruct l).
  rewrite !forallb_app. cbn [sh_uuid sh_email sh_free sh_empty sh_init negb andb forallb]. rewrite !andb_true_r.
  destruct (decide (l = [])) as [->|Hl]; [done|]. rewrite bool_decide_eq_false_2 by done. cbn [negb andb].
  by destruct (forallb is_uuid l), (forallb is_email l), (is_uuid t), (is_email t).
Qed.

Definition reference_state (f : FieldConfig) (column : list value) : fieldState :=
  let ts := texts column in
  let nums := omap toFloat (present column) in {|
  fs_cfg := f; fs_count := length column; fs_nullCount := length column - length ts;
  fs_distinct := (reference_tally ts).1; fs_capped := (reference_tally ts).2;
  fs_lenMin := foldl Z.min MaxInt (lengths ts); fs_lenMax := foldl Z.max 0%Z (lengths ts);
  fs_lenSum := foldl Z.add 0%Z (lengths ts); fs_lenN := length ts; fs_shape := reference_shapes ts;
  fs_numMin := extreme fltb nums; fs_numMax := extreme (λ a b, fltb b a) nums;
  fs_hasNumeric := negb (bool_decide (nums = [])); fs_allNumeric := forallb is_number (present column);
  fs_sawNonEmpty := negb (bool_decide (ts = [])) |}.

Lemma extreme_snoc lt l x :
  (if negb (negb (bool_decide (l = []))) || lt x (extreme lt l) then x else extreme lt l) = extreme lt (l ++ [x]).
Proof. destruct l as [|y l]; [done|]. cbn [bool_decide negb orb app extreme]. by rewrite foldl_snoc. Qed.
Lemma length_texts column : length (texts column) ≤ length column.
Proof. unfold texts, present. rewrite length_fmap. apply length_filter. Qed.

Lemma observe_reference f column x :
  observe_field max (reference_state f column) x = reference_state f (column ++ [x]).
Proof.
  unfold observe_field. pose proof (length_texts column) as Hlen.
  destruct (is_null x) eqn:Hnull; unfold reference_state, texts, present; rewrite filter_app, filter_cons, Hnull.
  - rewrite decide_False by done. rewrite filter_nil, app_nil_r, length_app.
    unfold count_null. cbn [fs_cfg fs_count fs_nullCount fs_distinct fs_capped fs_lenMin fs_lenMax fs_lenSum fs_lenN
      fs_shape fs_numMin fs_numMax fs_hasNumeric fs_allNumeric fs_sawNonEmpty length].
    fold (present column) (texts column). f_equal; lia.
  - rewrite decide_True by done. rewrite filter_nil. fold (present column).
    rewrite fmap_app, omap_app, forallb_app. fold (texts column). cbn [fmap list_fmap omap list_omap forallb].
    apply stringify_nonempty in Hnull. set (t := stringifyValue x) in *. unfold observeValue.
    cbn [count_null fs_cfg fs_count fs_nullCount fs_distinct fs_capped fs_lenMin fs_lenMax fs_lenSum fs_lenN fs_shape
      fs_numMin fs_numMax fs_hasNumeric fs_allNumeric fs_sawNonEmpty].
    pose proof (observe_reference_tally (texts column) t) as Ht. rewrite Ht.
    destruct (reference_tally (texts column ++ [t])) as [e b]. unfold lengths.
    rewrite fmap_app, !length_app, !foldl_app, ltb_min, ltb_max, (observe_reference_shape _ _ Hnull).
    cbn [fmap list_fmap foldl length fst snd]. rewrite andb_true_r.
    assert (bool_decide (texts column ++ [t] = []) = false) as -> by (apply bool_decide_eq_false_2; by destruct (texts column)).
    change (is_number x) with (bool_decide (is_Some (toFloat x))). destruct (toFloat x) as [y|].
    + pose proof (extreme_snoc (λ a b, fltb b a) (omap toFloat (present column)) y) as Hx. cbv beta in Hx.
      rewrite extreme_snoc, Hx, (bool_decide_eq_true_2 (is_Some (Some y))), orb_true_r, andb_true_r by done.
      rewrite (bool_decide_eq_false_2 (omap toFloat (present column) ++ [y] = [])) by (by destruct (omap toFloat (present column))).
      f_equal; lia.
    + rewrite !app_nil_r, (bool_decide_eq_false_2 (is_Some None)), orb_false_r, andb_false_r by (by intros [? ?]).
      f_equal; lia.
Qed.
Lemma field_state_reference f column : field_state max f column = reference_state f column.
Proof.
  unfold field_state. induction column as [|x column IH] using rev_ind.
  - unfold reference_state, reference_tally. cbn [texts present filter list_filter fmap list_fmap].
    change (values_of []) with (∅ : gset string). rewrite size_empty. rewrite (proj2 (Z.ltb_ge _ _)) by lia. done.
  - by rewrite foldl_snoc, IH, observe_reference.
Qed.
End reference.

(** ** Normalized configurations *)
Section normalize.
Context `{UC : UnicodeCase}.

Lemma hasTag_spec l t : hasTag l t = true ↔ t ∈ l.
Proof.
  unfold hasTag. rewrite existsb_exists. split.
  - intros (x & Hx & Heq). apply String.eqb_eq in Heq as ->. by apply list_elem_of_In.
  - intros Ht. exists t. split; [by apply list_elem_of_In|apply String.eqb_refl].
Qed.
Lemma closed_fixed t : t ∈ closedProtectionTags → trim_space t = t ∧ t ≠ "" ∧ to_lower t = t.
Proof. intros Ht. repeat (apply elem_of_cons in Ht as [->|Ht]; [split_and!; vm_compute; done|]). by apply elem_of_nil in Ht. Qed.
Lemma sensitivity_fixed t : t ∈ sensitivities → trim_space t = t ∧ to_lower t = t ∧ t ≠ "".
Proof. intros Ht. repeat (apply elem_of_cons in Ht as [->|Ht]; [split_and!; vm_compute; done|]). by apply elem_of_nil in Ht. Qed.

Lemma normalize_tags_ok out raw tags :
  normalize_tags out raw = Ok tags → NoDup out → (∀ t, t ∈ out → t ∈ closedProtectionTags) →
  NoDup tags ∧ ∀ t, t ∈ tags → t ∈ closedProtectionTags.
Proof.
  revert out. induction raw as [|tag raw IH]; intros out; cbn [normalize_tags].
  { intros [= <-] Hnd Hc. rewrite <- (Permutation_rev out). split; [done|].
    intros t. rewrite <- (Permutation_rev out). apply Hc. }
  cbv zeta. destruct (trim_space tag =s? ""); [apply IH|]. set (low := to_lower _).
  destruct (hasTag closedProtectionTags low) eqn:Hlow; [|done]. apply hasTag_spec in Hlow. cbn [negb].
  destruct (hasTag out low) eqn:Hseen; [apply IH|]. intros Hr Hnd Hc. apply IH in Hr; [done| |].
  - constructor; [|done]. rewrite <- hasTag_spec. congruence.
  - intros t [->|Ht]%elem_of_cons; [done|by apply Hc].
Qed.
(** Tags of the closed vocabulary that do not repeat are left alone. *)
Lemma normalize_tags_fixed out tags :
  NoDup (rev out ++ tags) → (∀ t, t ∈ tags → t ∈ closedProtectionTags) → normalize_tags out tags = Ok (rev out ++ tags).
Proof.
  revert out. induction tags as [|t tags IH]; intros out Hnd Hc; cbn [normalize_tags]; [by rewrite app_nil_r|].
  destruct (closed_fixed t) as (-> & Hne & ->); [apply Hc; left|]. cbv zeta.
  destruct (eqs_spec t ""); [done|]. assert (hasTag closedProtectionTags t = true) as -> by (apply hasTag_spec, Hc; left).
  cbn [negb]. destruct (hasTag out t) eqn:Hseen.
  - exfalso. apply hasTag_spec in Hseen. apply NoDup_app in Hnd as (_ & Hd & _). apply (Hd t); [|left].
    by rewrite <- (Permutation_rev out).
  - rewrite IH; cbn [rev]; rewrite <- ?app_assoc; [done|done|]. intros t' Ht'. apply Hc. by right.
Qed.

(** A field as [Normalize] leaves it. *)
Definition field_normal (f : FieldConfig) : Prop :=
  trim_space (fc_Field f) = fc_Field f ∧ fc_Field f ≠ "" ∧ fc_Sensitivity f ∈ sensitivities ∧
  NoDup (fc_ProtectionTags f) ∧ (∀ t, t ∈ fc_ProtectionTags f → t ∈ closedProtectionTags) ∧
  ("safe_to_profile" ∈ fc_ProtectionTags f → fc_SafeToProfile f = true).
Lemma normalize_field_ok seen f f' :
  normalize_field seen f = Ok f' → field_normal f' ∧ fc_Field f' ∉ seen.
Proof.
  unfold normalize_field. destruct (eqs_spec (trim_space (fc_Field f)) "") as [|Hne]; [done|].
  destruct (hasTag seen (trim_space (fc_Field f))) eqn:Hseen; [done|].
  destruct (hasTag sensitivities _) eqn:Hsens; [|done]. cbn [negb].
  intros (tags & Htags & [= <-])%res_bind_ok. apply wrapf_ok in Htags.
  apply normalize_tags_ok in Htags as [Hnd Hc]; [|constructor|by intros t ?%elem_of_nil].
  split; [|cbn; rewrite <- hasTag_spec; congruence]. unfold field_normal.
  cbn [fc_Field fc_Sensitivity fc_ProtectionTags fc_SafeToProfile]. apply hasTag_spec in Hsens.
  split_and!; [apply trim_space_twice|done..|]. intros Hs%hasTag_spec. by rewrite Hs.
Qed.
Lemma normalize_field_fixed seen f : field_normal f → fc_Field f ∉ seen → normalize_field seen f = Ok f.
Proof.
  intros (Hname & Hne & Hsens & Hnd & Hc & Hsafe) Hseen. unfold normalize_field. rewrite Hname.
  destruct (eqs_spec (fc_Field f) ""); [done|].
  assert (hasTag seen (fc_Field f) = false) as -> by (apply not_true_is_false; by rewrite hasTag_spec).
  destruct (sensitivity_fixed _ Hsens) as (-> & -> & Hs). destruct (eqs_spec (fc_Sensitivity f) ""); [done|].
  assert (hasTag sensitivities (fc_Sensitivity f) = true) as -> by (by apply hasTag_spec). cbn [negb].
  unfold normalizeProtectionTags. rewrite (normalize_tags_fixed []) by done. cbn [rev app wrapf map_err mbind res_bind].
  f_equal. destruct f as [fname safe sens tags]. cbn [fc_Field fc_SafeToProfile fc_Sensitivity fc_ProtectionTags] in *.
  f_equal. destruct (hasTag tags "safe_to_profile") eqn:Ht; [|done]. apply hasTag_spec in Ht. by rewrite (Hsafe Ht).
Qed.
Lemma normalize_fields_ok seen fields out :
  normalize_fields seen fields = Ok out →
  Forall field_normal out ∧ NoDup (fc_Field <$> out) ∧ (∀ n, n ∈ fc_Field <$> out → n ∉ seen).
Proof.
  revert seen out. induction fields as [|f fields IH]; intros seen out; cbn [normalize_fields].
  { intros [= <-]. split_and!; [done|constructor|set_solver]. }
  intros (f' & Hf & H)%res_bind_ok. apply res_bind_ok in H as (rest & Hrest & [= <-]).
  apply normalize_field_ok in Hf as [Hn Hs]. apply IH in Hrest as (Hall & Hnd & Hd).
  cbn [fmap list_fmap]. split_and!; [by constructor| |set_solver].
  constructor; [|done]. intros Hin. by apply (Hd _ Hin); left.
Qed.
Lemma normalize_fields_fixed seen fields :
  Forall field_normal fields → NoDup (fc_Field <$> fields) → (∀ n, n ∈ fc_Field <$> fields → n ∉ seen) →
  normalize_fields seen fields = Ok fields.
Proof.
  revert seen. induction fields as [|f fields IH]; intros seen Hall Hnd Hd; cbn [normalize_fields]; [done|].
  inversion_clear Hall as [|? ? Hf Hfs]. cbn [fmap list_fmap] in *. inversion_clear Hnd as [|? ? Hn Hnd'].
  rewrite normalize_field_fixed by (done || (apply Hd; left)). cbn [mbind res_bind]. rewrite IH; [done..|].
  intros n Hin. apply not_elem_of_cons. split; [congruence|]. apply Hd. by right.
Qed.
End normalize.

(** ** The theorems *)
Section properties.
Context `{UC : UnicodeCase}.
Context (range : gmap string nat → list (string * nat)) (Hrange : ∀ m, range m ≡ₚ map_to_list m).

(** A configuration a collector runs with. *)
Record config_normal (cfg : Config) : Prop := {
  cn_max : (1 ≤ vc_MaxDistinct cfg ≤ HardMaxDistinct)%Z;
  cn_threshold : (1 ≤ vc_SmallCellThreshold cfg)%Z;
  cn_fields : Forall field_normal (vc_Fields cfg);
  cn_names : NoDup (fc_Field <$> vc_Fields cfg);
}.
Lemma profile_Normalize_normal cfg0 cfg : Normalize cfg0 = Ok cfg → config_normal cfg.
Proof.
  unfold Normalize. destruct (Z.ltb_spec HardMaxDistinct (if (vc_MaxDistinct cfg0 <=? 0)%Z then DefaultMaxDistinct else vc_MaxDistinct cfg0)) as [|Hle]; [done|].
  intros (fields & Hf & [= <-])%res_bind_ok. apply normalize_fields_ok in Hf as (Hall & Hnd & _).
  split; cbn [vc_MaxDistinct vc_SmallCellThreshold vc_Fields]; try done.
  - split; [|done]. destruct (Z.leb_spec (vc_MaxDistinct cfg0) 0); [done|lia].
  - destruct (Z.leb_spec (vc_SmallCellThreshold cfg0) 0); [done|lia].
Qed.

(** A normalized configuration is bounded and closed, and normalizing it
    again changes nothing. *)
Theorem Normalize_spec cfg0 cfg :
  Normalize cfg0 = Ok cfg → config_normal cfg ∧ Normalize cfg = Ok cfg.
Proof.
  intros Hn. pose proof (profile_Normalize_normal _ _ Hn) as H. split; [done|]. destruct H as [[Hlo Hhi] Hth Hf Hnd].
  unfold Normalize. rewrite (proj2 (Z.leb_gt _ _)), (proj2 (Z.ltb_ge _ _)), (proj2 (Z.leb_gt (vc_SmallCellThreshold cfg) 0)) by lia.
  rewrite normalize_fields_fixed; [|done|done|by intros ? _ ?%elem_of_nil]. by destruct cfg.
Qed.

Lemma texts_present column : texts column = [] ↔ present column = [].
Proof. unfold texts. by destruct (present column). Qed.
Lemma numeric_reference column :
  forallb is_number (present column) && negb (bool_decide (omap toFloat (present column) = []))
  = negb (bool_decide (texts column = [])) && forallb is_number (present column).
Proof.
  destruct (decide (texts column = [])) as [Ht|Ht].
  { rewrite (bool_decide_eq_true_2 _ Ht). apply texts_present in Ht. rewrite Ht. done. }
  rewrite (bool_decide_eq_false_2 _ Ht). rewrite texts_present in Ht. cbn [negb andb].
  destruct (present column) as [|v l]; [done|]. cbn [forallb omap list_omap]. unfold is_number at 1 3.
  destruct (toFloat v) as [x|]; [|by rewrite (bool_decide_eq_false_2 (is_Some None)) by (by intros [? ?])].
  rewrite (bool_decide_eq_true_2 (is_Some (Some x))), (bool_decide_eq_false_2 (x :: _ = [])) by done.
  by rewrite andb_true_r.
Qed.
Lemma shape_reference max f column : shapeClass (reference_state max f column) = reference_shape f column.
Proof.
  unfold shapeClass, reference_shape, shape_class, reference_state.
  cbn [fs_cfg fs_sawNonEmpty fs_allNumeric fs_hasNumeric fs_shape reference_shapes sh_uuid sh_email].
  rewrite numeric_reference, negb_involutive. destruct (_ || _); [done|].
  by destruct (bool_decide (texts column = [])).
Qed.
Lemma suppress_reference threshold f l :
  (if quasi f then suppressSmallCells threshold (tally l) else tally l)
  = filter (λ kv, quasi f = false ∨ threshold ≤ Z.of_nat kv.2)%Z (tally l).
Proof.
  destruct (quasi f); [|symmetry; apply map_filter_id; by left]. unfold suppressSmallCells.
  destruct (Z.leb_spec threshold 1) as [Hle|].
  - symmetry. apply map_filter_id. intros t n Ht. right. cbn. rewrite lookup_tally in Ht.
    destruct (decide (t ∈ l)) as [Hin|]; [|done]. injection Ht as <-. unfold occurrences.
    assert (t ∈ filter (λ x, x = t) l) as Hf by (by apply list_elem_of_filter).
    destruct (filter (λ x, x = t) l); [by apply elem_of_nil in Hf|]. cbn. lia.
  - apply map_filter_ext. intros t n _. cbn. naive_solver.
Qed.
Lemma field_result_reference cfg f column :
  config_normal cfg →
  field_result cfg (field_state (vc_MaxDistinct cfg) f column)
  = reference_result (vc_MaxDistinct cfg) (vc_SmallCellThreshold cfg) f column.
Proof.
  intros [Hmax Hth _ _]. rewrite field_state_reference by lia. unfold field_result, reference_result, tier_a, tier_b.
  rewrite shape_reference. set (ts := texts column).
  assert ((0 <? length ts) = negb (bool_decide (ts = []))) as Hlen by (by destruct ts).
  unfold reference_state, reference_tally. cbn [fs_cfg fs_count fs_nullCount fs_distinct fs_capped fs_lenMin fs_lenMax
    fs_lenSum fs_lenN fs_numMin fs_numMax fs_hasNumeric fs_allNumeric]. fold ts. rewrite Hlen.
  destruct (Z.ltb_spec (vc_MaxDistinct cfg) (Z.of_nat (size (values_of ts)))) as [Hcap|Hcap]; cbn [fst snd negb];
    rewrite ?andb_false_r, ?andb_true_r.
  - by destruct (bool_decide (ts = [])).
  - destruct (allowsTierA f).
    + rewrite size_tally, suppress_reference, (andb_comm (negb _) (forallb is_number (present column))), numeric_reference.
      done.
    + rewrite size_tally. by destruct (bool_decide (ts = [])).
Qed.

Lemma field_state_cfg max f column : fs_cfg (field_state max f column) = f.
Proof.
  unfold field_state. induction column as [|x column IH] using rev_ind; [done|]. rewrite foldl_snoc.
  unfold observe_field. destruct (is_null x); [exact IH|]. unfold observeValue.
  destruct (observe_distinct _ _ _ _). exact IH.
Qed.

(** ** What a run publishes *)
Lemma start_holds exact cfg0 cfg c :
  Normalize cfg0 = Ok cfg → NewCollector cfg0 = Ok (Some c) → holds exact cfg ([], None) c.
Proof.
  intros Hn. unfold NewCollector. rewrite Hn. cbn [mbind res_bind]. destruct (Active cfg); [|done]. intros [= <-].
  by split_and!.
Qed.
Lemma run_committed exact cfg0 cfg c ops name s :
  Normalize cfg0 = Ok cfg → NewCollector cfg0 = Ok (Some c) → (exact = true → numbers_ok cfg (durable ops)) →
  cl_committed (foldl (run_op range) c ops) !! name = Some s →
  ∃ f, f ∈ vc_Fields cfg ∧ fc_Field f = name ∧
       view exact s = view exact (field_state (vc_MaxDistinct cfg) f (vget name <$> durable ops)).
Proof.
  intros Hn Hc Hok Hs. pose proof (profile_Normalize_normal _ _ Hn) as [Hmax _ _ _].
  destruct (run_holds range Hrange exact cfg c ops) as (_ & Hcom & _); [lia|done|by eapply start_holds|].
  apply (f_equal (.!! name)) in Hcom. rewrite !lookup_fmap, Hs in Hcom.
  destruct (observed _ _ _ !! name) as [s'|] eqn:Hs'; [|done]. apply observed_state in Hs' as (f & Hf & Hname & ->).
  exists f. split_and!; [done..|]. cbn in Hcom. by injection Hcom.
Qed.
Lemma run_cfg cfg0 cfg c ops :
  Normalize cfg0 = Ok cfg → NewCollector cfg0 = Ok (Some c) → cl_cfg (foldl (run_op range) c ops) = cfg.
Proof.
  intros Hn Hc. pose proof (profile_Normalize_normal _ _ Hn) as [Hmax _ _ _].
  destruct (run_holds range Hrange false cfg c ops) as (H & _); [lia|done|by eapply start_holds|done].
Qed.
Lemma run_fields cfg0 cfg c ops f :
  Normalize cfg0 = Ok cfg → NewCollector cfg0 = Ok (Some c) → f ∈ vc_Fields cfg →
  ∃ s, cl_committed (foldl (run_op range) c ops) !! fc_Field f = Some s.
Proof.
  intros Hn Hc Hf. pose proof (profile_Normalize_normal _ _ Hn) as [Hmax _ _ Hnd].
  destruct (run_holds range Hrange false cfg c ops) as (_ & Hcom & _); [lia|done|by eapply start_holds|].
  apply (f_equal (.!! fc_Field f)) in Hcom. rewrite !lookup_fmap, observed_lookup in Hcom.
  assert (is_Some (newFieldStates (vc_Fields cfg) !! fc_Field f)) as [s0 Hs0].
  { clear -Hf. unfold newFieldStates. induction (vc_Fields cfg) as [|g fields IH] using rev_ind; [by apply elem_of_nil in Hf|].
    rewrite foldl_snoc. destruct (decide (fc_Field g = fc_Field f)) as [->|Hne]; [by rewrite lookup_insert_eq|].
    rewrite lookup_insert_ne by done. apply IH. apply elem_of_app in Hf as [|Hf]; [done|].
    by apply list_elem_of_singleton in Hf as ->. }
  rewrite Hs0 in Hcom. destruct (cl_committed _ !! fc_Field f) as [s|]; [by exists s|done].
Qed.

(** The profile the reference makes of all durable data. *)
Definition reference_profile (cfg : Config) (data : list vmap) : Profile := {|
  pr_MaxDistinct := vc_MaxDistinct cfg;
  pr_SmallCellThreshold := vc_SmallCellThreshold cfg;
  pr_Fields := list_to_map ((λ f, (fc_Field f,
    reference_result (vc_MaxDistinct cfg) (vc_SmallCellThreshold cfg) f (vget (fc_Field f) <$> data))) <$> vc_Fields cfg) |}.

(** C39: when no durable value reads as NaN, whatever a run stages, commits and
    discards, and in whatever order the maps are visited, its profile is the one a
    single count over the durable records makes: discarded inputs leave no
    trace, and how records were grouped into inputs does not show. (With NaN the
    numeric range does depend on it, see [nan_depends_on_inputs].) *)
Theorem Snapshot_durable cfg0 cfg c ops :
  Normalize cfg0 = Ok cfg → NewCollector cfg0 = Ok (Some c) → numbers_ok cfg (durable ops) →
  Snapshot (foldl (run_op range) c ops) = reference_profile cfg (durable ops).
Proof.
  intros Hn Hc Hok. pose proof (profile_Normalize_normal _ _ Hn) as Hcn. unfold Snapshot, reference_profile.
  rewrite (run_cfg _ _ _ _ Hn Hc). f_equal. apply map_eq. intros name. rewrite lookup_fmap.
  destruct (cl_committed (foldl (run_op range) c ops) !! name) as [s|] eqn:Hs; cbn [fmap option_fmap option_map].
  - pose proof Hs as Hs'. apply (run_committed true cfg0 cfg) in Hs' as (f & Hf & <- & Hv); [|done..]. cbn [view] in Hv.
    symmetry. apply elem_of_list_to_map_1.
    + rewrite <- list_fmap_compose. exact (cn_names _ Hcn).
    + apply list_elem_of_fmap. exists f. split; [|done]. by rewrite Hv, field_result_reference.
  - symmetry. apply not_elem_of_list_to_map_1. rewrite <- list_fmap_compose. intros (f & -> & Hf)%list_elem_of_fmap.
    destruct (run_fields _ _ _ ops f Hn Hc Hf) as [s Hs']. cbn in Hs. congruence.
Qed.

Lemma listed_view cfg s : fr_Distinct (field_result cfg (view false s)) = fr_Distinct (field_result cfg s).
Proof.
  unfold field_result. cbn [view fs_distinct fs_cfg fs_capped]. destruct (fs_distinct s); [|done].
  by destruct (allowsTierA (fs_cfg s) && negb (fs_capped s)).
Qed.
Lemma unlisted_view cfg s :
  allowsTierA (fs_cfg s) = false → field_result cfg s = field_result cfg (view false s).
Proof.
  destruct s as [f c n [m|] capped lo hi sum k sh x y has all saw]; [|done]. cbn [fs_cfg]. intros Hb. unfold field_result.
  cbn [view fs_distinct fs_cfg fs_capped]. by rewrite Hb.
Qed.
Lemma unlisted_range cfg s :
  fr_Distinct (field_result cfg s) = None → fr_Min (field_result cfg s) = None ∧ fr_Max (field_result cfg s) = None.
Proof.
  unfold field_result. destruct (fs_distinct s); [|done]. by destruct (allowsTierA (fs_cfg s) && negb (fs_capped s)).
Qed.
Lemma allowed_spec f :
  allowsTierA f = true →
  fc_SafeToProfile f = true ∧ (fc_Sensitivity f = "public" ∨ fc_Sensitivity f = "internal") ∧
  ∀ t, t ∈ fc_ProtectionTags f → t ∉ neverEnumerateTags.
Proof.
  unfold allowsTierA. intros [[Hsafe Hsens]%andb_true_iff Htags%negb_true_iff]%andb_true_iff. split_and!; [done| |].
  - apply orb_true_iff in Hsens as [H|H]; apply String.eqb_eq in H; auto.
  - intros t Ht Hnever. enough (existsb (hasTag neverEnumerateTags) (fc_ProtectionTags f) = true) by congruence.
    apply existsb_exists. exists t. split; [by apply list_elem_of_In|by apply hasTag_spec].
Qed.

(** C38: the guard. Whatever a run does, a published field lists values only if
    it is declared safe, public or internal, without a tag that forbids it, and
    within the cap; each listed value occurs in the durable records as often as
    it says, and at least [SmallCellThreshold] times where the field is tagged as
    a quasi-identifier or a linkage key (only there are small cells suppressed).
    Any other field has no values and no range. *)
Theorem Snapshot_guard cfg0 cfg c ops name r :
  Normalize cfg0 = Ok cfg → NewCollector cfg0 = Ok (Some c) →
  pr_Fields (Snapshot (foldl (run_op range) c ops)) !! name = Some r →
  ∃ f, f ∈ vc_Fields cfg ∧ fc_Field f = name ∧
  match fr_Distinct r with
  | None => fr_Min r = None ∧ fr_Max r = None
  | Some m =>
      fc_SafeToProfile f = true ∧ (fc_Sensitivity f = "public" ∨ fc_Sensitivity f = "internal") ∧
      (∀ t, t ∈ fc_ProtectionTags f → t ∉ neverEnumerateTags) ∧ (Z.of_nat (size m) ≤ vc_MaxDistinct cfg)%Z ∧
      ∀ t n, m !! t = Some n →
        n = occurrences t (texts (vget name <$> durable ops)) ∧
        (quasi f = true → (vc_SmallCellThreshold cfg ≤ Z.of_nat n)%Z)
  end.
Proof.
  intros Hn Hc Hr. pose proof (profile_Normalize_normal _ _ Hn) as Hcn. unfold Snapshot in Hr. cbn [pr_Fields] in Hr.
  rewrite (run_cfg _ _ _ _ Hn Hc), lookup_fmap in Hr.
  destruct (cl_committed _ !! name) as [s|] eqn:Hs; [|done]. cbn in Hr. injection Hr as Hr.
  apply (run_committed false cfg0 cfg) in Hs as (f & Hf & Hname & Hv); [|done..]. exists f. split_and!; [done..|].
  set (column := vget name <$> durable ops) in *.
  assert (fr_Distinct r = fr_Distinct (reference_result (vc_MaxDistinct cfg) (vc_SmallCellThreshold cfg) f column)) as Hd.
  { by rewrite <- Hr, <- listed_view, Hv, listed_view, field_result_reference. }
  destruct (fr_Distinct r) as [m|] eqn:Hm; [|rewrite <- Hr in *; by apply unlisted_range]. unfold reference_result in Hd.
  destruct (allowsTierA f && _) eqn:Hallow; [|done]. cbn [fr_Distinct] in Hd. injection Hd as ->.
  apply andb_true_iff in Hallow as [(Hsafe & Hsens & Htags)%allowed_spec Hcap].
  apply negb_true_iff, Z.ltb_ge in Hcap. split_and!; [done..| |].
  - rewrite <- size_tally in Hcap. etransitivity; [|exact Hcap]. apply inj_le.
    rewrite <- !size_dom. apply subseteq_size, subseteq_dom, map_filter_subseteq.
  - intros t n [Ht Hq]%map_lookup_filter_Some. rewrite lookup_tally in Ht. destruct (decide _); [|done]. injection Ht as <-.
    cbn in Hq. split; [done|]. intros Hquasi. destruct Hq; [congruence|done].
Qed.

(** Two columns that differ only in the values themselves: nulls in the same
    places, texts of the same length and shape, equal where equal. *)
Definition alike (v w : value) : Prop :=
  is_null v = is_null w ∧
  (is_null v = false → slen (stringifyValue v) = slen (stringifyValue w) ∧
     is_uuid (stringifyValue v) = is_uuid (stringifyValue w) ∧
     is_email (stringifyValue v) = is_email (stringifyValue w) ∧ is_number v = is_number w).
Definition same_pattern (l k : list string) : Prop := ∀ i j, l !! i = l !! j ↔ k !! i = k !! j.
Definition indistinguishable (c1 c2 : list value) : Prop := Forall2 alike c1 c2 ∧ same_pattern (texts c1) (texts c2).

Lemma same_pattern_tail x l y k : same_pattern (x :: l) (y :: k) → same_pattern l k.
Proof. intros H i j. exact (H (S i) (S j)). Qed.
Lemma same_pattern_head x l y k : length l = length k → same_pattern (x :: l) (y :: k) → x ∈ l ↔ y ∈ k.
Proof.
  intros Hlen H. rewrite !list_elem_of_lookup. split; intros [i Hi].
  - exists i. symmetry. exact (proj1 (H 0 (S i)) (eq_sym Hi)).
  - exists i. symmetry. exact (proj2 (H 0 (S i)) (eq_sym Hi)).
Qed.
Lemma same_pattern_size l k : length l = length k → same_pattern l k → size (values_of l) = size (values_of k).
Proof.
  revert k. induction l as [|x l IH]; intros [|y k] Hlen Hp; try done. cbn [length] in Hlen. injection Hlen as Hlen.
  pose proof (same_pattern_head _ _ _ _ Hlen Hp) as Hhd. specialize (IH k Hlen (same_pattern_tail _ _ _ _ Hp)).
  unfold values_of in *. cbn [list_to_set]. destruct (decide (x ∈ l)) as [Hx|Hx].
  - assert (y ∈ k) by (by apply Hhd).
    rewrite !(subseteq_union_1_L {[_]}); [done| |]; apply singleton_subseteq_l; by apply elem_of_list_to_set.
  - assert (y ∉ k) by (by rewrite <- Hhd).
    rewrite !size_union, !size_singleton, IH; [done| |]; apply disjoint_singleton_l; by rewrite elem_of_list_to_set.
Qed.

Lemma alike_present c1 c2 :
  Forall2 alike c1 c2 →
  forallb is_number (present c1) = forallb is_number (present c2) ∧
  lengths (texts c1) = lengths (texts c2) ∧ length (texts c1) = length (texts c2) ∧
  forallb is_uuid (texts c1) = forallb is_uuid (texts c2) ∧ forallb is_email (texts c1) = forallb is_email (texts c2).
Proof.
  induction 1 as [|v w c1 c2 [Hnull Hsome] _ IH]; [done|]. unfold texts, present, lengths in *. rewrite !filter_cons, <- Hnull.
  destruct (is_null v); [by rewrite !decide_False by done|]. rewrite !decide_True by done.
  destruct (Hsome eq_refl) as (Hl & Hu & He & Hnum). destruct IH as (I1 & I2 & I3 & I4 & I5).
  cbn [fmap list_fmap forallb length] in *. rewrite I1, I2, I3, I4, I5, Hl, Hu, He, Hnum. done.
Qed.

(** C40: what is published about a field that may not be listed says nothing of
    its values beyond their lengths, shapes and how often they repeat: two runs
    whose durable columns cannot be told apart by those publish the same. *)
Theorem aggregates_hide_values cfg0 cfg c ops1 ops2 f :
  Normalize cfg0 = Ok cfg → NewCollector cfg0 = Ok (Some c) → f ∈ vc_Fields cfg → allowsTierA f = false →
  indistinguishable (vget (fc_Field f) <$> durable ops1) (vget (fc_Field f) <$> durable ops2) →
  pr_Fields (Snapshot (foldl (run_op range) c ops1)) !! fc_Field f
  = pr_Fields (Snapshot (foldl (run_op range) c ops2)) !! fc_Field f.
Proof.
  intros Hn Hc Hf Hb [Halike Hpat]. pose proof (profile_Normalize_normal _ _ Hn) as Hcn.
  assert (∀ ops, pr_Fields (Snapshot (foldl (run_op range) c ops)) !! fc_Field f
    = Some (reference_result (vc_MaxDistinct cfg) (vc_SmallCellThreshold cfg) f (vget (fc_Field f) <$> durable ops))) as Href.
  { intros ops. unfold Snapshot. cbn [pr_Fields]. rewrite (run_cfg _ _ _ _ Hn Hc), lookup_fmap.
    destruct (run_fields _ _ _ ops f Hn Hc Hf) as [s Hs]. rewrite Hs. cbn. f_equal.
    apply (run_committed false cfg0 cfg) in Hs as (f' & Hf' & Hname & Hv); [|done..].
    assert (f' = f) as ->.
    { by apply (NoDup_fmap_eq fc_Field (vc_Fields cfg) (cn_names _ Hcn)). }
    rewrite <- field_result_reference by done.
    assert (∀ s, fs_cfg s = f → field_result cfg s = field_result cfg (view false s)) as Hview
      by (intros s' <-; by apply unlisted_view).
    rewrite (Hview s); [|rewrite <- (field_state_cfg (vc_MaxDistinct cfg) f (vget (fc_Field f) <$> durable ops));
                         exact (f_equal fs_cfg Hv)].
    rewrite Hv. symmetry. apply Hview, field_state_cfg. }
  rewrite !Href. f_equal. unfold reference_result. rewrite Hb. cbn [andb].
  destruct (alike_present _ _ Halike) as (Hnum & Hlens & Hlen & Hu & He).
  rewrite (same_pattern_size _ _ Hlen Hpat), Hlens, Hlen, (Forall2_length _ _ _ Halike). unfold reference_shape.
  rewrite Hnum, Hu, He.
  assert (∀ l k : list string, length l = length k → bool_decide (l = []) = bool_decide (k = [])) as Hempty
    by (by intros [|??] [|??]).
  by rewrite (Hempty _ _ Hlen).
Qed.
End properties.

(** ** A run *)
Module ProfileSample.
Definition cfg0 : Config := {| vc_Enabled := true; vc_MaxDistinct := 3; vc_SmallCellThreshold := 2; vc_Fields :=
  [{| fc_Field := " state "; fc_SafeToProfile := true; fc_Sensitivity := "Public"; fc_ProtectionTags := ["quasi_identifier"] |};
   {| fc_Field := "ssn"; fc_SafeToProfile := true; fc_Sensitivity := "public"; fc_ProtectionTags := ["Direct_Identifier"] |}] |}.
Definition ssn : FieldConfig :=
  {| fc_Field := "ssn"; fc_SafeToProfile := true; fc_Sensitivity := "public"; fc_ProtectionTags := ["direct_identifier"] |}.
Definition cfg : Config := {| vc_Enabled := true; vc_MaxDistinct := 3; vc_SmallCellThreshold := 2; vc_Fields :=
  [{| fc_Field := "state"; fc_SafeToProfile := true; fc_Sensitivity := "public"; fc_ProtectionTags := ["quasi_identifier"] |};
   ssn] |}.
Definition collector : Collector := {| cl_cfg := cfg; cl_committed := newFieldStates (vc_Fields cfg); cl_staged := None |}.
Lemma normalized : Normalize (UC := ascii_case) cfg0 = Ok cfg.
Proof. vm_compute. reflexivity. Qed.
Lemma collector_built : NewCollector (UC := ascii_case) cfg0 = Ok (Some collector).
Proof. unfold NewCollector. rewrite normalized. reflexivity. Qed.

Definition row (state ssn : string) : vmap := [("state", VString state); ("ssn", VString ssn)].
(** Two inputs are kept, one is thrown away. *)
Definition ops (id : string) : list op :=
  [OpBegin; OpRecords [row "CA" id; row "NY" "333"]; OpCommit; OpBegin; OpRecords [row "TX" "999"]; OpDiscard;
   OpRecords [row "CA" id]].
Lemma kept : durable (ops "111") = [row "CA" "111"; row "NY" "333"; row "CA" "111"].
Proof. reflexivity. Qed.
Lemma numbers : numbers_ok cfg (durable (ops "111")).
Proof. repeat constructor. Qed.
(** The state with one record only is not listed. *)
Definition shown : gmap string nat := {["CA" := 2]}.
Definition result : FieldResult := {|
  fr_Tier := "enumeration"; fr_Status := "complete"; fr_Count := 3; fr_NullCount := 0; fr_DistinctCount := DCount 2;
  fr_Distinct := Some shown; fr_Shape := ""; fr_Length := None; fr_Min := None; fr_Max := None |}.
Lemma published : pr_Fields (Snapshot (foldl (run_op map_to_list) collector (ops "111"))) !! "state" = Some result.
Proof. vm_compute. reflexivity. Qed.
Lemma alike_ids : indistinguishable (vget "ssn" <$> durable (ops "111")) (vget "ssn" <$> durable (ops "222")).
Proof.
  split.
  - change (Forall2 alike [VString "111"; VString "333"; VString "111"] [VString "222"; VString "333"; VString "222"]).
    repeat constructor; (intros; vm_compute; done) || (vm_compute; done).
  - intros i j. change (texts (vget "ssn" <$> durable (ops "111"))) with ["111"; "333"; "111"].
    change (texts (vget "ssn" <$> durable (ops "222"))) with ["222"; "333"; "222"].
    destruct i as [|[|[|i]]], j as [|[|[|j]]]; naive_solver.
Qed.

(** Where a value reads as NaN the published range depends on how the records
    were grouped: within one input the NaN is skipped, at the start of an input
    it hides what the input holds besides it. *)
Definition amounts : Config := {| vc_Enabled := true; vc_MaxDistinct := 9; vc_SmallCellThreshold := 1; vc_Fields :=
  [{| fc_Field := "n"; fc_SafeToProfile := true; fc_Sensitivity := "public"; fc_ProtectionTags := [] |}] |}.
Definition low (ops : list op) : option f64 :=
  pr_Fields (Snapshot (foldl (run_op map_to_list)
    {| cl_cfg := amounts; cl_committed := newFieldStates (vc_Fields amounts); cl_staged := None |} ops)) !! "n" ≫= fr_Min.
Definition amount (s : string) : vmap := [("n", VString s)].
Definition one_input : list op := [OpBegin; OpRecords [amount "5"; amount "NaN"; amount "1"]; OpCommit].
Definition two_inputs : list op :=
  [OpBegin; OpRecords [amount "5"]; OpCommit; OpBegin; OpRecords [amount "NaN"; amount "1"]; OpCommit].
Example nan_depends_on_inputs :
  durable one_input = durable two_inputs ∧ low one_input = Some (f_of_Z 1) ∧ low two_inputs = Some (f_of_Z 5).
Proof. split_and!; vm_compute; reflexivity. Qed.
End ProfileSample.

Lemma Normalize_spec_witness : Normalize (UC := ascii_case) ProfileSample.cfg = Ok ProfileSample.cfg.
Proof. exact (proj2 (Normalize_spec _ _ ProfileSample.normalized)). Defined.
Lemma Snapshot_durable_witness :
  Snapshot (foldl (run_op map_to_list) ProfileSample.collector (ProfileSample.ops "111"))
  = reference_profile ProfileSample.cfg (durable (ProfileSample.ops "111")).
Proof.
  exact (Snapshot_durable map_to_list (λ m, reflexivity _) _ _ _ _ ProfileSample.normalized ProfileSample.collector_built ProfileSample.numbers).
Defined.
Lemma Snapshot_guard_witness :
  ∃ f, f ∈ vc_Fields ProfileSample.cfg ∧ fc_Field f = "state" ∧ fc_SafeToProfile f = true.
Proof.
  destruct (Snapshot_guard map_to_list (λ m, reflexivity _) _ _ _ _ _ _ ProfileSample.normalized ProfileSample.collector_built
    ProfileSample.published) as (f & Hf & Hn & Hs & _).
  exists f. split; [exact Hf|]. split; [exact Hn|exact Hs].
Defined.
Lemma aggregates_hide_values_witness :
  pr_Fields (Snapshot (foldl (run_op map_to_list) ProfileSample.collector (ProfileSample.ops "111"))) !! "ssn"
  = pr_Fields (Snapshot (foldl (run_op map_to_list) ProfileSample.collector (ProfileSample.ops "222"))) !! "ssn".
Proof.
  refine (aggregates_hide_values map_to_list (λ m, reflexivity _) _ _ _ (ProfileSample.ops "111") (ProfileSample.ops "222")
    ProfileSample.ssn ProfileSample.normalized ProfileSample.collector_built _ eq_refl ProfileSample.alike_ids).
  right. left.
Defined.
