(* ===== verification/Transforms.v ===== *)
(** * Field transforms (internal/extract/transforms: types.go, registry.go, string_transforms.go)

    The registry of named string transforms and their functions. The title
    caser of golang.org/x/text is a parameter. *)
From Stdlib Require Import Ascii ZArith Lia SpecFloat.
From stdpp Require Import base list strings.
From S2P Require Import Prelude GoStrings GoUtf8 GoFloat GoStrconv GoValue.

(** A panic: the goroutine ends there, no caller sees an error value. *)
Definition panicked : gerror := Errorf "panic: slice bounds out of range" [].
(** An upper bound between length and capacity reads spare memory, one beyond
    the capacity panics; Go fixes neither. *)
Definition beyond_length : gerror := Errorf "slice bound beyond the length" [].

Definition TransformFunc := string → vmap → result string.
Record Transform := {
  tf_Name : string;
  tf_Description : string;
  tf_Category : string;
  tf_Function : TransformFunc;
}.
Record TransformRegistry := {
  tr_Transforms : list (string * Transform);
  tr_Categories : list (string * list string);
}.

(** [strings.TrimLeft] and [strings.TrimRight] for a cutset of ASCII bytes. *)
Fixpoint trim_left_set (cutset : list ascii) (s : string) : string :=
  match s with
  | "" => ""
  | String c t => if existsb (Ascii.eqb c) cutset then trim_left_set cutset t else s
  end.
Definition trim_right_set (cutset : list ascii) (s : string) : string :=
  String.rev (trim_left_set cutset (String.rev s)).
Definition white : list ascii := [" "; "009"; "010"; "013"]%char.

(** [strings.ReplaceAll(s, empty, new)]: [new] in front of every rune and behind the last. *)
Fixpoint sinsert_all (new : string) (skip : nat) (s : string) : string :=
  match s with
  | "" => new
  | String c t =>
      match skip with
      | S k => String c (sinsert_all new k t)
      | 0 => new +:+ String c (sinsert_all new ((decode_rune c t).2 - 1) t)
      end
  end.
Definition ReplaceAll (old new s : string) : string :=
  if old =s? "" then sinsert_all new 0 s else sreplace_all old new s.

(** The string-typed parameter of a name. *)
Definition string_param (k : string) (params : vmap) : option string :=
  match vget k params with VString s => Some s | _ => None end.

Section transforms.
Context `{UC : UnicodeCase} (title : string → string).
(** What converting a float outside the [int] range gives on the platform. *)
Context (float_overflow : f64 → Z).

Definition TrimTransform : TransformFunc := λ value _, Ok (trim_space value).
Definition LTrimTransform : TransformFunc := λ value _, Ok (trim_left_set white value).
Definition RTrimTransform : TransformFunc := λ value _, Ok (trim_right_set white value).
Definition UpperTransform : TransformFunc := λ value _, Ok (to_upper value).
Definition LowerTransform : TransformFunc := λ value _, Ok (to_lower value).
Definition TitleTransform : TransformFunc := λ value _, Ok (title value).
Definition ReplaceTransform : TransformFunc := λ value params,
  match string_param "old" params with
  | None => errorf "replace transform requires 'old' parameter" []
  | Some old =>
      match string_param "new" params with
      | None => errorf "replace transform requires 'new' parameter" []
      | Some new => Ok (ReplaceAll old new value)
      end
  end.

(** [int(c)] of a float. *)
Definition float_to_int (f : f64) : Z :=
  let z := f_to_Z f in
  if is_nan f || is_inf f || negb ((- 2 ^ 63 <=? z)%Z && (z <? 2 ^ 63)%Z) then float_overflow f else z.

Definition blind_mode (params : vmap) : string := default "keep_first" (string_param "mode" params).
Definition blind_count (params : vmap) : Z :=
  match vget "count" params with
  | VInt KInt c => c
  | VFloat c => float_to_int c
  | _ => 4
  end.
(** The first byte of the parameter. *)
Definition blind_char (params : vmap) : string :=
  match string_param "mask_char" params with
  | Some (String c _) => String c ""
  | _ => "*"
  end.

(** [strings.LastIndex(s, "@")]. *)
Fixpoint last_at (s : string) : option nat :=
  match s with
  | "" => None
  | String c t =>
      match last_at t with
      | Some i => Some (S i)
      | None => if (c =c? "@"%char) then Some 0 else None
      end
  end.
(** [string(runes[:n])]. *)
Definition runes_upto (rs : list Z) (n : Z) : result string :=
  if (n <? 0)%Z then Err panicked
  else if (Z.of_nat (length rs) <? n)%Z then Err beyond_length
  else Ok (of_runes (take (Z.to_nat n) rs)).
(** [string(runes[n:])]. *)
Definition runes_from (rs : list Z) (n : Z) : result string :=
  if ((n <? 0) || (Z.of_nat (length rs) <? n))%Z then Err panicked
  else Ok (of_runes (drop (Z.to_nat n) rs)).

(** The local part is measured in bytes and cut from the runes. *)
Definition blind_domain (mask : string) (count : Z) (rs : list Z) (at_ : nat) : result string :=
  domain ← runes_from rs (Z.of_nat at_);
  local ← runes_upto rs (Z.of_nat at_);
  let n := Z.of_nat (slen local) in
  if (n <=? count)%Z then Ok (srepeat mask (slen local) +:+ domain)
  else
    kept ← runes_upto rs count;
    Ok (kept +:+ srepeat mask (Z.to_nat (n - count)) +:+ domain).

Definition BlindStringTransform : TransformFunc := λ value params,
  let mode := blind_mode params in
  let count := blind_count params in
  let mask := blind_char params in
  let rs := runes value in
  let len := Z.of_nat (length rs) in
  if (length rs =? 0)%nat then Ok value
  else if mode =s? "keep_first" then
    if (len <=? count)%Z then Ok (srepeat mask (length rs))
    else
      kept ← runes_upto rs count;
      Ok (kept +:+ srepeat mask (Z.to_nat (len - count)))
  else if mode =s? "keep_last" then
    if (len <=? count)%Z then Ok (srepeat mask (length rs))
    else
      kept ← runes_from rs (len - count);
      Ok (srepeat mask (Z.to_nat (len - count)) +:+ kept)
  else if mode =s? "keep_domain" then
    match last_at value with
    | Some (S i) => blind_domain mask count rs (S i)
    | _ => TrimTransform value params
    end
  else if mode =s? "mask_all" then Ok (srepeat mask (length rs))
  else errorf "unknown blind_string mode: %s" [AStr mode].

(** ** The registry *)
Definition Register (r : TransformRegistry) (t : Transform) : TransformRegistry := {|
  tr_Transforms := mset (tf_Name t) t (tr_Transforms r);
  tr_Categories :=
    mset (tf_Category t) (default [] (mget (tf_Category t) (tr_Categories r)) ++ [tf_Name t]) (tr_Categories r) |}.
Definition Get (r : TransformRegistry) (name : string) : result Transform :=
  match mget name (tr_Transforms r) with
  | Some t => Ok t
  | None => errorf "transform '%s' not found" [AStr name]
  end.
Definition List_ (r : TransformRegistry) : list string := sort_by sleb (mkeys (tr_Transforms r)).
Definition ListByCategory (r : TransformRegistry) : list (string * list string) :=
  (λ kv, (kv.1, sort_by sleb kv.2)) <$> tr_Categories r.
Definition Apply (r : TransformRegistry) (name value : string) (params : vmap) : result string :=
  t ← Get r name; tf_Function t value params.

Definition string_transforms : list Transform := [
  {| tf_Name := "trim"; tf_Description := "Remove leading and trailing whitespace";
     tf_Category := "string"; tf_Function := TrimTransform |};
  {| tf_Name := "ltrim"; tf_Description := "Remove leading whitespace";
     tf_Category := "string"; tf_Function := LTrimTransform |};
  {| tf_Name := "rtrim"; tf_Description := "Remove trailing whitespace";
     tf_Category := "string"; tf_Function := RTrimTransform |};
  {| tf_Name := "upper"; tf_Description := "Convert to uppercase";
     tf_Category := "string"; tf_Function := UpperTransform |};
  {| tf_Name := "lower"; tf_Description := "Convert to lowercase";
     tf_Category := "string"; tf_Function := LowerTransform |};
  {| tf_Name := "title"; tf_Description := "Convert to title case";
     tf_Category := "string"; tf_Function := TitleTransform |};
  {| tf_Name := "replace"; tf_Description := "Replace substrings in the value";
     tf_Category := "string"; tf_Function := ReplaceTransform |};
  {| tf_Name := "blind_string"; tf_Description := "Blind sensitive string data with configurable masking";
     tf_Category := "string"; tf_Function := BlindStringTransform |}].
Definition NewTransformRegistry : TransformRegistry :=
  foldl Register {| tr_Transforms := []; tr_Categories := [] |} string_transforms.
End transforms.

(** ** What blinding shows

    [blinded mode count rs m]: the runes the result of a mode has. *)
Definition blinded (mode : string) (count : Z) (rs : list Z) (m : Z) : list Z :=
  let k := Z.to_nat count in
  if (Z.of_nat (length rs) <=? count)%Z || (mode =s? "mask_all") then masked rs 0 0 m
  else if mode =s? "keep_first" then masked rs k 0 m else masked rs 0 k m.

Section blinding.
Context `{UC : UnicodeCase} (overflow : f64 → Z).
Implicit Types (value mode : string) (params : vmap) (rs : list Z).
Notation Blind := (BlindStringTransform overflow).

Lemma blind_char_rune params : (blind_char params =s? "") = false.
Proof. unfold blind_char. by destruct (string_param _ _) as [[|c s]|]. Qed.
Lemma runes_upto_ok rs n : (0 ≤ n ≤ Z.of_nat (length rs))%Z →
  runes_upto rs n = Ok (of_runes (take (Z.to_nat n) rs)).
Proof. intros H. unfold runes_upto. by rewrite !(proj2 (Z.ltb_ge _ _)) by lia. Qed.
Lemma runes_from_ok rs n : (0 ≤ n ≤ Z.of_nat (length rs))%Z →
  runes_from rs n = Ok (of_runes (drop (Z.to_nat n) rs)).
Proof. intros H. unfold runes_from. by rewrite !(proj2 (Z.ltb_ge _ _)) by lia. Qed.

Lemma masked_none rs m : masked rs 0 0 m = replicate (length rs) m.
Proof. unfold masked. rewrite !Nat.sub_0_r, drop_all. by rewrite app_nil_r. Qed.
Lemma runes_srepeat mask m n : rune_count mask = 1%nat → runes mask = [m] →
  ∀ t, boundary t → runes (srepeat mask n +:+ t) = replicate n m ++ runes t.
Proof.
  intros Hc Hm t Ht. destruct (srepeat_runes mask Hc) as (r & Hr & Hrep).
  rewrite Hm in Hr. injection Hr as <-. by apply Hrep.
Qed.

(** A value under keep_first, keep_last or mask_all has as many runes
    after blinding as before, at most [count] of them its own, and none when
    [count] covers the value. *)
Theorem BlindStringTransform_spec value params m :
  blind_mode params ∈ ["keep_first"; "keep_last"; "mask_all"] → (0 ≤ blind_count overflow params)%Z →
  rune_count (blind_char params) = 1 → runes (blind_char params) = [m] →
  ∃ out, Blind value params = Ok out ∧
    runes out = blinded (blind_mode params) (blind_count overflow params) (runes value) m.
Proof.
  intros Hmode Hcount Hc Hm. pose proof (λ n, runes_srepeat (blind_char params) m n) as Hrep.
  set (rs := runes value). set (count := blind_count overflow params) in *. set (mask := blind_char params) in *.
  assert (∀ n, runes (srepeat mask n) = replicate n m) as Hall.
  { intros n. rewrite <- (sapp_nil_r (srepeat mask n)), (Hrep n Hc Hm) by done. apply app_nil_r. }
  unfold BlindStringTransform. fold rs count mask. destruct (Nat.eqb_spec (length rs) 0) as [Hn|Hn].
  { exists value. split; [done|]. fold rs. apply nil_length_inv in Hn. rewrite Hn. unfold blinded, masked.
    repeat case_match; simpl; by rewrite ?take_nil, ?drop_nil. }
  unfold blinded. rewrite !elem_of_cons, elem_of_nil in Hmode. destruct Hmode as [->|[->|[->|[]]]]; simpl (_ =s? _); cbn iota;
    rewrite ?orb_false_r, ?orb_true_r.
  - destruct (Z.leb_spec (Z.of_nat (length rs)) count) as [Hle|Hlt].
    { eexists. split; [done|]. by rewrite Hall, masked_none. }
    rewrite runes_upto_ok by lia. eexists. split; [done|]. rewrite runes_of_runes by apply valid_take.
    rewrite Hall. unfold masked. rewrite !Nat.sub_0_r, drop_all, app_nil_r. f_equal; f_equal; lia.
  - destruct (Z.leb_spec (Z.of_nat (length rs)) count) as [Hle|Hlt].
    { eexists. split; [done|]. by rewrite Hall, masked_none. }
    rewrite runes_from_ok by lia. eexists. split; [done|].
    rewrite (Hrep _ Hc Hm) by apply of_runes_boundary, valid_drop.
    rewrite of_runes_decode by apply valid_drop. unfold masked. rewrite take_0, Nat.sub_0_r. cbn [app].
    f_equal; f_equal; lia.
  - eexists. split; [done|]. by rewrite Hall, masked_none.
Qed.
End blinding.

(** Without an at-sign keep_domain returns the value as it is. *)
Example keep_domain_shows_all :
  BlindStringTransform (λ _, 0%Z) "123-45-6789" [("mode", VString "keep_domain")] = Ok "123-45-6789".
Proof. reflexivity. Qed.
(** A local part beyond ASCII is cut at the wrong rune, or ends the run. *)
Example keep_domain_cuts_bytes :
  BlindStringTransform (λ _, 0%Z) "ééé@x" [("mode", VString "keep_domain")] = Err panicked.
Proof. reflexivity. Qed.
(** Only the first byte of a mask character is used. *)
Example mask_char_is_a_byte :
  BlindStringTransform (λ _, 0%Z) "ab" [("mode", VString "mask_all"); ("mask_char", VString "é")]
  = Ok (String (bchr 195) (String (bchr 195) "")).
Proof. reflexivity. Qed.

Lemma BlindStringTransform_spec_witness :
  ∃ out, BlindStringTransform (λ _, 0%Z) "4111-2222" [("mode", VString "keep_last"); ("count", VInt KInt 4)] = Ok out ∧
    runes out = runes "*****2222".
Proof.
  destruct (BlindStringTransform_spec (λ _, 0%Z) "4111-2222" [("mode", VString "keep_last"); ("count", VInt KInt 4)] 42)
    as (out & Ho & Hr).
  - vm_compute. right. left.
  - vm_compute. discriminate.
  - reflexivity.
  - reflexivity.
  - exists out. split; [exact Ho|]. rewrite Hr. reflexivity.
Defined.
