(* ===== verification/Extract.v ===== *)
(** * Record extraction (internal/extract: types.go, extractor.go, internalfield.go, helpers.go, sink.go)

    From a parsed document to the records a recipe selects: values taken by
    XPath or expression and coerced to their declared type, projection of
    derive-only fields, filters, output validation, the output envelope with
    summaries. The XPath library, the schema validator and the documents
    themselves are the interface [Engine]. *)
From Stdlib Require Import Ascii ZArith Lia SpecFloat.
From stdpp Require Import base list strings.
From S2P Require Import Prelude GoStrings GoFloat GoStrconv GoValue DslTypes DslParser DslEval DslAccum DslRuntime Transforms.

(** ** The interface to documents and libraries *)

(** What [xpath.Expr.Evaluate] returns; a node set is the list of positions its
    iterator visits. *)
Inductive xvalue (P : Type) :=
| XNil
| XBool (b : bool)
| XNum (f : f64)
| XStr (s : string)
| XNodes (l : list P)
| XOther (text : string).
Arguments XNil {P}. Arguments XBool {P} b. Arguments XNum {P} f. Arguments XStr {P} s.
Arguments XNodes {P} l. Arguments XOther {P} text.

Class Engine := {
  dnode : Type;                                   (* docnode.Node *)
  local_name : dnode → string;
  node_text : dnode → string;
  child_elements : dnode → list dnode;            (* FirstElementChild, NextElementSibling *)
  xpos : Type;                                    (* a position of an xpath navigator *)
  node_of : xpos → option dnode;                  (* Format.NodeOf *)
  pos_value : xpos → string;
  pos_is_null : xpos → bool;                      (* a docnode.Scalar of kind null *)
  xexpr : Type;                                   (* xpath.Expr *)
  xpath_Compile : string → result xexpr;
  xpath_CompileWithNS : string → list (string * string) → result xexpr;
  xpath_Evaluate : xexpr → dnode → xvalue xpos;
  validator : Type;                               (* schema.Validator *)
  NewValidator : vmap → result validator;
  Validate_ : validator → vmap → result (list (string * string));
  title_case : string → string;                   (* x/text/cases *)
  fold_equal : Z → Z → bool;                      (* simple case folding beyond ASCII *)
  float_overflow : f64 → Z;                       (* int64 of a float out of range *)
  rfc3339 : Z → string;                           (* time.Time.Format *)
  totals_order : list (string * f64) → list (string * f64);   (* a range over grouped totals *)
}.

(** A fallible map over a list, in order. *)
Section mapR.
Context {A B : Type} (f : A → result B).
Fixpoint mapR (l : list A) : result (list B) :=
  match l with
  | [] => Ok []
  | a :: l => b ← f a; bs ← mapR l; Ok (b :: bs)
  end.
End mapR.

(** ** Configuration (types.go) *)
Section types.
Context `{Engine}.

Inductive FieldMapping : Type := mkFieldMapping {
  fm_OutputField : string;
  fm_XPath : string;
  fm_Expression : string;
  fm_Type : string;
  fm_Transform : string;
  fm_TransformParams : vmap;
  fm_Internal : bool;
  fm_ItemMapping : list FieldMapping;
  fm_Polymorphic : list PolymorphicMapping;
  fm_CompiledXPath : option xexpr;
}
with PolymorphicMapping : Type := mkPolymorphicMapping {
  pm_ElementType : string;
  pm_MatchXPath : string;
  pm_ItemType : string;
  pm_FieldMappings : list FieldMapping;
  pm_CompiledMatchXPath : option xexpr;
}.
Record MatchSelector := {
  ms_XPath : string;
  ms_MinOccurrences : Z;
  ms_CompiledXPath : option xexpr;
}.
Record OutputOptions := { oo_ShowSummaries : option bool; oo_ShowValidationMetadata : option bool }.
Record SummaryComponentConfig := {
  sc_Name : string; sc_Label : string; sc_Expression : string; sc_Remainder : bool; sc_Format : string;
}.
Record SummaryConfig := {
  su_Name : string; su_Label : string; su_Format : string;
  su_Total : string;                              (* SummaryValueConfig.Expression *)
  su_Components : list SummaryComponentConfig;
}.
Record ExtractRecordMatch := {
  em_RecordType : string;
  em_Namespaces : list (string * string);
  em_MatchSelectors : list MatchSelector;
  em_OutputSchema : vmap;
  em_FieldMappings : list FieldMapping;
  em_Filters : vmap;
  em_ValidationMetadata : option ValidationMetadata;
  em_OutputOptions : option OutputOptions;
  em_Summaries : list SummaryConfig;
  em_UniformSchema : bool;
  em_OutputValidator : option validator;
  em_ReferenceTables : option ReferenceLookup;
}.
(** A parsed document and the token of its format. *)
Record Document := { doc_Root : dnode; doc_Format : string }.
End types.

(** ** Derive-only values (internalfield.go) *)
Inductive carrier := Plain (v : value) | InternalField (v : value).
Notation fields := (list (string * carrier)).
Definition unwrapInternalFieldValue (c : carrier) : value := match c with Plain v | InternalField v => v end.
Definition isInternalField (c : carrier) : bool := match c with InternalField _ => true | Plain _ => false end.
Definition projectInternalMappedFields (record : fields) : vmap :=
  omap (λ kc, match kc.2 with Plain v => Some (kc.1, v) | InternalField _ => None end) record.
Definition storeMappedValue `{Engine} (record : fields) (mapping : FieldMapping) (v : value) : fields :=
  if is_nil v then record
  else if fm_Internal mapping then mset (fm_OutputField mapping) (InternalField v) record
  else mset (fm_OutputField mapping) (Plain v) record.

(** ** Coercion *)
(** [strconv.FormatFloat(x, 'f', -1, 64)]: the shortest digits, no exponent. *)
Definition format_fixed (x : f64) : string :=
  match x with
  | S754_nan => "NaN"
  | S754_infinity s => if s then "-Inf" else "+Inf"
  | S754_zero s => if s then "-0" else "0"
  | S754_finite s _ _ =>
      let '(d, k) := shortest x in
      let all := digits_of d in
      let digs := trim_zeros all in
      let exp := (Z.of_nat (slen all) + k - 1)%Z in
      let int := Z.to_nat (exp + 1) in
      let body :=
        if (exp <? 0)%Z then "0." +:+ srepeat "0" (Z.to_nat (- exp - 1)) +:+ digs
        else if (slen digs <=? int)%nat then digs +:+ srepeat "0" (int - slen digs)
        else stake int digs +:+ "." +:+ sdrop int digs in
      (if s then "-" else "") +:+ body
  end.

Section coerce.
Context `{UC : UnicodeCase, EN : Engine}.

Definition coerceString (v : value) : result value :=
  match v with
  | VNil => Ok VNil
  | VString s => Ok (VString (trim_space s))
  | VFloat f => Ok (VString (format_fixed f))
  | VBool b => Ok (VString (if b then "true" else "false"))
  | _ => Ok (VString (sprint v))
  end.
Definition coerceNumber (v : value) : result value :=
  match v with
  | VNil => Ok VNil
  | VFloat f | VFloat32 f => Ok (VFloat f)
  | VInt _ z => Ok (VFloat (f_of_Z z))
  | VString s =>
      let s := trim_space s in
      if s =s? "" then Ok VNil
      else match parse_float s with
           | Some f => Ok (VFloat f)
           | None => errorf "failed to parse number %q: %w" [AStr s]
           end
  | VBool b => Ok (VFloat (if b then f_of_Z 1 else fzero))
  | _ => errorf "unsupported numeric value type %T" [AVal v]
  end.
Definition uint64ToInt64 (z : Z) : result Z :=
  if (2 ^ 63 - 1 <? z)%Z then errorf "uint64 value %d overflows int64" [AInt z] else Ok z.
Definition coerceInteger (v : value) : result value :=
  match v with
  | VNil => Ok VNil
  | VFloat f | VFloat32 f => Ok (VInt KInt64 (float_to_int float_overflow f))
  | VInt (KUint | KUint64) z => z ← uint64ToInt64 z; Ok (VInt KInt64 z)
  | VInt _ z => Ok (VInt KInt64 z)
  | VString s =>
      let s := trim_space s in
      if s =s? "" then Ok VNil
      else if scontains_byte "."%char s then
        match parse_float s with
        | Some f => Ok (VInt KInt64 (float_to_int float_overflow f))
        | None => errorf "failed to parse float %q for integer conversion: %w" [AStr s]
        end
      else match parse_int s with
           | Some z => Ok (VInt KInt64 z)
           | None => errorf "failed to parse integer %q: %w" [AStr s]
           end
  | VBool b => Ok (VInt KInt64 (if b then 1 else 0))
  | _ => errorf "unsupported integer value type %T" [AVal v]
  end.
Definition coerceBoolean (v : value) : result value :=
  match v with
  | VNil => Ok (VBool false)
  | VBool b => Ok (VBool b)
  | VFloat f | VFloat32 f => Ok (VBool (negb (feqb f fzero)))
  | VInt _ z => Ok (VBool (negb (z =? 0)%Z))
  | VString s =>
      let s := to_lower (trim_space s) in
      if existsb (String.eqb s) [""; "0"; "false"; "no"; "off"] then Ok (VBool false) else Ok (VBool true)
  | _ => errorf "unsupported boolean value type %T" [AVal v]
  end.
(** The switch on the declared type at the end of both kinds of mapping. *)
Definition coerce (typeName : string) (v : value) : result value :=
  if typeName =s? "number" then coerceNumber v
  else if typeName =s? "integer" then coerceInteger v
  else if typeName =s? "boolean" then coerceBoolean v
  else if (typeName =s? "string") || (typeName =s? "") then coerceString v
  else Ok v.

(** ** XPath *)
Definition compileXPath (expr : string) (ns : list (string * string)) : result xexpr :=
  match ns with [] => xpath_Compile expr | _ => xpath_CompileWithNS expr ns end.

(** [strings.EqualFold]. *)
Definition rune_fold (r r' : Z) : bool :=
  (r =? r')%Z || (if ((r <? 128) && (r' <? 128))%Z then (to_lower_rune r =? to_lower_rune r')%Z else fold_equal r r').
Fixpoint runes_fold (l l' : list Z) : bool :=
  match l, l' with
  | [], [] => true
  | r :: l, r' :: l' => rune_fold r r' && runes_fold l l'
  | _, _ => false
  end.
Definition EqualFold (s t : string) : bool := runes_fold (runes s) (runes t).

Definition compiled_or (compiled : option xexpr) (expr : string) : result xexpr :=
  match compiled with Some x => Ok x | None => xpath_Compile expr end.
Definition no_expression (expr : string) (compiled : option xexpr) : bool :=
  (trim_space expr =s? "") && match compiled with None => true | Some _ => false end.

(** [format] is the document's token; only json knows null values. *)
Definition isNullNode (format : string) (p : xpos) : bool := (format =s? "json") && pos_is_null p.
Definition evaluateXPathValue (format : string) (node : dnode) (expr : string) (compiled : option xexpr)
    : result value :=
  if no_expression expr compiled then Ok VNil
  else
    xp ← wrapf "failed to compile XPath %s: %w" [AStr expr] (compiled_or compiled expr);
    Ok match xpath_Evaluate xp node with
       | XNil => VNil
       | XBool b => VBool b
       | XNum f => VFloat f
       | XStr s => VString (trim_space s)
       | XNodes [] => VNil
       | XNodes (p :: _) => if isNullNode format p then VNil else VString (trim_space (pos_value p))
       | XOther text => VString text
       end.
Definition collectNodes (l : list xpos) : list dnode := omap node_of l.
(** A scalar result gives no nodes, true or not. *)
Definition evaluateNodeSet (node : dnode) (compiled : option xexpr) (expr : string) : result (list dnode) :=
  match compiled with
  | None =>
      let expr := trim_space expr in
      if expr =s? "" then Ok []
      else
        xp ← wrapf "failed to compile XPath %q: %w" [AStr expr] (xpath_Compile expr);
        Ok match xpath_Evaluate xp node with XNodes l => collectNodes l | _ => [] end
  | Some xp => Ok match xpath_Evaluate xp node with XNodes l => collectNodes l | _ => [] end
  end.
Definition evaluateExists (node : dnode) (expr : string) (compiled : option xexpr) : result bool :=
  if no_expression expr compiled then Ok false
  else
    nodes ← wrapf "failed to evaluate XPath %s: %w" [AStr expr] (evaluateNodeSet node compiled expr);
    Ok (0 <? length nodes)%nat.

Definition findChildrenByNameAll (node : dnode) (name : string) : list dnode :=
  filter (λ c, EqualFold (local_name c) name = true) (child_elements node).
Definition resolvePolymorphicTargets (node : dnode) (pm : PolymorphicMapping) : result (list dnode) :=
  if negb (no_expression (pm_MatchXPath pm) (pm_CompiledMatchXPath pm)) then
    evaluateNodeSet node (pm_CompiledMatchXPath pm) (pm_MatchXPath pm)
  else if negb (trim_space (pm_ElementType pm) =s? "") then
    let matches := findChildrenByNameAll node (pm_ElementType pm) in
    Ok (if EqualFold (local_name node) (pm_ElementType pm) then node :: matches else matches)
  else Ok [node].
Definition checkUnmatchedPolymorphic (format : string) (sources : list dnode) (mapping : FieldMapping) : result unit :=
  if negb ((format =s? "json") || (format =s? "ndjson")) then Ok ()
  else if negb (existsb (λ pm, negb (trim_space (pm_ElementType pm) =s? "")) (fm_Polymorphic mapping)) then Ok ()
  else
    let items := length (filter (λ src, child_elements src ≠ []) sources) in
    if (items =? 0)%nat then Ok ()
    else errorf "field mapping %q: no polymorphic branch matched %d items; expected the wrapper idiom"
           [AStr (fm_OutputField mapping); AInt (Z.of_nat items)].
End coerce.

(** ** Values of field mappings *)
Section mappings.
Context `{UC : UnicodeCase, EN : Engine}.

Definition transformRegistry : TransformRegistry := NewTransformRegistry title_case float_overflow.

(** [extractValue] for a type other than array. *)
Definition extractScalar (format : string) (node : dnode) (m : FieldMapping) : result value :=
  if fm_XPath m =s? "" then Ok VNil
  else
    v ← evaluateXPathValue format node (fm_XPath m) (fm_CompiledXPath m);
    if fm_Transform m =s? "exists" then
      found ← evaluateExists node (fm_XPath m) (fm_CompiledXPath m); Ok (VBool found)
    else if negb (fm_Transform m =s? "") then
      t ← Apply transformRegistry (fm_Transform m) (sprint v) (fm_TransformParams m); Ok (VString t)
    else coerce (to_lower (fm_Type m)) v.

(** The item of one polymorphic branch; absent values leave no key. *)
Definition polymorphic_item (pm : PolymorphicMapping) (values : list (string * value)) : vmap :=
  let item := foldl (λ r kv, if is_nil kv.2 then r else mset kv.1 kv.2 r) [] values in
  if (pm_ItemType pm =s? "") then item
  else match mget "item_type" item with
       | Some _ => item
       | None => mset "item_type" (VString (pm_ItemType pm)) item
       end.
Definition array_item (values : list (string * value)) : vmap :=
  foldl (λ r kv, mset kv.1 kv.2 r) [] values.
Definition node_texts (nodes : list dnode) : list value :=
  omap (λ n, let v := trim_space (node_text n) in if v =s? "" then None else Some (VString v)) nodes.

(** [extractArrayValue]; [extract] is [extractValue] on the nested mappings. *)
Definition extract_items (extract : FieldMapping → dnode → result value) (item : dnode) (fms : list FieldMapping)
    : result (list (string * value)) :=
  mapR (λ fm, v ← extract fm item; Ok (fm_OutputField fm, v)) fms.
Definition extract_branch (extract : FieldMapping → dnode → result value) (source : dnode) (pm : PolymorphicMapping)
    : result (list vmap) :=
  targets ← resolvePolymorphicTargets source pm;
  mapR (λ target,
    values ← extract_items (λ fm n,
        wrapf "failed to extract polymorphic field %s: %w" [AStr (fm_OutputField fm)] (extract fm n))
      target (pm_FieldMappings pm);
    Ok (polymorphic_item pm values)) targets.
Definition extractArrayValue (extract : FieldMapping → dnode → result value) (format : string) (m : FieldMapping)
    (node : dnode) : result value :=
  nodes ← wrapf "failed to evaluate XPath %s: %w" [AStr (fm_XPath m)]
            (evaluateNodeSet node (fm_CompiledXPath m) (fm_XPath m));
  if (length nodes =? 0)%nat then Ok VNil
  else if (0 <? length (fm_Polymorphic m))%nat then
    items ← mapR (λ source, mapR (extract_branch extract source) (fm_Polymorphic m)) nodes;
    let items := filter (λ item, item ≠ []) (mjoin (mjoin items)) in
    if (length items =? 0)%nat then
      _ ← checkUnmatchedPolymorphic format nodes m; Ok VNil
    else Ok (VMaps items)
  else if (0 <? length (fm_ItemMapping m))%nat then
    items ← mapR (λ item,
      values ← extract_items extract item (fm_ItemMapping m); Ok (array_item values)) nodes;
    Ok (VMaps items)
  else
    let values := node_texts nodes in
    Ok (if (length values =? 0)%nat then VNil else VList values).

Fixpoint extractValue (format : string) (m : FieldMapping) (node : dnode) {struct m} : result value :=
  if to_lower (fm_Type m) =s? "array" then extractArrayValue (extractValue format) format m node
  else extractScalar format node m.

(** ** Expressions and records *)
Definition collision (key : string) : gerror :=
  Errorf "external field key %q collides with extracted record field" [AStr key].
Definition buildExpressionScope (record externalFields : fields) : result vmap :=
  foldM (λ scope kc, match mget kc.1 scope with
                     | Some _ => Err (collision kc.1)
                     | None => Ok (mset kc.1 (unwrapInternalFieldValue kc.2) scope)
                     end)
    (foldl (λ scope kc, mset kc.1 (unwrapInternalFieldValue kc.2) scope) [] record) externalFields.

Definition extractExpressionValue (m : FieldMapping) (record externalFields : fields)
    (references : option ReferenceLookup) : result value :=
  let expression := trim_space (fm_Expression m) in
  if expression =s? "" then Ok VNil
  else if negb (trim_space (fm_Transform m) =s? "") then
    errorf "transform %q is not supported for expression field %s" [AStr (fm_Transform m); AStr (fm_OutputField m)]
  else if (0 <? length (fm_TransformParams m))%nat then
    errorf "transform_params are not supported for expression field %s" [AStr (fm_OutputField m)]
  else
    expr ← wrapf "failed to parse expression for field %s (%q): %w" [AStr (fm_OutputField m); AStr expression]
             (ParseExpression expression);
    scope ← buildExpressionScope record externalFields;
    v ← wrapf "failed to evaluate expression for field %s (%q): %w" [AStr (fm_OutputField m); AStr expression]
          (EvaluateExpression (NewEvaluator scope references) expr);
    coerce (to_lower (fm_Type m)) v.

Fixpoint rejectExternalCollisionsWithInternalMappings (mappings : list FieldMapping) (externalFields : fields)
    : result unit :=
  match mappings with
  | [] => Ok ()
  | m :: mappings =>
      let name := trim_space (fm_OutputField m) in
      if fm_Internal m && negb (name =s? "") && bool_decide (is_Some (mget name externalFields)) then
        errorf "external field key %q collides with internal field_mappings output_field" [AStr name]
      else rejectExternalCollisionsWithInternalMappings mappings externalFields
  end.

Definition is_expression (m : FieldMapping) : bool := negb (trim_space (fm_Expression m) =s? "").
Definition xpath_phase (format : string) (node : dnode) (mappings : list FieldMapping) : result fields :=
  foldM (λ record m,
    if is_expression m then Ok record
    else
      v ← wrapf "failed to extract value for field %s: %w" [AStr (fm_OutputField m)] (extractValue format m node);
      Ok (storeMappedValue record m v)) [] mappings.
Definition expression_phase (externalFields : fields) (references : option ReferenceLookup)
    (record : fields) (mappings : list FieldMapping) : result fields :=
  foldM (λ record m,
    if negb (is_expression m) then Ok record
    else
      v ← extractExpressionValue m record externalFields references;
      Ok (storeMappedValue record m v)) record mappings.
Definition merge_external (record externalFields : fields) : result fields :=
  foldM (λ record kc,
    match mget kc.1 record with
    | Some _ => Err (collision kc.1)
    | None => Ok (if isInternalField kc.2 then record else mset kc.1 kc.2 record)
    end) record externalFields.
Definition buildProjectedRecord (format : string) (node : dnode) (cfg : ExtractRecordMatch)
    (externalFields : fields) : result vmap :=
  _ ← rejectExternalCollisionsWithInternalMappings (em_FieldMappings cfg) externalFields;
  record ← xpath_phase format node (em_FieldMappings cfg);
  record ← expression_phase externalFields (em_ReferenceTables cfg) record (em_FieldMappings cfg);
  record ← merge_external record externalFields;
  Ok (projectInternalMappedFields record).

Definition schema_properties (schema : vmap) : option vmap :=
  match vget "properties" schema with VMap m => Some m | _ => None end.
Definition applyUniformSchema (record : vmap) (cfg : ExtractRecordMatch) : vmap :=
  if negb (em_UniformSchema cfg) then record
  else match schema_properties (em_OutputSchema cfg) with
       | None => record
       | Some properties =>
           foldl (λ r kv, match mget kv.1 r with Some _ => r | None => mset kv.1 VNil r end) record properties
       end.

(** Only conditions of the form [> text] on string values are compared, and as text. *)
Definition passes_condition (record : vmap) (kv : string * value) : bool :=
  match mget kv.1 record, kv.2 with
  | Some (VString s), VString cond =>
      negb (has_prefix "> " cond && sleb s (trim_prefix "> " cond))
  | _, _ => true
  end.
Definition passesFilters (record filters : vmap) : bool := forallb (passes_condition record) filters.

(** ** Records of a document *)
Record extractedRecord := { er_data : vmap; er_recordNum : nat }.

Definition validate_output (cfg : ExtractRecordMatch) (record : vmap) : result unit :=
  match em_OutputValidator cfg with
  | None => Ok ()
  | Some v =>
      errors ← wrapf "output schema validation failed: %w" [] (Validate_ v record);
      match errors with
      | [] => Ok ()
      | _ => errorf "output schema validation failed" ((λ e, AStr (e.1 +:+ ": " +:+ e.2)) <$> errors)
      end
  end.
(** One selected node: [None] when the filters drop its record. *)
Definition extract_node (format : string) (cfg : ExtractRecordMatch) (externalFields : fields) (node : dnode)
    : result (option vmap) :=
  record ← buildProjectedRecord format node cfg externalFields;
  let record := applyUniformSchema record cfg in
  if passesFilters record (em_Filters cfg) then
    _ ← validate_output cfg record; Ok (Some record)
  else Ok None.

(** The loop's state: the number of the last node, the records, the counts. *)
Record extraction := { ex_num : nat; ex_records : list extractedRecord; ex_counts : list nat }.
Definition extract_numbered (format : string) (cfg : ExtractRecordMatch) (externalFields : fields)
    (st : extraction) (node : dnode) : result extraction :=
  record ← extract_node format cfg externalFields node;
  Ok {| ex_num := S (ex_num st);
        ex_records := match record with
                      | Some r => ex_records st ++ [{| er_data := r; er_recordNum := S (ex_num st) |}]
                      | None => ex_records st
                      end;
        ex_counts := ex_counts st |}.
Definition select (doc : Document) (selector : MatchSelector) : result (list dnode) :=
  wrapf "failed to evaluate XPath %s: %w" [AStr (ms_XPath selector)]
    (evaluateNodeSet (doc_Root doc) (ms_CompiledXPath selector) (ms_XPath selector)).
Definition extract_selector (doc : Document) (cfg : ExtractRecordMatch) (externalFields : fields)
    (st : extraction) (selector : MatchSelector) : result extraction :=
  nodes ← select doc selector;
  st ← foldM (extract_numbered (doc_Format doc) cfg externalFields) st nodes;
  Ok {| ex_num := ex_num st; ex_records := ex_records st; ex_counts := ex_counts st ++ [length nodes] |}.
Definition extractRecordsWithCountsAndRecordNums (doc : Document) (cfg : ExtractRecordMatch)
    (externalFields : fields) : result (list extractedRecord * list nat) :=
  _ ← rejectExternalCollisionsWithInternalMappings (em_FieldMappings cfg) externalFields;
  st ← foldM (extract_selector doc cfg externalFields) {| ex_num := 0; ex_records := []; ex_counts := [] |}
         (em_MatchSelectors cfg);
  Ok (ex_records st, ex_counts st).
Definition extractRecords (doc : Document) (cfg : ExtractRecordMatch) (externalFields : fields) : result (list vmap) :=
  r ← extractRecordsWithCountsAndRecordNums doc cfg externalFields;
  Ok (er_data <$> (r : list extractedRecord * list nat).1).
Definition zeroSelectorCounts (cfg : ExtractRecordMatch) : list nat := (λ _, 0) <$> em_MatchSelectors cfg.

(** helpers.go: the record of a document that holds one. *)
Definition copyExternalFields (externalFields : fields) : vmap := projectInternalMappedFields externalFields.
Definition ExtractFieldsWithExternal (doc : Document) (cfg : ExtractRecordMatch) (externalFields : fields)
    : result vmap :=
  records ← extractRecords doc cfg externalFields;
  Ok match records with [] => copyExternalFields externalFields | r :: _ => r end.
Definition ExtractFields (doc : Document) (cfg : ExtractRecordMatch) : result vmap :=
  ExtractFieldsWithExternal doc cfg [].
End mappings.

(** ** Summaries *)
Section enrich.
Context `{UC : UnicodeCase, EN : Engine}.

Definition coerceToFloat (v : value) : result f64 :=
  match v with
  | VFloat f | VFloat32 f => Ok f
  | VInt _ z => Ok (f_of_Z z)
  | VBool b => Ok (if b then f_of_Z 1 else fzero)
  | VString s =>
      let s := trim_space s in
      if s =s? "" then Ok fzero
      else match parse_float s with
           | Some f => Ok f
           | None => errorf "failed to parse numeric string %q: %w" [AStr s]
           end
  | _ => errorf "unsupported numeric expression result type %T" [AVal v]
  end.
Definition micro : f64 := f_of_ratio false 1 1000000.
Definition nano : f64 := f_of_ratio false 1 1000000000.
(** Six decimals; an integral result becomes an integer. *)
Definition normalizeNumber (v : f64) : value :=
  if is_nan v || is_inf v then VFloat v
  else
    let rounded := fdiv (fround (fmul v (f_of_Z 1000000))) (f_of_Z 1000000) in
    if fltb (fabs (fsub rounded (fround rounded))) micro
    then VInt KInt64 (float_to_int float_overflow (fround rounded))
    else VFloat rounded.
Definition evaluateNumericExpression (expression : string) (variables : vmap) : result f64 :=
  let expression := trim_space expression in
  if expression =s? "" then Ok fzero
  else
    expr ← ParseExpression expression;
    v ← EvaluateExpression (NewEvaluator variables None) expr;
    coerceToFloat v.
Definition buildVariableMap (runtime : option ValidationRuntime) (record : vmap) : result vmap :=
  match runtime with
  | None => Ok (mcopy record [])
  | Some rt =>
      variables ← foldM (λ vars na,
        r ← wrapf "failed to get accumulator %s result: %w" [AStr na.1] (GetResult na.2);
        Ok (mset na.1 r vars)) (mcopy record []) (rt_Accumulators rt);
      Ok (mcopy (rt_ReconciliationScalars rt) (mcopy (rt_AggregationResults rt) variables))
  end.

Definition summary_component (c : SummaryComponentConfig) (total v : f64) : vmap :=
  let m := [("name", VString (sc_Name c)); ("label", VString (sc_Label c)); ("value", normalizeNumber v)] in
  let m := if sc_Format c =s? "" then m else mset "format" (VString (sc_Format c)) m in
  if feqb total fzero then m else mset "share" (normalizeNumber (fdiv v total)) m.
(** The last remainder component counts. *)
Record rollup := { ru_components : list vmap; ru_sum : f64; ru_remainder : option SummaryComponentConfig }.
Definition roll_component (su : SummaryConfig) (variables : vmap) (total : f64) (st : rollup)
    (c : SummaryComponentConfig) : result rollup :=
  if sc_Remainder c then
    Ok {| ru_components := ru_components st; ru_sum := ru_sum st; ru_remainder := Some c |}
  else
    v ← wrapf "summary %s component %s: %w" [AStr (su_Name su); AStr (sc_Name c)]
          (evaluateNumericExpression (sc_Expression c) variables);
    Ok {| ru_components := ru_components st ++ [summary_component c total v];
          ru_sum := fadd (ru_sum st) v; ru_remainder := ru_remainder st |}.
Definition remainder_value (total sum : f64) : f64 :=
  let r := fsub total sum in if fltb (fabs r) nano then fzero else r.
Definition close_rollup (total : f64) (st : rollup) : rollup :=
  match ru_remainder st with
  | None => st
  | Some c =>
      let r := remainder_value total (ru_sum st) in
      {| ru_components := ru_components st ++ [summary_component c total r];
         ru_sum := fadd (ru_sum st) r; ru_remainder := ru_remainder st |}
  end.
Definition buildSummary (variables : vmap) (su : SummaryConfig) : result vmap :=
  total ← wrapf "summary %s total: %w" [AStr (su_Name su)] (evaluateNumericExpression (su_Total su) variables);
  st ← foldM (roll_component su variables total) {| ru_components := []; ru_sum := fzero; ru_remainder := None |}
         (su_Components su);
  let st := close_rollup total st in
  let m := [("label", VString (su_Label su)); ("total", normalizeNumber total); ("components", VMaps (ru_components st))] in
  let m := if su_Format su =s? "" then m else mset "format" (VString (su_Format su)) m in
  Ok (if fltb micro (fabs (fsub total (ru_sum st)))
      then mset "unreconciled" (normalizeNumber (fsub total (ru_sum st))) m else m).
Definition buildSummaries (configs : list SummaryConfig) (runtime : option ValidationRuntime) (record : vmap)
    : result vmap :=
  match configs with
  | [] => Ok []
  | _ =>
      variables ← buildVariableMap runtime record;
      foldM (λ m su, s ← buildSummary variables su; Ok (mset (su_Name su) (VMap s) m)) [] configs
  end.

(** ** The output envelope *)

(** provenance.RuntimeOptions. *)
Record RuntimeOptions := {
  ro_RunID : string; ro_SumpterVersion : string; ro_RecipeVersion : string; ro_RecipeContentHash : string;
  ro_InputOrdinal : Z; ro_InputSHA256 : string; ro_SourceURI : string; ro_DiagnosticLabel : string;
}.
Definition SourceIdentity (o : RuntimeOptions) (localPath : string) : string :=
  if ro_SourceURI o =s? "" then localPath else ro_SourceURI o.
Definition DiagnosticIdentity (o : RuntimeOptions) (localPath : string) : string :=
  if ro_DiagnosticLabel o =s? "" then localPath else ro_DiagnosticLabel o.
Definition nonempty (k v : string) (m : vmap) : vmap := if v =s? "" then m else mset k (VString v) m.
Definition RuntimeFields (o : RuntimeOptions) : vmap :=
  let m := nonempty "recipe_content_hash" (ro_RecipeContentHash o)
             (nonempty "recipe_version" (ro_RecipeVersion o)
               (nonempty "sumpter_version" (ro_SumpterVersion o) (nonempty "run_id" (ro_RunID o) []))) in
  if (0 <? ro_InputOrdinal o)%Z && negb (ro_InputSHA256 o =s? "")
  then mset "input_sha256" (VString (ro_InputSHA256 o)) (mset "input_ordinal" (VInt KInt (ro_InputOrdinal o)) m)
  else m.

(** The signature's names, the part of [FileSignature] the envelope shows. *)
Record signature_names := { sn_SignatureID : string; sn_Name : string }.

Definition buildRuntimeMetadata (now : Z) (sourceFile : string) (sig : option signature_names)
    (cfg : ExtractRecordMatch) (runtime : option ValidationRuntime) (summariesIncluded validationIncluded : bool)
    (o : RuntimeOptions) (recordNum : nat) : vmap :=
  let m := [("envelope_schema", VString "extract-record-envelope/v0"); ("generated_at", VString (rfc3339 now));
            ("source_file", VString (SourceIdentity o sourceFile)); ("record_type", VString (em_RecordType cfg));
            ("summaries_included", VBool summariesIncluded); ("validation_included", VBool validationIncluded)] in
  let m := if (0 <? recordNum)%nat then mset "record_num" (VInt KInt (Z.of_nat recordNum)) m else m in
  let m := match sig with
           | None => m
           | Some s => nonempty "signature_name" (sn_Name s) (nonempty "signature_id" (sn_SignatureID s) m)
           end in
  let m := match em_ValidationMetadata cfg with
           | None => m
           | Some md => nonempty "validation_array_path" (md_ArrayPath md)
                          (mset "validation_enabled" (VBool (md_Enable md)) m)
           end in
  let m := match runtime with
           | None => m
           | Some rt => mset "validation_record_count" (VInt KInt (rt_RecordCount rt)) m
           end in
  mcopy (RuntimeFields o) m.

(** [_runtime], [_validation] and [extract] with its [data] and [summary]. *)
Record Envelope := {
  en_runtime : vmap;
  en_validation : option ValidationReport;
  en_data : vmap;
  en_summary : option vmap;
}.
Definition shown (o : option OutputOptions) (f : OutputOptions → option bool) : bool :=
  match o with Some o => default true (f o) | None => true end.
(** The defaults [RunValidation] applies stay in the configuration. *)
Definition EnrichRecordWithRecordNum (now : Z) (record : vmap) (sourceFile : string) (sig : option signature_names)
    (cfg : ExtractRecordMatch) (o : RuntimeOptions) (recordNum : nat) : result Envelope :=
  let showSummaries := shown (em_OutputOptions cfg) oo_ShowSummaries in
  let showValidation := shown (em_OutputOptions cfg) oo_ShowValidationMetadata in
  validated ← match em_ValidationMetadata cfg with
              | Some md =>
                  if md_Enable md then
                    wrapf "validation execution failed: %w" [] (RunValidation totals_order now (Some md) record)
                  else Ok None
              | None => Ok None
              end;
  report ← match validated with
           | Some (md, rt) =>
               wrapf "failed to build validation metadata: %w" [] (BuildValidationReport now (Some md) (Some rt))
           | None => Ok None
           end;
  let runtime := snd <$> validated in
  summary ← (if showSummaries then
               wrapf "failed to build summaries: %w" [] (buildSummaries (em_Summaries cfg) runtime record)
             else Ok []);
  let summarized := showSummaries && (0 <? length summary)%nat in
  let reported := showValidation && bool_decide (is_Some report) in
  let cfg := match validated with
             | Some (md, _) => {| em_RecordType := em_RecordType cfg; em_Namespaces := em_Namespaces cfg;
                 em_MatchSelectors := em_MatchSelectors cfg; em_OutputSchema := em_OutputSchema cfg;
                 em_FieldMappings := em_FieldMappings cfg; em_Filters := em_Filters cfg;
                 em_ValidationMetadata := Some md; em_OutputOptions := em_OutputOptions cfg;
                 em_Summaries := em_Summaries cfg; em_UniformSchema := em_UniformSchema cfg;
                 em_OutputValidator := em_OutputValidator cfg; em_ReferenceTables := em_ReferenceTables cfg |}
             | None => cfg
             end in
  let envelope := {|
    en_runtime := buildRuntimeMetadata now sourceFile sig cfg runtime summarized reported o recordNum;
    en_validation := if reported then report else None;
    en_data := record;
    en_summary := if summarized then Some summary else None |} in
  match validated with
  | Some (md, rt) =>
      match ShouldFailExtraction rt (md_FailurePolicy md) with
      | (true, Some e) => Err e
      | (true, None) => errorf "validation failed" []
      | (false, _) => Ok envelope
      end
  | None => Ok envelope
  end.
Definition EnrichRecord (now : Z) (record : vmap) (sourceFile : string) (sig : option signature_names)
    (cfg : ExtractRecordMatch) (o : RuntimeOptions) : result Envelope :=
  EnrichRecordWithRecordNum now record sourceFile sig cfg o 0.
Definition enrichRecordsWithRecordNums (now : Z) (records : list extractedRecord) (sourceFile : string)
    (sig : option signature_names) (cfg : ExtractRecordMatch) (o : RuntimeOptions) : result (list Envelope) :=
  mapR (λ r, EnrichRecordWithRecordNum now (er_data r) sourceFile sig cfg o (er_recordNum r)) records.
End enrich.
