(* ===== verification/ExtractSpec.v ===== *)
(** * What extraction produces

    Extracted values have the shape their mapping declares; a projected record
    shows nothing derive-only; the records of a document are those of its
    selected nodes, numbered before filtering; the envelope carries the record
    unchanged. *)
From Stdlib Require Import Ascii ZArith Lia SpecFloat.
From stdpp Require Import base list strings sets.
From S2P Require Import Prelude GoStrings GoFloat GoStrconv GoUtf8 GoValue DslTypes DslParser DslEval DslAccum DslRuntime Transforms Extract.

Ltac inv_res :=
  repeat (inv_ok; match goal with
                  | H : errorf _ _ = Ok _ |- _ => discriminate H
                  | H : wrapf _ _ _ = Ok _ |- _ => apply wrapf_ok in H
                  | H : (if _ then errorf _ _ else _) = Ok _ |- _ => case_match; [discriminate H|]
                  end); inv_ok.

(** ** Fallible maps *)
Section mapR.
Context {A B : Type} (f : A → result B).

Lemma mapR_ok l bs : mapR f l = Ok bs ↔ Forall2 (λ a b, f a = Ok b) l bs.
Proof.
  revert bs. induction l as [|a l IH]; intros bs; simpl.
  - split; [by intros [= <-]; constructor|by inversion 1].
  - split.
    + intros H. inv_ok. subst. constructor; [done|]. by apply IH.
    + inversion 1 as [|? b ? bs' Hb Hbs]; subst. rewrite Hb. apply IH in Hbs. simpl. by rewrite Hbs.
Qed.
Lemma mapR_elem l bs b : mapR f l = Ok bs → b ∈ bs → ∃ a, a ∈ l ∧ f a = Ok b.
Proof.
  intros H%mapR_ok Hb. apply list_elem_of_lookup in Hb as [i Hi].
  destruct (Forall2_lookup_r _ _ _ _ _ H Hi) as (a & Ha & Hf). exists a. split; [|done].
  by eapply list_elem_of_lookup_2.
Qed.
Lemma mapR_length l bs : mapR f l = Ok bs → length bs = length l.
Proof. intros H%mapR_ok. symmetry. by eapply Forall2_length. Qed.
Lemma mapR_err l e : mapR f l = Err e → ∃ l1 a l2, l = l1 ++ a :: l2 ∧ f a = Err e ∧ is_ok (mapR f l1) = true.
Proof.
  induction l as [|a l IH]; simpl; [done|]. destruct (f a) as [b|e'] eqn:Ha; simpl.
  - destruct (mapR f l) as [bs|e'] eqn:Hl; simpl; [done|]. intros [= ->].
    destruct IH as (l1 & a' & l2 & -> & Ha' & Hok); [done|]. exists (a :: l1), a', l2.
    split_and!; [done|done|]. simpl. rewrite Ha. simpl. by destruct (mapR f l1).
  - intros [= ->]. by exists [], a, l.
Qed.
End mapR.

Lemma mset_elem {V} k (v : V) (m : list (string * V)) k' v' :
  (k', v') ∈ mset k v m → (k' = k ∧ v' = v) ∨ (k', v') ∈ m.
Proof.
  induction m as [|[k1 v1] m IH]; simpl.
  - intros ?%list_elem_of_singleton. naive_solver.
  - case_decide; subst; rewrite !elem_of_cons; naive_solver.
Qed.

(** ** Induction over nested mappings *)
Section mapping_ind.
Context `{EN : Engine} (P : FieldMapping → Prop).
Context (step : ∀ m, (∀ fm, fm ∈ fm_ItemMapping m → P fm) →
  (∀ pm fm, pm ∈ fm_Polymorphic m → fm ∈ pm_FieldMappings pm → P fm) → P m).

Fixpoint mapping_ind (m : FieldMapping) : P m.
Proof.
  apply step.
  - destruct m as [a b c d e f g items poly i]. cbn [fm_ItemMapping].
    induction items as [|x items IH]; intros fm Hfm; [destruct (proj1 (elem_of_nil _) Hfm)|].
    apply elem_of_cons in Hfm as [->|Hfm]; [apply mapping_ind|by apply IH].
  - destruct m as [a b c d e f g items poly i]. cbn [fm_Polymorphic].
    induction poly as [|p poly IH]; intros pm fm Hpm Hfm; [destruct (proj1 (elem_of_nil _) Hpm)|].
    apply elem_of_cons in Hpm as [->|Hpm]; [|by eapply IH].
    destruct p as [pa pb pc fms pd]. cbn [pm_FieldMappings] in Hfm.
    induction fms as [|x fms IHf]; [destruct (proj1 (elem_of_nil _) Hfm)|].
    apply elem_of_cons in Hfm as [->|Hfm]; [apply mapping_ind|by apply IHf].
Qed.
End mapping_ind.

(** ** The shape of values *)
Section shapes.
Context `{UC : UnicodeCase, EN : Engine}.
Implicit Types (m fm : FieldMapping) (v : value) (node : dnode) (format : string).

Definition int64_range (z : Z) : Prop := (- 2 ^ 63 ≤ z < 2 ^ 63)%Z.
Definition trimmed (s : string) : Prop := trim_space s = s.

(** A value coerced from a scalar. *)
Definition has_scalar_type (ty : string) (v : value) : Prop :=
  if ty =s? "number" then ∃ f, v = VFloat f
  else if ty =s? "integer" then ∃ z, v = VInt KInt64 z ∧ int64_range z
  else if ty =s? "boolean" then ∃ b, v = VBool b
  else if (ty =s? "string") || (ty =s? "") then ∃ s, v = VString s
  else True.
Definition scalar_shape m v : Prop :=
  if fm_Transform m =s? "exists" then ∃ b, v = VBool b
  else if negb (fm_Transform m =s? "") then ∃ s, v = VString s
  else has_scalar_type (to_lower (fm_Type m)) v.

(** [conforms m v]: what a mapping may give. Absent values are nil. *)
Inductive conforms : FieldMapping → value → Prop :=
| conforms_absent m : conforms m VNil
| conforms_scalar m v :
    to_lower (fm_Type m) ≠ "array" → scalar_shape m v → conforms m v
| conforms_polymorphic m items :
    to_lower (fm_Type m) = "array" → fm_Polymorphic m ≠ [] → items ≠ [] →
    (∀ item, item ∈ items → item ≠ [] ∧ NoDup (mkeys item) ∧
       ∃ pm, pm ∈ fm_Polymorphic m ∧ ∀ k v, (k, v) ∈ item →
         (v ≠ VNil ∧ ∃ fm, fm ∈ pm_FieldMappings pm ∧ fm_OutputField fm = k ∧ conforms fm v) ∨
         (k = "item_type" ∧ v = VString (pm_ItemType pm))) →
    conforms m (VMaps items)
| conforms_items m items :
    to_lower (fm_Type m) = "array" → fm_Polymorphic m = [] → items ≠ [] →
    (∀ item, item ∈ items → NoDup (mkeys item) ∧
       mkeys item ⊆ fm_OutputField <$> fm_ItemMapping m ∧
       (∀ fm, fm ∈ fm_ItemMapping m → is_Some (mget (fm_OutputField fm) item)) ∧
       ∀ k v, (k, v) ∈ item → ∃ fm, fm ∈ fm_ItemMapping m ∧ fm_OutputField fm = k ∧ conforms fm v) →
    conforms m (VMaps items)
| conforms_texts m texts :
    to_lower (fm_Type m) = "array" → fm_Polymorphic m = [] → fm_ItemMapping m = [] → texts ≠ [] →
    Forall (λ v, ∃ s, v = VString s ∧ trimmed s ∧ s ≠ "") texts → conforms m (VList texts).

Context (overflow_range : ∀ f, int64_range (float_overflow f)).

Lemma float_to_int_range f : int64_range (float_to_int float_overflow f).
Proof.
  unfold float_to_int, int64_range. destruct (_ || _) eqn:E; [apply overflow_range|].
  apply orb_false_iff in E as [_ E]. apply negb_false_iff, andb_true_iff in E as [?%Z.leb_le ?%Z.ltb_lt]. lia.
Qed.
Lemma parse_digits_nonneg s acc z : (0 ≤ acc)%Z → parse_digits acc s = Some z → (0 ≤ z)%Z.
Proof.
  revert acc. induction s as [|c s IH]; intros acc Ha; cbn [parse_digits]; [by intros [= <-]|].
  unfold digit_val. destruct (in_range 48 57 (bcode c)) eqn:E; [|done]. cbn. intros H.
  eapply IH; [|exact H]. unfold in_range in E. lia.
Qed.
Lemma parse_int_range s z : parse_int s = Some z → int64_range z.
Proof.
  unfold parse_int, int64_range. destruct (split_sign s) as [neg t]. destruct (t =s? ""); [done|].
  destruct (parse_digits 0 t) as [n|] eqn:E; [|done]. apply parse_digits_nonneg in E; [|done]. cbn.
  destruct neg; [destruct (Z.ltb_spec (2 ^ 63) n)|destruct (Z.leb_spec (2 ^ 63) n)]; try done; intros [= <-]; lia.
Qed.

(** What XPath and expressions deliver: integers fit their kind. *)
Definition sane (v : value) : Prop :=
  match v with VInt (KInt | KInt32 | KInt64) z => int64_range z | VInt KUint32 z => (0 ≤ z < 2 ^ 32)%Z
             | VInt _ z => (0 ≤ z < 2 ^ 64)%Z | _ => True end.
Lemma coerce_typed ty v v' : sane v → coerce ty v = Ok v' → v' = VNil ∨ has_scalar_type ty v'.
Proof.
  unfold coerce, has_scalar_type. intros Hv.
  destruct (ty =s? "number"); [|destruct (ty =s? "integer"); [|destruct (ty =s? "boolean");
    [|destruct ((ty =s? "string") || (ty =s? ""))]]]; intros H'.
  - unfold coerceNumber in H'. repeat case_match; inv_res; subst; eauto.
  - pose proof float_to_int_range. pose proof parse_int_range.
    unfold coerceInteger, uint64ToInt64 in H'. unfold int64_range in *.
    repeat (case_match; try done); inv_res; subst; eauto 6; right; (eexists; split; [done|]); simpl in *; try lia; eauto.
  - unfold coerceBoolean in H'. repeat case_match; inv_res; subst; eauto.
  - unfold coerceString in H'. repeat case_match; inv_res; subst; eauto.
  - auto.
Qed.
Lemma evaluateXPathValue_sane format node expr c v : evaluateXPathValue format node expr c = Ok v → sane v.
Proof.
  unfold evaluateXPathValue. case_match; [by intros [= <-]|]. intros H'. inv_ok. subst. by repeat case_match.
Qed.
Lemma extractScalar_shape format node m v :
  to_lower (fm_Type m) ≠ "array" → extractScalar format node m = Ok v → conforms m v.
Proof.
  intros Hty. unfold extractScalar. case_match; [intros [= <-]; constructor|]. intros H'. inv_ok.
  pose proof (evaluateXPathValue_sane _ _ _ _ _ Hok) as Hsane.
  destruct (fm_Transform m =s? "exists") eqn:Ex.
  { inv_ok. subst. apply conforms_scalar; [done|]. unfold scalar_shape. rewrite Ex. eauto. }
  destruct (negb (fm_Transform m =s? "")) eqn:Et.
  { inv_ok. subst. apply conforms_scalar; [done|]. unfold scalar_shape. rewrite Ex, Et. eauto. }
  apply coerce_typed in Hok0 as [->|Ht]; [constructor| |done].
  apply conforms_scalar; [done|]. unfold scalar_shape. by rewrite Ex, Et.
Qed.

(** Keys and entries of the items. *)
Lemma array_item_spec (values : list (string * value)) :
  let item := array_item values in
  NoDup (mkeys item) ∧ mkeys item ⊆ values.*1 ∧ (∀ k, k ∈ values.*1 → is_Some (mget k item)) ∧
  ∀ kv, kv ∈ item → kv ∈ values.
Proof.
  unfold array_item. induction values as [|[k v] values IH] using rev_ind; simpl.
  { split_and!; [constructor|done|by intros ? ?%elem_of_nil|done]. }
  rewrite foldl_app, fmap_app. simpl. destruct IH as (Hnd & Hsub & Hget & Hin). split_and!.
  - by apply NoDup_mset.
  - intros k' [->|Hk]%elem_of_mkeys_mset; set_solver.
  - intros k'. rewrite mget_mset. case_decide; [eauto|]. set_solver.
  - intros [k' v'] [[-> ->]|Hm]%mset_elem; [set_solver|]. apply elem_of_app. auto.
Qed.
Lemma polymorphic_item_spec pm (values : list (string * value)) :
  let item := polymorphic_item pm values in
  NoDup (mkeys item) ∧ ∀ k v, (k, v) ∈ item →
    (v ≠ VNil ∧ (k, v) ∈ values) ∨ (k = "item_type" ∧ v = VString (pm_ItemType pm)).
Proof.
  unfold polymorphic_item. set (item := foldl _ _ _).
  assert (NoDup (mkeys item) ∧ ∀ k v, (k, v) ∈ item → v ≠ VNil ∧ (k, v) ∈ values) as [Hnd Hin].
  { unfold item. clear. induction values as [|[k v] values IH] using rev_ind; simpl; [split; [constructor|set_solver]|].
    rewrite foldl_app. simpl. destruct IH as [Hnd Hin]. destruct (is_nil v) eqn:Hv.
    - split; [done|]. intros k' v' [? ?]%Hin. split; [done|]. apply elem_of_app. auto.
    - split; [by apply NoDup_mset|]. intros k' v' [[-> ->]|Hm]%mset_elem.
      + split; [by intros ->|set_solver].
      + apply Hin in Hm as [? ?]. split; [done|]. apply elem_of_app. auto. }
  repeat case_match; (split; [by auto using NoDup_mset|]); intros k' v' Hk.
  1,2: left; auto. apply mset_elem in Hk as [[-> ->]|?]; auto.
Qed.
Lemma node_texts_spec nodes v : v ∈ node_texts nodes → ∃ s, v = VString s ∧ trimmed s ∧ s ≠ "".
Proof.
  unfold node_texts. intros (n & Hn & Hv)%list_elem_of_omap. case_match; [done|]. injection Hv as <-.
  eexists. split; [done|]. split; [apply trim_space_twice|]. intros Hs. by rewrite Hs in *.
Qed.

Lemma extractValue_eq format m node :
  extractValue format m node = if to_lower (fm_Type m) =s? "array" then extractArrayValue (extractValue format) format m node
                               else extractScalar format node m.
Proof. by destruct m. Qed.
Lemma extracted_fields f node (fms : list FieldMapping) values k v :
  extract_items f node fms = Ok values → (k, v) ∈ values →
  ∃ fm, fm ∈ fms ∧ fm_OutputField fm = k ∧ f fm node = Ok v.
Proof.
  intros H Hkv. destruct (mapR_elem _ _ _ _ H Hkv) as (fm & Hfm & Hf). inv_res. simplify_eq. eauto.
Qed.
Lemma extracted_keys f node (fms : list FieldMapping) values :
  extract_items f node fms = Ok values → values.*1 = fm_OutputField <$> fms.
Proof.
  intros H%mapR_ok. induction H as [|fm kv fms values Hf _ IH]; [done|]. inv_res. subst. simpl. by f_equal.
Qed.

(** C26: an extracted value has the shape its mapping declares: a number, a
    64-bit integer, a boolean or a text, or nothing; for an array a non-empty
    list of items whose fields have the shapes of the item mappings in turn, or
    of trimmed texts. *)
Theorem extractValue_conforms format m node v : extractValue format m node = Ok v → conforms m v.
Proof.
  revert node v. induction m as [m IHi IHp] using mapping_ind. intros node v H. rewrite extractValue_eq in H.
  destruct (eqs_spec (to_lower (fm_Type m)) "array") as [Hty|Hty]; [|by eapply extractScalar_shape].
  unfold extractArrayValue in H. apply res_bind_ok in H as (nodes & _ & H).
  destruct nodes as [|n0 nodes]; cbn [length Nat.eqb] in H; [injection H as <-; constructor|].
  destruct (fm_Polymorphic m) as [|p poly] eqn:Hpoly; cbn [length Nat.ltb Nat.leb] in H.
  - destruct (fm_ItemMapping m) as [|i items] eqn:Hitems; cbn [length Nat.ltb Nat.leb] in H.
    + destruct (node_texts (n0 :: nodes)) as [|t ts] eqn:Ht; cbn [length Nat.eqb] in H; injection H as <-;
        [constructor|]. apply conforms_texts; try done. apply Forall_forall. intros x Hx. rewrite <- Ht in Hx.
      by eapply node_texts_spec.
    + rewrite <- Hitems in *. apply res_bind_ok in H as (its & H & [= <-]).
      apply conforms_items; [done|done|intros ->; by apply mapR_length in H|].
      intros item Hitem. destruct (mapR_elem _ _ _ _ H Hitem) as (n & _ & Hn). apply res_bind_ok in Hn as (values & Hv & [= <-]).
      pose proof (array_item_spec values) as (Hnd & Hsub & Hget & Hin). rewrite (extracted_keys _ _ _ _ Hv) in *.
      split_and!; [done|done| |].
      * intros fm Hfm. apply Hget. by apply list_elem_of_fmap_2.
      * intros k v Hkv. apply Hin in Hkv. destruct (extracted_fields _ _ _ _ _ _ Hv Hkv) as (fm & ? & ? & ?). eauto.
  - rewrite <- Hpoly in *. apply res_bind_ok in H as (iss & H & Hres). cbv zeta in Hres.
    set (items := filter _ _) in *. destruct (decide (items = [])) as [Hnil|Hne].
    { rewrite Hnil in Hres. cbn [length Nat.eqb] in Hres. apply res_bind_ok in Hres as (_ & _ & [= <-]). constructor. }
    assert (v = VMaps items) as ->.
    { destruct items as [|? ?] eqn:?; [done|]. by injection Hres as <-. }
    apply conforms_polymorphic; [done|by rewrite Hpoly|done|]. unfold items. intros item [Hi Hin]%list_elem_of_filter.
    split; [done|]. apply list_elem_of_join in Hin as (its & Hitem & Hits).
    apply list_elem_of_join in Hits as (itss & Hits & Hitss).
    destruct (mapR_elem _ _ _ _ H Hitss) as (src & _ & Hsrc).
    destruct (mapR_elem _ _ _ _ Hsrc Hits) as (pm & Hpm & Hp). unfold extract_branch in Hp. apply res_bind_ok in Hp as (targets & _ & Hp).
    destruct (mapR_elem _ _ _ _ Hp Hitem) as (target & _ & Ht). apply res_bind_ok in Ht as (values & Hv & [= <-]).
    pose proof (polymorphic_item_spec pm values) as [Hnd Hfields]. split; [done|]. exists pm. split; [done|].
    intros k v Hkv. apply Hfields in Hkv as [[Hnn Hkv]|?]; [|by right]. left. split; [done|].
    destruct (extracted_fields _ _ _ _ _ _ Hv Hkv) as (fm & ? & ? & He). apply wrapf_ok in He. eauto 6.
Qed.
End shapes.

(** ** Projected records *)
Section projection.
Context `{UC : UnicodeCase, EN : Engine}.
Implicit Types (m : FieldMapping) (v : value) (record ext : fields) (cfg : ExtractRecordMatch).

Definition carry m v : carrier := if fm_Internal m then InternalField v else Plain v.

Lemma store_spec record m v :
  storeMappedValue record m v = if is_nil v then record else mset (fm_OutputField m) (carry m v) record.
Proof. unfold storeMappedValue, carry. by destruct (is_nil v), (fm_Internal m). Qed.
Lemma store_other k record m v : k ≠ fm_OutputField m → mget k (storeMappedValue record m v) = mget k record.
Proof. intros Hk. rewrite store_spec. destruct (is_nil v); [done|]. by apply mget_mset_ne. Qed.
Lemma store_NoDup record m v : NoDup (mkeys record) → NoDup (mkeys (storeMappedValue record m v)).
Proof. intros Hk. rewrite store_spec. destruct (is_nil v); [done|]. by apply NoDup_mset. Qed.
Lemma project_mget k record : NoDup (mkeys record) →
  mget k (projectInternalMappedFields record) = match mget k record with Some (Plain v) => Some v | _ => None end.
Proof.
  unfold projectInternalMappedFields. induction record as [|[k' c] record IH]; [done|].
  intros [Hk Hnd]%NoDup_cons. cbn [omap list_omap mget]. destruct c as [v|v]; cbn [snd fst].
  - cbn [mget]. case_decide; [done|]. by apply IH.
  - case_decide; [|by apply IH]. subst. rewrite IH by done. by rewrite (proj2 (mget_None k' record) Hk).
Qed.
Lemma project_keys record : mkeys (projectInternalMappedFields record) ⊆ mkeys record.
Proof.
  intros k. unfold projectInternalMappedFields, mkeys. rewrite !list_elem_of_fmap. intros ([k' v] & -> & Hin).
  apply list_elem_of_omap in Hin as ([k2 c] & Hin & Hc). destruct c; [|done]. injection Hc as <- <-. by exists (k2, Plain v0).
Qed.
Lemma project_NoDup record : NoDup (mkeys record) → NoDup (mkeys (projectInternalMappedFields record)).
Proof.
  induction record as [|[k c] record IH]; [constructor|]. intros [Hk Hnd]%NoDup_cons.
  unfold projectInternalMappedFields. destruct c as [v|v]; cbn; [|by apply IH].
  apply NoDup_cons. split; [|by apply IH]. intros Hin. apply Hk. by apply project_keys.
Qed.

(** What each phase leaves: entries that come from a mapping. *)
Definition from_mapping (format : string) (node : dnode) cfg ext (kc : string * carrier) : Prop :=
  ∃ m v, m ∈ em_FieldMappings cfg ∧ kc = (fm_OutputField m, carry m v) ∧ v ≠ VNil ∧
    if is_expression m then ∃ seen, extractExpressionValue m seen ext (em_ReferenceTables cfg) = Ok v
    else extractValue format m node = Ok v.
Definition mapped format node cfg ext record : Prop :=
  NoDup (mkeys record) ∧ ∀ kc, kc ∈ record → from_mapping format node cfg ext kc.
Lemma mapped_store format node cfg ext record m v :
  mapped format node cfg ext record → m ∈ em_FieldMappings cfg →
  (if is_expression m then ∃ seen, extractExpressionValue m seen ext (em_ReferenceTables cfg) = Ok v
   else extractValue format m node = Ok v) →
  mapped format node cfg ext (storeMappedValue record m v).
Proof.
  intros [Hnd Hin] Hm Hv. split; [by apply store_NoDup|]. rewrite store_spec. destruct (is_nil v) eqn:Hnil; [done|].
  intros [k c] [[-> ->]|?]%mset_elem; [|auto]. exists m, v. split_and!; [done|done|by intros ->|done].
Qed.
Lemma xpath_phase_mapped format node cfg ext record :
  xpath_phase format node (em_FieldMappings cfg) = Ok record → mapped format node cfg ext record.
Proof.
  apply foldM_inv_in; [|split; [constructor|by intros ? ?%elem_of_nil]].
  intros rec m rec' Hm Hrec. destruct (is_expression m) eqn:He; [by intros [= <-]|]. intros H. inv_res. subst.
  apply mapped_store; [done|done|]. by rewrite He.
Qed.
Lemma expression_phase_mapped format node cfg ext record record' :
  mapped format node cfg ext record →
  expression_phase ext (em_ReferenceTables cfg) record (em_FieldMappings cfg) = Ok record' →
  mapped format node cfg ext record'.
Proof.
  apply foldM_inv_in. intros rec m rec' Hm Hrec. destruct (is_expression m) eqn:He; cbn [negb]; [|by intros [= <-]].
  intros H. inv_res. subst. apply mapped_store; [done|done|]. rewrite He. eauto.
Qed.

(** The record after merging, key by key. *)
Lemma merge_external_spec ext : ∀ record record', NoDup (mkeys ext) → NoDup (mkeys record) →
  merge_external record ext = Ok record' →
  NoDup (mkeys record') ∧ (∀ k, k ∈ mkeys ext → mget k record = None) ∧
  ∀ k, mget k record' = match mget k ext with
                        | Some (Plain v) => Some (Plain v)
                        | _ => mget k record
                        end.
Proof.
  unfold merge_external. induction ext as [|[k0 c] ext IH]; intros record record'; simpl.
  { intros _ Hnd [= <-]. split_and!; [done|by intros ? ?%elem_of_nil|done]. }
  intros [Hk0 Hnd]%NoDup_cons Hr H. destruct (mget k0 record) as [|] eqn:E; simpl in H; [done|].
  apply IH in H as (Hnd' & Hfree & Hget); [|done|destruct c; [by apply NoDup_mset|done]].
  split_and!; [done| |].
  - intros k [->|Hk]%elem_of_cons; [done|]. specialize (Hfree k Hk). destruct c; simpl in Hfree; [|done].
    rewrite mget_mset in Hfree. by case_decide.
  - intros k. rewrite Hget. case_decide as Hk; subst.
    + rewrite (proj2 (mget_None k0 ext) Hk0). destruct c; simpl; [by rewrite mget_mset_eq|done].
    + destruct (mget k ext) as [[?|?]|]; [done| |]; destruct c; simpl; rewrite ?mget_mset_ne by done; done.
Qed.

(** A mapping whose output no other mapping shares keeps its value. *)
Lemma xpath_phase_value format node mappings record m v :
  NoDup (fm_OutputField <$> mappings) → m ∈ mappings → is_expression m = false →
  extractValue format m node = Ok v → v ≠ VNil →
  xpath_phase format node mappings = Ok record → mget (fm_OutputField m) record = Some (carry m v).
Proof.
  intros Hnd (l1 & l2 & ->)%list_elem_of_split He Hv Hnil H. unfold xpath_phase in H.
  rewrite foldM_app in H. apply res_bind_ok in H as (r1 & _ & H). simpl in H. rewrite He, Hv in H. simpl in H.
  rewrite fmap_app in Hnd. simpl in Hnd. apply NoDup_app in Hnd as (_ & _ & [Hout _]%NoDup_cons).
  revert H. apply (foldM_inv_in (λ r, mget (fm_OutputField m) r = Some (carry m v))).
  - intros r m' r' Hm' Hr. destruct (is_expression m'); [by intros [= <-]|]. intros H. inv_res. subst.
    rewrite store_other; [done|]. intros Heq. apply Hout. rewrite Heq. by apply list_elem_of_fmap_2.
  - rewrite store_spec. destruct v; try done; simpl; by rewrite mget_mset_eq.
Qed.
Lemma expression_phase_keeps ext refs record record' mappings m :
  NoDup (fm_OutputField <$> mappings) → m ∈ mappings → is_expression m = false →
  expression_phase ext refs record mappings = Ok record' →
  mget (fm_OutputField m) record' = mget (fm_OutputField m) record.
Proof.
  intros Hnd Hm He. apply (foldM_inv_in (λ r, mget (fm_OutputField m) r = mget (fm_OutputField m) record)); [|done].
  intros r m' r' Hm' Hr. destruct (is_expression m') eqn:He'; cbn [negb]; [|by intros [= <-]]. intros H. inv_res. subst.
  rewrite store_other; [done|]. intros Heq. assert (m = m') as <- by (by eapply NoDup_fmap_eq). congruence.
Qed.

Lemma buildProjectedRecord_ok format node cfg ext (record : vmap) :
  NoDup (mkeys ext) → buildProjectedRecord format node cfg ext = Ok record →
  NoDup (mkeys record) ∧
  (∀ k v, (k, v) ∈ record →
     mget k ext = Some (Plain v) ∨
     ∃ m, m ∈ em_FieldMappings cfg ∧ fm_OutputField m = k ∧ fm_Internal m = false ∧ v ≠ VNil ∧
       if is_expression m then ∃ seen, extractExpressionValue m seen ext (em_ReferenceTables cfg) = Ok v
       else extractValue format m node = Ok v) ∧
  (∀ k c, mget k ext = Some c → mget k record = match c with Plain v => Some v | InternalField _ => None end) ∧
  (NoDup (fm_OutputField <$> em_FieldMappings cfg) → ∀ m v,
     m ∈ em_FieldMappings cfg → is_expression m = false → extractValue format m node = Ok v → v ≠ VNil →
     mget (fm_OutputField m) record = if fm_Internal m then None else Some v).
Proof.
  intros Hext H. unfold buildProjectedRecord in H. apply res_bind_ok in H as (_ & _ & H).
  apply res_bind_ok in H as (r1 & H1 & H). apply res_bind_ok in H as (r2 & H2 & H). apply res_bind_ok in H as (r3 & H3 & [= <-]).
  pose proof (expression_phase_mapped format node _ _ _ _ (xpath_phase_mapped _ _ _ ext _ H1) H2) as [Hnd2 Hin2].
  apply merge_external_spec in H3 as (Hnd3 & Hfree & Hget); [|done|done]. split_and!.
  - by apply project_NoDup.
  - intros k v Hkv. apply mget_elem in Hkv; [|by apply project_NoDup]. rewrite project_mget, Hget in Hkv by done.
    destruct (mget k ext) as [[x|x]|] eqn:Ek; [injection Hkv as ->; by left|right|right].
    all: destruct (mget k r2) as [[y|y]|] eqn:E2; try done; injection Hkv as ->;
      apply mget_Some_elem, Hin2 in E2 as (m & v' & Hm & [= -> Hc] & Hnn & Hv);
      unfold carry in Hc; destruct (fm_Internal m) eqn:Hint; [done|injection Hc as <-]; eauto 10.
  - intros k c Hc. rewrite project_mget, Hget, Hc by done. destruct c; [done|].
    by rewrite (Hfree k) by (apply mget_Some_elem in Hc; apply list_elem_of_fmap; by exists (k, InternalField v)).
  - intros Hout m v Hm He Hv Hnn. rewrite project_mget, Hget by done.
    pose proof (xpath_phase_value _ _ _ _ _ _ Hout Hm He Hv Hnn H1) as Hx.
    rewrite <- (expression_phase_keeps _ _ _ _ _ _ Hout Hm He H2) in Hx.
    destruct (mget (fm_OutputField m) ext) as [c|] eqn:Ec.
    + rewrite (Hfree (fm_OutputField m)) in Hx; [done|]. apply mget_Some_elem in Ec. apply list_elem_of_fmap.
      by exists (fm_OutputField m, c).
    + rewrite Hx. unfold carry. by destruct (fm_Internal m).
Qed.

(** A projected record holds exactly the plain external fields and values of
    mappings that are not derive-only: each entry comes from one of these, every
    plain external field is there unchanged, a derive-only external field is
    not, and a mapping that is not derive-only shows the value found for it. *)
Theorem buildProjectedRecord_spec format node cfg ext (record : vmap) :
  NoDup (mkeys ext) → buildProjectedRecord format node cfg ext = Ok record →
  NoDup (mkeys record) ∧
  (∀ k v, (k, v) ∈ record →
     mget k ext = Some (Plain v) ∨
     ∃ m, m ∈ em_FieldMappings cfg ∧ fm_OutputField m = k ∧ fm_Internal m = false ∧ v ≠ VNil ∧
       if is_expression m then ∃ seen, extractExpressionValue m seen ext (em_ReferenceTables cfg) = Ok v
       else extractValue format m node = Ok v) ∧
  (∀ k c, mget k ext = Some c → mget k record = match c with Plain v => Some v | InternalField _ => None end) ∧
  (NoDup (fm_OutputField <$> em_FieldMappings cfg) → ∀ m v,
     m ∈ em_FieldMappings cfg → is_expression m = false → extractValue format m node = Ok v → v ≠ VNil →
     mget (fm_OutputField m) record = if fm_Internal m then None else Some v).
Proof. apply buildProjectedRecord_ok. Qed.
End projection.

(** ** The records of a document *)
Section records.
Context `{UC : UnicodeCase, EN : Engine}.
Implicit Types (ext : fields) (cfg : ExtractRecordMatch) (doc : Document).

(** Records numbered by the position of their node, whatever was filtered. *)
Fixpoint number_from (n : nat) (rs : list (option vmap)) : list extractedRecord :=
  match rs with
  | [] => []
  | Some r :: rs => {| er_data := r; er_recordNum := S n |} :: number_from (S n) rs
  | None :: rs => number_from (S n) rs
  end.
Lemma number_from_app n rs rs' : number_from n (rs ++ rs') = number_from n rs ++ number_from (n + length rs) rs'.
Proof.
  revert n. induction rs as [|[r|] rs IH]; intros n; simpl; [by rewrite Nat.add_0_r| |];
    rewrite IH, Nat.add_succ_r; done.
Qed.
Lemma mapR_app {A B} (f : A → result B) l1 l2 :
  mapR f (l1 ++ l2) = (b1 ← mapR f l1; b2 ← mapR f l2; Ok (b1 ++ b2)).
Proof.
  induction l1 as [|a l1 IH]; simpl; [by destruct (mapR f l2)|]. destruct (f a); simpl; [|done]. rewrite IH.
  destruct (mapR f l1); simpl; [|done]. by destruct (mapR f l2).
Qed.

Lemma extract_numbered_spec format cfg ext nodes : ∀ st,
  foldM (extract_numbered format cfg ext) st nodes =
  (rs ← mapR (extract_node format cfg ext) nodes;
   Ok {| ex_num := ex_num st + length nodes; ex_records := ex_records st ++ number_from (ex_num st) rs;
         ex_counts := ex_counts st |}).
Proof.
  induction nodes as [|n nodes IH]; intros st; simpl.
  { rewrite Nat.add_0_r, app_nil_r. by destruct st. }
  unfold extract_numbered at 2. destruct (extract_node format cfg ext n) as [r|e]; simpl; [|done]. rewrite IH. simpl.
  destruct (mapR _ nodes) as [rs|e]; simpl; [|done]. rewrite <- plus_n_Sm.
  destruct r; simpl; [|done]. by rewrite <- app_assoc.
Qed.
Lemma extract_selectors_spec doc cfg ext selectors : ∀ st st',
  foldM (extract_selector doc cfg ext) st selectors = Ok st' ↔
  ∃ nodess rs, mapR (select doc) selectors = Ok nodess ∧
    mapR (extract_node (doc_Format doc) cfg ext) (mjoin nodess) = Ok rs ∧
    st' = {| ex_num := ex_num st + length (mjoin nodess); ex_records := ex_records st ++ number_from (ex_num st) rs;
             ex_counts := ex_counts st ++ (length <$> nodess) |}.
Proof.
  induction selectors as [|s selectors IH]; intros st st'; simpl.
  { split.
    - intros [= <-]. exists [], []. split_and!; [done..|]. simpl. rewrite !app_nil_r, Nat.add_0_r. by destruct st.
    - intros (? & ? & [= <-] & [= <-] & ->). simpl. rewrite !app_nil_r, Nat.add_0_r. by destruct st. }
  unfold extract_selector at 2. destruct (select doc s) as [nodes|e]; simpl; [|split; [done|by intros (? & ? & ? & _)]].
  rewrite extract_numbered_spec. destruct (mapR (extract_node _ _ _) nodes) as [rs|e] eqn:Hrs; simpl.
  2: { split; [done|]. intros (nodess & rs & Hn & Hr & _). apply res_bind_ok in Hn as (nn & _ & [= <-]).
       simpl in Hr. rewrite mapR_app, Hrs in Hr. done. }
  rewrite IH. simpl. split.
  - intros (nodess & rs' & -> & Hr & ->). simpl. exists (nodes :: nodess), (rs ++ rs'). split; [done|]. simpl.
    rewrite mapR_app, Hrs, Hr. simpl. split; [done|]. rewrite length_app, number_from_app, <- !app_assoc.
    rewrite (mapR_length _ _ _ Hrs). simpl. by rewrite Nat.add_assoc.
  - intros (nodess & rs' & Hn & Hr & ->). apply res_bind_ok in Hn as (nn & -> & [= <-]). simpl in Hr.
    rewrite mapR_app, Hrs in Hr. simpl in Hr. apply res_bind_ok in Hr as (r2 & Hr & [= <-]).
    exists nn, r2. split_and!; [done|done|]. simpl. rewrite length_app, number_from_app, <- !app_assoc.
    rewrite (mapR_length _ _ _ Hrs). simpl. by rewrite Nat.add_assoc.
Qed.

Lemma extractRecords_ok doc cfg ext records counts :
  extractRecordsWithCountsAndRecordNums doc cfg ext = Ok (records, counts) ↔
  rejectExternalCollisionsWithInternalMappings (em_FieldMappings cfg) ext = Ok () ∧
  ∃ nodess rs, mapR (select doc) (em_MatchSelectors cfg) = Ok nodess ∧
    mapR (extract_node (doc_Format doc) cfg ext) (mjoin nodess) = Ok rs ∧
    records = number_from 0 rs ∧ counts = length <$> nodess.
Proof.
  unfold extractRecordsWithCountsAndRecordNums. rewrite res_bind_ok. split.
  - intros ([] & Hr & H). apply res_bind_ok in H as (st & Hst & [= <- <-]). split; [done|].
    apply extract_selectors_spec in Hst as (nodess & rs & ? & ? & ->). by exists nodess, rs.
  - intros [Hr (nodess & rs & Hn & Hrs & -> & ->)]. exists (). split; [done|].
    apply res_bind_ok. exists {| ex_num := length (mjoin nodess); ex_records := number_from 0 rs; ex_counts := length <$> nodess |}.
    split; [|done]. apply extract_selectors_spec. by exists nodess, rs.
Qed.

(** Extraction succeeds exactly when every selector and every selected node
    does; its records are then those of the selected nodes, selector after
    selector in document order, without the filtered ones, each numbered by the
    position of its node among all selected nodes. *)
Theorem extractRecords_spec doc cfg ext records counts :
  extractRecordsWithCountsAndRecordNums doc cfg ext = Ok (records, counts) ↔
  rejectExternalCollisionsWithInternalMappings (em_FieldMappings cfg) ext = Ok () ∧
  ∃ nodess rs, mapR (select doc) (em_MatchSelectors cfg) = Ok nodess ∧
    mapR (extract_node (doc_Format doc) cfg ext) (mjoin nodess) = Ok rs ∧
    records = number_from 0 rs ∧ counts = length <$> nodess.
Proof. apply extractRecords_ok. Qed.
End records.

(** ** The envelope *)
Section envelope.
Context `{UC : UnicodeCase, EN : Engine}.
Implicit Types (cfg : ExtractRecordMatch) (o : RuntimeOptions).

Lemma mget_nonempty k k' v m : mget k (nonempty k' v m) = if decide (k = k' ∧ v ≠ "") then Some (VString v) else mget k m.
Proof.
  unfold nonempty. destruct (eqs_spec v "") as [->|Hv].
  - by rewrite decide_False by naive_solver.
  - rewrite mget_mset. repeat case_decide; naive_solver.
Qed.
Lemma RuntimeFields_NoDup o : NoDup (mkeys (RuntimeFields o)).
Proof.
  unfold RuntimeFields, nonempty. repeat case_match; repeat apply NoDup_mset; constructor.
Qed.
Lemma RuntimeFields_free o k :
  k ∉ ["run_id"; "sumpter_version"; "recipe_version"; "recipe_content_hash"; "input_ordinal"; "input_sha256"] →
  mget k (RuntimeFields o) = None.
Proof.
  intros Hk. apply mget_None. intros Hin. apply Hk. unfold RuntimeFields, nonempty in Hin. revert Hin.
  repeat case_match; rewrite ?elem_of_mkeys_mset; set_solver.
Qed.

Lemma RunValidation_enabled order now md record x :
  md_Enable md = true → RunValidation order now (Some md) record = Ok x → is_Some x.
Proof.
  unfold RunValidation. intros ->. cbn [negb]. destruct (_ && _); [done|]. cbv zeta.
  intros (? & _ & (? & _ & (? & _ & (? & _ & [= <-])%res_bind_ok)%res_bind_ok)%res_bind_ok)%res_bind_ok. eauto.
Qed.
Lemma buildSummaries_shown configs rt record s :
  buildSummaries configs rt record = Ok s → (0 <? length s)%nat = true ↔ configs ≠ [].
Proof.
  unfold buildSummaries. destruct configs as [|c cs]; [by intros [= <-]|]. intros (vars & _ & H)%res_bind_ok.
  split; [done|]. intros _. apply Nat.ltb_lt. cbn [foldM] in H. apply res_bind_ok in H as (m0 & Hm0 & H).
  revert H. apply (foldM_inv (λ m : vmap, 0 < length m)).
  - intros m su m' Hm H. inv_res. subst. rewrite length_mset. case_match; lia.
  - inv_res. subst. simpl. lia.
Qed.

Lemma metadata_get now file sig cfg rt sum val o n :
  let m := buildRuntimeMetadata now file sig cfg rt sum val o n in
  mget "source_file" m = Some (VString (SourceIdentity o file)) ∧
  mget "record_type" m = Some (VString (em_RecordType cfg)) ∧
  mget "record_num" m = (if (0 <? n)%nat then Some (VInt KInt (Z.of_nat n)) else None).
Proof.
  unfold buildRuntimeMetadata. cbv zeta.
  rewrite !mget_mcopy by apply RuntimeFields_NoDup. rewrite !RuntimeFields_free by set_solver.
  destruct rt, (em_ValidationMetadata cfg), sig, (0 <? n)%nat; cbn [fst snd];
    repeat (rewrite mget_nonempty || rewrite mget_mset); repeat (rewrite decide_False by naive_solver); done.
Qed.

(** Enriching leaves the record's data as it is; summaries and the
    validation report appear exactly when there are some and they are shown; the
    envelope says where the record came from and what it was; and a record that
    breaches the failure policy is refused. *)
Theorem EnrichRecord_spec now record file sig cfg o n e :
  EnrichRecordWithRecordNum now record file sig cfg o n = Ok e →
  en_data e = record ∧
  (is_Some (en_summary e) ↔ shown (em_OutputOptions cfg) oo_ShowSummaries = true ∧ em_Summaries cfg ≠ []) ∧
  (is_Some (en_validation e) ↔ shown (em_OutputOptions cfg) oo_ShowValidationMetadata = true ∧
     ∃ md, em_ValidationMetadata cfg = Some md ∧ md_Enable md = true) ∧
  mget "source_file" (en_runtime e) = Some (VString (SourceIdentity o file)) ∧
  mget "record_type" (en_runtime e) = Some (VString (em_RecordType cfg)) ∧
  mget "record_num" (en_runtime e) = (if (0 <? n)%nat then Some (VInt KInt (Z.of_nat n)) else None) ∧
  (∀ md rt, em_ValidationMetadata cfg = Some md → md_Enable md = true →
     RunValidation totals_order now (Some md) record = Ok (Some rt) →
     (ShouldFailExtraction rt.2 (md_FailurePolicy rt.1)).1 = false).
Proof.
  intros H. unfold EnrichRecordWithRecordNum in H. apply res_bind_ok in H as (validated & Hv & H).
  apply res_bind_ok in H as (report & Hr & H). apply res_bind_ok in H as (summary & Hs & H). cbv zeta in H.
  set (showS := shown (em_OutputOptions cfg) oo_ShowSummaries) in *.
  set (showV := shown (em_OutputOptions cfg) oo_ShowValidationMetadata) in *.
  assert (Hval : is_Some validated ↔ ∃ md, em_ValidationMetadata cfg = Some md ∧ md_Enable md = true).
  { split.
    - intros [x ->]. destruct (em_ValidationMetadata cfg) as [md|]; [|done]. destruct (md_Enable md) eqn:?; [eauto|done].
    - intros (md & Hmd & He). rewrite Hmd, He in Hv. apply wrapf_ok in Hv. by eapply RunValidation_enabled. }
  assert (Hrep : is_Some report ↔ is_Some validated).
  { destruct validated as [[md rt]|]; [|injection Hr as <-; by rewrite !is_Some_alt]. apply wrapf_ok in Hr.
    unfold BuildValidationReport in Hr. inv_res. subst. split; eauto. }
  assert (Hsum : showS && (0 <? length summary)%nat = true ↔ showS = true ∧ em_Summaries cfg ≠ []).
  { destruct showS; [|injection Hs as <-; simpl; naive_solver]. apply wrapf_ok, buildSummaries_shown in Hs. rewrite Hs. naive_solver. }
  assert (Hshape : ∃ cfg', em_RecordType cfg' = em_RecordType cfg ∧ e = {|
    en_runtime := buildRuntimeMetadata now file sig cfg' (snd <$> validated) (showS && (0 <? length summary)%nat)
                    (showV && bool_decide (is_Some report)) o n;
    en_validation := if showV && bool_decide (is_Some report) then report else None; en_data := record;
    en_summary := if showS && (0 <? length summary)%nat then Some summary else None |}).
  { destruct validated as [[md rt]|]; [destruct (ShouldFailExtraction _ _) as [[] []]; try done|];
      injection H as <-; eexists; (split; [|reflexivity]); done. }
  destruct Hshape as (cfg' & Ht & ->). cbn [en_data en_summary en_validation en_runtime].
  pose proof (metadata_get now file sig cfg' (snd <$> validated) (showS && (0 <? length summary)%nat)
    (showV && bool_decide (is_Some report)) o n) as (Hm1 & Hm2 & Hm3).
  split_and!; [done| | |done|by rewrite Hm2, Ht|done|].
  - rewrite <- Hsum. destruct (_ && _); rewrite is_Some_alt; naive_solver.
  - rewrite <- Hval, <- Hrep. destruct showV; cbn [andb].
    + case_bool_decide; [naive_solver|]. split; [by intros [? ?]|naive_solver].
    + split; [by intros [? ?]|naive_solver].
  - intros md rt Hmd He Hrt. rewrite Hmd, He in Hv. apply wrapf_ok in Hv. rewrite Hrt in Hv. injection Hv as <-.
    destruct rt as [md' rt]. by destruct (ShouldFailExtraction _ _) as [[] []].
Qed.
End envelope.
