(* ===== verification/ExtractPrepare.v ===== *)
(** * Preparing an extraction (internal/extract: extractor.go, format.go, namespaces.go, clone.go)

    The checks a configuration passes before any input is read: namespace maps,
    derive-only mappings, compiled expressions, the input format with what each
    format cannot satisfy, the scope of the signature; and the copies workers
    and the streaming route take. A Go map that is ranged over is its entries in
    some order. *)
From Stdlib Require Import Ascii ZArith Lia SpecFloat.
From stdpp Require Import base list strings.
From S2P Require Import Prelude GoStrings GoFloat GoStrconv GoValue DslTypes GoCsv GoJson JsonScan Extract.

(** ** Signatures (types.go) *)
Record MatchPattern := { mp_PatternID : string; mp_Selector : string; mp_Weight : f64 }.
Record FileSignature := {
  fg_SignatureID : string;
  fg_Name : string;
  fg_Namespaces : list (string * string);
  fg_MatchPatterns : list MatchPattern;
  fg_ConfidenceThreshold : f64;
  fg_FormatType : string;
  fg_MatchScope : string;
}.
Record ApplicabilityConfig := { ap_Type : string; ap_Expression : string }.

Definition FormatXML : string := "xml".
Definition FormatJSON : string := "json".
Definition FormatNDJSON : string := "ndjson".

(** ** What json input cannot satisfy (format.go) *)
Inductive axisKind := axisAttribute | axisNamespace | axisPrefixedName.
#[export] Instance axisKind_eq_dec : EqDecision axisKind.
Proof. solve_decision. Defined.
Record axisViolation := { av_Kind : axisKind; av_Start : nat; av_End : nat; av_Text : string }.

Definition isNameStart (c : ascii) : bool :=
  (c =c? "_"%char) || in_range 97 122 (bcode c) || in_range 65 90 (bcode c) || (128 <=? bcode c)%Z.
Definition isNameChar (c : ascii) : bool :=
  isNameStart c || (c =c? "-"%char) || (c =c? "."%char) || in_range 48 57 (bcode c).
Definition xpath_quote (c : ascii) : bool := (c =c? DQ) || (c =c? "'"%char).
(** Length of the longest prefix whose bytes satisfy [f]. *)
Fixpoint span (f : ascii → bool) (s : string) : nat :=
  match s with String c t => if f c then S (span f t) else 0 | "" => 0 end.
Definition violation (k : axisKind) (expr : string) (i j : nat) : axisViolation :=
  {| av_Kind := k; av_Start := i; av_End := j; av_Text := ssub expr i j |}.

(** A name that starts at [i] and ends at [j]: its violation, and where to go on. *)
Definition lex_name (expr : string) (i j : nat) : list axisViolation * nat :=
  match sdrop j expr with
  | String ":" (String ":" _) =>
      let name := ssub expr i j in
      (if name =s? "attribute" then [violation axisAttribute expr i (j + 2)]
       else if name =s? "namespace" then [violation axisNamespace expr i (j + 2)] else [], j + 2)
  | String ":" (String d _ as rest) =>
      if isNameStart d || (d =c? "*"%char) then
        let e := j + 1 + span (λ c, isNameChar c || (c =c? "*"%char)) rest in
        ([violation axisPrefixedName expr i e], e)
      else ([], j)
  | _ => ([], j)
  end.
Fixpoint axis_violations (fuel : nat) (expr : string) (i : nat) : list axisViolation :=
  match fuel with
  | 0 => []
  | S fuel =>
      match sdrop i expr with
      | "" => []
      | String c rest =>
          if xpath_quote c then
            match sindex (String c "") rest with
            | None => []
            | Some k => axis_violations fuel expr (i + k + 2)
            end
          else if (c =c? "@"%char) then
            let e := i + 1 + span (λ b, isNameChar b || (b =c? ":"%char) || (b =c? "*"%char)) rest in
            violation axisAttribute expr i e :: axis_violations fuel expr e
          else if isNameStart c then
            let '(vs, next) := lex_name expr i (i + span isNameChar (String c rest)) in
            vs ++ axis_violations fuel expr next
          else axis_violations fuel expr (S i)
      end
  end.
(** Each round moves on, so the length of the expression is enough. *)
Definition xpathAxisViolations (expr : string) : list axisViolation := axis_violations (S (slen expr)) expr 0.

Definition checkJSONXPath (label : string) (expr : string) : result unit :=
  match xpathAxisViolations expr with
  | [] => Ok ()
  | v :: _ =>
      match av_Kind v with
      | axisAttribute => errorf "%s xpath %q uses the attribute axis (%q): %s" [AStr label; AStr expr; AStr (av_Text v)]
      | axisNamespace => errorf "%s xpath %q uses the namespace axis (%q): json input has no namespaces"
                           [AStr label; AStr expr; AStr (av_Text v)]
      | axisPrefixedName => errorf "%s xpath %q uses the prefixed name %q: json input has no namespaces"
                              [AStr label; AStr expr; AStr (av_Text v)]
      end
  end.

Section prepare.
Context `{UC : UnicodeCase, EN : Engine}.

(** The first error of a list of checks. *)
Definition check_all {A} (f : A → result unit) (l : list A) : result unit := foldM (λ _ a, f a) () l.

Fixpoint checkJSONMapping (scope : string) (m : FieldMapping) {struct m} : result unit :=
  let label := scope +:+ " " +:+ quote (fm_OutputField m) in
  _ ← checkJSONXPath label (fm_XPath m);
  _ ← check_all (checkJSONMapping "item mapping") (fm_ItemMapping m);
  check_all (λ pm,
    _ ← checkJSONXPath (label +:+ " polymorphic match_xpath") (pm_MatchXPath pm);
    check_all (checkJSONMapping "polymorphic mapping") (pm_FieldMappings pm)) (fm_Polymorphic m).
Definition checkJSONMappings (scope : string) (mappings : list FieldMapping) : result unit :=
  check_all (checkJSONMapping scope) mappings.
Definition is_xpath_type (app : ApplicabilityConfig) : bool := EqualFold (trim_space (ap_Type app)) "xpath".
Definition checkJSONConfig (sig : FileSignature) (ext : option ExtractRecordMatch) (app : option ApplicabilityConfig)
    : result unit :=
  _ ← (if (0 <? length (fg_Namespaces sig))%nat
       then errorf "signature namespaces: json input has no namespaces; remove the namespaces map" [] else Ok ());
  _ ← check_all (λ p, checkJSONXPath ("signature selector (pattern " +:+ quote (mp_PatternID p) +:+ ")") (mp_Selector p))
        (fg_MatchPatterns sig);
  _ ← match app with
      | Some a => if is_xpath_type a then checkJSONXPath "applicability expression" (ap_Expression a) else Ok ()
      | None => Ok ()
      end;
  match ext with
  | None => Ok ()
  | Some ext =>
      _ ← (if (0 <? length (em_Namespaces ext))%nat
           then errorf "extract namespaces: json input has no namespaces; remove the namespaces map" [] else Ok ());
      _ ← check_all (λ ns, checkJSONXPath ("match selector " +:+ itoa (Z.of_nat (S ns.1))) (ms_XPath ns.2))
            (imap pair (em_MatchSelectors ext));
      checkJSONMappings "field mapping" (em_FieldMappings ext)
  end.

(** ** Input format and signature scope (format.go) *)
Definition NormalizeInputFormat (token : string) : result string :=
  let t := to_lower (trim_space token) in
  if (t =s? "") || (t =s? FormatXML) then Ok FormatXML
  else if t =s? FormatJSON then Ok FormatJSON
  else if t =s? FormatNDJSON then Ok FormatNDJSON
  else if t =s? "protobuf" then errorf "input format %q is reserved, not implemented" [AStr token]
  else errorf "unknown input format %q (supported: xml, json, ndjson)" [AStr token].

Definition ValidateRecordSelector (selector : string) : result unit := _ ← ParseRecordSelector selector; Ok ().
Definition checkMatchScope (format : string) (sig : FileSignature) (ext : option ExtractRecordMatch)
    (app : option ApplicabilityConfig) : result unit :=
  let scope := to_lower (trim_space (fg_MatchScope sig)) in
  if negb (existsb (String.eqb scope) [""; "document"; "record"]) then
    errorf "signature match_scope %q is not supported (supported: document, record)" [AStr (fg_MatchScope sig)]
  else if (format =s? FormatNDJSON) && negb (scope =s? "record") then
    errorf "signature match_scope: ndjson input has no whole document" []
  else if (format =s? FormatNDJSON) && bool_decide (is_Some app) then
    errorf "applicability is not supported for ndjson input: ndjson is always read record by record" []
  else if negb (scope =s? "record") then Ok ()
  else if format =s? FormatXML then
    errorf "signature match_scope: record is not supported for xml input in this release" []
  else match ext with
       | None => Ok ()
       | Some ext =>
           match em_MatchSelectors ext with
           | [s] => wrapf "signature match_scope: record: %w" [] (ValidateRecordSelector (ms_XPath s))
           | ss => errorf "signature match_scope: record needs exactly one extract match selector; found %d"
                     [AInt (Z.of_nat (length ss))]
           end
       end.
Definition isRecordScope (sig : option FileSignature) : bool :=
  match sig with Some sig => EqualFold (trim_space (fg_MatchScope sig)) "record" | None => false end.

Definition with_format (sig : FileSignature) (format : string) : FileSignature := {|
  fg_SignatureID := fg_SignatureID sig; fg_Name := fg_Name sig; fg_Namespaces := fg_Namespaces sig;
  fg_MatchPatterns := fg_MatchPatterns sig; fg_ConfidenceThreshold := fg_ConfidenceThreshold sig;
  fg_FormatType := format; fg_MatchScope := fg_MatchScope sig |}.
(** The effective format, and the signature that records it. *)
Definition ResolveInputFormat (recipeFormat : string) (recipeMode : bool) (sig : FileSignature)
    (ext : option ExtractRecordMatch) (app : option ApplicabilityConfig) : result (string * FileSignature) :=
  sigFormat ← wrapf "signature format_type: %w" [] (NormalizeInputFormat (fg_FormatType sig));
  effective ← (if recipeMode then
                 eff ← wrapf "recipe defaults.input.format: %w" [] (NormalizeInputFormat recipeFormat);
                 if eff =s? sigFormat then Ok eff
                 else if trim_space (fg_FormatType sig) =s? "" then
                   errorf "recipe defaults.input.format is %q but signature format_type defaults to xml" [AStr eff]
                 else errorf "recipe defaults.input.format %q does not match signature format_type %q"
                        [AStr eff; AStr sigFormat]
               else Ok sigFormat);
  _ ← (if (effective =s? FormatJSON) || (effective =s? FormatNDJSON) then checkJSONConfig sig ext app else Ok ());
  _ ← checkMatchScope effective sig ext app;
  Ok (effective, with_format sig effective).

(** [registered]: the tokens of docnode's registry; xml, json and ndjson register themselves. *)
Definition registered (token : string) : bool := existsb (String.eqb token) [FormatXML; FormatJSON; FormatNDJSON].
Definition inputFormat (sig : option FileSignature) : result string :=
  token ← match sig with
          | Some sig => if trim_space (fg_FormatType sig) =s? "" then Ok FormatXML
                        else NormalizeInputFormat (fg_FormatType sig)
          | None => Ok FormatXML
          end;
  if registered token then Ok token else errorf "input format %q is not registered" [AStr token].
Definition isJSONInput (sig : option FileSignature) : bool :=
  match sig with Some sig => EqualFold (trim_space (fg_FormatType sig)) FormatJSON | None => false end.
Definition isNDJSONInput (sig : option FileSignature) : bool :=
  match sig with Some sig => EqualFold (trim_space (fg_FormatType sig)) FormatNDJSON | None => false end.
End prepare.

(** ** Derive-only mappings, namespaces and compilation (extractor.go, namespaces.go) *)
Section compile.
Context `{UC : UnicodeCase, EN : Engine}.
(** encoding/json: marshal and unmarshal again. *)
Context (json_copy : vmap → result vmap).

Definition validate_alias (role : string) (au : string * string) : result unit :=
  let trimmed := trim_space au.1 in
  if trimmed =s? "" then errorf "%s namespaces: empty alias is not allowed" [AStr role]
  else if negb (trimmed =s? au.1) then
    errorf "%s namespaces: alias %q must not have surrounding whitespace" [AStr role; AStr au.1]
  else if existsb (λ c, scontains_byte c au.1) [":"; " "; "009"]%char then
    errorf "%s namespaces: alias %q must be an ordinary non-colon name" [AStr role; AStr au.1]
  else if (au.1 =s? "xml") || (au.1 =s? "xmlns") then
    errorf "%s namespaces: alias %q is reserved" [AStr role; AStr au.1]
  else if trim_space au.2 =s? "" then errorf "%s namespaces: alias %q has an empty URI" [AStr role; AStr au.1]
  else Ok ().
Definition validateNamespaceMap (role : string) (ns : list (string * string)) : result unit :=
  check_all (validate_alias role) ns.

(** [prepareSignatureConfig]: the compiled selectors are only a check. *)
Definition prepareSignatureConfig (cfg : FileSignature) : result unit :=
  _ ← validateNamespaceMap "signature" (fg_Namespaces cfg);
  match fg_Namespaces cfg with
  | [] => Ok ()
  | ns => check_all (λ p,
            let selector := trim_space (mp_Selector p) in
            if selector =s? "" then Ok ()
            else
              _ ← wrapf "failed to compile signature selector %q (pattern %q): %w" [AStr (mp_Selector p); AStr (mp_PatternID p)]
                    (compileXPath selector ns);
              Ok ()) (fg_MatchPatterns cfg)
  end.
Definition validateApplicabilityConfig (cfg : ApplicabilityConfig) : result unit :=
  if trim_space (ap_Type cfg) =s? "" then errorf "applicability.type is required" []
  else if negb (to_lower (trim_space (ap_Type cfg)) =s? "xpath") then
    errorf "unsupported applicability.type %q" [AStr (ap_Type cfg)]
  else if trim_space (ap_Expression cfg) =s? "" then errorf "applicability.expression is required" []
  else Ok ().

(** [rejectNestedInternal]. *)
Fixpoint rejectNestedInternal (topLevel : bool) (m : FieldMapping) {struct m} : result unit :=
  if negb topLevel && fm_Internal m then
    errorf "field_mappings %q: internal:true is not supported on nested item_mapping or polymorphic_mapping fields"
      [AStr (trim_space (fm_OutputField m))]
  else
    _ ← check_all (rejectNestedInternal false) (fm_ItemMapping m);
    check_all (λ pm, check_all (rejectNestedInternal false) (pm_FieldMappings pm)) (fm_Polymorphic m).
Definition validateInternalMappingShape (m : FieldMapping) : result unit :=
  let name := trim_space (fm_OutputField m) in
  let hasXPath := negb (trim_space (fm_XPath m) =s? "") in
  let hasExpression := negb (trim_space (fm_Expression m) =s? "") in
  if hasXPath && hasExpression then
    errorf "field_mappings %q: internal:true requires exactly one of xpath or expression, not both" [AStr name]
  else if negb hasXPath && negb hasExpression then
    errorf "field_mappings %q: internal:true requires exactly one of xpath or expression" [AStr name]
  else if hasExpression && negb (trim_space (fm_Transform m) =s? "") then
    errorf "field_mappings %q: transform is not supported with internal:true expression mappings" [AStr name]
  else if hasExpression && (0 <? length (fm_TransformParams m))%nat then
    errorf "field_mappings %q: transform_params are not supported with internal:true expression mappings" [AStr name]
  else Ok ().
Definition validate_internal (im : nat * FieldMapping) : result unit :=
  let m := im.2 in
  _ ← rejectNestedInternal true m;
  if negb (fm_Internal m) then Ok ()
  else
    let name := trim_space (fm_OutputField m) in
    if name =s? "" then
      errorf "internal field_mappings entry at index %d requires output_field" [AInt (Z.of_nat im.1)]
    else
      _ ← validateInternalMappingShape m;
      if EqualFold (trim_space (fm_Type m)) "array" then
        errorf "field_mappings %q: internal:true is not supported for type array (top-level scalar only)" [AStr name]
      else if ((0 <? length (fm_ItemMapping m)) || (0 <? length (fm_Polymorphic m)))%nat then
        errorf "field_mappings %q: internal:true is not supported with item_mapping or polymorphic_mapping (top-level scalar only)" [AStr name]
      else Ok ().
Fixpoint duplicate_output (seen : list string) (mappings : list FieldMapping) : result unit :=
  match mappings with
  | [] => Ok ()
  | m :: mappings =>
      let name := trim_space (fm_OutputField m) in
      if name =s? "" then duplicate_output seen mappings
      else if existsb (String.eqb name) seen then
        errorf "field_mappings output_field %q is duplicated while at least one mapping is internal:true" [AStr name]
      else duplicate_output (name :: seen) mappings
  end.
(** [InternalFieldMappingNames], as the list of its members. *)
Definition InternalFieldMappingNames (mappings : list FieldMapping) : list string :=
  filter (λ name, name ≠ "") ((λ m, trim_space (fm_OutputField m)) <$> filter (λ m, fm_Internal m = true) mappings).
Definition reject_names (message : string) (internalNames names : list string) : result unit :=
  check_all (λ name, if existsb (String.eqb (trim_space name)) internalNames then errorf message [AStr name] else Ok ()) names.
Definition required_names (schema : vmap) : list string :=
  match vget "required" schema with
  | VList l => omap (λ v, match v with VString s => Some s | _ => None end) l
  | VStrings l => l
  | _ => []
  end.
Definition rejectInternalNamesInOutputSchema (schema : vmap) (internalNames : list string) : result unit :=
  _ ← reject_names "output_schema.properties %q names an internal field_mappings output_field" internalNames
        (mkeys (default [] (schema_properties schema)));
  reject_names "output_schema.required %q names an internal field_mappings output_field; remove it" internalNames
    (required_names schema).
Definition validateInternalFieldMappings (cfg : ExtractRecordMatch) : result unit :=
  _ ← check_all validate_internal (imap pair (em_FieldMappings cfg));
  if negb (existsb fm_Internal (em_FieldMappings cfg)) then Ok ()
  else
    _ ← duplicate_output [] (em_FieldMappings cfg);
    let names := InternalFieldMappingNames (em_FieldMappings cfg) in
    _ ← rejectInternalNamesInOutputSchema (em_OutputSchema cfg) names;
    reject_names "filters key %q names an internal field_mappings output_field" names (mkeys (em_Filters cfg)).

(** ** Compilation *)
Definition compile_if (message : string) (args : list earg) (ns : list (string * string)) (expr : string)
    (compiled : option xexpr) : result (option xexpr) :=
  if trim_space expr =s? "" then Ok compiled
  else match compiled with
       | Some x => Ok (Some x)
       | None => x ← wrapf message args (compileXPath expr ns); Ok (Some x)
       end.
Definition compile_branch (compile : FieldMapping → result FieldMapping) (ns : list (string * string))
    (pm : PolymorphicMapping) : result PolymorphicMapping :=
  compiled ← compile_if "failed to compile polymorphic match XPath %q: %w" [AStr (pm_MatchXPath pm)]
               ns (pm_MatchXPath pm) (pm_CompiledMatchXPath pm);
  fms ← mapR compile (pm_FieldMappings pm);
  Ok (mkPolymorphicMapping (pm_ElementType pm) (pm_MatchXPath pm) (pm_ItemType pm) fms compiled).
Fixpoint compileFieldMapping (ns : list (string * string)) (m : FieldMapping) {struct m} : result FieldMapping :=
  compiled ← compile_if "failed to compile XPath %q for field %q: %w" [AStr (fm_XPath m); AStr (fm_OutputField m)]
               ns (fm_XPath m) (fm_CompiledXPath m);
  items ← mapR (compileFieldMapping ns) (fm_ItemMapping m);
  poly ← mapR (compile_branch (compileFieldMapping ns) ns) (fm_Polymorphic m);
  Ok (mkFieldMapping (fm_OutputField m) (fm_XPath m) (fm_Expression m) (fm_Type m) (fm_Transform m)
        (fm_TransformParams m) (fm_Internal m) items poly compiled).
Definition compile_selector (ns : list (string * string)) (s : MatchSelector) : result MatchSelector :=
  compiled ← compile_if "failed to compile match selector %q: %w" [AStr (ms_XPath s)] ns (ms_XPath s) (ms_CompiledXPath s);
  Ok {| ms_XPath := ms_XPath s; ms_MinOccurrences := ms_MinOccurrences s; ms_CompiledXPath := compiled |}.

(** Each declared property also admits null. *)
Definition nullableOutputSchema (schema : vmap) : result vmap :=
  match schema with
  | [] => Ok []
  | _ =>
      copied ← wrapf "failed to copy output schema: %w" [] (json_copy schema);
      Ok match schema_properties copied with
         | None => copied
         | Some properties =>
             mset "properties" (VMap ((λ kv, (kv.1, VMap [("anyOf", VList [VMap [("type", VString "null")]; kv.2])])) <$> properties))
               copied
         end
  end.
Definition buildOutputValidator (schema : vmap) (uniform : bool) : result validator :=
  schema ← (if uniform then nullableOutputSchema schema else Ok schema);
  NewValidator schema.
Definition rebuild (cfg : ExtractRecordMatch) (selectors : list MatchSelector) (mappings : list FieldMapping)
    (uniform : bool) (v : option validator) : ExtractRecordMatch := {|
  em_RecordType := em_RecordType cfg; em_Namespaces := em_Namespaces cfg; em_MatchSelectors := selectors;
  em_OutputSchema := em_OutputSchema cfg; em_FieldMappings := mappings; em_Filters := em_Filters cfg;
  em_ValidationMetadata := em_ValidationMetadata cfg; em_OutputOptions := em_OutputOptions cfg;
  em_Summaries := em_Summaries cfg; em_UniformSchema := uniform; em_OutputValidator := v;
  em_ReferenceTables := em_ReferenceTables cfg |}.
Definition output_validator (cfg : ExtractRecordMatch) : result (option validator) :=
  match em_OutputSchema cfg, em_OutputValidator cfg with
  | _ :: _, None =>
      v ← wrapf "failed to prepare output validator: %w" [] (buildOutputValidator (em_OutputSchema cfg) (em_UniformSchema cfg));
      Ok (Some v)
  | _, v => Ok v
  end.
(** [prepareExtractConfig] without its [sync.Once]: the prepared configuration
    is a fixed point, so running it once is running it at every call. *)
Definition prepareExtractConfig (cfg : ExtractRecordMatch) : result ExtractRecordMatch :=
  _ ← validateNamespaceMap "extract" (em_Namespaces cfg);
  v ← output_validator cfg;
  _ ← validateInternalFieldMappings cfg;
  selectors ← mapR (compile_selector (em_Namespaces cfg)) (em_MatchSelectors cfg);
  mappings ← mapR (compileFieldMapping (em_Namespaces cfg)) (em_FieldMappings cfg);
  Ok (rebuild cfg selectors mappings (em_UniformSchema cfg) v).
Definition SetUniformSchema (cfg : ExtractRecordMatch) (enabled : bool) : result ExtractRecordMatch :=
  match em_OutputSchema cfg with
  | [] => Ok (rebuild cfg (em_MatchSelectors cfg) (em_FieldMappings cfg) enabled (em_OutputValidator cfg))
  | schema =>
      v ← wrapf "failed to prepare output validator: %w" [] (buildOutputValidator schema enabled);
      Ok (rebuild cfg (em_MatchSelectors cfg) (em_FieldMappings cfg) enabled (Some v))
  end.

(** ** Copies (clone.go) *)
Definition clonePolymorphicMapping (clone : FieldMapping → FieldMapping) (pm : PolymorphicMapping) : PolymorphicMapping :=
  mkPolymorphicMapping (pm_ElementType pm) (pm_MatchXPath pm) (pm_ItemType pm) (map clone (pm_FieldMappings pm)) None.
Fixpoint cloneFieldMapping (m : FieldMapping) : FieldMapping :=
  mkFieldMapping (fm_OutputField m) (fm_XPath m) (fm_Expression m) (fm_Type m) (fm_Transform m) (fm_TransformParams m)
    (fm_Internal m) (map cloneFieldMapping (fm_ItemMapping m))
    (map (clonePolymorphicMapping cloneFieldMapping) (fm_Polymorphic m)) None.
Definition cloneMatchSelector (s : MatchSelector) : MatchSelector :=
  {| ms_XPath := ms_XPath s; ms_MinOccurrences := ms_MinOccurrences s; ms_CompiledXPath := None |}.
(** The validator is built anew by the copy's own preparation. *)
Definition CloneRecordMatch (cfg : ExtractRecordMatch) : ExtractRecordMatch :=
  rebuild cfg (map cloneMatchSelector (em_MatchSelectors cfg)) (map cloneFieldMapping (em_FieldMappings cfg))
    (em_UniformSchema cfg) None.
Definition cloneExtractConfigForStreaming (cfg : ExtractRecordMatch) : ExtractRecordMatch :=
  let clone := CloneRecordMatch cfg in
  rebuild clone [{| ms_XPath := "/*"; ms_MinOccurrences := 0; ms_CompiledXPath := None |}] (em_FieldMappings clone)
    (em_UniformSchema clone) (em_OutputValidator clone).
End compile.
