(* ===== verification/ExtractPrepareSpec.v ===== *)
(** * What preparation establishes

    The lexer of the json checks finds every attribute step; a resolved format
    is recorded and stable; a prepared configuration is a fixed point, copies of
    it prepare to the same configuration, and none of its derive-only names
    reaches a record. *)
From Stdlib Require Import Ascii ZArith Lia SpecFloat.
From stdpp Require Import base list strings sets.
From S2P Require Import Prelude GoStrings GoFloat GoStrconv GoUtf8 GoValue DslTypes GoCsv GoJson JsonScan Extract ExtractSpec ExtractPrepare.

(** ** The lexer *)
Section lexer.
Implicit Types (c d : ascii) (s t expr : string) (i j k : nat).

(** Positions of at-signs outside string literals; [q] is the open quote. *)
Fixpoint at_positions (q : option ascii) (i : nat) (s : string) : list nat :=
  match s with
  | "" => []
  | String c t =>
      match q with
      | Some d => at_positions (if c =c? d then None else q) (S i) t
      | None =>
          if xpath_quote c then at_positions (Some c) (S i) t
          else if c =c? "@"%char then i :: at_positions None (S i) t
          else at_positions None (S i) t
      end
  end.
Definition plain c : bool := negb (xpath_quote c) && negb (c =c? "@"%char).

Lemma at_span (f : ascii → bool) i s : (∀ c, f c = true → plain c = true) →
  at_positions None i s = at_positions None (i + span f s) (sdrop (span f s) s).
Proof.
  intros Hf. revert i. induction s as [|c s IH]; intros i; [done|]. cbn [span]. destruct (f c) eqn:E.
  - rewrite Nat.add_succ_r. cbn [at_positions sdrop]. apply Hf, andb_true_iff in E as [E1%negb_true_iff E2%negb_true_iff].
    rewrite E1, E2. apply (IH (S i)).
  - by rewrite Nat.add_0_r.
Qed.
Lemma at_literal c i s :
  at_positions (Some c) i s = match sindex (String c "") s with
                              | Some k => at_positions None (i + k + 1) (sdrop (k + 1) s)
                              | None => []
                              end.
Proof.
  revert i. induction s as [|d s IH]; intros i; [done|]. cbn [at_positions sindex has_prefix].
  rewrite (Ascii.eqb_sym c d). destruct (d =c? c)%char; cbn [andb].
  - rewrite Nat.add_0_r, Nat.add_1_r. cbn. by rewrite ?sdrop_0.
  - rewrite IH. destruct (sindex (String c "") s) as [k|]; [|done]. cbn [fmap option_fmap option_map].
    by replace (i + S k + 1) with (S i + k + 1) by lia.
Qed.

Lemma span_le f s : span f s ≤ slen s.
Proof. induction s as [|c s IH]; cbn [span]; [done|]. case_match; simpl; lia. Qed.
Lemma nameStart_plain c : isNameStart c = true → plain c = true.
Proof. by destruct c as [[] [] [] [] [] [] [] []]. Qed.
Lemma nameChar_plain c : isNameChar c = true → plain c = true.
Proof. by destruct c as [[] [] [] [] [] [] [] []]. Qed.
Lemma step_plain c : isNameChar c || (c =c? ":"%char) || (c =c? "*"%char) = true → plain c = true.
Proof. by destruct c as [[] [] [] [] [] [] [] []]. Qed.
Lemma prefixed_plain c : isNameChar c || (c =c? "*"%char) = true → plain c = true.
Proof. by destruct c as [[] [] [] [] [] [] [] []]. Qed.

Definition at_starts (expr : string) (vs : list axisViolation) : list nat :=
  av_Start <$> filter (λ v, sget (av_Start v) expr = Some "@"%char ∧ av_Kind v = axisAttribute) vs.
Definition well_placed (expr : string) (v : axisViolation) : Prop :=
  av_Start v < av_End v ≤ slen expr ∧ av_Text v = ssub expr (av_Start v) (av_End v).

Lemma sget_head expr i c t : sdrop i expr = String c t → sget i expr = Some c ∧ i < slen expr ∧ sdrop (S i) expr = t.
Proof.
  intros H. rewrite sget_sdrop, H. split_and!; [done| |].
  - destruct (decide (i < slen expr)); [done|]. rewrite sdrop_ge in H by lia. done.
  - rewrite <- Nat.add_1_r, <- sdrop_sdrop, H. by destruct t.
Qed.
Lemma at_starts_app expr vs vs' : at_starts expr (vs ++ vs') = at_starts expr vs ++ at_starts expr vs'.
Proof. unfold at_starts. by rewrite filter_app, fmap_app. Qed.
Lemma violation_placed (a : axisKind) expr i j : i < j ≤ slen expr → well_placed expr (violation a expr i j).
Proof. done. Qed.
Lemma at_starts_none (a : axisKind) expr i j c : sget i expr = Some c → c ≠ "@"%char → at_starts expr [violation a expr i j] = [].
Proof.
  intros Hc Hne. unfold at_starts. rewrite filter_cons_False; [done|]. cbn. intros [H _]. congruence.
Qed.
Lemma at_starts_one expr i j : sget i expr = Some "@"%char → at_starts expr [violation axisAttribute expr i j] = [i].
Proof. intros Hc. unfold at_starts. by rewrite filter_cons_True. Qed.

(** A name is lexed without crossing an at-sign or a quote. *)
Lemma lex_name_spec expr i j c vs next :
  sget i expr = Some c → isNameStart c = true → i < j ≤ slen expr → lex_name expr i j = (vs, next) →
  j ≤ next ≤ slen expr ∧ Forall (well_placed expr) vs ∧ at_starts expr vs = [] ∧
  at_positions None j (sdrop j expr) = at_positions None next (sdrop next expr).
Proof.
  intros Hc Hs Hj. assert (c ≠ "@"%char) as Hne by (by intros ->).
  assert (∀ n, sdrop (j + n) expr = sdrop n (sdrop j expr)) as Hdrop by (intros n; by rewrite sdrop_sdrop).
  assert (slen (sdrop j expr) = slen expr - j) as Hlen by apply slen_sdrop.
  unfold lex_name. destruct (sdrop j expr) as [|a [|b rest]] eqn:Hd.
  { intros [= <- <-]. rewrite Hd. split_and!; [lia|lia|constructor|done|done]. }
  { intros H. assert ((vs, next) = ([], j)) as [= -> ->].
    { rewrite <- H. by destruct a as [[] [] [] [] [] [] [] []]. }
    rewrite Hd. split_and!; [lia|lia|constructor|done|done]. }
  simpl in Hlen. destruct (Ascii.eqb_spec a ":"%char) as [->|Ha].
  2: { intros H. assert ((vs, next) = ([], j)) as [= -> ->].
       { rewrite <- H. destruct a as [[] [] [] [] [] [] [] []]; try done; by destruct b as [[] [] [] [] [] [] [] []]. }
       rewrite Hd. split_and!; [lia|lia|constructor|done|done]. }
  destruct (Ascii.eqb_spec b ":"%char) as [->|Hb].
  - intros [= <- <-]. rewrite Hdrop. split_and!; [lia|lia| | |].
    + repeat case_match; repeat constructor; cbn; lia.
    + repeat case_match; try done; by eapply at_starts_none.
    + rewrite Nat.add_comm. by destruct rest.
  - set (e := j + 1 + _). intros H.
    assert (if isNameStart b || (b =c? "*"%char) then vs = [violation axisPrefixedName expr i e] ∧ next = e
            else vs = [] ∧ next = j) as Hvs.
    { destruct b as [[] [] [] [] [] [] [] []]; try done; cbn in H |- *; by injection H as <- <-. }
    destruct (isNameStart b || _) eqn:Hn; destruct Hvs as [-> ->].
    2: { rewrite Hd. split_and!; [lia|lia|constructor|done|done]. }
    pose proof (span_le (λ c, isNameChar c || (c =c? "*"%char)) (String b rest)) as Hle. simpl slen in Hle.
    split_and!; [unfold e; lia|unfold e; lia| | |].
    + repeat constructor; cbn; unfold e; lia.
    + by eapply at_starts_none.
    + unfold e. rewrite <- Nat.add_assoc, Hdrop. cbn [sdrop Nat.add].
      change (at_positions None (S j) (String b rest) =
        at_positions None (j + S (span (λ c, isNameChar c || (c =c? "*"%char)) (String b rest)))
          (sdrop (span (λ c, isNameChar c || (c =c? "*"%char)) (String b rest)) (String b rest))).
      rewrite Nat.add_succ_r. apply (at_span _ (S j)), prefixed_plain.
Qed.

Lemma axis_violations_spec expr fuel : ∀ i, slen expr < i + fuel →
  at_starts expr (axis_violations fuel expr i) = at_positions None i (sdrop i expr) ∧
  Forall (well_placed expr) (axis_violations fuel expr i).
Proof.
  induction fuel as [|fuel IH]; intros i Hf; cbn [axis_violations].
  { by rewrite sdrop_ge by lia. }
  destruct (sdrop i expr) as [|c rest] eqn:Hd; [done|]. pose proof (sget_head _ _ _ _ Hd) as (Hc & Hi & Hd1).
  assert (∀ n, sdrop (i + S n) expr = sdrop n rest) as Hdrop.
  { intros n. by rewrite <- Hd1, sdrop_sdrop, Nat.add_succ_r. }
  assert (slen rest = slen expr - S i) as Hlen by (by rewrite <- Hd1, slen_sdrop).
  cbn [at_positions]. destruct (xpath_quote c) eqn:Hq.
  { rewrite at_literal. destruct (sindex (String c "") rest) as [k|]; [|done].
    replace (i + k + 2) with (i + S (k + 1)) by lia. destruct (IH (i + S (k + 1))) as [H1 H2]; [lia|].
    rewrite H1, Hdrop. split; [f_equal; lia|done]. }
  destruct (Ascii.eqb_spec c "@"%char) as [->|Hat].
  { set (n := span _ rest). pose proof (span_le (λ b, isNameChar b || (b =c? ":"%char) || (b =c? "*"%char)) rest) as Hle.
    fold n in Hle. replace (i + 1 + n) with (i + S n) by lia. destruct (IH (i + S n)) as [H1 H2]; [lia|]. split.
    - change (?v :: ?l) with ([v] ++ l). rewrite at_starts_app, H1, Hdrop, at_starts_one by done. cbn [app]. f_equal.
      unfold n. rewrite (at_span (λ b, isNameChar b || (b =c? ":"%char) || (b =c? "*"%char)) (S i) rest) by apply step_plain.
      f_equal. lia.
    - constructor; [|done]. apply violation_placed. lia. }
  destruct (isNameStart c) eqn:Hs.
  - destruct (lex_name expr i _) as [vs next] eqn:Hl.
    assert (isNameChar c = true) as Hcc by (unfold isNameChar; by rewrite Hs).
    pose proof (span_le isNameChar rest) as Hle. cbn [span] in Hl. rewrite Hcc in Hl.
    eapply lex_name_spec in Hl as (Hn & Hall & Hnone & Hpos); [|done|done|lia].
    destruct (IH next) as [H1 H2]; [lia|]. split; [|by apply Forall_app].
    rewrite at_starts_app, Hnone, H1, <- Hpos, Hdrop. cbn [app]. rewrite (at_span isNameChar (S i) rest) by apply nameChar_plain.
    f_equal. lia.
  - destruct (IH (S i)) as [H1 H2]; [lia|]. by rewrite H1, Hd1.
Qed.

Lemma xpathAxisViolations_at expr :
  at_starts expr (xpathAxisViolations expr) = at_positions None 0 expr ∧
  Forall (well_placed expr) (xpathAxisViolations expr).
Proof.
  pose proof (axis_violations_spec expr (S (slen expr)) 0) as H. rewrite sdrop_0 in H. apply H. lia.
Qed.
(** The lexer of the json checks reports an attribute step at exactly the
    at-signs outside string literals; each report is a non-empty piece of the
    expression. *)
Theorem xpathAxisViolations_spec expr :
  at_starts expr (xpathAxisViolations expr) = at_positions None 0 expr ∧
  Forall (well_placed expr) (xpathAxisViolations expr).
Proof. apply xpathAxisViolations_at. Qed.
End lexer.

(** ** Checks over lists *)
Section checks.
Context {A : Type} (f : A → result unit).
Lemma check_all_ok l : check_all f l = Ok () ↔ ∀ a, a ∈ l → f a = Ok ().
Proof.
  unfold check_all. induction l as [|a l IH]; simpl; [split; [by intros _ a ?%elem_of_nil|done]|].
  rewrite res_bind_ok. setoid_rewrite elem_of_cons. split.
  - intros ([] & Ha & Hl) x [->|Hx]; [done|]. by apply IH.
  - intros H. exists (). split; [apply H; by left|]. apply IH. intros x Hx. apply H. by right.
Qed.
End checks.

Lemma bind_unit_ok (m : result unit) (k : result unit) : (m ≫= λ _, k) = Ok () ↔ m = Ok () ∧ k = Ok ().
Proof. rewrite res_bind_ok. split; [intros ([] & ? & ?); auto|intros [? ?]; by exists ()]. Qed.
Lemma imap_pair_elem {A} (l : list A) (P : A → Prop) : (∀ x, x ∈ imap pair l → P x.2) ↔ ∀ a, a ∈ l → P a.
Proof.
  split.
  - intros H a (i & Hi)%list_elem_of_lookup. apply (H (i, a)). apply elem_of_lookup_imap. by exists i, a.
  - intros H [i a] (j & b & [= -> ->] & Hj)%elem_of_lookup_imap. apply H. by apply list_elem_of_lookup_2 in Hj.
Qed.

(** ** The json checks *)
Section json.
Context `{UC : UnicodeCase, EN : Engine}.

Fixpoint mapping_xpaths (m : FieldMapping) : list string :=
  fm_XPath m :: mjoin (map mapping_xpaths (fm_ItemMapping m)) ++
  mjoin (map (λ pm, pm_MatchXPath pm :: mjoin (map mapping_xpaths (pm_FieldMappings pm))) (fm_Polymorphic m)).
Definition config_xpaths (sig : FileSignature) (ext : option ExtractRecordMatch) (app : option ApplicabilityConfig)
    : list string :=
  (mp_Selector <$> fg_MatchPatterns sig) ++
  match app with Some a => if is_xpath_type a then [ap_Expression a] else [] | None => [] end ++
  match ext with
  | Some e => (ms_XPath <$> em_MatchSelectors e) ++ mjoin (mapping_xpaths <$> em_FieldMappings e)
  | None => []
  end.

Lemma checkJSONXPath_ok label x : checkJSONXPath label x = Ok () ↔ xpathAxisViolations x = [].
Proof. unfold checkJSONXPath. destruct (xpathAxisViolations x) as [|v l]; [done|]. split; [|done]. by destruct (av_Kind v). Qed.

Lemma checkJSONMapping_eq scope m :
  checkJSONMapping scope m =
  (let label := scope +:+ " " +:+ quote (fm_OutputField m) in
   _ ← checkJSONXPath label (fm_XPath m);
   _ ← check_all (checkJSONMapping "item mapping") (fm_ItemMapping m);
   check_all (λ pm,
     _ ← checkJSONXPath (label +:+ " polymorphic match_xpath") (pm_MatchXPath pm);
     check_all (checkJSONMapping "polymorphic mapping") (pm_FieldMappings pm)) (fm_Polymorphic m)).
Proof. by destruct m. Qed.
Lemma mapping_xpaths_eq m :
  mapping_xpaths m = fm_XPath m :: mjoin (map mapping_xpaths (fm_ItemMapping m)) ++
    mjoin (map (λ pm, pm_MatchXPath pm :: mjoin (map mapping_xpaths (pm_FieldMappings pm))) (fm_Polymorphic m)).
Proof. by destruct m. Qed.
Lemma elem_of_mjoin_map {A B} (f : A → list B) (l : list A) b : b ∈ mjoin (map f l) ↔ ∃ a, a ∈ l ∧ b ∈ f a.
Proof.
  rewrite list_elem_of_join. split.
  - intros (bs & Hb & Hbs). apply list_elem_of_In, in_map_iff in Hbs as (a & <- & Ha%list_elem_of_In). eauto.
  - intros (a & Ha & Hb). exists (f a). split; [done|]. apply list_elem_of_In, in_map. by apply list_elem_of_In.
Qed.
Definition clean (x : string) : Prop := xpathAxisViolations x = [].
Lemma checkJSONMapping_ok m : ∀ scope, checkJSONMapping scope m = Ok () ↔ ∀ x, x ∈ mapping_xpaths m → clean x.
Proof.
  induction m as [m IHi IHp] using mapping_ind. intros scope. rewrite checkJSONMapping_eq, mapping_xpaths_eq. cbv zeta.
  rewrite !bind_unit_ok, checkJSONXPath_ok, !check_all_ok. split.
  - intros (Hx & Hi & Hp) x. rewrite elem_of_cons, elem_of_app, !elem_of_mjoin_map.
    intros [->|[(fm & Hfm & Hin)|(pm & Hpm & Hin)]]; [done| |].
    + eapply IHi; [done|by apply Hi|done].
    + specialize (Hp pm Hpm). rewrite bind_unit_ok, checkJSONXPath_ok, check_all_ok in Hp. destruct Hp as [Hmx Hf].
      apply elem_of_cons in Hin as [->|(fm & Hfm & Hin)%elem_of_mjoin_map]; [done|].
      eapply IHp; [done|done|by apply Hf|done].
  - intros H. split_and!.
    + apply H. left.
    + intros fm Hfm. apply (IHi fm Hfm). intros x Hx. apply H. right. apply elem_of_app. left. apply elem_of_mjoin_map. eauto.
    + intros pm Hpm. rewrite bind_unit_ok, checkJSONXPath_ok, check_all_ok. split.
      * apply H. right. apply elem_of_app. right. apply elem_of_mjoin_map. exists pm. split; [done|left].
      * intros fm Hfm. apply (IHp pm fm Hpm Hfm). intros x Hx. apply H. right. apply elem_of_app. right.
        apply elem_of_mjoin_map. exists pm. split; [done|]. right. apply elem_of_mjoin_map. eauto.
Qed.
Lemma checkJSONConfig_ok sig ext app :
  checkJSONConfig sig ext app = Ok () ↔
  fg_Namespaces sig = [] ∧ (∀ e, ext = Some e → em_Namespaces e = []) ∧ ∀ x, x ∈ config_xpaths sig ext app → clean x.
Proof.
  assert (∀ (l : list (string * string)) msg, (if (0 <? length l)%nat then errorf msg [] else Ok ()) = Ok () ↔ l = []) as Hns.
  { intros [|? ?] msg; done. }
  unfold checkJSONConfig, config_xpaths. rewrite !bind_unit_ok, Hns, check_all_ok.
  setoid_rewrite checkJSONXPath_ok. setoid_rewrite elem_of_app. setoid_rewrite elem_of_app. setoid_rewrite list_elem_of_fmap.
  assert (∀ P : Prop, (match app with
     | Some a => if is_xpath_type a then checkJSONXPath "applicability expression" (ap_Expression a) else Ok ()
     | None => Ok () end = Ok ()) ↔ ∀ x, x ∈ match app with Some a => if is_xpath_type a then [ap_Expression a] else [] | None => [] end → clean x) as Happ.
  { intros _. destruct app as [a|]; [destruct (is_xpath_type a)|]; rewrite ?checkJSONXPath_ok; set_solver. }
  rewrite (Happ True). clear Happ. destruct ext as [e|].
  2: { set_solver. }
  rewrite !bind_unit_ok, Hns, check_all_ok. unfold checkJSONMappings. rewrite check_all_ok.
  setoid_rewrite checkJSONXPath_ok. rewrite (imap_pair_elem (em_MatchSelectors e) (λ s, clean (ms_XPath s))).
  setoid_rewrite checkJSONMapping_ok. setoid_rewrite elem_of_app. setoid_rewrite list_elem_of_fmap.
  setoid_rewrite (elem_of_mjoin_map mapping_xpaths). naive_solver.
Qed.
End json.

(** ** The resolved format *)
Section format.
Context `{UC : UnicodeCase, EN : Engine}.

Lemma NormalizeInputFormat_cases token f : NormalizeInputFormat token = Ok f →
  f ∈ [FormatXML; FormatJSON; FormatNDJSON] ∧ NormalizeInputFormat f = Ok f ∧ (trim_space f =s? "") = false ∧ registered f = true.
Proof.
  unfold NormalizeInputFormat at 1. repeat case_match; try done; intros [= <-]; (split; [set_solver|]); (split; [reflexivity|done]).
Qed.

(** A resolved input format is one of the three known, is the recipe's where
    a recipe decides, is what the signature records and every later step reads,
    and resolving again changes nothing. Under json and ndjson no expression of
    the configuration has an attribute step outside a string literal; ndjson
    implies a record-scoped signature and no applicability predicate; a
    record-scoped signature implies json or ndjson and one streamable selector. *)
Theorem ResolveInputFormat_spec recipe mode sig ext app f sig' :
  ResolveInputFormat recipe mode sig ext app = Ok (f, sig') →
  f ∈ [FormatXML; FormatJSON; FormatNDJSON] ∧ (mode = true → NormalizeInputFormat recipe = Ok f) ∧
  sig' = with_format sig f ∧ inputFormat (Some sig') = Ok f ∧
  ResolveInputFormat recipe mode sig' ext app = Ok (f, sig') ∧
  (f ≠ FormatXML → ∀ x, x ∈ config_xpaths sig ext app → at_positions None 0 x = []) ∧
  (f = FormatNDJSON → to_lower (trim_space (fg_MatchScope sig)) = "record" ∧ app = None) ∧
  (to_lower (trim_space (fg_MatchScope sig)) = "record" → f ≠ FormatXML ∧
     ∀ e, ext = Some e → ∃ s r, em_MatchSelectors e = [s] ∧ ParseRecordSelector (ms_XPath s) = Ok r).
Proof.
  unfold ResolveInputFormat. intros H. apply res_bind_ok in H as (sf & Hsf & H). apply wrapf_ok in Hsf.
  apply res_bind_ok in H as (eff & Heff & H). apply res_bind_ok in H as ([] & Hj & H).
  apply res_bind_ok in H as ([] & Hs & [= -> <-]).
  assert (f = sf ∧ (mode = true → NormalizeInputFormat recipe = Ok f)) as [-> Hrec].
  { destruct mode; [|injection Heff as ->; done]. apply res_bind_ok in Heff as (e & He & Heff). apply wrapf_ok in He.
    destruct (eqs_spec e sf) as [->|]; [injection Heff as <-; done|by case_match]. }
  pose proof (NormalizeInputFormat_cases _ _ Hsf) as (Hin & Hnorm & Hne & Hreg).
  assert (inputFormat (Some (with_format sig sf)) = Ok sf) as Hinput.
  { unfold inputFormat. cbn [with_format fg_FormatType]. rewrite Hne, Hnorm. cbn [mbind res_bind]. by rewrite Hreg. }
  split_and!; [done|done|done|done| | | |].
  - cbn [with_format fg_FormatType]. rewrite Hnorm. cbn [wrapf map_err mbind res_bind].
    assert ((if mode then eff ← wrapf "recipe defaults.input.format: %w" [] (NormalizeInputFormat recipe);
             if eff =s? sf then Ok eff else if trim_space sf =s? "" then
               errorf "recipe defaults.input.format is %q but signature format_type defaults to xml" [AStr eff]
             else errorf "recipe defaults.input.format %q does not match signature format_type %q" [AStr eff; AStr sf]
             else Ok sf) = Ok sf) as ->.
    { destruct mode; [|done]. rewrite Hrec by done. cbn. by rewrite String.eqb_refl. }
    cbn [mbind res_bind]. change (checkJSONConfig (with_format sig sf) ext app) with (checkJSONConfig sig ext app).
    change (checkMatchScope sf (with_format sig sf) ext app) with (checkMatchScope sf sig ext app). by rewrite Hj, Hs.
  - intros Hf x Hx. rewrite !elem_of_cons, elem_of_nil in Hin. assert ((sf =s? FormatJSON) || (sf =s? FormatNDJSON) = true) as E.
    { destruct Hin as [->|[->|[->|[]]]]; done. }
    rewrite E in Hj. apply checkJSONConfig_ok in Hj as (_ & _ & Hall). apply Hall in Hx. unfold clean in Hx.
    destruct (xpathAxisViolations_at x) as [<- _]. by rewrite Hx.
  - intros ->. unfold checkMatchScope in Hs. destruct (negb (existsb _ _)); [done|]. change (FormatNDJSON =s? FormatNDJSON) with true in Hs.
    cbn [andb] in Hs. destruct (eqs_spec (to_lower (trim_space (fg_MatchScope sig))) "record") as [E|]; [|done].
    split; [done|]. destruct app; [done|done].
  - intros Hscope. unfold checkMatchScope in Hs. rewrite Hscope in Hs. cbn in Hs. split.
    + intros ->. done.
    + intros e ->. destruct (sf =s? FormatNDJSON) eqn:E1; cbn [andb] in Hs; destruct (sf =s? FormatXML) eqn:E2; try done;
        repeat case_match; try done; apply wrapf_ok in Hs; unfold ValidateRecordSelector in Hs; inv_res; eauto.
Qed.
End format.

(** ** Preparation is stable *)
Section stable.
Context `{UC : UnicodeCase, EN : Engine}.
Context (json_copy : vmap → result vmap).
Notation prepare := (prepareExtractConfig json_copy).

Lemma compile_if_again msg args ns x c c' : compile_if msg args ns x c = Ok c' → compile_if msg args ns x c' = Ok c'.
Proof. unfold compile_if. repeat (case_match; try done); intros H'; inv_res; subst; done. Qed.

Section lists.
Context {A : Type} (f g : A → A) (h : A → result A) (l l' : list A).
Lemma mapR_same : (∀ a a', a ∈ l → h a = Ok a' → g a' = g a) → mapR h l = Ok l' → map g l' = map g l.
Proof.
  intros Hg H%mapR_ok. revert Hg. induction H as [|a a' l l' Ha _ IH]; intros Hg; [done|]. simpl. f_equal.
  - apply Hg; [left|done]. - apply IH. intros x x' Hx. apply Hg. by right.
Qed.
Lemma mapR_again : (∀ a a', a ∈ l → h a = Ok a' → h a' = Ok a') → mapR h l = Ok l' → mapR h l' = Ok l'.
Proof.
  intros Hh H%mapR_ok. revert Hh. induction H as [|a a' l l' Ha _ IH]; intros Hh; [done|]. simpl.
  rewrite (Hh a a') by (done || left). simpl. rewrite IH; [done|]. intros x x' Hx. apply Hh. by right.
Qed.
End lists.

Lemma compileFieldMapping_spec ns m : ∀ m', compileFieldMapping ns m = Ok m' →
  cloneFieldMapping m' = cloneFieldMapping m ∧ compileFieldMapping ns m' = Ok m'.
Proof.
  induction m as [m IHi IHp] using mapping_ind. intros m' H. destruct m as [out xp ex ty tr tp int items poly comp].
  cbn [compileFieldMapping fm_ItemMapping fm_Polymorphic fm_XPath fm_OutputField fm_CompiledXPath] in *.
  apply res_bind_ok in H as (c & Hc & H). apply res_bind_ok in H as (items' & Hi & H). apply res_bind_ok in H as (poly' & Hp & [= <-]).
  cbn [cloneFieldMapping compileFieldMapping fm_ItemMapping fm_Polymorphic fm_XPath fm_OutputField fm_CompiledXPath
       fm_Expression fm_Type fm_Transform fm_TransformParams fm_Internal].
  assert (map cloneFieldMapping items' = map cloneFieldMapping items) as Hci.
  { eapply mapR_same; [|exact Hi]. intros a a' Ha Haa. by apply (IHi a Ha a'). }
  assert (mapR (compileFieldMapping ns) items' = Ok items') as Hci'.
  { eapply mapR_again; [|exact Hi]. intros a a' Ha Haa. by apply (IHi a Ha a'). }
  assert (∀ pm pm', pm ∈ poly → compile_branch (compileFieldMapping ns) ns pm = Ok pm' →
    clonePolymorphicMapping cloneFieldMapping pm' = clonePolymorphicMapping cloneFieldMapping pm ∧
    compile_branch (compileFieldMapping ns) ns pm' = Ok pm') as Hpm.
  { intros pm pm' Hin H. unfold compile_branch in H. apply res_bind_ok in H as (pc & Hpc & H).
    apply res_bind_ok in H as (fms & Hf & [= <-]). unfold clonePolymorphicMapping, compile_branch.
    cbn [pm_ElementType pm_MatchXPath pm_ItemType pm_FieldMappings pm_CompiledMatchXPath]. split.
    - f_equal. eapply mapR_same; [|exact Hf]. intros a a' Ha Haa. by apply (IHp pm a Hin Ha a').
    - rewrite (compile_if_again _ _ _ _ _ _ Hpc). cbn [mbind res_bind].
      assert (mapR (compileFieldMapping ns) fms = Ok fms) as ->; [|done].
      eapply mapR_again; [|exact Hf]. intros a a' Ha Haa. by apply (IHp pm a Hin Ha a'). }
  split.
  - f_equal; [done|]. eapply mapR_same; [|exact Hp]. intros a a' Ha Haa. by apply (Hpm a a' Ha).
  - rewrite (compile_if_again _ _ _ _ _ _ Hc). cbn [mbind res_bind]. rewrite Hci'. cbn [mbind res_bind].
    assert (mapR (compile_branch (compileFieldMapping ns) ns) poly' = Ok poly') as ->; [|done].
    eapply mapR_again; [|exact Hp]. intros a a' Ha Haa. by apply (Hpm a a' Ha).
Qed.

(** Selectors, likewise. *)
Lemma compile_selector_spec ns s s' : compile_selector ns s = Ok s' →
  cloneMatchSelector s' = cloneMatchSelector s ∧ compile_selector ns s' = Ok s'.
Proof.
  unfold compile_selector. intros (c & Hc & [= <-])%res_bind_ok. split; [done|].
  cbn [ms_XPath ms_CompiledXPath ms_MinOccurrences]. by rewrite (compile_if_again _ _ _ _ _ _ Hc).
Qed.

(** The checks on derive-only mappings do not look at compiled expressions. *)
Lemma check_all_map {A} (f : A → result unit) (g : A → A) l :
  (∀ a, a ∈ l → f (g a) = f a) → check_all f (map g l) = check_all f l.
Proof.
  unfold check_all. intros Hf. induction l as [|a l IH]; [done|]. simpl. rewrite Hf by left.
  destruct (f a) as [[]|]; simpl; [|done]. apply IH. intros x Hx. apply Hf. by right.
Qed.
Lemma rejectNestedInternal_clone m : ∀ top, rejectNestedInternal top (cloneFieldMapping m) = rejectNestedInternal top m.
Proof.
  induction m as [m IHi IHp] using mapping_ind. intros top. destruct m as [out xp ex ty tr tp int items poly comp].
  cbn [cloneFieldMapping rejectNestedInternal fm_Internal fm_OutputField fm_ItemMapping fm_Polymorphic].
  rewrite (check_all_map _ _ items) by (intros a Ha; by apply (IHi a)). rewrite check_all_map; [done|].
  intros pm Hpm. cbn [clonePolymorphicMapping pm_FieldMappings]. apply check_all_map. intros a Ha. by apply (IHp pm a).
Qed.
Lemma cloneFieldMapping_eq m : cloneFieldMapping m = mkFieldMapping (fm_OutputField m) (fm_XPath m) (fm_Expression m) (fm_Type m)
  (fm_Transform m) (fm_TransformParams m) (fm_Internal m) (map cloneFieldMapping (fm_ItemMapping m))
  (map (clonePolymorphicMapping cloneFieldMapping) (fm_Polymorphic m)) None.
Proof. by destruct m. Qed.
Lemma validate_internal_clone i m : validate_internal (i, cloneFieldMapping m) = validate_internal (i, m).
Proof.
  unfold validate_internal. cbn [fst snd]. rewrite rejectNestedInternal_clone, cloneFieldMapping_eq.
  cbn [fm_Internal fm_OutputField fm_Type fm_ItemMapping fm_Polymorphic]. rewrite !length_map. done.
Qed.
Lemma duplicate_output_clone seen ms : duplicate_output seen (map cloneFieldMapping ms) = duplicate_output seen ms.
Proof.
  revert seen. induction ms as [|m ms IH]; intros seen; [done|]. cbn [map duplicate_output]. rewrite cloneFieldMapping_eq.
  cbn [fm_OutputField]. by rewrite !IH.
Qed.
Lemma internal_names_clone ms : InternalFieldMappingNames (map cloneFieldMapping ms) = InternalFieldMappingNames ms.
Proof.
  unfold InternalFieldMappingNames. f_equal. induction ms as [|m ms IH]; [done|]. cbn [map]. rewrite !filter_cons.
  rewrite cloneFieldMapping_eq. cbn [fm_Internal]. destruct (decide (fm_Internal m = true)); [|done]. cbn [fmap list_fmap].
  by rewrite IH.
Qed.
Lemma existsb_internal_clone ms : existsb fm_Internal (map cloneFieldMapping ms) = existsb fm_Internal ms.
Proof. induction ms as [|m ms IH]; [done|]. cbn [map existsb]. rewrite IH. by rewrite cloneFieldMapping_eq. Qed.
Lemma validateInternal_clone cfg ss ms u v :
  map cloneFieldMapping ms = map cloneFieldMapping (em_FieldMappings cfg) →
  validateInternalFieldMappings (rebuild cfg ss ms u v) = validateInternalFieldMappings cfg.
Proof.
  intros Hms. unfold validateInternalFieldMappings, rebuild. cbn [em_FieldMappings em_OutputSchema em_Filters].
  rewrite <- (existsb_internal_clone ms), <- (duplicate_output_clone [] ms), <- (internal_names_clone ms), Hms,
    existsb_internal_clone, duplicate_output_clone, internal_names_clone.
  assert (∀ l l', map cloneFieldMapping l = map cloneFieldMapping l' →
    check_all validate_internal (imap pair l) = check_all validate_internal (imap pair l')) as H.
  { assert (∀ l, imap pair (map cloneFieldMapping l) = map (λ im, (im.1, cloneFieldMapping im.2)) (imap pair l)) as Hmap.
    { intros l. change (imap pair (cloneFieldMapping <$> l) = (λ im, (im.1, cloneFieldMapping im.2)) <$> imap pair l).
      by rewrite imap_fmap, fmap_imap. }
    assert (∀ l, check_all validate_internal (imap pair (map cloneFieldMapping l)) = check_all validate_internal (imap pair l)) as Hc.
    { intros l. rewrite Hmap. apply check_all_map. intros [i m] _. apply validate_internal_clone. }
    intros l l' Hl. by rewrite <- Hc, Hl, Hc. }
  by rewrite (H _ _ Hms).
Qed.

Lemma output_validator_again cfg ss ms v :
  output_validator json_copy cfg = Ok v → output_validator json_copy (rebuild cfg ss ms (em_UniformSchema cfg) v) = Ok v.
Proof.
  unfold output_validator, rebuild. cbn [em_OutputSchema em_OutputValidator em_UniformSchema].
  destruct (em_OutputSchema cfg); [done|]. destruct (em_OutputValidator cfg); [by intros [= <-]|].
  by intros (x & _ & [= <-])%res_bind_ok.
Qed.

(** A prepared configuration is a fixed point of preparation, and a copy of
    it, as every worker and the streaming route take one, prepares to the same
    configuration when the original carried no compiled state. *)
Theorem prepare_stable cfg c :
  prepare cfg = Ok c →
  prepare c = Ok c ∧ CloneRecordMatch c = CloneRecordMatch cfg ∧
  (CloneRecordMatch cfg = cfg → prepare (CloneRecordMatch c) = Ok c).
Proof.
  intros H. pose proof H as Hprep. unfold prepareExtractConfig in H.
  apply res_bind_ok in H as ([] & Hns & H). apply res_bind_ok in H as (v & Hv & H). apply res_bind_ok in H as ([] & Hint & H).
  apply res_bind_ok in H as (ss & Hss & H). apply res_bind_ok in H as (ms & Hms & [= <-]).
  assert (map cloneMatchSelector ss = map cloneMatchSelector (em_MatchSelectors cfg)) as Hcs.
  { eapply mapR_same; [|exact Hss]. intros a a' _ Ha. by apply (compile_selector_spec _ _ _ Ha). }
  assert (map cloneFieldMapping ms = map cloneFieldMapping (em_FieldMappings cfg)) as Hcm.
  { eapply mapR_same; [|exact Hms]. intros a a' _ Ha. by apply (compileFieldMapping_spec _ _ _ Ha). }
  assert (CloneRecordMatch (rebuild cfg ss ms (em_UniformSchema cfg) v) = CloneRecordMatch cfg) as Hclone.
  { unfold CloneRecordMatch, rebuild. cbn. by rewrite Hcs, Hcm. }
  split_and!; [|done|].
  - unfold prepareExtractConfig. rewrite validateInternal_clone by done. change (em_Namespaces (rebuild _ _ _ _ _)) with (em_Namespaces cfg). rewrite Hns. cbn [mbind res_bind].
    rewrite (output_validator_again _ _ _ _ Hv).
    cbn [mbind res_bind]. rewrite Hint. cbn [mbind res_bind rebuild em_MatchSelectors em_FieldMappings em_UniformSchema].
    rewrite (mapR_again (compile_selector (em_Namespaces cfg)) (em_MatchSelectors cfg) ss);
      [|intros a a' _ Ha; by apply (compile_selector_spec _ _ _ Ha)|done]. cbn [mbind res_bind].
    rewrite (mapR_again (compileFieldMapping (em_Namespaces cfg)) (em_FieldMappings cfg) ms);
      [|intros a a' _ Ha; by apply (compileFieldMapping_spec _ _ _ Ha)|done]. done.
  - intros Hfresh. by rewrite Hclone, Hfresh.
Qed.
End stable.

(** ** Derive-only names *)
Section internal.
Context `{UC : UnicodeCase, EN : Engine}.
Implicit Types (cfg : ExtractRecordMatch) (ext : fields) (name : string).

Lemma elem_of_internal_names name ms : name ∈ InternalFieldMappingNames ms ↔
  name ≠ "" ∧ ∃ m, m ∈ ms ∧ fm_Internal m = true ∧ name = trim_space (fm_OutputField m).
Proof.
  unfold InternalFieldMappingNames. rewrite list_elem_of_filter, list_elem_of_fmap. setoid_rewrite list_elem_of_filter. naive_solver.
Qed.
Lemma existsb_eqb (l : list string) name : existsb (String.eqb name) l = true ↔ name ∈ l.
Proof.
  rewrite existsb_exists. split.
  - intros (x & Hx & ->%String.eqb_eq). by apply list_elem_of_In.
  - intros Hx. exists name. split; [by apply list_elem_of_In|apply String.eqb_refl].
Qed.
Lemma reject_names_ok msg internal names :
  reject_names msg internal names = Ok () ↔ ∀ n, n ∈ names → trim_space n ∉ internal.
Proof.
  unfold reject_names. rewrite check_all_ok. split; intros H n Hn; specialize (H n Hn).
  - intros Hin. apply existsb_eqb in Hin. by rewrite Hin in H.
  - destruct (existsb _ _) eqn:E; [|done]. by apply existsb_eqb in E.
Qed.
Lemma duplicate_output_ok ms : ∀ seen, duplicate_output seen ms = Ok () →
  (∀ m, m ∈ ms → trim_space (fm_OutputField m) ≠ "" → trim_space (fm_OutputField m) ∉ seen) ∧
  ∀ m m', m ∈ ms → m' ∈ ms → trim_space (fm_OutputField m) ≠ "" →
    trim_space (fm_OutputField m) = trim_space (fm_OutputField m') → m = m'.
Proof.
  induction ms as [|m ms IH]; intros seen; cbn [duplicate_output].
  { intros _. split; [by intros m ?%elem_of_nil|by intros m m' ?%elem_of_nil]. }
  destruct (eqs_spec (trim_space (fm_OutputField m)) "") as [Hb|Hb].
  - intros [H1 H2]%IH. setoid_rewrite elem_of_cons. split; [naive_solver|]. intros x y [->|Hx] [->|Hy] Hne Heq; naive_solver congruence.
  - destruct (existsb _ seen) eqn:E; [done|]. intros [H1 H2]%IH.
    assert (trim_space (fm_OutputField m) ∉ seen) as Hm by (intros Hin%existsb_eqb; congruence).
    setoid_rewrite elem_of_cons. split.
    + intros x [->|Hx] Hne; [done|]. specialize (H1 x Hx Hne). set_solver.
    + intros x y [->|Hx] [->|Hy] Hne Heq; [done| | |by apply H2].
      * destruct (H1 y Hy); [congruence|]. rewrite <- Heq. left.
      * destruct (H1 x Hx Hne). rewrite Heq. left.
Qed.
Lemma rejectExternal_ok ms ext : rejectExternalCollisionsWithInternalMappings ms ext = Ok () →
  ∀ name, name ∈ InternalFieldMappingNames ms → mget name ext = None.
Proof.
  intros H name (Hne & m & Hm & Hi & ->)%elem_of_internal_names. revert H. induction ms as [|x ms IH]; [by apply elem_of_nil in Hm|].
  cbn [rejectExternalCollisionsWithInternalMappings]. destruct (_ && _) eqn:E; [done|].
  apply elem_of_cons in Hm as [->|Hm]; [|by apply IH]. intros _. rewrite Hi in E.
  destruct (eqs_spec (trim_space (fm_OutputField x)) ""); [done|]. cbn [negb andb] in E.
  apply bool_decide_eq_false in E. by apply eq_None_not_Some.
Qed.
Lemma applyUniformSchema_keys (record : vmap) cfg k : k ∈ mkeys (applyUniformSchema record cfg) →
  k ∈ mkeys record ∨ k ∈ mkeys (default [] (schema_properties (em_OutputSchema cfg))).
Proof.
  unfold applyUniformSchema. destruct (negb _); [auto|]. destruct (schema_properties _) as [ps|]; [|auto]. cbn [default from_option id].
  induction ps as [|p ps IH] using rev_ind; [auto|]. rewrite foldl_app. cbn. unfold mkeys in *. rewrite fmap_app, elem_of_app.
  destruct (mget p.1 _).
  - intros [?|?]%IH; auto.
  - intros [->|[?|?]%IH]%elem_of_mkeys_mset; auto. right. right. left.
Qed.

Lemma number_from_elem rs n r : r ∈ number_from n rs → Some (er_data r) ∈ rs.
Proof.
  revert n. induction rs as [|[x|] rs IH]; intros n; cbn [number_from]; rewrite ?elem_of_nil, ?elem_of_cons; [done| |].
  - intros [->|Hr]; [by left|right; by eapply IH].
  - intros Hr. right. by eapply IH.
Qed.

(** C25: whatever the document holds and whatever is injected, a record extracted
    by a checked configuration has no key that is a derive-only mapping's name. *)
Theorem internal_never_emitted cfg doc ext records counts r name :
  validateInternalFieldMappings cfg = Ok () → NoDup (mkeys ext) →
  extractRecordsWithCountsAndRecordNums doc cfg ext = Ok (records, counts) → r ∈ records →
  name ∈ InternalFieldMappingNames (em_FieldMappings cfg) → name ∉ mkeys (er_data r).
Proof.
  intros Hval Hext Hrec Hr Hname Hin. apply extractRecords_ok in Hrec as [Hcol (nodess & rs & _ & Hrs & -> & _)].
  pose proof (rejectExternal_ok _ _ Hcol _ Hname) as Hfree.
  apply number_from_elem in Hr. destruct (mapR_elem _ _ _ _ Hrs Hr) as (node & _ & Hnode).
  unfold extract_node in Hnode. apply res_bind_ok in Hnode as (record & Hbuild & Hnode).
  assert (er_data r = applyUniformSchema record cfg) as Hdata.
  { destruct (passesFilters _ _); [|done]. by apply res_bind_ok in Hnode as (_ & _ & [= <-]). }
  pose proof Hname as (Hne & m & Hm & Hi & Hmn)%elem_of_internal_names.
  unfold validateInternalFieldMappings in Hval. apply bind_unit_ok in Hval as [_ Hval].
  assert (existsb fm_Internal (em_FieldMappings cfg) = true) as Hex.
  { apply existsb_exists. exists m. split; [by apply list_elem_of_In|done]. }
  rewrite Hex in Hval. cbn [negb] in Hval. apply bind_unit_ok in Hval as [Hdup Hval].
  apply bind_unit_ok in Hval as [Hschema _]. apply bind_unit_ok in Hschema as [Hprops _].
  rewrite reject_names_ok in Hprops. rewrite Hdata in Hin. apply applyUniformSchema_keys in Hin as [Hin|Hin].
  - apply buildProjectedRecord_ok in Hbuild as (Hnd & Hfrom & _); [|done].
    apply list_elem_of_fmap in Hin as ([k v] & -> & Hin). cbn in *. apply Hfrom in Hin as [?|(m' & Hm' & Hout & Hi' & _)]; [congruence|].
    apply duplicate_output_ok in Hdup as [_ Hdup]. assert (m = m') as ->; [|congruence].
    apply Hdup; [done|done|congruence|]. by rewrite Hout, <- Hmn, Hmn, trim_space_twice.
  - apply Hprops in Hin. apply Hin. by rewrite Hmn, trim_space_twice, <- Hmn.
Qed.
End internal.
