(* ===== verification/ExtractFile.v ===== *)
(** * Extraction of a file (internal/extract/extractor.go, format.go)

    From an input to an [ExtractResult] and the events its record sink sees: the
    signature and applicability gates, the whole-document route with and without
    a sink, the streaming route, and the choice between them. A sink is a
    function that answers each call from the calls before it; the log of calls
    is threaded through. Logging is left out. *)
From Stdlib Require Import Ascii ZArith Lia SpecFloat.
From stdpp Require Import base list strings.
From S2P Require Import Prelude GoStrings GoFloat GoStrconv GoValue DslTypes GoJson JsonScan Extract ExtractPrepare.

(** ** Outcomes (types.go, sink.go) *)
Inductive SignatureMatchStatus := SignatureMatchUnknown | SignatureMatchMatched | SignatureMatchMismatched.
Inductive Disposition := DispositionNone | DispositionApplied | DispositionNotApplicable | DispositionFailed.
Inductive DispositionReason :=
| NoReason
| ApplicabilityPredicateFalse
| SignatureMismatch
| MinOccurrencesViolation
| ParseErrorReason
| ValidationErrorReason
| InternalErrorReason
| RouteUnsupported
| InputUnavailable.
(** A detail is a fixed text or the text of an error. *)
Inductive detail := NoDetail | DetailText (s : string) | DetailError (e : gerror).

Record ExtractResult := {
  res_File : string;
  res_LogicalURI : string;
  res_Records : list Envelope;
  res_Error : option gerror;
  res_PerSelectorCounts : option (list nat);
  res_PerSelectorCountsComplete : bool;
  res_SignatureMatchStatus : SignatureMatchStatus;
  res_SignatureConfidence : f64;
  res_Disposition : Disposition;
  res_DispositionReason : DispositionReason;
  res_DispositionDetail : detail;
}.
Record FileEmissionSummary := {
  fe_SourceFile : string;
  fe_RecordType : string;
  fe_RecordCount : nat;
  fe_Disposition : Disposition;
  fe_DispositionReason : DispositionReason;
  fe_DispositionDetail : detail;
}.
Inductive event := OnRecord (e : Envelope) | OnFileBoundary (s : FileEmissionSummary).
(** The answer to a call, given the calls before it. *)
Definition RecordSink : Type := list event → event → option gerror.

(** ** Signatures and applicability *)
Section gates.
Context `{UC : UnicodeCase, EN : Engine}.

(** XPath's boolean conversion; [None] for a result of another type. *)
Definition xpath_boolean {P} (v : xvalue P) : option bool :=
  match v with
  | XBool b => Some b
  | XNum f => Some (negb (feqb f fzero) && negb (is_nan f))
  | XStr s => Some (negb (s =s? ""))
  | XNodes l => Some (0 <? length l)%nat
  | XNil | XOther _ => None
  end.
Definition evaluateCompiledXPathBoolean (node : dnode) (x : xexpr) : bool :=
  default false (xpath_boolean (xpath_Evaluate x node)).
Definition evaluateXPathBoolean (node : dnode) (selector : string) : result bool :=
  let selector := trim_space selector in
  if selector =s? "" then errorf "empty XPath expression" []
  else
    x ← wrapf "compile XPath %q: %w" [AStr selector] (xpath_Compile selector);
    match xpath_boolean (xpath_Evaluate x node) with
    | Some b => Ok b
    | None => errorf "unsupported XPath result type %T" []
    end.
Definition evaluateApplicability (node : dnode) (app : ApplicabilityConfig) : result bool :=
  if negb (to_lower (trim_space (ap_Type app)) =s? "xpath") then
    errorf "unsupported applicability.type %q" [AStr (ap_Type app)]
  else evaluateXPathBoolean node (ap_Expression app).

Definition matchesPattern (node : dnode) (p : MatchPattern) (ns : list (string * string)) : bool :=
  let selector := trim_space (mp_Selector p) in
  if selector =s? "" then false
  else match compileXPath selector ns with
       | Ok x => evaluateCompiledXPathBoolean node x
       | Err _ => false
       end.
(** Score and total weight. *)
Definition score_patterns (node : dnode) (sig : FileSignature) : f64 * f64 :=
  foldl (λ st p,
    (if matchesPattern node p (fg_Namespaces sig) then fadd st.1 (mp_Weight p) else st.1, fadd st.2 (mp_Weight p)))
    (fzero, fzero) (fg_MatchPatterns sig).
Definition matchesSignature (node : dnode) (sig : FileSignature) : result (bool * f64) :=
  let '(score, total) := score_patterns node sig in
  if feqb total fzero then errorf "no patterns with weight > 0" []
  else
    let confidence := fdiv score total in
    Ok (fleb (fg_ConfidenceThreshold sig) confidence, confidence).
Definition recordSignatureMismatch (num : nat) (confidence threshold : f64) : gerror :=
  Errorf "signature mismatch: record %d scored confidence=%.3f below threshold=%.3f; with match_scope: record the signature is evaluated per record"
    [AInt (Z.of_nat num); AFloat confidence; AFloat threshold].

(** [RecordDocument] of a format that has it (json and ndjson). *)
Context (RecordDocument : dnode → result Document).
Fixpoint score_records (sig : FileSignature) (i : nat) (minConfidence : f64) (nodes : list dnode)
    : SignatureMatchStatus * f64 * option gerror :=
  match nodes with
  | [] => (SignatureMatchMatched, minConfidence, None)
  | n :: nodes =>
      match RecordDocument n with
      | Err e => (SignatureMatchUnknown, fzero, Some e)
      | Ok doc =>
          match matchesSignature (doc_Root doc) sig with
          | Err e => (SignatureMatchUnknown, fzero, Some (Errorf "failed to check signature: %w" [AErr e]))
          | Ok (matches, confidence) =>
              let minConfidence := if (i =? 0)%nat || fltb confidence minConfidence then confidence else minConfidence in
              if matches then score_records sig (S i) minConfidence nodes
              else (SignatureMatchMismatched, minConfidence,
                    Some (recordSignatureMismatch (S i) confidence (fg_ConfidenceThreshold sig)))
          end
      end
  end.
Definition matchesSignaturePerRecord (doc : Document) (sig : FileSignature) (cfg : ExtractRecordMatch)
    : SignatureMatchStatus * f64 * option gerror :=
  match em_MatchSelectors cfg with
  | [s] =>
      if (doc_Format doc =s? FormatXML) then
        (SignatureMatchUnknown, fzero,
         Some (Errorf "signature match_scope: record is not supported for %s input" [AStr (doc_Format doc)]))
      else match evaluateNodeSet (doc_Root doc) None (ms_XPath s) with
           | Err e => (SignatureMatchUnknown, fzero, Some (Errorf "failed to evaluate XPath %s: %w" [AStr (ms_XPath s); AErr e]))
           | Ok [] => (SignatureMatchUnknown, fzero, None)
           | Ok nodes => score_records sig 0 fzero nodes
           end
  | _ => (SignatureMatchUnknown, fzero,
          Some (Errorf "signature match_scope: record needs exactly one extract match selector" []))
  end.
End gates.

(** ** The whole-document route *)
Section document.
Context `{UC : UnicodeCase, EN : Engine}.
Context (RecordDocument : dnode → result Document).
Context (json_copy : vmap → result vmap).
(** Whether an error's text mentions a path. *)
Context (mentions : gerror → string → bool).
(** The clock, and [ctx.Err()] when that many nodes have been visited. *)
Context (now : Z) (ctx_err : nat → option gerror).

(** provenance/types.go: an error whose text mentions the local path is replaced
    by one that keeps it as its cause and shows the label instead; errors are
    trees here, so the new one is the label over its cause. *)
Definition DiagnosticError (o : RuntimeOptions) (e : gerror) (path : string) : gerror :=
  if (ro_DiagnosticLabel o =s? "") || (path =s? "") || negb (mentions e path) then e
  else Errorf "%s" [AStr (ro_DiagnosticLabel o); AErr e].

(** The configuration of one run on one file. *)
Record file_run := {
  fr_path : string;
  fr_sig : FileSignature;
  fr_cfg : ExtractRecordMatch;
  fr_app : option ApplicabilityConfig;
  fr_ext : fields;
  fr_opts : RuntimeOptions;
  fr_sink : option RecordSink;
}.
Definition sig_names (sig : FileSignature) : option signature_names :=
  Some {| sn_SignatureID := fg_SignatureID sig; sn_Name := fg_Name sig |}.
Definition boundary_file (r : file_run) : string :=
  if ro_DiagnosticLabel (fr_opts r) =s? "" then SourceIdentity (fr_opts r) (fr_path r)
  else DiagnosticIdentity (fr_opts r) (fr_path r).

Record boundaryTracker := {
  bt_result : ExtractResult;
  bt_emittedRecords : nat;
  bt_disposition : Disposition;
  bt_reason : DispositionReason;
  bt_detail : detail;
}.
Definition newBoundaryTracker (r : file_run) : boundaryTracker := {|
  bt_result := {| res_File := fr_path r; res_LogicalURI := SourceIdentity (fr_opts r) (fr_path r);
    res_Records := []; res_Error := None; res_PerSelectorCounts := None; res_PerSelectorCountsComplete := false;
    res_SignatureMatchStatus := SignatureMatchUnknown; res_SignatureConfidence := fzero;
    res_Disposition := DispositionNone; res_DispositionReason := NoReason; res_DispositionDetail := NoDetail |};
  bt_emittedRecords := 0; bt_disposition := DispositionApplied; bt_reason := NoReason; bt_detail := NoDetail |}.

Definition with_result (t : boundaryTracker) (res : ExtractResult) : boundaryTracker := {|
  bt_result := res; bt_emittedRecords := bt_emittedRecords t; bt_disposition := bt_disposition t;
  bt_reason := bt_reason t; bt_detail := bt_detail t |}.
Definition with_emitted (t : boundaryTracker) (n : nat) : boundaryTracker := {|
  bt_result := bt_result t; bt_emittedRecords := n; bt_disposition := bt_disposition t;
  bt_reason := bt_reason t; bt_detail := bt_detail t |}.
Definition set_disposition (res : ExtractResult) (d : Disposition) (reason : DispositionReason) (dt : detail)
    : ExtractResult := {|
  res_File := res_File res; res_LogicalURI := res_LogicalURI res; res_Records := res_Records res;
  res_Error := res_Error res; res_PerSelectorCounts := res_PerSelectorCounts res;
  res_PerSelectorCountsComplete := res_PerSelectorCountsComplete res;
  res_SignatureMatchStatus := res_SignatureMatchStatus res; res_SignatureConfidence := res_SignatureConfidence res;
  res_Disposition := d; res_DispositionReason := reason; res_DispositionDetail := dt |}.
Definition set_error (res : ExtractResult) (e : gerror) : ExtractResult := {|
  res_File := res_File res; res_LogicalURI := res_LogicalURI res; res_Records := res_Records res;
  res_Error := Some e; res_PerSelectorCounts := res_PerSelectorCounts res;
  res_PerSelectorCountsComplete := res_PerSelectorCountsComplete res;
  res_SignatureMatchStatus := res_SignatureMatchStatus res; res_SignatureConfidence := res_SignatureConfidence res;
  res_Disposition := res_Disposition res; res_DispositionReason := res_DispositionReason res;
  res_DispositionDetail := res_DispositionDetail res |}.
Definition set_signature (res : ExtractResult) (status : SignatureMatchStatus) (confidence : f64) : ExtractResult := {|
  res_File := res_File res; res_LogicalURI := res_LogicalURI res; res_Records := res_Records res;
  res_Error := res_Error res; res_PerSelectorCounts := res_PerSelectorCounts res;
  res_PerSelectorCountsComplete := res_PerSelectorCountsComplete res;
  res_SignatureMatchStatus := status; res_SignatureConfidence := confidence;
  res_Disposition := res_Disposition res; res_DispositionReason := res_DispositionReason res;
  res_DispositionDetail := res_DispositionDetail res |}.
Definition set_counts (res : ExtractResult) (counts : list nat) (complete : bool) : ExtractResult := {|
  res_File := res_File res; res_LogicalURI := res_LogicalURI res; res_Records := res_Records res;
  res_Error := res_Error res; res_PerSelectorCounts := Some counts; res_PerSelectorCountsComplete := complete;
  res_SignatureMatchStatus := res_SignatureMatchStatus res; res_SignatureConfidence := res_SignatureConfidence res;
  res_Disposition := res_Disposition res; res_DispositionReason := res_DispositionReason res;
  res_DispositionDetail := res_DispositionDetail res |}.
Definition set_records (res : ExtractResult) (records : list Envelope) : ExtractResult := {|
  res_File := res_File res; res_LogicalURI := res_LogicalURI res; res_Records := records;
  res_Error := res_Error res; res_PerSelectorCounts := res_PerSelectorCounts res;
  res_PerSelectorCountsComplete := res_PerSelectorCountsComplete res;
  res_SignatureMatchStatus := res_SignatureMatchStatus res; res_SignatureConfidence := res_SignatureConfidence res;
  res_Disposition := res_Disposition res; res_DispositionReason := res_DispositionReason res;
  res_DispositionDetail := res_DispositionDetail res |}.

(** Only a run with an applicability gate shows dispositions. *)
Definition markFailed (r : file_run) (t : boundaryTracker) (reason : DispositionReason) (dt : detail) : boundaryTracker :=
  match fr_app r with
  | None => t
  | Some _ => with_result t (set_disposition (bt_result t) DispositionFailed reason dt)
  end.
Definition markBoundaryFailure (t : boundaryTracker) (reason : DispositionReason) (dt : detail) : boundaryTracker := {|
  bt_result := bt_result t; bt_emittedRecords := bt_emittedRecords t; bt_disposition := DispositionFailed;
  bt_reason := reason; bt_detail := dt |}.
(** A disposition of the result overrides the boundary's own. *)
Definition sync_boundary (t : boundaryTracker) : boundaryTracker :=
  match res_Disposition (bt_result t) with
  | DispositionFailed | DispositionNotApplicable =>
      {| bt_result := bt_result t; bt_emittedRecords := bt_emittedRecords t;
         bt_disposition := res_Disposition (bt_result t); bt_reason := res_DispositionReason (bt_result t);
         bt_detail := res_DispositionDetail (bt_result t) |}
  | _ => t
  end.
Definition boundary_summary (r : file_run) (t : boundaryTracker) : FileEmissionSummary := {|
  fe_SourceFile := boundary_file r; fe_RecordType := em_RecordType (fr_cfg r);
  fe_RecordCount := bt_emittedRecords t; fe_Disposition := bt_disposition t;
  fe_DispositionReason := bt_reason t; fe_DispositionDetail := bt_detail t |}.
Definition emitBoundary (r : file_run) (log : list event) (t : boundaryTracker) : list event * boundaryTracker :=
  match fr_sink r with
  | None => (log, t)
  | Some sink =>
      let t := sync_boundary t in
      let ev := OnFileBoundary (boundary_summary r t) in
      let t := match sink log ev, res_Error (bt_result t) with
               | Some e, None =>
                   let e := Errorf "failed to emit file boundary: %w" [AErr e] in
                   markFailed r (with_result t (set_error (bt_result t) e)) InternalErrorReason (DetailError e)
               | _, _ => t
               end in
      (log ++ [ev], t)
  end.
(** The repeated ending: the error, both marks, the boundary. *)
Definition fail_file (r : file_run) (log : list event) (t : boundaryTracker) (reason : DispositionReason) (e : gerror)
    : list event * ExtractResult :=
  let t := with_result t (set_error (bt_result t) e) in
  let t := markBoundaryFailure (markFailed r t reason (DetailError e)) reason (DetailError e) in
  let '(log, t) := emitBoundary r log t in (log, bt_result t).

(** A loop that stops at its first error. *)
Fixpoint run_until {S A E} (f : S → A → S * option E) (s : S) (l : list A) : S * option E :=
  match l with
  | [] => (s, None)
  | a :: l => match f s a with
              | (s, None) => run_until f s l
              | (s, Some e) => (s, Some e)
              end
  end.

(** *** Extraction to a sink *)
Record emission := { es_log : list event; es_num : nat; es_emitted : nat; es_counts : list nat }.
Definition emit_node (r : file_run) (cfg : ExtractRecordMatch) (sink : RecordSink) (format : string) (st : emission)
    (node : dnode) : emission * option gerror :=
  match ctx_err (es_num st) with
  | Some e => (st, Some e)
  | None =>
      let num := S (es_num st) in
      let st := {| es_log := es_log st; es_num := num; es_emitted := es_emitted st; es_counts := es_counts st |} in
      match extract_node format cfg (fr_ext r) node with
      | Err e => (st, Some e)
      | Ok None => (st, None)
      | Ok (Some record) =>
          match EnrichRecordWithRecordNum now record (fr_path r) (sig_names (fr_sig r)) cfg (fr_opts r) num with
          | Err e => (st, Some e)
          | Ok env =>
              let log := es_log st ++ [OnRecord env] in
              match sink (es_log st) (OnRecord env) with
              | Some e =>
                  ({| es_log := log; es_num := num; es_emitted := es_emitted st; es_counts := es_counts st |},
                   Some (Errorf "failed to emit record %d: %w" [AInt (Z.of_nat num); AErr e]))
              | None =>
                  ({| es_log := log; es_num := num; es_emitted := S (es_emitted st); es_counts := es_counts st |}, None)
              end
          end
      end
  end.
Definition emit_selector (r : file_run) (cfg : ExtractRecordMatch) (sink : RecordSink) (doc : Document) (st : emission)
    (s : MatchSelector) : emission * option gerror :=
  match select doc s with
  | Err e => (st, Some e)
  | Ok nodes =>
      let st := {| es_log := es_log st; es_num := es_num st; es_emitted := es_emitted st;
                   es_counts := es_counts st ++ [length nodes] |} in
      run_until (emit_node r cfg sink (doc_Format doc)) st nodes
  end.
Definition extractRecordsWithCountsAndRecordNumsToSink (r : file_run) (cfg : ExtractRecordMatch) (sink : RecordSink)
    (log : list event) (doc : Document) : emission * option gerror :=
  let st := {| es_log := log; es_num := 0; es_emitted := 0; es_counts := [] |} in
  match rejectExternalCollisionsWithInternalMappings (em_FieldMappings cfg) (fr_ext r) with
  | Err e => (st, Some e)
  | Ok _ => run_until (emit_selector r cfg sink doc) st (em_MatchSelectors cfg)
  end.

Definition apply_disposition (r : file_run) (res : ExtractResult) : ExtractResult :=
  match fr_app r with
  | Some _ => set_disposition res DispositionApplied (res_DispositionReason res) (res_DispositionDetail res)
  | None => res
  end.
Definition failed_extraction (o : RuntimeOptions) (path : string) (e : gerror) : gerror :=
  Errorf "failed to extract records: %w" [AErr (DiagnosticError o e path)].
(** A preparation failure leaves the result's disposition as it is. *)
Definition extractParsedDocument (r : file_run) (log : list event) (t : boundaryTracker) (doc : Document)
    : list event * ExtractResult :=
  match prepareExtractConfig json_copy (fr_cfg r) with
  | Err e =>
      let e := Errorf "failed to prepare extract config: %w" [AErr (DiagnosticError (fr_opts r) e (fr_path r))] in
      let t := markBoundaryFailure (with_result t (set_error (bt_result t) e)) InternalErrorReason (DetailError e) in
      let '(log, t) := emitBoundary r log t in (log, bt_result t)
  | Ok cfg =>
      match fr_sink r with
      | Some sink =>
          match extractRecordsWithCountsAndRecordNumsToSink r cfg sink log doc with
          | (st, Some e) => fail_file r (es_log st) t InternalErrorReason (failed_extraction (fr_opts r) (fr_path r) e)
          | (st, None) =>
              let res := set_counts (apply_disposition r (bt_result t)) (es_counts st) true in
              let '(log, t) := emitBoundary r (es_log st) (with_emitted (with_result t res) (es_emitted st)) in
              (log, bt_result t)
          end
      | None =>
          match extractRecordsWithCountsAndRecordNums doc cfg (fr_ext r) with
          | Err e =>
              let e := failed_extraction (fr_opts r) (fr_path r) e in
              (log, bt_result (markFailed r (with_result t (set_error (bt_result t) e)) InternalErrorReason (DetailError e)))
          | Ok (records, counts) =>
              match enrichRecordsWithRecordNums now records (fr_path r) (sig_names (fr_sig r)) cfg (fr_opts r) with
              | Err e =>
                  let e := DiagnosticError (fr_opts r) e (fr_path r) in
                  (log, bt_result (markFailed r (with_result t (set_error (bt_result t) e)) InternalErrorReason (DetailError e)))
              | Ok envs => (log, set_counts (set_records (apply_disposition r (bt_result t)) envs) counts true)
              end
          end
      end
  end.

Definition ProcessParsedDocument (r : file_run) (log : list event) (doc : Document) : list event * ExtractResult :=
  let t := newBoundaryTracker r in
  match match fr_app r with
        | Some app => evaluateApplicability (doc_Root doc) app
        | None => Ok true
        end with
  | Err e =>
      fail_file r log t ValidationErrorReason
        (Errorf "failed to evaluate applicability: %w" [AErr (DiagnosticError (fr_opts r) e (fr_path r))])
  | Ok false =>
      let res := set_counts (set_disposition (bt_result t) DispositionNotApplicable ApplicabilityPredicateFalse
                               (DetailText "applicability predicate evaluated false")) (zeroSelectorCounts (fr_cfg r)) true in
      let '(log, t) := emitBoundary r log (with_result t res) in (log, bt_result t)
  | Ok true =>
      if isRecordScope (Some (fr_sig r)) && negb (doc_Format doc =s? FormatXML) then
        let '(status, confidence, err) := matchesSignaturePerRecord RecordDocument doc (fr_sig r) (fr_cfg r) in
        let t := with_result t (set_signature (bt_result t) status confidence) in
        match err with
        | Some e =>
            let e := DiagnosticError (fr_opts r) e (fr_path r) in
            let reason := match status with SignatureMatchMismatched => SignatureMismatch | _ => InternalErrorReason end in
            let t := with_result t (set_disposition (set_error (bt_result t) e) DispositionFailed reason (DetailError e)) in
            let t := markBoundaryFailure t reason (DetailError e) in
            let t := with_result t (set_counts (bt_result t) (zeroSelectorCounts (fr_cfg r))
                                      (res_PerSelectorCountsComplete (bt_result t))) in
            let '(log, t) := emitBoundary r log t in (log, bt_result t)
        | None => extractParsedDocument r log t doc
        end
      else
        match matchesSignature (doc_Root doc) (fr_sig r) with
        | Err e =>
            fail_file r log t InternalErrorReason
              (Errorf "failed to check signature: %w" [AErr (DiagnosticError (fr_opts r) e (fr_path r))])
        | Ok (false, confidence) =>
            let res := set_counts (set_signature (bt_result t) SignatureMatchMismatched confidence)
                         (zeroSelectorCounts (fr_cfg r)) true in
            let res := match fr_app r with
                       | Some _ => set_disposition res DispositionFailed SignatureMismatch
                                     (DetailText "signature predicate did not match")
                       | None => res
                       end in
            let '(log, t) := emitBoundary r log (with_result t res) in (log, bt_result t)
        | Ok (true, confidence) =>
            extractParsedDocument r log
              (with_result t (set_signature (bt_result t) SignatureMatchMatched confidence)) doc
        end
  end.
End document.
