(* ===== verification/ExtractStream.v ===== *)
(** * Choosing a route, and streaming (internal/extract: extractor.go, format.go, sink.go)

    The size checks and decompression of a whole-document read, the streaming
    route that takes one record at a time from a scanner, and the choice between
    the two. The file system, gzip and the formats' entry points are the
    interface [Inputs]; what a scanner will answer is a finite [scanned]. *)
From Stdlib Require Import Ascii ZArith Lia SpecFloat.
From stdpp Require Import base list strings.
From S2P Require Import Prelude GoStrings GoFloat GoStrconv GoValue DslTypes GoJson JsonScan Extract ExtractPrepare ExtractFile.

(** [filepath.Ext]: from the last dot of the last path element. *)
Fixpoint Ext (p : string) : string :=
  match p with
  | "" => ""
  | String c t =>
      let e := Ext t in
      if negb (e =s? "") then e
      else if (c =c? "."%char) && negb (scontains_byte "/"%char t) then p else ""
  end.

(** What a scanner answers: its records, each with [RecordCount] after it, then
    the end or an error, with the count at that point. *)
Record scanned := { sn_records : list (record * nat); sn_stop : option gerror; sn_count : nat }.

Class Inputs `{Engine} := {
  stat_size : string → result Z;                  (* os.Stat, FileInfo.Size *)
  read_file : string → result string;             (* os.ReadFile *)
  gunzip : string → option (result string);       (* gzip.NewReader, io.ReadAll *)
  stream : Type;                                  (* io.ReadCloser *)
  open_file : string → result stream;             (* os.Open *)
  gzip_stream : stream → result stream;           (* gzip.NewReader on an open file *)
  Parse : string → string → result Document;      (* Format.Parse, by token *)
  ParseRecord : string → record → result Document;
  NewScanner : string → stream → string → result scanned;
  RecordDocument : dnode → result Document;       (* docnode.RecordDocumenter *)
  json_copy : vmap → result vmap;                 (* encoding/json there and back *)
  mentions : gerror → string → bool;              (* a path in an error's text *)
}.

Section inputs.
Context `{UC : UnicodeCase, EN : Engine, IN : !Inputs}.

Definition is_gzip (path : string) : bool := has_suffix ".gz" (to_lower (Ext path)).
Definition estimated_size (path : string) (size : Z) : Z := if is_gzip path then int64 (size * 10) else size.
Definition maxFileSizeWithoutFlag : Z := 1073741824.
Definition gigabytes (z : Z) : f64 := fdiv (f_of_Z z) (f_of_Z 1073741824).

Definition readFileContent (path : string) (allowLargeFiles : bool) : result string :=
  size ← wrapf "failed to stat file: %w" [] (stat_size path);
  let estimated := estimated_size path size in
  if negb allowLargeFiles && (maxFileSizeWithoutFlag <? estimated)%Z then
    errorf "file exceeds 1GB limit (estimated %.2f GB uncompressed); use --allow-large-files flag to process anyway (warning: may cause out-of-memory errors on large files)"
      [AFloat (gigabytes estimated)]
  else
    data ← read_file path;
    if is_gzip path then
      match gunzip data with
      | None => Ok data
      | Some r =>
          plain ← wrapf "failed to decompress gzip file: %w" [] r;
          if negb allowLargeFiles && (maxFileSizeWithoutFlag <? Z.of_nat (slen plain))%Z then
            errorf "decompressed file exceeds 1GB limit (%.2f GB); use --allow-large-files flag to process anyway (warning: may cause out-of-memory errors on large files)"
              [AFloat (gigabytes (Z.of_nat (slen plain)))]
          else Ok plain
      end
    else Ok data.
Definition openFileStream (path : string) : result stream :=
  file ← wrapf "failed to open file: %w" [] (open_file path);
  if is_gzip path then wrapf "failed to create gzip reader: %w" [] (gzip_stream file) else Ok file.

(** ** The choice of a route *)
Definition ErrRouteUnsupported : gerror := Errorf "docnode: route not supported by format" [].
Definition jsonStreamingBlocked (blockers : list string) : gerror :=
  Errorf "json input above the large-file threshold cannot be streamed because %s; use --allow-large-files to parse it as one document: %w"
    [AStr (sjoin " and " blockers); AErr ErrRouteUnsupported].
Definition jsonStreamingBlockers (sig : option FileSignature) (app : option ApplicabilityConfig) (has_sink : bool)
    : list string :=
  (if isRecordScope sig then []
   else ["the signature is evaluated against the whole document (match_scope: document)"]) ++
  (if bool_decide (is_Some app) then ["the recipe declares an applicability predicate"] else []) ++
  (if has_sink then [] else ["the output is buffered"]).
Definition largeFileStreamingThreshold : Z := 104857600.
Definition shouldUseLargeFileStreaming (path : string) (allowLargeFiles has_sink : bool)
    (app : option ApplicabilityConfig) (threshold : Z) : bool * Z :=
  match stat_size path with
  | Err _ => (false, 0%Z)
  | Ok size =>
      let estimated := estimated_size path size in
      ((threshold <? estimated)%Z && (allowLargeFiles || (has_sink && bool_decide (app = None))), estimated)
  end.
Inductive route := RouteStream | RouteWhole | RouteBlocked (e : gerror).
(** The route of an input, before the refusal of a gate on the streaming route. *)
Definition choose_route (r : file_run) (allowLargeFiles : bool) (threshold : Z) : route :=
  let has_sink := bool_decide (is_Some (fr_sink r)) in
  let '(should, estimated) := shouldUseLargeFileStreaming (fr_path r) allowLargeFiles has_sink (fr_app r) threshold in
  if isNDJSONInput (Some (fr_sig r)) then RouteStream
  else if isJSONInput (Some (fr_sig r)) then
    if (threshold <? estimated)%Z && negb allowLargeFiles then
      match jsonStreamingBlockers (Some (fr_sig r)) (fr_app r) has_sink with
      | [] => RouteStream
      | blockers => RouteBlocked (jsonStreamingBlocked blockers)
      end
    else RouteWhole
  else if should then RouteStream else RouteWhole.

Definition ParseFileForDOMDispatch (path : string) (allowLargeFiles : bool) : result Document :=
  let too_large := match stat_size path with
                   | Ok size => let e := estimated_size path size in if (104857600 <? e)%Z then Some e else None
                   | Err _ => None
                   end in
  match too_large with
  | Some e =>
      errorf "file %s is too large for extract-multi (estimated %d bytes exceeds the %d DOM-parse threshold); extract-multi parses each file once into memory and does not support the large-file streaming path"
        [AStr path; AInt e; AInt 104857600]
  | None =>
      content ← wrapf "failed to read file: %w" [] (readFileContent path allowLargeFiles);
      format ← inputFormat None;
      wrapf "failed to parse XML: %w" [] (Parse format content)
  end.

(** ** The streaming route *)
Context (now : Z) (ctx_err : nat → option gerror).

Record streaming := {
  sm_log : list event;
  sm_emitted : nat;
  sm_scored : nat;
  sm_min : f64;
  sm_status : SignatureMatchStatus;
  sm_confidence : f64;
  sm_count : nat;                                 (* scanner.RecordCount() *)
}.
Definition stream_diag (r : file_run) (e : gerror) : gerror := DiagnosticError mentions (fr_opts r) e (fr_path r).

Definition emit_streamed (r : file_run) (sink : RecordSink) (num : nat) (st : streaming) (env : Envelope)
    : streaming * option (DispositionReason * gerror) :=
  let log := sm_log st ++ [OnRecord env] in
  match sink (sm_log st) (OnRecord env) with
  | Some e =>
      ({| sm_log := log; sm_emitted := sm_emitted st; sm_scored := sm_scored st; sm_min := sm_min st;
          sm_status := sm_status st; sm_confidence := sm_confidence st; sm_count := sm_count st |},
       Some (InternalErrorReason, Errorf "failed to emit record %d: %w" [AInt (Z.of_nat num); AErr (stream_diag r e)]))
  | None =>
      ({| sm_log := log; sm_emitted := S (sm_emitted st); sm_scored := sm_scored st; sm_min := sm_min st;
          sm_status := sm_status st; sm_confidence := sm_confidence st; sm_count := sm_count st |}, None)
  end.
(** The record-scoped signature on one record's document. *)
Definition score_streamed (r : file_run) (num : nat) (st : streaming) (doc : Document)
    : streaming * option (DispositionReason * gerror) :=
  match matchesSignature (doc_Root doc) (fr_sig r) with
  | Err e => (st, Some (InternalErrorReason, Errorf "failed to check signature: %w" [AErr e]))
  | Ok (matches, confidence) =>
      let min := if (sm_scored st =? 0)%nat || fltb confidence (sm_min st) then confidence else sm_min st in
      ({| sm_log := sm_log st; sm_emitted := sm_emitted st; sm_scored := S (sm_scored st); sm_min := min;
          sm_status := if matches then sm_status st else SignatureMatchMismatched;
          sm_confidence := min; sm_count := sm_count st |},
       if matches then None
       else Some (SignatureMismatch, recordSignatureMismatch num confidence (fg_ConfidenceThreshold (fr_sig r))))
  end.
(** One scanned record: parsed, scored, extracted, enriched, emitted. *)
Definition stream_record (r : file_run) (cfg : ExtractRecordMatch) (sink : RecordSink) (format : string)
    (st : streaming) (rec : record * nat) : streaming * option (DispositionReason * gerror) :=
  let num := rc_Num rec.1 in
  let st := {| sm_log := sm_log st; sm_emitted := sm_emitted st; sm_scored := sm_scored st; sm_min := sm_min st;
               sm_status := sm_status st; sm_confidence := sm_confidence st; sm_count := rec.2 |} in
  match ParseRecord format rec.1 with
  | Err e =>
      (st, Some (ParseErrorReason, Errorf "failed to parse record %d: %w" [AInt (Z.of_nat num); AErr (stream_diag r e)]))
  | Ok doc =>
      match if format =s? FormatXML then (st, None) else score_streamed r num st doc with
      | (st, Some e) => (st, Some e)
      | (st, None) =>
          match extractRecords doc cfg (fr_ext r) with
          | Err e =>
              (st, Some (InternalErrorReason,
                         Errorf "failed to extract from record %d: %w" [AInt (Z.of_nat num); AErr (stream_diag r e)]))
          | Ok records =>
              match enrichRecordsWithRecordNums now
                      ((λ d, {| er_data := d; er_recordNum := num |}) <$> records)
                      (fr_path r) (sig_names (fr_sig r)) cfg (fr_opts r) with
              | Err e => (st, Some (InternalErrorReason, stream_diag r e))
              | Ok envs => run_until (emit_streamed r sink num) st envs
              end
          end
      end
  end.
Definition scan_error (r : file_run) (format : string) (e : gerror) : gerror :=
  if format =s? FormatXML then Errorf "failed to scan record: %w" [AErr (stream_diag r e)]
  else Errorf "failed to parse %s: %w" [AStr (to_upper format); AErr (stream_diag r e)].
Definition stream_records (r : file_run) (cfg : ExtractRecordMatch) (sink : RecordSink) (format : string) (s : scanned)
    (log : list event) : streaming * option (DispositionReason * gerror) :=
  let st := {| sm_log := log; sm_emitted := 0; sm_scored := 0; sm_min := fzero;
               sm_status := SignatureMatchUnknown; sm_confidence := fzero; sm_count := 0 |} in
  match run_until (stream_record r cfg sink format) st (sn_records s) with
  | (st, Some e) => (st, Some e)
  | (st, None) =>
      let stop status := {| sm_log := sm_log st; sm_emitted := sm_emitted st; sm_scored := sm_scored st;
                            sm_min := sm_min st; sm_status := status; sm_confidence := sm_confidence st;
                            sm_count := sn_count s |} in
      match sn_stop s with
      | Some e => (stop (sm_status st), Some (ParseErrorReason, scan_error r format e))
      | None => (stop (if (0 <? sm_scored st)%nat then SignatureMatchMatched else sm_status st), None)
      end
  end.

(** [finish]: the count of the scanner, once there is one, and the boundary. *)
Definition stream_finish (r : file_run) (sink : RecordSink) (log : list event) (emitted : nat) (res : ExtractResult)
    (count : option nat) (failure : option (DispositionReason * gerror)) : list event * ExtractResult :=
  let res := match failure with Some (_, e) => set_error res e | None => res end in
  let res := match count with
             | Some n => set_counts res [n] (length (em_MatchSelectors (fr_cfg r)) =? 1)%nat
             | None => res
             end in
  let ev := OnFileBoundary {|
    fe_SourceFile := boundary_file r; fe_RecordType := em_RecordType (fr_cfg r); fe_RecordCount := emitted;
    fe_Disposition := if failure then DispositionFailed else DispositionApplied;
    fe_DispositionReason := match failure with Some (reason, _) => reason | None => NoReason end;
    fe_DispositionDetail := match failure with Some (_, e) => DetailError e | None => NoDetail end |} in
  let res := match sink log ev, res_Error res with
             | Some e, None => set_error res (Errorf "failed to emit file boundary: %w" [AErr (stream_diag r e)])
             | _, _ => res
             end in
  (log ++ [ev], res).

(** What must hold before the input is opened: the record's own configuration
    and the format. *)
Definition stream_prepare (r : file_run) : res (DispositionReason * gerror) (string * ExtractRecordMatch * string) :=
  let fail {A} (reason : DispositionReason) (m : result A) : res (DispositionReason * gerror) A :=
    match m with Ok a => Ok a | Err e => Err (reason, e) end in
  match em_MatchSelectors (fr_cfg r) with
  | [] => Err (InternalErrorReason, Errorf "no match selectors defined in extract config" [])
  | s :: _ =>
      match ParseRecordSelector (ms_XPath s) with
      | Err e => Err (InternalErrorReason, stream_diag r e)
      | Ok _ =>
          match prepareExtractConfig json_copy (cloneExtractConfigForStreaming (fr_cfg r)) with
          | Err e =>
              Err (InternalErrorReason, Errorf "failed to prepare streaming extract config: %w" [AErr (stream_diag r e)])
          | Ok cfg =>
              format ← fail InternalErrorReason (inputFormat (Some (fr_sig r)));
              _ ← (if format =s? FormatXML then Ok ()
                   else
                     _ ← fail ValidationErrorReason (checkMatchScope format (fr_sig r) (Some (fr_cfg r)) None);
                     if isRecordScope (Some (fr_sig r)) then Ok ()
                     else Err (RouteUnsupported, jsonStreamingBlocked (jsonStreamingBlockers (Some (fr_sig r)) None true)));
              Ok (ms_XPath s, cfg, format)
          end
      end
  end.
Definition stream_open (r : file_run) (selector format : string) : result scanned :=
  match openFileStream (fr_path r) with
  | Err e => errorf "failed to open file stream: %w" [AErr (stream_diag r e)]
  | Ok st =>
      match NewScanner format st selector with
      | Err e => errorf "failed to create record scanner: %w" [AErr (stream_diag r e)]
      | Ok s => Ok s
      end
  end.
Definition ProcessFileStreamingToSink (r : file_run) (log : list event) : list event * ExtractResult :=
  let res := bt_result (newBoundaryTracker r) in
  match fr_sink r with
  | None => (log, set_error res (Errorf "record sink is nil" []))
  | Some sink =>
      match stream_prepare r with
      | Err failure => stream_finish r sink log 0 res None (Some failure)
      | Ok (selector, cfg, format) =>
          match stream_open r selector format with
          | Err e => stream_finish r sink log 0 res None (Some (InternalErrorReason, e))
          | Ok s =>
              let '(st, failure) := stream_records r cfg sink format s log in
              stream_finish r sink (sm_log st) (sm_emitted st)
                (set_signature res (sm_status st) (sm_confidence st)) (Some (sm_count st)) failure
          end
      end
  end.

(** [recordCollectingSink]: never fails; its records are those of the log. *)
Definition recordCollectingSink : RecordSink := λ _ _, None.
Definition collected (log : list event) : list Envelope :=
  omap (λ ev, match ev with OnRecord e => Some e | OnFileBoundary _ => None end) log.
Definition with_sink (r : file_run) (sink : option RecordSink) : file_run := {|
  fr_path := fr_path r; fr_sig := fr_sig r; fr_cfg := fr_cfg r; fr_app := fr_app r; fr_ext := fr_ext r;
  fr_opts := fr_opts r; fr_sink := sink |}.
Definition ProcessFileStreamingWithProvenance (r : file_run) : ExtractResult :=
  let '(log, res) := ProcessFileStreamingToSink (with_sink r (Some recordCollectingSink)) [] in
  match res_Error res with None => set_records res (collected log) | Some _ => res end.

(** ** The whole of a file *)
Definition processFileWithProvenance (r : file_run) (allowLargeFiles : bool) (threshold : Z) (log : list event)
    : list event * ExtractResult :=
  let t := newBoundaryTracker r in
  match choose_route r allowLargeFiles threshold with
  | RouteBlocked e => fail_file r log t RouteUnsupported e
  | RouteStream =>
      match fr_app r, fr_sink r with
      | Some _, _ =>
          fail_file r log t InternalErrorReason
            (Errorf "applicability declared but not supported in streaming mode" [])
      | None, Some _ => ProcessFileStreamingToSink r log
      | None, None => (log, ProcessFileStreamingWithProvenance r)
      end
  | RouteWhole =>
      match readFileContent (fr_path r) allowLargeFiles with
      | Err e => fail_file r log t InternalErrorReason (Errorf "failed to read file: %w" [AErr (stream_diag r e)])
      | Ok content =>
          match inputFormat (Some (fr_sig r)) with
          | Err e => fail_file r log t ParseErrorReason e
          | Ok format =>
              match Parse format content with
              | Err e =>
                  fail_file r log t ParseErrorReason
                    (Errorf "failed to parse %s: %w" [AStr (to_upper format); AErr (stream_diag r e)])
              | Ok doc => ProcessParsedDocument RecordDocument json_copy mentions now ctx_err r log doc
              end
          end
      end
  end.
End inputs.
