(* ===== verification/ExtractFileSpec.v ===== *)
(** * What processing a file does

    The route with a record sink delivers what the buffered route returns; a
    file with a sink ends in one boundary call after its records; the streaming
    route delivers the records of the longest prefix it can process. *)
From Stdlib Require Import Ascii ZArith Lia SpecFloat.
From stdpp Require Import base list strings sets.
From S2P Require Import Prelude GoStrings GoFloat GoStrconv GoValue DslTypes GoJson JsonScan Extract ExtractSpec ExtractPrepare ExtractFile ExtractStream.

(** ** A stopping loop against a fallible fold *)
Section run_fold.
Context {S A E T : Type} (f : S → A → S * option E) (g : T → A → result T).
Context (R : S → T → Prop) (Bad : T → Prop).

(** Both go on and stay related, or the loop stops where the fold fails, now or
    at its end. *)
Definition together (x : S * option E) (y : result T) : Prop :=
  match x, y with
  | (s, None), Ok t => R s t
  | (_, Some _), Ok t => Bad t
  | (_, Some _), Err _ => True
  | (_, None), Err _ => False
  end.
Context (step : ∀ s t a, R s t → together (f s a) (g t a)).
Context (bad_step : ∀ t t' a, Bad t → g t a = Ok t' → Bad t').

Lemma bad_fold l : ∀ t t', Bad t → foldM g t l = Ok t' → Bad t'.
Proof.
  intros t t' Ht H. eapply (foldM_inv Bad); [|exact Ht|exact H].
  intros s a s' Hs Ha. by eapply bad_step.
Qed.
Lemma run_together l : ∀ s t, R s t → together (run_until f s l) (foldM g t l).
Proof.
  induction l as [|a l IH]; intros s t Hst; simpl; [done|].
  specialize (step s t a Hst). unfold together in step.
  destruct (f s a) as [s' [e|]], (g t a) as [t'|e'] eqn:Hg; simpl in *; try done.
  - destruct (foldM g t' l) as [t''|] eqn:Hl; [|done]. by eapply bad_fold.
  - by apply IH.
Qed.
End run_fold.

(** An invariant while the loop goes on, and what holds where it stops. *)
Lemma run_until_inv {S A E} (f : S → A → S * option E) (I J : S → Prop) l :
  (∀ s a, I s → match f s a with (s', None) => I s' | (s', Some _) => J s' end) →
  ∀ s, I s → match run_until f s l with (s', None) => I s' | (s', Some _) => J s' end.
Proof.
  intros Hstep. induction l as [|a l IH]; intros s Hs; simpl; [done|].
  specialize (Hstep s a Hs). destruct (f s a) as [s' [e|]]; [done|by apply IH].
Qed.

(** ** With and without a sink *)
Section routes.
Context `{UC : UnicodeCase, EN : Engine, IN : !Inputs}.
Context (now : Z) (r : file_run) (doc : Document).
Implicit Types (st : emission) (ex : extraction) (log : list event) (t : boundaryTracker).

(** Never an error from the sink, never a cancellation. *)
Definition willing (sink : RecordSink) : Prop := ∀ log ev, sink log ev = None.
Definition never : nat → option gerror := λ _, None.

Section emit.
Context (cfg : ExtractRecordMatch) (sink : RecordSink) (log0 : list event).
Context (Hsink : willing sink).

Definition enriched (records : list extractedRecord) : result (list Envelope) :=
  enrichRecordsWithRecordNums now records (fr_path r) (sig_names (fr_sig r)) cfg (fr_opts r).
Definition delivered st ex : Prop :=
  es_num st = ex_num ex ∧ es_counts st = ex_counts ex ∧
  ∃ envs, enriched (ex_records ex) = Ok envs ∧ es_log st = log0 ++ (OnRecord <$> envs) ∧ es_emitted st = length envs.
Definition spoiled ex : Prop := is_ok (enriched (ex_records ex)) = false.

Lemma enriched_app rs rs' : enriched (rs ++ rs') = (bs ← enriched rs; cs ← enriched rs'; Ok (bs ++ cs)).
Proof. apply mapR_app. Qed.
Lemma spoiled_app ex ex' rs : ex_records ex' = ex_records ex ++ rs → spoiled ex → spoiled ex'.
Proof.
  unfold spoiled. intros ->. rewrite enriched_app. by destruct (enriched (ex_records ex)).
Qed.
Lemma extract_numbered_appends format ex a ex' :
  extract_numbered format cfg (fr_ext r) ex a = Ok ex' → ∃ rs, ex_records ex' = ex_records ex ++ rs.
Proof.
  unfold extract_numbered. intros H. inv_ok. subst. simpl. case_match; [by eexists|]. exists []. by rewrite app_nil_r.
Qed.
Lemma emit_node_together st ex node :
  delivered st ex →
  together delivered spoiled (emit_node now never r cfg sink (doc_Format doc) st node)
    (extract_numbered (doc_Format doc) cfg (fr_ext r) ex node).
Proof.
  intros (Hn & Hc & envs & He & Hl & Hlen). unfold emit_node, extract_numbered, never. rewrite Hn.
  destruct (extract_node _ _ _ _) as [[record|]|e] eqn:Hx; simpl; [|split_and!; [done|done|by exists envs]|done].
  destruct (EnrichRecordWithRecordNum _ _ _ _ _ _ _) as [env|e] eqn:Hr; simpl.
  - rewrite Hsink. simpl. split_and!; [done|done|]. exists (envs ++ [env]). simpl.
    rewrite enriched_app, He. simpl. unfold enriched. simpl. rewrite Hr. simpl. split_and!; [done| |].
    + by rewrite Hl, fmap_app, app_assoc.
    + rewrite length_app. simpl. lia.
  - unfold spoiled. simpl. rewrite enriched_app, He. simpl. unfold enriched. simpl. by rewrite Hr.
Qed.
Lemma emit_selector_together st ex s :
  delivered st ex →
  together delivered spoiled (emit_selector now never r cfg sink doc st s) (extract_selector doc cfg (fr_ext r) ex s).
Proof.
  intros H. unfold emit_selector, extract_selector. destruct (select doc s) as [nodes|e]; simpl; [|done].
  set (R' := λ st ex, delivered st {| ex_num := ex_num ex; ex_records := ex_records ex; ex_counts := ex_counts ex ++ [length nodes] |}).
  assert (∀ st ex node, R' st ex → together R' spoiled (emit_node now never r cfg sink (doc_Format doc) st node)
            (extract_numbered (doc_Format doc) cfg (fr_ext r) ex node)) as Hstep.
  { intros st1 ex1 node H1. apply (emit_node_together _ _ node) in H1. revert H1.
    unfold together, extract_numbered, R'. simpl.
    destruct (emit_node _ _ _ _ _ _ _ _) as [? [?|]], (extract_node _ _ _ _) as [[?|]|?]; simpl; try done. }
  assert (R' {| es_log := es_log st; es_num := es_num st; es_emitted := es_emitted st;
                es_counts := es_counts st ++ [length nodes] |} ex) as H0.
  { destruct H as (Hn & Hc & Hrest). unfold R'. split_and!; simpl; [done|by rewrite Hc|done]. }
  pose proof (run_together _ _ R' spoiled Hstep) as Hrun.
  specialize (Hrun ltac:(intros t t' a Ht Ha; destruct (extract_numbered_appends _ _ _ _ Ha) as [rs Hrs]; by eapply spoiled_app) nodes _ _ H0).
  unfold together in Hrun. unfold together.
  destruct (run_until _ _ _) as [s1 [e1|]], (foldM _ _ _) as [ex1|e2]; simpl; done.
Qed.
Lemma extract_selector_appends ex s ex' :
  extract_selector doc cfg (fr_ext r) ex s = Ok ex' → ∃ rs, ex_records ex' = ex_records ex ++ rs.
Proof.
  unfold extract_selector. intros H. inv_ok. subst. simpl.
  match goal with Hf : foldM _ _ _ = Ok ?x |- _ => revert Hf end. intros Hf.
  apply (foldM_inv (λ e, ∃ rs, ex_records e = ex_records ex ++ rs)) in Hf; [done| |exists []; by rewrite app_nil_r].
  intros e1 node e2 [rs1 Hrs1] [rs2 Hrs2]%extract_numbered_appends. exists (rs1 ++ rs2). rewrite app_assoc. congruence.
Qed.

Lemma sink_together :
  match extractRecordsWithCountsAndRecordNumsToSink now never r cfg sink log0 doc,
        extractRecordsWithCountsAndRecordNums doc cfg (fr_ext r) with
  | (st, None), Ok (records, counts) =>
      ∃ envs, enriched records = Ok envs ∧ es_log st = log0 ++ (OnRecord <$> envs) ∧
        es_emitted st = length envs ∧ es_counts st = counts
  | (_, None), Err _ => False
  | (_, Some _), Ok (records, _) => is_ok (enriched records) = false
  | (_, Some _), Err _ => True
  end.
Proof.
  unfold extractRecordsWithCountsAndRecordNumsToSink, extractRecordsWithCountsAndRecordNums.
  destruct (rejectExternalCollisionsWithInternalMappings _ _) as [[]|e]; simpl; [|done].
  pose proof (run_together _ _ delivered spoiled emit_selector_together) as Hrun.
  specialize (Hrun ltac:(intros t t' a Ht Ha; destruct (extract_selector_appends _ _ _ Ha) as [rs Hrs]; by eapply spoiled_app)
    (em_MatchSelectors cfg) {| es_log := log0; es_num := 0; es_emitted := 0; es_counts := [] |}
    {| ex_num := 0; ex_records := []; ex_counts := [] |}).
  unfold together in Hrun.
  assert (delivered {| es_log := log0; es_num := 0; es_emitted := 0; es_counts := [] |}
            {| ex_num := 0; ex_records := []; ex_counts := [] |}) as H0.
  { split_and!; [done|done|]. exists []. simpl. by rewrite app_nil_r. }
  specialize (Hrun H0).
  destruct (run_until _ _ _) as [st [e|]], (foldM _ _ _) as [ex|e']; simpl; try done.
  destruct Hrun as (_ & Hc & envs & He & Hl & Hlen). by exists envs.
Qed.
End emit.

Lemma with_sink_sink s : fr_sink (with_sink r s) = s.
Proof. done. Qed.
Lemma collected_app l1 l2 : collected (l1 ++ l2) = collected l1 ++ collected l2.
Proof. apply omap_app. Qed.
Lemma collected_records envs : collected (OnRecord <$> envs) = envs.
Proof. induction envs; simpl; [done|]. by f_equal. Qed.

(** *** The boundary of a willing sink leaves the result as it is *)
Lemma emitBoundary_willing r' sink log t : fr_sink r' = Some sink → willing sink →
  ∃ s t', emitBoundary r' log t = (log ++ [OnFileBoundary s], t') ∧ bt_result t' = bt_result t.
Proof.
  intros Hs Hw. unfold emitBoundary. rewrite Hs, Hw. do 2 eexists. split; [done|].
  unfold sync_boundary. by repeat case_match.
Qed.
Lemma emitBoundary_none r' log t : fr_sink r' = None → emitBoundary r' log t = (log, t).
Proof. unfold emitBoundary. by intros ->. Qed.
Lemma markFailed_sink r' s t reason d : markFailed (with_sink r' s) t reason d = markFailed r' t reason d.
Proof. done. Qed.

(** What the two runs owe each other. *)
Definition same_delivery (x y : list event * ExtractResult) : Prop :=
  y.1 = [] ∧
  match res_Error y.2 with
  | None => x.2 = set_records y.2 [] ∧ collected x.1 = res_Records y.2
  | Some _ => is_Some (res_Error x.2) ∧ res_Disposition x.2 = res_Disposition y.2
  end.
Definition with_and_without (f : file_run → list event * ExtractResult) (sink : RecordSink) : Prop :=
  same_delivery (f (with_sink r (Some sink))) (f (with_sink r None)).

(** Both runs fail with the reason shown alike, whatever the log. *)
Lemma failed_delivery sink log t reason e res0 : willing sink →
  is_Some (res_Error res0) → res_Disposition res0 = res_Disposition (bt_result (markFailed r t reason (DetailError e))) →
  same_delivery (fail_file (with_sink r (Some sink)) log t reason e) ([], res0).
Proof.
  intros Hw [e0 He0] Hd. unfold fail_file.
  edestruct (emitBoundary_willing (with_sink r (Some sink)) sink) as (s & t' & -> & Ht); [done|done|].
  split; [done|]. cbn [fst snd]. rewrite He0, Hd, Ht. unfold markFailed. simpl. by destruct (fr_app r).
Qed.
Lemma fail_file_delivery sink t reason e : willing sink →
  with_and_without (λ r, fail_file r [] t reason e) sink.
Proof.
  intros Hw. unfold with_and_without. unfold fail_file at 2.
  rewrite (emitBoundary_none (with_sink r None)) by done.
  apply failed_delivery; [done| |]; unfold markFailed; simpl; by destruct (fr_app r).
Qed.
Lemma boundary_delivery sink t : willing sink →
  is_Some (res_Error (bt_result t)) ∨ res_Records (bt_result t) = [] →
  with_and_without (λ r, let '(log, t) := emitBoundary r [] t in (log, bt_result t)) sink.
Proof.
  intros Hw Ht. unfold with_and_without. rewrite (emitBoundary_none (with_sink r None)) by done.
  edestruct (emitBoundary_willing (with_sink r (Some sink)) sink) as (s & t' & -> & Ht'); [done|done|].
  split; [done|]. simpl. rewrite Ht'. case_match; [split; [by eexists|done]|].
  destruct Ht as [[? ?]|Ht]; [congruence|]. rewrite Ht. split; [|done]. destruct (bt_result t). simpl in *. by subst.
Qed.

Local Ltac run_fields := cbn [with_sink fr_path fr_sig fr_cfg fr_app fr_ext fr_opts fr_sink].
Lemma extractParsed_delivery sink t : willing sink → res_Error (bt_result t) = None → res_Records (bt_result t) = [] →
  with_and_without (λ r, extractParsedDocument json_copy mentions now never r [] t doc) sink.
Proof.
  intros Hw Herr Hrec. unfold with_and_without, extractParsedDocument. run_fields.
  destruct (prepareExtractConfig _ _) as [cfg|e].
  2: { apply boundary_delivery; [done|]. left. by eexists. }
  pose proof (sink_together cfg sink [] Hw) as H. unfold enriched in H.
  change (extractRecordsWithCountsAndRecordNumsToSink now never (with_sink r (Some sink)))
    with (extractRecordsWithCountsAndRecordNumsToSink now never r).
  revert H.
  destruct (extractRecordsWithCountsAndRecordNumsToSink _ _ r _ _ _ _) as [st [e1|]];
    destruct (extractRecordsWithCountsAndRecordNums _ _ _) as [[records counts]|e0]; try done.
  - intros Hbad. destruct (enrichRecordsWithRecordNums _ _ _ _ _ _) as [envs|e0]; [done|].
    apply failed_delivery; [done| |]; unfold markFailed; simpl; by destruct (fr_app r).
  - intros _. apply failed_delivery; [done| |]; unfold markFailed; simpl; by destruct (fr_app r).
  - intros (envs & He & Hl & Hlen & Hc). rewrite He.
    edestruct (emitBoundary_willing (with_sink r (Some sink)) sink) as (s & t' & -> & Ht); [done|done|].
    split; [done|]. cbn [fst snd]. rewrite Ht, Hl, app_nil_l, collected_app, collected_records, Hc, app_nil_r.
    unfold apply_disposition. run_fields. destruct (fr_app r); simpl; rewrite Herr; (split; [|done]);
      destruct (bt_result t); simpl in *; by subst.
Qed.

(** C18: with a sink that takes every record and no cancellation, a document is
    processed as without one: when the buffered run succeeds, the sink has got
    exactly the records that run returns, in the same order, and the results
    agree on the disposition, the signature, the counts and the absence of an
    error; when it fails, so does the run with the sink, with the same
    disposition. *)
Theorem ProcessParsedDocument_sink sink : willing sink →
  with_and_without (λ r, ProcessParsedDocument RecordDocument json_copy mentions now never r [] doc) sink.
Proof.
  intros Hw. unfold with_and_without, ProcessParsedDocument. run_fields.
  change (newBoundaryTracker (with_sink r (Some sink))) with (newBoundaryTracker r).
  change (newBoundaryTracker (with_sink r None)) with (newBoundaryTracker r).
  destruct (match fr_app r with Some _ => _ | None => _ end) as [[]|e].
  - case_match.
    + destruct (matchesSignaturePerRecord _ _ _ _) as [[status conf] [e|]].
      * apply boundary_delivery; [done|]. left. by eexists.
      * by apply extractParsed_delivery.
    + destruct (matchesSignature _ _) as [[[] conf]|e].
      * by apply extractParsed_delivery.
      * apply boundary_delivery; [done|]. right. by destruct (fr_app r).
      * by apply fail_file_delivery.
  - apply boundary_delivery; [done|]. by right.
  - by apply fail_file_delivery.
Qed.
End routes.

(** ** The boundary of a file *)
Section boundary.
Context `{UC : UnicodeCase, EN : Engine, IN : !Inputs}.
Context (now : Z) (ctx_err : nat → option gerror) (r : file_run) (sink : RecordSink) (Hsink : fr_sink r = Some sink).
Implicit Types (log : list event) (t : boundaryTracker).

(** The disposition of the result beside the boundary's: the result has none
    without a gate, and may have none when the boundary is failed; it says failed
    when the boundary does or was refused; otherwise both say the same and the
    boundary was taken. *)
Definition disposition_agrees (s : FileEmissionSummary) (refused : option gerror) (d : Disposition) : Prop :=
  match d with
  | DispositionNone => fr_app r = None ∨ fe_Disposition s = DispositionFailed
  | DispositionFailed => fe_Disposition s = DispositionFailed ∨ is_Some refused
  | DispositionApplied | DispositionNotApplicable => fe_Disposition s = d ∧ refused = None
  end.
(** The calls a file makes after [log]: its records, then one boundary whose
    summary agrees with the result. *)
Definition one_boundary (log : list event) (x : list event * ExtractResult) : Prop :=
  ∃ envs s, x.1 = log ++ (OnRecord <$> envs) ++ [OnFileBoundary s] ∧
    fe_SourceFile s = boundary_file r ∧ fe_RecordType s = em_RecordType (fr_cfg r) ∧
    match fe_Disposition s with
    | DispositionApplied => fe_RecordCount s = length envs
    | DispositionNotApplicable => fe_RecordCount s = 0 ∧ envs = []
    | DispositionFailed =>
        fe_RecordCount s ≤ length envs ∧
        (is_Some (res_Error x.2) ∨ res_SignatureMatchStatus x.2 = SignatureMatchMismatched)
    | DispositionNone => False
    end ∧
    (fe_Disposition s ≠ DispositionFailed →
     is_Some (res_Error x.2) ↔ is_Some (sink (log ++ (OnRecord <$> envs)) (OnFileBoundary s))) ∧
    disposition_agrees s (sink (log ++ (OnRecord <$> envs)) (OnFileBoundary s)) (res_Disposition x.2).

(** What the tracker owes the boundary it is about to make. *)
Definition gated t : Prop :=
  match res_Disposition (bt_result t) with
  | DispositionNone => fr_app r = None ∨ bt_disposition t = DispositionFailed
  | DispositionApplied => is_Some (fr_app r) ∧ bt_disposition t = DispositionApplied
  | DispositionNotApplicable => is_Some (fr_app r)
  | DispositionFailed => True
  end.
Definition ready (envs : list Envelope) t : Prop :=
  let t' := sync_boundary t in
  gated t ∧
  match bt_disposition t' with
  | DispositionApplied => bt_emittedRecords t = length envs ∧ res_Error (bt_result t) = None
  | DispositionNotApplicable => bt_emittedRecords t = 0 ∧ envs = [] ∧ res_Error (bt_result t) = None
  | DispositionFailed =>
      bt_emittedRecords t ≤ length envs ∧
      (is_Some (res_Error (bt_result t)) ∨ res_SignatureMatchStatus (bt_result t) = SignatureMatchMismatched)
  | DispositionNone => False
  end.
Lemma sync_keeps t : bt_result (sync_boundary t) = bt_result t ∧ bt_emittedRecords (sync_boundary t) = bt_emittedRecords t.
Proof. unfold sync_boundary. by repeat case_match. Qed.
Lemma marked_error t e reason d :
  res_Error (bt_result (markFailed r (with_result t (set_error (bt_result t) e)) reason d)) = Some e.
Proof. unfold markFailed. by destruct (fr_app r). Qed.
(** Whatever the sink answers, the dispositions agree. *)
Lemma emitted_agrees t e ans : gated t →
  (res_Disposition (bt_result t) = DispositionFailed → bt_disposition t = DispositionFailed) →
  (res_Disposition (bt_result t) = DispositionNotApplicable → bt_disposition t = DispositionNotApplicable) →
  (bt_disposition t ≠ DispositionFailed → res_Error (bt_result t) = None) →
  disposition_agrees (boundary_summary r t) ans (res_Disposition (bt_result match ans, res_Error (bt_result t) with
    | Some a, None => markFailed r (with_result t (set_error (bt_result t) (e a))) InternalErrorReason (DetailError (e a))
    | _, _ => t end)).
Proof.
  unfold gated, disposition_agrees, boundary_summary. cbn [fe_Disposition]. intros Hg Hf Hn He. destruct ans as [a|].
  - destruct (res_Error (bt_result t)) eqn:E.
    + assert (bt_disposition t = DispositionFailed) as Hd.
      { revert He. clear. by destruct (bt_disposition t); try done; intros He; specialize (He ltac:(done)). }
      rewrite Hd in *. revert Hg Hf Hn. clear. destruct (res_Disposition (bt_result t)); naive_solver.
    + unfold markFailed. destruct (fr_app r); simpl; [by right; eexists|].
      revert Hg Hf Hn. clear. destruct (res_Disposition (bt_result t)); unfold is_Some; naive_solver.
  - revert Hg Hf Hn. clear. destruct (res_Disposition (bt_result t)); naive_solver.
Qed.
Lemma emitBoundary_one log envs t :
  ready envs t →
  one_boundary log (let '(l, t) := emitBoundary r (log ++ (OnRecord <$> envs)) t in (l, bt_result t)).
Proof.
  unfold ready, emitBoundary. rewrite Hsink. destruct (sync_keeps t) as [Hres Hem]. intros [Hg Ht].
  assert (gated (sync_boundary t)) as Hg'.
  { revert Hg. unfold gated, sync_boundary. destruct (res_Disposition (bt_result t)) eqn:E; simpl; rewrite ?E; auto. }
  assert (∀ d, d = DispositionFailed ∨ d = DispositionNotApplicable → res_Disposition (bt_result t) = d → bt_disposition (sync_boundary t) = d) as Hsync.
  { intros d Hd E. unfold sync_boundary. rewrite E. by destruct Hd as [-> | ->]. }
  rewrite <- Hres in Hsync. set (t' := sync_boundary t) in *. clear Hg. exists envs, (boundary_summary r t'). cbn [fst snd].
  rewrite <- app_assoc. split; [done|]. split; [done|]. split; [done|]. cbn [boundary_summary fe_Disposition fe_RecordCount].
  rewrite <- Hem, <- Hres in Ht. fold (boundary_summary r t').
  set (ans := sink (log ++ (OnRecord <$> envs)) (OnFileBoundary (boundary_summary r t'))).
  assert (disposition_agrees (boundary_summary r t') ans (res_Disposition (bt_result match ans, res_Error (bt_result t') with
      | Some e, None => markFailed r (with_result t' (set_error (bt_result t') (Errorf "failed to emit file boundary: %w" [AErr e])))
                          InternalErrorReason (DetailError (Errorf "failed to emit file boundary: %w" [AErr e]))
      | _, _ => t' end))) as Hagree.
  { apply emitted_agrees; [done|intros E; apply Hsync; auto..|]. intros Hd. by destruct (bt_disposition t'); naive_solver. }
  match goal with |- ?X ∧ ?Y ∧ ?Z => enough (X ∧ Y) as [HX HY] by exact (conj HX (conj HY Hagree)) end.
  destruct (bt_disposition t') eqn:Hd; [done| | |].
  - destruct Ht as [-> He]. split; [done|]. intros _. rewrite He. destruct ans as [e|]; cbn.
    + rewrite marked_error. naive_solver.
    + rewrite He. split; intros [? ?]; done.
  - destruct Ht as (-> & -> & He). split; [done|]. intros _. rewrite He. destruct ans as [e|]; cbn.
    + rewrite marked_error. naive_solver.
    + rewrite He. split; intros [? ?]; done.
  - destruct Ht as [Hle Ht]. split; [|done]. split; [done|]. destruct ans as [e|]; [|done].
    destruct (res_Error (bt_result t')) as [e'|] eqn:He'; [by rewrite He'; left; eexists|].
    left. rewrite marked_error. by eexists.
Qed.
Lemma ready_failed envs t reason d : bt_emittedRecords t ≤ length envs →
  res_Disposition (bt_result t) = DispositionNone ∨ res_Disposition (bt_result t) = DispositionFailed →
  is_Some (res_Error (bt_result t)) → ready envs (markBoundaryFailure t reason d).
Proof.
  unfold ready, gated, sync_boundary, markBoundaryFailure. simpl. intros Hle [E|E] He; rewrite !E; simpl; rewrite ?E; simpl; auto.
Qed.
Lemma fail_file_one log envs t reason e : bt_emittedRecords t ≤ length envs →
  res_Disposition (bt_result t) = DispositionNone →
  one_boundary log (fail_file r (log ++ (OnRecord <$> envs)) t reason e).
Proof.
  intros Hle Hd. unfold fail_file. apply emitBoundary_one, ready_failed.
  - unfold markFailed. by destruct (fr_app r).
  - unfold markFailed. destruct (fr_app r); simpl; auto.
  - rewrite marked_error. by eexists.
Qed.
Lemma fail_file_one_nil log t reason e : bt_emittedRecords t = 0 →
  res_Disposition (bt_result t) = DispositionNone → one_boundary log (fail_file r log t reason e).
Proof.
  intros H0 Hd. rewrite <- (app_nil_r log) at 2. apply (fail_file_one log []); [simpl; lia|done].
Qed.
Lemma emitBoundary_one_nil log t : ready [] t →
  one_boundary log (let '(l, t) := emitBoundary r log t in (l, bt_result t)).
Proof. intros H. rewrite <- (app_nil_r log) at 2. by apply (emitBoundary_one log []). Qed.

Lemma emit_log cfg log doc :
  match extractRecordsWithCountsAndRecordNumsToSink now ctx_err r cfg sink log doc with
  | (st, err) => ∃ envs, es_log st = log ++ (OnRecord <$> envs) ∧ es_emitted st ≤ length envs ∧
      (err = None → es_emitted st = length envs)
  end.
Proof.
  set (I := λ st, ∃ envs, es_log st = log ++ (OnRecord <$> envs) ∧ es_emitted st = length envs).
  set (J := λ st, ∃ envs, es_log st = log ++ (OnRecord <$> envs) ∧ es_emitted st ≤ length envs).
  assert (∀ st, I st → J st) as HIJ by (intros st (envs & ? & ?); exists envs; split; [done|lia]).
  assert (∀ st node, I st → match emit_node now ctx_err r cfg sink (doc_Format doc) st node with
                            | (st', None) => I st' | (st', Some _) => J st' end) as Hnode.
  { intros st node HI. unfold emit_node. destruct (ctx_err (es_num st)); [by apply HIJ|].
    destruct (extract_node _ _ _ _) as [[record|]|e]; [|done|by apply HIJ].
    destruct (EnrichRecordWithRecordNum _ _ _ _ _ _ _) as [env|e]; [|by apply HIJ].
    destruct HI as (envs & Hl & Hn). simpl; destruct (sink (es_log st) (OnRecord env)); unfold I, J; exists (envs ++ [env]); simpl;
      rewrite Hl, fmap_app, app_assoc, length_app; simpl; (split; [done|lia]). }
  assert (∀ st s, I st → match emit_selector now ctx_err r cfg sink doc st s with
                         | (st', None) => I st' | (st', Some _) => J st' end) as Hsel.
  { intros st s HI. unfold emit_selector. destruct (select doc s); [|by apply HIJ].
    by apply (run_until_inv _ I J _ Hnode). }
  unfold extractRecordsWithCountsAndRecordNumsToSink.
  assert (I {| es_log := log; es_num := 0; es_emitted := 0; es_counts := [] |}) as H0
    by (exists []; simpl; by rewrite app_nil_r).
  destruct (rejectExternalCollisionsWithInternalMappings _ _).
  - pose proof (run_until_inv _ I J (em_MatchSelectors cfg) Hsel _ H0) as H.
    destruct (run_until _ _ _) as [st [e|]]; destruct H as (envs & ? & ?); exists envs; split_and!; try done; lia.
  - exists []. simpl. rewrite app_nil_r. split_and!; [done|lia|done].
Qed.

Lemma extractParsed_one log t doc : bt_emittedRecords t = 0 → bt_disposition t = DispositionApplied →
  res_Disposition (bt_result t) = DispositionNone → res_Error (bt_result t) = None →
  one_boundary log (extractParsedDocument json_copy mentions now ctx_err r log t doc).
Proof.
  intros Hem Hbd Hd He. unfold extractParsedDocument.
  destruct (prepareExtractConfig _ _) as [cfg|e].
  2: { apply emitBoundary_one_nil, ready_failed; simpl; [lia|by left|by eexists]. }
  rewrite Hsink. pose proof (emit_log cfg log doc) as H.
  destruct (extractRecordsWithCountsAndRecordNumsToSink _ _ _ _ _ _ _) as [st [e|]]; destruct H as (envs & -> & Hle & Heq).
  - apply fail_file_one; [lia|by rewrite Hd].
  - apply emitBoundary_one. unfold ready, gated, sync_boundary, apply_disposition.
    destruct (fr_app r) eqn:Happ; simpl; rewrite ?Hd, ?Hbd; simpl; rewrite ?Hbd; split_and?; auto.
Qed.
Lemma ProcessParsedDocument_one log doc :
  one_boundary log (ProcessParsedDocument RecordDocument json_copy mentions now ctx_err r log doc).
Proof.
  unfold ProcessParsedDocument. destruct (match fr_app r with Some _ => _ | None => _ end) as [[]|e] eqn:Ea.
  - clear Ea. case_match.
    + destruct (matchesSignaturePerRecord _ _ _ _) as [[status conf] [e|]].
      * apply emitBoundary_one_nil. unfold ready, gated. simpl. split; [done|]. split; [done|]. left. by eexists.
      * by apply extractParsed_one.
    + destruct (matchesSignature _ _) as [[[] conf]|e]; [by apply extractParsed_one| |by apply fail_file_one_nil].
      apply emitBoundary_one_nil. unfold ready, gated, sync_boundary. destruct (fr_app r); simpl; auto.
  - apply emitBoundary_one_nil. unfold ready, gated, sync_boundary. simpl. split; [by destruct (fr_app r)|auto].
  - by apply fail_file_one_nil.
Qed.

(** *** The streaming route *)
Section stream_boundary.
Context (Happ : fr_app r = None).
Lemma stream_finish_one log envs emitted res count failure : res_Error res = None → res_Disposition res = DispositionNone →
  emitted ≤ length envs → (failure = None → emitted = length envs) →
  one_boundary log (stream_finish r sink (log ++ (OnRecord <$> envs)) emitted res count failure).
Proof.
  intros He Hd Hle Heq. unfold stream_finish.
  set (res1 := match failure with Some (_, e) => set_error res e | None => res end).
  set (res2 := match count with Some n => _ | None => res1 end).
  assert (res_Error res2 = snd <$> failure ∧ res_Disposition res2 = DispositionNone) as [H2 Hd2].
  { unfold res2, res1. destruct count, failure as [[reason e]|]; done. }
  rewrite H2. set (s := {| fe_SourceFile := _ |}).
  exists envs, s. split; [by rewrite <- app_assoc|]. split; [done|]. split; [done|]. cbn [snd].
  match goal with |- ?X ∧ ?Y ∧ ?Z => enough (X ∧ Y) as [HX HY] end.
  { split; [exact HX|]. split; [exact HY|]. replace (res_Disposition _) with DispositionNone; [by left|].
    destruct (sink _ _), (snd <$> failure); simpl; by rewrite Hd2. }
  destruct failure as [[reason e]|]; cbn.
  - split; [|done]. split; [done|]. left. destruct (sink _ _); rewrite H2; by eexists.
  - split; [by apply Heq|]. intros _. destruct (sink _ _); simpl; rewrite ?H2; simpl; naive_solver.
Qed.
Lemma stream_finish_one_nil log res count failure : res_Error res = None → res_Disposition res = DispositionNone →
  one_boundary log (stream_finish r sink log 0 res count failure).
Proof.
  intros He Hd. pose proof (stream_finish_one log [] 0 res count failure He Hd) as H.
  cbn [fmap list_fmap] in H. rewrite app_nil_r in H. by apply H.
Qed.

Definition streamed (log : list event) (st : streaming) : Prop :=
  ∃ envs, sm_log st = log ++ (OnRecord <$> envs) ∧ sm_emitted st = length envs.
Definition stopped (log : list event) (st : streaming) : Prop :=
  ∃ envs, sm_log st = log ++ (OnRecord <$> envs) ∧ sm_emitted st ≤ length envs.
Lemma streamed_stopped log st : streamed log st → stopped log st.
Proof. intros (envs & ? & ?). exists envs. split; [done|lia]. Qed.
Lemma score_keeps num st doc : sm_log (score_streamed r num st doc).1 = sm_log st ∧
  sm_emitted (score_streamed r num st doc).1 = sm_emitted st.
Proof. unfold score_streamed. by destruct (matchesSignature _ _) as [[[] ?]|]. Qed.
Lemma stream_record_log log cfg format st rec : streamed log st →
  match stream_record now r cfg sink format st rec with
  | (st', None) => streamed log st'
  | (st', Some _) => stopped log st'
  end.
Proof.
  intros Hst. unfold stream_record.
  set (st0 := {| sm_log := sm_log st; sm_emitted := sm_emitted st; sm_scored := _ |}).
  assert (streamed log st0) as H0 by exact Hst.
  destruct (ParseRecord _ _) as [doc|e]; [|by apply streamed_stopped].
  assert (streamed log (if format =s? FormatXML then (st0, None) else score_streamed r (rc_Num rec.1) st0 doc).1) as H1.
  { destruct (format =s? FormatXML); [done|]. destruct (score_keeps (rc_Num rec.1) st0 doc) as [Hl Hn].
    unfold streamed. by rewrite Hl, Hn. }
  destruct (if format =s? FormatXML then _ else _) as [st1 [e|]]; [by apply streamed_stopped|]. simpl in H1.
  destruct (extractRecords _ _ _) as [records|e]; [|by apply streamed_stopped].
  destruct (enrichRecordsWithRecordNums _ _ _ _ _ _) as [envs|e]; [|by apply streamed_stopped].
  apply run_until_inv; [|done]. intros st2 env (es & Hl & Hn). unfold emit_streamed.
  destruct (sink _ _); exists (es ++ [env]); simpl; rewrite Hl, fmap_app, app_assoc, length_app; simpl; (split; [done|lia]).
Qed.
Lemma stream_records_log log cfg format s :
  match stream_records now r cfg sink format s log with
  | (st, err) => ∃ envs, sm_log st = log ++ (OnRecord <$> envs) ∧ sm_emitted st ≤ length envs ∧
      (err = None → sm_emitted st = length envs)
  end.
Proof.
  unfold stream_records. set (st0 := {| sm_log := log; sm_emitted := 0; sm_scored := _ |}).
  assert (streamed log st0) as H0 by (exists []; simpl; by rewrite app_nil_r).
  pose proof (run_until_inv _ (streamed log) (stopped log) (sn_records s)
    (λ st rec, stream_record_log log cfg format st rec) st0 H0) as H.
  destruct (run_until _ _ _) as [st [e|]]; destruct H as (envs & Hl & Hn).
  - exists envs. by split_and!.
  - destruct (sn_stop s); exists envs; simpl; split_and!; (done || lia).
Qed.
Lemma stream_one log : one_boundary log (ProcessFileStreamingToSink now r log).
Proof.
  unfold ProcessFileStreamingToSink. rewrite Hsink.
  destruct (stream_prepare r) as [[[selector cfg] format]|failure]; [|by apply stream_finish_one_nil].
  destruct (stream_open _ _ _) as [s|e]; [|by apply stream_finish_one_nil].
  pose proof (stream_records_log log cfg format s) as H.
  destruct (stream_records _ _ _ _ _ _ _) as [st failure]. destruct H as (envs & -> & Hle & Heq).
  by apply stream_finish_one.
Qed.
End stream_boundary.

(** C17: processing a file with a sink, on any route, with any sink and any
    cancellation, makes some [OnRecord] calls and then exactly one boundary
    call, for this file and record type. A boundary that says applied counts
    every record sent; not applicable means none was sent; failed comes with an
    error or a signature mismatch in the result and counts no more than was
    sent - how many of them depends on the route. When the boundary is not failed
    the result has an error exactly when the sink refused the boundary. A result
    that says applied or not applicable has the boundary's disposition; one that
    says failed comes with a failed or a refused boundary; one that says nothing
    has no applicability gate or a failed boundary. *)
Theorem processFile_one_boundary allowLargeFiles threshold log :
  one_boundary log (processFileWithProvenance now ctx_err r allowLargeFiles threshold log).
Proof.
  unfold processFileWithProvenance. rewrite Hsink. destruct (choose_route _ _ _) as [| |e].
  - destruct (fr_app r) eqn:Happ; [by apply fail_file_one_nil|by apply stream_one].
  - destruct (readFileContent _ _) as [content|e]; [|by apply fail_file_one_nil].
    destruct (inputFormat _) as [format|e]; [|by apply fail_file_one_nil].
    destruct (Parse _ _) as [doc|e]; [|by apply fail_file_one_nil]. apply ProcessParsedDocument_one.
  - by apply fail_file_one_nil.
Qed.
End boundary.

(** ** What the streaming route delivers *)
Section stream.
Context `{UC : UnicodeCase, EN : Engine, IN : !Inputs}.
Context (now : Z) (r : file_run) (sink : RecordSink) (Hsink : fr_sink r = Some sink) (Hw : willing sink).
Implicit Types (st : streaming) (log : list event) (rec : record * nat).

(** The envelopes of one scanned record; an error when the record cannot be
    parsed, is not admitted, or cannot be extracted or enriched. *)
Definition record_envelopes (cfg : ExtractRecordMatch) (format : string) (rec : record) : result (list Envelope) :=
  doc ← ParseRecord format rec;
  m ← (if format =s? FormatXML then Ok (true, fzero) else matchesSignature (doc_Root doc) (fr_sig r));
  if (m : bool * f64).1 then
    records ← extractRecords doc cfg (fr_ext r);
    enrichRecordsWithRecordNums now ((λ d, {| er_data := d; er_recordNum := rc_Num rec |}) <$> (records : list vmap))
      (fr_path r) (sig_names (fr_sig r)) cfg (fr_opts r)
  else errorf "not admitted" [].

Lemma run_emit num envs : ∀ st, ∃ st', run_until (emit_streamed r sink num) st envs = (st', None) ∧
  sm_log st' = sm_log st ++ (OnRecord <$> envs) ∧ sm_count st' = sm_count st ∧ sm_scored st' = sm_scored st ∧
  sm_status st' = sm_status st ∧ sm_min st' = sm_min st ∧ sm_confidence st' = sm_confidence st.
Proof.
  induction envs as [|env envs IH]; intros st; simpl; [exists st; by rewrite app_nil_r|].
  unfold emit_streamed at 1. rewrite Hw.
  edestruct IH as (st' & -> & Hl & Hrest). exists st'. split; [done|]. split; [|exact Hrest].
  rewrite Hl. simpl. by rewrite <- app_assoc.
Qed.
Lemma stream_record_spec cfg format st rec :
  match stream_record now r cfg sink format st rec, record_envelopes cfg format rec.1 with
  | (st', None), Ok envs =>
      sm_log st' = sm_log st ++ (OnRecord <$> envs) ∧ sm_count st' = rec.2 ∧ sm_status st' = sm_status st ∧
      sm_scored st' = (if format =s? FormatXML then sm_scored st else S (sm_scored st))
  | (st', Some _), Err _ => sm_log st' = sm_log st ∧ sm_count st' = rec.2
  | _, _ => False
  end.
Proof.
  unfold stream_record, record_envelopes. destruct (ParseRecord _ _) as [doc|e]; simpl; [|done].
  destruct (format =s? FormatXML); simpl.
  - destruct (extractRecords _ _ _) as [records|e]; simpl; [|done].
    destruct (enrichRecordsWithRecordNums _ _ _ _ _ _) as [envs|e]; simpl; [|done].
    edestruct run_emit as (st' & -> & Hl & Hc & Hs & Ht & _). by rewrite Hl, Hc, Hs, Ht.
  - unfold score_streamed. destruct (matchesSignature _ _) as [[[] conf]|e]; simpl; [|done|done].
    destruct (extractRecords _ _ _) as [records|e]; simpl; [|done].
    destruct (enrichRecordsWithRecordNums _ _ _ _ _ _) as [envs|e]; simpl; [|done].
    edestruct run_emit as (st' & -> & Hl & Hc & Hs & Ht & _). by rewrite Hl, Hc, Hs, Ht.
Qed.

(** The records before number [k] are delivered, and the one at [k], when there
    is one, cannot be. *)
Definition delivered_prefix (cfg : ExtractRecordMatch) (format : string) (recs : list (record * nat)) (k : nat)
    (envs : list Envelope) : Prop :=
  k ≤ length recs ∧
  (∃ envss, mapR (λ rec, record_envelopes cfg format rec.1) (take k recs) = Ok envss ∧ envs = concat envss) ∧
  (∀ rec, recs !! k = Some rec → is_ok (record_envelopes cfg format rec.1) = false).

Lemma stream_run cfg format recs : ∀ st, ∃ k envs,
  delivered_prefix cfg format recs k envs ∧
  match run_until (stream_record now r cfg sink format) st recs with
  | (st', err) =>
      sm_log st' = sm_log st ++ (OnRecord <$> envs) ∧ (err = None ↔ k = length recs) ∧
      (err = None → sm_status st' = sm_status st ∧
        sm_scored st' = (if format =s? FormatXML then sm_scored st else sm_scored st + length recs)) ∧
      (∀ rec, recs !! k = Some rec → sm_count st' = rec.2)
  end.
Proof.
  induction recs as [|rec recs IH]; intros st; cbn [run_until].
  { exists 0, []. split; [split_and!; [done|by exists []|done]|].
    split_and!; [by rewrite app_nil_r|done| |done]. intros _. split; [done|]. simpl. case_match; [done|]. by rewrite Nat.add_0_r. }
  pose proof (stream_record_spec cfg format st rec) as H.
  destruct (stream_record _ _ _ _ _ _ _) as [st1 [e|]], (record_envelopes _ _ _) as [envs1|e1] eqn:Hrec; try done.
  - exists 0, []. split; [split_and!; [lia|by exists []|]|].
    + intros rec' [= <-]. by rewrite Hrec.
    + destruct H as [Hl Hc]. split_and!; [by rewrite app_nil_r|by split|done|]. by intros rec' [= <-].
  - destruct H as (Hl & Hc & Ht & Hs). destruct (IH st1) as (k & envs & (Hk & (envss & Hm & ->) & Hbad) & Hrun).
    exists (S k), (envs1 ++ concat envss).
    split; [split_and!; [simpl; lia| |done]|].
    + exists (envs1 :: envss). split; [|done]. simpl. rewrite Hrec. simpl. by rewrite Hm.
    + destruct (run_until _ _ _) as [st2 err]. destruct Hrun as (Hl2 & Herr & Hok & Hcnt).
      split_and!; [by rewrite Hl2, Hl, fmap_app, app_assoc|simpl; rewrite Herr; lia| |done].
      intros He. destruct (Hok He) as [-> ->]. rewrite Ht, Hs. split; [done|]. simpl. case_match; [done|lia].
Qed.

(** C19: over what the scanner answers, and with a sink that takes every record,
    the streaming route delivers exactly the envelopes of the records before
    the first one it cannot parse, admit, extract or enrich, in order. It ends
    without an error exactly when there is no such record and the scanner
    reached its end; then the count is the scanner's and a signature scored on
    at least one record is matched. When a record stops it, the count is the
    scanner's at that record. *)
Theorem streaming_delivers selector cfg format s :
  stream_prepare r = Ok (selector, cfg, format) → stream_open r selector format = Ok s →
  ∃ k envs, delivered_prefix cfg format (sn_records s) k envs ∧
    let x := ProcessFileStreamingToSink now r [] in
    collected x.1 = envs ∧
    (res_Error x.2 = None ↔ k = length (sn_records s) ∧ sn_stop s = None) ∧
    (res_Error x.2 = None →
       res_PerSelectorCounts x.2 = Some [sn_count s] ∧
       res_SignatureMatchStatus x.2 =
         if (format =s? FormatXML) || (length (sn_records s) =? 0) then SignatureMatchUnknown else SignatureMatchMatched) ∧
    (∀ rec, sn_records s !! k = Some rec → res_PerSelectorCounts x.2 = Some [rec.2]).
Proof.
  intros Hp Ho. unfold ProcessFileStreamingToSink. rewrite Hsink, Hp, Ho. unfold stream_records.
  set (st0 := {| sm_log := []; sm_emitted := 0; sm_scored := 0; sm_min := fzero;
                 sm_status := SignatureMatchUnknown; sm_confidence := fzero; sm_count := 0 |}).
  destruct (stream_run cfg format (sn_records s) st0) as (k & envs & Hd & H). exists k, envs. split; [done|].
  destruct (run_until _ _ _) as [st err]. destruct H as (Hl & Herr & Hok & Hcnt). destruct Hd as (Hk & _ & _).
  assert (∀ log emitted res count failure, let x := stream_finish r sink log emitted res (Some count) failure in
    res_Error res = None → collected x.1 = collected log ∧ res_Error x.2 = snd <$> failure ∧
    res_PerSelectorCounts x.2 = Some [count] ∧ res_SignatureMatchStatus x.2 = res_SignatureMatchStatus res) as Hfin.
  { intros log emitted res count failure. cbv zeta. intros Hres. unfold stream_finish. rewrite Hw. cbn [fst snd].
    rewrite collected_app, app_nil_r. by destruct failure as [[reason e]|]. }
  destruct err as [e|].
  - edestruct Hfin as (Hc & He & Hn & Hs); [|cbn zeta; rewrite Hc, He, Hn, Hl]; [done|].
    rewrite app_nil_l, collected_records. cbn. split_and!; [done| |done|].
    + split; [done|]. intros [Hlen _]. by apply Herr in Hlen.
    + intros rec Hrec. by rewrite (Hcnt rec Hrec).
  - assert (k = length (sn_records s)) as Hlen by by apply Herr.
    destruct (Hok eq_refl) as [Ht Hsc]. cbn in Ht, Hsc.
    destruct (sn_stop s) as [e|]; (edestruct Hfin as (Hc & He & Hn & Hs); [|cbn zeta; rewrite Hc, He, Hn, Hs]; [done|]);
      cbn; rewrite Hl; cbn; rewrite collected_records; (split_and!; [done|naive_solver| |]);
      try (by intros ? ?%lookup_lt_Some; lia); [done|].
    intros _. split; [done|]. rewrite Hsc, Ht. destruct (format =s? FormatXML); simpl; [done|].
    by destruct (sn_records s).
Qed.

(** *** Scoring record by record and over the whole document *)
Lemma score_total node node' sig : (score_patterns node sig).2 = (score_patterns node' sig).2.
Proof.
  unfold score_patterns. assert (∀ x x' : f64 * f64, x.2 = x'.2 →
    (foldl (λ a p, (if matchesPattern node p (fg_Namespaces sig) then fadd a.1 (mp_Weight p) else a.1,
                     fadd a.2 (mp_Weight p))) x (fg_MatchPatterns sig)).2 =
    (foldl (λ a p, (if matchesPattern node' p (fg_Namespaces sig) then fadd a.1 (mp_Weight p) else a.1,
                     fadd a.2 (mp_Weight p))) x' (fg_MatchPatterns sig)).2) as H; [|by apply H].
  induction (fg_MatchPatterns sig) as [|p ps IH]; intros x x' Hx; simpl; [done|]. apply IH. simpl. by rewrite Hx.
Qed.
(** Whether a signature can be scored does not depend on the document. *)
Lemma matchesSignature_err node node' sig e : matchesSignature node sig = Err e → matchesSignature node' sig = Err e.
Proof.
  unfold matchesSignature. rewrite (surjective_pairing (score_patterns node sig)),
    (surjective_pairing (score_patterns node' sig)), (score_total node' node). by destruct (feqb _ _).
Qed.

(** Extraction and enrichment of a record cannot fail. *)
Definition extracts (cfg : ExtractRecordMatch) (format : string) rec : Prop := ∀ doc, ParseRecord format rec.1 = Ok doc →
  is_ok (records ← extractRecords doc cfg (fr_ext r);
         enrichRecordsWithRecordNums now ((λ d, {| er_data := d; er_recordNum := rc_Num rec.1 |}) <$> (records : list vmap))
           (fr_path r) (sig_names (fr_sig r)) cfg (fr_opts r)) = true.

Lemma scores_agree cfg format nodes : format ≠ FormatXML → ∀ recs i st,
  Forall2 (λ n rec, ∃ doc, RecordDocument n = Ok doc ∧ ParseRecord format rec.1 = Ok doc) nodes recs →
  (∀ j rec, recs !! j = Some rec → rc_Num rec.1 = S (i + j)) → Forall (extracts cfg format) recs →
  sm_scored st = i → sm_status st = SignatureMatchUnknown → sm_confidence st = sm_min st →
  (i = 0 → sm_min st = fzero) → (0 < i → ∃ n v, matchesSignature n (fr_sig r) = Ok v) →
  match run_until (stream_record now r cfg sink format) st recs, score_records RecordDocument (fr_sig r) i (sm_min st) nodes with
  | (st', err), (status, conf, serr) =>
      snd <$> err = serr ∧ sm_confidence st' = conf ∧
      status = (if err then sm_status st' else SignatureMatchMatched) ∧
      (err = None → sm_status st' = SignatureMatchUnknown ∧ sm_scored st' = i + length recs)
  end.
Proof.
  intros Hx recs. revert nodes. induction recs as [|rec recs IH]; intros nodes i st Hdocs Hnum Hex Hi Hst Hconf H0 Hpos.
  { inversion Hdocs; subst. cbn. split_and!; done. }
  inversion Hdocs as [|n ? nodes' ? (doc & Hdoc & Hparse) Hdocs']; subst. cbn [run_until score_records].
  apply Forall_cons in Hex as [Hrec Hex]. specialize (Hrec doc Hparse).
  pose proof (Hnum 0 rec eq_refl) as Hn. rewrite Nat.add_0_r in Hn.
  unfold stream_record at 1. rewrite Hdoc, Hparse, (proj2 (String.eqb_neq _ _) Hx). unfold score_streamed.
  destruct (matchesSignature (doc_Root doc) (fr_sig r)) as [[[] conf]|e] eqn:Hm; cbn [sm_scored sm_min].
  - destruct (extractRecords _ _ _) as [records|e]; [|done]. cbn in Hrec.
    destruct (enrichRecordsWithRecordNums _ _ _ _ _ _) as [envs|e]; [|done].
    edestruct run_emit as (st1 & -> & Hl & Hc & Hs & Ht & Hmin & Hcf). cbn in Hl, Hc, Hs, Ht, Hmin, Hcf.
    rewrite <- Hmin. specialize (IH nodes' (S (sm_scored st)) st1 Hdocs').
    destruct (run_until _ _ _) as [st2 err]. cbn [length]. rewrite Nat.add_succ_r. rewrite Nat.add_succ_l in IH.
    destruct (score_records _ _ _ _ _) as [[status c] serr].
    apply IH; try done; [|by rewrite Ht|by rewrite Hcf, Hmin|intros _; by eexists _, _].
    intros j rec' Hj. rewrite (Hnum (S j) rec' Hj). lia.
  - cbn. by rewrite Hn.
  - cbn. destruct (decide (sm_scored st = 0)) as [E|E].
    + rewrite Hconf, H0 by done. by rewrite Hst.
    + destruct Hpos as (n' & v & Hv); [lia|]. by rewrite (matchesSignature_err _ n' _ _ Hm) in Hv.
Qed.

(** C24: for a record-scoped signature the whole-document route scores exactly
    as the streaming route: when the scanner ends normally, its records parse
    to the record documents of the nodes the selector picks, numbered from one,
    and extraction and enrichment of a record do not fail, both give the same status, the
    same lowest confidence and the same error. *)
Theorem record_scope_agrees doc cfg ms nodes s log :
  em_MatchSelectors (fr_cfg r) = [ms] → doc_Format doc ≠ FormatXML →
  evaluateNodeSet (doc_Root doc) None (ms_XPath ms) = Ok nodes →
  Forall2 (λ n rec, ∃ d, RecordDocument n = Ok d ∧ ParseRecord (doc_Format doc) rec.1 = Ok d) nodes (sn_records s) →
  (∀ i rec, sn_records s !! i = Some rec → rc_Num rec.1 = S i) →
  Forall (extracts cfg (doc_Format doc)) (sn_records s) → sn_stop s = None →
  let '(st, failure) := stream_records now r cfg sink (doc_Format doc) s log in
  matchesSignaturePerRecord RecordDocument doc (fr_sig r) (fr_cfg r) = (sm_status st, sm_confidence st, snd <$> failure).
Proof.
  intros Hms Hx Hnodes Hdocs Hnum Hex Hstop. unfold stream_records, matchesSignaturePerRecord.
  rewrite Hms, Hnodes, (proj2 (String.eqb_neq _ _) Hx), Hstop.
  set (st0 := {| sm_log := log; sm_emitted := 0; sm_scored := 0; sm_min := fzero;
                 sm_status := SignatureMatchUnknown; sm_confidence := fzero; sm_count := 0 |}).
  pose proof (scores_agree cfg (doc_Format doc) nodes Hx (sn_records s) 0 st0 Hdocs Hnum Hex eq_refl eq_refl eq_refl (λ _, eq_refl)) as H.
  specialize (H ltac:(lia)). change (sm_min st0) with fzero in H.
  destruct nodes as [|n nodes].
  { inversion Hdocs as [Heq|]. by destruct (sn_records s). }
  destruct (run_until _ _ _) as [st err], (score_records _ _ _ _ _) as [[status conf] serr].
  destruct H as (Herr & Hconf & Hstatus & Hok). rewrite Hstatus. destruct err as [e|].
  - by rewrite Hconf, <- Herr.
  - destruct (Hok eq_refl) as [_ Hs]. rewrite Hs. apply Forall2_length in Hdocs. rewrite <- Hdocs. cbn.
    by rewrite Hconf, <- Herr.
Qed.
End stream.
