(* ===== verification/ExtractSample.v ===== *)
(** * A concrete engine, and extraction on it

    Trees of named nodes, child paths and [//name] as expressions: enough to run
    the model and to show that the hypotheses of the theorems on extraction can
    hold together. *)
From Stdlib Require Import Ascii ZArith Lia SpecFloat.
From stdpp Require Import base list strings sets.
From S2P Require Import Prelude GoStrings GoFloat GoStrconv GoUtf8 GoValue DslTypes GoJson JsonScan Transforms Extract ExtractSpec ExtractPrepare ExtractPrepareSpec ExtractFile ExtractStream ExtractFileSpec.

Inductive snode := SNode (name text : string) (children : list snode).
Definition s_name (n : snode) : string := match n with SNode s _ _ => s end.
Definition s_children (n : snode) : list snode := match n with SNode _ _ l => l end.
Fixpoint s_text (n : snode) : string := match n with SNode _ t l => t +:+ sjoin "" (map s_text l) end.
Fixpoint s_all (n : snode) : list snode := n :: match n with SNode _ _ l => mjoin (map s_all l) end.
Definition s_is (step : string) (n : snode) : bool := (step =s? "*") || (step =s? s_name n).
Definition s_path (x : string) (n : snode) : list snode :=
  if has_prefix "//" x then List.filter (s_is (sdrop 2 x)) (s_all n)
  else foldl (λ ns step, if step =s? "" then ns else mjoin ((λ n, List.filter (s_is step) (s_children n)) <$> ns))
         [n] (ssplit_byte "/"%char x).

#[export] Instance sample_case : UnicodeCase := ascii_case.
#[export] Instance sample_engine : Engine := {|
  dnode := snode; local_name := s_name; node_text := s_text; child_elements := s_children;
  xpos := snode; node_of := Some; pos_value := s_text; pos_is_null := λ _, false;
  xexpr := string; xpath_Compile := Ok; xpath_CompileWithNS x _ := Ok x;
  xpath_Evaluate x n := XNodes (s_path x n);
  validator := unit; NewValidator := λ _, Ok (); Validate_ := λ _ _, Ok [];
  title_case := id; fold_equal := Z.eqb; float_overflow := λ _, 0%Z; rfc3339 := λ _, "2026-01-01T00:00:00Z";
  totals_order := id |}.

Definition order (num total : string) : snode := SNode "order" "" [SNode "id" num []; SNode "total" total []].
Definition feed : snode := SNode "" "" [SNode "feed" "" [order "7" "1.5"; order "8" "2.5"]].
Definition feed_doc (format : string) : Document := {| doc_Root := feed; doc_Format := format |}.
Definition mapping (field xpath type : string) (internal : bool) : FieldMapping :=
  mkFieldMapping field xpath "" type "" [] internal [] [] None.
Definition orders : ExtractRecordMatch := {|
  em_RecordType := "order"; em_Namespaces := [];
  em_MatchSelectors := [{| ms_XPath := "//order"; ms_MinOccurrences := 0; ms_CompiledXPath := None |}];
  em_OutputSchema := []; em_FieldMappings := [mapping "num" "id" "integer" false; mapping "secret" "total" "number" true];
  em_Filters := []; em_ValidationMetadata := None; em_OutputOptions := None; em_Summaries := [];
  em_UniformSchema := false; em_OutputValidator := None; em_ReferenceTables := None |}.
Definition order_sig : FileSignature := {|
  fg_SignatureID := "orders"; fg_Name := "orders"; fg_Namespaces := [];
  fg_MatchPatterns := [{| mp_PatternID := "p"; mp_Selector := "//order"; mp_Weight := f_of_Z 1 |}];
  fg_ConfidenceThreshold := f_of_Z 1; fg_FormatType := "json"; fg_MatchScope := "record" |}.

Lemma extractValue_conforms_witness :
  extractValue FormatXML (mapping "num" "id" "integer" false) (order "7" "1.5") = Ok (VInt KInt64 7) ∧
  conforms (mapping "num" "id" "integer" false) (VInt KInt64 7).
Proof.
  split; [by vm_compute|].
  apply (extractValue_conforms ltac:(intros f; split; by vm_compute) FormatXML _ (order "7" "1.5")). by vm_compute.
Defined.
Lemma extract_orders : extractRecordsWithCountsAndRecordNums (feed_doc FormatXML) orders [] =
  Ok ([{| er_data := [("num", VInt KInt64 7)]; er_recordNum := 1 |};
       {| er_data := [("num", VInt KInt64 8)]; er_recordNum := 2 |}], [2]).
Proof. by vm_compute. Qed.
Lemma buildProjectedRecord_spec_witness :
  let ext := [("batch", Plain (VString "a")); ("key", InternalField (VString "k"))] in
  buildProjectedRecord FormatXML (order "7" "1.5") orders ext =
    Ok [("num", VInt KInt64 7); ("batch", VString "a")] ∧
  NoDup (mkeys [("num", VInt KInt64 7); ("batch", VString "a")]).
Proof.
  split; [by vm_compute|].
  eapply (buildProjectedRecord_spec (EN := sample_engine) FormatXML (order "7" "1.5") orders
    [("batch", Plain (VString "a")); ("key", InternalField (VString "k"))]).
  - apply (bool_decide_unpack _). by vm_compute.
  - by vm_compute.
Defined.

Definition no_options : RuntimeOptions := {|
  ro_RunID := ""; ro_SumpterVersion := ""; ro_RecipeVersion := ""; ro_RecipeContentHash := "";
  ro_InputOrdinal := 0; ro_InputSHA256 := ""; ro_SourceURI := ""; ro_DiagnosticLabel := "" |}.
Lemma EnrichRecord_spec_witness :
  ∃ e, EnrichRecordWithRecordNum 0 [("num", VInt KInt64 7)] "in.xml" None orders no_options 1 = Ok e ∧
    en_data e = [("num", VInt KInt64 7)] ∧ mget "record_num" (en_runtime e) = Some (VInt KInt 1).
Proof.
  eexists. split; [by vm_compute|].
  edestruct (EnrichRecord_spec 0 [("num", VInt KInt64 7)] "in.xml" None orders no_options 1) as (Hd & _ & _ & _ & _ & Hn & _);
    [by vm_compute|]. split; [exact Hd|exact Hn].
Defined.

Lemma ResolveInputFormat_spec_witness :
  ResolveInputFormat "json" true order_sig (Some orders) None = Ok ("json", order_sig) ∧
  ∀ x, x ∈ config_xpaths order_sig (Some orders) None → at_positions None 0 x = [].
Proof.
  assert (ResolveInputFormat "json" true order_sig (Some orders) None = Ok ("json", order_sig)) as H by by vm_compute.
  split; [exact H|].
  destruct (ResolveInputFormat_spec "json" true order_sig (Some orders) None "json" order_sig H) as (_ & _ & _ & _ & _ & Hx & _).
  by apply Hx.
Defined.

Definition prepared : ExtractRecordMatch :=
  match prepareExtractConfig Ok orders with Ok c => c | Err _ => orders end.
Lemma prepare_stable_witness :
  prepareExtractConfig Ok orders = Ok prepared ∧ prepareExtractConfig Ok prepared = Ok prepared ∧ prepared ≠ orders.
Proof.
  assert (prepareExtractConfig Ok orders = Ok prepared) as H by by vm_compute.
  split; [exact H|]. split; [|by vm_compute]. by apply (prepare_stable Ok orders prepared H).
Defined.

Lemma internal_never_emitted_witness :
  extractRecordsWithCountsAndRecordNums (feed_doc FormatXML) orders [] =
  Ok ([{| er_data := [("num", VInt KInt64 7)]; er_recordNum := 1 |};
       {| er_data := [("num", VInt KInt64 8)]; er_recordNum := 2 |}], [2]) ∧
  "secret" ∉ mkeys [("num", VInt KInt64 7)].
Proof.
  split; [by vm_compute|].
  eapply (internal_never_emitted orders (feed_doc FormatXML) [] _ [2]
    {| er_data := [("num", VInt KInt64 7)]; er_recordNum := 1 |} "secret").
  - by vm_compute.
  - constructor.
  - apply extract_orders.
  - apply list_elem_of_here.
  - apply list_elem_of_here.
Defined.

(** ** Files *)
Definition sample_record (num : nat) : record := {|
  rc_Raw := Some (if (num =? 1)%nat then "7" else "8"); rc_Num := num; rc_StartOffset := 0; rc_EndOffset := 0;
  rc_SizeBytes := 0; rc_Name := "order"; rc_Depth := 0 |}.
Definition sample_scan : scanned := {|
  sn_records := [(sample_record 1, 1); (sample_record 2, 2)]; sn_stop := None; sn_count := 2 |}.
Definition record_doc (n : snode) : Document := {| doc_Root := SNode "" "" [n]; doc_Format := "json" |}.
#[export] Instance sample_inputs : Inputs := {|
  stat_size := λ _, Ok 100%Z; read_file := λ _, Ok "<feed/>"; gunzip := λ _, None;
  stream := unit; open_file := λ _, Ok (); gzip_stream := λ _, Ok ();
  Parse format _ := Ok (feed_doc format);
  ParseRecord _ rec := match s_path "//order" feed !! pred (rc_Num rec) with
                       | Some n => Ok (record_doc n)
                       | None => errorf "no record" []
                       end;
  NewScanner := λ _ _ _, Ok sample_scan; RecordDocument n := Ok (record_doc n);
  json_copy := Ok; mentions := λ _ _, false |}.
Definition accept : RecordSink := λ _ _, None.
Definition order_run : file_run := {|
  fr_path := "orders.json"; fr_sig := order_sig; fr_cfg := orders; fr_app := None; fr_ext := [];
  fr_opts := no_options; fr_sink := Some accept |}.

Lemma ProcessParsedDocument_sink_witness :
  willing accept ∧
  with_and_without order_run
    (λ r, ProcessParsedDocument RecordDocument json_copy mentions 0 never r [] (feed_doc "json")) accept ∧
  length (res_Records (ProcessParsedDocument RecordDocument json_copy mentions 0 never (with_sink order_run None) []
            (feed_doc "json")).2) = 2.
Proof.
  split; [done|]. split; [by apply (ProcessParsedDocument_sink 0 order_run (feed_doc "json") accept)|by vm_compute].
Defined.
Lemma processFile_one_boundary_witness :
  fr_sink order_run = Some accept ∧
  one_boundary order_run accept [] (processFileWithProvenance 0 never order_run true 0 []) ∧
  length (processFileWithProvenance 0 never order_run true 0 []).1 = 3.
Proof.
  split; [done|]. split; [by apply (processFile_one_boundary 0 never order_run accept eq_refl)|by vm_compute].
Defined.

Definition streaming_cfg : ExtractRecordMatch :=
  match prepareExtractConfig Ok (cloneExtractConfigForStreaming orders) with Ok c => c | Err _ => orders end.
Lemma streaming_delivers_witness :
  stream_prepare order_run = Ok ("//order", streaming_cfg, "json") ∧ stream_open order_run "//order" "json" = Ok sample_scan ∧
  (∃ k envs, delivered_prefix 0 order_run streaming_cfg "json" (sn_records sample_scan) k envs) ∧
  res_Error (ProcessFileStreamingToSink 0 order_run []).2 = None ∧
  en_data <$> collected (ProcessFileStreamingToSink 0 order_run []).1 = [[("num", VInt KInt64 7)]; [("num", VInt KInt64 8)]].
Proof.
  split; [by vm_compute|]. split; [by vm_compute|]. split; [|by vm_compute].
  destruct (streaming_delivers 0 order_run accept eq_refl ltac:(done) "//order" streaming_cfg "json" sample_scan)
    as (k & envs & H & _); [by vm_compute|by vm_compute|]. by exists k, envs.
Defined.
Lemma record_scope_agrees_witness :
  let '(st, failure) := stream_records 0 order_run streaming_cfg accept "json" sample_scan [] in
  matchesSignaturePerRecord RecordDocument (feed_doc "json") order_sig orders =
    (sm_status st, sm_confidence st, snd <$> failure) ∧ sm_status st = SignatureMatchMatched.
Proof.
  pose proof (record_scope_agrees 0 order_run accept ltac:(done) (feed_doc "json") streaming_cfg
    {| ms_XPath := "//order"; ms_MinOccurrences := 0; ms_CompiledXPath := None |}
    [order "7" "1.5"; order "8" "2.5"] sample_scan []) as H.
  destruct (stream_records _ _ _ _ _ _ _) as [st failure] eqn:E. split.
  - apply H; try done.
    + constructor; [by eexists|]. constructor; [by eexists|constructor].
    + intros [|[|i]] rec Hrec; by inversion Hrec.
    + constructor; [|constructor; [|constructor]]; intros doc [= <-]; by vm_compute.
  - vm_compute in E. by injection E as <- _.
Defined.

(** ** Two routes, two counts

    When the sink refuses the second record, the boundary of the whole-document
    route counts nothing, and that of the streaming route the record that was
    taken. *)
Definition refuse_second : RecordSink := λ log _, match log with [_] => Some (Errorf "full" []) | _ => None end.
Definition boundary_counts (log : list event) : list nat :=
  omap (λ ev, match ev with OnFileBoundary s => Some (fe_RecordCount s) | OnRecord _ => None end) log.
Example failed_boundary_count_depends_on_route :
  let r := with_sink order_run (Some refuse_second) in
  boundary_counts (processFileWithProvenance 0 never r true 0 []).1 = [0] ∧
  boundary_counts (processFileWithProvenance 0 never r false 0 []).1 = [1].
Proof. split; by vm_compute. Qed.

(** A threshold filter lets every number pass and compares texts as texts. *)
Example filter_ignores_numbers :
  let filters := [("total", VString "> 5")] in
  passesFilters [("total", VFloat (f_of_Z 1))] filters = true ∧ passesFilters [("total", VString "10")] filters = false.
Proof. split; by vm_compute. Qed.
(** A stream of a file named .gz that is not compressed is refused, although
    reading it whole falls back to its bytes. *)
Example gzip_fallback_depends_on_route :
  let inputs : Inputs := {|
    stat_size := λ _, Ok 100%Z; read_file := λ _, Ok "<feed/>"; gunzip := λ _, None;
    stream := unit; open_file := λ _, Ok (); gzip_stream := λ _, errorf "not gzip" [];
    Parse format _ := Ok (feed_doc format); ParseRecord _ _ := Ok (feed_doc "xml");
    NewScanner := λ _ _ _, Ok sample_scan; RecordDocument n := Ok (record_doc n);
    json_copy := Ok; mentions := λ _ _, false |} in
  readFileContent (IN := inputs) "feed.xml.gz" true = Ok "<feed/>" ∧
  is_ok (openFileStream (IN := inputs) "feed.xml.gz") = false.
Proof. split; by vm_compute. Qed.
