(* ===== verification/DurableFs.v ===== *)
(** * A file system that can crash (os, path/filepath)

    Files and directories as the program sees them, and what a crash may leave:
    the entries of a directory changed since its last sync may or may not have
    reached the disk, each on its own; a file's bytes are safe once it was
    synced and not written since. Every call may fail; a failed call has no
    effect, except that a failed write may have written a part. *)
From Stdlib Require Import Ascii ZArith Lia.
From stdpp Require Import base list strings gmap sets sorting.
From S2P Require Import Prelude GoStrings GoStrconv GoValue GoPath.

(** ** [filepath.Dir] and the last element *)
Fixpoint dir_part (p : string) : string :=
  match p with
  | "" => ""
  | String c t => if scontains_byte slash p then String c (dir_part t) else ""
  end.
Fixpoint base_part (p : string) : string :=
  match p with
  | "" => ""
  | String _ t => if scontains_byte slash p then base_part t else p
  end.
Definition Dir (p : string) : string := Clean (dir_part p).

(** ** State *)
Inductive entry := EFile (ino : nat) | EDir.
#[export] Instance entry_eq_dec : EqDecision entry.
Proof. solve_decision. Defined.

Record fsys := {
  f_ns : gmap string entry;                 (* what the program sees *)
  f_disk : gmap string entry;               (* as of the last directory syncs *)
  f_recent : list (string * option entry);  (* changes since then, oldest first *)
  f_data : gmap nat string;                 (* contents *)
  f_safe : gmap nat string;                 (* contents a crash keeps *)
  f_next : nat;
}.

(** The entries a path may have after a crash, and a file's bytes then. *)
Definition survivors (fs : fsys) (p : string) : list (option entry) :=
  f_disk fs !! p :: (snd <$> filter (λ e, e.1 = p) (f_recent fs)).

Definition set_entry (p : string) (v : option entry) (fs : fsys) : fsys := {|
  f_ns := partial_alter (λ _, v) p (f_ns fs); f_disk := f_disk fs; f_recent := f_recent fs ++ [(p, v)];
  f_data := f_data fs; f_safe := f_safe fs; f_next := f_next fs |}.
Definition sync_dir (d : string) (fs : fsys) : fsys := {|
  f_ns := f_ns fs;
  f_disk := filter (λ kv, Dir kv.1 = d) (f_ns fs) ∪ filter (λ kv, Dir kv.1 ≠ d) (f_disk fs);
  f_recent := filter (λ e, Dir e.1 ≠ d) (f_recent fs);
  f_data := f_data fs; f_safe := f_safe fs; f_next := f_next fs |}.
Definition new_file (p : string) (fs : fsys) : fsys :=
  let fs := set_entry p (Some (EFile (f_next fs))) fs in {|
  f_ns := f_ns fs; f_disk := f_disk fs; f_recent := f_recent fs;
  f_data := <[f_next fs := ""]> (f_data fs); f_safe := delete (f_next fs) (f_safe fs); f_next := S (f_next fs) |}.
Definition append_data (ino : nat) (s : string) (fs : fsys) : fsys := {|
  f_ns := f_ns fs; f_disk := f_disk fs; f_recent := f_recent fs;
  f_data := <[ino := default "" (f_data fs !! ino) +:+ s]> (f_data fs);
  f_safe := delete ino (f_safe fs); f_next := f_next fs |}.
Definition sync_data (ino : nat) (fs : fsys) : fsys := {|
  f_ns := f_ns fs; f_disk := f_disk fs; f_recent := f_recent fs; f_data := f_data fs;
  f_safe := <[ino := default "" (f_data fs !! ino)]> (f_safe fs); f_next := f_next fs |}.
Definition rename_entry (src dst : string) (e : entry) (fs : fsys) : fsys :=
  set_entry src None (set_entry dst (Some e) fs).

(** ** Errors *)
Definition ErrExist : gerror := Errorf "file already exists" [].
Definition ErrNotExist : gerror := Errorf "file does not exist" [].
Definition ErrNotEmpty : gerror := Errorf "directory not empty" [].
Definition ErrNotDir : gerror := Errorf "not a directory" [].
Definition ErrIO : gerror := Errorf "input/output error" [].
(** [errors.Join]. *)
Definition errors_join (es : list gerror) : gerror := Errorf "errors.Join" (AErr <$> es).

Definition gerror_format (e : gerror) : string := match e with Errorf f _ => f end.
Definition IsExist (e : gerror) : bool := gerror_format e =s? "file already exists".
Definition IsNotExist (e : gerror) : bool := gerror_format e =s? "file does not exist".

(** ** Programs over a file system *)
Section io.
Context {C : Type}.
(** [fault n]: the [n]th call fails; a write then writes that many bytes. *)
Context (fault : nat → option nat).

(** [w_trace]: every state the file system was in, latest first. *)
Record world := { w_fs : fsys; w_calls : nat; w_trace : list fsys; w_own : C }.
Definition io (A : Type) : Type := world → world * result A.

#[export] Instance io_ret : MRet io := λ A a w, (w, Ok a).
#[export] Instance io_bind : MBind io := λ A B f m w,
  match m w with
  | (w, Ok a) => f a w
  | (w, Err e) => (w, Err e)
  end.
Definition fail {A} (e : gerror) : io A := λ w, (w, Err e).
(** The outcome as a value. *)
Definition attempt {A} (m : io A) : io (result A) := λ w, let '(w, r) := m w in (w, Ok r).
Definition io_wrap {A} (format : string) (args : list earg) (m : io A) : io A := λ w,
  let '(w, r) := m w in (w, wrapf format args r).
Definition own : io C := λ w, (w, Ok (w_own w)).
Definition set_own (f : C → C) : io () := λ w,
  ({| w_fs := w_fs w; w_calls := w_calls w; w_trace := w_trace w; w_own := f (w_own w) |}, Ok ()).
Definition set_fs (fs : fsys) (w : world) : world :=
  {| w_fs := fs; w_calls := w_calls w; w_trace := fs :: w_trace w; w_own := w_own w |}.

(** One call: it fails, or [f] gives the new state and a result or an error of
    the operation's own. *)
Definition call {A} (f : fsys → result (fsys * A)) : io A := λ w,
  let n := w_calls w in
  let w := {| w_fs := w_fs w; w_calls := S n; w_trace := w_trace w; w_own := w_own w |} in
  match fault n with
  | Some _ => (w, Err ErrIO)
  | None => match f (w_fs w) with
            | Ok (fs, a) => (set_fs fs w, Ok a)
            | Err e => (w, Err e)
            end
  end.
(** A call that only reads. *)
Definition look {A} (f : fsys → result A) : io A := call (λ fs, a ← f fs; Ok (fs, a)).

(** [durableCommitOps.before]: a named step may be refused. *)
Definition before (step : string) : io () := look (λ _, Ok ()).

(** Whether the path is a directory. *)
Definition os_Stat (p : string) : io bool := look (λ fs,
  match f_ns fs !! p with Some EDir => Ok true | Some (EFile _) => Ok false | None => Err ErrNotExist end).
Definition parent_exists (fs : fsys) (p : string) : bool := bool_decide (f_ns fs !! Dir p = Some EDir).
Definition os_Mkdir (p : string) : io () := call (λ fs,
  match f_ns fs !! p with
  | Some _ => Err ErrExist
  | None => if parent_exists fs p then Ok (set_entry p (Some EDir) fs, ()) else Err ErrNotExist
  end).
Fixpoint mkdir_all (fuel : nat) (p : string) (fs : fsys) : result fsys :=
  match fuel, f_ns fs !! p with
  | _, Some EDir => Ok fs
  | _, Some (EFile _) => Err ErrNotDir
  | 0, None => Err ErrNotExist
  | S fuel, None =>
      fs ← mkdir_all fuel (Dir p) fs;
      match f_ns fs !! p with
      | None => Ok (set_entry p (Some EDir) fs)
      | Some EDir => Ok fs
      | Some (EFile _) => Err ErrExist
      end
  end.
Definition os_MkdirAll (p : string) : io () := call (λ fs, fs ← mkdir_all (S (slen p)) p fs; Ok (fs, ())).
Definition os_Open (p : string) : io () := look (λ fs,
  match f_ns fs !! p with Some _ => Ok () | None => Err ErrNotExist end).
(** [os.OpenFile] with [O_CREATE|O_EXCL|O_WRONLY]. *)
Definition os_CreateExcl (p : string) : io nat := call (λ fs,
  match f_ns fs !! p with
  | Some _ => Err ErrExist
  | None => if parent_exists fs p then Ok (new_file p fs, f_next fs) else Err ErrNotExist
  end).
(** [os.CreateTemp] with the pattern [prefix*suffix]: [pick] is the random number
    it settles on. *)
Definition os_CreateTemp (pick : fsys → nat) (dir prefix suffix : string) : io (nat * string) :=
  call (λ fs,
    let p := Join dir (prefix +:+ itoa (Z.of_nat (pick fs)) +:+ suffix) in
    match f_ns fs !! p with
    | Some _ => Err ErrExist
    | None => if parent_exists fs p then Ok (new_file p fs, (f_next fs, p)) else Err ErrNotExist
    end).
(** A write of [s]: the number of bytes written, with an error unless all were. *)
Definition os_Write (ino : nat) (s : string) : io () := λ w,
  let n := w_calls w in
  let w := {| w_fs := w_fs w; w_calls := S n; w_trace := w_trace w; w_own := w_own w |} in
  match fault n with
  | Some k => (set_fs (append_data ino (stake k s) (w_fs w)) w, Err ErrIO)
  | None => (set_fs (append_data ino s (w_fs w)) w, Ok ())
  end.
Definition os_SyncData (ino : nat) : io () := call (λ fs, Ok (sync_data ino fs, ())).
Definition os_SyncDir (d : string) : io () := call (λ fs, Ok (sync_dir d fs, ())).
Definition os_Close : io () := look (λ _, Ok ()).
Definition os_Rename (src dst : string) : io () := call (λ fs,
  match f_ns fs !! src with
  | None => Err ErrNotExist
  | Some e =>
      match f_ns fs !! dst with
      | Some EDir => Err ErrExist
      | _ => Ok (rename_entry src dst e fs, ())
      end
  end).
Definition children (d : string) (fs : fsys) : list string :=
  filter (λ p, Dir p = d ∧ p ≠ d) (map_to_list (f_ns fs)).*1.
Definition os_Remove (p : string) : io () := call (λ fs,
  match f_ns fs !! p with
  | None => Err ErrNotExist
  | Some (EFile _) => Ok (set_entry p None fs, ())
  | Some EDir => match children p fs with [] => Ok (set_entry p None fs, ()) | _ => Err ErrNotEmpty end
  end).
(** The names in a directory, in some order. *)
Definition os_ReadDir (d : string) : io (list string) := look (λ fs, Ok (base_part <$> children d fs)).
End io.
Arguments io C A : clear implicits.
Arguments world C : clear implicits.
