(* ===== verification/DurableFsSpec.v ===== *)
(** * Paths of one directory, and reasoning about programs over a file system

    The directory and the last element of a joined path; a Hoare logic for
    [io]; what each call keeps. *)
From Stdlib Require Import Ascii ZArith Lia.
From stdpp Require Import base list strings gmap sets.
From S2P Require Import Prelude GoStrings GoStrconv GoValue GoPath DurableFs.

(** ** Paths *)
Definition file_name (n : string) : Prop := plain n = true ∧ n ≠ "..".
Implicit Types (p d n : string).

Lemma file_name_slash n : file_name n → scontains_byte slash n = false.
Proof. intros [H _]. unfold plain in H. apply andb_true_iff in H as [H _]. by apply negb_true_iff. Qed.

Lemma components_snoc d n : file_name n → components (d +:+ "/" +:+ n) = components d ++ [n] ∨ d = "".
Proof.
  intros Hn. destruct d as [|c d]; [by right|]. left. unfold components.
  change (IsAbs (String c d +:+ "/" +:+ n)) with (IsAbs (String c d)).
  change (String c d +:+ "/" +:+ n) with (String c d +:+ String slash n).
  rewrite ssplit_byte_app, (ssplit_byte_none slash n) by by apply file_name_slash.
  unfold clean_parts. rewrite foldl_app.
  rewrite (fold_clean_plain _ _ [n]) by (by constructor). by rewrite rev_app_distr, rev_involutive.
Qed.

(** What a path is made of. *)
Definition rooted_at (d : string) (parts : list string) : string :=
  (if IsAbs d then "/" else "") +:+ sjoin "/" parts.
Lemma Clean_eq d : components d ≠ [] → Clean d = rooted_at d (components d).
Proof.
  intros Hne. unfold Clean, rooted_at. destruct (IsAbs d); [done|].
  destruct (String.eqb_spec (sjoin "/" (components d)) "") as [E|]; [|done].
  exfalso. pose proof (components_plain d) as Hp. destruct (components d) as [|q parts]; [done|].
  apply Forall_cons in Hp as [Hq _]. destruct q as [|c q]; [done|]. by destruct parts.
Qed.
Lemma Join_eq d n : d ≠ "" → file_name n → Join d n = rooted_at d (components d ++ [n]).
Proof.
  intros Hd Hn. unfold Join. rewrite (proj2 (String.eqb_neq _ _) Hd).
  destruct (components_snoc d n Hn) as [Hc|]; [|done]. rewrite Clean_eq, Hc by (rewrite Hc; by destruct (components d)).
  unfold rooted_at. f_equal. by destruct d.
Qed.
Lemma IsAbs_Clean d : IsAbs (Clean d) = IsAbs d.
Proof.
  destruct (IsAbs d) eqn:Hd; [unfold Clean; by rewrite Hd|]. unfold Clean. rewrite Hd.
  case_match; [done|]. apply IsAbs_sjoin, components_plain.
Qed.
Lemma Clean_idem d : Clean (Clean d) = Clean d.
Proof. unfold Clean at 1. rewrite IsAbs_Clean, components_Clean_any. unfold Clean. by destruct (IsAbs d). Qed.
Lemma Clean_nonempty d : Clean d ≠ "".
Proof.
  unfold Clean. destruct (IsAbs d); [done|]. destruct (String.eqb_spec (sjoin "/" (components d)) ""); done.
Qed.
Lemma Join_Clean d n : d ≠ "" → file_name n → Join (Clean d) n = Join d n.
Proof.
  intros Hd Hn. rewrite !Join_eq; [|done|done|apply Clean_nonempty|done].
  unfold rooted_at. by rewrite IsAbs_Clean, components_Clean_any.
Qed.

Lemma dir_part_none p : scontains_byte slash p = false → dir_part p = "" ∧ base_part p = p.
Proof. destruct p; [done|]. intros H. unfold dir_part, base_part. by rewrite H. Qed.
Lemma dir_part_app p n : scontains_byte slash n = false →
  dir_part (p +:+ String slash n) = p +:+ "/" ∧ base_part (p +:+ String slash n) = n.
Proof.
  intros Hn. destruct (dir_part_none n Hn) as [Hd Hb]. induction p as [|c p [IH1 IH2]].
  - change ("" +:+ String slash n) with (String slash n). simpl dir_part. simpl base_part. rewrite Hd. split; [done|].
    destruct n; [done|]. exact Hb.
  - rewrite !sapp_cons. cbn [dir_part base_part].
    assert (scontains_byte slash (String c (p +:+ String slash n)) = true) as ->.
    { cbn -[Ascii.eqb]. rewrite scontains_app. cbn -[Ascii.eqb]. rewrite Ascii.eqb_refl. by rewrite !orb_true_r. }
    by rewrite IH1, IH2.
Qed.
Lemma rooted_snoc d parts n : parts ≠ [] → rooted_at d (parts ++ [n]) = rooted_at d parts +:+ String slash n.
Proof.
  intros Hne. unfold rooted_at. rewrite sapp_assoc. f_equal. induction parts as [|q parts IH]; [done|].
  destruct parts as [|q' parts]; [done|]. change ((q :: q' :: parts) ++ [n]) with (q :: q' :: (parts ++ [n])).
  change (sjoin "/" (q :: q' :: parts ++ [n])) with (q +:+ "/" +:+ sjoin "/" (q' :: parts ++ [n])).
  change (q' :: parts ++ [n]) with ((q' :: parts) ++ [n]). rewrite IH by done.
  change (sjoin "/" (q :: q' :: parts)) with (q +:+ "/" +:+ sjoin "/" (q' :: parts)). by rewrite !sapp_assoc.
Qed.
Lemma components_slash p : p ≠ "" → components (p +:+ "/") = components p ∧ IsAbs (p +:+ "/") = IsAbs p.
Proof.
  intros Hp. destruct p as [|c p]; [done|]. split; [|done]. unfold components.
  change (IsAbs (String c p +:+ "/")) with (IsAbs (String c p)).
  rewrite ssplit_byte_app. unfold clean_parts. rewrite foldl_app. by cbn [ssplit_byte foldl clean_step].
Qed.

(** The directory and the name of a joined path. *)
Lemma Dir_Join d n : d ≠ "" → file_name n → Dir (Join d n) = Clean d ∧ base_part (Join d n) = n.
Proof.
  intros Hd Hn. rewrite Join_eq by done. pose proof (file_name_slash n Hn) as Hs. unfold Dir.
  destruct (decide (components d = [])) as [He|Hne].
  - rewrite He. unfold rooted_at. cbn [app sjoin]. unfold Clean at 2. rewrite He. destruct (IsAbs d) eqn:Ha.
    + change ("/" +:+ n) with ("" +:+ String slash n). destruct (dir_part_app "" n Hs) as [-> ->]. by rewrite sapp_nil_l.
    + change ("" +:+ n) with n. destruct (dir_part_none n Hs) as [-> ->]. done.
  - rewrite rooted_snoc by done. destruct (dir_part_app (rooted_at d (components d)) n Hs) as [-> ->]. split; [|done].
    rewrite <- Clean_eq by done. destruct (components_slash (Clean d) (Clean_nonempty d)) as [Hc Ha].
    unfold Clean at 1. rewrite Ha, Hc, IsAbs_Clean, components_Clean_any. unfold Clean. by destruct (IsAbs d).
Qed.
Lemma Join_inj d n n' : d ≠ "" → file_name n → file_name n' → Join d n = Join d n' → n = n'.
Proof.
  intros Hd Hn Hn' H. destruct (Dir_Join d n Hd Hn) as [_ <-], (Dir_Join d n' Hd Hn') as [_ <-]. by rewrite H.
Qed.
Lemma Join_ne d n : d ≠ "" → file_name n → Join d n ≠ d.
Proof.
  intros Hd Hn H. destruct (components_snoc d n Hn) as [Hc|]; [|done].
  assert (components (Join d n) = components d ++ [n]) as Hj.
  { unfold Join. rewrite (proj2 (String.eqb_neq _ _) Hd). by rewrite components_Clean_any. }
  rewrite H in Hj. apply (f_equal length) in Hj. rewrite length_app in Hj. simpl in Hj. lia.
Qed.
(** A suffix without a slash stays in the name. *)
Lemma suffix_part p s : scontains_byte slash s = false → base_part (p +:+ s) = base_part p +:+ s ∧ dir_part (p +:+ s) = dir_part p.
Proof.
  intros Hs. induction p as [|c p [IH1 IH2]].
  - rewrite !sapp_nil_l. by destruct (dir_part_none s Hs).
  - rewrite sapp_cons. cbn [base_part dir_part]. rewrite IH1, IH2.
    assert (scontains_byte slash (String c (p +:+ s)) = scontains_byte slash (String c p)) as ->.
    { cbn -[Ascii.eqb]. by rewrite scontains_app, Hs, orb_false_r. }
    destruct (scontains_byte slash (String c p)) eqn:E; [done|]. by rewrite sapp_cons.
Qed.
Lemma Join_suffix d n s : d ≠ "" → file_name n → file_name (n +:+ s) → Join d n +:+ s = Join d (n +:+ s).
Proof.
  intros Hd Hn Hns. rewrite !Join_eq by done. destruct (decide (components d = [])) as [->|Hne].
  - unfold rooted_at. cbn [app sjoin]. by rewrite sapp_assoc.
  - rewrite !rooted_snoc by done. by rewrite sapp_assoc.
Qed.
Lemma Dir_suffix p s : scontains_byte slash s = false → Dir (p +:+ s) = Dir p.
Proof. intros Hs. unfold Dir. by destruct (suffix_part p s Hs) as [_ ->]. Qed.

(** *** Names *)
Lemma file_name_long n : scontains_byte slash n = false → 2 < slen n → file_name n.
Proof.
  intros Hs Hl. split; [|intros ->; simpl in Hl; lia]. unfold plain. rewrite Hs. simpl.
  destruct (String.eqb_spec n ""); [subst; simpl in Hl; lia|]. destruct (String.eqb_spec n "."); [subst; simpl in Hl; lia|done].
Qed.
Lemma digits_no_slash s : sforall digit_byte s = true → scontains_byte slash s = false.
Proof.
  induction s as [|c s IH]; [done|]. cbn -[Ascii.eqb]. intros [Hc Hs]%andb_true_iff. rewrite IH by done.
  destruct (Ascii.eqb_spec c slash) as [->|]; [done|]. done.
Qed.
Lemma itoa_no_slash k : scontains_byte slash (itoa (Z.of_nat k)) = false.
Proof.
  unfold itoa. destruct (Z.ltb_spec (Z.of_nat k) 0); [lia|]. apply digits_no_slash, digits_of_digits.
Qed.
(** Two names with different ends are different. *)
Lemma has_suffix_app p s t : slen p ≤ slen t → has_suffix p (s +:+ t) = has_suffix p t.
Proof. intros Hl. unfold has_suffix. rewrite srev_app. apply has_prefix_app_enough. by rewrite !slen_rev. Qed.

(** ** A Hoare logic *)
Section hoare.
Context {C : Type}.
Implicit Types (P : world C → Prop) (w : world C).

(** From [P], [m] ends in [Q], or in [R] with an error. *)
Definition triple {A} P (m : io C A) (Q : A → world C → Prop) (R : world C → Prop) : Prop :=
  ∀ w, P w → match m w with (w', Ok a) => Q a w' | (w', Err _) => R w' end.
(** An invariant of a program, whatever its outcome. *)
Definition pres {A} P (m : io C A) : Prop := triple P m (λ _, P) P.

Section rules.
Context {A B : Type} (P : world C → Prop) (R : world C → Prop).
Lemma triple_ret (a : A) Q : (∀ w, P w → Q a w) → triple P (mret a) Q R.
Proof. intros H w. apply H. Qed.
Lemma triple_fail e (Q : A → world C → Prop) : (∀ w, P w → R w) → triple P (fail e) Q R.
Proof. intros H w. apply H. Qed.
Lemma triple_bind (m : io C A) (f : A → io C B) Q' Q :
  triple P m Q' R → (∀ a, triple (Q' a) (f a) Q R) → triple P (m ≫= f) Q R.
Proof.
  intros Hm Hf w Hw. specialize (Hm w Hw). unfold mbind, io_bind. destruct (m w) as [w' [a|e]]; [|done]. by apply Hf.
Qed.
Lemma triple_attempt (m : io C A) (Q : result A → world C → Prop) :
  triple P m (λ a, Q (Ok a)) (λ w, ∀ e, Q (Err e) w) → triple P (attempt m) Q R.
Proof. intros Hm w Hw. specialize (Hm w Hw). unfold attempt. destruct (m w) as [w' [a|e]]; [done|apply Hm]. Qed.
Lemma triple_wrap format args (m : io C A) Q : triple P m Q R → triple P (io_wrap format args m) Q R.
Proof. intros Hm w Hw. specialize (Hm w Hw). unfold io_wrap, wrapf, map_err. by destruct (m w) as [w' [a|e]]. Qed.
Lemma triple_own (k : C → io C B) Q :
  (∀ c, triple (λ w, P w ∧ w_own w = c) (k c) Q R) → triple P (own ≫= k) Q R.
Proof. intros H w Hw. apply (H (w_own w)). by split. Qed.
Lemma triple_set_own f Q :
  (∀ w, P w → Q () {| w_fs := w_fs w; w_calls := w_calls w; w_trace := w_trace w; w_own := f (w_own w) |}) →
  triple P (set_own f) Q R.
Proof. intros H w Hw. by apply H. Qed.
Lemma triple_conseq (P' : world C → Prop) (R' : world C → Prop) (m : io C A) (Q Q' : A → world C → Prop) :
  triple P' m Q' R' → (∀ w, P w → P' w) → (∀ a w, Q' a w → Q a w) → (∀ w, R' w → R w) → triple P m Q R.
Proof. intros Hm HP HQ HR w Hw. specialize (Hm w (HP w Hw)). destruct (m w) as [w' [a|e]]; [by apply HQ|by apply HR]. Qed.
Lemma triple_pre (P' : world C → Prop) (m : io C A) Q : (∀ w, P w → P' w) → triple P' m Q R → triple P m Q R.
Proof. intros HP Hm w Hw. by apply Hm, HP. Qed.
Lemma triple_pure (φ : Prop) (m : io C A) Q : (φ → triple P m Q R) → triple (λ w, P w ∧ φ) m Q R.
Proof. intros Hm w [Hw Hφ]. by apply Hm. Qed.
Lemma triple_state (m : io C A) Q : (∀ c, triple (λ w, P w ∧ w_own w = c) m Q R) → triple P m Q R.
Proof. intros Hm w Hw. by apply (Hm (w_own w)). Qed.
Lemma triple_ex {T} (P' : T → world C → Prop) (m : io C A) Q :
  (∀ w, P w → ∃ x, P' x w) → (∀ x, triple (P' x) m Q R) → triple P m Q R.
Proof. intros HP Hm w Hw. destruct (HP w Hw) as [x Hx]. by apply (Hm x). Qed.
Lemma triple_know (φ : Prop) (m : io C A) Q : (∀ w, P w → φ) → (φ → triple P m Q R) → triple P m Q R.
Proof. intros HP Hm w Hw. by apply Hm; [eapply HP|]. Qed.
Lemma triple_and (P' R' : world C → Prop) (m : io C A) (Q Q' : A → world C → Prop) :
  triple P m Q R → triple P' m Q' R' → triple (λ w, P w ∧ P' w) m (λ a w, Q a w ∧ Q' a w) (λ w, R w ∧ R' w).
Proof. intros H H' w [Hw Hw']. specialize (H w Hw). specialize (H' w Hw'). by destruct (m w) as [w' [a|e]]. Qed.
End rules.

(** A world after a call: one more call made, and perhaps a new state. *)
Definition ticked w : world C := {| w_fs := w_fs w; w_calls := S (w_calls w); w_trace := w_trace w; w_own := w_own w |}.
Lemma triple_call {A} fault P (f : fsys → result (fsys * A)) Q R :
  (∀ w, P w → R (ticked w)) →
  (∀ w fs a, P w → f (w_fs w) = Ok (fs, a) → Q a (set_fs fs (ticked w))) →
  triple P (call fault f) Q R.
Proof.
  intros HR HQ w Hw. unfold call. fold (ticked w). destruct (fault (w_calls w)); [by apply HR|]. simpl.
  destruct (f (w_fs w)) as [[fs a]|e] eqn:Hf; [by apply HQ|by apply HR].
Qed.
Lemma triple_write fault P ino s Q R :
  (∀ w k, P w → R (set_fs (append_data ino (stake k s) (w_fs w)) (ticked w))) →
  (∀ w, P w → Q () (set_fs (append_data ino s (w_fs w)) (ticked w))) →
  triple P (os_Write fault ino s) Q R.
Proof. intros HR HQ w Hw. unfold os_Write. fold (ticked w). simpl. destruct (fault (w_calls w)); auto. Qed.

(** *** Invariants of every state the file system goes through *)
Definition always (J : fsys → Prop) w : Prop := J (w_fs w) ∧ Forall J (w_trace w).
Lemma always_set_fs (J : fsys → Prop) w fs : always J w → J fs → always J (set_fs fs (ticked w)).
Proof. intros [H1 H2] H. split; [done|]. by constructor. Qed.
Lemma pres_call {A} fault P (f : fsys → result (fsys * A)) :
  (∀ w, P w → P (ticked w)) → (∀ w fs a, P w → f (w_fs w) = Ok (fs, a) → P (set_fs fs (ticked w))) →
  pres P (call fault f).
Proof. intros H1 H2. by apply triple_call. Qed.

(** *** Invariants that a failed call keeps *)
Definition stable P : Prop := ∀ w, P w → P (ticked w) ∧ P (set_fs (w_fs w) (ticked w)).
Section stable.
Context {A B : Type} (P : world C → Prop).
Lemma pres_ret (a : A) : pres P (mret a).
Proof. by apply triple_ret. Qed.
Lemma pres_fail e : pres P (A := A) (fail e).
Proof. by apply triple_fail. Qed.
Lemma pres_bind (m : io C A) (f : A → io C B) : pres P m → (∀ a, pres P (f a)) → pres P (m ≫= f).
Proof. intros Hm Hf. by eapply triple_bind. Qed.
Lemma pres_then (m : io C A) (f : A → io C B) Q : pres P m → (∀ a, triple P (f a) Q P) → triple P (m ≫= f) Q P.
Proof. intros Hm Hf. by eapply triple_bind. Qed.
Lemma pres_attempt (m : io C A) : pres P m → pres P (attempt m).
Proof. intros Hm. apply triple_attempt. eapply triple_conseq; [exact Hm|done..]. Qed.
Lemma pres_wrap format args (m : io C A) : pres P m → pres P (io_wrap format args m).
Proof. apply triple_wrap. Qed.
Lemma pres_own (k : C → io C B) : (∀ c, (∃ w, P w ∧ w_own w = c) → pres P (k c)) → pres P (own ≫= k).
Proof.
  intros H. apply triple_own. intros c w [Hw Hc]. unshelve eapply (H c _ w Hw). by exists w.
Qed.
Lemma pres_set_own f :
  (∀ w, P w → P {| w_fs := w_fs w; w_calls := w_calls w; w_trace := w_trace w; w_own := f (w_own w) |}) →
  pres P (set_own f).
Proof. intros H. by apply triple_set_own. Qed.
Lemma pres_look fault (f : fsys → result A) : stable P → pres P (look fault f).
Proof.
  intros HP. apply triple_call; [apply HP|]. intros w fs a Hw Hf. apply res_bind_ok in Hf as (a' & _ & [= <- <-]).
  by apply HP.
Qed.
End stable.
(** *** Facts that a result tells *)
Section facts.
Context {A B : Type}.
Lemma bind_fact (φ : A → Prop) P (m : io C A) (f : A → io C B) (Q : B → world C → Prop) R :
  triple P m (λ a w, P w ∧ φ a) R → (∀ a, φ a → triple P (f a) Q R) → triple P (m ≫= f) Q R.
Proof. intros Hm Hf. eapply triple_bind; [exact Hm|]. intros a w [Hw Ha]. by apply (Hf a Ha). Qed.
Lemma pres_fact (φ : A → Prop) P (m : io C A) (f : A → io C B) :
  triple P m (λ a w, P w ∧ φ a) P → (∀ a, φ a → pres P (f a)) → pres P (m ≫= f).
Proof. apply bind_fact. Qed.
Lemma attempt_fact (φ : A → Prop) P (m : io C A) :
  triple P m (λ a w, P w ∧ φ a) P → triple P (attempt m) (λ r w, P w ∧ ∀ a, r = Ok a → φ a) P.
Proof.
  intros Hm w Hw. specialize (Hm w Hw). unfold attempt. destruct (m w) as [w' [a|e]]; [|by split].
  destruct Hm as [H1 H2]. split; [done|]. by intros ? [= <-].
Qed.
Lemma wrap_fact (φ : A → Prop) P format args (m : io C A) :
  triple P m (λ a w, P w ∧ φ a) P → triple P (io_wrap format args m) (λ a w, P w ∧ φ a) P.
Proof. apply triple_wrap. Qed.
End facts.

(** *** What holds when a program returns *)
Definition st (K : fsys → Prop) (X : C → Prop) w : Prop := K (w_fs w) ∧ X (w_own w).
Definition none w : Prop := True.
Section returns.
Context {A B : Type} (K : fsys → Prop) (X : C → Prop).
Lemma st_stable : stable (st K X).
Proof. by intros w. Qed.
Lemma call_st fault (f : fsys → result (fsys * A)) (K' : A → fsys → Prop) :
  (∀ fs fs' a, K fs → f fs = Ok (fs', a) → K' a fs') → triple (st K X) (call fault f) (λ a, st (K' a) X) none.
Proof. intros Hf. apply triple_call; [done|]. intros w fs a [HK HX] E. split; [by eapply Hf|done]. Qed.
Lemma look_st fault (f : fsys → result A) : triple (st K X) (look fault f) (λ _, st K X) none.
Proof. apply call_st. intros fs fs' a HK H. by apply res_bind_ok in H as (a' & _ & [= <- <-]). Qed.
Lemma set_own_st (f : C → C) (X' : C → Prop) : (∀ c, X c → X' (f c)) → triple (st K X) (set_own f) (λ _, st K X') none.
Proof. intros Hf. apply triple_set_own. intros w [HK HX]. split; [done|by apply Hf]. Qed.
Lemma then_st {P : world C → Prop} (m : io C A) (f : A → io C B) Q :
  triple P m (λ _, st K X) none → (∀ a, triple (st K X) (f a) Q none) → triple P (m ≫= f) Q none.
Proof. intros Hm Hf. by eapply triple_bind. Qed.
End returns.
End hoare.
Create HintDb io.
#[export] Hint Resolve pres_ret pres_fail pres_attempt pres_wrap pres_look pres_bind : io.

(** ** What the operations do to one path *)
Section paths.
Implicit Types (fs : fsys) (q : string) (v : option entry) (i j : nat) (s : string).

Lemma ns_set_entry fs q v p : f_ns (set_entry q v fs) !! p = if decide (q = p) then v else f_ns fs !! p.
Proof. simpl. rewrite lookup_partial_alter. by case_decide. Qed.
Lemma survivors_set_entry fs q v p :
  survivors (set_entry q v fs) p = survivors fs p ++ (if decide (q = p) then [v] else []).
Proof.
  unfold survivors. simpl. rewrite filter_app, fmap_app. simpl. f_equal.
  rewrite filter_cons, filter_nil. simpl. by case_decide.
Qed.
Lemma lookup_filter_in (Q : string * entry → Prop) `{∀ kv, Decision (Q kv)} (m : gmap string entry) p :
  (∀ e, Q (p, e)) → filter Q m !! p = m !! p.
Proof. intros HQ. apply option_eq. intros e. rewrite map_lookup_filter_Some. naive_solver. Qed.
Lemma lookup_filter_out (Q : string * entry → Prop) `{∀ kv, Decision (Q kv)} (m : gmap string entry) p :
  (∀ e, ¬ Q (p, e)) → filter Q m !! p = None.
Proof. intros HQ. apply map_lookup_filter_None. right. intros e _. apply HQ. Qed.
Lemma recent_sync_dir d p (l : list (string * option entry)) :
  filter (λ e, e.1 = p) (filter (λ e, Dir e.1 ≠ d) l) = if decide (Dir p = d) then [] else filter (λ e, e.1 = p) l.
Proof.
  induction l as [|e l IH]; [by case_decide|]. rewrite !filter_cons.
  destruct (decide (Dir e.1 ≠ d)) as [Hn|Hn]; [rewrite filter_cons|]; rewrite IH;
    repeat case_decide; subst; done || (exfalso; by apply Hn).
Qed.
Lemma survivors_sync_dir fs d p :
  survivors (sync_dir d fs) p = if decide (Dir p = d) then [f_ns fs !! p] else survivors fs p.
Proof.
  unfold survivors. cbn [f_recent f_disk sync_dir]. rewrite recent_sync_dir, lookup_union.
  destruct (decide (Dir p = d)) as [Hd|Hd].
  - rewrite lookup_filter_in, lookup_filter_out by naive_solver. by destruct (f_ns fs !! p).
  - rewrite lookup_filter_out, lookup_filter_in by naive_solver. by destruct (f_disk fs !! p).
Qed.

(** No file of this name is seen, or could be after a crash. *)
Definition no_file (p : string) fs : Prop :=
  (∀ i, f_ns fs !! p ≠ Some (EFile i)) ∧ ∀ i, Some (EFile i) ∉ survivors fs p.
Lemma no_file_set_entry p q v fs : q ≠ p ∨ (∀ i, v ≠ Some (EFile i)) → no_file p fs → no_file p (set_entry q v fs).
Proof.
  intros Hq [H1 H2]. split; intros i.
  - rewrite ns_set_entry. case_decide; [|by apply H1]. naive_solver.
  - rewrite survivors_set_entry, elem_of_app. intros [?|Hv]; [by eapply H2|].
    case_decide; [|by apply elem_of_nil in Hv]. apply list_elem_of_singleton in Hv. naive_solver.
Qed.
Lemma no_file_sync_dir p d fs : no_file p fs → no_file p (sync_dir d fs).
Proof.
  intros [H1 H2]. split; [done|]. intros i. rewrite survivors_sync_dir. case_decide; [|apply H2].
  intros Hv%list_elem_of_singleton. by apply (H1 i).
Qed.
Lemma no_file_new_file p q fs : q ≠ p → no_file p fs → no_file p (new_file q fs).
Proof. intros Hq H. apply (no_file_set_entry p q (Some (EFile (f_next fs)))) in H; [exact H|by left]. Qed.
Lemma no_file_rename p src dst e fs : dst ≠ p → no_file p fs → no_file p (rename_entry src dst e fs).
Proof. intros Hd H. unfold rename_entry. apply no_file_set_entry; [by right|]. apply no_file_set_entry; [by left|done]. Qed.
Lemma no_file_mkdir_all fuel p q : ∀ fs fs', mkdir_all fuel q fs = Ok fs' → no_file p fs → no_file p fs'.
Proof.
  revert q. induction fuel as [|fuel IH]; intros q fs fs' H Hp; simpl in H; destruct (f_ns fs !! q) as [[i|]|]; try done.
  - by injection H as <-.
  - by injection H as <-.
  - apply res_bind_ok in H as (fs1 & H1 & H). pose proof (IH _ _ _ H1 Hp).
    destruct (f_ns fs1 !! q) as [[i|]|]; [done|by injection H as <-|]. injection H as <-. apply no_file_set_entry; [by right|done].
Qed.

(** The path is file [i], which holds [s]. *)
Definition holds_file (p : string) i s fs : Prop :=
  f_ns fs !! p = Some (EFile i) ∧ f_data fs !! i = Some s ∧ i < f_next fs.
(** And it is that file, with these bytes, after any crash. *)
Definition on_disk (p : string) i s fs : Prop :=
  (∀ v, v ∈ survivors fs p → v = Some (EFile i)) ∧ f_safe fs !! i = Some s.
Lemma holds_set_entry p i s q v fs : q ≠ p → holds_file p i s fs → holds_file p i s (set_entry q v fs).
Proof. intros Hq (H1 & H2 & H3). split_and!; [|done|done]. by rewrite ns_set_entry, decide_False. Qed.
Lemma holds_new_file p i s q fs : q ≠ p → holds_file p i s fs → holds_file p i s (new_file q fs).
Proof.
  intros Hq (H1 & H2 & H3). split_and!; simpl; [|rewrite lookup_insert_ne; [done|lia]|lia].
  by rewrite lookup_partial_alter, decide_False.
Qed.
Lemma holds_created p fs : holds_file p (f_next fs) "" (new_file p fs).
Proof. split_and!; simpl; [by rewrite lookup_partial_alter, decide_True|by rewrite lookup_insert_eq|lia]. Qed.
Lemma holds_append p i s j t fs : j ≠ i → holds_file p i s fs → holds_file p i s (append_data j t fs).
Proof. intros Hj (H1 & H2 & H3). split_and!; simpl; [done|by rewrite lookup_insert_ne|done]. Qed.
Lemma holds_appended p i s t fs : holds_file p i s fs → holds_file p i (s +:+ t) (append_data i t fs).
Proof. intros (H1 & H2 & H3). split_and!; simpl; [done|by rewrite lookup_insert_eq, H2|done]. Qed.
Lemma holds_rename p i s src dst e fs : src ≠ p → dst ≠ p → holds_file p i s fs → holds_file p i s (rename_entry src dst e fs).
Proof. intros Hs Hd H. by do 2 (apply holds_set_entry; [done|]). Qed.
Lemma holds_renamed i s src dst fs : src ≠ dst → holds_file src i s fs → holds_file dst i s (rename_entry src dst (EFile i) fs).
Proof.
  intros Hne (H1 & H2 & H3). unfold rename_entry. apply holds_set_entry; [done|]. split_and!; [|done|done].
  by rewrite ns_set_entry, decide_True.
Qed.

Lemma holds_sync_data p i s fs : holds_file p i s fs → holds_file p i s (sync_data i fs) ∧ f_safe (sync_data i fs) !! i = Some s.
Proof. intros H. split; [exact H|]. destruct H as (_ & H & _). simpl. by rewrite lookup_insert_eq, H. Qed.
Lemma on_disk_set_entry p i s q v fs : q ≠ p → on_disk p i s fs → on_disk p i s (set_entry q v fs).
Proof. intros Hq [H1 H2]. split; [|done]. rewrite survivors_set_entry, decide_False, app_nil_r by done. done. Qed.
Lemma on_disk_new_file p i s q fs : q ≠ p → i < f_next fs → on_disk p i s fs → on_disk p i s (new_file q fs).
Proof.
  intros Hq Hi H. apply (on_disk_set_entry _ _ _ q (Some (EFile (f_next fs)))) in H as [H1 H2]; [|done].
  split; [exact H1|]. simpl. simpl in H2. rewrite lookup_delete_ne; [done|lia].
Qed.
Lemma on_disk_append p i s j t fs : j ≠ i → on_disk p i s fs → on_disk p i s (append_data j t fs).
Proof. intros Hj [H1 H2]. split; [done|]. simpl. by rewrite lookup_delete_ne. Qed.
Lemma on_disk_sync_data p i s j fs : (j = i → f_data fs !! i = Some s) → on_disk p i s fs → on_disk p i s (sync_data j fs).
Proof.
  intros Hj [H1 H2]. split; [done|]. simpl. destruct (decide (j = i)) as [->|Hne]; [|by rewrite lookup_insert_ne].
  rewrite lookup_insert_eq. by rewrite Hj.
Qed.
Lemma on_disk_rename p i s src dst e fs : src ≠ p → dst ≠ p → on_disk p i s fs → on_disk p i s (rename_entry src dst e fs).
Proof. intros Hs Hd H. by do 2 (apply on_disk_set_entry; [done|]). Qed.
Lemma on_disk_sync_dir p i s d fs : f_ns fs !! p = Some (EFile i) → on_disk p i s fs → on_disk p i s (sync_dir d fs).
Proof.
  intros Hp [H1 H2]. split; [|done]. intros v. rewrite survivors_sync_dir. case_decide; [|apply H1].
  intros ->%list_elem_of_singleton. done.
Qed.
(** A sync of the directory puts its synced files on the disk. *)
Lemma sync_dir_on_disk p i s d fs : Dir p = d → f_ns fs !! p = Some (EFile i) → f_safe fs !! i = Some s →
  on_disk p i s (sync_dir d fs).
Proof.
  intros Hd Hp Hs. split; [|done]. intros v. rewrite survivors_sync_dir, decide_True by done.
  by intros ->%list_elem_of_singleton.
Qed.
End paths.
