(* ===== verification/DurableCommit.v ===== *)
(** * The durable commit of local aggregate output (cmd/sumpter/commands/durable_commit.go)

    One output directory, owned through a lock file: shards and sidecars are
    staged, synced and renamed, and the manifest, renamed last, is the marker
    that makes them one committed generation. *)
From Stdlib Require Import Ascii ZArith Lia.
From stdpp Require Import base list strings gmap sets.
From S2P Require Import Prelude GoStrings GoValue GoPath DurableFs.

Definition aggregateCommitLockName : string := ".sumpter-aggregate.lock".

(** The state of a [localAggregateCommit]; its directory and whether it is
    durable never change. *)
Record commit := mkCommit {
  c_prepared : bool;
  c_committed : bool;
  c_lockPath : string;
  c_lockHeld : bool;
  c_markerRenamed : bool;
  c_stagePaths : list string;
  c_finalPaths : list string;
  c_sidecarPaths : list string;
  c_tempPaths : list string;
  c_createdDirs : list string;
}.
Definition newLocalAggregateCommit : commit := mkCommit false false "" false false [] [] [] [] [].
Definition set_prepared (c : commit) : commit := mkCommit true (c_committed c) (c_lockPath c) (c_lockHeld c)
  (c_markerRenamed c) (c_stagePaths c) (c_finalPaths c) (c_sidecarPaths c) (c_tempPaths c) (c_createdDirs c).
Definition set_committed (c : commit) : commit := mkCommit (c_prepared c) true (c_lockPath c) (c_lockHeld c)
  (c_markerRenamed c) (c_stagePaths c) (c_finalPaths c) (c_sidecarPaths c) (c_tempPaths c) (c_createdDirs c).
Definition set_lockPath (p : string) (c : commit) : commit := mkCommit (c_prepared c) (c_committed c) p (c_lockHeld c)
  (c_markerRenamed c) (c_stagePaths c) (c_finalPaths c) (c_sidecarPaths c) (c_tempPaths c) (c_createdDirs c).
Definition set_lockHeld (b : bool) (c : commit) : commit := mkCommit (c_prepared c) (c_committed c) (c_lockPath c) b
  (c_markerRenamed c) (c_stagePaths c) (c_finalPaths c) (c_sidecarPaths c) (c_tempPaths c) (c_createdDirs c).
Definition set_markerRenamed (b : bool) (c : commit) : commit := mkCommit (c_prepared c) (c_committed c) (c_lockPath c)
  (c_lockHeld c) b (c_stagePaths c) (c_finalPaths c) (c_sidecarPaths c) (c_tempPaths c) (c_createdDirs c).
Definition add_stage (p : string) (c : commit) : commit := mkCommit (c_prepared c) (c_committed c) (c_lockPath c)
  (c_lockHeld c) (c_markerRenamed c) (c_stagePaths c ++ [p]) (c_finalPaths c) (c_sidecarPaths c) (c_tempPaths c) (c_createdDirs c).
Definition add_final (p : string) (c : commit) : commit := mkCommit (c_prepared c) (c_committed c) (c_lockPath c)
  (c_lockHeld c) (c_markerRenamed c) (c_stagePaths c) (c_finalPaths c ++ [p]) (c_sidecarPaths c) (c_tempPaths c) (c_createdDirs c).
Definition add_sidecar (p : string) (c : commit) : commit := mkCommit (c_prepared c) (c_committed c) (c_lockPath c)
  (c_lockHeld c) (c_markerRenamed c) (c_stagePaths c) (c_finalPaths c) (c_sidecarPaths c ++ [p]) (c_tempPaths c) (c_createdDirs c).
Definition add_temp (p : string) (c : commit) : commit := mkCommit (c_prepared c) (c_committed c) (c_lockPath c)
  (c_lockHeld c) (c_markerRenamed c) (c_stagePaths c) (c_finalPaths c) (c_sidecarPaths c) (c_tempPaths c ++ [p]) (c_createdDirs c).
Definition set_created (l : list string) (c : commit) : commit := mkCommit (c_prepared c) (c_committed c) (c_lockPath c)
  (c_lockHeld c) (c_markerRenamed c) (c_stagePaths c) (c_finalPaths c) (c_sidecarPaths c) (c_tempPaths c) l.

Definition aggregateCommitArtifactName (name : string) : bool :=
  existsb (String.eqb name) ["manifest.json"; "failures.json"; "dispositions.json"; "records.jsonl"]
  || (has_prefix "records-" name && has_suffix ".jsonl" name)
  || has_suffix ".partial" name || has_prefix ".manifest.json." name || has_prefix ".failures.json." name
  || has_prefix ".dispositions.json." name.

Section commit.
Context (fault : nat → option nat).
(** [os.CreateTemp]'s random number. *)
Context (pick : fsys → nat).
Context (outputDir : string) (durable : bool).
Local Notation cio := (io commit).
Local Notation before := (before fault).

Definition io_when (b : bool) (m : cio ()) : cio () := if b then m else mret ().
Fixpoint io_each {A} (f : A → cio ()) (l : list A) : cio () :=
  match l with [] => mret () | a :: l => _ ← f a; io_each f l end.
(** Run, and note an error instead of stopping. *)
Definition noted (m : cio ()) : cio (list gerror) :=
  r ← attempt m; mret match r with Ok _ => [] | Err e => [e] end.
Fixpoint noted_each {A} (f : A → cio (list gerror)) (l : list A) : cio (list gerror) :=
  match l with
  | [] => mret []
  | a :: l => es ← f a; es' ← noted_each f l; mret ((es : list gerror) ++ es')
  end.
(** [errors.Join(errs...)]: nothing when there is no error. *)
Definition joined (es : list gerror) : list gerror := match es with [] => [] | _ => [errors_join es] end.
(** [return errors.Join(err, cleanup())]. *)
Definition fail_after {A} (e : gerror) (cleanup : cio (list gerror)) : cio A :=
  es ← cleanup; fail (errors_join (e :: es)).
(** Run [m]; if it fails, clean up and fail with the join. *)
Definition or_cleanup {A} (m : cio A) (cleanup : cio (list gerror)) : cio A :=
  r ← attempt m;
  match r with
  | Ok a => mret a
  | Err e => fail_after e cleanup
  end.

(** The close on a failure path: the error becomes a join when it fails too. *)
Definition close_after_failure (step message : string) (primary : gerror) : cio gerror :=
  r ← attempt (_ ← before step; os_Close fault);
  mret match r with Ok _ => primary | Err e => errors_join [primary; Errorf message [AErr e]] end.
Definition closeOwnershipAfterFailure (primary : gerror) : cio gerror :=
  close_after_failure "ownership-cleanup-close" "close aggregate ownership marker during cleanup: %w" primary.
Definition closeDirectoryAfterFailure (step : string) (primary : gerror) : cio gerror :=
  close_after_failure (step +:+ "-cleanup-close") "close directory during cleanup: %w" primary.
Definition closeTemporaryAfterFailure (kind : string) (primary : gerror) : cio gerror :=
  close_after_failure (kind +:+ "-cleanup-close") ("close aggregate " +:+ kind +:+ " during cleanup: %w") primary.
(** Run [m]; if it fails, close and fail with the joined error. *)
Definition or_close {A} (m : cio A) (close : gerror → cio gerror) : cio A :=
  r ← attempt m;
  match r with
  | Ok a => mret a
  | Err e => e ← close e; fail e
  end.

Definition syncDirectoryPath (path step : string) : cio () :=
  _ ← io_wrap "open directory for durable sync %s: %w" [AStr path] (_ ← before (step +:+ "-open"); os_Open fault path);
  _ ← or_close (io_wrap "sync directory %s: %w" [AStr path] (_ ← before step; os_SyncDir fault path))
        (closeDirectoryAfterFailure step);
  _ ← or_close (io_wrap "close synced directory %s: %w" [AStr path] (before (step +:+ "-close")))
        (closeDirectoryAfterFailure step);
  io_wrap "close synced directory %s: %w" [AStr path] (os_Close fault).
Definition syncDirectory (step : string) : cio () := syncDirectoryPath outputDir step.

(** ** Undoing *)
Definition releaseLock : cio () :=
  c ← own;
  if negb (c_lockHeld c) then mret ()
  else
    _ ← io_wrap "release aggregate output ownership: %w" [] (_ ← before "ownership-remove"; os_Remove fault (c_lockPath c));
    set_own (set_lockHeld false).
Definition manifest_path : string := Join outputDir "manifest.json".
(** [remove], where a path that is not there is no error. *)
Definition remove_quiet (p : string) : cio () :=
  r ← attempt (os_Remove fault p);
  match r with
  | Err e => if IsNotExist e then mret () else fail e
  | Ok _ => mret ()
  end.
Definition invalidateMarker : cio () :=
  c ← own;
  if negb (c_markerRenamed c) then mret ()
  else
    _ ← io_wrap "invalidate unconfirmed aggregate manifest: %w" []
          (_ ← before "manifest-invalidate"; remove_quiet manifest_path);
    _ ← set_own (set_markerRenamed false);
    io_when durable (syncDirectory "manifest-invalidate-dir-sync").
Definition clean_directory (dir : string) : cio (list gerror) :=
  r ← attempt (before "cleanup-directory-remove");
  match r with
  | Err e => mret [Errorf "clean aggregate output directory %s: %w" [AStr dir; AErr e]]
  | Ok _ =>
      r ← attempt (os_Remove fault dir);
      match r with
      | Err e => mret (if IsNotExist e then [] else [Errorf "clean aggregate output directory %s: %w" [AStr dir; AErr e]])
      | Ok _ => if durable then noted (syncDirectoryPath (Dir dir) "cleanup-parent-dir-sync") else mret []
      end
  end.
Definition cleanupCreatedDirectories : cio (list gerror) :=
  c ← own;
  match c_createdDirs c with
  | [] => mret []
  | dirs =>
      es ← noted_each clean_directory (rev dirs);
      _ ← set_own (set_created []);
      mret (joined es)
  end.
Definition clean_path (path : string) : cio (list gerror) :=
  noted (io_wrap "clean aggregate commit path %s: %w" [AStr path] (_ ← before "cleanup-remove"; remove_quiet path)).
Definition abort : cio (list gerror) :=
  c ← own;
  if c_committed c then mret []
  else
    e1 ← noted invalidateMarker;
    e2 ← noted_each clean_path (c_tempPaths c ++ c_stagePaths c ++ c_finalPaths c ++ c_sidecarPaths c);
    e3 ← noted releaseLock;
    e4 ← (if durable && negb (c_lockPath c =s? "") then noted (syncDirectory "cleanup-dir-sync") else mret []);
    e5 ← cleanupCreatedDirectories;
    mret (joined (e1 ++ e2 ++ e3 ++ e4 ++ e5)).

(** ** Taking the directory *)

(** Up from [cur] to an existing directory: it, and the missing paths below it,
    lowest first. *)
Fixpoint climb (inspect none : string) (path : string) (fuel : nat) (cur : string) (missing : list string)
    : cio (string * list string) :=
  r ← attempt (os_Stat fault cur);
  match r with
  | Ok true => mret (cur, missing)
  | Ok false => fail (Errorf "aggregate output path is not a directory: %s" [AStr cur])
  | Err e =>
      if negb (IsNotExist e) then fail (Errorf inspect [AErr e])
      else
        match fuel with
        | S fuel => if Dir cur =s? cur then fail (Errorf none [AStr path])
                    else climb inspect none path fuel (Dir cur) (missing ++ [cur])
        | 0 => fail (Errorf none [AStr path])
        end
  end.
Definition climb_fuel (path : string) : nat := S (length (components path)).
Definition existingDirectoryAncestor (path : string) : cio string :=
  r ← climb "inspect aggregate output filesystem: %w" "find existing aggregate output filesystem ancestor for %s"
        path (climb_fuel path) (Clean path) [];
  mret r.1.
Definition probeExistingDirectorySync (path : string) : cio () :=
  ancestor ← existingDirectoryAncestor path;
  _ ← io_wrap "open aggregate output filesystem ancestor for sync: %w" [] (os_Open fault ancestor);
  e1 ← noted (io_wrap "sync aggregate output filesystem ancestor: %w" [] (os_SyncDir fault ancestor));
  e2 ← noted (io_wrap "close aggregate output filesystem ancestor: %w" [] (os_Close fault));
  match (e1 : list gerror) ++ e2 with
  | [] => mret ()
  | es => fail (errors_join es)
  end.
(** durable_sync_linux.go *)
Definition validateLocalDurableCommitSupport (path : string) : cio () := probeExistingDirectorySync path.

Definition create_directory (child : string) : cio () :=
  _ ← io_wrap "create aggregate output directory %s: %w" [AStr child] (_ ← before "directory-create"; os_Mkdir fault child);
  _ ← set_own (λ c, set_created (c_createdDirs c ++ [child]) c);
  syncDirectoryPath (Dir child) "parent-dir-sync".
Definition ensureDirectoryDurable (path : string) : cio () :=
  r ← climb "stat aggregate output directory: %w" "find existing aggregate output ancestor for %s"
        path (climb_fuel path) (Clean path) [];
  _ ← syncDirectoryPath (r : string * list string).1 "ancestor-dir-sync";
  _ ← io_each create_directory (rev r.2);
  syncDirectoryPath path "output-dir-sync".

Definition lock_path : string := Join outputDir aggregateCommitLockName.
Definition create_lock : cio nat :=
  r ← attempt (_ ← before "ownership-create"; os_CreateExcl fault lock_path);
  match r with
  | Ok ino => mret ino
  | Err e =>
      if IsExist e then
        fail (Errorf "aggregate output directory is already owned or needs recovery: %s exists" [AStr lock_path])
      else fail (Errorf "acquire aggregate output ownership: %w" [AErr e])
  end.
Definition foreign_artifact (names : list string) : option string :=
  List.find (λ n, negb (n =s? aggregateCommitLockName) && aggregateCommitArtifactName n) names.
(** The lock is made, synced and closed, and the directory checked. *)
Definition own_directory : cio () :=
  lock ← or_cleanup create_lock cleanupCreatedDirectories;
  _ ← set_own (set_lockHeld true);
  _ ← io_when durable
        (or_cleanup (or_close (io_wrap "sync aggregate ownership marker: %w" []
                                 (_ ← before "ownership-sync"; os_SyncData fault lock))
                       closeOwnershipAfterFailure) abort);
  _ ← or_cleanup (or_close (io_wrap "close aggregate ownership marker: %w" [] (before "ownership-close"))
                    closeOwnershipAfterFailure) abort;
  _ ← or_cleanup (io_wrap "close aggregate ownership marker: %w" [] (os_Close fault)) abort;
  _ ← io_when durable (or_cleanup (syncDirectory "ownership-dir-sync") abort);
  names ← or_cleanup (io_wrap "inspect aggregate output directory: %w" [] (os_ReadDir fault outputDir)) abort;
  match foreign_artifact names with
  | Some name =>
      fail_after (Errorf "aggregate output directory contains prior or interrupted commit artifact %q; use a fresh output location or reconcile it before retrying" [AStr name]) abort
  | None => set_own set_prepared
  end.
Definition prepare : cio () :=
  c ← own;
  if c_prepared c then mret ()
  else
    _ ← validateLocalDurableCommitSupport outputDir;
    _ ← (if durable then or_cleanup (ensureDirectoryDurable outputDir) cleanupCreatedDirectories
         else io_wrap "create aggregate output directory: %w" [] (os_MkdirAll fault outputDir));
    _ ← set_own (set_lockPath lock_path);
    own_directory.

(** ** Shards, sidecars and the manifest *)
Definition openShard (finalPath : string) : cio (nat * string) :=
  _ ← prepare;
  let stagePath := finalPath +:+ ".partial" in
  f ← io_wrap "open aggregate shard staging: %w" [] (_ ← before "shard-open"; os_CreateExcl fault stagePath);
  _ ← set_own (add_stage stagePath);
  mret (f, stagePath).
Definition beforeShardWrite : cio () := io_wrap "write aggregate record: %w" [] (before "shard-write").
Definition finalizeShard (f : nat) : cio () :=
  _ ← io_when durable (io_wrap "sync aggregate shard: %w" [] (_ ← before "shard-sync"; os_SyncData fault f));
  io_wrap "close aggregate shard: %w" [] (_ ← before "shard-close"; os_Close fault).
Definition commit_shard (stage_final : string * string) : cio () :=
  _ ← io_wrap "commit aggregate shard %s: %w" [AStr stage_final.2]
        (_ ← before "shard-rename"; os_Rename fault stage_final.1 stage_final.2);
  set_own (add_final stage_final.2).
(** The two lists are as long as each other. *)
Definition commitShards (stagePaths finalPaths : list string) : cio () :=
  _ ← io_each commit_shard (zip stagePaths finalPaths);
  io_when durable (syncDirectory "shards-dir-sync").

(** bufio's writer of 4096 bytes: longer data goes to the file at once, shorter
    data when it is flushed. *)
Definition bufio_size : nat := 4096.
Definition write_buffered (f : nat) (data : string) : cio () :=
  if (bufio_size <? slen data)%nat then os_Write fault f data else mret ().
Definition flush_buffered (f : nat) (data : string) : cio () :=
  if (bufio_size <? slen data)%nat || (data =s? "") then mret () else os_Write fault f data.
(** [writeAtomicFile] up to the rename: the temporary file, written, synced and
    closed. *)
Definition stage_file (kind path data : string) : cio string :=
  _ ← prepare;
  if negb (Clean (Dir path) =s? outputDir) then
    fail (Errorf "%s must be written inside the owned aggregate output directory" [AStr (base_part path)])
  else
    r ← attempt (os_Stat fault path);
    match r with
    | Ok _ => fail (Errorf "refusing to replace existing aggregate %s %s" [AStr kind; AStr path])
    | Err e =>
        if negb (IsNotExist e) then fail (Errorf ("inspect aggregate " +:+ kind +:+ " destination: %w") [AErr e])
        else
          w ← io_wrap ("create aggregate " +:+ kind +:+ " temporary file: %w") [] (
                _ ← before (kind +:+ "-temp-create");
                os_CreateTemp fault pick outputDir ("." +:+ base_part path +:+ ".") ".tmp");
          let '(f, tempPath) := (w : nat * string) in
          let close := closeTemporaryAfterFailure kind in
          _ ← set_own (add_temp tempPath);
          _ ← or_close (io_wrap ("write aggregate " +:+ kind +:+ ": %w") []
                          (_ ← before (kind +:+ "-write"); write_buffered f data)) close;
          _ ← or_close (io_wrap ("flush aggregate " +:+ kind +:+ ": %w") []
                          (_ ← before (kind +:+ "-flush"); flush_buffered f data)) close;
          _ ← io_when durable (or_close (io_wrap ("sync aggregate " +:+ kind +:+ ": %w") []
                          (_ ← before (kind +:+ "-sync"); os_SyncData fault f)) close);
          _ ← or_close (io_wrap ("close aggregate " +:+ kind +:+ ": %w") [] (before (kind +:+ "-close"))) close;
          _ ← io_wrap ("close aggregate " +:+ kind +:+ ": %w") [] (os_Close fault);
          mret tempPath
    end.
Definition rename_file (kind tempPath path : string) : cio () :=
  io_wrap ("rename aggregate " +:+ kind +:+ ": %w") []
    (_ ← before (kind +:+ "-rename"); os_Rename fault tempPath path).
Definition writeAtomicFile (kind path data : string) : cio string :=
  tempPath ← stage_file kind path data;
  _ ← io_when (kind =s? "manifest") releaseLock;
  _ ← rename_file kind tempPath path;
  mret path.
Definition writeSidecar (path data : string) : cio () :=
  final ← writeAtomicFile "sidecar" path data; set_own (add_sidecar final).
Definition writeManifest (path data : string) : cio () :=
  _ ← writeAtomicFile "manifest" path data;
  _ ← set_own (set_markerRenamed true);
  _ ← io_when durable
        (r ← attempt (syncDirectory "manifest-dir-sync");
         match r with
         | Ok _ => mret ()
         | Err e =>
             es ← noted invalidateMarker;
             fail (errors_join (Errorf "aggregate commit is unconfirmed after manifest rename: %w" [AErr e] :: es))
         end);
  set_own set_committed.
End commit.
