(* ===== verification/DurableCommitSpec.v ===== *)
(** * What the commit protocol keeps

    A frame: a property of the file system that the protocol's own changes keep,
    as long as it removes and replaces only paths of its own. Every operation of
    the commit then keeps it in every state it goes through, whatever fails. *)
From Stdlib Require Import Ascii ZArith Lia.
From stdpp Require Import base list strings gmap sets.
From S2P Require Import Prelude GoStrings GoStrconv GoValue GoPath DurableFs DurableFsSpec DurableCommit.

(** [J]: the property; [ours]: the paths the protocol may remove; [inos]: the
    files it may write; [target]: the paths where a file may appear. *)
Record commit_frame (J : fsys → Prop) (ours : string → Prop) (inos : nat → Prop) (target : string → Prop) : Prop := {
  fr_fresh fs p : J fs → f_ns fs !! p = None → ours p;
  fr_fresh_ino fs : J fs → inos (f_next fs);
  fr_remove fs p : ours p → J fs → J (set_entry p None fs);
  fr_mkdir fs p : f_ns fs !! p = None → J fs → J (set_entry p (Some EDir) fs);
  fr_create fs p : f_ns fs !! p = None → target p → J fs → J (new_file p fs);
  fr_append fs i s : inos i → J fs → J (append_data i s fs);
  fr_sync_data fs i : J fs → J (sync_data i fs);
  fr_sync_dir fs d : J fs → J (sync_dir d fs);
  fr_rename fs src dst e : ours src → ours dst → target dst → f_ns fs !! src = Some e → J fs →
    J (rename_entry src dst e fs);
}.

(** An invariant of a program, part by part. *)
Ltac kept_steps :=
  repeat first
    [ solve [eauto with io]
    | match goal with
      | |- pres _ (mbind _ _) => apply pres_bind; [|intros ?]
      | |- pres _ (io_wrap _ _ _) => apply pres_wrap
      | |- pres _ (attempt _) => apply pres_attempt
      | |- pres _ (match ?x with _ => _ end) => destruct x
      end ].
Section combinators.
Context (P : world commit → Prop).
Lemma pres_when b m : pres P m → pres P (io_when b m).
Proof. intros Hm. destruct b; [done|apply pres_ret]. Qed.
Lemma pres_each {A} (f : A → io commit ()) l : (∀ a, a ∈ l → pres P (f a)) → pres P (io_each f l).
Proof.
  induction l as [|a l IH]; intros H; [apply pres_ret|]. apply pres_bind; [apply H; left|]. intros _. apply IH. intros b Hb.
  apply H. by right.
Qed.
Lemma pres_noted m : pres P m → pres P (noted m).
Proof. intros Hm. unfold noted. kept_steps. Qed.
Lemma pres_noted_each {A} (f : A → io commit (list gerror)) l : (∀ a, a ∈ l → pres P (f a)) → pres P (noted_each f l).
Proof.
  induction l as [|a l IH]; intros H; [apply pres_ret|]. apply pres_bind; [apply H; left|]. intros es.
  apply pres_bind; [|intros; apply pres_ret]. apply IH. intros b Hb. apply H. by right.
Qed.
Lemma fail_after_fails {A} e m Q : pres P m → triple P (fail_after (A := A) e m) Q P.
Proof. intros Hm. apply pres_then; [done|]. intros es. by apply triple_fail. Qed.
Lemma pres_fail_after {A} e m : pres P m → pres P (fail_after (A := A) e m).
Proof. apply fail_after_fails. Qed.
Lemma pres_or_cleanup {A} (m : io commit A) cleanup : pres P m → pres P cleanup → pres P (or_cleanup m cleanup).
Proof. intros Hm Hc. unfold or_cleanup. kept_steps. Qed.
Lemma pres_or_close {A} (m : io commit A) close : pres P m → (∀ e, pres P (close e)) → pres P (or_close m close).
Proof. intros Hm Hc. unfold or_close. kept_steps. Qed.
Context (HP : stable P) (fault : nat → option nat).
Lemma pres_close_after step message e : pres P (close_after_failure fault step message e).
Proof. unfold close_after_failure, before, os_Close. kept_steps. Qed.
Lemma pres_syncDirectoryPath p step : pres P (os_SyncDir fault p) → pres P (syncDirectoryPath fault p step).
Proof.
  intros Hs. pose proof pres_close_after. unfold syncDirectoryPath, closeDirectoryAfterFailure, before, os_Open, os_Close.
  repeat first [progress kept_steps | apply pres_or_close; [|intros ?]].
Qed.
End combinators.
#[export] Hint Resolve pres_when pres_noted pres_fail_after pres_or_cleanup pres_or_close : io.
Ltac commit_steps :=
  repeat first
    [ solve [eauto with io]
    | progress kept_steps
    | apply pres_when | apply pres_or_cleanup | apply pres_or_close; [|intros ?] | apply pres_noted ].

Section frame.
Context (fault : nat → option nat) (pick : fsys → nat) (outputDir : string) (durable : bool).
Context (J : fsys → Prop) (ours : string → Prop) (inos : nat → Prop) (target : string → Prop).
Context (F : commit_frame J ours inos target).
Context (Hdir : outputDir ≠ "").
Local Notation M := (manifest_path outputDir).
Local Notation lock := (lock_path outputDir).
Context (Hlock : target lock) (Hclean : Clean outputDir = outputDir).
(** Whether the commit has named its lock file. *)
Context (named : bool).
Implicit Types (p d step : string) (i : nat).

(** What the commit believes to be its own is. *)
Definition tracked (c : commit) : Prop :=
  (∀ p, p ∈ c_tempPaths c ++ c_stagePaths c ++ c_finalPaths c ++ c_sidecarPaths c ++ c_createdDirs c → ours p)
  ∧ (c_lockHeld c = true → ours lock) ∧ (c_markerRenamed c = true → ours M)
  ∧ (c_lockHeld c = true ∨ named = true → c_lockPath c = lock)
  ∧ (c_prepared c = true → ∀ n, file_name n → aggregateCommitArtifactName n = true → n ≠ aggregateCommitLockName →
       ours (Join outputDir n)).
Definition held (w : world commit) : Prop := always J w ∧ tracked (w_own w).
Local Notation kept := (pres held).

Lemma held_stable : stable held.
Proof. intros w [HJ HT]. split; (split; [|done]); [exact HJ|]. apply always_set_fs; [done|apply HJ]. Qed.
Hint Resolve held_stable : io.
Lemma held_set_fs w fs : held w → J fs → held (set_fs fs (ticked w)).
Proof. intros [HJ HT] H. split; [by apply always_set_fs|done]. Qed.
Lemma held_J w : held w → J (w_fs w).
Proof. by intros [[H _] _]. Qed.
Lemma kept_call {A} (f : fsys → result (fsys * A)) :
  (∀ fs fs' a, J fs → f fs = Ok (fs', a) → J fs') → kept (call fault f).
Proof.
  intros Hf. apply pres_call; [intros w Hw; by apply held_stable|]. intros w fs a Hw E.
  apply held_set_fs; [done|]. eapply Hf; [by apply held_J|done].
Qed.
(** A call whose result tells a fact. *)
Lemma kept_call_fact {A} (f : fsys → result (fsys * A)) (φ : A → Prop) :
  (∀ fs fs' a, J fs → f fs = Ok (fs', a) → J fs' ∧ φ a) → triple held (call fault f) (λ a w, held w ∧ φ a) held.
Proof.
  intros Hf. apply triple_call; [intros w Hw; by apply held_stable|]. intros w fs a Hw E.
  destruct (Hf (w_fs w) fs a) as [HJ Ha]; [by apply held_J|done|]. split; [by apply held_set_fs|done].
Qed.
Lemma after_step {A} (φ : A → Prop) step (m : io commit A) :
  triple held m (λ a w, held w ∧ φ a) held → triple held (_ ← before fault step; m) (λ a w, held w ∧ φ a) held.
Proof. intros Hm. eapply triple_bind; [apply pres_look, held_stable|]. by intros []. Qed.

(** ** Calls *)
Lemma kept_before step : kept (before fault step).
Proof. apply pres_look, held_stable. Qed.
Lemma kept_Close : kept (os_Close fault).
Proof. apply pres_look, held_stable. Qed.
Lemma kept_Open p : kept (os_Open fault p).
Proof. apply pres_look, held_stable. Qed.
Lemma kept_Stat p : kept (os_Stat fault p).
Proof. apply pres_look, held_stable. Qed.
Lemma kept_SyncData i : kept (os_SyncData fault i).
Proof. apply kept_call. intros fs fs' [] HJ [= <-]. by apply (fr_sync_data _ _ _ _ F). Qed.
Lemma kept_SyncDir d : kept (os_SyncDir fault d).
Proof. apply kept_call. intros fs fs' [] HJ [= <-]. by apply (fr_sync_dir _ _ _ _ F). Qed.
Lemma kept_Write i s : inos i → kept (os_Write fault i s).
Proof.
  intros Hi. apply triple_write; intros; (apply held_set_fs; [done|]); apply (fr_append _ _ _ _ F); (done || by apply held_J).
Qed.
Lemma kept_Remove p : ours p → kept (os_Remove fault p).
Proof.
  intros Hp. apply kept_call. intros fs fs' [] HJ H.
  destruct (f_ns fs !! p) as [[i|]|]; [|destruct (children p fs)|done]; try done; injection H as <-; by apply (fr_remove _ _ _ _ F).
Qed.
Lemma Mkdir_fact p : triple held (os_Mkdir fault p) (λ _ w, held w ∧ ours p) held.
Proof.
  apply kept_call_fact. intros fs fs' [] HJ H. destruct (f_ns fs !! p) eqn:E; [done|]. destruct (parent_exists fs p); [|done].
  injection H as <-. split; [by apply (fr_mkdir _ _ _ _ F)|by apply (fr_fresh _ _ _ _ F fs)].
Qed.
Lemma mkdir_all_kept fuel p : ∀ fs fs', mkdir_all fuel p fs = Ok fs' → J fs → J fs'.
Proof.
  revert p. induction fuel as [|fuel IH]; intros p fs fs' H HJ; simpl in H; destruct (f_ns fs !! p) as [[i|]|] eqn:E; try done;
    try by injection H as <-.
  apply res_bind_ok in H as (fs1 & H1 & H). pose proof (IH _ _ _ H1 HJ) as HJ1.
  destruct (f_ns fs1 !! p) as [[i|]|] eqn:E1; [done|by injection H as <-|]. injection H as <-. by apply (fr_mkdir _ _ _ _ F).
Qed.
Lemma kept_MkdirAll p : kept (os_MkdirAll fault p).
Proof.
  apply kept_call. intros fs fs' [] HJ H. apply res_bind_ok in H as (fs1 & H1 & [= <-]). by eapply mkdir_all_kept.
Qed.
Lemma CreateExcl_fact p : target p → triple held (os_CreateExcl fault p) (λ i w, held w ∧ inos i ∧ ours p) held.
Proof.
  intros Hp. apply kept_call_fact. intros fs fs' i HJ H. destruct (f_ns fs !! p) eqn:E; [done|].
  destruct (parent_exists fs p); [|done]. injection H as <- <-. split_and!.
  - by apply (fr_create _ _ _ _ F).
  - by apply (fr_fresh_ino _ _ _ _ F).
  - by apply (fr_fresh _ _ _ _ F fs).
Qed.
Lemma CreateTemp_fact d prefix suffix :
  (∀ k, target (Join d (prefix +:+ itoa (Z.of_nat k) +:+ suffix))) →
  triple held (os_CreateTemp fault pick d prefix suffix) (λ r w, held w ∧ inos r.1 ∧ ours r.2) held.
Proof.
  intros Hp. apply kept_call_fact. intros fs fs' r HJ H. cbv zeta in H.
  destruct (f_ns fs !! _) eqn:E in H; [done|]. destruct (parent_exists fs _); [|done]. injection H as <- <-. split_and!; simpl.
  - apply (fr_create _ _ _ _ F); [done|apply Hp|done].
  - by apply (fr_fresh_ino _ _ _ _ F).
  - by apply (fr_fresh _ _ _ _ F fs).
Qed.
Lemma kept_Rename src dst : ours src → ours dst → target dst → kept (os_Rename fault src dst).
Proof.
  intros Hs Hd Ht. apply kept_call. intros fs fs' [] HJ H. destruct (f_ns fs !! src) as [e|] eqn:E; [|done].
  destruct (f_ns fs !! dst) as [[i|]|]; try done; injection H as <-; by apply (fr_rename _ _ _ _ F).
Qed.
(** A path that is found missing may be replaced. *)
Lemma Stat_fact p : triple held (attempt (os_Stat fault p))
  (λ r w, held w ∧ ∀ e, r = Err e → IsNotExist e = true → ours p) held.
Proof.
  intros w Hw. unfold attempt, os_Stat, look, call. fold (ticked w). destruct (fault (w_calls w)).
  { split; [by apply held_stable|]. by intros e [= <-]. }
  cbn [w_fs ticked]. destruct (f_ns (w_fs w) !! p) as [[i|]|] eqn:E; simpl.
  - split; [by apply held_stable|done].
  - split; [by apply held_stable|done].
  - split; [by apply held_stable|]. intros _ _ _. apply (fr_fresh _ _ _ _ F (w_fs w)); [by apply held_J|done].
Qed.
Hint Resolve kept_before kept_Close kept_Open kept_Stat kept_SyncData kept_SyncDir kept_MkdirAll : io.

(** ** Combinators *)
Lemma kept_close_after step message e : kept (close_after_failure fault step message e).
Proof. apply pres_close_after, held_stable. Qed.
Hint Resolve kept_close_after : io.
Lemma kept_syncDirectoryPath p step : kept (syncDirectoryPath fault p step).
Proof. apply pres_syncDirectoryPath; [apply held_stable|apply kept_SyncDir]. Qed.
Hint Resolve kept_syncDirectoryPath : io.

(** A change of the commit's own state. *)
Lemma kept_set_own f : (∀ c, tracked c → tracked (f c)) → kept (set_own f).
Proof. intros Hf. apply pres_set_own. intros w [HJ HT]. split; [exact HJ|by apply Hf]. Qed.
Lemma kept_own {A} (k : commit → io commit A) : (∀ c, tracked c → kept (k c)) → kept (own ≫= k).
Proof. intros Hk. apply pres_own. intros c (w & [_ HT] & <-). by apply Hk. Qed.
Lemma tracked_created l c : (∀ p, p ∈ l → ours p) → tracked c → tracked (set_created l c).
Proof.
  intros Hl (H1 & H). split; [|exact H]. intros p. simpl. rewrite !elem_of_app. intros Hp.
  destruct Hp as [Hp|[Hp|[Hp|[Hp|Hp]]]]; (by apply Hl) || (apply H1; rewrite !elem_of_app; tauto).
Qed.
Lemma tracked_add (add : string → commit → commit) p c :
  add ∈ [add_stage; add_final; add_sidecar; add_temp] → ours p → tracked c → tracked (add p c).
Proof.
  intros Ha Hp (H1 & H). split.
  - intros q Hq. assert (q = p ∨ q ∈ c_tempPaths c ++ c_stagePaths c ++ c_finalPaths c ++ c_sidecarPaths c ++ c_createdDirs c)
      as [->|]; [|done|by apply H1].
    rewrite !elem_of_cons in Ha. destruct Ha as [->|[->|[->|[->|[]%elem_of_nil]]]];
      simpl in Hq; rewrite !elem_of_app in *; rewrite list_elem_of_singleton in Hq; tauto.
  - rewrite !elem_of_cons in Ha. destruct Ha as [->|[->|[->|[->|[]%elem_of_nil]]]]; exact H.
Qed.

(** ** Undoing *)
Lemma kept_remove_quiet p : ours p → kept (remove_quiet fault p).
Proof. intros Hp. pose proof (kept_Remove p Hp). unfold remove_quiet. kept_steps. Qed.
Lemma kept_releaseLock : kept (releaseLock fault).
Proof.
  apply kept_own. intros c (_ & HL & _ & Hp & _). destruct (c_lockHeld c); simpl; [|apply pres_ret].
  rewrite Hp by by left. pose proof (kept_Remove _ (HL eq_refl)). kept_steps. apply kept_set_own. intros c' (H1 & H2 & H3 & H4 & H5). split_and!; try done.
  intros [?|?]; [done|]. apply H4. by right.
Qed.
Lemma kept_invalidateMarker : kept (invalidateMarker fault outputDir durable).
Proof.
  apply kept_own. intros c (_ & _ & HM & _). destruct (c_markerRenamed c); simpl; [|apply pres_ret].
  pose proof (kept_remove_quiet _ (HM eq_refl)). kept_steps.
  apply kept_set_own. intros c' (H1 & H2 & H3 & H4 & H5). by split_and!.
Qed.
Lemma kept_clean_directory d : ours d → kept (clean_directory fault durable d).
Proof. intros Hd. pose proof (kept_Remove d Hd). unfold clean_directory. kept_steps. Qed.
Lemma kept_cleanupCreatedDirectories : kept (cleanupCreatedDirectories fault durable).
Proof.
  apply kept_own. intros c (H1 & _). destruct (c_createdDirs c) as [|d ds] eqn:E; [apply pres_ret|]. rewrite <- E.
  apply pres_bind; [|intros es; apply pres_bind; [|intros; apply pres_ret]].
  - apply pres_noted_each. intros a Ha. apply kept_clean_directory, H1. rewrite !elem_of_app. do 4 right.
    rewrite <- E. by apply list_elem_of_In, in_rev, list_elem_of_In.
  - apply kept_set_own. intros c' Hc. apply tracked_created; [|done]. by intros p []%elem_of_nil.
Qed.
Lemma kept_abort : kept (abort fault outputDir durable).
Proof.
  apply kept_own. intros c (H1 & _). destruct (c_committed c); [apply pres_ret|].
  assert (kept (noted_each (clean_path fault) (c_tempPaths c ++ c_stagePaths c ++ c_finalPaths c ++ c_sidecarPaths c))).
  { apply pres_noted_each. intros p Hp. apply pres_noted, pres_wrap. apply pres_bind; [apply kept_before|intros _].
    apply kept_remove_quiet, H1. rewrite !elem_of_app in *. tauto. }
  pose proof kept_invalidateMarker. pose proof kept_releaseLock. pose proof kept_cleanupCreatedDirectories.
  unfold syncDirectory. kept_steps.
Qed.
Hint Resolve kept_releaseLock kept_invalidateMarker kept_cleanupCreatedDirectories kept_abort : io.

(** ** Taking the directory *)
Lemma kept_climb inspect none p : ∀ fuel cur missing, kept (climb fault inspect none p fuel cur missing).
Proof. induction fuel as [|fuel IH]; intros cur missing; unfold climb; fold climb; kept_steps. Qed.
Hint Resolve kept_climb : io.
Lemma kept_probe p : kept (validateLocalDurableCommitSupport fault p).
Proof. unfold validateLocalDurableCommitSupport, probeExistingDirectorySync, existingDirectoryAncestor. kept_steps. Qed.
Lemma kept_create_directory p : kept (create_directory fault p).
Proof.
  unfold create_directory. eapply pres_fact; [apply wrap_fact, after_step, Mkdir_fact|]. cbv beta. intros _ Hp. kept_steps.
  apply kept_set_own. intros c Hc. apply tracked_created; [|done]. intros q. rewrite elem_of_app, list_elem_of_singleton.
  intros [Hq| ->]; [|done]. apply Hc. rewrite !elem_of_app. tauto.
Qed.
Lemma kept_ensureDirectoryDurable p : kept (ensureDirectoryDurable fault p).
Proof.
  unfold ensureDirectoryDurable. kept_steps. apply pres_each. intros q _. apply kept_create_directory.
Qed.
Lemma create_lock_fact : triple held (create_lock fault outputDir) (λ i w, held w ∧ ours lock) held.
Proof.
  unfold create_lock. eapply triple_bind with (Q' := λ r w, held w ∧ ∀ a, r = Ok a → inos a ∧ ours lock).
  { apply attempt_fact, after_step, CreateExcl_fact, Hlock. }
  intros [i|e].
  - intros w [Hw Hi]. split; [done|]. by apply (Hi i).
  - intros w [Hw _]. by destruct (IsExist e).
Qed.
Lemma or_cleanup_fact {A} (φ : A → Prop) (m : io commit A) cleanup :
  triple held m (λ a w, held w ∧ φ a) held → kept cleanup → triple held (or_cleanup m cleanup) (λ a w, held w ∧ φ a) held.
Proof.
  intros Hm Hc. unfold or_cleanup. eapply triple_bind; [by apply attempt_fact|]. intros [a|e].
  - intros w [Hw Ha]. split; [done|by apply Ha].
  - apply triple_pre with held; [by intros w []|]. by apply fail_after_fails.
Qed.
(** A directory without a foreign artifact holds none of the paths to be written. *)
Lemma ReadDir_fact : triple held (os_ReadDir fault outputDir)
  (λ names w, held w ∧ (foreign_artifact names = None → ∀ n, file_name n → aggregateCommitArtifactName n = true →
     n ≠ aggregateCommitLockName → ours (Join outputDir n))) held.
Proof.
  apply kept_call_fact. intros fs fs' names HJ H. apply res_bind_ok in H as (names' & [= <-] & [= <- <-]). split; [done|].
  intros Hnone n Hn Ha Hl. destruct (f_ns fs !! Join outputDir n) as [e|] eqn:E; [|by eapply (fr_fresh _ _ _ _ F fs)].
  exfalso. destruct (Dir_Join outputDir n Hdir Hn) as [Hd Hb].
  assert (Join outputDir n ∈ children outputDir fs) as Hc.
  { unfold children. apply list_elem_of_filter. split; [split; [by rewrite Hd|by apply Join_ne]|].
    apply list_elem_of_fmap. exists (Join outputDir n, e). split; [done|]. by apply elem_of_map_to_list. }
  pose proof (find_none _ _ Hnone n) as Hf. cbv beta in Hf. rewrite Ha, andb_true_r in Hf.
  apply String.eqb_neq in Hl. rewrite Hl in Hf. discriminate Hf. apply list_elem_of_In, list_elem_of_fmap. by exists (Join outputDir n).
Qed.
Hint Resolve kept_probe kept_ensureDirectoryDurable : io.

(** ** Writing *)
Lemma kept_finalizeShard f : kept (finalizeShard fault durable f).
Proof. unfold finalizeShard. kept_steps. Qed.
Lemma kept_commit_shard stage final : ours stage → ours final → target final → kept (commit_shard fault (stage, final)).
Proof.
  intros Hs Hf Ht. pose proof (kept_Rename _ _ Hs Hf Ht). unfold commit_shard. simpl. kept_steps.
  apply kept_set_own. intros c. apply tracked_add; [|done]. set_solver.
Qed.
Lemma kept_commitShards stages finals :
  (∀ p, p ∈ stages → ours p) → (∀ p, p ∈ finals → ours p ∧ target p) →
  kept (commitShards fault outputDir durable stages finals).
Proof.
  intros Hs Hf. unfold commitShards, syncDirectory. apply pres_bind; [|intros _; kept_steps]. apply pres_each.
  intros [stage final] Hin. pose proof (Hf _ (elem_of_zip_r _ _ _ _ Hin)) as [Ho Ht].
  apply kept_commit_shard; [eapply Hs, elem_of_zip_l; exact Hin|done..].
Qed.
End frame.

(** *** The names of temporary files *)
Definition temp_name (n : string) (k : nat) : string := ("." +:+ n +:+ ".") +:+ itoa (Z.of_nat k) +:+ ".tmp".
Definition temp_path (outputDir path : string) (k : nat) : string := Join outputDir (temp_name (base_part path) k).
Lemma temp_name_suffix n k : has_suffix ".tmp" (temp_name n k) = true.
Proof. apply has_suffix_spec. exists (("." +:+ n +:+ ".") +:+ itoa (Z.of_nat k)). unfold temp_name. by rewrite !sapp_assoc. Qed.
Lemma temp_name_ok n k : file_name n → file_name (temp_name n k).
Proof.
  intros Hn. unfold temp_name. apply file_name_long.
  - by rewrite !scontains_app, (file_name_slash _ Hn), itoa_no_slash.
  - rewrite !slen_app. simpl. lia.
Qed.
Lemma suffix_ne p s t : has_suffix p s = true → has_suffix p t = false → s ≠ t.
Proof. intros H1 H2 ->. congruence. Qed.
Lemma temp_path_Join d n k : d ≠ "" → file_name n → temp_path d (Join d n) k = Join d (temp_name n k).
Proof. intros Hd Hn. unfold temp_path. by destruct (Dir_Join d n Hd Hn) as [_ ->]. Qed.
Lemma temp_path_ne d n k n' : d ≠ "" → file_name n → file_name n' → has_suffix ".tmp" n' = false →
  temp_path d (Join d n) k ≠ Join d n'.
Proof.
  intros Hd Hn Hn' Hs. rewrite temp_path_Join by done. intros E. apply Join_inj in E; [|done|by apply temp_name_ok|done].
  revert E. apply suffix_ne with ".tmp"; [apply temp_name_suffix|done].
Qed.

(** ** The operations that take the directory first *)
Section taking.
Context (fault : nat → option nat) (pick : fsys → nat) (outputDir : string) (durable : bool).
Context (J : fsys → Prop) (ours : string → Prop) (inos : nat → Prop) (target : string → Prop).
Context (F : commit_frame J ours inos target).
Context (Hdir : outputDir ≠ "") (Hlock : target (lock_path outputDir)) (Hclean : Clean outputDir = outputDir).
Local Notation held b := (held outputDir J ours b).
Local Notation kept := (pres (held false)).
Local Notation tracked b := (tracked outputDir ours b).
Hint Resolve held_stable kept_before kept_Close kept_SyncData kept_SyncDir kept_Remove kept_close_after kept_syncDirectoryPath kept_releaseLock kept_invalidateMarker
  kept_cleanupCreatedDirectories kept_abort kept_probe kept_ensureDirectoryDurable kept_MkdirAll : io.

Lemma held_weaken w : held true w → held false w.
Proof. intros [HJ (H1 & H2 & H3 & H4 & H5)]. split; [done|]. split_and!; try done. intros [?|?]; [|done]. apply H4. by left. Qed.
(** None of the paths that are to be written exists. *)
Definition clear : Prop := ∀ n, file_name n → aggregateCommitArtifactName n = true → n ≠ aggregateCommitLockName →
  ours (Join outputDir n).
Lemma tracked_name c : tracked false c → tracked true (set_lockPath (lock_path outputDir) c).
Proof. intros (H1 & H2 & H3 & H4 & H5). by split_and!. Qed.
Lemma own_directory_fact :
  triple (held true) (own_directory fault outputDir durable) (λ _ w, held true w ∧ clear) (held true).
Proof.
  unfold own_directory, closeOwnershipAfterFailure, syncDirectory. eapply (bind_fact (λ _, ours (lock_path outputDir))).
  { apply or_cleanup_fact; [eapply create_lock_fact; eassumption|eauto with io]. }
  intros i Hi. apply pres_then.
  { apply kept_set_own. intros c (H1 & H2 & H3 & H4 & H5). split_and!; try done. intros _. apply H4. by right. }
  intros _. do 4 (apply pres_then; [commit_steps|intros _]).
  eapply bind_fact; [apply or_cleanup_fact; [apply wrap_fact; eapply ReadDir_fact; eassumption|eauto with io]|].
  cbv beta. intros names Hn. destruct (foreign_artifact names); [|specialize (Hn eq_refl)].
  - apply fail_after_fails. eauto with io.
  - apply triple_set_own. intros w [HJ (H1 & H2 & H3 & H4 & _)]. split; [|exact Hn]. split; [exact HJ|].
    by split_and!.
Qed.
Lemma prepare_fact : triple (held false) (prepare fault outputDir durable) (λ _ w, held false w ∧ clear) (held false).
Proof.
  apply triple_own. intros c0. destruct (c_prepared c0) eqn:Hp.
  { apply triple_ret. intros w [Hw <-]. split; [done|]. destruct Hw as [_ (_ & _ & _ & _ & Hc)]. exact (Hc Hp). }
  apply triple_pre with (held false); [by intros w []|].
  apply pres_then; [eauto with io|intros _]. apply pres_then; [destruct durable; commit_steps|intros _].
  eapply triple_bind with (Q' := λ _, held true).
  { apply triple_set_own. intros w [HJ HT]. split; [exact HJ|by apply tracked_name]. }
  intros _. eapply triple_conseq; [apply own_directory_fact|done| |apply held_weaken].
  intros _ w [Hw Hc]. split; [by apply held_weaken|done].
Qed.
Lemma kept_prepare : kept (prepare fault outputDir durable).
Proof. eapply triple_conseq; [apply prepare_fact|done|by intros _ w []|done]. Qed.
Hint Resolve kept_prepare : io.

(** ** What is written *)
Lemma openShard_fact final : target (final +:+ ".partial") →
  triple (held false) (openShard fault outputDir durable final)
    (λ r w, held false w ∧ inos r.1 ∧ ours r.2 ∧ clear) (held false).
Proof.
  intros Ht. unfold openShard. eapply bind_fact; [apply prepare_fact|]. cbv beta. intros _ Hc.
  eapply bind_fact; [apply wrap_fact, after_step; eapply CreateExcl_fact; eassumption|]. cbv beta. intros i [Hi Ho].
  apply pres_then. { apply kept_set_own. intros c. apply tracked_add; [|done]. set_solver. }
  intros _. by apply triple_ret.
Qed.
Lemma stage_file_fact kind path data :
  (∀ k, target (temp_path outputDir path k)) →
  triple (held false) (stage_file fault pick outputDir durable kind path data)
    (λ temp w, held false w ∧ ours temp ∧ ours path) (held false).
Proof.
  intros Ht. unfold stage_file. apply pres_then; [apply kept_prepare|intros _].
  destruct (negb _); [by apply triple_fail|]. eapply triple_bind; [eapply (Stat_fact fault outputDir); eassumption|]. cbv beta.
  intros [b|e]; [apply triple_fail; by intros w []|]. destruct (negb (IsNotExist e)) eqn:He.
  { apply triple_fail. by intros w []. }
  apply negb_false_iff in He. apply triple_pure. intros Ho. specialize (Ho e eq_refl He).
  eapply bind_fact; [apply wrap_fact, after_step; eapply CreateTemp_fact; eassumption|]. cbv beta. intros [f temp] [Hf Hto].
  simpl in Hf, Hto. assert (∀ s, kept (os_Write fault f s)) as Hwr by (intros; eapply kept_Write; eassumption).
  apply pres_then. { apply kept_set_own. intros c. apply tracked_add; [|done]. set_solver. }
  intros _. unfold closeTemporaryAfterFailure, write_buffered, flush_buffered.
  do 5 (apply pres_then; [commit_steps|intros _]). by apply triple_ret.
Qed.
Lemma kept_rename_file kind temp path : ours temp → ours path → target path → kept (rename_file fault kind temp path).
Proof.
  intros Ht Hp Htp. apply pres_wrap, pres_bind; [eauto with io|intros _]. eapply kept_Rename; eassumption.
Qed.
Lemma writeAtomicFile_fact kind path data :
  target path → (∀ k, target (temp_path outputDir path k)) →
  triple (held false) (writeAtomicFile fault pick outputDir durable kind path data)
    (λ p w, held false w ∧ p = path ∧ ours p) (held false).
Proof.
  intros Hp Ht. unfold writeAtomicFile. eapply bind_fact; [by apply stage_file_fact|]. cbv beta. intros temp [Hto Ho].
  apply pres_then; [commit_steps|intros _]. apply pres_then; [by apply kept_rename_file|intros _]. by apply triple_ret.
Qed.
Lemma kept_writeSidecar path data :
  target path → (∀ k, target (temp_path outputDir path k)) → kept (writeSidecar fault pick outputDir durable path data).
Proof.
  intros Hp Ht. unfold writeSidecar. eapply pres_fact; [by apply writeAtomicFile_fact|]. cbv beta. intros p [-> Ho].
  apply kept_set_own. intros c. apply tracked_add; [|done]. set_solver.
Qed.
Lemma kept_writeManifest data :
  target (manifest_path outputDir) → (∀ k, target (temp_path outputDir (manifest_path outputDir) k)) →
  kept (writeManifest fault pick outputDir durable (manifest_path outputDir) data).
Proof.
  intros Hp Ht. unfold writeManifest, syncDirectory. eapply pres_fact; [by apply writeAtomicFile_fact|]. cbv beta. intros p [-> Ho].
  commit_steps; apply kept_set_own; intros c (H1 & H2 & H3 & H4 & H5); by split_and!.
Qed.
End taking.

(** *** A step that fails when its inner program does *)
Lemma or_close_ok {A} (P : world commit → Prop) (m : io commit A) close Q :
  triple P m Q none → triple P (or_close m close) Q none.
Proof.
  intros Hm w Hw. specialize (Hm w Hw). unfold or_close, attempt, mbind, io_bind. destruct (m w) as [w' [a|e]]; [exact Hm|].
  by destruct (close e w') as [w'' [e'|e']].
Qed.
Lemma or_cleanup_ok {A} (P : world commit → Prop) (m : io commit A) cleanup Q :
  triple P m Q none → triple P (or_cleanup m cleanup) Q none.
Proof.
  intros Hm w Hw. specialize (Hm w Hw). unfold or_cleanup, fail_after, attempt, mbind, io_bind.
  destruct (m w) as [w' [a|e]]; [exact Hm|]. by destruct (cleanup w') as [w'' [e'|e']].
Qed.

(** ** Two frames *)

(** No file is at [p], nor may be after a crash. *)
Lemma no_file_frame p : commit_frame (no_file p) (λ _, True) (λ _, True) (λ q, q ≠ p).
Proof.
  split; intros; try done.
  - apply no_file_set_entry; [by right|done].
  - apply no_file_set_entry; [by right|done].
  - by apply no_file_new_file.
  - by apply no_file_sync_dir.
  - by apply no_file_rename.
Qed.

(** What there was before is unchanged. *)
Definition files_numbered (fs : fsys) : Prop := ∀ i, is_Some (f_data fs !! i) → i < f_next fs.
Record unchanged (fs0 fs : fsys) : Prop := {
  un_ns p e : f_ns fs0 !! p = Some e → f_ns fs !! p = Some e;
  un_data i s : f_data fs0 !! i = Some s → f_data fs !! i = Some s;
  un_next : f_next fs0 ≤ f_next fs;
}.
Lemma unchanged_refl fs : unchanged fs fs.
Proof. by split. Qed.
Lemma unchanged_set_entry fs0 fs p v : f_ns fs0 !! p = None → unchanged fs0 fs → unchanged fs0 (set_entry p v fs).
Proof. intros Hp [H1 H2 H3]. split; [|done..]. intros q e Hq. rewrite ns_set_entry, decide_False by congruence. by apply H1. Qed.
Lemma unchanged_absent fs0 fs p : unchanged fs0 fs → f_ns fs !! p = None → f_ns fs0 !! p = None.
Proof. intros H Hp. destruct (f_ns fs0 !! p) as [e|] eqn:E; [|done]. apply (un_ns _ _ H) in E. congruence. Qed.
Lemma unchanged_frame fs0 : files_numbered fs0 →
  commit_frame (unchanged fs0) (λ p, f_ns fs0 !! p = None) (λ i, f_next fs0 ≤ i) (λ _, True).
Proof.
  intros Hn. assert (∀ i s, f_next fs0 ≤ i → f_data fs0 !! i = Some s → False) as Hi.
  { intros i s H Hs. pose proof (Hn i (mk_is_Some _ _ Hs)). lia. }
  split.
  - apply unchanged_absent.
  - intros fs [_ _ H]. exact H.
  - intros. by apply unchanged_set_entry.
  - intros fs p Hp H. apply unchanged_set_entry; [by eapply unchanged_absent|done].
  - intros fs p Hp _ H. pose proof (unchanged_absent _ _ _ H Hp) as Hp0.
    destruct (unchanged_set_entry fs0 fs p (Some (EFile (f_next fs))) Hp0 H) as [H1 H2 H3]. split; simpl; [exact H1| |simpl in H3; lia].
    intros i s Hs. rewrite lookup_insert_ne; [by apply (un_data _ _ H)|]. intros <-.
    eapply Hi; [exact (un_next _ _ H)|exact Hs].
  - intros fs i t Hge [H1 H2 H3]. split; simpl; [done| |done]. intros j s Hs. rewrite lookup_insert_ne; [by apply H2|]. intros <-.
    eapply Hi; [exact Hge|exact Hs].
  - intros fs i [H1 H2 H3]. by split.
  - intros fs d [H1 H2 H3]. by split.
  - intros fs src dst e Hs Hd _ _ H. unfold rename_entry. by do 2 (apply unchanged_set_entry; [done|]).
Qed.
