(* ===== verification/DurableShards.v ===== *)
(** * Files that survive a crash

    The shards of a commit from the staging files to the renamed and synced
    ones, and what each step of the protocol does to them. *)
From Stdlib Require Import Ascii ZArith Lia.
From stdpp Require Import base list strings gmap sets.
From S2P Require Import Prelude GoStrings GoStrconv GoValue GoPath DurableFs DurableFsSpec DurableCommit DurableCommitSpec.

(** A shard: where it belongs, its file and its contents. *)
Record shard_file := { sf_path : string; sf_ino : nat; sf_data : string }.
Definition sf_stage (f : shard_file) : string := sf_path f +:+ ".partial".
Implicit Types (f g : shard_file) (files : list shard_file) (fs : fsys) (p q d s : string) (i j : nat).

(** In its staging file, synced; and in its place, there after any crash. *)
Definition staged fs f : Prop := holds_file (sf_stage f) (sf_ino f) (sf_data f) fs.
Definition synced fs f : Prop := f_safe fs !! sf_ino f = Some (sf_data f).
Definition placed fs f : Prop := holds_file (sf_path f) (sf_ino f) (sf_data f) fs.
Definition solid fs f : Prop := placed fs f ∧ on_disk (sf_path f) (sf_ino f) (sf_data f) fs.
Definition fresh_ino i files : Prop := ∀ f, f ∈ files → sf_ino f ≠ i.

(** ** Staging files *)
Lemma staged_new fs files p : f_ns fs !! p = None → Forall (staged fs) files →
  Forall (staged (new_file p fs)) files ∧ fresh_ino (f_next fs) files.
Proof.
  intros Hp Hf. rewrite Forall_forall in Hf. split.
  - apply Forall_forall. intros f Hin. pose proof (Hf f Hin) as (H1 & H). apply holds_new_file; [|by apply Hf].
    intros ->. congruence.
  - intros f Hin. destruct (Hf f Hin) as (_ & _ & H). lia.
Qed.
Lemma staged_append fs files i s : fresh_ino i files → Forall (staged fs) files → Forall (staged (append_data i s fs)) files.
Proof.
  intros Hi. rewrite !Forall_forall. intros Hf f Hin. apply holds_append; [|by apply Hf]. intros ->. by apply (Hi f).
Qed.
Lemma staged_distinct fs f g : staged fs f → staged fs g → sf_ino f ≠ sf_ino g → sf_path f ≠ sf_path g ∧ sf_stage f ≠ sf_stage g.
Proof.
  intros (H1 & _) (H2 & _) Hne. assert (sf_stage f ≠ sf_stage g) by (intros E; rewrite E in H1; congruence).
  split; [|done]. intros E. unfold sf_stage in *. congruence.
Qed.

(** ** Files in place *)
Section solid.
Context (files : list shard_file).
Lemma solid_set_entry fs q v : (∀ f, f ∈ files → sf_path f ≠ q) → Forall (solid fs) files → Forall (solid (set_entry q v fs)) files.
Proof.
  rewrite !Forall_forall. intros Hq Hf f Hin. destruct (Hf f Hin) as [H1 H2]. pose proof (Hq f Hin).
  split; [by apply holds_set_entry|by apply on_disk_set_entry].
Qed.
Lemma solid_new_file fs q : f_ns fs !! q = None → Forall (solid fs) files →
  Forall (solid (new_file q fs)) files ∧ fresh_ino (f_next fs) files.
Proof.
  intros Hq Hf. rewrite Forall_forall in Hf. split.
  - apply Forall_forall. intros f Hin. destruct (Hf f Hin) as [H1 H2]. pose proof H1 as (Hp & _ & Hi).
    assert (q ≠ sf_path f) by (intros ->; congruence). split; [by apply holds_new_file|by apply on_disk_new_file].
  - intros f Hin. destruct (Hf f Hin) as [(_ & _ & H) _]. lia.
Qed.
Lemma solid_append fs i s : fresh_ino i files → Forall (solid fs) files → Forall (solid (append_data i s fs)) files.
Proof.
  intros Hi. rewrite !Forall_forall. intros Hf f Hin. destruct (Hf f Hin) as [H1 H2].
  assert (i ≠ sf_ino f) by (intros ->; by apply (Hi f)). split; [by apply holds_append|by apply on_disk_append].
Qed.
Lemma solid_sync_data fs i : Forall (solid fs) files → Forall (solid (sync_data i fs)) files.
Proof.
  rewrite !Forall_forall. intros Hf f Hin. destruct (Hf f Hin) as [H1 H2]. split; [exact H1|].
  apply on_disk_sync_data; [|done]. intros _. apply H1.
Qed.
Lemma solid_sync_dir fs d : Forall (solid fs) files → Forall (solid (sync_dir d fs)) files.
Proof.
  rewrite !Forall_forall. intros Hf f Hin. destruct (Hf f Hin) as [H1 H2]. split; [exact H1|].
  apply on_disk_sync_dir; [apply H1|done].
Qed.
Lemma solid_rename fs src dst e : (∀ f, f ∈ files → sf_path f ≠ src) → (∀ f, f ∈ files → sf_path f ≠ dst) →
  Forall (solid fs) files → Forall (solid (rename_entry src dst e fs)) files.
Proof. intros Hs Hd H. by do 2 (apply solid_set_entry; [done|]). Qed.
End solid.

(** ** What the operations of a durable commit do when they succeed *)
Section calls.
Context (fault : nat → option nat) (pick : fsys → nat) (outputDir : string).
Context (K : fsys → Prop) (X : commit → Prop).
Local Notation st' := (st K X).

Lemma before_st step : triple st' (before fault step) (λ _, st') none.
Proof. apply look_st. Qed.
Lemma Close_st : triple st' (os_Close fault) (λ _, st') none.
Proof. apply look_st. Qed.
Lemma SyncData_st i K' : (∀ fs, K fs → K' (sync_data i fs)) → triple st' (os_SyncData fault i) (λ _, st K' X) none.
Proof. intros HK. apply (call_st K X fault _ (λ _, K')). intros fs fs' [] H [= <-]. by apply HK. Qed.
Lemma SyncDir_st d K' : (∀ fs, K fs → K' (sync_dir d fs)) → triple st' (os_SyncDir fault d) (λ _, st K' X) none.
Proof. intros HK. apply (call_st K X fault _ (λ _, K')). intros fs fs' [] H [= <-]. by apply HK. Qed.
Lemma CreateExcl_st p : triple st' (os_CreateExcl fault p)
  (λ i, st (λ fs, ∃ fs1, K fs1 ∧ f_ns fs1 !! p = None ∧ i = f_next fs1 ∧ fs = new_file p fs1) X) none.
Proof.
  apply call_st. intros fs fs' i HK H. destruct (f_ns fs !! p) eqn:E; [done|]. destruct (parent_exists fs p); [|done].
  injection H as <- <-. by exists fs.
Qed.
Lemma CreateTemp_st d prefix suffix : triple st' (os_CreateTemp fault pick d prefix suffix)
  (λ r, st (λ fs, ∃ fs1 k, K fs1 ∧ f_ns fs1 !! r.2 = None ∧ r.1 = f_next fs1 ∧ fs = new_file r.2 fs1
                         ∧ r.2 = Join d (prefix +:+ itoa (Z.of_nat k) +:+ suffix)) X) none.
Proof.
  apply call_st. intros fs fs' r HK H. cbv zeta in H. destruct (f_ns fs !! _) eqn:E in H; [done|].
  destruct (parent_exists fs _); [|done]. injection H as <- <-. by exists fs, (pick fs).
Qed.
Lemma Rename_st src dst : triple st' (os_Rename fault src dst)
  (λ _, st (λ fs, ∃ fs1 e, K fs1 ∧ f_ns fs1 !! src = Some e ∧ fs = rename_entry src dst e fs1) X) none.
Proof.
  apply (call_st K X fault _ (λ _, _)). intros fs fs' [] HK H. destruct (f_ns fs !! src) as [e|] eqn:E; [|done].
  destruct (f_ns fs !! dst) as [[j|]|]; try done; injection H as <-; by exists fs, e.
Qed.
Lemma Write_st i s K' : (∀ fs, K fs → K' (append_data i s fs)) → triple st' (os_Write fault i s) (λ _, st K' X) none.
Proof. intros HK. apply triple_write; [done|]. intros w [H HX]. split; [by apply HK|done]. Qed.
Lemma after_before {A} step (m : io commit A) Q : triple st' m Q none → triple st' (_ ← before fault step; m) Q none.
Proof. intros Hm. eapply then_st; [apply before_st|]. by intros []. Qed.
Lemma syncDirectoryPath_st d step K' : (∀ fs, K fs → K' (sync_dir d fs)) →
  triple st' (syncDirectoryPath fault d step) (λ _, st K' X) none.
Proof.
  intros HK. unfold syncDirectoryPath. eapply then_st; [apply triple_wrap, after_before, look_st|intros _].
  eapply then_st; [by apply or_close_ok, triple_wrap, after_before, SyncDir_st|intros _].
  eapply then_st; [apply or_close_ok, triple_wrap, look_st|intros _]. apply triple_wrap, look_st.
Qed.
End calls.

(** *** Taking the directory and opening a shard *)
Section shards.
Context (fault : nat → option nat) (pick : fsys → nat) (outputDir : string).
Local Notation M := (manifest_path outputDir).

Lemma any_then {A B} (m : io commit A) (f : A → io commit B) Q :
  (∀ a, triple (λ _, True) (f a) Q none) → triple (λ _, True) (m ≫= f) Q none.
Proof. intros Hf. apply triple_bind with (Q' := λ _ _, True); [|exact Hf]. intros w _. by destruct (m w) as [w' [a|e]]. Qed.
(** After [prepare] the directory is taken; when it was already, nothing happens. *)
Lemma prepare_prepared : triple (λ _, True) (prepare fault outputDir true) (λ _ w, c_prepared (w_own w) = true) none.
Proof.
  apply triple_own. intros c. destruct (c_prepared c) eqn:E; [apply triple_ret; by intros w [_ <-]|].
  apply triple_pre with (λ _, True); [done|]. do 3 (apply any_then; intros ?).
  unfold own_directory. do 7 (apply any_then; intros ?).
  destruct (foreign_artifact _); [|by apply triple_set_own]. apply any_then. intros es. by apply triple_fail.
Qed.
(** A fact about the files, unless there are none yet. *)
Definition if_prepared (K : fsys → Prop) (w : world commit) : Prop :=
  K (w_fs w) ∧ (c_prepared (w_own w) = true ∨ ∀ fs, K fs).
Lemma prepare_st K : triple (if_prepared K) (prepare fault outputDir true) (λ _, st K (λ c, c_prepared c = true)) none.
Proof.
  intros w [HK [Hp|Hall]].
  - unfold prepare, own, mbind, io_bind. rewrite Hp. by split.
  - pose proof (prepare_prepared w I) as H. destruct (prepare _ _ _ w) as [w' [[]|e]]; [by split|done].
Qed.
Lemma openShard_st K final : triple (if_prepared K) (openShard fault outputDir true final)
  (λ r, st (λ fs, r.2 = final +:+ ".partial" ∧ ∃ fs1, K fs1 ∧ f_ns fs1 !! r.2 = None ∧ r.1 = f_next fs1 ∧ fs = new_file r.2 fs1)
          (λ c, c_prepared c = true)) none.
Proof.
  unfold openShard. eapply then_st; [apply prepare_st|intros _]. cbv zeta.
  eapply triple_bind; [apply triple_wrap, after_before, CreateExcl_st|]. cbv beta. intros i.
  eapply then_st; [by apply set_own_st with (X' := λ c, c_prepared c = true)|intros _]. apply triple_ret.
  intros w [HK HX]. by split.
Qed.
Lemma finalizeShard_st K K' X i : (∀ fs, K fs → K' (sync_data i fs)) →
  triple (st K X) (finalizeShard fault true i) (λ _, st K' X) none.
Proof.
  intros HK. unfold finalizeShard. simpl. eapply then_st; [by apply triple_wrap, after_before, SyncData_st|intros _].
  apply triple_wrap, after_before, Close_st.
Qed.
(** *** Moving the shards to their places *)
Definition moving (done rest : list shard_file) fs : Prop :=
  Forall (placed fs) done ∧ Forall (staged fs) rest ∧ Forall (synced fs) (done ++ rest).
(** No place is a staging place. *)
Definition apart files : Prop := ∀ f g, f ∈ files → g ∈ files → sf_path f ≠ sf_stage g.
Lemma staged_NoDup fs files : Forall (staged fs) files → NoDup (sf_ino <$> files) →
  NoDup (sf_path <$> files).
Proof.
  induction files as [|f files IH]; intros Hs Hn; [constructor|]. rewrite fmap_cons in *. apply NoDup_cons in Hn as [Hf Hn].
  pose proof Hs as Hs'. apply Forall_cons in Hs as [Hsf Hs]. apply NoDup_cons. split; [|by apply IH].
  intros (g & E & Hg)%list_elem_of_fmap. rewrite Forall_forall in Hs. destruct (staged_distinct fs f g Hsf (Hs g Hg)); [|done].
  intros Ei. apply Hf. rewrite Ei. by apply list_elem_of_fmap_2.
Qed.
Lemma sf_stage_inj f g : sf_stage f = sf_stage g → sf_path f = sf_path g.
Proof.
  unfold sf_stage. intros H. apply (f_equal String.rev) in H. rewrite !srev_app in H. apply sapp_inj_l in H.
  rewrite <- (srev_involutive (sf_path f)), <- (srev_involutive (sf_path g)). by f_equal.
Qed.
Lemma moving_rename done f rest fs e :
  NoDup (sf_path <$> done ++ f :: rest) → apart (done ++ f :: rest) → f_ns fs !! sf_stage f = Some e →
  moving done (f :: rest) fs → moving (done ++ [f]) rest (rename_entry (sf_stage f) (sf_path f) e fs).
Proof.
  intros Hn Ha He (Hd & Hr & Hs). apply Forall_cons in Hr as [Hf Hr]. rewrite fmap_app, fmap_cons in Hn.
  apply NoDup_app in Hn as (_ & Hdis & Hn). apply NoDup_cons in Hn as [Hnf _].
  assert (e = EFile (sf_ino f)) as -> by (destruct Hf as [Hf _]; congruence).
  assert (sf_stage f ≠ sf_path f) by (apply not_eq_sym, Ha; set_solver).
  rewrite Forall_forall in Hd, Hr. split_and!.
  - apply Forall_app. split; [|apply Forall_singleton; by apply holds_renamed]. apply Forall_forall. intros g Hg.
    apply holds_rename; [apply not_eq_sym, Ha; set_solver| |by apply Hd].
    intros E. apply (Hdis (sf_path g)); [by apply list_elem_of_fmap_2|]. rewrite <- E. left.
  - apply Forall_forall. intros g Hg. assert (sf_path g ≠ sf_path f) by (intros E; apply Hnf; rewrite <- E; by apply list_elem_of_fmap_2).
    apply holds_rename; [|apply Ha; set_solver|by apply Hr]. intros E. by apply sf_stage_inj in E.
  - by rewrite <- app_assoc.
Qed.
Lemma commit_each_st rest : ∀ done, NoDup (sf_path <$> done ++ rest) → apart (done ++ rest) →
  triple (st (moving done rest) (λ c, c_prepared c = true))
    (io_each (commit_shard fault) (zip (sf_stage <$> rest) (sf_path <$> rest)))
    (λ _, st (moving (done ++ rest) []) (λ c, c_prepared c = true)) none.
Proof.
  induction rest as [|f rest IH]; intros done Hn Ha.
  - rewrite app_nil_r. by apply triple_ret.
  - cbn [fmap list_fmap zip zip_with io_each]. specialize (IH (done ++ [f])). rewrite <- !app_assoc in IH.
    eapply then_st; [|intros _; by apply IH]. unfold commit_shard. simpl.
    eapply triple_bind; [apply triple_wrap, after_before, Rename_st|]. cbv beta. intros _.
    apply triple_pre with (st (moving (done ++ [f]) rest) (λ c, c_prepared c = true)).
    + intros w [(fs1 & e & HK & He & Hfs) HX]. split; [|done]. rewrite Hfs. by apply moving_rename.
    + by apply set_own_st.
Qed.
Lemma commitShards_st files :
  NoDup (sf_ino <$> files) → apart files → (∀ f, f ∈ files → Dir (sf_path f) = outputDir) →
  triple (st (λ fs, Forall (staged fs) files ∧ Forall (synced fs) files) (λ c, c_prepared c = true))
    (commitShards fault outputDir true (sf_stage <$> files) (sf_path <$> files))
    (λ _, st (λ fs, Forall (solid fs) files) (λ c, c_prepared c = true)) none.
Proof.
  intros Hn Ha Hdir. apply triple_know with (NoDup (sf_path <$> files)).
  { intros w [[Hs _] _]. by eapply staged_NoDup. }
  intros Hp. unfold commitShards, syncDirectory. simpl. eapply then_st.
  - apply triple_pre with (st (moving [] files) (λ c, c_prepared c = true)); [|by apply commit_each_st].
    intros w [[Hs Hy] HX]. split; [|done]. by split_and!.
  - intros _. apply syncDirectoryPath_st. intros fs (H1 & _ & H2). rewrite app_nil_l, app_nil_r in H2. rewrite app_nil_l in H1.
    rewrite Forall_forall in H1, H2. apply Forall_forall. intros f Hf. pose proof (H1 f Hf) as H. split; [exact H|].
    apply sync_dir_on_disk; [by apply Hdir|apply H|by apply H2].
Qed.
End shards.

(** ** What the removals and the directory syncs of a clean-up keep *)
Lemma pres_Remove {C} fault (P : world C → Prop) p : stable P →
  (∀ w, P w → P (set_fs (set_entry p None (w_fs w)) (ticked w))) → pres P (os_Remove fault p).
Proof.
  intros HP H. apply pres_call; [intros w; by apply HP|]. intros w fs [] Hw E.
  assert (fs = set_entry p None (w_fs w)) as -> by (destruct (f_ns (w_fs w) !! p) as [[j|]|]; [|destruct (children p (w_fs w))|]; congruence).
  by apply H.
Qed.
Section cleaning.
Context (fault : nat → option nat) (outputDir : string) (durable : bool) (P : world commit → Prop).
Context (HP : stable P) (Hsync : ∀ d, pres P (os_SyncDir fault d)) (Hown : ∀ h : commit → commit, pres P (set_own h)).
Lemma clean_sync d step : pres P (syncDirectoryPath fault d step).
Proof. by apply pres_syncDirectoryPath. Qed.
Lemma clean_invalidate : pres P (os_Remove fault (manifest_path outputDir)) → pres P (invalidateMarker fault outputDir durable).
Proof.
  intros Hrem. pose proof clean_sync. unfold invalidateMarker, before, remove_quiet, syncDirectory. apply pres_own. intros c _.
  destruct (negb (c_markerRenamed c)); kept_steps.
Qed.
Context (Hremove : ∀ p, pres P (os_Remove fault p)).
Lemma clean_releaseLock : pres P (releaseLock fault).
Proof. unfold releaseLock, before. apply pres_own. intros c _. kept_steps. Qed.
Lemma clean_paths l : pres P (noted_each (clean_path fault) l).
Proof. apply pres_noted_each. intros p _. unfold clean_path, before, remove_quiet. apply pres_noted. kept_steps. Qed.
Lemma clean_directories : pres P (cleanupCreatedDirectories fault durable).
Proof.
  pose proof clean_sync. unfold cleanupCreatedDirectories. apply pres_own. intros c _. destruct (c_createdDirs c) as [|d l]; [apply pres_ret|].
  apply pres_bind; [apply pres_noted_each; intros; unfold clean_directory, before; kept_steps|]. intros es. kept_steps.
Qed.
(** The first thing an abort does: it withdraws the manifest. *)
Definition withdrawal : io commit (list gerror) :=
  c ← own; if c_committed c then mret [] else noted (invalidateMarker fault outputDir durable).
Lemma abort_after_withdrawal (P0 : world commit → Prop) :
  triple P0 withdrawal (λ _, P) P → triple P0 (abort fault outputDir durable) (λ _, P) P.
Proof.
  intros Hw. apply triple_state. intros c. unfold abort. apply triple_own. intros c'.
  apply triple_know with (c' = c); [by intros w [[_ <-] <-]|]. intros ->.
  assert (triple (λ w, P0 w ∧ w_own w = c) (if c_committed c then mret [] else noted (invalidateMarker fault outputDir durable)) (λ _, P) P) as H.
  { intros w [H0 <-]. exact (Hw w H0). }
  apply triple_pre with (λ w, P0 w ∧ w_own w = c); [by intros w [H1 _]|].
  destruct (c_committed c); [exact H|]. eapply triple_bind; [exact H|]. intros e1.
  pose proof clean_releaseLock. pose proof clean_directories. pose proof (clean_paths (c_tempPaths c ++ c_stagePaths c ++ c_finalPaths c ++ c_sidecarPaths c)).
  pose proof clean_sync. change (pres P (e2 ← noted_each (clean_path fault) (c_tempPaths c ++ c_stagePaths c ++ c_finalPaths c ++ c_sidecarPaths c);
    e3 ← noted (releaseLock fault);
    e4 ← (if durable && negb (c_lockPath c =s? "") then noted (syncDirectory fault outputDir "cleanup-dir-sync") else mret []);
    e5 ← cleanupCreatedDirectories fault durable;
    mret (joined (e1 ++ e2 ++ e3 ++ e4 ++ e5)))).
  unfold syncDirectory. kept_steps.
Qed.
End cleaning.

(** ** Files written beside the shards *)
Section beside.
Context (fault : nat → option nat) (pick : fsys → nat) (outputDir : string).
Context (files : list shard_file).
Local Notation M := (manifest_path outputDir).
Local Notation prepared := (λ c : commit, c_prepared c = true).

(** The shards, and beside them a file with these contents. *)
Definition with_file (p : string) (i : nat) (s : string) fs : Prop :=
  Forall (solid fs) files ∧ fresh_ino i files ∧ holds_file p i s fs.
Lemma with_file_created fs p : f_ns fs !! p = None → Forall (solid fs) files → with_file p (f_next fs) "" (new_file p fs).
Proof.
  intros Hp Hs. destruct (solid_new_file files fs p Hp Hs) as [H1 H2]. split_and!; [done..|]. apply holds_created.
Qed.
Lemma with_file_append p i s t fs : with_file p i s fs → with_file p i (s +:+ t) (append_data i t fs).
Proof. intros (H1 & H2 & H3). split_and!; [by apply solid_append|done|by apply holds_appended]. Qed.
Lemma write_buffered_st p i data :
  triple (st (with_file p i "") prepared) (write_buffered fault i data)
    (λ _, st (with_file p i (if bufio_size <? slen data then data else "")) prepared) none.
Proof.
  unfold write_buffered. destruct (bufio_size <? slen data); [|by apply triple_ret].
  apply Write_st. intros fs H. by apply (with_file_append _ _ "").
Qed.
Lemma flush_buffered_st p i data :
  triple (st (with_file p i (if bufio_size <? slen data then data else "")) prepared) (flush_buffered fault i data)
    (λ _, st (with_file p i data) prepared) none.
Proof.
  unfold flush_buffered. destruct (bufio_size <? slen data); [by apply triple_ret|]. simpl.
  destruct (String.eqb_spec data "") as [->|]; [by apply triple_ret|].
  apply Write_st. intros fs H. by apply (with_file_append _ _ "").
Qed.
(** [stage_file]: the data is in a synced temporary file. *)
Lemma stage_file_st kind path data :
  triple (st (λ fs, Forall (solid fs) files) prepared) (stage_file fault pick outputDir true kind path data)
    (λ temp, st (λ fs, (∃ k, temp = temp_path outputDir path k) ∧ ∃ i, with_file temp i data fs ∧ f_safe fs !! i = Some data)
               prepared) none.
Proof.
  unfold stage_file. eapply then_st.
  { apply triple_pre with (λ w, if_prepared (λ fs, Forall (solid fs) files) w ∧ prepared (w_own w)).
    - intros w [H1 H2]. split; [|done]. split; [done|by left].
    - intros w [Hw _]. pose proof (prepare_st fault outputDir _ w Hw) as H. exact H. }
  intros _. destruct (negb _); [by apply triple_fail|].
  eapply triple_bind with (Q' := λ _, st (λ fs, Forall (solid fs) files) prepared).
  { intros w Hw. unfold attempt, os_Stat, look, call. destruct (fault (w_calls w)); [exact Hw|]. simpl.
    by destruct (f_ns (w_fs w) !! path) as [[j|]|]. }
  intros [b|e]; [by apply triple_fail|]. destruct (negb (IsNotExist e)); [by apply triple_fail|].
  eapply triple_bind; [apply triple_wrap, after_before, CreateTemp_st|]. cbv beta. intros [i temp]. cbn [fst snd].
  apply triple_know with (∃ k, temp = temp_path outputDir path k).
  { intros w [(fs1 & k & _ & _ & _ & _ & Ht) _]. by exists k. }
  intros Ht. eapply then_st with (K := with_file temp i "") (X := prepared).
  { apply triple_set_own. intros w [(fs1 & k & Hs & Hp & -> & Hfs & _) HX]. split; [|done]. cbn [w_fs]. rewrite Hfs.
    by apply with_file_created. }
  intros _. eapply then_st; [apply or_close_ok, triple_wrap, after_before, write_buffered_st|intros _].
  eapply then_st; [apply or_close_ok, triple_wrap, after_before, flush_buffered_st|intros _]. cbn [io_when].
  eapply then_st with (K := λ fs, with_file temp i data fs ∧ f_safe fs !! i = Some data).
  { apply or_close_ok, triple_wrap, after_before, SyncData_st. intros fs (H1 & H2 & H3).
    destruct (holds_sync_data _ _ _ _ H3). split; [|done]. split_and!; [by apply solid_sync_data|done..]. }
  intros _. eapply then_st; [apply or_close_ok, triple_wrap, before_st|intros _].
  eapply then_st; [apply triple_wrap, Close_st|intros _]. apply triple_ret. intros w [H HX]. split; [|done]. split; [done|by exists i].
Qed.

(** *** Sidecars *)
Definition beside (path : string) : Prop :=
  (∀ f, f ∈ files → sf_path f ≠ path) ∧ ∀ k f, f ∈ files → sf_path f ≠ temp_path outputDir path k.
Lemma writeSidecar_st path data : beside path →
  triple (st (λ fs, Forall (solid fs) files) prepared) (writeSidecar fault pick outputDir true path data)
    (λ _, st (λ fs, Forall (solid fs) files) prepared) none.
Proof.
  intros [Hp Ht]. unfold writeSidecar. apply then_st with (K := λ fs, Forall (solid fs) files) (X := prepared);
    [|intros ?; by apply set_own_st].
  unfold writeAtomicFile, rename_file. eapply triple_bind; [apply stage_file_st|]. cbv beta. intros temp.
  eapply then_st; [change (io_when _ _) with (mret () : io commit ()); by apply triple_ret|intros _].
  apply then_st with (K := λ fs, Forall (solid fs) files) (X := prepared); [|intros ?; by apply triple_ret].
  eapply triple_conseq; [apply triple_wrap, after_before, Rename_st|done| |done]. cbv beta.
  intros _ w [(fs1 & e & [[k ->] (i & (Hs & _) & _)] & _ & Hfs) HX]. split; [|done]. rewrite Hfs. by apply solid_rename; [apply Ht|..].
Qed.

(** *** The manifest *)

(** Once renamed: the only file the manifest's name can show, before a crash or
    after it, is the synced one, and the shards are in place. *)
Definition marked (m : nat) (data : string) fs : Prop :=
  Forall (solid fs) files ∧ f_safe fs !! m = Some data
  ∧ (∀ j, f_ns fs !! M = Some (EFile j) → j = m) ∧ (∀ j, Some (EFile j) ∈ survivors fs M → j = m).
Definition unmarked_or_marked (data : string) fs : Prop := no_file M fs ∨ ∃ m, marked m data fs.
Context (HM : beside M) (Hlock : ∀ f, f ∈ files → sf_path f ≠ lock_path outputDir).
Lemma marked_sync_dir m data d fs : marked m data fs → marked m data (sync_dir d fs).
Proof.
  intros (H1 & H2 & H3 & H4). split_and!; [by apply solid_sync_dir|done|done|]. intros j. rewrite survivors_sync_dir.
  case_decide; [|by apply H4]. intros Hv%list_elem_of_singleton. by apply H3.
Qed.
Lemma marked_remove m data fs : marked m data fs → marked m data (set_entry M None fs).
Proof.
  intros (H1 & H2 & H3 & H4). split_and!; [apply solid_set_entry; [apply HM|done]|done| |]; intros j.
  - rewrite ns_set_entry, decide_True by done. done.
  - rewrite survivors_set_entry, decide_True, elem_of_app, list_elem_of_singleton by done. intros [?|[=]]. by apply H4.
Qed.
Lemma marked_renamed i k data fs : with_file (temp_path outputDir M k) i data fs → f_safe fs !! i = Some data →
  no_file M fs → temp_path outputDir M k ≠ M →
  marked i data (rename_entry (temp_path outputDir M k) M (EFile i) fs)
  ∧ f_ns (rename_entry (temp_path outputDir M k) M (EFile i) fs) !! M = Some (EFile i).
Proof.
  intros (Hs & _) Hi [H1 H2] Hne. unfold rename_entry.
  assert (f_ns (set_entry (temp_path outputDir M k) None (set_entry M (Some (EFile i)) fs)) !! M = Some (EFile i)) as Hns.
  { by rewrite ns_set_entry, decide_False, ns_set_entry, decide_True. }
  split; [|exact Hns]. split_and!; [apply solid_rename; [apply HM|apply HM|done]|done| |].
  - intros j. rewrite Hns. by intros [= ->].
  - intros j. rewrite survivors_set_entry, decide_False, app_nil_r by done.
    rewrite survivors_set_entry, decide_True, elem_of_app, list_elem_of_singleton by done. intros [?|[= ->]]; [|done]. by destruct (H2 j).
Qed.
Definition after_marker (m : nat) (data : string) (w : world commit) : Prop :=
  always (unmarked_or_marked data) w ∧ marked m data (w_fs w).
Lemma after_marker_set m data w fs : after_marker m data w → marked m data fs → after_marker m data (set_fs fs (ticked w)).
Proof. intros [H1 H2] H. split; [|done]. apply always_set_fs; [done|]. right. by exists m. Qed.
Lemma after_marker_stable m data : stable (after_marker m data).
Proof. intros w H. split; [exact H|]. apply after_marker_set; [done|apply H]. Qed.
Lemma after_marker_SyncDir m data d : pres (after_marker m data) (os_SyncDir fault d).
Proof.
  apply pres_call; [intros; by apply after_marker_stable|].
  intros w fs [] H [= <-]. apply after_marker_set; [done|]. apply marked_sync_dir, H.
Qed.
Lemma after_marker_sync m data d step : pres (after_marker m data) (syncDirectoryPath fault d step).
Proof. apply pres_syncDirectoryPath; [apply after_marker_stable|apply after_marker_SyncDir]. Qed.
Lemma after_marker_set_own m data (h : commit → commit) : pres (after_marker m data) (set_own h).
Proof. apply pres_set_own. by intros w H. Qed.
Lemma after_marker_invalidate m data : pres (after_marker m data) (invalidateMarker fault outputDir true).
Proof.
  apply clean_invalidate; [apply after_marker_stable|intros d; apply after_marker_SyncDir|apply after_marker_set_own|].
  apply pres_Remove; [apply after_marker_stable|]. intros w H. apply after_marker_set; [done|]. apply marked_remove, H.
Qed.
Lemma releaseLock_st (K : fsys → Prop) : (∀ fs, K fs → K (set_entry (lock_path outputDir) None fs)) →
  triple (λ w, (c_lockHeld (w_own w) = true → c_lockPath (w_own w) = lock_path outputDir) ∧ K (w_fs w))
    (releaseLock fault) (λ _ w, K (w_fs w)) none.
Proof.
  intros HK. apply triple_own. intros c. destruct (c_lockHeld c) eqn:E; simpl; [|apply triple_ret; by intros w [[_ H] _]].
  apply triple_bind with (Q' := λ _ w, K (w_fs w)); [|intros _; by apply triple_set_own].
  apply triple_wrap. apply triple_bind with (Q' := λ _ w, K (w_fs w) ∧ c_lockPath c = lock_path outputDir).
  { apply triple_call; [done|]. intros w fs [] [[Hl HK'] <-] [= <-]. split; [done|by apply Hl]. }
  intros _. apply triple_pure. intros ->. apply triple_call; [done|]. intros w fs [] HK' H.
  assert (fs = set_entry (lock_path outputDir) None (w_fs w)) as ->.
  { destruct (f_ns (w_fs w) !! lock_path outputDir) as [[j|]|]; [|destruct (children _ (w_fs w))|]; congruence. }
  by apply HK.
Qed.
Lemma sync_marker m data : Dir M = Clean outputDir → Clean outputDir = outputDir →
  triple (λ w, after_marker m data w ∧ f_ns (w_fs w) !! M = Some (EFile m))
    (io_when true
       (r ← attempt (syncDirectory fault outputDir "manifest-dir-sync");
        match r with
        | Ok _ => mret ()
        | Err e =>
            es ← noted (invalidateMarker fault outputDir true);
            fail (errors_join (Errorf "aggregate commit is unconfirmed after manifest rename: %w" [AErr e] :: es))
        end))
    (λ _ w, after_marker m data w ∧ f_ns (w_fs w) !! M = Some (EFile m) ∧ on_disk M m data (w_fs w)) (after_marker m data).
Proof.
  intros Hd Hc. set (Q := λ w, after_marker m data w ∧ f_ns (w_fs w) !! M = Some (EFile m) ∧ on_disk M m data (w_fs w)).
  assert (triple (λ w, after_marker m data w ∧ f_ns (w_fs w) !! M = Some (EFile m)) (syncDirectory fault outputDir "manifest-dir-sync")
            (λ _ w, Q w) (after_marker m data)) as Hsync.
  { pose proof (syncDirectoryPath_st fault (λ fs, f_ns fs !! M = Some (EFile m) ∧ f_safe fs !! m = Some data) (λ _, True) outputDir
      "manifest-dir-sync" (λ fs, f_ns fs !! M = Some (EFile m) ∧ on_disk M m data fs)) as H.
    eapply triple_conseq; [apply triple_and; [apply after_marker_sync|apply H]| | |].
    - intros fs [H1 H2]. split; [exact H1|]. apply sync_dir_on_disk; [by rewrite Hd|done|done].
    - intros w [Hw Hns]. split; [exact Hw|]. split; [|done]. split; [done|apply Hw].
    - intros ? w [Hw [[H1 H2] _]]. by split_and!.
    - by intros w [Hw _]. }
  cbn [io_when]. eapply triple_bind with (Q' := λ r w, match r with Ok _ => Q w | Err _ => after_marker m data w end).
  { apply triple_attempt. eapply triple_conseq; [exact Hsync|intros w H; exact H|intros ? w H; exact H|intros w H e; exact H]. }
  intros [[]|e]; [by apply triple_ret|]. apply pres_then; [|intros es; by apply triple_fail].
  apply pres_noted, after_marker_invalidate.
Qed.
(** Up to the rename nobody sees a manifest; from then on, what a crash can show
    of it is whole and the shards are there. *)
Lemma writeManifest_marks data : outputDir ≠ "" → Clean outputDir = outputDir →
  triple (λ w, held outputDir (no_file M) (λ _, True) false w ∧ st (λ fs, Forall (solid fs) files) prepared w)
    (writeManifest fault pick outputDir true M data)
    (λ _ w, always (unmarked_or_marked data) w ∧ Forall (solid (w_fs w)) files
            ∧ ∃ m, f_ns (w_fs w) !! M = Some (EFile m) ∧ on_disk M m data (w_fs w))
    (always (unmarked_or_marked data)).
Proof.
  intros Hdir Hclean. assert (file_name "manifest.json" ∧ file_name aggregateCommitLockName) as [Hm Hl].
  { split; (split; [by vm_compute|done]). }
  assert (∀ k, temp_path outputDir M k ≠ M) as Hne by (intros; by apply temp_path_ne).
  assert (∀ k, temp_path outputDir M k ≠ lock_path outputDir) as Hnl by (intros; by apply temp_path_ne).
  assert (lock_path outputDir ≠ M) as Hlm by (intros E; by apply Join_inj in E).
  assert (∀ w, held outputDir (no_file M) (λ _, True) false w → always (unmarked_or_marked data) w) as Hheld.
  { intros w [[H1 H2] _]. split; [by left|]. eapply Forall_impl; [exact H2|]. by left. }
  unfold writeManifest. apply triple_bind with (Q' := λ _ w, ∃ m, after_marker m data w ∧ f_ns (w_fs w) !! M = Some (EFile m)).
  - unfold writeAtomicFile. eapply triple_bind.
    { eapply triple_conseq; [apply triple_and; [|apply stage_file_st]|intros w H; exact H|intros a w H; exact H|intros w [H _]; by apply Hheld].
      eapply stage_file_fact; [apply no_file_frame|done|done|done|exact Hne]. }
    cbv beta. intros temp. change (io_when ("manifest" =s? "manifest") (releaseLock fault)) with (releaseLock fault).
    apply triple_know with (∃ k, temp = temp_path outputDir M k); [by intros w (_ & (H & _) & _)|]. intros [k ->].
    set (temp := temp_path outputDir M k). set (K := λ fs, ∃ i, with_file temp i data fs ∧ f_safe fs !! i = Some data).
    apply triple_bind with (Q' := λ _ w, held outputDir (no_file M) (λ _, True) false w ∧ K (w_fs w)).
    { eapply triple_conseq; [apply triple_and; [eapply kept_releaseLock; apply no_file_frame|apply (releaseLock_st K)]| | |].
      - intros fs (i & (H1 & H2 & H3) & H4). exists i. split; [|done]. split_and!; [by apply solid_set_entry|done|].
        apply holds_set_entry; [apply not_eq_sym, Hnl|done].
      - intros w ((Hw & _) & (_ & H) & _). split; [exact Hw|]. split; [|exact H]. intros Hh. destruct Hw as [_ (_ & _ & _ & Hp & _)].
        apply Hp. by left.
      - intros ? w H. exact H.
      - intros w [H _]. by apply Hheld. }
    intros _. eapply triple_bind; [|intros ?; apply triple_ret; intros w H; exact H].
    apply triple_wrap. apply triple_bind with (Q' := λ _ w, held outputDir (no_file M) (λ _, True) false w ∧ K (w_fs w)).
    { eapply triple_conseq; [apply (pres_look (λ w, held outputDir (no_file M) (λ _, True) false w ∧ K (w_fs w)))| | |]; try done.
      - intros w [H1 H2]. split; (split; [|done]); by apply held_stable.
      - intros w [H _]. by apply Hheld. }
    intros _. apply triple_call; [intros w [H _]; by apply Hheld, held_stable|].
    intros w fs [] [Hw (i & Hf & Hi)] H. pose proof Hf as (_ & _ & Hns & _). rewrite Hns in H.
    assert (fs = rename_entry temp M (EFile i) (w_fs w)) as -> by (destruct (f_ns (w_fs w) !! M) as [[j|]|]; congruence).
    pose proof (Hheld w Hw) as Ha. destruct Hw as [[HJ _] _].
    destruct (marked_renamed i k data (w_fs w) Hf Hi HJ (Hne k)) as [H1 H2]. exists i. split; [|exact H2].
    split; [|exact H1]. apply always_set_fs; [exact Ha|right; by exists i].
  - intros ?. apply triple_bind with (Q' := λ _ w, ∃ m, after_marker m data w ∧ f_ns (w_fs w) !! M = Some (EFile m)).
    { apply triple_set_own. intros w H. exact H. }
    intros _. apply triple_bind with (Q' := λ _ w, ∃ m, after_marker m data w ∧ f_ns (w_fs w) !! M = Some (EFile m) ∧ on_disk M m data (w_fs w)).
    + intros w (m & Hw). pose proof (sync_marker m data (proj1 (Dir_Join _ _ Hdir Hm)) Hclean w Hw) as H.
      destruct (io_when _ _ w) as [w' [[]|e]]; [by exists m|apply H].
    + intros _. apply triple_set_own. intros w (m & [Ha (Hs & _)] & H). split; [exact Ha|]. split; [exact Hs|by exists m].
Qed.
End beside.

(** ** An abort *)
Section aborting.
Context (fault : nat → option nat) (outputDir : string) (durable : bool) (fs0 : fsys).

(** Nothing came into being since [fs0], and these paths are gone. *)
Definition gone (X : string → Prop) (w : world commit) : Prop :=
  (∀ p, f_ns (w_fs w) !! p = None ∨ f_ns (w_fs w) !! p = f_ns fs0 !! p) ∧ ∀ p, X p → f_ns (w_fs w) !! p = None.
Section kept.
Context (X : string → Prop).
Local Notation kept := (pres (gone X)).
Lemma gone_stable : stable (gone X).
Proof. by intros w H. Qed.
Lemma gone_SyncDir d : kept (os_SyncDir fault d).
Proof. apply pres_call; [by intros w H|]. by intros w fs [] H [= <-]. Qed.
Lemma gone_removed p w : gone X w → gone (λ q, X q ∨ q = p) (set_fs (set_entry p None (w_fs w)) (ticked w)).
Proof.
  intros [H1 H2]. split.
  - intros q. cbn [w_fs set_fs]. rewrite ns_set_entry. case_decide; [by left|apply H1].
  - intros q Hq. cbn [w_fs set_fs]. rewrite ns_set_entry. case_decide; [done|]. destruct Hq as [Hq| ->]; [by apply H2|done].
Qed.
Lemma gone_Remove p : kept (os_Remove fault p).
Proof.
  apply pres_Remove; [apply gone_stable|]. intros w H.
  destruct (gone_removed p w H) as [H1 H2]. split; [exact H1|]. intros q Hq. apply H2. by left.
Qed.
Lemma gone_set_own (h : commit → commit) : kept (set_own h).
Proof. apply pres_set_own. by intros w H. Qed.
Hint Resolve gone_stable gone_SyncDir gone_Remove gone_set_own pres_syncDirectoryPath : io.
Lemma gone_invalidate : kept (invalidateMarker fault outputDir durable).
Proof. apply clean_invalidate; auto with io. Qed.
Lemma gone_releaseLock : kept (releaseLock fault).
Proof. apply clean_releaseLock; auto with io. Qed.
Lemma gone_sync step : kept (syncDirectory fault outputDir step).
Proof. unfold syncDirectory. auto with io. Qed.

(** What is noted never stops the abort. *)
Lemma noted_total R m : kept m → triple (gone X) (noted m) (λ _, gone X) R.
Proof.
  intros Hm. unfold noted. apply triple_bind with (Q' := λ _, gone X); [|intros r; by apply triple_ret].
  apply triple_attempt. eapply triple_conseq; [exact Hm|done|done|]. by intros w H e.
Qed.
Lemma noted_each_total {A} R (f : A → io commit (list gerror)) l :
  (∀ a, triple (gone X) (f a) (λ _, gone X) R) → triple (gone X) (noted_each f l) (λ _, gone X) R.
Proof.
  intros Hf. induction l as [|a l IH]; cbn [noted_each]; [by apply triple_ret|].
  eapply triple_bind; [apply Hf|intros es]. eapply triple_bind; [apply IH|intros es']. by apply triple_ret.
Qed.
Lemma attempt_total {A} R (m : io commit A) : kept m → triple (gone X) (attempt m) (λ _, gone X) R.
Proof. intros Hm. apply triple_attempt. eapply triple_conseq; [exact Hm|done|done|]. by intros w H e. Qed.
Lemma clean_directory_total R d : triple (gone X) (clean_directory fault durable d) (λ _, gone X) R.
Proof.
  unfold clean_directory, before. eapply triple_bind; [apply attempt_total; auto with io|]. intros [r|e]; [|by apply triple_ret].
  eapply triple_bind; [apply attempt_total; auto with io|]. intros [r'|e]; [|by apply triple_ret].
  destruct durable; [|by apply triple_ret]. apply noted_total. auto with io.
Qed.
Lemma cleanup_total R : triple (gone X) (cleanupCreatedDirectories fault durable) (λ _, gone X) R.
Proof.
  apply triple_own. intros c. apply triple_pre with (gone X); [by intros w [H _]|].
  destruct (c_createdDirs c) as [|d ds]; [by apply triple_ret|].
  eapply triple_bind; [apply noted_each_total; intros; apply clean_directory_total|intros es].
  apply triple_bind with (Q' := λ _, gone X); [by apply triple_set_own; intros w H|]. intros _. by apply triple_ret.
Qed.
End kept.

(** No call fails any more, and none of the paths is a directory. *)
Context (Hcalm : ∀ n, fault n = None).
Lemma clean_path_gone R X p : f_ns fs0 !! p ≠ Some EDir →
  triple (gone X) (clean_path fault p) (λ _, gone (λ q, X q ∨ q = p)) R.
Proof.
  intros Hp. unfold clean_path, noted. apply triple_bind with (Q' := λ _, gone (λ q, X q ∨ q = p)); [|intros r; by apply triple_ret].
  apply triple_attempt. apply triple_wrap. apply triple_bind with (Q' := λ _, gone X).
  { unfold before, look, call. intros w H. rewrite Hcalm. exact H. }
  intros _. unfold remove_quiet. apply triple_bind with (Q' := λ r, gone (λ q, X q ∨ q = p)).
  - intros w H. unfold attempt, os_Remove, call. rewrite Hcalm. fold (ticked w). cbn [w_fs ticked].
    destruct (f_ns (w_fs w) !! p) as [[j|]|] eqn:E.
    + by apply gone_removed.
    + exfalso. destruct H as [H _]. destruct (H p) as [H'|H']; [by rewrite E in H'|]. rewrite E in H'. by apply Hp.
    + destruct H as [H1 H2]. split; [exact H1|]. intros q [Hq| ->]; [by apply H2|exact E].
  - intros [r|e]; [by apply triple_ret|]. destruct (IsNotExist e); [by apply triple_ret|apply triple_fail]. by intros w H e'.
Qed.
Lemma clean_paths_gone R l : ∀ X, (∀ p, p ∈ l → f_ns fs0 !! p ≠ Some EDir) →
  triple (gone X) (noted_each (clean_path fault) l) (λ _, gone (λ q, X q ∨ q ∈ l)) R.
Proof.
  induction l as [|p l IH]; intros X Hl; cbn [noted_each].
  - apply triple_ret. intros w [H1 H2]. split; [exact H1|]. intros q [Hq|[]%elem_of_nil]. by apply H2.
  - eapply triple_bind; [apply clean_path_gone, Hl; left|intros es]. eapply triple_bind; [apply IH; intros q Hq; apply Hl; by right|intros es'].
    apply triple_ret. intros w [H1 H2]. split; [exact H1|]. intros q Hq. apply H2. rewrite elem_of_cons in Hq. tauto.
Qed.
Lemma abort_gone R c :
  c_committed c = false →
  (∀ p, p ∈ c_tempPaths c ++ c_stagePaths c ++ c_finalPaths c ++ c_sidecarPaths c → f_ns fs0 !! p ≠ Some EDir) →
  triple (λ w, gone (λ _, False) w ∧ w_own w = c) (abort fault outputDir durable)
    (λ _, gone (λ p, p ∈ c_tempPaths c ++ c_stagePaths c ++ c_finalPaths c ++ c_sidecarPaths c)) R.
Proof.
  intros Hc Hl. unfold abort. apply triple_own. intros c'. apply triple_know with (c' = c); [by intros w [[_ <-] <-]|]. intros ->.
  rewrite Hc. apply triple_pre with (gone (λ _, False)); [by intros w [[H _] _]|].
  eapply triple_bind; [apply noted_total, gone_invalidate|intros e1].
  eapply triple_bind; [by apply clean_paths_gone|intros e2].
  set (X := λ q, False ∨ q ∈ c_tempPaths c ++ c_stagePaths c ++ c_finalPaths c ++ c_sidecarPaths c).
  eapply triple_bind; [apply noted_total, gone_releaseLock|intros e3].
  apply triple_bind with (Q' := λ _, gone X); [destruct (_ && _); [apply noted_total, gone_sync|by apply triple_ret]|intros e4].
  eapply triple_bind; [apply cleanup_total|intros e5]. apply triple_ret. intros w [H1 H2]. split; [exact H1|]. intros p Hp. apply H2. by right.
Qed.
End aborting.

(** C37: An abort during which no call fails leaves none of the commit's temporary
    files, staging files, shards and sidecars, and brings no path into being. *)
Theorem abort_clears fault outputDir durable (w : world commit) :
  (∀ n, fault n = None) → c_committed (w_own w) = false →
  (∀ p, p ∈ c_tempPaths (w_own w) ++ c_stagePaths (w_own w) ++ c_finalPaths (w_own w) ++ c_sidecarPaths (w_own w) →
     f_ns (w_fs w) !! p ≠ Some EDir) →
  ∃ w' es, abort fault outputDir durable w = (w', Ok es)
    ∧ (∀ p, p ∈ c_tempPaths (w_own w) ++ c_stagePaths (w_own w) ++ c_finalPaths (w_own w) ++ c_sidecarPaths (w_own w) →
         f_ns (w_fs w') !! p = None)
    ∧ ∀ p, f_ns (w_fs w) !! p = None → f_ns (w_fs w') !! p = None.
Proof.
  intros Hf Hc Hp. pose proof (abort_gone fault outputDir durable (w_fs w) Hf (λ _, False) (w_own w) Hc Hp w) as H.
  destruct (abort fault outputDir durable w) as [w' [es|e]].
  - exists w', es. split; [done|]. destruct H as [H1 H2]; [by split; [split; [by right|]|]|]. split; [exact H2|].
    intros p E. destruct (H1 p) as [|E']; [done|congruence].
  - exfalso. apply H. split; [split; [by right|done]|done].
Qed.
