(* ===== verification/AggregateWriter.v ===== *)
(** * The aggregate writer (cmd/sumpter/commands/extract_aggregate.go)

    One stream of records over all inputs of a run, rolled into shards by record
    and byte caps; with a barrier, the records of an input reach a shard only
    when the input is committed. The run over the inputs ends in the commit of
    the shards, the sidecars and the manifest. Cloud shards are shard_opened and
    published by the parameters [cloud_open], [cloud_publish] and
    [cloud_discard]; the value profile is the state [P] with its four steps. *)
From Stdlib Require Import Ascii ZArith Lia.
From stdpp Require Import base list strings gmap sets.
From S2P Require Import Prelude GoStrings GoStrconv GoValue GoPath GoSha256 DurableFs DurableCommit.

(** provenance.AggregateOutput *)
Record AggregateOutput := {
  ao_Path : string; ao_RecordCount : nat; ao_SHA256 : string; ao_InputOrdinalStart : nat; ao_InputOrdinalEnd : nat;
}.
(** The options the writer reads. *)
Record writer_options := {
  wo_outputPath : string;
  wo_maxRecords : Z;
  wo_maxBytes : Z;
  wo_cloud : bool;
  wo_buffering : bool;
  wo_EmitInputIdentity : bool;
  wo_durable : bool;
}.
Definition sharded (o : writer_options) : bool := (0 <? wo_maxRecords o)%Z || (0 <? wo_maxBytes o)%Z.

(** The open shard: its file, what the hasher has read, its counters. *)
Record open_shard := {
  os_file : nat; os_hashed : string; os_recordCount : nat; os_inputStart : nat; os_inputEnd : nat;
}.
Record aggregateWriter {P : Type} := mkWriter {
  aw_commit : commit;
  aw_pending : list string;
  aw_ordinal : nat;
  aw_sha256 : string;
  aw_shardOrd : nat;
  aw_open : option open_shard;
  aw_shards : list AggregateOutput;
  aw_stagePaths : list string;
  aw_finalPaths : list string;
  aw_totalRecords : nat;
  aw_profile : P;
}.
Arguments aggregateWriter P : clear implicits.

(** [%05d] *)
Definition pad5 (n : nat) : string :=
  let d := itoa (Z.of_nat n) in srepeat "0" (5 - slen d) +:+ d.

(** Whether the rows of an input wait for its commit. *)
Definition aggregateBuffering (continueOnError declares_floors : bool) : bool := continueOnError || declares_floors.

Section writer.
Context {P : Type} (vp_begin vp_commit vp_discard : P → P) (vp_stage : P → string → P).
Context (fault : nat → option nat) (pick : fsys → nat).
Context (cloud_open : string → io (aggregateWriter P) nat) (cloud_publish : string → io (aggregateWriter P) ())
        (cloud_discard : io (aggregateWriter P) ()).
(** The input ordinal and digest in an envelope's [_runtime]. *)
Context (row_identity : string → option (nat * string)).
Context (o : writer_options).
Local Notation aio := (io (aggregateWriter P)).

Definition newAggregateWriter (profile : P) : aggregateWriter P :=
  mkWriter P newLocalAggregateCommit [] 0 "" 0 None [] [] [] 0 profile.
(** The state a run starts from. *)
Definition run_start (fs : fsys) (profile : P) : world (aggregateWriter P) :=
  {| w_fs := fs; w_calls := 0; w_trace := [fs]; w_own := newAggregateWriter profile |}.
Definition outputDir : string := Clean (wo_outputPath o).
Definition shardFileName (ordinal : nat) : string :=
  if sharded o then "records-" +:+ pad5 ordinal +:+ ".jsonl" else "records.jsonl".

(** A step of the commit protocol, on the writer's own commit. *)
Definition with_commit (w : aggregateWriter P) (c : commit) : aggregateWriter P :=
  mkWriter P c (aw_pending w) (aw_ordinal w) (aw_sha256 w) (aw_shardOrd w) (aw_open w) (aw_shards w)
    (aw_stagePaths w) (aw_finalPaths w) (aw_totalRecords w) (aw_profile w).
Definition on_commit {A} (m : io commit A) : aio A := λ w,
  let '(w', r) := m {| w_fs := w_fs w; w_calls := w_calls w; w_trace := w_trace w; w_own := aw_commit (w_own w) |} in
  ({| w_fs := w_fs w'; w_calls := w_calls w'; w_trace := w_trace w'; w_own := with_commit (w_own w) (w_own w') |}, r).

Definition set_input (ordinal : nat) (sha : string) (w : aggregateWriter P) : aggregateWriter P :=
  mkWriter P (aw_commit w) (aw_pending w) ordinal sha (aw_shardOrd w) (aw_open w) (aw_shards w)
    (aw_stagePaths w) (aw_finalPaths w) (aw_totalRecords w) (aw_profile w).
Definition setCurrentInput (ordinal : nat) : aio () := set_own (set_input ordinal "").
Definition setCurrentInputIdentity (ordinal : nat) (sha : string) : aio () := set_own (set_input ordinal sha).

Definition next_shard (w : aggregateWriter P) : aggregateWriter P :=
  mkWriter P (aw_commit w) (aw_pending w) (aw_ordinal w) (aw_sha256 w) (S (aw_shardOrd w)) (aw_open w) (aw_shards w)
    (aw_stagePaths w) (aw_finalPaths w) (aw_totalRecords w) (aw_profile w).
Definition shard_opened (f : nat) (paths : option (string * string)) (w : aggregateWriter P) : aggregateWriter P :=
  let '(stages, finals) := match paths with
                           | Some (stage, final) => (aw_stagePaths w ++ [stage], aw_finalPaths w ++ [final])
                           | None => (aw_stagePaths w, aw_finalPaths w)
                           end in
  mkWriter P (aw_commit w) (aw_pending w) (aw_ordinal w) (aw_sha256 w) (aw_shardOrd w)
    (Some {| os_file := f; os_hashed := ""; os_recordCount := 0; os_inputStart := 0; os_inputEnd := 0 |})
    (aw_shards w) stages finals (aw_totalRecords w) (aw_profile w).
Definition agg_openShard : aio () :=
  _ ← set_own next_shard;
  w ← own;
  let name := shardFileName (aw_shardOrd w) in
  if wo_cloud o then
    f ← io_wrap "open aggregate cloud shard %s: %w" [AStr name] (cloud_open name);
    set_own (shard_opened f None)
  else
    let finalPath := Join (wo_outputPath o) name in
    r ← io_wrap "open aggregate shard %s: %w" [AStr name]
          (on_commit (openShard fault outputDir (wo_durable o) finalPath));
    set_own (shard_opened (r : nat * string).1 (Some (r.2, finalPath))).

Definition shard_summary (w : aggregateWriter P) (s : open_shard) : AggregateOutput := {|
  ao_Path := shardFileName (aw_shardOrd w);
  ao_RecordCount := os_recordCount s;
  ao_SHA256 := "sha256:" +:+ sha256_hex (os_hashed s);
  ao_InputOrdinalStart := os_inputStart s;
  ao_InputOrdinalEnd := os_inputEnd s;
|}.
Definition shard_closed (shard : AggregateOutput) (w : aggregateWriter P) : aggregateWriter P :=
  mkWriter P (aw_commit w) (aw_pending w) (aw_ordinal w) (aw_sha256 w) (aw_shardOrd w) None (aw_shards w ++ [shard])
    (aw_stagePaths w) (aw_finalPaths w) (aw_totalRecords w) (aw_profile w).
Definition agg_finalizeShard : aio () :=
  w ← own;
  match aw_open w with
  | None => mret ()
  | Some s =>
      let shard := shard_summary w s in
      _ ← (if wo_cloud o then
             _ ← io_wrap "close aggregate shard: %w" [] (os_Close fault);
             io_wrap "publish aggregate shard %s: %w" [AStr (ao_Path shard)] (cloud_publish (ao_Path shard))
           else on_commit (finalizeShard fault (wo_durable o) (os_file s)));
      set_own (shard_closed shard)
  end.

(** ** Records *)
Definition wrote (data : string) (w : aggregateWriter P) : aggregateWriter P :=
  match aw_open w with
  | None => w
  | Some s =>
      let s := {| os_file := os_file s; os_hashed := os_hashed s +:+ data; os_recordCount := S (os_recordCount s);
                  os_inputStart := if (os_inputStart s =? 0)%nat then aw_ordinal w else os_inputStart s;
                  os_inputEnd := aw_ordinal w |} in
      mkWriter P (aw_commit w) (aw_pending w) (aw_ordinal w) (aw_sha256 w) (aw_shardOrd w) (Some s) (aw_shards w)
        (aw_stagePaths w) (aw_finalPaths w) (S (aw_totalRecords w)) (aw_profile w)
  end.
(** The bytes of a shard are counted by what was hashed. *)
Definition byteCount (s : open_shard) : Z := Z.of_nat (slen (os_hashed s)).
Definition full (s : open_shard) (data : string) : bool :=
  (0 <? os_recordCount s)%nat &&
  (((0 <? wo_maxBytes o) && (wo_maxBytes o <? byteCount s + Z.of_nat (slen data)))%Z
   || ((0 <? wo_maxRecords o) && (wo_maxRecords o <=? Z.of_nat (os_recordCount s)))%Z).
Definition check_identity (data : string) : aio () :=
  w ← own;
  if negb (wo_EmitInputIdentity o) then mret ()
  else match row_identity data with
       | None => fail (Errorf "validate aggregate row input identity: decode envelope: %w" [])
       | Some (ordinal, sha) =>
           if negb (ordinal =? aw_ordinal w)%nat || negb (sha =s? aw_sha256 w) || (aw_ordinal w <? 1)%nat
              || (aw_sha256 w =s? "")
           then fail (Errorf "validate aggregate row input identity: got ordinal=%d sha256=%q, want ordinal=%d sha256=%q"
                        [AInt (Z.of_nat ordinal); AStr sha; AInt (Z.of_nat (aw_ordinal w)); AStr (aw_sha256 w)])
           else mret ()
       end.
Definition roll (data : string) : aio () :=
  w ← own;
  match aw_open w with
  | None => agg_openShard
  | Some s => if full s data then _ ← agg_finalizeShard; agg_openShard else mret ()
  end.
Definition writeRecordLocked (data : string) : aio () :=
  _ ← check_identity data;
  if wo_cloud o && (0 <? wo_maxBytes o)%Z && (wo_maxBytes o <? Z.of_nat (slen data))%Z then
    fail (Errorf "aggregate cloud record is %d bytes, larger than --aggregate-max-bytes %d"
            [AInt (Z.of_nat (slen data)); AInt (wo_maxBytes o)])
  else
    _ ← roll data;
    w ← own;
    match aw_open w with
    | None => mret ()
    | Some s =>
        _ ← (if wo_cloud o then mret () else on_commit (beforeShardWrite fault));
        _ ← io_wrap "write aggregate record: %w" [] (os_Write fault (os_file s) data);
        set_own (wrote data)
    end.

Definition set_pending (l : list string) (w : aggregateWriter P) : aggregateWriter P :=
  mkWriter P (aw_commit w) l (aw_ordinal w) (aw_sha256 w) (aw_shardOrd w) (aw_open w) (aw_shards w)
    (aw_stagePaths w) (aw_finalPaths w) (aw_totalRecords w) (aw_profile w).
Definition set_profile (f : P → P) (w : aggregateWriter P) : aggregateWriter P :=
  mkWriter P (aw_commit w) (aw_pending w) (aw_ordinal w) (aw_sha256 w) (aw_shardOrd w) (aw_open w) (aw_shards w)
    (aw_stagePaths w) (aw_finalPaths w) (aw_totalRecords w) (f (aw_profile w)).
(** [data] is one marshaled record and its line break; [OnRecord] marshals and
    calls it. *)
Definition writeMarshaled (data : string) : aio () :=
  _ ← (if wo_buffering o then set_own (λ w, set_pending (aw_pending w ++ [data]) w) else writeRecordLocked data);
  set_own (set_profile (λ p, vp_stage p data)).
Definition beginInput : aio () := set_own (λ w, set_profile vp_begin (set_pending [] w)).
Fixpoint write_all (l : list string) : aio () :=
  match l with [] => mret () | data :: l => _ ← writeRecordLocked data; write_all l end.
Definition commitInput : aio () :=
  w ← own;
  _ ← write_all (aw_pending w);
  set_own (λ w, set_profile vp_commit (set_pending [] w)).
Definition discardInput : aio () := set_own (λ w, set_profile vp_discard (set_pending [] w)).

(** ** The end of a run *)
Definition cover_inputs (total : nat) (w : aggregateWriter P) : aggregateWriter P :=
  match aw_open w with
  | None => w
  | Some s =>
      mkWriter P (aw_commit w) (aw_pending w) (aw_ordinal w) (aw_sha256 w) (aw_shardOrd w)
        (Some {| os_file := os_file s; os_hashed := os_hashed s; os_recordCount := os_recordCount s;
                 os_inputStart := 1; os_inputEnd := total |})
        (aw_shards w) (aw_stagePaths w) (aw_finalPaths w) (aw_totalRecords w) (aw_profile w)
  end.
Definition agg_commit (totalInputs : nat) : aio () :=
  w ← own;
  _ ← match aw_open w, aw_shards w with
      | None, [] => _ ← agg_openShard; set_own (cover_inputs totalInputs)
      | _, _ => mret ()
      end;
  _ ← agg_finalizeShard;
  w ← own;
  if wo_cloud o then mret ()
  else on_commit (commitShards fault outputDir (wo_durable o) (aw_stagePaths w) (aw_finalPaths w)).
Definition not_open (w : aggregateWriter P) : aggregateWriter P :=
  mkWriter P (aw_commit w) (aw_pending w) (aw_ordinal w) (aw_sha256 w) (aw_shardOrd w) None (aw_shards w)
    (aw_stagePaths w) (aw_finalPaths w) (aw_totalRecords w) (aw_profile w).
(** The close of a shard that is still open. *)
Definition close_open : aio (result ()) :=
  w ← own;
  match aw_open w with
  | None => mret (Ok ())
  | Some _ =>
      r ← attempt (if wo_cloud o then os_Close fault
                   else io_wrap "close aggregate shard during cleanup: %w" [] (_ ← before fault "cleanup-close"; os_Close fault));
      _ ← set_own not_open;
      mret r
  end.
(** The errors of the clean-up. *)
Definition agg_abort : aio (list gerror) :=
  r ← close_open;
  let closeErr := match r : result () with Ok _ => [] | Err e => [e] end in
  if wo_cloud o then _ ← cloud_discard; mret closeErr
  else
    es ← on_commit (abort fault outputDir (wo_durable o));
    mret (joined (closeErr ++ (es : list gerror))).

(** ** The run over the inputs *)

(** What the run learns about an input before, while and after processing it.
    [ai_records]: the marshaled records it gives the sink, up to the end or the
    error of the extraction. *)
Record agg_input := {
  ai_display : string;                (* the input as diagnostics name it *)
  ai_unavailable : option gerror;     (* acquireFailures *)
  ai_declared : bool;                 (* an integrity-bound declaration *)
  ai_identity : result string;        (* snapshotAndIdentifyInput: the digest *)
  ai_fields : option gerror;          (* buildExternalFieldsForFile *)
  ai_records : list string;
  ai_error : option gerror;           (* ExtractResult.Error *)
  ai_failed : bool;                   (* its disposition is failed *)
  ai_not_applicable : bool;
  ai_floor : option gerror;           (* enforceMinOccurrences *)
  ai_cleanup : option gerror;         (* removeInputSnapshot *)
  ai_ledger : option gerror;          (* ledgerInputFor *)
}.
Inductive input_outcome := InputFailed | InputApplied (recordCount : nat) | InputNotApplicable (recordCount : nat).

(** The class of an error that means an input could not be read. *)
Context (unavailableClass : gerror → option string).
Context (continueOnError hasApplicability : bool).
(** The bytes of the sidecars and the manifest, the checks before the manifest
    and what follows it. *)
Context (failures_bytes dispositions_bytes : list input_outcome → string)
        (manifest_bytes : list input_outcome → list AggregateOutput → string)
        (validate_before : list input_outcome → list AggregateOutput → result ()) (epilogue : result ()).
Context (cloud_put : string → string → aio ()) (cloud_incomplete : list AggregateOutput → aio ()).

Definition refuse {A} (e : option gerror) (m : aio A) : aio A := match e with Some e => fail e | None => m end.
(** A failed input: its rows are dropped; without [continueOnError] the run ends. *)
Definition fail_input (i : agg_input) (e : gerror) : aio input_outcome :=
  _ ← discardInput;
  if continueOnError then refuse (ai_ledger i) (mret InputFailed) else fail e.
Fixpoint emit_rows (l : list string) : aio () :=
  match l with [] => mret () | data :: l => _ ← writeMarshaled data; emit_rows l end.
Definition process_input (i : agg_input) : aio (option gerror) :=
  r ← attempt (emit_rows (ai_records i));
  mret match r with Ok _ => ai_error i | Err e => Some e end.
(** The text only: the error it wraps is kept by [Unwrap]. *)
Definition inputFailureError (display : string) (e : gerror) : gerror :=
  match unavailableClass e with
  | Some class => Errorf "input unavailable: %s: %s" [AStr display; AStr class]
  | None => Errorf "failed to process file %s: %w" [AStr display; AErr e]
  end.
Definition failed_processing (i : agg_input) : gerror := Errorf "failed to process file %s" [AStr (ai_display i)].
Definition run_input (ordinal : nat) (i : agg_input) : aio input_outcome :=
  _ ← setCurrentInput ordinal;
  _ ← beginInput;
  match ai_unavailable i with
  | Some _ => _ ← discardInput; refuse (ai_ledger i) (mret InputFailed)
  | None =>
      match if ai_declared i || wo_EmitInputIdentity o then ai_identity i else Ok "" with
      | Err e => fail_input i (Errorf "input %d (%s): %w" [AInt (Z.of_nat ordinal); AStr (ai_display i); AErr e])
      | Ok sha =>
          match ai_fields i with
          | Some e =>
              let e := Errorf "failed to build external fields for file %s: %w" [AStr (ai_display i); AErr e] in
              match ai_cleanup i with
              | Some e' => fail (errors_join [e; e'])
              | None => if continueOnError then fail_input i e else fail e
              end
          | None =>
              _ ← (if wo_EmitInputIdentity o then setCurrentInputIdentity ordinal sha else mret ());
              w ← own;
              let before := aw_totalRecords (w : aggregateWriter P) in
              err ← process_input i;
              match ai_cleanup i with
              | Some e => fail (errors_join (match err : option gerror with Some e' => [e'; e] | None => [e] end))
              | None =>
                  match err, ai_failed i with
                  | Some e, _ => fail_input i (inputFailureError (ai_display i) e)
                  | None, true => fail_input i (failed_processing i)
                  | None, false =>
                      match if ai_not_applicable i then None else ai_floor i with
                      | Some e => fail_input i e
                      | None =>
                          _ ← commitInput;
                          w ← own;
                          let n := aw_totalRecords (w : aggregateWriter P) - before in
                          refuse (ai_ledger i) (mret (if ai_not_applicable i then InputNotApplicable n else InputApplied n))
                      end
                  end
              end
          end
      end
  end.
Fixpoint run_inputs (ordinal : nat) (l : list agg_input) : aio (list input_outcome) :=
  match l with
  | [] => mret []
  | i :: l => out ← run_input ordinal i; outs ← run_inputs (S ordinal) l; mret (out :: (outs : list input_outcome))
  end.
Definition failed_count (outs : list input_outcome) : nat :=
  length (List.filter (λ out, match out with InputFailed => true | _ => false end) outs).
Definition put_sidecar (name data : string) : aio () :=
  if wo_cloud o then cloud_put name data
  else on_commit (writeSidecar fault pick outputDir (wo_durable o) (Join (wo_outputPath o) name) data).
(** Up to the manifest: after it the output is kept whatever follows. *)
Definition run_to_manifest (inputs : list agg_input) : aio (list input_outcome) :=
  outs ← run_inputs 1 inputs;
  _ ← agg_commit (length inputs);
  _ ← (if continueOnError && (0 <? failed_count outs)%nat then put_sidecar "failures.json" (failures_bytes outs) else mret ());
  w ← own;
  _ ← (if hasApplicability then put_sidecar "dispositions.json" (dispositions_bytes outs) else mret ());
  _ ← match validate_before outs (aw_shards (w : aggregateWriter P)) with Ok _ => mret () | Err e => fail e end;
  let data := manifest_bytes outs (aw_shards (w : aggregateWriter P)) in
  _ ← (if wo_cloud o then cloud_put "manifest.json" data
       else on_commit (writeManifest fault pick outputDir (wo_durable o) (Join (wo_outputPath o) "manifest.json") data));
  mret (outs : list input_outcome).
Definition partial_failure (outs : list input_outcome) : gerror :=
  Errorf "partial extraction failure: applied=%d failed=%d failures=%s"
    [AInt (Z.of_nat (length outs - failed_count outs)); AInt (Z.of_nat (failed_count outs));
     AStr (Join (wo_outputPath o) "failures.json")].
Definition run_aggregate (inputs : list agg_input) : aio (list input_outcome) :=
  r ← attempt (run_to_manifest inputs);
  match r : result (list input_outcome) with
  | Err e =>
      w ← own;
      _ ← (if wo_cloud o && (0 <? length (aw_shards (w : aggregateWriter P)))%nat then cloud_incomplete (aw_shards (w : aggregateWriter P)) else mret ());
      es ← agg_abort;
      fail (match es : list gerror with [] => e | _ => errors_join (e :: es) end)
  | Ok outs =>
      match epilogue with
      | Err e => fail e
      | Ok _ => if continueOnError && (0 <? failed_count outs)%nat then fail (partial_failure outs) else mret outs
      end
  end.
End writer.
