(* ===== verification/AggregateSpec.v ===== *)
(** * What a run of the aggregate writer keeps

    The frame of the commit protocol carried over to the writer and to the run
    over the inputs, for local output. *)
From Stdlib Require Import Ascii ZArith Lia.
From stdpp Require Import base list strings gmap sets.
From S2P Require Import Prelude GoStrings GoStrconv GoValue GoPath GoSha256 DurableFs DurableFsSpec DurableCommit DurableCommitSpec AggregateWriter.

(** ** The names of the shards *)
Lemma shardFileName_suffix o k : has_suffix ".jsonl" (shardFileName o k) = true.
Proof.
  unfold shardFileName. destruct (sharded o); [|done]. apply has_suffix_spec. exists ("records-" +:+ pad5 k).
  by rewrite sapp_assoc.
Qed.
Lemma srepeat_no_slash n : scontains_byte slash (srepeat "0" n) = false.
Proof. induction n as [|n IH]; [done|]. simpl. exact IH. Qed.
Lemma shardFileName_name o k : file_name (shardFileName o k).
Proof.
  apply file_name_long; unfold shardFileName; destruct (sharded o); try (simpl; lia); try done.
  rewrite !scontains_app. unfold pad5. by rewrite scontains_app, srepeat_no_slash, itoa_no_slash.
Qed.
Lemma shardFileName_artifact o k : aggregateCommitArtifactName (shardFileName o k) = true.
Proof.
  unfold aggregateCommitArtifactName. rewrite shardFileName_suffix. unfold shardFileName. destruct (sharded o); [|done].
  rewrite has_prefix_app. by rewrite !orb_true_r.
Qed.
Lemma stage_name o k : file_name (shardFileName o k +:+ ".partial").
Proof.
  pose proof (shardFileName_name o k) as Hn. apply file_name_long; [by rewrite scontains_app, (file_name_slash _ Hn)|].
  rewrite slen_app. simpl. lia.
Qed.

(** ** The frame of a run *)
Section frame.
Context {P : Type} (vp_begin vp_commit vp_discard : P → P) (vp_stage : P → string → P).
Context (fault : nat → option nat) (pick : fsys → nat).
Context (cloud_open : string → io (aggregateWriter P) nat) (cloud_publish : string → io (aggregateWriter P) ())
        (cloud_discard : io (aggregateWriter P) ()).
Context (row_identity : string → option (nat * string)) (o : writer_options).
Context (unavailableClass : gerror → option string) (continueOnError hasApplicability : bool).
Context (failures_bytes dispositions_bytes : list input_outcome → string)
        (manifest_bytes : list input_outcome → list AggregateOutput → string)
        (validate_before : list input_outcome → list AggregateOutput → result ()) (epilogue : result ()).
Context (cloud_put : string → string → io (aggregateWriter P) ()) (cloud_incomplete : list AggregateOutput → io (aggregateWriter P) ()).
Context (Hlocal : wo_cloud o = false) (Hpath : wo_outputPath o ≠ "").
Local Notation dir := (outputDir o).

Context (J : fsys → Prop) (ours : string → Prop) (inos : nat → Prop) (target : string → Prop).
Context (F : commit_frame J ours inos target).
(** A file may appear at these names. *)
Context (Htarget : ∀ n, file_name n → n ≠ "manifest.json" → target (Join dir n)).

Lemma dir_nonempty : dir ≠ "".
Proof. apply Clean_nonempty. Qed.
Lemma dir_clean : Clean dir = dir.
Proof. apply Clean_idem. Qed.
Lemma Join_dir n : file_name n → Join (wo_outputPath o) n = Join dir n.
Proof. intros Hn. symmetry. by apply Join_Clean. Qed.
Lemma lock_target : target (lock_path dir).
Proof. apply Htarget; [|done]. split; [by vm_compute|done]. Qed.

Definition run_held (w : world (aggregateWriter P)) : Prop :=
  always J w ∧ tracked dir ours false (aw_commit (w_own w))
  ∧ (∀ s, aw_open (w_own w) = Some s → inos (os_file s))
  ∧ (∀ p, p ∈ aw_stagePaths (w_own w) → ours p) ∧ (∀ p, p ∈ aw_finalPaths (w_own w) → ours p ∧ target p).
Local Notation kept := (pres run_held).

Lemma run_held_stable : stable run_held.
Proof. intros w [HJ HT]. split; (split; [|done]); [exact HJ|]. apply always_set_fs; [done|apply HJ]. Qed.
Lemma on_commit_fact {A} (φ : A → Prop) (m : io commit A) :
  triple (held dir J ours false) m (λ a w, held dir J ours false w ∧ φ a) (held dir J ours false) →
  triple run_held (on_commit m) (λ a w, run_held w ∧ φ a) run_held.
Proof.
  intros Hm w (HJ & HT & H).
  specialize (Hm {| w_fs := w_fs w; w_calls := w_calls w; w_trace := w_trace w; w_own := aw_commit (w_own w) |} (conj HJ HT)).
  unfold on_commit. destruct (m _) as [w' [a|e]].
  - destruct Hm as [[HJ' HT'] Ha]. split; [|done]. exact (conj HJ' (conj HT' H)).
  - destruct Hm as [HJ' HT']. exact (conj HJ' (conj HT' H)).
Qed.
Lemma kept_on_commit {A} (m : io commit A) : pres (held dir J ours false) m → kept (on_commit m).
Proof.
  intros Hm w Hw. pose proof (on_commit_fact (λ _, True) m) as H. assert (triple (held dir J ours false) m (λ _ w, held dir J ours false w ∧ True) (held dir J ours false)) as Hm'.
  { intros w' Hw'. specialize (Hm w' Hw'). destruct (m w') as [w'' [a|e]]; [by split|done]. }
  specialize (H Hm' w Hw). destruct (on_commit m w) as [w' [a|e]]; [apply H|done].
Qed.
(** A change of the writer that leaves its paths alone. *)
Definition same_paths (f : aggregateWriter P → aggregateWriter P) : Prop := ∀ w,
  aw_commit (f w) = aw_commit w ∧ aw_stagePaths (f w) = aw_stagePaths w ∧ aw_finalPaths (f w) = aw_finalPaths w
  ∧ ∀ s, aw_open (f w) = Some s → ∃ s', aw_open w = Some s' ∧ os_file s' = os_file s.
Lemma kept_set_writer f : same_paths f → kept (set_own f).
Proof.
  intros Hf. apply pres_set_own. intros w (HJ & HT & H1 & H2 & H3). destruct (Hf (w_own w)) as (E1 & E2 & E3 & E4).
  split; [exact HJ|]. simpl. rewrite E1, E2, E3. split; [exact HT|]. split; [|done]. intros s Hs. destruct (E4 s Hs) as (s' & Hs' & <-). by apply H1.
Qed.
Lemma kept_Write_open s data : inos (os_file s) → kept (os_Write fault (os_file s) data).
Proof.
  intros Hi. apply triple_write; intros w; intros; destruct H as (HJ & HT & H); (split; [apply always_set_fs; [done|]|done]);
    apply (fr_append _ _ _ _ F); done || apply HJ.
Qed.
Lemma kept_writer_own {A} (k : aggregateWriter P → io (aggregateWriter P) A) :
  (∀ c, (∀ s, aw_open c = Some s → inos (os_file s)) → (∀ p, p ∈ aw_stagePaths c → ours p) →
     (∀ p, p ∈ aw_finalPaths c → ours p ∧ target p) → kept (k c)) → kept (own ≫= k).
Proof. intros Hk. apply pres_own. intros c (w & (_ & _ & H1 & H2 & H3) & <-). by apply Hk. Qed.
Hint Resolve run_held_stable kept_set_writer : io.

(** *** Shards *)
Ltac side := first [exact F | apply dir_nonempty | apply lock_target | apply dir_clean | done].
Lemma shard_target k : target (Join dir (shardFileName o k)).
Proof.
  apply Htarget; [apply shardFileName_name|]. intros H. pose proof (shardFileName_suffix o k) as Hs. by rewrite H in Hs.
Qed.
Lemma stage_target k : target (Join dir (shardFileName o k) +:+ ".partial").
Proof.
  rewrite Join_suffix; [|apply dir_nonempty|apply shardFileName_name|apply stage_name]. apply Htarget; [apply stage_name|].
  apply suffix_ne with ".partial"; [by rewrite has_suffix_app|done].
Qed.
Lemma shard_clear k : clear dir ours → ours (Join dir (shardFileName o k)).
Proof.
  intros H. apply H; [apply shardFileName_name|apply shardFileName_artifact|]. intros E.
  pose proof (shardFileName_suffix o k) as Hs. by rewrite E in Hs.
Qed.
Ltac same_paths := intros ?; split_and!; simpl; eauto.
Lemma kept_agg_openShard : kept (agg_openShard fault cloud_open o).
Proof.
  unfold agg_openShard. rewrite Hlocal. apply pres_bind; [apply kept_set_writer; same_paths|intros _].
  apply kept_writer_own. intros c _ _ _. rewrite Join_dir by apply shardFileName_name.
  eapply pres_fact.
  { apply triple_wrap, on_commit_fact. eapply openShard_fact; [exact F|apply dir_nonempty|apply lock_target|apply dir_clean|].
    apply stage_target. }
  intros [f stage] (Hf & Hs & Hc). apply pres_set_own. intros w (HJ & HT & H1 & H2 & H3). split; [exact HJ|]. split; [exact HT|].
  simpl. split_and!.
  - intros s [= <-]. exact Hf.
  - intros p. rewrite elem_of_app, list_elem_of_singleton. intros [?| ->]; [by apply H2|done].
  - intros p. rewrite elem_of_app, list_elem_of_singleton. intros [?| ->]; [by apply H3|].
    split; [by apply shard_clear|apply shard_target].
Qed.
Lemma kept_agg_finalizeShard : kept (agg_finalizeShard fault cloud_publish o).
Proof.
  apply kept_writer_own. intros c Hc _ _. destruct (aw_open c) as [s|] eqn:Hs; [|apply pres_ret]. rewrite Hlocal.
  apply pres_bind; [eapply kept_on_commit, kept_finalizeShard; exact F|intros _]. apply kept_set_writer.
  intros w. split_and!; simpl; [done..|]. by intros ? [=].
Qed.
Hint Resolve kept_agg_openShard kept_agg_finalizeShard : io.
Lemma kept_writeRecordLocked data :
  kept (writeRecordLocked fault cloud_open cloud_publish row_identity o data).
Proof.
  unfold writeRecordLocked, check_identity, roll. rewrite Hlocal. simpl.
  apply pres_bind; [apply kept_writer_own; intros; kept_steps|intros _].
  apply pres_bind; [apply kept_writer_own; intros; kept_steps|intros _].
  apply kept_writer_own. intros c Hc _ _. destruct (aw_open c) as [s|] eqn:Hs; [|apply pres_ret].
  apply pres_bind; [eapply kept_on_commit, pres_wrap, kept_before|intros _].
  apply pres_bind; [by apply pres_wrap, kept_Write_open, Hc|intros _]. apply kept_set_writer.
  intros w. unfold wrote. destruct (aw_open w) as [t|] eqn:Ht; split_and!; simpl; try done.
  - intros s' [= <-]. by exists t.
  - intros s'. rewrite Ht. by intros [=].
Qed.
Hint Resolve kept_writeRecordLocked : io.
Lemma kept_write_all l : kept (write_all fault cloud_open cloud_publish row_identity o l).
Proof. induction l as [|data l IH]; simpl; kept_steps. Qed.
Lemma kept_commitInput : kept (commitInput vp_commit fault cloud_open cloud_publish row_identity o).
Proof.
  apply kept_writer_own. intros c _ _ _. apply pres_bind; [apply kept_write_all|intros _]. apply kept_set_writer. same_paths.
Qed.
Lemma kept_discardInput : kept (discardInput vp_discard).
Proof. apply kept_set_writer. same_paths. Qed.
Lemma kept_beginInput : kept (beginInput vp_begin).
Proof. apply kept_set_writer. same_paths. Qed.
Lemma kept_writeMarshaled data : kept (writeMarshaled vp_stage fault cloud_open cloud_publish row_identity o data).
Proof. unfold writeMarshaled. kept_steps; apply kept_set_writer; same_paths. Qed.
Hint Resolve kept_commitInput kept_discardInput kept_beginInput kept_writeMarshaled : io.

(** *** The run *)
Local Notation run_input' := (run_input vp_begin vp_commit vp_discard vp_stage fault cloud_open cloud_publish row_identity o unavailableClass continueOnError).
Local Notation run_inputs' := (run_inputs vp_begin vp_commit vp_discard vp_stage fault cloud_open cloud_publish row_identity o unavailableClass continueOnError).
Local Notation put_sidecar' := (put_sidecar fault pick o cloud_put).
Local Notation run_to_manifest' := (run_to_manifest vp_begin vp_commit vp_discard vp_stage fault pick cloud_open cloud_publish
  row_identity o unavailableClass continueOnError hasApplicability failures_bytes dispositions_bytes manifest_bytes validate_before cloud_put).
Local Notation run_aggregate' := (run_aggregate vp_begin vp_commit vp_discard vp_stage fault pick cloud_open cloud_publish
  cloud_discard row_identity o unavailableClass continueOnError hasApplicability failures_bytes dispositions_bytes manifest_bytes validate_before
  epilogue cloud_put cloud_incomplete).

Lemma kept_refuse {A} e (m : io (aggregateWriter P) A) : kept m → kept (refuse e m).
Proof. intros Hm. destruct e; [apply pres_fail|done]. Qed.
Hint Resolve kept_refuse : io.
Lemma kept_fail_input i e : kept (fail_input vp_discard continueOnError i e).
Proof. unfold fail_input. kept_steps. Qed.
Lemma kept_process_input i : kept (process_input vp_stage fault cloud_open cloud_publish row_identity o i).
Proof.
  unfold process_input. kept_steps. generalize (ai_records i). intros l. induction l as [|data l IH]; simpl; kept_steps.
Qed.
Hint Resolve kept_fail_input kept_process_input : io.
Lemma kept_run_input ordinal i : kept (run_input' ordinal i).
Proof.
  unfold run_input, setCurrentInput, setCurrentInputIdentity.
  apply pres_bind; [apply kept_set_writer; same_paths|intros _]. apply pres_bind; [auto with io|intros _].
  destruct (ai_unavailable i); [kept_steps|].
  destruct (if ai_declared i || wo_EmitInputIdentity o then ai_identity i else Ok "") as [sha|e]; [|kept_steps].
  destruct (ai_fields i) as [e|]; [kept_steps|].
  apply pres_bind; [destruct (wo_EmitInputIdentity o); [apply kept_set_writer; same_paths|apply pres_ret]|intros _].
  apply kept_writer_own. intros c _ _ _. cbv zeta. apply pres_bind; [auto with io|intros err].
  destruct (ai_cleanup i); [kept_steps|]. destruct err as [e|], (ai_failed i); [kept_steps..|].
  destruct (if ai_not_applicable i then None else ai_floor i); [kept_steps|].
  apply pres_bind; [auto with io|intros _]. apply kept_writer_own. intros c' _ _ _. cbv zeta. kept_steps.
Qed.
Lemma kept_run_inputs ordinal l : kept (run_inputs' ordinal l).
Proof. pose proof kept_run_input. revert ordinal. induction l as [|i l IH]; intros ordinal; simpl; kept_steps. Qed.
Lemma kept_agg_commit total : kept (agg_commit fault cloud_open cloud_publish o total).
Proof.
  apply kept_writer_own. intros c _ _ _. apply pres_bind.
  { destruct (aw_open c); [apply pres_ret|]. destruct (aw_shards c); [|apply pres_ret].
    apply pres_bind; [auto with io|intros _]. apply kept_set_writer. intros w. unfold cover_inputs.
    destruct (aw_open w) as [t|] eqn:Ht; split_and!; simpl; try done; [|rewrite Ht; by intros s [=]].
    intros s [= <-]. by exists t. }
  intros _. apply pres_bind; [auto with io|intros _]. apply kept_writer_own. intros w _ Hs Hf. rewrite Hlocal.
  eapply kept_on_commit, kept_commitShards; side.
Qed.
Lemma temp_target name k : file_name name → target (temp_path dir (Join dir name) k).
Proof.
  intros Hn. rewrite temp_path_Join by (done || apply dir_nonempty). apply Htarget; [by apply temp_name_ok|].
  apply suffix_ne with ".tmp"; [apply temp_name_suffix|done].
Qed.
(** A sidecar's name: a file may appear there and at its temporary name. *)
Lemma kept_put_sidecar name data :
  file_name name → name ≠ "manifest.json" → kept (put_sidecar' name data).
Proof.
  intros Hn Hne. unfold put_sidecar. rewrite Hlocal, Join_dir by done. apply kept_on_commit.
  eapply kept_writeSidecar; try side; [by apply Htarget|].
  intros k. by apply temp_target.
Qed.
Lemma kept_run_to_manifest inputs : target (manifest_path dir) → kept (run_to_manifest' inputs).
Proof.
  intros Hm. unfold run_to_manifest. apply pres_bind; [apply kept_run_inputs|intros outs].
  apply pres_bind; [apply kept_agg_commit|intros _].
  apply pres_bind; [destruct (_ && _); [by apply kept_put_sidecar|apply pres_ret]|intros _].
  apply kept_writer_own. intros w _ _ _. apply pres_bind; [destruct hasApplicability; [by apply kept_put_sidecar|apply pres_ret]|intros _].
  apply pres_bind; [kept_steps|intros _]. cbv zeta. rewrite Hlocal. apply pres_bind; [|intros _; apply pres_ret].
  rewrite Join_dir by done. apply kept_on_commit. eapply kept_writeManifest; try side. intros k. by apply temp_target.
Qed.
Lemma kept_agg_abort : kept (agg_abort fault cloud_discard o).
Proof.
  unfold agg_abort. apply pres_bind.
  { apply kept_writer_own. intros w _ _ _. rewrite Hlocal. destruct (aw_open w); [|apply pres_ret]. apply pres_bind; [kept_steps|intros r]. apply pres_bind; [|intros _; apply pres_ret].
    apply kept_set_writer. intros c. split_and!; simpl; [done..|]. by intros s [=]. }
  intros r. cbv zeta. rewrite Hlocal. apply pres_bind; [|intros es; apply pres_ret]. eapply kept_on_commit, kept_abort; side.
Qed.
Lemma kept_run_aggregate inputs : target (manifest_path dir) → kept (run_aggregate' inputs).
Proof.
  intros Hm. pose proof kept_run_to_manifest as Hr. specialize (Hr inputs Hm). pose proof kept_agg_abort.
  unfold run_aggregate. apply pres_bind; [by apply pres_attempt|]. intros [outs|e].
  - kept_steps.
  - apply kept_writer_own. intros w _ _ _. rewrite Hlocal. kept_steps.
Qed.
End frame.
