(* ===== verification/AggregateRunSpec.v ===== *)
(** * What a run of the aggregate writer leaves behind

    The shards while they are written, against the records that went into them;
    then the run over the inputs up to the manifest, for durable local output. *)
From Stdlib Require Import Ascii ZArith Lia.
From stdpp Require Import base list strings gmap sets.
From S2P Require Import Prelude GoStrings GoStrconv GoValue GoPath GoSha256 DurableFs DurableFsSpec DurableCommit DurableCommitSpec DurableShards AggregateWriter AggregateSpec.

(** A record in a shard: the ordinal of its input and its line. *)
Definition row : Type := nat * string.
Definition text (b : list row) : string := foldr (λ r s, r.2 +:+ s) "" b.
Lemma text_app b b' : text (b ++ b') = text b +:+ text b'.
Proof. induction b as [|r b IH]; [done|]. simpl. by rewrite IH, sapp_assoc. Qed.

(** What the ledger says of a shard. *)
Definition describes (b : list row) (out : AggregateOutput) : Prop :=
  ao_RecordCount out = length b ∧ ao_SHA256 out = "sha256:" +:+ sha256_hex (text b)
  ∧ (∀ r, head b = Some r → ao_InputOrdinalStart out = r.1) ∧ (∀ r, last b = Some r → ao_InputOrdinalEnd out = r.1).
(** The caps on a shard; a record over the byte cap has a shard of its own. *)
Definition capped (o : writer_options) (b : list row) : Prop :=
  ((0 < wo_maxRecords o)%Z → (Z.of_nat (length b) <= wo_maxRecords o)%Z)
  ∧ ((0 < wo_maxBytes o)%Z → (Z.of_nat (slen (text b)) <= wo_maxBytes o)%Z ∨ length b ≤ 1).
Definition shard : Type := shard_file * list row.
Definition rows (sh : list shard) : list row := concat sh.*2.

Section writing.
Context {P : Type} (o : writer_options).
Implicit Types (a : aggregateWriter P) (sh : list shard) (b : list row) (fs : fsys) (s : open_shard).

(** A finished shard and its entry in the ledger; the shard that is open. *)
Definition in_ledger fs (x : shard) (out : AggregateOutput) : Prop :=
  synced fs x.1 ∧ sf_path x.1 = Join (wo_outputPath o) (ao_Path out) ∧ describes x.2 out.
Definition open_for a s (x : shard) : Prop :=
  sf_ino x.1 = os_file s ∧ sf_path x.1 = Join (wo_outputPath o) (shardFileName o (aw_shardOrd a))
  ∧ os_hashed s = text x.2 ∧ os_recordCount s = length x.2
  ∧ (∀ r, head x.2 = Some r → os_inputStart s = r.1 ∧ 0 < r.1) ∧ (∀ r, last x.2 = Some r → os_inputEnd s = r.1).
Definition well_made (x : shard) : Prop :=
  sf_data x.1 = text x.2 ∧ capped o x.2 ∧ ∃ k, sf_path x.1 = Join (wo_outputPath o) (shardFileName o k).
Record writing sh a fs : Prop := {
  wr_finals : aw_finalPaths a = sf_path <$> sh.*1;
  wr_stages : aw_stagePaths a = sf_stage <$> sh.*1;
  wr_inos : NoDup (sf_ino <$> sh.*1);
  wr_staged : Forall (staged fs) sh.*1;
  wr_made : Forall well_made sh;
  wr_prepared : sh ≠ [] → c_prepared (aw_commit a) = true;
  wr_total : aw_totalRecords a = length (rows sh);
  wr_ledger : match aw_open a with
              | None => Forall2 (in_ledger fs) sh (aw_shards a)
              | Some s => ∃ sh' x, sh = sh' ++ [x] ∧ Forall2 (in_ledger fs) sh' (aw_shards a) ∧ open_for a s x
              end;
}.

Lemma in_ledger_new sh outs fs p : fresh_ino (f_next fs) sh.*1 → Forall2 (in_ledger fs) sh outs → Forall2 (in_ledger (new_file p fs)) sh outs.
Proof.
  intros Hf H. induction H as [|x out sh outs [H1 H2] H IH]; constructor.
  - split; [|done]. unfold synced. simpl. rewrite lookup_delete_ne; [done|]. apply not_eq_sym, Hf. left.
  - apply IH. intros f Hin. apply Hf. by right.
Qed.
Lemma in_ledger_append sh outs fs i t : fresh_ino i sh.*1 → Forall2 (in_ledger fs) sh outs → Forall2 (in_ledger (append_data i t fs)) sh outs.
Proof.
  intros Hf H. induction H as [|x out sh outs [H1 H2] H IH]; constructor.
  - split; [|done]. unfold synced. simpl. rewrite lookup_delete_ne; [done|]. apply not_eq_sym, Hf. left.
  - apply IH. intros f Hin. apply Hf. by right.
Qed.
Lemma in_ledger_sync sh outs fs i : fresh_ino i sh.*1 → Forall2 (in_ledger fs) sh outs → Forall2 (in_ledger (sync_data i fs)) sh outs.
Proof.
  intros Hf H. induction H as [|x out sh outs [H1 H2] H IH]; constructor.
  - split; [|done]. unfold synced. simpl. rewrite lookup_insert_ne; [done|]. apply not_eq_sym, Hf. left.
  - apply IH. intros f Hin. apply Hf. by right.
Qed.

(** ** Rows into a shard *)
Lemma writing_opened sh a fs stage :
  aw_open a = None → writing sh a fs → stage = Join (wo_outputPath o) (shardFileName o (S (aw_shardOrd a))) +:+ ".partial" →
  f_ns fs !! stage = None → ∀ c, c_prepared c = true →
  writing (sh ++ [({| sf_path := Join (wo_outputPath o) (shardFileName o (S (aw_shardOrd a))); sf_ino := f_next fs; sf_data := "" |}, [])])
    (shard_opened (f_next fs) (Some (stage, Join (wo_outputPath o) (shardFileName o (S (aw_shardOrd a))))) (with_commit (next_shard a) c))
    (new_file stage fs).
Proof.
  intros Ho [H1 H2 H3 H4 H5 H6 H7 H8] Hst Hns c Hc. rewrite Ho in H8. destruct (staged_new fs _ stage Hns H4) as [Hs Hf].
  split; simpl.
  - by rewrite H1, !fmap_app.
  - rewrite H2, !fmap_app. by rewrite Hst.
  - rewrite !fmap_app. apply NoDup_app. split; [done|]. split; [|apply NoDup_singleton].
    intros i (f & -> & Hin)%list_elem_of_fmap Hi%list_elem_of_singleton. by apply (Hf f).
  - rewrite fmap_app. apply Forall_app. split; [done|]. apply Forall_singleton. unfold staged, sf_stage. simpl.
    rewrite <- Hst. apply holds_created.
  - apply Forall_app. split; [done|]. apply Forall_singleton. split; [done|]. split; [|by eexists].
    split; simpl; [lia|]. intros _. right. lia.
  - done.
  - rewrite H7. unfold rows. by rewrite fmap_app, concat_app, length_app, Nat.add_0_r.
  - eexists sh, _. split; [reflexivity|]. split; [by apply in_ledger_new|]. by split_and!.
Qed.
Lemma inos_last sh' (x : shard) : NoDup (sf_ino <$> (sh' ++ [x]).*1) → fresh_ino (sf_ino x.1) sh'.*1.
Proof.
  rewrite !fmap_app. intros (_ & H & _)%NoDup_app f Hf E. apply (H (sf_ino f)); [by apply list_elem_of_fmap_2|].
  rewrite E. left.
Qed.
Lemma full_capped a s x data :
  open_for a s x → capped o x.2 → full o s data = false → capped o (x.2 ++ [(aw_ordinal a, data)]).
Proof.
  intros (_ & _ & Hh & Hc & _) [H1 H2] Hfull. unfold full, byteCount in Hfull. rewrite Hh, Hc in Hfull.
  unfold capped. rewrite length_app, text_app, slen_app. cbn [text foldr snd length]. rewrite sapp_nil_r.
  destruct (Nat.ltb_spec 0 (length x.2)) as [Hl|Hl]; simpl in Hfull.
  - apply orb_false_iff in Hfull as [Hb Hr]. split; intros Hp.
    + apply Z.ltb_lt in Hp. rewrite Hp in Hr. simpl in Hr. apply Z.leb_gt in Hr. lia.
    + left. apply Z.ltb_lt in Hp. rewrite Hp in Hb. simpl in Hb. apply Z.ltb_ge in Hb. lia.
  - split; intros Hp; [lia|]. right. lia.
Qed.
Lemma writing_wrote sh a fs s data :
  aw_open a = Some s → full o s data = false → 0 < aw_ordinal a → (os_recordCount s = 0 → os_inputStart s = 0) →
  writing sh a fs → ∀ c, (c_prepared (aw_commit a) = true → c_prepared c = true) →
  ∃ sh', writing sh' (wrote data (with_commit a c)) (append_data (os_file s) data fs)
         ∧ rows sh' = rows sh ++ [(aw_ordinal a, data)].
Proof.
  intros Ho Hfull Hk Hz [H1 H2 H3 H4 H5 H6 H7 H8] c Hc. rewrite Ho in H8. destruct H8 as (sh' & x & -> & Hl & Hx).
  pose proof (inos_last _ _ H3) as Hf. pose proof Hx as (E1 & E2 & E3 & E4 & E5 & E6).
  rewrite fmap_app in H4. apply Forall_app in H4 as [H4 [Hst _]%Forall_cons_1].
  apply Forall_app in H5 as [H5 [(D1 & D2 & D3) _]%Forall_cons_1]. rewrite E1 in Hf.
  set (y := ({| sf_path := sf_path x.1; sf_ino := sf_ino x.1; sf_data := sf_data x.1 +:+ data |}, x.2 ++ [(aw_ordinal a, data)]) : shard).
  assert (text (x.2 ++ [(aw_ordinal a, data)]) = text x.2 +:+ data) as Ht.
  { rewrite text_app. cbn [text foldr snd]. by rewrite sapp_nil_r. }
  exists (sh' ++ [y]). split.
  - unfold wrote. simpl. rewrite Ho. split; cbn [aw_finalPaths aw_stagePaths aw_commit aw_totalRecords aw_open aw_shards].
    + by rewrite H1, !fmap_app.
    + by rewrite H2, !fmap_app.
    + by rewrite !fmap_app in *.
    + rewrite fmap_app. apply Forall_app. split; [by apply staged_append|]. apply Forall_singleton.
      unfold staged, sf_stage in *. simpl. rewrite <- E1. apply holds_appended. exact Hst.
    + apply Forall_app. split; [done|]. apply Forall_singleton. split; [simpl; by rewrite D1, Ht|]. split; [by eapply full_capped|done].
    + intros _. apply Hc, H6. by destruct sh'.
    + rewrite H7. unfold rows. rewrite !fmap_app, !concat_app, !length_app. simpl. rewrite !app_nil_r, length_app. simpl. lia.
    + exists sh', y. split; [done|]. split; [by apply in_ledger_append|]. split_and!; simpl; try done.
      * by rewrite Ht, E3.
      * rewrite length_app, E4. simpl. lia.
      * destruct x.2 as [|r0 b'] eqn:Eb; simpl; intros r [= <-].
        { rewrite Hz by (by rewrite E4). simpl. done. }
        destruct (E5 r0 eq_refl) as [Es Er]. rewrite Es. split; [|done]. by destruct r0.1; [lia|].
      * intros r. rewrite last_snoc. by intros [= <-].
  - unfold rows. rewrite !fmap_app, !concat_app. simpl. rewrite !app_nil_r. by rewrite app_assoc.
Qed.
Lemma writing_closed sh a fs s :
  aw_open a = Some s → writing sh a fs → ∀ c, (c_prepared (aw_commit a) = true → c_prepared c = true) →
  writing sh (shard_closed (shard_summary o (with_commit a c) s) (with_commit a c)) (sync_data (os_file s) fs).
Proof.
  intros Ho [H1 H2 H3 H4 H5 H6 H7 H8] c Hc. rewrite Ho in H8. destruct H8 as (sh' & x & -> & Hl & Hx).
  pose proof (inos_last _ _ H3) as Hf. pose proof Hx as (E1 & E2 & E3 & E4 & E5 & E6). rewrite E1 in Hf.
  split; cbn [shard_closed with_commit aw_finalPaths aw_stagePaths aw_commit aw_totalRecords aw_open aw_shards]; try done.
  - intros Hne. by apply Hc, H6.
  - apply Forall2_app; [by apply in_ledger_sync|]. constructor; [|constructor]. split; [|split].
    + unfold synced. rewrite E1. rewrite fmap_app in H4. apply Forall_app in H4 as [_ [(_ & Hd & _) _]%Forall_cons_1].
      simpl. rewrite lookup_insert_eq, <- E1, Hd. done.
    + exact E2.
    + split_and!; simpl; [done|by rewrite E3| |done]. intros r Hr. by apply E5.
Qed.
End writing.

(** ** The operations of the writer *)
Section operations.
Context {P : Type} (vp_begin vp_commit vp_discard : P → P) (vp_stage : P → string → P).
Context (fault : nat → option nat) (pick : fsys → nat).
Context (cloud_open : string → io (aggregateWriter P) nat) (cloud_publish : string → io (aggregateWriter P) ()).
Context (row_identity : string → option (nat * string)) (o : writer_options).
Context (Hlocal : wo_cloud o = false) (Hdurable : wo_durable o = true) (Hpath : wo_outputPath o ≠ "").
Local Notation dir := (outputDir o).
Local Notation world' := (world (aggregateWriter P)).
Implicit Types (w : world') (a : aggregateWriter P) (R : list row) (pend : list string) (k : nat).

Definition commit_world w : world commit :=
  {| w_fs := w_fs w; w_calls := w_calls w; w_trace := w_trace w; w_own := aw_commit (w_own w) |}.
Lemma on_commit_st {A} (m : io commit A) Pre K' X' a :
  triple Pre m (λ r, st (K' r) X') none →
  triple (λ w, Pre (commit_world w) ∧ w_own w = a) (on_commit m) (λ r w, K' r (w_fs w) ∧ ∃ c, X' c ∧ w_own w = with_commit a c) none.
Proof.
  intros Hm w [Hw <-]. specialize (Hm _ Hw). unfold on_commit. fold (commit_world w). destruct (m (commit_world w)) as [w' [r|e]]; [|done].
  destruct Hm as [HK HX]. split; [done|]. by exists (w_own w').
Qed.

(** The rows in the shards, those of the input that are pending, its ordinal. *)
Definition starts_at_zero a : Prop := ∀ s, aw_open a = Some s → os_recordCount s = 0 → os_inputStart s = 0.
Definition holding R pend k w : Prop :=
  ∃ sh, writing o sh (w_own w) (w_fs w) ∧ rows sh = R ∧ starts_at_zero (w_own w) ∧ aw_pending (w_own w) = pend ∧ aw_ordinal (w_own w) = k.
Lemma writing_nil a fs fs' : writing o [] a fs → writing o [] a fs'.
Proof.
  intros [H1 H2 H3 H4 H5 H6 H7 H8]. split; try done. destruct (aw_open a); [|by inversion H8; constructor].
  destruct H8 as (sh' & x & E & _). by destruct sh'.
Qed.
Lemma writing_next sh a fs : writing o sh a fs → aw_open a = None → writing o sh (next_shard a) fs.
Proof. intros [H1 H2 H3 H4 H5 H6 H7 H8] E. split; try done. simpl. by rewrite E in *. Qed.

Lemma openShard_holding R pend k :
  triple (λ w, holding R pend k w ∧ aw_open (w_own w) = None) (agg_openShard fault cloud_open o)
    (λ _ w, holding R pend k w ∧ ∃ s, aw_open (w_own w) = Some s ∧ os_recordCount s = 0) none.
Proof.
  apply triple_state. intros a. unfold agg_openShard. rewrite Hlocal, Hdurable.
  apply triple_ex with (P' := λ sh w, (writing o sh a (w_fs w) ∧ w_own w = a) ∧ (rows sh = R ∧ aw_open a = None ∧ aw_pending a = pend ∧ aw_ordinal a = k)).
  { intros w [[(sh & H1 & H2 & _ & H3 & H4) Ho] <-]. by exists sh. }
  intros sh. apply triple_pure. intros (HR & Ho & Hp & Hk).
  apply triple_bind with (Q' := λ _ w, writing o sh a (w_fs w) ∧ w_own w = next_shard a).
  { apply triple_set_own. intros w [H <-]. by split. }
  intros _. apply triple_own. intros a1. apply triple_know with (a1 = next_shard a); [by intros w [[_ <-] <-]|]. intros ->.
  rewrite Join_dir by (done || apply shardFileName_name).
  eapply triple_bind.
  { apply triple_wrap. eapply triple_pre; [|apply (on_commit_st _ _ _ _ (next_shard a) (openShard_st fault dir (writing o sh a) _))].
    intros w [[Hw E] _]. split; [|done]. split; [exact Hw|]. destruct sh as [|x sh].
    - right. intros fs. by eapply writing_nil.
    - left. unfold commit_world. cbn [w_own]. rewrite E. by apply (wr_prepared _ _ _ _ Hw). }
  intros [f stage]. cbn [fst snd]. apply triple_set_own. intros w [(-> & fs1 & Hw & Hns & -> & Hfs) (c & Hc & E)].
  rewrite <- Join_dir in * by (done || apply shardFileName_name).
  split; [|eexists; cbn [w_own]; rewrite E; by split].
  eexists. unfold holding. cbn [w_own w_fs]. rewrite E, Hfs. split; [by apply writing_opened|]. split_and!; try done.
  - unfold rows. by rewrite fmap_app, concat_app, app_nil_r.
  - by intros s [= <-].
Qed.
Lemma finalizeShard_writing sh a :
  triple (λ w, writing o sh a (w_fs w) ∧ w_own w = a) (agg_finalizeShard fault cloud_publish o)
    (λ _ w, writing o sh (w_own w) (w_fs w) ∧ aw_open (w_own w) = None
            ∧ aw_pending (w_own w) = aw_pending a ∧ aw_ordinal (w_own w) = aw_ordinal a) none.
Proof.
  apply triple_own. intros a1. apply triple_know with (a1 = a); [by intros w [[_ <-] <-]|]. intros ->.
  destruct (aw_open a) as [s|] eqn:Ho; [|apply triple_ret; by intros w [[H <-] _]].
  rewrite Hlocal, Hdurable. cbv zeta. set (X' := λ c, c_prepared (aw_commit a) = true → c_prepared c = true).
  eapply triple_bind.
  { eapply triple_pre; [|apply (on_commit_st _ (st (writing o sh a) X') (λ _ fs, ∃ fs1, writing o sh a fs1 ∧ fs = sync_data (os_file s) fs1) X' a)].
    - intros w [[Hw E] _]. split; [|exact E]. split; [exact Hw|]. unfold commit_world. cbn [w_own]. rewrite E. exact (λ H, H).
    - apply finalizeShard_st. intros fs H. by exists fs. }
  cbv beta. intros _. apply triple_set_own. intros w ((fs1 & Hw & Hfs) & c & Hc & E). cbn [w_own w_fs]. rewrite E, Hfs.
  split; [|done]. by apply writing_closed.
Qed.
Lemma finalizeShard_holding R pend k :
  triple (holding R pend k) (agg_finalizeShard fault cloud_publish o)
    (λ _ w, holding R pend k w ∧ aw_open (w_own w) = None) none.
Proof.
  apply triple_state. intros a.
  apply triple_ex with (P' := λ sh w, (writing o sh a (w_fs w) ∧ w_own w = a) ∧ (rows sh = R ∧ aw_pending a = pend ∧ aw_ordinal a = k)).
  { intros w [(sh & H1 & H2 & _ & H3 & H4) <-]. by exists sh. }
  intros sh. apply triple_pure. intros (HR & Hp & Hk). eapply triple_conseq; [apply finalizeShard_writing|intros w H; exact H| |done].
  intros ? w (Hw & Ho & E1 & E2). split; [|done]. exists sh. rewrite E1, E2. split; [done|]. split_and!; try done. intros s. by rewrite Ho.
Qed.
Lemma roll_holding R pend k data :
  triple (holding R pend k) (roll fault cloud_open cloud_publish o data)
    (λ _ w, holding R pend k w ∧ ∃ s, aw_open (w_own w) = Some s ∧ full o s data = false) none.
Proof.
  assert (∀ w, (holding R pend k w ∧ ∃ s, aw_open (w_own w) = Some s ∧ os_recordCount s = 0) →
            holding R pend k w ∧ ∃ s, aw_open (w_own w) = Some s ∧ full o s data = false) as Hnew.
  { intros w (H & s & Hs & Hc). split; [done|]. exists s. split; [done|]. unfold full. by rewrite Hc. }
  assert (triple (λ w, holding R pend k w ∧ aw_open (w_own w) = None) (agg_openShard fault cloud_open o)
    (λ _ w, holding R pend k w ∧ ∃ s, aw_open (w_own w) = Some s ∧ full o s data = false) none) as Hopen.
  { eapply triple_conseq; [apply openShard_holding|intros w H; exact H|intros ? w H; by apply Hnew|done]. }
  apply triple_own. intros a. destruct (aw_open a) as [s|] eqn:Ho.
  - destruct (full o s data) eqn:Hf.
    + apply triple_pre with (holding R pend k); [by intros w [H _]|]. eapply triple_bind; [apply finalizeShard_holding|]. by intros ?.
    + apply triple_ret. intros w [H <-]. split; [done|]. by exists s.
  - eapply triple_pre; [|exact Hopen]. by intros w [H <-].
Qed.
Lemma writeRecordLocked_holding R pend k data : 0 < k →
  triple (holding R pend k) (writeRecordLocked fault cloud_open cloud_publish row_identity o data)
    (λ _, holding (R ++ [(k, data)]) pend k) none.
Proof.
  intros Hk. unfold writeRecordLocked. rewrite Hlocal. cbn [andb].
  apply triple_bind with (Q' := λ _, holding R pend k).
  { unfold check_identity. apply triple_own. intros a. apply triple_pre with (holding R pend k); [by intros w [H _]|].
    destruct (negb _); [by apply triple_ret|]. destruct (row_identity data) as [[ord sha]|]; [|by apply triple_fail].
    destruct (_ || _); [by apply triple_fail|by apply triple_ret]. }
  intros _. eapply triple_bind; [apply roll_holding|]. cbv beta. intros _. apply triple_own. intros a.
  destruct (aw_open a) as [s|] eqn:Ho; [|apply triple_ret; intros w [[_ (s & Hs & _)] <-]; congruence].
  apply triple_ex with (P' := λ sh w, (writing o sh a (w_fs w) ∧ w_own w = a)
    ∧ (rows sh = R ∧ aw_pending a = pend ∧ aw_ordinal a = k ∧ full o s data = false ∧ (os_recordCount s = 0 → os_inputStart s = 0))).
  { intros w [[(sh & H1 & H2 & H3 & H4 & H5) (s' & Hs & Hf)] <-]. exists sh. split_and!; try done; [congruence|by apply H3]. }
  intros sh. apply triple_pure. intros (HR & Hp & Hord & Hf & Hz).
  set (X' := λ c, c_prepared (aw_commit a) = true → c_prepared c = true).
  apply triple_bind with (Q' := λ _ w, writing o sh a (w_fs w) ∧ ∃ c, X' c ∧ w_own w = with_commit a c).
  { eapply triple_pre; [|apply (on_commit_st _ (st (writing o sh a) X') (λ _ fs, writing o sh a fs) X' a); apply triple_wrap, before_st].
    intros w [Hw E]. split; [|exact E]. split; [exact Hw|]. unfold commit_world. cbn [w_own]. rewrite E. exact (λ H, H). }
  intros _. apply triple_bind with (Q' := λ _ w, ∃ c fs1, X' c ∧ writing o sh a fs1 ∧ w_own w = with_commit a c ∧ w_fs w = append_data (os_file s) data fs1).
  { apply triple_wrap, triple_write; [done|]. intros w [Hw (c & Hc & E)]. exists c, (w_fs w). by split_and!. }
  intros _. apply triple_set_own. intros w (c & fs1 & Hc & Hw & E & Hfs).
  assert (0 < aw_ordinal a) as Hka by (by rewrite Hord).
  destruct (writing_wrote o sh a fs1 s data Ho Hf Hka Hz Hw c Hc) as (sh' & Hw' & Hr).
  exists sh'. cbn [w_own w_fs]. rewrite E, Hfs. split; [exact Hw'|]. rewrite Hr, HR, Hord. unfold wrote. simpl. rewrite Ho. split_and!; try done.
  intros t [= <-]. done.
Qed.
Lemma write_all_holding pend k l : 0 < k → ∀ R,
  triple (holding R pend k) (write_all fault cloud_open cloud_publish row_identity o l)
    (λ _, holding (R ++ (pair k <$> l)) pend k) none.
Proof.
  intros Hk. induction l as [|data l IH]; intros R; cbn [write_all].
  - rewrite fmap_nil, app_nil_r. by apply triple_ret.
  - rewrite fmap_cons, (cons_middle _ R), app_assoc. eapply triple_bind; [by apply writeRecordLocked_holding|]. intros ?. apply IH.
Qed.

(** *** One input *)
Lemma set_writer_holding R pend k R' pend' k' (h : aggregateWriter P → aggregateWriter P) (E : world' → Prop) :
  (∀ a, (∀ sh fs, writing o sh a fs → writing o sh (h a) fs) ∧ (starts_at_zero a → starts_at_zero (h a))) →
  (∀ a, aw_pending a = pend → aw_ordinal a = k → R = R' ∧ aw_pending (h a) = pend' ∧ aw_ordinal (h a) = k') →
  triple (holding R pend k) (set_own h) (λ _, holding R' pend' k') E.
Proof.
  intros Hw Ha. apply triple_set_own. intros w (sh & H1 & H2 & H3 & H4 & H5). destruct (Ha _ H4 H5) as (-> & Hp & Hk).
  destruct (Hw (w_own w)) as [Hw1 Hz]. exists sh. cbn [w_own w_fs]. split; [by apply Hw1|]. split_and!; try done. by apply Hz.
Qed.
Lemma writing_same sh a a' fs :
  aw_finalPaths a' = aw_finalPaths a → aw_stagePaths a' = aw_stagePaths a → aw_commit a' = aw_commit a →
  aw_totalRecords a' = aw_totalRecords a → aw_open a' = aw_open a → aw_shards a' = aw_shards a → aw_shardOrd a' = aw_shardOrd a →
  writing o sh a fs → writing o sh a' fs.
Proof.
  intros E1 E2 E3 E4 E5 E6 E7 [H1 H2 H3 H4 H5 H6 H7 H8]. split; rewrite ?E1, ?E2, ?E3, ?E4, ?E5, ?E6; try done.
  destruct (aw_open a); [|done]. unfold open_for in *. by rewrite E7.
Qed.
Ltac holding_step :=
  apply set_writer_holding; [intros ?; split; [intros ? ?; by apply writing_same|done]|intros ???; split_and!; simpl; first [reflexivity | congruence]].
Lemma setCurrentInput_holding R pend k k' : triple (holding R pend k) (setCurrentInput k') (λ _, holding R pend k') none.
Proof. holding_step. Qed.
Lemma setIdentity_holding R pend k k' sha : triple (holding R pend k) (setCurrentInputIdentity k' sha) (λ _, holding R pend k') none.
Proof. holding_step. Qed.
Lemma beginInput_holding R pend k : triple (holding R pend k) (beginInput vp_begin) (λ _, holding R [] k) none.
Proof. holding_step. Qed.
Lemma discardInput_holding R pend k : triple (holding R pend k) (discardInput vp_discard) (λ _, holding R [] k) none.
Proof. holding_step. Qed.
Lemma commitInput_holding R pend k : 0 < k →
  triple (holding R pend k) (commitInput vp_commit fault cloud_open cloud_publish row_identity o)
    (λ _, holding (R ++ (pair k <$> pend)) [] k) none.
Proof.
  intros Hk. apply triple_own. intros a. apply triple_know with (aw_pending a = pend); [by intros w [(sh & _ & _ & _ & H & _) <-]|].
  intros Hp. apply triple_pre with (holding R pend k); [by intros w [H _]|]. rewrite Hp.
  eapply triple_bind; [by apply write_all_holding|]. intros ?. holding_step.
Qed.
(** The records go to the shards at once, or wait for the commit of the input. *)
Definition emitted R l k : world' → Prop := if wo_buffering o then holding R l k else holding (R ++ (pair k <$> l)) [] k.
Lemma emit_records_buffered R k l : wo_buffering o = true → ∀ pend,
  triple (holding R pend k) (emit_rows vp_stage fault cloud_open cloud_publish row_identity o l)
    (λ _, holding R (pend ++ l) k) (λ _, False).
Proof.
  intros Hb. induction l as [|data l IH]; intros pend; cbn [emit_rows].
  - rewrite app_nil_r. by apply triple_ret.
  - rewrite (cons_middle _ pend), app_assoc. eapply triple_bind; [|intros ?; apply IH].
    unfold writeMarshaled. rewrite Hb. apply triple_bind with (Q' := λ _, holding R (pend ++ [data]) k); [holding_step|].
    intros ?. holding_step.
Qed.
Lemma emit_records_direct pend k l : wo_buffering o = false → 0 < k → ∀ R,
  triple (holding R pend k) (emit_rows vp_stage fault cloud_open cloud_publish row_identity o l)
    (λ _, holding (R ++ (pair k <$> l)) pend k) none.
Proof.
  intros Hb Hk. induction l as [|data l IH]; intros R; cbn [emit_rows].
  - rewrite fmap_nil, app_nil_r. by apply triple_ret.
  - rewrite fmap_cons, (cons_middle _ R), app_assoc. eapply triple_bind; [|intros ?; apply IH].
    unfold writeMarshaled. rewrite Hb. eapply triple_bind; [by apply writeRecordLocked_holding|]. intros ?. holding_step.
Qed.
Lemma process_input_holding R k i : 0 < k →
  triple (holding R [] k) (process_input vp_stage fault cloud_open cloud_publish row_identity o i)
    (λ err w, (err = ai_error i ∧ emitted R (ai_records i) k w) ∨ (err ≠ None ∧ wo_buffering o = false)) none.
Proof.
  intros Hk. unfold process_input, emitted. destruct (wo_buffering o) eqn:Hb.
  - apply triple_bind with (Q' := λ r w, r = Ok () ∧ holding R (ai_records i) k w).
    + apply triple_attempt. eapply triple_conseq; [by apply (emit_records_buffered R k (ai_records i) Hb [])|done| |done].
      by intros [] w H.
    + intros r. apply triple_ret. intros w [-> H]. by left.
  - apply triple_bind with (Q' := λ r w, ∀ x, r = Ok x → holding (R ++ (pair k <$> ai_records i)) [] k w).
    + apply triple_attempt. eapply triple_conseq; [by apply emit_records_direct|done| |done]. by intros x w H y [= <-].
    + intros [x|e]; apply triple_ret; intros w H; [left|by right]. split; [done|by apply (H x)].
Qed.

(** *** The inputs of a run *)
Context (unavailableClass : gerror → option string) (continueOnError : bool) (Hbuffer : continueOnError = true → wo_buffering o = true).
Definition some {A} (x : option A) : bool := match x with Some _ => true | None => false end.
(** An input that gives no rows, and what the run makes of an input. *)
Definition input_bad (i : agg_input) : bool :=
  some (ai_unavailable i)
  || match (if ai_declared i || wo_EmitInputIdentity o then ai_identity i else Ok "") with Ok _ => false | Err _ => true end
  || some (ai_fields i) || some (ai_error i) || ai_failed i || (negb (ai_not_applicable i) && some (ai_floor i)).
Definition outcome_of (i : agg_input) : input_outcome :=
  if input_bad i then InputFailed
  else if ai_not_applicable i then InputNotApplicable (length (ai_records i)) else InputApplied (length (ai_records i)).
Definition delivered (k : nat) (i : agg_input) : list row := if input_bad i then [] else pair k <$> ai_records i.
Fixpoint delivered_all (k : nat) (l : list agg_input) : list row :=
  match l with [] => [] | i :: l => delivered k i ++ delivered_all (S k) l end.

Lemma holding_total R pend k w : holding R pend k w → aw_totalRecords (w_own w) = length R.
Proof. intros (sh & H & <- & _). apply H. Qed.
Lemma refuse_st {A} e (Q : A → world' → Prop) (Pre : world' → Prop) (m : io (aggregateWriter P) A) :
  triple Pre m Q none → triple Pre (refuse e m) Q none.
Proof. intros Hm. destruct e; [by apply triple_fail|done]. Qed.
Lemma fail_input_holding R k i e :
  triple (λ w, wo_buffering o = true → ∃ pend, holding R pend k w) (fail_input vp_discard continueOnError i e)
    (λ out w, out = InputFailed ∧ holding R [] k w) none.
Proof.
  unfold fail_input. destruct continueOnError.
  - apply triple_ex with (P' := λ pend, holding R pend k); [intros w H; by apply H, Hbuffer|]. intros pend.
    eapply triple_bind; [apply discardInput_holding|]. intros ?. apply refuse_st. by apply triple_ret.
  - intros w _. unfold mbind, io_bind. by destruct (discardInput vp_discard w) as [w' [x|e']].
Qed.
Lemma fail_input_stops i e : continueOnError = false →
  triple (λ _, True) (fail_input vp_discard continueOnError i e) (λ _ _, False) none.
Proof. intros ->. unfold fail_input. intros w _. unfold mbind, io_bind. by destruct (discardInput vp_discard w) as [w' [x|e']]. Qed.
Local Notation run_input' := (run_input vp_begin vp_commit vp_discard vp_stage fault cloud_open cloud_publish row_identity o unavailableClass continueOnError).
Local Notation run_inputs' := (run_inputs vp_begin vp_commit vp_discard vp_stage fault cloud_open cloud_publish row_identity o unavailableClass continueOnError).
Lemma run_input_holding R k k0 i : 0 < k →
  triple (holding R [] k0) (run_input' k i) (λ out w, out = outcome_of i ∧ holding (R ++ delivered k i) [] k w) none.
Proof.
  intros Hk. unfold run_input. eapply triple_bind; [apply setCurrentInput_holding|intros ?].
  eapply triple_bind; [apply beginInput_holding|intros ?]. unfold outcome_of, delivered, input_bad.
  assert (∀ e, triple (holding R [] k) (fail_input vp_discard continueOnError i e)
    (λ out w, out = InputFailed ∧ holding (R ++ []) [] k w) none) as Hfail.
  { intros e. rewrite app_nil_r. eapply triple_pre; [|apply fail_input_holding]. intros w H _. by exists []. }
  destruct (ai_unavailable i) as [e|]; cbn [some orb].
  { eapply triple_bind; [apply discardInput_holding|]. intros ?. apply refuse_st, triple_ret. intros w H. by rewrite app_nil_r. }
  destruct (if ai_declared i || wo_EmitInputIdentity o then ai_identity i else Ok "") as [sha|e]; cbn [orb]; [|apply Hfail].
  destruct (ai_fields i) as [e|]; cbn [some orb].
  { destruct (ai_cleanup i); [by apply triple_fail|]. destruct continueOnError; [apply Hfail|by apply triple_fail]. }
  apply triple_bind with (Q' := λ _, holding R [] k).
  { destruct (wo_EmitInputIdentity o); [apply setIdentity_holding|by apply triple_ret]. }
  intros ?. apply triple_own. intros before. cbv zeta. apply triple_know with (aw_totalRecords before = length R).
  { intros w [H <-]. by eapply holding_total. }
  intros Hn0. apply triple_pre with (holding R [] k); [by intros w [H _]|].
  eapply triple_bind; [by apply process_input_holding|]. intros err. cbv beta.
  destruct (ai_cleanup i); [by apply triple_fail|].
  assert (∀ e err', triple (λ w, (err' = ai_error i ∧ emitted R (ai_records i) k w) ∨ (err' ≠ None ∧ wo_buffering o = false))
    (fail_input vp_discard continueOnError i e)
    (λ out w, out = InputFailed ∧ holding (R ++ []) [] k w ∧ err' = ai_error i) none) as Hfail'.
  { intros e err'. rewrite app_nil_r. destruct (bool_decide_reflect (continueOnError = true)) as [Hc|Hc].
    - apply triple_know with (err' = ai_error i); [intros w [[H _]|[_ H]]; [done|]; by rewrite Hbuffer in H|]. intros ->.
      eapply triple_conseq; [apply (fail_input_holding R k i e)| |by intros out w []|done].
      intros w [[_ H]|[_ H]] Hb; [|congruence]. unfold emitted in H. rewrite Hb in H. by eexists.
    - eapply triple_conseq; [by apply (fail_input_stops i e), not_true_is_false|done|by intros ? ? []|done]. }
  destruct err as [e|].
  { eapply triple_conseq; [apply (Hfail' _ (Some e))|intros w H; exact H| |done]. intros out w (-> & H & E). by rewrite <- E. }
  apply triple_pre with (λ w, emitted R (ai_records i) k w ∧ ai_error i = None); [intros w [[H1 H2]|[H _]]; by split|].
  apply triple_pure. intros ->. cbn [some orb].
  assert (∀ e, triple (emitted R (ai_records i) k) (fail_input vp_discard continueOnError i e)
    (λ out w, out = InputFailed ∧ holding (R ++ []) [] k w) none) as Hfail2.
  { intros e. destruct (bool_decide_reflect (continueOnError = true)) as [Hc|Hc].
    - rewrite app_nil_r. eapply triple_pre; [|apply fail_input_holding]. intros w H Hb. unfold emitted in H. rewrite Hb in H. by eexists.
    - eapply triple_conseq; [by apply (fail_input_stops i e), not_true_is_false|done|by intros ? ? []|done]. }
  destruct (ai_failed i); [apply Hfail2|]. cbn [orb].
  assert (triple (emitted R (ai_records i) k)
    (_ ← commitInput vp_commit fault cloud_open cloud_publish row_identity o;
     w ← own;
     let n := aw_totalRecords (w : aggregateWriter P) - aw_totalRecords before in
     refuse (ai_ledger i) (mret (if ai_not_applicable i then InputNotApplicable n else InputApplied n)))
    (λ out w, out = (if ai_not_applicable i then InputNotApplicable (length (ai_records i)) else InputApplied (length (ai_records i)))
              ∧ holding (R ++ (pair k <$> ai_records i)) [] k w) none) as Hcommit.
  { apply triple_bind with (Q' := λ _, holding (R ++ (pair k <$> ai_records i)) [] k).
    - unfold emitted. destruct (wo_buffering o); [by apply commitInput_holding|].
      pose proof (commitInput_holding (R ++ (pair k <$> ai_records i)) [] k Hk) as H. by rewrite fmap_nil, app_nil_r in H.
    - intros ?. apply triple_own. intros after. cbv zeta.
      apply triple_know with (aw_totalRecords after - aw_totalRecords before = length (ai_records i)).
      { intros w [H <-]. rewrite (holding_total _ _ _ _ H), Hn0, length_app, length_fmap. lia. }
      intros ->. apply refuse_st, triple_ret. by intros w [H _]. }
  destruct (ai_not_applicable i); cbn [negb andb]; [exact Hcommit|]. destruct (ai_floor i); cbn [some]; [apply Hfail2|exact Hcommit].
Qed.
Lemma run_inputs_holding l : ∀ R k k0, 0 < k →
  triple (holding R [] k0) (run_inputs' k l)
    (λ outs w, outs = outcome_of <$> l ∧ ∃ k1, holding (R ++ delivered_all k l) [] k1 w) none.
Proof.
  induction l as [|i l IH]; intros R k k0 Hk; cbn [run_inputs delivered_all].
  - rewrite app_nil_r. apply triple_ret. intros w H. split; [done|by exists k0].
  - eapply triple_bind; [by apply run_input_holding|]. intros out. cbv beta.
    apply triple_know with (out = outcome_of i); [by intros w []|]. intros ->.
    apply triple_pre with (holding (R ++ delivered k i) [] k); [by intros w []|]. rewrite app_assoc.
    eapply triple_bind; [apply (IH _ (S k)); lia|]. intros outs. cbv beta. apply triple_ret. by intros w [-> H].
Qed.

(** *** The commit of the shards *)

(** The shards of a run, in place. *)
Definition in_place (outs : list AggregateOutput) (R : list row) fs : Prop :=
  ∃ sh : list shard, Forall (solid fs) sh.*1
    ∧ Forall2 (λ x out, sf_path x.1 = Join (wo_outputPath o) (ao_Path out) ∧ describes x.2 out) sh outs
    ∧ Forall (well_made o) sh ∧ rows sh = R.
Lemma name_of (x : shard) : well_made o x → ∃ n, file_name n ∧ file_name (n +:+ ".partial") ∧ has_suffix ".jsonl" n = true ∧ sf_path x.1 = Join dir n.
Proof.
  intros (_ & _ & k & ->). exists (shardFileName o k). rewrite Join_dir by (done || apply shardFileName_name).
  split; [apply shardFileName_name|]. split; [apply stage_name|]. split; [apply shardFileName_suffix|done].
Qed.
Lemma well_made_apart sh : Forall (well_made o) sh → apart sh.*1 ∧ (∀ f, f ∈ sh.*1 → Dir (sf_path f) = dir)
  ∧ (∀ n f, f ∈ sh.*1 → file_name n → has_suffix ".jsonl" n = false → sf_path f ≠ Join dir n).
Proof.
  intros Hm. rewrite Forall_forall in Hm.
  assert (∀ f, f ∈ sh.*1 → ∃ n, file_name n ∧ file_name (n +:+ ".partial") ∧ has_suffix ".jsonl" n = true ∧ sf_path f = Join dir n) as Hn.
  { intros f (x & -> & Hx)%list_elem_of_fmap. by apply name_of, Hm. }
  pose proof (dir_nonempty o) as Hd. split_and!.
  - intros f g Hf Hg. destruct (Hn f Hf) as (n & H1 & _ & H2 & ->), (Hn g Hg) as (n' & H3 & H4 & H5 & E). unfold sf_stage. rewrite E.
    rewrite Join_suffix by done. intros Ej. apply Join_inj in Ej; [|done..]. revert Ej.
    apply suffix_ne with ".jsonl"; [done|]. by rewrite has_suffix_app by (simpl; lia).
  - intros f Hf. destruct (Hn f Hf) as (n & H1 & _ & _ & ->). destruct (Dir_Join dir n Hd H1) as [-> _]. apply dir_clean.
  - intros n f Hf Hn' Hs. destruct (Hn f Hf) as (n' & H1 & _ & H2 & ->). intros Ej. apply Join_inj in Ej; [|done..]. revert Ej.
    by apply suffix_ne with ".jsonl".
Qed.
Lemma writing_cover sh a fs total : writing o sh a fs → (∀ s, aw_open a = Some s → os_recordCount s = 0) → writing o sh (cover_inputs total a) fs.
Proof.
  intros Hw Hz. unfold cover_inputs. destruct (aw_open a) as [s|] eqn:Ho; [|done]. specialize (Hz s eq_refl).
  destruct Hw as [H1 H2 H3 H4 H5 H6 H7 H8]. split; try done. rewrite Ho in H8. simpl. destruct H8 as (sh' & x & -> & Hl & E1 & E2 & E3 & E4 & _).
  exists sh', x. split; [done|]. split; [done|]. rewrite E4 in Hz. apply nil_length_inv in Hz. unfold open_for. rewrite Hz in *. by split_and!.
Qed.
Lemma agg_commit_in_place R pend k total :
  triple (holding R pend k) (agg_commit fault cloud_open cloud_publish o total)
    (λ _ w, in_place (aw_shards (w_own w)) R (w_fs w) ∧ c_prepared (aw_commit (w_own w)) = true) none.
Proof.
  unfold agg_commit. apply triple_own. intros a.
  apply triple_bind with (Q' := λ _ w, ∃ sh, writing o sh (w_own w) (w_fs w) ∧ rows sh = R ∧ sh ≠ []).
  { destruct (bool_decide_reflect (aw_open a = None ∧ aw_shards a = [])) as [[Ho Hs]|Hne].
    - rewrite Ho, Hs. eapply triple_bind.
      { eapply triple_pre; [|apply openShard_holding]. intros w [H <-]. split; [exact H|done]. }
      intros ?. apply triple_set_own. intros w [(sh & Hw & HR & _) (s & Hop & Hz)]. exists sh. cbn [w_own w_fs]. split; [|split; [done|]].
      + apply writing_cover; [done|]. intros s'. rewrite Hop. by intros [= <-].
      + intros ->. pose proof (wr_ledger _ _ _ _ Hw) as H. rewrite Hop in H. destruct H as (sh' & x & E & _). by destruct sh'.
    - assert (∀ w, holding R pend k w ∧ w_own w = a → ∃ sh, writing o sh (w_own w) (w_fs w) ∧ rows sh = R ∧ sh ≠ []) as H.
      { intros w [(sh & Hw & HR & _) <-]. exists sh. split; [done|]. split; [done|]. intros ->. pose proof (wr_ledger _ _ _ _ Hw) as H.
        destruct (aw_open (w_own w)) as [s|]; [destruct H as (sh' & x & E & _); by destruct sh'|]. inversion H. by apply Hne. }
      destruct (aw_open a) as [s|]; [by apply triple_ret|]. destruct (aw_shards a) eqn:Es; [by destruct Hne|by apply triple_ret]. }
  intros u1. apply triple_state. intros a1.
  apply triple_ex with (P' := λ sh w, (writing o sh a1 (w_fs w) ∧ w_own w = a1) ∧ (rows sh = R ∧ sh ≠ [])).
  { intros w [(sh & H1 & H2 & H3) <-]. by exists sh. }
  intros sh. apply triple_pure. intros [HR Hne]. eapply triple_bind; [apply finalizeShard_writing|]. cbv beta. intros u2.
  apply triple_own. intros a2. rewrite Hlocal, Hdurable.
  apply triple_pre with (λ w, (writing o sh a2 (w_fs w) ∧ w_own w = a2) ∧ (aw_open a2 = None)); [by intros w [(H1 & H2 & _) <-]|].
  apply triple_pure. intros Ho. apply triple_know with (∃ fs, writing o sh a2 fs); [by intros w [H _]; eexists|]. intros [fs0 [E1 E2 Hi _ Hm Hp _ Hl0]]. rewrite Ho in Hl0.
  rewrite E1, E2. destruct (well_made_apart sh Hm) as (Ha & Hd & _).
  eapply triple_conseq; [eapply (on_commit_st _ _ (λ _ fs, Forall (solid fs) sh.*1) (λ c, c_prepared c = true) a2), (commitShards_st fault pick dir sh.*1 Hi Ha Hd)| | |done].
  - intros w [Hw E]. split; [|exact E]. destruct Hw as [_ _ _ Hst _ _ _ Hl]. split; [split; [exact Hst|]|unfold commit_world; cbn [w_own]; rewrite E; by apply Hp].
    rewrite Ho in Hl. clear -Hl. induction Hl as [|x out sh outs [H _] Hl IH]; [constructor|]. by apply Forall_cons.
  - intros ? w [Hs (c & Hc & E)]. rewrite E. split; [|done]. simpl. exists sh. split; [done|]. split; [|done].
    eapply Forall2_impl; [exact Hl0|]. by intros x out [_ H].
Qed.

(** *** Up to the manifest *)
Context (hasApplicability : bool) (failures_bytes dispositions_bytes : list input_outcome → string)
        (manifest_bytes : list input_outcome → list AggregateOutput → string)
        (validate_before : list input_outcome → list AggregateOutput → result ())
        (cloud_put : string → string → io (aggregateWriter P) ()).
Local Notation M := (manifest_path dir).
Local Notation put_sidecar' := (put_sidecar fault pick o cloud_put).
Local Notation run_to_manifest' := (run_to_manifest vp_begin vp_commit vp_discard vp_stage fault pick cloud_open cloud_publish
  row_identity o unavailableClass continueOnError hasApplicability failures_bytes dispositions_bytes manifest_bytes validate_before cloud_put).

Definition finished (sh : list shard) (outs : list AggregateOutput) w : Prop :=
  Forall (solid (w_fs w)) sh.*1 ∧ c_prepared (aw_commit (w_own w)) = true ∧ aw_shards (w_own w) = outs.
Lemma beside_shards sh n : Forall (well_made o) sh → file_name n → has_suffix ".jsonl" n = false → beside dir sh.*1 (Join dir n).
Proof.
  intros Hm Hn Hs. destruct (well_made_apart sh Hm) as (_ & _ & Hne). split; [intros f Hf; by apply Hne|]. intros k f Hf.
  rewrite temp_path_Join by (done || apply dir_nonempty). apply Hne; [done|by apply temp_name_ok|].
  unfold temp_name, has_suffix. by rewrite <- sapp_assoc, srev_app.
Qed.
Lemma put_sidecar_finished sh outs name data :
  Forall (well_made o) sh → file_name name → has_suffix ".jsonl" name = false →
  triple (finished sh outs) (put_sidecar' name data) (λ _, finished sh outs) none.
Proof.
  intros Hm Hn Hs. unfold put_sidecar. rewrite Hlocal, Hdurable, Join_dir by done. apply triple_state. intros a.
  apply triple_pre with (λ w, (finished sh outs w ∧ w_own w = a) ∧ aw_shards a = outs); [intros w [H <-]; split; [by split|apply H]|].
  apply triple_pure. intros Ho.
  eapply triple_conseq; [eapply on_commit_st; apply (writeSidecar_st fault pick dir sh.*1 _ data); by apply beside_shards| | |done].
  - intros w [(H1 & H2 & H3) E]. split; [|exact E]. by split.
  - intros ? w (H & c & Hc & E). split; [exact H|]. rewrite E. by split.
Qed.
Lemma on_commit_triple {A} (m : io commit A) Pre Q Rr :
  triple Pre m Q Rr → triple (λ w, Pre (commit_world w)) (on_commit m) (λ r w, Q r (commit_world w)) (λ w, Rr (commit_world w)).
Proof.
  intros Hm w Hw. specialize (Hm _ Hw). unfold on_commit. fold (commit_world w). destruct (m (commit_world w)) as [[fs n t c] [r|e]]; exact Hm.
Qed.

(** Whatever a reader, or a reader after a crash, finds under the manifest's name
    is the whole manifest, and the shards of its ledger are there: whole, with
    the digests, the counts and the ordinals it says, and with exactly the rows
    of the inputs that did not fail. *)
Definition manifest_promise (inputs : list agg_input) fs : Prop :=
  ∀ j, f_ns fs !! M = Some (EFile j) ∨ Some (EFile j) ∈ survivors fs M →
  ∃ outs, f_safe fs !! j = Some (manifest_bytes (outcome_of <$> inputs) outs) ∧ in_place outs (delivered_all 1 inputs) fs.
Lemma no_file_promise inputs fs : no_file M fs → manifest_promise inputs fs.
Proof. intros [H1 H2] j [H|H]; [by destruct (H1 j)|by destruct (H2 j)]. Qed.
Lemma marked_promise inputs sh outs fs :
  Forall2 (λ x out, sf_path x.1 = Join (wo_outputPath o) (ao_Path out) ∧ describes x.2 out) sh outs →
  Forall (well_made o) sh → rows sh = delivered_all 1 inputs →
  unmarked_or_marked dir sh.*1 (manifest_bytes (outcome_of <$> inputs) outs) fs → manifest_promise inputs fs.
Proof.
  intros Hl Hm Hr [H|(m & H1 & H2 & H3 & H4)]; [by apply no_file_promise|].
  intros j Hj. assert (j = m) as -> by (destruct Hj; auto). exists outs. split; [exact H2|]. by exists sh.
Qed.
Local Notation sealed := (run_held o (no_file M) (λ _, True) (λ _, True) (λ q, q ≠ M)).
Lemma sealed_promise inputs w : sealed w → always (manifest_promise inputs) w.
Proof.
  intros [[H1 H2] _]. split; [by apply no_file_promise|]. eapply Forall_impl; [exact H2|]. intros fs H. by apply no_file_promise.
Qed.
Lemma names_target n : file_name n → n ≠ "manifest.json" → Join dir n ≠ M.
Proof.
  intros Hn Hne E. apply Join_inj in E; [done|apply dir_nonempty|done|]. split; [by vm_compute|done].
Qed.
(** A step that keeps the manifest unwritten, with what it returns. *)
Lemma sealed_step {A} inputs (m : io (aggregateWriter P) A) Pre Q :
  pres sealed m → triple Pre m Q none →
  triple (λ w, sealed w ∧ Pre w) m (λ r w, sealed w ∧ Q r w) (always (manifest_promise inputs)).
Proof.
  intros Hk Ht. eapply triple_conseq; [apply (triple_and _ _ _ _ _ _ _ Hk Ht)|done|done|]. intros w [H _]. by apply sealed_promise.
Qed.
Lemma write_manifest_promise inputs sh ledger :
  Forall2 (λ x out, sf_path x.1 = Join (wo_outputPath o) (ao_Path out) ∧ describes x.2 out) sh ledger →
  Forall (well_made o) sh → rows sh = delivered_all 1 inputs →
  triple (λ w, sealed w ∧ finished sh ledger w)
    (on_commit (writeManifest fault pick dir (wo_durable o) (Join (wo_outputPath o) "manifest.json")
       (manifest_bytes (outcome_of <$> inputs) ledger)))
    (λ _ w, always (manifest_promise inputs) w
       ∧ ∃ m ledger, f_ns (w_fs w) !! M = Some (EFile m) ∧ on_disk M m (manifest_bytes (outcome_of <$> inputs) ledger) (w_fs w)
                     ∧ in_place ledger (delivered_all 1 inputs) (w_fs w))
    (always (manifest_promise inputs)).
Proof.
  intros Hl Hm Hr. rewrite Hdurable, Join_dir by (done || (split; [by vm_compute|done])). fold M.
  assert (beside dir sh.*1 M) as Hb by (apply beside_shards; [done|split; [by vm_compute|done]|done]).
  destruct (well_made_apart sh Hm) as (_ & _ & Hne).
  assert (∀ f, f ∈ sh.*1 → sf_path f ≠ lock_path dir) as Hlock by (intros f Hf; apply Hne; [done|split; [by vm_compute|done]|done]).
  pose proof (on_commit_triple _ _ _ _ (writeManifest_marks fault pick dir sh.*1 Hb Hlock (manifest_bytes (outcome_of <$> inputs) ledger)
    (dir_nonempty o) (dir_clean o))) as H.
  assert (∀ w, always (unmarked_or_marked dir sh.*1 (manifest_bytes (outcome_of <$> inputs) ledger)) (commit_world w) →
            always (manifest_promise inputs) w) as Hal.
  { intros w [H1 H2]. split; [by eapply marked_promise|]. eapply Forall_impl; [exact H2|]. intros fs Hfs. by eapply marked_promise. }
  eapply triple_conseq; [exact H| | |exact Hal].
  - intros w [(HJ & HT & _) (H1 & H2 & _)]. split; [by split|by split].
  - intros ? w (H1 & H2 & m & H3 & H4). split; [by apply Hal|]. exists m, ledger. split; [exact H3|]. split; [exact H4|]. by exists sh.
Qed.
Lemma run_to_manifest_promise_ok inputs :
  triple (λ w, sealed w ∧ holding [] [] 0 w) (run_to_manifest' inputs)
    (λ outs w, outs = outcome_of <$> inputs ∧ always (manifest_promise inputs) w
       ∧ ∃ m ledger, f_ns (w_fs w) !! M = Some (EFile m) ∧ on_disk M m (manifest_bytes outs ledger) (w_fs w)
                     ∧ in_place ledger (delivered_all 1 inputs) (w_fs w))
    (always (manifest_promise inputs)).
Proof.
  pose proof (no_file_frame M) as F. pose proof names_target as Hnt.
  unfold run_to_manifest. eapply triple_bind.
  { apply sealed_step; [by eapply kept_run_inputs|]. apply run_inputs_holding. lia. }
  cbv beta. intros outs. apply triple_know with (outs = outcome_of <$> inputs); [by intros w (_ & -> & _)|]. intros ->.
  apply triple_ex with (P' := λ k w, sealed w ∧ holding (delivered_all 1 inputs) [] k w).
  { intros w (Hw & _ & k & H). by exists k. }
  intros k. eapply triple_bind.
  { apply sealed_step; [by eapply kept_agg_commit|apply agg_commit_in_place]. }
  cbv beta. intros u.
  apply triple_ex with (P' := λ x w, (sealed w ∧ finished x.1 x.2 w)
    ∧ (Forall2 (λ x out, sf_path x.1 = Join (wo_outputPath o) (ao_Path out) ∧ describes x.2 out) x.1 x.2
       ∧ Forall (well_made o) x.1 ∧ rows x.1 = delivered_all 1 inputs)).
  { intros w (Hw & (sh & H1 & H2 & H3 & H4) & Hp). exists (sh, aw_shards (w_own w)). by split_and!. }
  intros [sh ledger]. cbn [fst snd]. apply triple_pure. intros (Hl & Hm & Hr).
  assert (∀ b name data, file_name name → has_suffix ".jsonl" name = false → name ≠ "manifest.json" →
    triple (λ w, sealed w ∧ finished sh ledger w) (if b : bool then put_sidecar' name data else mret ())
      (λ _ w, sealed w ∧ finished sh ledger w) (always (manifest_promise inputs))) as Hside.
  { intros b name data Hn Hs Hne. destruct b; [|by apply triple_ret]. apply sealed_step; [by eapply kept_put_sidecar|by apply put_sidecar_finished]. }
  apply triple_bind with (Q' := λ _ w, sealed w ∧ finished sh ledger w); [apply Hside; [split; [by vm_compute|done]|done..]|intros _].
  apply triple_own. intros a. apply triple_know with (aw_shards a = ledger); [by intros w [[_ (_ & _ & H)] <-]|]. intros Ea.
  apply triple_pre with (λ w, sealed w ∧ finished sh ledger w); [by intros w []|].
  apply triple_bind with (Q' := λ _ w, sealed w ∧ finished sh ledger w); [apply Hside; [split; [by vm_compute|done]|done..]|intros _].
  apply triple_bind with (Q' := λ _ w, sealed w ∧ finished sh ledger w).
  { destruct (validate_before _ _); [by apply triple_ret|apply triple_fail]. intros w [H _]. by apply sealed_promise. }
  intros _. cbv zeta. rewrite Hlocal, Ea. eapply triple_bind; [by apply write_manifest_promise|]. cbv beta. intros u'.
  apply triple_ret. by intros w H.
Qed.
(** *** The clean-up of a run that failed *)

(** What the abort does first: it closes the open shard and withdraws the
    manifest. *)
Definition withdraw : io (aggregateWriter P) (list gerror) :=
  _ ← close_open fault o; on_commit (withdrawal fault dir (wo_durable o)).
(** The files now, and those of every state before. *)
Definition passing {C} (K T : fsys → Prop) (w : world C) : Prop := K (w_fs w) ∧ Forall T (w_trace w).
Lemma passing_set_fs {C} (K T : fsys → Prop) (w : world C) fs :
  (∀ fs, K fs → T fs) → passing K T w → K fs → passing K T (set_fs fs (ticked w)).
Proof. intros HKT [H1 H2] H. split; [done|]. constructor; [by apply HKT|done]. Qed.
Lemma passing_stable {C} (K T : fsys → Prop) : (∀ fs, K fs → T fs) → stable (C := C) (passing K T).
Proof. intros HKT w H. split; [done|]. apply passing_set_fs; [done|done|apply H]. Qed.
Lemma passing_SyncDir {C} (K T : fsys → Prop) d : (∀ fs, K fs → T fs) → (∀ fs, K fs → K (sync_dir d fs)) →
  pres (C := C) (passing K T) (os_SyncDir fault d).
Proof.
  intros HKT HK. apply pres_call; [by intros w H|]. intros w fs [] H [= <-]. apply passing_set_fs; [done|done|]. apply HK, H.
Qed.
Lemma passing_close_open (K T : fsys → Prop) : (∀ fs, K fs → T fs) → pres (C := aggregateWriter P) (passing K T) (close_open fault o).
Proof.
  intros HKT. pose proof (passing_stable (C := aggregateWriter P) K T HKT). unfold close_open, before. apply pres_own. intros a _.
  rewrite Hlocal. destruct (aw_open a); [|apply pres_ret]. apply pres_bind; [kept_steps|]. intros r.
  apply pres_bind; [by apply pres_set_own|]. intros _. apply pres_ret.
Qed.
Lemma no_file_remove p q fs : no_file p fs → no_file p (set_entry q None fs).
Proof. apply no_file_set_entry. right. by intros i. Qed.
Lemma in_place_remove outs R fs : in_place outs R fs → in_place outs R (set_entry M None fs).
Proof.
  intros (sh & H1 & H2 & H3 & H4). exists sh. split; [|done]. apply solid_set_entry; [|done].
  destruct (well_made_apart sh H3) as (_ & _ & Hne). intros f Hf. apply Hne; [done|split; [by vm_compute|done]|done].
Qed.
Lemma promise_remove inputs fs : manifest_promise inputs fs → manifest_promise inputs (set_entry M None fs).
Proof.
  intros H j Hj. destruct (H j) as (outs & H1 & H2).
  - rewrite ns_set_entry, survivors_set_entry, !decide_True, elem_of_app, list_elem_of_singleton in Hj by done.
    destruct Hj as [[=]|[Hj|[=]]]. by right.
  - exists outs. split; [done|]. by apply in_place_remove.
Qed.
Lemma promise_sync_dir inputs d fs : manifest_promise inputs fs → manifest_promise inputs (sync_dir d fs).
Proof.
  intros H j Hj. destruct (H j) as (outs & H1 & sh & H2 & H3).
  - rewrite survivors_sync_dir in Hj. destruct Hj as [Hj|Hj]; [by left|]. case_decide; [|by right].
    apply list_elem_of_singleton in Hj. by left.
  - exists outs. split; [done|]. exists sh. split; [by apply solid_sync_dir|done].
Qed.
Lemma withdraw_promise inputs : pres (always (manifest_promise inputs)) withdraw.
Proof.
  set (K := manifest_promise inputs). assert (∀ fs, K fs → K fs) as HK by done.
  apply pres_bind; [by apply (passing_close_open K K)|]. intros _.
  pose proof (passing_stable (C := commit) K K HK) as Hst.
  apply (on_commit_triple _ (passing K K) (λ _, passing K K) (passing K K)).
  unfold withdrawal. apply pres_own. intros c _. destruct (c_committed c); [apply pres_ret|]. apply pres_noted, clean_invalidate.
  - done.
  - intros d. apply passing_SyncDir; [done|]. apply promise_sync_dir.
  - intros h. by apply pres_set_own.
  - apply pres_Remove; [done|]. intros w H. apply passing_set_fs; [done|done|]. apply promise_remove, H.
Qed.
(** Once the manifest is withdrawn the rest of the clean-up cannot bring it back. *)
Lemma agg_abort_promise inputs cloud_discard w :
  always (manifest_promise inputs) w → no_file M (w_fs (withdraw w).1) →
  always (manifest_promise inputs) (agg_abort fault cloud_discard o w).1.
Proof.
  intros Hw Hno. set (K := no_file M). set (T := manifest_promise inputs).
  assert (∀ fs, K fs → T fs) as HKT by apply no_file_promise.
  assert (∀ w1 r, close_open fault o w = (w1, Ok r) → passing K T (on_commit (withdrawal fault dir (wo_durable o)) w1).1) as Hafter.
  { intros w1 r E. pose proof (withdraw_promise inputs w Hw) as H. unfold withdraw, mbind, io_bind in H, Hno. rewrite E in H, Hno.
    destruct (on_commit _ w1) as [w2 [es|e]]; cbn in Hno |- *; by destruct H. }
  pose proof (withdraw_promise inputs w Hw) as Hcl.
  unfold agg_abort, mbind, io_bind. unfold withdraw, mbind, io_bind in Hcl.
  destruct (close_open fault o w) as [w1 [r|e]] eqn:E; [|exact Hcl]. specialize (Hafter w1 r eq_refl). rewrite Hlocal.
  assert (triple (λ v, v = w1) (on_commit (abort fault dir (wo_durable o))) (λ _, passing K T) (passing K T)) as Habort.
  { eapply triple_conseq; [apply (on_commit_triple _ (λ v, v = commit_world w1) (λ _, passing K T) (passing K T))|by intros ? ->|done|done].
    pose proof (passing_stable (C := commit) K T HKT) as Hst. apply abort_after_withdrawal.
    - done.
    - intros d. apply passing_SyncDir; [done|]. intros fs. apply no_file_sync_dir.
    - intros h. by apply pres_set_own.
    - intros p. apply pres_Remove; [done|]. intros v H. apply passing_set_fs; [done|done|]. apply no_file_remove, H.
    - intros v ->. unfold on_commit in Hafter. fold (commit_world w1) in Hafter.
      destruct (withdrawal fault dir (wo_durable o) (commit_world w1)) as [[fs n t c] [es|e]]; exact Hafter. }
  specialize (Habort w1 eq_refl). destruct (on_commit (abort fault dir (wo_durable o)) w1) as [w2 [es|e]];
    destruct Habort as [H1 H2]; (split; [by apply HKT|exact H2]).
Qed.
End operations.

(** ** The promises of a run *)
Section promises.
Context {P : Type} (vp_begin vp_commit vp_discard : P → P) (vp_stage : P → string → P).
Context (fault : nat → option nat) (pick : fsys → nat).
Context (cloud_open : string → io (aggregateWriter P) nat) (cloud_publish : string → io (aggregateWriter P) ())
        (cloud_discard : io (aggregateWriter P) ()).
Context (row_identity : string → option (nat * string)) (o : writer_options) (unavailableClass : gerror → option string) (continueOnError hasApplicability : bool).
Context (failures_bytes dispositions_bytes : list input_outcome → string)
        (manifest_bytes : list input_outcome → list AggregateOutput → string)
        (validate_before : list input_outcome → list AggregateOutput → result ()) (epilogue : result ())
        (cloud_put : string → string → io (aggregateWriter P) ()) (cloud_incomplete : list AggregateOutput → io (aggregateWriter P) ()).
Context (Hlocal : wo_cloud o = false) (Hpath : wo_outputPath o ≠ "").
Local Notation run_to_manifest' := (run_to_manifest vp_begin vp_commit vp_discard vp_stage fault pick cloud_open cloud_publish
  row_identity o unavailableClass continueOnError hasApplicability failures_bytes dispositions_bytes manifest_bytes validate_before cloud_put).
Local Notation run_aggregate' := (run_aggregate vp_begin vp_commit vp_discard vp_stage fault pick cloud_open cloud_publish
  cloud_discard row_identity o unavailableClass continueOnError hasApplicability failures_bytes dispositions_bytes manifest_bytes validate_before
  epilogue cloud_put cloud_incomplete).
Implicit Types (fs : fsys) (profile : P).

Lemma start_held (J : fsys → Prop) ours inos target fs0 profile : J fs0 → run_held o J ours inos target (run_start fs0 profile).
Proof.
  intros HJ. split; [split; [done|by constructor]|]. split; [split_and!; simpl; try done|split_and!; simpl; done || (by intros p []%elem_of_nil)].
  - by intros p []%elem_of_nil.
  - by intros [[=]|[=]].
Qed.
Lemma start_holding fs0 profile : holding o [] [] 0 (run_start fs0 profile).
Proof. exists []. split; [split; simpl; done || by constructor|]. by split_and!. Qed.

Section durable.
Context (Hdurable : wo_durable o = true) (Hbuffer : continueOnError = true → wo_buffering o = true).
Lemma run_to_manifest_start inputs fs0 profile : no_file (manifest_path (outputDir o)) fs0 →
  match run_to_manifest' inputs (run_start fs0 profile) with
  | (w, Ok outs) => outs = outcome_of o <$> inputs ∧ always (manifest_promise o manifest_bytes inputs) w
       ∧ ∃ m ledger, f_ns (w_fs w) !! manifest_path (outputDir o) = Some (EFile m)
                     ∧ on_disk (manifest_path (outputDir o)) m (manifest_bytes outs ledger) (w_fs w)
                     ∧ in_place o ledger (delivered_all o 1 inputs) (w_fs w)
  | (w, Err _) => always (manifest_promise o manifest_bytes inputs) w
  end.
Proof.
  intros Hno. eapply run_to_manifest_promise_ok; try done. split; [by apply start_held|apply start_holding].
Qed.

(** C1: In every state a durable local run goes through until its manifest is
    committed or, when some call has failed, until its clean-up has withdrawn the
    manifest - whatever call fails and however little of a write gets done -
    whoever finds a manifest, before or after a crash at that moment, finds it
    whole, and finds every shard of its ledger on the disk with the digest, count
    and ordinals the ledger gives, within the caps, and all of them together
    holding exactly the records of the inputs that did not fail, in order. The
    same goes for every later state of the clean-up if by then no manifest is
    left, neither now nor after a crash. *)
Theorem manifest_implies_shards inputs fs0 profile :
  no_file (manifest_path (outputDir o)) fs0 →
  let promise := manifest_promise o manifest_bytes inputs in
  let whole_run := w_trace (run_aggregate' inputs (run_start fs0 profile)).1 in
  match run_to_manifest' inputs (run_start fs0 profile) with
  | (w, Ok _) => ∀ fs, fs ∈ whole_run → promise fs
  | (w, Err _) =>
      let w' := (withdraw fault o w).1 in
      (∀ fs, fs ∈ w_trace w ∨ fs ∈ w_trace w' → promise fs)
      ∧ (no_file (manifest_path (outputDir o)) (w_fs w') → ∀ fs, fs ∈ whole_run → promise fs)
  end.
Proof.
  intros Hno promise whole_run. pose proof (run_to_manifest_start inputs fs0 profile Hno) as H.
  unfold whole_run, run_aggregate, attempt, mbind, io_bind.
  destruct (run_to_manifest' inputs (run_start fs0 profile)) as [w [outs|e]].
  - destruct H as (_ & [_ H] & _). rewrite Forall_forall in H. by repeat case_match.
  - set (w' := (withdraw fault o w).1). rewrite Hlocal. cbn [own andb w_own]. split.
    + pose proof (withdraw_promise fault o Hlocal Hpath manifest_bytes inputs w H) as H2.
      destruct H as [_ H]. rewrite Forall_forall in H. intros fs [Hfs|Hfs]; [by apply H|]. subst w'.
      destruct (withdraw fault o w) as [w1 []]; destruct H2 as [_ H2]; rewrite Forall_forall in H2; by apply H2.
    + intros Hw' fs Hfs. pose proof (agg_abort_promise fault o Hlocal Hpath manifest_bytes inputs cloud_discard w H Hw') as [_ Ha].
      rewrite Forall_forall in Ha. apply Ha. revert Hfs. unfold own, mret, io_ret. by destruct (agg_abort fault cloud_discard o w) as [w1 []].
Qed.
(** C2: A durable local run that returns has made the outcome of every input what
    its own data says, and its manifest and its shards are there after any
    crash. *)
Theorem committed_run_survives inputs fs0 profile w outs :
  no_file (manifest_path (outputDir o)) fs0 → run_to_manifest' inputs (run_start fs0 profile) = (w, Ok outs) →
  outs = outcome_of o <$> inputs
  ∧ ∃ m ledger, on_disk (manifest_path (outputDir o)) m (manifest_bytes outs ledger) (w_fs w)
                ∧ in_place o ledger (delivered_all o 1 inputs) (w_fs w).
Proof.
  intros Hno E. pose proof (run_to_manifest_start inputs fs0 profile Hno) as H. rewrite E in H.
  destruct H as (Ho & _ & m & ledger & _ & H). split; [exact Ho|]. by exists m, ledger.
Qed.
End durable.

(** C3: A local run, durable or not, failed or not and with its clean-up, leaves
    every path and every file that was there before it as it was, in every state
    it goes through. *)
Theorem run_keeps_files inputs fs0 profile :
  files_numbered fs0 →
  ∀ fs, fs ∈ w_trace (run_aggregate' inputs (run_start fs0 profile)).1 → unchanged fs0 fs.
Proof.
  intros Hn fs Hfs.
  assert (pres (run_held o (unchanged fs0) (λ p, f_ns fs0 !! p = None) (λ i, f_next fs0 ≤ i) (λ _, True)) (run_aggregate' inputs)) as Hk.
  { eapply kept_run_aggregate; [done|done|by apply unchanged_frame|done|done]. }
  specialize (Hk _ (start_held _ _ _ _ fs0 profile (unchanged_refl fs0))).
  destruct (run_aggregate' inputs (run_start fs0 profile)) as [w [outs|e]]; destruct Hk as [[_ H] _]; rewrite Forall_forall in H; by apply H.
Qed.
End promises.
