(* ===== verification/AggregateSample.v ===== *)
(** * A small run of the aggregate writer

    Three inputs, the second of which fails, two records a shard; the runs are
    evaluated, and a run whose clean-up is cut short. *)
From Stdlib Require Import Ascii ZArith Lia.
From stdpp Require Import base list strings gmap sets.
From S2P Require Import Prelude GoStrings GoStrconv GoValue GoPath GoSha256 DurableFs DurableFsSpec DurableCommit DurableCommitSpec DurableShards AggregateWriter AggregateSpec AggregateRunSpec.

Definition sample_fs : fsys := {|
  f_ns := <["/data/keep.txt" := EFile 0]> (<["/data" := EDir]> {["/" := EDir]});
  f_disk := <["/data/keep.txt" := EFile 0]> (<["/data" := EDir]> {["/" := EDir]});
  f_recent := [];
  f_data := {[0 := "kept"]};
  f_safe := {[0 := "kept"]};
  f_next := 1;
|}.
Definition sample_options (durable : bool) : writer_options := {|
  wo_outputPath := "/data/out"; wo_maxRecords := 2; wo_maxBytes := 0; wo_cloud := false; wo_buffering := true;
  wo_EmitInputIdentity := false; wo_durable := durable;
|}.
Definition sample_input (records : list string) (error : option gerror) : agg_input := {|
  ai_display := "input"; ai_unavailable := None; ai_declared := false; ai_identity := Ok ""; ai_fields := None; ai_records := records; ai_error := error;
  ai_failed := false; ai_not_applicable := false; ai_floor := None; ai_cleanup := None; ai_ledger := None;
|}.
Definition sample_inputs : list agg_input :=
  [sample_input ["a1,"; "a2,"] None; sample_input ["b1,"] (Some (Errorf "broken input" [])); sample_input ["c1,"] None].
Definition sample_manifest (outs : list input_outcome) (ledger : list AggregateOutput) : string :=
  sjoin "," (ao_Path <$> ledger).
Definition no_cloud {A} : io (aggregateWriter ()) A := fail ErrIO.
Local Notation sample_to_manifest durable fault :=
  (run_to_manifest id id id (λ p _, p) fault (λ _, 7) (λ _, no_cloud) (λ _, no_cloud) (λ _, None) (sample_options durable) (λ _, None) true false
    (λ _, "failed: 1") (λ _, "") sample_manifest (λ _ _, Ok ()) (λ _ _, no_cloud) sample_inputs (run_start sample_fs ())).
Local Notation sample_run durable fault :=
  (run_aggregate id id id (λ p _, p) fault (λ _, 7) (λ _, no_cloud) (λ _, no_cloud) no_cloud (λ _, None) (sample_options durable) (λ _, None) true false
    (λ _, "failed: 1") (λ _, "") sample_manifest (λ _ _, Ok ()) (Ok ()) (λ _ _, no_cloud) (λ _, no_cloud) sample_inputs (run_start sample_fs ())).
Definition never : nat → option nat := λ _, None.
Definition file_at (fs : fsys) (p : string) : option string :=
  match f_ns fs !! p with Some (EFile i) => f_data fs !! i | _ => None end.
Definition seen (w : world (aggregateWriter ())) : list (option string) :=
  file_at (w_fs w) <$> ["/data/out/manifest.json"; "/data/out/records-00001.jsonl"; "/data/out/records-00002.jsonl";
                       "/data/out/failures.json"; "/data/out/.sumpter-aggregate.lock"; "/data/keep.txt"].

(** The rows of the broken input are left out; the first shard is full. *)
Example sample_committed :
  seen (sample_run true never).1
  = [Some "records-00001.jsonl,records-00002.jsonl"; Some "a1,a2,"; Some "c1,"; Some "failed: 1"; None; Some "kept"].
Proof. vm_compute. reflexivity. Qed.
(** A run that cannot write its manifest leaves nothing behind. *)
Example sample_undone :
  seen (sample_run true (λ n, if (n =? 96)%nat then Some 0 else None)).1 = [None; None; None; None; None; Some "kept"].
Proof. vm_compute. reflexivity. Qed.
(** The directory sync after the rename fails, and so does, twice, the removal
    of the manifest: the abort removes the shards all the same, and the manifest
    that names them stays. *)
Definition stuck_manifest (n : nat) : option nat := if existsb (Nat.eqb n) [96; 100; 102] then Some 0 else None.
Example abort_leaves_marker :
  seen (sample_run true stuck_manifest).1
  = [Some "records-00001.jsonl,records-00002.jsonl"; None; None; None; None; Some "kept"].
Proof. vm_compute. reflexivity. Qed.

(** A crash can show the manifest without a shard it names. *)
Definition manifest_alone (fs : fsys) : bool :=
  existsb (λ v, match v with Some (EFile _) => true | _ => false end) (survivors fs "/data/out/manifest.json")
  && existsb (λ v, match v with None => true | _ => false end) (survivors fs "/data/out/records-00001.jsonl").
(** The directory sync after the rename fails, and so does the one after the
    removal of the manifest: the writer forgets that it had renamed a manifest,
    and the abort removes the shards before any sync confirms the removal. *)
Definition unconfirmed_removal (n : nat) : option nat := if existsb (Nat.eqb n) [96; 104] then Some 0 else None.
Example withdrawn_manifest_resurfaces :
  existsb manifest_alone (w_trace (sample_run true unconfirmed_removal).1) = true.
Proof. vm_compute. reflexivity. Qed.

(** ** The theorems at this run *)
Lemma no_file_at p fs : f_ns fs !! p = None → survivors fs p = [None] → no_file p fs.
Proof. intros H1 H2. split; intros i; [by rewrite H1|]. rewrite H2. by intros [=]%list_elem_of_singleton. Qed.
Lemma pair_snd {A B} (x : A * B) b : x.2 = b → x = (x.1, b).
Proof. intros <-. by destruct x. Qed.
(** The directory sync after the rename fails, and the clean-up goes through. *)
Definition unsynced_manifest (n : nat) : option nat := if (n =? 96)%nat then Some 0 else None.
Lemma manifest_implies_shards_witness :
  no_file (manifest_path "/data/out") sample_fs
  ∧ (∀ fs, fs ∈ w_trace (sample_run true unsynced_manifest).1 → manifest_promise (sample_options true) sample_manifest sample_inputs fs)
  ∧ existsb (λ fs, match file_at fs "/data/out/manifest.json" with Some _ => true | None => false end)
      (w_trace (sample_run true unsynced_manifest).1) = true.
Proof.
  assert (no_file (manifest_path "/data/out") sample_fs) as Hno by (apply no_file_at; vm_compute; reflexivity).
  split; [exact Hno|]. split; [|vm_compute; reflexivity].
  pose proof (manifest_implies_shards id id id (λ p _, p) unsynced_manifest (λ _, 7) (λ _, no_cloud) (λ _, no_cloud) no_cloud (λ _, None)
    (sample_options true) (λ _, None) true false (λ _, "failed: 1") (λ _, "") sample_manifest (λ _ _, Ok ()) (Ok ()) (λ _ _, no_cloud)
    (λ _, no_cloud) eq_refl ltac:(discriminate) eq_refl (λ _, eq_refl) sample_inputs sample_fs () Hno) as H.
  cbv beta zeta in H. destruct (sample_to_manifest true unsynced_manifest) as [w [outs|e]] eqn:E; [exact H|].
  destruct H as [_ H]. apply H. apply (f_equal fst) in E. cbn [fst] in E. rewrite <- E. apply no_file_at; vm_compute; reflexivity.
Defined.
Lemma sample_returns : ∃ w, sample_to_manifest true never = (w, Ok [InputApplied 2; InputFailed; InputApplied 1]).
Proof. exists (sample_to_manifest true never).1. apply pair_snd. vm_compute. reflexivity. Qed.
Lemma committed_run_survives_witness :
  delivered_all (sample_options true) 1 sample_inputs = [(1, "a1,"); (1, "a2,"); (3, "c1,")]
  ∧ ∃ w outs, sample_to_manifest true never = (w, Ok outs)
    ∧ outs = outcome_of (sample_options true) <$> sample_inputs
    ∧ ∃ m ledger, on_disk (manifest_path (outputDir (sample_options true))) m (sample_manifest outs ledger) (w_fs w)
                  ∧ in_place (sample_options true) ledger (delivered_all (sample_options true) 1 sample_inputs) (w_fs w).
Proof.
  assert (no_file (manifest_path (outputDir (sample_options true))) sample_fs) as Hno by (apply no_file_at; vm_compute; reflexivity).
  split; [reflexivity|].
  destruct sample_returns as [w E]. exists w, [InputApplied 2; InputFailed; InputApplied 1]. split; [exact E|].
  eapply committed_run_survives; [| | | | |exact E]; [reflexivity|discriminate|reflexivity|reflexivity|exact Hno].
Defined.
Lemma run_keeps_files_witness :
  files_numbered sample_fs ∧ ∀ fs, fs ∈ w_trace (sample_run true stuck_manifest).1 → unchanged sample_fs fs.
Proof.
  assert (files_numbered sample_fs) as Hn.
  { intros i [s Hs]. cbn [f_data sample_fs] in Hs. apply lookup_singleton_Some in Hs as [<- _]. cbn. lia. }
  split; [exact Hn|]. intros fs. eapply run_keeps_files; [reflexivity|discriminate|exact Hn].
Defined.
(** A commit with a staged and a moved shard is undone. *)
Definition sample_commit : world commit := {|
  w_fs := new_file "/data/b.partial" (new_file "/data/a" sample_fs);
  w_calls := 0; w_trace := []; w_own := add_final "/data/a" (add_stage "/data/b.partial" newLocalAggregateCommit);
|}.
Lemma abort_clears_witness :
  ∃ w es, abort never "/data" false sample_commit = (w, Ok es)
    ∧ (∀ p, p ∈ ["/data/b.partial"; "/data/a"] → f_ns (w_fs w) !! p = None)
    ∧ ∀ p, f_ns (w_fs sample_commit) !! p = None → f_ns (w_fs w) !! p = None.
Proof.
  apply (abort_clears never "/data" false sample_commit); [reflexivity|reflexivity|].
  intros p. cbn [w_own sample_commit add_final add_stage newLocalAggregateCommit c_tempPaths c_stagePaths c_finalPaths c_sidecarPaths app]. rewrite !elem_of_cons, elem_of_nil. intros [->|[->|[]]]; vm_compute; discriminate.
Defined.
