(* ===== verification/ProvRoot.v ===== *)
(** * References and the provenance root (internal/uriio/scheme.go,
    internal/provenance/root.go; cmd/sumpter/commands: provenance_root.go,
    file_list_verify.go)

    What an input reference is, and what a run under a provenance root may show
    of it: local inputs appear by their path below the root, and diagnostics
    lose the paths of the host. An error whose text was rewritten keeps its
    cause. *)
From Stdlib Require Import Ascii ZArith Lia.
From stdpp Require Import base list strings gmap.
From S2P Require Import Prelude GoStrings GoStrconv GoValue GoPath RefSource DurableFs.

(** The text of an error; one whose type carries its own text shows that. *)
Definition says (message : string) (cause : gerror) : gerror := Errorf "%s" [AStr message; AErr cause].
Class ErrorText := {
  error_text : gerror → string;
  error_text_says m c : error_text (says m c) = m;
}.
(** [errors.Is] and [errors.As]: a test on the chain of causes. *)
Fixpoint in_chain (test : gerror → bool) (e : gerror) : bool :=
  match e with
  | Errorf _ args =>
      test e ||
      (fix in_args (l : list earg) := match l with
       | AErr c :: l => in_chain test c || in_args l
       | _ :: l => in_args l
       | [] => false
       end) args
  end.
Definition errors_Is (format : string) : gerror → bool := in_chain (λ e, gerror_format e =s? format).

(** ** References *)

(** The URI parser of the object-store library. *)
Record parsed_uri := {
  pu_Provider : string; pu_Bucket : string; pu_Key : string; pu_Pattern : string; pu_String : string;
}.
Class UriParser := { ParseURI : string → result parsed_uri }.

Inductive Scheme := SchemeLocal | SchemeS3.
#[export] Instance scheme_eq_dec : EqDecision Scheme.
Proof. solve_decision. Defined.
Record Ref := {
  ref_Raw : string; ref_Scheme : Scheme; ref_LogicalURI : string; ref_LocalPath : string;
  ref_Bucket : string; ref_Key : string; ref_Pattern : string;
}.
Definition IsCloud (r : Ref) : bool := bool_decide (ref_Scheme r ≠ SchemeLocal).

Section references.
Context `{UP : UriParser}.

Definition Classify (ref : string) : result Ref :=
  if ref =s? "" then errorf "uriio: empty storage reference" []
  else if negb (scontains "://" ref) then
    Ok {| ref_Raw := ref; ref_Scheme := SchemeLocal; ref_LogicalURI := ref; ref_LocalPath := ref;
          ref_Bucket := ""; ref_Key := ""; ref_Pattern := "" |}
  else
    p ← wrapf "uriio: parse %q: %w" [AStr ref] (ParseURI ref);
    if pu_Provider p =s? "file" then
      Ok {| ref_Raw := ref; ref_Scheme := SchemeLocal; ref_LogicalURI := pu_String p; ref_LocalPath := pu_Key p;
            ref_Bucket := ""; ref_Key := ""; ref_Pattern := "" |}
    else if pu_Provider p =s? "s3" then
      Ok {| ref_Raw := ref; ref_Scheme := SchemeS3; ref_LogicalURI := pu_String p; ref_LocalPath := "";
            ref_Bucket := pu_Bucket p; ref_Key := pu_Key p; ref_Pattern := pu_Pattern p |}
    else errorf "%w: %s" [AErr (Errorf "uriio: unsupported scheme" []); AStr (pu_Provider p)].
Definition is_cloud_ref (ref : string) : bool :=
  match Classify ref with Ok r => IsCloud r | Err _ => false end.

(** ** The root *)
Record Root := { rt_lexical : string; rt_evaluated : string }.

Definition strictRelative (root candidate : string) : option string :=
  rel ← Rel root candidate;
  if (rel =s? ".") || (rel =s? "..") || has_prefix "../" rel then None else Some rel.

Section root.
Context `{FS : FileSystem}.
(** [os.Stat] finds a directory. *)
Context (is_dir : string → bool).
Definition ErrInvalidRoot : gerror := Errorf "invalid provenance root" [].
Definition ErrOutsideRoot : gerror := Errorf "input is outside the provenance root" [].

Definition resolve_root (path : string) : option Root :=
  if (trim_space path =s? "") || scontains "://" path then None
  else
    lexical ← Abs path;
    let lexical := Clean lexical in
    if negb (is_dir lexical) then None
    else
      evaluated ← fs_EvalSymlinks lexical;
      evaluated ← Abs evaluated;
      let evaluated := Clean evaluated in
      if is_dir evaluated then Some {| rt_lexical := lexical; rt_evaluated := evaluated |} else None.
Definition ResolveRoot (path : string) : result Root :=
  match resolve_root path with Some r => Ok r | None => Err ErrInvalidRoot end.

Definition relative (r : Root) (path : string) : option string :=
  if (trim_space path =s? "") || scontains "://" path then None
  else
    lexical ← Abs path;
    let lexical := Clean lexical in
    rel ← strictRelative (rt_lexical r) lexical;
    evaluated ← fs_EvalSymlinks lexical;
    evaluated ← Abs evaluated;
    _ ← strictRelative (rt_evaluated r) (Clean evaluated);
    Some rel.
Definition Relative (r : Root) (path : string) : result string :=
  match relative r path with Some rel => Ok rel | None => Err ErrOutsideRoot end.
End root.

Definition RedactText (r : Root) (text : string) : string :=
  sreplace_all (rt_evaluated r) "<provenance-root>" (sreplace_all (rt_lexical r) "<provenance-root>" text).

(** ** Runs under a root *)
Record root_options := {
  po_root : option Root;        (* the root that was resolved *)
  po_Files : string; po_FileList : string; po_InputPath : string; po_RecordIndex : string;
  po_SourceExtractionInput : string;
}.
Definition provenanceRootActive (o : root_options) : bool := match po_root o with Some _ => true | None => false end.

Definition provenanceRootLocalPath (localPath logical : string) : option string :=
  match Classify logical with
  | Ok ref => if IsCloud ref then None else Some (ref_LocalPath ref)
  | Err _ =>
      match Classify localPath with
      | Ok ref => if IsCloud ref then None else Some (ref_LocalPath ref)
      | Err _ => Some localPath
      end
  end.

(** *** Labels *)
Definition provenanceRootInputLabel (o : root_options) (localPath logical : string) : string :=
  let logical := if logical =s? "" then localPath else logical in
  if negb (provenanceRootActive o) then logical
  else match provenanceRootLocalPath localPath logical with Some _ => "<input>" | None => logical end.
Definition provenanceRootRuntimeLabel (o : root_options) (ordinal : nat) (localPath logical : string) : string :=
  if negb (provenanceRootActive o) || (ordinal <? 1)%nat then ""
  else match provenanceRootLocalPath localPath logical with
       | None => logical
       | Some _ => "input " +:+ itoa (Z.of_nat ordinal)
       end.

(** *** Texts and errors *)
Fixpoint sanitizePrivateInputText (text display : string) (privatePaths : list string) : string :=
  match privatePaths with
  | [] => text
  | path :: paths =>
      sanitizePrivateInputText (if (path =s? "") || (path =s? display) then text else sreplace_all path display text)
        display paths
  end.
Definition provenanceRootDiagnosticText (o : root_options) (text : string) : string :=
  match po_root o with Some r => RedactText r text | None => text end.

Definition configured_path `{FS : FileSystem} (value : string) : list string :=
  if (trim_space value =s? "") || is_cloud_ref value then []
  else
    (if negb (value =s? ".") && negb (value =s? "..") then [value] else []) ++
    match provenanceRootLocalPath value value with
    | None => []
    | Some local =>
        match Abs local with
        | Some absolute => if negb (absolute =s? local) then [Clean absolute] else []
        | None => []
        end
    end.
Definition provenanceRootConfiguredInputPaths `{FS : FileSystem} (o : root_options) : list string :=
  (ssplit_byte ","%char (po_Files o) ≫= λ v, configured_path (trim_space v)) ++ configured_path (po_FileList o) ++ configured_path (po_InputPath o)
    ++ configured_path (po_RecordIndex o) ++ configured_path (po_SourceExtractionInput o).

Definition provenanceRootInputPrivatePaths (localPath logical : string) (privatePaths : list string) : list string :=
  (if localPath =s? "" then [] else [localPath]) ++
  (if negb (logical =s? "") && negb (is_cloud_ref logical) then [logical] else []) ++
  filter (λ p, negb (p =s? "") && negb (is_cloud_ref p)) privatePaths.

Definition provenanceRootInputText (o : root_options) (text localPath logical : string) (privatePaths : list string) : string :=
  if negb (provenanceRootActive o) then text
  else match provenanceRootLocalPath localPath logical with
       | None => provenanceRootDiagnosticText o text
       | Some _ =>
           let display := provenanceRootInputLabel o localPath logical in
           let paths := provenanceRootInputPrivatePaths localPath logical privatePaths in
           provenanceRootDiagnosticText o (sanitizePrivateInputText text display paths)
       end.

Section errors.
Context `{ET : ErrorText, FS : FileSystem}.

Definition sanitizePrivateInputError (e : gerror) (display : string) (privatePaths : list string) : gerror :=
  says (sanitizePrivateInputText (error_text e) display privatePaths) e.
Definition provenanceRootSanitizeError (o : root_options) (e : gerror) (privatePaths : list string) : gerror :=
  if negb (provenanceRootActive o) then e
  else
    let paths := provenanceRootConfiguredInputPaths o ++ privatePaths in
    says (sanitizePrivateInputText (provenanceRootDiagnosticText o (error_text e)) "<input>" paths) e.
Definition provenanceRootRedactError (o : root_options) (e : gerror) : gerror := provenanceRootSanitizeError o e [].
Definition provenanceRootInputError (o : root_options) (e : gerror) (localPath logical : string)
    (privatePaths : list string) : gerror :=
  if negb (provenanceRootActive o) then e
  else
    let display := provenanceRootInputLabel o localPath logical in
    let paths := provenanceRootInputPrivatePaths localPath logical privatePaths in
    provenanceRootSanitizeError o (sanitizePrivateInputError e display paths) [].

(** *** Inputs below the root *)
Definition logicalIdentity (logicalByLocal : gmap string string) (localPath : string) : string :=
  match logicalByLocal !! localPath with
  | Some lu => if lu =s? "" then localPath else lu
  | None => localPath
  end.
Definition outside_root (o : root_options) (file logical : string) : bool :=
  match po_root o with
  | None => false
  | Some r => match provenanceRootLocalPath file logical with
              | None => false
              | Some local => match Relative r local with Ok _ => false | Err _ => true end
              end
  end.
Fixpoint preflight_inputs (o : root_options) (logicalByLocal : gmap string string) (i : nat) (files : list string)
    : result () :=
  match files with
  | [] => Ok ()
  | file :: files =>
      if outside_root o file (logicalIdentity logicalByLocal file)
      then errorf "input %d is outside the provenance root" [AInt (Z.of_nat i + 1)]
      else preflight_inputs o logicalByLocal (S i) files
  end.
Definition preflightProvenanceRootInputs (o : root_options) (logicalByLocal : gmap string string)
    (files : list string) : result () := preflight_inputs o logicalByLocal 0 files.
(** The path a ledger shows for an input. *)
Definition applyProvenanceRootInputPath (o : root_options) (path localPath logical : string) : result string :=
  match po_root o with
  | None => Ok path
  | Some r => match provenanceRootLocalPath localPath logical with
              | None => Ok path
              | Some local => match Relative r local with
                              | Ok rel => Ok rel
                              | Err _ => errorf "input is outside the provenance root" []
                              end
              end
  end.
End errors.
End references.
