(* ===== verification/InputWorkers.v ===== *)
(** * Inputs in parallel, committed in order
    (cmd/sumpter/commands/extract_multi_dispatch.go:
    processInputsConcurrentWorkers, processInputsSerial)

    A feeder hands input numbers to a pool of workers; each builds an outcome
    and sends it on; the caller puts the outcomes back into input order and
    commits them. A window of slots bounds the inputs between the feeder and
    the commit; a count of the records they hold makes the feeder wait. [pool]
    is the shared state and the place each goroutine has reached, [pool_step]
    one atomic action of one goroutine. What an outcome is and what committing
    it does is left to [build] and [commit]. *)
From Stdlib Require Import ZArith Lia.
From stdpp Require Import base list gmap relations.
From S2P Require Import Prelude.

Section pool.
Context {O St E : Type}.
(** [len(files)], the workers and the ceiling [maxInFlightRecords]. *)
Context (inputs workers : nat) (maxInFlightRecords : Z).
(** The outcome of an input; what else it can be once the context is done. *)
Context (build : nat → O) (late : nat → O → Prop).
Context (records : O → nat).
(** One outcome committed, or the error that ends the run; [ctx.Err()]. *)
Context (commit : O → St → St * option E) (ctx_err : E).

Definition pool_window : nat := workers * 2.

(** ** The serial loop

    [done i]: the context is done when input [i] is about to start. *)
Fixpoint serial_from (done : nat → bool) (i n : nat) (st : St) : St * option E :=
  match n with
  | 0 => (st, None)
  | S n =>
      if done i then (st, Some ctx_err)
      else match commit (build i) st with
           | (st, None) => serial_from done (S i) n st
           | (st, Some e) => (st, Some e)
           end
  end.
Definition processInputsSerial (done : nat → bool) (st : St) : St * option E := serial_from done 0 inputs st.

(** ** The goroutines *)

(** The feeder: at the top of its loop, past the ceiling's check and waiting
    for [freed], waiting for a slot, sending, or returned with the work
    channel closed. *)
Inductive feed_at := FTop (i : nat) | FFull (i : nat) | FSlot (i : nat) | FSend (i : nat) | FReturned.
Inductive build_at := BIdle | BBuild (i : nat) | BCount (i : nat) (o : O) | BSend (i : nat) (o : O) | BReturned.
#[export] Instance build_returned_dec (w : build_at) : Decision (w = BReturned).
Proof. destruct w; (by left) || (by right). Defined.
(** The caller: at the top of its loop; looking for the next outcome; having
    committed one, before its records are released, before [freed] is signalled
    and before its slot is; out of the loop, before and after [cancel]. *)
Inductive drain_at := DTop | DNext | DRelease (o : O) | DSignal | DSlot | DStop | DWait | DReturned.

Record pool := {
  q_feed : feed_at;
  q_workers : list build_at;
  q_results : list (nat * O);      (* resultChan *)
  q_slots : nat;                   (* tokens in slots *)
  q_freed : bool;                  (* a signal in freed *)
  q_inFlight : Z;                  (* inFlightRecords *)
  q_pending : gmap nat O;
  q_next : nat;
  q_drain : drain_at;
  q_state : St;
  q_err : option E;                (* runErr *)
  q_cancelled : bool;              (* the context is done *)
}.

Definition feed (s : pool) (at_ : feed_at) (workers : list build_at) (slots : nat) (freed : bool) : pool :=
  {| q_feed := at_; q_workers := workers; q_results := q_results s; q_slots := slots; q_freed := freed;
     q_inFlight := q_inFlight s; q_pending := q_pending s; q_next := q_next s; q_drain := q_drain s;
     q_state := q_state s; q_err := q_err s; q_cancelled := q_cancelled s |}.
Definition work (s : pool) (workers : list build_at) (results : list (nat * O)) (inFlight : Z) : pool :=
  {| q_feed := q_feed s; q_workers := workers; q_results := results; q_slots := q_slots s; q_freed := q_freed s;
     q_inFlight := inFlight; q_pending := q_pending s; q_next := q_next s; q_drain := q_drain s;
     q_state := q_state s; q_err := q_err s; q_cancelled := q_cancelled s |}.
Definition drain (s : pool) (at_ : drain_at) (results : list (nat * O)) (pending : gmap nat O) : pool :=
  {| q_feed := q_feed s; q_workers := q_workers s; q_results := results; q_slots := q_slots s; q_freed := q_freed s;
     q_inFlight := q_inFlight s; q_pending := pending; q_next := q_next s; q_drain := at_;
     q_state := q_state s; q_err := q_err s; q_cancelled := q_cancelled s |}.
Definition settle (s : pool) (at_ : drain_at) (pending : gmap nat O) (st : St) (err : option E) : pool :=
  {| q_feed := q_feed s; q_workers := q_workers s; q_results := q_results s; q_slots := q_slots s; q_freed := q_freed s;
     q_inFlight := q_inFlight s; q_pending := pending; q_next := q_next s; q_drain := at_;
     q_state := st; q_err := err; q_cancelled := q_cancelled s |}.
Definition release (s : pool) (at_ : drain_at) (slots : nat) (freed : bool) (inFlight : Z) (next : nat) : pool :=
  {| q_feed := q_feed s; q_workers := q_workers s; q_results := q_results s; q_slots := slots; q_freed := freed;
     q_inFlight := inFlight; q_pending := q_pending s; q_next := next; q_drain := at_;
     q_state := q_state s; q_err := q_err s; q_cancelled := q_cancelled s |}.
Definition cancelled (s : pool) (at_ : drain_at) : pool :=
  {| q_feed := q_feed s; q_workers := q_workers s; q_results := q_results s; q_slots := q_slots s; q_freed := q_freed s;
     q_inFlight := q_inFlight s; q_pending := q_pending s; q_next := q_next s; q_drain := at_;
     q_state := q_state s; q_err := q_err s; q_cancelled := true |}.

Inductive pool_step (s : pool) : pool → Prop :=
(* the feeder *)
| feed_end i :
    q_feed s = FTop i → inputs ≤ i →
    pool_step s (feed s FReturned (q_workers s) (q_slots s) (q_freed s))
| feed_full i :
    q_feed s = FTop i → i < inputs → (maxInFlightRecords ≤ q_inFlight s)%Z →
    pool_step s (feed s (FFull i) (q_workers s) (q_slots s) (q_freed s))
| feed_wake i :
    q_feed s = FFull i → q_freed s = true →
    pool_step s (feed s (FTop i) (q_workers s) (q_slots s) false)
| feed_room i :
    q_feed s = FTop i → i < inputs → (q_inFlight s < maxInFlightRecords)%Z →
    pool_step s (feed s (FSlot i) (q_workers s) (q_slots s) (q_freed s))
| feed_slot i :
    q_feed s = FSlot i → q_slots s < pool_window →
    pool_step s (feed s (FSend i) (q_workers s) (S (q_slots s)) (q_freed s))
| feed_send i ws1 ws2 :
    q_feed s = FSend i → q_workers s = ws1 ++ BIdle :: ws2 →
    pool_step s (feed s (FTop (S i)) (ws1 ++ BBuild i :: ws2) (q_slots s) (q_freed s))
| feed_done i :
    q_feed s = FFull i ∨ q_feed s = FSlot i ∨ q_feed s = FSend i → q_cancelled s = true →
    pool_step s (feed s FReturned (q_workers s) (q_slots s) (q_freed s))
(* a worker *)
| work_build ws1 ws2 i o :
    q_workers s = ws1 ++ BBuild i :: ws2 → o = build i ∨ (q_cancelled s = true ∧ late i o) →
    pool_step s (work s (ws1 ++ BCount i o :: ws2) (q_results s) (q_inFlight s))
| work_count ws1 ws2 i o :
    q_workers s = ws1 ++ BCount i o :: ws2 →
    pool_step s (work s (ws1 ++ BSend i o :: ws2) (q_results s) (q_inFlight s + Z.of_nat (records o)))
| work_send ws1 ws2 i o :
    q_workers s = ws1 ++ BSend i o :: ws2 → length (q_results s) < pool_window →
    pool_step s (work s (ws1 ++ BIdle :: ws2) (q_results s ++ [(i, o)]) (q_inFlight s))
| work_drop ws1 ws2 i o :
    q_workers s = ws1 ++ BSend i o :: ws2 → q_cancelled s = true →
    pool_step s (work s (ws1 ++ BReturned :: ws2) (q_results s) (q_inFlight s))
| work_end ws1 ws2 :
    q_workers s = ws1 ++ BIdle :: ws2 → q_feed s = FReturned →
    pool_step s (work s (ws1 ++ BReturned :: ws2) (q_results s) (q_inFlight s))
(* the caller *)
| drain_end :
    q_drain s = DTop → inputs ≤ q_next s →
    pool_step s (settle s DStop (q_pending s) (q_state s) (q_err s))
| drain_done :
    q_drain s = DTop → q_next s < inputs → q_cancelled s = true →
    pool_step s (settle s DStop (q_pending s) (q_state s) (Some ctx_err))
| drain_receive i o rest :
    q_drain s = DTop → q_next s < inputs → q_results s = (i, o) :: rest →
    pool_step s (drain s DNext rest (<[i := o]> (q_pending s)))
| drain_none :
    q_drain s = DNext → q_pending s !! q_next s = None →
    pool_step s (drain s DTop (q_results s) (q_pending s))
| drain_commit o st :
    q_drain s = DNext → q_pending s !! q_next s = Some o → commit o (q_state s) = (st, None) →
    pool_step s (settle s (DRelease o) (delete (q_next s) (q_pending s)) st (q_err s))
| drain_fail o st e :
    q_drain s = DNext → q_pending s !! q_next s = Some o → commit o (q_state s) = (st, Some e) →
    pool_step s (settle s DStop (delete (q_next s) (q_pending s)) st (Some e))
| drain_release o :
    q_drain s = DRelease o →
    pool_step s (if (0 <? records o)%nat
                 then release s DSignal (q_slots s) (q_freed s) (q_inFlight s - Z.of_nat (records o)) (q_next s)
                 else release s DSlot (q_slots s) (q_freed s) (q_inFlight s) (q_next s))
| drain_signal :
    q_drain s = DSignal →
    pool_step s (release s DSlot (q_slots s) true (q_inFlight s) (q_next s))
| drain_slot :
    q_drain s = DSlot → 0 < q_slots s →
    pool_step s (release s DNext (pred (q_slots s)) (q_freed s) (q_inFlight s) (S (q_next s)))
| drain_cancel :
    q_drain s = DStop → pool_step s (cancelled s DWait)
| drain_wait :
    q_drain s = DWait → Forall (λ w, w = BReturned) (q_workers s) →
    pool_step s (release s DReturned (q_slots s) (q_freed s) (q_inFlight s) (q_next s)).

(** What can happen next: a step, or the caller's own context is done. *)
Inductive pool_move (s : pool) : pool → Prop :=
| pool_moves s' : pool_step s s' → pool_move s s'
| pool_interrupt : q_cancelled s = false → pool_move s (cancelled s (q_drain s)).

Definition pool_start (st : St) : pool := {|
  q_feed := FTop 0; q_workers := replicate workers BIdle; q_results := []; q_slots := 0; q_freed := false;
  q_inFlight := 0; q_pending := ∅; q_next := 0; q_drain := DTop; q_state := st; q_err := None; q_cancelled := false;
|}.
(** A run whose context is not done from outside, and one whose may be. *)
Definition runs_to (st : St) : pool → Prop := rtc pool_step (pool_start st).
Definition may_reach (st : St) : pool → Prop := rtc pool_move (pool_start st).
End pool.
Arguments pool : clear implicits.
Arguments build_at : clear implicits.
Arguments drain_at : clear implicits.
