(* ===== verification/InputWorkersSpec.v ===== *)
(** * What the input workers promise
    (cmd/sumpter/commands/extract_multi_dispatch.go)

    Whatever the interleaving, the outcomes are committed one by one in input
    order, each built from its own input; an uninterrupted run has the state and
    the error of the serial loop; no run is stuck before it returns, none goes
    on for ever; the window bounds what is in flight and no worker waits to send. *)
From Stdlib Require Import ZArith Lia.
From stdpp Require Import base list gmap relations.
From S2P Require Import Prelude InputWorkers.

Section spec.
Context {O St E : Type} (inputs workers : nat) (maxInFlightRecords : Z) (build : nat → O) (late : nat → O → Prop).
Context (records : O → nat) (commit : O → St → St * option E) (ctx_err : E) (st0 : St).
Implicit Types (s : pool O St E) (os : list O).

Local Notation pool_step := (pool_step inputs workers maxInFlightRecords build late records commit ctx_err).
Local Notation pool_move := (pool_move inputs workers maxInFlightRecords build late records commit ctx_err).
Local Notation pool_start := (pool_start (O := O) (E := E) workers st0).
Local Notation window := (pool_window workers).

(** ** What is in flight *)
Definition w_id (w : build_at O) : list nat :=
  match w with BBuild i => [i] | BCount i _ => [i] | BSend i _ => [i] | _ => [] end.
Definition w_built (w : build_at O) : list (nat * O) :=
  match w with BCount i o => [(i, o)] | BSend i o => [(i, o)] | _ => [] end.
Definition w_counted (w : build_at O) : list (nat * O) := match w with BSend i o => [(i, o)] | _ => [] end.
Definition held s : list nat := (q_workers s ≫= w_id) ++ (q_results s).*1 ++ (map_to_list (q_pending s)).*1.
Definition built s : list (nat * O) := (q_workers s ≫= w_built) ++ q_results s ++ map_to_list (q_pending s).
Definition counted s : list (nat * O) := (q_workers s ≫= w_counted) ++ q_results s ++ map_to_list (q_pending s).

(** The outcomes committed one after the other, up to the first error. *)
Fixpoint settle_all (os : list O) (st : St) : St * option E :=
  match os with
  | [] => (st, None)
  | o :: os => match commit o st with
               | (st, None) => settle_all os st
               | (st, Some e) => (st, Some e)
               end
  end.
Lemma settle_all_app os o st :
  settle_all (os ++ [o]) st = match settle_all os st with
                              | (st, None) => commit o st
                              | (st, Some e) => (st, Some e)
                              end.
Proof.
  revert st. induction os as [|x os IH]; intros st; cbn; [by destruct (commit o st) as [? [|]]|].
  destruct (commit x st) as [st' [e|]]; [done|apply IH].
Qed.
Lemma serial_settle i n st : serial_from build commit ctx_err (λ _, false) i n st = settle_all (build <$> seq i n) st.
Proof.
  revert i st. induction n as [|n IH]; intros i st; cbn; [done|].
  destruct (commit (build i) st) as [st' [e|]]; [done|apply IH].
Qed.
Lemma settle_all_error os os' st st' e : settle_all os st = (st', Some e) → settle_all (os ++ os') st = (st', Some e).
Proof.
  revert st. induction os as [|x os IH]; intros st; cbn; [done|].
  destruct (commit x st) as [st1 [e1|]]; [done|apply IH].
Qed.

(** ** The invariant *)
Definition good (c : bool) (i : nat) (o : O) : Prop := o = build i ∨ (c = true ∧ late i o).
Definition feed_inv s (fed : nat) : Prop :=
  match q_feed s with
  | FTop i => fed = i
  | FFull i | FSlot i | FSend i => fed = i ∧ i < inputs
  | FReturned => q_cancelled s = true ∨ fed = inputs
  end.
(** [b]: the context was done from outside. *)
Definition drain_inv (b : bool) s os : Prop :=
  match q_drain s with
  | DTop => settle_all os st0 = (q_state s, None) ∧ q_err s = None ∧ length os = q_next s ∧ q_pending s !! q_next s = None
  | DNext => settle_all os st0 = (q_state s, None) ∧ q_err s = None ∧ length os = q_next s
  | DRelease _ | DSignal | DSlot => settle_all os st0 = (q_state s, None) ∧ q_err s = None ∧ length os = S (q_next s)
  | DStop | DWait | DReturned =>
      (q_next s ≤ length os) ∧
      match q_err s with
      | None => settle_all os st0 = (q_state s, None) ∧ length os = inputs
      | Some e => settle_all os st0 = (q_state s, Some e) ∨
                  (settle_all os st0 = (q_state s, None) ∧ b = true ∧ e = ctx_err)
      end
  end.
Definition stopped s : Prop := match q_drain s with DWait | DReturned => True | _ => False end.

Record order_inv (b : bool) s os (fed : nat) (dropped : list nat) : Prop := {
  o_held : held s ++ dropped ≡ₚ seq (length os) (fed - length os);
  o_fed : length os ≤ fed ≤ inputs;
  o_feed : feed_inv s fed;
  o_dropped : q_cancelled s = false → dropped = [];
  o_built : ∀ i o, (i, o) ∈ built s → good (q_cancelled s) i o;
  o_done : ∀ i o, os !! i = Some o → good b i o;
  o_drain : drain_inv b s os;
  o_cancel : q_cancelled s = true → b = true ∨ stopped s;
}.

Lemma good_interrupted c i o : good c i o → good true i o.
Proof. intros [?|[_ ?]]; [by left|by right]. Qed.
Lemma held_range b s os fed dropped i :
  order_inv b s os fed dropped → i ∈ held s → length os ≤ i < fed.
Proof.
  intros Hi Hin. assert (i ∈ held s ++ dropped) as Hin' by (apply elem_of_app; by left).
  rewrite (o_held _ _ _ _ _ Hi), elem_of_seq in Hin'. pose proof (o_fed _ _ _ _ _ Hi). lia.
Qed.
Lemma held_nodup b s os fed dropped : order_inv b s os fed dropped → NoDup (held s ++ dropped).
Proof. intros Hi. rewrite (o_held _ _ _ _ _ Hi). apply NoDup_seq. Qed.
Lemma built_held s i o : (i, o) ∈ built s → i ∈ held s.
Proof.
  unfold built, held. rewrite !elem_of_app, !list_elem_of_fmap. intros [Hw|[Hr|Hp]].
  - left. apply list_elem_of_bind in Hw as (w & Hio & Hin). apply list_elem_of_bind. exists w. split; [|done].
    destruct w; cbn in *; try by apply elem_of_nil in Hio.
    all: apply list_elem_of_singleton in Hio as [= -> ->]; by left.
  - right. left. by exists (i, o).
  - right. right. by exists (i, o).
Qed.

Ltac flight :=
  unfold held, built, counted; cbn [feed work drain settle release cancelled q_workers q_results q_pending];
  repeat match goal with H : q_workers _ = _ |- _ => rewrite H | H : q_results _ = _ |- _ => rewrite H end;
  rewrite ?bind_app, ?fmap_app;
  cbn [fmap list_fmap mbind list_bind w_id w_built w_counted app];
  repeat match goal with |- context [list_bind _ _ ?f ?l] => change (list_bind _ _ f l) with (l ≫= f) end;
  rewrite ?app_nil_r; try solve_Permutation.

Lemma order_feed b s os fed dropped at_ slots freed :
  order_inv b s os fed dropped → feed_inv (feed s at_ (q_workers s) slots freed) fed →
  order_inv b (feed s at_ (q_workers s) slots freed) os fed dropped.
Proof. intros [] ?. by constructor. Qed.
Lemma order_send b s os fed dropped i ws1 ws2 slots freed :
  order_inv b s os fed dropped → q_feed s = FSend i → q_workers s = ws1 ++ BIdle :: ws2 →
  order_inv b (feed s (FTop (S i)) (ws1 ++ BBuild i :: ws2) slots freed) os (S fed) dropped.
Proof.
  intros [Hh Hf Hfeed Hd Hb Ho Hdr Hc] Hat Hws. unfold feed_inv in Hfeed. rewrite Hat in Hfeed. destruct Hfeed as [-> Hi].
  constructor; try done.
  - transitivity (i :: held s ++ dropped); [flight|]. rewrite Hh. replace (S i - length os) with (S (i - length os)) by lia.
    rewrite seq_S. replace (length os + (i - length os)) with i by lia. solve_Permutation.
  - lia.
  - intros j o Hin. apply Hb. revert Hin. by flight.
Qed.
(** One worker has moved. *)
Lemma order_work b s os fed dropped ws results inFlight dropped' :
  order_inv b s os fed dropped → held (work s ws results inFlight) ++ dropped' ≡ₚ held s ++ dropped →
  (q_cancelled s = false → dropped' = []) →
  (∀ i o, (i, o) ∈ built (work s ws results inFlight) → (i, o) ∈ built s ∨ good (q_cancelled s) i o) →
  order_inv b (work s ws results inFlight) os fed dropped'.
Proof.
  intros [Hh Hf Hfeed Hd Hb Ho Hdr Hc] Hheld Hdrop Hbuilt. constructor; try done.
  - by rewrite Hheld.
  - intros i o [Hin|Hg]%Hbuilt; [by apply Hb|done].
Qed.

(** The outcomes of the reorder buffer. *)
Lemma pending_fresh b s os fed dropped i o rest :
  order_inv b s os fed dropped → q_results s = (i, o) :: rest → q_pending s !! i = None.
Proof.
  intros Hi Hr. destruct (q_pending s !! i) as [o'|] eqn:Hp; [|done]. exfalso.
  pose proof (held_nodup _ _ _ _ _ Hi) as Hn. apply NoDup_app in Hn as [Hn _]. revert Hn. unfold held. rewrite Hr.
  intros (_ & _ & Hn)%NoDup_app. apply NoDup_app in Hn as (_ & Hn & _). apply (Hn i); [left|].
  apply list_elem_of_fmap. exists (i, o'). split; [done|]. by apply elem_of_map_to_list.
Qed.
Lemma order_receive b s os fed dropped i o rest :
  order_inv b s os fed dropped → q_drain s = DTop → q_results s = (i, o) :: rest →
  order_inv b (drain s DNext rest (<[i := o]> (q_pending s))) os fed dropped.
Proof.
  intros Hinv Hat Hr. pose proof (pending_fresh _ _ _ _ _ _ _ _ Hinv Hr) as Hfr.
  destruct Hinv as [Hh Hf Hfeed Hd Hb Ho Hdr Hc]. constructor; try done.
  - rewrite <- Hh. flight. rewrite map_to_list_insert by done. cbn. solve_Permutation.
  - intros j o' Hin. apply Hb. revert Hin. flight. rewrite map_to_list_insert by done. set_solver.
  - unfold drain_inv in *. rewrite Hat in Hdr. cbn. by destruct Hdr as (? & ? & ? & ?).
  - intros [?|Hs]%Hc; [by left|]. unfold stopped in Hs. by rewrite Hat in Hs.
Qed.
(** The caller has moved without taking an outcome. *)
Lemma order_drain b s s' os fed dropped :
  order_inv b s os fed dropped → q_feed s' = q_feed s → q_workers s' = q_workers s → q_results s' = q_results s →
  q_pending s' = q_pending s → q_cancelled s' = q_cancelled s → drain_inv b s' os → (stopped s → stopped s') →
  order_inv b s' os fed dropped.
Proof.
  intros [Hh Hf Hfeed Hd Hb Ho Hdr Hc] Eq1 Eq2 Eq3 Eq4 Eq5 Hdr' Hst.
  assert (held s' = held s) as E1 by (unfold held; congruence).
  assert (built s' = built s) as E2 by (unfold built; congruence).
  constructor; rewrite ?E1, ?E2, ?Eq5; try done.
  - unfold feed_inv in *. by rewrite Eq1, Eq5.
  - intros [?|?]%Hc; [by left|right; by apply Hst].
Qed.
(** The next outcome has been committed, or has failed. *)
Lemma order_commit b s os fed dropped o at_ st err :
  order_inv b s os fed dropped → q_drain s = DNext → q_pending s !! q_next s = Some o →
  drain_inv b (settle s at_ (delete (q_next s) (q_pending s)) st err) (os ++ [o]) →
  order_inv b (settle s at_ (delete (q_next s) (q_pending s)) st err) (os ++ [o]) fed dropped.
Proof.
  intros Hinv Hat Hp Hdr'. assert (q_next s ∈ held s) as Hin.
  { unfold held. rewrite !elem_of_app. right. right. apply list_elem_of_fmap. exists (q_next s, o). split; [done|].
    by apply elem_of_map_to_list. }
  pose proof (held_range _ _ _ _ _ _ Hinv Hin) as Hrange.
  destruct Hinv as [Hh Hf Hfeed Hd Hb Ho Hdr Hc]. unfold drain_inv in Hdr. rewrite Hat in Hdr.
  destruct Hdr as (Hst & _ & Hlen).
  assert (map_to_list (q_pending s) ≡ₚ (q_next s, o) :: map_to_list (delete (q_next s) (q_pending s))) as Hpend
    by (symmetry; by apply map_to_list_delete).
  assert (q_cancelled s = true → b = true) as Hcb.
  { intros [?|Hs]%Hc; [done|]. unfold stopped in Hs. by rewrite Hat in Hs. }
  constructor; try done.
  - apply (Permutation_cons_inv (a := q_next s)). transitivity (held s ++ dropped).
    { unfold held. cbn [settle q_workers q_results q_pending]. rewrite Hpend. cbn. solve_Permutation. }
    rewrite Hh, length_app, Hlen. cbn. rewrite Nat.add_1_r.
    replace (fed - q_next s) with (S (fed - S (q_next s))) by lia. done.
  - rewrite length_app. cbn. lia.
  - intros i o' Hin'. apply Hb. revert Hin'. unfold built. cbn [settle q_workers q_results q_pending].
    rewrite Hpend. set_solver.
  - intros i o' [Hi|[Hge Hi]]%lookup_app_Some; [by apply Ho|].
    destruct (i - length os) as [|k] eqn:Hk; [|by destruct k]. injection Hi as <-.
    assert (i = q_next s) as -> by lia.
    destruct (Hb (q_next s) o) as [?|[Hc' ?]]; [|by left|right; by split; [apply Hcb|]].
    unfold built. rewrite !elem_of_app. right. right. by apply elem_of_map_to_list.
  - intros Hc'. left. by apply Hcb.
Qed.

Lemma order_start : order_inv false pool_start [] 0 [].
Proof.
  assert (∀ n, replicate n (BIdle (O := O)) ≫= w_id = [] ∧ replicate n (BIdle (O := O)) ≫= w_built = []) as Hr.
  { induction n as [|n [IH1 IH2]]; [done|]. split; [exact IH1|exact IH2]. }
  destruct (Hr workers) as [H1 H2].
  constructor; try done.
  - unfold held. cbn [pool_start q_workers q_results q_pending InputWorkers.pool_start].
    by rewrite H1, map_to_list_empty.
  - cbn. lia.
  - intros i o. unfold built. cbn [q_workers q_results q_pending InputWorkers.pool_start].
    rewrite H2, map_to_list_empty. cbn. by intros ?%elem_of_nil.
Qed.

Lemma order_step b s s' os fed dropped :
  order_inv b s os fed dropped → pool_step s s' → ∃ os' fed' dropped', order_inv b s' os' fed' dropped'.
Proof.
  intros Hi Hstep. pose proof (o_feed _ _ _ _ _ Hi) as Hf. pose proof (o_drain _ _ _ _ _ Hi) as Hd.
  unfold feed_inv in Hf. unfold drain_inv in Hd.
  destruct Hstep as [i Hat Hle|i Hat Hlt Hfull|i Hat Hfr|i Hat Hlt Hroom|i Hat Hsl|i ws1 ws2 Hat Hws|i Hat Hc
    |ws1 ws2 i o Hws Ho|ws1 ws2 i o Hws|ws1 ws2 i o Hws Hl|ws1 ws2 i o Hws Hc|ws1 ws2 Hws Hret
    |Hat Hle|Hat Hlt Hc|i o rest Hat Hlt Hr|Hat Hp|o st Hat Hp Hcm|o st e Hat Hp Hcm|o Hat|Hat|Hat Hsl|Hat|Hat Hall];
    try rewrite Hat in Hf; try rewrite Hat in Hd.
  - exists os, fed, dropped. apply order_feed; [done|]. right. pose proof (o_fed _ _ _ _ _ Hi). lia.
  - exists os, fed, dropped. by apply order_feed.
  - exists os, fed, dropped. apply order_feed; [done|]. by destruct Hf.
  - exists os, fed, dropped. by apply order_feed.
  - exists os, fed, dropped. by apply order_feed.
  - exists os, (S fed), dropped. by apply order_send.
  - exists os, fed, dropped. apply order_feed; [done|]. by left.
  - exists os, fed, dropped. eapply order_work; [done|flight|apply Hi|].
    intros j o' Hin. assert ((j, o') ∈ (i, o) :: built s) as Hin' by (revert Hin; flight; set_solver).
    apply elem_of_cons in Hin' as [[= -> ->]|Hin']; [by right|by left].
  - exists os, fed, dropped. eapply order_work; [done|flight|apply Hi|]. intros j o' Hin. left. revert Hin. by flight.
  - exists os, fed, dropped. eapply order_work; [done|flight|apply Hi|]. intros j o' Hin. left. revert Hin. flight. set_solver.
  - exists os, fed, (i :: dropped). eapply order_work; [done|flight|congruence|]. intros j o' Hin. left. revert Hin. flight. set_solver.
  - exists os, fed, dropped. eapply order_work; [done|flight|apply Hi|]. intros j o' Hin. left. revert Hin. by flight.
  - exists os, fed, dropped. destruct Hd as (? & He & ? & ?). eapply order_drain; try done; unfold drain_inv, stopped; cbn.
    + rewrite He. pose proof (o_fed _ _ _ _ _ Hi). split; [lia|]. split; [done|lia].
    + by rewrite Hat.
  - exists os, fed, dropped. destruct Hd as (? & He & ? & ?). eapply order_drain; try done; unfold drain_inv, stopped; cbn.
    + split; [lia|]. right. split_and!; [done| |done]. destruct (o_cancel _ _ _ _ _ Hi Hc) as [?|Hs]; [done|].
      unfold stopped in Hs. by rewrite Hat in Hs.
    + by rewrite Hat.
  - exists os, fed, dropped. by eapply order_receive.
  - exists os, fed, dropped. destruct Hd as (? & He & ?). eapply order_drain; try done; unfold stopped. by rewrite Hat.
  - exists (os ++ [o]), fed, dropped. destruct Hd as (Hst & He & Hlen). apply order_commit; [done..|].
    unfold drain_inv. cbn. rewrite settle_all_app, Hst, Hcm, length_app. cbn. split_and!; [done|done|lia].
  - exists (os ++ [o]), fed, dropped. destruct Hd as (Hst & He & Hlen). apply order_commit; [done..|].
    unfold drain_inv. cbn. rewrite settle_all_app, Hst, Hcm, length_app. cbn. split; [lia|by left].
  - exists os, fed, dropped. destruct Hd as (? & He & ?).
    destruct (0 <? records o)%nat; eapply order_drain; try done; unfold stopped; by rewrite Hat.
  - exists os, fed, dropped. destruct Hd as (? & He & ?). eapply order_drain; try done; unfold stopped; by rewrite Hat.
  - exists os, fed, dropped. destruct Hd as (? & He & ?). eapply order_drain; try done; unfold stopped; by rewrite Hat.
  - exists os, fed, dropped. destruct Hi as [Hh Hfd Hfeed Hdr Hb Ho Hdrn Hc]. constructor; try done.
    + unfold feed_inv in *. cbn. destruct (q_feed s); try done. by left.
    + intros i o Hin. eapply good_interrupted, Hb, Hin.
    + by right.
  - exists os, fed, dropped. eapply order_drain; try done; unfold stopped; by rewrite ?Hat.
Qed.

Lemma order_interrupt b s os fed dropped :
  order_inv b s os fed dropped → order_inv true (cancelled s (q_drain s)) os fed dropped.
Proof.
  intros [Hh Hfd Hfeed Hdr Hb Ho Hdrn Hc]. constructor; try done.
  - unfold feed_inv in *. cbn. destruct (q_feed s); try done. by left.
  - intros i o Hin. eapply good_interrupted, Hb, Hin.
  - intros i o Hin. eapply good_interrupted, Ho, Hin.
  - unfold drain_inv in *. cbn. destruct (q_drain s); try done;
      (destruct Hdrn as [? Hdrn]; split; [done|]; destruct (q_err s); [|done]; destruct Hdrn as [?|(? & ? & ?)]; [by left|by right]).
  - by left.
Qed.

Lemma runs_order s : rtc pool_step pool_start s → ∃ os fed dropped, order_inv false s os fed dropped.
Proof.
  apply (rtc_ind_r (λ s, ∃ os fed dropped, order_inv false s os fed dropped)); [do 3 eexists; apply order_start|].
  intros s1 s2 _ Hs (os & fed & dropped & Hi). by eapply order_step.
Qed.
Lemma moves_order s : rtc pool_move pool_start s → ∃ b os fed dropped, order_inv b s os fed dropped.
Proof.
  apply (rtc_ind_r (λ s, ∃ b os fed dropped, order_inv b s os fed dropped)); [do 4 eexists; apply order_start|].
  intros s1 s2 _ [? Hs|Hc] (b & os & fed & dropped & Hi).
  - exists b. by eapply order_step.
  - exists true. do 3 eexists. by eapply order_interrupt.
Qed.

(** ** Slots, records and the ceiling *)
Definition total (l : list (nat * O)) : nat := sum_list_with (λ io, records io.2) l.
(** The slot of an outcome that was committed and is not released. *)
Definition committed_slot s : nat := match q_drain s with DRelease _ | DSignal | DSlot => 1 | _ => 0 end.
Definition committed_records s : nat := match q_drain s with DRelease o => records o | _ => 0 end.
Definition feed_slot_held s : nat := match q_feed s with FSend _ => 1 | _ => 0 end.
Definition stopping s : Prop := match q_drain s with DStop | DWait | DReturned => True | _ => False end.

Record room_inv s (lostSlots lostRecords : nat) : Prop := {
  r_slots : q_slots s = length (held s) + committed_slot s + feed_slot_held s + lostSlots;
  r_records : q_inFlight s = Z.of_nat (total (counted s) + committed_records s + lostRecords);
  r_lost : q_cancelled s = false → ¬ stopping s → lostSlots = 0 ∧ lostRecords = 0;
  r_window : q_slots s ≤ window;
  r_workers : length (q_workers s) = workers;
  r_returned : BReturned ∈ q_workers s → q_feed s = FReturned ∨ q_cancelled s = true;
  r_full : ∀ i, q_feed s = FFull i → q_freed s = true ∨ (maxInFlightRecords ≤ q_inFlight s)%Z ∨ q_drain s = DSignal ∨ stopping s;
}.

Lemma total_perm l k : l ≡ₚ k → total l = total k.
Proof. unfold total. induction 1; cbn; lia. Qed.
Lemma total_cons i o l : total ((i, o) :: l) = records o + total l.
Proof. done. Qed.
Lemma total_app l k : total (l ++ k) = total l + total k.
Proof. unfold total. apply sum_list_with_app. Qed.

Ltac perm_of H tac := let E := fresh in assert H as E by (flight; tac); rewrite E.

Lemma room_start : room_inv pool_start 0 0.
Proof.
  assert (∀ n, replicate n (BIdle (O := O)) ≫= w_id = [] ∧ replicate n (BIdle (O := O)) ≫= w_counted = []) as Hr.
  { induction n as [|n [IH1 IH2]]; [done|]. split; [exact IH1|exact IH2]. }
  destruct (Hr workers) as [H1 H2].
  constructor; try done; unfold held, counted; cbn -[replicate].
  - by rewrite H1, map_to_list_empty.
  - by rewrite H2, map_to_list_empty.
  - lia.
  - apply length_replicate.
  - intros [Hx _]%elem_of_replicate. done.
Qed.

(** A worker has gone from [w] to [w']. *)
Lemma room_work s ws1 w w' ws2 results inFlight lostSlots lostRecords lostSlots' lostRecords' :
  room_inv s lostSlots lostRecords → q_workers s = ws1 ++ w :: ws2 → w ≠ BReturned →
  (w' = BReturned → q_feed s = FReturned ∨ q_cancelled s = true) →
  length (held (work s (ws1 ++ w' :: ws2) results inFlight)) + lostSlots' = length (held s) + lostSlots →
  (inFlight - Z.of_nat (total (counted (work s (ws1 ++ w' :: ws2) results inFlight)) + lostRecords')
   = q_inFlight s - Z.of_nat (total (counted s) + lostRecords))%Z →
  (q_inFlight s ≤ inFlight)%Z → (q_cancelled s = false → ¬ stopping s → lostSlots' = lostSlots ∧ lostRecords' = lostRecords) →
  room_inv (work s (ws1 ++ w' :: ws2) results inFlight) lostSlots' lostRecords'.
Proof.
  intros [Hs Hr Hl Hw Hn Hret Hfull] Hws Hne Hne' Hheld Hcount Hle Hlost. constructor; try done.
  - cbn [work q_slots]. rewrite Hs. unfold committed_slot, feed_slot_held in *. cbn [work q_drain q_feed]. lia.
  - cbn [work q_inFlight] in *. unfold committed_records in *. cbn [work q_drain]. lia.
  - intros Hc Hst. destruct (Hlost Hc Hst) as [-> ->]. by apply Hl.
  - cbn [work q_workers]. rewrite <- Hn, Hws, !length_app. done.
  - cbn [work q_workers q_feed q_cancelled]. rewrite elem_of_app, elem_of_cons. intros [Hin|[Heq|Hin]].
    + apply Hret. rewrite Hws. apply elem_of_app. by left.
    + by apply Hne'.
    + apply Hret. rewrite Hws. apply elem_of_app. right. by right.
  - intros i Hi. cbn [work q_freed q_inFlight q_drain] in *. destruct (Hfull i Hi) as [?|[?|[?|?]]]; [by left|right; left; lia|by do 2 right; left|by do 3 right].
Qed.

(** The feeder has moved. *)
Lemma room_feed s at_ freed slots lostSlots lostRecords lostSlots' :
  room_inv s lostSlots lostRecords → q_feed s ≠ FReturned →
  slots + feed_slot_held s + lostSlots = q_slots s + (match at_ with FSend _ => 1 | _ => 0 end) + lostSlots' →
  slots ≤ window → (q_cancelled s = false → ¬ stopping s → lostSlots' = lostSlots) →
  (∀ i, at_ = FFull i → freed = true ∨ (maxInFlightRecords ≤ q_inFlight s)%Z) →
  room_inv (feed s at_ (q_workers s) slots freed) lostSlots' lostRecords.
Proof.
  intros [Hs Hr Hl Hw Hn Hret Hfull] Hne Hsl Hwin Hlost Hf. constructor; try done.
  - unfold held, committed_slot, feed_slot_held in *. cbn [feed q_slots q_workers q_results q_pending q_drain q_feed] in *. lia.
  - intros Hc Hst. rewrite (Hlost Hc Hst). by apply Hl.
  - cbn. intros Hin. destruct (Hret Hin); [done|by right].
  - cbn. intros i Hi. destruct (Hf i Hi); [by left|by right; left].
Qed.

(** The caller has moved and left the flight as it was. *)
Lemma room_drain s s' lostSlots lostRecords lostSlots' lostRecords' :
  room_inv s lostSlots lostRecords → q_feed s' = q_feed s → q_workers s' = q_workers s →
  q_cancelled s' = q_cancelled s ∨ stopping s' →
  (q_cancelled s = true → q_cancelled s' = true) →
  q_slots s' + length (held s) + committed_slot s + lostSlots
    = q_slots s + length (held s') + committed_slot s' + lostSlots' →
  (q_inFlight s' - Z.of_nat (total (counted s') + committed_records s' + lostRecords')
    = q_inFlight s - Z.of_nat (total (counted s) + committed_records s + lostRecords))%Z →
  q_slots s' ≤ q_slots s →
  (q_cancelled s' = false → ¬ stopping s' → ¬ stopping s ∧ lostSlots' = lostSlots ∧ lostRecords' = lostRecords) →
  ((q_freed s = true → q_freed s' = true) ∧ (q_drain s = DSignal → q_freed s' = true ∨ q_drain s' = DSignal)
   ∧ ((q_inFlight s ≤ q_inFlight s')%Z ∨ q_drain s' = DSignal) ∧ (stopping s → stopping s') ∨ stopping s') →
  room_inv s' lostSlots' lostRecords'.
Proof.
  intros [Hs Hr Hl Hw Hn Hret Hfull] Ef Ew Hc Hc' Hsl Hrec Hle Hlost Hf. constructor.
  - unfold feed_slot_held in *. rewrite Ef. lia.
  - lia.
  - intros H1 H2. destruct (Hlost H1 H2) as (H3 & -> & ->). apply Hl; [|done]. by destruct (q_cancelled s); [rewrite Hc' in H1|].
  - lia.
  - by rewrite Ew.
  - rewrite Ew, Ef. intros [?|?]%Hret; [by left|right; by apply Hc'].
  - intros i. rewrite Ef. intros Hi. destruct Hf as [(H1 & H2 & H3 & H4)|Hst]; [|by do 3 right].
    destruct (Hfull i Hi) as [?|[?|[?|?]]].
    + left. by apply H1.
    + destruct H3 as [?|?]; [right; left; lia|by do 2 right; left].
    + destruct (H2 ltac:(done)); [by left|by do 2 right; left].
    + do 3 right. by apply H4.
Qed.

Lemma pending_taken s i o :
  q_pending s !! i = Some o →
  map_to_list (q_pending s) ≡ₚ (i, o) :: map_to_list (delete i (q_pending s)).
Proof. intros. symmetry. by apply map_to_list_delete. Qed.
Lemma room_commit b s os fed dropped lostSlots lostRecords o at_ st err lostSlots' lostRecords' :
  order_inv b s os fed dropped → room_inv s lostSlots lostRecords → q_drain s = DNext → q_pending s !! q_next s = Some o →
  (at_ = DRelease o ∧ lostSlots' = lostSlots ∧ lostRecords' = lostRecords) ∨
  (at_ = DStop ∧ lostSlots' = S lostSlots ∧ lostRecords' = lostRecords + records o) →
  room_inv (settle s at_ (delete (q_next s) (q_pending s)) st err) lostSlots' lostRecords'.
Proof.
  intros Hi Hroom Hat Hp Hat'. pose proof (pending_taken _ _ _ Hp) as Hpend.
  set (s' := settle s at_ (delete (q_next s) (q_pending s)) st err).
  assert (held s ≡ₚ q_next s :: held s') as Hh.
  { unfold held, s'. cbn [settle q_workers q_results q_pending]. rewrite Hpend. cbn. solve_Permutation. }
  assert (counted s ≡ₚ (q_next s, o) :: counted s') as Hc.
  { unfold counted, s'. cbn [settle q_workers q_results q_pending]. rewrite Hpend. solve_Permutation. }
  apply Permutation_length in Hh. apply total_perm in Hc. rewrite total_cons in Hc. cbn [length] in Hh.
  eapply room_drain; [exact Hroom|done..| | | | | | |]; unfold committed_slot, committed_records, stopping, s' in *;
    cbn [settle q_slots q_inFlight q_drain q_cancelled q_freed] in *; rewrite ?Hat;
    destruct Hat' as [(-> & -> & ->)|(-> & -> & ->)]; try lia; try done; try (by left); try (by right).
  left. split_and!; try done. left. lia.
Qed.
Lemma room_receive b s os fed dropped lostSlots lostRecords i o rest :
  order_inv b s os fed dropped → room_inv s lostSlots lostRecords → q_drain s = DTop → q_results s = (i, o) :: rest →
  room_inv (drain s DNext rest (<[i := o]> (q_pending s))) lostSlots lostRecords.
Proof.
  intros Hi Hroom Hat Hr. pose proof (pending_fresh _ _ _ _ _ _ _ _ Hi Hr) as Hfr.
  set (s' := drain s DNext rest (<[i := o]> (q_pending s))).
  assert (held s' ≡ₚ held s) as Hh by (unfold s'; flight; rewrite map_to_list_insert by done; cbn; solve_Permutation).
  assert (counted s' ≡ₚ counted s) as Hc by (unfold s'; flight; rewrite map_to_list_insert by done; solve_Permutation).
  apply Permutation_length in Hh. apply total_perm in Hc.
  eapply room_drain; [exact Hroom|done|done|by left|done|..]; unfold committed_slot, committed_records, stopping;
    cbn [s' drain q_slots q_inFlight q_drain q_cancelled q_freed]; rewrite ?Hat; try lia; try done.
  left. split_and!; try done. left. lia.
Qed.

Lemma held_release s at_ slots freed inFlight next : held (release s at_ slots freed inFlight next) = held s.
Proof. done. Qed.
Lemma counted_release s at_ slots freed inFlight next : counted (release s at_ slots freed inFlight next) = counted s.
Proof. done. Qed.
Ltac room_idle :=
  eapply room_drain; try done; rewrite ?held_release, ?counted_release;
  unfold committed_slot, committed_records, stopping;
  cbn [release settle drain cancelled q_slots q_inFlight q_drain q_cancelled q_freed];
  repeat match goal with H : q_drain _ = _ |- _ => rewrite H end; auto; try lia.

Lemma room_step b s s' os fed dropped lostSlots lostRecords :
  order_inv b s os fed dropped → room_inv s lostSlots lostRecords → pool_step s s' →
  ∃ lostSlots' lostRecords', room_inv s' lostSlots' lostRecords'.
Proof.
  intros Hi Hroom Hstep. pose proof (r_window _ _ _ Hroom) as Hw.
  destruct Hstep as [i Hat Hle|i Hat Hlt Hfull|i Hat Hfr|i Hat Hlt Hrm|i Hat Hsl|i ws1 ws2 Hat Hws|i Hat Hc
    |ws1 ws2 i o Hws Ho|ws1 ws2 i o Hws|ws1 ws2 i o Hws Hl|ws1 ws2 i o Hws Hc|ws1 ws2 Hws Hret
    |Hat Hle|Hat Hlt Hc|i o rest Hat Hlt Hr|Hat Hp|o st Hat Hp Hcm|o st e Hat Hp Hcm|o Hat|Hat|Hat Hsl|Hat|Hat Hall].
  1-5: exists lostSlots, lostRecords; apply (room_feed s _ _ _ lostSlots); try done; unfold feed_slot_held; rewrite ?Hat; try lia; try done.
  - exists lostSlots, lostRecords. pose proof (room_work s ws1 BIdle (BBuild i) ws2 (q_results s) (q_inFlight s)) as H.
    destruct Hroom as [Hs Hr Hl _ Hn Hret Hfull]. constructor; try done; cbn [feed q_slots q_inFlight q_workers].
    + assert (held (feed s (FTop (S i)) (ws1 ++ BBuild i :: ws2) (q_slots s) (q_freed s)) ≡ₚ i :: held s) as Hh by flight.
      apply Permutation_length in Hh. unfold feed_slot_held in *. rewrite Hat in Hs. cbn [feed q_feed length] in *.
      unfold committed_slot in *. cbn [feed q_drain]. lia.
    + rewrite Hr. f_equal. assert (counted (feed s (FTop (S i)) (ws1 ++ BBuild i :: ws2) (q_slots s) (q_freed s)) ≡ₚ counted s) as Hc by flight.
      apply total_perm in Hc. unfold committed_records. cbn [feed q_drain]. lia.
    + rewrite <- Hn, Hws, !length_app. done.
    + cbn. rewrite elem_of_app, elem_of_cons. intros Hin. destruct Hret as [?|?]; [|congruence|by right].
      rewrite Hws, elem_of_app, elem_of_cons. destruct Hin as [?|[?|?]]; [by left|done|by do 2 right].
  - exists (lostSlots + feed_slot_held s), lostRecords. apply (room_feed s _ _ _ lostSlots); try done; try lia.
    + by destruct Hat as [->|[->| ->]].
    + congruence.
  - exists lostSlots, lostRecords. eapply room_work; try done; [|].
    + f_equal. apply Permutation_length. flight.
    + by rewrite (total_perm _ (counted s)) by flight.
  - exists lostSlots, lostRecords. eapply room_work; try done; [| |lia].
    + f_equal. apply Permutation_length. flight.
    + rewrite (total_perm (counted (work _ _ _ _)) ((i, o) :: counted s)) by flight. rewrite total_cons. lia.
  - exists lostSlots, lostRecords. eapply room_work; try done; [|].
    + f_equal. apply Permutation_length. flight.
    + by rewrite (total_perm _ (counted s)) by flight.
  - exists (S lostSlots), (lostRecords + records o). eapply room_work; try done; [by right| | |congruence].
    + assert (held s ≡ₚ i :: held (work s (ws1 ++ BReturned :: ws2) (q_results s) (q_inFlight s))) as Hh by flight.
      rewrite Hh. cbn [length]. lia.
    + rewrite (total_perm (counted s) ((i, o) :: counted (work s (ws1 ++ BReturned :: ws2) (q_results s) (q_inFlight s)))) by flight.
      rewrite total_cons. lia.
  - exists lostSlots, lostRecords. eapply room_work; try done; [by left| |].
    + f_equal. apply Permutation_length. flight.
    + by rewrite (total_perm _ (counted s)) by flight.
  - exists lostSlots, lostRecords. eapply room_drain; try done; unfold committed_slot, committed_records, stopping; cbn; rewrite ?Hat; auto; lia.
  - exists lostSlots, lostRecords. eapply room_drain; try done; unfold committed_slot, committed_records, stopping; cbn; rewrite ?Hat; auto; lia.
  - exists lostSlots, lostRecords. by eapply room_receive.
  - exists lostSlots, lostRecords. eapply room_drain; try done; unfold committed_slot, committed_records, stopping; cbn; rewrite ?Hat; auto; try lia.
    left. split_and!; try done. left. lia.
  - exists lostSlots, lostRecords. eapply room_commit; eauto.
  - exists (S lostSlots), (lostRecords + records o). eapply room_commit; eauto.
  - exists lostSlots, lostRecords. destruct (Nat.ltb_spec 0 (records o)) as [Hpos|Hz]; room_idle; left; split_and!; try done;
      first [by right|left; lia].
  - exists lostSlots, lostRecords. room_idle.
  - exists lostSlots, lostRecords. room_idle. left. split_and!; try done. left. lia.
  - exists lostSlots, lostRecords. room_idle.
  - exists lostSlots, lostRecords. room_idle.
Qed.
Lemma room_interrupt s lostSlots lostRecords :
  room_inv s lostSlots lostRecords → room_inv (cancelled s (q_drain s)) lostSlots lostRecords.
Proof.
  intros [Hs Hr Hl Hw Hn Hret Hfull]. constructor; try done.
  intros Hin. cbn. destruct (Hret Hin); [by left|by right].
Qed.

(** The caller cancels before it waits. *)
Definition wait_inv s : Prop := stopped s → q_cancelled s = true.
Lemma wait_step s s' : wait_inv s → pool_step s s' → wait_inv s'.
Proof.
  unfold wait_inv, stopped. intros Hi Hs. destruct Hs; try exact Hi; try done; cbn;
    try (match goal with H : q_drain s = _ |- _ => rewrite H in Hi end; done).
  by destruct (records o).
Qed.

Definition pool_inv (b : bool) s : Prop :=
  (∃ os fed dropped, order_inv b s os fed dropped) ∧ (∃ lostSlots lostRecords, room_inv s lostSlots lostRecords) ∧ wait_inv s.
Lemma pool_inv_start : pool_inv false pool_start.
Proof. split_and!; [do 3 eexists; apply order_start|do 2 eexists; apply room_start|by intros []]. Qed.
Lemma pool_inv_step b s s' : pool_inv b s → pool_step s s' → pool_inv b s'.
Proof.
  intros ((os & fed & dropped & Hi) & (ls & lr & Hr) & Hw) Hs. split_and!; [by eapply order_step|by eapply room_step|by eapply wait_step].
Qed.
Lemma pool_inv_interrupt b s : pool_inv b s → pool_inv true (cancelled s (q_drain s)).
Proof.
  intros ((os & fed & dropped & Hi) & (ls & lr & Hr) & Hw).
  split_and!; [do 3 eexists; by eapply order_interrupt|do 2 eexists; by apply room_interrupt|by intros ?].
Qed.
Lemma runs_inv s : runs_to inputs workers maxInFlightRecords build late records commit ctx_err st0 s → pool_inv false s.
Proof.
  apply (rtc_ind_r (λ s, pool_inv false s)); [apply pool_inv_start|].
  intros s1 s2 _ Hs Hi. by eapply pool_inv_step.
Qed.
Lemma reach_inv s : may_reach inputs workers maxInFlightRecords build late records commit ctx_err st0 s → ∃ b, pool_inv b s.
Proof.
  apply (rtc_ind_r (λ s, ∃ b, pool_inv b s)); [exists false; apply pool_inv_start|].
  intros s1 s2 _ [? Hs|Hc] (b & Hi); [exists b; by eapply pool_inv_step|exists true; by eapply pool_inv_interrupt].
Qed.

(** ** The result of a run *)
Lemma done_built os : (∀ i o, os !! i = Some o → good false i o) → os = build <$> seq 0 (length os).
Proof.
  intros H. apply list_eq. intros i. rewrite list_lookup_fmap. destruct (os !! i) as [o|] eqn:Ho.
  - rewrite lookup_seq_lt by (by apply lookup_lt_Some in Ho). cbn. by destruct (H i o Ho) as [->|[? _]].
  - rewrite lookup_seq_ge by (by apply lookup_ge_None). done.
Qed.
Lemma returned_serial s :
  pool_inv false s → q_drain s = DReturned →
  (q_state s, q_err s) = processInputsSerial inputs build commit ctx_err (λ _, false) st0.
Proof.
  intros [(os & fed & dropped & Hi) _] Hat. pose proof (o_drain _ _ _ _ _ Hi) as Hd. pose proof (o_fed _ _ _ _ _ Hi) as Hf.
  unfold drain_inv in Hd. rewrite Hat in Hd. destruct Hd as [_ Hd].
  unfold processInputsSerial. rewrite serial_settle.
  pose proof (done_built os (o_done _ _ _ _ _ Hi)) as Hos.
  destruct (q_err s) as [e|].
  - destruct Hd as [Hd|(_ & ? & _)]; [|done]. rewrite Hos in Hd.
    replace inputs with (length os + (inputs - length os)) by lia. rewrite seq_app, fmap_app. symmetry. by apply settle_all_error.
  - destruct Hd as [Hd Hlen]. rewrite <- Hlen, <- Hos. done.
Qed.
Lemma committed_prefix b s :
  pool_inv b s → ∃ os, length os ≤ inputs ∧ (∀ i o, os !! i = Some o → good b i o) ∧ (settle_all os st0).1 = q_state s.
Proof.
  intros [(os & fed & dropped & Hi) _]. exists os. pose proof (o_fed _ _ _ _ _ Hi). split_and!; [lia|apply Hi|].
  pose proof (o_drain _ _ _ _ _ Hi) as Hd. unfold drain_inv in Hd.
  destruct (q_drain s); try (destruct Hd as (-> & _); done);
    destruct Hd as [_ Hd]; destruct (q_err s); [destruct Hd as [->|[-> _]]|destruct Hd as [-> _]| | | |]; try done;
    (destruct Hd as [->|[-> _]] || destruct Hd as [-> _]); done.
Qed.
Lemma in_flight_bounds b s :
  pool_inv b s → length (held s) ≤ window ∧ q_slots s ≤ window ∧
  (∀ i o, BSend i o ∈ q_workers s → length (q_results s) < window).
Proof.
  intros (_ & (ls & lr & Hr) & _). pose proof (r_slots _ _ _ Hr). pose proof (r_window _ _ _ Hr). split_and!; [lia|done|].
  intros i o Hin. assert (1 + length (q_results s) ≤ length (held s)); [|lia].
  unfold held. rewrite !length_app, length_fmap. apply list_elem_of_split in Hin as (l1 & l2 & ->).
  rewrite bind_app, length_app. cbn. lia.
Qed.

(** ** Progress *)
Lemma worker_split (ws : list (build_at O)) :
  Forall (λ w, w = BReturned) ws ∨
  (∃ ws1 w ws2, ws = ws1 ++ w :: ws2 ∧ w ≠ BReturned ∧ w ≠ BIdle) ∨
  (Forall (λ w, w = BReturned ∨ w = BIdle) ws ∧ ∃ ws1 ws2, ws = ws1 ++ BIdle :: ws2).
Proof.
  induction ws as [|w ws IH]; [by left|]. destruct w as [|i|i o|i o|].
  2-4: right; left; by eexists [], _, ws.
  - destruct IH as [Hall|[(ws1 & w & ws2 & -> & Hw)|[Hall _]]].
    + right. right. split; [|by exists [], ws]. constructor; [by right|]. eapply Forall_impl; [done|]. by left.
    + right. left. by exists (BIdle :: ws1), w, ws2.
    + right. right. split; [by constructor; [right|]|by exists [], ws].
  - destruct IH as [Hall|[(ws1 & w & ws2 & -> & Hw)|(Hall & ws1 & ws2 & ->)]].
    + left. by constructor.
    + right. left. by exists (BReturned :: ws1), w, ws2.
    + right. right. split; [by constructor; [left|]|by exists (BReturned :: ws1), ws2].
Qed.
Lemma busy_progress s ws1 w ws2 :
  q_workers s = ws1 ++ w :: ws2 → w ≠ BReturned → w ≠ BIdle →
  q_cancelled s = true ∨ length (q_results s) < window → ∃ s', pool_step s s'.
Proof.
  intros Hws H1 H2 Hs. destruct w as [|i|i o|i o|]; try done.
  - eexists. eapply work_build; [done|by left].
  - eexists. by eapply work_count.
  - destruct Hs; eexists; [by eapply work_drop|by eapply work_send].
Qed.
Lemma feeder_moves s i : q_feed s = FTop i → ∃ s', pool_step s s'.
Proof.
  intros Hat. destruct (decide (inputs ≤ i)); [eexists; by eapply feed_end|].
  destruct (Z.le_gt_cases maxInFlightRecords (q_inFlight s)); eexists; [eapply feed_full|eapply feed_room]; eauto; lia.
Qed.
Context (Hworkers : 0 < workers) (Hmax : (0 < maxInFlightRecords)%Z).

(** Nothing is in flight when no worker is busy and the next input is not there. *)
Lemma idle_empty b s os fed dropped :
  order_inv b s os fed dropped → q_cancelled s = false → q_drain s = DTop → q_results s = [] →
  Forall (λ w, w = BReturned ∨ w = BIdle) (q_workers s) →
  fed = q_next s ∧ held s = [] ∧ counted s = [].
Proof.
  intros Hi Hc Hat Hr Hws. pose proof (o_drain _ _ _ _ _ Hi) as Hd. unfold drain_inv in Hd. rewrite Hat in Hd.
  destruct Hd as (_ & _ & Hlen & Hp).
  assert (q_workers s ≫= w_id = [] ∧ q_workers s ≫= w_counted = []) as [H1 H2].
  { induction Hws as [|w ws [-> | ->] _ [IH1 IH2]]; done. }
  pose proof (o_held _ _ _ _ _ Hi) as Hh. rewrite (o_dropped _ _ _ _ _ Hi Hc), (right_id_L [] (++)) in Hh.
  assert (held s = (map_to_list (q_pending s)).*1) as Hheld by (unfold held; by rewrite H1, Hr).
  assert (fed = q_next s) as Hfed.
  { pose proof (o_fed _ _ _ _ _ Hi). destruct (decide (fed = q_next s)) as [|Hne]; [done|exfalso].
    assert (q_next s ∈ held s) as Hin by (rewrite Hh; apply elem_of_seq; lia).
    rewrite Hheld in Hin. apply list_elem_of_fmap in Hin as ([i o] & Heq & Hin). apply elem_of_map_to_list in Hin.
    cbn in *. congruence. }
  rewrite Hfed, Hlen, Nat.sub_diag in Hh. cbn in Hh. apply Permutation_nil_r in Hh. split_and!; [done|done|].
  unfold counted. rewrite H2, Hr. rewrite Hheld in Hh. by apply fmap_nil_inv in Hh.
Qed.
Lemma feeder_room b s os fed dropped lostSlots lostRecords ws1 ws2 :
  order_inv b s os fed dropped → room_inv s lostSlots lostRecords → q_cancelled s = false → q_drain s = DTop →
  q_next s < inputs → q_results s = [] → Forall (λ w, w = BReturned ∨ w = BIdle) (q_workers s) →
  q_workers s = ws1 ++ BIdle :: ws2 → ∃ s', pool_step s s'.
Proof.
  intros Hi Hroom Hc Hat Hlt Hr Hws Hidle. destruct (idle_empty _ _ _ _ _ Hi Hc Hat Hr Hws) as (Hfed & Hheld & Hcnt).
  assert (¬ stopping s) as Hst by (intros H; unfold stopping in H; by rewrite Hat in H).
  destruct (r_lost _ _ _ Hroom Hc Hst) as [-> ->].
  pose proof (r_slots _ _ _ Hroom) as Hs. pose proof (r_records _ _ _ Hroom) as Hrec.
  unfold committed_slot, committed_records, feed_slot_held in *. rewrite Hat, Hheld in Hs. rewrite Hat, Hcnt in Hrec.
  destruct (q_feed s) as [i|i|i|i|] eqn:Hf.
  - by eapply feeder_moves.
  - destruct (r_full _ _ _ Hroom i Hf) as [Hfr|[Hle|[?|?]]]; [eexists; by eapply feed_wake|..]; [|congruence|done].
    cbn in Hrec. lia.
  - eexists. eapply feed_slot; [done|]. unfold pool_window. cbn in Hs. lia.
  - eexists. by eapply feed_send.
  - pose proof (o_feed _ _ _ _ _ Hi) as Hfi. unfold feed_inv in Hfi. rewrite Hf in Hfi. destruct Hfi; [congruence|lia].
Qed.
Lemma top_progress b s : pool_inv b s → q_drain s = DTop → ∃ s', pool_step s s'.
Proof.
  intros ((os & fed & dropped & Hi) & (ls & lr & Hroom) & _) Hat.
  destruct (decide (inputs ≤ q_next s)); [eexists; by eapply drain_end|].
  destruct (q_cancelled s) eqn:Hc; [eexists; eapply drain_done; [done|lia|done]|].
  destruct (q_results s) as [|[i o] rest] eqn:Hr; [|eexists; eapply drain_receive; [done|lia|done]].
  destruct (worker_split (q_workers s)) as [Hall|[(ws1 & w & ws2 & Hws & Hw1 & Hw2)|(Hall & ws1 & ws2 & Hws)]].
  - exfalso. destruct (idle_empty _ _ _ _ _ Hi Hc Hat Hr) as (Hfed & _ & _).
    { eapply Forall_impl; [done|]. by left. }
    destruct (r_returned _ _ _ Hroom) as [Hf|?]; [| |congruence].
    + pose proof (r_workers _ _ _ Hroom) as Hn. destruct Hall; [cbn in Hn; lia|subst; left].
    + pose proof (o_feed _ _ _ _ _ Hi) as Hfi. unfold feed_inv in Hfi. rewrite Hf in Hfi. destruct Hfi; [congruence|lia].
  - eapply busy_progress; [done..|]. right. rewrite Hr. unfold pool_window. cbn. lia.
  - eapply feeder_room; try done. lia.
Qed.
Lemma wait_progress b s : pool_inv b s → q_drain s = DWait → ∃ s', pool_step s s'.
Proof.
  intros (_ & (ls & lr & Hroom) & Hc) Hat. unfold wait_inv, stopped in Hc. rewrite Hat in Hc. specialize (Hc I).
  destruct (worker_split (q_workers s)) as [Hall|[(ws1 & w & ws2 & Hws & Hw1 & Hw2)|(Hall & ws1 & ws2 & Hws)]].
  - eexists. by eapply drain_wait.
  - eapply busy_progress; [done..|]. by left.
  - destruct (q_feed s) as [i|i|i|i|] eqn:Hf; [by eapply feeder_moves|..]; eexists.
    + eapply (feed_done _ _ _ _ _ _ _ _ s i); [by left|done].
    + eapply (feed_done _ _ _ _ _ _ _ _ s i); [by right; left|done].
    + eapply (feed_done _ _ _ _ _ _ _ _ s i); [by right; right|done].
    + by eapply work_end.
Qed.

Lemma pool_progress b s : pool_inv b s → q_drain s ≠ DReturned → ∃ s', pool_step s s'.
Proof.
  intros Hi Hne. destruct (q_drain s) as [| |o| | | | |] eqn:Hat; [..|done].
  - by eapply top_progress.
  - destruct (q_pending s !! q_next s) as [o|] eqn:Hp; [|eexists; by eapply drain_none].
    destruct (commit o (q_state s)) as [st [e|]] eqn:Hcm; eexists; [by eapply drain_fail|by eapply drain_commit].
  - eexists. by eapply drain_release.
  - eexists. by eapply drain_signal.
  - eexists. eapply drain_slot; [done|]. destruct Hi as (_ & (ls & lr & Hroom) & _).
    pose proof (r_slots _ _ _ Hroom) as Hs. unfold committed_slot in Hs. rewrite Hat in Hs. lia.
  - eexists. by eapply drain_cancel.
  - by eapply wait_progress.
Qed.

(** ** Termination *)
Definition feed_weight (at_ : feed_at) : nat :=
  match at_ with
  | FTop i => 30 * (inputs - i) + 6
  | FFull i => 30 * (inputs - i) + 5
  | FSlot i => 30 * (inputs - i) + 4
  | FSend i => 30 * (inputs - i) + 2
  | FReturned => 0
  end.
Definition build_weight (w : build_at O) : nat :=
  match w with BIdle => 1 | BBuild _ => 16 | BCount _ _ => 15 | BSend _ _ => 14 | BReturned => 0 end.
Definition drain_weight (at_ : drain_at O) : nat :=
  match at_ with
  | DTop => 4 | DNext => 6 | DRelease _ => 11 | DSignal => 10 | DSlot => 7 | DStop => 2 | DWait => 1 | DReturned => 0
  end.
Definition pool_weight s : nat :=
  feed_weight (q_feed s) + sum_list_with build_weight (q_workers s) + 11 * length (q_results s) + 8 * size (q_pending s)
  + q_slots s + (if q_freed s then 2 else 0) + drain_weight (q_drain s) + (if q_cancelled s then 0 else 1).
Lemma pool_step_weight b s s' : pool_inv b s → pool_step s s' → pool_weight s' < pool_weight s.
Proof.
  intros ((os & fed & dropped & Hi) & _) Hstep. pose proof (o_feed _ _ _ _ _ Hi) as Hf. unfold feed_inv in Hf. clear Hi.
  assert (∀ (m : gmap nat O) i o, size (<[i:=o]> m) ≤ S (size m)) as Hins.
  { intros m i o. rewrite map_size_insert. destruct (m !! i); cbn; lia. }
  assert (∀ (m : gmap nat O) i o, m !! i = Some o → S (size (delete i m)) = size m) as Hdel.
  { intros m i o Hm. rewrite map_size_delete_Some by done.
    assert (size m ≠ 0); [|lia]. apply map_size_non_empty_iff. intros He. by rewrite He, lookup_empty in Hm. }
  destruct Hstep as [i Hat Hle|i Hat Hlt Hfull|i Hat Hfr|i Hat Hlt Hrm|i Hat Hsl|i ws1 ws2 Hat Hws|i Hat Hc
    |ws1 ws2 i o Hws Ho|ws1 ws2 i o Hws|ws1 ws2 i o Hws Hl|ws1 ws2 i o Hws Hc|ws1 ws2 Hws Hret
    |Hat Hle|Hat Hlt Hc|i o rest Hat Hlt Hr|Hat Hp|o st Hat Hp Hcm|o st e Hat Hp Hcm|o Hat|Hat|Hat Hsl|Hat|Hat Hall];
    try (match goal with |- context [if ?c then release _ _ _ _ _ _ else _] => destruct c end); unfold pool_weight;
    cbn [feed work drain settle release cancelled q_feed q_workers q_results q_slots q_freed q_inFlight q_pending q_next q_drain
         q_state q_err q_cancelled];
    try rewrite Hws; rewrite ?sum_list_with_app, ?length_app; cbn [sum_list_with length build_weight];
    try (destruct Hat as [Hat|[Hat|Hat]]); rewrite ?Hat, ?Hfr, ?Hr in *; cbn [feed_weight drain_weight length]; try lia.
  - specialize (Hins (q_pending s) i o). lia.
  - apply Hdel in Hp. lia.
  - apply Hdel in Hp. lia.
Qed.
Lemma interrupt_weight s : q_cancelled s = false → pool_weight (cancelled s (q_drain s)) < pool_weight s.
Proof. intros Hc. unfold pool_weight. cbn. rewrite Hc. lia. Qed.
Lemma pool_ends b s : pool_inv b s → sn pool_move s.
Proof.
  revert b. induction s as [s IH] using (Nat.measure_induction _ pool_weight). intros b Hi. constructor. intros s' Hs.
  destruct Hs as [s' Hs|Hc].
  - eapply IH; [by eapply pool_step_weight|by eapply pool_inv_step].
  - eapply IH; [by apply interrupt_weight|by eapply pool_inv_interrupt].
Qed.
(** Left to itself the pool gets there. *)
Lemma pool_finishes b s : pool_inv b s → ∃ s', rtc pool_step s s' ∧ q_drain s' = DReturned.
Proof.
  revert b. induction s as [s IH] using (Nat.measure_induction _ pool_weight). intros b Hi.
  assert (q_drain s = DReturned ∨ q_drain s ≠ DReturned) as [Hd|Hd] by (destruct (q_drain s); (by left) || (by right)); [by exists s|].
  destruct (pool_progress b s Hi Hd) as [s1 Hs]. destruct (IH s1) with (b := b) as (s2 & H2 & Hd2).
  - by eapply pool_step_weight.
  - by eapply pool_inv_step.
  - exists s2. split; [by eapply rtc_l|done].
Qed.
Local Notation may_reach := (may_reach inputs workers maxInFlightRecords build late records commit ctx_err st0).
(** Where the caller is, its outcomes come one by one and in input order. *)
Lemma ended_prefix b s :
  pool_inv b s → q_drain s = DReturned →
  ∃ os, length os ≤ inputs ∧ (∀ i o, os !! i = Some o → o = build i ∨ late i o) ∧
    (settle_all os st0 = (q_state s, q_err s) ∧ (q_err s = None → length os = inputs) ∨
     settle_all os st0 = (q_state s, None) ∧ q_err s = Some ctx_err).
Proof.
  clear Hworkers Hmax. intros [(os & fed & dropped & Hi) _] Hat. exists os. pose proof (o_fed _ _ _ _ _ Hi).
  pose proof (o_drain _ _ _ _ _ Hi) as Hd. unfold drain_inv in Hd. rewrite Hat in Hd. destruct Hd as [_ Hd].
  split; [lia|]. split.
  { intros i o Ho. destruct (o_done _ _ _ _ _ Hi i o Ho) as [|[_ ?]]; [by left|by right]. }
  destruct (q_err s) as [e|]; [|by left; destruct Hd].
  destruct Hd as [Hd|(Hd & _ & ->)]; [by left|by right].
Qed.

(** C11: however the pool is scheduled, and whenever its context is done, the state is
    that of committing outcomes one by one in input order, the [i]th built from
    the [i]th input; a pool that has returned stopped at the first error, after
    the last input, or because the context was done. *)
Theorem pool_in_order s :
  may_reach s →
  ∃ os, length os ≤ inputs ∧ (∀ i o, os !! i = Some o → o = build i ∨ late i o) ∧
    (settle_all os st0).1 = q_state s ∧
    (q_drain s = DReturned →
     settle_all os st0 = (q_state s, q_err s) ∧ (q_err s = None → length os = inputs) ∨
     settle_all os st0 = (q_state s, None) ∧ q_err s = Some ctx_err).
Proof.
  intros [b Hi]%reach_inv. assert (q_drain s = DReturned ∨ q_drain s ≠ DReturned) as [Hd|Hd] by (destruct (q_drain s); (by left) || (by right)).
  - destruct (ended_prefix b s Hi Hd) as (os & H1 & H2 & H3). exists os. split_and!; [done..| |done].
    by destruct H3 as [[-> _]|[-> _]].
  - destruct (committed_prefix b s Hi) as (os & H1 & H2 & H3). exists os. split_and!; [done| |done|done].
    intros i o Ho. destruct (H2 i o Ho) as [|[_ ?]]; [by left|by right].
Qed.
(** C12: the pool always returns: it is never stuck before it has, whatever the
    schedule and the context, and no schedule goes on for ever. *)
Theorem pool_returns s : may_reach s → (q_drain s = DReturned ∨ ∃ s', pool_step s s') ∧ sn pool_move s.
Proof.
  intros [b Hi]%reach_inv. split; [|by eapply pool_ends].
  assert (q_drain s = DReturned ∨ q_drain s ≠ DReturned) as [Hd|Hd] by (destruct (q_drain s); (by left) || (by right)); [by left|].
  right. by eapply pool_progress.
Qed.
(** No more than the window of inputs is between the feeder and the commit, in
    whatever schedule; a finished outcome always has room in the result channel. *)
Theorem pool_window_bounds s :
  may_reach s →
  length (held s) ≤ window ∧ q_slots s ≤ window ∧ (∀ i o, BSend i o ∈ q_workers s → length (q_results s) < window).
Proof. intros [b Hi]%reach_inv. by eapply in_flight_bounds. Qed.
End spec.
