(* ===== verification/Provenance.v ===== *)
(** * The provenance manifest's own logic (internal/provenance/manifest.go)

    What a manifest may show of the host and of the command line, and how it
    accounts for its inputs: [SanitizePath] strips local roots, the argv
    sanitizers redact secrets, paths and internal parameters,
    [SetInputAccounting] counts a gap-free inventory. At the end: the value of a
    secret setting has no influence on the arguments written. *)
From Stdlib Require Import Ascii ZArith Lia.
From stdpp Require Import base list strings gmap sets.
From S2P Require Import Prelude GoStrings GoValue GoPath RefSource DurableFs ProvRoot.

(** [strings.Cut(s, "=")] *)
Fixpoint cut_eq (s : string) : option (string * string) :=
  match s with
  | "" => None
  | String c t => if c =c? "="%char then Some ("", t)
                  else match cut_eq t with Some (k, v) => Some (String c k, v) | None => None end
  end.
Definition Base (p : string) : string :=
  let c := Clean p in if c =s? "/" then "/" else base_part c.

(** The directories of the host. *)
Class HostDirs := { host_Home : option string; host_TempDir : string }.

Section manifest.
Context `{UC : UnicodeCase, UP : UriParser, FS : FileSystem, HD : HostDirs}.

(** ** Paths *)
Definition sanitizeRoots (roots : list string) : list string :=
  omap (λ r, if r =s? "" then None else Clean <$> Abs r) roots ++
  match fs_Getwd with Some wd => [Clean wd] | None => [] end ++
  match host_Home with Some home => [Clean home] | None => [] end ++ [Clean host_TempDir].
Definition below_root (clean root : string) : option string :=
  rel ← Rel root clean;
  if (rel =s? ".") || has_prefix "../" rel || (rel =s? "..") then None else Some rel.
Fixpoint first_below (clean : string) (roots : list string) : option string :=
  match roots with
  | [] => None
  | root :: roots => match below_root clean root with Some rel => Some rel | None => first_below clean roots end
  end.
Definition SanitizePath (candidate : string) (roots : list string) : string :=
  let candidate := trim_space candidate in
  if candidate =s? "" then ""
  else if scontains "://" candidate && negb (has_prefix "file://" candidate) then candidate
  else
    let clean := Clean candidate in
    if negb (IsAbs clean) then clean
    else match first_below clean (sanitizeRoots roots) with Some rel => rel | None => Base clean end.

(** ** The command line *)
Definition trim_dashes (s : string) : string := strim_left_byte "-" s.
Definition flag_name (key : string) : string := to_lower (trim_dashes (trim_space key)).
Definition secret_markers : list string := ["token"; "secret"; "password"; "passwd"; "apikey"; "api-key"; "credential"].
Definition isSecretKey (key : string) : bool := existsb (λ m, scontains m (flag_name key)) secret_markers.
Definition isProvenanceRootFlag (key : string) : bool := flag_name key =s? "provenance-root".
Definition isParameterFlag (key : string) : bool := flag_name key =s? "parameter".
Definition isParameterInternalFlag (key : string) : bool := flag_name key =s? "parameter-internal".

Definition sanitizeValue (value : string) (roots : list string) : string :=
  if scontains_byte slash value || IsAbs value then SanitizePath value roots else value.
Definition sanitizeParameterValue (value : string) (internal : list string) (roots : list string) : string :=
  match cut_eq value with
  | None => sanitizeValue value roots
  | Some (k, v) =>
      let k := trim_space k in
      if isSecretKey k then k +:+ "=<redacted>"
      else if bool_decide (k ∈ internal) then k +:+ "=<internal>"
      else k +:+ "=" +:+ sanitizeValue v roots
  end.
Definition sanitizeInternalParameterValue (value : string) : string :=
  match cut_eq value with
  | None => "<internal>"
  | Some (k, _) => let k := trim_space k in if k =s? "" then "<internal>" else k +:+ "=<internal>"
  end.
(** One argument, and whether the next one is its value: the loop's body. *)
Fixpoint sanitizeArgv (args internal roots : list string) : list string :=
  match args with
  | [] => []
  | arg0 :: rest =>
      let arg := trim_space arg0 in
      if arg =s? "" then sanitizeArgv rest internal roots
      else
        match cut_eq arg with
        | Some (key, value) =>
            (if isProvenanceRootFlag key then key +:+ "=<set>"
             else if isSecretKey key then key +:+ "=<redacted>"
             else if isParameterInternalFlag key then key +:+ "=" +:+ sanitizeInternalParameterValue value
             else if isParameterFlag key then key +:+ "=" +:+ sanitizeParameterValue value internal roots
             else key +:+ "=" +:+ sanitizeValue value roots) :: sanitizeArgv rest internal roots
        | None =>
            match rest with
            | [] => [arg]
            | next :: rest' =>
                if isProvenanceRootFlag arg then (arg +:+ "=<set>") :: sanitizeArgv rest' internal roots
                else if isParameterInternalFlag arg then
                  arg :: sanitizeInternalParameterValue (trim_space next) :: sanitizeArgv rest' internal roots
                else if isParameterFlag arg then
                  arg :: sanitizeParameterValue (trim_space next) internal roots :: sanitizeArgv rest' internal roots
                else if isSecretKey arg then arg :: "<redacted>" :: sanitizeArgv rest' internal roots
                else arg :: sanitizeArgv rest internal roots
            end
        end
  end.
Definition parameterSet (keys : list string) : list string := filter (λ k, k ≠ "") (trim_space <$> keys).
Definition SanitizeArgvWithInternalParameters (args internalParameters roots : list string) : list string :=
  sanitizeArgv args (parameterSet internalParameters) roots.

(** Under a provenance root, local inputs lose even their names. *)
Definition isRootInputFlag (key : string) : bool :=
  let key := trim_space key in
  has_prefix "-" key && existsb (String.eqb (flag_name key)) ["files"; "file-list"; "input-path"].
Definition redactRootInputReference (value : string) : string :=
  if value =s? "" then value else if is_cloud_ref value then value else "<input>".
Definition redactRootInputValue (flag value : string) : string :=
  if flag_name flag =s? "files" then
    sjoin "," ((λ part, redactRootInputReference (trim_space part)) <$> ssplit_byte ","%char value)
  else if flag_name flag =s? "input-path" then redactRootInputReference value
  else "<input-list>".
Fixpoint redactRootInputArgv (args : list string) : list string :=
  match args with
  | [] => []
  | arg0 :: rest =>
      let arg := trim_space arg0 in
      if arg =s? "" then redactRootInputArgv rest
      else
        match cut_eq arg with
        | Some (key, value) =>
            if isRootInputFlag key then (key +:+ "=" +:+ redactRootInputValue key value) :: redactRootInputArgv rest
            else if isRootInputFlag arg then
              match rest with
              | next :: rest' => arg :: redactRootInputValue arg (trim_space next) :: redactRootInputArgv rest'
              | [] => [arg]
              end
            else arg :: redactRootInputArgv rest
        | None =>
            match rest with
            | next :: rest' =>
                if isRootInputFlag arg then arg :: redactRootInputValue arg (trim_space next) :: redactRootInputArgv rest'
                else arg :: redactRootInputArgv rest
            | [] => [arg]
            end
        end
  end.
Definition SanitizeArgvForRootWithInternalParameters (args internalParameters roots : list string) : list string :=
  sanitizeArgv (redactRootInputArgv args) (parameterSet internalParameters) roots.

(** ** Inputs *)
Record Input := {
  in_Path : string; in_CredentialsHandle : string; in_SHA256 : string; in_SizeBytes : Z; in_RecordType : string;
  in_Disposition : string; in_DispositionReason : string; in_DispositionDetail : string; in_RecordCount : option nat;
}.
Definition BuildInputLedgerHashed (logicalURI sha256 : string) (sizeBytes : Z) (credentialsHandle : string)
    (roots : list string) : result Input :=
  if trim_space sha256 =s? "" then errorf "input digest is required for %s" [AStr logicalURI]
  else Ok {|
    in_Path := SanitizePath logicalURI roots;
    in_CredentialsHandle := if negb (credentialsHandle =s? "") && is_cloud_ref logicalURI then credentialsHandle else "";
    in_SHA256 := sha256; in_SizeBytes := sizeBytes; in_RecordType := ""; in_Disposition := "";
    in_DispositionReason := ""; in_DispositionDetail := ""; in_RecordCount := None |}.
(** [hash path]: the digest and size of the file, or the error of reading it. *)
Definition BuildInputLedger (hash : string → result (string * Z)) (localPath logicalURI credentialsHandle : string)
    (roots : list string) : result Input :=
  h ← wrapf "stat input %s: %w" [AStr logicalURI] (hash localPath);
  BuildInputLedgerHashed logicalURI h.1 h.2 credentialsHandle roots.

(** The counts of [SetInputAccounting]: total, applied, not applicable, failed. *)
Record accounting := { ac_total : nat; ac_applied : nat; ac_notApplicable : nat; ac_failed : nat }.
Fixpoint account_inputs (i : nat) (l : list Input) (a : accounting) : result accounting :=
  match l with
  | [] => Ok a
  | x :: l =>
      if in_Disposition x =s? "applied" then
        account_inputs (S i) l {| ac_total := ac_total a; ac_applied := S (ac_applied a);
          ac_notApplicable := ac_notApplicable a; ac_failed := ac_failed a |}
      else if in_Disposition x =s? "not_applicable" then
        account_inputs (S i) l {| ac_total := ac_total a; ac_applied := ac_applied a;
          ac_notApplicable := S (ac_notApplicable a); ac_failed := ac_failed a |}
      else if in_Disposition x =s? "failed" then
        account_inputs (S i) l {| ac_total := ac_total a; ac_applied := ac_applied a;
          ac_notApplicable := ac_notApplicable a; ac_failed := S (ac_failed a) |}
      else errorf "input %d (%s): cannot compute input accounting for unaccounted disposition %q"
             [AInt (Z.of_nat (S i)); AStr (in_Path x); AStr (in_Disposition x)]
  end.
Definition SetInputAccounting (inputs : list Input) : result accounting :=
  account_inputs 0 inputs {| ac_total := length inputs; ac_applied := 0; ac_notApplicable := 0; ac_failed := 0 |}.
End manifest.

(** ** Arguments as shown *)

Lemma cut_eq_byte s : cut_eq s = None ↔ scontains_byte "="%char s = false.
Proof.
  induction s as [|c s IH]; [done|]. cbn. destruct (c =c? "="%char); [done|]. cbn. rewrite <- IH. by destruct (cut_eq s) as [[]|].
Qed.
Lemma trim_keeps_setting k v : is_Some (cut_eq (trim_space (k +:+ "=" +:+ v))).
Proof.
  apply not_eq_None_Some. rewrite cut_eq_byte, trim_keeps_byte, !scontains_app.
  - cbn. by rewrite orb_true_r.
  - intros b. split_and!; [done|done|]. unfold space2. by rewrite andb_false_r.
  - intros a b. unfold space3. cbn. rewrite ?andb_false_r. done.
Qed.

Section argv.
Context `{UC : UnicodeCase, UP : UriParser, FS : FileSystem, HD : HostDirs}.

(** The arguments as a user means them: one by itself, [k=v] among them; a flag
    whose value is hidden or may be, with its value in the next argument; an
    input flag with its value. *)
Inductive argument := ArgPlain (w : string) | ArgSetting (flag value : string) | ArgInput (flag value : string).
Implicit Types (x y : argument) (f k v w : string) (l : list argument).
Definition words x : list string :=
  match x with ArgPlain w => [w] | ArgSetting f v | ArgInput f v => [f; v] end.
(** The flags for which the sanitizer takes the next argument along. *)
Definition takes_next f : bool :=
  isProvenanceRootFlag f || isParameterInternalFlag f || isParameterFlag f || isSecretKey f.
Definition stands_alone w : Prop := cut_eq (trim_space w) = None → takes_next (trim_space w) = false.
(** The sanitizer sees the same pairs of flag and value: no other argument is
    one that it takes for a flag with a value. *)
Definition paired x : Prop :=
  match x with
  | ArgPlain w => stands_alone w
  | ArgSetting f v => trim_space f ≠ "" ∧ cut_eq (trim_space f) = None ∧ takes_next (trim_space f) = true
  | ArgInput f v => stands_alone f ∧ stands_alone v
  end.
(** Under a provenance root the values of input flags go first: only the input
    flags are read as such, and what is left of their values is no flag. *)
Definition root_paired x : Prop :=
  match x with
  | ArgPlain w => isRootInputFlag (trim_space w) = false
  | ArgSetting f v =>
      trim_space v ≠ "" ∧ isRootInputFlag (trim_space v) = false
      ∧ match cut_eq (trim_space v) with Some (k, _) => isRootInputFlag k = false | None => True end
  | ArgInput f v =>
      trim_space f ≠ "" ∧ cut_eq (trim_space f) = None ∧ isRootInputFlag (trim_space f) = true
      ∧ stands_alone (redactRootInputValue (trim_space f) (trim_space v))
  end.

(** Values of one flag that the manifest must not tell apart: of the root flag,
    of a flag with a secret name, of an internal parameter, and of a parameter
    with a secret or internal name. *)
Definition hidden (internal : list string) f v v' : Prop :=
  isProvenanceRootFlag f = true ∨ isSecretKey f = true
  ∨ (isParameterInternalFlag f = true ∧ fst <$> cut_eq v = fst <$> cut_eq v')
  ∨ (isParameterFlag f = true ∧ ∃ k u u', cut_eq v = Some (k, u) ∧ cut_eq v' = Some (k, u')
     ∧ (isSecretKey (trim_space k) = true ∨ trim_space k ∈ parameterSet internal)).
Inductive same_but_secrets (internal : list string) : argument → argument → Prop :=
| same_argument x : same_but_secrets internal x x
| same_joined w w' k v v' : cut_eq (trim_space w) = Some (k, v) → cut_eq (trim_space w') = Some (k, v') →
    hidden internal k v v' → same_but_secrets internal (ArgPlain w) (ArgPlain w')
| same_split f v v' : hidden internal (trim_space f) (trim_space v) (trim_space v') →
    same_but_secrets internal (ArgSetting f v) (ArgSetting f v').

(** *** What is written of an argument *)
Section shown.
Context (internal roots : list string).
Definition shown_joined k v : string :=
  if isProvenanceRootFlag k then k +:+ "=<set>"
  else if isSecretKey k then k +:+ "=<redacted>"
  else if isParameterInternalFlag k then k +:+ "=" +:+ sanitizeInternalParameterValue v
  else if isParameterFlag k then k +:+ "=" +:+ sanitizeParameterValue v internal roots
  else k +:+ "=" +:+ sanitizeValue v roots.
Definition shown_plain w : list string :=
  if trim_space w =s? "" then []
  else match cut_eq (trim_space w) with Some (k, v) => [shown_joined k v] | None => [trim_space w] end.
Definition shown_setting f v : list string :=
  if isProvenanceRootFlag f then [f +:+ "=<set>"]
  else if isParameterInternalFlag f then [f; sanitizeInternalParameterValue v]
  else if isParameterFlag f then [f; sanitizeParameterValue v internal roots]
  else [f; "<redacted>"].
Definition shown x : list string :=
  match x with
  | ArgPlain w => shown_plain w
  | ArgSetting f v => shown_setting (trim_space f) (trim_space v)
  | ArgInput f v => shown_plain f ++ shown_plain v
  end.
Lemma sanitize_plain w rest : stands_alone w →
  sanitizeArgv (w :: rest) internal roots = shown_plain w ++ sanitizeArgv rest internal roots.
Proof.
  unfold stands_alone, shown_plain, takes_next. cbn [sanitizeArgv]. destruct (trim_space w =s? ""); [done|].
  destruct (cut_eq (trim_space w)) as [[k v]|]; [done|]. intros [[[H1 H2]%orb_false_iff H3]%orb_false_iff H4]%orb_false_iff; [|done].
  destruct rest as [|next rest]; [done|]. by rewrite H1, H2, H3, H4.
Qed.
Lemma sanitize_setting f v rest : paired (ArgSetting f v) →
  sanitizeArgv (f :: v :: rest) internal roots = shown_setting (trim_space f) (trim_space v) ++ sanitizeArgv rest internal roots.
Proof.
  intros (Hf & Hc & Ht). unfold shown_setting, takes_next in *. cbn [sanitizeArgv]. rewrite (proj2 (String.eqb_neq _ _) Hf), Hc.
  destruct (isProvenanceRootFlag _); [done|]. destruct (isParameterInternalFlag _); [done|]. destruct (isParameterFlag _); [done|].
  cbn [orb] in Ht. by rewrite Ht.
Qed.
Lemma sanitize_words l : Forall paired l → sanitizeArgv (l ≫= words) internal roots = l ≫= shown.
Proof.
  induction 1 as [|x l Hx _ IH]; [done|]. rewrite !bind_cons. destruct x as [w|f v|f v]; cbn [words shown app].
  - by rewrite sanitize_plain, IH.
  - by rewrite sanitize_setting, IH.
  - destruct Hx. by rewrite sanitize_plain, sanitize_plain, IH, app_assoc.
Qed.
End shown.

Lemma flag_name_trim k : flag_name (trim_space k) = flag_name k.
Proof. unfold flag_name. by rewrite trim_space_twice. Qed.
(** A secret name is none of the parameter flags, and neither is an input flag. *)
Lemma secret_not_parameter f : isSecretKey f = true → isParameterInternalFlag f = false ∧ isParameterFlag f = false.
Proof.
  unfold isSecretKey, isParameterInternalFlag, isParameterFlag. intros H.
  split; apply String.eqb_neq; intros E; rewrite E in H; by vm_compute in H.
Qed.
Lemma takes_next_not_input f : takes_next f = true → isRootInputFlag f = false.
Proof.
  intros H. apply not_true_iff_false. unfold isRootInputFlag. intros [_ (n & Hn & E%String.eqb_eq)%existsb_exists]%andb_true_iff.
  rewrite flag_name_trim in E.
  unfold takes_next, isProvenanceRootFlag, isParameterInternalFlag, isParameterFlag, isSecretKey in H. rewrite E in H.
  destruct Hn as [<-|[<-|[<-|[]]]]; by vm_compute in H.
Qed.

(** *** What is written does not tell hidden values apart *)
Section unseen.
Context (internal0 roots : list string).
Local Notation internal := (parameterSet internal0).
Lemma internal_value_key v v' : fst <$> cut_eq v = fst <$> cut_eq v' → sanitizeInternalParameterValue v = sanitizeInternalParameterValue v'.
Proof. unfold sanitizeInternalParameterValue. destruct (cut_eq v) as [[]|], (cut_eq v') as [[]|]; naive_solver. Qed.
Lemma parameter_value_hidden v v' k u u' : cut_eq v = Some (k, u) → cut_eq v' = Some (k, u') →
  isSecretKey (trim_space k) = true ∨ trim_space k ∈ internal →
  sanitizeParameterValue v internal roots = sanitizeParameterValue v' internal roots.
Proof.
  intros Hv Hv' H. unfold sanitizeParameterValue. rewrite Hv, Hv'. destruct (isSecretKey _); [done|].
  destruct H as [H|H]; [done|]. by rewrite bool_decide_eq_true_2.
Qed.
Lemma hidden_joined k v v' : hidden internal0 k v v' → shown_joined internal roots k v = shown_joined internal roots k v'.
Proof.
  unfold hidden, shown_joined. destruct (isProvenanceRootFlag k); [done|]. destruct (isSecretKey k); [done|].
  intros [?|[?|[[-> H]|(Hp & q & u & u' & H1 & H2 & H3)]]]; [done|done|..].
  - by rewrite (internal_value_key v v' H).
  - rewrite (internal_value_key v v'), (parameter_value_hidden v v' q u u') by (done || by rewrite H1, H2).
    by rewrite Hp.
Qed.
Lemma hidden_setting f v v' : hidden internal0 f v v' → shown_setting internal roots f v = shown_setting internal roots f v'.
Proof.
  unfold hidden, shown_setting. destruct (isProvenanceRootFlag f); [done|].
  intros [?|[H|[[-> H]|(Hp & q & u & u' & H1 & H2 & H3)]]]; [done|..].
  - by destruct (secret_not_parameter f H) as [-> ->].
  - by rewrite (internal_value_key v v' H).
  - rewrite (internal_value_key v v'), (parameter_value_hidden v v' q u u'), Hp by (done || by rewrite H1, H2). done.
Qed.
Lemma same_shown x y : same_but_secrets internal0 x y → shown internal roots x = shown internal roots y.
Proof.
  destruct 1 as [x|w w' k v v' Hw Hw' H|f v v' H]; [done|..]; cbn [shown].
  - unfold shown_plain. rewrite Hw, Hw', (hidden_joined k v v' H).
    assert (∀ t u, cut_eq t = Some u → (t =s? "") = false) as Hne by (by intros []).
    by rewrite (Hne _ _ Hw), (Hne _ _ Hw').
  - by apply hidden_setting.
Qed.
Lemma sanitize_same l l' : Forall paired l → Forall paired l' → Forall2 (same_but_secrets internal0) l l' →
  sanitizeArgv (l ≫= words) internal roots = sanitizeArgv (l' ≫= words) internal roots.
Proof.
  intros Hl Hl' H. rewrite !sanitize_words by done. clear Hl Hl'. induction H as [|x y l l' Hxy _ IH]; [done|].
  rewrite !bind_cons, IH. by rewrite (same_shown x y Hxy).
Qed.
End unseen.

(** *** Under a provenance root *)
Definition redacted x : list argument :=
  match x with
  | ArgPlain w =>
      if trim_space w =s? "" then []
      else match cut_eq (trim_space w) with
           | Some (k, v) => [ArgPlain (if isRootInputFlag k then k +:+ "=" +:+ redactRootInputValue k v else trim_space w)]
           | None => [ArgPlain (trim_space w)]
           end
  | ArgSetting f v => [ArgSetting (trim_space f) (trim_space v)]
  | ArgInput f v => [ArgInput (trim_space f) (redactRootInputValue (trim_space f) (trim_space v))]
  end.
Lemma redact_plain w rest : isRootInputFlag (trim_space w) = false →
  redactRootInputArgv (w :: rest) = (redacted (ArgPlain w) ≫= words) ++ redactRootInputArgv rest.
Proof.
  intros H. unfold redacted. cbn [redactRootInputArgv]. destruct (trim_space w =s? ""); [done|].
  destruct (cut_eq (trim_space w)) as [[k v]|]; [destruct (isRootInputFlag k); [done|]|]; rewrite H; [done|]. by destruct rest.
Qed.
Lemma redact_setting f v rest : paired (ArgSetting f v) → root_paired (ArgSetting f v) →
  redactRootInputArgv (f :: v :: rest) = trim_space f :: trim_space v :: redactRootInputArgv rest.
Proof.
  intros (Hf & Hc & Ht) (Hv & Hin & Hk). cbn [redactRootInputArgv]. rewrite (proj2 (String.eqb_neq _ _) Hf), Hc.
  rewrite (takes_next_not_input _ Ht), (proj2 (String.eqb_neq _ _) Hv), Hin. f_equal.
  destruct (cut_eq (trim_space v)) as [[k u]|]; [by rewrite Hk|]. by destruct rest.
Qed.
Lemma redact_words l : Forall paired l → Forall root_paired l →
  redactRootInputArgv (l ≫= words) = (l ≫= redacted) ≫= words.
Proof.
  intros Hp Hr. induction l as [|x l IH]; [done|]. apply Forall_cons in Hp as [Hp Hps], Hr as [Hr Hrs].
  rewrite !bind_cons, bind_app, <- IH by done. destruct x as [w|f v|f v]; cbn [words app].
  - by rewrite redact_plain.
  - by rewrite redact_setting.
  - destruct Hr as (Hf & Hc & Hin & _). cbn [redactRootInputArgv]. by rewrite (proj2 (String.eqb_neq _ _) Hf), Hc, Hin.
Qed.
Lemma redacted_paired x : paired x → root_paired x → Forall paired (redacted x).
Proof.
  destruct x as [w|f v|f v]; cbn [paired root_paired redacted]; unfold stands_alone.
  - intros Hw _. destruct (trim_space w =s? ""); [constructor|]. destruct (cut_eq (trim_space w)) as [[k v]|] eqn:Hc; apply Forall_singleton;
      cbn [paired]; unfold stands_alone.
    + destruct (isRootInputFlag k); [|by rewrite trim_space_twice, Hc].
      destruct (trim_keeps_setting k (redactRootInputValue k v)) as [u ->]. done.
    + rewrite trim_space_twice. intros _. by apply Hw.
  - intros (H1 & H2 & H3) _. apply Forall_singleton. cbn [paired]. by rewrite trim_space_twice.
  - intros [H1 _] (_ & _ & _ & H2). apply Forall_singleton. cbn [paired]. unfold stands_alone. by rewrite trim_space_twice.
Qed.
Lemma hidden_takes_next internal k v v' : hidden internal k v v' → takes_next k = true.
Proof. unfold hidden, takes_next. intros [->|[->|[[-> _]|[-> _]]]]; rewrite ?orb_true_r; done. Qed.
Lemma redacted_same internal x y : same_but_secrets internal x y → Forall2 (same_but_secrets internal) (redacted x) (redacted y).
Proof.
  destruct 1 as [x|w w' k v v' Hw Hw' H|f v v' H].
  - induction (redacted x); constructor; [constructor|done].
  - cbn [redacted]. assert (∀ t u, cut_eq t = Some u → (t =s? "") = false) as Hne by (by intros []).
    rewrite (Hne _ _ Hw), (Hne _ _ Hw'), Hw, Hw', (takes_next_not_input k) by by eapply hidden_takes_next.
    constructor; [|constructor]. apply (same_joined _ _ _ k v v'); by rewrite ?trim_space_twice.
  - constructor; [|constructor]. constructor. by rewrite !trim_space_twice.
Qed.
Lemma redact_same internal l l' : Forall2 (same_but_secrets internal) l l' →
  Forall2 (same_but_secrets internal) (l ≫= redacted) (l' ≫= redacted).
Proof. induction 1 as [|x y l l' Hxy _ IH]; [constructor|]. rewrite !bind_cons. apply Forall2_app; [by apply redacted_same|done]. Qed.
Lemma redact_paired l : Forall paired l → Forall root_paired l → Forall paired (l ≫= redacted).
Proof.
  intros Hp Hr. induction l as [|x l IH]; [constructor|]. apply Forall_cons in Hp as [Hp Hps], Hr as [Hr Hrs].
  rewrite bind_cons. apply Forall_app. split; [by apply redacted_paired|by apply IH].
Qed.

(** C36: what the manifest writes of a command line does not depend on the value
    of the root flag, of a flag with a secret name, of an internal parameter, or
    of a parameter with a secret or internal name, given as [flag=value] or as
    two arguments: two command lines that differ in such values only are written
    alike, and so they are under a provenance root. The arguments are paired as
    the sanitizer pairs them - none but these flags is one that it takes for a
    flag with a value, see [swallowed_flag_shows_secret]. *)
Theorem secret_values_hidden internal roots l l' :
  Forall paired l → Forall paired l' → Forall2 (same_but_secrets internal) l l' →
  SanitizeArgvWithInternalParameters (l ≫= words) internal roots = SanitizeArgvWithInternalParameters (l' ≫= words) internal roots
  ∧ (Forall root_paired l → Forall root_paired l' →
     SanitizeArgvForRootWithInternalParameters (l ≫= words) internal roots
     = SanitizeArgvForRootWithInternalParameters (l' ≫= words) internal roots).
Proof.
  intros Hl Hl' H. split; [by apply sanitize_same|]. intros Hr Hr'. unfold SanitizeArgvForRootWithInternalParameters.
  rewrite !redact_words by done. apply sanitize_same; [by apply redact_paired..|by apply redact_same].
Qed.
End argv.
