(* ===== verification/OutputDirs.v ===== *)
(** * The output directory of each recipe
    (cmd/sumpter/commands/extract_multi.go)

    A recipe's id is its directory below the output root. Ids are portable names,
    no two of which differ only by case; a directory that is there must be a
    real one. *)
From Stdlib Require Import Ascii ZArith Lia.
From stdpp Require Import base list strings gmap.
From S2P Require Import Prelude GoStrings GoStrconv GoValue GoPath DurableFs DurableFsSpec ProvRoot Provenance.

Section dirs.
Context `{UC : UnicodeCase, UP : UriParser}.

(** [recipeSlugPattern]: a letter or digit, then letters, digits, dot, underscore
    and hyphen. *)
Definition slug_first (c : ascii) : bool := in_range 65 90 (bcode c) || in_range 97 122 (bcode c) || in_range 48 57 (bcode c).
Definition slug_rest (c : ascii) : bool := slug_first c || (c =c? ".") || (c =c? "_") || (c =c? "-").
Definition recipeSlugPattern (s : string) : bool :=
  match s with "" => false | String c s => slug_first c && sforall slug_rest s end.
Definition slug_pattern_text : string := "^[A-Za-z0-9][A-Za-z0-9._-]*$".

Definition deriveRecipeOutputSlug (id : string) : result string :=
  if trim_space id =s? "" then errorf "recipe id is empty; cannot derive an output subdirectory" []
  else if negb (id =s? trim_space id) then
    errorf "recipe id %q has leading or trailing whitespace; it must be a clean slug so the output subdirectory maps 1:1 to the recipe identity"
      [AStr id]
  else if negb (recipeSlugPattern id) then
    errorf "recipe id %q is not usable as an output subdirectory name (allowed: %s); rename the recipe id so extract-multi can write <output-root>/<id>/ safely"
      [AStr id; AStr slug_pattern_text]
  else if scontains_byte slash id || scontains_byte "\"%char id || negb (id =s? Base id) then
    errorf "recipe id %q does not resolve to a single output path component" [AStr id]
  else Ok id.

Fixpoint strim_right_byte (c : ascii) (s : string) : string :=
  match s with
  | "" => ""
  | String x s => let s := strim_right_byte c s in if (s =s? "") && (x =c? c) then "" else String x s
  end.
Definition outputRefJoin (base name : string) : string :=
  if is_cloud_ref base then strim_right_byte "/" base +:+ "/" +:+ name else Join base name.

(** [os.Lstat]. *)
Inductive lstat_result := LstatMissing | LstatSymlink | LstatDir | LstatOther | LstatError (e : gerror).
Context (Lstat : string → lstat_result).
Record recipeOutputDir := { od_RecipeID : string; od_Slug : string; od_Dir : string }.

Definition local_output_dir (cleanRoot id slug : string) : result string :=
  let dir := Join cleanRoot slug in
  let escapes := match Rel cleanRoot dir with None => true | Some rel => (rel =s? "..") || has_prefix "../" rel end in
  if escapes then errorf "recipe %q output subdirectory %q escapes the output root" [AStr id; AStr slug]
  else match Lstat dir with
       | LstatMissing | LstatDir => Ok dir
       | LstatSymlink => errorf "recipe %q output subdirectory %q already exists as a symlink; refusing to write through it (extract-multi requires a real, recipe-owned output directory)" [AStr id; AStr slug]
       | LstatOther => errorf "recipe %q output subdirectory %q already exists but is not a directory; extract-multi requires a real, recipe-owned output directory" [AStr id; AStr slug]
       | LstatError e => errorf "recipe %q output subdirectory %q: %w" [AStr id; AStr slug; AErr e]
       end.
(** The loop: [seen] maps a lower-case slug to the recipe that took it. *)
Fixpoint output_dirs (outputRoot : string) (seen : gmap string string) (ids : list string) : result (list recipeOutputDir) :=
  match ids with
  | [] => Ok []
  | id :: ids =>
      slug ← deriveRecipeOutputSlug id;
      match seen !! to_lower slug with
      | Some prev =>
          errorf "recipes %q and %q derive output subdirectories that collide (names are compared case-insensitively for filesystem safety); extract-multi requires a distinct output subdirectory per recipe"
            [AStr prev; AStr id]
      | None =>
          dir ← (if is_cloud_ref outputRoot then Ok (outputRefJoin outputRoot slug)
                 else local_output_dir (Clean outputRoot) id slug);
          rest ← output_dirs outputRoot (<[to_lower slug := id]> seen) ids;
          Ok ({| od_RecipeID := id; od_Slug := slug; od_Dir := dir |} :: rest)
      end
  end.
Definition resolveRecipeOutputDirs (outputRoot : string) (ids : list string) : result (list recipeOutputDir) :=
  if trim_space outputRoot =s? "" then errorf "extract-multi requires an output root (--output-path)" []
  else match ids with
       | [] => errorf "extract-multi requires at least one recipe" []
       | _ => output_dirs outputRoot ∅ ids
       end.

(** ** Containment *)
Lemma slug_plain id slug : deriveRecipeOutputSlug id = Ok slug → slug = id ∧ file_name id.
Proof.
  unfold deriveRecipeOutputSlug. destruct (trim_space id =s? ""); [done|]. destruct (negb _); [done|].
  destruct (recipeSlugPattern id) eqn:Hp; [|done]. cbn [negb]. destruct (scontains_byte slash id) eqn:Hs; [done|].
  cbn [orb]. destruct (scontains_byte _ id || _); [done|]. intros [= <-]. split; [done|].
  unfold file_name, plain. rewrite Hs. cbn [negb andb]. destruct id as [|c id]; [done|].
  cbn in Hp. apply andb_true_iff in Hp as [Hc _].
  assert (c ≠ "."%char) as Hdot by (intros ->; by vm_compute in Hc).
  split; [|by intros [= -> _]]. apply negb_true_iff, orb_false_iff. split; [done|].
  apply String.eqb_neq. by intros [= -> _].
Qed.
Lemma local_dir_spec root id slug dir :
  local_output_dir root id slug = Ok dir → dir = Join root slug ∧ (Lstat dir = LstatMissing ∨ Lstat dir = LstatDir).
Proof.
  unfold local_output_dir. destruct (match Rel root _ with Some _ => _ | None => _ end); [done|].
  destruct (Lstat (Join root slug)) eqn:Hl; intros [=]; subst; auto.
Qed.
Definition folded (ds : list recipeOutputDir) : list string := (λ d, to_lower (od_Slug d)) <$> ds.
Lemma output_dirs_spec root seen ids ds :
  is_cloud_ref root = false → output_dirs root seen ids = Ok ds →
  od_RecipeID <$> ds = ids ∧ NoDup (folded ds) ∧ (∀ k, k ∈ folded ds → seen !! k = None) ∧
  Forall (λ d, od_Slug d = od_RecipeID d ∧ file_name (od_Slug d) ∧ od_Dir d = Join (Clean root) (od_Slug d)
               ∧ (Lstat (od_Dir d) = LstatMissing ∨ Lstat (od_Dir d) = LstatDir)) ds.
Proof.
  intros Hroot. revert seen ds. induction ids as [|id ids IH]; intros seen ds; cbn [output_dirs].
  { intros [= <-]. split_and!; [done|constructor|by intros k ?%elem_of_nil|constructor]. }
  intros (slug & Hslug & H)%res_bind_ok. destruct (seen !! to_lower slug) as [prev|] eqn:Hseen; [done|].
  rewrite Hroot in H. apply res_bind_ok in H as (dir & Hdir & H). apply res_bind_ok in H as (rest & Hrest & [= <-]).
  apply slug_plain in Hslug as [-> Hname]. apply local_dir_spec in Hdir as [-> Hl]. apply IH in Hrest as (Hids & Hnd & Hfresh & Hall).
  cbn [fmap list_fmap folded od_RecipeID od_Slug]. split_and!.
  - by rewrite Hids.
  - constructor; [|done]. intros Hin. specialize (Hfresh _ Hin). by rewrite lookup_insert_eq in Hfresh.
  - intros k [->|Hin]%elem_of_cons; [done|]. specialize (Hfresh _ Hin).
    destruct (decide (k = to_lower id)) as [->|Hne]; [by rewrite lookup_insert_eq in Hfresh|]. by rewrite lookup_insert_ne in Hfresh.
  - by constructor.
Qed.

(** C34: under a local root, the directories that are accepted lie directly below it,
    one per recipe under the recipe's own id; no two share a directory, not even
    where names are compared without case, and none is a link or a file. *)
Theorem output_dirs_contained root ids ds :
  is_cloud_ref root = false → resolveRecipeOutputDirs root ids = Ok ds →
  od_RecipeID <$> ds = ids ∧ NoDup (folded ds) ∧ NoDup (od_Dir <$> ds) ∧
  ∀ d, d ∈ ds → Dir (od_Dir d) = Clean root ∧ base_part (od_Dir d) = od_RecipeID d ∧
                (Lstat (od_Dir d) = LstatMissing ∨ Lstat (od_Dir d) = LstatDir).
Proof.
  intros Hroot. unfold resolveRecipeOutputDirs. destruct (trim_space root =s? ""); [done|]. destruct ids as [|id ids]; [done|].
  intros H. apply output_dirs_spec in H as (H1 & H2 & _ & H3); [|done]. split_and!; [done|done| |].
  - clear H1. induction H3 as [|d ds (_ & Hn & Hd & _) H3 IH]; [constructor|]. apply NoDup_cons in H2 as [Hnin H2].
    cbn. constructor; [|by apply IH]. intros (d' & E & Hin)%list_elem_of_fmap. apply Hnin. apply list_elem_of_fmap. exists d'.
    rewrite Forall_forall in H3. destruct (H3 d' Hin) as (_ & Hn' & Hd' & _). rewrite Hd, Hd' in E.
    apply Join_inj in E; [|by apply Clean_nonempty|done|done]. by rewrite E.
  - intros d Hin. rewrite Forall_forall in H3. destruct (H3 d Hin) as (<- & Hn & Hd & Hl).
    destruct (Dir_Join (Clean root) (od_Slug d) (Clean_nonempty root) Hn) as [E1 E2]. rewrite Hd at 1 2. rewrite E1, E2, Clean_idem. done.
Qed.
End dirs.
