(* ===== verification/JsonTarget.v ===== *)
(** * One output file per input (cmd/sumpter/commands/extract.go:
    jsonOutputTarget; internal/extract/sink.go: JSONLRecordSink)

    The records of an input go to a temporary file beside the output, opened at
    the first record or at the file's boundary; [Commit] renames it over the
    output, [Abort] removes it. Without an output path they go to the standard
    output. For a cloud destination the output is a staging file, which
    [publish] sends on. *)
From Stdlib Require Import Ascii ZArith Lia.
From stdpp Require Import base list strings gmap sets.
From S2P Require Import Prelude GoStrings GoStrconv GoValue GoPath DurableFs Provenance.

(** The file's name for an input: the input's own name in the pattern. *)
Definition outputFileForFormat (outputPath : string) (patterns : gmap string string) (pattern format inputFile : string) : string :=
  let get k := default "" (patterns !! k) in
  let pattern :=
    if bool_decide (patterns = ∅) then pattern
    else if negb (get format =s? "") then get format
    else if format =s? "json" then
      if negb (get "json" =s? "") then get "json"
      else if negb (get "ndjson" =s? "") then get "ndjson" else pattern
    else pattern in
  let pattern := if pattern =s? "" then "extract-{}.json" else pattern in
  Join outputPath (sreplace_all "{}" (Base inputFile) pattern).

Record target {P : Type} := mkTarget {
  t_temp : string;
  t_file : option nat;
  t_sink : bool;            (* the sink is there *)
  t_sinkClosed : bool;
  t_closed : bool;
  t_count : nat;            (* records the sink has written *)
  t_stdout : string;        (* what went to the standard output *)
  t_profile : P;
}.
Arguments target P : clear implicits.

Definition errJSONOutput : gerror := Errorf "json output failure" [].

Section target.
Context {P : Type} (vp_begin vp_commit vp_discard : P → P) (vp_stage : P → string → P).
Context (fault : nat → option nat) (pick : fsys → nat).
(** The local path and its name for messages; none of it on the standard output. *)
Context (stdout : bool) (outputFile logical : string).
(** The check of the complete file before it is published; the upload. *)
Context (validate publish : io (target P) ()).
Local Notation tio := (io (target P)).

Definition newJSONOutputTarget (profile : P) : target P := mkTarget P "" None stdout false false 0 "" profile.
Definition wrapJSONOutputError {A} (message : string) (m : tio A) : tio A := λ w,
  let '(w, r) := m w in
  (w, match r with Ok a => Ok a | Err e => Err (Errorf "%w: %s: %w" [AErr errJSONOutput; AStr message; AErr e]) end).

Definition t_opened (f : nat) (temp : string) (t : target P) : target P :=
  mkTarget P temp (Some f) true false (t_closed t) (t_count t) (t_stdout t) (t_profile t).
Definition t_ensureOpen : tio () :=
  t ← own;
  if t_sink (t : target P) then mret ()
  else
    let outputDir := Dir outputFile in
    _ ← io_wrap "create output directory %s: %w" [AStr outputDir] (os_MkdirAll fault outputDir);
    r ← io_wrap "create temporary output for %s: %w" [AStr logical]
          (os_CreateTemp fault pick outputDir ("." +:+ Base outputFile +:+ ".") ".tmp");
    set_own (t_opened (r : nat * string).1 r.2).

(** *** The sink *)
Definition counted_record (data : string) (t : target P) : target P :=
  mkTarget P (t_temp t) (t_file t) (t_sink t) (t_sinkClosed t) (t_closed t) (S (t_count t))
    (match t_file t with Some _ => t_stdout t | None => t_stdout t +:+ data end) (t_profile t).
Definition WriteMarshaled (data : string) : tio () :=
  t ← own;
  if t_sinkClosed (t : target P) then fail (Errorf "jsonl record sink is closed" [])
  else
    _ ← io_wrap "write jsonl record: %w" [] (match t_file t with Some f => os_Write fault f data | None => look fault (λ _, Ok ()) end);
    set_own (counted_record data).
Definition staged (data : string) (t : target P) : target P :=
  mkTarget P (t_temp t) (t_file t) (t_sink t) (t_sinkClosed t) (t_closed t) (t_count t) (t_stdout t) (vp_stage (t_profile t) data).
Definition profiled (f : P → P) (t : target P) : target P :=
  mkTarget P (t_temp t) (t_file t) (t_sink t) (t_sinkClosed t) (t_closed t) (t_count t) (t_stdout t) (f (t_profile t)).

(** *** The target; [ctx]: [ctx.Err()] *)
Definition t_writeMarshaled (data : string) : tio () :=
  _ ← wrapJSONOutputError "open output" t_ensureOpen;
  _ ← wrapJSONOutputError "write output record" (WriteMarshaled data);
  set_own (staged data).
(** [OnRecord]: the record is staged for the profile before it is written;
    encoding it gives [data]. *)
Definition t_OnRecord (ctx : option gerror) (data : string) : tio () :=
  _ ← wrapJSONOutputError "open output" t_ensureOpen;
  _ ← set_own (staged data);
  wrapJSONOutputError "write output record" (match ctx with Some e => fail e | None => WriteMarshaled data end).
Definition t_OnFileBoundary (ctx : option gerror) (failed : bool) : tio () :=
  match ctx with
  | Some e => wrapJSONOutputError "check output boundary context" (fail e)
  | None => if failed || stdout then mret () else wrapJSONOutputError "open output at file boundary" t_ensureOpen
  end.
Definition sink_closed (t : target P) : target P :=
  mkTarget P (t_temp t) (t_file t) (t_sink t) (t_sink t) (t_closed t) (t_count t) (t_stdout t) (t_profile t).
Definition set_closed (t : target P) : target P :=
  mkTarget P (t_temp t) (t_file t) (t_sink t) (t_sinkClosed t) true (t_count t) (t_stdout t) (t_profile t).
Definition t_Close (ctx : option gerror) : tio () :=
  t ← own;
  if t_closed (t : target P) then mret ()
  else
    _ ← set_own set_closed;
    _ ← (if t_sink t then
           match ctx with
           | Some e => wrapJSONOutputError "close output sink" (fail e)
           | None => set_own sink_closed
           end
         else mret ());
    match t_file t with
    | Some _ => wrapJSONOutputError "close output file" (os_Close fault)
    | None => mret ()
    end.
Definition remove_temp : tio () :=
  t ← own; _ ← attempt (os_Remove fault (t_temp (t : target P))); mret ().
Definition t_Commit : tio () :=
  if stdout then mret ()
  else
    t ← own;
    _ ← (if t_sink (t : target P) then mret () else wrapJSONOutputError "open output before commit" t_ensureOpen);
    t ← own;
    _ ← (if t_closed (t : target P) then mret ()
         else r ← attempt (t_Close None);
              match r : result () with Ok _ => mret () | Err e => _ ← remove_temp; fail e end);
    t ← own;
    r ← attempt (os_Rename fault (t_temp (t : target P)) outputFile);
    match r : result () with
    | Err e => _ ← remove_temp; wrapJSONOutputError ("commit output " +:+ logical) (fail e)
    | Ok _ =>
        _ ← validate;
        wrapJSONOutputError ("publish output " +:+ logical) publish
    end.
Definition t_Abort : tio () :=
  _ ← set_own (profiled vp_discard);
  if stdout then mret ()
  else
    _ ← attempt (t_Close None);
    t ← own;
    if t_temp (t : target P) =s? "" then mret () else remove_temp.
Definition t_Count (t : target P) : nat := if t_sink t then t_count t else 0.
End target.
