(* ===== verification/Ledger.v ===== *)
(** * What a run records of its inputs (cmd/sumpter/commands: extract.go,
    extract_aggregate.go, input_availability.go, file_list_verify.go,
    extract_multi_bundle.go)

    The dispositions, the failures, the inputs and outputs of the manifest and
    the counts by record type, with every step that adds to them: one input
    applied, one input failed. Texts are shown after the provenance root and
    the local roots were taken out of them. At the end, how the counters of one
    input agree with each other. *)
From Stdlib Require Import Ascii ZArith Lia.
From stdpp Require Import base list strings gmap sets.
From S2P Require Import Prelude GoStrings GoFloat GoStrconv GoValue GoPath RefSource DslTypes DurableFs ProvRoot Provenance Extract ExtractPrepare ExtractFile ExtractStream.

(** ** Wire values *)
Definition disposition_text (d : Disposition) : string :=
  match d with
  | DispositionNone => "" | DispositionApplied => "applied" | DispositionNotApplicable => "not_applicable"
  | DispositionFailed => "failed"
  end.
Definition reason_text (r : DispositionReason) : string :=
  match r with
  | NoReason => "" | ApplicabilityPredicateFalse => "applicability_predicate_false"
  | SignatureMismatch => "signature_mismatch" | MinOccurrencesViolation => "min_occurrences_violation"
  | ParseErrorReason => "parse_error" | ValidationErrorReason => "validation_error"
  | InternalErrorReason => "internal_error" | RouteUnsupported => "route_unsupported"
  | InputUnavailable => "input_unavailable"
  end.
#[export] Instance disposition_eq_dec : EqDecision Disposition.
Proof. solve_decision. Defined.
#[export] Instance reason_eq_dec : EqDecision DispositionReason.
Proof. solve_decision. Defined.

(** ** Unavailable inputs (input_availability.go) *)
Definition unavailableClass (e : gerror) : option string :=
  if errors_Is "file does not exist" e || errors_Is "uriio: object not found" e then Some "not found"
  else if errors_Is "permission denied" e || errors_Is "uriio: object access denied" e then Some "permission denied"
  else None.
(** [inputUnavailableError]: its text names the input and the class. *)
Definition unavailable_error (display class : string) (e : gerror) : gerror :=
  says ("input unavailable: " +:+ display +:+ ": " +:+ class) e.
(** [routedExtractError]: a reason of its own, found by [errors.As]. *)
Definition routed (r : DispositionReason) (message : string) : gerror :=
  says message (Errorf ("routed: " +:+ reason_text r) []).
Definition routed_reasons : list DispositionReason :=
  [ApplicabilityPredicateFalse; SignatureMismatch; MinOccurrencesViolation; ParseErrorReason; ValidationErrorReason;
   InternalErrorReason; RouteUnsupported; InputUnavailable].
Definition routed_reason (e : gerror) : option DispositionReason :=
  match filter (λ r, errors_Is ("routed: " +:+ reason_text r) e = true) routed_reasons with r :: _ => Some r | [] => None end.

Section ledger.
Context `{UC : UnicodeCase, UP : UriParser, FS : FileSystem, HD : HostDirs, ET : ErrorText, EN : Engine}.

Definition detail_text (d : detail) : string :=
  match d with NoDetail => "" | DetailText s => s | DetailError e => error_text e end.
Definition failureDetail (reason : DispositionReason) (e : option gerror) : string :=
  match e with
  | None => ""
  | Some e =>
      match (if bool_decide (reason = InputUnavailable) then unavailableClass e else None) with
      | Some class => "input unavailable: " +:+ class
      | None => error_text e
      end
  end.
Definition applyInputUnavailable (res : ExtractResult) : ExtractResult :=
  match res_Error res with
  | Some e =>
      match unavailableClass e with
      | Some _ => set_disposition res DispositionFailed InputUnavailable (DetailText (failureDetail InputUnavailable (Some e)))
      | None => res
      end
  | None => res
  end.
Definition fail_fast_error (display : string) (raw shown_as : gerror) : gerror :=
  match unavailableClass raw with
  | Some class => unavailable_error display class raw
  | None => Errorf "failed to process file %s: %w" [AStr display; AErr shown_as]
  end.
Definition recoverableFailureResult (file logicalURI : string) (e : gerror) (reason : DispositionReason) : ExtractResult := {|
  res_File := file; res_LogicalURI := if logicalURI =s? "" then file else logicalURI;
  res_Records := []; res_Error := Some e; res_PerSelectorCounts := None; res_PerSelectorCountsComplete := false;
  res_SignatureMatchStatus := SignatureMatchUnknown; res_SignatureConfidence := fzero;
  res_Disposition := DispositionFailed; res_DispositionReason := reason; res_DispositionDetail := DetailText (error_text e) |}.
Definition unavailableInputResult (file logical : string) (e : gerror) : ExtractResult :=
  let res := recoverableFailureResult file logical e InputUnavailable in
  set_disposition res (res_Disposition res) (res_DispositionReason res) (DetailText (failureDetail InputUnavailable (Some e))).
Definition failureReasonForError (e : option gerror) : DispositionReason :=
  match e with
  | None => NoReason
  | Some e =>
      match routed_reason e with
      | Some r => r
      | None =>
          if errors_Is (gerror_format ErrRouteUnsupported) e then RouteUnsupported
          else match unavailableClass e with
          | Some _ => InputUnavailable
          | None =>
              let text := error_text e in
              let has s := scontains s text in
              if has "failed to parse XML" || has "failed to parse JSON" || has "failed to parse NDJSON" || has "XML syntax error"
              then ParseErrorReason
              else if has "signature mismatch" then SignatureMismatch
              else if has "min_occurrences violation" then MinOccurrencesViolation
              else if has "validation" || has "required" || has "collides" then ValidationErrorReason
              else NoReason
          end
      end
  end.

(** ** Floors *)
Definition hasDeclaredMinOccurrences (cfg : ExtractRecordMatch) : bool :=
  existsb (λ s, (0 <? ms_MinOccurrences s)%Z) (em_MatchSelectors cfg).
Fixpoint first_floor_miss (recipeID sourceFile : string) (i : nat) (selectors : list MatchSelector) (counts : list nat)
    (countsComplete : bool) : option gerror :=
  match selectors with
  | [] => None
  | s :: selectors =>
      let next := first_floor_miss recipeID sourceFile (S i) selectors (tail counts) countsComplete in
      if (ms_MinOccurrences s <=? 0)%Z then next
      else
        let miss actual :=
          if (Z.of_nat actual <? ms_MinOccurrences s)%Z then
            Some (routed MinOccurrencesViolation
              ("min_occurrences violation: recipe " +:+ quote recipeID +:+ " selector " +:+ itoa (Z.of_nat i) +:+ " (xpath="
               +:+ quote (ms_XPath s) +:+ ") declared min_occurrences=" +:+ itoa (ms_MinOccurrences s)
               +:+ " but extraction yielded " +:+ itoa (Z.of_nat actual) +:+ " matches against source " +:+ quote sourceFile))
          else next in
        match counts with
        | n :: _ => miss n
        | [] => if countsComplete then miss 0 else next
        end
  end.
(** [show_float]: [%.3f]. *)
Definition enforceMinOccurrences (show_float : f64 → string) (recipeID : string) (cfg : ExtractRecordMatch) (sig : FileSignature)
    (sourceFile : string) (res : ExtractResult) : option gerror :=
  match res_SignatureMatchStatus res, hasDeclaredMinOccurrences cfg with
  | SignatureMatchMismatched, true =>
      Some (routed SignatureMismatch
        ("signature mismatch: recipe " +:+ quote recipeID +:+ " signature predicate did not match source " +:+ quote sourceFile
         +:+ " (confidence=" +:+ show_float (res_SignatureConfidence res) +:+ " below threshold="
         +:+ show_float (fg_ConfidenceThreshold sig) +:+ ")"))
  | _, _ =>
      first_floor_miss recipeID sourceFile 0 (em_MatchSelectors cfg) (default [] (res_PerSelectorCounts res))
        (res_PerSelectorCountsComplete res)
  end.

(** ** The files beside the output *)
Record dispositionSummaryRow := { dr_File : string; dr_Disposition : string; dr_Reason : string; dr_Detail : string }.
Record dispositionSummaryFile := {
  ds_CohortSize : nat; ds_Applied : nat; ds_NotApplicable : nat; ds_Failed : nat; ds_Files : list dispositionSummaryRow;
}.
Definition newDispositionSummary (cohortSize : nat) : dispositionSummaryFile :=
  {| ds_CohortSize := cohortSize; ds_Applied := 0; ds_NotApplicable := 0; ds_Failed := 0; ds_Files := [] |}.
Fixpoint replace_roots (roots all : list string) (text : string) : string :=
  match roots with
  | [] => text
  | root :: roots =>
      replace_roots roots all
        (if trim_space root =s? "" then text
         else match Abs root with
              | Some abs => let clean := Clean abs in sreplace_all clean (SanitizePath clean all) text
              | None => text
              end)
  end.
Definition sanitizeDispositionText (text : string) (roots : list string) : string :=
  let text := trim_space text in
  if text =s? "" then "" else replace_roots roots roots text.
Definition ds_add (s : dispositionSummaryFile) (res : ExtractResult) (roots : list string) : dispositionSummaryFile :=
  match res_Disposition res with
  | DispositionNone => s
  | d => {|
      ds_CohortSize := ds_CohortSize s;
      ds_Applied := (if bool_decide (d = DispositionApplied) then 1 else 0) + ds_Applied s;
      ds_NotApplicable := (if bool_decide (d = DispositionNotApplicable) then 1 else 0) + ds_NotApplicable s;
      ds_Failed := (if bool_decide (d = DispositionFailed) then 1 else 0) + ds_Failed s;
      ds_Files := ds_Files s ++ [{| dr_File := SanitizePath (res_LogicalURI res) roots; dr_Disposition := disposition_text d;
        dr_Reason := reason_text (res_DispositionReason res);
        dr_Detail := sanitizeDispositionText (detail_text (res_DispositionDetail res)) roots |}] |}
  end.

Record extractFailureManifestRow := { fr_File : string; fr_Reason : string; fr_Detail : string }.
Record extractFailureManifestFile := {
  fm_CohortSize : nat; fm_Applied : nat; fm_Failed : nat; fm_Failures : list extractFailureManifestRow;
}.
Definition newExtractFailureManifest (cohortSize : nat) : extractFailureManifestFile :=
  {| fm_CohortSize := cohortSize; fm_Applied := 0; fm_Failed := 0; fm_Failures := [] |}.
Definition fm_addApplied (m : extractFailureManifestFile) : extractFailureManifestFile :=
  {| fm_CohortSize := fm_CohortSize m; fm_Applied := S (fm_Applied m); fm_Failed := fm_Failed m; fm_Failures := fm_Failures m |}.
Definition fm_add (m : extractFailureManifestFile) (file : string) (reason : DispositionReason) (text : string) (roots : list string)
    : extractFailureManifestFile := {|
  fm_CohortSize := fm_CohortSize m; fm_Applied := fm_Applied m; fm_Failed := S (fm_Failed m);
  fm_Failures := fm_Failures m ++ [{| fr_File := SanitizePath file roots;
    fr_Reason := reason_text (if bool_decide (reason = NoReason) then InternalErrorReason else reason);
    fr_Detail := sanitizeDispositionText text roots |}] |}.

(** ** The ledgers of one recipe *)
Record ledger_options := {
  lo_root : root_options;
  lo_ContinueOnError : bool;
  lo_EmitInputIdentity : bool;
  lo_manifestEnabled : bool;
  lo_handle : string;            (* resolvedInputHandle *)
  lo_RecordType : string;
  lo_sanitizeRoots : list string;
}.
Record ledgers := {
  lg_inputs : list Input;
  lg_outputs : list (string * nat);      (* path and record count *)
  lg_counts : gmap string nat;           (* by record type *)
  lg_dispositions : dispositionSummaryFile;
  lg_failures : extractFailureManifestFile;
  lg_dispositionErr : option gerror;
}.
Definition new_ledgers (fileCount : nat) : ledgers := {|
  lg_inputs := []; lg_outputs := []; lg_counts := ∅; lg_dispositions := newDispositionSummary fileCount;
  lg_failures := newExtractFailureManifest fileCount; lg_dispositionErr := None |}.
Definition add_input (i : Input) (l : ledgers) : ledgers := {|
  lg_inputs := lg_inputs l ++ [i]; lg_outputs := lg_outputs l; lg_counts := lg_counts l; lg_dispositions := lg_dispositions l;
  lg_failures := lg_failures l; lg_dispositionErr := lg_dispositionErr l |}.
Definition add_output (path : string) (n : nat) (l : ledgers) : ledgers := {|
  lg_inputs := lg_inputs l; lg_outputs := lg_outputs l ++ [(path, n)]; lg_counts := lg_counts l;
  lg_dispositions := lg_dispositions l; lg_failures := lg_failures l; lg_dispositionErr := lg_dispositionErr l |}.
Definition add_count (ty : string) (n : nat) (l : ledgers) : ledgers := {|
  lg_inputs := lg_inputs l; lg_outputs := lg_outputs l; lg_counts := <[ty := default 0 (lg_counts l !! ty) + n]> (lg_counts l);
  lg_dispositions := lg_dispositions l; lg_failures := lg_failures l; lg_dispositionErr := lg_dispositionErr l |}.
Definition set_dispositions (d : dispositionSummaryFile) (l : ledgers) : ledgers := {|
  lg_inputs := lg_inputs l; lg_outputs := lg_outputs l; lg_counts := lg_counts l; lg_dispositions := d;
  lg_failures := lg_failures l; lg_dispositionErr := lg_dispositionErr l |}.
Definition set_failures (m : extractFailureManifestFile) (l : ledgers) : ledgers := {|
  lg_inputs := lg_inputs l; lg_outputs := lg_outputs l; lg_counts := lg_counts l; lg_dispositions := lg_dispositions l;
  lg_failures := m; lg_dispositionErr := lg_dispositionErr l |}.
Definition set_dispositionErr (e : gerror) (l : ledgers) : ledgers := {|
  lg_inputs := lg_inputs l; lg_outputs := lg_outputs l; lg_counts := lg_counts l; lg_dispositions := lg_dispositions l;
  lg_failures := lg_failures l; lg_dispositionErr := Some e |}.

Definition applyInputDisposition (i : Input) (res : ExtractResult) (roots : list string) : Input :=
  match res_Disposition res with
  | DispositionNone => i
  | d => {| in_Path := in_Path i; in_CredentialsHandle := in_CredentialsHandle i; in_SHA256 := in_SHA256 i;
      in_SizeBytes := in_SizeBytes i; in_RecordType := in_RecordType i; in_Disposition := disposition_text d;
      in_DispositionReason := reason_text (res_DispositionReason res);
      in_DispositionDetail := sanitizeDispositionText (detail_text (res_DispositionDetail res)) roots;
      in_RecordCount := in_RecordCount i |}
  end.
(** The record type, and the count and a disposition where the mode asks for them. *)
Definition describe_input (i : Input) (path recordType : string) (count : option nat) : Input := {|
  in_Path := path; in_CredentialsHandle := in_CredentialsHandle i; in_SHA256 := in_SHA256 i; in_SizeBytes := in_SizeBytes i;
  in_RecordType := recordType; in_Disposition := in_Disposition i; in_DispositionReason := in_DispositionReason i;
  in_DispositionDetail := in_DispositionDetail i; in_RecordCount := count |}.
Definition default_disposition (d : Disposition) (i : Input) : Input :=
  if in_Disposition i =s? "" then
    {| in_Path := in_Path i; in_CredentialsHandle := in_CredentialsHandle i; in_SHA256 := in_SHA256 i;
       in_SizeBytes := in_SizeBytes i; in_RecordType := in_RecordType i; in_Disposition := disposition_text d;
       in_DispositionReason := in_DispositionReason i; in_DispositionDetail := in_DispositionDetail i;
       in_RecordCount := in_RecordCount i |}
  else i.

(** The hash of a file as read now. *)
Context (hash : string → result (string * Z)).
Context (o : ledger_options).

(** [ident]: a digest computed before. *)
Definition ledgerInputFor (res : ExtractResult) (ident : option (string * Z)) : result Input :=
  input ← match ident with
          | Some (sha, size) => BuildInputLedgerHashed (res_LogicalURI res) sha size (lo_handle o) (lo_sanitizeRoots o)
          | None => BuildInputLedger hash (res_File res) (res_LogicalURI res) (lo_handle o) (lo_sanitizeRoots o)
          end;
  path ← applyProvenanceRootInputPath (lo_root o) (in_Path input) (res_File res) (res_LogicalURI res);
  Ok (describe_input input path (in_RecordType input) (in_RecordCount input)).
Definition ledgerForInput (sha : string) (size : Z) (file logical : string) : result Input :=
  input ← (if negb (trim_space sha =s? "") then BuildInputLedgerHashed logical sha size (lo_handle o) (lo_sanitizeRoots o)
           else BuildInputLedger hash file logical (lo_handle o) (lo_sanitizeRoots o));
  path ← applyProvenanceRootInputPath (lo_root o) (in_Path input) file logical;
  Ok (describe_input input path (in_RecordType input) (in_RecordCount input)).

Definition failureErrorForResult (res : ExtractResult) : gerror :=
  let file := if provenanceRootActive (lo_root o) then provenanceRootInputLabel (lo_root o) (res_File res) (res_LogicalURI res)
              else SanitizePath (res_LogicalURI res) (lo_sanitizeRoots o) in
  let text := detail_text (res_DispositionDetail res) in
  let redact := provenanceRootRedactError (lo_root o) in
  match res_DispositionReason res, res_Error res with
  | InputUnavailable, e =>
      unavailable_error file (trim_prefix "input unavailable: " text) (default (Errorf "" []) e)
  | _, Some e =>
      redact (Errorf "failed to process file %s: %w"
        [AStr file; AErr (provenanceRootInputError (lo_root o) e (res_File res) (res_LogicalURI res) [])])
  | r, None =>
      if negb (trim_space text =s? "") then
        let shown_text := sanitizeDispositionText text (lo_sanitizeRoots o) in
        let shown_text := if provenanceRootActive (lo_root o)
                          then provenanceRootInputText (lo_root o) shown_text (res_File res) (res_LogicalURI res) []
                          else shown_text in
        if bool_decide (r = NoReason)
        then redact (Errorf "failed to process file %s: %s" [AStr file; AStr shown_text])
        else redact (Errorf "failed to process file %s: %s: %s" [AStr file; AStr (reason_text r); AStr shown_text])
      else redact (Errorf "failed to process file %s: %s" [AStr file; AStr (reason_text r)])
  end.

(** *** A failed input *)

(** What every failure is completed with before it is recorded. *)
Definition failed_result (res : ExtractResult) : ExtractResult :=
  let res := applyInputUnavailable res in
  let file := res_File res in
  let logical := res_LogicalURI res in
  let res := match res_Error res with
             | Some e => set_error res (provenanceRootInputError (lo_root o) e file logical [])
             | None => res
             end in
  let text := provenanceRootInputText (lo_root o) (detail_text (res_DispositionDetail res)) file logical [] in
  let d := if bool_decide (res_Disposition res = DispositionNone) then DispositionFailed else res_Disposition res in
  let r := if bool_decide (res_DispositionReason res = NoReason) then failureReasonForError (res_Error res) else res_DispositionReason res in
  let r := if bool_decide (r = NoReason) then InternalErrorReason else r in
  let text := if text =s? "" then match res_Error res with Some e => error_text e | None => "" end else text in
  set_disposition res d r (DetailText text).
Definition note_failure (res : ExtractResult) (l : ledgers) : ledgers :=
  set_dispositions (ds_add (lg_dispositions l) res (lo_sanitizeRoots o)) l.
Definition count_failure (res : ExtractResult) (l : ledgers) : ledgers :=
  set_failures (fm_add (lg_failures l) (res_LogicalURI res) (res_DispositionReason res) (detail_text (res_DispositionDetail res))
    (lo_sanitizeRoots o)) l.

Definition recordFailedAggregateInput (res : ExtractResult) (ident : option (string * Z)) (l : ledgers) : ledgers * option gerror :=
  let res := failed_result res in
  let l := count_failure res (note_failure res l) in
  match ledgerInputFor res ident with
  | Err e =>
      let e := provenanceRootInputError (lo_root o) e (res_File res) (res_LogicalURI res) [] in
      if lo_EmitInputIdentity o then
        (l, Some (Errorf "record failed aggregate input identity for %s: %w"
          [AStr (provenanceRootInputLabel (lo_root o) (res_File res) (res_LogicalURI res)); AErr e]))
      else (l, None)
  | Ok input =>
      let input := describe_input input (in_Path input) (lo_RecordType o) (Some 0) in
      let input := default_disposition DispositionFailed (applyInputDisposition input res (lo_sanitizeRoots o)) in
      (add_input input l, None)
  end.
Definition recordFailedSequentialResult (res : ExtractResult) (l : ledgers) : ledgers * option gerror :=
  let res := failed_result res in
  let l := note_failure res l in
  let failureErr := failureErrorForResult res in
  let l := if lo_ContinueOnError o then count_failure res l else l in
  let ending l := (l, if lo_ContinueOnError o then None else Some failureErr) in
  if negb (lo_manifestEnabled o) then ending l
  else
    match ledgerInputFor res None with
    | Err e =>
        if lo_ContinueOnError o then ending l
        else (l, Some (provenanceRootInputError (lo_root o) e (res_File res) (res_LogicalURI res) []))
    | Ok input =>
        ending (add_input (applyInputDisposition (describe_input input (in_Path input) (lo_RecordType o) (in_RecordCount input))
                            res (lo_sanitizeRoots o)) l)
    end.
(** [durableFailureCount] *)
Definition durableFailureCount (l : ledgers) : nat := if lo_ContinueOnError o then fm_Failed (lg_failures l) else 0.
End ledger.

(** ** The ledgers add up *)

Definition row_failed (i : Input) : bool := in_Disposition i =s? "failed".
Definition row_applied (i : Input) : bool := in_Disposition i =s? "applied".
Definition row_not_applicable (i : Input) : bool := in_Disposition i =s? "not_applicable".
Definition row_settled (i : Input) : bool := row_applied i || row_not_applicable i.
Definition rows (f : Input → bool) (l : list Input) : nat := length (List.filter f l).

Section accounts.
Context `{UC : UnicodeCase, UP : UriParser, FS : FileSystem, HD : HostDirs, ET : ErrorText, EN : Engine}.

(** ** The manifest's counts *)
Lemma account_inputs_spec k l a :
  Forall (λ i, row_failed i || row_settled i = true) l →
  account_inputs k l a = Ok {| ac_total := ac_total a; ac_applied := rows row_applied l + ac_applied a;
    ac_notApplicable := rows row_not_applicable l + ac_notApplicable a; ac_failed := rows row_failed l + ac_failed a |}.
Proof.
  intros H. revert k a. induction H as [|i l Hi _ IH]; intros k a; [by destruct a|].
  unfold rows in *. unfold row_failed, row_settled, row_applied, row_not_applicable in *. cbn [account_inputs List.filter].
  destruct (String.eqb_spec (in_Disposition i) "applied") as [E|]; [|destruct (String.eqb_spec (in_Disposition i) "not_applicable") as [E|];
    [|destruct (String.eqb_spec (in_Disposition i) "failed") as [E|]; [|done]]]; rewrite ?E; cbn [String.eqb Ascii.eqb Bool.eqb]; rewrite IH;
    cbn [length ac_total ac_applied ac_notApplicable ac_failed]; f_equal; f_equal; lia.
Qed.
Lemma rows_settled l : rows row_settled l = rows row_applied l + rows row_not_applicable l.
Proof.
  unfold rows. induction l as [|i l IH]; [done|]. cbn [List.filter]. unfold row_settled, row_applied, row_not_applicable in *.
  destruct (String.eqb_spec (in_Disposition i) "applied") as [->|]; cbn [orb length]; [cbn; lia|].
  destruct (String.eqb_spec (in_Disposition i) "not_applicable"); cbn [length]; lia.
Qed.
Lemma rows_length l : Forall (λ i, row_failed i || row_settled i = true) l → length l = rows row_failed l + rows row_settled l.
Proof.
  unfold rows. induction 1 as [|i l Hi _ IH]; [done|]. cbn [List.filter length]. revert Hi.
  unfold row_failed, row_settled, row_applied, row_not_applicable in *.
  destruct (String.eqb_spec (in_Disposition i) "failed") as [->|]; cbn [orb]; [cbn; lia|]. intros ->. cbn [length]. lia.
Qed.
Lemma rows_app f l k : rows f (l ++ k) = rows f l + rows f k.
Proof. unfold rows. by rewrite List.filter_app, length_app. Qed.

Lemma rows_one f i : rows f [i] = if f i then 1 else 0.
Proof. unfold rows. cbn. by destruct (f i). Qed.
Lemma failed_kind i : in_Disposition i = "failed" → row_failed i = true ∧ row_settled i = false.
Proof. unfold row_failed, row_settled, row_applied, row_not_applicable. by intros ->. Qed.

(** ** Ledgers that add up *)
Definition contributed (l : list Input) : nat := sum_list_with (λ i, default 0 (in_RecordCount i)) l.
(** [n] inputs are settled; [full]: every one of them that was applied has a row. *)
Record accounted (full : bool) (o : ledger_options) (n : nat) (l : ledgers) : Prop := {
  acc_sum : fm_Applied (lg_failures l) + fm_Failed (lg_failures l) = n;
  acc_failures : length (fm_Failures (lg_failures l)) = fm_Failed (lg_failures l);
  acc_rows : Forall (λ i, row_failed i || row_settled i = true) (lg_inputs l);
  acc_failed : rows row_failed (lg_inputs l) ≤ fm_Failed (lg_failures l);
  acc_settled : full = true → rows row_settled (lg_inputs l) = fm_Applied (lg_failures l);
  acc_counts : full = true → default 0 (lg_counts l !! lo_RecordType o) = contributed (lg_inputs l);
}.
Lemma accounted_new full o n : accounted full o 0 (new_ledgers n).
Proof. by constructor. Qed.

(** A gap-free inventory: its counts are those of the failure manifest. *)
Lemma accounting_agrees o n l :
  accounted true o n l →
  ∃ a, SetInputAccounting (lg_inputs l) = Ok a ∧ ac_total a = length (lg_inputs l) ∧
       ac_applied a + ac_notApplicable a = fm_Applied (lg_failures l) ∧ ac_failed a ≤ fm_Failed (lg_failures l) ∧
       (length (lg_inputs l) = n → ac_failed a = fm_Failed (lg_failures l)).
Proof.
  intros [Hs Hf Hr Hfl Hst _]. specialize (Hst eq_refl). unfold SetInputAccounting. rewrite account_inputs_spec by done.
  eexists. split; [done|]. cbn. rewrite rows_settled in Hst. pose proof (rows_length _ Hr) as Hlen. rewrite rows_settled in Hlen.
  split_and!; lia.
Qed.

(** *** A failed input *)
Context (hash : string → result (string * Z)) (full : bool) (o : ledger_options).
(** The disposition of an error is failed, where one was given. *)
Definition failing (res : ExtractResult) : Prop := res_Disposition res = DispositionNone ∨ res_Disposition res = DispositionFailed.

Lemma failed_result_failed res : failing res → res_Disposition (failed_result o res) = DispositionFailed.
Proof.
  intros H. unfold failed_result. cbn [set_disposition res_Disposition].
  assert (failing (applyInputUnavailable res)) as H'.
  { unfold applyInputUnavailable. destruct (res_Error res); [|done]. destruct (unavailableClass g); [by right|done]. }
  set (r := applyInputUnavailable res) in *.
  assert (∀ x, res_Disposition (match res_Error r with Some e => set_error r (x e) | None => r end) = res_Disposition r) as Hd.
  { intros x. by destruct (res_Error r). }
  rewrite Hd. destruct H' as [-> | ->]; done.
Qed.
Lemma accounted_failure n res l :
  accounted full o n l → accounted full o (S n) (count_failure o res (note_failure o res l)).
Proof.
  intros [Hs Hf Hr Hfl Hst Hc]. constructor; try done;
    cbn [count_failure note_failure set_failures set_dispositions lg_failures lg_inputs fm_add fm_Applied fm_Failed fm_Failures].
  - lia.
  - rewrite length_app. cbn. lia.
  - lia.
Qed.
(** A row of a failed input with no records. *)
Lemma accounted_failed_row n i l :
  accounted full o n l → rows row_failed (lg_inputs l) < fm_Failed (lg_failures l) → in_Disposition i = "failed" →
  (full = true → default 0 (in_RecordCount i) = 0) → accounted full o n (add_input i l).
Proof.
  intros [Hs Hf Hr Hfl Hst Hc] Hlt [Hi1 Hi2]%failed_kind Hn. constructor; try done; cbn [add_input lg_inputs lg_failures lg_counts].
  - apply Forall_app. split; [done|]. constructor; [|done]. by rewrite Hi1.
  - rewrite rows_app, rows_one, Hi1. lia.
  - intros Ht. rewrite rows_app, rows_one, Hi2, (Hst Ht). lia.
  - intros Ht. rewrite (Hc Ht). unfold contributed. rewrite sum_list_with_app. cbn [sum_list_with].
    rewrite (Hn Ht). lia.
Qed.
Lemma failure_row_missing n res l :
  accounted full o n l →
  rows row_failed (lg_inputs l) < fm_Failed (lg_failures (count_failure o res (note_failure o res l))).
Proof.
  intros H. pose proof (acc_failed _ _ _ _ H).
  cbn [count_failure note_failure set_failures set_dispositions lg_failures lg_inputs fm_add fm_Failed]. lia.
Qed.

Lemma recordFailedAggregate_accounted n res ident l l' :
  failing res → accounted full o n l → recordFailedAggregateInput hash o res ident l = (l', None) → accounted full o (S n) l'.
Proof.
  intros Hres Hl. pose proof (failed_result_failed _ Hres) as Hd. unfold recordFailedAggregateInput.
  set (res' := failed_result o res) in *.
  pose proof (accounted_failure n res' l Hl) as Hacc. pose proof (failure_row_missing n res' l Hl) as Hrow.
  destruct (ledgerInputFor hash o res' ident) as [input|e]; [|destruct (lo_EmitInputIdentity o); intros [= <-]; done].
  intros [= <-]. unfold applyInputDisposition. rewrite Hd. apply accounted_failed_row; [done|done|done|done].
Qed.
Lemma recordFailedAggregate_counts res ident l l' r :
  recordFailedAggregateInput hash o res ident l = (l', r) → lg_counts l' = lg_counts l.
Proof.
  unfold recordFailedAggregateInput. destruct (ledgerInputFor _ _ _ _) as [input|e]; [|destruct (lo_EmitInputIdentity o)];
    by intros [= <- <-].
Qed.
Lemma recordFailedSequential_accounted n res l l' :
  failing res → lo_ContinueOnError o = true → full = false → accounted full o n l →
  recordFailedSequentialResult hash o res l = (l', None) → accounted full o (S n) l'.
Proof.
  intros Hres Hco Hfull Hl. pose proof (failed_result_failed _ Hres) as Hd. unfold recordFailedSequentialResult.
  set (res' := failed_result o res) in *. rewrite Hco.
  pose proof (accounted_failure n res' l Hl) as Hacc. pose proof (failure_row_missing n res' l Hl) as Hrow.
  destruct (lo_manifestEnabled o); cbn [negb]; [|by intros [= <-]].
  destruct (ledgerInputFor hash o res' None) as [input|e]; [|by intros [= <-]].
  intros [= <-]. unfold applyInputDisposition. rewrite Hd. apply accounted_failed_row; [done|done|done|congruence].
Qed.
End accounts.
