(* ===== verification/MultiApply.v ===== *)
(** * One recipe on one input (cmd/sumpter/commands: extract_multi_bundle.go,
    extract_multi_dispatch.go: recipeRunState)

    Applying a recipe is split in two. The build extracts into a bundle of
    marshaled records, bounded in number and bytes, and says how the input
    fared; it touches nothing shared. The commit writes the bundle to the
    recipe's output, an aggregate writer or a file per input, and adds to the
    recipe's ledgers. *)
From Stdlib Require Import Ascii ZArith Lia.
From stdpp Require Import base list strings gmap sets.
From S2P Require Import Prelude GoStrings GoFloat GoStrconv GoValue GoPath RefSource DslTypes JsonScan DurableFs DurableCommit AggregateWriter ProvRoot Provenance Extract ExtractPrepare ExtractFile Ledger JsonTarget.

(** A program on a part of the state. *)
Definition zoom {C D A} (get : C → D) (put : D → C → C) (m : io D A) : io C A := λ w,
  let '(w', r) := m {| w_fs := w_fs w; w_calls := w_calls w; w_trace := w_trace w; w_own := get (w_own w) |} in
  ({| w_fs := w_fs w'; w_calls := w_calls w'; w_trace := w_trace w'; w_own := put (w_own w') (w_own w) |}, r).

(** ADR-0009: an error that ends the run whatever [--continue-on-error] says;
    its text is that of its cause. *)
Definition terminal_format : string := "terminal: %w".
Definition terminalDispatch (e : gerror) : gerror := Errorf terminal_format [AErr e].
Definition isTerminalDispatchError (e : gerror) : bool := errors_Is terminal_format e.

(** ** The bundle *)
Record bundle := { bd_records : list string; bd_bytes : Z; bd_summary : option FileEmissionSummary }.
Definition empty_bundle : bundle := {| bd_records := []; bd_bytes := 0; bd_summary := None |}.
Definition over_budget (limit : Z) (what : string) : gerror :=
  Errorf ("input produced more than the %d-" +:+ what +:+ " in-flight bundle limit; split the input into smaller files or reduce its per-input output (streaming/spill support for very large per-input outputs is planned)")
    [AInt limit].

Section bundle.
(** [json.Marshal]. *)
Context `{EN : Engine} (marshal : Envelope → result string).
Context (maxRecords maxBytes : Z).

Definition bundle_OnRecord (b : bundle) (e : Envelope) : bundle * option gerror :=
  match marshal e with
  | Err e => (b, Some (Errorf "marshal aggregate record: %w" [AErr e]))
  | Ok data =>
      let data := data +:+ String "010"%char "" in
      if ((0 <? maxRecords) && (maxRecords <=? Z.of_nat (length (bd_records b))))%Z then (b, Some (over_budget maxRecords "record"))
      else if ((0 <? maxBytes) && (maxBytes <? bd_bytes b + Z.of_nat (slen data)))%Z then (b, Some (over_budget maxBytes "byte"))
      else ({| bd_records := bd_records b ++ [data]; bd_bytes := bd_bytes b + Z.of_nat (slen data); bd_summary := bd_summary b |}, None)
  end.
Definition bundle_event (b : bundle) (ev : event) : bundle * option gerror :=
  match ev with
  | OnRecord e => bundle_OnRecord b e
  | OnFileBoundary s => ({| bd_records := bd_records b; bd_bytes := bd_bytes b; bd_summary := Some s |}, None)
  end.
(** The sink after the calls of a log, and its answer to the next. *)
Definition bundle_after (log : list event) : bundle := foldl (λ b ev, (bundle_event b ev).1) empty_bundle log.
Definition collectingRecordSink : RecordSink := λ log ev, (bundle_event (bundle_after log) ev).2.
End bundle.

(** ** Applications *)
Record application := {
  ap_file : string; ap_logical : string; ap_ordinal : nat; ap_sha256 : string; ap_size : Z;
  ap_records : list string;
  ap_summary : option FileEmissionSummary;
  ap_result : ExtractResult;
  ap_externalFieldsErr : option gerror;
  ap_floorErr : option gerror;
}.
Definition recordCount (a : application) : nat := length (ap_records a).
Definition withInputDigest (a : application) (sha : string) (size : Z) : application := {|
  ap_file := ap_file a; ap_logical := ap_logical a; ap_ordinal := ap_ordinal a; ap_sha256 := sha; ap_size := size;
  ap_records := ap_records a; ap_summary := ap_summary a; ap_result := ap_result a;
  ap_externalFieldsErr := ap_externalFieldsErr a; ap_floorErr := ap_floorErr a |}.

Section recipe.
Context `{UC : UnicodeCase, UP : UriParser, FS : FileSystem, HD : HostDirs, ET : ErrorText, EN : Engine}.

(** What a recipe brings to the run. *)
Record RecipePlan := {
  pl_RecipeID : string;
  pl_opts : ledger_options;
  pl_aggregate : bool;
  pl_writer : writer_options;
  pl_sigCfg : FileSignature;
  pl_extCfg : ExtractRecordMatch;
  pl_appCfg : option ApplicabilityConfig;
  pl_runtimeProvenance : RuntimeOptions;
  pl_fields : string → result (list (string * carrier));    (* buildExternalFieldsForFile *)
  pl_bundleMaxRecords : Z;
  pl_bundleMaxBytes : Z;
  pl_outputFile : string → string;                          (* outputFileForFormat *)
}.

(** *** Building *)
Context (RecordDocument : dnode → result Document) (json_copy : vmap → result vmap) (now : Z).
Context (marshal : Envelope → result string) (show_float : f64 → string).
(** [recover]: what an application panics with, by input and recipe. *)
Context (panics : nat → string → option string).

Definition mentions (e : gerror) (s : string) : bool := scontains s (error_text e).
Definition failed_application (file logical : string) (ordinal : nat) (res : ExtractResult) : application := {|
  ap_file := file; ap_logical := logical; ap_ordinal := ordinal; ap_sha256 := ""; ap_size := 0; ap_records := [];
  ap_summary := None; ap_result := res; ap_externalFieldsErr := None; ap_floorErr := None |}.
Definition no_result : ExtractResult := {|
  res_File := ""; res_LogicalURI := ""; res_Records := []; res_Error := None; res_PerSelectorCounts := None;
  res_PerSelectorCountsComplete := false; res_SignatureMatchStatus := SignatureMatchUnknown;
  res_SignatureConfidence := fzero; res_Disposition := DispositionNone; res_DispositionReason := NoReason;
  res_DispositionDetail := NoDetail |}.
Definition with_error (res : ExtractResult) (f : gerror → gerror) : ExtractResult :=
  match res_Error res with Some e => set_error res (f e) | None => res end.
Definition with_detail (res : ExtractResult) (f : string → string) : ExtractResult :=
  set_disposition res (res_Disposition res) (res_DispositionReason res) (DetailText (f (detail_text (res_DispositionDetail res)))).

Definition runtime_for (p : RecipePlan) (file logical : string) (ordinal : nat) (identity : option string) : RuntimeOptions :=
  let rp := pl_runtimeProvenance p in
  let label := provenanceRootRuntimeLabel (lo_root (pl_opts p)) ordinal file logical in
  {| ro_RunID := ro_RunID rp; ro_SumpterVersion := ro_SumpterVersion rp; ro_RecipeVersion := ro_RecipeVersion rp;
     ro_RecipeContentHash := ro_RecipeContentHash rp;
     ro_InputOrdinal := match identity with Some _ => Z.of_nat ordinal | None => ro_InputOrdinal rp end;
     ro_InputSHA256 := default (ro_InputSHA256 rp) identity;
     ro_SourceURI := if negb (file =s? logical) then logical else ro_SourceURI rp;
     ro_DiagnosticLabel := if negb (label =s? "") then label else ro_DiagnosticLabel rp |}.
(** The build of both modes; [identity] is the digest every row shows. *)
Definition build_application (p : RecipePlan) (ctx : nat → option gerror) (file logical : string) (ordinal : nat)
    (identity : option string) (doc : Document) : application :=
  let o := lo_root (pl_opts p) in
  match pl_fields p logical with
  | Err e =>
      {| ap_file := file; ap_logical := logical; ap_ordinal := ordinal; ap_sha256 := ""; ap_size := 0; ap_records := [];
         ap_summary := None; ap_result := no_result; ap_externalFieldsErr := Some (provenanceRootInputError o e file logical []);
         ap_floorErr := None |}
  | Ok externalFields =>
      let run := {| fr_path := file; fr_sig := pl_sigCfg p; fr_cfg := CloneRecordMatch (pl_extCfg p); fr_app := pl_appCfg p;
                    fr_ext := externalFields; fr_opts := runtime_for p file logical ordinal identity;
                    fr_sink := Some (collectingRecordSink marshal (pl_bundleMaxRecords p) (pl_bundleMaxBytes p)) |} in
      let '(log, res) := ProcessParsedDocument RecordDocument json_copy mentions now ctx run [] doc in
      let res :=
        if provenanceRootActive o then
          with_detail (with_error res (λ e, provenanceRootInputError o e file logical []))
            (λ s, provenanceRootInputText o s file logical [])
        else with_detail (with_error res (λ e, sanitizePrivateInputError e logical [file]))
               (λ s, sanitizePrivateInputText s logical [file]) in
      let b := bundle_after marshal (pl_bundleMaxRecords p) (pl_bundleMaxBytes p) log in
      let floor := match res_Error res, res_Disposition res with
                   | Some _, _ | _, DispositionFailed | _, DispositionNotApplicable => None
                   | None, _ => enforceMinOccurrences show_float (pl_RecipeID p) (CloneRecordMatch (pl_extCfg p)) (pl_sigCfg p)
                                  (provenanceRootInputLabel o file logical) res
                   end in
      {| ap_file := file; ap_logical := logical; ap_ordinal := ordinal; ap_sha256 := ""; ap_size := 0;
         ap_records := bd_records b; ap_summary := bd_summary b; ap_result := res; ap_externalFieldsErr := None;
         ap_floorErr := floor |}
  end.
Definition buildAggregateApplication (p : RecipePlan) (ctx : nat → option gerror) (file logical : string) (ordinal : nat)
    (sha : string) (size : Z) (doc : Document) : application :=
  withInputDigest (build_application p ctx file logical ordinal
    (if lo_EmitInputIdentity (pl_opts p) then Some sha else None) doc) sha size.
Definition buildPerInputApplication (p : RecipePlan) (ctx : nat → option gerror) (file logical : string) (ordinal : nat)
    (doc : Document) : application := build_application p ctx file logical ordinal None doc.
Definition buildApplicationContained (p : RecipePlan) (ctx : nat → option gerror) (file logical : string) (ordinal : nat)
    (sha : string) (size : Z) (doc : Document) : application :=
  match panics ordinal (pl_RecipeID p) with
  | Some v => failed_application file logical ordinal
                (recoverableFailureResult file logical (Errorf "panic during recipe application: %v" [AStr v]) InternalErrorReason)
  | None =>
      if pl_aggregate p then buildAggregateApplication p ctx file logical ordinal sha size doc
      else buildPerInputApplication p ctx file logical ordinal doc
  end.

(** *** Committing *)
Section commit.
Context {P : Type} (vp_begin vp_commit vp_discard : P → P) (vp_stage : P → string → P).
Context (fault : nat → option nat) (pick : fsys → nat).
Context (cloud_open : string → io (aggregateWriter P) nat) (cloud_publish : string → io (aggregateWriter P) ()).
Context (row_identity : string → option (nat * string)).
Context (hash : string → result (string * Z)).
(** The check of a file's envelopes, the upload of a staged file. *)
Context (validate publish : RecipePlan → io (target P) ()).

Record recipeRunState := mkRecipe {
  rs_ledgers : ledgers;
  rs_writer : aggregateWriter P;     (* aggWriter *)
  rs_profile : P;                    (* the value profile of per-input mode *)
  rs_finalized : bool;
}.
Local Notation rio := (io recipeRunState).
Definition put_writer (w : aggregateWriter P) (s : recipeRunState) : recipeRunState :=
  mkRecipe (rs_ledgers s) w (rs_profile s) (rs_finalized s).
Definition put_ledgers (l : ledgers) (s : recipeRunState) : recipeRunState :=
  mkRecipe l (rs_writer s) (rs_profile s) (rs_finalized s).
Definition put_profile (p : P) (s : recipeRunState) : recipeRunState :=
  mkRecipe (rs_ledgers s) (rs_writer s) p (rs_finalized s).
Definition on_writer {A} : io (aggregateWriter P) A → rio A := zoom rs_writer put_writer.
Definition on_ledgers (f : ledgers → ledgers) : rio () := set_own (λ s, put_ledgers (f (rs_ledgers s)) s).
(** A step of the ledgers that may refuse. *)
Definition record_with (f : ledgers → ledgers * option gerror) : rio (option gerror) :=
  s ← own; let '(l, r) := f (rs_ledgers (s : recipeRunState)) in _ ← set_own (put_ledgers l); mret (r : option gerror).
Definition on_profile (f : P → P) : rio () := set_own (λ s, put_profile (f (rs_profile s)) s).

Context (p : RecipePlan).
Let o := pl_opts p.
Let redact := provenanceRootRedactError (lo_root o).
Definition named (format : string) (display : string) (e : gerror) : gerror :=
  Errorf ("recipe %q: " +:+ format) [AStr (pl_RecipeID p); AStr display; AErr e].
Definition displayPath (a : application) : string := provenanceRootInputLabel (lo_root o) (ap_file a) (ap_logical a).
(** The failure of a floor, as it is recorded. *)
Definition floor_result (res : ExtractResult) (e : gerror) : ExtractResult :=
  let r := failureReasonForError (Some e) in
  set_disposition res DispositionFailed (if bool_decide (r = NoReason) then MinOccurrencesViolation else r)
    (DetailText (provenanceRootDiagnosticText (lo_root o) (error_text e))).

(** **** Aggregate mode *)
Definition record_failed (res : ExtractResult) (a : application) : rio () :=
  r ← record_with (recordFailedAggregateInput hash o res (Some (ap_sha256 a, ap_size a)));
  match r : option gerror with Some e => fail (terminalDispatch e) | None => mret () end.
Definition replay (display : string) (records : list string) : rio () :=
  r ← attempt (on_writer (emit_rows vp_stage fault cloud_open cloud_publish row_identity (pl_writer p) records));
  match r : result () with
  | Ok _ => mret ()
  | Err e => fail (terminalDispatch (named "failed to commit aggregate output for %s: %w" display (redact e)))
  end.
Definition flush_input (display : string) : rio () :=
  r ← attempt (on_writer (commitInput vp_commit fault cloud_open cloud_publish row_identity (pl_writer p)));
  match r : result () with
  | Ok _ => mret ()
  | Err e => fail (terminalDispatch (named "failed to commit aggregate output for %s: %w" display (redact e)))
  end.
(** The ledgers of an input whose rows are in the shards. *)
Definition record_applied (a : application) (n : nat) : rio () :=
  let res := ap_result a in
  _ ← on_ledgers (λ l, set_failures (fm_addApplied (lg_failures l)) l);
  _ ← on_ledgers (note_failure o res);
  _ ← (if lo_manifestEnabled o then
         match ledgerForInput hash o (ap_sha256 a) (ap_size a) (res_File res) (res_LogicalURI res) with
         | Err e => fail (terminalDispatch (named "failed to build input ledger for %s: %w" (displayPath a)
                            (provenanceRootInputError (lo_root o) e (res_File res) (res_LogicalURI res) [])))
         | Ok input =>
             on_ledgers (add_input (default_disposition DispositionApplied
               (applyInputDisposition (describe_input input (in_Path input) (lo_RecordType o) (Some n)) res (lo_sanitizeRoots o))))
         end
       else mret ());
  on_ledgers (add_count (lo_RecordType o) n).
Definition commitAggregateApplication (a : application) : rio () :=
  let res := ap_result a in
  _ ← on_writer (beginInput vp_begin);
  match ap_externalFieldsErr a with
  | Some e =>
      _ ← on_writer (discardInput vp_discard);
      if negb (lo_ContinueOnError o) then fail (named "failed to build external fields for %s: %w" (displayPath a) (redact e))
      else record_failed (recoverableFailureResult (ap_file a) (ap_logical a)
             (Errorf "failed to build external fields: %w" [AErr e]) ValidationErrorReason) a
  | None =>
      _ ← on_writer (if lo_EmitInputIdentity o then setCurrentInputIdentity (ap_ordinal a) (ap_sha256 a) else setCurrentInput (ap_ordinal a));
      s ← own;
      let before := aw_totalRecords (rs_writer (s : recipeRunState)) in
      if bool_decide (res_Error res ≠ None) || bool_decide (res_Disposition res = DispositionFailed) then
        _ ← on_writer (discardInput vp_discard);
        if negb (lo_ContinueOnError o) then
          match res_Error res with
          | Some e => fail (named "failed to process %s: %w" (displayPath a)
                              (provenanceRootInputError (lo_root o) e (res_File res) (res_LogicalURI res) []))
          | None => let e := failureErrorForResult o res in _ ← on_ledgers (set_dispositionErr e); fail e
          end
        else record_failed res a
      else
        match ap_floorErr a with
        | Some e =>
            _ ← on_writer (discardInput vp_discard);
            if negb (lo_ContinueOnError o) then _ ← on_ledgers (set_dispositionErr (redact e)); fail (redact e)
            else record_failed (floor_result res e) a
        | None =>
            _ ← replay (displayPath a) (ap_records a);
            _ ← flush_input (displayPath a);
            s ← own;
            record_applied a (aw_totalRecords (rs_writer (s : recipeRunState)) - before)
        end
  end.

(** **** A file per input *)
Let outputFile (a : application) : string := pl_outputFile p (ap_logical a).
(** A target's program; the value profile is the recipe's. *)
Definition put_target_profile (t : target P) (s : recipeRunState * target P) : recipeRunState * target P :=
  (put_profile (t_profile t) s.1, t).
Definition get_target (s : recipeRunState * target P) : target P :=
  mkTarget P (t_temp s.2) (t_file s.2) (t_sink s.2) (t_sinkClosed s.2) (t_closed s.2) (t_count s.2) (t_stdout s.2) (rs_profile s.1).
Local Notation pio := (io (recipeRunState * target P)).
Definition on_target {A} : io (target P) A → pio A := zoom get_target put_target_profile.
Definition on_recipe {A} : rio A → pio A := zoom fst (λ s st, (s, st.2)).
Fixpoint target_write (a : application) (records : list string) : io (target P) () :=
  match records with
  | [] => mret ()
  | data :: records => _ ← t_writeMarshaled vp_stage fault pick (outputFile a) (outputFile a) data; target_write a records
  end.
Definition boundary_failed (a : application) : bool :=
  match ap_summary a with Some s => bool_decide (fe_Disposition s = DispositionFailed) | None => false end.
Definition t_abort : io (target P) () := t_Abort vp_discard fault false.
Definition internal_failure (res : ExtractResult) (e : gerror) (text : string) : ExtractResult :=
  set_disposition (set_error res e) DispositionFailed InternalErrorReason (DetailText text).
Definition record_failed_sequential (res : ExtractResult) : rio () :=
  _ ← record_with (recordFailedSequentialResult hash o res); mret ().
(** The result a commit acts on: a failed write is the extraction's failure. *)
Definition written_result (a : application) (writeErr : option gerror) : ExtractResult :=
  let res := ap_result a in
  let file := ap_file a in
  let res := with_detail (with_error res (λ e, provenanceRootInputError (lo_root o) e file (ap_logical a) []))
               (λ s, provenanceRootInputText (lo_root o) s file (ap_logical a) []) in
  match writeErr, res_Error res with
  | Some e, None => internal_failure res (redact e) (provenanceRootDiagnosticText (lo_root o) (error_text e))
  | _, _ => res
  end.
Definition record_output (a : application) (res : ExtractResult) (n : nat) : rio () :=
  _ ← on_ledgers (note_failure o res);
  _ ← (if lo_manifestEnabled o then
         match ledgerForInput hash o (ap_sha256 a) (ap_size a) (res_File res) (res_LogicalURI res) with
         | Err e => fail e
         | Ok input => on_ledgers (add_input (applyInputDisposition
                         (describe_input input (in_Path input) (lo_RecordType o) (in_RecordCount input)) res (lo_sanitizeRoots o)))
         end
       else mret ());
  _ ← on_ledgers (add_count (lo_RecordType o) n);
  _ ← (if lo_manifestEnabled o then on_ledgers (add_output (SanitizePath (outputFile a) (lo_sanitizeRoots o)) n) else mret ());
  on_ledgers (λ l, set_failures (fm_addApplied (lg_failures l)) l).
Definition finish_target (ctx : option gerror) (a : application) : pio () :=
  _ ← on_recipe (on_profile vp_begin);
  w ← attempt (on_target (target_write a (ap_records a)));
  b ← attempt (match w : result () with
               | Ok _ => on_target (io_wrap "failed to emit file boundary: %w" []
                           (t_OnFileBoundary fault pick false (outputFile a) (outputFile a) ctx (boundary_failed a)))
               | Err e => mret ()
               end);
  let writeErr := match w : result (), b : result () with Err e, _ => Some e | _, Err e => Some e | _, _ => None end in
  c ← attempt (on_target (t_Close fault ctx));
  let closeErr := match c : result () with Err e => Some (redact e) | Ok _ => None end in
  let res := written_result a writeErr in
  if bool_decide (res_Error res ≠ None) || bool_decide (res_Disposition res = DispositionFailed) then
    _ ← on_target t_abort;
    let res := match closeErr, res_Error res with Some e, None => internal_failure res e (error_text e) | _, _ => res end in
    if negb (lo_ContinueOnError o) then
      match res_Error res with
      | Some e => fail (named "failed to process %s: %w" (displayPath a) (provenanceRootInputError (lo_root o) e (ap_file a) (ap_logical a) []))
      | None => let e := failureErrorForResult o res in _ ← on_recipe (on_ledgers (set_dispositionErr e)); fail e
      end
    else on_recipe (record_failed_sequential res)
  else
    match closeErr with
    | Some e => _ ← on_target t_abort; fail (named "failed to close output for %s: %w" (displayPath a) e)
    | None =>
        match (if bool_decide (res_Disposition res = DispositionNotApplicable) then None else ap_floorErr a) with
        | Some e =>
            _ ← on_target t_abort;
            if negb (lo_ContinueOnError o) then
              _ ← on_recipe (on_ledgers (set_dispositionErr (redact e))); fail (redact e)
            else on_recipe (record_failed_sequential (floor_result res e))
        | None =>
            r ← attempt (on_target (t_Commit fault pick false (outputFile a) (outputFile a) (validate p) (publish p)));
            match r : result () with
            | Err e => _ ← on_recipe (on_profile vp_discard); fail e
            | Ok _ =>
                _ ← on_recipe (on_profile vp_commit);
                s ← own;
                on_recipe (record_output a res (t_Count (get_target s)))
            end
        end
    end.
(** A target of its own; [newJSONOutputTarget] on a local output does nothing yet. *)
Definition with_target {A} (m : pio A) : rio A := λ w,
  let '(w', r) := m {| w_fs := w_fs w; w_calls := w_calls w; w_trace := w_trace w;
                       w_own := (w_own w, newJSONOutputTarget false (rs_profile (w_own w))) |} in
  ({| w_fs := w_fs w'; w_calls := w_calls w'; w_trace := w_trace w'; w_own := (w_own w').1 |}, r).
Definition commitPerInputApplication (ctx : option gerror) (a : application) : rio () :=
  match ap_externalFieldsErr a with
  | Some e =>
      if negb (lo_ContinueOnError o) then fail (named "failed to build external fields for %s: %w" (displayPath a) (redact e))
      else r ← record_with (recordFailedSequentialResult hash o (recoverableFailureResult (ap_file a) (ap_logical a)
             (Errorf "failed to build external fields: %w" [AErr e]) ValidationErrorReason));
           match r : option gerror with Some e => fail e | None => mret () end
  | None => with_target (finish_target ctx a)
  end.

Definition commit_application (ctx : option gerror) (a : application) : rio () :=
  if pl_aggregate p then commitAggregateApplication a else commitPerInputApplication ctx a.
(** [recordInputFailure]: the input could not be read or parsed. *)
Definition recordInputFailure (file logical sha : string) (size : Z) (cause : gerror) (reason : DispositionReason) (raw : gerror)
    : rio (option gerror) :=
  let res := recoverableFailureResult file logical (Errorf "failed to read/parse input: %w" [AErr cause]) reason in
  let res := if bool_decide (reason = InputUnavailable)
             then set_disposition res (res_Disposition res) (res_DispositionReason res) (DetailText (failureDetail reason (Some raw)))
             else res in
  if pl_aggregate p then
    record_with (recordFailedAggregateInput hash o res (if sha =s? "" then None else Some (sha, size)))
  else _ ← record_with (recordFailedSequentialResult hash o res); mret None.
End commit.
End recipe.
Arguments recipeRunState P : clear implicits.
