(* ===== verification/MultiApplySpec.v ===== *)
(** * Applying a recipe: what the build and the commit promise
    (cmd/sumpter/commands/extract_multi_bundle.go)

    A bundle stays within its budget; a failed extraction has no other
    disposition; in aggregate mode a commit that goes on has settled its input in
    the ledgers, and one that does not go on ends the run. *)
From Stdlib Require Import Ascii ZArith Lia.
From stdpp Require Import base list strings gmap sets.
From S2P Require Import Prelude GoStrings GoFloat GoStrconv GoValue GoPath RefSource DslTypes JsonScan DurableFs DurableFsSpec DurableCommit AggregateWriter ProvRoot Provenance Extract ExtractPrepare ExtractFile Ledger JsonTarget MultiApply.

(** ** The budget *)
Section budget.
Context `{EN : Engine} (marshal : Envelope → result string) (maxRecords maxBytes : Z).
Definition within_budget (b : bundle) : Prop :=
  bd_bytes b = Z.of_nat (sum_list_with slen (bd_records b)) ∧
  ((0 < maxRecords)%Z → (Z.of_nat (length (bd_records b)) ≤ maxRecords)%Z) ∧
  ((0 < maxBytes)%Z → (bd_bytes b ≤ maxBytes)%Z).
Lemma bundle_event_budget b ev : within_budget b → within_budget (bundle_event marshal maxRecords maxBytes b ev).1.
Proof.
  intros (Hb & Hr & Hy). destruct ev as [e|s]; [|done]. cbn [bundle_event]. unfold bundle_OnRecord.
  destruct (marshal e) as [data|]; [|done]. set (line := data +:+ _).
  destruct ((0 <? maxRecords) && (maxRecords <=? Z.of_nat (length (bd_records b))))%Z eqn:E1; [done|].
  destruct ((0 <? maxBytes) && (maxBytes <? bd_bytes b + Z.of_nat (slen line)))%Z eqn:E2; [done|].
  unfold within_budget. cbn [fst bd_records bd_bytes]. rewrite sum_list_with_app, length_app. cbn [sum_list_with length].
  split_and!; [lia| |]; intros Hp; [apply andb_false_iff in E1 as [?|?]; lia|apply andb_false_iff in E2 as [?|?]; lia].
Qed.
Lemma bundle_after_budget log : within_budget (bundle_after marshal maxRecords maxBytes log).
Proof.
  unfold bundle_after. assert (within_budget empty_bundle) as H.
  { split_and!; [done|cbn; lia|cbn; lia]. }
  revert H. generalize empty_bundle. induction log as [|ev log IH]; intros b Hb; [done|]. cbn [foldl].
  by apply IH, bundle_event_budget.
Qed.
(** The bundle an input's records are held in is never over either limit: what it
    holds is within it after any number of sink calls, and its byte count is that
    of its lines. *)
Theorem bundle_within_budget log :
  let b := bundle_after marshal maxRecords maxBytes log in
  bd_bytes b = Z.of_nat (sum_list_with slen (bd_records b))
  ∧ ((0 < maxRecords)%Z → (Z.of_nat (length (bd_records b)) ≤ maxRecords)%Z) ∧ ((0 < maxBytes)%Z → (bd_bytes b ≤ maxBytes)%Z).
Proof. apply bundle_after_budget. Qed.
End budget.

(** ** Failed extractions *)
Section failing.
Context `{UC : UnicodeCase, EN : Engine} (RecordDocument : dnode → result Document) (json_copy : vmap → result vmap).
Context (mentions : gerror → string → bool) (now : Z) (ctx_err : nat → option gerror).
(** An error comes with the failed disposition, or with none. *)
Definition honest (r : file_run) (res : ExtractResult) : Prop :=
  (fr_app r = None → failing res) ∧ (res_Error res ≠ None → failing res).
Definition unsettled (res : ExtractResult) : Prop := res_Disposition res = DispositionNone ∧ res_Error res = None.

Lemma emitBoundary_honest r log t :
  honest r (bt_result t) → honest r (bt_result (emitBoundary r log t).2).
Proof.
  intros H. unfold emitBoundary. destruct (fr_sink r) as [sink|]; [|done].
  assert (bt_result (sync_boundary t) = bt_result t) as E by (unfold sync_boundary; by destruct (res_Disposition (bt_result t))).
  cbn [snd]. destruct (sink log _) as [e|]; [|by rewrite E]. rewrite E. destruct (res_Error (bt_result t)) eqn:Hr; [by rewrite E|].
  unfold markFailed. destruct (fr_app r) eqn:Ha; cbn [with_result bt_result].
  - unfold honest. cbn. rewrite Ha. split; [done|intros _; by right].
  - unfold honest, failing. cbn. rewrite Ha. destruct H as [H _]. split; intros _; by apply H.
Qed.
Lemma fail_file_honest r log t reason e : unsettled (bt_result t) → honest r (fail_file r log t reason e).2.
Proof.
  intros [Hd _]. unfold fail_file. destruct (emitBoundary _ _ _) as [log' t'] eqn:E. cbn [snd].
  pose proof (emitBoundary_honest r log (markBoundaryFailure (markFailed r (with_result t (set_error (bt_result t) e)) reason (DetailError e))
    reason (DetailError e))) as H. rewrite E in H. apply H. unfold markFailed, honest, failing.
  destruct (fr_app r) eqn:Ha; cbn; rewrite ?Ha; split; intros _; try done; first [by right|by left].
Qed.
(** The end of a run on a boundary. *)
Lemma boundary_honest r log t : honest r (bt_result t) →
  honest r (let '(log, t) := emitBoundary r log t in (log, bt_result t)).2.
Proof. intros H. apply (emitBoundary_honest r log) in H. by destruct (emitBoundary r log t). Qed.
Lemma extractParsed_honest r log t doc sink :
  fr_sink r = Some sink → unsettled (bt_result t) →
  honest r (extractParsedDocument json_copy mentions now ctx_err r log t doc).2.
Proof.
  intros Hsink [Hd He]. unfold extractParsedDocument. destruct (prepareExtractConfig json_copy (fr_cfg r)) as [cfg|e].
  - rewrite Hsink. destruct (extractRecordsWithCountsAndRecordNumsToSink _ _ _ _ _ _ _) as [st [e|]]; [by apply fail_file_honest|].
    apply boundary_honest. unfold honest, apply_disposition, failing. destruct (fr_app r) eqn:Ha; cbn; rewrite ?Ha; split; try done.
    by left.
  - apply boundary_honest. unfold honest, failing. cbn. split; intros _; by left.
Qed.
Lemma ProcessParsed_honest r log doc sink :
  fr_sink r = Some sink → honest r (ProcessParsedDocument RecordDocument json_copy mentions now ctx_err r log doc).2.
Proof.
  intros Hsink. unfold ProcessParsedDocument.
  assert (unsettled (bt_result (newBoundaryTracker r))) as Hn by done.
  destruct (fr_app r) as [app|] eqn:Ha; [destruct (evaluateApplicability _ _) as [[|]|e]|].
  2: { apply boundary_honest. unfold honest. cbn. by rewrite Ha. }
  2: by apply fail_file_honest.
  all: destruct (_ && _);
    [destruct (matchesSignaturePerRecord _ _ _ _) as [[status confidence] [e|]];
       [apply boundary_honest; unfold honest, failing; cbn; split; intros _; by right|by eapply extractParsed_honest]
    |destruct (matchesSignature _ _) as [[[|] confidence]|e];
       [by eapply extractParsed_honest|apply boundary_honest; unfold honest, failing; rewrite ?Ha; cbn; rewrite ?Ha; split; try done; by left
       |by apply fail_file_honest]].
Qed.
End failing.

(** ** Programs and the errors they end in *)
Section raises.
Context {C : Type}.
Definition raises {A} (φ : gerror → Prop) (m : io C A) : Prop := ∀ w, match (m w).2 with Err e => φ e | Ok _ => True end.
Lemma raises_ret {A} φ (a : A) : raises φ (mret a).
Proof. done. Qed.
Lemma raises_fail {A} (φ : gerror → Prop) e : φ e → raises (A := A) φ (fail e).
Proof. by intros H w. Qed.
Lemma raises_bind {A B} φ (m : io C A) (f : A → io C B) : raises φ m → (∀ a, raises φ (f a)) → raises φ (m ≫= f).
Proof.
  intros Hm Hf w. specialize (Hm w). unfold mbind, io_bind. destruct (m w) as [w' [a|e]]; [apply Hf|done].
Qed.
Lemma raises_attempt {A} φ (m : io C A) : raises φ (attempt m).
Proof. intros w. unfold attempt. by destruct (m w). Qed.
Lemma raises_own φ : raises φ own.
Proof. done. Qed.
Lemma raises_set_own φ f : raises φ (set_own f).
Proof. done. Qed.
Lemma raises_impl {A} (φ ψ : gerror → Prop) (m : io C A) : (∀ e, φ e → ψ e) → raises φ m → raises ψ m.
Proof. intros H Hm w. specialize (Hm w). destruct (m w).2; [done|by apply H]. Qed.
End raises.
Lemma raises_zoom {C D A} (get : C → D) (put : D → C → C) φ (m : io D A) : raises φ m → raises φ (zoom get put m).
Proof.
  intros H w. unfold zoom. specialize (H {| w_fs := w_fs w; w_calls := w_calls w; w_trace := w_trace w; w_own := get (w_own w) |}).
  by destruct (m _) as [w' r].
Qed.
(** A program on a part leaves alone what does not depend on the part. *)
Lemma triple_zoom {C D A} (get : C → D) (put : D → C → C) (I : C → Prop) (m : io D A) :
  (∀ c d, I c → I (put d c)) → triple (λ w, I (w_own w)) (zoom get put m) (λ _ w, I (w_own w)) none.
Proof. intros H w Hw. unfold zoom. destruct (m _) as [w' [a|e]]; [by apply H|done]. Qed.

Create HintDb raises.
#[export] Hint Resolve raises_ret raises_attempt raises_own raises_set_own : raises.

(** ** The records an aggregate writer has taken *)
Section taken.
Context {P : Type} (vp_begin vp_commit vp_discard : P → P) (vp_stage : P → string → P).
Context (fault : nat → option nat).
Context (cloud_open : string → io (aggregateWriter P) nat) (cloud_publish : string → io (aggregateWriter P) ()).
Context (row_identity : string → option (nat * string)) (o : writer_options) (Hlocal : wo_cloud o = false) (k : nat).
Definition at_least (w : world (aggregateWriter P)) : Prop := k ≤ aw_totalRecords (w_own w).
Lemma at_least_stable : stable at_least.
Proof. done. Qed.
Lemma at_least_own {A} (f : aggregateWriter P → io (aggregateWriter P) A) : (∀ c, pres at_least (f c)) → pres at_least (own ≫= f).
Proof. intros H. by apply pres_own. Qed.
Lemma at_least_set f : (∀ w, aw_totalRecords w ≤ aw_totalRecords (f w)) → pres at_least (set_own f).
Proof. intros H. apply pres_set_own. intros w Hw. unfold at_least in *. cbn. specialize (H (w_own w)). lia. Qed.
Lemma at_least_commit {A} (m : io commit A) : pres at_least (on_commit m).
Proof. intros w Hw. unfold on_commit. by destruct (m _) as [w' [a|e]]. Qed.
Lemma at_least_open : pres at_least (agg_openShard fault cloud_open o).
Proof.
  unfold agg_openShard. rewrite Hlocal. apply pres_bind; [by apply at_least_set|]. intros ?. apply at_least_own. intros w.
  apply pres_bind; [apply pres_wrap, at_least_commit|]. intros r. by apply at_least_set.
Qed.
Lemma at_least_finalize : pres at_least (agg_finalizeShard fault cloud_publish o).
Proof.
  unfold agg_finalizeShard. rewrite Hlocal. apply at_least_own. intros w. destruct (aw_open w); [|by apply pres_ret].
  apply pres_bind; [apply at_least_commit|]. intros ?. by apply at_least_set.
Qed.
Lemma at_least_write data : pres at_least (writeRecordLocked fault cloud_open cloud_publish row_identity o data).
Proof.
  unfold writeRecordLocked, check_identity, roll. rewrite Hlocal. cbn [andb]. apply pres_bind.
  { apply at_least_own. intros w. destruct (negb _); [by apply pres_ret|]. destruct (row_identity data) as [[ord sha]|]; [|by apply pres_fail].
    destruct (_ || _); [by apply pres_fail|by apply pres_ret]. }
  intros ?. apply pres_bind.
  { apply at_least_own. intros w. destruct (aw_open w); [|apply at_least_open]. destruct (AggregateWriter.full _ _ _); [|by apply pres_ret].
    apply pres_bind; [apply at_least_finalize|intros ?; apply at_least_open]. }
  intros ?. apply at_least_own. intros w. destruct (aw_open w) as [s|]; [|by apply pres_ret].
  apply pres_bind; [apply at_least_commit|intros ?]. apply pres_bind.
  { apply pres_wrap. by apply triple_write. }
  intros ?. apply at_least_set. intros w'. unfold wrote. destruct (aw_open w'); cbn; lia.
Qed.
Lemma at_least_write_all l : pres at_least (write_all fault cloud_open cloud_publish row_identity o l).
Proof. induction l as [|data l IH]; [by apply pres_ret|]. apply pres_bind; [apply at_least_write|by intros ?]. Qed.
Lemma at_least_commitInput : pres at_least (commitInput vp_commit fault cloud_open cloud_publish row_identity o).
Proof.
  apply at_least_own. intros w. apply pres_bind; [apply at_least_write_all|intros ?]. by apply at_least_set.
Qed.
Lemma at_least_emit l : pres at_least (emit_rows vp_stage fault cloud_open cloud_publish row_identity o l).
Proof.
  induction l as [|data l IH]; [by apply pres_ret|]. apply pres_bind; [|by intros ?].
  unfold writeMarshaled. apply pres_bind; [|intros ?; by apply at_least_set].
  destruct (wo_buffering o); [by apply at_least_set|apply at_least_write].
Qed.
End taken.

Section commit.
Context `{UC : UnicodeCase, UP : UriParser, FS : FileSystem, HD : HostDirs, ET : ErrorText, EN : Engine}.
Context {P : Type} (vp_begin vp_commit vp_discard : P → P) (vp_stage : P → string → P).
Context (fault : nat → option nat) (pick : fsys → nat).
Context (cloud_open : string → io (aggregateWriter P) nat) (cloud_publish : string → io (aggregateWriter P) ()).
Context (row_identity : string → option (nat * string)) (hash : string → result (string * Z)).
Context (p : RecipePlan).
Local Notation o := (pl_opts p).
Local Notation record_failed := (record_failed (P := P) hash p).
Local Notation commitAggregateApplication :=
  (commitAggregateApplication vp_begin vp_commit vp_discard vp_stage fault cloud_open cloud_publish row_identity hash p).
Implicit Types (a : application) (w : world (recipeRunState P)).

(** [n] inputs are settled, with [k] records; the writer has [t]. *)
Definition counted_records (l : ledgers) : nat := default 0 (lg_counts l !! lo_RecordType o).
Definition settled_with (n k : nat) (s : recipeRunState P) : Prop :=
  accounted true o n (rs_ledgers s) ∧ counted_records (rs_ledgers s) = k.
Definition settled_to (n : nat) w : Prop := settled_with n (aw_totalRecords (rs_writer (w_own w))) (w_own w).
(** An input under way that found [k] records. *)
Definition entered (n k : nat) w : Prop := settled_with n k (w_own w) ∧ k ≤ aw_totalRecords (rs_writer (w_own w)).
Definition sound_application a : Prop := res_Error (ap_result a) ≠ None → failing (ap_result a).

Lemma on_writer_settled n f :
  (∀ c, aw_totalRecords (f c) = aw_totalRecords c) → triple (settled_to n) (on_writer (set_own f)) (λ _, settled_to n) none.
Proof. intros H w Hw. unfold settled_to, settled_with. cbn. by rewrite H. Qed.
Lemma own_settled {B} n (k : recipeRunState P → io (recipeRunState P) B) Q :
  (∀ s, triple (λ w, settled_to n w ∧ w_own w = s) (k s) Q none) → triple (settled_to n) (own ≫= k) Q none.
Proof. apply triple_own. Qed.
(** Keeping only the ledgers. *)
Lemma on_ledgers_settled n f : (∀ l, accounted true o n l → accounted true o n (f l) ∧ counted_records (f l) = counted_records l) →
  triple (settled_to n) (on_ledgers f) (λ _, settled_to n) none.
Proof.
  intros H. apply triple_set_own. intros w [Hw Hc]. destruct (H _ Hw) as [H1 H2]. split; [done|]. cbn. by rewrite H2.
Qed.

Lemma record_with_settled n m f :
  (∀ l l' r, accounted true o n l → f l = (l', r) → r = None → accounted true o m l' ∧ lg_counts l' = lg_counts l) →
  triple (settled_to n) (record_with f) (λ r w, r = None → settled_to m w) none.
Proof.
  intros H w [Hw Hc]. unfold record_with, own, set_own, mbind, io_bind. cbn.
  destruct (f (rs_ledgers (w_own w))) as [l' r] eqn:E. cbn. intros ->. unfold settled_to, settled_with, counted_records in *. cbn.
  destruct (H _ _ _ Hw E eq_refl) as [Ha Hl]. by rewrite Hl.
Qed.
Lemma record_failed_settled n res a :
  failing res → triple (settled_to n) (record_failed res a) (λ _, settled_to (S n)) none.
Proof.
  intros Hres. unfold MultiApply.record_failed. eapply triple_bind.
  - apply (record_with_settled n (S n)). intros l l' r Hl Hr ->.
    split; [by eapply recordFailedAggregate_accounted|by eapply recordFailedAggregate_counts].
  - intros [e|]; [by apply triple_fail|]. apply triple_ret. intros w Hw. by apply Hw.
Qed.

(** *** An applied input *)
Definition applied_row (i : Input) (path : string) (n : nat) (res : ExtractResult) : Input :=
  default_disposition DispositionApplied
    (applyInputDisposition (describe_input i path (lo_RecordType o) (Some n)) res (lo_sanitizeRoots o)).
Lemma applied_row_settled i path n res :
  in_Disposition i = "" → res_Disposition res ≠ DispositionFailed →
  row_failed (applied_row i path n res) = false ∧ row_settled (applied_row i path n res) = true ∧
  in_RecordCount (applied_row i path n res) = Some n.
Proof.
  intros Hi Hd. unfold applied_row, applyInputDisposition, default_disposition, row_failed, row_settled, row_applied, row_not_applicable.
  destruct (res_Disposition res); cbn; rewrite ?Hi; cbn; done.
Qed.
Lemma ledger_new_row sha size file logical i :
  ledgerForInput hash o sha size file logical = Ok i → in_Disposition i = "".
Proof.
  unfold ledgerForInput, BuildInputLedger, BuildInputLedgerHashed. intros H.
  apply res_bind_ok in H as (input & Hin & H). apply res_bind_ok in H as (path & _ & [= <-]). cbn.
  destruct (negb (trim_space sha =s? "")).
  - destruct (trim_space sha =s? ""); [done|by injection Hin as <-].
  - apply res_bind_ok in Hin as (h & _ & Hin). destruct (trim_space h.1 =s? ""); [done|by injection Hin as <-].
Qed.
Lemma accounted_applied n res i k l :
  accounted true o n l → row_failed i = false → row_settled i = true → in_RecordCount i = Some k →
  accounted true o (S n) (add_count (lo_RecordType o) k (add_input i (note_failure o res
    (set_failures (fm_addApplied (lg_failures l)) l)))).
Proof.
  intros [Hs Hf Hr Hfl Hst Hc] H1 H2 H3. specialize (Hst eq_refl). specialize (Hc eq_refl).
  constructor; cbn [add_count add_input note_failure set_failures set_dispositions lg_failures lg_inputs lg_counts fm_addApplied
    fm_Applied fm_Failed fm_Failures].
  - lia.
  - done.
  - apply Forall_app. split; [done|]. constructor; [|done]. by rewrite H2, orb_true_r.
  - rewrite rows_app, rows_one, H1. lia.
  - intros _. rewrite rows_app, rows_one, H2. lia.
  - intros _. rewrite lookup_insert_eq. unfold contributed. rewrite sum_list_with_app. cbn. rewrite H3, Hc. unfold contributed. cbn. lia.
Qed.
Lemma record_applied_settled n k a s :
  lo_manifestEnabled o = true → res_Disposition (ap_result a) ≠ DispositionFailed →
  triple (λ w, entered n k w ∧ w_own w = s) (record_applied hash p a (aw_totalRecords (rs_writer s) - k))
    (λ _, settled_to (S n)) none.
Proof.
  intros Hm Hd w [[[Hw Hc] Hle] <-]. unfold record_applied, on_ledgers, set_own, mbind, io_bind. cbn. rewrite Hm.
  destruct (ledgerForInput _ _ _ _ _ _) as [i|e] eqn:Hi; [|done]. cbn.
  set (m := aw_totalRecords _ - k).
  destruct (applied_row_settled i (in_Path i) m (ap_result a)) as (H1 & H2 & H3); [by eapply ledger_new_row|done|].
  split; cbn; [by apply accounted_applied|]. unfold counted_records in *. cbn. rewrite lookup_insert_eq. cbn. rewrite Hc.
  unfold m. lia.
Qed.

(** *** The commit *)
Lemma set_dispositionErr_settled n e : triple (settled_to n) (on_ledgers (set_dispositionErr e)) (λ _, settled_to n) none.
Proof. apply on_ledgers_settled. intros l Hl. split; [by destruct Hl; constructor|done]. Qed.
Lemma floor_result_failing res e : failing (floor_result p res e).
Proof. by right. Qed.
Lemma after_writer_entered n k (m : io (aggregateWriter P) ()) f :
  pres (at_least k) m →
  triple (entered n k) (r ← attempt (on_writer m); match r : result () with Ok _ => mret () | Err e => fail (f e) end)
    (λ _, entered n k) none.
Proof.
  intros Hm. apply triple_bind with (Q' := λ _, entered n k); [|intros [[]|e]; [by apply triple_ret|by apply triple_fail]].
  intros w [Hw Hle]. unfold attempt, on_writer, zoom.
  match goal with |- context [m ?w0] => specialize (Hm w0 Hle); destruct (m w0) as [w' [x|e]] end; by split.
Qed.
Context (Hlocal : wo_cloud (pl_writer p) = false).
Lemma replay_entered n k display records :
  triple (entered n k) (replay vp_stage fault cloud_open cloud_publish row_identity p display records) (λ _, entered n k) none.
Proof. apply after_writer_entered, at_least_emit, Hlocal. Qed.
Lemma flush_entered n k display :
  triple (entered n k) (flush_input vp_commit fault cloud_open cloud_publish row_identity p display) (λ _, entered n k) none.
Proof. apply after_writer_entered, at_least_commitInput, Hlocal. Qed.
Lemma commitAggregate_settled n a :
  lo_manifestEnabled o = true → sound_application a →
  triple (settled_to n) (commitAggregateApplication a) (λ _, settled_to (S n)) none.
Proof.
  intros Hm Hs. unfold MultiApply.commitAggregateApplication.
  eapply triple_bind; [by apply on_writer_settled|intros ?].
  assert (triple (settled_to n) (on_writer (discardInput (P := P) vp_discard)) (λ _, settled_to n) none) as Hdiscard by by apply on_writer_settled.
  destruct (ap_externalFieldsErr a) as [e|].
  { eapply triple_bind; [apply Hdiscard|intros ?]. destruct (negb _); [by apply triple_fail|].
    apply record_failed_settled. by right. }
  eapply triple_bind; [destruct (lo_EmitInputIdentity o); by apply on_writer_settled|intros ?]. apply own_settled. intros s.
  destruct (bool_decide (res_Error (ap_result a) ≠ None) || bool_decide (res_Disposition (ap_result a) = DispositionFailed)) eqn:Hf.
  - assert (failing (ap_result a)) as Hfail.
    { apply orb_true_iff in Hf as [Hf|Hf]; apply bool_decide_eq_true in Hf; [by apply Hs|by right]. }
    eapply triple_bind; [eapply triple_pre; [|apply Hdiscard]; by intros w []|intros ?]. destruct (negb _); [|by apply record_failed_settled].
    destruct (res_Error (ap_result a)); [by apply triple_fail|].
    eapply triple_bind; [apply set_dispositionErr_settled|intros ?; by apply triple_fail].
  - apply orb_false_iff in Hf as [_ Hd]. apply bool_decide_eq_false in Hd.
    destruct (ap_floorErr a) as [e|].
    + eapply triple_bind; [eapply triple_pre; [|apply Hdiscard]; by intros w []|intros ?].
      destruct (negb _); [|apply record_failed_settled, floor_result_failing].
      eapply triple_bind; [apply set_dispositionErr_settled|intros ?; by apply triple_fail].
    + eapply triple_pre with (P' := entered n (aw_totalRecords (rs_writer s))); [by intros w [Hw <-]|].
      eapply triple_bind; [apply replay_entered|intros ?]. eapply triple_bind; [apply flush_entered|intros ?].
      apply triple_own. intros s'. by apply record_applied_settled.
Qed.

(** Under [--continue-on-error] only a terminal error comes out. *)
Lemma terminal_is e : isTerminalDispatchError (terminalDispatch e) = true.
Proof. done. Qed.
Lemma commitAggregate_terminal a :
  lo_ContinueOnError o = true → raises (λ e, isTerminalDispatchError e = true) (commitAggregateApplication a).
Proof.
  intros Hc. unfold MultiApply.commitAggregateApplication, MultiApply.record_failed, replay, flush_input, record_applied, on_writer, on_ledgers, record_with,
    beginInput, discardInput.
  rewrite Hc. cbn [negb].
  assert (∀ res, raises (λ e, isTerminalDispatchError e = true) (record_failed res a)) as Hrec.
  { intros res. unfold MultiApply.record_failed, record_with. apply raises_bind.
    - apply raises_bind; [done|]. intros s. destruct (recordFailedAggregateInput _ _ _ _ _). by apply raises_bind.
    - intros [e|]; [by apply raises_fail|done]. }
  apply raises_bind; [by apply raises_zoom|intros ?]. destruct (ap_externalFieldsErr a).
  { apply raises_bind; [by apply raises_zoom|intros ?]. apply Hrec. }
  apply raises_bind; [apply raises_zoom; by destruct (lo_EmitInputIdentity _)|intros ?]. apply raises_bind; [done|intros s].
  destruct (_ || _); [apply raises_bind; [by apply raises_zoom|intros ?; apply Hrec]|].
  destruct (ap_floorErr a); [apply raises_bind; [by apply raises_zoom|intros ?; apply Hrec]|].
  apply raises_bind; [apply raises_bind; [apply raises_attempt|intros [|]; [done|by apply raises_fail]]|intros ?].
  apply raises_bind; [apply raises_bind; [apply raises_attempt|intros [|]; [done|by apply raises_fail]]|intros ?].
  apply raises_bind; [done|intros s'].
  apply raises_bind; [done|intros ?]. apply raises_bind; [done|intros ?]. apply raises_bind; [|done].
  destruct (lo_manifestEnabled _); [|done]. destruct (ledgerForInput _ _ _ _ _ _); [done|by apply raises_fail].
Qed.
End commit.
