(* ===== verification/MultiDispatch.v ===== *)
(** * Many recipes over one set of inputs
    (cmd/sumpter/commands/extract_multi_dispatch.go, file_list_verify.go)

    Each input is prepared, verified where its list declares it, parsed once and
    built for every recipe; the outcome is then committed to every recipe in
    turn. [processInputs] does so serially or on the pool of [InputWorkers]. *)
From Stdlib Require Import Ascii ZArith Lia.
From stdpp Require Import base list strings gmap sets.
From S2P Require Import Prelude GoStrings GoFloat GoStrconv GoValue GoPath RefSource DslTypes JsonScan DurableFs DurableCommit AggregateWriter ProvRoot Provenance Extract ExtractPrepare ExtractFile Ledger JsonTarget MultiApply InputWorkers.

(** ** Options *)
Record multi_options := {
  mu_Files : string; mu_FileList : string; mu_InputPath : string;
  mu_InputWorkers : Z;
  mu_ContinueOnError : bool;
  mu_EmitInputIdentity : bool;
  mu_boundedCloudInput : bool;     (* cloud inputs staged one by one *)
  mu_root : root_options;
}.
Definition validateSharedInputMode (s : multi_options) : result () :=
  let modes := length (filter (λ v, v ≠ "") [mu_Files s; mu_FileList s; mu_InputPath s]) in
  if (modes =? 0)%nat then errorf "extract-multi requires one of --files, --file-list, or --input-path" []
  else if (1 <? modes)%nat then errorf "extract-multi accepts only one of --files, --file-list, or --input-path" []
  else Ok ().
Definition requireOutputRoot (outputRoot : string) : result () :=
  if outputRoot =s? "" then errorf "extract-multi requires --output-path (each recipe writes to <output-root>/<recipe-id>/)" []
  else Ok ().

(** ** How a run ended *)
Definition errRecipePartialFailure : gerror := Errorf "recipe partial failure" [].
Definition recipePartialFailure (recipeID : string) (applied failed : nat) : gerror :=
  Errorf "recipe %q partial failure: applied=%d failed=%d: %w"
    [AStr recipeID; AInt (Z.of_nat applied); AInt (Z.of_nat failed); AErr errRecipePartialFailure].
Definition classifyProcessRunTerminal (e : option gerror) : string :=
  match e with
  | None => "completed"
  | Some e =>
      if errors_Is "context canceled" e then "canceled"
      else if errors_Is (gerror_format errRecipePartialFailure) e then "partial"
      else "run_error"
  end.

(** ** The outcome of an input *)
Record builtInputOutcome := {
  bo_idx : nat; bo_file : string; bo_logical : string;
  bo_parseErr : option gerror;
  bo_rawErr : option gerror;
  bo_apps : list application;
  bo_records : nat;
  bo_sha256 : string; bo_size : Z;
}.
Definition bo_ordinal (o : builtInputOutcome) : nat := S (bo_idx o).
(** An outcome, or a panic nobody recovers from. *)
Inductive built := Built (o : builtInputOutcome) | Crashing (v : string).
Inductive run_end := Failed (e : gerror) | Crashed (v : string).
Definition built_records (b : built) : nat := match b with Built o => bo_records o | Crashing _ => 0 end.

(** One line of a file list with its declared identity. *)
Record fileListDeclaration := { fd_SHA256 : string; fd_Size : Z }.
Definition declarationAt (decls : list (option fileListDeclaration)) (ordinal : nat) : option fileListDeclaration :=
  match ordinal with 0 => None | S i => default None (decls !! i) end.

Section dispatch.
Context `{UC : UnicodeCase, UP : UriParser, FS : FileSystem, HD : HostDirs, ET : ErrorText, EN : Engine}.
Context (RecordDocument : dnode → result Document) (json_copy : vmap → result vmap) (now : Z).
Context (marshal : Envelope → result string) (show_float : f64 → string).
Context (panics : nat → string → option string).
Context (shared : multi_options) (files : list string) (logicalByLocal : gmap string string).
Context (declarations : list (option fileListDeclaration)) (acquireFailures : gmap nat gerror).
Context (plans : list RecipePlan).

(** *** Preparing, verifying and parsing *)

(** The staged copy of an input: where it is, its logical name, or the error
    and the name it is shown by; none for a local input, read in place. *)
Context (acquire : string → option (res (string * gerror) (string * string))).
(** [snapshotAndIdentifyInput]: the copy that was hashed. *)
Record snapshot := { sn_Path : string; sn_SHA256 : string; sn_Size : Z }.
Context (identify : string → option fileListDeclaration → result snapshot).
Context (remove_snapshot : snapshot → option gerror).
(** [parseFile]: a document, an error or a panic; [provenance.HashLocalInput]. *)
Inductive parsed := Parsed (doc : Document) | ParseFailed (e : gerror) | ParsePanicked (v : string).
Context (parseFile : string → parsed) (hash : string → result (string * Z)).

Definition prepareInput (ref : string) : res (string * gerror) (string * string) :=
  match (if mu_boundedCloudInput shared then acquire ref else None) with
  | Some r => r
  | None => Ok (ref, logicalIdentity logicalByLocal ref)
  end.
Definition parseInputContained (path : string) : parsed :=
  match parseFile path with
  | ParsePanicked v => ParseFailed (Errorf "panic while parsing input: %v" [AStr v])
  | r => r
  end.
Definition failed_outcome (idx : nat) (file logical : string) (shown_as raw : option gerror) (sha : string) (size : Z) : builtInputOutcome := {|
  bo_idx := idx; bo_file := file; bo_logical := logical; bo_parseErr := shown_as; bo_rawErr := raw; bo_apps := []; bo_records := 0;
  bo_sha256 := sha; bo_size := size |}.
Definition at_input (idx : nat) (local logical : string) (e : gerror) : gerror :=
  Errorf "input %d (%s): %w" [AInt (Z.of_nat (S idx)); AStr (provenanceRootInputLabel (mu_root shared) local logical); AErr e].
(** The snapshot goes whatever happened; failing to remove it ends the run. *)
Definition after_cleanup (snap : option snapshot) (b : built) : built :=
  match b, match snap with Some s => remove_snapshot s | None => None end with
  | Built o, Some e =>
      Built {| bo_idx := bo_idx o; bo_file := bo_file o; bo_logical := bo_logical o;
               bo_parseErr := Some (errors_join (match bo_parseErr o with Some e' => [e'; terminalDispatch e] | None => [terminalDispatch e] end));
               bo_rawErr := bo_rawErr o; bo_apps := []; bo_records := bo_records o; bo_sha256 := bo_sha256 o; bo_size := bo_size o |}
  | b, _ => b
  end.
Definition build_parsed (ctx : nat → option gerror) (idx : nat) (local logical file : string) (snap : option snapshot) (doc : Document)
    : builtInputOutcome :=
  match match snap with Some s => Ok (sn_SHA256 s, sn_Size s) | None => hash local end with
  | Err e => failed_outcome idx local logical (Some (provenanceRootInputError (mu_root shared) e local logical [])) (Some e) "" 0
  | Ok (sha, size) =>
      let apps := (λ p, withInputDigest (buildApplicationContained RecordDocument json_copy now marshal show_float panics p ctx file logical
                    (S idx) sha size doc) sha size) <$> plans in
      {| bo_idx := idx; bo_file := file; bo_logical := logical; bo_parseErr := None; bo_rawErr := None;
         bo_apps := apps; bo_records := sum_list_with recordCount apps; bo_sha256 := sha; bo_size := size |}
  end.
Definition buildInputOutcome (parse : string → parsed) (ctx : nat → option gerror) (idx : nat) (ref : string) : built :=
  let root := mu_root shared in
  match acquireFailures !! S idx with
  | Some e => Built (failed_outcome idx ref ref (Some e) (Some e) "" 0)
  | None =>
      let decl := declarationAt declarations (S idx) in
      match prepareInput ref with
      | Err (logical, e) =>
          let e' := provenanceRootInputError root e "" logical [] in
          let e' := match decl with Some _ => at_input idx "" logical e' | None => e' end in
          Built (failed_outcome idx logical logical (Some e') (Some e) "" 0)
      | Ok (local, logical) =>
          match (if bool_decide (decl ≠ None) || mu_EmitInputIdentity shared then Some <$> identify local decl else Ok None) with
          | Err e =>
              let e := provenanceRootInputError root (sanitizePrivateInputError e logical [local]) local logical [] in
              Built (failed_outcome idx logical logical (Some (at_input idx local logical e)) None "" 0)
          | Ok snap =>
              let parseTarget := match snap with Some s => sn_Path s | None => local end in
              let sha := match snap with Some s => sn_SHA256 s | None => "" end in
              let size := match snap with Some s => sn_Size s | None => 0%Z end in
              after_cleanup snap
                match parse parseTarget with
                | ParsePanicked v => Crashing v
                | ParseFailed e =>
                    let e' := provenanceRootInputError root (sanitizePrivateInputError e logical [parseTarget; local]) local logical [parseTarget] in
                    Built (failed_outcome idx local logical (Some e') (Some e) sha size)
                | Parsed doc =>
                    let file := if mu_boundedCloudInput shared then logical else local in
                    Built (build_parsed ctx idx local logical file snap doc)
                end
          end
      end
  end.

(** *** Committing *)
Section commit.
Context {P : Type} (vp_begin vp_commit vp_discard : P → P) (vp_stage : P → string → P).
Context (fault : nat → option nat) (pick : fsys → nat).
Context (cloud_open : string → io (aggregateWriter P) nat) (cloud_publish : string → io (aggregateWriter P) ()).
Context (row_identity : string → option (nat * string)).
Context (validate publish : RecipePlan → io (target P) ()).
(** Whether the process-run stream is on; the inputs of the run. *)
Context (telemetry : bool).

Record dispatcher := {
  di_states : list (recipeRunState P);
  di_done : nat;                        (* processRunDone *)
  di_progress : list (nat * nat);       (* the progress events *)
}.
Local Notation dio := (io dispatcher).
(** A program on the state of one recipe. *)
Definition on_state {A} (i : nat) (s : recipeRunState P) (m : io (recipeRunState P) A) : dio A :=
  zoom (λ d, default s (di_states d !! i))
    (λ s d, {| di_states := <[i := s]> (di_states d); di_done := di_done d; di_progress := di_progress d |}) m.
Definition noteSettledInput : dio () :=
  if telemetry then
    set_own (λ d, {| di_states := di_states d; di_done := S (di_done d);
                     di_progress := di_progress d ++ [(S (di_done d), length files)] |})
  else mret ().
(** Each recipe records the failure; the errors of recording it are joined. *)
Fixpoint record_all (f : RecipePlan → io (recipeRunState P) (option gerror)) (i : nat) (ps : list RecipePlan) : dio (list gerror) :=
  match ps with
  | [] => mret []
  | p :: ps =>
      d ← own;
      match di_states (d : dispatcher) !! i with
      | None => mret []
      | Some s =>
          r ← on_state i s (f p);
          rs ← record_all f (S i) ps;
          mret (match r : option gerror with Some e => e :: (rs : list gerror) | None => rs end)
      end
  end.
(** Each application goes to its recipe; an error ends the input, unless the run
    continues and it is not terminal. *)
Fixpoint commit_all (ctx : option gerror) (i : nat) (ps : list RecipePlan) (apps : list application) : dio () :=
  match ps, apps with
  | p :: ps, a :: apps =>
      d ← own;
      match di_states (d : dispatcher) !! i with
      | None => mret ()
      | Some s =>
          r ← attempt (on_state i s (commit_application vp_begin vp_commit vp_discard vp_stage fault pick cloud_open cloud_publish
                                       row_identity hash validate publish p ctx a));
          match r : result () with
          | Err e => if negb (mu_ContinueOnError shared) || isTerminalDispatchError e then fail e else commit_all ctx (S i) ps apps
          | Ok _ => commit_all ctx (S i) ps apps
          end
      end
  | _, _ => mret ()
  end.
Definition commitBuiltOutcome (ctx : option gerror) (o : builtInputOutcome) : dio () :=
  let root := mu_root shared in
  match bo_parseErr o with
  | Some e =>
      let raw := default e (bo_rawErr o) in
      let reason := match unavailableClass raw with Some _ => InputUnavailable | None => ParseErrorReason end in
      let e := provenanceRootInputError root e (bo_file o) (bo_logical o) [] in
      errs ← record_all (λ p, recordInputFailure hash p (bo_file o) (bo_logical o) (bo_sha256 o) (bo_size o) e reason raw) 0 plans;
      _ ← noteSettledInput;
      match errs : list gerror with
      | [] => if isTerminalDispatchError e then fail e
              else if negb (mu_ContinueOnError shared)
              then fail (fail_fast_error (provenanceRootInputLabel root (bo_file o) (bo_logical o)) raw e)
              else mret ()
      | _ => fail (terminalDispatch (errors_join errs))
      end
  | None =>
      r ← attempt (commit_all ctx 0 plans (bo_apps o));
      _ ← noteSettledInput;
      match r : result () with Ok _ => mret () | Err e => fail e end
  end.

(** ** The run over the inputs *)
Local Notation dworld := (world dispatcher).
Definition no_ctx (n : nat) : option gerror := None.
Definition commit_built (b : built) (w : dworld) : dworld * option run_end :=
  match b with
  | Crashing v => (w, Some (Crashed v))
  | Built o => let '(w, r) := commitBuiltOutcome None o w in
               (w, match r with Ok _ => None | Err e => Some (Failed e) end)
  end.
Definition build_serial (i : nat) : built := buildInputOutcome parseFile no_ctx i (default "" (files !! i)).
Definition build_worker (i : nat) : built := buildInputOutcome parseInputContained no_ctx i (default "" (files !! i)).
(** What a worker may build once the context is done. *)
Definition build_late (i : nat) (b : built) : Prop :=
  ∃ ctx, b = buildInputOutcome parseInputContained ctx i (default "" (files !! i)).
Definition ctx_canceled : run_end := Failed (Errorf "context canceled" []).
Definition serial_run (done : nat → bool) (w : dworld) : dworld * option run_end :=
  processInputsSerial (length files) build_serial commit_built ctx_canceled done w.
Definition inFlightRecordsPerSlot : Z := 25000.
Definition input_workers : nat := Z.to_nat (mu_InputWorkers shared).
Definition max_in_flight : Z := Z.of_nat (pool_window input_workers) * inFlightRecordsPerSlot.
Definition workers_run : dworld → pool built dworld run_end → Prop :=
  runs_to (length files) input_workers max_in_flight build_worker build_late built_records commit_built ctx_canceled.
(** [processInputs] on a context that is not done: its result. *)
Definition processInputs (w w' : dworld) (r : option run_end) : Prop :=
  if (mu_InputWorkers shared <=? 1)%Z then serial_run (λ _, false) w = (w', r)
  else ∃ q, workers_run w q ∧ q_drain q = DReturned ∧ q_state q = w' ∧ q_err q = r.

(** The dispatcher before the first input. *)
Definition new_states (profile : P) : list (recipeRunState P) :=
  (λ _, mkRecipe (new_ledgers (length files)) (newAggregateWriter profile) profile false) <$> plans.
Definition dispatch_start (fs : fsys) (profile : P) : dworld := {|
  w_fs := fs; w_calls := 0; w_trace := [fs];
  w_own := {| di_states := new_states profile; di_done := 0; di_progress := [] |} |}.
End commit.
End dispatch.
Arguments dispatcher P : clear implicits.
