(* ===== verification/MultiDispatchSpec.v ===== *)
(** * The run over the inputs, for many recipes
    (cmd/sumpter/commands/extract_multi_dispatch.go)

    The number of workers does not change what a run does; and a run over
    aggregate recipes that goes through has settled every input in every
    recipe's ledgers, with an inventory that agrees with the failures. *)
From Stdlib Require Import Ascii ZArith Lia.
From stdpp Require Import base list strings gmap sets relations.
From S2P Require Import Prelude GoStrings GoFloat GoStrconv GoValue GoPath RefSource DslTypes JsonScan DurableFs DurableFsSpec DurableCommit AggregateWriter ProvRoot Provenance Extract ExtractPrepare ExtractFile Ledger JsonTarget MultiApply MultiApplySpec InputWorkers InputWorkersSpec MultiDispatch.

Section dispatch.
Context `{UC : UnicodeCase, UP : UriParser, FS : FileSystem, HD : HostDirs, ET : ErrorText, EN : Engine}.
Context (RecordDocument : dnode → result Document) (json_copy : vmap → result vmap) (now : Z).
Context (marshal : Envelope → result string) (show_float : f64 → string).
Context (panics : nat → string → option string).
Context (shared : multi_options) (files : list string) (logicalByLocal : gmap string string).
Context (declarations : list (option fileListDeclaration)) (acquireFailures : gmap nat gerror).
Context (plans : list RecipePlan).
Context (acquire : string → option (res (string * gerror) (string * string))).
Context (identify : string → option fileListDeclaration → result snapshot) (remove_snapshot : snapshot → option gerror).
Context (parseFile : string → parsed) (hash : string → result (string * Z)).
Local Notation buildInputOutcome := (buildInputOutcome RecordDocument json_copy now marshal show_float panics shared logicalByLocal
  declarations acquireFailures plans acquire identify remove_snapshot hash).
Local Notation build_parsed := (build_parsed RecordDocument json_copy now marshal show_float panics shared plans hash).

(** ** What is built *)
Lemma with_error_sound (res : ExtractResult) f : res_Error (with_error res f) ≠ None ↔ res_Error res ≠ None.
Proof. unfold with_error. by destruct (res_Error res) eqn:E; cbn; rewrite ?E. Qed.
Lemma with_error_disposition (res : ExtractResult) f : res_Disposition (with_error res f) = res_Disposition res.
Proof. unfold with_error. by destruct (res_Error res). Qed.
Lemma shown_sound res f g : (res_Error res ≠ None → failing res) →
  res_Error (with_detail (with_error res f) g) ≠ None → failing (with_detail (with_error res f) g).
Proof.
  intros H He. unfold failing, with_detail, set_disposition in *. cbn in *. rewrite with_error_disposition.
  apply H. by apply (with_error_sound res f).
Qed.
Lemma build_application_sound p ctx file logical ordinal identity doc :
  sound_application (build_application RecordDocument json_copy now marshal show_float p ctx file logical ordinal identity doc).
Proof.
  unfold sound_application, build_application. destruct (pl_fields p logical) as [ext|e]; [|done].
  match goal with |- context [ProcessParsedDocument ?a ?b ?c ?d ?e ?r ?l ?doc] =>
    pose proof (ProcessParsed_honest a b c d e r l doc _ eq_refl) as [_ Hh];
    destruct (ProcessParsedDocument a b c d e r l doc) as [log res] end.
  cbn [snd] in Hh. destruct (provenanceRootActive _); cbn [ap_result]; by apply shown_sound.
Qed.
Lemma digest_sound a sha size : sound_application a → sound_application (withInputDigest a sha size).
Proof. done. Qed.
Lemma contained_sound p ctx file logical ordinal sha size doc :
  sound_application (buildApplicationContained RecordDocument json_copy now marshal show_float panics p ctx file logical ordinal sha size doc).
Proof.
  unfold buildApplicationContained. destruct (panics _ _); [by right|].
  destruct (pl_aggregate p); [apply digest_sound|]; apply build_application_sound.
Qed.
Definition sound_outcome (o : builtInputOutcome) : Prop :=
  bo_parseErr o = None → length (bo_apps o) = length plans ∧ Forall sound_application (bo_apps o).
Lemma build_parsed_sound ctx idx local logical file snap doc :
  sound_outcome (build_parsed ctx idx local logical file snap doc).
Proof.
  unfold MultiDispatch.build_parsed, sound_outcome. destruct (match snap with Some s => _ | None => _ end) as [[sha size]|e]; [|done].
  intros _. cbn [bo_apps]. rewrite length_fmap. split; [done|]. apply Forall_fmap, Forall_true. intros p.
  apply digest_sound, contained_sound.
Qed.
Lemma build_sound parse ctx idx ref o : buildInputOutcome parse ctx idx ref = Built o → sound_outcome o.
Proof.
  unfold MultiDispatch.buildInputOutcome. destruct (acquireFailures !! S idx); [by intros [= <-]|].
  destruct (prepareInput _ _ _ ref) as [[local logical]|[logical e]]; [|by intros [= <-]].
  destruct (if bool_decide _ || _ then _ else _) as [snap|e]; [|by intros [= <-]].
  assert (∀ o', sound_outcome o' → after_cleanup remove_snapshot snap (Built o') = Built o → sound_outcome o) as Hc.
  { intros o' Ho'. unfold after_cleanup. destruct (match snap with Some s => _ | None => _ end) as [e|]; [|by intros [= <-]].
    by intros [= <-]. }
  destruct (parse _) as [doc|e|v]; [apply Hc, build_parsed_sound|by apply Hc|].
  unfold after_cleanup. by destruct snap as [s|]; [destruct (remove_snapshot s)|].
Qed.

(** ** The committer *)
Section commit.
Context {P : Type} (vp_begin vp_commit vp_discard : P → P) (vp_stage : P → string → P).
Context (fault : nat → option nat) (pick : fsys → nat).
Context (cloud_open : string → io (aggregateWriter P) nat) (cloud_publish : string → io (aggregateWriter P) ()).
Context (row_identity : string → option (nat * string)).
Context (validate publish : RecipePlan → io (target P) ()) (telemetry : bool).
Local Notation commit_all := (commit_all shared hash vp_begin vp_commit vp_discard vp_stage fault pick cloud_open cloud_publish
  row_identity validate publish).
Local Notation commitBuiltOutcome := (commitBuiltOutcome shared files plans hash vp_begin vp_commit vp_discard vp_stage fault pick cloud_open
  cloud_publish row_identity validate publish telemetry).
Local Notation commit_built := (commit_built shared files plans hash vp_begin vp_commit vp_discard vp_stage fault pick cloud_open
  cloud_publish row_identity validate publish telemetry).
Local Notation commit_application := (commit_application vp_begin vp_commit vp_discard vp_stage fault pick cloud_open cloud_publish
  row_identity hash validate publish).
Implicit Types w : world (dispatcher P).

(** Aggregate recipes under the run's own [--continue-on-error]. *)
Definition aggregate_plan (p : RecipePlan) : Prop :=
  pl_aggregate p = true ∧ wo_cloud (pl_writer p) = false ∧ lo_manifestEnabled (pl_opts p) = true
  ∧ lo_ContinueOnError (pl_opts p) = mu_ContinueOnError shared.
Context (Hplans : Forall aggregate_plan plans).

(** The recipes before the [i]th have settled one input more. *)
Definition settled_upto (n i : nat) w : Prop :=
  length (di_states (w_own w)) = length plans ∧
  ∀ j s p, di_states (w_own w) !! j = Some s → plans !! j = Some p →
    settled_with p (if j <? i then S n else n) (aw_totalRecords (rs_writer s)) s.
Lemma settled_all n w i : length plans ≤ i → settled_upto n i w ↔ settled_upto (S n) 0 w.
Proof.
  intros Hi. unfold settled_upto. split; intros [Hlen H]; (split; [done|]); intros j s p Hs Hp;
    specialize (H j s p Hs Hp); pose proof (lookup_lt_Some _ _ _ Hp); destruct (Nat.ltb_spec j i); try lia; done.
Qed.
Lemma on_state_settled {A} n i p s (m : io (recipeRunState P) A) (Q : A → Prop) :
  plans !! i = Some p →
  (triple (settled_to p n) m (λ a u, Q a → settled_to p (S n) u) none) →
  triple (λ w, settled_upto n i w ∧ di_states (w_own w) !! i = Some s) (on_state i s m) (λ a w, Q a → settled_upto n (S i) w) none.
Proof.
  intros Hp Hm w [[Hlen Hw] Hs]. unfold on_state, zoom. rewrite Hs. cbn [default].
  match goal with |- context [m ?w0] => specialize (Hm w0); destruct (m w0) as [w' [a|e]] end; [|done].
  intros HQ. unfold settled_upto. cbn [w_own di_states]. rewrite length_insert. split; [done|].
  intros j s' p' Hj Hp'. destruct (decide (j = i)) as [->|Hne].
  - rewrite list_lookup_insert_eq in Hj by (rewrite Hlen; by apply lookup_lt_Some in Hp).
    injection Hj as <-. rewrite Hp in Hp'. injection Hp' as <-.
    assert (i <? S i = true) as -> by (apply Nat.ltb_lt; lia). apply Hm; [|done].
    unfold settled_to. cbn. specialize (Hw i s p Hs Hp). by rewrite Nat.ltb_irrefl in Hw.
  - rewrite list_lookup_insert_ne in Hj by done. specialize (Hw j s' p' Hj Hp').
    destruct (Nat.ltb_spec j i), (Nat.ltb_spec j (S i)); try lia; done.
Qed.

Lemma raises_on_state {A} φ i s (m : io (recipeRunState P) A) : raises φ m → raises φ (on_state i s m).
Proof. apply raises_zoom. Qed.

(** Committing to every recipe: what does not end the run settles the input. *)
Lemma commit_all_settled n ctx ps i apps :
  ps = drop i plans → length apps = length ps → Forall sound_application apps →
  triple (settled_upto n i) (commit_all ctx i ps apps) (λ _, settled_upto n (length plans)) none.
Proof.
  revert i apps. induction ps as [|p ps IH]; intros i apps Hps Hlen Hs.
  { apply triple_ret. intros w Hw. apply (settled_all n w (length plans)); [done|]. apply (settled_all n w i); [|done].
    symmetry in Hps. by apply skipn_nil_iff in Hps || (apply (f_equal length) in Hps; rewrite length_drop in Hps; cbn in Hps; lia). }
  destruct apps as [|a apps]; [done|]. inversion Hs as [|? ? Ha Hs']; subst. cbn [MultiDispatch.commit_all].
  assert (plans !! i = Some p) as Hp. { rewrite <- (Nat.add_0_r i), <- lookup_drop, <- Hps. done. }
  assert (ps = drop (S i) plans) as Hps'. { rewrite (drop_S plans p i Hp) in Hps. by injection Hps. }
  pose proof (proj1 (Forall_lookup _ _) Hplans i p Hp) as (Hagg & Hlocal & Hman & Hco).
  apply triple_own. intros d. destruct (di_states d !! i) as [s|] eqn:Hd.
  2:{ intros w [[Hl _] <-]. apply lookup_ge_None in Hd. apply lookup_lt_Some in Hp. lia. }
  assert (triple (settled_to p n) (commit_application p ctx a) (λ _, settled_to p (S n)) none) as Hc.
  { unfold MultiApply.commit_application. rewrite Hagg. by apply commitAggregate_settled. }
  set (m := on_state i s _).
  assert (triple (λ w, settled_upto n i w ∧ w_own w = d) m (λ _, settled_upto n (S i)) none) as Hm.
  { eapply triple_conseq; [apply (on_state_settled n i p s _ (λ _, True) Hp)|intros w [Hw <-]; by split|intros ? w Hw; by apply Hw|done].
    eapply triple_conseq; [apply Hc|done|by intros|done]. }
  intros w Hw. pose proof (Hm w Hw) as Hsettled. unfold attempt, mbind, io_bind.
  assert (raises (λ e, mu_ContinueOnError shared = true → isTerminalDispatchError e = true) m) as Hr.
  { intros u. destruct (mu_ContinueOnError shared) eqn:Hcoe; [|by destruct (m u).2].
    apply raises_on_state. unfold MultiApply.commit_application. rewrite Hagg. eapply raises_impl; [|apply commitAggregate_terminal; congruence]. done. }
  specialize (Hr w). destruct (m w) as [w' [[]|e]]; cbn [snd] in *.
  - apply (IH (S i) apps Hps'); [by injection Hlen|done|done].
  - destruct (mu_ContinueOnError shared); cbn [negb orb]; [|done]. by rewrite Hr.
Qed.

(** Recording a failure in every recipe settles the input, unless one refuses. *)
Lemma record_failure_settled n p file logical sha size cause reason raw :
  pl_aggregate p = true →
  triple (settled_to (P := P) p n) (recordInputFailure hash p file logical sha size cause reason raw)
    (λ r u, r = None → settled_to p (S n) u) none.
Proof.
  intros Hagg. unfold recordInputFailure. rewrite Hagg. apply record_with_settled. intros l l' r Hl Hr ->.
  split; [|by eapply recordFailedAggregate_counts].
  eapply recordFailedAggregate_accounted; [|done|done]. destruct (bool_decide _); by right.
Qed.
Lemma record_all_settled n (f : RecipePlan → io (recipeRunState P) (option gerror)) ps i :
  (∀ p, pl_aggregate p = true → triple (settled_to p n) (f p) (λ r u, r = None → settled_to p (S n) u) none) →
  ps = drop i plans → triple (settled_upto n i) (record_all f i ps) (λ rs w, rs = [] → settled_upto n (length plans) w) none.
Proof.
  intros Hf. revert i. induction ps as [|p ps IH]; intros i Hps.
  { apply triple_ret. intros w Hw _. apply (settled_all n w (length plans)); [done|]. apply (settled_all n w i); [|done].
    apply (f_equal length) in Hps. rewrite length_drop in Hps. cbn in Hps. lia. }
  cbn [MultiDispatch.record_all].
  assert (plans !! i = Some p) as Hp. { rewrite <- (Nat.add_0_r i), <- lookup_drop, <- Hps. done. }
  assert (ps = drop (S i) plans) as Hps'. { rewrite (drop_S plans p i Hp) in Hps. by injection Hps. }
  pose proof (proj1 (Forall_lookup _ _) Hplans i p Hp) as (Hagg & _).
  apply triple_own. intros d. destruct (di_states d !! i) as [s|] eqn:Hd.
  2:{ intros w [[Hl _] <-]. apply lookup_ge_None in Hd. apply lookup_lt_Some in Hp. lia. }
  eapply triple_bind.
  { eapply triple_pre; [|apply (on_state_settled n i p s (f p) (λ r, r = None) Hp), Hf, Hagg]. intros w [Hw <-]. by split. }
  intros [e|].
  - eapply (triple_bind _ _ _ _ (λ _ _, True)); [|intros rs; by apply triple_ret].
    intros w _. by destruct (record_all f (S i) ps w) as [w' [rs|]].
  - eapply triple_bind; [eapply triple_pre; [|apply (IH (S i) Hps')]; intros w Hw; by apply Hw|].
    intros rs. by apply triple_ret.
Qed.
Lemma note_settled n i : triple (settled_upto n i) (noteSettledInput files telemetry) (λ _, settled_upto n i) none.
Proof. unfold noteSettledInput. destruct telemetry; [by apply triple_set_own|by apply triple_ret]. Qed.

(** An outcome committed without an error has settled its input in every recipe. *)
Lemma commitBuilt_settled n ctx o :
  sound_outcome o → triple (settled_upto n 0) (commitBuiltOutcome ctx o) (λ _, settled_upto (S n) 0) none.
Proof.
  intros Ho. eapply triple_conseq with (Q' := λ _, settled_upto n (length plans)); [|done|intros ? w Hw; by apply (settled_all n w (length plans))|done].
  unfold MultiDispatch.commitBuiltOutcome. destruct (bo_parseErr o) as [e|] eqn:He.
  - set (reason := match unavailableClass _ with Some _ => _ | None => _ end).
    eapply triple_bind; [apply (record_all_settled n); [|done]|].
    { intros p Hp. by apply record_failure_settled. }
    intros errs. eapply triple_bind with (Q' := λ _ w, errs = [] → settled_upto n (length plans) w).
    { destruct errs; [|by intros w _; unfold noteSettledInput; destruct telemetry].
      eapply triple_conseq; [apply (note_settled n (length plans))|intros w Hw; by apply Hw|done|done]. }
    intros ?. destruct errs as [|e' errs]; [|by apply triple_fail].
    destruct (isTerminalDispatchError _); [by apply triple_fail|]. destruct (negb _); [by apply triple_fail|].
    apply triple_ret. intros w Hw. by apply Hw.
  - destruct (Ho He) as [Hlen Hs].
    eapply triple_bind with (Q' := λ r w, r = Ok () → settled_upto n (length plans) w).
    { apply triple_attempt. eapply triple_conseq; [by apply (commit_all_settled n ctx plans 0)|done|done|done]. }
    intros r. eapply triple_bind with (Q' := λ _ w, r = Ok () → settled_upto n (length plans) w).
    { destruct r as [[]|]; [|by intros w _; unfold noteSettledInput; destruct telemetry].
      eapply triple_conseq; [apply (note_settled n (length plans))|intros w Hw; by apply Hw|done|done]. }
    intros ?. destruct r as [[]|]; [|by apply triple_fail]. apply triple_ret. intros w Hw. by apply Hw.
Qed.

(** ** The run *)
Local Notation build_serial := (build_serial RecordDocument json_copy now marshal show_float panics shared files logicalByLocal declarations
  acquireFailures plans acquire identify remove_snapshot parseFile hash).
Local Notation build_worker := (build_worker RecordDocument json_copy now marshal show_float panics shared files logicalByLocal declarations
  acquireFailures plans acquire identify remove_snapshot parseFile hash).
Local Notation serial := (processInputsSerial (length files)).
Local Notation serial_run := (serial_run RecordDocument json_copy now marshal show_float panics shared files logicalByLocal declarations
  acquireFailures plans acquire identify remove_snapshot parseFile hash vp_begin vp_commit vp_discard vp_stage fault pick cloud_open
  cloud_publish row_identity validate publish telemetry).
Local Notation workers_run := (workers_run RecordDocument json_copy now marshal show_float panics shared files logicalByLocal declarations
  acquireFailures plans acquire identify remove_snapshot parseFile hash vp_begin vp_commit vp_discard vp_stage fault pick cloud_open
  cloud_publish row_identity validate publish telemetry).
Local Notation processInputs := (processInputs RecordDocument json_copy now marshal show_float panics shared files logicalByLocal declarations
  acquireFailures plans acquire identify remove_snapshot parseFile hash vp_begin vp_commit vp_discard vp_stage fault pick cloud_open
  cloud_publish row_identity validate publish telemetry).

(** The workers do what the serial loop does with what a worker builds. *)
Lemma workers_serial w w' r :
  (1 < mu_InputWorkers shared)%Z →
  (∃ q, workers_run w q ∧ q_drain q = DReturned ∧ q_state q = w' ∧ q_err q = r) ↔
  serial build_worker commit_built ctx_canceled (λ _, false) w = (w', r).
Proof.
  intros Hw. assert (0 < input_workers shared) as Hworkers by (unfold input_workers; lia).
  assert (0 < max_in_flight shared)%Z as Hmax by (unfold max_in_flight, inFlightRecordsPerSlot, pool_window; lia).
  split.
  - intros (q & Hrun & Hd & <- & <-). apply runs_inv in Hrun. symmetry. by eapply returned_serial.
  - intros Hs. edestruct (pool_finishes (length files) (input_workers shared) (max_in_flight shared) build_worker
      (build_late RecordDocument json_copy now marshal show_float panics shared files logicalByLocal declarations acquireFailures plans
        acquire identify remove_snapshot parseFile hash) built_records commit_built ctx_canceled w Hworkers Hmax) as (q & Hrun & Hd);
      [apply pool_inv_start|].
    exists q. split; [exact Hrun|]. split; [done|]. apply runs_inv in Hrun.
    pose proof (returned_serial _ _ _ _ _ _ _ _ _ _ Hrun Hd) as E. unfold serial in *. rewrite Hs in E. by injection E.
Qed.
(** Containing a panic matters only where the parser panics. *)
Lemma build_contained i : (∀ path v, parseFile path ≠ ParsePanicked v) → build_worker i = build_serial i.
Proof.
  intros Hp. unfold MultiDispatch.build_worker, MultiDispatch.build_serial, MultiDispatch.buildInputOutcome.
  assert (∀ path, parseInputContained parseFile path = parseFile path) as E.
  { intros path. unfold parseInputContained. specialize (Hp path). destruct (parseFile path) as [|?|v]; [done|done|by destruct (Hp v)]. }
  destruct (acquireFailures !! S i); [done|]. destruct (prepareInput _ _ _ _) as [[local logical]|]; [|done].
  destruct (if _ || _ then _ else _) as [snap|]; [|done]. by rewrite E.
Qed.
Lemma serial_ext build build' i n w :
  (∀ j, build j = build' j) → serial_from build commit_built ctx_canceled (λ _, false) i n w = serial_from build' commit_built ctx_canceled (λ _, false) i n w.
Proof.
  intros H. revert i w. induction n as [|n IH]; intros i w; [done|]. cbn. rewrite H.
  destruct (commit_built (build' i) w) as [w' [e|]]; [done|apply IH].
Qed.

(** Every input built is settled. *)
Definition sound_built (b : built) : Prop := match b with Built o => sound_outcome o | Crashing _ => True end.
Lemma build_built parse ctx idx ref : sound_built (buildInputOutcome parse ctx idx ref).
Proof. destruct (buildInputOutcome parse ctx idx ref) as [o|v] eqn:E; [by eapply build_sound|done]. Qed.
Lemma commit_built_settled n b w w' :
  sound_built b → settled_upto n 0 w → commit_built b w = (w', None) → settled_upto (S n) 0 w'.
Proof.
  destruct b as [o|v]; [|done]. intros Ho Hw. cbn. pose proof (commitBuilt_settled n None o Ho w Hw) as H.
  destruct (commitBuiltOutcome None o w) as [w1 [[]|e]]; [|done]. by intros [= <-].
Qed.
Lemma serial_settled build i n k w w' :
  (∀ j, sound_built (build j)) → settled_upto k 0 w →
  serial_from build commit_built ctx_canceled (λ _, false) i n w = (w', None) → settled_upto (k + n) 0 w'.
Proof.
  intros Hb. revert i k w. induction n as [|n IH]; intros i k w Hw; cbn.
  { intros [= <-]. by rewrite Nat.add_0_r. }
  destruct (commit_built (build i) w) as [w1 [e|]] eqn:E; [done|]. intros H. replace (k + S n) with (S k + n) by lia.
  eapply IH; [|exact H]. by eapply commit_built_settled.
Qed.
Lemma start_accounted fs profile : settled_upto 0 0 (dispatch_start files plans fs profile).
Proof.
  split; [apply length_fmap|]. intros j s p Hs _. cbn [w_own di_states dispatch_start] in Hs. unfold new_states in Hs. apply list_lookup_fmap_Some in Hs as (? & -> & _).
  cbn. split; [apply accounted_new|done].
Qed.
Lemma run_settled fs profile w' :
  processInputs (dispatch_start files plans fs profile) w' None → settled_upto (length files) 0 w'.
Proof.
  unfold MultiDispatch.processInputs. destruct (Z.leb_spec (mu_InputWorkers shared) 1) as [Hw|Hw].
  - apply (serial_settled build_serial 0 (length files) 0); [intros; apply build_built|apply start_accounted].
  - intros H%workers_serial; [|done].
    revert H. apply (serial_settled build_worker 0 (length files) 0); [intros; apply build_built|apply start_accounted].
Qed.


(** C5: a run over aggregate recipes that goes through, on any number of workers, has
    settled every input once in every recipe: applied and failed add up to the
    inputs, each failure has its row in failures.json, the manifest's accounting
    accepts the inventory, its applied and not-applicable inputs are those
    applied, its failed ones are those of failures.json when no row is missing;
    and the records counted for the recipe are those its writer took and those
    its rows name. *)
Theorem multi_accounting fs profile w' j s p :
  processInputs (dispatch_start files plans fs profile) w' None →
  di_states (w_own w') !! j = Some s → plans !! j = Some p →
  let l := rs_ledgers s in
  let count := default 0 (lg_counts l !! lo_RecordType (pl_opts p)) in
  fm_Applied (lg_failures l) + fm_Failed (lg_failures l) = length files
  ∧ length (fm_Failures (lg_failures l)) = fm_Failed (lg_failures l)
  ∧ count = aw_totalRecords (rs_writer s) ∧ count = contributed (lg_inputs l)
  ∧ ∃ a, SetInputAccounting (lg_inputs l) = Ok a
         ∧ ac_applied a + ac_notApplicable a = fm_Applied (lg_failures l) ∧ ac_failed a ≤ fm_Failed (lg_failures l)
         ∧ (length (lg_inputs l) = length files → ac_failed a = fm_Failed (lg_failures l)).
Proof.
  intros Hrun Hs Hp l count. apply run_settled in Hrun as [_ Hrun].
  destruct (Hrun j s p Hs Hp) as [Hacc Hcount]. cbn in Hacc, Hcount. split_and!; try apply Hacc; try done.
  destruct (accounting_agrees _ _ _ Hacc) as (a & H1 & _ & H2 & H3 & H4). by exists a.
Qed.
End commit.
End dispatch.
