(* ===== verification/MultiFinish.v ===== *)
(** * The end of a run over many recipes
    (cmd/sumpter/commands: extract_multi_dispatch.go, extract_multi_aggregate.go)

    Every recipe is finalized, whether or not one before it failed: its shards
    are committed, its failures and dispositions written, then its manifest. What
    is still staged is discarded behind it. *)
From Stdlib Require Import Ascii ZArith Lia.
From stdpp Require Import base list strings gmap sets.
From S2P Require Import Prelude GoStrings GoFloat GoStrconv GoValue GoPath RefSource DslTypes JsonScan DurableFs DurableCommit AggregateWriter ProvRoot Provenance Extract ExtractPrepare ExtractFile Ledger JsonTarget MultiApply InputWorkers MultiDispatch.

(** A program that only uses the file system. *)
Definition on_files {C A} (m : io () A) : io C A := zoom (λ _, ()) (λ _ c, c) m.

Section finish.
Context `{EN : Engine}.
Context {P : Type} (fault : nat → option nat) (pick : fsys → nat).
Context (cloud_open : string → io (aggregateWriter P) nat) (cloud_publish : string → io (aggregateWriter P) ())
        (cloud_discard : io (aggregateWriter P) ()) (cloud_put : string → string → io (aggregateWriter P) ()).
(** [len(files)]. *)
Context (inputCount : nat).
(** The bytes of failures.json, dispositions.json and the manifest, with the
    accounting it shows and its shards. *)
Context (failures_bytes : extractFailureManifestFile → string) (dispositions_bytes : dispositionSummaryFile → string).
Context (manifest_bytes : RecipePlan → ledgers → option accounting → list AggregateOutput → string).
(** [validateAggregateBeforeManifest]; the descriptor; [maybeValidateExtractOutput];
    [os.WriteFile] and [Publish]; the incomplete manifest of published shards. *)
Context (validate_before : RecipePlan → ledgers → list AggregateOutput → result ()).
Context (descriptor validate_output : RecipePlan → ledgers → io () ()).
Context (put_file : RecipePlan → string → string → io () ()).
Context (cloud_incomplete : RecipePlan → ledgers → list AggregateOutput → io () ()).
Local Notation rio := (io (recipeRunState P)).
Local Notation on_writer := (on_writer (P := P)).

Definition set_finalized (s : recipeRunState P) : recipeRunState P := mkRecipe (rs_ledgers s) (rs_writer s) (rs_profile s) true.

Section recipe.
Context (p : RecipePlan).
Let o := pl_opts p.
Let out := wo_outputPath (pl_writer p).
Definition partially_failed (l : ledgers) : bool := lo_ContinueOnError o && (0 <? fm_Failed (lg_failures l)).
Definition has_dispositions (l : ledgers) : bool :=
  bool_decide (is_Some (pl_appCfg p)) && negb (out =s? "") && negb (bool_decide (ds_Files (lg_dispositions l) = [])).
(** How the recipe ended. *)
Definition recipe_status (l : ledgers) : rio () :=
  match lg_dispositionErr l with
  | Some e => fail e
  | None => if partially_failed l then fail (recipePartialFailure (pl_RecipeID p) (fm_Applied (lg_failures l)) (fm_Failed (lg_failures l)))
            else mret ()
  end.
(** The counts of the manifest, when every input has a row. *)
Definition input_accounting (l : ledgers) : result (option accounting) :=
  if length (lg_inputs l) =? fm_CohortSize (lg_failures l) then
    match SetInputAccounting (lg_inputs l) with
    | Ok a => Ok (Some a)
    | Err e => errorf "recipe %q: compute input accounting for aggregate manifest: %w" [AStr (pl_RecipeID p); AErr e]
    end
  else Ok None.
Definition agg_sidecar (name data : string) : rio () :=
  on_writer (put_sidecar fault pick (pl_writer p) cloud_put name data).
Definition agg_manifest (data : string) : rio () :=
  on_writer (if wo_cloud (pl_writer p) then cloud_put "manifest.json" data
             else on_commit (writeManifest fault pick (outputDir (pl_writer p)) (wo_durable (pl_writer p)) (Join out "manifest.json") data)).
Definition publish_manifest (l : ledgers) : rio () :=
  s ← own;
  let shards := aw_shards (rs_writer (s : recipeRunState P)) in
  a ← (λ w, (w, input_accounting l));
  _ ← (λ w, (w, wrapf "recipe %q: %w" [AStr (pl_RecipeID p)] (validate_before p l shards)));
  _ ← agg_manifest (manifest_bytes p l (a : option accounting) shards);
  _ ← set_own set_finalized;
  _ ← on_files (descriptor p l);
  on_files (validate_output p l).
Definition finalizeAggregate : rio () :=
  r ← attempt (on_writer (agg_commit fault cloud_open cloud_publish (pl_writer p) inputCount));
  match r : result () with
  | Err e => es ← on_writer (agg_abort fault cloud_discard (pl_writer p)); fail (errors_join (e :: (es : list gerror)))
  | Ok _ =>
      s ← own;
      let l := rs_ledgers (s : recipeRunState P) in
      _ ← (if partially_failed l then agg_sidecar "failures.json" (failures_bytes (lg_failures l)) else mret ());
      _ ← (if has_dispositions l then agg_sidecar "dispositions.json" (dispositions_bytes (lg_dispositions l)) else mret ());
      _ ← (if lo_manifestEnabled o then publish_manifest l else mret ());
      _ ← set_own set_finalized;
      recipe_status l
  end.
Definition finalizePerInput : rio () :=
  s ← own;
  let l := rs_ledgers (s : recipeRunState P) in
  let put name data := on_files (put_file p (Join out name) data) in
  _ ← (if partially_failed l then put "failures.json" (failures_bytes (lg_failures l)) else mret ());
  _ ← (if has_dispositions l then put "dispositions.json" (dispositions_bytes (lg_dispositions l)) else mret ());
  _ ← (if lo_manifestEnabled o then
         _ ← put "manifest.json" (manifest_bytes p l None []);
         _ ← on_files (descriptor p l);
         on_files (validate_output p l)
       else mret ());
  recipe_status l.
Definition finalize : rio () := if pl_aggregate p then finalizeAggregate else finalizePerInput.
(** Published shards of a recipe that did not finish are listed for the clean-up. *)
Definition writeIncompleteAggregateManifestOnFailure : rio () :=
  s ← own;
  let shards := aw_shards (rs_writer (s : recipeRunState P)) in
  if rs_finalized s || negb (wo_cloud (pl_writer p)) || bool_decide (shards = []) then mret ()
  else on_files (cloud_incomplete p (rs_ledgers s) shards).
(** The deferred end of a recipe, with the run's error so far. *)
Definition release_recipe (e : option gerror) : rio (option gerror) :=
  if negb (pl_aggregate p) then mret e
  else
    s ← own;
    _ ← (if bool_decide (is_Some e) && negb (rs_finalized (s : recipeRunState P)) then attempt writeIncompleteAggregateManifestOnFailure
         else mret (Ok ()));
    es ← on_writer (agg_abort fault cloud_discard (pl_writer p));
    mret (match es : list gerror with [] => e | _ => Some (errors_join (option_list e ++ es)) end).
End recipe.

(** ** The pass *)
Local Notation dio := (io (dispatcher P)).
(** The first error; later recipes are finalized all the same. *)
Fixpoint finalize_all (i : nat) (ps : list RecipePlan) : dio (option gerror) :=
  match ps with
  | [] => mret None
  | p :: ps =>
      d ← own;
      match di_states (d : dispatcher P) !! i with
      | None => mret None
      | Some s =>
          r ← attempt (on_state i s (finalize p));
          later ← finalize_all (S i) ps;
          mret (match r : result () with Err e => Some e | Ok _ => later end)
      end
  end.
Fixpoint release_all (i : nat) (ps : list RecipePlan) (e : option gerror) : dio (option gerror) :=
  match ps with
  | [] => mret e
  | p :: ps =>
      d ← own;
      match di_states (d : dispatcher P) !! i with
      | None => mret e
      | Some s => e ← on_state i s (release_recipe p e); release_all (S i) ps (e : option gerror)
      end
  end.
(** From the end of the inputs on, with their error. *)
Definition finish_run (plans : list RecipePlan) (e : option gerror) : dio (option gerror) :=
  e ← match e with Some _ => mret e | None => finalize_all 0 plans end;
  release_all 0 plans (e : option gerror).

(** The inputs, then the end; [inputs_run]: [processInputs]. A panic nobody
    recovered passes the deferred clean-up. *)
Local Notation dworld := (world (dispatcher P)).
Definition finished (w' : dworld) (r : option run_end) (end_ : dworld * result (option gerror)) : Prop :=
  w' = end_.1 ∧ r = match end_.2 with Ok e => Failed <$> e | Err e => Some (Failed e) end.
Definition multi_pass (inputs_run : dworld → dworld → option run_end → Prop) (plans : list RecipePlan) (w w' : dworld)
    (r : option run_end) : Prop :=
  ∃ w1 r1, inputs_run w w1 r1 ∧
    match r1 with
    | None => finished w' r (finish_run plans None w1)
    | Some (Failed e) => finished w' r (finish_run plans (Some e) w1)
    | Some (Crashed v) => w' = (release_all 0 plans None w1).1 ∧ r = Some (Crashed v)
    end.
End finish.
