(* ===== verification/MultiFinishSpec.v ===== *)
(** * A clean exit
    (cmd/sumpter/commands: extract_multi_dispatch.go, extract_multi_aggregate.go)

    A pass with [--continue-on-error] ends without an error only when every
    recipe took every input and wrote its manifest. *)
From Stdlib Require Import Ascii ZArith Lia.
From stdpp Require Import base list strings gmap sets.
From S2P Require Import Prelude GoStrings GoFloat GoStrconv GoValue GoPath RefSource DslTypes JsonScan DurableFs DurableFsSpec DurableCommit AggregateWriter ProvRoot Provenance Extract ExtractPrepare ExtractFile Ledger JsonTarget MultiApply MultiApplySpec InputWorkers MultiDispatch MultiDispatchSpec MultiFinish.

Section finish.
Context `{EN : Engine}.
Context {P : Type} (fault : nat → option nat) (pick : fsys → nat).
Context (cloud_open : string → io (aggregateWriter P) nat) (cloud_publish : string → io (aggregateWriter P) ())
        (cloud_discard : io (aggregateWriter P) ()) (cloud_put : string → string → io (aggregateWriter P) ()).
Context (inputCount : nat).
Context (failures_bytes : extractFailureManifestFile → string) (dispositions_bytes : dispositionSummaryFile → string).
Context (manifest_bytes : RecipePlan → ledgers → option accounting → list AggregateOutput → string).
Context (validate_before : RecipePlan → ledgers → list AggregateOutput → result ()).
Context (descriptor validate_output : RecipePlan → ledgers → io () ()).
Context (put_file : RecipePlan → string → string → io () ()).
Context (cloud_incomplete : RecipePlan → ledgers → list AggregateOutput → io () ()).
Local Notation finalizeAggregate := (finalizeAggregate fault pick cloud_open cloud_publish cloud_discard cloud_put inputCount
  failures_bytes dispositions_bytes manifest_bytes validate_before descriptor validate_output).
Local Notation finalize := (finalize fault pick cloud_open cloud_publish cloud_discard cloud_put inputCount
  failures_bytes dispositions_bytes manifest_bytes validate_before descriptor validate_output put_file).
Local Notation finalize_all := (finalize_all fault pick cloud_open cloud_publish cloud_discard cloud_put inputCount
  failures_bytes dispositions_bytes manifest_bytes validate_before descriptor validate_output put_file).
Local Notation release_recipe := (release_recipe fault cloud_discard cloud_incomplete).
Local Notation release_all := (release_all fault cloud_discard cloud_incomplete).
Local Notation finish_run := (finish_run fault pick cloud_open cloud_publish cloud_discard cloud_put inputCount
  failures_bytes dispositions_bytes manifest_bytes validate_before descriptor validate_output put_file cloud_incomplete).

(** ** One recipe *)
Definition has_ledgers (l : ledgers) (w : world (recipeRunState P)) : Prop := rs_ledgers (w_own w) = l.
Definition finalized_with (l : ledgers) (w : world (recipeRunState P)) : Prop := has_ledgers l w ∧ rs_finalized (w_own w) = true.

(** Programs on the writer and on the files leave the rest of a recipe alone. *)
Definition apart (I : world (recipeRunState P) → Prop) : Prop :=
  ∀ w s', I w → rs_ledgers s' = rs_ledgers (w_own w) → rs_finalized s' = rs_finalized (w_own w) → ∀ fs n t,
  I {| w_fs := fs; w_calls := n; w_trace := t; w_own := s' |}.
Lemma apart_ledgers l : apart (has_ledgers l).
Proof. intros w s' Hw H _ fs n t. unfold has_ledgers in *. cbn. congruence. Qed.
Lemma apart_finalized l : apart (finalized_with l).
Proof. intros w s' [Hw Hf] H H' fs n t. split; unfold has_ledgers in *; cbn; congruence. Qed.
Lemma pres_writer {A} I (m : io (aggregateWriter P) A) : apart I → pres I (on_writer m).
Proof.
  intros HI w Hw. unfold on_writer, zoom. destruct (m _) as [w' [a|e]]; by eapply HI.
Qed.
Lemma pres_files {A} I (m : io () A) : apart I → pres I (on_files m).
Proof. intros HI w Hw. unfold on_files, zoom. destruct (m _) as [w' [a|e]]; by eapply HI. Qed.
Lemma pres_pure {A} I (r : result A) : pres (C := recipeRunState P) I (λ w, (w, r)).
Proof. intros w Hw. by destruct r. Qed.
Lemma triple_finalized l : triple (has_ledgers l) (set_own set_finalized) (λ _, finalized_with l) (has_ledgers l).
Proof. by apply triple_set_own. Qed.

Lemma finalizeAggregate_done p l :
  triple (has_ledgers l) (finalizeAggregate p)
    (λ _ w, finalized_with l w ∧ lg_dispositionErr l = None ∧ partially_failed p l = false) (has_ledgers l).
Proof.
  pose proof (apart_ledgers l) as Hl. pose proof (apart_finalized l) as Hf.
  unfold MultiFinish.finalizeAggregate. eapply pres_then; [by apply pres_attempt, pres_writer|]. intros [[]|e].
  2:{ eapply triple_bind; [by apply pres_writer|]. intros ?. by apply triple_fail. }
  apply triple_own. intros s. apply triple_know with (rs_ledgers s = l); [by intros w [Hw <-]|intros ->].
  eapply triple_pre with (P' := has_ledgers l); [by intros w []|].
  eapply pres_then; [destruct (partially_failed p l); [by apply pres_writer|by apply pres_ret]|intros ?].
  eapply pres_then; [destruct (has_dispositions p l); [by apply pres_writer|by apply pres_ret]|intros ?].
  eapply pres_then.
  { destruct (lo_manifestEnabled _); [|by apply pres_ret]. unfold publish_manifest. apply triple_own. intros s'.
    eapply triple_pre with (P' := has_ledgers l); [by intros w []|].
    eapply pres_then; [apply pres_pure|intros ?]. eapply pres_then; [apply pres_pure|intros ?].
    eapply pres_then; [by apply pres_writer|intros ?].
    eapply triple_bind; [apply triple_finalized|intros ?].
    eapply triple_conseq with (P' := finalized_with l) (Q' := λ _, finalized_with l) (R' := finalized_with l);
      [|done|by intros ? w []|by intros w []].
    eapply pres_bind; [by apply pres_files|intros ?; by apply pres_files]. }
  intros ?. eapply triple_bind; [apply triple_finalized|intros ?].
  unfold recipe_status. destruct (lg_dispositionErr l); [apply triple_fail; by intros w []|].
  destruct (partially_failed p l); [apply triple_fail; by intros w []|]. by apply triple_ret.
Qed.

(** ** The pass *)
Section pass.
Context (plans : list RecipePlan).
Implicit Types w : world (dispatcher P).
Definition summary (s : recipeRunState P) : ledgers * bool := (rs_ledgers s, rs_finalized s).
Definition summaries w : list (ledgers * bool) := summary <$> di_states (w_own w).
(** The ledgers [ls], and the recipes before the [i]th done. *)
Definition done_upto (ls : list ledgers) (i : nat) w : Prop :=
  (summaries w).*1 = ls ∧
  ∀ j p x, j < i → plans !! j = Some p → summaries w !! j = Some x → x.2 = true ∧ partially_failed p x.1 = false.
Lemma triple_any {A} I (m : io (dispatcher P) A) : triple I m (λ _ _, True) none.
Proof. intros w _. by destruct (m w) as [w' [a|e]]. Qed.

Lemma on_state_done ls i s p (m : io (recipeRunState P) ()) :
  plans !! i = Some p →
  (∀ l, triple (has_ledgers l) m (λ _ u, finalized_with l u ∧ lg_dispositionErr l = None ∧ partially_failed p l = false) (has_ledgers l)) →
  triple (λ w, done_upto ls i w ∧ di_states (w_own w) !! i = Some s) (attempt (on_state i s m))
    (λ r w, r = Ok () → done_upto ls (S i) w) none.
Proof.
  intros Hp Hm w [[Hls Hw] Hs]. unfold attempt, on_state, zoom. rewrite Hs. cbn [default].
  match goal with |- context [m ?w0] => specialize (Hm (rs_ledgers s) w0 eq_refl); destruct (m w0) as [w' [[]|e]] end; [|done].
  destruct Hm as ([Hl Hf] & _ & Hpf). intros _. unfold has_ledgers in Hl.
  assert (summaries {| w_fs := w_fs w'; w_calls := w_calls w'; w_trace := w_trace w';
    w_own := {| di_states := <[i:=w_own w']> (di_states (w_own w)); di_done := di_done (w_own w); di_progress := di_progress (w_own w) |} |}
    = <[i := (rs_ledgers s, true)]> (summaries w)) as E.
  { unfold summaries. cbn [w_own di_states]. rewrite list_fmap_insert. unfold summary at 1. by rewrite Hl, Hf. }
  assert (summaries w !! i = Some (summary s)) as Hsi by (unfold summaries; by rewrite list_lookup_fmap, Hs).
  split; rewrite E.
  - rewrite list_fmap_insert. cbn [fst]. rewrite list_insert_id; [done|]. by rewrite list_lookup_fmap, Hsi.
  - intros j p' x Hj Hp' Hx. destruct (decide (j = i)) as [->|Hne].
    + rewrite list_lookup_insert_eq in Hx by (by apply lookup_lt_Some in Hsi). injection Hx as <-. rewrite Hp in Hp'. injection Hp' as <-. done.
    + rewrite list_lookup_insert_ne in Hx by done. apply (Hw j); [lia|done|done].
Qed.
Lemma finalize_all_done ls ps i :
  Forall (λ p, pl_aggregate p = true) plans → ps = drop i plans → length ls = length plans →
  triple (done_upto ls i) (finalize_all i ps) (λ r w, r = None → done_upto ls (length plans) w) none.
Proof.
  intros Hagg. revert i. induction ps as [|p ps IH]; intros i Hps Hlen; cbn [MultiFinish.finalize_all].
  { apply triple_ret. intros w [Hls Hw] _. split; [done|]. intros j p x Hj Hp Hx. apply (Hw j); [|done|done].
    apply (f_equal length) in Hps. rewrite length_drop in Hps. cbn in Hps. lia. }
  assert (plans !! i = Some p) as Hp. { rewrite <- (Nat.add_0_r i), <- lookup_drop, <- Hps. done. }
  assert (ps = drop (S i) plans) as Hps'. { rewrite (drop_S plans p i Hp) in Hps. by injection Hps. }
  apply triple_own. intros d. destruct (di_states d !! i) as [s|] eqn:Hd.
  2:{ intros w [[Hl _] <-]. apply lookup_ge_None in Hd. apply lookup_lt_Some in Hp. unfold summaries in Hl.
      apply (f_equal length) in Hl. rewrite !length_fmap in Hl. lia. }
  eapply triple_bind with (Q' := λ r w, r = Ok () → done_upto ls (S i) w).
  { eapply triple_pre; [|apply (on_state_done ls i s p _ Hp)]; [by intros w [Hw <-]|]. intros l. unfold MultiFinish.finalize.
    pose proof (proj1 (Forall_lookup _ _) Hagg i p Hp) as ->. apply finalizeAggregate_done. }
  intros [[]|e].
  - eapply triple_bind; [eapply triple_pre; [|by apply (IH (S i))]; intros w Hw; by apply Hw|].
    intros r. by apply triple_ret.
  - eapply triple_bind; [apply triple_any|]. intros r. by apply triple_ret.
Qed.

(** The clean-up leaves ledgers and flags alone, and drops no error. *)
Definition stays (x : ledgers * bool) (u : world (recipeRunState P)) : Prop := summary (w_own u) = x.
Lemma apart_stays x : apart (stays x).
Proof. intros w s' <- H1 H2 fs n t. unfold stays, summary. cbn. by rewrite H1, H2. Qed.
Lemma release_stays p e x : triple (stays x) (release_recipe p e) (λ r u, (r = None → e = None) ∧ stays x u) none.
Proof.
  pose proof (apart_stays x) as Hx. unfold MultiFinish.release_recipe. destruct (negb (pl_aggregate p)); [by apply triple_ret|].
  apply triple_own. intros s. eapply triple_pre with (P' := stays x); [by intros w []|].
  eapply triple_bind with (Q' := λ _, stays x).
  { destruct (_ && _); [|by apply triple_ret]. apply triple_attempt. eapply triple_conseq with (P' := stays x) (Q' := λ _, stays x) (R' := stays x); try done.
    unfold writeIncompleteAggregateManifestOnFailure. apply triple_own. intros s'. eapply triple_pre with (P' := stays x); [by intros w []|].
    destruct (_ || _); [by apply pres_ret|by apply pres_files]. }
  intros ?. eapply triple_bind with (Q' := λ _, stays x).
  { eapply triple_conseq; [by apply (pres_writer (stays x))|done|done|done]. }
  intros [|e' es]; by apply triple_ret.
Qed.
Lemma release_all_keeps F ps i e :
  triple (λ w, summaries w = F) (release_all i ps e) (λ r w, (r = None → e = None) ∧ summaries w = F) none.
Proof.
  revert i e. induction ps as [|p ps IH]; intros i e; cbn [MultiFinish.release_all]; [by apply triple_ret|].
  apply triple_own. intros d. destruct (di_states d !! i) as [s|] eqn:Hd; [|apply triple_ret; by intros w []].
  eapply triple_bind with (Q' := λ r w, (r = None → e = None) ∧ summaries w = F).
  - intros w [Hw <-]. unfold on_state, zoom. rewrite Hd. cbn [default].
    match goal with |- context [release_recipe p e ?w0] => pose proof (release_stays p e (summary s) w0 eq_refl) as H;
      destruct (release_recipe p e w0) as [w' [r|e']] end; [|done].
    destruct H as [Hr Hs]. split; [done|]. rewrite <- Hw. unfold summaries. cbn [w_own di_states]. rewrite list_fmap_insert.
    rewrite Hs. rewrite list_insert_id; [done|]. by rewrite list_lookup_fmap, Hd.
  - intros r. eapply triple_pre with (P' := λ w, summaries w = F ∧ (r = None → e = None)); [by intros w []|].
    apply triple_pure. intros Hr. eapply triple_conseq; [apply (IH (S i) r)|done| |done].
    intros r' w [H1 H2]. split; [intros H; by apply Hr, H1|done].
Qed.
Lemma finish_clean ls :
  Forall (λ p, pl_aggregate p = true) plans → length ls = length plans →
  triple (λ w, (summaries w).*1 = ls) (finish_run plans None) (λ r w, r = None → done_upto ls (length plans) w) none.
Proof.
  intros Hagg Hlen. unfold MultiFinish.finish_run. eapply triple_bind.
  { eapply triple_pre; [|by apply (finalize_all_done ls plans 0 Hagg)]. intros w Hw. split; [done|]. intros j p x Hj. lia. }
  intros e w Hw. pose proof (release_all_keeps (summaries w) plans 0 e w eq_refl) as H.
  destruct (release_all 0 plans e w) as [w' [r|e']]; [|done]. destruct H as [Hr Hs]. intros Hn. specialize (Hw (Hr Hn)).
  unfold done_upto. by rewrite Hs.
Qed.
Lemma finish_keeps_error e w w' r : finish_run plans (Some e) w = (w', Ok r) → r ≠ None.
Proof.
  unfold MultiFinish.finish_run. cbn. intros H. pose proof (release_all_keeps (summaries w) plans 0 (Some e) w eq_refl) as Hk.
  change (release_all 0 plans (Some e) w = (w', Ok r)) in H. rewrite H in Hk. destruct Hk as [Hr _]. intros ->. by specialize (Hr eq_refl).
Qed.
End pass.
End finish.

(** ** From the start to the exit *)
Section exit.
Context `{UC : UnicodeCase, UP : UriParser, FS : FileSystem, HD : HostDirs, ET : ErrorText, EN : Engine}.
Context (RecordDocument : dnode → result Document) (json_copy : vmap → result vmap) (now : Z).
Context (marshal : Envelope → result string) (show_float : f64 → string) (panics : nat → string → option string).
Context (shared : multi_options) (files : list string) (logicalByLocal : gmap string string).
Context (declarations : list (option fileListDeclaration)) (acquireFailures : gmap nat gerror) (plans : list RecipePlan).
Context (acquire : string → option (res (string * gerror) (string * string))).
Context (identify : string → option fileListDeclaration → result snapshot) (remove_snapshot : snapshot → option gerror).
Context (parseFile : string → parsed) (hash : string → result (string * Z)).
Context {P : Type} (vp_begin vp_commit vp_discard : P → P) (vp_stage : P → string → P).
Context (fault : nat → option nat) (pick : fsys → nat).
Context (cloud_open : string → io (aggregateWriter P) nat) (cloud_publish : string → io (aggregateWriter P) ())
        (cloud_discard : io (aggregateWriter P) ()) (cloud_put : string → string → io (aggregateWriter P) ()).
Context (row_identity : string → option (nat * string)) (validate publish : RecipePlan → io (target P) ()) (telemetry : bool).
Context (failures_bytes : extractFailureManifestFile → string) (dispositions_bytes : dispositionSummaryFile → string).
Context (manifest_bytes : RecipePlan → ledgers → option accounting → list AggregateOutput → string).
Context (validate_before : RecipePlan → ledgers → list AggregateOutput → result ()).
Context (descriptor validate_output : RecipePlan → ledgers → io () ()).
Context (put_file : RecipePlan → string → string → io () ()).
Context (cloud_incomplete : RecipePlan → ledgers → list AggregateOutput → io () ()).
Local Notation processInputs := (processInputs RecordDocument json_copy now marshal show_float panics shared files logicalByLocal declarations
  acquireFailures plans acquire identify remove_snapshot parseFile hash vp_begin vp_commit vp_discard vp_stage fault pick cloud_open
  cloud_publish row_identity validate publish telemetry).
Local Notation multi_pass := (multi_pass fault pick cloud_open cloud_publish cloud_discard cloud_put (length files)
  failures_bytes dispositions_bytes manifest_bytes validate_before descriptor validate_output put_file cloud_incomplete).

(** C4: a pass over local aggregate recipes with [--continue-on-error], on any number
    of workers, ends without an error only when every recipe was finalized and
    took every input: none failed, and the records counted are those of its rows. *)
Theorem multi_clean_exit fs profile w' j s p :
  Forall (aggregate_plan shared) plans → mu_ContinueOnError shared = true →
  multi_pass processInputs plans (dispatch_start files plans fs profile) w' None →
  di_states (w_own w') !! j = Some s → plans !! j = Some p →
  rs_finalized s = true ∧ fm_Failed (lg_failures (rs_ledgers s)) = 0 ∧ fm_Applied (lg_failures (rs_ledgers s)) = length files
  ∧ default 0 (lg_counts (rs_ledgers s) !! lo_RecordType (pl_opts p)) = contributed (lg_inputs (rs_ledgers s)).
Proof.
  intros Hplans Hco (w1 & r1 & Hrun & Hend) Hs Hp. destruct r1 as [[e|v]|]; [| by destruct Hend|].
  { destruct Hend as [-> Hr]. destruct (MultiFinish.finish_run _ _ _ _ _ _ _ _ _ _ _ _ _ _ _ _ _ _) as [w2 [r|e']] eqn:E; [|done].
    apply finish_keeps_error in E. by destruct r. }
  apply run_settled in Hrun as [Hlen Hrun]; [|done]. destruct Hend as [-> Hr].
  assert (Forall (λ p, pl_aggregate p = true) plans) as Hagg by (eapply Forall_impl; [exact Hplans|by intros ? []]).
  match goal with H : None = match (MultiFinish.finish_run ?a ?b ?c ?d ?e ?f ?g ?h ?i ?k ?l ?m ?n ?o ?q _ _ _).2 with _ => _ end |- _ =>
    pose proof (finish_clean a b c d e f g h i k l m n o q plans (summaries w1).*1 Hagg) as Hf end.
  assert (length (summaries w1).*1 = length plans) as Hlen' by (unfold summaries; by rewrite !length_fmap).
  specialize (Hf Hlen' w1 eq_refl).
  destruct (MultiFinish.finish_run _ _ _ _ _ _ _ _ _ _ _ _ _ _ _ _ _ _) as [w2 [r|e]]; [|done]. cbn [fst snd] in *.
  destruct r; [done|]. specialize (Hf eq_refl) as [Hls Hdone].
  assert (summaries w2 !! j = Some (summary s)) as Hsum by (unfold summaries; by rewrite list_lookup_fmap, Hs).
  destruct (Hdone j p _ ltac:(by eapply lookup_lt_Some) Hp Hsum) as [Hfin Hpf]. cbn [summary fst snd] in *.
  assert (∃ s1, di_states (w_own w1) !! j = Some s1 ∧ rs_ledgers s1 = rs_ledgers s) as (s1 & Hs1 & El).
  { assert ((summaries w2).*1 !! j = Some (rs_ledgers s)) as H by (by rewrite list_lookup_fmap, Hsum).
    rewrite Hls in H. unfold summaries in H. rewrite !list_lookup_fmap in H. destruct (di_states (w_own w1) !! j) as [s1|]; [|done].
    exists s1. split; [done|]. by injection H. }
  destruct (Hrun j s1 p Hs1 Hp) as [Hacc _]. cbn in Hacc. rewrite El in Hacc.
  pose proof (proj1 (Forall_lookup _ _) Hplans j p Hp) as (_ & _ & _ & Hcp).
  unfold partially_failed in Hpf. rewrite Hcp, Hco in Hpf. cbn [andb] in Hpf. apply Nat.ltb_ge in Hpf.
  split; [done|]. split; [lia|]. split; [|by apply Hacc]. pose proof (acc_sum _ _ _ _ Hacc). lia.
Qed.
End exit.
