(* ===== verification/MultiSample.v ===== *)
(** * A small run over many recipes

    Three inputs, the second of which does not parse, and two recipes, the
    second of which asks for more records than there are; two workers. *)
From Stdlib Require Import Ascii ZArith Lia.
From stdpp Require Import base list strings gmap sets relations.
From S2P Require Import Prelude GoStrings GoFloat GoStrconv GoValue GoPath RefSource DslTypes JsonScan DurableFs DurableFsSpec DurableCommit AggregateWriter AggregateSample ProvRoot Provenance OutputDirs Extract ExtractPrepare ExtractFile ExtractStream ExtractSample Ledger JsonTarget MultiApply MultiApplySpec InputWorkers InputWorkersSpec MultiDispatch MultiDispatchSpec MultiFinish MultiFinishSpec.

#[export] Instance sample_uris : UriParser := {| ParseURI := λ _, errorf "unsupported" [] |}.
#[export] Instance sample_files : FileSystem := plain_fs.
#[export] Instance sample_dirs : HostDirs := {| host_Home := Some "/home/u"; host_TempDir := "/tmp" |}.
#[export] Instance sample_texts : ErrorText := {|
  error_text e := match e with Errorf "%s" [AStr m; AErr _] => m | Errorf f _ => f end;
  error_text_says _ _ := eq_refl |}.

Definition no_root : root_options := {|
  po_root := None; po_Files := ""; po_FileList := ""; po_InputPath := ""; po_RecordIndex := ""; po_SourceExtractionInput := "" |}.
Definition sample_ledger (coe : bool) : ledger_options := {|
  lo_root := no_root; lo_ContinueOnError := coe; lo_EmitInputIdentity := false; lo_manifestEnabled := true; lo_handle := "";
  lo_RecordType := "order"; lo_sanitizeRoots := [] |}.
Definition with_floor (n : Z) (cfg : ExtractRecordMatch) : ExtractRecordMatch := {|
  em_RecordType := em_RecordType cfg; em_Namespaces := em_Namespaces cfg;
  em_MatchSelectors := [{| ms_XPath := "//order"; ms_MinOccurrences := n; ms_CompiledXPath := None |}];
  em_OutputSchema := em_OutputSchema cfg; em_FieldMappings := em_FieldMappings cfg; em_Filters := em_Filters cfg;
  em_ValidationMetadata := em_ValidationMetadata cfg; em_OutputOptions := em_OutputOptions cfg; em_Summaries := em_Summaries cfg;
  em_UniformSchema := em_UniformSchema cfg; em_OutputValidator := em_OutputValidator cfg; em_ReferenceTables := em_ReferenceTables cfg |}.
Definition sample_plan (id : string) (aggregate : bool) (floor : Z) : RecipePlan := {|
  pl_RecipeID := id; pl_opts := sample_ledger true; pl_aggregate := aggregate;
  pl_writer := {| wo_outputPath := "/data/" +:+ id; wo_maxRecords := 3; wo_maxBytes := 0; wo_cloud := false; wo_buffering := true;
                  wo_EmitInputIdentity := false; wo_durable := false |};
  pl_sigCfg := order_sig; pl_extCfg := with_floor floor orders; pl_appCfg := None; pl_runtimeProvenance := no_options;
  pl_fields := λ _, Ok []; pl_bundleMaxRecords := 10; pl_bundleMaxBytes := 1000;
  pl_outputFile := λ logical, outputFileForFormat ("/data/" +:+ id) ∅ "" "json" logical |}.
Definition sample_plans (aggregate : bool) : list RecipePlan := [sample_plan "one" aggregate 0; sample_plan "two" aggregate 3].
Definition sample_shared (workers : Z) : multi_options := {|
  mu_Files := "a.json,b.json,c.json"; mu_FileList := ""; mu_InputPath := ""; mu_InputWorkers := workers; mu_ContinueOnError := true;
  mu_EmitInputIdentity := false; mu_boundedCloudInput := false; mu_root := no_root |}.
Definition sample_marshal (e : Envelope) : result string :=
  Ok (match mget "num" (en_data e) with Some (VInt _ n) => itoa n | _ => "?" end).
Definition sample_parse (path : string) : parsed :=
  if path =s? "b.json" then ParseFailed (Errorf "failed to parse JSON" []) else Parsed (feed_doc "json").
Definition sample_hash (path : string) : result (string * Z) := Ok ("00" +:+ path, 7%Z).
Definition no_steps {A} (p : RecipePlan) : io (target A) () := mret ().
Definition sample_names : list string := ["a.json"; "b.json"; "c.json"].

Local Notation sample_serial workers aggregate fault w :=
  (serial_run RecordDocument Ok 0 sample_marshal (λ _, "1") (λ _ _, None) (sample_shared workers) sample_names ∅ [] ∅ (sample_plans aggregate)
     (λ _, None) (λ _ _, errorf "unused" []) (λ _, None) sample_parse sample_hash id id id (λ p _, p) fault (λ _, 7)
     (λ _, no_cloud) (λ _, no_cloud) (λ _, None) no_steps no_steps false (λ _, false) w).
Local Notation sample_run_to workers aggregate fault :=
  (processInputs RecordDocument Ok 0 sample_marshal (λ _, "1") (λ _ _, None) (sample_shared workers) sample_names ∅ [] ∅ (sample_plans aggregate)
     (λ _, None) (λ _ _, errorf "unused" []) (λ _, None) sample_parse sample_hash id id id (λ p _, p) fault (λ _, 7)
     (λ _, no_cloud) (λ _, no_cloud) (λ _, None) no_steps no_steps false).
Definition sample_start (aggregate : bool) : world (dispatcher ()) := dispatch_start sample_names (sample_plans aggregate) sample_fs ().
(** Applied, failed, the dispositions of the inventory and the records taken. *)
Definition sample_accounts (w : world (dispatcher ())) : list (nat * nat * list string * nat) :=
  (λ s, (fm_Applied (lg_failures (rs_ledgers s)), fm_Failed (lg_failures (rs_ledgers s)),
         in_Disposition <$> lg_inputs (rs_ledgers s), aw_totalRecords (rs_writer s))) <$> di_states (w_own w).

(** The broken input fails in both recipes; the second takes no input. *)
Example sample_multi :
  let r := sample_serial 2 true AggregateSample.never (sample_start true) in
  r.2 = None ∧ sample_accounts r.1 = [(2, 1, ["applied"; "failed"; "applied"], 4); (0, 3, ["failed"; "failed"; "failed"], 0)].
Proof. vm_compute. split; reflexivity. Qed.

Lemma sample_parse_total path v : sample_parse path ≠ ParsePanicked v.
Proof. unfold sample_parse. by destruct (path =s? "b.json"). Qed.
(** The same run on two workers, as the pool's semantics has it. *)
Local Notation sample_pooled :=
  (processInputsSerial 3
     (build_worker RecordDocument Ok 0 sample_marshal (λ _, "1") (λ _ _, None) (sample_shared 2) sample_names ∅ [] ∅ (sample_plans true)
        (λ _, None) (λ _ _, errorf "unused" []) (λ _, None) sample_parse sample_hash)
     (commit_built (sample_shared 2) sample_names (sample_plans true) sample_hash id id id (λ p _, p) AggregateSample.never (λ _, 7)
        (λ _, no_cloud) (λ _, no_cloud) (λ _, None) no_steps no_steps false)
     ctx_canceled (λ _, false) (sample_start true)).
Lemma sample_runs : sample_run_to 2 true AggregateSample.never (sample_start true) sample_pooled.1 None.
Proof.
  unfold processInputs. replace (mu_InputWorkers (sample_shared 2) <=? 1)%Z with false by reflexivity.
  apply workers_serial; [done|]. apply pair_snd. vm_compute. reflexivity.
Qed.

Lemma sample_aggregate : Forall (aggregate_plan (sample_shared 2)) (sample_plans true).
Proof. repeat constructor. Qed.
Lemma multi_accounting_witness :
  ∃ w', sample_run_to 2 true AggregateSample.never (sample_start true) w' None ∧
    sample_accounts w' = [(2, 1, ["applied"; "failed"; "applied"], 4); (0, 3, ["failed"; "failed"; "failed"], 0)] ∧
    ∀ j s p, di_states (w_own w') !! j = Some s → sample_plans true !! j = Some p →
      fm_Applied (lg_failures (rs_ledgers s)) + fm_Failed (lg_failures (rs_ledgers s)) = 3.
Proof.
  exists sample_pooled.1. split; [exact sample_runs|]. split; [vm_compute; reflexivity|]. intros j s p Hs Hp.
  pose proof (multi_accounting _ _ _ _ _ _ _ _ _ _ _ _ _ _ _ _ _ _ _ _ _ _ _ _ _ _ _ _ _ sample_aggregate sample_fs () _ j s p sample_runs Hs Hp) as [H _].
  exact H.
Defined.

(** ** A pass with a clean exit, and one without *)
Definition clean_names : list string := ["a.json"; "c.json"].
Definition clean_plans : list RecipePlan := [sample_plan "one" true 0].
Definition clean_start : world (dispatcher ()) := dispatch_start clean_names clean_plans sample_fs ().
Definition shown_manifest (p : RecipePlan) (l : ledgers) (a : option accounting) (shards : list AggregateOutput) : string :=
  match a with Some a => "applied " +:+ itoa (Z.of_nat (ac_applied a)) | None => "" end +:+ sjoin "," (ao_Path <$> shards).
Local Notation clean_inputs :=
  (processInputs RecordDocument Ok 0 sample_marshal (λ _, "1") (λ _ _, None) (sample_shared 2) clean_names ∅ [] ∅ clean_plans
     (λ _, None) (λ _ _, errorf "unused" []) (λ _, None) sample_parse sample_hash id id id (λ p _, p) AggregateSample.never (λ _, 7)
     (λ _, no_cloud) (λ _, no_cloud) (λ _, None) no_steps no_steps false).
Local Notation clean_pooled :=
  (processInputsSerial 2
     (build_worker RecordDocument Ok 0 sample_marshal (λ _, "1") (λ _ _, None) (sample_shared 2) clean_names ∅ [] ∅ clean_plans
        (λ _, None) (λ _ _, errorf "unused" []) (λ _, None) sample_parse sample_hash)
     (commit_built (sample_shared 2) clean_names clean_plans sample_hash id id id (λ p _, p) AggregateSample.never (λ _, 7)
        (λ _, no_cloud) (λ _, no_cloud) (λ _, None) no_steps no_steps false)
     ctx_canceled (λ _, false) clean_start).
Local Notation sample_pass n :=
  (multi_pass (P := ()) AggregateSample.never (λ _, 7) (λ _, no_cloud) (λ _, no_cloud) no_cloud (λ _ _, no_cloud) n (λ _, "failures")
     (λ _, "dispositions") shown_manifest (λ _ _ _, Ok ()) (λ _ _, mret ()) (λ _ _, mret ()) (λ _ _ _, mret ()) (λ _ _ _, mret ())).
Local Notation sample_finish n plans w :=
  (finish_run (P := ()) AggregateSample.never (λ _, 7) (λ _, no_cloud) (λ _, no_cloud) no_cloud (λ _ _, no_cloud) n (λ _, "failures")
     (λ _, "dispositions") shown_manifest (λ _ _ _, Ok ()) (λ _ _, mret ()) (λ _ _, mret ()) (λ _ _ _, mret ()) (λ _ _ _, mret ()) plans None w).
Lemma clean_runs : clean_inputs clean_start clean_pooled.1 None.
Proof.
  unfold processInputs. replace (mu_InputWorkers (sample_shared 2) <=? 1)%Z with false by reflexivity.
  apply workers_serial; [done|]. apply pair_snd. vm_compute. reflexivity.
Qed.
Lemma clean_passes : sample_pass 2 clean_inputs clean_plans clean_start (sample_finish 2 clean_plans clean_pooled.1).1 None.
Proof.
  exists clean_pooled.1, None. split; [exact clean_runs|]. split; [reflexivity|]. vm_compute. reflexivity.
Qed.
Lemma multi_clean_exit_witness :
  Forall (aggregate_plan (sample_shared 2)) clean_plans ∧ mu_ContinueOnError (sample_shared 2) = true ∧
  ∃ w', sample_pass 2 clean_inputs clean_plans clean_start w' None ∧
    (∀ j s p, di_states (w_own w') !! j = Some s → clean_plans !! j = Some p → fm_Applied (lg_failures (rs_ledgers s)) = 2) ∧
    file_at (w_fs w') <$> ["/data/one/manifest.json"; "/data/one/records-00001.jsonl"; "/data/one/records-00002.jsonl"]
    = [Some "applied 2records-00001.jsonl,records-00002.jsonl"; Some (sjoin (String "010" "") ["7"; "8"; "7"; ""]); Some (sjoin (String "010" "") ["8"; ""])].
Proof.
  assert (Forall (aggregate_plan (sample_shared 2)) clean_plans) as Hplans by repeat constructor.
  split; [exact Hplans|]. split; [reflexivity|].
  exists (sample_finish 2 clean_plans clean_pooled.1).1. split; [exact clean_passes|]. split; [|vm_compute; reflexivity].
  intros j s p Hs Hp.
  pose proof (multi_clean_exit _ _ _ _ _ _ _ _ _ _ _ _ _ _ _ _ _ _ _ _ _ _ _ _ _ _ _ _ _ _ _ _ _ _ _ _ _ _ _ sample_fs () _ j s p
    Hplans eq_refl clean_passes Hs Hp) as (_ & _ & H & _).
  exact H.
Defined.
(** The two recipes above: the broken input makes the exit a partial failure. *)
Example sample_partial :
  match (sample_finish 3 (sample_plans true) sample_pooled.1).2 with
  | Ok e => classifyProcessRunTerminal e
  | Err _ => ""
  end = "partial".
Proof. vm_compute. reflexivity. Qed.

(** ** The pool *)
(** Three inputs on two workers; the third commit fails. *)
Definition count_commit (o : nat) (st : list nat) : list nat * option string := if o =? 2 then (st, Some "full") else (st ++ [o], None).
Local Notation counting := (may_reach 3 2 100 id (λ i o, o = i + 10) (λ _, 1) count_commit "canceled" []).
Lemma counting_returns : ∃ s, counting s ∧ q_drain s = DReturned.
Proof.
  destruct (pool_finishes 3 2 100 id (λ i o, o = i + 10) (λ _, 1) count_commit "canceled" [] ltac:(lia) ltac:(lia) false
    (pool_start 2 [])) as (s & Hs & Hd); [apply pool_inv_start|].
  exists s. split; [|done]. eapply rtc_subrel; [|exact Hs]. intros ? ?. apply pool_moves.
Qed.
Lemma pool_in_order_witness :
  ∃ s, counting s ∧ q_drain s = DReturned ∧
    ∃ os, length os ≤ 3 ∧ (∀ i o, os !! i = Some o → o = i ∨ o = i + 10) ∧ (settle_all count_commit os []).1 = q_state s.
Proof.
  destruct counting_returns as (s & Hs & Hd). exists s. split; [exact Hs|]. split; [exact Hd|].
  destruct (pool_in_order 3 2 100 id (λ i o, o = i + 10) (λ _, 1) count_commit "canceled" [] s Hs) as (os & H1 & H2 & H3 & _).
  by exists os.
Defined.
Lemma pool_returns_witness :
  0 < 2 ∧ (0 < 100)%Z ∧ sn (pool_move 3 2 100 id (λ i o, o = i + 10) (λ _, 1) count_commit "canceled") (pool_start 2 []).
Proof.
  split; [lia|]. split; [lia|].
  apply (pool_returns 3 2 100 id (λ i o, o = i + 10) (λ _, 1) count_commit "canceled" []); [lia|lia|apply rtc_refl].
Defined.
Lemma pool_window_bounds_witness : ∃ s, counting s ∧ q_drain s = DReturned ∧ length (held s) ≤ 4.
Proof.
  destruct counting_returns as (s & Hs & Hd). exists s. split; [exact Hs|]. split; [exact Hd|].
  apply (pool_window_bounds 3 2 100 id (λ i o, o = i + 10) (λ _, 1) count_commit "canceled" [] s Hs).
Defined.

(** ** A lost input

    One file per input, with [--continue-on-error]: the rename that publishes the
    first output fails. The input is neither applied nor failed, and the run goes
    through. *)
Example per_input_commit_error_is_lost :
  let r := sample_serial 2 false (λ n, if n =? 5 then Some 0 else None) (sample_start false) in
  r.2 = None ∧ (λ s, (fm_Applied (lg_failures (rs_ledgers s)), fm_Failed (lg_failures (rs_ledgers s)))) <$> di_states (w_own r.1)
               = [(1, 1); (0, 3)]
  ∧ file_at (w_fs r.1) <$> ["/data/one/extract-a.json.json"; "/data/one/extract-c.json.json"]
    = [None; file_at (w_fs (sample_serial 2 false AggregateSample.never (sample_start false)).1) "/data/one/extract-c.json.json"].
Proof. vm_compute. repeat split; reflexivity. Qed.

(** ** Diagnostics *)
Definition rooted : root_options := {|
  po_root := Some {| rt_lexical := "/data/root"; rt_evaluated := "/data/root" |}; po_Files := "/data/root/clinic/x.xml";
  po_FileList := ""; po_InputPath := ""; po_RecordIndex := ""; po_SourceExtractionInput := "" |}.
(** The root goes first, so the configured path below it is no longer found and
    its part below the root stays. *)
Example configured_path_below_root_stays :
  error_text (provenanceRootSanitizeError rooted (Errorf "open /data/root/clinic/x.xml: denied" []) [])
  = "open <provenance-root>/clinic/x.xml: denied".
Proof. vm_compute. reflexivity. Qed.
(** A path is shortened as [--files=path], not as [--files path]. *)
Example argv_split_path_stays :
  SanitizeArgvWithInternalParameters ["--files=/home/u/in/x.xml"] [] [] = ["--files=in/x.xml"]
  ∧ SanitizeArgvWithInternalParameters ["--files"; "/home/u/in/x.xml"] [] [] = ["--files"; "/home/u/in/x.xml"].
Proof. vm_compute. split; reflexivity. Qed.
(** Inputs of one name in two directories share an output file. *)
Example same_name_same_output :
  outputFileForFormat "/out" ∅ "" "json" "/in/a/x.xml" = outputFileForFormat "/out" ∅ "" "json" "/in/b/x.xml".
Proof. vm_compute. reflexivity. Qed.

(** ** Output directories and arguments *)
Definition sample_dirs_of (ids : list string) : result (list recipeOutputDir) := resolveRecipeOutputDirs (λ d, if d =s? "/out/two" then LstatDir else LstatMissing) "/out/" ids.
Example two_dirs : od_Dir <$> default [] (to_option (sample_dirs_of ["one"; "two"])) = ["/out/one"; "/out/two"].
Proof. by vm_compute. Qed.
Example case_collision : is_ok (sample_dirs_of ["one"; "ONE"]) = false ∧ is_ok (sample_dirs_of [".one"]) = false ∧ is_ok (sample_dirs_of ["a/b"]) = false.
Proof. by vm_compute. Qed.
Lemma output_dirs_contained_witness :
  ∃ ds, sample_dirs_of ["one"; "two"] = Ok ds ∧ NoDup (od_Dir <$> ds) ∧ length ds = 2.
Proof.
  destruct (sample_dirs_of ["one"; "two"]) as [ds|e] eqn:H; [|by vm_compute in H].
  exists ds. split; [done|]. destruct (output_dirs_contained (λ d, if d =s? "/out/two" then LstatDir else LstatMissing) "/out/" ["one"; "two"] ds) as (Hids & _ & Hnd & _); [by vm_compute|exact H|].
  split; [done|]. by rewrite <- (length_fmap od_RecipeID), Hids.
Defined.
(** A flag with a secret name and no value of its own, or a path with such a
    name, takes the next flag for its value, and that flag's value is shown. *)
Example swallowed_flag_shows_secret :
  SanitizeArgvWithInternalParameters ["--use-token"; "--password"; "hunter2"] [] [] = ["--use-token"; "<redacted>"; "hunter2"]
  ∧ SanitizeArgvWithInternalParameters ["--files"; "tokens.json"; "--password"; "hunter2"] [] []
    = ["--files"; "tokens.json"; "<redacted>"; "hunter2"].
Proof. vm_compute. split; reflexivity. Qed.
Definition secret_arguments (secret : string) : list argument :=
  [ArgPlain "extract-multi"; ArgSetting "--parameter" ("api-token=" +:+ secret); ArgSetting "--token" secret;
   ArgPlain ("--parameter=batch=" +:+ secret); ArgPlain ("--password=" +:+ secret); ArgInput "--files" "/data/a.json"].
Lemma secret_values_hidden_witness :
  SanitizeArgvForRootWithInternalParameters (secret_arguments "abc" ≫= words) ["batch"] []
  = SanitizeArgvForRootWithInternalParameters (secret_arguments "xyz" ≫= words) ["batch"] []
  ∧ SanitizeArgvForRootWithInternalParameters (secret_arguments "xyz" ≫= words) ["batch"] []
    = ["extract-multi"; "--parameter"; "api-token=<redacted>"; "--token"; "<redacted>"; "--parameter=batch=<internal>";
       "--password=<redacted>"; "--files"; "<input>"].
Proof.
  split; [|vm_compute; reflexivity].
  assert (∀ s, s = "abc" ∨ s = "xyz" → Forall paired (secret_arguments s)) as Hp.
  { intros s Hs. unfold secret_arguments. repeat (apply Forall_cons; split); try apply Forall_nil_2; cbn [paired]; unfold stands_alone;
      destruct Hs as [-> | ->]; split_and?; vm_compute; (exact I || (intros; congruence)). }
  assert (∀ s, s = "abc" ∨ s = "xyz" → Forall root_paired (secret_arguments s)) as Hr.
  { intros s Hs. unfold secret_arguments. repeat (apply Forall_cons; split); try apply Forall_nil_2; cbn [root_paired]; unfold stands_alone;
      destruct Hs as [-> | ->]; split_and?; vm_compute; (exact I || (intros; congruence)). }
  apply (secret_values_hidden ["batch"] [] (secret_arguments "abc") (secret_arguments "xyz")); [by apply Hp; left|by apply Hp; right| |by apply Hr; left|by apply Hr; right].
  unfold secret_arguments. constructor; [apply same_argument|].
  constructor; [apply same_split; do 3 right; split; [vm_compute; reflexivity|]; exists "api-token", "abc", "xyz";
    split; [vm_compute; reflexivity|split; [vm_compute; reflexivity|left; vm_compute; reflexivity]]|].
  constructor; [apply same_split; right; left; vm_compute; reflexivity|].
  constructor; [apply (same_joined _ _ _ "--parameter" "batch=abc" "batch=xyz"); [vm_compute; reflexivity..|]; do 3 right;
    split; [vm_compute; reflexivity|]; exists "batch", "abc", "xyz"; split; [vm_compute; reflexivity|split; [vm_compute; reflexivity|]];
    right; vm_compute; left|].
  constructor; [apply (same_joined _ _ _ "--password" "abc" "xyz"); [vm_compute; reflexivity..|]; right; left; vm_compute; reflexivity|].
  constructor; [apply same_argument|constructor].
Defined.
