(* ===== verification/CloudStage.v ===== *)
(** * Where a cloud object is staged, and what is said of its failures
    (internal/uriio/stage.go, session.go, head.go)

    An object's key is chosen by whoever can write to the bucket. It names a
    file below the run's staging directory, and nothing else; the text of a
    provider's error is shown without the credentials it may quote. *)
From Stdlib Require Import Ascii ZArith Lia.
From stdpp Require Import base list strings.
From S2P Require Import Prelude GoStrings GoStrconv GoValue GoPath DurableFs DurableFsSpec ProvRoot.

(** ** The staging path *)
Definition control_rune (r : Z) : bool := (r <? 32)%Z || (r =? 127)%Z.
(** The loop over the segments: [inl ()] on a parent reference. *)
Fixpoint stage_segments (segments : list string) : unit + list string :=
  match segments with
  | [] => inr []
  | seg :: segments =>
      if (seg =s? "") || (seg =s? ".") then stage_segments segments
      else if seg =s? ".." then inl ()
      else match stage_segments segments with inl u => inl u | inr clean => inr (seg :: clean) end
  end.
Definition safeStagePath (stageDir key : string) : result string :=
  if key =s? "" then errorf "uriio: empty object key" []
  else if scontains_byte "000" key then errorf "uriio: object key contains a NUL byte" []
  else if existsb control_rune (runes key) then errorf "uriio: object key contains a control character" []
  else if scontains_byte "\" key then errorf "uriio: object key contains a backslash" []
  else match stage_segments (ssplit_byte slash key) with
       | inl _ => errorf "uriio: object key contains a parent-directory segment (..)" []
       | inr [] => errorf "uriio: object key %q has no usable path component" [AStr key]
       | inr clean =>
           let staged := Join stageDir (sjoin "/" clean) in
           if match Rel stageDir staged with None => true | Some rel => (rel =s? "..") || has_prefix "../" rel end then
             errorf "uriio: object key %q escapes the staging directory" [AStr key]
           else Ok staged
       end.
(** [outputStagingDirName]: outputs are staged below this directory of the run's. *)
Definition outputStagingDirName : string := "out".
Definition output_stage_path (stageDir key : string) : result string := safeStagePath (Join stageDir outputStagingDirName) key.

(** ** What is said of a failure *)

(** [awsAccessKeyIDInText] at the start of a text: a prefix and sixteen
    capitals or digits. *)
Definition akid_prefixes : list string := ["AKIA"; "ASIA"; "AGPA"; "AIDA"; "AROA"; "AIPA"; "ANPA"; "ANVA"; "ASCA"].
Definition capital_or_digit (c : ascii) : bool := in_range 65 90 (bcode c) || in_range 48 57 (bcode c).
Definition awsAccessKeyIDInText (s : string) : bool :=
  existsb (λ p, has_prefix p s) akid_prefixes && (20 <=? slen s)%nat && sforall capital_or_digit (stake 20 s).
(** [skip] counts the bytes of the current match still to be dropped. *)
Fixpoint redact_go (skip : nat) (s : string) : string :=
  match s with
  | "" => ""
  | String c t =>
      match skip with
      | S k => redact_go k t
      | 0 => if awsAccessKeyIDInText s then "[redacted-key-id]" +:+ redact_go 19 t else String c (redact_go 0 t)
      end
  end.
Definition redactAWSKeyIDs (s : string) : string := redact_go 0 s.
Fixpoint redact_literals (s : string) (secrets : list string) : string :=
  match secrets with
  | [] => s
  | sec :: secrets => redact_literals (if sec =s? "" then s else sreplace_all sec "[redacted]" s) secrets
  end.
Definition redactSecrets (s : string) (secrets : list string) : string := redactAWSKeyIDs (redact_literals s secrets).

(** The provider's own classification of its errors. *)
Class ProviderErrors := {
  IsThrottled : gerror → bool;
  IsProviderUnavailable : gerror → bool;
  IsNotFound : gerror → bool;
  IsAccessDenied : gerror → bool;
}.
Definition transient_note : string :=
  " [transient: the object store throttled the request or was temporarily unavailable; a later retry may succeed]".
Definition ErrObjectNotFound : gerror := Errorf "uriio: object not found" [].
Definition ErrObjectAccessDenied : gerror := Errorf "uriio: object access denied" [].
Definition ErrDeclaredSizeMismatch : gerror := Errorf "uriio: declared size mismatch" [].
Definition cloudOpError `{ProviderErrors, ErrorText} (e : gerror) (secrets : list string) : string :=
  let msg := redactSecrets (error_text e) secrets in
  if IsThrottled e || IsProviderUnavailable e then msg +:+ transient_note else msg.
Definition classifyObjectError `{ProviderErrors, ErrorText} (op : string) (e : gerror) (logicalURI : string) (secrets : list string) : gerror :=
  if IsNotFound e then Errorf "uriio: %s %s: %w" [AStr op; AStr logicalURI; AErr ErrObjectNotFound]
  else if IsAccessDenied e then Errorf "uriio: %s %s: %w" [AStr op; AStr logicalURI; AErr ErrObjectAccessDenied]
  else Errorf "uriio: %s %s failed: %s" [AStr op; AStr logicalURI; AStr (cloudOpError e secrets)].

(** ** Paths below the staging directory *)
Definition named_segment (seg : string) : Prop := seg ≠ "" ∧ seg ≠ ".".
#[export] Instance named_segment_dec seg : Decision (named_segment seg) := _.
Definition key_segments (key : string) : list string := filter named_segment (ssplit_byte slash key).

Lemma components_below d parts :
  d ≠ "" → parts ≠ [] → Forall (λ p, plain p = true ∧ p ≠ "..") parts →
  components (Join d (sjoin "/" parts)) = components d ++ parts ∧ IsAbs (Join d (sjoin "/" parts)) = IsAbs d.
Proof.
  intros Hd Hne Hp. unfold Join. rewrite (proj2 (String.eqb_neq _ _) Hd), components_Clean_any, IsAbs_Clean.
  destruct d as [|c d]; [done|]. split; [|done]. unfold components.
  change (IsAbs (String c d +:+ "/" +:+ sjoin "/" parts)) with (IsAbs (String c d)).
  change (String c d +:+ "/" +:+ sjoin "/" parts) with (String c d +:+ String slash (sjoin "/" parts)).
  rewrite ssplit_byte_app, (ssplit_byte_sjoin parts) by (done || by apply plain_no_slash).
  unfold clean_parts. rewrite foldl_app, fold_clean_plain by done. by rewrite rev_app_distr, rev_involutive.
Qed.
Lemma strip_common_prefix cs parts : strip_common cs (cs ++ parts) = ([], parts).
Proof. induction cs as [|c cs IH]; [by destruct parts|]. cbn -[String.eqb]. by rewrite String.eqb_refl. Qed.
Lemma sjoin_no_climb parts : parts ≠ [] → Forall (λ p, plain p = true ∧ p ≠ "..") parts →
  (sjoin "/" parts =? "..")%string || has_prefix "../" (sjoin "/" parts) = false.
Proof.
  intros Hne Hp. pose proof (ssplit_byte_sjoin parts) as Hs. specialize (Hs Hne (plain_no_slash _ Hp)).
  destruct Hp as [|q parts [_ Hq] _]; [done|]. apply orb_false_iff. split.
  - apply String.eqb_neq. intros E. rewrite E in Hs. by injection Hs.
  - apply not_true_is_false. intros (t & E)%has_prefix_spec. rewrite E in Hs.
    change ("../" +:+ t) with (".." +:+ String slash t) in Hs. rewrite ssplit_byte_app in Hs. by injection Hs.
Qed.
Lemma Rel_below d parts :
  d ≠ "" → parts ≠ [] → Forall (λ p, plain p = true ∧ p ≠ "..") parts →
  match Rel d (Join d (sjoin "/" parts)) with None => true | Some rel => (rel =s? "..") || has_prefix "../" rel end = false.
Proof.
  intros Hd Hne Hp. destruct (components_below d parts Hd Hne Hp) as [Hc Ha]. unfold Rel. destruct (Clean d =? Clean (Join d (sjoin "/" parts)))%string; [done|].
  rewrite Ha, eqb_reflx. cbn [negb]. rewrite Hc, strip_common_prefix. cbn [length replicate app]. by apply sjoin_no_climb.
Qed.
Lemma parent_skip seg segments : seg ≠ ".." → ".." ∈ seg :: segments ↔ ".." ∈ segments.
Proof. rewrite elem_of_cons. naive_solver. Qed.
Lemma stage_segments_spec segments :
  stage_segments segments = if decide (".." ∈ segments) then inl () else inr (filter named_segment segments).
Proof.
  induction segments as [|seg segments IH]; [done|]. cbn [stage_segments]. rewrite IH.
  destruct (String.eqb_spec seg "..") as [->|H3].
  { rewrite (decide_True (P := ".." ∈ ".." :: segments)) by left. done. }
  rewrite (decide_ext (".." ∈ seg :: segments) _ _ _ (parent_skip seg segments H3)).
  destruct (String.eqb_spec seg "") as [->|H1]; cbn [orb]; [by rewrite filter_cons_False by (by intros [? _])|].
  destruct (String.eqb_spec seg ".") as [->|H2]; [by rewrite filter_cons_False by (by intros [_ ?])|].
  rewrite filter_cons_True by done. by case_decide.
Qed.
Lemma key_segments_plain key : ".." ∉ ssplit_byte slash key → Forall (λ p, plain p = true ∧ p ≠ "..") (key_segments key).
Proof.
  intros Hdd. apply Forall_forall. intros p [[H1 H2] Hin]%list_elem_of_filter.
  pose proof (ssplit_byte_parts slash key) as Hs. rewrite Forall_forall in Hs. specialize (Hs p Hin).
  split; [|by intros ->]. unfold plain. rewrite Hs. cbn [negb andb]. apply negb_true_iff, orb_false_iff.
  by split; apply String.eqb_neq.
Qed.

(** C35: a key is accepted exactly when it has no control character, no backslash
    and no parent reference and names something; the staged file then lies
    below the staging directory by exactly the key's named segments. *)
Theorem safeStagePath_spec stageDir key staged :
  stageDir ≠ "" →
  safeStagePath stageDir key = Ok staged ↔
    scontains_byte "000" key = false ∧ Forall (λ r, control_rune r = false) (runes key) ∧ scontains_byte "\" key = false ∧
    ".." ∉ ssplit_byte slash key ∧ key_segments key ≠ [] ∧ staged = Join stageDir (sjoin "/" (key_segments key)) ∧
    components staged = components stageDir ++ key_segments key.
Proof.
  intros Hd. unfold safeStagePath. destruct (String.eqb_spec key "") as [->|_].
  { split; [done|]. intros (_ & _ & _ & _ & H & _). by destruct H. }
  destruct (scontains_byte "000" key); [split; [done|by intros [? _]]|].
  destruct (existsb control_rune (runes key)) eqn:Hc.
  { split; [done|]. intros (_ & H & _). apply existsb_exists in Hc as (r & Hin & Hr).
    rewrite Forall_forall in H. rewrite (H r) in Hr; [done|]. by apply list_elem_of_In. }
  destruct (scontains_byte "\" key); [split; [done|by intros (_ & _ & ? & _)]|].
  rewrite stage_segments_spec. case_decide as Hdd; [split; [done|by intros (_ & _ & _ & ? & _)]|]. fold (key_segments key).
  pose proof (key_segments_plain key Hdd) as Hp. destruct (key_segments key) as [|q parts] eqn:Hk; [split; [done|by intros (_ & _ & _ & _ & ? & _)]|].
  rewrite Rel_below by done. split.
  - intros [= <-]. split_and!; try done; [|by apply (components_below stageDir (q :: parts))].
    apply Forall_forall. intros r Hin. apply not_true_is_false. intros Hr.
    assert (existsb control_rune (runes key) = true) as E by (apply existsb_exists; exists r; split; [by apply list_elem_of_In|done]).
    by rewrite E in Hc.
  - by intros (_ & _ & _ & _ & _ & -> & _).
Qed.

(** ** Redaction *)
Definition starts_named (s : string) : bool := match s with "" => false | String c _ => capital_or_digit c end.
Lemma akid_starts s : awsAccessKeyIDInText s = true → starts_named s = true.
Proof.
  unfold awsAccessKeyIDInText. intros [[_ Hl]%andb_true_iff Hs]%andb_true_iff. destruct s as [|c s]; [done|].
  cbn [stake sforall] in Hs. by apply andb_true_iff in Hs as [? _].
Qed.
(** As far as a redacted text starts with capitals and digits, it starts like
    the text itself. *)
Lemma redact_start n s :
  n ≤ slen (redact_go 0 s) → sforall capital_or_digit (stake n (redact_go 0 s)) = true →
  stake n (redact_go 0 s) = stake n s ∧ n ≤ slen s.
Proof.
  revert s. induction n as [|n IH]; intros s; [split; [done|lia]|]. destruct s as [|c s]; [cbn; lia|].
  cbn [redact_go]. destruct (awsAccessKeyIDInText (String c s)); [done|].
  cbn [String.length stake sforall]. intros Hl [_ Ha]%andb_true_iff. destruct (IH s) as [-> ?]; [lia|done|]. split; [done|lia].
Qed.
Lemma has_prefix_stake p n s : slen p ≤ n → has_prefix p (stake n s) = has_prefix p s.
Proof.
  revert n s. induction p as [|a p IH]; intros n s; [done|]. destruct n as [|n]; [cbn; lia|]. destruct s as [|c s]; [done|].
  cbn [String.length]. intros Hl. cbn [stake has_prefix]. by rewrite IH by lia.
Qed.
Lemma akid_stake s : awsAccessKeyIDInText s = awsAccessKeyIDInText (stake 20 s).
Proof.
  unfold awsAccessKeyIDInText. f_equal; [f_equal|].
  - unfold akid_prefixes. cbn [existsb]. by rewrite !has_prefix_stake by (cbn; lia).
  - rewrite slen_stake. apply eq_true_iff_eq. rewrite !Nat.leb_le. lia.
  - by rewrite (stake_ge 20 (stake 20 s)) by (rewrite slen_stake; lia).
Qed.
Lemma redact_head s : awsAccessKeyIDInText (redact_go 0 s) = false.
Proof.
  apply not_true_is_false. intros H. assert (H' := H). unfold awsAccessKeyIDInText in H'.
  apply andb_true_iff in H' as [[_ Hl]%andb_true_iff Ha]. apply Nat.leb_le in Hl.
  destruct (redact_start 20 s Hl Ha) as [E _]. rewrite akid_stake, E, <- akid_stake in H.
  destruct s as [|c s]; [done|]. cbn [redact_go] in Ha. by rewrite H in Ha.
Qed.
Lemma redact_everywhere n k s i : slen s ≤ n → awsAccessKeyIDInText (sdrop i (redact_go k s)) = false.
Proof.
  revert k s i. induction n as [|n IH]; intros k s i Hn; [destruct s; [by destruct i|cbn in Hn; lia]|].
  destruct s as [|c s]; [by destruct i|]. cbn [String.length] in Hn.
  destruct k as [|k]; [|cbn [redact_go]; apply IH; lia]. destruct i as [|i]; [apply redact_head|].
  cbn [redact_go]. destruct (awsAccessKeyIDInText (String c s)); [|cbn [sdrop]; apply IH; lia].
  destruct (decide (17 ≤ S i)) as [Hi|Hi].
  - change 17 with (slen "[redacted-key-id]") in Hi. assert (S i = slen "[redacted-key-id]" + (S i - slen "[redacted-key-id]")) as -> by lia.
    rewrite sdrop_app_add. apply IH; lia.
  - assert (starts_named (sdrop (S i) ("[redacted-key-id]" +:+ redact_go 19 s)) = false) as Hs.
    { do 16 (destruct i as [|i]; [reflexivity|]). lia. }
    apply not_true_is_false. intros H%akid_starts. by rewrite Hs in H.
Qed.
(** Nothing shaped like an access key id is left at any place of a redacted
    text, whatever the text and the secrets. *)
Theorem redacted_has_no_key_id text secrets i : awsAccessKeyIDInText (sdrop i (redactSecrets text secrets)) = false.
Proof. unfold redactSecrets, redactAWSKeyIDs. by eapply redact_everywhere. Qed.
