(* ===== verification/StagingBudget.v ===== *)
(** * Staging cloud objects under one budget
    (internal/uriio/staging_budget.go; session.go: acquireS3Bounded, retryTransient)

    The goroutines of a run stage objects side by side and share one budget of
    files and bytes. Each asks for the size, waits in [Admit] until the budget
    has room, fetches, writes the staged file, and gives its share back when its
    source is cleaned up. [caller_move] is what one goroutine does between two
    points where others can come between; [staging_step] lets any of them
    move. *)
From Stdlib Require Import Ascii ZArith Lia.
From stdpp Require Import base list strings relations.
From S2P Require Import Prelude GoStrings GoStrconv GoValue GoPath ProvRoot CloudStage.

(** ** The budget *)
Record StagingBudgetConfig := { MaxBytes : Z; MaxFiles : Z; ObjectMax : Z }.
Record StagingStats := {
  st_PeakBytes : Z; st_PeakFiles : Z; st_AcquiredBytes : Z; st_AcquiredCount : Z;
  st_CleanupFailures : Z; st_RetriesThrottle : Z; st_RetriesUnavail : Z }.
Record StagingBudget := {
  sb_maxBytes : Z; sb_maxFiles : Z; sb_objectMax : Z;
  sb_usedBytes : Z; sb_usedFiles : Z;
  sb_stats : StagingStats;
  sb_admitBlocked : bool }.
Definition no_stats : StagingStats := {|
  st_PeakBytes := 0; st_PeakFiles := 0; st_AcquiredBytes := 0; st_AcquiredCount := 0;
  st_CleanupFailures := 0; st_RetriesThrottle := 0; st_RetriesUnavail := 0 |}.
Definition NewStagingBudget (cfg : StagingBudgetConfig) : StagingBudget := {|
  sb_maxBytes := MaxBytes cfg; sb_maxFiles := MaxFiles cfg; sb_objectMax := ObjectMax cfg;
  sb_usedBytes := 0; sb_usedFiles := 0; sb_stats := no_stats; sb_admitBlocked := false |}.
Definition set_used (b : StagingBudget) (bytes files : Z) (stats : StagingStats) : StagingBudget := {|
  sb_maxBytes := sb_maxBytes b; sb_maxFiles := sb_maxFiles b; sb_objectMax := sb_objectMax b;
  sb_usedBytes := bytes; sb_usedFiles := files; sb_stats := stats; sb_admitBlocked := sb_admitBlocked b |}.

(** [Admit] before its loop: the size as it is counted. *)
Definition counted_size (size : Z) : Z := Z.max 0 size.
Definition admit_size (b : StagingBudget) (size : Z) : result () :=
  let size := counted_size size in
  if (0 <? sb_objectMax b)%Z && (sb_objectMax b <? size)%Z then
    errorf "uriio: object is %d bytes, exceeding the %d-byte per-object cap; not staged" [AInt size; AInt (sb_objectMax b)]
  else if (0 <? sb_maxBytes b)%Z && (sb_maxBytes b <? size)%Z then
    errorf "uriio: object is %d bytes, exceeding the %d-byte staging budget; not staged" [AInt size; AInt (sb_maxBytes b)]
  else Ok ().
Definition admit_fits (b : StagingBudget) (size : Z) : bool :=
  ((sb_maxFiles b <=? 0)%Z || (sb_usedFiles b <? sb_maxFiles b)%Z) &&
  ((sb_maxBytes b <=? 0)%Z || (int64 (sb_usedBytes b + size) <=? sb_maxBytes b)%Z).
Definition admit_take (b : StagingBudget) (size : Z) : StagingBudget :=
  let files := int64 (sb_usedFiles b + 1) in
  let bytes := int64 (sb_usedBytes b + size) in
  let s := sb_stats b in
  set_used b bytes files {|
    st_PeakBytes := Z.max (st_PeakBytes s) bytes; st_PeakFiles := Z.max (st_PeakFiles s) files;
    st_AcquiredBytes := int64 (st_AcquiredBytes s + size); st_AcquiredCount := int64 (st_AcquiredCount s + 1);
    st_CleanupFailures := st_CleanupFailures s; st_RetriesThrottle := st_RetriesThrottle s; st_RetriesUnavail := st_RetriesUnavail s |}.
(** One turn of [Admit]'s loop, under the lock. *)
Inductive admit_turn := AdmitFails (e : gerror) | AdmitTakes (b : StagingBudget) | AdmitWaits.
Definition admit_loop (b : StagingBudget) (ctx_err : option gerror) (size : Z) : admit_turn :=
  match ctx_err with
  | Some e => AdmitFails e
  | None =>
      if sb_admitBlocked b then AdmitFails (Errorf "uriio: staging cleanup failed; refusing further admits" [])
      else if admit_fits b (counted_size size) then AdmitTakes (admit_take b (counted_size size))
      else AdmitWaits
  end.
Definition Release (b : StagingBudget) (size : Z) : StagingBudget :=
  set_used b (Z.max 0 (int64 (sb_usedBytes b - counted_size size))) (Z.max 0 (int64 (sb_usedFiles b - 1))) (sb_stats b).
Definition NoteCleanupFailure (b : StagingBudget) : StagingBudget :=
  let s := sb_stats b in
  {| sb_maxBytes := sb_maxBytes b; sb_maxFiles := sb_maxFiles b; sb_objectMax := sb_objectMax b;
     sb_usedBytes := sb_usedBytes b; sb_usedFiles := sb_usedFiles b;
     sb_stats := {|
       st_PeakBytes := st_PeakBytes s; st_PeakFiles := st_PeakFiles s; st_AcquiredBytes := st_AcquiredBytes s;
       st_AcquiredCount := st_AcquiredCount s; st_CleanupFailures := int64 (st_CleanupFailures s + 1);
       st_RetriesThrottle := st_RetriesThrottle s; st_RetriesUnavail := st_RetriesUnavail s |};
     sb_admitBlocked := true |}.
Definition NoteRetry (b : StagingBudget) (throttled : bool) : StagingBudget :=
  let s := sb_stats b in
  set_used b (sb_usedBytes b) (sb_usedFiles b) {|
    st_PeakBytes := st_PeakBytes s; st_PeakFiles := st_PeakFiles s; st_AcquiredBytes := st_AcquiredBytes s;
    st_AcquiredCount := st_AcquiredCount s; st_CleanupFailures := st_CleanupFailures s;
    st_RetriesThrottle := if throttled then int64 (st_RetriesThrottle s + 1) else st_RetriesThrottle s;
    st_RetriesUnavail := if throttled then st_RetriesUnavail s else int64 (st_RetriesUnavail s + 1) |}.
Definition StagedBytesExceedAdmit (stat : result Z) (admitted : Z) : result () :=
  size ← stat;
  if (admitted <? size)%Z then errorf "uriio: staged %d bytes exceeds admitted %d; not kept" [AInt size; AInt admitted] else Ok ().
Definition StagingGetSizeMismatch (admitted got : Z) : result () :=
  if (admitted <? got)%Z then errorf "uriio: object size changed during get (%d -> %d); not staged" [AInt admitted; AInt got] else Ok ().

(** ** One acquisition *)
Section acquire.
Context `{PE : ProviderErrors, ET : ErrorText}.

(** [retryTransient]: what follows an answer to the given attempt. *)
Definition acquireRetryLimit : nat := 3.
Inductive retry_turn (A : Type) := RetryOk (a : A) | RetryFails (e : gerror) | RetryWaits (throttled : bool) (last : gerror).
#[global] Arguments RetryOk {A}. #[global] Arguments RetryFails {A}. #[global] Arguments RetryWaits {A}.
Definition retry_after {A} (attempt : nat) (answer : result A) : retry_turn A :=
  match answer with
  | Ok a => RetryOk a
  | Err e =>
      if negb (IsThrottled e) && negb (IsProviderUnavailable e) then RetryFails e
      else if (attempt =? acquireRetryLimit)%nat then RetryFails e
      else RetryWaits (IsThrottled e) e
  end.

Record request := { rq_logicalURI : string; rq_secrets : list string; rq_maxBytes : Z; rq_declaredSize : Z }.
(** The place a goroutine has reached: at the top of a retry loop, waiting for
    its timer, at the top of [Admit]'s loop, in [cond.Wait], with the body open;
    with its source, which it is to clean up; and at an end. *)
Inductive place :=
| AtHead (attempt : nat) | AtHeadWait (attempt : nat) (last : gerror)
| AtAdmit | AtAsleep
| AtGet (attempt : nat) | AtGetWait (attempt : nat) (last : gerror)
| AtWrite | AtAcquired
| AtReleased | AtLeaked | AtFailed (e : gerror).
(** A goroutine's context: live, done, done with [AfterFunc]'s function run. *)
Inductive ctx_state := CtxLive | CtxDone | CtxFired.
Record caller := {
  ca_req : request;
  ca_ctx : ctx_state;
  ca_size : Z;          (* size *)
  ca_admitted : bool;   (* admitted *)
  ca_disk : Z;          (* bytes of its staged file *)
  ca_at : place }.
Definition caller_start (rq : request) : caller :=
  {| ca_req := rq; ca_ctx := CtxLive; ca_size := 0; ca_admitted := false; ca_disk := 0; ca_at := AtHead 0 |}.
Definition go (c : caller) (at_ : place) : caller :=
  {| ca_req := ca_req c; ca_ctx := ca_ctx c; ca_size := ca_size c; ca_admitted := ca_admitted c; ca_disk := ca_disk c; ca_at := at_ |}.
Definition with_ctx (c : caller) (ctx : ctx_state) : caller :=
  {| ca_req := ca_req c; ca_ctx := ctx; ca_size := ca_size c; ca_admitted := ca_admitted c; ca_disk := ca_disk c; ca_at := ca_at c |}.
Definition with_size (c : caller) (size : Z) : caller :=
  {| ca_req := ca_req c; ca_ctx := ca_ctx c; ca_size := size; ca_admitted := ca_admitted c; ca_disk := ca_disk c; ca_at := ca_at c |}.
Definition with_disk (c : caller) (disk : Z) : caller :=
  {| ca_req := ca_req c; ca_ctx := ca_ctx c; ca_size := ca_size c; ca_admitted := ca_admitted c; ca_disk := disk; ca_at := ca_at c |}.
Definition with_admitted (c : caller) (admitted : bool) : caller :=
  {| ca_req := ca_req c; ca_ctx := ca_ctx c; ca_size := ca_size c; ca_admitted := admitted; ca_disk := ca_disk c; ca_at := ca_at c |}.

Context (ctx_error : gerror).
Definition ctx_err (c : caller) : option gerror := match ca_ctx c with CtxLive => None | _ => Some ctx_error end.

(** [releaseAdmit]; the flag says whether the waiters are woken. *)
Definition releaseAdmit (b : StagingBudget) (c : caller) : StagingBudget * caller * bool :=
  if ca_admitted c then (Release b (ca_size c), with_admitted c false, true) else (b, c, false).
(** The caller's end with an error after [releaseAdmit]. *)
Definition end_failed (b : StagingBudget) (c : caller) (e : gerror) : StagingBudget * caller * bool :=
  let '(b, c, woken) := releaseAdmit b c in (b, go c (AtFailed e), woken).

Definition object_error (op : string) (c : caller) (e : gerror) : gerror :=
  classifyObjectError op e (rq_logicalURI (ca_req c)) (rq_secrets (ca_req c)).
Definition over_cap (rq : request) (n : Z) : result () :=
  if (0 <? rq_maxBytes rq)%Z && (rq_maxBytes rq <? n)%Z then
    errorf "uriio: object %s is %d bytes, exceeding the %d-byte cap; not staged" [AStr (rq_logicalURI rq); AInt n; AInt (rq_maxBytes rq)]
  else Ok ().
(** What is checked of the size before [Admit]'s loop. *)
Definition head_checks (b : StagingBudget) (rq : request) (size : Z) : result () :=
  _ ← (if (0 <=? rq_declaredSize rq)%Z && negb (size =? rq_declaredSize rq)%Z then
         errorf "uriio: object %s size %d does not match declared size %d; not staged: %w"
           [AStr (rq_logicalURI rq); AInt size; AInt (rq_declaredSize rq); AErr ErrDeclaredSizeMismatch]
       else Ok ());
  _ ← over_cap rq size;
  admit_size b size.
Definition get_checks (rq : request) (size got : Z) : result () := _ ← over_cap rq got; StagingGetSizeMismatch size got.
(** [io.LimitReader(body, size+1)]: the most that is written. *)
Definition write_limit (size : Z) : Z := Z.max 0 (int64 (size + 1)).

(** ** The moves *)

(** What comes from outside: the provider's answers, the timer or the end of
    the context while waiting for it, what writing left on the disk, whether a
    file could be removed. *)
Inductive write_answer := WriteFails (e : gerror) (kept : Z) | Written (disk : Z) (stat_err : option gerror) (removed : bool).
Inductive staging_event :=
| EvHead (answer : result Z) | EvGet (answer : result Z) | EvTimer | EvCtxDone
| EvAdmit | EvWrite (answer : write_answer) | EvCleanup (removed : bool)
| EvAfterFunc | EvCancel.

Definition head_end (b : StagingBudget) (c : caller) (e : gerror) : StagingBudget * caller * bool :=
  (b, go c (AtFailed (object_error "head" c e)), false).
Definition head_move (b : StagingBudget) (c : caller) (attempt : nat) (answer : result Z) : StagingBudget * caller * bool :=
  match ctx_err c with
  | Some e => head_end b c e
  | None =>
      match retry_after attempt answer with
      | RetryOk size =>
          let c := with_size c size in
          match head_checks b (ca_req c) size with
          | Ok _ => (b, go c AtAdmit, false)
          | Err e => (b, go c (AtFailed e), false)
          end
      | RetryFails e => head_end b c e
      | RetryWaits throttled last => (NoteRetry b throttled, go c (AtHeadWait attempt last), false)
      end
  end.
Definition admit_move (b : StagingBudget) (c : caller) : StagingBudget * caller * bool :=
  match admit_loop b (ctx_err c) (ca_size c) with
  | AdmitFails e => (b, go c (AtFailed e), false)
  | AdmitTakes b => (b, go (with_admitted c true) (AtGet 0), false)
  | AdmitWaits => (b, go c AtAsleep, false)
  end.
Definition get_end (b : StagingBudget) (c : caller) (e : gerror) : StagingBudget * caller * bool := end_failed b c (object_error "get" c e).
Definition get_move (b : StagingBudget) (c : caller) (attempt : nat) (answer : result Z) : StagingBudget * caller * bool :=
  match ctx_err c with
  | Some e => get_end b c e
  | None =>
      match retry_after attempt (got ← answer; get_checks (ca_req c) (ca_size c) got) with
      | RetryOk _ => (b, go c AtWrite, false)
      | RetryFails e => get_end b c e
      | RetryWaits throttled last => (NoteRetry b throttled, go c (AtGetWait attempt last), false)
      end
  end.
Definition write_move (b : StagingBudget) (c : caller) (answer : write_answer) : StagingBudget * caller * bool :=
  match answer with
  | WriteFails e kept => end_failed b (with_disk c kept) e
  | Written disk stat_err removed =>
      match StagedBytesExceedAdmit (match stat_err with Some e => Err e | None => Ok disk end) (ca_size c) with
      | Ok _ => (b, go (with_disk c disk) AtAcquired, false)
      | Err e => end_failed b (with_disk c (if removed then 0 else disk)%Z) e
      end
  end.
(** [Cleanup] of the source; a second call finds no clean-up to do. *)
Definition cleanup_move (b : StagingBudget) (c : caller) (removed : bool) : StagingBudget * caller * bool :=
  if removed then let '(b, c, woken) := releaseAdmit b (with_disk c 0) in (b, go c AtReleased, woken)
  else (NoteCleanupFailure b, go c AtLeaked, true).
Definition retry_next (attempt : nat) (last : gerror) (again : nat → place) : place + gerror :=
  if (attempt + 1 <=? acquireRetryLimit)%nat then inl (again (attempt + 1)) else inr last.

Definition disk_of (answer : write_answer) : Z := match answer with WriteFails _ kept => kept | Written disk _ _ => disk end.
Definition admit_called (at_ : place) : bool := match at_ with AtHead _ | AtHeadWait _ _ => false | _ => true end.
(** [None]: the event does not meet the goroutine where it is. *)
Definition caller_move (b : StagingBudget) (c : caller) (ev : staging_event) : option (StagingBudget * caller * bool) :=
  match ev, ca_at c with
  | EvHead answer, AtHead attempt => Some (head_move b c attempt answer)
  | EvTimer, AtHeadWait attempt last =>
      Some match retry_next attempt last AtHead with inl at_ => (b, go c at_, false) | inr e => head_end b c e end
  | EvCtxDone, AtHeadWait _ _ => e ← ctx_err c; Some (head_end b c e)
  | EvAdmit, AtAdmit => Some (admit_move b c)
  | EvGet answer, AtGet attempt => Some (get_move b c attempt answer)
  | EvTimer, AtGetWait attempt last =>
      Some match retry_next attempt last AtGet with inl at_ => (b, go c at_, false) | inr e => get_end b c e end
  | EvCtxDone, AtGetWait _ _ => e ← ctx_err c; Some (get_end b c e)
  | EvWrite answer, AtWrite =>
      if (0 <=? disk_of answer)%Z && (disk_of answer <=? write_limit (ca_size c))%Z then Some (write_move b c answer) else None
  | EvCleanup removed, AtAcquired => Some (cleanup_move b c removed)
  | EvAfterFunc, at_ =>
      match ca_ctx c with CtxDone => if admit_called at_ then Some (b, with_ctx c CtxFired, true) else None | _ => None end
  | EvCancel, _ => match ca_ctx c with CtxLive => Some (b, with_ctx c CtxDone, false) | _ => None end
  | _, _ => None
  end.

(** ** All of them *)
Record staging := { sg_budget : StagingBudget; sg_callers : list caller }.
(** [cond.Broadcast]. *)
Definition wake (c : caller) : caller := match ca_at c with AtAsleep => go c AtAdmit | _ => c end.
Definition moved (cs1 : list caller) (r : StagingBudget * caller * bool) (cs2 : list caller) : staging :=
  let '(b, c, woken) := r in
  let cs := cs1 ++ c :: cs2 in
  {| sg_budget := b; sg_callers := if woken : bool then wake <$> cs else cs |}.
Inductive staging_step (s : staging) : staging → Prop :=
| staging_move cs1 c cs2 ev r :
    sg_callers s = cs1 ++ c :: cs2 → caller_move (sg_budget s) c ev = Some r → staging_step s (moved cs1 r cs2).
(** A step other than the end of a context. *)
Inductive staging_work (s : staging) : staging → Prop :=
| staging_works cs1 c cs2 ev r :
    sg_callers s = cs1 ++ c :: cs2 → ev ≠ EvCancel → caller_move (sg_budget s) c ev = Some r → staging_work s (moved cs1 r cs2).
Definition staging_start (cfg : StagingBudgetConfig) (rqs : list request) : staging :=
  {| sg_budget := NewStagingBudget cfg; sg_callers := caller_start <$> rqs |}.
(** A schedule: which goroutine meets which event. *)
Fixpoint staging_run (schedule : list (nat * staging_event)) (s : staging) : option staging :=
  match schedule with
  | [] => Some s
  | (i, ev) :: schedule =>
      match drop i (sg_callers s) with
      | [] => None
      | c :: cs2 => r ← caller_move (sg_budget s) c ev; staging_run schedule (moved (take i (sg_callers s)) r cs2)
      end
  end.
Definition ended (c : caller) : Prop := match ca_at c with AtReleased | AtLeaked | AtFailed _ => True | _ => False end.
Lemma staging_run_sound schedule s s' : staging_run schedule s = Some s' → rtc staging_step s s'.
Proof.
  revert s. induction schedule as [|[i ev] schedule IH]; intros s; cbn [staging_run]; [by intros [= ->]|].
  destruct (drop i (sg_callers s)) as [|c cs2] eqn:Hd; [done|]. intros (r & Hm & Hrun)%bind_Some.
  eapply rtc_l; [|by apply IH]. eapply staging_move; [|exact Hm]. rewrite <- Hd. by rewrite take_drop.
Qed.
End acquire.
